(* ===== verification/_CoqProject ===== *)
-Q . S2P
Prelude.v
AtlTag.v
Comm.v
Sched.v
Network.v
Race.v
Bsp.v
Build.v
Reduction.v
Frame.v
Par.v
Parts.v
Tree.v
ReduceScatter.v
Allgatherv.v
RingParts.v
Allreduce.v
Bcast.v
Chunked.v
Alltoallv.v
AlltoallvParts.v
Barrier.v
Reduce.v
Doubling.v
Rabenseifner.v
Nreduce.v
DoubleTree.v
Progress.v
Request.v
Queue.v
Worker.v
SelectTable.v
Selection.v
Coll.v
Dispatch.v
Pt2pt.v
Comp.v
Cache.v
Unordered.v
Parallelizer.v
BufferCache.v
Fusion.v
Group.v
Executor.v
Datatype.v
Param.v
Kvs.v
Pmi.v
