(* ===== verification/Prelude.v ===== *)
(** * Verification of the host side of oneCCL

    oneCCL ([src/src]) runs collective operations of a group of ranks.  A call
    builds a schedule, a list of entries (sends, receives, copies, reductions)
    with barriers between groups of entries; worker threads progress the
    schedules over a transport until every entry is complete.  The development
    models that path, from the algorithms that build schedules down to the
    loops that run them, and proves that what the ranks end with is what the
    collective promises.

    ** Parts and files

    - [Prelude]: results of fallible code, automation, machine integers, lists,
      arithmetic modulo the number of ranks.
    - [AtlTag]: message tags ([comm/atl_tag.hpp], [comm/atl_tag.cpp]) as 64-bit
      integers with the layouts of the three transports.
    - [Comm]: communicator ids ([atl/atl_base_transport.hpp],
      [atl/atl_base_comm.cpp]), schedule ids and rank maps ([comm/comm.cpp]).
    - [Sched]: buffers, entries, the schedule under construction and the effect
      of an entry on a rank's memory ([common/utils/buffer.hpp], [sched/entry]).
      The builders are functions in the monad [build]: schedule passing with
      errors.
    - [Network]: the ranks as a step relation [gstep] over their memories and
      the channels between them: entries start in order, complete in any order,
      a barrier waits for all before it; sends complete eagerly or by rendezvous.
    - [Race]: entries in flight together that touch disjoint memory commute, so
      that all runs of a race-free program end alike ([run_determines]).
    - [Bsp]: supersteps.  [collective] is the guarantee of a collective: every
      run, in any interleaving and with either transport, is bounded, is never
      stuck before the end, and ends with the postcondition.  [bsp_collective]
      derives it from a sequence of matching supersteps; [bsp_exec] evaluates
      supersteps on concrete memories.
    - [Build], [Reduction]: what builders leave in a schedule, races group by
      group, memories as arrays; reductions over ranks.  [implements] says that
      a builder returns on every rank and that its schedules are a [collective].
    - [ReduceScatter], [Allgatherv], [Allreduce] (the ring), [Doubling],
      [Rabenseifner] and [Nreduce] (three more allreduces), [Bcast], [Alltoallv], [Barrier], [Reduce]:
      the algorithms of [coll/algorithms]; [Chunked]: the chunked entries of
      [sched/entry/factory] and functions over several schedules.  [RingParts] and
      [AlltoallvParts]: the ring allgatherv and the naive alltoallv over the schedules
      of several workers.
    - [Progress]: the status machine of an entry ([sched/entry/entry.cpp]), flow
      control, [ccl_sched::do_progress] and the test of the strict order, which asks
      the sub-schedules of collective entries too.
    - [Request]: request counters ([common/request/request.cpp]), the restart of
      cached schedules ([sched/sched_restart_manager.cpp], [sched/sched.cpp]) as
      a step relation of a user thread and workers.
    - [Queue]: the priority bins of a worker ([sched/queue/queue.cpp]), shared by
      the threads that add schedules and the worker.
    - [Worker]: a turn of [ccl_worker::do_work] with the strict queue
      ([exec/thread/worker.cpp], [sched/queue/strict_queue.cpp]).
    - [SelectTable], [Selection]: the size tables of algorithm selection
      ([coll/selection/selector_impl.hpp]), the configuration strings, and the
      selectors of a host build ([coll/selection/selector_*.cpp]) as instances of
      the class [ccl_algorithm_selector_helper].
    - [Coll], [Dispatch], [Pt2pt]: the dispatch of [coll/coll.cpp], from a selector
      to a builder, for reductions, for the other collectives and for send and recv
      ([coll/algorithms/send], [coll/algorithms/recv]).
    - [Param]: the parameters of a call and their checks ([coll/coll_param.cpp],
      [coll/coll_check.cpp]).
    - [Comp]: the kernels that reduce elements ([comp]), with the vector
      instructions of bfloat16 and half precision.
    - [Frame], [Par], [Parts]: frame rules for entries, several programs of a rank
      that run side by side (sub-schedules, partial schedules), and how they are
      built.  [par_frame] derives the guarantee for all of them from the guarantee
      for each on its own part of the memory.
    - [Tree], [DoubleTree]: the two binary trees of a communicator
      ([common/utils/tree.hpp]) and the double-tree allreduce, reduce and bcast
      with their sub-schedules ([coll/algorithms/double_tree_ops.cpp]).
    - [Parallelizer]: how a collective is cut into partial schedules
      ([parallelizer/parallelizer.cpp], [sched/entry/coll/coll_entry.cpp]).
    - [Cache]: keys of calls and the schedule cache ([sched/cache]).
    - [Unordered]: the agreement on an order of collectives that the ranks call in
      different orders ([unordered_coll/unordered_coll.cpp]).
    - [Fusion]: the fusion of small allreduces ([fusion/fusion.cpp]) with a user
      thread that waits and tests ([exec/exec.cpp]); [Executor]: schedules and
      endpoints of the workers ([exec/exec.cpp]).
    - [BufferCache]: the buffers of schedules ([sched/buffer]); [Group]: group calls
      ([coll/group/group.cpp]); [Datatype]: predefined and custom datatypes
      ([common/datatype/datatype.cpp]).
    - [Kvs]: the key-value store that the processes of a job meet in: its codec,
      the requests as bytes and the server ([atl/util/pm]); [Pmi]: its clients,
      which put and get values, enter barriers and register.

    ** What is proved

    The algorithm files show, for any number of ranks, element count, chunking
    and operation, that the builders return and that their schedules compute the
    collective ([..._correct]) from every initial memory and in every
    interleaving; termination and freedom from deadlock are part of
    [collective].  [Allreduce] also shows that all ranks agree when the operation
    is not associative; [Barrier] that no rank leaves before every rank has
    entered.  [Progress] connects the two levels: a call of
    [do_progress] is a run of the scheduler of [Network] for that rank
    ([do_progress_refines_network]), and polling finishes.  [Queue], [Request]
    and [Worker] show invariants over all interleavings of the threads: no
    internal check fails, the highest priority is served, calls of a cached
    schedule run in order and none is forgotten.  [AtlTag] and [Comm] show that
    tags and ids are in range and are distinguished as far as the code
    distinguishes them: fields that fit into their layout give different tags
    ([create_roundtrip]), and [DoubleTree] allows as many parts as a layout has op ids.  [SelectTable] shows that an insert overwrites a range of
    sizes and nothing else, where it does; [Selection] that configurations are read
    back as written and that every allreduce gets a usable algorithm.  [Nreduce]
    also covers a program with races: its receives reduce into one buffer while
    they are in flight together, and commute because the operation does.  [Coll]
    composes selection and algorithms: a default allreduce over OFI is correct
    for every size ([ofi_allreduce_correct]), and so is one with any configuration
    the user may write ([configured_allreduce_correct], Rabenseifner's algorithm for the
    counts its ints can hold); [Parallelizer] adds the split
    into parts, each with an algorithm of its own
    ([partitioned_allreduce_correct]), [Dispatch] does the same for allgather,
    allgatherv, bcast and barrier ([ofi_allgather_correct]), [Pt2pt] for a send with
    its receive, and [Param] says exactly which calls are accepted
    ([accepted_iff_legal]); no part is too large for a transport
    ([parts_fit_transport]).  [Comp] shows that the kernels reduce element by
    element, inside of the buffers, and that reductions of integers are
    associative and commutative, so that an allreduce of integers, with the kernel as its
    operation and a reduction that cannot overflow, has the exact result modulo the
    width ([integer_allreduce_exact]).  [Tree] shows that the neighbours that each rank
    computes on its own fit together into two trees.  [Cache] shows that the full
    key tells all calls apart and that a schedule in use is not destroyed, even when a
    change of its key throws,
    [Unordered] that calls are started once and, once matched, are started.
    [Fusion] shows that the groups that are fused depend on the user's program
    only, not on the times at which the service worker runs
    ([fusion_groups_determined]), that they fit into the buffer and that a user
    who waits is served, unless the only worker finds a fused schedule in the cache that
    still runs; [BufferCache] that no buffer has two owners as long as buffers are
    returned as they were allocated, [Datatype]
    that a new datatype gets an index of its own, [Executor] that successive
    partial schedules are on different workers.  [Kvs] shows, over all histories
    of a server, that a value put before a barrier is seen after it
    ([put_visible_after_barrier]), that a barrier opens for all when the last has
    entered, if no client's connection was closed, and that a connection always finds
    a slot; [Pmi] that bytes come back as they were put, that processes that set the
    size of a communicator and register, in any order, are told a consistent
    placement, and that a process removes what it has put.
    Theorems that state defects of the code are listed as findings:
    [internal_ids_reach_reserved], [ring_broadcast_out_of_place],
    [ring_bcast_truncates], [naive_alltoallv_one_way_lost],
    [naive_alltoallv_chunk_race], [insert_defects], [op_ids_collide],
    [every_rank_needs_both_buffers], [key_check_accepts_other_datatype],
    [lost_schedule], [no_parts_divides], [allgather_multi_bcast_overruns],
    [wait_behind_other_kind], [test_splits_groups], [fused_key_collides],
    [fallback_not_preserved], [overlap_check_vacuous], [uint16_prod_undefined],
    [vector_kernel_overflows], [bf16_min_of_nan],
    [fp16_reduce_scatter_not_reduced], [pmix_modes_not_excluded],
    [hostname_with_underscore], [longest_name_not_terminated],
    [late_value_lost], [alltoallv_ranks_disagree], [negative_root_accepted],
    [custom_reduce_scatter_accepted], [custom_reduction_without_function],
    [binomial_ignores_commutativity], [long_count_truncated],
    [failed_recache_loses_sched], [closed_client_ends_server], [overlap_throws].

    ** Conventions and bounds

    A byte offset is a [nat]; an element of [dsz] bytes lives in the cell of its
    first byte.  Memory is a finite map: an access outside every allocation has
    no result, so a completed run stayed in bounds.  Integers are [Z] with the
    width written out where the code depends on it (tags, ids, the byte count of
    the ring broadcast, the counts of Rabenseifner's allreduce); the other sizes are [size_t] and are taken not to wrap.
    The reduction is a parameter [op]; [Comp] has instances of it.  Loops of the code are structural
    recursions on their number of iterations or have fuel: the trees of [Bcast]
    and [Reduce] and the rounds of [Barrier] use the communicator size plus one
    (their mask doubles or halves), the rounds of [Doubling] and [Rabenseifner]
    the power of two plus one, the search of [Queue] the highest priority, the turns of [Worker] the
    length of the bin, the loops of [SelectTable] the size of the table, the height
    of a node of [Tree] the 31 bits of a rank, the search of [Datatype] the number
    of datatypes plus one;
    the theorems show that the fuel is not exhausted (the model throws when it
    is, and they show that nothing throws).

    ** Not modelled

    Device code (SYCL, Level Zero), the transports themselves (their contract is
    [Network]), the sockets under the key-value store and the other launchers,
    topology queries, environment and logging, vendored code.  Of the modelled parts: timers, dumps, and the direct
    and topology-aware algorithms, which hand the operation to a transport or a
    device; their builders are an argument of [Coll] and
    [Dispatch], as are the flat, multi-bcast and scatter algorithms.  The naive alltoallv
    in place is proved for one schedule only (with several it has a race,
    [naive_alltoallv_chunk_race]).  Of the calls, the requests and the
    attributes around the checks of [Param].  Of the parallelizer, the
    entries that make partial schedules wait for each other or for events: a run
    with them is one of the interleavings.  A send reads its data when it starts
    (the double tree relies on it).  The two-dimensional allreduce runs over
    sub-communicators of rows and columns, which [Comm] does not build; the RMA
    allreduce writes into the memory of other ranks, which [Network] does not
    have. *)

From Stdlib Require Export ZArith Lia.
From stdpp Require Export base list gmap fin_maps.

(** * Results of fallible code

    [CCL_THROW], [CCL_THROW_IF_NOT], [CCL_FATAL] and [CCL_ASSERT] abandon the
    current computation; code that can reach one returns a [result]. *)

Inductive result (A : Type) : Type :=
| Ok (a : A)
| Throw.
Arguments Ok {A} _.
Arguments Throw {A}.

Definition result_bind {A B} (m : result A) (f : A -> result B) : result B :=
  match m with Ok a => f a | Throw => Throw end.

Declare Scope ccl_scope.
Delimit Scope ccl_scope with ccl.
Notation "x <-! m ;; k" := (result_bind m (fun x => k))
  (at level 60, m at next level, right associativity) : ccl_scope.
Notation "'throw_if_not' c ;; k" := (if c then k else Throw)
  (at level 60, c at next level, right associativity) : ccl_scope.

#[export] Instance result_eq_dec {A} `{EqDecision A} : EqDecision (result A).
Proof. solve_decision. Defined.

(** Where the code can also reach undefined behaviour (an iterator that has been invalidated, an
    overflow of [int], an access outside of an array) it returns an [outcome]. *)

Inductive outcome (A : Type) : Type :=
| Returns (a : A)
| Throws
| Undefined.
Arguments Returns {A} _.
Arguments Throws {A}.
Arguments Undefined {A}.

Definition outcome_bind {A B} (m : outcome A) (f : A -> outcome B) : outcome B :=
  match m with Returns a => f a | Throws => Throws | Undefined => Undefined end.

Notation "x <-? m ;; k" := (outcome_bind m (fun x => k))
  (at level 60, m at next level, right associativity) : ccl_scope.
Notation "'check' c ;; k" := (if c then k else Throws)
  (at level 60, c at next level, right associativity) : ccl_scope.

#[export] Instance outcome_eq_dec {A} `{EqDecision A} : EqDecision (outcome A).
Proof. solve_decision. Defined.

(** * Automation *)

Create HintDb ccl.

Ltac inv H := inversion H; clear H; simplify_eq.

(** Case analysis on every [decide] of the goal, without the impossible cases. *)
Ltac cases_lia :=
  repeat case_decide; try (exfalso; lia); try (exfalso; intuition (lia || congruence)).

(** Bit-by-bit equality of two integer expressions. *)
Ltac bits_ext i Hi := apply Z.bits_inj'; intros i Hi.

(** * Machine integers *)

Open Scope Z_scope.

Definition wrap (w x : Z) : Z := x mod 2 ^ w.
Abbreviation u8 := (wrap 8).
Abbreviation u16 := (wrap 16).
Abbreviation u32 := (wrap 32).
Abbreviation u64 := (wrap 64).

(** A [size_t] converted to an [int]. *)
Definition int32 (x : Z) : Z := (x + 2 ^ 31) mod 2 ^ 32 - 2 ^ 31.

Lemma int32_small (x : Z) : - 2 ^ 31 <= x < 2 ^ 31 -> int32 x = x.
Proof. intros H. unfold int32. rewrite Z.mod_small; lia. Qed.

Lemma int32_le (x : Z) : 0 <= x -> int32 x <= x.
Proof. intros H. unfold int32. pose proof (Z.mod_le (x + 2 ^ 31) (2 ^ 32)). lia. Qed.

Lemma int32_add (x : Z) : int32 (2 ^ 32 + x) = int32 x.
Proof. unfold int32. f_equal. replace (2 ^ 32 + x + 2 ^ 31) with (x + 2 ^ 31 + 1 * 2 ^ 32) by lia. by rewrite Z.mod_add. Qed.

Lemma wrap_small (w x : Z) : 0 <= x < 2 ^ w -> wrap w x = x.
Proof. apply Z.mod_small. Qed.

Lemma wrap_range (w x : Z) : 0 <= w -> 0 <= wrap w x < 2 ^ w.
Proof. intros. apply Z.mod_pos_bound, Z.pow_pos_nonneg; lia. Qed.

Lemma testbit_wrap (w x i : Z) : 0 <= w ->
  Z.testbit (wrap w x) i = bool_decide (i < w) && Z.testbit x i.
Proof.
  intros Hw. unfold wrap. case_bool_decide.
  - by rewrite Z.mod_pow2_bits_low.
  - rewrite Z.mod_pow2_bits_high by lia. done.
Qed.

(** The bits at or above [w] of a number below [2 ^ w] are clear. *)
Lemma testbit_above (w x i : Z) : 0 <= x < 2 ^ w -> w <= i -> Z.testbit x i = false.
Proof.
  intros Hx Hi. destruct (Z.eq_dec x 0) as [->|]; [apply Z.bits_0|].
  apply Z.bits_above_log2; [lia|].
  apply Z.log2_lt_pow2; [lia|].
  eapply Z.lt_le_trans; [apply Hx|]. apply Z.pow_le_mono_r; lia.
Qed.

Lemma land_le_r (x y : Z) : 0 <= y -> Z.land x y <= y.
Proof.
  intros Hy.
  assert (Hd : y - Z.land x y = Z.ldiff y (Z.land x y)).
  { apply Z.sub_nocarry_ldiff. bits_ext i Hi.
    rewrite Z.ldiff_spec, Z.land_spec, Z.bits_0.
    destruct (Z.testbit x i), (Z.testbit y i); done. }
  assert (0 <= Z.ldiff y (Z.land x y)) by (apply Z.ldiff_nonneg; lia).
  lia.
Qed.

Close Scope Z_scope.


(** Membership in a list of a few given elements. *)
Ltac mem_tac := solve [left | right; left | right; right; left | right; right; right; left].

Lemma filter_iff_in {A} (P Q : A -> Prop) `{!forall x, Decision (P x), !forall x, Decision (Q x)} (l : list A) :
  (forall x, x ∈ l -> P x <-> Q x) -> filter P l = filter Q l.
Proof.
  induction l as [|x l IH]; intros Hiff; [done|]. rewrite !filter_cons, IH by (intros; apply Hiff; by right).
  specialize (Hiff x ltac:(left)). repeat case_decide; naive_solver.
Qed.

Lemma filter_none {A} (P : A -> Prop) `{!forall x, Decision (P x)} (l : list A) :
  (forall x, x ∈ l -> ~ P x) -> filter P l = [].
Proof.
  intros Hno. destruct (filter P l) as [|x l'] eqn:E; [done|]. exfalso.
  assert (Hx : x ∈ filter P l) by (rewrite E; left).
  apply list_elem_of_filter in Hx as [HP Hx]. by apply (Hno x).
Qed.

(** A loop of which at most one iteration contributes. *)
Lemma bind_seq_none {A} lo n (h : nat -> list A) :
  (forall i, lo <= i < lo + n -> h i = []) -> seq lo n ≫= h = [].
Proof.
  revert lo. induction n as [|n IH]; intros lo H; [done|]. cbn. rewrite H by lia.
  rewrite IH; [done|]. intros i Hi. apply H. lia.
Qed.

Lemma bind_seq_one {A} lo n (h : nat -> list A) k :
  lo <= k < lo + n -> (forall i, lo <= i < lo + n -> i <> k -> h i = []) -> seq lo n ≫= h = h k.
Proof.
  revert lo. induction n as [|n IH]; intros lo Hk H; [lia|]. cbn. destruct (decide (lo = k)) as [->|Hne].
  - rewrite bind_seq_none; [by rewrite app_nil_r|]. intros i Hi. apply H; lia.
  - rewrite H by lia. rewrite (IH (S lo)); [done|lia|]. intros i Hi. apply H. lia.
Qed.

(** * Arithmetic modulo a rank count *)

Lemma mod_cases (a N : nat) : a < 2 * N ->
  (a < N /\ a mod N = a) \/ (N <= a /\ a mod N = a - N).
Proof.
  intros H. destruct (decide (a < N)) as [Hlt|Hge]; [left; split; [done|by apply Nat.mod_small]|].
  right. split; [lia|]. replace a with (a - N + 1 * N) at 1 by lia.
  rewrite Nat.Div0.mod_add. apply Nat.mod_small. lia.
Qed.

Lemma mod_cases3 (a N : nat) : a < 3 * N ->
  (a < N /\ a mod N = a) \/ (N <= a < 2 * N /\ a mod N = a - N) \/ (2 * N <= a /\ a mod N = a - 2 * N).
Proof.
  intros H. destruct (decide (a < 2 * N)) as [Hlt|Hge].
  - destruct (mod_cases a N Hlt) as [?|[? ?]]; [by left|right; left; lia].
  - right. right. split; [lia|]. replace a with (a - 2 * N + 2 * N) at 1 by lia.
    rewrite Nat.Div0.mod_add. apply Nat.mod_small. lia.
Qed.

(** Replace every [a mod N] with [a < 3 * N] by its value, by cases, innermost first. *)
Ltac mod_one a N :=
  lazymatch a with context [_ mod _] => fail | _ => idtac end;
  let H := fresh "Hmod" in
  first [ destruct (mod_cases a N ltac:(lia)) as [[? H]|[? H]]
        | destruct (mod_cases3 a N ltac:(lia)) as [[? H]|[[? H]|[? H]]] ];
  rewrite H in *; clear H.
Ltac mod_split :=
  repeat match goal with
  | |- context [?a mod ?N] => mod_one a N
  | H0 : context [?a mod ?N] |- _ => mod_one a N
  end.
Ltac mod_lia := mod_split; lia.
