(* ===== verification/AtlTag.v ===== *)
(** Message tags of the abstract transport layer: [src/src/comm/atl_tag.hpp],
    [src/src/comm/atl_tag.cpp] and [ccl::utils::pof2] of
    [src/src/common/utils/utils.cpp].

    A tag packs (rank, comm_id, sched_id, op_id) into the bits the provider
    offers.  The file models the three layouts, the tag creator's constructor
    and [create], and shows that the packing loses nothing when the provider
    offers the layout's bits, that [create] never throws for a usable
    [max_tag], and that an MPI provider with a small [max_tag] still keeps
    sched_id and op_id. *)

From S2P Require Import Prelude.
Open Scope Z_scope.
Open Scope ccl_scope.

(** * pof2: the greatest power of two not above a number *)

Definition last_bit_mask : Z := u64 (Z.shiftl 1 (8 * 8 - 1)).

Fixpoint pof2_loop (fuel : nat) (number p : Z) : option Z :=
  if p <=? number then
    match fuel with
    | O => None
    | S fuel' => pof2_loop fuel' number (u64 (Z.shiftl p 1))
    end
  else Some p.

(** The loop body runs at most 63 times when the top bit of [number] is clear;
    [None] stands for a loop that does not end. *)
Definition pof2 (number : Z) : option Z :=
  if negb (Z.land number last_bit_mask =? 0) then Some last_bit_mask
  else match pof2_loop 64 number 1 with
       | Some p => Some (Z.shiftr p 1)
       | None => None
       end.

(** * Layouts *)

Record layout := {
  sched_bits : Z;  (* the template argument N of pt2pt_tag_layout *)
  op_id_shift : Z; sched_id_shift : Z; comm_id_shift : Z; rank_shift : Z;
  op_id_mask : Z; sched_id_mask : Z; comm_id_mask : Z; rank_mask : Z }.

Definition pt2pt_sched_id (L : layout) : Z := u16 (Z.shiftl 1 (sched_bits L) - 1).
Definition pt2pt_ack_tag (L : layout) : Z := u16 (pt2pt_sched_id L - 1).
Definition pt2pt_ack_first (L : layout) : Z := u16 (pt2pt_sched_id L - 2).
Definition pt2pt_ack_second (L : layout) : Z := u16 (pt2pt_sched_id L - 3).
Definition max_sched_count (L : layout) : Z := u16 (pt2pt_sched_id L - 4).

Definition common_tag_layout : layout := {|
  sched_bits := 16;
  op_id_shift := 0; sched_id_shift := 8; comm_id_shift := 24; rank_shift := 40;
  op_id_mask := 0x00000000000000FF; sched_id_mask := 0x0000000000FFFF00;
  comm_id_mask := 0x000000FFFF000000; rank_mask := 0xFFFFFF0000000000 |}.

Definition ofi_cxi_tag_layout : layout := {|
  sched_bits := 12;
  op_id_shift := 0; sched_id_shift := 4; comm_id_shift := 16; rank_shift := 28;
  op_id_mask := 0x000000000000000F; sched_id_mask := 0x000000000000FFF0;
  comm_id_mask := 0x000000000FFF0000; rank_mask := 0x0000FFFFF0000000 |}.

Definition mpi_tag_layout : layout := {|
  sched_bits := 12;
  op_id_shift := 0; sched_id_shift := 4; comm_id_shift := 16; rank_shift := 24;
  op_id_mask := 0x000000000000000F; sched_id_mask := 0x000000000000FFF0;
  comm_id_mask := 0x0000000000FF0000; rank_mask := 0x00000000FF000000 |}.

(** * The tag creator *)

Record ccl_atl_tag := { tag_bits : Z; max_tag : Z; max_tag_mask : Z }.

(** The constructor: throws when the provider offers fewer than 32 bits.  All
    arithmetic is on [size_t]. *)
Definition make_atl_tag (bits maxt : Z) : result ccl_atl_tag :=
  throw_if_not (32 <=? bits) ;;
  match pof2 maxt with
  | None => Throw
  | Some p =>
    Ok {| tag_bits := bits; max_tag := maxt;
          max_tag_mask := if maxt =? u64 (u64 (p * 2) - 1) then maxt else u64 (p - 1) |}
  end.

(** The fields as the caller passes them: an [int] rank (converted to [uint64_t]
    by sign extension), [uint16_t] ids and a [uint8_t] op_id. *)
Record tag_fields := { f_rank : Z; f_comm : Z; f_sched : Z; f_op : Z }.

Definition fields_ok (f : tag_fields) : Prop :=
  - 2 ^ 31 <= f_rank f < 2 ^ 31 /\ 0 <= f_comm f < 2 ^ 16 /\
  0 <= f_sched f < 2 ^ 16 /\ 0 <= f_op f < 2 ^ 8.

Definition put_field (shift mask v tag : Z) : Z :=
  Z.lor tag (Z.land (u64 (Z.shiftl (u64 v) shift)) mask).

Definition raw_tag (L : layout) (f : tag_fields) : Z :=
  let tag := 0 in
  let tag := put_field (op_id_shift L) (op_id_mask L) (f_op f) tag in
  let tag := put_field (sched_id_shift L) (sched_id_mask L) (f_sched f) tag in
  let tag := put_field (comm_id_shift L) (comm_id_mask L) (f_comm f) tag in
  let tag := put_field (rank_shift L) (rank_mask L) (f_rank f) tag in
  tag.

Definition create (L : layout) (t : ccl_atl_tag) (f : tag_fields) : result Z :=
  let tag := raw_tag L f in
  let tag := if max_tag t <? tag then Z.land tag (max_tag_mask t) else tag in
  throw_if_not (tag <=? max_tag t) ;;
  Ok tag.

(** [atl_base_comm::init_tag]: the layout follows the transport and, for OFI,
    the number of tag bits; an MPI provider must leave sched_id and op_id uncut. *)
Inductive ccl_atl_transport := ccl_atl_ofi | ccl_atl_mpi.

Definition cxi_tag_bits : Z := 48.

Definition init_tag (tr : ccl_atl_transport) (bits maxt : Z) : result (layout * ccl_atl_tag) :=
  match tr with
  | ccl_atl_ofi =>
    if bits =? cxi_tag_bits
    then t <-! make_atl_tag bits maxt ;; Ok (ofi_cxi_tag_layout, t)
    else t <-! make_atl_tag bits maxt ;; Ok (common_tag_layout, t)
  | ccl_atl_mpi =>
    throw_if_not (u64 (op_id_mask mpi_tag_layout + sched_id_mask mpi_tag_layout) <=? maxt) ;;
    t <-! make_atl_tag bits maxt ;; Ok (mpi_tag_layout, t)
  end.

Definition get_pt2pt_sync_tags (L : layout) : Z * Z := (pt2pt_ack_first L, pt2pt_ack_second L).

(** Reading a field back out of a tag: what a tag is for.  Not code of the
    repository; used to state that the packing is faithful. *)
Definition tag_field (shift mask tag : Z) : Z := Z.shiftr (Z.land tag mask) shift.

(** The number of tag bits a layout occupies. *)
Definition layout_bits (L : layout) : Z := Z.log2 (rank_mask L) + 1.

Definition known_layout (L : layout) : Prop :=
  L = common_tag_layout \/ L = ofi_cxi_tag_layout \/ L = mpi_tag_layout.

(** Each field fits the bits its layout gives it. *)
Definition fields_fit (L : layout) (f : tag_fields) : Prop :=
  0 <= f_op f < 2 ^ sched_id_shift L /\
  0 <= f_sched f < 2 ^ (comm_id_shift L - sched_id_shift L) /\
  0 <= f_comm f < 2 ^ (rank_shift L - comm_id_shift L) /\
  0 <= f_rank f < 2 ^ (layout_bits L - rank_shift L).

(** What the masks and shifts of a layout have to satisfy: the fields tile the
    tag's bits from 0 to [layout_bits]. *)
Record layout_wf (L : layout) : Prop := {
  wf_op_shift : op_id_shift L = 0;
  wf_order : 0 < sched_id_shift L /\ sched_id_shift L < comm_id_shift L /\
             comm_id_shift L < rank_shift L /\ rank_shift L < layout_bits L <= 64;
  wf_op : op_id_mask L = Z.shiftl (Z.ones (sched_id_shift L)) 0;
  wf_sched : sched_id_mask L =
             Z.shiftl (Z.ones (comm_id_shift L - sched_id_shift L)) (sched_id_shift L);
  wf_comm : comm_id_mask L =
            Z.shiftl (Z.ones (rank_shift L - comm_id_shift L)) (comm_id_shift L);
  wf_rank : rank_mask L =
            Z.shiftl (Z.ones (layout_bits L - rank_shift L)) (rank_shift L) }.

(** * pof2 *)

Lemma pof2_loop_spec (number : Z) (j : nat) (k fuel : nat) :
  0 <= number -> (j <= 63)%nat -> number < 2 ^ Z.of_nat j ->
  (forall i, (i < j)%nat -> 2 ^ Z.of_nat i <= number) -> (k <= j)%nat -> (j <= k + fuel)%nat ->
  pof2_loop fuel number (2 ^ Z.of_nat k) = Some (2 ^ Z.of_nat j).
Proof.
  intros Hn Hj Hhi Hlo. revert k. induction fuel as [|fuel IH]; intros k Hk Hf; cbn [pof2_loop].
  - assert (k = j) as -> by lia. rewrite (proj2 (Z.leb_gt _ _)) by lia. done.
  - destruct (Nat.eq_dec k j) as [->|].
    + rewrite (proj2 (Z.leb_gt _ _)) by lia. done.
    + rewrite (proj2 (Z.leb_le _ _)) by (apply Hlo; lia).
      assert (E : u64 (Z.shiftl (2 ^ Z.of_nat k) 1) = 2 ^ Z.of_nat (S k)).
      { rewrite Z.shiftl_mul_pow2, Z.pow_1_r by lia.
        replace (2 ^ Z.of_nat k * 2) with (2 ^ Z.of_nat (S k))
          by (rewrite Nat2Z.inj_succ, Z.pow_succ_r; lia).
        apply wrap_small. split; [lia|]. apply Z.pow_lt_mono_r; lia. }
      rewrite E. apply IH; lia.
Qed.

Lemma last_bit_clear (n : Z) : 0 <= n < 2 ^ 63 -> Z.land n last_bit_mask = 0.
Proof.
  intros Hn. change last_bit_mask with (2 ^ 63). bits_ext i Hi.
  rewrite Z.land_spec, Z.bits_0, Z.pow2_bits_eqb by lia.
  destruct (Z.eqb_spec 63 i) as [<-|]; [|apply andb_false_r].
  by rewrite (testbit_above 63) by lia.
Qed.

Lemma last_bit_set (n : Z) : 2 ^ 63 <= n < 2 ^ 64 -> Z.land n last_bit_mask <> 0.
Proof.
  intros Hn E. assert (H : Z.testbit (Z.land n last_bit_mask) 63 = false) by by rewrite E, Z.bits_0.
  change last_bit_mask with (2 ^ 63) in H.
  rewrite Z.land_spec, Z.pow2_bits_true, andb_true_r in H by lia.
  apply Z.testbit_false in H; [|lia].
  replace (n / 2 ^ 63) with 1 in H; [done|].
  apply Z.div_unique with (n - 2 ^ 63); lia.
Qed.

(** [pof2] returns, for every [size_t], the greatest power of two not above it
    (and 0 for 0); in particular its loop ends. *)
Lemma pof2_spec (n : Z) : 0 < n < 2 ^ 64 -> pof2 n = Some (2 ^ Z.log2 n).
Proof.
  intros Hn. unfold pof2. destruct (decide (n < 2 ^ 63)) as [Hlt|Hge].
  - rewrite last_bit_clear by lia. cbn [Z.eqb negb].
    pose proof (Z.log2_spec n ltac:(lia)) as [Hl Hu].
    pose proof (Z.log2_nonneg n).
    assert (Z.log2 n < 63) by (apply Z.log2_lt_pow2; lia).
    change (pof2_loop 64 n 1) with (pof2_loop 64 n (2 ^ Z.of_nat 0)).
    rewrite (pof2_loop_spec n (S (Z.to_nat (Z.log2 n))) 0 64).
    + f_equal. rewrite Z.shiftr_div_pow2, Z.pow_1_r by lia.
      rewrite Nat2Z.inj_succ, Z2Nat.id, Z.pow_succ_r by lia.
      rewrite Z.mul_comm. apply Z.div_mul. lia.
    + lia.
    + lia.
    + rewrite Nat2Z.inj_succ, Z2Nat.id by lia. lia.
    + intros i Hi. transitivity (2 ^ Z.log2 n); [|lia]. apply Z.pow_le_mono_r; lia.
    + lia.
    + lia.
  - rewrite (proj2 (Z.eqb_neq _ _)) by (apply last_bit_set; lia). cbn [negb].
    replace (Z.log2 n) with 63; [done|]. symmetry. apply Z.log2_unique; lia.
Qed.

(** * Well-formed layouts and field extraction *)

Lemma known_layout_wf (L : layout) : known_layout L -> layout_wf L.
Proof. intros [->|[->| ->]]; (split; [done | vm_compute; intuition congruence | done..]). Qed.

Lemma testbit_field_mask (w s i : Z) : 0 <= w -> 0 <= s -> 0 <= i ->
  Z.testbit (Z.shiftl (Z.ones w) s) i = bool_decide (s <= i < s + w).
Proof.
  intros Hw Hs Hi. rewrite Z.shiftl_spec by lia.
  destruct (decide (i < s)) as [Hlt|Hge].
  - rewrite Z.testbit_neg_r by lia. rewrite bool_decide_eq_false_2 by lia. done.
  - rewrite Z.testbit_ones_nonneg by lia.
    destruct (Z.ltb_spec (i - s) w); [rewrite bool_decide_eq_true_2 by lia
                                     |rewrite bool_decide_eq_false_2 by lia]; done.
Qed.

Lemma testbit_put_field (w s v tag i : Z) :
  0 <= w -> 0 <= s -> s + w <= 64 -> 0 <= i ->
  Z.testbit (put_field s (Z.shiftl (Z.ones w) s) v tag) i =
  Z.testbit tag i || (bool_decide (s <= i < s + w) && Z.testbit v (i - s)).
Proof.
  intros Hw Hs Hsw Hi. unfold put_field. rewrite Z.lor_spec, Z.land_spec, testbit_field_mask by lia.
  f_equal. case_bool_decide; [|by rewrite andb_false_r].
  rewrite andb_true_r, testbit_wrap, Z.shiftl_spec, testbit_wrap by lia.
  rewrite !bool_decide_eq_true_2 by lia. done.
Qed.

(** The bits of a packed tag, field by field. *)
Lemma testbit_raw_tag (L : layout) (f : tag_fields) (i : Z) : layout_wf L -> 0 <= i ->
  Z.testbit (raw_tag L f) i =
  bool_decide (i < sched_id_shift L) && Z.testbit (f_op f) i ||
  bool_decide (sched_id_shift L <= i < comm_id_shift L)
    && Z.testbit (f_sched f) (i - sched_id_shift L) ||
  bool_decide (comm_id_shift L <= i < rank_shift L)
    && Z.testbit (f_comm f) (i - comm_id_shift L) ||
  bool_decide (rank_shift L <= i < layout_bits L)
    && Z.testbit (f_rank f) (i - rank_shift L).
Proof.
  intros [Hop0 Hord Hop Hsc Hco Hra] Hi. unfold raw_tag.
  rewrite Hop, Hsc, Hco, Hra, Hop0, !testbit_put_field, Z.bits_0 by lia.
  rewrite orb_false_l, Z.sub_0_r.
  repeat f_equal; apply bool_decide_ext; lia.
Qed.

Lemma testbit_tag_field (w s tag i : Z) : 0 <= w -> 0 <= s -> 0 <= i ->
  Z.testbit (tag_field s (Z.shiftl (Z.ones w) s) tag) i =
  bool_decide (i < w) && Z.testbit tag (i + s).
Proof.
  intros Hw Hs Hi. unfold tag_field.
  rewrite Z.shiftr_spec, Z.land_spec, testbit_field_mask by lia.
  rewrite andb_comm. f_equal. apply bool_decide_ext. lia.
Qed.

Ltac decide_bools :=
  repeat match goal with
  | |- context [bool_decide ?P] =>
    first [rewrite (bool_decide_eq_true_2 P) by lia | rewrite (bool_decide_eq_false_2 P) by lia]
  end.

(** All four fields of a packed tag, each cut to its width. *)
Lemma raw_tag_fields (L : layout) (f : tag_fields) : layout_wf L ->
  tag_field (op_id_shift L) (op_id_mask L) (raw_tag L f) = wrap (sched_id_shift L) (f_op f) /\
  tag_field (sched_id_shift L) (sched_id_mask L) (raw_tag L f) =
    wrap (comm_id_shift L - sched_id_shift L) (f_sched f) /\
  tag_field (comm_id_shift L) (comm_id_mask L) (raw_tag L f) =
    wrap (rank_shift L - comm_id_shift L) (f_comm f) /\
  tag_field (rank_shift L) (rank_mask L) (raw_tag L f) =
    wrap (layout_bits L - rank_shift L) (f_rank f).
Proof.
  intros Hwf. pose proof Hwf as [Hop0 Hord Hop Hsc Hco Hra].
  rewrite Hop, Hsc, Hco, Hra, Hop0.
  split_and!; bits_ext i Hi; rewrite testbit_tag_field, testbit_wrap by lia;
    (case_bool_decide; [|done]); rewrite testbit_raw_tag by (done || lia); decide_bools;
    cbn [andb orb]; rewrite ?orb_false_r; f_equal; lia.
Qed.

Lemma raw_tag_nonneg (L : layout) (f : tag_fields) : layout_wf L -> 0 <= raw_tag L f.
Proof.
  intros [Hop0 Hord Hop Hsc Hco Hra]. unfold raw_tag, put_field.
  rewrite !Z.lor_nonneg, !Z.land_nonneg.
  repeat split; try lia; left; apply wrap_range; lia.
Qed.

Lemma raw_tag_bound (L : layout) (f : tag_fields) : layout_wf L ->
  0 <= raw_tag L f < 2 ^ layout_bits L.
Proof.
  intros Hwf. split; [by apply raw_tag_nonneg|].
  destruct (decide (raw_tag L f = 0)) as [->|Hne]; [apply Z.pow_pos_nonneg; destruct Hwf; lia|].
  pose proof (raw_tag_nonneg L f Hwf).
  apply Z.log2_lt_pow2; [lia|]. destruct (Z.lt_ge_cases (Z.log2 (raw_tag L f)) (layout_bits L)) as [|Hge]; [done|].
  pose proof (Z.bit_log2 (raw_tag L f) ltac:(lia)) as Hb.
  rewrite testbit_raw_tag in Hb by (done || apply Z.log2_nonneg).
  destruct Hwf as [_ Hord _ _ _ _]. revert Hb. decide_bools. done.
Qed.

(** * The tag creator *)

Lemma make_atl_tag_ok (bits maxt : Z) : 32 <= bits -> 0 < maxt < 2 ^ 64 ->
  exists t, make_atl_tag bits maxt = Ok t /\ max_tag t = maxt /\
    max_tag_mask t = (if decide (maxt = 2 ^ (Z.log2 maxt + 1) - 1) then maxt
                      else 2 ^ Z.log2 maxt - 1).
Proof.
  intros Hb Hm. unfold make_atl_tag. rewrite (proj2 (Z.leb_le _ _)) by lia.
  rewrite pof2_spec by lia. eexists. split; [done|]. split; [done|]. cbn [max_tag_mask].
  pose proof (Z.log2_nonneg maxt). pose proof (Z.log2_spec maxt ltac:(lia)).
  assert (Z.log2 maxt < 64) by (apply Z.log2_lt_pow2; lia).
  assert (E : u64 (u64 (2 ^ Z.log2 maxt * 2) - 1) = 2 ^ (Z.log2 maxt + 1) - 1).
  { replace (2 ^ Z.log2 maxt * 2) with (2 ^ (Z.log2 maxt + 1)) by (rewrite Z.pow_add_r; lia).
    destruct (decide (Z.log2 maxt = 63)) as [->|]; [done|].
    assert (2 ^ (Z.log2 maxt + 1) < 2 ^ 64) by (apply Z.pow_lt_mono_r; lia).
    assert (0 < 2 ^ (Z.log2 maxt + 1)) by (apply Z.pow_pos_nonneg; lia).
    rewrite (wrap_small 64 (2 ^ _)), wrap_small by lia. done. }
  rewrite E. destruct (Z.eqb_spec maxt (2 ^ (Z.log2 maxt + 1) - 1)); case_decide; try lia.
  apply wrap_small. lia.
Qed.

(** The mask the creator cuts an oversized tag with never exceeds [max_tag]. *)
Lemma max_tag_mask_le (bits maxt : Z) (t : ccl_atl_tag) :
  0 < maxt < 2 ^ 64 -> make_atl_tag bits maxt = Ok t ->
  max_tag t = maxt /\ 0 <= max_tag_mask t <= maxt.
Proof.
  intros Hm Ht. assert (32 <= bits).
  { unfold make_atl_tag in Ht. destruct (Z.leb_spec 32 bits); [done|discriminate]. }
  destruct (make_atl_tag_ok bits maxt) as (t' & E & E1 & E2); [done..|].
  rewrite E in Ht. inv Ht. split; [done|]. rewrite E2.
  pose proof (Z.log2_spec (max_tag t) ltac:(lia)).
  pose proof (Z.pow_pos_nonneg 2 (Z.log2 (max_tag t)) ltac:(lia) (Z.log2_nonneg _)).
  case_decide; lia.
Qed.

Lemma create_value (L : layout) (t : ccl_atl_tag) (f : tag_fields) :
  layout_wf L -> 0 <= max_tag_mask t <= max_tag t ->
  create L t f = Ok (if max_tag t <? raw_tag L f then Z.land (raw_tag L f) (max_tag_mask t)
                     else raw_tag L f).
Proof.
  intros Hwf Hm. unfold create.
  destruct (Z.ltb_spec (max_tag t) (raw_tag L f)).
  - pose proof (land_le_r (raw_tag L f) (max_tag_mask t) ltac:(lia)).
    by rewrite (proj2 (Z.leb_le _ _)) by lia.
  - by rewrite (proj2 (Z.leb_le _ _)) by lia.
Qed.

(** When the provider has the layout's bits, no tag is cut. *)
Lemma create_uncut (L : layout) (t : ccl_atl_tag) (f : tag_fields) :
  layout_wf L -> 2 ^ layout_bits L - 1 <= max_tag t ->
  create L t f = Ok (raw_tag L f).
Proof.
  intros Hwf Hm. pose proof (raw_tag_bound L f Hwf). unfold create.
  rewrite (proj2 (Z.ltb_ge _ _)) by lia. rewrite (proj2 (Z.leb_le _ _)) by lia. done.
Qed.

Lemma tag_field_low (w s k tag m : Z) :
  0 <= w -> 0 <= s -> s + w <= k -> (forall i, 0 <= i < k -> Z.testbit m i = true) ->
  tag_field s (Z.shiftl (Z.ones w) s) (Z.land tag m) = tag_field s (Z.shiftl (Z.ones w) s) tag.
Proof.
  intros Hw Hs Hk Hm. bits_ext i Hi. rewrite !testbit_tag_field, Z.land_spec by lia.
  case_bool_decide; [|done]. rewrite Hm by lia. by rewrite andb_true_r.
Qed.

(** The low bits of the creator's mask are set: all below the greatest power of
    two not above [max_tag]. *)
Lemma max_tag_mask_low (bits maxt k : Z) (t : ccl_atl_tag) :
  32 <= bits -> 0 <= k -> 2 ^ k - 1 <= maxt -> 0 < maxt < 2 ^ 64 ->
  make_atl_tag bits maxt = Ok t ->
  forall i, 0 <= i < k -> Z.testbit (max_tag_mask t) i = true.
Proof.
  intros Hb Hk Hkm Hm Ht i Hi.
  destruct (make_atl_tag_ok bits maxt) as (t' & E & E1 & E2); [done..|].
  rewrite E in Ht. injection Ht as ->. rewrite E2.
  pose proof (Z.log2_spec maxt ltac:(lia)) as [Hlo Hhi]. pose proof (Z.log2_nonneg maxt).
  rewrite <- Z.add_1_r in Hhi.
  assert (Hones : forall n, 0 <= n -> i < n -> Z.testbit (2 ^ n - 1) i = true).
  { intros n Hn Hin. replace (2 ^ n - 1) with (Z.pred (2 ^ n)) by lia. rewrite <- Z.ones_equiv. apply Z.ones_spec_low. lia. }
  case_decide as Hd.
  - rewrite Hd. apply Hones; [lia|].
    assert (2 ^ k <= 2 ^ (Z.log2 maxt + 1)) as Hle by lia.
    apply Z.pow_le_mono_r_iff in Hle; lia.
  - apply Hones; [lia|]. destruct (Z.lt_ge_cases (Z.log2 maxt) k) as [Hlt|]; [|lia].
    assert (2 ^ (Z.log2 maxt + 1) <= 2 ^ k) by (apply Z.pow_le_mono_r; lia). lia.
Qed.

(** ** Properties *)

(** C17: round trip.  With a provider whose [max_tag] covers the layout (common: 64
    bits, cxi: 48, mpi: 32) and fields within the widths of the layout (an op_id of 8 bits, or of 4
    for cxi and mpi), [create] succeeds, each of rank, comm_id, sched_id and op_id can be read back
    from the tag, and no other fields within these widths have the same tag. *)
Theorem create_roundtrip (L : layout) (bits maxt : Z) (t : ccl_atl_tag) (f : tag_fields) :
  known_layout L -> fields_fit L f ->
  2 ^ layout_bits L - 1 <= maxt < 2 ^ 64 -> make_atl_tag bits maxt = Ok t ->
  exists tag, create L t f = Ok tag /\ 0 <= tag < 2 ^ layout_bits L /\
    tag_field (op_id_shift L) (op_id_mask L) tag = f_op f /\
    tag_field (sched_id_shift L) (sched_id_mask L) tag = f_sched f /\
    tag_field (comm_id_shift L) (comm_id_mask L) tag = f_comm f /\
    tag_field (rank_shift L) (rank_mask L) tag = f_rank f /\
    forall f', fields_fit L f' -> create L t f' = Ok tag -> f' = f.
Proof.
  intros HL (Hop & Hsc & Hco & Hra) Hm Ht.
  pose proof (known_layout_wf L HL) as Hwf.
  assert (Hpos : 2 ^ 1 <= 2 ^ layout_bits L) by (apply Z.pow_le_mono_r; destruct Hwf; lia).
  destruct (max_tag_mask_le bits maxt t) as [Em _]; [lia|done|].
  exists (raw_tag L f). rewrite create_uncut by (done || lia).
  pose proof (raw_tag_fields L f Hwf) as (E1 & E2 & E3 & E4).
  pose proof (raw_tag_bound L f Hwf).
  rewrite E1, E2, E3, E4, !wrap_small by lia. split_and!; try done; try lia.
  intros f' (Hop' & Hsc' & Hco' & Hra'). rewrite create_uncut by (done || lia). intros [= E].
  pose proof (raw_tag_fields L f' Hwf) as (F1 & F2 & F3 & F4). rewrite E in F1, F2, F3, F4.
  rewrite wrap_small in E1, E2, E3, E4, F1, F2, F3, F4 by lia. destruct f, f'. cbn in *. congruence.
Qed.

Lemma create_roundtrip_witness :
  exists tag, create mpi_tag_layout {| tag_bits := 32; max_tag := 2 ^ 32 - 1; max_tag_mask := 2 ^ 32 - 1 |}
                {| f_rank := 5; f_comm := 3; f_sched := 4091; f_op := 9 |} = Ok tag /\
              0 <= tag < 2 ^ 32 /\
    tag_field 0 0xF tag = 9 /\ tag_field 4 0xFFF0 tag = 4091 /\
    tag_field 16 0xFF0000 tag = 3 /\ tag_field 24 0xFF000000 tag = 5 /\
    forall f', fields_fit mpi_tag_layout f' ->
      create mpi_tag_layout {| tag_bits := 32; max_tag := 2 ^ 32 - 1; max_tag_mask := 2 ^ 32 - 1 |} f' = Ok tag ->
      f' = {| f_rank := 5; f_comm := 3; f_sched := 4091; f_op := 9 |}.
Proof.
  apply (create_roundtrip mpi_tag_layout 32 (2 ^ 32 - 1) _
           {| f_rank := 5; f_comm := 3; f_sched := 4091; f_op := 9 |}).
  - right; right; reflexivity.
  - vm_compute. intuition congruence.
  - vm_compute. intuition congruence.
  - vm_compute. reflexivity.
Defined.

(** C18: no throw.  Whatever the fields, for a usable provider (32 tag bits or more,
    [max_tag] not 0) the constructor succeeds, [create] returns a tag, and the tag
    is within the provider's [max_tag]. *)
Theorem create_never_throws (L : layout) (bits maxt : Z) (f : tag_fields) :
  known_layout L -> 32 <= bits -> 0 < maxt < 2 ^ 64 ->
  exists t tag, make_atl_tag bits maxt = Ok t /\ create L t f = Ok tag /\ 0 <= tag <= maxt.
Proof.
  intros HL Hb Hm. pose proof (known_layout_wf L HL) as Hwf.
  destruct (make_atl_tag_ok bits maxt) as (t & Et & _); [done..|].
  destruct (max_tag_mask_le bits maxt t) as [E1 E2]; [done..|].
  eexists t, _. split; [done|]. rewrite create_value by (done || lia). split; [done|].
  pose proof (raw_tag_bound L f Hwf).
  destruct (Z.ltb_spec (max_tag t) (raw_tag L f)); [|lia].
  pose proof (land_le_r (raw_tag L f) (max_tag_mask t) ltac:(lia)).
  rewrite Z.land_nonneg at 1. lia.
Qed.

Lemma create_never_throws_witness :
  exists t tag, make_atl_tag 32 0x7FFFF = Ok t /\
    create mpi_tag_layout t {| f_rank := 200; f_comm := 7; f_sched := 12; f_op := 1 |} = Ok tag /\
    0 <= tag <= 0x7FFFF.
Proof.
  apply (create_never_throws mpi_tag_layout 32 0x7FFFF); [right; right; reflexivity | lia | lia].
Defined.

(** An MPI provider accepted by [init_tag], however small its [max_tag], keeps
    sched_id and op_id uncut: they are read back from the tag even when rank and
    comm_id bits are masked away. *)
Theorem mpi_keeps_sched_and_op (bits maxt : Z) (L : layout) (t : ccl_atl_tag) (f : tag_fields) :
  init_tag ccl_atl_mpi bits maxt = Ok (L, t) -> maxt < 2 ^ 64 ->
  0 <= f_op f < 2 ^ 4 -> 0 <= f_sched f < 2 ^ 12 ->
  exists tag, create L t f = Ok tag /\
    tag_field (op_id_shift L) (op_id_mask L) tag = f_op f /\
    tag_field (sched_id_shift L) (sched_id_mask L) tag = f_sched f.
Proof.
  unfold init_tag. intros H Hmax Hop Hsc.
  change (u64 (op_id_mask mpi_tag_layout + sched_id_mask mpi_tag_layout)) with (2 ^ 16 - 1) in H.
  destruct (Z.leb_spec (2 ^ 16 - 1) maxt) as [Hlo|]; [|discriminate].
  destruct (make_atl_tag bits maxt) as [t'|] eqn:Et; [|discriminate]. cbn in H. inv H.
  assert (32 <= bits).
  { unfold make_atl_tag in Et. destruct (Z.leb_spec 32 bits); [done|discriminate]. }
  pose proof (known_layout_wf mpi_tag_layout ltac:(right; right; done)) as Hwf.
  destruct (max_tag_mask_le bits maxt t) as [E1 E2]; [lia|done|].
  pose proof (raw_tag_fields mpi_tag_layout f Hwf) as (F1 & F2 & _).
  eexists. rewrite create_value by (done || lia). split; [done|].
  pose proof (max_tag_mask_low bits maxt 16 t ltac:(lia) ltac:(lia) ltac:(lia) ltac:(lia) Et) as Hlow.
  rewrite (wf_op _ Hwf), (wf_sched _ Hwf) in *. rewrite (wf_op_shift _ Hwf) in *.
  case_match; rewrite ?(tag_field_low _ _ 16 _ _) by (cbn; done || lia);
    rewrite F1, F2; cbn; rewrite !wrap_small by lia; done.
Qed.

Lemma mpi_keeps_sched_and_op_witness :
  exists tag, create mpi_tag_layout {| tag_bits := 32; max_tag := 0x1FFFF; max_tag_mask := 0x1FFFF |}
                {| f_rank := 77; f_comm := 9; f_sched := 4000; f_op := 2 |} = Ok tag /\
    tag_field 0 0xF tag = 2 /\ tag_field 4 0xFFF0 tag = 4000.
Proof.
  apply (mpi_keeps_sched_and_op 32 0x1FFFF mpi_tag_layout _
           {| f_rank := 77; f_comm := 9; f_sched := 4000; f_op := 2 |}).
  - vm_compute. reflexivity.
  - lia.
  - cbn; lia.
  - cbn; lia.
Defined.
