(* ===== verification/Comm.v ===== *)
(** Identifiers a communicator hands out: schedule ids
    ([ccl_comm::get_sched_id] of [src/src/comm/comm.cpp]), communicator ids
    ([atl_comm_id_storage] of [src/src/atl/atl_base_transport.hpp] and
    [atl_base_comm::create_comm_id] of [src/src/atl/atl_base_comm.cpp]) and the
    rank maps of a sub-communicator.

    The tag creator's layout ([AtlTag]) bounds the schedule ids: ids from
    [max_sched_count] up are reserved for point-to-point traffic. *)

From S2P Require Import Prelude AtlTag.
Open Scope Z_scope.
Open Scope ccl_scope.

(** * Schedule ids *)

Record sched_ids := { next_sched_id_internal : Z; next_sched_id_external : Z }.

(** [ccl_comm::init] *)
Definition init_sched_ids (L : layout) : sched_ids :=
  {| next_sched_id_internal := max_sched_count L / 2; next_sched_id_external := 0 |}.

(** The new value of the counter after one call; [ccl_sched_id_t] is [uint16_t]. *)
Definition bump_sched_id (first_sched_id max_sched_id next : Z) (is_pt2pt : bool) : Z :=
  let next := if is_pt2pt then next else u16 (next + 1) in
  if next =? max_sched_id then first_sched_id else next.

Definition get_sched_id (L : layout) (use_internal_space is_pt2pt : bool) (s : sched_ids)
  : Z * sched_ids :=
  let next := if use_internal_space then next_sched_id_internal s else next_sched_id_external s in
  let max_count := max_sched_count L in
  let first_sched_id := if use_internal_space then 0 else max_count / 2 in
  let max_sched_id := if use_internal_space then max_count / 2 else max_count in
  let next' := bump_sched_id first_sched_id max_sched_id next is_pt2pt in
  (next,
   if use_internal_space
   then {| next_sched_id_internal := next'; next_sched_id_external := next_sched_id_external s |}
   else {| next_sched_id_internal := next_sched_id_internal s; next_sched_id_external := next' |}).

(** A sequence of calls: the ids returned and the final counters. *)
Fixpoint get_sched_ids (L : layout) (calls : list (bool * bool)) (s : sched_ids)
  : list Z * sched_ids :=
  match calls with
  | [] => ([], s)
  | (internal, p2p) :: calls' =>
    let '(id, s') := get_sched_id L internal p2p s in
    let '(ids, s'') := get_sched_ids L calls' s' in
    (id :: ids, s'')
  end.

(** Ids the layout reserves for point-to-point messages and their acks. *)
Definition reserved_sched_ids (L : layout) : list Z :=
  [pt2pt_sched_id L; pt2pt_ack_tag L; pt2pt_ack_first L; pt2pt_ack_second L].

(** * Communicator ids *)

Definition max_comm_id : nat := 1024.
Definition invalid_comm_id : Z := -1.

(** [free_comm_id_map]: 1 for a free id, 0 for one in use. *)
Abbreviation comm_id_storage := (list Z).
Definition new_comm_id_storage : comm_id_storage := replicate max_comm_id 1.

Definition set_comm_id (v value : Z) (m : comm_id_storage) : result comm_id_storage :=
  if value =? invalid_comm_id then Ok m
  else throw_if_not ((0 <=? value) && (value <? Z.of_nat max_comm_id)) ;;
       Ok (<[Z.to_nat value := v]> m).

Definition acquire : Z -> comm_id_storage -> result comm_id_storage := set_comm_id 0.
Definition release : Z -> comm_id_storage -> result comm_id_storage := set_comm_id 1.

(** The search of [create_comm_id] over the gathered maps: the first id that is
    free on every rank. *)
Fixpoint find_free_id (maps : list comm_id_storage) (fuel id : nat) : Z :=
  match fuel with
  | O => invalid_comm_id
  | S fuel' =>
    if forallb (fun m => bool_decide (m !! id = Some 1)) maps then Z.of_nat id
    else find_free_id maps fuel' (S id)
  end.

(** [create_comm_id] on one rank, [maps] being what the allgatherv of
    [free_comm_id_map] delivered, in rank order. *)
Definition create_comm_id (maps : list comm_id_storage) (mine : comm_id_storage)
  : result (Z * comm_id_storage) :=
  throw_if_not (forallb (fun v => negb (v =? invalid_comm_id)) mine) ;;
  throw_if_not (forallb (forallb (fun v => negb (v =? invalid_comm_id))) maps) ;;
  let new_comm_id := find_free_id maps (length mine) 0 in
  throw_if_not (negb (new_comm_id =? invalid_comm_id)) ;;
  mine' <-! acquire new_comm_id mine ;;
  Ok (new_comm_id, mine').

(** * Rank maps of a sub-communicator *)

Definition get_global_rank (local2global : list nat) (rank : nat) : result nat :=
  match local2global with
  | [] => Ok rank
  | _ => match local2global !! rank with Some g => Ok g | None => Throw end
  end.

Fixpoint find_rank (l : list nat) (global_rank i : nat) : option nat :=
  match l with
  | [] => None
  | g :: l' => if decide (g = global_rank) then Some i else find_rank l' global_rank (S i)
  end.

Definition get_rank_from_global (local2global : list nat) (global_rank : nat) : result nat :=
  match local2global with
  | [] => Ok global_rank
  | _ => match find_rank local2global global_rank 0 with Some i => Ok i | None => Throw end
  end.

Definition try_get_rank_from_global (local2global : list nat) (global_rank : nat) : bool :=
  match local2global with
  | [] => false
  | _ => bool_decide (is_Some (find_rank local2global global_rank 0))
  end.

(** * Lemmas: schedule ids *)

Lemma max_sched_count_bounds (L : layout) : known_layout L ->
  0 < max_sched_count L / 2 < max_sched_count L /\ max_sched_count L < 2 ^ 16 /\
  Forall (fun r => max_sched_count L < r) (reserved_sched_ids L).
Proof. intros [->|[->| ->]]; vm_compute; repeat split; repeat constructor. Qed.

(** The external counter's invariant. *)
Definition external_ok (L : layout) (s : sched_ids) : Prop :=
  0 <= next_sched_id_external s < max_sched_count L.

Lemma get_sched_id_external_ok (L : layout) (internal p2p : bool) (s : sched_ids) :
  known_layout L -> external_ok L s -> external_ok L (get_sched_id L internal p2p s).2.
Proof.
  intros HL%max_sched_count_bounds. unfold external_ok. destruct internal; cbn; [done|].
  unfold bump_sched_id. intros Hs. destruct p2p.
  - case_match; lia.
  - rewrite wrap_small by lia. destruct (Z.eqb_spec (next_sched_id_external s + 1) (max_sched_count L)); lia.
Qed.

Lemma get_sched_ids_external (L : layout) (calls : list (bool * bool)) (s : sched_ids) :
  known_layout L -> external_ok L s ->
  forall i id p2p, (get_sched_ids L calls s).1 !! i = Some id ->
    calls !! i = Some (false, p2p) -> 0 <= id < max_sched_count L.
Proof.
  intros HL. revert s. induction calls as [|[internal p2p0] calls IH]; intros s Hs i id p2p; [done|].
  cbn [get_sched_ids]. pose proof (get_sched_id_external_ok L internal p2p0 s HL Hs) as Hs'.
  destruct (get_sched_id L internal p2p0 s) as [id0 s'] eqn:E.
  specialize (IH s' Hs'). destruct (get_sched_ids L calls s') as [ids s''].
  destruct i as [|i]; cbn; [|by apply IH].
  intros [= ->] [= -> ->]. unfold get_sched_id in E. inv E. done.
Qed.

(** [k] internal calls advance the internal counter by [k] until it meets the
    bound it is compared with. *)
Lemma internal_advance (L : layout) (k : nat) (s : sched_ids) :
  max_sched_count L / 2 <= next_sched_id_internal s ->
  0 <= max_sched_count L / 2 ->
  next_sched_id_internal s + Z.of_nat k < 2 ^ 16 ->
  next_sched_id_internal (get_sched_ids L (replicate k (true, false)) s).2 =
  next_sched_id_internal s + Z.of_nat k.
Proof.
  revert s. induction k as [|k IH]; intros s Hlo Hm Hhi; [cbn; lia|].
  cbn [replicate get_sched_ids get_sched_id].
  set (s' := {| next_sched_id_internal := _; next_sched_id_external := _ |}).
  assert (E : next_sched_id_internal s' = next_sched_id_internal s + 1).
  { cbn. unfold bump_sched_id. rewrite wrap_small by lia. rewrite (proj2 (Z.eqb_neq _ _)) by lia. done. }
  clearbody s'. specialize (IH s').
  destruct (get_sched_ids L (replicate k (true, false)) s') as [ids s''] eqn:E'.
  cbn [snd] in IH |- *. rewrite E in IH. rewrite IH; lia.
Qed.

(** Schedule ids of the external space (user collectives) never reach the ids
    reserved for point-to-point traffic, in any sequence of internal, external,
    collective and point-to-point requests on a fresh communicator. *)
Theorem external_ids_not_reserved (L : layout) (calls : list (bool * bool)) (i : nat) (id : Z) (p2p : bool) :
  known_layout L ->
  (get_sched_ids L calls (init_sched_ids L)).1 !! i = Some id ->
  calls !! i = Some (false, p2p) ->
  0 <= id < max_sched_count L /\ id ∉ reserved_sched_ids L.
Proof.
  intros HL H1 H2. pose proof (max_sched_count_bounds L HL) as (Hb & Hlt & Hres).
  assert (Hid : 0 <= id < max_sched_count L).
  { eapply get_sched_ids_external; [done| |exact H1|exact H2]. unfold external_ok; cbn; lia. }
  split; [done|]. intros Hin. rewrite Forall_forall in Hres. specialize (Hres _ Hin). cbn in Hres. lia.
Qed.

Lemma external_ids_not_reserved_witness :
  0 <= 1 < max_sched_count mpi_tag_layout /\ 1 ∉ reserved_sched_ids mpi_tag_layout.
Proof.
  apply (external_ids_not_reserved mpi_tag_layout [(false, false); (true, false); (false, true)] 2 1 true).
  - right; right; reflexivity.
  - vm_compute. reflexivity.
  - reflexivity.
Defined.

(** C26 (finding): the two id spaces are initialised with each other's start.
    [init] starts the internal counter at [max_sched_count / 2], which
    [get_sched_id] treats as the end of the internal space, so the counter runs on
    through the external half and into the reserved ids: after a fixed number of
    internal requests on a fresh communicator the next one gets exactly the id
    reserved for point-to-point sends and receives. *)
Theorem internal_ids_reach_reserved (L : layout) :
  known_layout L ->
  (get_sched_id L true false
     (get_sched_ids L (replicate (Z.to_nat (pt2pt_sched_id L - max_sched_count L / 2)) (true, false))
        (init_sched_ids L)).2).1 = pt2pt_sched_id L.
Proof.
  intros HL. pose proof (max_sched_count_bounds L HL) as (Hb & Hlt & Hres).
  assert (Hp : max_sched_count L < pt2pt_sched_id L) by (inv Hres; done).
  assert (Hp2 : 0 <= pt2pt_sched_id L < 2 ^ 16) by (apply wrap_range; lia).
  cbn [get_sched_id fst]. rewrite internal_advance; cbn; lia.
Qed.

Lemma internal_ids_reach_reserved_witness :
  (get_sched_id mpi_tag_layout true false
     (get_sched_ids mpi_tag_layout (replicate 2050 (true, false)) (init_sched_ids mpi_tag_layout)).2).1
  = 4095.
Proof.
  exact (internal_ids_reach_reserved mpi_tag_layout (or_intror (or_intror eq_refl))).
Defined.

(** * Lemmas: communicator ids *)

Lemma find_free_id_spec (maps : list comm_id_storage) (fuel id : nat) :
  match find_free_id maps fuel id with
  | Zneg _ => find_free_id maps fuel id = invalid_comm_id /\
      forall j, (id <= j < id + fuel)%nat -> exists m, m ∈ maps /\ m !! j <> Some 1
  | r => exists k, r = Z.of_nat k /\ (id <= k < id + fuel)%nat /\
      (forall m, m ∈ maps -> m !! k = Some 1) /\
      forall j, (id <= j < k)%nat -> exists m, m ∈ maps /\ m !! j <> Some 1
  end.
Proof.
  revert id. induction fuel as [|fuel IH]; intros id; cbn [find_free_id].
  - cbn. split; [done|]. lia.
  - destruct (forallb _ maps) eqn:E.
    + assert (Hall : forall m, m ∈ maps -> m !! id = Some 1).
      { intros m Hm%list_elem_of_In. rewrite forallb_forall in E.
        apply E in Hm. by apply bool_decide_eq_true in Hm. }
      assert (G : exists k, Z.of_nat id = Z.of_nat k /\ (id <= k < id + S fuel)%nat /\
        (forall m, m ∈ maps -> m !! k = Some 1) /\
        forall j, (id <= j < k)%nat -> exists m, m ∈ maps /\ m !! j <> Some 1).
      { exists id. repeat split; [lia..|done|lia]. }
      destruct id; exact G.
    + assert (Hid : exists m, m ∈ maps /\ m !! id <> Some 1).
      { clear IH. induction maps as [|m maps IHm]; [discriminate|].
        cbn in E. apply andb_false_iff in E as [E|E].
        - apply bool_decide_eq_false in E. exists m. split; [left|done].
        - destruct (IHm E) as (m' & ? & ?). exists m'. split; [by right|done]. }
      specialize (IH (S id)). destruct (find_free_id maps fuel (S id)) eqn:Ef.
      * destruct IH as (k & -> & Hk & Ha & Hb). exists k. split; [done|]. split; [lia|]. split; [done|].
        intros j Hj. destruct (decide (j = id)) as [->|]; [done|]. apply Hb. lia.
      * destruct IH as (k & -> & Hk & Ha & Hb). exists k. split; [done|]. split; [lia|]. split; [done|].
        intros j Hj. destruct (decide (j = id)) as [->|]; [done|]. apply Hb. lia.
      * destruct IH as [Hi Hb]. split; [done|]. intros j Hj.
        destruct (decide (j = id)) as [->|]; [done|]. apply Hb. lia.
Qed.

(** Release undoes acquire on a free id. *)
Lemma release_acquire (m m' : comm_id_storage) (k : nat) :
  (k < max_comm_id)%nat -> m !! k = Some 1 -> acquire (Z.of_nat k) m = Ok m' ->
  release (Z.of_nat k) m' = Ok m.
Proof.
  intros Hk Hm. unfold acquire, release, set_comm_id.
  rewrite (proj2 (Z.eqb_neq _ _)) by (unfold invalid_comm_id; lia).
  rewrite (proj2 (Z.leb_le _ _)), (proj2 (Z.ltb_lt _ _)) by lia. cbn [andb].
  intros [= <-]. rewrite Nat2Z.id. f_equal. rewrite list_insert_insert_eq. by apply list_insert_id.
Qed.

(** On the maps gathered from all ranks, [create_comm_id] gives every rank the
    same id, the least one free on all of them, and marks exactly that id as used
    in the rank's own map; releasing it restores the map. *)
Theorem create_comm_id_agrees (maps : list comm_id_storage) (r : nat) (mine mine' : comm_id_storage) (id : Z) :
  maps !! r = Some mine -> Forall (fun m => length m = max_comm_id) maps ->
  create_comm_id maps mine = Ok (id, mine') ->
  id = find_free_id maps max_comm_id 0 /\
  exists k, id = Z.of_nat k /\ (k < max_comm_id)%nat /\
    (forall m, m ∈ maps -> m !! k = Some 1) /\
    (forall j, (j < k)%nat -> exists m, m ∈ maps /\ m !! j <> Some 1) /\
    mine' = <[k := 0]> mine /\ release id mine' = Ok mine.
Proof.
  intros Hr Hlen. unfold create_comm_id.
  assert (Hl : length mine = max_comm_id).
  { rewrite Forall_forall in Hlen. apply Hlen. by eapply list_elem_of_lookup_2. }
  rewrite Hl. do 2 (case_match; [|discriminate]).
  pose proof (find_free_id_spec maps max_comm_id 0) as Hs.
  set (id0 := find_free_id maps max_comm_id 0) in *.
  destruct (negb (id0 =? invalid_comm_id)) eqn:En; [|discriminate].
  assert (Hk : exists k, id0 = Z.of_nat k /\ (k < max_comm_id)%nat /\
    (forall m, m ∈ maps -> m !! k = Some 1) /\
    (forall j, (j < k)%nat -> exists m, m ∈ maps /\ m !! j <> Some 1)).
  { destruct id0.
    - destruct Hs as (k & -> & ? & ? & Hb). exists k. split; [done|]. split; [lia|]. split; [done|].
      intros j Hj. apply Hb. lia.
    - destruct Hs as (k & -> & ? & ? & Hb). exists k. split; [done|]. split; [lia|]. split; [done|].
      intros j Hj. apply Hb. lia.
    - destruct Hs as [Hi _]. rewrite Hi in En. discriminate. }
  destruct Hk as (k & Ek & Hk & Ha & Hb). rewrite Ek.
  destruct (acquire (Z.of_nat k) mine) as [m'|] eqn:Eacq; [|discriminate].
  intros [= <- <-]. split; [done|]. exists k. split_and!; try done.
  - unfold acquire, set_comm_id in Eacq.
    rewrite (proj2 (Z.eqb_neq _ _)) in Eacq by (unfold invalid_comm_id; lia).
    rewrite (proj2 (Z.leb_le _ _)), (proj2 (Z.ltb_lt _ _)) in Eacq by lia.
    cbn [andb] in Eacq. rewrite Nat2Z.id in Eacq. by injection Eacq as ->.
  - eapply release_acquire; [done| |done]. apply Ha. by eapply list_elem_of_lookup_2.
Qed.

Lemma create_comm_id_agrees_witness :
  let a := <[0%nat := 0]> new_comm_id_storage in
  let b := <[1%nat := 0]> new_comm_id_storage in
  2 = find_free_id [a; b] max_comm_id 0 /\
  exists k, 2 = Z.of_nat k /\ (k < max_comm_id)%nat /\
    (forall m, m ∈ [a; b] -> m !! k = Some 1) /\
    (forall j, (j < k)%nat -> exists m, m ∈ [a; b] /\ m !! j <> Some 1) /\
    <[2%nat := 0]> b = <[k := 0]> b /\ release 2 (<[2%nat := 0]> b) = Ok b.
Proof.
  intros a b. apply (create_comm_id_agrees [a; b] 1 b).
  - reflexivity.
  - repeat constructor.
  - vm_compute. reflexivity.
Defined.

(** * Lemmas: rank maps *)

Lemma find_rank_spec (l : list nat) (g i : nat) :
  match find_rank l g i with
  | Some k => (i <= k)%nat /\ l !! (k - i)%nat = Some g
  | None => g ∉ l
  end.
Proof.
  revert i. induction l as [|x l IH]; intros i; cbn [find_rank]; [apply not_elem_of_nil|].
  case_decide as Hx.
  - subst. split; [lia|]. by rewrite Nat.sub_diag.
  - specialize (IH (S i)). destruct (find_rank l g (S i)) as [k|].
    + destruct IH as [Hk Hl]. split; [lia|]. by replace (k - i)%nat with (S (k - S i)) by lia.
    + rewrite not_elem_of_cons. done.
Qed.

(** A sub-communicator's rank maps are inverse to each other: a local rank
    maps to a global rank and back, provided no global rank is listed twice, and
    [try_get_rank_from_global] tells exactly when the reverse lookup succeeds. *)
Theorem rank_map_roundtrip (l2g : list nat) (rank : nat) :
  NoDup l2g -> (rank < length l2g)%nat ->
  exists g, get_global_rank l2g rank = Ok g /\ get_rank_from_global l2g g = Ok rank /\
    forall g', try_get_rank_from_global l2g g' = true <-> exists r, get_rank_from_global l2g g' = Ok r.
Proof.
  intros Hnd Hr. destruct (lookup_lt_is_Some_2 l2g rank Hr) as [g Hg].
  exists g. unfold get_global_rank, get_rank_from_global, try_get_rank_from_global.
  destruct l2g as [|x l]; [done|]. rewrite Hg. split; [done|]. split.
  - pose proof (find_rank_spec (x :: l) g 0) as Hs. destruct (find_rank (x :: l) g 0) as [k|].
    + destruct Hs as [_ Hk]. rewrite Nat.sub_0_r in Hk. f_equal. by eapply NoDup_lookup.
    + destruct Hs. by eapply list_elem_of_lookup_2.
  - intros g'. rewrite bool_decide_eq_true. destruct (find_rank (x :: l) g' 0) as [k|].
    + split; eauto.
    + split; [by intros [? ?]|by intros [? ?]].
Qed.

Lemma rank_map_roundtrip_witness :
  exists g, get_global_rank [4; 2; 7]%nat 1 = Ok g /\ get_rank_from_global [4; 2; 7]%nat g = Ok 1%nat /\
    forall g', try_get_rank_from_global [4; 2; 7]%nat g' = true <->
               exists r, get_rank_from_global [4; 2; 7]%nat g' = Ok r.
Proof.
  apply (rank_map_roundtrip [4; 2; 7]%nat 1); [|cbn; lia].
  repeat constructor; set_solver.
Defined.
