(* ===== verification/Sched.v ===== *)
(** Schedules: the data a collective algorithm builds and what its entries do.

    Models [ccl_buffer] ([src/src/common/utils/buffer.hpp]), the host entries of
    [src/src/sched/entry] (send, recv, recv_reduce, recv_copy, copy,
    reduce_local), [entry_factory::create], [ccl_sched::add_barrier] and
    [alloc_buffer].

    A rank's memory maps a cell (allocation, byte offset) to an element; an
    element of a datatype of [dsz] bytes lives in the cell of its first byte, so
    the byte offsets the algorithms compute are used as they are.  A missing cell
    is memory outside every allocation: an access to it has no result, hence
    every completed run stayed in bounds. *)

From S2P Require Import Prelude.
Open Scope ccl_scope.

(** * Buffers *)

(** [buf_src] identifies the allocation (0 is the null pointer), [buf_offset] is in bytes. *)
Record ccl_buffer := mk_buffer { buf_src : nat; buf_offset : nat }.

#[export] Instance ccl_buffer_eq_dec : EqDecision ccl_buffer.
Proof. solve_decision. Defined.

Definition null_buffer : ccl_buffer := mk_buffer 0 0.
Definition buffer_add (b : ccl_buffer) (val : nat) : ccl_buffer := mk_buffer (buf_src b) (buf_offset b + val).
Definition buffer_bool (b : ccl_buffer) : bool := bool_decide (buf_src b <> 0).

(** [get_ptr], and the comparison [operator==] makes of two pointers. *)
Definition get_ptr (b : ccl_buffer) : option (nat * nat) :=
  if buffer_bool b then Some (buf_src b, buf_offset b) else None.
Definition buffer_eqb (b1 b2 : ccl_buffer) : bool := bool_decide (get_ptr b1 = get_ptr b2).
Infix "+b" := buffer_add (at level 50, left associativity) : ccl_scope.

Lemma buffer_eqb_refl b : buffer_eqb b b = true.
Proof. by apply bool_decide_eq_true. Qed.

Lemma buffer_eqb_src b1 b2 : buf_src b1 <> 0 -> buf_src b1 <> buf_src b2 -> buffer_eqb b1 b2 = false.
Proof.
  intros H0 H. apply bool_decide_eq_false. unfold get_ptr, buffer_bool.
  rewrite bool_decide_eq_true_2 by done. case_bool_decide; congruence.
Qed.

(** * Entries *)

Inductive ccl_recv_reduce_result_buf_type := ccl_recv_reduce_local_buf | ccl_recv_reduce_comm_buf.

Inductive entry :=
| send_entry (buf : ccl_buffer) (cnt : nat) (dst : nat)
| recv_entry (buf : ccl_buffer) (cnt : nat) (from : nat)
| recv_reduce_entry (inout_buf : ccl_buffer) (in_cnt : nat) (from : nat) (comm_buf : ccl_buffer)
                    (result_buf_type : ccl_recv_reduce_result_buf_type)
| recv_copy_entry (recv_buf copy_buf : ccl_buffer) (cnt : nat) (from : nat)
| copy_entry (in_buf out_buf : ccl_buffer) (count : nat)
| reduce_local_entry (in_buf : ccl_buffer) (in_cnt : nat) (inout_buf : ccl_buffer).

#[export] Instance result_buf_type_eq_dec : EqDecision ccl_recv_reduce_result_buf_type.
Proof. solve_decision. Defined.

#[export] Instance entry_eq_dec : EqDecision entry.
Proof. solve_decision. Defined.

(** The entries whose [start] only posts a transport request; the host copy and
    reduction complete in [start]. *)
Definition is_async (e : entry) : bool :=
  match e with copy_entry _ _ _ | reduce_local_entry _ _ _ => false | _ => true end.

(** * Schedules under construction *)

(** [ccl::global_data::env()], the fields the algorithms read; an unspecified size is [None]. *)
Record ccl_env := {
  chunk_count : nat;
  min_chunk_size : nat;
  rs_chunk_count : nat;
  rs_min_chunk_size : nat;
  check_inplace_aliasing : bool;
  allreduce_nreduce_buffering : bool;
  allreduce_nreduce_segment_size : option nat }.

(** [entries]: each with its barrier flag; [allocs]: the sizes of the temporary
    buffers, the next one getting the id [next_src]. *)
Record ccl_sched := { entries : list (entry * bool); next_src : nat; allocs : list (nat * nat) }.

Definition build (A : Type) : Type := ccl_sched -> result (A * ccl_sched).

Definition ret {A} (a : A) : build A := fun s => Ok (a, s).
Definition bind {A B} (m : build A) (f : A -> build B) : build B :=
  fun s => match m s with Ok (a, s') => f a s' | Throw => Throw end.
Definition throw {A} : build A := fun _ => Throw.

Definition lift {A} (r : result A) : build A :=
  match r with Ok a => ret a | Throw => throw end.

Notation "x <-- m ;; k" := (bind m (fun x => k))
  (at level 60, m at next level, right associativity) : ccl_scope.
Notation "m ;;; k" := (bind m (fun _ => k)) (at level 60, right associativity) : ccl_scope.
Notation "'CCL_THROW_IF_NOT' c ;;; k" := (if c then k else throw)
  (at level 60, c at next level, right associativity) : ccl_scope.

(** [sched->add_entry] in the default add mode: at the back. *)
Definition add_entry (e : entry) : build unit :=
  fun s => Ok (tt, {| entries := entries s ++ [(e, false)]; next_src := next_src s;
                      allocs := allocs s |}).

Fixpoint mark_last (l : list (entry * bool)) : list (entry * bool) :=
  match l with
  | [] => []
  | [(e, _)] => [(e, true)]
  | x :: l' => x :: mark_last l'
  end.

(** [entries.back()->make_barrier()], nothing on an empty schedule. *)
Definition add_barrier : build unit :=
  fun s => Ok (tt, {| entries := mark_last (entries s); next_src := next_src s;
                      allocs := allocs s |}).

(** [ccl_sched_base::alloc_buffer] of a host buffer; [buffer_manager::alloc] refuses an empty one. *)
Definition alloc_buffer (bytes : nat) : build ccl_buffer :=
  fun s => if bytes =? 0 then Throw else
           Ok (mk_buffer (next_src s) 0,
               {| entries := entries s; next_src := S (next_src s);
                  allocs := allocs s ++ [(next_src s, bytes)] |}).

Definition create_send (b : ccl_buffer) (cnt dst : nat) : build unit := add_entry (send_entry b cnt dst).
Definition create_recv (b : ccl_buffer) (cnt from : nat) : build unit := add_entry (recv_entry b cnt from).
Definition create_copy (i o : ccl_buffer) (cnt : nat) : build unit := add_entry (copy_entry i o cnt).
Definition create_reduce_local (i : ccl_buffer) (cnt : nat) (io : ccl_buffer) : build unit :=
  add_entry (reduce_local_entry i cnt io).
Definition create_recv_copy (rb cb : ccl_buffer) (cnt from : nat) : build unit :=
  add_entry (recv_copy_entry rb cb cnt from).

(** The [recv_reduce_entry] constructor: the result buffer must not be null, and
    a communication buffer is allocated when none, or the local one, is given. *)
Definition create_recv_reduce (dsz : nat) (inout_buf : ccl_buffer) (cnt from : nat)
    (comm_buf : ccl_buffer) (rt : ccl_recv_reduce_result_buf_type) : build unit :=
  CCL_THROW_IF_NOT (match rt with
                    | ccl_recv_reduce_local_buf => buffer_bool inout_buf
                    | ccl_recv_reduce_comm_buf => buffer_bool comm_buf
                    end) ;;;
  (if (negb (buffer_bool comm_buf) || buffer_eqb comm_buf inout_buf)
      && bool_decide (cnt <> 0)
   then (c <-- alloc_buffer (cnt * dsz) ;; add_entry (recv_reduce_entry inout_buf cnt from c rt))
   else add_entry (recv_reduce_entry inout_buf cnt from comm_buf rt)).

(** [for (i = lo; i < lo + n; i++) body] *)
Fixpoint for_range (lo n : nat) (body : nat -> build unit) : build unit :=
  match n with
  | O => ret tt
  | S n' => body lo ;;; for_range (S lo) n' body
  end.

Definition empty_sched (next : nat) : ccl_sched := {| entries := []; next_src := next; allocs := [] |}.

(** * Memory and the effect of an entry *)

Section memory.
Context {V : Type} (op : V -> V -> V) (dsz : nat).

Abbreviation memory := (gmap (nat * nat) V).

Definition cell (b : ccl_buffer) (i : nat) : nat * nat := (buf_src b, buf_offset b + i * dsz).

Fixpoint read_cells (m : memory) (b : ccl_buffer) (cnt : nat) : option (list V) :=
  match cnt with
  | O => Some []
  | S n => v ← m !! (buf_src b, buf_offset b); vs ← read_cells m (b +b dsz) n; Some (v :: vs)
  end.

Fixpoint write_cells (m : memory) (b : ccl_buffer) (vs : list V) : memory :=
  match vs with
  | [] => m
  | v :: vs' => <[(buf_src b, buf_offset b) := v]> (write_cells m (b +b dsz) vs')
  end.

(** A write is defined only where memory is allocated. *)
Definition store (m : memory) (b : ccl_buffer) (vs : list V) : option memory :=
  match read_cells m b (length vs) with
  | Some _ => Some (write_cells m b vs)
  | None => None
  end.

(** [ccl_comp_copy] *)
Definition comp_copy (m : memory) (i o : ccl_buffer) (cnt : nat) : option memory :=
  vs ← read_cells m i cnt; store m o vs.

(** [ccl_comp_reduce]: [inout[i] = inout[i] op in[i]]. *)
Definition comp_reduce (m : memory) (i : ccl_buffer) (cnt : nat) (io : ccl_buffer) : option memory :=
  x ← read_cells m i cnt; y ← read_cells m io cnt; store m io (zip_with op y x).

(** [send_entry::start] posts the data. *)
Definition send_entry_start (b : ccl_buffer) (cnt dst : nat) (m : memory) : option (memory * option (nat * list V)) :=
  vs ← read_cells m b cnt; Some (m, Some (dst, vs)).

(** The host paths of [copy_entry::start] and [reduce_local_entry::start] do the work at once. *)
Definition copy_entry_start (i o : ccl_buffer) (cnt : nat) (m : memory) : option (memory * option (nat * list V)) :=
  m' ← comp_copy m i o cnt; Some (m', None).
Definition reduce_local_entry_start (i : ccl_buffer) (cnt : nat) (io : ccl_buffer) (m : memory)
  : option (memory * option (nat * list V)) :=
  m' ← comp_reduce m i cnt io; Some (m', None).

(** The final [update] of the receives, with the message that arrived.  A shorter message than the
    receive was posted for fills a prefix; a longer one is an error of the transport. *)
Definition recv_entry_update (b : ccl_buffer) (cnt : nat) (msg : list V) (m : memory) : option memory :=
  if decide (length msg <= cnt) then store m b msg else None.

Definition recv_reduce_entry_update (io : ccl_buffer) (cnt : nat) (cb : ccl_buffer)
    (rt : ccl_recv_reduce_result_buf_type) (msg : list V) (m : memory) : option memory :=
  if decide (length msg <= cnt) then
    m1 ← store m cb msg;
    match rt with
    | ccl_recv_reduce_local_buf => comp_reduce m1 cb cnt io
    | ccl_recv_reduce_comm_buf => comp_reduce m1 io cnt cb
    end
  else None.

Definition recv_copy_entry_update (rb cb : ccl_buffer) (cnt : nat) (msg : list V) (m : memory) : option memory :=
  if decide (length msg <= cnt) then m1 ← store m rb msg; comp_copy m1 rb cb cnt else None.

(** What starting an entry does to the memory, and what it sends. *)
Definition start_entry (e : entry) (m : memory) : option (memory * option (nat * list V)) :=
  match e with
  | send_entry b cnt dst => send_entry_start b cnt dst m
  | copy_entry i o cnt => copy_entry_start i o cnt m
  | reduce_local_entry i cnt io => reduce_local_entry_start i cnt io m
  | _ => Some (m, None)
  end.

(** What completing an entry does, with the message it received (nothing for a send). *)
Definition complete_entry (e : entry) (msg : list V) (m : memory) : option memory :=
  match e with
  | recv_entry b cnt _ => recv_entry_update b cnt msg m
  | recv_reduce_entry io cnt _ cb rt => recv_reduce_entry_update io cnt cb rt msg m
  | recv_copy_entry rb cb cnt _ => recv_copy_entry_update rb cb cnt msg m
  | _ => Some m
  end.

(** * Lemmas: cells *)

Lemma cell_add (b : ccl_buffer) (o i : nat) : cell (b +b o * dsz) i = cell b (o + i).
Proof. unfold cell, buffer_add. cbn. f_equal. lia. Qed.

Lemma cell_0 (b : ccl_buffer) : cell b 0 = (buf_src b, buf_offset b).
Proof. unfold cell. f_equal. lia. Qed.

Lemma cell_S (b : ccl_buffer) (i : nat) : cell b (S i) = cell (b +b dsz) i.
Proof. unfold cell, buffer_add. cbn. f_equal. lia. Qed.

Lemma read_cells_length (m : memory) b n vs : read_cells m b n = Some vs -> length vs = n.
Proof.
  revert b vs. induction n as [|n IH]; intros b vs; cbn; [by intros [= <-]|].
  intros (v & _ & (vs' & H & [= <-])%bind_Some)%bind_Some. cbn. f_equal. by eapply IH.
Qed.

Lemma read_cells_lookup (m : memory) b n vs i :
  read_cells m b n = Some vs -> i < n -> m !! cell b i = vs !! i.
Proof.
  revert b vs i. induction n as [|n IH]; intros b vs i; cbn [read_cells]; [lia|].
  intros (v & Hv & (vs' & H & [= <-])%bind_Some)%bind_Some Hi.
  destruct i as [|i]; [by rewrite cell_0|]. rewrite cell_S. cbn. apply IH; [done|lia].
Qed.

Lemma read_cells_intro (m : memory) b vs :
  (forall i, i < length vs -> m !! cell b i = vs !! i) -> read_cells m b (length vs) = Some vs.
Proof.
  revert b. induction vs as [|v vs IH]; intros b H; [done|]. cbn [length read_cells].
  rewrite <- (cell_0 b), (H 0) by (cbn; lia). cbn.
  rewrite (IH (b +b dsz)); [done|]. intros i Hi. rewrite <- cell_S. apply (H (S i)). cbn. lia.
Qed.

Context (dsz_pos : 0 < dsz).

Lemma cell_inj (b : ccl_buffer) (i j : nat) : cell b i = cell b j -> i = j.
Proof. unfold cell. intros [= H]. nia. Qed.

Lemma lookup_write_cells_out (m : memory) b vs k :
  (forall i, i < length vs -> k <> cell b i) -> write_cells m b vs !! k = m !! k.
Proof.
  revert b. induction vs as [|v vs IH]; intros b H; [done|]. cbn [write_cells].
  rewrite lookup_insert_ne by (rewrite <- (cell_0 b); intros E; apply (H 0); [cbn; lia|done]).
  apply IH. intros i Hi. rewrite <- cell_S. apply (H (S i)). cbn. lia.
Qed.

Lemma lookup_write_cells_in (m : memory) b vs i :
  i < length vs -> write_cells m b vs !! cell b i = vs !! i.
Proof.
  revert b i. induction vs as [|v vs IH]; intros b i Hi; [cbn in Hi; lia|]. cbn [write_cells].
  destruct i as [|i].
  - rewrite cell_0, lookup_insert_eq. done.
  - rewrite lookup_insert_ne by (rewrite <- (cell_0 b); intros E%cell_inj; lia).
    rewrite cell_S. cbn. apply IH. cbn in Hi. lia.
Qed.

(** * Arrays: [n] elements [f 0 .. f (n-1)] stored from buffer [b] on *)

Definition arr (m : memory) (b : ccl_buffer) (n : nat) (f : nat -> V) : Prop :=
  forall i, i < n -> m !! cell b i = Some (f i).

Lemma arr_read (m : memory) b n f : arr m b n f -> read_cells m b n = Some (f <$> seq 0 n).
Proof.
  intros H. replace n with (length (f <$> seq 0 n)) at 1 by (by rewrite length_fmap, length_seq).
  apply read_cells_intro. intros i Hi. rewrite length_fmap, length_seq in Hi.
  rewrite H, list_lookup_fmap, lookup_seq_lt by done. done.
Qed.

Lemma arr_sub (m : memory) b n f o k :
  arr m b n f -> o + k <= n -> arr m (b +b o * dsz) k (fun i => f (o + i)).
Proof. intros H Hk i Hi. rewrite cell_add. apply H. lia. Qed.

Lemma arr_ext (m : memory) b n f g : (forall i, i < n -> f i = g i) -> arr m b n f -> arr m b n g.
Proof. intros E H i Hi. rewrite H, E by done. done. Qed.

Lemma arr_write_sub (m : memory) b n f o (k : nat) (g : nat -> V) :
  arr m b n f -> o + k <= n ->
  arr (write_cells m (b +b o * dsz) (g <$> seq 0 k)) b n
      (fun i => if decide (o <= i < o + k) then g (i - o) else f i).
Proof.
  intros H Hk i Hi. case_decide as Hd.
  - replace (cell b i) with (cell (b +b o * dsz) (i - o)) by (rewrite cell_add; f_equal; lia).
    rewrite lookup_write_cells_in by (rewrite length_fmap, length_seq; lia).
    rewrite list_lookup_fmap, lookup_seq_lt by lia. done.
  - rewrite lookup_write_cells_out; [by apply H|]. intros j Hj.
    rewrite length_fmap, length_seq in Hj. rewrite cell_add. intros E%cell_inj. lia.
Qed.

Lemma arr_write_other (m : memory) b n f b' vs :
  buf_src b <> buf_src b' -> arr m b n f -> arr (write_cells m b' vs) b n f.
Proof.
  intros Hne H i Hi. rewrite lookup_write_cells_out; [by apply H|].
  intros j _ [= E _]. done.
Qed.

(** Entry effects on arrays. *)

Lemma store_arr (m : memory) b n f o vs :
  arr m b n f -> o + length vs <= n ->
  store m (b +b o * dsz) vs = Some (write_cells m (b +b o * dsz) vs).
Proof. intros H Hk. unfold store. by rewrite (arr_read _ _ _ _ (arr_sub _ _ _ _ _ _ H Hk)). Qed.

Lemma zip_with_fmap_seq (f g : nat -> V) (k : nat) :
  zip_with op (f <$> seq 0 k) (g <$> seq 0 k) = (fun i => op (f i) (g i)) <$> seq 0 k.
Proof.
  apply list_eq. intros i. rewrite lookup_zip_with, !list_lookup_fmap.
  destruct (seq 0 k !! i); done.
Qed.
End memory.

Arguments send_entry_start {V} dsz b cnt dst m /.
Arguments copy_entry_start {V} dsz i o cnt m /.
Arguments reduce_local_entry_start {V} op dsz i cnt io m /.
Arguments recv_entry_update {V} dsz b cnt msg m /.
Arguments recv_reduce_entry_update {V} op dsz io cnt cb rt msg m /.
Arguments recv_copy_entry_update {V} dsz rb cb cnt msg m /.
