(* ===== verification/Network.v ===== *)
(** Ranks executing their schedules over the transport.

    The state of a rank is its memory, the entries it has started and not
    completed, and the entries still to start; this is the picture
    [ccl_sched::do_progress] ([src/src/sched/sched.cpp], modelled call by call in
    [Progress]) maintains: entries start in order, a barrier entry lets nothing
    start until everything up to it is complete, and started entries complete in
    whatever order their messages arrive.  The transport matches messages of one
    sender in order ([ATL_STATUS] and tag handling: all traffic of one schedule
    between two ranks carries one tag).  With [rdv] set a send completes only when
    the receiver has taken the message (rendezvous), otherwise at any time (eager).

    The file proves that the ranks' schedules form a deterministic system: if no
    barrier group has a data race, one complete run determines every run - all
    runs end, none deadlocks, and all end in the same memories. *)

From S2P Require Import Prelude Sched.
From stdpp Require Import relations.
Open Scope ccl_scope.

(** * Channels *)

(** (is an acknowledgement, sender, receiver) *)
Abbreviation chan_key := (bool * nat * nat)%type.

Section channels.
Context {M : Type}.
Abbreviation chans := (gmap chan_key (list M)).

Definition chan (c : chans) (k : chan_key) : list M := default [] (c !! k).

Definition set_chan (k : chan_key) (l : list M) (c : chans) : chans :=
  match l with [] => delete k c | _ => <[k := l]> c end.

Definition push (k : chan_key) (v : M) (c : chans) : chans := set_chan k (chan c k ++ [v]) c.

Definition pop (k : chan_key) (c : chans) : option (M * chans) :=
  match chan c k with [] => None | v :: l => Some (v, set_chan k l c) end.

Lemma chan_set_eq k l c : chan (set_chan k l c) k = l.
Proof. unfold chan, set_chan. destruct l; by simplify_map_eq. Qed.

Lemma chan_set_ne k k' l c : k <> k' -> chan (set_chan k l c) k' = chan c k'.
Proof. intros. unfold chan, set_chan. destruct l; by simplify_map_eq. Qed.

Lemma set_chan_twice k l l' c : set_chan k l (set_chan k l' c) = set_chan k l c.
Proof.
  unfold set_chan. destruct l, l'; try apply delete_delete_eq; try apply delete_insert_eq.
  - apply insert_delete_eq.
  - apply insert_insert_eq.
Qed.

Lemma set_chan_comm k k' l l' c :
  k <> k' -> set_chan k l (set_chan k' l' c) = set_chan k' l' (set_chan k l c).
Proof.
  intros. unfold set_chan. destruct l, l'.
  - apply delete_delete.
  - by rewrite delete_insert_ne.
  - by rewrite delete_insert_ne.
  - by apply insert_insert_ne.
Qed.

Lemma push_push k v k' v' c : k <> k' -> push k v (push k' v' c) = push k' v' (push k v c).
Proof. intros. unfold push. rewrite !chan_set_ne by done. by apply set_chan_comm. Qed.

Lemma pop_push k v k' w c c1 : pop k c = Some (v, c1) -> pop k (push k' w c) = Some (v, push k' w c1).
Proof.
  unfold pop, push. destruct (chan c k) as [|x l] eqn:E; [done|]. intros [= <- <-].
  destruct (decide (k = k')) as [<-|Hne].
  - rewrite !chan_set_eq, E. cbn [app]. by rewrite !set_chan_twice.
  - rewrite !chan_set_ne, E by done. f_equal. f_equal. by apply set_chan_comm.
Qed.

Lemma pop_pop k v k' v' c c1 c2 :
  k <> k' -> pop k c = Some (v, c1) -> pop k' c = Some (v', c2) ->
  exists c3, pop k' c1 = Some (v', c3) /\ pop k c2 = Some (v, c3).
Proof.
  unfold pop. intros Hne. destruct (chan c k) eqn:E1; [done|]. intros [= <- <-].
  destruct (chan c k') eqn:E2; [done|]. intros [= <- <-].
  rewrite !chan_set_ne, E1, E2 by done. eexists. split; [done|]. f_equal. f_equal. by apply set_chan_comm.
Qed.

(** Optional pop and push: what one step does to the channels. *)
Definition pop_opt (dflt : M) (k : option chan_key) (c : chans) : option (M * chans) :=
  match k with None => Some (dflt, c) | Some k => pop k c end.
Definition push_opt (o : option (chan_key * M)) (c : chans) : chans :=
  match o with None => c | Some (k, v) => push k v c end.

Lemma pop_push_opt d k v o c c1 :
  pop_opt d k c = Some (v, c1) -> pop_opt d k (push_opt o c) = Some (v, push_opt o c1).
Proof.
  destruct k as [k|]; cbn; [|by intros [= <- <-]].
  destruct o as [[k' w]|]; cbn; [apply pop_push|done].
Qed.

Lemma pop_pop_opt d k v k' v' c c1 c2 :
  (forall x, k = Some x -> k' <> Some x) ->
  pop_opt d k c = Some (v, c1) -> pop_opt d k' c = Some (v', c2) ->
  exists c3, pop_opt d k' c1 = Some (v', c3) /\ pop_opt d k c2 = Some (v, c3).
Proof.
  intros Hne. destruct k as [k|], k' as [k'|]; cbn.
  - apply pop_pop. intros ->. by apply (Hne k').
  - intros H1 [= <- <-]. eauto.
  - intros [= <- <-] H2. eauto.
  - intros [= <- <-] [= <- <-]. eauto.
Qed.

(** Two steps that pop different channels and push different channels commute. *)
Lemma chan_diamond d k v o k' v' o' c c1 c2 :
  (forall x, k = Some x -> k' <> Some x) ->
  (forall x w w', o = Some (x, w) -> o' <> Some (x, w')) ->
  pop_opt d k c = Some (v, c1) -> pop_opt d k' c = Some (v', c2) ->
  exists c3, pop_opt d k' (push_opt o c1) = Some (v', push_opt o c3) /\
             pop_opt d k (push_opt o' c2) = Some (v, push_opt o' c3) /\
             push_opt o' (push_opt o c3) = push_opt o (push_opt o' c3).
Proof.
  intros Hk Ho H1 H2. destruct (pop_pop_opt _ _ _ _ _ _ _ _ Hk H1 H2) as (c3 & E1 & E2).
  exists c3. split; [by apply pop_push_opt|]. split; [by apply pop_push_opt|].
  destruct o as [[x w]|], o' as [[x' w']|]; cbn; try done.
  apply push_push. intros ->. by apply (Ho x w w').
Qed.
End channels.

(** * Lists: deletion by index *)

Section list_delete.
Context {A : Type}.
Implicit Types l : list A.

Lemma list_delete_delete_lt l i j : i < j -> delete i (delete j l) = delete (j - 1) (delete i l).
Proof.
  revert i j. induction l as [|x l IH]; intros i j Hij; [done|].
  destruct j as [|j]; [lia|]. destruct i as [|i]; cbn.
  - by replace (j - 0) with j by lia.
  - destruct j as [|j]; [lia|]. cbn. f_equal. specialize (IH i (S j)).
    replace (S j - 1) with j in IH by lia. apply IH. lia.
Qed.

Lemma list_take_delete_lt l i j : i < j -> take (j - 1) (delete i l) = delete i (take j l).
Proof.
  revert i j. induction l as [|x l IH]; intros i j Hij; [destruct (j - 1), j; done|].
  destruct j as [|j]; [lia|]. destruct i as [|i]; cbn.
  - by replace (j - 0) with j by lia.
  - destruct j as [|j]; [lia|]. cbn. f_equal. specialize (IH i (S j)).
    replace (S j - 1) with j in IH by lia. apply IH. lia.
Qed.

Lemma list_take_delete_ge l i j : j <= i -> take j (delete i l) = take j l.
Proof.
  revert i j. induction l as [|x l IH]; intros i j Hij; [done|].
  destruct j as [|j]; [done|]. destruct i as [|i]; [lia|]. cbn. f_equal. apply IH. lia.
Qed.

Lemma forallb_delete (P : A -> bool) l i : forallb P l = true -> forallb P (delete i l) = true.
Proof.
  revert i. induction l as [|x l IH]; intros i; [done|]. cbn. rewrite andb_true_iff. intros [H1 H2].
  destruct i; cbn; [done|]. rewrite H1. cbn. by apply IH.
Qed.

Lemma forallb_lookup (P : A -> bool) l i x : forallb P l = true -> l !! i = Some x -> P x = true.
Proof. intros H Hi. rewrite forallb_forall in H. apply H. by eapply list_elem_of_In, list_elem_of_lookup_2. Qed.

Lemma list_delete_app_l l l' i : i < length l -> delete i (l ++ l') = delete i l ++ l'.
Proof.
  revert i. induction l as [|x l IH]; intros i Hi; cbn in *; [lia|].
  destruct i; cbn; [done|]. f_equal. apply IH. lia.
Qed.

Lemma list_delete_sub l i x : x ∈ delete i l -> x ∈ l.
Proof.
  revert i. induction l as [|y l IH]; intros i; [done|]. destruct i; cbn; [by right|].
  intros [->|H]%elem_of_cons; [by left|right; by eapply IH].
Qed.
End list_delete.

(** * The control of a schedule *)

(** What may start and complete, without what the entries do: [Progress] shows
    that [ccl_sched::do_progress] follows these steps, and [rank_step_ctl] that
    the ranks of the network do. *)
Record ctl (A : Type) := mk_ctl { c_pend : list A; c_bar : bool; c_todo : list (A * bool) }.
Arguments mk_ctl {A} _ _ _.
Arguments c_pend {A} _.
Arguments c_bar {A} _.
Arguments c_todo {A} _.

Inductive ctl_step {A} : ctl A -> ctl A -> Prop :=
| ctl_start pend bar e b todo : (bar = true -> pend = []) ->
    ctl_step (mk_ctl pend bar ((e, b) :: todo)) (mk_ctl (pend ++ [e]) b todo)
| ctl_start_done pend bar e b todo : (bar = true -> pend = []) ->
    ctl_step (mk_ctl pend bar ((e, b) :: todo)) (mk_ctl pend b todo)
| ctl_complete l1 e l2 bar todo :
    ctl_step (mk_ctl (l1 ++ e :: l2) bar todo) (mk_ctl (l1 ++ l2) bar todo).

(** * Ranks and steps *)

Section network.
Context {V : Type} (op : V -> V -> V) (dsz : nat) (rdv : bool).

Record rstate := mk_rstate {
  r_mem : gmap (nat * nat) V;
  r_pend : list entry;            (* started, not complete, in start order *)
  r_bar : bool;                   (* the last started entry is a barrier *)
  r_todo : list (entry * bool) }. (* still to start *)

Record gstate := mk_gstate { g_ranks : list rstate; g_chans : gmap chan_key (list (list V)) }.

(** The channel an entry's completion consumes from, and the acknowledgement it sends. *)
Definition in_chan (me : nat) (e : entry) : option chan_key :=
  match e with
  | send_entry _ _ dst => if rdv then Some (true, dst, me) else None
  | recv_entry _ _ from | recv_reduce_entry _ _ from _ _ | recv_copy_entry _ _ _ from =>
    Some (false, from, me)
  | _ => None
  end.

Definition out_ack (me : nat) (e : entry) : option (chan_key * list V) :=
  match e with
  | recv_entry _ _ from | recv_reduce_entry _ _ from _ _ | recv_copy_entry _ _ _ from =>
    if rdv then Some ((true, me, from), []) else None
  | _ => None
  end.

Inductive label := LStart | LComplete (k : nat).

(** What one step of rank [me] does: the channel it pops, and from the message
    the new rank state and the message it pushes. *)
Definition rank_step (me : nat) (l : label) (rs : rstate)
  : option (option chan_key * (list V -> option (rstate * option (chan_key * list V)))) :=
  match l with
  | LStart =>
    match r_todo rs with
    | [] => None
    | (e, b) :: todo =>
      if r_bar rs && bool_decide (r_pend rs <> []) then None
      else Some (None, fun _ =>
        '(m', out) ← start_entry op dsz e (r_mem rs);
        Some (mk_rstate m' (if is_async e then r_pend rs ++ [e] else r_pend rs) b todo,
              match out with Some (dst, vs) => Some ((false, me, dst), vs) | None => None end))
    end
  | LComplete k =>
    match r_pend rs !! k with
    | None => None
    | Some e =>
      if forallb (fun e' => negb (bool_decide (in_chan me e' = in_chan me e))
                            || bool_decide (in_chan me e = None))
                 (take k (r_pend rs))
      then Some (in_chan me e, fun msg =>
        m' ← complete_entry op dsz e msg (r_mem rs);
        Some (mk_rstate m' (delete k (r_pend rs)) (r_bar rs) (r_todo rs), out_ack me e))
      else None
    end
  end.

(** Every step of a rank is a step of its control. *)
Lemma rank_step_ctl me l rs k f msg rs' out :
  rank_step me l rs = Some (k, f) -> f msg = Some (rs', out) ->
  ctl_step (mk_ctl (r_pend rs) (r_bar rs) (r_todo rs)) (mk_ctl (r_pend rs') (r_bar rs') (r_todo rs')).
Proof.
  destruct l as [|i]; cbn.
  - destruct (r_todo rs) as [|[e b] todo]; [done|]. destruct (r_bar rs && _) eqn:Eb; [done|].
    intros [= <- <-] ([m' o] & _ & [= <- _])%bind_Some. cbn.
    assert (Hb : r_bar rs = true -> r_pend rs = []).
    { intros Hb. rewrite Hb in Eb. cbn in Eb. apply bool_decide_eq_false in Eb. by apply dec_stable in Eb. }
    destruct (is_async e); by constructor.
  - destruct (r_pend rs !! i) as [e|] eqn:E; [|done]. case_match; [|done].
    intros [= <- <-] (m' & _ & [= <- _])%bind_Some. cbn.
    rewrite <- (take_drop_middle _ _ _ E) at 1. rewrite delete_take_drop. constructor.
Qed.

Definition try_step (me : nat) (l : label) (g : gstate) : option gstate :=
  rs ← g_ranks g !! me;
  '(k, f) ← rank_step me l rs;
  '(msg, c1) ← pop_opt [] k (g_chans g);
  '(rs', out) ← f msg;
  Some (mk_gstate (<[me := rs']> (g_ranks g)) (push_opt out c1)).

Definition gstep (g g' : gstate) : Prop := exists me l, try_step me l g = Some g'.

(** Every rank has started and completed everything. *)
Definition finished (g : gstate) : Prop :=
  Forall (fun rs => r_pend rs = [] /\ r_todo rs = []) (g_ranks g).

Lemma try_step_inv me l g g' : try_step me l g = Some g' ->
  exists rs k f msg c1 rs' out,
    g_ranks g !! me = Some rs /\ rank_step me l rs = Some (k, f) /\
    pop_opt [] k (g_chans g) = Some (msg, c1) /\ f msg = Some (rs', out) /\
    g' = mk_gstate (<[me := rs']> (g_ranks g)) (push_opt out c1).
Proof.
  unfold try_step. intros (rs & H1 & ([k f] & H2 & ([msg c1] & H3 & ([rs' out] & H4 & [= <-])
    %bind_Some)%bind_Some)%bind_Some)%bind_Some. eauto 12.
Qed.

Lemma try_step_intro me l g rs k f msg c1 rs' out :
  g_ranks g !! me = Some rs -> rank_step me l rs = Some (k, f) ->
  pop_opt [] k (g_chans g) = Some (msg, c1) -> f msg = Some (rs', out) ->
  try_step me l g = Some (mk_gstate (<[me := rs']> (g_ranks g)) (push_opt out c1)).
Proof. intros H1 H2 H3 H4. unfold try_step. rewrite H1. cbn. rewrite H2. cbn. rewrite H3. cbn. by rewrite H4. Qed.

(** A rank pops only channels addressed to it and pushes only channels it sends on. *)
Lemma rank_step_chans me l rs k f : rank_step me l rs = Some (k, f) ->
  (forall x, k = Some x -> x.2 = me) /\
  (forall msg rs' x w, f msg = Some (rs', Some (x, w)) -> x.1.2 = me).
Proof.
  destruct l as [|i]; cbn.
  - destruct (r_todo rs) as [|[e b] todo]; [done|]. case_match; [done|]. intros [= <- <-].
    split; [done|]. intros msg rs' x w ([m' out] & H1 & H2)%bind_Some.
    destruct out as [[dst vs]|]; by simplify_eq.
  - destruct (r_pend rs !! i) as [e|]; [|done]. case_match; [|done]. intros [= <- <-]. split.
    + intros x Hx. destruct e; cbn in Hx; repeat case_match; by simplify_eq.
    + intros msg rs' x w (m' & H1 & [= _ H2])%bind_Some.
      destruct e; cbn in H2; repeat case_match; by simplify_eq.
Qed.

(** * Steps of different ranks commute *)

Lemma diamond_ranks me l g g1 me' l' g2 :
  me <> me' -> try_step me l g = Some g1 -> try_step me' l' g = Some g2 ->
  exists g3, try_step me' l' g1 = Some g3 /\ try_step me l g2 = Some g3.
Proof.
  intros Hne (rs & k & f & msg & c1 & rs1 & o & R1 & S1 & P1 & F1 & ->)%try_step_inv
             (rs' & k' & f' & msg' & c2 & rs2 & o' & R2 & S2 & P2 & F2 & ->)%try_step_inv.
  destruct (rank_step_chans _ _ _ _ _ S1) as [K1 O1]. destruct (rank_step_chans _ _ _ _ _ S2) as [K2 O2].
  destruct (chan_diamond [] k msg o k' msg' o' (g_chans g) c1 c2) as (c3 & E1 & E2 & E3); [| |done|done|].
  - intros x -> ->. apply Hne. rewrite <- (K1 x), <- (K2 x); done.
  - intros x w w' -> ->. apply Hne. rewrite <- (O1 _ _ _ _ F1). by rewrite <- (O2 _ _ _ _ F2).
  - eexists. split.
    + eapply try_step_intro; cbn; [by rewrite list_lookup_insert_ne|done|exact E1|exact F2].
    + rewrite (try_step_intro me l _ rs k f msg (push_opt o' c3) rs1 o);
        [|cbn; by rewrite list_lookup_insert_ne|done..].
      cbn. by rewrite E3, list_insert_insert_ne.
Qed.

(** * Races within a rank *)

(** [c] may be in flight while [e] is started or in flight. *)
Definition compat (c e : entry) : Prop :=
  (forall m msg m1 m2 o, complete_entry op dsz c msg m = Some m1 -> start_entry op dsz e m = Some (m2, o) ->
     exists m3, start_entry op dsz e m1 = Some (m3, o) /\ complete_entry op dsz c msg m2 = Some m3) /\
  (forall m v1 v2 m1 m2, complete_entry op dsz c v1 m = Some m1 -> complete_entry op dsz e v2 m = Some m2 ->
     exists m3, complete_entry op dsz e v2 m1 = Some m3 /\ complete_entry op dsz c v1 m2 = Some m3).

Definition pairwise (R : entry -> entry -> Prop) (l : list entry) : Prop :=
  forall i j a b, i < j -> l !! i = Some a -> l !! j = Some b -> R a b.

(** Within each barrier group every entry is compatible with the earlier ones;
    [cur] are the entries of the current group that may still be in flight. *)
Fixpoint race_free (cur : list entry) (todo : list (entry * bool)) : Prop :=
  match todo with
  | [] => True
  | (e, b) :: todo' => Forall (fun c => compat c e) cur /\
                       race_free (if b then [] else if is_async e then cur ++ [e] else cur) todo'
  end.

Definition rank_ok (rs : rstate) : Prop :=
  pairwise compat (r_pend rs) /\ race_free (if r_bar rs then [] else r_pend rs) (r_todo rs).

Lemma pairwise_delete R l i : pairwise R l -> pairwise R (delete i l).
Proof.
  intros H a b x y Hab Ha Hb.
  destruct (decide (b < i)).
  - rewrite list_lookup_delete_lt in Ha, Hb by lia. by apply (H a b).
  - rewrite list_lookup_delete_ge in Hb by lia. destruct (decide (a < i)).
    + rewrite list_lookup_delete_lt in Ha by lia. eapply (H a (S b)); [lia|done..].
    + rewrite list_lookup_delete_ge in Ha by lia. eapply (H (S a) (S b)); [lia|done..].
Qed.

Lemma pairwise_snoc R l x : pairwise R l -> Forall (fun c => R c x) l -> pairwise R (l ++ [x]).
Proof.
  intros H HF i j a b Hij Ha Hb. rewrite Forall_lookup in HF.
  assert (j < length l \/ j = length l) as [Hj|Hj].
  { apply lookup_lt_Some in Hb. rewrite length_app in Hb. cbn in Hb. lia. }
  - rewrite lookup_app_l in Ha, Hb by lia. by apply (H i j).
  - subst j. rewrite lookup_app_l in Ha by lia. rewrite list_lookup_middle in Hb by done.
    simplify_eq. by eapply HF.
Qed.

Lemma race_free_mono cur cur' todo :
  (forall e, e ∈ cur' -> e ∈ cur) -> race_free cur todo -> race_free cur' todo.
Proof.
  revert cur cur'. induction todo as [|[e b] todo IH]; intros cur cur' Hsub; [done|].
  cbn. intros [H1 H2]. split.
  - rewrite Forall_forall in *. auto.
  - destruct b; [done|]. destruct (is_async e); [|by eapply IH].
    eapply IH; [|exact H2]. intros x [Hx|Hx]%elem_of_app; apply elem_of_app; auto.
Qed.

(** Steps keep a rank race-free. *)
Lemma rank_ok_step me l rs k f msg rs' out :
  rank_ok rs -> rank_step me l rs = Some (k, f) -> f msg = Some (rs', out) -> rank_ok rs'.
Proof.
  intros [Hp Hr] Hs Hf. destruct l as [|i]; cbn in Hs.
  - destruct (r_todo rs) as [|[e b] todo]; [done|].
    destruct (r_bar rs && bool_decide (r_pend rs <> [])) eqn:Hb; [done|]. injection Hs as <- <-.
    apply bind_Some in Hf as ([m' o] & Hst & [= <- <-]).
    assert (Hcur : (if r_bar rs then [] else r_pend rs) = r_pend rs).
    { destruct (r_bar rs); [|done]. cbn in Hb. apply bool_decide_eq_false in Hb.
      destruct (r_pend rs); [done|]. by destruct Hb. }
    rewrite Hcur in Hr. destruct Hr as [Hc Hr]. split; cbn.
    + destruct (is_async e); [by apply pairwise_snoc|done].
    + destruct b; [done|]. exact Hr.
  - destruct (r_pend rs !! i) as [e|]; [|done]. case_match; [|done]. injection Hs as <- <-.
    apply bind_Some in Hf as (m' & Hc & [= <- <-]). split; cbn.
    + by apply pairwise_delete.
    + destruct (r_bar rs); [done|]. eapply race_free_mono; [|exact Hr].
      intros x. apply list_delete_sub.
Qed.

Definition net_ok (g : gstate) : Prop := Forall rank_ok (g_ranks g).

Lemma net_ok_step g g' : net_ok g -> gstep g g' -> net_ok g'.
Proof.
  intros Hok (me & l & (rs & k & f & msg & c1 & rs' & out & H1 & H2 & H3 & H4 & ->)%try_step_inv).
  unfold net_ok in *. cbn. apply Forall_insert; [done|]. eapply rank_ok_step; [|exact H2|exact H4].
  rewrite Forall_lookup in Hok. by eapply Hok.
Qed.

(** * Steps of one rank commute when it is race-free *)

Definition fifo_ok (me : nat) (e : entry) (l : list entry) : bool :=
  forallb (fun e' => negb (bool_decide (in_chan me e' = in_chan me e))
                     || bool_decide (in_chan me e = None)) l.

Lemma fifo_in_chan me e l i e' x :
  fifo_ok me e l = true -> l !! i = Some e' -> in_chan me e = Some x -> in_chan me e' <> Some x.
Proof.
  intros H Hi Hx Hx'. eapply forallb_lookup in H; [|exact Hi]. cbn beta in H. rewrite Hx, Hx' in H.
  by rewrite bool_decide_eq_true_2 in H.
Qed.

(** The pop and the push of one step of [l] and one of [l'] are on different channels. *)
Definition chans_differ (k k' : option chan_key) (o o' : option (chan_key * list V)) : Prop :=
  (forall x, k = Some x -> k' <> Some x) /\ (forall x w w', o = Some (x, w) -> o' <> Some (x, w')).

Lemma diamond_start_complete me rs k f msg rs1 o i k' f' msg' rs2 o' :
  rank_ok rs -> rank_step me LStart rs = Some (k, f) -> rank_step me (LComplete i) rs = Some (k', f') ->
  f msg = Some (rs1, o) -> f' msg' = Some (rs2, o') ->
  chans_differ k k' o o' /\
  exists f1 f1' rs3, rank_step me (LComplete i) rs1 = Some (k', f1') /\ f1' msg' = Some (rs3, o') /\
                     rank_step me LStart rs2 = Some (k, f1) /\ f1 msg = Some (rs3, o).
Proof.
  intros [Hp Hr] S1 S2 F1 F2. cbn in S1, S2.
  destruct (r_pend rs !! i) as [c|] eqn:Hc; [|done].
  assert (Hpne : r_pend rs <> []) by (intros E; by rewrite E in Hc).
  destruct (r_todo rs) as [|[e b] todo] eqn:Ht; [done|].
  rewrite bool_decide_eq_true_2 in S1 by done. destruct (r_bar rs) eqn:Hb; [done|].
  cbn [andb] in S1. injection S1 as <- <-.
  destruct (forallb _ _) eqn:Hf; [|done]. injection S2 as <- <-.
  apply bind_Some in F1 as ([m1 out] & Hst & [= <- <-]).
  apply bind_Some in F2 as (m2 & Hcm & [= <- <-]).
  destruct Hr as [Hcp _]. rewrite Forall_lookup in Hcp. destruct (Hcp _ _ Hc) as [Hsc _].
  destruct (Hsc _ _ _ _ _ Hcm Hst) as (m3 & Hst' & Hcm'). pose proof (lookup_lt_Some _ _ _ Hc) as Hlen.
  assert (Hget : (if is_async e then r_pend rs ++ [e] else r_pend rs) !! i = Some c)
    by (destruct (is_async e); [by rewrite lookup_app_l|done]).
  assert (Htk : take i (if is_async e then r_pend rs ++ [e] else r_pend rs) = take i (r_pend rs))
    by (destruct (is_async e); [by rewrite take_app_le by lia|done]).
  split.
  - split; [done|]. intros x w w' Ho Ho'. destruct out as [[dst vs]|]; [|done].
    destruct c; cbn in Ho'; repeat case_match; by simplify_eq.
  - eexists _, _, (mk_rstate m3 (if is_async e then delete i (r_pend rs) ++ [e] else delete i (r_pend rs)) b todo).
    split; [cbn; rewrite Hget, Htk, Hf; done|]. split.
    { cbn. rewrite Hcm'. cbn. do 3 f_equal.
      destruct (is_async e); [by rewrite list_delete_app_l|done]. }
    split; [reflexivity|]. cbn. rewrite Hst'. done.
Qed.

Lemma diamond_complete_complete me rs i k f msg rs1 o j k' f' msg' rs2 o' :
  i < j -> rank_ok rs ->
  rank_step me (LComplete i) rs = Some (k, f) -> rank_step me (LComplete j) rs = Some (k', f') ->
  f msg = Some (rs1, o) -> f' msg' = Some (rs2, o') ->
  chans_differ k k' o o' /\
  exists f1 f1' rs3, rank_step me (LComplete (j - 1)) rs1 = Some (k', f1') /\ f1' msg' = Some (rs3, o') /\
                     rank_step me (LComplete i) rs2 = Some (k, f1) /\ f1 msg = Some (rs3, o).
Proof.
  intros Hij [Hp Hr] S1 S2 F1 F2. cbn in S1, S2.
  destruct (r_pend rs !! i) as [c|] eqn:Hc; [|done]. destruct (r_pend rs !! j) as [e|] eqn:He; [|done].
  destruct (forallb _ (take i _)) eqn:Hf; [|done]. injection S1 as <- <-.
  destruct (forallb _ (take j _)) eqn:Hf'; [|done]. injection S2 as <- <-.
  apply bind_Some in F1 as (m1 & Hcm & [= <- <-]). apply bind_Some in F2 as (m2 & Hcm' & [= <- <-]).
  destruct (Hp _ _ _ _ Hij Hc He) as [_ Hcc].
  destruct (Hcc _ _ _ _ _ Hcm Hcm') as (m3 & E1 & E2).
  assert (Hdiff : forall x, in_chan me c = Some x -> in_chan me e <> Some x).
  { intros x Hx Hx'. eapply (fifo_in_chan me e (take j (r_pend rs)) i c x); [done| |done|done].
    by rewrite lookup_take_lt. }
  split.
  - split; [done|]. intros x w w' Ho Ho'. destruct c, e; cbn in Ho, Ho'; repeat case_match; simplify_eq;
      by eapply Hdiff.
  - eexists _, _, (mk_rstate m3 (delete i (delete j (r_pend rs))) (r_bar rs) (r_todo rs)).
    split; [|split; [|split]].
    + cbn. rewrite list_lookup_delete_ge by lia. replace (S (j - 1)) with j by lia. rewrite He.
      rewrite list_take_delete_lt by done. rewrite forallb_delete by done. done.
    + cbn. rewrite E1. cbn. by rewrite (list_delete_delete_lt _ i j).
    + cbn. rewrite list_lookup_delete_lt by lia. rewrite Hc.
      rewrite list_take_delete_ge by lia. rewrite Hf. done.
    + cbn. rewrite E2. done.
Qed.

Lemma diamond_rank me l g g1 l' g2 :
  net_ok g -> l <> l' -> try_step me l g = Some g1 -> try_step me l' g = Some g2 ->
  exists g3, gstep g1 g3 /\ gstep g2 g3.
Proof.
  intros Hok Hne (rs & k & f & msg & c1 & rs1 & o & R1 & S1 & P1 & F1 & ->)%try_step_inv
                 (rs' & k' & f' & msg' & c2 & rs2 & o' & R2 & S2 & P2 & F2 & ->)%try_step_inv.
  simplify_eq. assert (Hrs : rank_ok rs) by (unfold net_ok in Hok; rewrite Forall_lookup in Hok; by eapply Hok).
  assert (Hloc : chans_differ k k' o o' /\ exists l1 l1' f1 f1' rs3,
            rank_step me l1' rs1 = Some (k', f1') /\ f1' msg' = Some (rs3, o') /\
            rank_step me l1 rs2 = Some (k, f1) /\ f1 msg = Some (rs3, o)).
  { destruct l as [|i], l' as [|j].
    - done.
    - destruct (diamond_start_complete me rs k f msg rs1 o j k' f' msg' rs2 o') as [? (? & ? & ? & ? & ? & ? & ?)];
        [done..|]. split; [done|]. eauto 12.
    - destruct (diamond_start_complete me rs k' f' msg' rs2 o' i k f msg rs1 o)
        as [[D1 D2] (? & ? & ? & ? & ? & ? & ?)]; [done..|]. split.
      + split; [intros ? Hx Hx'; by eapply D1|intros ??? Hx Hx'; by eapply D2].
      + eauto 12.
    - destruct (decide (i < j)).
      + destruct (diamond_complete_complete me rs i k f msg rs1 o j k' f' msg' rs2 o') as [? (? & ? & ? & ? & ? & ? & ?)];
          [done..|]. split; [done|]. eauto 12.
      + assert (j < i) by (assert (i <> j) by congruence; lia).
        destruct (diamond_complete_complete me rs j k' f' msg' rs2 o' i k f msg rs1 o)
          as [[D1 D2] (? & ? & ? & ? & ? & ? & ?)]; [done..|]. split.
        * split; [intros ? Hx Hx'; by eapply D1|intros ??? Hx Hx'; by eapply D2].
        * eauto 12. }
  destruct Hloc as [[D1 D2] (l1 & l1' & f1 & f1' & rs3 & Q1 & Q2 & Q3 & Q4)].
  destruct (chan_diamond [] k msg o k' msg' o' (g_chans g) c1 c2) as (c3 & E1 & E2 & E3); [done..|].
  pose proof (lookup_lt_Some _ _ _ R1).
  eexists. split.
  - exists me, l1'. eapply try_step_intro; cbn; [by rewrite list_lookup_insert_eq|exact Q1|exact E1|exact Q2].
  - exists me, l1. rewrite (try_step_intro me l1 _ rs2 k f1 msg (push_opt o' c3) rs3 o);
      [|cbn; by rewrite list_lookup_insert_eq|done..].
    cbn. by rewrite E3, !list_insert_insert_eq.
Qed.

#[export] Instance label_eq_dec : EqDecision label.
Proof. solve_decision. Defined.

Lemma gstep_diamond g g1 g2 :
  net_ok g -> gstep g g1 -> gstep g g2 -> g1 = g2 \/ exists g3, gstep g1 g3 /\ gstep g2 g3.
Proof.
  intros Hok (me & l & H1) (me' & l' & H2). destruct (decide (me = me')) as [<-|].
  - destruct (decide (l = l')) as [<-|]; [left; congruence|].
    right. by eapply diamond_rank.
  - right. destruct (diamond_ranks me l g g1 me' l' g2) as (g3 & ? & ?); [done..|].
    exists g3. split; by eexists _, _.
Qed.

(** * One complete run determines all *)

Lemma finished_stuck g g' : finished g -> ~ gstep g g'.
Proof.
  intros Hf (me & l & (rs & k & f & msg & c1 & rs' & out & H1 & H2 & _)%try_step_inv).
  unfold finished in Hf. rewrite Forall_lookup in Hf. destruct (Hf _ _ H1) as [Hp Ht].
  destruct l; cbn in H2; [by rewrite Ht in H2|by rewrite Hp in H2].
Qed.

Lemma run_step_back n g gf g1 :
  net_ok g -> nsteps gstep n g gf -> finished gf -> gstep g g1 ->
  exists n', n = S n' /\ nsteps gstep n' g1 gf.
Proof.
  revert g g1. induction n as [|n IH]; intros g g1 Hok Hrun Hfin H1.
  - inv Hrun. by apply finished_stuck in H1.
  - exists n. split; [done|]. inv Hrun.
    rename y into g2.
    destruct (gstep_diamond g g1 g2 Hok H1) as [->|(g3 & H13 & H23)]; [done|done|].
    destruct (IH g2 g3) as (n' & -> & Hrun'); [by eapply net_ok_step|done..|].
    by econstructor.
Qed.

Lemma run_determines n g gf m g' :
  net_ok g -> nsteps gstep n g gf -> finished gf -> nsteps gstep m g g' ->
  m <= n /\ nsteps gstep (n - m) g' gf.
Proof.
  intros Hok Hrun Hfin. revert n g Hok Hrun. induction m as [|m IH]; intros n g Hok Hrun Hm.
  - inv Hm. rewrite Nat.sub_0_r. split; [lia|done].
  - inv Hm. rename y into g1.
    destruct (run_step_back n g gf g1) as (n' & -> & Hrun'); [done..|].
    destruct (IH n' g1) as [? ?]; [by eapply net_ok_step|done..|].
    split; [lia|]. by replace (S n' - S m) with (n' - m) by lia.
Qed.
End network.
