(* ===== verification/Race.v ===== *)
(** Footprints: when two entries of one barrier group cannot interfere.

    An entry touches the regions of its buffers; at completion (or, for a host
    copy or reduction, at start) it writes some of them.  Entries whose writes are
    apart from what the other touches commute, which is the [compat] condition
    of [Network]; the algorithm files show it for every group they build. *)

From S2P Require Import Prelude Sched Network.
Open Scope ccl_scope.

Section footprint.
Context {V : Type} (op : V -> V -> V) (dsz : nat) (dsz_pos : 0 < dsz).

Abbreviation memory := (gmap (nat * nat) V).
Abbreviation region := (ccl_buffer * nat)%type.

Definition region_cells (r : region) : list (nat * nat) := cell dsz r.1 <$> seq 0 r.2.
Definition cells_of (rs : list region) : list (nat * nat) := rs ≫= region_cells.

(** Regions of different allocations, or of one allocation and apart. *)
Definition apart (r1 r2 : region) : Prop :=
  r1.2 = 0 \/ r2.2 = 0 \/ buf_src r1.1 <> buf_src r2.1 \/
  buf_offset r1.1 + r1.2 * dsz <= buf_offset r2.1 \/
  buf_offset r2.1 + r2.2 * dsz <= buf_offset r1.1.

Definition all_apart (rs1 rs2 : list region) : Prop :=
  forall r1 r2, r1 ∈ rs1 -> r2 ∈ rs2 -> apart r1 r2.

(** What an entry touches and writes when it starts, and up to its completion.
    The buffer of a send counts as touched until the send completes: a transport
    may read it at any time in between, so nothing may overwrite it. *)
Definition touch_s (e : entry) : list region :=
  match e with
  | send_entry b cnt _ => [(b, cnt)]
  | copy_entry i o cnt => [(i, cnt); (o, cnt)]
  | reduce_local_entry i cnt io => [(i, cnt); (io, cnt)]
  | _ => []
  end.
Definition write_s (e : entry) : list region :=
  match e with
  | copy_entry _ o cnt => [(o, cnt)]
  | reduce_local_entry _ cnt io => [(io, cnt)]
  | _ => []
  end.
Definition touch_c (e : entry) : list region :=
  match e with
  | send_entry b cnt _ => [(b, cnt)]
  | recv_entry b cnt _ => [(b, cnt)]
  | recv_reduce_entry io cnt _ cb _ => [(cb, cnt); (io, cnt)]
  | recv_copy_entry rb cb cnt _ => [(rb, cnt); (cb, cnt)]
  | _ => []
  end.
Definition write_c (e : entry) : list region :=
  match e with
  | recv_entry b cnt _ => [(b, cnt)]
  | recv_reduce_entry io cnt _ cb ccl_recv_reduce_local_buf => [(cb, cnt); (io, cnt)]
  | recv_reduce_entry io cnt _ cb ccl_recv_reduce_comm_buf => [(cb, cnt)]
  | recv_copy_entry rb cb cnt _ => [(rb, cnt); (cb, cnt)]
  | _ => []
  end.

Definition no_race (c e : entry) : Prop :=
  all_apart (write_c c) (touch_s e) /\ all_apart (write_s e) (touch_c c) /\
  all_apart (write_c c) (touch_c e) /\ all_apart (write_c e) (touch_c c).

(** * Lemmas *)

Lemma elem_of_cells_of rs k : k ∈ cells_of rs <-> exists r i, r ∈ rs /\ i < r.2 /\ k = cell dsz r.1 i.
Proof.
  unfold cells_of. rewrite list_elem_of_bind. unfold region_cells. split.
  - intros (r & (i & -> & Hi%elem_of_seq)%list_elem_of_fmap & Hr). exists r, i. split_and!; [done|lia|done].
  - intros (r & i & Hr & Hi & ->). exists r. split; [|done]. apply list_elem_of_fmap.
    exists i. split; [done|]. apply elem_of_seq. lia.
Qed.

Lemma all_apart_cells rs1 rs2 k : all_apart rs1 rs2 -> k ∈ cells_of rs1 -> k ∉ cells_of rs2.
Proof.
  intros H (r1 & i & Hr1 & Hi & ->)%elem_of_cells_of (r2 & j & Hr2 & Hj & E)%elem_of_cells_of.
  specialize (H _ _ Hr1 Hr2). unfold cell in E. injection E as E1 E2. unfold apart in H. nia.
Qed.

Definition agree (L : list (nat * nat)) (m1 m2 : memory) : Prop :=
  forall k, k ∈ L -> m1 !! k = m2 !! k.

Lemma region_cells_in b n (L : list (nat * nat)) i :
  region_cells (b, n) ⊆ L -> i < n -> cell dsz b i ∈ L.
Proof. intros H Hi. apply H. apply list_elem_of_fmap. exists i. split; [done|]. apply elem_of_seq. cbn. lia. Qed.

Lemma read_agree L m1 m2 b n :
  agree L m1 m2 -> region_cells (b, n) ⊆ L -> read_cells dsz m1 b n = read_cells dsz m2 b n.
Proof.
  intros Ha Hs.
  assert (G : forall x y vs, agree L x y -> read_cells dsz x b n = Some vs -> read_cells dsz y b n = Some vs).
  { intros x y vs Hxy H. pose proof (read_cells_length _ _ _ _ _ H) as <-. apply read_cells_intro.
    intros i Hi. rewrite <- (read_cells_lookup _ _ _ _ _ i H) by done. symmetry. apply Hxy.
    by eapply region_cells_in. }
  assert (Hsym : agree L m2 m1) by (intros k Hk; symmetry; by apply Ha).
  destruct (read_cells dsz m1 b n) eqn:E1, (read_cells dsz m2 b n) eqn:E2; try done.
  - rewrite (G _ _ _ Ha E1) in E2. done.
  - by rewrite (G _ _ _ Ha E1) in E2.
  - by rewrite (G _ _ _ Hsym E2) in E1.
Qed.

Lemma store_agree L m1 m2 b vs m1' :
  agree L m1 m2 -> region_cells (b, length vs) ⊆ L -> store dsz m1 b vs = Some m1' ->
  exists m2', store dsz m2 b vs = Some m2' /\ agree L m1' m2'.
Proof.
  intros Ha Hs. unfold store. rewrite (read_agree L m1 m2) by done. case_match; [|done].
  intros [= <-]. eexists. split; [done|]. intros k Hk.
  destruct (decide (k ∈ region_cells (b, length vs))) as [Hin|Hout].
  - apply list_elem_of_fmap in Hin as (i & -> & Hi%elem_of_seq). cbn in *.
    rewrite !lookup_write_cells_in by lia. done.
  - rewrite !lookup_write_cells_out; [by apply Ha|try done..];
      intros i Hi ->; apply Hout; apply list_elem_of_fmap; exists i; (split; [done|]); apply elem_of_seq; cbn; lia.
Qed.

Lemma store_frame (m : memory) b vs m' k :
  store dsz m b vs = Some m' -> k ∉ region_cells (b, length vs) -> m' !! k = m !! k.
Proof.
  unfold store. case_match; [|done]. intros [= <-] Hk. apply lookup_write_cells_out; [done|].
  intros i Hi ->. apply Hk. apply list_elem_of_fmap. exists i. split; [done|]. apply elem_of_seq. cbn. lia.
Qed.

Lemma copy_agree L m1 m2 i o n m1' :
  agree L m1 m2 -> region_cells (i, n) ⊆ L -> region_cells (o, n) ⊆ L ->
  comp_copy dsz m1 i o n = Some m1' -> exists m2', comp_copy dsz m2 i o n = Some m2' /\ agree L m1' m2'.
Proof.
  intros Ha H1 H2. unfold comp_copy. rewrite (read_agree L m1 m2) by done.
  intros (vs & Hr & Hs)%bind_Some. rewrite Hr. cbn.
  pose proof (read_cells_length _ _ _ _ _ Hr) as <-. by eapply store_agree.
Qed.

Lemma copy_frame (m : memory) i o n m' k :
  comp_copy dsz m i o n = Some m' -> k ∉ region_cells (o, n) -> m' !! k = m !! k.
Proof.
  intros (vs & Hr & Hs)%bind_Some Hk. pose proof (read_cells_length _ _ _ _ _ Hr) as <-. by eapply store_frame.
Qed.

Lemma reduce_length (m : memory) i io n x y :
  read_cells dsz m i n = Some x -> read_cells dsz m io n = Some y -> length (zip_with op y x) = n.
Proof.
  intros Hx%read_cells_length Hy%read_cells_length. rewrite length_zip_with, Hx, Hy. lia.
Qed.

Lemma reduce_agree L m1 m2 i io n m1' :
  agree L m1 m2 -> region_cells (i, n) ⊆ L -> region_cells (io, n) ⊆ L ->
  comp_reduce op dsz m1 i n io = Some m1' ->
  exists m2', comp_reduce op dsz m2 i n io = Some m2' /\ agree L m1' m2'.
Proof.
  intros Ha H1 H2. unfold comp_reduce. rewrite !(read_agree L m1 m2) by done.
  intros (x & Hx & (y & Hy & Hs)%bind_Some)%bind_Some. rewrite Hx, Hy. cbn.
  pose proof (reduce_length _ _ _ _ _ _ Hx Hy) as Hl. eapply store_agree; [done| |done]. by rewrite Hl.
Qed.

Lemma reduce_frame (m : memory) i io n m' k :
  comp_reduce op dsz m i n io = Some m' -> k ∉ region_cells (io, n) -> m' !! k = m !! k.
Proof.
  intros (x & Hx & (y & Hy & Hs)%bind_Some)%bind_Some Hk.
  pose proof (reduce_length _ _ _ _ _ _ Hx Hy) as Hl. eapply store_frame; [done|]. by rewrite Hl.
Qed.

(** An entry's effect depends only on what it touches and changes only what it writes. *)
Lemma cells_cons r rs : cells_of (r :: rs) = region_cells r ++ cells_of rs.
Proof. done. Qed.

Ltac cell_sets := rewrite ?cells_cons in *; set_solver.

Lemma region_cells_le b k n : k <= n -> region_cells (b, k) ⊆ region_cells (b, n).
Proof.
  intros Hk x Hx. apply list_elem_of_fmap in Hx as (i & -> & Hi%elem_of_seq). apply list_elem_of_fmap.
  exists i. split; [done|]. apply elem_of_seq. cbn in *. lia.
Qed.

Lemma start_local (e : entry) L m1 m2 m1' o :
  agree L m1 m2 -> cells_of (touch_s e) ⊆ L -> start_entry op dsz e m1 = Some (m1', o) ->
  exists m2', start_entry op dsz e m2 = Some (m2', o) /\ agree L m1' m2'.
Proof.
  intros Ha Hs H. destruct e; cbn in *; try (injection H as <- <-; by eauto).
  - rewrite <- (read_agree L m1 m2) by (done || cell_sets). apply bind_Some in H as (vs & -> & [= <- <-]).
    by eauto.
  - apply bind_Some in H as (m' & H & [= <- <-]).
    eapply copy_agree in H as (m2' & -> & ?); [|done|cell_sets..]. by eauto.
  - apply bind_Some in H as (m' & H & [= <- <-]).
    eapply reduce_agree in H as (m2' & -> & ?); [|done|cell_sets..]. by eauto.
Qed.

Lemma start_frame (e : entry) (m m' : memory) o (k : nat * nat) :
  start_entry op dsz e m = Some (m', o) -> k ∉ cells_of (write_s e) -> m' !! k = m !! k.
Proof.
  intros H Hk. destruct e; cbn in *; try (by injection H as <- <-).
  - by apply bind_Some in H as (vs & _ & [= <- <-]).
  - apply bind_Some in H as (m1 & H & [= <- <-]). eapply copy_frame; [done|cell_sets].
  - apply bind_Some in H as (m1 & H & [= <- <-]). eapply reduce_frame; [done|cell_sets].
Qed.

Lemma complete_local (e : entry) L msg m1 m2 m1' :
  agree L m1 m2 -> cells_of (touch_c e) ⊆ L -> complete_entry op dsz e msg m1 = Some m1' ->
  exists m2', complete_entry op dsz e msg m2 = Some m2' /\ agree L m1' m2'.
Proof.
  intros Ha Hs H. destruct e; cbn in *; try (injection H as <-; by eauto); case_decide as Hle; try done;
    match goal with Hl : length msg <= _ |- _ => pose proof (fun b => region_cells_le b _ _ Hl) as Hsub end.
  - specialize (Hsub buf). eapply store_agree; [done|cell_sets|done].
  - specialize (Hsub comm_buf). apply bind_Some in H as (m' & H & H').
    eapply store_agree in H as (m2' & -> & ?); [|done|cell_sets]. cbn.
    destruct result_buf_type; (eapply reduce_agree; [done|cell_sets..|done]).
  - specialize (Hsub recv_buf). apply bind_Some in H as (m' & H & H').
    eapply store_agree in H as (m2' & -> & ?); [|done|cell_sets]. cbn.
    eapply copy_agree; [done|cell_sets..|done].
Qed.

Lemma complete_frame (e : entry) (msg : list V) (m m' : memory) (k : nat * nat) :
  complete_entry op dsz e msg m = Some m' -> k ∉ cells_of (write_c e) -> m' !! k = m !! k.
Proof.
  intros H Hk. destruct e; cbn in *; try (by injection H as <-); case_decide as Hle; try done;
    match goal with Hl : length msg <= _ |- _ => pose proof (fun b => region_cells_le b _ _ Hl) as Hsub end.
  - specialize (Hsub buf). eapply store_frame; [done|cell_sets].
  - specialize (Hsub comm_buf). apply bind_Some in H as (m1 & H & H'). destruct result_buf_type.
    + rewrite (reduce_frame _ _ _ _ _ _ H') by cell_sets. eapply store_frame; [done|cell_sets].
    + rewrite (reduce_frame _ _ _ _ _ _ H') by cell_sets. eapply store_frame; [done|cell_sets].
  - specialize (Hsub recv_buf). apply bind_Some in H as (m1 & H & H'). rewrite (copy_frame _ _ _ _ _ _ H') by cell_sets.
    eapply store_frame; [done|cell_sets].
Qed.

Lemma local_commute {O1 O2 : Type} (f : memory -> option (memory * O1)) (g : memory -> option (memory * O2))
    (Tf Wf Tg Wg : list (nat * nat)) (m m1 m2 : memory) (o1 : O1) (o2 : O2) :
  (forall L x y x' o, agree L x y -> Tf ⊆ L -> f x = Some (x', o) ->
     exists y', f y = Some (y', o) /\ agree L x' y') ->
  (forall L x y x' o, agree L x y -> Tg ⊆ L -> g x = Some (x', o) ->
     exists y', g y = Some (y', o) /\ agree L x' y') ->
  (forall x x' o k, f x = Some (x', o) -> k ∉ Wf -> x' !! k = x !! k) ->
  (forall x x' o k, g x = Some (x', o) -> k ∉ Wg -> x' !! k = x !! k) ->
  Wf ⊆ Tf -> Wg ⊆ Tg -> (forall k, k ∈ Wf -> k ∉ Tg) -> (forall k, k ∈ Wg -> k ∉ Tf) ->
  f m = Some (m1, o1) -> g m = Some (m2, o2) ->
  exists m3, g m1 = Some (m3, o2) /\ f m2 = Some (m3, o1).
Proof.
  intros Lf Lg Ff Fg Sf Sg D1 D2 Hf Hg.
  assert (A1 : agree Tg m m1).
  { intros k Hk. symmetry. eapply Ff; [done|]. intros Hk'. by eapply D1. }
  assert (A2 : agree Tf m m2).
  { intros k Hk. symmetry. eapply Fg; [done|]. intros Hk'. by eapply D2. }
  destruct (Lg _ _ _ _ _ A1 (reflexivity _) Hg) as (m3 & Hg' & B1).
  destruct (Lf _ _ _ _ _ A2 (reflexivity _) Hf) as (m3' & Hf' & B2).
  exists m3. split; [done|]. replace m3 with m3'; [done|]. apply map_eq. intros k.
  destruct (decide (k ∈ Wf)) as [Hin|Hout].
  - rewrite <- (B2 k) by (by apply Sf). symmetry. eapply Fg; [done|]. intros Hk. by apply (D2 k), Sf.
  - rewrite (Ff _ _ _ _ Hf') by done. destruct (decide (k ∈ Wg)) as [Hin|Hout'].
    + apply B1. by apply Sg.
    + rewrite (Fg _ _ _ _ Hg), (Fg _ _ _ _ Hg'), (Ff _ _ _ _ Hf) by done. done.
Qed.

Lemma write_touch_s e : cells_of (write_s e) ⊆ cells_of (touch_s e).
Proof. destruct e; cbn; set_solver. Qed.
Lemma write_touch_c e : cells_of (write_c e) ⊆ cells_of (touch_c e).
Proof. destruct e as [| |? ? ? ? []| | |]; cbn; set_solver. Qed.

(** A completion as an effect with a trivial output. *)
Definition completion (e : entry) (msg : list V) (m : memory) : option (memory * unit) :=
  m' ← complete_entry op dsz e msg m; Some (m', tt).

Lemma completion_Some e msg m m' o :
  completion e msg m = Some (m', o) <-> complete_entry op dsz e msg m = Some m'.
Proof. unfold completion. destruct o, (complete_entry op dsz e msg m); cbn; naive_solver. Qed.

Lemma completion_local e msg L m1 m2 m1' (o : unit) :
  agree L m1 m2 -> cells_of (touch_c e) ⊆ L -> completion e msg m1 = Some (m1', o) ->
  exists m2', completion e msg m2 = Some (m2', o) /\ agree L m1' m2'.
Proof.
  intros Ha Hs (m2' & H & ?)%completion_Some%(complete_local e L msg m1 m2 m1' Ha Hs).
  exists m2'. by rewrite completion_Some.
Qed.

Lemma completion_frame (e : entry) (msg : list V) (m m' : memory) (o : unit) (k : nat * nat) :
  completion e msg m = Some (m', o) -> k ∉ cells_of (write_c e) -> m' !! k = m !! k.
Proof. intros H%completion_Some. by apply complete_frame with (1 := H). Qed.

(** Entries without a race may be in flight together. *)
Lemma no_race_compat c e : no_race c e -> compat op dsz c e.
Proof.
  intros (A1 & A2 & A3 & A4). split.
  - intros m msg m1 m2 o Hc Hs.
    destruct (local_commute (completion c msg) (start_entry op dsz e)
                (cells_of (touch_c c)) (cells_of (write_c c)) (cells_of (touch_s e)) (cells_of (write_s e))
                m m1 m2 tt o) as (m3 & E1 & E2%completion_Some).
    + intros L x y x' o'. apply completion_local.
    + intros L x y x' o'. apply start_local.
    + intros x x' o' k. apply completion_frame.
    + intros x x' o' k. apply start_frame.
    + apply write_touch_c.
    + apply write_touch_s.
    + intros k. by apply all_apart_cells.
    + intros k. by apply all_apart_cells.
    + by apply completion_Some.
    + done.
    + by exists m3.
  - intros m v1 v2 m1 m2 Hc He.
    destruct (local_commute (completion c v1) (completion e v2)
                (cells_of (touch_c c)) (cells_of (write_c c)) (cells_of (touch_c e)) (cells_of (write_c e))
                m m1 m2 tt tt) as (m3 & E1%completion_Some & E2%completion_Some).
    + intros L x y x' o'. apply completion_local.
    + intros L x y x' o'. apply completion_local.
    + intros x x' o' k. apply completion_frame.
    + intros x x' o' k. apply completion_frame.
    + apply write_touch_c.
    + apply write_touch_c.
    + intros k. by apply all_apart_cells.
    + intros k. by apply all_apart_cells.
    + by apply completion_Some.
    + by apply completion_Some.
    + by exists m3.
Qed.

(** Race freedom of a schedule by footprints. *)
Fixpoint no_races (cur : list entry) (todo : list (entry * bool)) : Prop :=
  match todo with
  | [] => True
  | (e, b) :: todo' => Forall (fun c => no_race c e) cur /\
                       no_races (if b then [] else if is_async e then cur ++ [e] else cur) todo'
  end.

Lemma no_races_race_free cur todo : no_races cur todo -> race_free op dsz cur todo.
Proof.
  revert cur. induction todo as [|[e b] todo IH]; intros cur; [done|]. intros [H1 H2]. split; [|by apply IH].
  eapply Forall_impl; [exact H1|]. intros c. apply no_race_compat.
Qed.
End footprint.
