(* ===== verification/Bsp.v ===== *)
(** Superstep runs of a network of schedules, and what a collective guarantees.

    The algorithms build, on every rank, barrier groups that match each other: the
    messages one rank sends in its i-th group are the ones the others receive in
    theirs.  Running group by group is one run of [Network]; since that system is
    deterministic, it decides all of them.  [collective] is the guarantee a client
    of a collective relies on: every interleaving ends, none gets stuck, and the
    memories at the end satisfy the postcondition. *)

From S2P Require Import Prelude Sched Network Race.
From stdpp Require Import relations.
Open Scope ccl_scope.

(** Send and receive entries, and their peers. *)
Definition is_send (e : entry) : bool := match e with send_entry _ _ _ => true | _ => false end.
Definition recv_from (e : entry) : option nat :=
  match e with
  | recv_entry _ _ from | recv_reduce_entry _ _ from _ _ | recv_copy_entry _ _ _ from => Some from
  | _ => None
  end.
Definition send_to (e : entry) : option nat :=
  match e with send_entry _ _ dst => Some dst | _ => None end.

Abbreviation recvs g := (filter (fun e => is_Some (recv_from e)) g).
Abbreviation sends g := (filter (fun e => is_Some (send_to e)) g).

(** The entries of a group with its barrier flag on the last one. *)
Fixpoint close_group (b : bool) (g : list entry) : list (entry * bool) :=
  match g with
  | [] => []
  | [e] => [(e, b)]
  | e :: g' => (e, false) :: close_group b g'
  end.

Section bsp.
Context {V : Type} (op : V -> V -> V) (dsz : nat).
Abbreviation memory := (gmap (nat * nat) V).
Abbreviation message := (list V).

(** Starting the entries of a group in order. *)
Fixpoint start_group (g : list entry) (m : memory) : option (memory * list (nat * message)) :=
  match g with
  | [] => Some (m, [])
  | e :: g' =>
    '(m1, o) ← start_entry op dsz e m;
    '(m2, os) ← start_group g' m1;
    Some (m2, match o with Some x => x :: os | None => os end)
  end.

(** Completing receives in order, each with its message. *)
Fixpoint complete_group (l : list (entry * message)) (m : memory) : option memory :=
  match l with
  | [] => Some m
  | (e, msg) :: l' => m1 ← complete_entry op dsz e msg m; complete_group l' m1
  end.

Definition msgs_to (d : nat) (os : list (nat * message)) : list message :=
  (filter (fun x => x.1 = d) os).*2.
Definition msgs_from (s : nat) (l : list (entry * message)) : list message :=
  (filter (fun x => recv_from x.1 = Some s) l).*2.

(** One superstep of [N] ranks: rank [r] runs group [g r] from [ms r] to [ms' r]. *)
Definition superstep (N : nat) (g : nat -> list entry) (ms ms' : nat -> memory) : Prop :=
  exists (ms1 : nat -> memory) (outs : nat -> list (nat * message)) (rm : nat -> list (entry * message)),
    (forall r, r < N -> start_group (g r) (ms r) = Some (ms1 r, outs r)) /\
    (forall r, r < N -> (rm r).*1 = recvs (g r)) /\
    (forall r, r < N -> complete_group (rm r) (ms1 r) = Some (ms' r)) /\
    (forall r e, r < N -> e ∈ g r -> forall p, (send_to e = Some p \/ recv_from e = Some p) -> p < N) /\
    (forall s d, s < N -> d < N -> msgs_to d (outs s) = msgs_from s (rm d)).

Inductive bsp (N : nat) : list (nat -> list entry) -> (nat -> memory) -> (nat -> memory) -> Prop :=
| bsp_done ms ms' : (forall r, r < N -> ms r = ms' r) -> bsp N [] ms ms'
| bsp_step g gs ms ms1 ms' : superstep N g ms ms1 -> bsp N gs ms1 ms' -> bsp N (g :: gs) ms ms'.

(** * A network from programs and memories *)

Definition init_net (N : nat) (prog : nat -> list (entry * bool)) (ms : nat -> memory) : gstate :=
  mk_gstate ((fun r => mk_rstate (ms r) [] false (prog r)) <$> seq 0 N) ∅.

(** The guarantee of a collective operation, for rendezvous and eager transports. *)
Definition collective (N : nat) (prog : nat -> list (entry * bool)) (ms : nat -> memory)
    (post : nat -> memory -> Prop) : Prop :=
  exists bound, forall (rdv : bool) (k : nat) (g' : gstate),
    nsteps (gstep op dsz rdv) k (init_net N prog ms) g' ->
    k <= bound /\
    (finished g' \/ exists g'', gstep op dsz rdv g' g'') /\
    (finished g' -> forall r, r < N -> exists rs, g_ranks g' !! r = Some rs /\ post r (r_mem rs)).

(** * One superstep is a run *)

Context (rdv : bool).
Abbreviation gstep := (gstep op dsz rdv).

Lemma close_group_cons b e g :
  close_group b (e :: g) = (e, bool_decide (g = []) && b) :: close_group b g.
Proof. destruct g; done. Qed.

(** What a phase does to the channels, key by key. *)
Lemma chan_push {M} (k k' : chan_key) (v : M) c :
  chan (push k v c) k' = chan c k' ++ (if decide (k = k') then [v] else []).
Proof.
  unfold push. case_decide; subst; [by rewrite chan_set_eq|].
  rewrite chan_set_ne by done. by rewrite app_nil_r.
Qed.

Lemma pop_chan {M} (k : chan_key) (v : M) l c :
  chan c k = v :: l -> exists c', pop k c = Some (v, c') /\ chan c' k = l /\
    forall k', k <> k' -> chan c' k' = chan c k'.
Proof.
  intros H. unfold pop. rewrite H. eexists. split; [done|]. split; [apply chan_set_eq|].
  intros k' Hk. by apply chan_set_ne.
Qed.

Lemma start_phase r g b m m1 outs pend bar rest G :
  g_ranks G !! r = Some (mk_rstate m pend bar (close_group b g ++ rest)) ->
  (g <> [] -> bar = true -> pend = []) -> start_group g m = Some (m1, outs) ->
  exists G', nsteps gstep (length g) G G' /\
    g_ranks G' = <[r := mk_rstate m1 (pend ++ filter (fun e => is_async e = true) g)
                          (if decide (g = []) then bar else b) rest]> (g_ranks G) /\
    forall ack s d, chan (g_chans G') (ack, s, d) =
      chan (g_chans G) (ack, s, d) ++ (if decide (ack = false /\ s = r) then msgs_to d outs else []).
Proof.
  revert m pend bar outs G. induction g as [|e g IH]; intros m pend bar outs G HG Hbar Hst.
  - cbn in Hst. injection Hst as <- <-. exists G. split; [constructor|]. split.
    + rewrite filter_nil, app_nil_r. cbn in HG. rewrite decide_True by done.
      by rewrite list_insert_id.
    + intros ack s d. case_decide; by rewrite app_nil_r.
  - cbn in Hst. apply bind_Some in Hst as ([m' o] & He & Hst).
    apply bind_Some in Hst as ([m2 os] & Hg & [= -> <-]).
    rewrite close_group_cons in HG. cbn in HG.
    set (pend' := if is_async e then pend ++ [e] else pend).
    assert (Hstep : try_step op dsz rdv r LStart G = Some (mk_gstate
      (<[r := mk_rstate m' pend' (bool_decide (g = []) && b) (close_group b g ++ rest)]> (g_ranks G))
      (push_opt (match o with Some (dst, vs) => Some ((false, r, dst), vs) | None => None end) (g_chans G)))).
    { assert (Hb : bar && bool_decide (pend <> []) = false).
      { destruct bar; [|done]. rewrite Hbar by done. done. }
      eapply try_step_intro; [exact HG|cbn; rewrite Hb; reflexivity|reflexivity|].
      cbn. rewrite He. reflexivity. }
    match type of Hstep with _ = Some ?G1 => set (G1' := G1) in Hstep end.
    pose proof (lookup_lt_Some _ _ _ HG) as Hr.
    destruct (IH m' pend' (bool_decide (g = []) && b) os G1') as (G' & Hrun & Hrk & Hch).
    { cbn. by rewrite list_lookup_insert_eq. }
    { intros Hne. by rewrite bool_decide_eq_false_2. }
    { done. }
    exists G'. split; [cbn; econstructor; [by exists r, LStart|done]|]. split.
    + rewrite Hrk. unfold G1'. cbn [g_ranks]. rewrite list_insert_insert_eq. do 2 f_equal.
      * subst pend'. rewrite filter_cons. destruct (is_async e); [|done].
        rewrite decide_True by done. by rewrite <- app_assoc.
      * rewrite (decide_False (P := e :: g = [])) by done. case_decide; subst; done.
    + intros ack s d. rewrite Hch. unfold G1'. cbn [g_chans].
      destruct o as [[dst vs]|]; cbn [push_opt]; [|done].
      rewrite chan_push, <- app_assoc. f_equal. unfold msgs_to. rewrite filter_cons. cbn [fst].
      repeat case_decide; naive_solver.
Qed.

Lemma is_async_cases e : is_async e = true ->
  (exists d, send_to e = Some d /\ recv_from e = None) \/ (exists s, recv_from e = Some s /\ send_to e = None).
Proof. destruct e; cbn; naive_solver. Qed.

Lemma in_chan_send r e d : send_to e = Some d -> in_chan rdv r e = if rdv then Some (true, d, r) else None.
Proof. destruct e; cbn; naive_solver. Qed.

Lemma in_chan_recv r e s : recv_from e = Some s ->
  in_chan rdv r e = Some (false, s, r) /\
  out_ack (V := V) rdv r e = if rdv then Some ((true, r, s), []) else None.
Proof. destruct e; cbn; naive_solver. Qed.

(** Number of messages of a rank's receives that come from [s]. *)
Definition acks (s : nat) (rm : list (entry * message)) : list message :=
  if rdv then replicate (length (msgs_from s rm)) [] else [].

(** The receives of rank [r], in order, past the sends [ss] that stay pending. *)
Lemma recv_phase r g rm m m2 ss bar todo G :
  Forall (fun e => is_Some (send_to e)) ss ->
  g_ranks G !! r = Some (mk_rstate m (ss ++ filter (fun e => is_async e = true) g) bar todo) ->
  rm.*1 = recvs g -> complete_group rm m = Some m2 ->
  forall extra, (forall s, chan (g_chans G) (false, s, r) = msgs_from s rm ++ extra s) ->
  exists n G', nsteps gstep n G G' /\
    g_ranks G' = <[r := mk_rstate m2 (ss ++ sends g) bar todo]> (g_ranks G) /\
    (forall s, chan (g_chans G') (false, s, r) = extra s) /\
    (forall s d, d <> r -> chan (g_chans G') (false, s, d) = chan (g_chans G) (false, s, d)) /\
    (forall s d, chan (g_chans G') (true, s, d) =
       chan (g_chans G) (true, s, d) ++ (if decide (s = r) then acks d rm else [])).
Proof.
  revert rm m ss G. induction g as [|e g IH]; intros rm m ss G Hss HG Hrm Hc extra Hch.
  - destruct rm; [|done]. cbn in Hc. injection Hc as <-. exists 0, G. split; [constructor|]. split.
    + cbn in HG |- *. by rewrite list_insert_id.
    + split; [done|]. split; [done|]. intros s d. unfold acks. cbn. repeat case_match; by rewrite app_nil_r.
  - rewrite filter_cons in HG, Hrm. rewrite filter_cons.
    destruct (is_async e) eqn:Has; [rewrite decide_True in HG by done|].
    + destruct (is_async_cases e Has) as [(d & Hd & Hn)|(s & Hs & Hn)].
      * (* a send stays *)
        rewrite decide_False in Hrm by (rewrite Hn; intros [? ?]; done).
        rewrite decide_True by (rewrite Hd; eauto).
        rewrite (cons_middle e), (app_assoc ss). rewrite (cons_middle e), (app_assoc ss) in HG.
        apply (IH rm m (ss ++ [e])); try done. apply Forall_app. split; [done|]. constructor; [by exists d|constructor].
      * rewrite decide_True in Hrm by (rewrite Hs; eauto).
        rewrite decide_False by (rewrite Hn; intros [? ?]; done).
        destruct rm as [|[e' msg] rm]; [done|]. cbn in Hrm. injection Hrm as -> Hrm.
        cbn in Hc. apply bind_Some in Hc as (m1 & Hce & Hc).
        destruct (in_chan_recv r e s Hs) as [Hin Hout].
        assert (Hhd : chan (g_chans G) (false, s, r) = msg :: (msgs_from s rm ++ extra s)).
        { rewrite Hch. unfold msgs_from. rewrite filter_cons. by rewrite decide_True. }
        destruct (pop_chan _ _ _ _ Hhd) as (c1 & Hpop & Hc1 & Hc1').
        set (G1 := mk_gstate (<[r := mk_rstate m1 (ss ++ filter (fun e => is_async e = true) g) bar todo]> (g_ranks G))
                             (push_opt (out_ack rdv r e) c1)).
        assert (Hstep : try_step op dsz rdv r (LComplete (length ss)) G = Some G1).
        { eapply try_step_intro; [exact HG| | |].
          - cbn. rewrite list_lookup_middle by done. rewrite take_app_length.
            replace (forallb _ ss) with true; [reflexivity|]. symmetry. apply forallb_forall.
            intros x Hx%list_elem_of_In. rewrite Forall_forall in Hss. destruct (Hss _ Hx) as [d Hd].
            rewrite (in_chan_send r x d Hd), Hin. destruct rdv; by rewrite bool_decide_eq_false_2.
          - rewrite Hin. exact Hpop.
          - cbn. rewrite Hce. cbn. by rewrite delete_middle. }
        pose proof (lookup_lt_Some _ _ _ HG) as Hr.
        destruct (IH rm m1 ss G1) with (extra := extra) as (n & G' & Hrun & Hrk & E1 & E2 & E3); try done.
        { cbn. by rewrite list_lookup_insert_eq. }
        { intros s'. cbn. rewrite Hout.
          replace (chan (push_opt _ c1) (false, s', r)) with (chan c1 (false, s', r))
            by (destruct rdv; cbn; [rewrite chan_push, decide_False by done; by rewrite app_nil_r|done]).
          destruct (decide (s = s')) as [<-|Hne]; [done|].
          rewrite Hc1' by congruence. rewrite Hch. unfold msgs_from. rewrite filter_cons, decide_False by (cbn; congruence). done. }
        exists (S n), G'. split; [econstructor; [by exists r, (LComplete (length ss))|done]|]. split.
        { rewrite Hrk. cbn. by rewrite list_insert_insert_eq. }
        split; [done|]. split.
        { intros s' d Hd. rewrite E2 by done. cbn. rewrite Hout.
          destruct rdv; cbn; rewrite ?chan_push, ?decide_False, ?app_nil_r by done; rewrite Hc1' by congruence; done. }
        { intros s' d. rewrite E3. cbn. rewrite Hout. unfold acks, msgs_from. rewrite filter_cons. cbn [fst].
          destruct rdv; cbn [push_opt].
          - rewrite chan_push, Hc1' by congruence. rewrite <- app_assoc. f_equal.
            repeat case_decide; naive_solver.
          - rewrite Hc1' by congruence. f_equal. }
    + rewrite decide_False in HG by done.
      assert (recv_from e = None /\ send_to e = None) as [Hn1 Hn2] by (destruct e; done).
      rewrite decide_False in Hrm by (rewrite Hn1; intros [? ?]; done).
      rewrite decide_False by (rewrite Hn2; intros [? ?]; done).
      by apply (IH rm m ss).
Qed.

Definition sends_to (d : nat) (g : list entry) : list entry := filter (fun e => send_to e = Some d) g.

(** The sends of rank [r]; a rendezvous transport has their acknowledgements. *)
Lemma send_phase r ss m bar todo G :
  Forall (fun e => is_Some (send_to e)) ss ->
  g_ranks G !! r = Some (mk_rstate m ss bar todo) ->
  forall extra, (forall d, chan (g_chans G) (true, d, r) =
                   (if rdv then replicate (length (sends_to d ss)) [] else []) ++ extra d) ->
  exists n G', nsteps gstep n G G' /\
    g_ranks G' = <[r := mk_rstate m [] bar todo]> (g_ranks G) /\
    (forall s, chan (g_chans G') (true, s, r) = extra s) /\
    (forall ack s d, (ack = true -> d <> r) -> chan (g_chans G') (ack, s, d) = chan (g_chans G) (ack, s, d)).
Proof.
  revert G. induction ss as [|e ss IH]; intros G Hss HG extra Hch.
  - exists 0, G. split; [constructor|]. split; [by rewrite list_insert_id|]. split; [|done].
    intros s. rewrite Hch. by destruct rdv.
  - apply Forall_cons in Hss as [[d Hd] Hss]. pose proof (lookup_lt_Some _ _ _ HG) as Hr.
    assert (exists c1, pop_opt [] (in_chan rdv r e) (g_chans G) = Some ([], c1) /\
      (forall d', chan c1 (true, d', r) = (if rdv then replicate (length (sends_to d' ss)) [] else []) ++ extra d') /\
      (forall ack s' d', (ack = true -> d' <> r) -> chan c1 (ack, s', d') = chan (g_chans G) (ack, s', d')))
      as (c1 & Hpop & Hc1 & Hc2).
    { rewrite (in_chan_send r e d Hd). unfold sends_to in Hch. destruct rdv; cbn [pop_opt].
      - destruct (pop_chan (true, d, r) [] (replicate (length (sends_to d ss)) [] ++ extra d) (g_chans G))
          as (c1 & Hpop & E1 & E2).
        { rewrite Hch, filter_cons, decide_True by done. done. }
        exists c1. split; [done|]. split.
        + intros d'. destruct (decide (d = d')) as [<-|Hne]; [done|].
          rewrite E2, Hch, filter_cons, decide_False by congruence. done.
        + intros ack s' d' Hd'. apply E2. intros [= <- <- <-]. by apply Hd'.
      - exists (g_chans G). split; [done|]. split; [|done]. intros d'. by rewrite Hch. }
    set (G1 := mk_gstate (<[r := mk_rstate m ss bar todo]> (g_ranks G)) c1).
    assert (Hstep : try_step op dsz rdv r (LComplete 0) G = Some G1).
    { erewrite try_step_intro; [|exact HG|cbn; reflexivity|exact Hpop|cbn; destruct e; try done; reflexivity].
      by destruct e. }
    destruct (IH G1) with (extra := extra) as (n & G' & Hrun & Hrk & E1 & E2); [done| |done|].
    { cbn. by rewrite list_lookup_insert_eq. }
    exists (S n), G'. split; [econstructor; [by exists r, (LComplete 0)|done]|]. split.
    { rewrite Hrk. cbn. by rewrite list_insert_insert_eq. }
    split; [done|]. intros ack s' d' Hd'. rewrite E2 by done. cbn. by apply Hc2.
Qed.

Lemma start_group_outs g m m1 outs d :
  start_group g m = Some (m1, outs) -> length (msgs_to d outs) = length (sends_to d g).
Proof.
  revert m outs. induction g as [|e g IH]; intros m outs H; cbn [start_group] in H.
  - injection H as <- <-. done.
  - apply bind_Some in H as ([m' o] & He & H). apply bind_Some in H as ([m2 os] & Hg & [= -> <-]).
    specialize (IH _ _ Hg). unfold sends_to in *. rewrite filter_cons.
    destruct e; cbn in He; try (apply bind_Some in He as (vs & _ & [= <- <-]) || injection He as <- <-);
      cbn [send_to]; try (rewrite decide_False by done; exact IH).
    unfold msgs_to in *. rewrite filter_cons. cbn [fst].
    repeat case_decide; try congruence. cbn. f_equal. exact IH.
Qed.

Lemma sends_to_sends d g : sends_to d (sends g) = sends_to d g.
Proof.
  unfold sends_to. rewrite list_filter_filter. apply list_filter_iff.
  intros e. split; [naive_solver|]. intros ->. split; [done|by exists d].
Qed.

Lemma iterate_ranks (N : nat) (P : nat -> gstate -> Prop) G :
  (forall k G, k < N -> P k G -> exists n G', nsteps gstep n G G' /\ P (S k) G') ->
  P 0 G -> exists n G', nsteps gstep n G G' /\ P N G'.
Proof.
  intros Hstep H0. assert (Hall : forall k, k <= N -> exists n G', nsteps gstep n G G' /\ P k G').
  { induction k as [|k IH]; intros Hk; [exists 0, G; by split; [constructor|]|].
    destruct IH as (n & G' & Hrun & HP); [lia|]. destruct (Hstep k G') as (n' & G'' & Hrun' & HP'); [lia|done|].
    exists (n + n'), G''. split; [by eapply nsteps_trans|done]. }
  by apply Hall.
Qed.

(** All ranks run one group. *)
Lemma superstep_run N g b ms ms' bars rest G :
  superstep N g ms ms' ->
  length (g_ranks G) = N ->
  (forall r, r < N -> g_ranks G !! r = Some (mk_rstate (ms r) [] (bars r) (close_group b (g r) ++ rest r))) ->
  (forall k, chan (g_chans G) k = []) ->
  exists n G' bars', nsteps gstep n G G' /\ length (g_ranks G') = N /\
    (forall r, r < N -> g_ranks G' !! r = Some (mk_rstate (ms' r) [] (bars' r) (rest r))) /\
    (forall k, chan (g_chans G') k = []).
Proof.
  intros (ms1 & outs & rm & Hst & Hrm & Hcm & Hpeer & Hbal) Hlen HG Hch.
  set (bar1 := fun r => if decide (g r = []) then bars r else b).
  set (started := fun r => mk_rstate (ms1 r) (filter (fun e => is_async e = true) (g r)) (bar1 r) (rest r)).
  set (received := fun r => mk_rstate (ms' r) (sends (g r)) (bar1 r) (rest r)).
  assert (Hout0 : forall s d, s < N -> ~ d < N -> msgs_to d (outs s) = []).
  { intros s d Hs Hd. apply length_zero_iff_nil. rewrite (start_group_outs _ _ _ _ d (Hst s Hs)).
    apply length_zero_iff_nil. unfold sends_to. apply filter_none. intros e He Hto. apply Hd. eapply Hpeer; eauto. }
  assert (Hin0 : forall s d, d < N -> ~ s < N -> msgs_from s (rm d) = []).
  { intros s d Hd Hs. unfold msgs_from. rewrite filter_none; [done|].
    intros [e msg] He Hfr. apply Hs. cbn in Hfr.
    assert (e ∈ (rm d).*1) by (apply list_elem_of_fmap; by exists (e, msg)).
    rewrite (Hrm d Hd) in H. apply list_elem_of_filter in H as [_ H]. eapply Hpeer; eauto. }
  (* all ranks start *)
  destruct (iterate_ranks N (fun k G => length (g_ranks G) = N /\
      (forall r, r < N -> g_ranks G !! r = Some (if decide (r < k) then started r
         else mk_rstate (ms r) [] (bars r) (close_group b (g r) ++ rest r))) /\
      (forall ack s d, chan (g_chans G) (ack, s, d) =
         if decide (ack = false /\ s < k) then msgs_to d (outs s) else [])) G)
    as (nA & GA & RA & LA & SA & CA).
  { clear G Hlen HG Hch. intros k G Hk (HL & HS & HC).
    pose proof (HS k Hk) as Hk'. rewrite decide_False in Hk' by lia.
    destruct (start_phase k (g k) b (ms k) (ms1 k) (outs k) [] (bars k) (rest k) G Hk') as (G' & Hrun & HR & HC'); [done|by apply Hst|].
    exists (length (g k)), G'. split; [done|]. rewrite HR. split; [by rewrite length_insert|]. split.
    - intros r Hr. destruct (decide (r = k)) as [->|Hne].
      + rewrite list_lookup_insert_eq by lia. rewrite (decide_True (P := k < S k)) by lia. done.
      + rewrite list_lookup_insert_ne by done. rewrite HS by done. cases_lia; done.
    - intros ack s d. rewrite HC', HC. cases_lia; destruct_and?; subst; by rewrite ?app_nil_r. }
  { split; [done|]. split; [|intros ack s d; rewrite Hch; case_decide; [lia|done]].
    intros r Hr. rewrite HG by done. by rewrite decide_False by lia. }
  (* all ranks receive *)
  destruct (iterate_ranks N (fun k G => length (g_ranks G) = N /\
      (forall r, r < N -> g_ranks G !! r = Some (if decide (r < k) then received r else started r)) /\
      (forall s d, chan (g_chans G) (false, s, d) = if decide (s < N /\ k <= d) then msgs_to d (outs s) else []) /\
      (forall s d, chan (g_chans G) (true, s, d) = if decide (s < k) then acks d (rm s) else [])) GA)
    as (nB & GB & RB & LB & SB & CB & CB').
  { clear - Hrm Hcm Hbal Hin0. intros k G Hk (HL & HS & HC & HC').
    pose proof (HS k Hk) as Hk'. rewrite decide_False in Hk' by lia.
    destruct (recv_phase k (g k) (rm k) (ms1 k) (ms' k) [] (bar1 k) (rest k) G) with (extra := fun _ : nat => @nil message)
      as (n & G' & Hrun & HR & E1 & E2 & E3); [constructor|exact Hk'|by apply Hrm|by apply Hcm| |].
    { intros s. rewrite HC, app_nil_r. case_decide; [apply Hbal; lia|]. symmetry; apply Hin0; lia. }
    exists n, G'. split; [done|]. rewrite HR. split; [by rewrite length_insert|]. split; [|split].
    - intros r Hr. destruct (decide (r = k)) as [->|Hne].
      + rewrite list_lookup_insert_eq by lia. by rewrite decide_True by lia.
      + rewrite list_lookup_insert_ne by done. rewrite HS by done. cases_lia; done.
    - intros s d. destruct (decide (d = k)) as [->|Hne].
      + rewrite E1. case_decide; [lia|done].
      + rewrite E2, HC by done. cases_lia; done.
    - intros s d. rewrite E3, HC'. cases_lia; subst; cbn; by rewrite ?app_nil_r. }
  { split; [done|]. split; [|split].
    - intros r Hr. rewrite SA by done. by rewrite decide_True, decide_False by lia.
    - intros s d. rewrite CA. cases_lia; done.
    - intros s d. rewrite CA. cases_lia; done. }
  (* all sends complete *)
  destruct (iterate_ranks N (fun k G => length (g_ranks G) = N /\
      (forall r, r < N -> g_ranks G !! r = Some (if decide (r < k) then mk_rstate (ms' r) [] (bar1 r) (rest r)
         else received r)) /\
      (forall s d, chan (g_chans G) (false, s, d) = []) /\
      (forall s d, chan (g_chans G) (true, s, d) = if decide (s < N /\ k <= d) then acks d (rm s) else [])) GB)
    as (nC & GC & RC & LC & SC & CC & CC').
  { clear - Hst Hbal Hin0 Hout0. intros k G Hk (HL & HS & HC & HC').
    pose proof (HS k Hk) as Hk'. rewrite decide_False in Hk' by lia.
    destruct (send_phase k (sends (g k)) (ms' k) (bar1 k) (rest k) G) with (extra := fun _ : nat => @nil message)
      as (n & G' & Hrun & HR & E1 & E2); [|exact Hk'| |].
    { apply Forall_forall. by intros e [He _]%list_elem_of_filter. }
    { intros d. rewrite HC', app_nil_r, sends_to_sends, <- (start_group_outs _ _ _ _ d (Hst k Hk)). unfold acks.
      case_decide; [rewrite Hbal by lia; done|]. rewrite Hout0 by lia. by destruct rdv. }
    exists n, G'. split; [done|]. rewrite HR. split; [by rewrite length_insert|]. split; [|split].
    - intros r Hr. destruct (decide (r = k)) as [->|Hne].
      + rewrite list_lookup_insert_eq by lia. by rewrite decide_True by lia.
      + rewrite list_lookup_insert_ne by done. rewrite HS by done. cases_lia; done.
    - intros s d. by rewrite E2, HC.
    - intros s d. destruct (decide (d = k)) as [->|Hne].
      + rewrite E1. case_decide; [lia|done].
      + rewrite E2, HC' by done. cases_lia; done. }
  { split; [done|]. split; [|split].
    - intros r Hr. rewrite SB by done. by rewrite decide_True, decide_False by lia.
    - intros s d. rewrite CB. case_decide; [apply Hout0; lia|done].
    - intros s d. rewrite CB'. cases_lia; done. }
  exists (nA + (nB + nC)), GC, bar1. split; [eapply nsteps_trans; [done|]; by eapply nsteps_trans|].
  split; [done|]. split.
  - intros r Hr. rewrite SC by done. by rewrite decide_True.
  - intros [[[] s] d]; [|by apply CC]. rewrite CC'. case_decide; [|done].
    unfold acks. rewrite Hin0 by lia. by destruct rdv.
Qed.
(** A schedule of barrier groups; [b] says whether the last one is closed. *)
Fixpoint sched_of (b : bool) (gs : list (list entry)) : list (entry * bool) :=
  match gs with
  | [] => []
  | [g] => close_group b g
  | g :: gs' => close_group true g ++ sched_of b gs'
  end.

Lemma sched_of_cons b g gs : exists b', sched_of b (g :: gs) = close_group b' g ++ sched_of b gs.
Proof. destruct gs; [exists b; cbn; by rewrite app_nil_r|by exists true]. Qed.

Lemma sched_of_cons_eq b g gs :
  sched_of b (g :: gs) = close_group (match gs with [] => b | _ => true end) g ++ sched_of b gs.
Proof. destruct gs; cbn; by rewrite ?app_nil_r. Qed.

Lemma bsp_run N gs b ms ms' bars G :
  bsp N gs ms ms' -> length (g_ranks G) = N ->
  (forall r, r < N -> g_ranks G !! r =
     Some (mk_rstate (ms r) [] (bars r) (sched_of b ((fun g => g r) <$> gs)))) ->
  (forall k, chan (g_chans G) k = []) ->
  exists n G', nsteps gstep n G G' /\ length (g_ranks G') = N /\
    forall r, r < N -> exists bar, g_ranks G' !! r = Some (mk_rstate (ms' r) [] bar []).
Proof.
  intros Hb. revert bars G. induction Hb as [ms ms' Heq|g gs ms ms1 ms' Hs Hb IH]; intros bars G HL HG HC.
  - exists 0, G. split; [constructor|]. split; [done|]. intros r Hr. rewrite <- Heq by done. eauto.
  - set (b1 := match gs with [] => b | _ => true end).
    destruct (superstep_run N g b1 ms ms1 bars (fun r => sched_of b ((fun g => g r) <$> gs)) G)
      as (n & G1 & bars1 & Hrun & HL1 & HG1 & HC1); [done|done| |done|].
    { intros r Hr. rewrite HG by done. cbn [fmap list_fmap]. rewrite sched_of_cons_eq. do 3 f_equal.
      subst b1. by destruct gs. }
    destruct (IH bars1 G1) as (n' & G' & Hrun' & HL' & HG'); [done..|].
    exists (n + n'), G'. split; [by eapply nsteps_trans|done].
Qed.
End bsp.

Lemma init_net_ranks {V} (N : nat) (prog : nat -> list (entry * bool)) (ms : nat -> gmap (nat * nat) V) r :
  r < N -> g_ranks (init_net N prog ms) !! r = Some (mk_rstate (ms r) [] false (prog r)).
Proof. intros Hr. cbn. by rewrite list_lookup_fmap, lookup_seq_lt. Qed.

Lemma collective_ext {V} (op : V -> V -> V) (dsz N : nat) (prog prog' : nat -> list (entry * bool))
    (ms : nat -> gmap (nat * nat) V) post :
  (forall r, r < N -> prog r = prog' r) -> collective op dsz N prog ms post -> collective op dsz N prog' ms post.
Proof.
  intros E. assert (Hi : init_net N prog ms = init_net N prog' ms).
  { unfold init_net. f_equal. apply list_fmap_ext. intros i r [-> Hr]%lookup_seq. by rewrite E. }
  unfold collective. by rewrite Hi.
Qed.

Lemma collective_weaken {V} (op : V -> V -> V) (dsz N : nat) (prog : nat -> list (entry * bool))
    (ms : nat -> gmap (nat * nat) V) (post post' : nat -> gmap (nat * nat) V -> Prop) :
  (forall r m, r < N -> post r m -> post' r m) -> collective op dsz N prog ms post -> collective op dsz N prog ms post'.
Proof.
  intros Hp [bound H]. exists bound. intros rdv k g' Hk. destruct (H rdv k g' Hk) as (H1 & H2 & H3). split; [done|]. split; [done|].
  intros Hf r Hr. destruct (H3 Hf r Hr) as (rs & E & Hrs). exists rs. auto.
Qed.

(** ** Fewer barriers *)

(** The same entries, with a barrier only where the other schedule has one. *)
Definition relaxed (p p' : list (entry * bool)) : Prop := Forall2 (fun a a' => a.1 = a'.1 /\ (a.2 = true -> a'.2 = true)) p p'.

Lemma relaxed_refl p : relaxed p p.
Proof. apply Forall_Forall2_diag, Forall_forall. auto. Qed.

Section relax.
Context {V : Type} (op : V -> V -> V) (dsz : nat) (rdv : bool).

Definition rs_relaxed (rs rs' : @rstate V) : Prop :=
  r_mem rs = r_mem rs' /\ r_pend rs = r_pend rs' /\ (r_bar rs = true -> r_bar rs' = true) /\ relaxed (r_todo rs) (r_todo rs').

Lemma rank_step_relaxed me l (rs rs' : @rstate V) k f msg rs1 out : rs_relaxed rs rs' ->
  rank_step op dsz rdv me l rs' = Some (k, f) -> f msg = Some (rs1, out) ->
  exists f' rs2, rank_step op dsz rdv me l rs = Some (k, f') /\ f' msg = Some (rs2, out) /\ rs_relaxed rs2 rs1.
Proof.
  intros (Hm & Hp & Hb & Ht) Hs Hf. destruct l as [|i]; cbn in *.
  - destruct (r_todo rs') as [|[e b] todo]; [done|]. destruct (r_bar rs' && _) eqn:Eb; [done|]. injection Hs as <- <-.
    apply bind_Some in Hf as ([m' o] & Hst & [= <- <-]). apply Forall2_cons_inv_r in Ht as ([e0 b0] & todo0 & [E1 E2] & Ht & ->). cbn in E1, E2. subst e0.
    replace (r_bar rs && bool_decide (r_pend rs <> [])) with false
      by (symmetry; rewrite Hp; destruct (r_bar rs); [by rewrite Hb in Eb|done]).
    eexists _, _. split; [done|]. cbn. rewrite Hm, Hst. cbn. split; [done|]. by rewrite Hp.
  - rewrite Hp. destruct (r_pend rs' !! i) as [e|]; [|done]. destruct (forallb _ _); [|done]. injection Hs as <- <-.
    apply bind_Some in Hf as (m' & Hc & [= <- <-]). eexists _, _. split; [done|]. cbn. rewrite Hm, Hc. cbn. split; [done|]. by rewrite ?Hp.
Qed.

Definition g_relaxed (g g' : @gstate V) : Prop := Forall2 rs_relaxed (g_ranks g) (g_ranks g') /\ g_chans g = g_chans g'.

Lemma gstep_relaxed g g' g1' : g_relaxed g g' -> gstep op dsz rdv g' g1' -> exists g1, gstep op dsz rdv g g1 /\ g_relaxed g1 g1'.
Proof.
  intros [Hr Hc] (me & l & (rs' & k & f & msg & c1 & rs1 & out & H1 & H2 & H3 & H4 & ->)%try_step_inv).
  destruct (Forall2_lookup_r _ _ _ _ _ Hr H1) as (rs & Hrs & Hrel).
  destruct (rank_step_relaxed me l rs rs' k f msg rs1 out Hrel H2 H4) as (f' & rs2 & S2 & F2 & Hrel2).
  eexists. split; [exists me, l; eapply try_step_intro; [exact Hrs|exact S2|rewrite Hc; exact H3|exact F2]|].
  split; [cbn; by apply Forall2_insert|done].
Qed.

Lemma nsteps_relaxed n g g' g1' : g_relaxed g g' -> nsteps (gstep op dsz rdv) n g' g1' -> exists g1, nsteps (gstep op dsz rdv) n g g1 /\ g_relaxed g1 g1'.
Proof.
  intros Hr Hn. revert g Hr. induction Hn as [g'|n g' g2 g3 H1 _ IH]; intros g Hr; [exists g; by split; [constructor|]|].
  destruct (gstep_relaxed _ _ _ Hr H1) as (g1 & Hs & Hr1). destruct (IH g1 Hr1) as (g4 & Hn & Hr4). exists g4. split; [by econstructor|done].
Qed.
End relax.

(** Matching barrier groups, of which the schedules may drop barriers as long as they stay race-free, make a collective. *)
Theorem relaxed_collective {V} (op : V -> V -> V) (dsz N : nat) (gs : list (nat -> list entry)) (b : bool) (prog : nat -> list (entry * bool))
    (ms ms' : nat -> gmap (nat * nat) V) (post : nat -> gmap (nat * nat) V -> Prop) :
  0 < dsz ->
  (forall r, r < N -> race_free op dsz [] (prog r) /\ relaxed (prog r) (sched_of b ((fun g => g r) <$> gs))) ->
  bsp op dsz N gs ms ms' -> (forall r, r < N -> post r (ms' r)) ->
  collective op dsz N prog ms post.
Proof.
  intros Hd Hnr Hb Hpost. set (prog' := fun r => sched_of b ((fun g => g r) <$> gs)).
  assert (Hok : net_ok op dsz (init_net N prog ms)).
  { apply Forall_fmap, Forall_forall. intros r Hr%elem_of_seq. split; [by intros i j a c _ ?|].
    apply Hnr. lia. }
  assert (Hrel : g_relaxed (init_net N prog ms) (init_net N prog' ms)).
  { split; [|done]. cbn. apply Forall2_fmap, Forall_Forall2_diag, Forall_forall. intros r [_ Hr]%elem_of_seq. split_and!; try done. by apply Hnr. }
  assert (Hrun : forall rdv, exists n G', nsteps (gstep op dsz rdv) n (init_net N prog ms) G' /\
    length (g_ranks G') = N /\ forall r, r < N -> exists bar, g_ranks G' !! r = Some (mk_rstate (ms' r) [] bar [])).
  { intros rdv. destruct (bsp_run op dsz rdv N gs b ms ms' (fun _ => false) (init_net N prog' ms)) as (n & G' & Hn & HL & HG); [done| | |done|].
    - cbn. by rewrite length_fmap, length_seq.
    - intros r Hr. by apply init_net_ranks.
    - destruct (nsteps_relaxed op dsz rdv n _ _ _ Hrel Hn) as (G & HnG & [HR _]). exists n, G. split_and!; [done|by rewrite (Forall2_length _ _ _ HR)|].
      intros r Hr. destruct (HG r Hr) as [bar Eb]. destruct (Forall2_lookup_r _ _ _ _ _ HR Eb) as ([m p b' t] & -> & Hm & Hp & _ & Ht). cbn in *.
      apply Forall2_nil_inv_r in Ht as ->. subst. by eexists. }
  destruct (Hrun true) as (n1 & G1 & R1 & L1 & F1). destruct (Hrun false) as (n2 & G2 & R2 & L2 & F2).
  exists (n1 + n2). intros rdv k g' Hk.
  assert (exists n G', n <= n1 + n2 /\ nsteps (gstep op dsz rdv) n (init_net N prog ms) G' /\
    length (g_ranks G') = N /\ forall r, r < N -> exists bar, g_ranks G' !! r = Some (mk_rstate (ms' r) [] bar []))
    as (n & G & Hn & R & L & F).
  { destruct rdv; [exists n1, G1|exists n2, G2]; split_and!; try done; lia. }
  assert (HF : finished G).
  { unfold finished. rewrite Forall_lookup. intros r rs Hrs. destruct (F r) as [bar E].
    - rewrite <- L. by eapply lookup_lt_Some.
    - rewrite E in Hrs. by injection Hrs as <-. }
  destruct (run_determines op dsz rdv n _ G k g' Hok R HF Hk) as [Hkn Hrest].
  split; [lia|]. destruct (n - k) as [|j] eqn:Ej; inv Hrest.
  - split; [by left|]. intros _ r Hr. destruct (F r Hr) as [bar E]. eexists. split; [done|]. by apply Hpost.
  - split; [right; eauto|]. intros Hf. exfalso. by eapply finished_stuck.
Qed.

(** Matching, race-free barrier groups make a collective. *)
Theorem bsp_collective_free {V} (op : V -> V -> V) (dsz N : nat) (gs : list (nat -> list entry)) (b : bool)
    (ms ms' : nat -> gmap (nat * nat) V) (post : nat -> gmap (nat * nat) V -> Prop) :
  0 < dsz ->
  (forall r, r < N -> race_free op dsz [] (sched_of b ((fun g => g r) <$> gs))) ->
  bsp op dsz N gs ms ms' -> (forall r, r < N -> post r (ms' r)) ->
  collective op dsz N (fun r => sched_of b ((fun g => g r) <$> gs)) ms post.
Proof. intros Hd Hnr. apply relaxed_collective with (b := b); [done|]. intros r Hr. split; [by apply Hnr|apply relaxed_refl]. Qed.

(** The same, with race freedom by footprints. *)
Corollary bsp_collective {V} (op : V -> V -> V) (dsz N : nat) (gs : list (nat -> list entry)) (b : bool)
    (ms ms' : nat -> gmap (nat * nat) V) (post : nat -> gmap (nat * nat) V -> Prop) :
  0 < dsz ->
  (forall r, r < N -> no_races dsz [] (sched_of b ((fun g => g r) <$> gs))) ->
  bsp op dsz N gs ms ms' -> (forall r, r < N -> post r (ms' r)) ->
  collective op dsz N (fun r => sched_of b ((fun g => g r) <$> gs)) ms post.
Proof. intros Hd Hnr. apply bsp_collective_free; [done|]. intros r Hr. apply no_races_race_free; auto. Qed.

(** * Building supersteps and runs *)

Section supersteps.
Context {V : Type} (op : V -> V -> V) (dsz N : nat).
Abbreviation memory := (gmap (nat * nat) V).
Abbreviation message := (list V).
Implicit Types (J : nat -> memory -> Prop) (ms : nat -> memory).

Lemma rank_choice J : (forall r, r < N -> exists m, J r m) -> exists ms, forall r, r < N -> J r (ms r).
Proof.
  intros H. assert (Hk : forall k, k <= N -> exists ms, forall r, r < k -> J r (ms r)).
  { induction k as [|k IH]; intros Hk; [exists (fun _ => ∅); lia|].
    destruct IH as [ms Hms]; [lia|]. destruct (H k) as [m Hm]; [lia|].
    exists (fun r => if decide (r = k) then m else ms r). intros r Hr.
    case_decide; [by subst|]. apply Hms. lia. }
  by apply Hk.
Qed.

Lemma send_in_outs g m m1 (outs : list (nat * message)) e p :
  start_group op dsz g m = Some (m1, outs) -> e ∈ g -> send_to e = Some p -> p ∈ outs.*1.
Proof.
  intros Hs He Hp. pose proof (start_group_outs op dsz g m m1 outs p Hs) as Hl.
  assert (Hin : e ∈ sends_to p g) by (by apply list_elem_of_filter).
  destruct (filter (fun x => x.1 = p) outs) as [|x l] eqn:E.
  - unfold msgs_to in Hl. rewrite E in Hl. cbn in Hl. by destruct (sends_to p g); [apply not_elem_of_nil in Hin|].
  - assert (Hx : x ∈ filter (fun x => x.1 = p) outs) by (rewrite E; left).
    apply list_elem_of_filter in Hx as [<- Hx]. by apply list_elem_of_fmap_2.
Qed.

Lemma start_group_app g1 g2 m m1 m2 o1 o2 :
  start_group op dsz g1 m = Some (m1, o1) -> start_group op dsz g2 m1 = Some (m2, o2) ->
  start_group op dsz (g1 ++ g2) m = Some (m2, o1 ++ o2).
Proof.
  revert m o1. induction g1 as [|e g1 IH]; intros m o1; cbn; [by intros [= -> <-] ->|].
  intros ([m' o] & H1 & ([m3 os] & H2 & [= -> <-])%bind_Some)%bind_Some H3.
  rewrite H1. cbn. rewrite (IH _ _ H2 H3). cbn. by destruct o.
Qed.

(** The group [g] runs from [ms], ending in memories that satisfy [J]. *)
Definition steps (g : nat -> list entry) ms J : Prop :=
  exists ms', superstep op dsz N g ms ms' /\ forall r, r < N -> J r (ms' r).

(** A superstep from what each rank sends and receives. *)
Lemma matched_step g ms J' (outs : nat -> list (nat * message)) (rm : nat -> list (entry * message)) :
  (forall r, r < N -> exists m1 m2,
     start_group op dsz (g r) (ms r) = Some (m1, outs r) /\ (rm r).*1 = recvs (g r) /\
     complete_group op dsz (rm r) m1 = Some m2 /\ J' r m2) ->
  (forall r d, r < N -> d ∈ (outs r).*1 -> d < N) ->
  (forall r e s, r < N -> e ∈ (rm r).*1 -> recv_from e = Some s -> s < N) ->
  (forall s d, s < N -> d < N -> msgs_to d (outs s) = msgs_from s (rm d)) ->
  steps g ms J'.
Proof.
  intros H Hd Hs Hbal.
  destruct (rank_choice (fun r m1 => exists m2,
     start_group op dsz (g r) (ms r) = Some (m1, outs r) /\ (rm r).*1 = recvs (g r) /\
     complete_group op dsz (rm r) m1 = Some m2 /\ J' r m2)) as [ms1 H1]; [done|].
  destruct (rank_choice (fun r m2 => complete_group op dsz (rm r) (ms1 r) = Some m2 /\ J' r m2)) as [ms2 H2].
  { intros r Hr. destruct (H1 r Hr) as (m2 & _ & _ & H2). eauto. }
  exists ms2. split; [|intros r Hr; by apply H2]. exists ms1, outs, rm. split_and!.
  - intros r Hr. by destruct (H1 r Hr) as (? & ? & _).
  - intros r Hr. by destruct (H1 r Hr) as (? & _ & ? & _).
  - intros r Hr. by apply H2.
  - intros r e Hr He p [Hp|Hp]; destruct (H1 r Hr) as (? & Hst & Hrm & _).
    + eapply Hd; [done|]. by eapply send_in_outs.
    + eapply Hs; [done| |exact Hp]. rewrite Hrm. apply list_elem_of_filter. by rewrite Hp.
  - done.
Qed.

(** Rank [r] sends one message to [dst r] if [act r]; it receives one from [src r] if that rank does. *)
Lemma exchange_opt_step g ms J' (dst src : nat -> nat) (v : nat -> message) (R : nat -> entry) (act : nat -> bool) :
  (forall r, r < N -> dst r < N /\ src r < N /\ src (dst r) = r /\ dst (src r) = r) ->
  (forall r, r < N -> recvs (g r) = (if act (src r) then [R r] else []) /\ recv_from (R r) = Some (src r)) ->
  (forall r, r < N -> exists m1 m2,
     start_group op dsz (g r) (ms r) = Some (m1, if act r then [(dst r, v r)] else []) /\
     (if act (src r) then complete_entry op dsz (R r) (v (src r)) m1 = Some m2 else m1 = m2) /\ J' r m2) ->
  steps g ms J'.
Proof.
  intros Hperm HR H.
  apply (matched_step g ms J' (fun r => if act r then [(dst r, v r)] else [])
    (fun r => if act (src r) then [(R r, v (src r))] else [])).
  - intros r Hr. destruct (H r Hr) as (m1 & m2 & H1 & H2 & H3). exists m1, m2.
    split; [done|]. destruct (HR r Hr) as [-> _]. destruct (act (src r)); cbn; [rewrite H2|]; naive_solver.
  - intros r d Hr Hd. destruct (act r); [|by apply not_elem_of_nil in Hd].
    apply list_elem_of_singleton in Hd as ->. by apply Hperm.
  - intros r e s Hr He Hs. destruct (act (src r)); [|by apply not_elem_of_nil in He].
    cbn in He; apply list_elem_of_singleton in He; subst e.
    destruct (HR r Hr) as [_ E]. rewrite E in Hs. injection Hs as <-. by apply Hperm.
  - intros s d Hs Hd. destruct (HR d Hd) as [_ E]. destruct (Hperm s Hs) as (? & ? & E1 & E2).
    destruct (Hperm d Hd) as (? & ? & E3 & E4).
    destruct (decide (dst s = d)) as [Hd1|Hd1].
    + assert (Es : src d = s) by congruence. rewrite Es in *. unfold msgs_to, msgs_from. destruct (act s); [|done].
      rewrite !filter_cons, !filter_nil. cbn [fst]. by rewrite E, !decide_True.
    + assert (Es : src d <> s) by congruence. unfold msgs_to, msgs_from. destruct (act s), (act (src d)); try done;
        rewrite ?filter_cons, ?filter_nil; cbn [fst]; rewrite ?E, ?decide_False by congruence; done.
Qed.

(** Every rank sends one message to [dst r] and receives one from [src r]. *)
Lemma exchange_step g ms J' (dst src : nat -> nat) (v : nat -> message) (R : nat -> entry) :
  (forall r, r < N -> dst r < N /\ src r < N /\ src (dst r) = r /\ dst (src r) = r) ->
  (forall r, r < N -> recvs (g r) = [R r] /\ recv_from (R r) = Some (src r)) ->
  (forall r, r < N -> exists m1 m2, start_group op dsz (g r) (ms r) = Some (m1, [(dst r, v r)]) /\
     complete_entry op dsz (R r) (v (src r)) m1 = Some m2 /\ J' r m2) ->
  steps g ms J'.
Proof. intros. by apply (exchange_opt_step g ms J' dst src v R (fun _ => true)). Qed.

(** Messages and receives of a group built by a loop. *)
Lemma msgs_to_bind {A} d (l : list A) (f : A -> list (nat * message)) :
  msgs_to d (l ≫= f) = l ≫= (fun a => msgs_to d (f a)).
Proof. induction l as [|a l IH]; cbn; [done|]. rewrite <- IH. unfold msgs_to. by rewrite filter_app, fmap_app. Qed.

Lemma msgs_from_bind {A} s (l : list A) (f : A -> list (entry * message)) :
  msgs_from s (l ≫= f) = l ≫= (fun a => msgs_from s (f a)).
Proof. induction l as [|a l IH]; cbn; [done|]. rewrite <- IH. unfold msgs_from. by rewrite filter_app, fmap_app. Qed.

Lemma recvs_bind {A} (l : list A) (f : A -> list entry) : recvs (l ≫= f) = l ≫= (fun a => recvs (f a)).
Proof. induction l as [|a l IH]; cbn; [done|]. by rewrite <- IH, filter_app. Qed.

Lemma fst_bind {A} (l : list A) (f : A -> list (entry * message)) : (l ≫= f).*1 = l ≫= (fun a => (f a).*1).
Proof. induction l as [|a l IH]; cbn; [done|]. by rewrite <- IH, fmap_app. Qed.

Lemma start_group_bind {A} (l : list A) (f : A -> list entry) (o : A -> list (nat * message)) m :
  (forall a, a ∈ l -> start_group op dsz (f a) m = Some (m, o a)) ->
  start_group op dsz (l ≫= f) m = Some (m, l ≫= o).
Proof.
  induction l as [|a l IH]; intros H; [done|]. cbn. eapply start_group_app; [apply H; left|].
  apply IH. intros b Hb. apply H. by right.
Qed.

Lemma complete_group_app l1 l2 m m1 m2 :
  complete_group op dsz l1 m = Some m1 -> complete_group op dsz l2 m1 = Some m2 ->
  complete_group op dsz (l1 ++ l2) m = Some m2.
Proof.
  revert m. induction l1 as [|[e msg] l1 IH]; intros m; cbn; [by intros [= ->]|].
  intros (m' & H1 & H2)%bind_Some H3. rewrite H1. cbn. by apply IH.
Qed.

(** Receives of a loop complete one by one. *)
Lemma complete_group_bind {A} (l : list A) (f : A -> list (entry * message)) (I : list A -> memory -> Prop) done m :
  (forall done a todo m, l = done ++ a :: todo -> I done m ->
     exists m', complete_group op dsz (f a) m = Some m' /\ I (done ++ [a]) m') ->
  forall todo, l = done ++ todo -> I done m ->
  exists m', complete_group op dsz (todo ≫= f) m = Some m' /\ I l m'.
Proof.
  intros Hstep todo. revert done m. induction todo as [|a todo IH]; intros done m Hl HI.
  - exists m. split; [done|]. by rewrite app_nil_r in Hl; subst.
  - destruct (Hstep done a todo m Hl HI) as (m1 & H1 & HI1).
    destruct (IH (done ++ [a]) m1) as (m2 & H2 & HI2); [by rewrite <- app_assoc|done|].
    exists m2. split; [by eapply complete_group_app|done].
Qed.

(** A superstep without communication. *)
Lemma local_step g ms J' :
  (forall r, r < N -> recvs (g r) = [] /\
     exists m1, start_group op dsz (g r) (ms r) = Some (m1, []) /\ J' r m1) ->
  steps g ms J'.
Proof.
  intros H. apply (matched_step g ms J' (fun _ => []) (fun _ => [])); try done.
  - intros r Hr. destruct (H r Hr) as (Hn & m1 & H1 & H2). exists m1, m1. by rewrite Hn.
  - intros r d _ Hd. by apply not_elem_of_nil in Hd.
  - intros r e s _ He. by apply not_elem_of_nil in He.
Qed.

(** The groups run from [ms], ending in memories that satisfy [J]. *)
Definition runs (gs : list (nat -> list entry)) ms J : Prop :=
  exists ms', bsp op dsz N gs ms ms' /\ forall r, r < N -> J r (ms' r).

Lemma bsp_app gs gs' ms ms1 ms' :
  bsp op dsz N gs ms ms1 -> bsp op dsz N gs' ms1 ms' -> bsp op dsz N (gs ++ gs') ms ms'.
Proof.
  intros H. revert ms'. induction H as [ms ms1 Heq|g gs ms ms1 ms2 Hs Hb IH]; intros ms' H'; cbn.
  - destruct H' as [ms1 ms' Heq'|g gs' ms1 ms2 ms' Hs Hb].
    + constructor. intros r Hr. by rewrite Heq, Heq'.
    + econstructor; [|done]. destruct Hs as (a & b & c & H1 & H2). exists a, b, c. split; [|done].
      intros r Hr. rewrite Heq by done. by apply H1.
  - econstructor; [done|]. by apply IH.
Qed.

Lemma bsp_one g ms ms' : superstep op dsz N g ms ms' -> bsp op dsz N [g] ms ms'.
Proof. intros. econstructor; [done|]. by constructor. Qed.

(** A loop of supersteps with an invariant. *)
Lemma runs_loop (G : nat -> list (nat -> list entry)) (I : nat -> nat -> memory -> Prop) lo n ms :
  (forall k ms, lo <= k < lo + n -> (forall r, r < N -> I k r (ms r)) ->
     runs (G k) ms (I (S k))) ->
  (forall r, r < N -> I lo r (ms r)) -> runs (seq lo n ≫= G) ms (I (lo + n)).
Proof.
  revert lo ms. induction n as [|n IH]; intros lo ms Hstep H0.
  - exists ms. split; [by constructor|]. by rewrite Nat.add_0_r.
  - destruct (Hstep lo ms) as (ms1 & Hb & H1); [lia|done|].
    destruct (IH (S lo) ms1) as (ms' & Hb' & H'); [|done|].
    { intros k ms2 Hk. apply Hstep. lia. }
    exists ms'. split; [by eapply bsp_app|]. by rewrite <- Nat.add_succ_comm.
Qed.

Lemma runs_seq (gs gs' : list (nat -> list entry)) ms J J' :
  runs gs ms J -> (forall ms1, (forall r, r < N -> J r (ms1 r)) -> runs gs' ms1 J') -> runs (gs ++ gs') ms J'.
Proof.
  intros (ms1 & H1 & HJ) H2. destruct (H2 ms1 HJ) as (ms' & H & HJ').
  exists ms'. split; [by eapply bsp_app|done].
Qed.

Lemma runs_one g ms J' :
  steps g ms J' -> runs [g] ms J'.
Proof. intros (ms' & H & HJ). exists ms'. split; [by apply bsp_one|done]. Qed.

Lemma runs_cons g gs ms J J' :
  steps g ms J ->
  (forall ms1, (forall r, r < N -> J r (ms1 r)) -> runs gs ms1 J') -> runs (g :: gs) ms J'.
Proof. intros H. by apply (runs_seq [g]), runs_one. Qed.

Lemma runs_nil ms J : (forall r, r < N -> J r (ms r)) -> runs [] ms J.
Proof. intros H. exists ms. by split; [constructor|]. Qed.

Lemma skip_step ms J :
  (forall r, r < N -> J r (ms r)) ->
  steps (fun _ => []) ms J.
Proof. intros H. apply local_step. intros r Hr. split; [done|]. eexists. split; [done|by apply H]. Qed.

Lemma runs_weaken gs ms J J' : (forall r m, r < N -> J r m -> J' r m) -> runs gs ms J -> runs gs ms J'.
Proof. intros H (ms' & H1 & H2). exists ms'. split; [done|]. intros r Hr. apply H; [done|by apply H2]. Qed.

(** Memory once allocated stays allocated. *)
Definition grows (m m' : memory) : Prop := forall k, is_Some (m !! k) -> is_Some (m' !! k).

Lemma grows_refl m : grows m m.
Proof. by intros k. Qed.
Lemma grows_trans m1 m2 m3 : grows m1 m2 -> grows m2 m3 -> grows m1 m3.
Proof. intros H1 H2 k Hk. by apply H2, H1. Qed.

Lemma write_grows m b vs : grows m (write_cells dsz m b vs).
Proof.
  revert b. induction vs as [|v vs IH]; intros b; [apply grows_refl|]. intros k Hk. cbn.
  destruct (decide (k = (buf_src b, buf_offset b))) as [->|Hne]; [by rewrite lookup_insert_eq|].
  rewrite lookup_insert_ne by done. by apply IH.
Qed.

Lemma store_grows m b vs m' : store dsz m b vs = Some m' -> grows m m'.
Proof. unfold store. case_match; [|done]. intros [= <-]. apply write_grows. Qed.

Lemma copy_grows m i o n m' : comp_copy dsz m i o n = Some m' -> grows m m'.
Proof. intros (vs & _ & H)%bind_Some. by eapply store_grows. Qed.

Lemma reduce_grows m i n io m' : comp_reduce op dsz m i n io = Some m' -> grows m m'.
Proof. intros (x & _ & (y & _ & H)%bind_Some)%bind_Some. by eapply store_grows. Qed.

Lemma start_grows e m m' o : start_entry op dsz e m = Some (m', o) -> grows m m'.
Proof.
  destruct e; cbn; try (intros [= <- <-]; apply grows_refl).
  - intros (vs & _ & [= <- <-])%bind_Some. apply grows_refl.
  - intros (m1 & H & [= <- <-])%bind_Some. by eapply copy_grows.
  - intros (m1 & H & [= <- <-])%bind_Some. by eapply reduce_grows.
Qed.

Lemma complete_grows e msg m m' : complete_entry op dsz e msg m = Some m' -> grows m m'.
Proof.
  destruct e as [| |? ? ? ? []| | |]; cbn; try (intros [= <-]; apply grows_refl); case_decide; try done.
  - apply store_grows.
  - intros (m1 & H1 & H2)%bind_Some. eapply grows_trans; [by eapply store_grows|by eapply reduce_grows].
  - intros (m1 & H1 & H2)%bind_Some. eapply grows_trans; [by eapply store_grows|by eapply reduce_grows].
  - intros (m1 & H1 & H2)%bind_Some. eapply grows_trans; [by eapply store_grows|by eapply copy_grows].
Qed.

Lemma start_group_grows g m m1 outs : start_group op dsz g m = Some (m1, outs) -> grows m m1.
Proof.
  revert m outs. induction g as [|e g IH]; intros m outs; cbn; [intros [= <- <-]; apply grows_refl|].
  intros ([m' o] & H1 & ([m2 os] & H2 & [= -> <-])%bind_Some)%bind_Some.
  eapply grows_trans; [by eapply start_grows|by eapply IH].
Qed.

Lemma complete_group_grows l m m' : complete_group op dsz l m = Some m' -> grows m m'.
Proof.
  revert m. induction l as [|[e msg] l IH]; intros m; cbn; [intros [= <-]; apply grows_refl|].
  intros (m1 & H1 & H2)%bind_Some. eapply grows_trans; [by eapply complete_grows|by apply IH].
Qed.

Lemma bsp_grows (gs : list (nat -> list entry)) ms ms' r : bsp op dsz N gs ms ms' -> r < N -> grows (ms r) (ms' r).
Proof.
  induction 1 as [ms ms' E|g gs ms ms1 ms' (m1 & outs & rm & H1 & _ & H3 & _) _ IH]; intros Hr.
  - rewrite E by done. apply grows_refl.
  - eapply grows_trans; [|by apply IH].
    eapply grows_trans; [by eapply start_group_grows, H1|by eapply complete_group_grows, H3].
Qed.

(** What was allocated before a run is allocated after it. *)
Lemma runs_grows gs ms J : runs gs ms J -> runs gs ms (fun r m => J r m /\ grows (ms r) m).
Proof. intros (ms' & H1 & H2). exists ms'. split; [done|]. intros r Hr. split; [by apply H2|by eapply bsp_grows]. Qed.
End supersteps.

(** * Supersteps by evaluation *)

Section exec.
Context {V : Type} `{EqDecision V} (op : V -> V -> V) (dsz : nat).
Abbreviation memory := (gmap (nat * nat) V).
Abbreviation message := (list V).

(** Each receive takes the oldest message left from its source. *)
Fixpoint route (q : nat -> list message) (rs : list entry) : option (list (entry * message)) :=
  match rs with
  | [] => Some []
  | e :: rs' =>
    s ← recv_from e;
    match q s with
    | [] => None
    | v :: vs => l ← route (fun s' => if s' =? s then vs else q s') rs'; Some ((e, v) :: l)
    end
  end.

Definition balanced (N : nat) (outs : list (list (nat * message))) (rms : list (list (entry * message))) : bool :=
  forallb (fun s => forallb (fun d => bool_decide (msgs_to d (default [] (outs !! s)) = msgs_from s (default [] (rms !! d))))
    (seq 0 N)) (seq 0 N).

Definition peers_below (N : nat) (g : list entry) : bool :=
  forallb (fun e => match send_to e with Some p => p <? N | None => true end &&
                    match recv_from e with Some p => p <? N | None => true end) g.

Definition superstep_exec (N : nat) (g : nat -> list entry) (mems : list memory) : option (list memory) :=
  st ← mapM (fun r => start_group op dsz (g r) (default ∅ (mems !! r))) (seq 0 N);
  rms ← mapM (fun d => route (fun s => msgs_to d (default [] (st.*2 !! s))) (recvs (g d))) (seq 0 N);
  if balanced N st.*2 rms && forallb (fun r => peers_below N (g r)) (seq 0 N)
  then mapM (fun r => complete_group op dsz (default [] (rms !! r)) (default ∅ (st.*1 !! r))) (seq 0 N)
  else None.

Fixpoint bsp_exec (N : nat) (gs : list (nat -> list entry)) (mems : list memory) : option (list memory) :=
  match gs with
  | [] => Some mems
  | g :: gs' => mems1 ← superstep_exec N g mems; bsp_exec N gs' mems1
  end.

Lemma route_fst q rs l : route q rs = Some l -> l.*1 = rs.
Proof.
  revert q l. induction rs as [|e rs IH]; intros q l; cbn; [by intros [= <-]|].
  intros (s & _ & H)%bind_Some. destruct (q s); [done|]. apply bind_Some in H as (l' & H & [= <-]). cbn. f_equal. by eapply IH.
Qed.

Lemma mapM_seq {A} (f : nat -> option A) N l r : mapM f (seq 0 N) = Some l -> r < N -> exists a, l !! r = Some a /\ f r = Some a.
Proof.
  intros H%mapM_Some Hr. eapply Forall2_lookup_l in H as (a & Ha & Hf); [|by apply lookup_seq_lt]. by exists a.
Qed.

Lemma forallb_seq f N r : forallb f (seq 0 N) = true -> r < N -> f r = true.
Proof. intros H Hr. rewrite forallb_forall in H. apply H, in_seq. lia. Qed.

Lemma superstep_exec_sound N g mems mems' :
  superstep_exec N g mems = Some mems' ->
  superstep op dsz N g (fun r => default ∅ (mems !! r)) (fun r => default ∅ (mems' !! r)).
Proof.
  intros (st & Hst & (rms & Hrm & H)%bind_Some)%bind_Some. destruct (_ && _) eqn:E; [|done]. apply andb_true_iff in E as [Hbal Hp].
  exists (fun r => default ∅ (st.*1 !! r)), (fun r => default [] (st.*2 !! r)), (fun r => default [] (rms !! r)).
  split_and!.
  - intros r Hr. destruct (mapM_seq _ _ _ r Hst Hr) as ([m o] & E & ->). by rewrite !list_lookup_fmap, E.
  - intros r Hr. destruct (mapM_seq _ _ _ r Hrm Hr) as (l & -> & E). by eapply route_fst.
  - intros r Hr. destruct (mapM_seq _ _ _ r H Hr) as (m & -> & ->). done.
  - intros r e Hr He p Hpe. apply forallb_seq with (r := r) in Hp; [|done]. unfold peers_below in Hp. rewrite forallb_forall in Hp.
    apply list_elem_of_In in He. apply Hp, andb_true_iff in He as [H1 H2].
    destruct Hpe as [Hpe|Hpe]; rewrite Hpe in *; by apply Nat.ltb_lt.
  - intros s d Hs Hd. unfold balanced in Hbal. apply forallb_seq with (r := s) in Hbal; [|done].
    apply forallb_seq with (r := d) in Hbal; [|done]. by apply bool_decide_eq_true in Hbal.
Qed.

Lemma bsp_exec_sound N gs mems mems' :
  bsp_exec N gs mems = Some mems' ->
  bsp op dsz N gs (fun r => default ∅ (mems !! r)) (fun r => default ∅ (mems' !! r)).
Proof.
  revert mems. induction gs as [|g gs IH]; intros mems; cbn; [intros [= ->]; by constructor|].
  intros (mems1 & H1 & H2)%bind_Some. econstructor; [by apply superstep_exec_sound|by apply IH].
Qed.
End exec.
