(* ===== verification/Build.v ===== *)
(** Schedule building in closed form, and entry effects on arrays.

    A builder that runs from a schedule [st gs cur nx al] - the closed barrier
    groups [gs], the open group [cur], the next allocation id [nx] and the
    allocations [al] - ends in another such schedule; the equations here compute
    it.  The second half says what an entry does to a memory described by arrays
    ([arr]) and when the entries of a group are free of data races. *)

From S2P Require Import Prelude Sched Network Race Bsp.
Open Scope ccl_scope.

(** * Schedules as barrier groups *)

Definition open_group (cur : list entry) : list (entry * bool) := (fun e => (e, false)) <$> cur.

Definition flat (gs : list (list entry)) (cur : list entry) : list (entry * bool) :=
  concat (close_group true <$> gs) ++ open_group cur.

Definition st (gs : list (list entry)) (cur : list entry) (nx : nat) (al : list (nat * nat)) : ccl_sched :=
  {| entries := flat gs cur; next_src := nx; allocs := al |}.

Lemma empty_sched_st nx : empty_sched nx = st [] [] nx [].
Proof. done. Qed.

Lemma close_group_false g : close_group false g = open_group g.
Proof. induction g as [|e g IH]; [done|]. rewrite close_group_cons, IH, andb_false_r. done. Qed.

Lemma close_group_app b g e : close_group b (g ++ [e]) = open_group g ++ [(e, b)].
Proof.
  induction g as [|x g IH]; [done|]. cbn [app]. rewrite close_group_cons, IH.
  rewrite bool_decide_eq_false_2; [done|]. by destruct g.
Qed.

Lemma flat_sched_of gs cur : flat gs cur = sched_of false (gs ++ [cur]).
Proof.
  unfold flat. induction gs as [|g gs IH]; cbn [app].
  - cbn. by rewrite close_group_false.
  - rewrite sched_of_cons_eq, <- IH. cbn. rewrite <- app_assoc. do 2 f_equal. by destruct gs.
Qed.

Lemma mark_last_app l e b : mark_last (l ++ [(e, b)]) = l ++ [(e, true)].
Proof.
  induction l as [|[x bx] l IH]; [done|]. cbn [app]. rewrite <- IH. cbn. by destruct l as [|[] l].
Qed.

Lemma closed_last gs : concat (close_group true <$> gs) = [] \/
  exists l e, concat (close_group true <$> gs) = l ++ [(e, true)].
Proof.
  induction gs as [|g gs IH]; [by left|]. cbn. destruct IH as [->|(l & e & ->)].
  - rewrite app_nil_r. destruct g as [|x g _] using rev_ind; [by left|].
    right. rewrite close_group_app. eauto.
  - right. exists (close_group true g ++ l), e. by rewrite app_assoc.
Qed.

Lemma mark_last_flat gs cur : mark_last (flat gs cur) = flat (gs ++ [cur]) [].
Proof.
  unfold flat. rewrite fmap_app, concat_app. cbn. rewrite !app_nil_r.
  destruct cur as [|e cur _] using rev_ind; cbn.
  - rewrite !app_nil_r. destruct (closed_last gs) as [->|(l & e & ->)]; [done|]. apply mark_last_app.
  - unfold open_group. rewrite fmap_app, app_assoc. cbn. rewrite mark_last_app, close_group_app, app_assoc. done.
Qed.

Lemma st_empty_group gs cur nx al : st (gs ++ [[]]) cur nx al = st gs cur nx al.
Proof. unfold st, flat. f_equal. rewrite fmap_app, concat_app. cbn. by rewrite app_nil_r. Qed.

Lemma st_empty_groups gs l cur nx al : Forall (fun g => g = []) l -> st (gs ++ l) cur nx al = st gs cur nx al.
Proof.
  revert gs. induction l as [|g l IH]; intros gs Hl; [by rewrite app_nil_r|]. apply Forall_cons in Hl as [-> Hl].
  change ([] :: l) with ([[]] ++ l). by rewrite app_assoc, IH, st_empty_group.
Qed.

Lemma entries_st gs cur nx al : entries (st gs cur nx al) = sched_of false (gs ++ [cur]).
Proof. apply flat_sched_of. Qed.

(** The operations of [Sched] on [st]. *)
Lemma add_entry_st e gs cur nx al : add_entry e (st gs cur nx al) = Ok (tt, st gs (cur ++ [e]) nx al).
Proof.
  unfold add_entry, st. cbn. do 3 f_equal. unfold flat, open_group. by rewrite fmap_app, app_assoc.
Qed.

Lemma add_barrier_st gs cur nx al : add_barrier (st gs cur nx al) = Ok (tt, st (gs ++ [cur]) [] nx al).
Proof. unfold add_barrier, st. cbn. by rewrite mark_last_flat. Qed.

Lemma alloc_buffer_st n gs cur nx al : 0 < n ->
  alloc_buffer n (st gs cur nx al) = Ok (mk_buffer nx 0, st gs cur (S nx) (al ++ [(nx, n)])).
Proof. intros Hn. unfold alloc_buffer. destruct (Nat.eqb_spec n 0); [lia|done]. Qed.

Lemma bind_Ok {A B} (m : build A) (f : A -> build B) s a s' :
  m s = Ok (a, s') -> bind m f s = f a s'.
Proof. unfold bind. by intros ->. Qed.

Lemma bind_assoc {A B D} (m : build A) (f : A -> build B) (g : B -> build D) s :
  bind (bind m f) g s = bind m (fun a => bind (f a) g) s.
Proof. unfold bind. by destruct (m s) as [[a s']|]. Qed.

Lemma bind_ret {A B} (a : A) (f : A -> build B) s : bind (ret a) f s = f a s.
Proof. done. Qed.

(** The accumulator of a loop: [for (i = lo; i < lo + n; i++) a = body(i, a)]. *)
Fixpoint for_state {A} (lo n : nat) (body : nat -> A -> build A) (a : A) : build A :=
  match n with
  | O => ret a
  | S n' => a' <-- body lo a ;; for_state (S lo) n' body a'
  end.

Lemma for_state_inv {A} lo n body (inv : nat -> A) (S : nat -> ccl_sched) :
  (forall i, lo <= i < lo + n -> body i (inv i) (S i) = Ok (inv (1 + i), S (1 + i))) ->
  for_state lo n body (inv lo) (S lo) = Ok (inv (lo + n), S (lo + n)).
Proof.
  revert lo. induction n as [|n IH]; intros lo H; cbn [for_state].
  - by rewrite Nat.add_0_r.
  - rewrite (bind_Ok _ _ _ _ _ (H lo ltac:(lia))), IH by (intros; apply H; lia).
    by replace (lo + Datatypes.S n) with (1 + lo + n) by lia.
Qed.

Lemma for_state_run {A} lo n body (inv : nat -> A) (S : nat -> ccl_sched) a0 s0 :
  inv lo = a0 -> S lo = s0 ->
  (forall i, lo <= i < lo + n -> body i (inv i) (S i) = Ok (inv (1 + i), S (1 + i))) ->
  for_state lo n body a0 s0 = Ok (inv (lo + n), S (lo + n)).
Proof. intros <- <-. apply for_state_inv. Qed.

Lemma for_range_inv lo n body (S : nat -> ccl_sched) :
  (forall i, lo <= i < lo + n -> body i (S i) = Ok (tt, S (1 + i))) ->
  for_range lo n body (S lo) = Ok (tt, S (lo + n)).
Proof.
  revert lo. induction n as [|n IH]; intros lo H; cbn [for_range].
  - by rewrite Nat.add_0_r.
  - rewrite (bind_Ok _ _ _ _ _ (H lo ltac:(lia))), IH by (intros; apply H; lia).
    by replace (lo + Datatypes.S n) with (1 + lo + n) by lia.
Qed.

Lemma create_recv_reduce_st dsz io cnt from cb rt gs cur nx al :
  buf_src io <> 0 -> buf_src cb <> 0 -> buf_src cb <> buf_src io ->
  create_recv_reduce dsz io cnt from cb rt (st gs cur nx al) =
  Ok (tt, st gs (cur ++ [recv_reduce_entry io cnt from cb rt]) nx al).
Proof.
  intros H1 H2 H3. unfold create_recv_reduce, buffer_bool.
  rewrite !bool_decide_eq_true_2, buffer_eqb_src by done.
  replace (match rt with ccl_recv_reduce_local_buf => true | ccl_recv_reduce_comm_buf => true end)
    with true by (by destruct rt).
  cbn [negb orb andb]. by rewrite add_entry_st.
Qed.

Lemma for_range_run lo n body (S : nat -> ccl_sched) s0 :
  S lo = s0 -> (forall i, lo <= i < lo + n -> body i (S i) = Ok (tt, S (1 + i))) ->
  for_range lo n body s0 = Ok (tt, S (lo + n)).
Proof. intros <-. apply for_range_inv. Qed.

(** A buffer that is allocated is not empty. *)
Ltac alloc_pos := solve [assumption | lia | apply Nat.mul_pos_pos; (assumption || lia) | nia].

(** Run the builder at the head of the goal. *)
Ltac build_step :=
  first
    [ rewrite bind_assoc | rewrite bind_ret
    | rewrite (bind_Ok _ _ _ _ _ (add_entry_st _ _ _ _ _))
    | rewrite (bind_Ok _ _ _ _ _ (add_barrier_st _ _ _ _))
    | erewrite bind_Ok by (apply alloc_buffer_st; alloc_pos) ].
Ltac build_simp :=
  unfold create_send, create_recv, create_copy, create_reduce_local, create_recv_copy;
  repeat build_step; rewrite ?add_entry_st, ?add_barrier_st; cbn [app]; rewrite <- ?app_assoc; cbn [app].

Lemma seq_snoc {A} (f : nat -> A) lo n : f <$> seq lo (S n) = (f <$> seq lo n) ++ [f (lo + n)].
Proof. by rewrite seq_S, fmap_app. Qed.

Lemma bind_seq_snoc {A} (f : nat -> list A) lo n : seq lo (S n) ≫= f = (seq lo n ≫= f) ++ f (lo + n).
Proof. rewrite seq_S, bind_app. cbn. by rewrite app_nil_r. Qed.

(** * Race freedom group by group *)

(** [race_free] and [no_races] for any relation of an entry in flight to one that starts. *)
Section free.
Context (R : entry -> entry -> Prop).

Fixpoint free_by (cur : list entry) (todo : list (entry * bool)) : Prop :=
  match todo with
  | [] => True
  | (e, b) :: todo' => Forall (fun c => R c e) cur /\
                       free_by (if b then [] else if is_async e then cur ++ [e] else cur) todo'
  end.
Abbreviation group_by g := (free_by [] (open_group g)).

Lemma free_close cur g rest :
  g <> [] -> free_by cur (open_group g) -> free_by [] rest -> free_by cur (close_group true g ++ rest).
Proof.
  revert cur. induction g as [|e g IH]; intros cur Hne Hg Hrest; [done|].
  destruct g as [|e' g]; [by destruct Hg|]. destruct Hg as [He Hg]. split; [done|]. by apply IH.
Qed.

Lemma free_groups gs cur : Forall (fun g => group_by g) gs -> group_by cur -> free_by [] (flat gs cur).
Proof.
  intros Hgs Hcur. unfold flat. induction Hgs as [|g gs Hg Hgs IH]; [done|]. cbn. rewrite <- app_assoc.
  destruct g as [|e g]; [done|]. by apply free_close.
Qed.

Lemma free_cur cur cur' l :
  Forall (fun c => Forall (R c) l) cur -> free_by cur' (open_group l) -> free_by (cur ++ cur') (open_group l).
Proof.
  revert cur'. induction l as [|e l IH]; intros cur' Hc H; [done|]. destruct H as [H1 H2]. split.
  - apply Forall_app. split; [|done]. eapply Forall_impl; [exact Hc|]. by intros c [? _]%Forall_cons.
  - cbn in *. assert (Hc' : Forall (fun c => Forall (R c) l) cur)
      by (eapply Forall_impl; [exact Hc|]; by intros c [_ ?]%Forall_cons).
    destruct (is_async e); [rewrite <- app_assoc|]; by apply IH.
Qed.

Lemma free_app_aux cur l1 l2 :
  free_by cur (open_group l1) -> group_by l2 -> Forall (fun c => Forall (R c) l2) cur ->
  Forall (fun c => is_async c = true -> Forall (R c) l2) l1 -> free_by cur (open_group (l1 ++ l2)).
Proof.
  revert cur. induction l1 as [|e l1 IH]; intros cur H1 H2 Hc Hl.
  - cbn. rewrite <- (app_nil_r cur). by apply free_cur.
  - destruct H1 as [He H1]. apply Forall_cons in Hl as [Hle Hl]. split; [done|]. cbn in *. apply IH; try done.
    destruct (is_async e); [|done]. apply Forall_app. split; [done|]. constructor; [by apply Hle|done].
Qed.

(** Two parts of a group, when the second never touches what is in flight from the first. *)
Lemma free_app l1 l2 :
  group_by l1 -> group_by l2 -> Forall (fun c => is_async c = true -> Forall (R c) l2) l1 -> group_by (l1 ++ l2).
Proof. intros. by apply free_app_aux. Qed.

(** A group built by a loop. *)
Lemma free_loop lo n (f : nat -> list entry) :
  (forall i, lo <= i < lo + n -> group_by (f i)) ->
  (forall i j a b, lo <= i < j -> j < lo + n -> a ∈ f i -> b ∈ f j -> is_async a = true -> R a b) ->
  group_by (seq lo n ≫= f).
Proof.
  revert lo. induction n as [|n IH]; intros lo H1 H2; [done|]. cbn. apply free_app.
  - apply H1. lia.
  - apply IH; [intros i Hi; apply H1; lia|]. intros i j a b Hi Hj. apply H2; lia.
  - apply Forall_forall. intros a Ha Has. apply Forall_forall.
    intros b (j & Hb & Hj%elem_of_seq)%list_elem_of_bind. eapply (H2 lo j); (done || lia).
Qed.
End free.

(** By the effects of the entries. *)
Definition group_free {V} (op : V -> V -> V) (dsz : nat) (g : list entry) : Prop := race_free op dsz [] (open_group g).

Lemma groups_race_free {V} (op : V -> V -> V) dsz gs cur :
  Forall (group_free op dsz) gs -> group_free op dsz cur -> race_free op dsz [] (flat gs cur).
Proof. exact (free_groups (compat op dsz) gs cur). Qed.

Section races.
Context (dsz : nat).

(** By the footprints of the entries. *)
Definition group_ok (g : list entry) : Prop := no_races dsz [] (open_group g).

Lemma group_ok_free {V} (op : V -> V -> V) g : 0 < dsz -> group_ok g -> group_free op dsz g.
Proof. intros Hd. by apply no_races_race_free. Qed.

Lemma groups_no_races gs cur :
  Forall group_ok gs -> group_ok cur -> no_races dsz [] (flat gs cur).
Proof. exact (free_groups (no_race dsz) gs cur). Qed.

Lemma group_ok_app l1 l2 :
  group_ok l1 -> group_ok l2 -> Forall (fun c => is_async c = true -> Forall (no_race dsz c) l2) l1 ->
  group_ok (l1 ++ l2).
Proof. exact (free_app (no_race dsz) l1 l2). Qed.

Lemma group_ok_loop lo n (f : nat -> list entry) :
  (forall i, lo <= i < lo + n -> group_ok (f i)) ->
  (forall i j a b, lo <= i < j -> j < lo + n -> a ∈ f i -> b ∈ f j -> is_async a = true -> no_race dsz a b) ->
  group_ok (seq lo n ≫= f).
Proof. exact (free_loop (no_race dsz) lo n f). Qed.

Lemma group_ok_nil : group_ok [].
Proof. done. Qed.

Lemma all_apart_Forall rs1 rs2 :
  Forall (fun r1 => Forall (apart dsz r1) rs2) rs1 -> all_apart dsz rs1 rs2.
Proof. intros H r1 r2 H1 H2. rewrite Forall_forall in H. specialize (H _ H1). rewrite Forall_forall in H. by apply H. Qed.

Lemma all_apart_one r1 r2 : apart dsz r1 r2 -> all_apart dsz [r1] [r2].
Proof. intros H x y ->%list_elem_of_singleton ->%list_elem_of_singleton. done. Qed.

Lemma apart_sym r1 r2 : apart dsz r1 r2 -> apart dsz r2 r1.
Proof. unfold apart. intuition auto. Qed.

Lemma apart_sub b o1 n1 o2 n2 :
  (o1 + n1 <= o2 \/ o2 + n2 <= o1) -> apart dsz (b +b o1 * dsz, n1) (b +b o2 * dsz, n2).
Proof. intros H. unfold apart. cbn. destruct H; [do 3 right; left|do 4 right]; nia. Qed.

Lemma apart_src b1 n1 b2 n2 : buf_src b1 <> buf_src b2 -> apart dsz (b1, n1) (b2, n2).
Proof. unfold apart. cbn. auto. Qed.
End races.

(** Reduce a race between two concrete entries to pairs of regions. *)
Ltac race_cases :=
  split; [|split; [|split]]; apply all_apart_Forall; cbn [touch_s touch_c write_s write_c];
  repeat match goal with |- Forall _ _ => constructor end.

(** Reduce race freedom of a concrete group to its pairs of regions. *)
Ltac group_races :=
  unfold group_ok, open_group; cbn [fmap list_fmap no_races is_async app];
  repeat match goal with
  | |- _ /\ _ => split
  | |- Forall _ _ => constructor
  | |- True => exact I
  | |- no_race _ _ _ => split; [|split; [|split]]
  | |- all_apart _ _ _ => apply all_apart_Forall; cbn [touch_s touch_c write_s write_c]
  end.

(** * Effects on arrays *)

(** [g] at the positions [o .. o + k - 1], [f] elsewhere. *)
Definition upd {V} (f : nat -> V) (o k : nat) (g : nat -> V) (i : nat) : V :=
  if decide (o <= i < o + k) then g (i - o) else f i.

Section arrays.
Context {V : Type} (op : V -> V -> V) (dsz : nat) (dsz_pos : 0 < dsz).
Abbreviation memory := (gmap (nat * nat) V).
Implicit Types (m : memory) (b : ccl_buffer) (f g : nat -> V).

(** Only allocation [a] changed. *)
Definition keeps (a : nat) m m' : Prop := forall k, k.1 <> a -> m' !! k = m !! k.

Lemma keeps_arr a m m' b n f : keeps a m m' -> buf_src b <> a -> arr dsz m b n f -> arr dsz m' b n f.
Proof. intros Hk Hne H i Hi. rewrite Hk by done. by apply H. Qed.

Lemma write_keeps m b vs : keeps (buf_src b) m (write_cells dsz m b vs).
Proof. intros k Hk. apply lookup_write_cells_out; [done|]. intros i _ ->. done. Qed.

Lemma read_sub m b n f o k :
  arr dsz m b n f -> o + k <= n ->
  read_cells dsz m (b +b o * dsz) k = Some ((fun i => f (o + i)) <$> seq 0 k).
Proof. intros H Hk. apply arr_read. by eapply arr_sub. Qed.

Lemma store_sub m b n f o k g :
  arr dsz m b n f -> o + k <= n ->
  exists m', store dsz m (b +b o * dsz) (g <$> seq 0 k) = Some m' /\
             arr dsz m' b n (upd f o k g) /\ keeps (buf_src b) m m'.
Proof.
  intros H Hk. exists (write_cells dsz m (b +b o * dsz) (g <$> seq 0 k)). split; [|split].
  - eapply store_arr; [done|exact H|]. by rewrite length_fmap, length_seq.
  - by apply arr_write_sub.
  - apply (write_keeps m (b +b o * dsz)).
Qed.

Lemma copy_sub m b1 n1 f1 o1 b2 n2 f2 o2 k :
  arr dsz m b1 n1 f1 -> arr dsz m b2 n2 f2 -> o1 + k <= n1 -> o2 + k <= n2 ->
  exists m', comp_copy dsz m (b1 +b o1 * dsz) (b2 +b o2 * dsz) k = Some m' /\
             arr dsz m' b2 n2 (upd f2 o2 k (fun i => f1 (o1 + i))) /\ keeps (buf_src b2) m m'.
Proof.
  intros H1 H2 Hk1 Hk2. unfold comp_copy. rewrite (read_sub _ _ _ _ _ _ H1 Hk1). cbn. by apply store_sub.
Qed.

Lemma reduce_sub m b1 n1 f1 o1 b2 n2 f2 o2 k :
  arr dsz m b1 n1 f1 -> arr dsz m b2 n2 f2 -> o1 + k <= n1 -> o2 + k <= n2 ->
  exists m', comp_reduce op dsz m (b1 +b o1 * dsz) k (b2 +b o2 * dsz) = Some m' /\
             arr dsz m' b2 n2 (upd f2 o2 k (fun i => op (f2 (o2 + i)) (f1 (o1 + i)))) /\
             keeps (buf_src b2) m m'.
Proof.
  intros H1 H2 Hk1 Hk2. unfold comp_reduce.
  rewrite (read_sub _ _ _ _ _ _ H1 Hk1), (read_sub _ _ _ _ _ _ H2 Hk2). cbn.
  rewrite zip_with_fmap_seq. by apply store_sub.
Qed.

(** A receive writes the message. *)
Lemma recv_sub m b n f o k s g :
  arr dsz m b n f -> o + k <= n ->
  exists m', complete_entry op dsz (recv_entry (b +b o * dsz) k s) (g <$> seq 0 k) m = Some m' /\
             arr dsz m' b n (upd f o k g) /\ keeps (buf_src b) m m'.
Proof.
  intros H Hk. cbn. rewrite decide_True by (by rewrite length_fmap, length_seq). by apply store_sub.
Qed.

(** A receive-reduce into the local buffer: [local op message], through the communication buffer. *)
Lemma recv_reduce_local_sub m b n f o cb cn cf co k s g :
  buf_src b <> buf_src cb ->
  arr dsz m b n f -> arr dsz m cb cn cf -> o + k <= n -> co + k <= cn ->
  exists m', complete_entry op dsz
      (recv_reduce_entry (b +b o * dsz) k s (cb +b co * dsz) ccl_recv_reduce_local_buf) (g <$> seq 0 k) m = Some m' /\
    arr dsz m' b n (upd f o k (fun i => op (f (o + i)) (g i))) /\
    arr dsz m' cb cn (upd cf co k g) /\
    forall x, x.1 <> buf_src b -> x.1 <> buf_src cb -> m' !! x = m !! x.
Proof.
  intros Hne H Hc Hk Hck. cbn. rewrite decide_True by (by rewrite length_fmap, length_seq).
  destruct (store_sub m cb cn cf co k g Hc Hck) as (m1 & -> & A1 & K1). cbn.
  assert (H1 : arr dsz m1 b n f) by (by eapply keeps_arr).
  destruct (reduce_sub m1 cb cn (upd cf co k g) co b n f o k A1 H1 Hck Hk) as (m2 & E2 & A2 & K2).
  exists m2. split; [done|]. split; [|split].
  - eapply (arr_ext dsz); [|exact A2]. intros i Hi. unfold upd. cases_lia; [|done]. do 2 f_equal. lia.
  - eapply keeps_arr; [exact K2|congruence|done].
  - intros x Hx1 Hx2. rewrite K2, K1 by done. done.
Qed.

(** A receive-reduce into the communication buffer: [message op local]. *)
Lemma recv_reduce_comm_sub m b n f o cb cn cf co k s g :
  buf_src b <> buf_src cb ->
  arr dsz m b n f -> arr dsz m cb cn cf -> o + k <= n -> co + k <= cn ->
  exists m', complete_entry op dsz
      (recv_reduce_entry (b +b o * dsz) k s (cb +b co * dsz) ccl_recv_reduce_comm_buf) (g <$> seq 0 k) m = Some m' /\
    arr dsz m' cb cn (upd cf co k (fun i => op (g i) (f (o + i)))) /\ keeps (buf_src cb) m m'.
Proof.
  intros Hne H Hc Hk Hck. cbn. rewrite decide_True by (by rewrite length_fmap, length_seq).
  destruct (store_sub m cb cn cf co k g Hc Hck) as (m1 & -> & A1 & K1). cbn.
  assert (H1 : arr dsz m1 b n f) by (by eapply keeps_arr).
  destruct (reduce_sub m1 b n f o cb cn (upd cf co k g) co k H1 A1 Hk Hck) as (m2 & E2 & A2 & K2).
  exists m2. split; [done|]. split.
  - eapply (arr_ext dsz); [|exact A2]. intros i Hi. unfold upd. cases_lia; [|done]. do 2 f_equal. lia.
  - intros x Hx. by rewrite K2, K1.
Qed.
Lemma arr_grows m m' b n f : grows m m' -> arr dsz m b n f -> exists g, arr dsz m' b n g.
Proof.
  intros Hg H. exists (fun i => default (f i) (m' !! cell dsz b i)). intros i Hi.
  destruct (Hg (cell dsz b i)) as [v Hv]; [by rewrite H|]. by rewrite Hv.
Qed.

Lemma buffer_add_0 b : b +b 0 * dsz = b.
Proof. destruct b. unfold buffer_add. cbn. f_equal. lia. Qed.

(** A copy of whole arrays. *)
Lemma copy_arr m b1 f1 b2 f2 k :
  arr dsz m b1 k f1 -> arr dsz m b2 k f2 ->
  exists m', comp_copy dsz m b1 b2 k = Some m' /\ arr dsz m' b2 k f1 /\ keeps (buf_src b2) m m'.
Proof.
  intros H1 H2. destruct (copy_sub m b1 k f1 0 b2 k f2 0 k H1 H2) as (m' & Hm & A & K); [lia..|].
  rewrite !buffer_add_0 in Hm. exists m'. split; [done|]. split; [|done].
  eapply (arr_ext dsz); [|exact A]. intros i Hi. unfold upd. cases_lia. f_equal. lia.
Qed.
(** Whole-array forms, with frames by regions. *)
Lemma reduce_arr m b1 f1 b2 f2 k :
  arr dsz m b1 k f1 -> arr dsz m b2 k f2 ->
  exists m', comp_reduce op dsz m b1 k b2 = Some m' /\ arr dsz m' b2 k (fun i => op (f2 i) (f1 i)).
Proof.
  intros H1 H2. destruct (reduce_sub m b1 k f1 0 b2 k f2 0 k H1 H2) as (m' & Hm & A & _); [lia..|].
  rewrite !buffer_add_0 in Hm. exists m'. split; [done|].
  eapply (arr_ext dsz); [|exact A]. intros i Hi. unfold upd. cases_lia. f_equal; f_equal; lia.
Qed.

Lemma recv_arr m b f k s g :
  arr dsz m b k f ->
  exists m', complete_entry op dsz (recv_entry b k s) (g <$> seq 0 k) m = Some m' /\ arr dsz m' b k g.
Proof.
  intros H. destruct (recv_sub m b k f 0 k s g H) as (m' & Hm & A & _); [lia|].
  rewrite !buffer_add_0 in Hm. exists m'. split; [done|].
  eapply (arr_ext dsz); [|exact A]. intros i Hi. unfold upd. cases_lia. f_equal; lia.
Qed.

Lemma arr_cells m m' b n f (rs : list (ccl_buffer * nat)) :
  (forall k, k ∉ cells_of dsz rs -> m' !! k = m !! k) ->
  all_apart dsz rs [(b, n)] -> arr dsz m b n f -> arr dsz m' b n f.
Proof.
  intros Hk Ha H i Hi. rewrite Hk; [by apply H|]. intros Hin.
  apply (all_apart_cells dsz dsz_pos rs [(b, n)] _ Ha Hin), elem_of_cells_of; [done|].
  exists (b, n), i. split; [left|]. by split.
Qed.

Lemma start_arr e m m' o b n f :
  start_entry op dsz e m = Some (m', o) -> all_apart dsz (write_s e) [(b, n)] ->
  arr dsz m b n f -> arr dsz m' b n f.
Proof. intros Hs. apply arr_cells. intros k. by eapply start_frame. Qed.

Lemma complete_arr e msg m m' b n f :
  complete_entry op dsz e msg m = Some m' -> all_apart dsz (write_c e) [(b, n)] ->
  arr dsz m b n f -> arr dsz m' b n f.
Proof. intros Hs. apply arr_cells. intros k. by eapply complete_frame. Qed.
End arrays.

(** * What a run leaves unchanged *)

Section frames.
Context {V : Type} (op : V -> V -> V) (dsz N : nat) (dsz_pos : 0 < dsz).
Abbreviation memory := (gmap (nat * nat) V).
Implicit Types (m : memory) (ms : nat -> memory).

(** What the entries of a group write. *)
Definition writes (g : list entry) : list (ccl_buffer * nat) := (g ≫= write_s) ++ (g ≫= write_c).

Lemma cells_app rs rs' : cells_of dsz (rs ++ rs') = cells_of dsz rs ++ cells_of dsz rs'.
Proof. apply bind_app. Qed.

Lemma start_group_frame g m m1 outs k :
  start_group op dsz g m = Some (m1, outs) -> k ∉ cells_of dsz (g ≫= write_s) -> m1 !! k = m !! k.
Proof.
  revert m outs. induction g as [|e g IH]; intros m outs; [by intros [= <- _]|].
  intros ([m2 o] & H1 & ([m3 os] & H2 & [= <- _])%bind_Some)%bind_Some Hk. rewrite bind_cons, cells_app, not_elem_of_app in Hk.
  destruct Hk as [Hk1 Hk2]. rewrite (IH _ _ H2 Hk2). by eapply start_frame.
Qed.

Lemma complete_group_frame l m m1 k :
  complete_group op dsz l m = Some m1 -> k ∉ cells_of dsz (l.*1 ≫= write_c) -> m1 !! k = m !! k.
Proof.
  revert m. induction l as [|[e msg] l IH]; intros m; [by intros [= <-]|].
  intros (m2 & H1 & H2)%bind_Some Hk. rewrite fmap_cons, bind_cons, cells_app, not_elem_of_app in Hk.
  destruct Hk as [Hk1 Hk2]. rewrite (IH _ H2 Hk2). by eapply complete_frame.
Qed.

Lemma recvs_writes g : (recvs g ≫= write_c) ⊆ (g ≫= write_c).
Proof. intros x (e & Hx & [_ He]%list_elem_of_filter)%list_elem_of_bind. apply list_elem_of_bind. by exists e. Qed.

Lemma cells_subset rs rs' : rs ⊆ rs' -> cells_of dsz rs ⊆ cells_of dsz rs'.
Proof. intros H k (r & i & Hr & Hi & ->)%elem_of_cells_of; [|done]. apply elem_of_cells_of; [done|]. exists r, i. split_and!; [by apply H|done|done]. Qed.

Lemma superstep_frame g ms ms' r k : superstep op dsz N g ms ms' -> r < N -> k ∉ cells_of dsz (writes (g r)) -> ms' r !! k = ms r !! k.
Proof.
  intros (ms1 & outs & rm & H1 & H2 & H3 & _) Hr Hk. unfold writes in Hk. rewrite cells_app, not_elem_of_app in Hk. destruct Hk as [Hk1 Hk2].
  rewrite (complete_group_frame _ _ _ _ (H3 r Hr)); [exact (start_group_frame _ _ _ _ _ (H1 r Hr) Hk1)|]. rewrite H2 by done. intros Hin. apply Hk2.
  eapply cells_subset; [apply recvs_writes|exact Hin].
Qed.

(** What no group writes keeps its contents. *)
Lemma runs_frame gs ms J : runs op dsz N gs ms J ->
  runs op dsz N gs ms (fun r m => J r m /\ forall k, k ∉ cells_of dsz (gs ≫= fun g => writes (g r)) -> m !! k = ms r !! k).
Proof.
  intros (ms' & Hb & HJ). exists ms'. split; [done|]. intros r Hr. split; [by apply HJ|]. clear J HJ.
  induction Hb as [ms ms' E|g gs ms ms1 ms' Hs _ IH]; intros k Hk; [by rewrite E|]. rewrite bind_cons, cells_app, not_elem_of_app in Hk.
  destruct Hk as [Hk1 Hk2]. rewrite IH by done. by eapply superstep_frame.
Qed.
End frames.
