(* ===== verification/Reduction.v ===== *)
(** Reductions over ranks, and the contract of a collective.

    [reduce_ranks op N f] is the reduction, in rank order, of one value per rank: the
    reference the reducing collectives are compared with.  An algorithm may
    combine the values in another order; for an associative and commutative
    operation that is the same value ([fold1_perm]).  [implements] is the contract
    an algorithm is proved to meet: the builder succeeds on every rank and the
    schedules it builds form a [collective] with the given pre- and postcondition. *)

From S2P Require Import Prelude Sched Network Race Bsp Build.
Open Scope ccl_scope.

(** * Reductions *)

Section reduction.
Context {V : Type} (op : V -> V -> V).

Definition fold1 (l : list V) : option V :=
  match l with [] => None | a :: l' => Some (fold_left op l' a) end.

Definition reduce_ranks (N : nat) (f : nat -> V) : V := fold_left op (f <$> seq 1 (N - 1)) (f 0).

Lemma fold1_snoc l a v : fold1 l = Some v -> fold1 (l ++ [a]) = Some (op v a).
Proof. destruct l as [|b l]; [done|]. cbn. intros [= <-]. by rewrite fold_left_app. Qed.

Context `{!Assoc (=) op, !Comm (=) op}.

Lemma fold_left_assoc l a b : op a (fold_left op l b) = fold_left op l (op a b).
Proof using Assoc0.
  revert b. induction l as [|c l IH]; intros b; [done|]. cbn. rewrite IH. by rewrite (assoc op).
Qed.

Lemma fold1_cons a l v : fold1 l = Some v -> fold1 (a :: l) = Some (op a v).
Proof using Assoc0.
  destruct l as [|b l]; [done|]. cbn. intros [= <-]. f_equal. symmetry. apply fold_left_assoc.
Qed.

Lemma fold1_perm l l' : l ≡ₚ l' -> fold1 l = fold1 l'.
Proof using Type*.
  induction 1 as [|a l l' Hp IH|a b l|l1 l2 l3 _ IH1 _ IH2]; [done| | |congruence].
  - destruct l as [|b l].
    + apply Permutation_nil in Hp as ->. done.
    + destruct l' as [|b' l']; [symmetry in Hp; by apply Permutation_nil in Hp|].
      cbn in IH |- *. rewrite <- !fold_left_assoc. by injection IH as ->.
  - cbn. f_equal. by rewrite (comm op a b).
Qed.

Lemma fold1_ranks N (f : nat -> V) : 0 < N -> fold1 (f <$> seq 0 N) = Some (reduce_ranks N f).
Proof. intros HN. destruct N as [|N]; [lia|]. cbn. by rewrite Nat.sub_0_r. Qed.

(** Any order of the ranks gives the same reduction. *)
Lemma fold1_any_order N (f : nat -> V) l v :
  NoDup l -> length l = N -> (forall r, r ∈ l -> r < N) -> 0 < N ->
  fold1 (f <$> l) = Some v -> v = reduce_ranks N f.
Proof using Type*.
  intros Hnd Hlen Hlt HN Hv.
  assert (Hp : l ≡ₚ seq 0 N).
  { apply NoDup_Permutation_bis; [by apply NoDup_ListNoDup|rewrite length_seq; lia|].
    intros r Hr%list_elem_of_In. apply list_elem_of_In, elem_of_seq. specialize (Hlt r Hr). lia. }
  rewrite (fold1_perm _ (f <$> seq 0 N)), fold1_ranks in Hv by (done || by rewrite Hp). by injection Hv as <-.
Qed.
End reduction.

(** * The contract of a collective *)

(** A temporary buffer of a schedule, with some contents. *)
Definition allocated {V} (dsz : nat) (m : gmap (nat * nat) V) (a : nat * nat) : Prop :=
  exists f, arr dsz m (mk_buffer a.1 0) (a.2 / dsz) f.

(** [build r] succeeds on every rank, and the schedules satisfy [collective]. *)
Definition implements {V} (op : V -> V -> V) (dsz N : nat) (build_at : nat -> build unit) (nx : nat -> nat)
    (pre post : nat -> gmap (nat * nat) V -> Prop) : Prop :=
  exists scheds : nat -> ccl_sched,
    (forall r, r < N -> build_at r (empty_sched (nx r)) = Ok (tt, scheds r)) /\
    forall ms : nat -> gmap (nat * nat) V,
      (forall r, r < N -> pre r (ms r) /\ Forall (allocated dsz (ms r)) (allocs (scheds r))) ->
      collective op dsz N (fun r => entries (scheds r)) ms post.

(** What one rank runs of a list of groups. *)
Definition at_rank (r : nat) (gs : list (nat -> list entry)) : list (list entry) := (fun g => g r) <$> gs.

Lemma at_rank_app r gs gs' : at_rank r (gs ++ gs') = at_rank r gs ++ at_rank r gs'.
Proof. apply fmap_app. Qed.

Lemma at_rank_snoc r (f : nat -> list (nat -> list entry)) lo n :
  at_rank r (seq lo (S n) ≫= f) = at_rank r (seq lo n ≫= f) ++ at_rank r (f (lo + n)).
Proof. unfold at_rank. by rewrite bind_seq_snoc, fmap_app. Qed.

Lemma implements_free {V} (op : V -> V -> V) (dsz N : nat) (build_at : nat -> build unit) (nx : nat -> nat)
    (pre post : nat -> gmap (nat * nat) V -> Prop)
    (gs : list (nat -> list entry)) (cur : nat -> list entry) (nx' : nat -> nat) (al : nat -> list (nat * nat)) :
  0 < dsz ->
  (forall r, r < N -> build_at r (st [] [] (nx r) []) = Ok (tt, st (at_rank r gs) (cur r) (nx' r) (al r))) ->
  (forall r, r < N -> Forall (group_free op dsz) (at_rank r gs) /\ group_free op dsz (cur r)) ->
  (forall ms : nat -> gmap (nat * nat) V,
     (forall r, r < N -> pre r (ms r) /\ Forall (allocated dsz (ms r)) (al r)) ->
     runs op dsz N (gs ++ [cur]) ms post) ->
  implements op dsz N build_at nx pre post.
Proof.
  intros Hd Hb Hok Hrun. exists (fun r => st (at_rank r gs) (cur r) (nx' r) (al r)). split; [done|].
  intros ms Hms. destruct (Hrun ms Hms) as (ms' & Hbsp & Hpost).
  assert (E : forall r, entries (st (at_rank r gs) (cur r) (nx' r) (al r)) =
    sched_of false ((fun g => g r) <$> (gs ++ [cur]))) by (intros r; rewrite entries_st, fmap_app; done).
  eapply (collective_ext op dsz N); [intros r _; symmetry; apply E|].
  eapply bsp_collective_free; [done| |done|done].
  intros r Hr. rewrite <- E. apply groups_race_free; by apply Hok.
Qed.

Lemma implements_intro {V} (op : V -> V -> V) (dsz N : nat) (build_at : nat -> build unit) (nx : nat -> nat)
    (pre post : nat -> gmap (nat * nat) V -> Prop)
    (gs : list (nat -> list entry)) (cur : nat -> list entry) (nx' : nat -> nat) (al : nat -> list (nat * nat)) :
  0 < dsz ->
  (forall r, r < N -> build_at r (st [] [] (nx r) []) = Ok (tt, st (at_rank r gs) (cur r) (nx' r) (al r))) ->
  (forall r, r < N -> Forall (group_ok dsz) (at_rank r gs) /\ group_ok dsz (cur r)) ->
  (forall ms : nat -> gmap (nat * nat) V,
     (forall r, r < N -> pre r (ms r) /\ Forall (allocated dsz (ms r)) (al r)) ->
     runs op dsz N (gs ++ [cur]) ms post) ->
  implements op dsz N build_at nx pre post.
Proof.
  intros Hd Hb Hok. apply (implements_free op dsz N build_at nx pre post gs cur nx' al Hd Hb). intros r Hr. destruct (Hok r Hr) as [H1 H2].
  split; [eapply Forall_impl; [exact H1|]; intros g|]; by apply group_ok_free.
Qed.

(** * A concrete setting for the witnesses: three ranks, 4-byte elements *)

Definition env_ex : ccl_env :=
  {| chunk_count := 3; min_chunk_size := 8; rs_chunk_count := 2; rs_min_chunk_size := 4; check_inplace_aliasing := true;
     allreduce_nreduce_buffering := true; allreduce_nreduce_segment_size := None |}.
Definition send_ex (r : nat) : ccl_buffer := mk_buffer 1 0.
Definition recv_ex (r : nat) : ccl_buffer := mk_buffer 2 0.
Definition nx_ex (r : nat) : nat := 3.
(** Element [i] of rank [r]. *)
Definition x_ex (r i : nat) : nat := 10 * r + i.
