(* ===== verification/Frame.v ===== *)
(** Schedules on part of the memory.

    [start_frame_rule] and [complete_frame_rule] are the frame rules of the entries: what an
    entry does on a memory it does on every larger one, and it leaves the rest alone.
    [collective_safe]: a network that forms a [collective] never meets an entry that is due
    and has no result, an access outside of its memory or a message that does not fit.  With
    both, the runs of a network on its own memory and as part of a larger system correspond. *)

From S2P Require Import Prelude Sched Network Race Bsp.
From stdpp Require Import relations.
Open Scope ccl_scope.

Section frame.
Context {V : Type} (op : V -> V -> V) (dsz : nat).
Abbreviation memory := (gmap (nat * nat) V).
Implicit Types (m : memory) (b : ccl_buffer).

(** * Frame rules *)

Lemma read_frame m f b n vs : read_cells dsz m b n = Some vs -> read_cells dsz (m ∪ f) b n = Some vs.
Proof.
  revert b vs. induction n as [|n IH]; intros b vs; [done|]. cbn. intros (v & Hv & (vs' & Hr & [= <-])%bind_Some)%bind_Some.
  by rewrite (lookup_union_Some_l _ _ _ _ Hv), (IH _ _ Hr).
Qed.

Lemma write_frame m f b vs : write_cells dsz (m ∪ f) b vs = write_cells dsz m b vs ∪ f.
Proof. revert b. induction vs as [|v vs IH]; intros b; [done|]. cbn. by rewrite IH, insert_union_l. Qed.

Lemma store_frame_rule m f b vs m' : store dsz m b vs = Some m' -> store dsz (m ∪ f) b vs = Some (m' ∪ f).
Proof.
  unfold store. destruct (read_cells dsz m b (length vs)) as [ws|] eqn:E; [|done]. intros [= <-]. rewrite (read_frame _ f _ _ _ E). by rewrite write_frame.
Qed.

Lemma copy_frame_rule m f i o n m' : comp_copy dsz m i o n = Some m' -> comp_copy dsz (m ∪ f) i o n = Some (m' ∪ f).
Proof. intros (vs & Hr & Hs)%bind_Some. unfold comp_copy. rewrite (read_frame _ f _ _ _ Hr). by apply store_frame_rule. Qed.

Lemma reduce_frame_rule m f i n io m' : comp_reduce op dsz m i n io = Some m' -> comp_reduce op dsz (m ∪ f) i n io = Some (m' ∪ f).
Proof.
  intros (x & Hx & (y & Hy & Hs)%bind_Some)%bind_Some. unfold comp_reduce. rewrite (read_frame _ f _ _ _ Hx), (read_frame _ f _ _ _ Hy). by apply store_frame_rule.
Qed.

Lemma start_frame_rule e m f m' o : start_entry op dsz e m = Some (m', o) -> start_entry op dsz e (m ∪ f) = Some (m' ∪ f, o).
Proof.
  destruct e; cbn; try (by intros [= <- <-]).
  - intros (vs & Hr & [= <- <-])%bind_Some. by rewrite (read_frame _ f _ _ _ Hr).
  - intros (m1 & H & [= <- <-])%bind_Some. by rewrite (copy_frame_rule _ f _ _ _ _ H).
  - intros (m1 & H & [= <- <-])%bind_Some. by rewrite (reduce_frame_rule _ f _ _ _ _ H).
Qed.

Lemma complete_frame_rule e msg m f m' : complete_entry op dsz e msg m = Some m' -> complete_entry op dsz e msg (m ∪ f) = Some (m' ∪ f).
Proof.
  destruct e as [| |? ? ? ? []| | |]; cbn; try (by intros [= <-]); case_decide; try done.
  - apply store_frame_rule.
  - intros (m1 & H1 & H2)%bind_Some. rewrite (store_frame_rule _ f _ _ _ H1). by apply reduce_frame_rule.
  - intros (m1 & H1 & H2)%bind_Some. rewrite (store_frame_rule _ f _ _ _ H1). by apply reduce_frame_rule.
  - intros (m1 & H1 & H2)%bind_Some. rewrite (store_frame_rule _ f _ _ _ H1). by apply copy_frame_rule.
Qed.

(** * The allocated cells stay the same *)

Lemma read_dom m m' b n : dom m = dom m' -> is_Some (read_cells dsz m b n) -> is_Some (read_cells dsz m' b n).
Proof.
  intros Hd. revert b. induction n as [|n IH]; intros b; cbn; [done|]. intros (vs & (v & Hv & (vs' & Hr & _)%bind_Some)%bind_Some).
  assert (is_Some (m' !! (buf_src b, buf_offset b))) as [v' ->] by (rewrite <- elem_of_dom, <- Hd, elem_of_dom; by exists v).
  destruct (IH (b +b dsz)) as [ws Hw]; [by exists vs'|]. cbn. rewrite Hw. by eexists.
Qed.

Lemma write_dom m b vs : is_Some (read_cells dsz m b (length vs)) -> dom (write_cells dsz m b vs) = dom m.
Proof.
  revert b. induction vs as [|v vs IH]; intros b; cbn; [done|]. intros (ws & (w & Hw & (ws' & Hr & _)%bind_Some)%bind_Some).
  rewrite dom_insert_L, IH by (by exists ws'). apply elem_of_dom_2 in Hw. set_solver.
Qed.

Lemma store_dom m b vs m' : store dsz m b vs = Some m' -> dom m' = dom m.
Proof. unfold store. destruct (read_cells dsz m b (length vs)) eqn:E; [|done]. intros [= <-]. apply write_dom. by rewrite E. Qed.

Lemma copy_dom m i o n m' : comp_copy dsz m i o n = Some m' -> dom m' = dom m.
Proof. intros (vs & _ & Hs)%bind_Some. by eapply store_dom. Qed.

Lemma reduce_dom m i n io m' : comp_reduce op dsz m i n io = Some m' -> dom m' = dom m.
Proof. intros (x & _ & (y & _ & Hs)%bind_Some)%bind_Some. by eapply store_dom. Qed.

Lemma start_dom e m m' o : start_entry op dsz e m = Some (m', o) -> dom m' = dom m.
Proof.
  destruct e; cbn; try (by intros [= <- <-]).
  - by intros (vs & _ & [= <- <-])%bind_Some.
  - intros (m1 & H & [= <- <-])%bind_Some. by eapply copy_dom.
  - intros (m1 & H & [= <- <-])%bind_Some. by eapply reduce_dom.
Qed.

Lemma complete_dom e msg m m' : complete_entry op dsz e msg m = Some m' -> dom m' = dom m.
Proof.
  destruct e as [| |? ? ? ? []| | |]; cbn; try (by intros [= <-]); case_decide; try done.
  - apply store_dom.
  - intros (m1 & H1 & H2)%bind_Some. rewrite (reduce_dom _ _ _ _ _ H2). by eapply store_dom.
  - intros (m1 & H1 & H2)%bind_Some. rewrite (reduce_dom _ _ _ _ _ H2). by eapply store_dom.
  - intros (m1 & H1 & H2)%bind_Some. rewrite (copy_dom _ _ _ _ _ H2). by eapply store_dom.
Qed.

(** Whether an entry has a result depends on the allocated cells only. *)
Lemma store_ok m m' b vs : dom m = dom m' -> is_Some (store dsz m b vs) -> is_Some (store dsz m' b vs).
Proof.
  intros Hd. unfold store. destruct (read_cells dsz m b (length vs)) eqn:E; [|by intros [? ?]]. intros _.
  destruct (read_dom m m' b (length vs) Hd) as [ws ->]; [by rewrite E|]. by eexists.
Qed.

Lemma copy_ok m m' i o n : dom m = dom m' -> is_Some (comp_copy dsz m i o n) -> is_Some (comp_copy dsz m' i o n).
Proof.
  intros Hd (m1 & (vs & Hr & Hs)%bind_Some). unfold comp_copy. destruct (read_dom m m' i n Hd) as [ws Hw]; [by rewrite Hr|]. rewrite Hw. cbn.
  pose proof (read_cells_length _ _ _ _ _ Hr) as L1. pose proof (read_cells_length _ _ _ _ _ Hw) as L2. unfold store in *.
  destruct (read_cells dsz m o (length vs)) eqn:E; [|done]. destruct (read_dom m m' o (length ws) Hd) as [us ->]; [rewrite L2, <- L1, E; done|]. by eexists.
Qed.

Lemma reduce_ok m m' i n io : dom m = dom m' -> is_Some (comp_reduce op dsz m i n io) -> is_Some (comp_reduce op dsz m' i n io).
Proof.
  intros Hd (m1 & (x & Hx & (y & Hy & _)%bind_Some)%bind_Some). unfold comp_reduce.
  destruct (read_dom m m' i n Hd) as [x' Hx']; [by rewrite Hx|]. destruct (read_dom m m' io n Hd) as [y' Hy']; [by rewrite Hy|].
  rewrite Hx', Hy'. cbn. unfold store. rewrite length_zip_with, (read_cells_length _ _ _ _ _ Hx'), (read_cells_length _ _ _ _ _ Hy'), Nat.min_id, Hy'. by eexists.
Qed.

Lemma start_ok e m m' : dom m = dom m' -> is_Some (start_entry op dsz e m) -> is_Some (start_entry op dsz e m').
Proof.
  intros Hd. destruct e; cbn; try done.
  - intros (x & (vs & Hr & _)%bind_Some). destruct (read_dom m m' buf cnt Hd) as [ws ->]; [by rewrite Hr|]. by eexists.
  - intros (x & (m1 & H & _)%bind_Some). destruct (copy_ok m m' in_buf out_buf count Hd) as [m2 ->]; [by rewrite H|]. by eexists.
  - intros (x & (m1 & H & _)%bind_Some). destruct (reduce_ok m m' in_buf in_cnt inout_buf Hd) as [m2 ->]; [by rewrite H|]. by eexists.
Qed.

Lemma then_ok (g h : memory -> option memory) m m' : (forall m m', dom m = dom m' -> is_Some (g m) -> is_Some (g m')) ->
  (forall m m', dom m = dom m' -> is_Some (h m) -> is_Some (h m')) -> (forall m m1, g m = Some m1 -> dom m1 = dom m) ->
  dom m = dom m' -> is_Some (m1 ← g m; h m1) -> is_Some (m1 ← g m'; h m1).
Proof.
  intros Hg Hh Hgd Hd (x & (m1 & H1 & H2)%bind_Some). destruct (Hg m m' Hd) as [m1' E]; [by rewrite H1|]. rewrite E. cbn.
  apply (Hh m1); [|by rewrite H2]. by rewrite (Hgd _ _ H1), (Hgd _ _ E).
Qed.

Lemma complete_ok e msg m m' : dom m = dom m' -> is_Some (complete_entry op dsz e msg m) -> is_Some (complete_entry op dsz e msg m').
Proof.
  intros Hd. destruct e as [| |? ? ? ? []| | |]; cbn; try done; case_decide; try done.
  - by apply store_ok.
  - apply (then_ok (fun m => store dsz m comm_buf msg) (fun m1 => comp_reduce op dsz m1 comm_buf in_cnt inout_buf));
      [intros; by eapply store_ok|intros; by eapply reduce_ok|intros; by eapply store_dom|done].
  - apply (then_ok (fun m => store dsz m comm_buf msg) (fun m1 => comp_reduce op dsz m1 inout_buf in_cnt comm_buf));
      [intros; by eapply store_ok|intros; by eapply reduce_ok|intros; by eapply store_dom|done].
  - apply (then_ok (fun m => store dsz m recv_buf msg) (fun m1 => comp_copy dsz m1 recv_buf copy_buf cnt));
      [intros; by eapply store_ok|intros; by eapply copy_ok|intros; by eapply store_dom|done].
Qed.

(** * A collective meets no entry without a result *)

Section safe.
Context (rdv : bool).
Implicit Types g : @gstate V.

Definition with_mem (m : memory) (rs : @rstate V) : rstate := mk_rstate m (r_pend rs) (r_bar rs) (r_todo rs).

(** Rank [me] is due to do what has no result. *)
Definition blocked (me : nat) g : Prop := exists rs l ch f msg c1,
  g_ranks g !! me = Some rs /\ rank_step op dsz rdv me l rs = Some (ch, f) /\ pop_opt [] ch (g_chans g) = Some (msg, c1) /\ f msg = None.

Lemma blocked_other me me' l' g g' : me <> me' -> blocked me g -> try_step op dsz rdv me' l' g = Some g' -> blocked me g'.
Proof.
  intros Hne (rs & l & ch & f & msg & c1 & H1 & H2 & H3 & H4) (rs' & ch' & f' & msg' & c1' & rs1 & out & S1 & S2 & S3 & S4 & ->)%try_step_inv.
  destruct (rank_step_chans _ _ _ _ _ _ _ _ H2) as [K1 _]. destruct (rank_step_chans _ _ _ _ _ _ _ _ S2) as [K2 _].
  destruct (pop_pop_opt [] ch msg ch' msg' (g_chans g) c1 c1') as (c3 & _ & E); [|done|done|].
  { intros x -> ->. apply Hne. by rewrite <- (K1 x), <- (K2 x). }
  exists rs, l, ch, f, msg, (push_opt out c3). cbn. rewrite list_lookup_insert_ne by done. split_and!; try done. by apply pop_push_opt.
Qed.

Lemma start_none e m m' : dom m = dom m' -> start_entry op dsz e m = None -> start_entry op dsz e m' = None.
Proof. intros Hd H. apply eq_None_not_Some. intros Hs. apply (start_ok e m' m) in Hs; [|done]. rewrite H in Hs. by destruct Hs. Qed.

Lemma complete_none e msg m m' : dom m = dom m' -> complete_entry op dsz e msg m = None -> complete_entry op dsz e msg m' = None.
Proof. intros Hd H. apply eq_None_not_Some. intros Hs. apply (complete_ok e msg m' m) in Hs; [|done]. rewrite H in Hs. by destruct Hs. Qed.

Lemma bind_None_inv {A B} (o : option A) (k : A -> B) : (a ← o; Some (k a)) = None -> o = None.
Proof. by destruct o. Qed.

Lemma blocked_same me l l' rs ch f ch' f' msg msg' c c1 c1' rs1 out :
  rank_step op dsz rdv me l rs = Some (ch, f) -> pop_opt [] ch c = Some (msg, c1) -> f msg = None ->
  rank_step op dsz rdv me l' rs = Some (ch', f') -> pop_opt [] ch' c = Some (msg', c1') -> f' msg' = Some (rs1, out) ->
  exists l2 f2 c2, rank_step op dsz rdv me l2 rs1 = Some (ch, f2) /\ pop_opt [] ch (push_opt out c1') = Some (msg, c2) /\ f2 msg = None.
Proof.
  intros H2 H3 H4 S2 S3 S4. destruct l as [|i], l' as [|j]; cbn in H2, S2.
  - rewrite H2 in S2. injection S2 as <- <-. rewrite H3 in S3. injection S3 as <- <-. congruence.
  - destruct (r_todo rs) as [|[e b] todo] eqn:Et; [done|]. destruct (r_bar rs && _) eqn:Eb; [done|]. injection H2 as <- <-.
    destruct (r_pend rs !! j) as [e'|] eqn:Ej; [|done]. destruct (forallb _ _); [|done]. injection S2 as <- <-.
    apply bind_Some in S4 as (m' & Hc & [= <- <-]). cbn in H3. injection H3 as <- <-.
    assert (r_bar rs = false) as Hbar. { destruct (r_bar rs); [|done]. cbn in Eb. apply bool_decide_eq_false, dec_stable in Eb. by rewrite Eb in Ej. }
    exists LStart. eexists _, _. cbn. rewrite ?Et, Hbar. cbn. split_and!; [done|done|].
    destruct (start_entry op dsz e (r_mem rs)) as [[]|] eqn:Es; [done|]. by rewrite (start_none e (r_mem rs) m'); [|symmetry; by eapply complete_dom|].
  - destruct (r_todo rs) as [|[e b] todo] eqn:Et; [done|]. destruct (r_bar rs && _) eqn:Eb; [done|]. injection S2 as <- <-.
    destruct (r_pend rs !! i) as [e'|] eqn:Ei; [|done]. destruct (forallb _ _) eqn:Ef; [|done]. injection H2 as <- <-.
    apply bind_Some in S4 as ([m' o] & Hst & [= <- <-]). cbn in S3. injection S3 as <- <-. pose proof (lookup_lt_Some _ _ _ Ei).
    exists (LComplete i). eexists _, _. cbn. replace ((if is_async e then r_pend rs ++ [e] else r_pend rs) !! i) with (Some e') by (destruct (is_async e); [by rewrite lookup_app_l|done]).
    replace (take i (if is_async e then r_pend rs ++ [e] else r_pend rs)) with (take i (r_pend rs)) by (destruct (is_async e); [by rewrite take_app_le by lia|done]).
    rewrite Ef. split_and!; [done|by apply pop_push_opt|]. apply bind_None_inv in H4. cbv beta. by rewrite (complete_none e' msg (r_mem rs) m'); [|symmetry; by eapply start_dom|].
  - destruct (r_pend rs !! i) as [e|] eqn:Ei; [|done]. destruct (forallb _ (take i _)) eqn:Ef; [|done]. injection H2 as <- <-.
    destruct (r_pend rs !! j) as [e'|] eqn:Ej; [|done]. destruct (forallb _ (take j _)) eqn:Ef'; [|done]. injection S2 as <- <-.
    destruct (decide (i = j)) as [->|Hne].
    { rewrite Ei in Ej. injection Ej as <-. rewrite H3 in S3. injection S3 as <- <-. congruence. }
    apply bind_Some in S4 as (m' & Hc & [= <- <-]). apply bind_None_inv in H4.
    assert (Hd : complete_entry op dsz e msg m' = None) by (eapply complete_none; [|exact H4]; symmetry; by eapply complete_dom).
    destruct (pop_pop_opt [] (in_chan rdv me e) msg (in_chan rdv me e') msg' c c1 c1') as (c3 & _ & E); [|done|done|].
    { intros x Hx Hx'. destruct (decide (j < i)).
      - eapply (fifo_in_chan rdv me e (take i (r_pend rs)) j e' x); [exact Ef|by rewrite lookup_take_lt|done|done].
      - eapply (fifo_in_chan rdv me e' (take j (r_pend rs)) i e x); [exact Ef'|rewrite lookup_take_lt by lia; done|done|done]. }
    destruct (decide (j < i)).
    + exists (LComplete (i - 1)). eexists _, _. cbn. rewrite list_lookup_delete_ge by lia. replace (S (i - 1)) with i by lia. rewrite Ei, list_take_delete_lt by done.
      rewrite forallb_delete by done. split_and!; [done|by apply pop_push_opt|]. cbv beta. by rewrite Hd.
    + exists (LComplete i). eexists _, _. cbn. rewrite list_lookup_delete_lt by lia. rewrite Ei, list_take_delete_ge by lia. rewrite Ef.
      split_and!; [done|by apply pop_push_opt|]. cbv beta. by rewrite Hd.
Qed.

Lemma blocked_step me g g' : blocked me g -> gstep op dsz rdv g g' -> blocked me g'.
Proof.
  intros Hb (me' & l' & Hs). destruct (decide (me = me')) as [<-|Hne]; [|by eapply blocked_other].
  destruct Hb as (rs & l & ch & f & msg & c1 & H1 & H2 & H3 & H4). apply try_step_inv in Hs as (rs' & ch' & f' & msg' & c1' & rs1 & out & S1 & S2 & S3 & S4 & ->).
  rewrite H1 in S1. injection S1 as <-. destruct (blocked_same _ _ _ _ _ _ _ _ _ _ _ _ _ _ _ H2 H3 H4 S2 S3 S4) as (l2 & f2 & c2 & E1 & E2 & E3).
  exists rs1, l2, ch, f2, msg, c2. cbn. rewrite list_lookup_insert_eq by (by eapply lookup_lt_Some). done.
Qed.

Lemma blocked_unfinished me g : blocked me g -> ~ finished g.
Proof.
  intros (rs & l & ch & f & msg & c1 & H1 & H2 & _) Hf. unfold finished in Hf. rewrite Forall_lookup in Hf. destruct (Hf _ _ H1) as [Hp Ht].
  destruct l; cbn in H2; [by rewrite Ht in H2|by rewrite Hp in H2].
Qed.

Lemma collective_safe (N : nat) (prog : nat -> list (entry * bool)) (ms : nat -> memory) (post : nat -> memory -> Prop) (k : nat) g (me : nat) : collective op dsz N prog ms post ->
  nsteps (gstep op dsz rdv) k (init_net N prog ms) g -> ~ blocked me g.
Proof.
  intros [bound H]. remember (bound - k) as d eqn:Ed. revert k g Ed. induction d as [|d IH]; intros k g Ed Hn Hb.
  - destruct (H rdv k g Hn) as (Hk & [Hf|[g' Hg]] & _); [by eapply blocked_unfinished|].
    destruct (H rdv (S k) g') as (Hk' & _); [by eapply nsteps_r|]. lia.
  - destruct (H rdv k g Hn) as (Hk & [Hf|[g' Hg]] & _); [by eapply blocked_unfinished|].
    eapply (IH (S k) g'); [lia|by eapply nsteps_r|by eapply blocked_step].
Qed.
End safe.
End frame.
