(* ===== verification/Par.v ===== *)
(** Schedules of one rank that run side by side.

    A collective may be split into sub-schedules ([subsched_entry] of
    [src/src/sched/entry/subsched_entry.hpp]) or into partial schedules of several
    workers ([src/src/parallelizer/parallelizer.cpp]).  Each has its own op id or
    schedule id, hence its own message tags; they share the memory of the rank.

    A rank first runs its local entries ([p_pre], the copies in front of the
    sub-schedules) and then, interleaved in any way, one schedule of each of several
    networks.  [par_frame]: networks that are collectives on their own, on separate parts
    of the memories, are a collective together. *)

From S2P Require Import Prelude Sched Network Race Bsp Frame.
From stdpp Require Import relations.
Open Scope ccl_scope.

Section par.
Context {V : Type} (op : V -> V -> V) (dsz : nat).
Abbreviation memory := (gmap (nat * nat) V).
Abbreviation region := (ccl_buffer * nat)%type.

(** * Steps *)

Record pstate := mk_pstate { p_mems : list memory; p_pre : list (list entry); p_nets : list (@gstate V) }.

(** A network sees the memories of the ranks. *)
Definition load (mems : list memory) (g : @gstate V) : gstate := mk_gstate (zip_with with_mem mems (g_ranks g)) (g_chans g).

Inductive pstep (rdv : bool) : pstate -> pstate -> Prop :=
| p_local ps r e es m m' : p_pre ps !! r = Some (e :: es) -> p_mems ps !! r = Some m -> is_async e = false ->
    start_entry op dsz e m = Some (m', None) ->
    pstep rdv ps (mk_pstate (<[r:=m']> (p_mems ps)) (<[r:=es]> (p_pre ps)) (p_nets ps))
| p_net ps k g me l g' : p_nets ps !! k = Some g -> p_pre ps !! me = Some [] ->
    try_step op dsz rdv me l (load (p_mems ps) g) = Some g' ->
    pstep rdv ps (mk_pstate (r_mem <$> g_ranks g') (p_pre ps) (<[k:=g']> (p_nets ps))).

Definition pfinished (ps : pstate) : Prop := Forall (fun l => l = []) (p_pre ps) /\ Forall finished (p_nets ps).

Definition init_par (N K : nat) (pre : nat -> list entry) (prog : nat -> nat -> list (entry * bool)) (ms : nat -> memory) : pstate :=
  mk_pstate (ms <$> seq 0 N) (pre <$> seq 0 N) ((fun k => init_net N (prog k) ms) <$> seq 0 K).

(** The guarantee of [collective], for schedules side by side. *)
Definition par_collective (N K : nat) (pre : nat -> list entry) (prog : nat -> nat -> list (entry * bool)) (ms : nat -> memory)
    (post : nat -> memory -> Prop) : Prop :=
  exists bound, forall rdv n ps, nsteps (pstep rdv) n (init_par N K pre prog ms) ps ->
    n <= bound /\ (pfinished ps \/ exists ps', pstep rdv ps ps') /\
    (pfinished ps -> forall r, r < N -> exists m, p_mems ps !! r = Some m /\ post r m).

Lemma par_weaken (N K : nat) (pre : nat -> list entry) (prog : nat -> nat -> list (entry * bool)) (ms : nat -> memory) (post post' : nat -> memory -> Prop) : (forall r m, r < N -> post r m -> post' r m) ->
  par_collective N K pre prog ms post -> par_collective N K pre prog ms post'.
Proof.
  intros Hp [bound H]. exists bound. intros rdv n ps Hn. destruct (H rdv n ps Hn) as (H1 & H2 & H3). split_and!; [done|done|].
  intros Hf r Hr. destruct (H3 Hf r Hr) as (m & Hm & Hpm). eauto.
Qed.

Lemma sum_list_update {A} (f : A -> nat) l i x y : l !! i = Some x -> sum_list (f <$> <[i:=y]> l) + f x = sum_list (f <$> l) + f y.
Proof.
  revert i. induction l as [|z l IH]; intros [|i] Hi; csimpl in *; try done; [injection Hi as ->; lia|]. specialize (IH i Hi). lia.
Qed.

Lemma sum_list_bump cnt k K : k < K -> sum_list ((fun j => if decide (j = k) then S (cnt j) else cnt j) <$> seq 0 K) = S (sum_list (cnt <$> seq 0 K)).
Proof.
  intros Hk. replace ((fun j => if decide (j = k) then S (cnt j) else cnt j) <$> seq 0 K) with (id <$> <[k:=S (cnt k)]> (cnt <$> seq 0 K)).
  - pose proof (sum_list_update id (cnt <$> seq 0 K) k (cnt k) (S (cnt k))) as H. rewrite (list_fmap_id (cnt <$> seq 0 K)) in H.
    rewrite list_lookup_fmap, lookup_seq_lt in H by done. specialize (H eq_refl). unfold id in *. lia.
  - rewrite list_fmap_id. apply list_eq. intros j. destruct (decide (j = k)) as [->|Hne].
    + rewrite list_lookup_insert_eq by (by rewrite length_fmap, length_seq). rewrite list_lookup_fmap, lookup_seq_lt by done. cbn. by rewrite decide_True.
    + rewrite list_lookup_insert_ne, !list_lookup_fmap by done. destruct (seq 0 K !! j) as [x|] eqn:E; [|done]. cbn. apply lookup_seq in E as [-> _].
      by rewrite decide_False.
Qed.

(** The local entries of a rank. *)
Fixpoint local_run (es : list entry) (m : memory) : option memory :=
  match es with
  | [] => Some m
  | e :: es' => '(m', o) ← start_entry op dsz e m; match o with None => local_run es' m' | Some _ => None end
  end.

(** * The shared run follows a run of each network *)

Section composition.
Context (N K : nat) (pre : nat -> list entry) (prog : nat -> nat -> list (entry * bool)) (ms ms1 : nat -> memory)
  (mk : nat -> nat -> memory) (post : nat -> nat -> memory -> Prop).
Context (Hpre : forall r, r < N -> Forall (fun e => is_async e = false) (pre r) /\ local_run (pre r) (ms r) = Some (ms1 r))
  (Hsub : forall k r, k < K -> r < N -> mk k r ⊆ ms1 r)
  (Hdisj : forall k j r, k < K -> j < K -> k <> j -> r < N -> mk k r ##ₘ mk j r)
  (Hcol : forall k, k < K -> collective op dsz N (prog k) (mk k) (post k)).

(** Rank [r] has [es] of its local entries left, its memory is [m] and in network [k] its memory is [m0]. *)
Record rank_inv (r k : nat) (es : list entry) (m m0 : memory) : Prop := mk_rank_inv {
  ri_dom : dom m0 = dom (mk k r);
  ri_wait : es <> [] -> m0 = mk k r;
  ri_sub : es = [] -> m0 ⊆ m }.

Record pinv (rdv : bool) (n : nat) (ps : pstate) (q : nat) (cnt : nat -> nat) (solo : nat -> @gstate V) : Prop := mk_pinv {
  pi_count : n = q + sum_list (cnt <$> seq 0 K);
  pi_local : q + sum_list (length <$> p_pre ps) = sum_list ((fun r => length (pre r)) <$> seq 0 N);
  pi_mems : length (p_mems ps) = N;
  pi_pre : length (p_pre ps) = N;
  pi_nets : length (p_nets ps) = K;
  pi_solo : forall k, k < K -> nsteps (gstep op dsz rdv) (cnt k) (init_net N (prog k) (mk k)) (solo k) /\ length (g_ranks (solo k)) = N;
  pi_ctl : forall k g, p_nets ps !! k = Some g -> g_chans g = g_chans (solo k) /\ length (g_ranks g) = N /\
    forall r rs, g_ranks g !! r = Some rs -> exists m, g_ranks (solo k) !! r = Some (with_mem m rs);
  pi_ranks : forall r es m, p_pre ps !! r = Some es -> p_mems ps !! r = Some m ->
    Forall (fun e => is_async e = false) es /\ (es <> [] -> local_run es m = Some (ms1 r)) /\
    (es = [] -> forall c, (forall k, k < K -> mk k r !! c = None) -> m !! c = ms1 r !! c) /\
    forall k rs, k < K -> g_ranks (solo k) !! r = Some rs -> rank_inv r k es m (r_mem rs) }.

Lemma pinv_init rdv : exists q cnt solo, pinv rdv 0 (init_par N K pre prog ms) q cnt solo.
Proof using Hpre Hsub.
  exists 0, (fun _ => 0), (fun k => init_net N (prog k) (mk k)). constructor; cbn; rewrite ?length_fmap, ?length_seq; try done.
  - induction (seq 0 K); cbn; done.
  - f_equal. rewrite <- list_fmap_compose. done.
  - intros k Hk. split; [constructor|]. by rewrite length_fmap, length_seq.
  - intros k g Hg. rewrite list_lookup_fmap in Hg. apply fmap_Some in Hg as (k' & [-> Hk]%lookup_seq & ->). cbn.
    split; [done|]. split; [by rewrite length_fmap, length_seq|]. intros r rs Hrs. rewrite list_lookup_fmap in *.
    apply fmap_Some in Hrs as (r' & [-> Hr]%lookup_seq & ->). rewrite lookup_seq_lt by done. cbn. by exists (mk k r).
  - intros r es m He Hm. rewrite list_lookup_fmap in He. rewrite list_lookup_fmap in Hm. apply fmap_Some in He as (r' & [-> Hr]%lookup_seq & ->).
    rewrite lookup_seq_lt in Hm by done. injection Hm as <-. destruct (Hpre r Hr) as [Ha Hl].
    assert (Hnil : pre r = [] -> ms r = ms1 r) by (intros E; rewrite E in Hl; by injection Hl).
    split_and!; try done; [intros E c _; by rewrite Hnil|]. intros k rs Hk Hrs. rewrite list_lookup_fmap in Hrs.
    apply fmap_Some in Hrs as (r' & [-> _]%lookup_seq & ->). constructor; cbn; [done|done|]. intros E. rewrite Hnil by done. by apply Hsub.
Qed.

Lemma pinv_local rdv n ps q cnt solo r e es m m' : pinv rdv n ps q cnt solo -> p_pre ps !! r = Some (e :: es) -> p_mems ps !! r = Some m ->
  start_entry op dsz e m = Some (m', None) ->
  pinv rdv (S n) (mk_pstate (<[r:=m']> (p_mems ps)) (<[r:=es]> (p_pre ps)) (p_nets ps)) (S q) cnt solo.
Proof using Hsub.
  intros [] He Hm Hst. pose proof (lookup_lt_Some _ _ _ He). pose proof (lookup_lt_Some _ _ _ Hm).
  constructor; cbn; rewrite ?length_insert; try done; [lia| |].
  - pose proof (sum_list_update length (p_pre ps) r (e :: es) es He). cbn in *. lia.
  - intros x es' m1 He' Hm'. destruct (decide (x = r)) as [->|Hne].
    + rewrite list_lookup_insert_eq in He' by done. rewrite list_lookup_insert_eq in Hm' by done. injection He' as <-. injection Hm' as <-.
      destruct (pi_ranks0 r _ _ He Hm) as (Ha & Hl & _ & Hr). apply Forall_cons in Ha as [_ Ha]. specialize (Hl ltac:(done)). cbn in Hl. rewrite Hst in Hl. cbn in Hl.
      assert (Hnil : es = [] -> m' = ms1 r) by (intros ->; by injection Hl).
      split_and!; try done; [intros E c _; by rewrite Hnil|]. intros k rs Hk Hrs. destruct (Hr k rs Hk Hrs). specialize (ri_wait0 ltac:(done)).
      constructor; try done. intros E. rewrite ri_wait0, Hnil by done. apply Hsub; [done|lia].
    + rewrite list_lookup_insert_ne in He' by done. rewrite list_lookup_insert_ne in Hm' by done. by apply pi_ranks0.
Qed.

Lemma load_rank mems (g : @gstate V) r m rs : mems !! r = Some m -> g_ranks g !! r = Some rs -> g_ranks (load mems g) !! r = Some (with_mem m rs).
Proof. intros Hm Hr. cbn. by rewrite lookup_zip_with, Hm, Hr. Qed.

(** The memories after a step of rank [me] in a network. *)
Lemma load_mems mems (g : @gstate V) me rs : length mems = length (g_ranks g) ->
  r_mem <$> <[me:=rs]> (zip_with with_mem mems (g_ranks g)) = <[me:=r_mem rs]> mems.
Proof.
  intros Hl. rewrite list_fmap_insert. f_equal. revert Hl. generalize (g_ranks g). induction mems as [|m mems IH]; intros [|x l] Hl; cbn in *; try done.
  f_equal. apply IH. lia.
Qed.

(** A step of a rank on its own part of the memory is a step on all of it. *)
Lemma rank_step_frame rdv me l rs m0 f0 ch f msg rs1 out :
  rank_step op dsz rdv me l (with_mem m0 rs) = Some (ch, f) -> f msg = Some (rs1, out) ->
  dom (r_mem rs1) = dom m0 /\
  exists f', rank_step op dsz rdv me l (with_mem (m0 ∪ f0) rs) = Some (ch, f') /\ f' msg = Some (with_mem (r_mem rs1 ∪ f0) rs1, out).
Proof.
  intros Hs Hf. destruct l as [|i]; cbn in *.
  - destruct (r_todo rs) as [|[e b] todo]; [done|]. destruct (r_bar rs && _); [done|]. injection Hs as <- <-.
    apply bind_Some in Hf as ([m' o] & Hst & [= <- <-]). split; [by eapply start_dom|]. eexists. split; [done|]. cbn. by rewrite (start_frame_rule _ _ _ _ f0 _ _ Hst).
  - destruct (r_pend rs !! i) as [e|]; [|done]. destruct (forallb _ _); [|done]. injection Hs as <- <-.
    apply bind_Some in Hf as (m' & Hc & [= <- <-]). split; [by eapply complete_dom|]. eexists. split; [done|]. cbn. by rewrite (complete_frame_rule _ _ _ _ _ f0 _ Hc).
Qed.

Lemma rank_step_mem rdv me l rs m0 m1 ch f : rank_step op dsz rdv me l (with_mem m0 rs) = Some (ch, f) ->
  exists f', rank_step op dsz rdv me l (with_mem m1 rs) = Some (ch, f').
Proof. destruct l; cbn; repeat case_match; intros [= <- <-]; by eexists. Qed.

(** A step of network [k] in the shared memory is a step of its own run. *)
Lemma net_step_solo rdv n ps q cnt solo k g me l g' : pinv rdv n ps q cnt solo -> p_nets ps !! k = Some g -> p_pre ps !! me = Some [] ->
  try_step op dsz rdv me l (load (p_mems ps) g) = Some g' ->
  exists m rs m0 rs1 m1, p_mems ps !! me = Some m /\ g_ranks (solo k) !! me = Some (with_mem m0 rs) /\
    gstep op dsz rdv (solo k) (mk_gstate (<[me:=with_mem m1 rs1]> (g_ranks (solo k))) (g_chans g')) /\
    g_ranks g' = <[me:=with_mem (m1 ∪ (m ∖ m0)) rs1]> (zip_with with_mem (p_mems ps) (g_ranks g)) /\ dom m1 = dom m0.
Proof using Hcol.
  intros [] Hg Hp (rs0 & ch & f & msg & c1 & rs1 & out & H1 & H2 & H3 & H4 & ->)%try_step_inv.
  pose proof (lookup_lt_Some _ _ _ Hg) as Hk. rewrite pi_nets0 in Hk. pose proof (lookup_lt_Some _ _ _ Hp) as Hme. rewrite pi_pre0 in Hme.
  destruct (lookup_lt_is_Some_2 (p_mems ps) me) as [m Hm]; [lia|]. destruct (pi_ctl0 k g Hg) as (Hch & Hlen & Hctl).
  destruct (lookup_lt_is_Some_2 (g_ranks g) me) as [rs Hrs]; [lia|]. rewrite (load_rank _ _ _ _ _ Hm Hrs) in H1. injection H1 as <-.
  destruct (Hctl me rs Hrs) as [m0 Hso]. destruct (pi_ranks0 me [] m Hp Hm) as (_ & _ & _ & Hr). destruct (Hr k _ Hk Hso) as [_ _ Hs]. specialize (Hs eq_refl). cbn in Hs.
  destruct (rank_step_mem _ _ _ _ _ m0 _ _ H2) as [f0 H2']. cbn in H3. rewrite Hch in H3. destruct (f0 msg) as [[rs2 out2]|] eqn:Ef.
  - destruct (rank_step_frame _ _ _ _ _ (m ∖ m0) _ _ _ _ _ H2' Ef) as (Hd & f' & E1 & E2). rewrite map_difference_union in E1 by done. rewrite H2 in E1. injection E1 as <-.
    rewrite H4 in E2. injection E2 as -> ->. exists m, rs, m0, rs2, (r_mem rs2). cbn. split_and!; try done.
    exists me, l. destruct rs2. eapply try_step_intro; [exact Hso|exact H2'|exact H3|exact Ef].
  - exfalso. destruct (pi_solo0 k Hk) as [Hn _]. apply (collective_safe op dsz rdv N (prog k) (mk k) (post k) _ _ me (Hcol k Hk) Hn).
    by exists (with_mem m0 rs), l, ch, f0, msg, c1.
Qed.

Lemma union_sub (m m0 m1 : memory) mj : m0 ⊆ m -> dom m1 = dom m0 -> mj ⊆ m -> mj ##ₘ m0 -> mj ⊆ m1 ∪ (m ∖ m0).
Proof.
  intros Hs Hd Hj Hdj. rewrite map_subseteq_spec. intros c v Hc. rewrite map_disjoint_alt in Hdj. destruct (Hdj c) as [E|E]; [congruence|].
  apply lookup_union_Some_raw. right. split.
  - apply not_elem_of_dom. rewrite Hd. by apply not_elem_of_dom.
  - apply lookup_difference_Some. split; [|done]. rewrite map_subseteq_spec in Hj. by apply Hj.
Qed.

Lemma dom_disjoint (m m1 m2 m3 : memory) : dom m = dom m2 -> dom m1 = dom m3 -> m2 ##ₘ m3 -> m ##ₘ m1.
Proof. intros H1 H2. rewrite !map_disjoint_dom. by rewrite H1, H2. Qed.

Lemma pinv_net rdv n ps q cnt solo k g me l g' : pinv rdv n ps q cnt solo -> p_nets ps !! k = Some g -> p_pre ps !! me = Some [] ->
  try_step op dsz rdv me l (load (p_mems ps) g) = Some g' ->
  exists cnt' solo', pinv rdv (S n) (mk_pstate (r_mem <$> g_ranks g') (p_pre ps) (<[k:=g']> (p_nets ps))) q cnt' solo'.
Proof using Hcol Hdisj.
  intros Hi Hg Hp Hs. destruct (net_step_solo _ _ _ _ _ _ _ _ _ _ _ Hi Hg Hp Hs) as (m & rs & m0 & rs1 & m1 & Hm & Hso & Hst & Hgr & Hdom).
  destruct Hi. pose proof (lookup_lt_Some _ _ _ Hg) as Hk. rewrite pi_nets0 in Hk. pose proof (lookup_lt_Some _ _ _ Hp) as Hme. rewrite pi_pre0 in Hme.
  destruct (pi_ctl0 k g Hg) as (Hch & Hlen & Hctl). rewrite Hgr, load_mems by lia. cbn [r_mem with_mem].
  destruct (pi_ranks0 me [] m Hp Hm) as (P1 & P2 & P3 & P4). destruct (P4 k _ Hk Hso) as [Hd0 _ Hs0]. specialize (Hs0 eq_refl). cbn in Hd0, Hs0.
  exists (fun j => if decide (j = k) then S (cnt j) else cnt j),
    (fun j => if decide (j = k) then mk_gstate (<[me:=with_mem m1 rs1]> (g_ranks (solo k))) (g_chans g') else solo j).
  constructor; cbn; rewrite ?length_insert; try done.
  - rewrite sum_list_bump by done. lia.
  - intros j Hj. destruct (pi_solo0 j Hj) as [Hn Hl]. case_decide as E; [subst j|done]. cbn. rewrite length_insert. split; [|done]. by eapply nsteps_r.
  - intros j gj Hgj. case_decide as E; [subst j|].
    + rewrite list_lookup_insert_eq in Hgj by lia. injection Hgj as <-. cbn. split; [done|]. rewrite Hgr, length_insert. cbn.
      rewrite length_zip_with, Hlen, pi_mems0. split; [lia|]. intros r rs' Hr'. destruct (decide (r = me)) as [->|Hne].
      * rewrite list_lookup_insert_eq in Hr' by (rewrite length_zip_with; lia). injection Hr' as <-. exists m1.
        rewrite list_lookup_insert_eq by (by destruct (pi_solo0 k Hk) as [_ ->]). done.
      * rewrite list_lookup_insert_ne in Hr' by done. rewrite lookup_zip_with in Hr'. destruct (p_mems ps !! r) as [mr|]; [|done]. cbn in Hr'.
        destruct (g_ranks g !! r) as [rr|] eqn:Er; [|done]. injection Hr' as <-. destruct (Hctl r rr Er) as [mo Ho].
        exists mo. rewrite list_lookup_insert_ne by done. exact Ho.
    + rewrite list_lookup_insert_ne in Hgj by done. by apply pi_ctl0.
  - intros r es m' He Hm'. destruct (decide (r = me)) as [->|Hne].
    + rewrite list_lookup_insert_eq in Hm' by lia. injection Hm' as <-. rewrite Hp in He. injection He as <-. split_and!; [done|done| |].
      * intros _ c Hc. rewrite <- P3 by done. specialize (Hc k Hk). apply not_elem_of_dom in Hc. rewrite <- Hd0 in Hc.
        assert (E0 : m0 !! c = None) by (by apply not_elem_of_dom). rewrite lookup_union_r by (apply not_elem_of_dom; by rewrite Hdom). by rewrite lookup_difference, E0.
      * intros j rsj Hj Hrj. case_decide as E; [subst j|].
        -- cbn in Hrj. rewrite list_lookup_insert_eq in Hrj by (by destruct (pi_solo0 k Hk) as [_ ->]). injection Hrj as <-. constructor; cbn; [congruence|done|].
           intros _. apply map_union_subseteq_l.
        -- destruct (P4 j rsj Hj Hrj) as [Hdj _ Hsj]. constructor; [done|done|]. intros _. apply union_sub; [done|done|by apply Hsj|].
           eapply dom_disjoint; [exact Hdj|exact Hd0|]. by apply Hdisj.
    + rewrite list_lookup_insert_ne in Hm' by done. destruct (pi_ranks0 r es m' He Hm') as (H1 & H2 & H3 & H4). split_and!; try done.
      intros j rsj Hj Hrj. case_decide as E; [subst j|by apply H4]. cbn in Hrj. rewrite list_lookup_insert_ne in Hrj by done. by apply H4.
Qed.

Lemma reach_pinv rdv n ps : nsteps (pstep rdv) n (init_par N K pre prog ms) ps -> exists q cnt solo, pinv rdv n ps q cnt solo.
Proof using Hcol Hdisj Hpre Hsub.
  revert ps. induction n as [|n IH]; intros ps Hn; [inv Hn; apply pinv_init|].
  apply nsteps_inv_r in Hn as (ps0 & Hn & Hs). destruct (IH ps0 Hn) as (q & cnt & solo & Hi). destruct Hs.
  - eexists _, _, _. by eapply pinv_local.
  - eexists q. by eapply pinv_net.
Qed.

(** A network that can step on its own memory can step in the shared one. *)
Lemma solo_step_net rdv n ps q cnt solo k g0 : pinv rdv n ps q cnt solo -> k < K -> Forall (fun l => l = []) (p_pre ps) ->
  gstep op dsz rdv (solo k) g0 -> exists ps', pstep rdv ps ps'.
Proof.
  intros [] Hk Hp (me & l & (rs & ch & f & msg & c1 & rs1 & out & H1 & H2 & H3 & H4 & ->)%try_step_inv).
  destruct (lookup_lt_is_Some_2 (p_nets ps) k) as [g Hg]; [lia|]. destruct (pi_ctl0 k g Hg) as (Hch & Hlen & Hctl).
  pose proof (lookup_lt_Some _ _ _ H1) as Hme. destruct (pi_solo0 k Hk) as [_ Hls]. rewrite Hls in Hme.
  destruct (lookup_lt_is_Some_2 (p_pre ps) me) as [es Hes]; [lia|]. rewrite Forall_lookup in Hp. pose proof (Hp _ _ Hes) as ->.
  destruct (lookup_lt_is_Some_2 (p_mems ps) me) as [m Hm]; [lia|]. destruct (lookup_lt_is_Some_2 (g_ranks g) me) as [rg Hrg]; [lia|].
  destruct (Hctl me rg Hrg) as [mo Ho]. rewrite H1 in Ho. injection Ho as ->.
  destruct (pi_ranks0 me [] m Hes Hm) as (_ & _ & _ & Hr). destruct (Hr k _ Hk H1) as [_ _ Hs]. specialize (Hs eq_refl). cbn in Hs.
  destruct (rank_step_frame rdv me l rg mo (m ∖ mo) ch f msg rs1 out H2 H4) as (_ & f' & Hs' & Hf'). rewrite map_difference_union in Hs' by done.
  eexists. eapply (p_net rdv ps k g me l); [done|done|].
  eapply try_step_intro; [apply (load_rank _ _ _ _ _ Hm Hrg)|exact Hs'|cbn; rewrite Hch; exact H3|exact Hf'].
Qed.

Lemma choose_below (n : nat) (P : nat -> nat -> Prop) : (forall k, k < n -> exists b, P k b) -> exists f, forall k, k < n -> P k (f k).
Proof.
  induction n as [|n IH]; intros H; [exists (fun _ => 0); lia|]. destruct IH as [f Hf]; [intros k Hk; apply H; lia|].
  destruct (H n) as [b Hb]; [lia|]. exists (fun k => if decide (k = n) then b else f k). intros k Hk. case_decide; [by subst|]. apply Hf. lia.
Qed.

Lemma sum_list_le (f g : nat -> nat) l : (forall k, k ∈ l -> f k <= g k) -> sum_list (f <$> l) <= sum_list (g <$> l).
Proof.
  induction l as [|x l IH]; intros H; [done|]. csimpl. pose proof (H x (list_elem_of_here _ _)). specialize (IH (fun k Hk => H k (list_elem_of_further _ _ _ Hk))). lia.
Qed.

#[export] Instance finished_dec (g : @gstate V) : Decision (finished g).
Proof. unfold finished. apply _. Defined.

(** A network whose run on its own is finished is finished. *)
Lemma solo_finished rdv n ps q cnt solo k g : pinv rdv n ps q cnt solo -> p_nets ps !! k = Some g -> finished (solo k) <-> finished g.
Proof.
  intros [] Hg. destruct (pi_ctl0 k g Hg) as (_ & Hlen & Hctl). pose proof (lookup_lt_Some _ _ _ Hg) as Hk. rewrite pi_nets0 in Hk.
  destruct (pi_solo0 k Hk) as [_ Hls]. unfold finished. rewrite !Forall_lookup. split; intros H r rs Hr.
  - destruct (Hctl r rs Hr) as [m Ho]. exact (H r _ Ho).
  - destruct (lookup_lt_is_Some_2 (g_ranks g) r) as [rg Hrg]; [rewrite Hlen, <- Hls; by eapply lookup_lt_Some|].
    destruct (Hctl r rg Hrg) as [m Ho]. rewrite Hr in Ho. injection Ho as ->. exact (H r _ Hrg).
Qed.

(** Collectives on separate parts of the memories are a collective together; what they share no part of stays as it was. *)
Theorem par_frame : par_collective N K pre prog ms (fun r m => (forall k, k < K -> exists m0, m0 ⊆ m /\ post k r m0) /\
    forall c, (forall k, k < K -> mk k r !! c = None) -> m !! c = ms1 r !! c).
Proof using Hcol Hdisj Hpre Hsub.
  apply choose_below in Hcol as Hc. destruct Hc as [bd Hbd].
  exists (sum_list ((fun r => length (pre r)) <$> seq 0 N) + sum_list (bd <$> seq 0 K)). intros rdv n ps Hn.
  destruct (reach_pinv rdv n ps Hn) as (q & cnt & solo & Hi). pose proof Hi as [].
  assert (Hsolo : forall k, k < K -> cnt k <= bd k /\ (finished (solo k) \/ exists g'', gstep op dsz rdv (solo k) g'') /\
    (finished (solo k) -> forall r, r < N -> exists rs, g_ranks (solo k) !! r = Some rs /\ post k r (r_mem rs))).
  { intros k Hk. apply (Hbd k Hk rdv). by apply pi_solo0. }
  split_and!.
  - pose proof (sum_list_le cnt bd (seq 0 K)) as Hle. rewrite pi_count0. enough (sum_list (cnt <$> seq 0 K) <= sum_list (bd <$> seq 0 K)) by lia.
    apply Hle. intros k [_ Hk]%elem_of_seq. by apply Hsolo.
  - destruct (decide (Forall (fun l => l = []) (p_pre ps))) as [Hp|Hp].
    + destruct (decide (Forall finished (p_nets ps))) as [Hf|Hf]; [by left|right]. apply not_Forall_Exists in Hf; [|apply _].
      apply Exists_exists in Hf as (g & [k Hg]%list_elem_of_lookup & Hf). pose proof (lookup_lt_Some _ _ _ Hg) as Hk. rewrite pi_nets0 in Hk.
      destruct (Hsolo k Hk) as (_ & [Hd|[g0 Hg0]] & _); [by apply (solo_finished _ _ _ _ _ _ _ _ Hi Hg) in Hd|]. by eapply solo_step_net.
    + right. apply not_Forall_Exists in Hp; [|apply _]. apply Exists_exists in Hp as ([|e es] & [r He]%list_elem_of_lookup & Hne); [by destruct Hne|].
      pose proof (lookup_lt_Some _ _ _ He). destruct (lookup_lt_is_Some_2 (p_mems ps) r) as [m Hm]; [lia|].
      destruct (pi_ranks0 r _ m He Hm) as ([Ha _]%Forall_cons & Hl & _). specialize (Hl ltac:(done)). cbn in Hl.
      destruct (start_entry op dsz e m) as [[m' [o|]]|] eqn:Est; try done. eexists. by eapply p_local.
  - intros [Hp Hf] r Hr. destruct (lookup_lt_is_Some_2 (p_mems ps) r) as [m Hm]; [lia|]. destruct (lookup_lt_is_Some_2 (p_pre ps) r) as [es Hes]; [lia|].
    rewrite Forall_lookup in Hp. pose proof (Hp _ _ Hes) as ->. destruct (pi_ranks0 r [] m Hes Hm) as (_ & _ & Hfr & Hr').
    exists m. split_and!; [done| |by apply Hfr]. intros k Hk. destruct (lookup_lt_is_Some_2 (p_nets ps) k) as [g Hg]; [lia|].
    assert (Hfk : finished (solo k)) by (eapply solo_finished; [exact Hi|exact Hg|]; rewrite Forall_lookup in Hf; by eapply Hf).
    destruct (Hsolo k Hk) as (_ & _ & H3). destruct (H3 Hfk r Hr) as (rs & Hrs & Hpo). destruct (Hr' k rs Hk Hrs) as [_ _ Hs].
    exists (r_mem rs). split; [by apply Hs|done].
Qed.
End composition.

(** * Parts of a memory given by regions *)

Definition restrict (rs : list (ccl_buffer * nat)) (m : memory) : memory := filter (fun c => c.1 ∈ cells_of dsz rs) m.

Lemma restrict_lookup (rs : list region) (m : memory) (c : nat * nat) : restrict rs m !! c = if decide (c ∈ cells_of dsz rs) then m !! c else None.
Proof.
  unfold restrict. destruct (m !! c) as [v|] eqn:E.
  - case_decide; [by apply map_lookup_filter_Some|]. apply map_lookup_filter_None. right. intros v' _. done.
  - case_decide; apply map_lookup_filter_None; by left.
Qed.

Lemma restrict_sub (rs : list region) (m : memory) : restrict rs m ⊆ m.
Proof. apply map_filter_subseteq. Qed.

Context (dsz_pos : 0 < dsz).

Lemma restrict_disjoint (rs rs' : list region) (m : memory) : all_apart dsz rs rs' -> restrict rs m ##ₘ restrict rs' m.
Proof.
  intros Ha. apply map_disjoint_alt. intros c. rewrite !restrict_lookup. destruct (decide (c ∈ cells_of dsz rs)) as [H|H]; [|by left].
  right. rewrite decide_False; [done|]. by apply (all_apart_cells dsz dsz_pos rs).
Qed.

Lemma restrict_arr (rs : list region) (m : memory) (b : ccl_buffer) (n : nat) f : (b, n) ∈ rs -> arr dsz m b n f -> arr dsz (restrict rs m) b n f.
Proof.
  intros Hin Ha i Hi. rewrite restrict_lookup, decide_True; [by apply Ha|]. apply elem_of_cells_of; [done|]. exists (b, n), i. done.
Qed.

Lemma arr_larger (m m' : memory) (b : ccl_buffer) (n : nat) f : m ⊆ m' -> arr dsz m b n f -> arr dsz m' b n f.
Proof. intros Hs Ha i Hi. rewrite map_subseteq_spec in Hs. apply Hs. by apply Ha. Qed.
End par.
