(* ===== verification/Parts.v ===== *)
(** Collectives built one after the other that run side by side.

    [fresh]: the temporary buffers of what a builder builds are new.  [parts_collective]:
    builders that implement collectives on separate regions of the memories, run one after
    the other to get the schedules, make one collective; with [Par] the schedules may
    interleave in any way. *)

From S2P Require Import Prelude Sched Network Race Bsp Build Reduction Frame Par.
Open Scope ccl_scope.

(** * New buffers *)

(** What a builder adds to the allocations lies between the next id before and after it. *)
Definition grown (s s' : ccl_sched) : Prop :=
  next_src s <= next_src s' /\ exists al, allocs s' = allocs s ++ al /\ Forall (fun a => next_src s <= a.1 < next_src s') al.

Class Fresh {A} (m : build A) : Prop := fresh : forall s a s', m s = Ok (a, s') -> grown s s'.

Lemma grown_refl s : grown s s.
Proof. split; [done|]. exists []. by rewrite app_nil_r. Qed.

Lemma grown_trans s1 s2 s3 : grown s1 s2 -> grown s2 s3 -> grown s1 s3.
Proof.
  intros (L1 & al1 & E1 & F1) (L2 & al2 & E2 & F2). split; [lia|]. exists (al1 ++ al2). rewrite E2, E1, app_assoc. split; [done|].
  apply Forall_app. split; (eapply Forall_impl; [eassumption|]; intros a; cbn; lia).
Qed.

#[export] Instance fresh_ret {A} (a : A) : Fresh (ret a).
Proof. intros s a' s' [= <- <-]. apply grown_refl. Qed.

#[export] Instance fresh_throw {A} : Fresh (@throw A).
Proof. by intros s a s' ?. Qed.

#[export] Instance fresh_bind {A B} (m : build A) (k : A -> build B) : Fresh m -> (forall a, Fresh (k a)) -> Fresh (bind m k).
Proof. intros Hm Hk s b s'. unfold bind. destruct (m s) as [[a s1]|] eqn:E; [|done]. intros H. eapply grown_trans; [by eapply Hm|by eapply Hk]. Qed.

#[export] Instance fresh_lift {A} (r : result A) : Fresh (lift r).
Proof. destruct r; apply _. Qed.

#[export] Instance fresh_if {A} (c : bool) (m1 m2 : build A) : Fresh m1 -> Fresh m2 -> Fresh (if c then m1 else m2).
Proof. by destruct c. Qed.

#[export] Instance fresh_option {A B} (o : option A) (k : A -> build B) (m : build B) : (forall a, Fresh (k a)) -> Fresh m ->
  Fresh (match o with Some a => k a | None => m end).
Proof. intros. by destruct o. Qed.

#[export] Instance fresh_add_entry e : Fresh (add_entry e).
Proof. intros s a s' [= <- <-]. exact (grown_refl s). Qed.

#[export] Instance fresh_add_barrier : Fresh add_barrier.
Proof. intros s a s' [= <- <-]. exact (grown_refl s). Qed.

#[export] Instance fresh_alloc n : Fresh (alloc_buffer n).
Proof.
  intros s a s'. unfold alloc_buffer. destruct (n =? 0); [done|]. intros [= <- <-]. split; [cbn; lia|]. exists [(next_src s, n)]. split; [done|].
  constructor; [cbn; lia|constructor].
Qed.

#[export] Instance fresh_recv_reduce dsz io cnt from cb rt : Fresh (create_recv_reduce dsz io cnt from cb rt).
Proof. unfold create_recv_reduce. apply _. Qed.

#[export] Instance fresh_for_range lo n body : (forall i, Fresh (body i)) -> Fresh (for_range lo n body).
Proof. intros H. revert lo. induction n as [|n IH]; intros lo; cbn; apply _. Qed.

#[export] Instance fresh_for_state {A} lo n (body : nat -> A -> build A) a : (forall i a, Fresh (body i a)) -> Fresh (for_state lo n body a).
Proof. intros H. revert lo a. induction n as [|n IH]; intros lo a; cbn; apply _. Qed.

#[export] Hint Unfold create_send create_recv create_copy create_reduce_local create_recv_copy : builders.

(** Unfold the names in front and resolve. *)
Ltac fresh_by := autounfold with builders; cbv zeta; apply _.

(** * Schedules built one after the other *)

(** The parts of a rank are built in order. *)
Fixpoint build_parts (next : nat) (l : list (build unit)) : result (list ccl_sched) :=
  match l with
  | [] => Ok []
  | m :: l' => s <-! m (empty_sched next) ;; rest <-! build_parts (next_src s.2) l' ;; Ok (s.2 :: rest)
  end.

(** The program of part [k]. *)
Definition part_prog (l : list ccl_sched) (k : nat) : list (entry * bool) := match l !! k with Some s => entries s | None => [] end.

Section parts.
Context {V : Type} (op : V -> V -> V) (dsz N K : nat) (dsz_pos : 0 < dsz).
Abbreviation memory := (gmap (nat * nat) V).
Abbreviation region := (ccl_buffer * nat)%type.
Context (build_at : nat -> nat -> build unit) (nx : nat -> nat) (R : nat -> nat -> list region) (pre post : nat -> nat -> memory -> Prop).
Context (Himpl : forall k nxk, k < K -> (forall r, r < N -> nx r <= nxk r) -> implements op dsz N (build_at k) nxk (pre k) (post k))
  (Hfresh : forall k r, k < K -> r < N -> Fresh (build_at k r))
  (Hsrc : forall k r x, k < K -> r < N -> x ∈ R k r -> buf_src x.1 < nx r)
  (Hapart : forall k j r, k < K -> j < K -> k <> j -> r < N -> all_apart dsz (R k r) (R j r))
  (Hlocal : forall k r rs m, k < K -> r < N -> R k r ⊆ rs -> pre k r m -> pre k r (restrict dsz rs m)).

(** [sc k r] is the schedule of part [k], built from [nxs k r] on. *)
Definition parts_ok (n : nat) (sc : nat -> nat -> ccl_sched) (nxs : nat -> nat -> nat) : Prop :=
  (forall r, r < N -> nxs 0 r = nx r) /\
  forall k, k < n -> (forall r, r < N -> build_at k r (empty_sched (nxs k r)) = Ok (tt, sc k r) /\ nxs (S k) r = next_src (sc k r)) /\
    forall ms : nat -> memory, (forall r, r < N -> pre k r (ms r) /\ Forall (allocated dsz (ms r)) (allocs (sc k r))) ->
      collective op dsz N (fun r => entries (sc k r)) ms (post k).

Lemma parts_mono n sc nxs k j r : n <= K -> parts_ok n sc nxs -> k <= j <= n -> r < N -> nxs k r <= nxs j r.
Proof using Hfresh dsz_pos.
  intros Hn [_ H] Hkj Hr. induction j as [|j IH]; [replace k with 0 by lia; done|]. destruct (decide (k = S j)) as [->|]; [done|].
  destruct (H j ltac:(lia)) as [Hb _]. destruct (Hb r Hr) as [E ->]. destruct (Hfresh j r ltac:(lia) Hr _ _ _ E) as [Hle _]. cbn in Hle. specialize (IH ltac:(lia)). lia.
Qed.

Lemma parts_exist n : n <= K -> exists sc nxs, parts_ok n sc nxs.
Proof using Himpl Hfresh dsz_pos.
  induction n as [|n IH]; intros Hn; [exists (fun _ _ => empty_sched 0), (fun _ => nx); split; [done|lia]|]. destruct (IH ltac:(lia)) as (sc & nxs & Hok).
  destruct (Himpl n (nxs n) ltac:(lia)) as (s & Hb & Hc).
  { intros r Hr. rewrite <- (proj1 Hok r Hr). apply (parts_mono n sc nxs); [lia|done|lia|done]. }
  exists (fun k => if decide (k = n) then s else sc k), (fun k r => if decide (k = S n) then next_src (s r) else nxs k r). destruct Hok as [H0 H].
  split; [intros r Hr; rewrite decide_False by lia; by apply H0|]. intros k Hk. destruct (decide (k = n)) as [->|Hne].
  - split; [|exact Hc]. intros r Hr. rewrite (decide_False (P := n = S n)) by lia. rewrite (decide_True (P := S n = S n)) by done. split; [by apply Hb|done].
  - destruct (H k ltac:(lia)) as [H1 H2]. split; [|exact H2]. intros r Hr. rewrite (decide_False (P := k = S n)), (decide_False (P := S k = S n)) by lia. by apply H1.
Qed.

Lemma parts_built sc nxs r : parts_ok K sc nxs -> r < N -> build_parts (nx r) ((fun k => build_at k r) <$> seq 0 K) = Ok ((fun k => sc k r) <$> seq 0 K).
Proof using dsz_pos.
  intros [H0 H] Hr. rewrite <- H0 by done. assert (Hlo : forall n lo, lo + n <= K -> build_parts (nxs lo r) ((fun k => build_at k r) <$> seq lo n) = Ok ((fun k => sc k r) <$> seq lo n)).
  { induction n as [|n IH]; intros lo Hlo; [done|]. cbn. destruct (H lo ltac:(lia)) as [Hb _]. destruct (Hb r Hr) as [-> E]. cbn. rewrite <- E, IH by lia. done. }
  apply Hlo. lia.
Qed.

(** What part [k] uses on rank [r]. *)
Definition alloc_region (a : nat * nat) : region := (mk_buffer a.1 0, a.2 / dsz).
Definition part_regions (sc : nat -> nat -> ccl_sched) (k r : nat) : list region := R k r ++ (alloc_region <$> allocs (sc k r)).

Lemma part_allocs sc nxs k r a : parts_ok K sc nxs -> k < K -> r < N -> a ∈ allocs (sc k r) -> nxs k r <= a.1 < nxs (S k) r.
Proof using Hfresh dsz_pos.
  intros [_ H] Hk Hr Ha. destruct (H k Hk) as [Hb _]. destruct (Hb r Hr) as [E ->]. destruct (Hfresh k r Hk Hr _ _ _ E) as (_ & al & Eal & Hal). cbn in Eal. rewrite Eal in Ha.
  rewrite Forall_forall in Hal. by apply Hal.
Qed.

Lemma regions_apart sc nxs k j r : parts_ok K sc nxs -> k < K -> j < K -> k <> j -> r < N -> all_apart dsz (part_regions sc k r) (part_regions sc j r).
Proof using Hfresh Hsrc Hapart dsz_pos.
  intros Hok Hk Hj Hne Hr x y Hx Hy. pose proof (proj1 Hok r Hr) as H0.
  pose proof (parts_mono K sc nxs 0 k r ltac:(lia) Hok ltac:(lia) Hr). pose proof (parts_mono K sc nxs 0 j r ltac:(lia) Hok ltac:(lia) Hr).
  apply elem_of_app in Hx as [Hx|(a & -> & Ha)%list_elem_of_fmap]; apply elem_of_app in Hy as [Hy|(a' & -> & Ha')%list_elem_of_fmap].
  - by apply (Hapart k j r).
  - pose proof (part_allocs _ _ _ _ _ Hok Hj Hr Ha'). pose proof (Hsrc k r x Hk Hr Hx). destruct x. apply apart_src. cbn in *. lia.
  - pose proof (part_allocs _ _ _ _ _ Hok Hk Hr Ha). pose proof (Hsrc j r y Hj Hr Hy). destruct y. apply apart_src. cbn in *. lia.
  - pose proof (part_allocs _ _ _ _ _ Hok Hk Hr Ha). pose proof (part_allocs _ _ _ _ _ Hok Hj Hr Ha'). apply apart_src. cbn.
    destruct (decide (k < j)).
    + pose proof (parts_mono K sc nxs (S k) j r ltac:(lia) Hok ltac:(lia) Hr). lia.
    + pose proof (parts_mono K sc nxs (S j) k r ltac:(lia) Hok ltac:(lia) Hr). lia.
Qed.

(** The parts run behind local entries [front]; their preconditions hold where these end. *)
Lemma parts_collective_behind (front : nat -> list entry) : exists scheds : nat -> list ccl_sched,
  (forall r, r < N -> build_parts (nx r) ((fun k => build_at k r) <$> seq 0 K) = Ok (scheds r)) /\
  forall ms ms1 : nat -> memory,
    (forall r, r < N -> Forall (fun e => is_async e = false) (front r) /\ local_run op dsz (front r) (ms r) = Some (ms1 r)) ->
    (forall r, r < N -> (forall k, k < K -> pre k r (ms1 r)) /\ Forall (fun s => Forall (allocated dsz (ms1 r)) (allocs s)) (scheds r)) ->
    par_collective op dsz N K front (fun k r => part_prog (scheds r) k) ms (fun r m => forall k, k < K -> exists m0, m0 ⊆ m /\ post k r m0).
Proof using All.
  destruct (parts_exist K ltac:(lia)) as (sc & nxs & Hok). exists (fun r => (fun k => sc k r) <$> seq 0 K).
  split; [intros r Hr; by eapply parts_built|]. intros ms ms1 Hfront Hms.
  assert (Hprog : forall k r, k < K -> part_prog ((fun k => sc k r) <$> seq 0 K) k = entries (sc k r)).
  { intros k r Hk. unfold part_prog. by rewrite list_lookup_fmap, lookup_seq_lt. }
  eapply par_weaken; [|apply (par_frame op dsz N K front (fun k r => part_prog ((fun k => sc k r) <$> seq 0 K) k) ms ms1
    (fun k r => restrict dsz (part_regions sc k r) (ms1 r)) post)].
  - intros r m Hr [Hp _]. exact Hp.
  - exact Hfront.
  - intros k r Hk Hr. apply restrict_sub.
  - intros k j r Hk Hj Hne Hr. apply restrict_disjoint; [done|]. by eapply regions_apart.
  - intros k Hk. eapply collective_ext; [intros r Hr; symmetry; by apply Hprog|]. destruct Hok as [_ H]. destruct (H k Hk) as [_ Hc]. apply Hc.
    intros r Hr. destruct (Hms r Hr) as [Hp Hal]. split.
    + apply Hlocal; [done|done| |by apply Hp]. intros x Hx. apply elem_of_app. by left.
    + rewrite Forall_forall in Hal. assert (Hin : sc k r ∈ (fun k => sc k r) <$> seq 0 K).
      { apply list_elem_of_fmap. exists k. split; [done|]. apply elem_of_seq. lia. }
      specialize (Hal _ Hin). rewrite Forall_forall in Hal. apply Forall_forall. intros a Ha. destruct (Hal a Ha) as [h Hh]. exists h.
      apply restrict_arr; [done| |done]. apply elem_of_app. right. apply list_elem_of_fmap. by exists a.
Qed.

Theorem parts_collective : exists scheds : nat -> list ccl_sched,
  (forall r, r < N -> build_parts (nx r) ((fun k => build_at k r) <$> seq 0 K) = Ok (scheds r)) /\
  forall ms : nat -> memory,
    (forall r, r < N -> (forall k, k < K -> pre k r (ms r)) /\ Forall (fun s => Forall (allocated dsz (ms r)) (allocs s)) (scheds r)) ->
    par_collective op dsz N K (fun _ => []) (fun k r => part_prog (scheds r) k) ms (fun r m => forall k, k < K -> exists m0, m0 ⊆ m /\ post k r m0).
Proof using All.
  destruct (parts_collective_behind (fun _ => [])) as (scheds & Hb & H). exists scheds. split; [exact Hb|]. intros ms Hms. apply (H ms ms); [|exact Hms].
  intros r Hr. by split.
Qed.
End parts.
