(* ===== verification/Tree.v ===== *)
(** The binary trees of the double-tree collectives: [src/src/common/utils/tree.hpp].

    [ccl_bin_tree] computes the parent and the children of a rank from the bits of its
    number; an absent node is -1.  The main tree has the rank with the bits
    [q 1 0..0] ([h] zeros) at height [h], the other tree the rank with [h] ones at the end;
    rank 0 is the root of both.  The file shows that for every communicator size the
    nodes' own views fit together into one tree ([tree_ok]), also after the root was changed. *)

From Stdlib Require Import ZArith Lia.
From S2P Require Import Prelude.
#[local] Open Scope Z_scope.

(** * The code *)

Record ccl_bin_tree := mk_tree { t_comm_size : Z; t_rank : Z; t_height : Z; t_p : Z; t_l : Z; t_r : Z; t_main : bool }.

Definition left (t : ccl_bin_tree) : Z := t_l t.
Definition right (t : ccl_bin_tree) : Z := t_r t.
Definition parent (t : ccl_bin_tree) : Z := t_p t.

Definition default_root : Z := 0.

(** [(rank & (1 << height)) == 0] *)
Definition bit_clear (rank height : Z) : bool := Z.land rank (Z.shiftl 1 height) =? 0.

(** The loop stops at the latest when [1 << height] reaches the size, an [int]. *)
Fixpoint height_loop (fuel : nat) (go : Z -> bool) (comm_size height : Z) : Z :=
  match fuel with
  | O => height
  | S fuel' => if go height && (Z.shiftl 1 height <? comm_size) then height_loop fuel' go comm_size (height + 1) else height
  end.

Definition calc_height (comm_size rank : Z) (main_tree : bool) : Z :=
  if main_tree || (rank =? default_root) then height_loop 31 (fun h => bit_clear rank h) comm_size 0
  else height_loop 31 (fun h => negb (bit_clear rank h)) comm_size 0.

Definition calc_parent (comm_size rank height : Z) : Z :=
  let possible_parent_as_left := rank + Z.shiftl 1 height in
  if negb (bit_clear rank (height + 1)) || (comm_size - 1 <? possible_parent_as_left) then
    let p := rank - Z.shiftl 1 height in
    if p <? 0 then 0 else p
  else possible_parent_as_left.

Definition calc_left (rank height : Z) : Z :=
  let l := rank - Z.shiftl 1 (height - 1) in
  if l <=? 0 then -1 else l.

(** [do { ... } while (r > limit)] *)
Fixpoint right_loop (fuel : nat) (rank limit height_tmp : Z) : Z :=
  match fuel with
  | O => -1
  | S fuel' =>
    let height_tmp := height_tmp - 1 in
    if height_tmp =? 0 then -1
    else
      let r := rank + Z.shiftl 1 (height_tmp - 1) in
      if limit <? r then right_loop fuel' rank limit height_tmp else r
  end.

Definition calc_right (comm_size rank height : Z) : Z :=
  let r := rank + Z.shiftl 1 (height - 1) in
  let limit := comm_size - 1 in
  if limit <? r then right_loop (Z.to_nat height) rank limit height else r.

(** The constructor. *)
Definition make_bin_tree (comm_size rank : Z) (main : bool) : ccl_bin_tree :=
  let height := calc_height comm_size rank main in
  if rank =? default_root then
    let r :=
      if main then (if 0 <? height then Z.shiftl 1 (height - 1) else -1)
      else if comm_size =? Z.shiftl 1 height then (if 0 <? height then Z.shiftl 1 height - 1 else -1)
      else (if 0 <? height then Z.shiftl 1 (height - 1) - 1 else -1) in
    mk_tree comm_size rank height (-1) (-1) r main
  else
    let p := calc_parent comm_size rank height in
    let '(l, r) := if 0 <? height then (calc_left rank height, calc_right comm_size rank height) else (-1, -1) in
    mk_tree comm_size rank height p l r main.

Definition swap_if_any_of (node val1 val2 : Z) : Z :=
  if node =? val1 then val2 else if node =? val2 then val1 else node.

Definition reset_connections (t : ccl_bin_tree) (new_root : Z) : ccl_bin_tree :=
  mk_tree (t_comm_size t) (t_rank t) (t_height t) (swap_if_any_of (t_p t) default_root new_root)
    (swap_if_any_of (t_l t) default_root new_root) (swap_if_any_of (t_r t) default_root new_root) (t_main t).

Definition copy_with_new_root (t : ccl_bin_tree) (new_root : Z) : ccl_bin_tree :=
  let copy :=
    if (t_rank t =? new_root) || (t_rank t =? default_root) then
      let c := make_bin_tree (t_comm_size t) (if t_rank t =? default_root then new_root else default_root) (t_main t) in
      mk_tree (t_comm_size c) new_root (t_height c) (t_p c) (t_l c) (t_r c) (t_main c)
    else t in
  reset_connections copy new_root.

Record ccl_double_tree := mk_double_tree { T1 : ccl_bin_tree; T2 : ccl_bin_tree }.

Definition make_double_tree (comm_size rank : Z) : ccl_double_tree :=
  mk_double_tree (make_bin_tree comm_size rank true) (make_bin_tree comm_size rank false).

Definition copy_double_tree (t : ccl_double_tree) (new_root : Z) : ccl_double_tree :=
  mk_double_tree (copy_with_new_root (T1 t) new_root) (copy_with_new_root (T2 t) new_root).

(** * Bits *)

Lemma pow_succ a : 0 <= a -> 2 ^ (a + 1) = 2 * 2 ^ a.
Proof. intros. rewrite Z.pow_add_r by lia. lia. Qed.

Lemma pow_pos a : 0 <= a -> 0 < 2 ^ a.
Proof. intros. apply Z.pow_pos_nonneg; lia. Qed.

Lemma bit_clear_testbit a h : 0 <= h -> bit_clear a h = negb (Z.testbit a h).
Proof.
  intros Hh. unfold bit_clear. rewrite Z.shiftl_1_l.
  assert (E : Z.land a (2 ^ h) = if Z.testbit a h then 2 ^ h else 0).
  { apply Z.bits_inj'. intros m Hm. rewrite Z.land_spec, Z.pow2_bits_eqb by done. destruct (Z.eqb_spec h m) as [->|Hne].
    - rewrite andb_true_r. destruct (Z.testbit a m) eqn:E; [by rewrite Z.pow2_bits_true|by rewrite Z.bits_0].
    - rewrite andb_false_r. destruct (Z.testbit a h); [by rewrite Z.pow2_bits_false by lia|by rewrite Z.bits_0]. }
  rewrite E. pose proof (pow_pos h Hh). destruct (Z.testbit a h); cbn; lia.
Qed.

Lemma testbit_split h v w : 0 <= h -> 0 <= w < 2 ^ h -> Z.testbit (2 ^ h * v + w) h = Z.odd v.
Proof.
  intros Hh Hw. rewrite Z.testbit_odd, Z.shiftr_div_pow2 by done. f_equal. symmetry. apply (Z.div_unique _ _ _ w); [left; lia|lia].
Qed.

(** A positive number is an odd multiple of one power of two. *)
Lemma odd_part_unique h q h' q' : 0 <= h -> 0 <= h' -> 2 ^ h * (2 * q + 1) = 2 ^ h' * (2 * q' + 1) -> h = h' /\ q = q'.
Proof.
  assert (G : forall a b x y, 0 <= a -> 0 < b -> 2 ^ a * (2 * x + 1) <> 2 ^ (a + b) * (2 * y + 1)).
  { intros a b x y Ha Hb E. rewrite Z.pow_add_r in E by lia. replace b with ((b - 1) + 1) in E by lia. rewrite pow_succ in E by lia.
    pose proof (pow_pos a Ha). assert (2 * x + 1 = 2 * (2 ^ (b - 1) * (2 * y + 1))) by nia. lia. }
  intros Hh Hh' E. destruct (Z.lt_trichotomy h h') as [Hl|[->|Hl]].
  - exfalso. apply (G h (h' - h) q q'); [lia|lia|]. by replace (h + (h' - h)) with h' by lia.
  - split; [done|]. pose proof (pow_pos h' Hh'). nia.
  - exfalso. apply (G h' (h - h') q' q); [lia|lia|]. by replace (h' + (h - h')) with h by lia.
Qed.

(** A multiple of [2 ^ (h + 1)] has its odd part above [h]. *)
Lemma odd_part_above h v h' q' : 0 <= h -> 0 <= h' -> 2 ^ (h + 1) * v = 2 ^ h' * (2 * q' + 1) -> h < h'.
Proof.
  intros Hh Hh' E. destruct (Z.lt_ge_cases h h') as [|Hle]; [done|exfalso]. replace (h + 1) with (h' + ((h - h') + 1)) in E by lia.
  rewrite Z.pow_add_r, pow_succ in E by lia. pose proof (pow_pos h' Hh'). assert (2 * (2 ^ (h - h') * v) = 2 * q' + 1) by nia. lia.
Qed.

(** * Heights *)

(** The ranks of the second tree are counted from one. *)
Definition off (main : bool) : Z := if main then 0 else 1.

Definition node (main : bool) (rank h q : Z) : Prop := 0 <= h /\ 0 <= q /\ rank + off main = 2 ^ h * (2 * q + 1).

Definition go (main : bool) (rank h : Z) : bool := if main then bit_clear rank h else negb (bit_clear rank h).

Lemma go_even main rank i v : 0 <= i -> rank + off main = 2 ^ i * v -> go main rank i = Z.even v.
Proof.
  intros Hi E. pose proof (pow_pos i Hi). unfold go. destruct main; cbn in E; rewrite bit_clear_testbit by done.
  - replace rank with (2 ^ i * v + 0) by lia. rewrite testbit_split by lia. by rewrite Z.negb_odd.
  - replace rank with (2 ^ i * (v - 1) + (2 ^ i - 1)) by lia. rewrite testbit_split by lia.
    rewrite negb_involutive, Z.odd_sub. rewrite <- Z.negb_even. by destruct (Z.even v).
Qed.

Lemma height_loop_node main rank n : 0 < rank < n -> n <= 2 ^ 30 -> forall fuel i v, 0 <= i -> 0 < v -> rank + off main = 2 ^ i * v -> 31 <= i + Z.of_nat fuel ->
  exists q, node main rank (height_loop fuel (go main rank) n i) q.
Proof.
  intros Hr Hn. induction fuel as [|fuel IH]; intros i v Hi Hv E Hf.
  - exfalso. assert (2 ^ 31 <= 2 ^ i) by (apply Z.pow_le_mono_r; lia). assert (rank + off main <= n) by (destruct main; cbn; lia). nia.
  - cbn [height_loop]. rewrite (go_even main rank i v Hi E). pose proof (pow_pos i Hi). destruct (Z.even v) eqn:Ev.
    + rewrite Z.shiftl_1_l. apply Z.even_spec in Ev as [v' ->]. assert (rank + off main <= n) by (destruct main; cbn; lia).
      replace (2 ^ i <? n) with true by (symmetry; apply Z.ltb_lt; nia). cbn [andb].
      apply (IH (i + 1) v'); [lia|lia|rewrite pow_succ by done; lia|lia].
    + exists ((v - 1) / 2). assert (Hodd : Z.odd v = true) by (by rewrite <- Z.negb_even, Ev). apply Z.odd_spec in Hodd as [w ->].
      replace (2 * w + 1 - 1) with (w * 2) by lia. rewrite Z.div_mul by lia. split; [done|]. split; [lia|done].
Qed.

Lemma height_node main rank n : 0 < rank < n -> n <= 2 ^ 30 -> exists q, node main rank (calc_height n rank main) q.
Proof.
  intros Hr Hn. assert (E : calc_height n rank main = height_loop 31 (go main rank) n 0).
  { unfold calc_height, go, default_root. replace (rank =? 0) with false by lia. by destruct main. }
  rewrite E. apply (height_loop_node main rank n Hr Hn 31 0 (rank + off main)); [lia| | |]; destruct main; cbn; lia.
Qed.

(** The height of the root is the logarithm of the size, rounded up. *)
Lemma height_loop_root n : 0 < n <= 2 ^ 30 -> forall fuel i, 0 <= i -> 31 <= i + Z.of_nat fuel -> (i = 0 \/ 2 ^ (i - 1) < n) ->
  exists h, height_loop fuel (fun h => bit_clear 0 h) n i = h /\ 0 <= h /\ n <= 2 ^ h /\ (h = 0 \/ 2 ^ (h - 1) < n).
Proof.
  intros Hn. induction fuel as [|fuel IH]; intros i Hi Hf Hp.
  - exfalso. assert (2 ^ 30 <= 2 ^ (i - 1)) by (apply Z.pow_le_mono_r; lia). lia.
  - cbn [height_loop]. unfold bit_clear at 1. rewrite Z.land_0_l, Z.shiftl_1_l. cbn [andb Z.eqb]. destruct (Z.ltb_spec (2 ^ i) n).
    + apply IH; [lia|lia|right]. by replace (i + 1 - 1) with i by lia.
    + exists i. done.
Qed.

Lemma height_root main n : 0 < n <= 2 ^ 30 -> exists h, calc_height n 0 main = h /\ 0 <= h /\ n <= 2 ^ h /\ (h = 0 \/ 2 ^ (h - 1) < n).
Proof.
  intros Hn. unfold calc_height, default_root. rewrite orb_true_r. apply height_loop_root; [done|lia|lia|by left].
Qed.

(** * Links *)

Lemma right_loop_spec rank limit h : forall fuel ht, 1 <= ht <= h -> ht <= Z.of_nat fuel -> limit < rank + 2 ^ (ht - 1) ->
  let r := right_loop fuel rank limit ht in
  (exists k, 1 <= k < h /\ r = rank + 2 ^ (k - 1) /\ r <= limit /\ limit < rank + 2 ^ k) \/ (r = -1 /\ limit < rank + 1).
Proof.
  induction fuel as [|fuel IH]; intros ht Ht Hf Hl; [lia|]. cbn [right_loop]. destruct (Z.eqb_spec (ht - 1) 0) as [E|Hne].
  - right. split; [done|]. replace (ht - 1) with 0 in Hl by lia. done.
  - rewrite Z.shiftl_1_l. destruct (Z.ltb_spec limit (rank + 2 ^ (ht - 1 - 1))) as [Hlt|Hge].
    + apply IH; [lia|lia|done].
    + left. exists (ht - 1). split_and!; [lia|lia|done|done|done].
Qed.

Lemma right_spec n rank h : 0 < h -> let r := calc_right n rank h in
  (exists k, 1 <= k <= h /\ r = rank + 2 ^ (k - 1) /\ r <= n - 1 /\ (k < h -> n - 1 < rank + 2 ^ k)) \/ (r = -1 /\ n - 1 < rank + 1).
Proof.
  intros Hh. cbv zeta. unfold calc_right. rewrite Z.shiftl_1_l. destruct (Z.ltb_spec (n - 1) (rank + 2 ^ (h - 1))) as [Hlt|Hge].
  - destruct (right_loop_spec rank (n - 1) h (Z.to_nat h) h) as [(k & Hk & E & H1 & H2)|[E H1]]; [lia|lia|done| |by right].
    left. exists k. split_and!; try done; lia.
  - left. exists h. split_and!; try done; lia.
Qed.

Lemma parent_spec main n rank h q : node main rank h q ->
  calc_parent n rank h = if Z.odd q || (n - 1 <? rank + 2 ^ h) then Z.max 0 (rank - 2 ^ h) else rank + 2 ^ h.
Proof.
  intros (Hh & Hq & E). pose proof (pow_pos h Hh) as Hp. unfold calc_parent. rewrite Z.shiftl_1_l, bit_clear_testbit, negb_involutive by lia.
  assert (Eb : Z.testbit rank (h + 1) = Z.odd q).
  { pose proof (pow_succ h Hh). destruct main; cbn in E.
    - replace rank with (2 ^ (h + 1) * q + 2 ^ h) by lia. apply testbit_split; lia.
    - replace rank with (2 ^ (h + 1) * q + (2 ^ h - 1)) by lia. apply testbit_split; lia. }
  rewrite Eb. destruct (Z.odd q || _); [|done]. destruct (Z.ltb_spec (rank - 2 ^ h) 0); lia.
Qed.

(** The links of a node other than the root. *)
Lemma node_links main n rank : 0 < rank < n -> n <= 2 ^ 30 -> exists h q, node main rank h q /\
  parent (make_bin_tree n rank main) = (if Z.odd q || (n - 1 <? rank + 2 ^ h) then Z.max 0 (rank - 2 ^ h) else rank + 2 ^ h) /\
  left (make_bin_tree n rank main) = (if 0 <? h then calc_left rank h else -1) /\
  right (make_bin_tree n rank main) = (if 0 <? h then calc_right n rank h else -1) /\ t_height (make_bin_tree n rank main) = h.
Proof.
  intros Hr Hn. destruct (height_node main rank n Hr Hn) as [q Hq]. exists (calc_height n rank main), q. split; [done|].
  rewrite <- (parent_spec main n rank _ q Hq). unfold make_bin_tree, default_root. replace (rank =? 0) with false by lia.
  destruct (0 <? calc_height n rank main); done.
Qed.

(** The root's only child: the largest power of two that is a node. *)
Lemma root_links main n : 0 < n <= 2 ^ 30 -> 
  parent (make_bin_tree n 0 main) = -1 /\ left (make_bin_tree n 0 main) = -1 /\
  ((exists h, 0 <= h /\ right (make_bin_tree n 0 main) = 2 ^ h - off main /\ 0 < 2 ^ h - off main <= n - 1 /\ n - 1 + off main < 2 ^ (h + 1)) \/
   (right (make_bin_tree n 0 main) = -1 /\ n = 1)).
Proof.
  intros Hn. destruct (height_root main n Hn) as (h & E & Hh & H1 & H2). unfold make_bin_tree, default_root, parent, left, right. cbn [Z.eqb]. rewrite E. cbn [t_p t_l t_r].
  split_and!; [done|done|]. rewrite !Z.shiftl_1_l. destruct (Z.ltb_spec 0 h) as [Hp|Hp].
  - destruct H2 as [->|H2]; [lia|]. assert (Es : 2 ^ h = 2 * 2 ^ (h - 1)) by (replace h with (h - 1 + 1) at 1 by lia; apply pow_succ; lia).
    pose proof (pow_pos (h - 1) ltac:(lia)). left. destruct main; cbn [off].
    + exists (h - 1). replace (h - 1 + 1) with h by lia. split_and!; lia.
    + destruct (Z.eqb_spec n (2 ^ h)) as [->|Hne].
      * exists h. rewrite pow_succ by lia. split_and!; lia.
      * exists (h - 1). replace (h - 1 + 1) with h by lia. split_and!; try lia.
  - right. assert (h = 0) as -> by lia. assert (n = 1) by (cbn in H1; lia). split; [|done]. destruct main; [done|]. by destruct (n =? 2 ^ 0).
Qed.

Section links.
Context (main : bool) (n : Z) (Hn : 0 < n <= 2 ^ 30).
Abbreviation T := (fun r => make_bin_tree n r main).

(** The parent of a node is a node or the root, and the node is its child. *)
Lemma parent_child c : 0 < c < n -> 0 <= parent (T c) < n /\ (left (T (parent (T c))) = c \/ right (T (parent (T c))) = c).
Proof.
  intros Hc. destruct (node_links main n c Hc ltac:(lia)) as (h & q & Hnd & Ep & _). pose proof Hnd as (Hh & Hq & E).
  pose proof (pow_pos h Hh) as Hp. pose proof (pow_succ h Hh) as Hs. rewrite Ep. clear Ep.
  destruct (Z.odd q) eqn:Eq; cbn [orb].
  - (* right child of a node one higher *)
    apply Z.odd_spec in Eq as [q' ->]. assert (Ho : 0 <= c - 2 ^ h) by (unfold off in *; destruct main; nia).
    assert (Hr : 0 < c - 2 ^ h < n) by (unfold off in *; destruct main; nia). rewrite Z.max_r by lia. split; [lia|right].
    destruct (node_links main n (c - 2 ^ h) Hr ltac:(lia)) as (h' & q2 & (Hh' & _ & E') & _ & _ & Er & _).
    assert (Heq : h + 1 = h' /\ q' = q2) by (apply odd_part_unique; [lia|lia|]; rewrite <- E', Hs; unfold off in *; destruct main; lia).
    destruct Heq as [<- <-]. rewrite Er. replace (0 <? h + 1) with true by lia.
    destruct (right_spec n (c - 2 ^ h) (h + 1)) as [(k & Hk & -> & _ & H2)|[_ H1]]; [lia| |lia].
    destruct (Z.eq_dec k (h + 1)) as [->|Hne]; [replace (h + 1 - 1) with h by lia; lia|].
    assert (2 ^ k <= 2 ^ h) by (apply Z.pow_le_mono_r; lia). specialize (H2 ltac:(lia)). lia.
  - destruct (Z.ltb_spec (n - 1) (c + 2 ^ h)) as [Hlim|Hlim].
    + destruct (Z.eq_dec q 0) as [->|Hq0].
      * (* child of the root *)
        assert (Hz : Z.max 0 (c - 2 ^ h) = 0) by (unfold off in *; destruct main; lia). rewrite Hz. split; [lia|right].
        destruct (root_links main n Hn) as (_ & _ & [(k & Hk & -> & H1 & H2)|[_ ->]]); [|lia].
        assert (k = h) as ->; [|unfold off in *; destruct main; lia].
        destruct (Z.lt_trichotomy k h) as [Hl|[?|Hl]]; [|done|].
        -- assert (2 ^ (k + 1) <= 2 ^ h) by (apply Z.pow_le_mono_r; lia). unfold off in *; destruct main; lia.
        -- assert (2 ^ (h + 1) <= 2 ^ k) by (apply Z.pow_le_mono_r; lia). unfold off in *; destruct main; lia.
      * (* the topmost right leaf *)
        assert (Hev : exists q', q = 2 * q' /\ 0 < q') by (rewrite <- Z.negb_even in Eq; apply negb_false_iff, Z.even_spec in Eq as [q' ->]; exists q'; lia).
        destruct Hev as (q' & -> & Hq'). assert (Hr : 0 < c - 2 ^ h < n) by (unfold off in *; destruct main; nia).
        rewrite Z.max_r by lia. split; [lia|right].
        destruct (node_links main n (c - 2 ^ h) Hr ltac:(lia)) as (h' & q2 & (Hh' & _ & E') & _ & _ & Er & _).
        assert (Hlt : h + 1 < h') by (apply (odd_part_above (h + 1) q' h' q2); [lia|lia|]; rewrite <- E', (pow_succ (h + 1)), Hs by lia; unfold off in *; destruct main; lia).
        rewrite Er. replace (0 <? h') with true by lia.
        destruct (right_spec n (c - 2 ^ h) h') as [(k & Hk & -> & H1 & H2)|[_ H1]]; [lia| |lia].
        destruct (Z.lt_trichotomy k (h + 1)) as [Hl|[->|Hl]].
        -- assert (2 ^ k <= 2 ^ h) by (apply Z.pow_le_mono_r; lia). specialize (H2 ltac:(lia)). lia.
        -- replace (h + 1 - 1) with h by lia. lia.
        -- assert (2 ^ (h + 1) <= 2 ^ (k - 1)) by (apply Z.pow_le_mono_r; lia). lia.
    + (* left child *)
      assert (Hev : exists q', q = 2 * q' /\ 0 <= q') by (rewrite <- Z.negb_even in Eq; apply negb_false_iff, Z.even_spec in Eq as [q' ->]; exists q'; lia).
      destruct Hev as (q' & -> & Hq'). split; [lia|left].
      destruct (node_links main n (c + 2 ^ h) ltac:(lia) ltac:(lia)) as (h' & q2 & (Hh' & _ & E') & _ & El & _).
      assert (Heq : h + 1 = h' /\ q' = q2) by (apply odd_part_unique; [lia|lia|]; rewrite <- E', Hs; unfold off in *; destruct main; lia).
      destruct Heq as [<- <-]. rewrite El. replace (0 <? h + 1) with true by lia. unfold calc_left. rewrite Z.shiftl_1_l.
      replace (h + 1 - 1) with h by lia. replace (c + 2 ^ h - 2 ^ h) with c by lia. destruct (Z.leb_spec c 0); lia.
Qed.

(** A child of a node has it as its parent, and is lower. *)
Lemma child_parent r c : 0 <= r < n -> c <> -1 -> left (T r) = c \/ right (T r) = c -> 0 < c < n /\ parent (T c) = r /\ (r <> 0 -> t_height (T c) < t_height (T r)).
Proof.
  intros Hr Hc1 Hc. destruct (Z.eq_dec r 0) as [->|Hr0].
  - destruct (root_links main n Hn) as (_ & El & [(h & Hh & Er & H1 & H2)|[Er _]]); [|lia].
    assert (Ec : c = 2 ^ h - off main) by lia. assert (Hcn : 0 < c < n) by lia. split; [done|].
    destruct (node_links main n c Hcn ltac:(lia)) as (h' & q & (Hh' & Hq & E) & -> & _). split; [|lia].
    assert (Heq : h = h' /\ 0 = q) by (apply odd_part_unique; [done|done|]; rewrite <- E; lia). destruct Heq as [<- <-].
    pose proof (pow_succ h Hh). cbn [Z.odd orb]. replace (n - 1 <? c + 2 ^ h) with true by lia. unfold off in *; destruct main; lia.
  - destruct (node_links main n r ltac:(lia) ltac:(lia)) as (h & q & (Hh & Hq & E) & _ & El & Er & Eh). cbv beta in *. rewrite El, Er in Hc.
    destruct (Z.ltb_spec 0 h) as [Hp|]; [|lia]. pose proof (pow_pos (h - 1) ltac:(lia)) as Hpp.
    assert (Es : 2 ^ h = 2 * 2 ^ (h - 1)) by (replace h with (h - 1 + 1) at 1 by lia; apply pow_succ; lia). destruct Hc as [Hc|Hc].
    + unfold calc_left in Hc. rewrite Z.shiftl_1_l in Hc. destruct (Z.leb_spec (r - 2 ^ (h - 1)) 0) as [|Hpos]; [lia|].
      assert (Hcn : 0 < c < n) by lia. split; [done|]. destruct (node_links main n c Hcn ltac:(lia)) as (h' & q' & (Hh' & Hq' & E') & -> & _ & _ & Eh'). rewrite Eh, Eh'.
      assert (Heq : h - 1 = h' /\ 2 * q = q') by (apply odd_part_unique; [lia|done|]; rewrite <- E'; unfold off in *; destruct main; nia). destruct Heq as [<- <-]. split; [|lia].
      replace (Z.odd (2 * q)) with false by (by rewrite Z.odd_mul). cbn [orb]. replace (n - 1 <? c + 2 ^ (h - 1)) with false by lia. lia.
    + destruct (right_spec n r h Hp) as [(k & Hk & Ek & H1 & H2)|[E1 _]]; [|lia]. rewrite Hc in Ek, H1.
      pose proof (pow_pos (k - 1) ltac:(lia)) as Hkp. assert (Hcn : 0 < c < n) by lia. split; [done|].
      destruct (node_links main n c Hcn ltac:(lia)) as (h' & q' & (Hh' & Hq' & E') & -> & _ & _ & Eh'). rewrite Eh, Eh'.
      assert (Ehk : 2 ^ h = 2 ^ (k - 1) * (2 * 2 ^ (h - k))).
      { rewrite <- pow_succ, <- Z.pow_add_r by lia. f_equal. lia. }
      assert (Heq : k - 1 = h' /\ 2 ^ (h - k) * (2 * q + 1) = q').
      { apply odd_part_unique; [lia|done|]. rewrite <- E'. unfold off in *; destruct main; nia. } destruct Heq as [<- <-]. split; [|lia].
      destruct (Z.eq_dec k h) as [->|Hne].
      * replace (h - h) with 0 by lia. replace (Z.odd (2 ^ 0 * (2 * q + 1))) with true by (rewrite Z.odd_mul, Z.odd_add, Z.odd_mul; done). cbn [orb]. lia.
      * specialize (H2 ltac:(lia)). assert (2 ^ k = 2 * 2 ^ (k - 1)) by (replace k with (k - 1 + 1) at 1 by lia; apply pow_succ; lia).
        replace (n - 1 <? c + 2 ^ (k - 1)) with true by lia. rewrite orb_true_r. lia.
Qed.

Lemma left_right r c : 0 <= r < n -> c <> -1 -> left (T r) = c -> right (T r) = c -> False.
Proof.
  intros Hr Hc. destruct (Z.eq_dec r 0) as [->|Hr0].
  - destruct (root_links main n Hn) as (_ & El & _). cbv beta. rewrite El. lia.
  - destruct (node_links main n r ltac:(lia) ltac:(lia)) as (h & q & (Hh & _) & _ & El & Er & _). cbv beta. rewrite El, Er.
    destruct (Z.ltb_spec 0 h) as [Hp|]; [|lia]. intros <-. unfold calc_left in *. rewrite Z.shiftl_1_l in *. pose proof (pow_pos (h - 1) ltac:(lia)).
    destruct (Z.leb_spec (r - 2 ^ (h - 1)) 0); [lia|]. destruct (right_spec n r h Hp) as [(k & Hk & -> & _)|[-> _]]; [|lia].
    pose proof (pow_pos (k - 1) ltac:(lia)). lia.
Qed.

Lemma height_bound c : 0 < c < n -> 0 <= t_height (T c) <= 30.
Proof.
  intros Hc. destruct (node_links main n c Hc ltac:(lia)) as (h & q & (Hh & Hq & E) & _ & _ & _ & ->). split; [done|].
  destruct (Z.le_gt_cases h 30); [done|exfalso]. assert (2 ^ 31 <= 2 ^ h) by (apply Z.pow_le_mono_r; lia). unfold off in *; destruct main; nia.
Qed.
End links.

(** * One tree *)

(** [par], [lc] and [rc] are the parent and the children of the ranks of one tree: each rank but the root has a parent, which is higher,
    and is one of its two children. *)
Record tree_ok (N root : nat) (par lc rc : nat -> option nat) (lev : nat -> nat) : Prop := mk_tree_ok {
  tk_root : (root < N)%nat /\ par root = None;
  tk_par : forall r, (r < N)%nat -> r <> root -> exists p, par r = Some p /\ (p < N)%nat /\ (lev r < lev p)%nat;
  tk_child : forall p c, (p < N)%nat -> lc p = Some c \/ rc p = Some c <-> (c < N)%nat /\ par c = Some p;
  tk_diff : forall p c, (p < N)%nat -> lc p = Some c -> rc p = Some c -> False }.

Definition to_rank (z : Z) : option nat := if z =? -1 then None else Some (Z.to_nat z).

(** What each rank finds in its tree. *)
Definition par_of (t : nat -> ccl_bin_tree) (r : nat) : option nat := to_rank (parent (t r)).
Definition left_of (t : nat -> ccl_bin_tree) (r : nat) : option nat := to_rank (left (t r)).
Definition right_of (t : nat -> ccl_bin_tree) (r : nat) : option nat := to_rank (right (t r)).

Definition tree_at (n : Z) (main : bool) (r : nat) : ccl_bin_tree := make_bin_tree n (Z.of_nat r) main.
Definition level (n : Z) (main : bool) (r : nat) : nat := if decide (r = 0%nat) then 31 else Z.to_nat (t_height (tree_at n main r)).

Lemma to_rank_Some z c : to_rank z = Some c <-> z <> -1 /\ c = Z.to_nat z.
Proof. unfold to_rank. destruct (Z.eqb_spec z (-1)); naive_solver. Qed.

Lemma bin_tree_ok main N : (0 < N)%nat -> Z.of_nat N <= 2 ^ 30 ->
  tree_ok N 0 (par_of (tree_at (Z.of_nat N) main)) (left_of (tree_at (Z.of_nat N) main)) (right_of (tree_at (Z.of_nat N) main)) (level (Z.of_nat N) main).
Proof.
  intros H0 H1. assert (Hn : 0 < Z.of_nat N <= 2 ^ 30) by lia. destruct (root_links main _ Hn) as (Hp & Hl & _).
  unfold par_of, left_of, right_of, tree_at. constructor.
  - split; [done|]. change (Z.of_nat 0) with 0. by rewrite Hp.
  - intros r Hr Hr0. assert (Hc : 0 < Z.of_nat r < Z.of_nat N) by lia. destruct (parent_child main _ Hn _ Hc) as [Hb Hch].
    exists (Z.to_nat (parent (make_bin_tree (Z.of_nat N) (Z.of_nat r) main))). split_and!; [apply to_rank_Some; lia|lia|].
    destruct (child_parent main _ Hn _ (Z.of_nat r) Hb ltac:(lia) Hch) as (_ & _ & Hlt). pose proof (height_bound main _ Hn _ Hc).
    unfold level, tree_at. rewrite decide_False by done. case_decide; [lia|]. rewrite Z2Nat.id by lia. lia.
  - intros p c Hp'. rewrite !to_rank_Some. assert (Hpz : 0 <= Z.of_nat p < Z.of_nat N) by lia. split.
    + assert (Hch : forall z, z <> -1 -> left (make_bin_tree (Z.of_nat N) (Z.of_nat p) main) = z \/ right (make_bin_tree (Z.of_nat N) (Z.of_nat p) main) = z ->
        (Z.to_nat z < N)%nat /\ parent (make_bin_tree (Z.of_nat N) (Z.of_nat (Z.to_nat z)) main) = Z.of_nat p).
      { intros z Hz Hlr. destruct (child_parent main _ Hn _ z Hpz Hz Hlr) as (Hb & Hpar & _). rewrite Z2Nat.id by lia. split; [lia|done]. }
      intros [[Hz ->]|[Hz ->]]; (edestruct Hch as [Hb ->]; [exact Hz|auto|]); split_and!; lia.
    + intros (Hc & Hz & Hpar). destruct (decide (c = 0%nat)) as [->|Hc0]; [change (Z.of_nat 0) with 0 in Hz; by rewrite Hp in Hz|].
      destruct (parent_child main _ Hn (Z.of_nat c) ltac:(lia)) as [Hb Hch].
      assert (Ep : parent (make_bin_tree (Z.of_nat N) (Z.of_nat c) main) = Z.of_nat p) by lia. rewrite Ep in Hch. destruct Hch; [left|right]; lia.
  - intros p c Hp'. rewrite !to_rank_Some. intros [Hl1 ->] [Hr1 E].
    assert (Hpz : 0 <= Z.of_nat p < Z.of_nat N) by lia.
    destruct (child_parent main _ Hn _ _ Hpz Hl1 (or_introl eq_refl)) as (Hb & _). destruct (child_parent main _ Hn _ _ Hpz Hr1 (or_intror eq_refl)) as (Hb' & _).
    eapply (left_right main _ Hn _ _ Hpz Hl1 eq_refl). lia.
Qed.


(** ** Another root *)

Definition swap (root r : nat) : nat := if decide (r = 0%nat) then root else if decide (r = root) then 0%nat else r.

Lemma swap_swap root r : swap root (swap root r) = r.
Proof. unfold swap. repeat case_decide; congruence. Qed.

Lemma swap_lt root N r : (root < N)%nat -> (r < N)%nat -> (swap root r < N)%nat.
Proof. intros. unfold swap. repeat case_decide; lia. Qed.

(** Renaming the ranks of a tree. *)
Lemma tree_ok_rename N root par lc rc lev (s : nat -> nat) : (forall r, s (s r) = r) -> (forall r, (r < N)%nat -> (s r < N)%nat) -> tree_ok N root par lc rc lev ->
  tree_ok N (s root) (fun r => s <$> par (s r)) (fun r => s <$> lc (s r)) (fun r => s <$> rc (s r)) (fun r => lev (s r)).
Proof.
  intros Hs Hl []. assert (Hmap : forall o c, s <$> o = Some c <-> o = Some (s c)).
  { intros [x|] c; cbn; [|done]. split; intros [= E]; f_equal; [by rewrite <- E, Hs|by rewrite E, Hs]. }
  constructor.
  - destruct tk_root0 as [? Hp]. split; [auto|]. by rewrite Hs, Hp.
  - intros r Hr Hne. destruct (tk_par0 (s r)) as (p & Hp & Hpl & Hlt); [auto|intros E; apply Hne; by rewrite <- E, Hs|].
    exists (s p). split_and!; [by rewrite Hp|auto|by rewrite Hs].
  - intros p c Hp. rewrite !Hmap, (tk_child0 (s p) (s c)) by auto. split; intros [Hc E]; (split; [|done]); [rewrite <- (Hs c)|]; auto.
  - intros p c Hp. rewrite !Hmap. apply tk_diff0. auto.
Qed.

Lemma swap_to_rank root z : -1 <= z -> to_rank (swap_if_any_of z 0 (Z.of_nat root)) = swap root <$> to_rank z.
Proof.
  intros Hz. unfold to_rank, swap_if_any_of, swap. destruct (Z.eqb_spec z 0) as [->|H0].
  - destruct (Z.eqb_spec (Z.of_nat root) (-1)); [lia|]. cbn. by rewrite Nat2Z.id.
  - destruct (Z.eqb_spec z (Z.of_nat root)) as [->|Hr].
    + destruct (Z.eqb_spec (Z.of_nat root) (-1)); [lia|]. cbn. rewrite Nat2Z.id, decide_False by lia. by rewrite decide_True.
    + destruct (Z.eqb_spec z (-1)); [done|]. cbn. rewrite !decide_False by lia. done.
Qed.

Lemma link_range main N r : (r < N)%nat -> Z.of_nat N <= 2 ^ 30 ->
  let t := tree_at (Z.of_nat N) main r in -1 <= parent t /\ -1 <= left t /\ -1 <= right t.
Proof.
  intros Hr H1. assert (Hn : 0 < Z.of_nat N <= 2 ^ 30) by lia. assert (Hz : 0 <= Z.of_nat r < Z.of_nat N) by lia. cbv zeta. unfold tree_at. split_and!.
  - destruct (decide (r = 0%nat)) as [->|Hr0].
    + change (Z.of_nat 0) with 0. destruct (root_links main _ Hn) as (-> & _). done.
    + destruct (parent_child main _ Hn (Z.of_nat r)) as [Hb _]; lia.
  - destruct (Z.eq_dec (left (make_bin_tree (Z.of_nat N) (Z.of_nat r) main)) (-1)) as [E|Hne]; [lia|].
    destruct (child_parent main _ Hn _ _ Hz Hne (or_introl eq_refl)) as [Hb _]. lia.
  - destruct (Z.eq_dec (right (make_bin_tree (Z.of_nat N) (Z.of_nat r) main)) (-1)) as [E|Hne]; [lia|].
    destruct (child_parent main _ Hn _ _ Hz Hne (or_intror eq_refl)) as [Hb _]. lia.
Qed.

(** The copy of rank [r] has the links of the rank it changed places with. *)
Lemma copy_links main N root r : (root < N)%nat -> (r < N)%nat ->
  let c := copy_with_new_root (tree_at (Z.of_nat N) main r) (Z.of_nat root) in let t := tree_at (Z.of_nat N) main (swap root r) in
  t_p c = swap_if_any_of (t_p t) 0 (Z.of_nat root) /\ t_l c = swap_if_any_of (t_l t) 0 (Z.of_nat root) /\ t_r c = swap_if_any_of (t_r t) 0 (Z.of_nat root).
Proof.
  intros Hroot Hr. cbv zeta.
  assert (Hk : forall n x, t_rank (make_bin_tree n x main) = x /\ t_comm_size (make_bin_tree n x main) = n /\ t_main (make_bin_tree n x main) = main).
  { intros n x. unfold make_bin_tree. destruct (x =? default_root); [done|]. by destruct (0 <? _). }
  unfold copy_with_new_root, tree_at. destruct (Hk (Z.of_nat N) (Z.of_nat r)) as (-> & -> & ->). unfold default_root, swap.
  destruct (Z.eqb_spec (Z.of_nat r) 0) as [E|E]; [rewrite decide_True by lia|rewrite decide_False by lia].
  - rewrite orb_true_r. done.
  - rewrite orb_false_r. destruct (Z.eqb_spec (Z.of_nat r) (Z.of_nat root)) as [E'|E']; [rewrite decide_True by lia|rewrite decide_False by lia]; done.
Qed.

Definition rerooted (n : Z) (main : bool) (root r : nat) : ccl_bin_tree := copy_with_new_root (tree_at n main r) (Z.of_nat root).

Lemma tree_ok_ext N root par lc rc par' lc' rc' lev : (forall r, (r < N)%nat -> par r = par' r /\ lc r = lc' r /\ rc r = rc' r) ->
  tree_ok N root par lc rc lev -> tree_ok N root par' lc' rc' lev.
Proof.
  intros E []. constructor.
  - destruct tk_root0 as [Hr Hp]. destruct (E root Hr) as (<- & _). done.
  - intros r Hr Hne. destruct (E r Hr) as (<- & _). by apply tk_par0.
  - intros p c Hp. destruct (E p Hp) as (_ & <- & <-). rewrite tk_child0 by done. split; intros [Hc Hpar]; (split; [done|]); destruct (E c Hc) as (E' & _); congruence.
  - intros p c Hp. destruct (E p Hp) as (_ & <- & <-). by apply tk_diff0.
Qed.

Lemma rerooted_ok main N root : (root < N)%nat -> Z.of_nat N <= 2 ^ 30 ->
  let t := rerooted (Z.of_nat N) main root in
  tree_ok N root (par_of t) (left_of t) (right_of t) (fun r => level (Z.of_nat N) main (swap root r)).
Proof.
  intros Hroot H1. cbv zeta. pose proof (tree_ok_rename _ _ _ _ _ _ (swap root) (swap_swap root) (fun r => swap_lt root N r Hroot) (bin_tree_ok main N ltac:(lia) H1)) as H.
  replace (swap root 0) with root in H by (unfold swap; by rewrite decide_True). eapply tree_ok_ext; [|exact H].
  intros r Hr. cbv beta. destruct (copy_links main N root r Hroot Hr) as (E1 & E2 & E3).
  destruct (link_range main N (swap root r) (swap_lt _ _ _ Hroot Hr) H1) as (R1 & R2 & R3).
  unfold par_of, left_of, right_of, rerooted, parent, left, right in *. rewrite E1, E2, E3, !swap_to_rank by done. done.
Qed.

(** * Theorem *)

(** The double tree of rank [r] for a root, as the callers of [ccl_coll_build_double_tree_op] choose it. *)
Definition dtree_for (N root r : nat) : ccl_double_tree :=
  let dtree := make_double_tree (Z.of_nat N) (Z.of_nat r) in
  if (Z.of_nat root =? 0) then dtree else copy_double_tree dtree (Z.of_nat root).

(** What a rank finds in one of its two trees. *)
Definition pick (main : bool) (N root r : nat) : ccl_bin_tree := if main then T1 (dtree_for N root r) else T2 (dtree_for N root r).

Lemma pick_cases main N root : pick main N root = tree_at (Z.of_nat N) main /\ root = 0%nat \/
  (forall r, pick main N root r = rerooted (Z.of_nat N) main root r) /\ root <> 0%nat.
Proof.
  unfold pick, dtree_for. destruct (Z.eqb_spec (Z.of_nat root) 0); [left|right]; (split; [|lia]); by destruct main.
Qed.

Lemma pick_links main N root r : (root < N)%nat -> (r < N)%nat -> Z.of_nat N <= 2 ^ 30 ->
  left_of (pick main N root) r = swap root <$> left_of (tree_at (Z.of_nat N) main) (swap root r) /\
  right_of (pick main N root) r = swap root <$> right_of (tree_at (Z.of_nat N) main) (swap root r).
Proof.
  intros Hroot Hr H1. destruct (link_range main N (swap root r) (swap_lt _ _ _ Hroot Hr) H1) as (_ & R2 & R3).
  destruct (pick_cases main N root) as [[-> ->]|[E _]].
  - assert (Es : forall x, swap 0 x = x) by (intros x; unfold swap; repeat case_decide; congruence). rewrite Es.
    split; [destruct (left_of _ r)|destruct (right_of _ r)]; cbn; rewrite ?Es; done.
  - unfold left_of, right_of. rewrite !E. unfold rerooted, left, right in *. destruct (copy_links main N root r Hroot Hr) as (_ & -> & ->).
    rewrite !swap_to_rank by done. done.
Qed.

Lemma pick_ok main N root : (root < N)%nat -> Z.of_nat N <= 2 ^ 30 ->
  exists lev, tree_ok N root (par_of (pick main N root)) (left_of (pick main N root)) (right_of (pick main N root)) lev /\ forall r, (r < N)%nat -> (lev r <= 31)%nat.
Proof.
  intros Hroot H1. assert (Hlev : forall r, (r < N)%nat -> (level (Z.of_nat N) main r <= 31)%nat).
  { intros r Hr. unfold level. case_decide; [done|]. pose proof (height_bound main (Z.of_nat N) ltac:(lia) (Z.of_nat r) ltac:(lia)). unfold tree_at. lia. }
  destruct (pick_cases main N root) as [[-> ->]|[E _]].
  - exists (level (Z.of_nat N) main). split; [apply bin_tree_ok; lia|done].
  - exists (fun r => level (Z.of_nat N) main (swap root r)). split; [|intros r Hr; apply Hlev; by apply swap_lt].
    eapply tree_ok_ext; [|apply (rerooted_ok main N root Hroot H1)]. intros r _. unfold par_of, left_of, right_of. by rewrite E.
Qed.

(** The height of a node other than the root is 0 in one of the trees. *)
Lemma one_leaf N r : (0 < r < N)%nat -> Z.of_nat N <= 2 ^ 30 -> exists main,
  left_of (tree_at (Z.of_nat N) main) r = None /\ right_of (tree_at (Z.of_nat N) main) r = None.
Proof.
  intros Hr H1. exists (Z.odd (Z.of_nat r)). unfold left_of, right_of, tree_at. set (main := Z.odd (Z.of_nat r)).
  destruct (node_links main (Z.of_nat N) (Z.of_nat r)) as (h & q & (Hh & Hq & E) & _ & -> & -> & _); [lia|done|].
  assert (h = 0) as ->; [|done]. destruct (Z.eq_dec h 0) as [|Hne]; [done|exfalso].
  assert (Es : 2 ^ h = 2 * 2 ^ (h - 1)) by (replace h with (h - 1 + 1) at 1 by lia; apply pow_succ; lia).
  assert (Ho : Z.odd (Z.of_nat r + off main) = false) by (rewrite E, Es, <- Z.mul_assoc, Z.odd_mul; done).
  unfold off, main in *. rewrite Z.odd_add in Ho. by destruct (Z.odd (Z.of_nat r)).
Qed.

(** For every number of ranks that the code's ints can hold and every root, what the ranks compute on their own as parents and children
    fits together: in each of the two trees every rank but the root has one parent, which lists it as one of its two children, and the
    parents lead to the root; and no rank but the root has children in both trees. *)
Theorem double_trees_fit N root : (root < N)%nat -> Z.of_nat N <= 2 ^ 30 ->
  (forall main, exists lev, tree_ok N root (par_of (pick main N root)) (left_of (pick main N root)) (right_of (pick main N root)) lev) /\
  (forall r, (r < N)%nat -> r <> root -> exists main, left_of (pick main N root) r = None /\ right_of (pick main N root) r = None).
Proof.
  intros Hroot H1. split.
  - intros main. destruct (pick_ok main N root Hroot H1) as (lev & H & _). by exists lev.
  - intros r Hr Hne. assert (Hs : (0 < swap root r < N)%nat) by (pose proof (swap_lt root N r Hroot Hr); unfold swap in *; repeat case_decide; lia).
    destruct (one_leaf N (swap root r) Hs H1) as (main & El & Er). exists main. destruct (pick_links main N root r Hroot Hr H1) as [-> ->]. by rewrite El, Er.
Qed.

Lemma double_trees_fit_witness : right_of (pick true 11 3) 3 = Some 8%nat /\
  exists lev, tree_ok 11 3 (par_of (pick true 11 3)) (left_of (pick true 11 3)) (right_of (pick true 11 3)) lev.
Proof. split; [vm_compute; reflexivity|]. apply (double_trees_fit 11 3); cbn; lia. Defined.
