(* ===== verification/ReduceScatter.v ===== *)
(** The reduce-scatter algorithms of [src/src/coll/algorithms/reduce_scatter]. *)

From S2P Require Import Prelude Sched Network Race Bsp Build Reduction.
Open Scope ccl_scope.

(** [(int)n] for a [size_t]. *)
Definition cast_int (n : nat) : Z :=
  let w := wrap 32 (Z.of_nat n) in if (w <? 2 ^ 31)%Z then w else (w - 2 ^ 32)%Z.

(** * The ring building block *)

Section block.
Context (env : ccl_env) (dsz comm_size rank : nat).

(** [while (chunk_count > 1 && bytes / (comm_size * chunk_count) < min) chunk_count--] *)
Fixpoint shrink_chunk_count (bytes chunk_count : nat) : nat :=
  match chunk_count with
  | O => O
  | S c =>
    if (1 <? S c) && (bytes / (comm_size * S c) <? rs_min_chunk_size env)
    then shrink_chunk_count bytes c else S c
  end.

Definition rs_chunks (count : nat) : nat :=
  let bytes := count * dsz in
  let chunk_count :=
    if (rs_min_chunk_size env <=? bytes) && (rs_chunk_count env <=? count)
       && (Z.of_nat comm_size <=? cast_int count)%Z
    then rs_chunk_count env else 1 in
  let chunk_count := shrink_chunk_count bytes chunk_count in
  if chunk_count =? 0 then 1 else chunk_count.

(** The body of the chunk loop; the state is [recv_chunk_size] and [recv_chunk_offset]. *)
Definition rs_block_chunk (send_buf recv_buf tmp_buf : ccl_buffer) (inplace : bool)
    (chunk_count main_block_size last_block_size idx block_idx chunk_idx : nat)
    (prev : nat * nat) : build (nat * nat) :=
  let src := (comm_size + rank - 1) mod comm_size in
  let dst := (comm_size + rank + 1) mod comm_size in
  let use_prev := 1 <? chunk_count in
  let send_block_idx := block_idx in
  let recv_block_idx := (comm_size + block_idx - 1) mod comm_size in
  let send_block_size := if send_block_idx =? comm_size - 1 then last_block_size else main_block_size in
  let recv_block_size := if recv_block_idx =? comm_size - 1 then last_block_size else main_block_size in
  let send_block_offset := main_block_size * send_block_idx * dsz in
  let recv_block_offset := main_block_size * recv_block_idx * dsz in
  let send_main_chunk_size := send_block_size / chunk_count in
  let send_last_chunk_size := send_main_chunk_size + send_block_size mod chunk_count in
  let recv_main_chunk_size := recv_block_size / chunk_count in
  let recv_last_chunk_size := recv_main_chunk_size + recv_block_size mod chunk_count in
  let prev_recv_chunk_size := prev.1 in
  let send_chunk_size := if chunk_idx =? chunk_count - 1 then send_last_chunk_size else send_main_chunk_size in
  let recv_chunk_size := if chunk_idx =? chunk_count - 1 then recv_last_chunk_size else recv_main_chunk_size in
  let reduce_chunk_size := if use_prev then prev_recv_chunk_size else recv_chunk_size in
  let prev_recv_chunk_offset := prev.2 in
  let send_chunk_offset := send_block_offset + send_main_chunk_size * chunk_idx * dsz in
  let recv_chunk_offset := recv_block_offset + recv_main_chunk_size * chunk_idx * dsz in
  let reduce_chunk_offset := if use_prev then prev_recv_chunk_offset else recv_chunk_offset in
  let sbuf := (if inplace then recv_buf else if idx =? 0 then send_buf else recv_buf) +b send_chunk_offset in
  let rbuf0 := if inplace then tmp_buf else recv_buf in
  let rbuf := rbuf0 +b recv_chunk_offset in
  let reduce_in_buf := (if inplace then tmp_buf else send_buf) +b reduce_chunk_offset in
  let reduce_inout_buf := recv_buf +b reduce_chunk_offset in
  let recv_reduce_local_buf := (if inplace then recv_buf else send_buf) +b reduce_chunk_offset in
  let recv_reduce_comm_buf := rbuf0 +b reduce_chunk_offset in
  let recv_reduce_result_type := if inplace then ccl_recv_reduce_local_buf else ccl_recv_reduce_comm_buf in
  create_send sbuf send_chunk_size dst ;;;
  (if negb use_prev then
     create_recv_reduce dsz recv_reduce_local_buf recv_chunk_size src recv_reduce_comm_buf recv_reduce_result_type
   else
     create_recv rbuf recv_chunk_size src ;;;
     (if 0 <? idx + chunk_idx then
        create_reduce_local reduce_in_buf reduce_chunk_size reduce_inout_buf ;;; add_barrier
      else ret tt) ;;;
     (if (idx =? comm_size - 2) && (chunk_idx =? chunk_count - 1) then
        add_barrier ;;;
        create_reduce_local ((if inplace then tmp_buf else send_buf) +b recv_chunk_offset) recv_chunk_size
                            (recv_buf +b recv_chunk_offset)
      else ret tt)) ;;;
  add_barrier ;;;
  ret (recv_chunk_size, recv_chunk_offset).

(** One iteration over the blocks; the state is [block_idx] and the chunk state. *)
Definition rs_block_iter (send_buf recv_buf tmp_buf : ccl_buffer) (inplace : bool)
    (chunk_count main_block_size last_block_size idx : nat) (a : nat * (nat * nat))
  : build (nat * (nat * nat)) :=
  let block_idx := a.1 in
  prev <-- for_state 0 chunk_count
    (rs_block_chunk send_buf recv_buf tmp_buf inplace chunk_count main_block_size last_block_size idx block_idx)
    a.2 ;;
  ret ((comm_size + block_idx - 1) mod comm_size, prev).

Definition ccl_coll_build_reduce_scatter_block (send_buf recv_buf : ccl_buffer) (recv_count : nat) : build unit :=
  CCL_THROW_IF_NOT (buffer_bool send_buf && buffer_bool recv_buf) ;;;
  let count := recv_count in
  if comm_size =? 0 then ret tt else
  let chunk_count := rs_chunks count in
  let inplace := buffer_eqb send_buf recv_buf in
  if comm_size =? 1 then
    (if negb inplace then create_copy send_buf recv_buf count ;;; add_barrier else ret tt)
  else
    tmp_buf <-- (if inplace then alloc_buffer (count * dsz) else ret null_buffer) ;;
    let block_idx := (rank + comm_size - 1) mod comm_size in
    let main_block_size := count / comm_size in
    let last_block_size := main_block_size + count mod comm_size in
    for_state 0 (comm_size - 1)
      (rs_block_iter send_buf recv_buf tmp_buf inplace chunk_count main_block_size last_block_size)
      (block_idx, (0, 0)) ;;;
    ret tt.
End block.

(** * The top-level algorithms *)

(** [ccl::is_reduce_scatter_inplace]; pointers into different allocations do not alias. *)
Definition is_reduce_scatter_inplace (env : ccl_env) (send_buf recv_buf : ccl_buffer)
    (recv_count dsz rank comm_size : nat) : result bool :=
  let recv_buf_size := recv_count * dsz in
  let send_buf_size := recv_buf_size * comm_size in
  let address_aliasing :=
    bool_decide (buf_src send_buf = buf_src recv_buf) && (buf_offset send_buf <=? buf_offset recv_buf)
    && (buf_offset recv_buf <? buf_offset send_buf + send_buf_size) in
  let inplace := buffer_eqb recv_buf (send_buf +b rank * recv_buf_size) in
  throw_if_not (negb (address_aliasing && negb inplace && check_inplace_aliasing env)) ;;
  Ok inplace.

Definition ccl_coll_build_naive_reduce_scatter (env : ccl_env) (dsz comm_size rank : nat)
    (send_buf recv_buf : ccl_buffer) (recv_count : nat) : build unit :=
  if recv_count =? 0 then ret tt else
  CCL_THROW_IF_NOT (buffer_bool send_buf && buffer_bool recv_buf) ;;;
  inplace <-- lift (is_reduce_scatter_inplace env send_buf recv_buf recv_count dsz rank comm_size) ;;
  (if negb inplace then create_copy (send_buf +b rank * recv_count * dsz) recv_buf recv_count else ret tt) ;;;
  tmp_buf <-- alloc_buffer (recv_count * dsz) ;;
  for_range 1 (comm_size - 1) (fun idx =>
    let src := (comm_size + rank - idx) mod comm_size in
    let dst := (rank + idx) mod comm_size in
    create_send (send_buf +b dst * recv_count * dsz) recv_count dst ;;;
    create_recv tmp_buf recv_count src ;;;
    add_barrier ;;;
    create_reduce_local tmp_buf recv_count recv_buf).

Definition ccl_coll_build_ring_reduce_scatter (env : ccl_env) (dsz comm_size rank : nat)
    (send_buf recv_buf : ccl_buffer) (recv_count : nat) : build unit :=
  if recv_count =? 0 then ret tt else
  CCL_THROW_IF_NOT (buffer_bool send_buf && buffer_bool recv_buf) ;;;
  recv_local_buf <-- alloc_buffer (recv_count * comm_size * dsz) ;;
  ccl_coll_build_reduce_scatter_block env dsz comm_size rank send_buf recv_local_buf (recv_count * comm_size) ;;;
  create_copy (recv_local_buf +b rank * recv_count * dsz) recv_buf recv_count.

(** * Blocks and chunks *)

(** [count] elements in [P] blocks of [C] chunks, the last ones larger. *)
Section geometry.
Context (P C count : nat) (HP : 0 < P) (HC : 0 < C).

Definition bsize (b : nat) : nat :=
  if b =? P - 1 then count / P + count mod P else count / P.
Definition boff (b : nat) : nat := count / P * b.
Definition clen (b c : nat) : nat :=
  if c =? C - 1 then bsize b / C + bsize b mod C else bsize b / C.
Definition coff (b c : nat) : nat := boff b + bsize b / C * c.

Lemma block_bound b : b < P -> boff b + bsize b <= count.
Proof using HP.
  clear C HC. intros Hb. pose proof (Nat.div_mod_eq count P). unfold boff, bsize.
  destruct (Nat.eqb_spec b (P - 1)); [subst|]; nia.
Qed.

Lemma block_before b b' : b < b' -> b' < P -> boff b + bsize b <= boff b'.
Proof using HP. clear C HC. intros Hb Hb'. unfold boff, bsize. destruct (Nat.eqb_spec b (P - 1)); nia. Qed.

Lemma chunk_in_block b c : c < C -> coff b c + clen b c <= boff b + bsize b.
Proof.
  intros Hc. pose proof (Nat.div_mod_eq (bsize b) C). unfold coff, clen.
  destruct (Nat.eqb_spec c (C - 1)); [subst|]; nia.
Qed.

Lemma chunk_before b c c' : c < c' -> c' < C -> coff b c + clen b c <= coff b c'.
Proof. intros Hc Hc'. unfold coff, clen. destruct (Nat.eqb_spec c (C - 1)); nia. Qed.

Lemma chunk_bound b c : b < P -> c < C -> coff b c + clen b c <= count.
Proof. intros Hb Hc. pose proof (chunk_in_block b c Hc). pose proof (block_bound b Hb). lia. Qed.

Lemma chunk_apart b c b' c' : b < P -> c < C -> b' < P -> c' < C -> (b, c) <> (b', c') ->
  coff b c + clen b c <= coff b' c' \/ coff b' c' + clen b' c' <= coff b c.
Proof.
  intros Hb Hc Hb' Hc' Hne. destruct (lt_eq_lt_dec b b') as [[Hlt| ->]|Hgt].
  - left. pose proof (chunk_in_block b c Hc). pose proof (block_before b b' Hlt Hb').
    unfold coff in *. lia.
  - destruct (lt_eq_lt_dec c c') as [[Hlt| ->]|Hgt]; [left|done|right]; by apply chunk_before.
  - right. pose proof (chunk_in_block b' c' Hc'). pose proof (block_before b' b Hgt Hb).
    unfold coff in *. lia.
Qed.

(** Every position of a block is in one of its chunks. *)
Lemma chunk_cover b i : boff b <= i < boff b + bsize b ->
  exists c, c < C /\ coff b c <= i < coff b c + clen b c.
Proof.
  intros [H1 H2]. unfold coff, clen. set (q := bsize b / C).
  pose proof (Nat.div_mod_eq (bsize b) C) as E. fold q in E.
  destruct (decide (q * (C - 1) <= i - boff b)).
  - exists (C - 1). rewrite Nat.eqb_refl. split; [lia|]. nia.
  - assert (Hq : 0 < q) by nia. exists ((i - boff b) / q).
    pose proof (Nat.div_mod_eq (i - boff b) q). pose proof (Nat.mod_upper_bound (i - boff b) q ltac:(lia)).
    assert ((i - boff b) / q < C - 1) by nia.
    split; [lia|]. destruct (Nat.eqb_spec ((i - boff b) / q) (C - 1)); nia.
Qed.
End geometry.

(** * The ring, in closed form *)

Definition ring_prev (P r : nat) : nat := (P + r - 1) mod P.
Definition ring_next (P r : nat) : nat := (P + r + 1) mod P.

(** The block rank [r] sends in iteration [idx], and receives in iteration [idx - 1]. *)
Definition blk (P idx r : nat) : nat := (r + P - 1 - idx) mod P.

Lemma ring_perm P r : r < P ->
  ring_next P r < P /\ ring_prev P r < P /\
  ring_prev P (ring_next P r) = r /\ ring_next P (ring_prev P r) = r.
Proof. intros Hr. unfold ring_next, ring_prev. split_and!; try (apply Nat.mod_upper_bound; lia); mod_lia. Qed.

Lemma blk_lt P d r : r < P -> blk P d r < P.
Proof. intros. apply Nat.mod_upper_bound. lia. Qed.

Lemma blk_inj P d d' r : r < P -> d < P -> d' < P -> blk P d r = blk P d' r -> d = d'.
Proof. intros Hr Hd Hd'. unfold blk. mod_lia. Qed.

Lemma blk_prev P d r : r < P -> S d < P -> blk P (S d) r = blk P d (ring_prev P r).
Proof. intros Hr Hd. unfold blk, ring_prev. mod_lia. Qed.

Lemma blk_S P d r : r < P -> S d < P -> blk P (S d) r = (P + blk P d r - 1) mod P.
Proof. intros Hr Hd. unfold blk. mod_lia. Qed.

Lemma blk_last P r : r < P -> blk P (P - 1) r = r.
Proof. intros Hr. unfold blk. mod_lia. Qed.

Lemma blk_surj P b r : r < P -> b < P -> exists d, d < P /\ blk P d r = b.
Proof.
  intros Hr Hb. exists ((r + P - 1 - b) mod P). split; [apply Nat.mod_upper_bound; lia|].
  unfold blk. mod_lia.
Qed.

Section groups.
Context (env : ccl_env) (dsz P count : nat) (send recv : nat -> ccl_buffer) (nx : nat -> nat).

Definition inp (r : nat) : bool := buffer_eqb (send r) (recv r).
Definition tmp (r : nat) : ccl_buffer := if inp r then mk_buffer (nx r) 0 else null_buffer.
Abbreviation C := (rs_chunks env dsz P count).
Abbreviation off d c r := (coff P C count (blk P d r) c).
Abbreviation len d c r := (clen P C count (blk P d r) c).

Definition local_base (r : nat) : ccl_buffer := if inp r then recv r else send r.
Definition sbase (idx r : nat) : ccl_buffer :=
  if inp r then recv r else if idx =? 0 then send r else recv r.
Definition rbase (r : nat) : ccl_buffer := if inp r then tmp r else recv r.
Definition red_base (r : nat) : ccl_buffer := if inp r then tmp r else send r.
Definition rtype (r : nat) : ccl_recv_reduce_result_buf_type :=
  if inp r then ccl_recv_reduce_local_buf else ccl_recv_reduce_comm_buf.

Definition sendE (idx c r : nat) : entry :=
  send_entry (sbase idx r +b off idx c r * dsz) (len idx c r) (ring_next P r).
Definition recvE (idx c r : nat) : entry :=
  recv_entry (rbase r +b off (S idx) c r * dsz) (len (S idx) c r) (ring_prev P r).
Definition recvredE (idx c r : nat) : entry :=
  recv_reduce_entry (local_base r +b off (S idx) c r * dsz) (len (S idx) c r) (ring_prev P r)
                    (rbase r +b off (S idx) c r * dsz) (rtype r).
Definition redE (d c r : nat) : entry :=
  reduce_local_entry (red_base r +b off d c r * dsz) (len d c r) (recv r +b off d c r * dsz).

(** The chunk received just before chunk [c] of iteration [idx]. *)
Definition prev_d (idx c : nat) : nat := if c =? 0 then idx else S idx.
Definition prev_c (c : nat) : nat := if c =? 0 then C - 1 else c - 1.

Definition rs_groups (idx c : nat) : list (nat -> list entry) :=
  if C =? 1 then [fun r => [sendE idx c r; recvredE idx c r]]
  else if idx + c =? 0 then [fun r => [sendE idx c r; recvE idx c r]]
  else (fun r => [sendE idx c r; recvE idx c r; redE (prev_d idx c) (prev_c c) r]) :: (fun _ => []) ::
       (if (idx =? P - 2) && (c =? C - 1) then [fun r => [redE (S idx) c r]] else []).

Definition block_groups : list (nat -> list entry) :=
  seq 0 (P - 1) ≫= fun idx => seq 0 C ≫= rs_groups idx.

Lemma rs_chunks_pos : 0 < C.
Proof. unfold rs_chunks. case_match eqn:E; [lia|]. apply Nat.eqb_neq in E. lia. Qed.

(** Buffers are not null, temporaries are fresh, and a rank's buffers are one or separate. *)
Definition bufs_ok (r : nat) : Prop :=
  0 < buf_src (send r) < nx r /\ 0 < buf_src (recv r) < nx r /\
  (send r = recv r \/ buf_src (send r) <> buf_src (recv r)).

Lemma inp_cases r : bufs_ok r ->
  (send r = recv r /\ inp r = true) \/ (buf_src (send r) <> buf_src (recv r) /\ inp r = false).
Proof.
  intros (H1 & H2 & [E|H3]); [left|right].
  - split; [done|]. unfold inp. rewrite E. apply buffer_eqb_refl.
  - split; [done|]. apply buffer_eqb_src; [lia|done].
Qed.

Definition chunk_state (idx c : nat) (r : nat) : nat * nat :=
  if idx + c =? 0 then (0, 0)
  else (len (prev_d idx c) (prev_c c) r, off (prev_d idx c) (prev_c c) r * dsz).

Lemma off_bytes d c r : coff P C count (blk P d r) c * dsz =
  count / P * blk P d r * dsz + bsize P count (blk P d r) / C * c * dsz.
Proof. unfold coff, boff. lia. Qed.

Lemma rs_chunk_st r idx c gs n al :
  r < P -> S idx < P -> c < C -> bufs_ok r ->
  rs_block_chunk dsz P r (send r) (recv r) (tmp r) (inp r) C (count / P) (count / P + count mod P)
     idx (blk P idx r) c (chunk_state idx c r) (st gs [] n al) =
  Ok (chunk_state idx (S c) r, st (gs ++ at_rank r (rs_groups idx c)) [] n al).
Proof.
  intros Hr Hidx Hc Hok. pose proof rs_chunks_pos as HC.
  assert (Hst : chunk_state idx (S c) r = (len (S idx) c r, off (S idx) c r * dsz)).
  { unfold chunk_state, prev_d, prev_c. cbn [Nat.eqb]. replace (idx + S c =? 0) with false by (symmetry; apply Nat.eqb_neq; lia).
    by rewrite Nat.sub_succ, Nat.sub_0_r. }
  unfold rs_block_chunk. rewrite <- blk_S by done.
  fold (bsize P count (blk P idx r)) (bsize P count (blk P (S idx) r)).
  fold (clen P C count (blk P idx r) c) (clen P C count (blk P (S idx) r) c).
  rewrite <- !off_bytes. rewrite Hst. unfold rs_groups.
  destruct (Nat.ltb_spec 1 C) as [H1|H1]; cbn [negb].
  - replace (C =? 1) with false by (symmetry; apply Nat.eqb_neq; lia). unfold chunk_state.
    destruct (Nat.eqb_spec (idx + c) 0) as [H0|H0].
    + replace (0 <? idx + c) with false by (symmetry; apply Nat.ltb_ge; lia).
      replace ((idx =? P - 2) && (c =? C - 1)) with false
        by (symmetry; apply andb_false_iff; right; apply Nat.eqb_neq; lia).
      build_simp. done.
    + replace (0 <? idx + c) with true by (symmetry; apply Nat.ltb_lt; lia). cbn [fst snd].
      destruct ((idx =? P - 2) && (c =? C - 1)); build_simp; done.
  - replace (C =? 1) with true by (symmetry; apply Nat.eqb_eq; lia).
    build_simp. erewrite bind_Ok; [|apply create_recv_reduce_st].
    2-4: destruct (inp_cases r Hok) as [[E Ht]|[Hne Hf]]; unfold tmp; rewrite ?Ht, ?Hf; cbn;
      destruct Hok as (? & ? & _); lia.
    build_simp. unfold ret. do 3 f_equal.
Qed.
Lemma rs_iter_st r idx gs n al :
  r < P -> S idx < P -> bufs_ok r ->
  rs_block_iter dsz P r (send r) (recv r) (tmp r) (inp r) C (count / P) (count / P + count mod P)
     idx (blk P idx r, chunk_state idx 0 r) (st gs [] n al) =
  Ok (blk P (S idx) r, chunk_state (S idx) 0 r, st (gs ++ at_rank r (seq 0 C ≫= rs_groups idx)) [] n al).
Proof.
  intros Hr Hidx Hok. pose proof rs_chunks_pos as HC. unfold rs_block_iter. cbn [fst snd].
  erewrite bind_Ok; [|apply (for_state_run 0 C _ (fun c => chunk_state idx c r)
    (fun c => st (gs ++ at_rank r (seq 0 c ≫= rs_groups idx)) [] n al))].
  - unfold ret. rewrite <- blk_S by done. do 2 f_equal. f_equal.
    unfold chunk_state, prev_d, prev_c. cbn [Nat.add].
    destruct (Nat.eqb_spec (idx + C) 0); [lia|]. destruct (Nat.eqb_spec C 0); [lia|]. done.
  - done.
  - cbn. by rewrite app_nil_r.
  - intros c Hc. rewrite rs_chunk_st by (done || lia). cbn [Nat.add]. by rewrite at_rank_snoc, app_assoc.
Qed.

Lemma block_st_many r gs al :
  r < P -> 2 <= P -> 0 < count * dsz -> bufs_ok r ->
  ccl_coll_build_reduce_scatter_block env dsz P r (send r) (recv r) count (st gs [] (nx r) al) =
  Ok (tt, st (gs ++ at_rank r block_groups) [] (if inp r then S (nx r) else nx r)
            (al ++ if inp r then [(nx r, count * dsz)] else [])).
Proof.
  intros Hr HP Hpos Hok. unfold ccl_coll_build_reduce_scatter_block.
  assert (buffer_bool (send r) = true /\ buffer_bool (recv r) = true) as [-> ->].
  { destruct Hok as (? & ? & _). unfold buffer_bool. rewrite !bool_decide_eq_true_2 by lia. done. }
  destruct (Nat.eqb_spec P 0); [lia|]. destruct (Nat.eqb_spec P 1); [lia|]. cbn [andb].
  fold (inp r). replace ((r + P - 1) mod P) with (blk P 0 r) by (unfold blk; by rewrite Nat.sub_0_r).
  assert (Hloop : forall n al, bind (for_state 0 (P - 1)
      (rs_block_iter dsz P r (send r) (recv r) (tmp r) (inp r) C (count / P) (count / P + count mod P))
      (blk P 0 r, (0, 0))) (fun _ => ret tt) (st gs [] n al) = Ok (tt, st (gs ++ at_rank r block_groups) [] n al)).
  { intros n' al'. erewrite bind_Ok; [|apply (for_state_run 0 (P - 1) _ (fun i => (blk P i r, chunk_state i 0 r))
      (fun i => st (gs ++ at_rank r (seq 0 i ≫= fun idx => seq 0 C ≫= rs_groups idx)) [] n' al'))].
    - done.
    - done.
    - cbn. by rewrite app_nil_r.
    - intros i Hi. rewrite rs_iter_st by (done || lia). cbn [Nat.add]. by rewrite at_rank_snoc, app_assoc. }
  unfold tmp in Hloop. destruct (inp r).
  - build_simp. apply Hloop.
  - rewrite bind_ret, app_nil_r. apply Hloop.
Qed.
(** The groups for any number of ranks. *)
Definition block_all : list (nat -> list entry) :=
  if P =? 1 then [fun r => if inp r then [] else [copy_entry (send r) (recv r) count]] else block_groups.
Definition block_allocs (r : nat) : list (nat * nat) :=
  if (P =? 1) || negb (inp r) then [] else [(nx r, count * dsz)].
Definition block_next (r : nat) : nat := if (P =? 1) || negb (inp r) then nx r else S (nx r).

Lemma block_st r gs al :
  r < P -> 0 < count * dsz -> bufs_ok r ->
  ccl_coll_build_reduce_scatter_block env dsz P r (send r) (recv r) count (st gs [] (nx r) al) =
  Ok (tt, st (gs ++ at_rank r block_all) [] (block_next r) (al ++ block_allocs r)).
Proof.
  intros Hr Hpos Hok. unfold block_all, block_next, block_allocs. destruct (Nat.eqb_spec P 1) as [->|H1]; cbn [orb].
  - unfold ccl_coll_build_reduce_scatter_block.
    assert (buffer_bool (send r) = true /\ buffer_bool (recv r) = true) as [-> ->].
    { destruct Hok as (? & ? & _). unfold buffer_bool. rewrite !bool_decide_eq_true_2 by lia. done. }
    fold (inp r). cbn [Nat.eqb andb]. rewrite app_nil_r. cbn [at_rank fmap list_fmap]. destruct (inp r); cbn [negb].
    + by rewrite st_empty_group.
    + build_simp. done.
  - rewrite block_st_many by (done || lia). by destruct (inp r).
Qed.

(** Races: a chunk is never read and written in one group. *)
Lemma rs_apart d c d' c' r b b' :
  r < P -> d < P -> d' < P -> c < C -> c' < C -> (d, c) <> (d', c') ->
  (b = b' \/ buf_src b <> buf_src b') ->
  apart dsz (b +b off d c r * dsz, len d c r) (b' +b off d' c' r * dsz, len d' c' r).
Proof.
  intros Hr Hd Hd' Hc Hc' Hne [->|Hb]; [|by apply apart_src].
  apply apart_sub, chunk_apart; try done; try lia; try by apply blk_lt.
  intros [= E ->]. apply Hne. f_equal. exact (blk_inj P d d' r Hr Hd Hd' E).
Qed.

(** The buffers a rank uses. *)
Definition pool (r : nat) : list ccl_buffer := [send r; recv r; if inp r then tmp r else recv r].

Lemma pool_send r : send r ∈ pool r.
Proof. left. Qed.
Lemma pool_recv r : recv r ∈ pool r.
Proof. right. left. Qed.
Lemma pool_tmp r : inp r = true -> tmp r ∈ pool r.
Proof. unfold pool. intros ->. right. right. left. Qed.

Lemma pool_apart r b b' : bufs_ok r -> b ∈ pool r -> b' ∈ pool r -> b = b' \/ buf_src b <> buf_src b'.
Proof.
  unfold pool. intros Hok Hb Hb'. destruct (inp_cases r Hok) as [[E Ht]|[Hne Hf]]; unfold tmp in *;
    rewrite ?Ht, ?Hf in *; destruct Hok as (? & ? & _); set_unfold; destruct_or?; try done; subst;
    rewrite ?E; auto; right; cbn; try lia; rewrite ?E; lia.
Qed.

Lemma rs_groups_ok idx c r g :
  r < P -> S idx < P -> c < C -> bufs_ok r -> g ∈ rs_groups idx c -> group_ok dsz (g r).
Proof.
  intros Hr Hidx Hc Hok. unfold rs_groups.
  assert (Hfin : forall d d' c c' b b', d < P -> d' < P -> c < C -> c' < C -> (d <> d' \/ c <> c') ->
    b ∈ pool r -> b' ∈ pool r ->
    apart dsz (b +b off d c r * dsz, len d c r) (b' +b off d' c' r * dsz, len d' c' r)).
  { intros * ? ? ? ? Hne ? ?. apply rs_apart; try done; [|by eapply pool_apart].
    intros [= -> ->]. by destruct Hne. }
  unfold sendE, recvE, recvredE, redE, rtype, sbase, local_base, rbase, red_base, prev_d, prev_c. intros Hg.
  repeat (case_match || (apply elem_of_cons in Hg as [->|Hg]) || (apply not_elem_of_nil in Hg; done));
    repeat match goal with
    | H : (_ =? _) = false |- _ => apply Nat.eqb_neq in H
    | H : (_ =? _) = true |- _ => apply Nat.eqb_eq in H
    end;
    group_races; (apply Hfin; [lia..| |]); first [apply pool_send|apply pool_recv|by apply pool_tmp].
Qed.
Lemma block_all_ok r : r < P -> bufs_ok r -> Forall (group_ok dsz) (at_rank r block_all).
Proof.
  intros Hr Hok. apply Forall_fmap, Forall_forall. intros g Hg. unfold block_all in Hg.
  destruct (Nat.eqb_spec P 1) as [->|H1].
  - apply list_elem_of_singleton in Hg as ->. cbn. destruct (inp r); group_races.
  - apply list_elem_of_bind in Hg as (idx & Hg & Hidx%elem_of_seq).
    apply list_elem_of_bind in Hg as (c & Hg & Hc%elem_of_seq). eapply rs_groups_ok; [..|exact Hg]; (done || lia).
Qed.
End groups.

(** * What the ring computes *)

Section ring_values.
Context {V : Type} (op : V -> V -> V) (env : ccl_env) (dsz P count : nat) (send recv : nat -> ccl_buffer) (nx : nat -> nat)
        (x : nat -> nat -> V).
Context (dsz_pos : 0 < dsz).
Abbreviation memory := (gmap (nat * nat) V).
Abbreviation C := (rs_chunks env dsz P count).
Abbreviation off d c r := (coff P C count (blk P d r) c).
Abbreviation len d c r := (clen P C count (blk P d r) c).
Abbreviation inp := (inp send recv).
Abbreviation tmp := (tmp send recv nx).
Abbreviation bufs_ok := (bufs_ok send recv nx).
Abbreviation prv := (ring_prev P).
Implicit Types (m : memory).

(** What rank [r] has of element [i] once [d + 1] ranks have contributed. *)
Fixpoint acc (d r i : nat) : V :=
  match d with
  | O => x r i
  | S d' => if inp r then op (x r i) (acc d' (prv r) i) else op (acc d' (prv r) i) (x r i)
  end.

Definition in_chunk (d c r i : nat) : Prop := off d c r <= i < off d c r + len d c r.

(** Chunks in [red] are reduced, chunks in [raw] received and not reduced. *)
Definition ring_inv (red raw : nat -> nat -> Prop) (r : nat) m : Prop :=
  if inp r then
    exists g h, arr dsz m (recv r) count g /\ arr dsz m (tmp r) count h /\
      forall d c i, d < P -> c < C -> in_chunk d c r i ->
        (red d c -> g i = acc d r i) /\ (~ red d c \/ d = 0 -> g i = x r i) /\ (raw d c -> h i = acc (d - 1) (prv r) i)
  else
    arr dsz m (send r) count (x r) /\ exists g, arr dsz m (recv r) count g /\
      forall d c i, d < P -> c < C -> in_chunk d c r i ->
        (red d c -> 0 < d -> g i = acc d r i) /\ (raw d c -> g i = acc (d - 1) (prv r) i).

Definition plus1 (S : nat -> nat -> Prop) (d c d' c' : nat) : Prop := S d' c' \/ (d' = d /\ c' = c).
Definition minus1 (S : nat -> nat -> Prop) (d c d' c' : nat) : Prop := S d' c' /\ ~ (d' = d /\ c' = c).

Lemma ring_inv_iff (red raw red' raw' : nat -> nat -> Prop) r m :
  (forall d c, d < P -> c < C -> red d c <-> red' d c) -> (forall d c, d < P -> c < C -> raw d c <-> raw' d c) ->
  ring_inv red raw r m -> ring_inv red' raw' r m.
Proof.
  intros H1 H2. unfold ring_inv. destruct (inp r).
  - intros (g & h & Hg & Hh & H). exists g, h. split; [done|]. split; [done|]. intros d c i Hd Hc Hi.
    rewrite <- H1, <- H2 by done. by apply H.
  - intros (Hs & g & Hg & H). split; [done|]. exists g. split; [done|]. intros d c i Hd Hc Hi.
    rewrite <- H1, <- H2 by done. by apply H.
Qed.

Lemma chunk_bound' d c r : r < P -> c < C -> off d c r + len d c r <= count.
Proof. intros Hr Hc. apply chunk_bound; [lia|lia|by apply blk_lt|done]. Qed.

Lemma in_chunk_inj d c d' c' r i : r < P -> d < P -> d' < P -> c < C -> c' < C ->
  in_chunk d c r i -> in_chunk d' c' r i -> d = d' /\ c = c'.
Proof.
  intros Hr Hd Hd' Hc Hc' H H'. unfold in_chunk in *.
  destruct (decide ((blk P d r, c) = (blk P d' r, c'))) as [[= E ->]|Hne].
  - split; [|done]. exact (blk_inj P d d' r Hr Hd Hd' E).
  - destruct (chunk_apart P C count ltac:(lia) ltac:(lia) (blk P d r) c (blk P d' r) c'); try lia;
      try (by apply blk_lt); done.
Qed.

(** An update of one chunk, seen from chunk [d'], [c']. *)
Lemma upd_chunk d c r (f g : nat -> V) d' c' i :
  r < P -> d < P -> d' < P -> c < C -> c' < C -> in_chunk d' c' r i ->
  upd f (off d c r) (len d c r) g i = if decide (d' = d /\ c' = c) then g (i - off d c r) else f i.
Proof.
  intros Hr Hd Hd' Hc Hc' Hi. unfold upd. case_decide as H1; case_decide as H2; try done.
  - exfalso. apply H2. destruct (in_chunk_inj d' c' d c r i); try done.
  - exfalso. apply H1. by destruct H2 as [-> ->].
Qed.

(** The data sent: chunk [c] of the block reached in iteration [idx]. *)
Lemma ring_send red raw r m idx c :
  r < P -> idx < P -> c < C -> ring_inv red raw r m -> red idx c \/ idx = 0 ->
  read_cells dsz m (sbase send recv idx r +b off idx c r * dsz) (len idx c r) =
  Some ((fun i => acc idx r (off idx c r + i)) <$> seq 0 (len idx c r)).
Proof.
  intros Hr Hi Hc Hinv Hred. pose proof (chunk_bound' idx c r Hr Hc) as Hb.

  assert (Hval : forall b g, arr dsz m b count g -> (forall i, in_chunk idx c r i -> g i = acc idx r i) ->
    read_cells dsz m (b +b off idx c r * dsz) (len idx c r) =
    Some ((fun i => acc idx r (off idx c r + i)) <$> seq 0 (len idx c r))).
  { intros b g Hg H. erewrite read_sub; [|done|exact Hg|exact Hb]. f_equal.
    apply list_fmap_ext. intros j i [-> Hj]%lookup_seq. apply H. unfold in_chunk. lia. }
  unfold ring_inv, sbase in *. destruct (inp r).
  - destruct Hinv as (g & h & Hg & _ & H). apply (Hval _ g); [done|]. intros i Hin.
    destruct (H idx c i) as (E1 & E2 & _); [done..|]. destruct Hred as [Hr'| ->]; [by apply E1|]. apply E2. by right.
  - destruct Hinv as (Hs & g & Hg & H). destruct (Nat.eqb_spec idx 0) as [->|Hne].
    + apply (Hval _ (x r)); [done|]. done.
    + apply (Hval _ g); [done|]. intros i Hin. destruct Hred as [Hr'|]; [|done].
      apply (H idx c i); [done..|lia].
Qed.

(** Receiving a chunk without reducing it. *)
Lemma ring_recv red raw r m idx c :
  r < P -> S idx < P -> c < C -> bufs_ok r -> ring_inv red raw r m -> ~ red (S idx) c ->
  exists m', complete_entry op dsz (recvE env dsz P count send recv nx idx c r)
      ((fun i => acc idx (prv r) (off (S idx) c r + i)) <$> seq 0 (len (S idx) c r)) m = Some m' /\
    ring_inv red (plus1 raw (S idx) c) r m'.
Proof.
  intros Hr Hi Hc Hok Hinv Hnr. pose proof (chunk_bound' (S idx) c r Hr Hc) as Hb.
  unfold recvE, rbase, ring_inv in *. destruct (inp_cases send recv nx r Hok) as [[E Hf]|[Hne Hf]]; rewrite Hf in *.
  - destruct Hinv as (g & h & Hg & Hh & H).
    edestruct (recv_sub op dsz dsz_pos m (tmp r) count h) as (m' & Hm & A & K); [exact Hh|exact Hb|].
    exists m'. split; [exact Hm|]. exists g. eexists. split; [|split; [exact A|]].
    + eapply keeps_arr; [exact K| |exact Hg]. unfold ReduceScatter.tmp. rewrite Hf. cbn. destruct Hok as (? & ? & _). lia.
    + intros d' c' i Hd' Hc' Hin. destruct (H d' c' i Hd' Hc' Hin) as (E1 & E2 & E3).
      rewrite upd_chunk with (d' := d') (c' := c') by done. split; [done|]. split; [done|].
      intros Hor. case_decide as Hd; [|destruct Hor; [by apply E3|done]].
      destruct Hd as [-> ->]. rewrite Nat.sub_succ, Nat.sub_0_r. unfold in_chunk in Hin. f_equal. lia.
  - destruct Hinv as (Hs & g & Hg & H).
    edestruct (recv_sub op dsz dsz_pos m (recv r) count g) as (m' & Hm & A & K); [exact Hg|exact Hb|].
    exists m'. split; [exact Hm|]. split; [by eapply keeps_arr|]. eexists. split; [exact A|].
    intros d' c' i Hd' Hc' Hin. destruct (H d' c' i Hd' Hc' Hin) as (E1 & E3).
    rewrite upd_chunk with (d' := d') (c' := c') by done. case_decide as Hd.
    + destruct Hd as [-> ->]. unfold in_chunk in Hin. split; [done|]. intros _.
      rewrite Nat.sub_succ, Nat.sub_0_r. f_equal. lia.
    + split; [done|]. intros [Hraw|?]; [by apply E3|done].
Qed.
Lemma tmp_src r : bufs_ok r -> inp r = true -> buf_src (recv r) <> buf_src (tmp r).
Proof. intros (? & ? & _) Hf. unfold ReduceScatter.tmp. rewrite Hf. cbn. lia. Qed.

Lemma acc_S d r i : acc (S d) r i =
  if inp r then op (x r i) (acc d (prv r) i) else op (acc d (prv r) i) (x r i).
Proof. done. Qed.

(** Reducing a received chunk. *)
Lemma ring_reduce red raw r m d c :
  r < P -> 0 < d < P -> c < C -> bufs_ok r -> ring_inv red raw r m -> raw d c -> ~ red d c ->
  exists m', start_entry op dsz (redE env dsz P count send recv nx d c r) m = Some (m', None) /\
    ring_inv (plus1 red d c) (minus1 raw d c) r m'.
Proof.
  intros Hr [Hd0 Hd] Hc Hok Hinv Hraw Hnr. pose proof (chunk_bound' d c r Hr Hc) as Hb.
  assert (Hd1 : d = S (d - 1)) by lia.
  unfold redE, red_base, ring_inv in *. cbn [start_entry send_entry_start copy_entry_start reduce_local_entry_start].
  destruct (inp_cases send recv nx r Hok) as [[E Hf]|[Hne Hf]]; rewrite Hf in *.
  - destruct Hinv as (g & h & Hg & Hh & H).
    edestruct (reduce_sub op dsz dsz_pos m (tmp r) count h (off d c r) (recv r) count g (off d c r) (len d c r))
      as (m' & -> & A & K); [done..|].
    exists m'. split; [done|]. eexists _, h. split; [exact A|]. split.
    { eapply keeps_arr; [exact K| |exact Hh]. apply not_eq_sym. by apply tmp_src. }
    intros d' c' i Hd' Hc' Hin. destruct (H d' c' i Hd' Hc' Hin) as (E1 & E2 & E3).
    rewrite upd_chunk with (d' := d') (c' := c') by done. unfold plus1, minus1. case_decide as Hx.
    + destruct Hx as [-> ->]. unfold in_chunk in Hin. replace (off d c r + (i - off d c r)) with i by lia.
      split; [|naive_solver lia]. intros _. rewrite Hd1 at 1. rewrite acc_S, Hf, E2, E3 by auto. done.
    + split; [naive_solver|]. split; [naive_solver|naive_solver].
  - destruct Hinv as (Hs & g & Hg & H).
    edestruct (reduce_sub op dsz dsz_pos m (send r) count (x r) (off d c r) (recv r) count g (off d c r) (len d c r))
      as (m' & -> & A & K); [done..|].
    exists m'. split; [done|]. split; [by eapply keeps_arr|]. eexists. split; [exact A|].
    intros d' c' i Hd' Hc' Hin. destruct (H d' c' i Hd' Hc' Hin) as (E1 & E3).
    rewrite upd_chunk with (d' := d') (c' := c') by done. unfold plus1, minus1. case_decide as Hx.
    + destruct Hx as [-> ->]. unfold in_chunk in Hin. replace (off d c r + (i - off d c r)) with i by lia.
      split; [|naive_solver lia]. intros _ _. rewrite Hd1 at 1. rewrite acc_S, Hf, E3 by auto. done.
    + split; naive_solver.
Qed.

(** Receiving and reducing in one entry. *)
Lemma ring_recvred red raw r m idx c :
  r < P -> S idx < P -> c < C -> bufs_ok r -> ring_inv red raw r m -> ~ red (S idx) c -> ~ raw (S idx) c ->
  exists m', complete_entry op dsz (recvredE env dsz P count send recv nx idx c r)
      ((fun i => acc idx (prv r) (off (S idx) c r + i)) <$> seq 0 (len (S idx) c r)) m = Some m' /\
    ring_inv (plus1 red (S idx) c) raw r m'.
Proof.
  intros Hr Hi Hc Hok Hinv Hnr Hnw. pose proof (chunk_bound' (S idx) c r Hr Hc) as Hb.
  unfold recvredE, rbase, local_base, rtype, ring_inv in *.
  destruct (inp_cases send recv nx r Hok) as [[E Hf]|[Hne Hf]]; rewrite Hf in *.
  - destruct Hinv as (g & h & Hg & Hh & H).
    edestruct (recv_reduce_local_sub op dsz dsz_pos m (recv r) count g (off (S idx) c r) (tmp r) count h (off (S idx) c r))
      as (m' & Hm & A & B & K); [by apply tmp_src|done..|].
    exists m'. split; [exact Hm|]. eexists _, _. split; [exact A|]. split; [exact B|].
    intros d' c' i Hd' Hc' Hin. destruct (H d' c' i Hd' Hc' Hin) as (E1 & E2 & E3).
    rewrite !upd_chunk with (d' := d') (c' := c') by done. unfold plus1. case_decide as Hx.
    + destruct Hx as [-> ->]. unfold in_chunk in Hin.
      replace (off (S idx) c r + (i - off (S idx) c r)) with i by lia.
      split; [|naive_solver lia]. intros _. rewrite acc_S, Hf, E2 by auto. done.
    + split; [naive_solver|]. split; [naive_solver|naive_solver].
  - destruct Hinv as (Hs & g & Hg & H).
    edestruct (recv_reduce_comm_sub op dsz dsz_pos m (send r) count (x r) (off (S idx) c r) (recv r) count g (off (S idx) c r))
      as (m' & Hm & A & K); [done..|].
    exists m'. split; [exact Hm|]. split; [by eapply keeps_arr|]. eexists. split; [exact A|].
    intros d' c' i Hd' Hc' Hin. destruct (H d' c' i Hd' Hc' Hin) as (E1 & E3).
    rewrite !upd_chunk with (d' := d') (c' := c') by done. unfold plus1. case_decide as Hx.
    + destruct Hx as [-> ->]. unfold in_chunk in Hin.
      replace (off (S idx) c r + (i - off (S idx) c r)) with i by lia.
      split; [|naive_solver lia]. intros _ _. by rewrite acc_S, Hf.
    + split; naive_solver.
Qed.
(** ** The supersteps *)

Abbreviation sendE := (sendE env dsz P count send recv).
Abbreviation recvE := (recvE env dsz P count send recv nx).
Abbreviation recvredE := (recvredE env dsz P count send recv nx).
Abbreviation redE := (redE env dsz P count send recv nx).

Definition chunk_msg (idx c r : nat) : list V :=
  (fun i => acc idx r (off idx c r + i)) <$> seq 0 (len idx c r).

Lemma chunk_msg_prev idx c r : r < P -> S idx < P ->
  chunk_msg idx c (prv r) = (fun i => acc idx (prv r) (off (S idx) c r + i)) <$> seq 0 (len (S idx) c r).
Proof. intros Hr Hi. unfold chunk_msg. by rewrite blk_prev. Qed.

Context (Hbufs : forall r, r < P -> bufs_ok r).

Lemma fused_step red raw idx c ms :
  S idx < P -> c < C -> (red idx c \/ idx = 0) -> ~ red (S idx) c -> ~ raw (S idx) c ->
  (forall r, r < P -> ring_inv red raw r (ms r)) ->
  steps op dsz P (fun r => [sendE idx c r; recvredE idx c r]) ms (ring_inv (plus1 red (S idx) c) raw).
Proof.
  intros Hi Hc Hred Hn1 Hn2 Hms.
  apply (exchange_step op dsz P _ ms _ (ring_next P) (ring_prev P) (chunk_msg idx c) (recvredE idx c)).
  - intros r Hr. by apply ring_perm.
  - done.
  - intros r Hr. destruct (ring_recvred red raw r (ms r) idx c) as (m' & Hm & Hinv'); [done|done|done|by apply Hbufs|by apply Hms|done|done|].
    exists (ms r), m'. split; [|split; [|done]].
    + cbn. rewrite (ring_send red raw) by (done || lia || by apply Hms). done.
    + by rewrite chunk_msg_prev.
Qed.

Lemma first_step red raw idx c ms :
  S idx < P -> c < C -> (red idx c \/ idx = 0) -> ~ red (S idx) c ->
  (forall r, r < P -> ring_inv red raw r (ms r)) ->
  steps op dsz P (fun r => [sendE idx c r; recvE idx c r]) ms (ring_inv red (plus1 raw (S idx) c)).
Proof.
  intros Hi Hc Hred Hn1 Hms.
  apply (exchange_step op dsz P _ ms _ (ring_next P) (ring_prev P) (chunk_msg idx c) (recvE idx c)).
  - intros r Hr. by apply ring_perm.
  - done.
  - intros r Hr. destruct (ring_recv red raw r (ms r) idx c) as (m' & Hm & Hinv'); [done..|by apply Hbufs|by apply Hms|done|].
    exists (ms r), m'. split; [|split; [|done]].
    + cbn. rewrite (ring_send red raw) by (done || lia || by apply Hms). done.
    + by rewrite chunk_msg_prev.
Qed.

Lemma pipelined_step red raw idx c d c' ms :
  S idx < P -> c < C -> 0 < d < P -> c' < C -> (red idx c \/ idx = 0) ->
  raw d c' -> ~ red d c' -> ~ plus1 red d c' (S idx) c ->
  (forall r, r < P -> ring_inv red raw r (ms r)) ->
  steps op dsz P (fun r => [sendE idx c r; recvE idx c r; redE d c' r]) ms (ring_inv (plus1 red d c') (plus1 (minus1 raw d c') (S idx) c)).
Proof.
  intros Hi Hc Hd Hc' Hred Hraw Hn1 Hn2 Hms.
  apply (exchange_step op dsz P _ ms _ (ring_next P) (ring_prev P) (chunk_msg idx c) (recvE idx c)).
  - intros r Hr. by apply ring_perm.
  - done.
  - intros r Hr.
    destruct (ring_reduce red raw r (ms r) d c') as (m1 & Hm1 & Hinv1); [done|done|done|by apply Hbufs|by apply Hms|done|done|].
    destruct (ring_recv (plus1 red d c') (minus1 raw d c') r m1 idx c) as (m' & Hm & Hinv'); [done|done|done|by apply Hbufs|done|done|].
    exists m1, m'. split; [|split; [|done]].
    + cbn [start_group]. unfold sendE at 1, recvE at 1. cbn [start_entry send_entry_start copy_entry_start reduce_local_entry_start].
      rewrite (ring_send red raw) by (done || lia || by apply Hms). cbn -[start_entry ReduceScatter.redE]. rewrite Hm1. done.
    + by rewrite chunk_msg_prev.
Qed.

Lemma tail_step red raw d c ms :
  0 < d < P -> c < C -> raw d c -> ~ red d c -> (forall r, r < P -> ring_inv red raw r (ms r)) ->
  steps op dsz P (fun r => [redE d c r]) ms (ring_inv (plus1 red d c) (minus1 raw d c)).
Proof.
  intros Hd Hc Hraw Hn Hms. apply local_step. intros r Hr. split; [done|].
  destruct (ring_reduce red raw r (ms r) d c) as (m1 & Hm1 & Hinv1); [done|done|done|by apply Hbufs|by apply Hms|done|done|].
  exists m1. split; [|done]. cbn [start_group]. by rewrite Hm1.
Qed.
(** ** The whole ring *)

(** The chunk received by step [k], counting chunks over all iterations. *)
Definition when (d c : nat) : nat := (d - 1) * C + c.

Lemma when_inj d c d' c' : 0 < d -> 0 < d' -> c < C -> c' < C -> when d c = when d' c' -> d = d' /\ c = c'.
Proof. unfold when. intros. assert (d - 1 = d' - 1) by nia. nia. Qed.

Definition red_at (k d c : nat) : Prop :=
  d = 0 \/ (if C =? 1 then d <= k else when d c + 1 < k \/ k = (P - 1) * C).
Definition raw_at (k d c : nat) : Prop :=
  0 < d /\ (if C =? 1 then False else when d c + 1 = k /\ k <> (P - 1) * C).

Abbreviation ring_at k := (ring_inv (red_at k) (raw_at k)).

Lemma when_S idx c : when (S idx) c = idx * C + c.
Proof. unfold when. by rewrite Nat.sub_succ, Nat.sub_0_r. Qed.

Lemma when_prev idx c : 0 < idx + c -> c < C -> 0 < prev_d idx c /\ prev_c env dsz P count c < C /\
  when (prev_d idx c) (prev_c env dsz P count c) + 1 = idx * C + c.
Proof.
  intros H Hc. unfold prev_d, prev_c, when. destruct (Nat.eqb_spec c 0).
  - split_and!; [lia..|]. nia.
  - split_and!; [lia..|]. rewrite Nat.sub_succ, Nat.sub_0_r. lia.
Qed.

Lemma rs_groups_step idx c ms :
  S idx < P -> c < C -> (forall r, r < P -> ring_at (idx * C + c) r (ms r)) ->
  runs op dsz P (rs_groups env dsz P count send recv nx idx c) ms (ring_at (S (idx * C + c))).
Proof.
  intros Hi Hc Hms. set (k := idx * C + c) in *. unfold rs_groups.
  assert (HK : k < (P - 1) * C) by (subst k; nia). assert (HK2 : C <= (P - 1) * C) by nia.
  destruct (Nat.eqb_spec C 1) as [H1|H1].
  { destruct (fused_step (red_at k) (raw_at k) idx c ms) as (ms' & Hs & Hms'); try done.
    - left. unfold red_at. rewrite (proj2 (Nat.eqb_eq _ _) H1). right. lia.
    - unfold red_at. rewrite (proj2 (Nat.eqb_eq _ _) H1). lia.
    - unfold raw_at. rewrite (proj2 (Nat.eqb_eq _ _) H1). lia.
    - exists ms'. split; [by apply bsp_one|]. intros r Hr. eapply ring_inv_iff; [| |by apply Hms'].
      + intros d' c' _ Hc'. unfold plus1, red_at. rewrite (proj2 (Nat.eqb_eq _ _) H1). lia.
      + intros d' c' _ _. unfold raw_at. rewrite (proj2 (Nat.eqb_eq _ _) H1). lia. }
  assert (HC1 : (C =? 1) = false) by (by apply Nat.eqb_neq).
  assert (Hsent : red_at k idx c \/ idx = 0).
  { destruct (decide (idx = 0)); [by right|]. left. unfold red_at. rewrite HC1. right. left. unfold when. subst k. nia. }
  assert (Hwk : when (S idx) c = k) by apply when_S.
  assert (Hnew : ~ red_at k (S idx) c) by (unfold red_at; rewrite HC1, Hwk; lia).
  destruct (Nat.eqb_spec (idx + c) 0) as [H0|H0].
  { destruct (first_step (red_at k) (raw_at k) idx c ms) as (ms' & Hs & Hms'); try done.
    exists ms'. split; [by apply bsp_one|]. intros r Hr. eapply ring_inv_iff; [| |by apply Hms'].
    - intros d' c' _ Hc'. unfold red_at. rewrite HC1. lia.
    - intros d' c' _ Hc'. unfold plus1, raw_at. rewrite HC1. split; [intros [?|[-> ->]]; lia|].
      intros (Hd' & Hw & _). right. apply when_inj; try lia. }
  destruct (when_prev idx c ltac:(lia) Hc) as (Hpd & Hpc & Hpw). fold k in Hpw.
  set (pd := prev_d idx c) in *. set (pc := prev_c env dsz P count c) in *.
  assert (Hpd' : pd < P) by (subst pd; unfold prev_d; case_match; lia).
  assert (Hrawp : raw_at k pd pc) by (unfold raw_at; rewrite HC1; lia).
  assert (Hnredp : ~ red_at k pd pc) by (unfold red_at; rewrite HC1; lia).
  assert (Hother : ~ plus1 (red_at k) pd pc (S idx) c).
  { unfold plus1. intros [?|[E1 E2]]; [done|]. rewrite E1, E2 in Hwk. lia. }
  destruct (pipelined_step (red_at k) (raw_at k) idx c pd pc ms) as (ms1 & Hs1 & Hms1); try done.
  destruct (skip_step op dsz P ms1 _ Hms1) as (ms2 & Hs2 & Hms2).
  assert (Hredk : forall d' c', d' < P -> c' < C -> plus1 (red_at k) pd pc d' c' <-> d' = 0 \/ when d' c' + 1 < S k).
  { intros d' c' _ Hc'. unfold plus1, red_at. rewrite HC1. split; [intros [?|[-> ->]]; lia|].
    intros [->|Hw]; [auto|]. destruct (decide (d' = 0)); [auto|].
    destruct (decide (when d' c' + 1 = k)); [|left; lia]. right. apply when_inj; lia. }
  assert (Hrawk : forall d' c', d' < P -> c' < C ->
    plus1 (minus1 (raw_at k) pd pc) (S idx) c d' c' <-> 0 < d' /\ when d' c' = k).
  { intros d' c' _ Hc'. unfold plus1, minus1, raw_at. rewrite HC1. split.
    - intros [((Hd' & Hw & _) & Hne)|[-> ->]]; [|lia]. exfalso. apply Hne. apply when_inj; lia.
    - intros [Hd' Hw]. right. apply when_inj; lia. }
  destruct ((idx =? P - 2) && (c =? C - 1)) eqn:Etail.
  - apply andb_true_iff in Etail as [->%Nat.eqb_eq ->%Nat.eqb_eq].
    assert (HkK : S k = (P - 1) * C) by (subst k; nia).
    destruct (tail_step (plus1 (red_at k) pd pc) (plus1 (minus1 (raw_at k) pd pc) (S (P - 2)) (C - 1)) (S (P - 2)) (C - 1) ms2)
      as (ms3 & Hs3 & Hms3); try done; [lia|by right|].
    exists ms3. split; [econstructor; [done|]; econstructor; [done|]; by apply bsp_one|].
    intros r Hr. eapply ring_inv_iff; [| |by apply Hms3].
    + intros d' c' Hd' Hc'. unfold plus1 at 1. rewrite Hredk by done. unfold red_at. rewrite HC1. split; [lia|].
      intros _. destruct (decide (d' = 0)); [auto|]. destruct (decide (when d' c' = k)); [right; apply when_inj; lia|].
      left. right. assert (when d' c' < (P - 1) * C) by (unfold when; nia). lia.
    + intros d' c' Hd' Hc'. unfold minus1 at 1. rewrite Hrawk by done. unfold raw_at. rewrite HC1. split; [|lia].
      intros [[? Hw] Hne]. exfalso. apply Hne. apply when_inj; lia.
  - assert (HkK : S k <> (P - 1) * C).
    { apply andb_false_iff in Etail. subst k. intros E. destruct Etail as [E'%Nat.eqb_neq|E'%Nat.eqb_neq]; nia. }
    exists ms2. split; [econstructor; [done|]; by apply bsp_one|].
    intros r Hr. eapply ring_inv_iff; [| |by apply Hms2].
    + intros d' c' Hd' Hc'. rewrite Hredk by done. unfold red_at. rewrite HC1. lia.
    + intros d' c' Hd' Hc'. rewrite Hrawk by done. unfold raw_at. rewrite HC1. lia.
Qed.
Lemma ring_start r m : 2 <= P -> r < P -> bufs_ok r ->
  arr dsz m (send r) count (x r) -> (exists g, arr dsz m (recv r) count g) ->
  (inp r = true -> exists h, arr dsz m (tmp r) count h) -> ring_at 0 r m.
Proof.
  intros HP Hr Hok Hs [g Hg] Ht. pose proof (rs_chunks_pos env dsz P count) as HC.
  assert (HK : 0 < (P - 1) * C) by nia.
  assert (Hred : forall d c, red_at 0 d c -> d = 0) by (unfold red_at; intros d c; case_match; lia).
  assert (Hraw : forall d c, ~ raw_at 0 d c) by (unfold raw_at; intros d c; case_match; lia).
  unfold ring_inv. destruct (inp_cases send recv nx r Hok) as [[E Hf]|[Hne Hf]]; rewrite Hf.
  - destruct (Ht Hf) as [h Hh]. exists (x r), h. rewrite <- E. split; [done|]. split; [done|].
    intros d c i _ _ _. split; [by intros ->%Hred|]. split; [done|]. by intros ?%Hraw.
  - split; [done|]. exists g. split; [done|]. intros d c i _ _ _. split; [intros ->%Hred; lia|]. by intros ?%Hraw.
Qed.

(** The block of the last iteration, completely reduced. *)
Definition block_done (r : nat) m : Prop :=
  exists g, arr dsz m (recv r) count g /\
    forall i, boff P count r <= i < boff P count r + bsize P count r -> g i = acc (P - 1) r i.

Lemma ring_end r m : 2 <= P -> r < P -> ring_at ((P - 1) * C) r m -> block_done r m.
Proof.
  intros HP Hr Hinv. pose proof (rs_chunks_pos env dsz P count) as HC.
  assert (Hcov : forall i, boff P count r <= i < boff P count r + bsize P count r ->
    exists c, c < C /\ in_chunk (P - 1) c r i).
  { intros i Hi. unfold in_chunk. rewrite blk_last by done. apply chunk_cover; (done || lia). }
  assert (Hred : forall c, red_at ((P - 1) * C) (P - 1) c).
  { intros c. unfold red_at. destruct (Nat.eqb_spec C 1); right; [nia|by right]. }
  unfold ring_inv in Hinv. destruct (inp r).
  - destruct Hinv as (g & h & Hg & _ & H). exists g. split; [done|]. intros i (c & Hc & Hin)%Hcov.
    destruct (H (P - 1) c i) as (E & _ & _); [lia|done..|]. apply E, Hred.
  - destruct Hinv as (_ & g & Hg & H). exists g. split; [done|]. intros i (c & Hc & Hin)%Hcov.
    destruct (H (P - 1) c i) as (E & _); [lia|done..|]. apply E; [apply Hred|lia].
Qed.

Lemma block_bsp ms : 0 < P ->
  (forall r, r < P -> arr dsz (ms r) (send r) count (x r) /\ (exists g, arr dsz (ms r) (recv r) count g) /\
     (2 <= P -> inp r = true -> exists h, arr dsz (ms r) (tmp r) count h)) ->
  runs op dsz P (block_all env dsz P count send recv nx) ms block_done.
Proof.
  intros HP Hms. unfold block_all. destruct (Nat.eqb_spec P 1) as [E1|H1].
  - destruct (local_step op dsz P (fun r => if inp r then [] else [copy_entry (send r) (recv r) count]) ms block_done)
      as (ms' & Hs & Hms').
    + intros r Hr. destruct (Hms r Hr) as (Hsr & [g Hg] & _).
      assert (Hacc : forall i, acc (P - 1) r i = x r i) by (rewrite E1; done).
      destruct (inp_cases send recv nx r (Hbufs r Hr)) as [[E Hf]|[Hne Hf]]; rewrite Hf.
      * split; [done|]. eexists. split; [done|]. exists (x r). rewrite <- E. by split.
      * split; [done|]. edestruct (copy_sub dsz dsz_pos (ms r) (send r) count (x r) 0 (recv r) count g 0 count)
          as (m' & Hm & A & _); [done..|].
        exists m'. split; [|eexists; split; [exact A|]].
        { cbn. replace (send r +b 0 * dsz) with (send r) in Hm by (destruct (send r); unfold buffer_add; cbn; f_equal; lia).
          replace (recv r +b 0 * dsz) with (recv r) in Hm by (destruct (recv r); unfold buffer_add; cbn; f_equal; lia).
          by rewrite Hm. }
        intros i Hi. rewrite Hacc. assert (boff P count r + bsize P count r <= count) by (apply block_bound; lia). unfold upd. cases_lia.
        cbn. f_equal. lia.
    + exists ms'. split; [by apply bsp_one|done].
  - destruct (runs_loop op dsz P (fun idx => seq 0 C ≫= rs_groups env dsz P count send recv nx idx)
                (fun idx r m => ring_at (idx * C) r m) 0 (P - 1) ms) as (ms' & Hb & Hms').
    + intros idx ms1 Hidx Hms1.
      destruct (runs_loop op dsz P (rs_groups env dsz P count send recv nx idx)
                  (fun c r m => ring_at (idx * C + c) r m) 0 C ms1) as (ms2 & Hb2 & Hms2).
      * intros c ms2 Hc Hms2. replace (idx * C + S c) with (S (idx * C + c)) by lia. apply rs_groups_step; (done || lia).
      * intros r Hr. rewrite Nat.add_0_r. by apply Hms1.
      * exists ms2. split; [done|]. intros r Hr. replace (S idx * C) with (idx * C + (0 + C)) by lia. by apply Hms2.
    + intros r Hr. destruct (Hms r Hr) as (? & ? & Ht). apply ring_start; [lia|done|by apply Hbufs|done|done|apply Ht; lia].
    + exists ms'. split; [done|]. intros r Hr. apply ring_end; [lia|done|]. by apply Hms'.
Qed.
(** ** All ranks contribute *)

(** The ranks whose values [acc d r] combines, the latest first. *)
Fixpoint chain (d r : nat) : list nat :=
  match d with O => [r] | S d' => r :: chain d' (prv r) end.

Lemma chain_length d r : length (chain d r) = S d.
Proof. revert r. induction d as [|d IH]; intros r; cbn; [done|]. by rewrite IH. Qed.

(** [q] is in the chain when it is at most [d] steps behind [r]. *)
Lemma chain_elem d r q : r < P -> d < P -> q ∈ chain d r -> q < P /\ (P + r - q) mod P <= d.
Proof.
  revert r. induction d as [|d IH]; intros r Hr Hd Hq.
  - apply list_elem_of_singleton in Hq as ->. split; [done|]. mod_lia.
  - cbn in Hq. apply elem_of_cons in Hq as [->|Hq]; [split; [done|]; mod_lia|].
    assert (Hp : prv r < P) by (by apply ring_perm).
    destruct (IH (prv r)) as [Hq' Hm]; [done|lia|done|]. split; [done|]. unfold ring_prev in *. mod_lia.
Qed.

Lemma chain_NoDup d r : r < P -> d < P -> NoDup (chain d r).
Proof.
  revert r. induction d as [|d IH]; intros r Hr Hd; [apply NoDup_singleton|]. cbn.
  assert (Hp : prv r < P) by (by apply ring_perm). constructor; [|apply IH; [done|lia]].
  intros Hin. apply chain_elem in Hin as [_ Hm]; [|done|lia]. unfold ring_prev in *. mod_lia.
Qed.

Lemma acc_total `{!Assoc (=) op, !Comm (=) op} r i : r < P ->
  acc (P - 1) r i = reduce_ranks op P (fun q => x q i).
Proof.
  intros Hr.
  assert (Hf : forall d r, fold1 op ((fun q => x q i) <$> chain d r) = Some (acc d r i)).
  { induction d as [|d IH]; intros r'; [done|]. cbn [chain fmap list_fmap].
    erewrite fold1_cons; [|exact _|apply IH]. cbn. destruct (inp r'); [done|]. f_equal. apply (comm op). }
  eapply (fold1_any_order op P _ (chain (P - 1) r)); [..|apply Hf].
  - apply chain_NoDup; lia.
  - rewrite chain_length. lia.
  - intros q Hq. by apply chain_elem in Hq as [? _]; [|lia..].
  - lia.
Qed.
End ring_values.

(** * Correctness of the builders *)

Section correct.
Context {V : Type} (op : V -> V -> V) (env : ccl_env) (dsz P : nat) (x : nat -> nat -> V) (dsz_pos : 0 < dsz) (HP : 0 < P).
Abbreviation memory := (gmap (nat * nat) V).
Implicit Types m : memory.

Lemma block_tmp count send recv nx r m :
  Forall (allocated dsz m) (block_allocs dsz P count send recv nx r) ->
  2 <= P -> inp send recv r = true -> exists h, arr dsz m (tmp send recv nx r) count h.
Proof using dsz_pos HP.
  intros Hal HP2 Hin. unfold block_allocs in Hal. rewrite Hin in Hal.
  destruct (Nat.eqb_spec P 1); [lia|]. cbn in Hal. apply Forall_cons in Hal as [[f Hf] _]. cbn in Hf.
  rewrite Nat.div_mul in Hf by lia. exists f. unfold tmp. by rewrite Hin.
Qed.

(** The ring building block [ccl_coll_build_reduce_scatter_block], with any chunking and for
    in-place and out-of-place buffers: every interleaving of the ranks ends without
    deadlock, and then rank [r] holds in block [r] of its receive buffer the
    contributions of all ranks, combined in ring order. *)
Theorem reduce_scatter_block_correct (count : nat) (send recv : nat -> ccl_buffer) (nx : nat -> nat) :
  0 < count -> (forall r, r < P -> bufs_ok send recv nx r) ->
  implements op dsz P (fun r => ccl_coll_build_reduce_scatter_block env dsz P r (send r) (recv r) count) nx
    (fun r m => arr dsz m (send r) count (x r) /\ exists g, arr dsz m (recv r) count g)
    (block_done op dsz P count send recv x).
Proof.
  intros Hc Hok. eapply (implements_intro _ _ _ _ _ _ _ (block_all env dsz P count send recv nx) (fun _ => [])
    (block_next P send recv nx) (block_allocs dsz P count send recv nx)); [done| | |].
  - intros r Hr. by rewrite block_st by (auto || nia).
  - intros r Hr. split; [by apply block_all_ok; auto|done].
  - intros ms Hms. eapply runs_seq; [eapply block_bsp; [done..|]|].
    + intros r Hr. destruct (Hms r Hr) as ((Hs & Hg) & Hal). split; [done|]. split; [done|].
      by apply block_tmp.
    + intros ms1 H1. by apply runs_one, skip_step.
Qed.

Lemma ring_reduce_scatter_reduces (rc : nat) (send recv : nat -> ccl_buffer) (nx : nat -> nat) :
  Assoc (=) op -> Comm (=) op ->
  (forall r, r < P -> 0 < buf_src (send r) < nx r /\ 0 < buf_src (recv r) < nx r) ->
  implements op dsz P (fun r => ccl_coll_build_ring_reduce_scatter env dsz P r (send r) (recv r) rc) nx
    (fun r m => arr dsz m (send r) (rc * P) (x r) /\ exists g, arr dsz m (recv r) rc g)
    (fun r m => arr dsz m (recv r) rc (fun i => reduce_ranks op P (fun q => x q (r * rc + i)))).
Proof.
  intros Ha Hc Hok. set (loc := fun r => mk_buffer (nx r) 0). set (nx1 := fun r => S (nx r)).
  assert (Hok' : forall r, r < P -> bufs_ok send loc nx1 r).
  { intros r Hr. destruct (Hok r Hr). unfold bufs_ok. subst loc nx1. cbn. lia. }
  destruct (Nat.eqb_spec rc 0) as [->|Hrc].
  { eapply (implements_intro _ _ _ _ _ _ _ [] (fun _ => []) nx (fun _ => [])); [done|done|done|].
    intros ms Hms. apply runs_one, skip_step. intros r Hr i Hi. lia. }
  eapply (implements_intro _ _ _ _ _ _ _ (block_all env dsz P (rc * P) send loc nx1)
    (fun r => [copy_entry (loc r +b r * rc * dsz) (recv r) rc])
    (block_next P send loc nx1)
    (fun r => (nx r, rc * P * dsz) :: block_allocs dsz P (rc * P) send loc nx1 r)); [done| | |].
  - intros r Hr. unfold ccl_coll_build_ring_reduce_scatter. rewrite (proj2 (Nat.eqb_neq _ _) Hrc).
    assert (buffer_bool (send r) = true /\ buffer_bool (recv r) = true) as [-> ->].
    { destruct (Hok r Hr). unfold buffer_bool. rewrite !bool_decide_eq_true_2 by lia. done. }
    assert (Hpos : 0 < rc * P * dsz) by (apply Nat.mul_pos_pos; [apply Nat.mul_pos_pos|]; lia).
    cbn [andb]. build_simp. erewrite bind_Ok; [|apply (block_st env dsz P (rc * P) send loc nx1); auto].
    build_simp. done.
  - intros r Hr. split; [by apply block_all_ok; auto|]. group_races.
  - intros ms Hms. eapply runs_seq; [apply runs_grows, block_bsp; [done|done|done|]|].
    + intros r Hr. destruct (Hms r Hr) as ((Hs & Hg) & [[f Hf] Hal]%Forall_cons). split; [done|]. split.
      * exists f. cbn in Hf. by rewrite Nat.div_mul in Hf by lia.
      * intros _ Hin. destruct (inp_cases send loc nx1 r (Hok' r Hr)) as [[E _]|[_ E]]; [|congruence].
        exfalso. destruct (Hok r Hr). rewrite E in *. cbn in *. lia.
    + intros ms1 H1. apply runs_one, local_step.
      intros r Hr. split; [done|]. destruct (H1 r Hr) as ((g & Hg & Hval) & Hgr).
      destruct (Hms r Hr) as ((_ & h0 & Hh0) & _). destruct (arr_grows dsz _ _ _ _ _ Hgr Hh0) as [h Hh].
      assert (Hboff : boff P (rc * P) r = r * rc) by (unfold boff; rewrite Nat.div_mul; lia).
      assert (Hbsz : bsize P (rc * P) r = rc).
      { unfold bsize. rewrite Nat.div_mul, Nat.Div0.mod_mul by lia. case_match; lia. }
      destruct (copy_arr dsz dsz_pos (ms1 r) (loc r +b r * rc * dsz) (fun i => g (r * rc + i)) (recv r) h rc)
        as (m' & Hm & A & _); [|done|].
      { apply arr_sub with (n := rc * P); [done..|]. assert (S r * rc <= P * rc) by (apply Nat.mul_le_mono_r; lia). lia. }
      exists m'. split; [cbn; by rewrite Hm|]. eapply (arr_ext dsz); [|exact A].
      intros i Hi. cbn. rewrite Hval by lia. by eapply acc_total.
Qed.

(** The ring reduce-scatter [ccl_coll_build_ring_reduce_scatter] with an associative and
    commutative operation: for any chunking, every interleaving ends and rank [r]
    receives the reduction over all ranks of the elements of its block. *)
Theorem ring_reduce_scatter_correct (rc : nat) (send recv : nat -> ccl_buffer) (nx : nat -> nat) :
  Assoc (=) op -> Comm (=) op ->
  (forall r, r < P -> 0 < buf_src (send r) < nx r /\ 0 < buf_src (recv r) < nx r) ->
  implements op dsz P (fun r => ccl_coll_build_ring_reduce_scatter env dsz P r (send r) (recv r) rc) nx
    (fun r m => arr dsz m (send r) (rc * P) (x r) /\ exists g, arr dsz m (recv r) rc g)
    (fun r m => arr dsz m (recv r) rc (fun i => reduce_ranks op P (fun q => x q (r * rc + i)))).
Proof. apply ring_reduce_scatter_reduces. Qed.
End correct.

(** * The naive algorithm *)

Section naive.
Context {V : Type} (op : V -> V -> V) (env : ccl_env) (dsz P rc : nat) (x : nat -> nat -> V)
        (dsz_pos : 0 < dsz) (HP : 0 < P) (rc_pos : 0 < rc).
Context (send recv : nat -> ccl_buffer) (nx : nat -> nat).
Abbreviation memory := (gmap (nat * nat) V).
Implicit Types m : memory.

Definition naive_bufs_ok (r : nat) : Prop :=
  0 < buf_src (send r) < nx r /\ 0 < buf_src (recv r) < nx r /\
  (recv r = send r +b r * rc * dsz \/ buf_src (send r) <> buf_src (recv r)).
Context (Hok : forall r, r < P -> naive_bufs_ok r).

Abbreviation tmpb r := (mk_buffer (nx r) 0).
Definition inpl (r : nat) : bool := buffer_eqb (recv r) (send r +b r * (rc * dsz)).
Definition nsrc (r idx : nat) : nat := (P + r - idx) mod P.
Definition ndst (r idx : nat) : nat := (r + idx) mod P.
Definition prelude (idx r : nat) : list entry :=
  if idx =? 1 then if inpl r then [] else [copy_entry (send r +b r * rc * dsz) (recv r) rc]
  else [reduce_local_entry (tmpb r) rc (recv r)].
Definition nexch (idx r : nat) : list entry :=
  [send_entry (send r +b ndst r idx * rc * dsz) rc (ndst r idx); recv_entry (tmpb r) rc (nsrc r idx)].
Definition ngroup (idx r : nat) : list entry := prelude idx r ++ nexch idx r.

Lemma inplace_cases r : r < P ->
  (recv r = send r +b r * rc * dsz /\ inpl r = true) \/ (buf_src (send r) <> buf_src (recv r) /\ inpl r = false).
Proof.
  intros Hr. destruct (Hok r Hr) as (H1 & H2 & [E|Hne]); [left|right]; (split; [done|]); unfold inpl.
  - rewrite E, Nat.mul_assoc. apply buffer_eqb_refl.
  - apply buffer_eqb_src; [lia|]. cbn. congruence.
Qed.

Lemma inplace_test r : r < P ->
  is_reduce_scatter_inplace env (send r) (recv r) rc dsz r P = Ok (inpl r).
Proof.
  intros Hr. unfold is_reduce_scatter_inplace. fold (inpl r).
  destruct (inplace_cases r Hr) as [[_ ->]|[Hne ->]]; cbn; [by rewrite andb_false_r|].
  by rewrite bool_decide_eq_false_2.
Qed.

Lemma naive_st r : r < P ->
  ccl_coll_build_naive_reduce_scatter env dsz P r (send r) (recv r) rc (st [] [] (nx r) []) =
  Ok (tt, st (at_rank r (seq 1 (P - 1) ≫= fun i => [ngroup i])) (prelude P r) (S (nx r)) [(nx r, rc * dsz)]).
Proof.
  intros Hr. unfold ccl_coll_build_naive_reduce_scatter. destruct (Nat.eqb_spec rc 0); [lia|].
  assert (buffer_bool (send r) = true /\ buffer_bool (recv r) = true) as [-> ->].
  { destruct (Hok r Hr) as (? & ? & _). unfold buffer_bool. rewrite !bool_decide_eq_true_2 by lia. done. }
  cbn [andb]. rewrite inplace_test by done. cbn [lift]. rewrite bind_ret.
  assert (Hpre : (if negb (inpl r) then create_copy (send r +b r * rc * dsz) (recv r) rc else ret tt) (st [] [] (nx r) [])
                 = Ok (tt, st [] (prelude 1 r) (nx r) [])) by (unfold prelude; by destruct (inpl r)).
  rewrite (bind_Ok _ _ _ _ _ Hpre). build_simp.
  erewrite (for_range_run 1 (P - 1) _ (fun i => st (at_rank r (seq 1 (i - 1) ≫= fun i => [ngroup i]))
    (prelude i r) (S (nx r)) [(nx r, rc * dsz)])).
  - do 3 f_equal; do 3 f_equal; lia.
  - done.
  - intros i Hi. build_simp. replace (1 + i - 1) with (S (i - 1)) by lia. rewrite at_rank_snoc.
    replace (1 + (i - 1)) with i by lia. unfold ngroup, nexch. do 3 f_equal.
    unfold prelude. destruct (Nat.eqb_spec (1 + i) 1); [lia|done].
Qed.
(** Regions: the blocks of the send buffer, the receive buffer and the temporary. *)
Lemma block_apart r d : r < P -> d <> r ->
  apart dsz (recv r, rc) (send r +b d * rc * dsz, rc).
Proof.
  intros Hr Hd. destruct (inplace_cases r Hr) as [[-> _]|[Hne _]].
  - apply apart_sub. destruct (decide (d < r)); [right|left]; nia.
  - apply apart_src. cbn. congruence.
Qed.

Lemma tmp_apart r b n : r < P -> buf_src b < nx r -> apart dsz (tmpb r, rc) (b, n).
Proof. intros Hr Hb. apply apart_src. cbn. lia. Qed.

Lemma recv_src r : r < P -> buf_src (recv r) < nx r.
Proof. intros Hr. destruct (Hok r Hr) as (? & ? & _). lia. Qed.
Lemma send_src r o : r < P -> buf_src (send r +b o) < nx r.
Proof. intros Hr. destruct (Hok r Hr) as (? & ? & _). cbn. lia. Qed.

Lemma ndst_ne r idx : r < P -> 0 < idx < P -> ndst r idx <> r /\ ndst r idx < P.
Proof. intros. unfold ndst. split; [mod_lia|apply Nat.mod_upper_bound; lia]. Qed.

Lemma ngroup_ok r idx : r < P -> 0 < idx < P -> group_ok dsz (ngroup idx r).
Proof.
  intros Hr Hi. unfold ngroup, prelude, nexch. pose proof (send_src r (ndst r idx * rc * dsz) Hr).
  repeat case_match; group_races; by apply tmp_apart.
Qed.

(** The partial reduction after [k] messages. *)
Fixpoint nacc (k r i : nat) : V :=
  match k with O => x r (r * rc + i) | S k' => op (nacc k' r i) (x (nsrc r (S k')) (r * rc + i)) end.

Definition blocks_kept (r : nat) m : Prop :=
  forall d, d < P -> d <> r -> arr dsz m (send r +b d * rc * dsz) rc (fun i => x r (d * rc + i)).

(** Before iteration [idx]. *)
Definition naive_inv (idx r : nat) m : Prop :=
  blocks_kept r m /\ exists f h, arr dsz m (recv r) rc f /\ arr dsz m (tmpb r) rc h /\
  (if idx =? 1 then arr dsz m (send r +b r * rc * dsz) rc (fun i => x r (r * rc + i))
   else f = nacc (idx - 2) r /\ h = fun i => x (nsrc r (idx - 1)) (r * rc + i)).

(** The entry of iteration [idx] that precedes its exchange. *)
Lemma prelude_run idx r m : r < P -> 0 < idx -> naive_inv idx r m ->
  exists m1, start_group op dsz (prelude idx r) m = Some (m1, []) /\
    blocks_kept r m1 /\ arr dsz m1 (recv r) rc (nacc (idx - 1) r) /\ exists h, arr dsz m1 (tmpb r) rc h.
Proof.
  intros Hr Hi (Hb & f & h & Hf & Hh & Hx).
  assert (Hwrite : forall e m1, write_s e = [(recv r, rc)] -> start_entry op dsz e m = Some (m1, None) ->
    blocks_kept r m1 /\ exists h, arr dsz m1 (tmpb r) rc h).
  { intros e m1 Hw Hs. split.
    - intros d Hd Hne. eapply start_arr; [done|exact Hs| |by apply Hb]. rewrite Hw. by apply all_apart_one, block_apart.
    - exists h. eapply start_arr; [done|exact Hs| |exact Hh]. rewrite Hw. apply all_apart_one, apart_sym, tmp_apart; [done|].
      by apply recv_src. }
  unfold prelude. destruct (Nat.eqb_spec idx 1) as [->|Hne].
  - destruct (inplace_cases r Hr) as [[E ->]|[Hne ->]].
    + exists m. split; [done|]. split; [done|]. split; [|by exists h]. rewrite E. exact Hx.
    + destruct (copy_arr dsz dsz_pos m _ _ (recv r) f rc Hx Hf) as (m1 & Hm & A & _).
      assert (Hs : start_entry op dsz (copy_entry (send r +b r * rc * dsz) (recv r) rc) m = Some (m1, None))
        by (cbn; by rewrite Hm).
      exists m1. split; [cbn [start_group]; by rewrite Hs|]. edestruct Hwrite; [|exact Hs|]; done.
  - destruct Hx as [-> ->]. destruct (reduce_arr op dsz dsz_pos m _ _ (recv r) _ rc Hh Hf) as (m1 & Hm & A).
    assert (Hs : start_entry op dsz (reduce_local_entry (tmpb r) rc (recv r)) m = Some (m1, None))
      by (cbn; by rewrite Hm).
    exists m1. split; [cbn [start_group]; by rewrite Hs|]. edestruct Hwrite as [? ?]; [|exact Hs|]; [done|].
    split; [done|]. split; [|done]. replace (idx - 1) with (S (idx - 2)) by lia. replace (idx - 1) with (S (idx - 2)) in A by lia. exact A.
Qed.

Lemma naive_step idx ms : 0 < idx < P -> (forall r, r < P -> naive_inv idx r (ms r)) ->
  steps op dsz P (ngroup idx) ms (naive_inv (S idx)).
Proof.
  intros Hi Hms.
  apply (exchange_step op dsz P _ ms _ (fun r => ndst r idx) (fun r => nsrc r idx)
    (fun r => (fun i => x r (ndst r idx * rc + i)) <$> seq 0 rc) (fun r => recv_entry (tmpb r) rc (nsrc r idx))).
  - intros r Hr. unfold ndst, nsrc. split_and!; try (apply Nat.mod_upper_bound; lia); mod_lia.
  - intros r Hr. split; [|done]. unfold ngroup, prelude. repeat case_match; done.
  - intros r Hr. destruct (prelude_run idx r (ms r)) as (m1 & Hp & Hb & Hf & h & Hh); [done|lia|by apply Hms|].
    destruct (ndst_ne r idx Hr Hi) as [Hne Hlt].
    assert (Hsrc : ndst (nsrc r idx) idx = r) by (unfold ndst, nsrc; mod_lia).
    destruct (recv_arr op dsz dsz_pos m1 (tmpb r) h rc (nsrc r idx) (fun i => x (nsrc r idx) (r * rc + i)) Hh)
      as (m2 & Hm2 & A).
    exists m1, m2. split; [|split].
    + change [(ndst r idx, _)] with ([] ++ [(ndst r idx, (fun i => x r (ndst r idx * rc + i)) <$> seq 0 rc)]).
      eapply start_group_app; [exact Hp|]. cbn. rewrite (arr_read dsz _ _ _ _ (Hb _ Hlt Hne)). done.
    + by rewrite Hsrc.
    + split.
      * intros d Hd Hdr. eapply complete_arr; [done|exact Hm2| |by apply Hb].
        apply all_apart_one, tmp_apart; [done|by apply send_src].
      * exists (nacc (idx - 1) r), (fun i => x (nsrc r idx) (r * rc + i)). split; [|split; [done|]].
        { eapply complete_arr; [done|exact Hm2| |done]. apply all_apart_one, tmp_apart; [done|by apply recv_src]. }
        destruct (Nat.eqb_spec (S idx) 1); [lia|]. by rewrite !Nat.sub_succ, Nat.sub_0_r.
Qed.

(** The order in which rank [r] combines the ranks. *)
Lemma nacc_total `{!Assoc (=) op, !Comm (=) op} r i : r < P ->
  nacc (P - 1) r i = reduce_ranks op P (fun q => x q (r * rc + i)).
Proof using HP.
  clear dsz dsz_pos rc_pos Hok. intros Hr.
  assert (H0 : nsrc r 0 = r) by (unfold nsrc; mod_lia).
  assert (Hf : forall k, fold1 op ((fun q => x q (r * rc + i)) <$> (nsrc r <$> seq 0 (S k))) = Some (nacc k r i)).
  { induction k as [|k IH]; [cbn; by rewrite H0|]. rewrite (seq_snoc (nsrc r)), fmap_app. exact (fold1_snoc op _ _ _ IH). }
  eapply (fold1_any_order op P _ (nsrc r <$> seq 0 (S (P - 1)))); [..|apply Hf].
  - apply NoDup_fmap_2_strong; [|apply NoDup_seq]. intros a b Ha%elem_of_seq Hb%elem_of_seq. unfold nsrc. mod_lia.
  - rewrite length_fmap, length_seq. lia.
  - intros q (k & -> & _)%list_elem_of_fmap. apply Nat.mod_upper_bound. lia.
  - done.
Qed.

Lemma naive_runs ms :
  (forall r, r < P -> arr dsz (ms r) (send r) (rc * P) (x r) /\ (exists g, arr dsz (ms r) (recv r) rc g) /\
     exists h, arr dsz (ms r) (tmpb r) rc h) ->
  runs op dsz P ((seq 1 (P - 1) ≫= fun i => [ngroup i]) ++ [prelude P]) ms
    (fun r m => arr dsz m (recv r) rc (nacc (P - 1) r)).
Proof.
  intros Hms. eapply runs_seq.
  - apply (runs_loop op dsz P _ naive_inv).
    + intros idx ms1 Hi Hms1. apply runs_one, naive_step; [lia|done].
    + intros r Hr. destruct (Hms r Hr) as (Hs & [g Hg] & [h Hh]).
      assert (Hblk : forall d, d < P -> arr dsz (ms r) (send r +b d * rc * dsz) rc (fun i => x r (d * rc + i))).
      { intros d Hd. eapply arr_sub; [done|exact Hs|]. assert (S d * rc <= P * rc) by (apply Nat.mul_le_mono_r; lia). lia. }
      split; [intros d Hd _; by apply Hblk|]. exists g, h. split; [done|]. split; [done|]. by apply Hblk.
  - intros ms1 H1. apply runs_one, local_step. intros r Hr. split; [unfold prelude; by repeat case_match|].
    replace (1 + (P - 1)) with P in H1 by lia.
    destruct (prelude_run P r (ms1 r) Hr HP (H1 r Hr)) as (m1 & Hp & _ & Hf & _). by exists m1.
Qed.
End naive.

Lemma naive_reduce_scatter_reduces {V} (op : V -> V -> V) (env : ccl_env) (dsz P rc : nat) (x : nat -> nat -> V)
    (send recv : nat -> ccl_buffer) (nx : nat -> nat) :
  0 < dsz -> 0 < P -> 0 < rc -> Assoc (=) op -> Comm (=) op ->
  (forall r, r < P -> naive_bufs_ok dsz rc send recv nx r) ->
  implements op dsz P (fun r => ccl_coll_build_naive_reduce_scatter env dsz P r (send r) (recv r) rc) nx
    (fun r m => arr dsz m (send r) (rc * P) (x r) /\ exists g, arr dsz m (recv r) rc g)
    (fun r m => arr dsz m (recv r) rc (fun i => reduce_ranks op P (fun q => x q (r * rc + i)))).
Proof.
  intros Hd HP Hrc Ha Hc Hok.
  eapply (implements_intro _ _ _ _ _ _ _ (seq 1 (P - 1) ≫= fun i => [ngroup dsz P rc send recv nx i])
    (prelude dsz rc send recv nx P) (fun r => S (nx r)) (fun r => [(nx r, rc * dsz)])); [done| | |].
  - intros r Hr. by apply naive_st.
  - intros r Hr. split.
    + apply Forall_fmap, Forall_forall. intros g (i & ->%list_elem_of_singleton & Hi%elem_of_seq)%list_elem_of_bind.
      apply ngroup_ok; (done || lia).
    + unfold prelude. repeat case_match; group_races.
  - intros ms Hms. eapply runs_weaken; [|apply naive_runs with (x := x); try done].
    + intros r m Hr A. eapply (arr_ext dsz); [|exact A]. intros i Hi. by apply nacc_total.
    + intros r Hr. destruct (Hms r Hr) as ((Hs & Hg) & [[f Hf] _]%Forall_cons). split; [done|]. split; [done|].
      exists f. cbn in Hf. by rewrite Nat.div_mul in Hf by lia.
Qed.

(** The naive reduce-scatter, in place ([recv] is block [r] of [send]) or with separate
    buffers: every interleaving of the ranks ends without deadlock, and rank [r] then holds
    the reduction over all ranks of the elements of its block. *)
Theorem naive_reduce_scatter_correct {V} (op : V -> V -> V) (env : ccl_env) (dsz P rc : nat) (x : nat -> nat -> V)
    (send recv : nat -> ccl_buffer) (nx : nat -> nat) :
  0 < dsz -> 0 < P -> 0 < rc -> Assoc (=) op -> Comm (=) op ->
  (forall r, r < P -> naive_bufs_ok dsz rc send recv nx r) ->
  implements op dsz P (fun r => ccl_coll_build_naive_reduce_scatter env dsz P r (send r) (recv r) rc) nx
    (fun r m => arr dsz m (send r) (rc * P) (x r) /\ exists g, arr dsz m (recv r) rc g)
    (fun r m => arr dsz m (recv r) rc (fun i => reduce_ranks op P (fun q => x q (r * rc + i)))).
Proof. apply naive_reduce_scatter_reduces. Qed.

Lemma bufs_ex r : bufs_ok send_ex recv_ex nx_ex r.
Proof. unfold bufs_ok, send_ex, recv_ex, nx_ex. cbn. lia. Qed.

Lemma reduce_scatter_block_correct_witness :
  implements Nat.add 4 3 (fun r => ccl_coll_build_reduce_scatter_block env_ex 4 3 r (send_ex r) (recv_ex r) 12) nx_ex
    (fun r m => arr 4 m (send_ex r) 12 (x_ex r) /\ exists g, arr 4 m (recv_ex r) 12 g)
    (block_done Nat.add 4 3 12 send_ex recv_ex x_ex).
Proof.
  apply (reduce_scatter_block_correct Nat.add env_ex 4 3 x_ex); [lia|lia|lia|]. intros r _. apply bufs_ex.
Defined.

Lemma ring_reduce_scatter_correct_witness :
  implements Nat.add 4 3 (fun r => ccl_coll_build_ring_reduce_scatter env_ex 4 3 r (send_ex r) (recv_ex r) 4) nx_ex
    (fun r m => arr 4 m (send_ex r) 12 (x_ex r) /\ exists g, arr 4 m (recv_ex r) 4 g)
    (fun r m => arr 4 m (recv_ex r) 4 (fun i => reduce_ranks Nat.add 3 (fun q => x_ex q (r * 4 + i)))).
Proof.
  apply (ring_reduce_scatter_correct Nat.add env_ex 4 3 x_ex); [lia|lia|exact _|exact _|].
  intros r _. unfold send_ex, recv_ex, nx_ex. cbn. lia.
Defined.

Lemma naive_reduce_scatter_correct_witness :
  implements Nat.add 4 3 (fun r => ccl_coll_build_naive_reduce_scatter env_ex 4 3 r (send_ex r) (send_ex r +b r * 2 * 4) 2) nx_ex
    (fun r m => arr 4 m (send_ex r) 6 (x_ex r) /\ exists g, arr 4 m (send_ex r +b r * 2 * 4) 2 g)
    (fun r m => arr 4 m (send_ex r +b r * 2 * 4) 2 (fun i => reduce_ranks Nat.add 3 (fun q => x_ex q (r * 2 + i)))).
Proof.
  apply (naive_reduce_scatter_correct Nat.add env_ex 4 3 2 x_ex send_ex (fun r => send_ex r +b r * 2 * 4));
    [lia|lia|lia|exact _|exact _|].
  intros r _. unfold naive_bufs_ok, send_ex, nx_ex. cbn. split; [lia|]. split; [lia|by left].
Defined.
