(* ===== verification/Allgatherv.v ===== *)
(** The allgatherv algorithms of [src/src/coll/algorithms/allgatherv/allgatherv.cpp]. *)

From S2P Require Import Prelude Sched Network Race Bsp Build Reduction ReduceScatter.
Open Scope ccl_scope.

(** [offsets]: [offsets[0] = 0], [offsets[i] = offsets[i-1] + recv_counts[i-1] * dtype_size]. *)
Fixpoint byte_offsets (dsz : nat) (recv_counts : nat -> nat) (i : nat) : nat :=
  match i with O => 0 | S i' => byte_offsets dsz recv_counts i' + recv_counts i' * dsz end.

(** The sum of the first [n] counts. *)
Fixpoint total_count (recv_counts : nat -> nat) (n : nat) : nat :=
  match n with O => 0 | S n' => total_count recv_counts n' + recv_counts n' end.

(** [ccl::is_allgatherv_inplace], with the offsets given. *)
Definition is_allgatherv_inplace (env : ccl_env) (send_buf : ccl_buffer) (send_count : nat) (recv_buf : ccl_buffer)
    (recv_counts recv_offsets : nat -> nat) (dsz rank comm_size : nat) : result bool :=
  let recv_buf_size := total_count recv_counts comm_size * dsz in
  let address_aliasing :=
    bool_decide (buf_src send_buf = buf_src recv_buf) && (buf_offset recv_buf <=? buf_offset send_buf)
    && (buf_offset send_buf <? buf_offset recv_buf + recv_buf_size) in
  let inplace := negb (buffer_bool send_buf) || buffer_eqb send_buf (recv_buf +b recv_offsets rank) in
  throw_if_not (send_count =? recv_counts rank) ;;
  throw_if_not (negb (address_aliasing && negb inplace && check_inplace_aliasing env)) ;;
  Ok inplace.

Section builders.
Context (env : ccl_env) (dsz comm_size rank : nat).

Definition ccl_coll_build_naive_allgatherv (send_buf : ccl_buffer) (send_count : nat) (recv_buf : ccl_buffer)
    (recv_counts : nat -> nat) : build unit :=
  CCL_THROW_IF_NOT (recv_counts rank =? send_count) ;;;
  let offsets := byte_offsets dsz recv_counts in
  is_inplace <-- lift (is_allgatherv_inplace env send_buf send_count recv_buf recv_counts offsets dsz rank comm_size) ;;
  (if negb is_inplace && (0 <? send_count) then create_copy send_buf (recv_buf +b offsets rank) send_count
   else ret tt) ;;;
  for_range 1 (comm_size - 1) (fun idx =>
    let dst := (rank + idx) mod comm_size in
    let src := (rank + comm_size - idx) mod comm_size in
    (if 0 <? send_count then create_send (recv_buf +b offsets rank) send_count dst else ret tt) ;;;
    (if 0 <? recv_counts src then create_recv (recv_buf +b offsets src) (recv_counts src) src else ret tt)).

(** [allgather.cpp]: the same count for all. *)
Definition ccl_coll_build_naive_allgather (send_buf recv_buf : ccl_buffer) (count : nat) : build unit :=
  let recv_counts := fun _ : nat => count in
  let offsets := byte_offsets dsz recv_counts in
  is_inplace <-- lift (is_allgatherv_inplace env send_buf count recv_buf recv_counts offsets dsz rank comm_size) ;;
  (if negb is_inplace && (0 <? count) then create_copy send_buf (recv_buf +b offsets rank) count
   else ret tt) ;;;
  for_range 1 (comm_size - 1) (fun idx =>
    let dst := (rank + idx) mod comm_size in
    let src := (rank + comm_size - idx) mod comm_size in
    if 0 <? count then
      create_send (recv_buf +b offsets rank) count dst ;;;
      create_recv (recv_buf +b offsets src) count src
    else ret tt).

(** What schedule [s_idx] of [sched_count] sends and receives of a block of [n] elements ([send_block_thread_counts] and [recv_block_thread_counts]), and
    from which byte of the block on ([send_sched_offset] and [recv_sched_offset]). *)
Definition thread_count (sched_count n s_idx : nat) : nat := n / sched_count + if s_idx =? sched_count - 1 then n mod sched_count else 0.
Fixpoint sched_offset (sched_count n s_idx : nat) : nat :=
  match s_idx with O => 0 | S s' => sched_offset sched_count n s' + thread_count sched_count n s' * dsz end.

(** The copy of the own data, in the first schedule. *)
Definition ring_allgatherv_copy (send_buf : ccl_buffer) (send_count : nat) (recv_buf : ccl_buffer) (recv_counts : nat -> nat) : build unit :=
  let offsets := byte_offsets dsz recv_counts in
  is_inplace <-- lift (is_allgatherv_inplace env send_buf send_count recv_buf recv_counts offsets dsz rank comm_size) ;;
  if negb is_inplace && (0 <? send_count) then create_copy send_buf (recv_buf +b offsets rank) send_count
  else ret tt.

(** What the loop over the ranks puts into schedule [s_idx]. *)
Definition ring_allgatherv_loop (sched_count s_idx : nat) (recv_buf : ccl_buffer) (recv_counts : nat -> nat) : build unit :=
  let offsets := byte_offsets dsz recv_counts in
  let src := (comm_size + rank - 1) mod comm_size in
  let dst := (comm_size + rank + 1) mod comm_size in
  for_state 0 (comm_size - 1) (fun _ block_idx =>
    let send_block_idx := block_idx in
    let recv_block_idx := (comm_size + block_idx - 1) mod comm_size in
    let send_block_count := recv_counts send_block_idx in
    let recv_block_count := recv_counts recv_block_idx in
    let sbuf := recv_buf +b offsets send_block_idx in
    let rbuf := recv_buf +b offsets recv_block_idx in
    let send_count := thread_count sched_count send_block_count s_idx in
    let recv_count := thread_count sched_count recv_block_count s_idx in
    (if negb (send_count =? 0) then create_send (sbuf +b sched_offset sched_count send_block_count s_idx) send_count dst else ret tt) ;;;
    (if negb (recv_count =? 0) then create_recv (rbuf +b sched_offset sched_count recv_block_count s_idx) recv_count src else ret tt) ;;;
    add_barrier ;;;
    ret ((comm_size + block_idx - 1) mod comm_size)) rank ;;;
  ret tt.

(** [ccl_coll_build_ring_allgatherv] without [main_sched], which takes one schedule: the dispatch and the ring allreduce call it so. *)
Definition ccl_coll_build_ring_allgatherv (send_buf : ccl_buffer) (send_count : nat) (recv_buf : ccl_buffer)
    (recv_counts : nat -> nat) : build unit :=
  CCL_THROW_IF_NOT (recv_counts rank =? send_count) ;;;
  ring_allgatherv_copy send_buf send_count recv_buf recv_counts ;;;
  ring_allgatherv_loop 1 0 recv_buf recv_counts.

(** The same with [main_sched], as the parallelizer calls it: the copy is in the first schedule and all schedules wait for it ([sync_subscheds]);
    the result has what is in front of this point and what each of the [sched_count] schedules has behind it. *)
Definition ccl_coll_build_ring_allgatherv_parts (sched_count : nat) (send_buf : ccl_buffer) (send_count : nat) (recv_buf : ccl_buffer)
    (recv_counts : nat -> nat) : build (list (build unit)) :=
  CCL_THROW_IF_NOT (recv_counts rank =? send_count) ;;;
  ring_allgatherv_copy send_buf send_count recv_buf recv_counts ;;;
  ret ((fun s_idx => ring_allgatherv_loop sched_count s_idx recv_buf recv_counts) <$> seq 0 sched_count).
End builders.

(** * Blocks of the receive buffer *)

Lemma byte_offsets_total dsz cnt i : byte_offsets dsz cnt i = total_count cnt i * dsz.
Proof. induction i as [|i IH]; cbn; [done|]. rewrite IH. lia. Qed.

Lemma total_le cnt i j : i <= j -> total_count cnt i <= total_count cnt j.
Proof. induction 1; cbn; lia. Qed.

Lemma total_before cnt i j : i < j -> total_count cnt i + cnt i <= total_count cnt j.
Proof. intros H. apply (total_le cnt (S i) j H). Qed.

(** * The ring over arbitrary slots *)

(** A ring in which block [b] lies in slot [b] of every rank, behind local entries [head] that fill the own slot. *)
Section ring.
Context {V : Type} (op : V -> V -> V) (dsz P : nat) (dsz_pos : 0 < dsz) (HP : 0 < P).
Context (slot : nat -> nat -> ccl_buffer) (cnt : nat -> nat) (head : nat -> list entry) (y : nat -> nat -> V).
Context (slot_apart : forall r b b', b <> b' -> apart dsz (slot r b, cnt b) (slot r b', cnt b')).
Abbreviation memory := (gmap (nat * nat) V).
Implicit Types m : memory.

(** Slots [b] with [S b] hold their rank's data. *)
Definition slots_hold (S : nat -> Prop) (r : nat) m : Prop :=
  (forall b, b < P -> exists g, arr dsz m (slot r b) (cnt b) g) /\
  (forall b, b < P -> S b -> arr dsz m (slot r b) (cnt b) (y b)).

(** The block rank [r] sends in iteration [idx], and receives in iteration [idx - 1]. *)
Definition bk (idx r : nat) : nat := (r + P - idx) mod P.

Lemma bk_lt idx r : bk idx r < P.
Proof. clear - HP. apply Nat.mod_upper_bound. lia. Qed.
Lemma bk_0 r : r < P -> bk 0 r = r.
Proof. clear - HP. intros. unfold bk. mod_lia. Qed.
Lemma bk_S idx r : r < P -> S idx < P -> bk (S idx) r = (P + bk idx r - 1) mod P.
Proof. clear - HP. intros. unfold bk. mod_lia. Qed.
Lemma bk_prev idx r : r < P -> S idx < P -> bk (S idx) r = bk idx (ring_prev P r).
Proof. clear - HP. intros. unfold bk, ring_prev. mod_lia. Qed.
Lemma bk_inj idx idx' r : r < P -> idx < P -> idx' < P -> bk idx r = bk idx' r -> idx = idx'.
Proof. clear - HP. intros. unfold bk in *. mod_lia. Qed.
Lemma bk_surj b r : r < P -> b < P -> exists idx, idx < P /\ bk idx r = b.
Proof.
  clear - HP.  intros Hr Hb. exists ((r + P - b) mod P). split; [apply Nat.mod_upper_bound; lia|]. unfold bk. mod_lia.
Qed.

Definition slot_exch (idx r : nat) : list entry :=
  (if cnt (bk idx r) =? 0 then [] else [send_entry (slot r (bk idx r)) (cnt (bk idx r)) (ring_next P r)]) ++
  (if cnt (bk (S idx) r) =? 0 then []
   else [recv_entry (slot r (bk (S idx) r)) (cnt (bk (S idx) r)) (ring_prev P r)]).
Definition slot_head (idx r : nat) : list entry := if idx =? 0 then head r else [].
Definition slot_group (idx r : nat) : list entry := slot_head idx r ++ slot_exch idx r.
Definition slot_groups : list (nat -> list entry) := seq 0 (P - 1) ≫= fun idx => [slot_group idx].
Definition slot_last (r : nat) : list entry := slot_head (P - 1) r.

Context (head_local : forall r, Forall (fun e => is_async e = false) (head r)) (head_ok : forall r, group_ok dsz (head r)).

Lemma head_recvs idx r : filter (fun e => is_Some (recv_from e)) (slot_head idx r) = [].
Proof.
  unfold slot_head. destruct (idx =? 0); [|done]. specialize (head_local r). induction (head r) as [|e l IH]; [done|].
  apply Forall_cons in head_local as [He Hl]. rewrite filter_cons. rewrite decide_False; [by apply IH|]. destruct e; cbn in *; try done; by intros [? ?].
Qed.

Lemma slot_group_ok r idx : r < P -> S idx < P -> group_ok dsz (slot_group idx r).
Proof.
  intros Hr Hi. assert (Hne : bk (S idx) r <> bk idx r) by (intros E%bk_inj; lia). apply group_ok_app.
  - unfold slot_head. by case_match.
  - unfold slot_exch. repeat case_match; group_races; by apply slot_apart.
  - unfold slot_head. case_match; [|done]. eapply Forall_impl; [apply head_local|]. intros e He He'. congruence.
Qed.
Lemma slot_last_ok r : group_ok dsz (slot_last r).
Proof. unfold slot_last, slot_head. by case_match. Qed.

Context (pre0 : nat -> memory -> Prop).
Context (head_run : forall r m, r < P -> pre0 r m -> exists m1, start_group op dsz (head r) m = Some (m1, []) /\ slots_hold (fun b => b = r) r m1).

(** After [idx] iterations the slots of the last [idx + 1] ranks are filled. *)
Definition ring_have (idx r b : nat) : Prop := exists k, k <= idx /\ b = bk k r.

Definition ring_ginv (idx r : nat) m : Prop :=
  if idx =? 0 then pre0 r m else slots_hold (ring_have idx r) r m.

Lemma slot_head_run idx r m : r < P -> ring_ginv idx r m ->
  exists m1, start_group op dsz (slot_head idx r) m = Some (m1, []) /\ slots_hold (ring_have idx r) r m1.
Proof.
  intros Hr. unfold ring_ginv, slot_head. destruct (Nat.eqb_spec idx 0) as [->|Hne]; [|by exists m].
  intros Hpre. destruct (head_run r m Hr Hpre) as (m1 & Hst & H1 & H2). exists m1. split; [done|]. split; [done|].
  intros b Hb (k & Hk & ->). apply H2; [done|]. replace k with 0 by lia. by apply bk_0.
Qed.

Lemma slot_step idx ms : S idx < P -> (forall r, r < P -> ring_ginv idx r (ms r)) ->
  steps op dsz P (slot_group idx) ms (ring_ginv (S idx)).
Proof.
  intros Hi Hms.
  apply (exchange_opt_step op dsz P _ ms _ (ring_next P) (ring_prev P)
    (fun r => y (bk idx r) <$> seq 0 (cnt (bk idx r)))
    (fun r => recv_entry (slot r (bk (S idx) r)) (cnt (bk (S idx) r)) (ring_prev P r))
    (fun r => negb (cnt (bk idx r) =? 0))).
  - intros r Hr. by apply ring_perm.
  - intros r Hr. split; [|done]. rewrite <- bk_prev by done.
    unfold slot_group. rewrite filter_app, head_recvs. unfold slot_exch. repeat case_match; done.
  - intros r Hr. destruct (slot_head_run idx r (ms r) Hr (Hms r Hr)) as (m1 & Hst & H1 & H2).
    assert (Hstart : start_group op dsz (slot_group idx r) (ms r) = Some (m1,
      if negb (cnt (bk idx r) =? 0) then [(ring_next P r, y (bk idx r) <$> seq 0 (cnt (bk idx r)))] else [])).
    { unfold slot_group. rewrite <- (app_nil_l (if negb _ then _ else _)). eapply start_group_app; [exact Hst|].
      assert (Hread := arr_read dsz _ _ _ _ (H2 (bk idx r) (bk_lt _ _) (ex_intro _ idx (conj (le_n _) eq_refl)))).
      unfold slot_exch. destruct (cnt (bk idx r) =? 0), (cnt (bk (S idx) r) =? 0); cbn; try rewrite Hread; done. }
    rewrite <- bk_prev by done. unfold ring_ginv. cbn [Nat.eqb].
    destruct (Nat.eqb_spec (cnt (bk (S idx) r)) 0) as [Hz|Hnz]; cbn [negb].
    + exists m1, m1. split; [done|]. split; [done|]. split; [done|]. intros b Hb (k & Hk & ->).
      destruct (decide (k = S idx)) as [->|]; [intros i Hi'; lia|]. apply H2; [done|]. exists k. split; [lia|done].
    + destruct (H1 (bk (S idx) r) (bk_lt _ _)) as [h Hh].
      destruct (recv_arr op dsz dsz_pos m1 (slot r (bk (S idx) r)) h _ (ring_prev P r) (y (bk (S idx) r)) Hh) as (m2 & Hm2 & A).
      assert (Hframe : forall b f, b <> bk (S idx) r -> arr dsz m1 (slot r b) (cnt b) f -> arr dsz m2 (slot r b) (cnt b) f).
      { intros b f Hb. eapply complete_arr; [done|exact Hm2|]. by apply all_apart_one, slot_apart. }
      exists m1, m2. split; [done|]. split; [done|]. split.
      * intros b Hb. destruct (decide (b = bk (S idx) r)) as [->|Hne]; [eauto|].
        destruct (H1 b Hb) as [f Hf]. eauto.
      * intros b Hb (k & Hk & ->). destruct (decide (bk k r = bk (S idx) r)) as [->|Hne]; [done|].
        apply Hframe; [done|]. apply H2; [done|]. exists k. split; [|done].
        destruct (decide (k = S idx)) as [->|]; [done|lia].
Qed.

Lemma slot_runs ms : (forall r, r < P -> pre0 r (ms r)) ->
  runs op dsz P (slot_groups ++ [slot_last]) ms (fun r m => forall b, b < P -> arr dsz m (slot r b) (cnt b) (y b)).
Proof.
  intros Hms. eapply runs_seq; [apply (runs_loop op dsz P _ ring_ginv)|].
  - intros idx ms1 Hi Hms1. apply runs_one, slot_step; [lia|done].
  - done.
  - intros ms1 H1. apply runs_one, local_step. intros r Hr.
    split; [apply head_recvs|].
    destruct (slot_head_run (P - 1) r (ms1 r) Hr (H1 r Hr)) as (m1 & Hst & _ & H2). exists m1. split; [done|].
    intros b Hb. apply H2; [done|]. destruct (bk_surj b r Hr Hb) as (k & Hk & <-). exists k. split; [lia|done].
Qed.
End ring.

(** ** What a loop of the builder puts into a schedule *)

(** The part of slot [b] that schedule [s_idx] has. *)
Definition part_slot (dsz : nat) (recv_buf : ccl_buffer) (cnt : nat -> nat) (sched_count s_idx b : nat) : ccl_buffer :=
  recv_buf +b byte_offsets dsz cnt b +b sched_offset dsz sched_count (cnt b) s_idx.
Definition part_len (cnt : nat -> nat) (sched_count s_idx b : nat) : nat := thread_count sched_count (cnt b) s_idx.

Lemma at_rank_loop r lo n (g : nat -> nat -> list entry) : at_rank r (seq lo n ≫= fun i => [g i]) = (fun i => g i r) <$> seq lo n.
Proof. revert lo. induction n as [|n IH]; intros lo; [done|]. specialize (IH (S lo)). unfold at_rank in *. cbn in *. by rewrite IH. Qed.
Lemma slot_groups_ext P r slot slot' cnt cnt' head head' : (forall b, slot r b = slot' r b) -> (forall b, cnt b = cnt' b) -> head r = head' r ->
  at_rank r (slot_groups P slot cnt head) = at_rank r (slot_groups P slot' cnt' head').
Proof.
  intros Hs Hc Hh. unfold slot_groups. rewrite !at_rank_loop. apply list_fmap_ext. intros i idx _. unfold slot_group, slot_head, slot_exch. by rewrite !Hs, !Hc, Hh.
Qed.

Lemma loop_st dsz P r recv_buf cnt sched_count s_idx head gs nx al : 0 < P -> r < P -> 0 < dsz ->
  ring_allgatherv_loop dsz P r sched_count s_idx recv_buf cnt (st gs head nx al) =
  Ok (tt, st (gs ++ at_rank r (slot_groups P (fun _ => part_slot dsz recv_buf cnt sched_count s_idx) (part_len cnt sched_count s_idx) (fun _ => head)))
             (slot_last P (fun _ => head) r) nx al).
Proof.
  intros HP Hr Hd. unfold ring_allgatherv_loop.
  set (slot := fun _ : nat => part_slot dsz recv_buf cnt sched_count s_idx). set (n := part_len cnt sched_count s_idx). set (h := fun _ : nat => head).
  erewrite bind_Ok; [|apply (for_state_run 0 (P - 1) _ (fun i => bk P i r)
    (fun i => st (gs ++ at_rank r (seq 0 i ≫= fun idx => [slot_group P slot n h idx])) (slot_head h i r) nx al))].
  - done.
  - by apply bk_0.
  - cbn. by rewrite app_nil_r.
  - intros i Hi. rewrite <- bk_S by lia.
    fold (part_slot dsz recv_buf cnt sched_count s_idx (bk P i r)) (part_slot dsz recv_buf cnt sched_count s_idx (bk P (S i) r)) (slot r (bk P i r)) (slot r (bk P (S i) r)).
    fold (part_len cnt sched_count s_idx (bk P i r)) (part_len cnt sched_count s_idx (bk P (S i) r)) (n (bk P i r)) (n (bk P (S i) r)) (ring_next P r) (ring_prev P r).
    cbn [Nat.add]. rewrite at_rank_snoc. cbn [Nat.add at_rank fmap list_fmap]. unfold slot_group, slot_exch.
    destruct (n (bk P i r) =? 0), (n (bk P (S i) r) =? 0); cbn [negb]; build_simp;
      rewrite ?app_nil_r, <- ?app_assoc; done.
Qed.

Section gather.
Context {V : Type} (op : V -> V -> V) (env : ccl_env) (dsz P : nat) (dsz_pos : 0 < dsz) (HP : 0 < P).
Context (send recv : nat -> ccl_buffer) (cnt : nat -> nat) (y : nat -> nat -> V).
Abbreviation memory := (gmap (nat * nat) V).
Implicit Types m : memory.

Definition slot (r b : nat) : ccl_buffer := recv r +b total_count cnt b * dsz.

(** Send and receive buffers are separate, or the send buffer is the rank's slot. *)
Definition ag_bufs_ok (r : nat) : Prop :=
  0 < buf_src (send r) /\ 0 < buf_src (recv r) /\ (send r = slot r r \/ buf_src (send r) <> buf_src (recv r)).
Context (Hok : forall r, r < P -> ag_bufs_ok r).

Definition aginp (r : nat) : bool := buffer_eqb (send r) (slot r r).

Lemma aginp_cases r : r < P ->
  (send r = slot r r /\ aginp r = true) \/ (buf_src (send r) <> buf_src (recv r) /\ aginp r = false).
Proof.
  intros Hr. destruct (Hok r Hr) as (H1 & H2 & [E|Hne]); [left|right]; (split; [done|]); unfold aginp.
  - rewrite E. apply buffer_eqb_refl.
  - apply buffer_eqb_src; [lia|done].
Qed.

Lemma ag_inplace_test r : r < P ->
  is_allgatherv_inplace env (send r) (cnt r) (recv r) cnt (byte_offsets dsz cnt) dsz r P = Ok (aginp r).
Proof.
  intros Hr. unfold is_allgatherv_inplace. rewrite byte_offsets_total. fold (slot r r) (aginp r).
  assert (buffer_bool (send r) = true) as ->.
  { destruct (Hok r Hr). unfold buffer_bool. rewrite bool_decide_eq_true_2 by lia. done. }
  rewrite Nat.eqb_refl. cbn.
  destruct (aginp_cases r Hr) as [[_ ->]|[Hne ->]]; cbn; [by rewrite andb_false_r|].
  by rewrite bool_decide_eq_false_2.
Qed.

Lemma slot_apart r b b' : b <> b' -> apart dsz (slot r b, cnt b) (slot r b', cnt b').
Proof.
  intros Hne. apply apart_sub. destruct (decide (b < b')); [left|right]; apply total_before; lia.
Qed.

Definition own_copy (r : nat) : list entry :=
  if negb (aginp r) && (0 <? cnt r) then [copy_entry (send r) (slot r r) (cnt r)] else [].

Lemma own_copy_st r nx al gs : r < P ->
  (if negb (aginp r) && (0 <? cnt r) then create_copy (send r) (recv r +b byte_offsets dsz cnt r) (cnt r) else ret tt)
    (st gs [] nx al) = Ok (tt, st gs (own_copy r) nx al).
Proof. intros Hr. rewrite byte_offsets_total. unfold own_copy. destruct (negb (aginp r) && (0 <? cnt r)); [apply add_entry_st|done]. Qed.

(** Slots [b] with [S b] hold their rank's data. *)
Abbreviation gathered := (slots_hold dsz P slot cnt y).

(** Before the algorithm: the own data in [send], somewhere to put the rest. *)
Definition ag_pre (r : nat) m : Prop :=
  arr dsz m (send r) (cnt r) (y r) /\ exists g, arr dsz m (recv r) (total_count cnt P) g.

Lemma own_copy_run r m : r < P -> ag_pre r m ->
  exists m1, start_group op dsz (own_copy r) m = Some (m1, []) /\ gathered (fun b => b = r) r m1.
Proof.
  intros Hr [Hs [g Hg]].
  assert (Hslots : forall b, b < P -> arr dsz m (slot r b) (cnt b) (fun i => g (total_count cnt b + i))).
  { intros b Hb. eapply arr_sub; [done|exact Hg|]. by apply total_before. }
  unfold own_copy. destruct (aginp_cases r Hr) as [[E ->]|[Hne ->]]; cbn [negb andb].
  - exists m. split; [done|]. split; [eauto|]. intros b Hb ->. by rewrite <- E.
  - destruct (Nat.ltb_spec 0 (cnt r)) as [Hc|Hc].
    + destruct (copy_arr dsz dsz_pos m (send r) (y r) (slot r r) _ (cnt r) Hs (Hslots r Hr)) as (m1 & Hm & A & _).
      assert (Hst : start_entry op dsz (copy_entry (send r) (slot r r) (cnt r)) m = Some (m1, None)) by (cbn; by rewrite Hm).
      exists m1. split; [cbn [start_group]; by rewrite Hst|]. split; [|by intros b Hb ->].
      intros b Hb. destruct (decide (b = r)) as [->|Hbr]; [eauto|]. eexists.
      eapply start_arr; [done|exact Hst| |by apply Hslots]. by apply all_apart_one, slot_apart.
    + exists m. split; [done|]. split; [eauto|]. intros b Hb -> i Hi. lia.
Qed.
(** ** The ring *)

Definition ring_groups : list (nat -> list entry) := slot_groups P slot cnt own_copy.
Definition ring_last (r : nat) : list entry := slot_last P own_copy r.

Lemma own_copy_local r : Forall (fun e => is_async e = false) (own_copy r) /\ group_ok dsz (own_copy r).
Proof. unfold own_copy. case_match; split; group_races; repeat constructor. Qed.

Lemma one_thread n : thread_count 1 n 0 = n.
Proof. unfold thread_count. cbn [Nat.eqb Nat.sub]. rewrite Nat.div_1_r, Nat.mod_1_r. lia. Qed.

Lemma ring_st r gs nx al : r < P ->
  ccl_coll_build_ring_allgatherv env dsz P r (send r) (cnt r) (recv r) cnt (st gs [] nx al) =
  Ok (tt, st (gs ++ at_rank r ring_groups) (ring_last r) nx al).
Proof.
  intros Hr. unfold ccl_coll_build_ring_allgatherv, ring_allgatherv_copy. rewrite Nat.eqb_refl, ag_inplace_test by done.
  cbn [lift]. build_simp. erewrite bind_Ok; [|apply (own_copy_st r nx al gs Hr)]. rewrite loop_st by done. do 4 f_equal.
  apply slot_groups_ext; [|intros b; apply one_thread|done]. intros b. unfold part_slot, slot. cbn [sched_offset]. rewrite byte_offsets_total. apply (buffer_add_0 dsz dsz_pos).
Qed.

Lemma ring_group_ok r idx : r < P -> S idx < P -> group_ok dsz (slot_group P slot cnt own_copy idx r).
Proof. intros Hr Hi. apply slot_group_ok; try done; try (intros; apply own_copy_local). apply slot_apart. Qed.
Lemma ring_last_ok r : group_ok dsz (ring_last r).
Proof. apply slot_last_ok. intros. apply own_copy_local. Qed.

(** All slots hold their rank's data. *)
Definition all_gathered (r : nat) m : Prop := forall b, b < P -> arr dsz m (slot r b) (cnt b) (y b).

Lemma ring_runs ms : (forall r, r < P -> ag_pre r (ms r)) -> runs op dsz P (ring_groups ++ [ring_last]) ms all_gathered.
Proof. intros Hms. eapply slot_runs; try done; [apply slot_apart|intros; apply own_copy_local|apply own_copy_run]. Qed.
(** ** The naive algorithm: everything in one group *)

Definition asrc (r idx : nat) : nat := (r + P - idx) mod P.
Definition adst (r idx : nat) : nat := (r + idx) mod P.
Definition all_exch (r idx : nat) : list entry :=
  (if 0 <? cnt r then [send_entry (slot r r) (cnt r) (adst r idx)] else []) ++
  (if 0 <? cnt (asrc r idx) then [recv_entry (slot r (asrc r idx)) (cnt (asrc r idx)) (asrc r idx)] else []).
Definition naive_group (r : nat) : list entry := own_copy r ++ (seq 1 (P - 1) ≫= all_exch r).

Lemma naive_ag_st r gs nx al : r < P ->
  ccl_coll_build_naive_allgatherv env dsz P r (send r) (cnt r) (recv r) cnt (st gs [] nx al) =
  Ok (tt, st gs (naive_group r) nx al).
Proof.
  intros Hr. unfold ccl_coll_build_naive_allgatherv. rewrite Nat.eqb_refl, ag_inplace_test by done.
  cbn [lift]. rewrite bind_ret, (bind_Ok _ _ _ _ _ (own_copy_st r nx al gs Hr)).
  erewrite (for_range_run 1 (P - 1) _ (fun i => st gs (own_copy r ++ (seq 1 (i - 1) ≫= all_exch r)) nx al)).
  - unfold naive_group. do 6 f_equal. lia.
  - cbn. by rewrite app_nil_r.
  - intros i Hi. replace (1 + i - 1) with (S (i - 1)) by lia. rewrite bind_seq_snoc.
    replace (1 + (i - 1)) with i by lia. rewrite !byte_offsets_total.
    fold (slot r r) (asrc r i) (adst r i). fold (slot r (asrc r i)). unfold all_exch at 3.
    destruct (0 <? cnt r), (0 <? cnt (asrc r i)); build_simp; rewrite ?app_nil_r, <- ?app_assoc; done.
Qed.

Lemma asrc_ne r i : r < P -> 0 < i < P -> asrc r i <> r /\ asrc r i < P.
Proof. intros. unfold asrc. split; [mod_lia|apply Nat.mod_upper_bound; lia]. Qed.
Lemma asrc_inj r i j : r < P -> 0 < i < P -> 0 < j < P -> asrc r i = asrc r j -> i = j.
Proof. intros. unfold asrc in *. mod_lia. Qed.

Lemma naive_group_ok r : r < P -> group_ok dsz (naive_group r).
Proof.
  intros Hr. apply group_ok_app.
  - unfold own_copy. case_match; group_races.
  - apply group_ok_loop.
    + intros i Hi. destruct (asrc_ne r i Hr ltac:(lia)). unfold all_exch.
      repeat case_match; group_races; by apply slot_apart.
    + intros i j a b Hij Hj Ha Hb _.
      destruct (asrc_ne r i Hr ltac:(lia)). destruct (asrc_ne r j Hr ltac:(lia)).
      assert (asrc r i <> asrc r j) by (intros E%asrc_inj; lia).
      unfold all_exch in Ha, Hb. apply elem_of_app in Ha, Hb.
      destruct Ha as [Ha|Ha], Hb as [Hb|Hb]; repeat case_match;
        try (by apply not_elem_of_nil in Ha); try (by apply not_elem_of_nil in Hb);
        apply list_elem_of_singleton in Ha, Hb; subst; race_cases; apply slot_apart; done.
  - unfold own_copy. case_match; repeat constructor; done.
Qed.
(** What rank [r] sends and what it receives. *)
Definition all_outs (r : nat) : list (nat * list V) :=
  seq 1 (P - 1) ≫= fun idx => if 0 <? cnt r then [(adst r idx, y r <$> seq 0 (cnt r))] else [].
Definition all_recv (r idx : nat) : list (entry * list V) :=
  if 0 <? cnt (asrc r idx)
  then [(recv_entry (slot r (asrc r idx)) (cnt (asrc r idx)) (asrc r idx),
         y (asrc r idx) <$> seq 0 (cnt (asrc r idx)))] else [].

Lemma all_exch_start r m : arr dsz m (slot r r) (cnt r) (y r) ->
  start_group op dsz (seq 1 (P - 1) ≫= all_exch r) m = Some (m, all_outs r).
Proof.
  intros Hown. apply start_group_bind. intros idx _. pose proof (arr_read dsz _ _ _ _ Hown) as Hread.
  unfold all_exch. destruct (0 <? cnt r), (0 <? cnt (asrc r idx)); cbn; try rewrite Hread; done.
Qed.

Lemma all_recv_complete r m : r < P -> gathered (fun b => b = r) r m ->
  exists m', complete_group op dsz (seq 1 (P - 1) ≫= all_recv r) m = Some m' /\ all_gathered r m'.
Proof.
  intros Hr Hg.
  destruct (complete_group_bind op dsz (seq 1 (P - 1)) (all_recv r)
    (fun l m => gathered (fun b => b = r \/ exists i, i ∈ l /\ b = asrc r i) r m) [] m) with (todo := seq 1 (P - 1))
    as (m' & Hc & Hall).
  - intros l i todo m1 Hl [H1 H2].
    assert (Hi : 0 < i < P) by (assert (Hin : i ∈ seq 1 (P - 1)) by (rewrite Hl; set_solver); apply elem_of_seq in Hin; lia).
    destruct (asrc_ne r i Hr Hi) as [Hne Hlt].
    assert (Hset : forall b, (b = r \/ exists j, j ∈ l ++ [i] /\ b = asrc r j) -> b <> asrc r i ->
      b = r \/ exists j, j ∈ l /\ b = asrc r j).
    { intros b [->|(j & [Hj| ->%list_elem_of_singleton]%elem_of_app & ->)] Hb; [by left|right; eauto|done]. }
    unfold all_recv. destruct (Nat.ltb_spec 0 (cnt (asrc r i))) as [Hc|Hc].
    + destruct (H1 _ Hlt) as [h Hh].
      destruct (recv_arr op dsz dsz_pos m1 _ _ _ (asrc r i) (y (asrc r i)) Hh) as (m2 & Hm2 & A).
      assert (Hframe : forall b f, b <> asrc r i -> arr dsz m1 (slot r b) (cnt b) f -> arr dsz m2 (slot r b) (cnt b) f).
      { intros b f Hb. eapply complete_arr; [done|exact Hm2|]. by apply all_apart_one, slot_apart. }
      exists m2. split; [cbn [complete_group]; by rewrite Hm2|]. split.
      * intros b Hb. destruct (decide (b = asrc r i)) as [->|Hbi]; [eauto|]. destruct (H1 b Hb) as [f Hf]. eauto.
      * intros b Hb Hin. destruct (decide (b = asrc r i)) as [->|Hbi]; [done|]. apply Hframe; [done|]. apply H2; auto.
    + exists m1. split; [done|]. split; [done|]. intros b Hb Hin.
      destruct (decide (b = asrc r i)) as [->|Hbi]; [intros k Hk; lia|]. apply H2; auto.
  - done.
  - destruct Hg as [H1 H2]. split; [done|]. intros b Hb [->|(j & Hj & _)]; [by apply H2|by apply not_elem_of_nil in Hj].
  - exists m'. split; [done|]. intros b Hb. apply Hall; [done|].
    destruct (decide (b = r)) as [->|Hbr]; [by left|]. right. exists ((r + P - b) mod P). split.
    + apply elem_of_seq. mod_lia.
    + unfold asrc. mod_lia.
Qed.

Lemma naive_balance s d : s < P -> d < P ->
  msgs_to d (all_outs s) = msgs_from s (seq 1 (P - 1) ≫= all_recv d).
Proof.
  intros Hs Hd. unfold all_outs. rewrite msgs_to_bind, msgs_from_bind.
  set (o := fun a => msgs_to d _). set (i := fun a => msgs_from s _).
  assert (Ho : forall k, 0 < k < P -> o k = if decide (adst s k = d) then if 0 <? cnt s then [y s <$> seq 0 (cnt s)] else [] else []).
  { intros k Hk. subst o. cbn beta. unfold msgs_to. destruct (0 <? cnt s); [|by case_decide].
    rewrite filter_cons, filter_nil. cbn. by case_decide. }
  assert (Hi : forall k, 0 < k < P -> i k = if decide (asrc d k = s) then if 0 <? cnt s then [y s <$> seq 0 (cnt s)] else [] else []).
  { intros k Hk. subst i. cbn beta. unfold msgs_from, all_recv. case_decide as E.
    - rewrite E. destruct (0 <? cnt s); [|done]. rewrite filter_cons, filter_nil. cbn. by rewrite decide_True.
    - destruct (0 <? cnt (asrc d k)); [|done]. rewrite filter_cons, filter_nil. cbn. rewrite decide_False by congruence. done. }
  destruct (decide (s = d)) as [->|Hne].
  - rewrite !bind_seq_none; [done| |]; intros k Hk; [rewrite Hi|rewrite Ho]; try lia; rewrite decide_False; try done;
      unfold asrc, adst; mod_lia.
  - set (k := (P + d - s) mod P). assert (Hk : 0 < k < P /\ adst s k = d /\ asrc d k = s).
    { subst k. unfold adst, asrc. split_and!; mod_lia. }
    destruct Hk as (Hk & E1 & E2).
    rewrite (bind_seq_one 1 (P - 1) o k), (bind_seq_one 1 (P - 1) i k); try lia.
    + rewrite Ho, Hi by done. by rewrite !decide_True.
    + intros j Hj Hjk. rewrite Hi by lia. rewrite decide_False; [done|]. rewrite <- E2. intros E%asrc_inj; lia.
    + intros j Hj Hjk. rewrite Ho by lia. rewrite decide_False; [done|]. rewrite <- E1. unfold adst. mod_lia.
Qed.

Lemma naive_ag_step ms : (forall r, r < P -> ag_pre r (ms r)) -> steps op dsz P naive_group ms all_gathered.
Proof.
  intros Hms. apply (matched_step op dsz P _ ms _ all_outs (fun r => seq 1 (P - 1) ≫= all_recv r)).
  - intros r Hr. destruct (own_copy_run r (ms r) Hr (Hms r Hr)) as (m1 & Hst & Hg).
    destruct (all_recv_complete r m1 Hr Hg) as (m2 & Hc & Hall). exists m1, m2. split; [|split; [|done]].
    + rewrite <- (app_nil_l (all_outs r)). eapply start_group_app; [exact Hst|]. apply all_exch_start. by apply Hg.
    + unfold naive_group. rewrite filter_app, recvs_bind, fst_bind.
      replace (recvs (own_copy r)) with (@nil entry) by (unfold own_copy; by case_match).
      cbn [app]. apply list_bind_ext; [|done]. intros idx. unfold all_recv, all_exch.
      repeat case_match; done.
  - intros r d Hr Hd. apply list_elem_of_fmap in Hd as ([d' v] & -> & (k & Hin & Hk)%list_elem_of_bind).
    destruct (0 <? cnt r); [|by apply not_elem_of_nil in Hin]. apply list_elem_of_singleton in Hin as [= -> _].
    apply Nat.mod_upper_bound. lia.
  - intros r e s Hr He Hs. rewrite fst_bind in He. apply list_elem_of_bind in He as (k & Hin & Hk%elem_of_seq).
    unfold all_recv in Hin. case_match; [|by apply not_elem_of_nil in Hin].
    apply list_elem_of_singleton in Hin as ->. injection Hs as <-. apply Nat.mod_upper_bound. lia.
  - intros s d Hs Hd. by apply naive_balance.
Qed.
End gather.

(** * Correctness of the builders *)

Lemma bind_ext {A B} (m : build A) (f g : A -> build B) s : (forall a s, f a s = g a s) -> bind m f s = bind m g s.
Proof. intros H. unfold bind. destruct (m s) as [[a s']|]; [apply H|done]. Qed.

Lemma for_range_ext lo n (b b' : nat -> build unit) s : (forall i s, b i s = b' i s) -> for_range lo n b s = for_range lo n b' s.
Proof.
  intros H. revert lo s. induction n as [|n IH]; intros lo s; [done|]. cbn [for_range]. unfold bind. rewrite H. destruct (b' lo s) as [[[] s']|]; [apply IH|done].
Qed.

Section theorems.
Context {V : Type} (op : V -> V -> V) (env : ccl_env) (dsz P : nat) (send recv : nat -> ccl_buffer)
        (cnt : nat -> nat) (nx : nat -> nat) (y : nat -> nat -> V).
Implicit Types m : gmap (nat * nat) V.

Lemma ring_allgatherv_gathers :
  0 < dsz -> 0 < P -> (forall r, r < P -> ag_bufs_ok dsz send recv cnt r) ->
  implements op dsz P (fun r => ccl_coll_build_ring_allgatherv env dsz P r (send r) (cnt r) (recv r) cnt) nx
    (ag_pre dsz P send recv cnt y) (all_gathered dsz P recv cnt y).
Proof.
  intros Hd HP Hok. eapply (implements_intro _ _ _ _ _ _ _ (ring_groups dsz P send recv cnt)
    (ring_last dsz P send recv cnt) nx (fun _ => [])); [done| | |].
  - intros r Hr. by apply (ring_st env dsz P Hd HP send recv cnt Hok r []).
  - intros r Hr. split; [|apply ring_last_ok].
    apply Forall_fmap, Forall_forall. intros g (i & ->%list_elem_of_singleton & Hi%elem_of_seq)%list_elem_of_bind.
    apply ring_group_ok; (done || lia).
  - intros ms Hms. apply ring_runs; try done. intros r Hr. by apply Hms.
Qed.

(** C9: the ring allgatherv in one schedule, as the dispatch and the ring allreduce build it ([RingParts] has several), with any counts (zero included), in place or with separate
    buffers: every interleaving ends without deadlock, and every rank then holds the
    contribution of every rank in that rank's slot of its receive buffer. *)
Theorem ring_allgatherv_correct :
  0 < dsz -> 0 < P -> (forall r, r < P -> ag_bufs_ok dsz send recv cnt r) ->
  implements op dsz P (fun r => ccl_coll_build_ring_allgatherv env dsz P r (send r) (cnt r) (recv r) cnt) nx
    (ag_pre dsz P send recv cnt y) (all_gathered dsz P recv cnt y).
Proof. apply ring_allgatherv_gathers. Qed.

(** The naive allgatherv, which puts all its entries into one barrier group: the
    entries do not race, every interleaving ends without deadlock, and every rank
    then holds every rank's contribution. *)
Theorem naive_allgatherv_correct :
  0 < dsz -> 0 < P -> (forall r, r < P -> ag_bufs_ok dsz send recv cnt r) ->
  implements op dsz P (fun r => ccl_coll_build_naive_allgatherv env dsz P r (send r) (cnt r) (recv r) cnt) nx
    (ag_pre dsz P send recv cnt y) (all_gathered dsz P recv cnt y).
Proof.
  intros Hd HP Hok. eapply (implements_intro _ _ _ _ _ _ _ [] (naive_group dsz P send recv cnt) nx (fun _ => [])); [done| | |].
  - intros r Hr. by apply naive_ag_st.
  - intros r Hr. split; [done|by apply naive_group_ok].
  - intros ms Hms. apply runs_one, naive_ag_step; try done. intros r Hr. by apply Hms.
Qed.
End theorems.

(** The naive allgather builds what the naive allgatherv builds for equal counts. *)
Lemma naive_allgather_as_allgatherv env dsz P r (count : nat) sb rb s :
  ccl_coll_build_naive_allgather env dsz P r sb rb count s = ccl_coll_build_naive_allgatherv env dsz P r sb count rb (fun _ => count) s.
Proof.
  unfold ccl_coll_build_naive_allgather, ccl_coll_build_naive_allgatherv. rewrite Nat.eqb_refl.
  apply bind_ext. intros inp s1. apply bind_ext. intros [] s2.
  apply for_range_ext. intros i s3. destruct (0 <? count); done.
Qed.

Theorem naive_allgather_correct {V} (op : V -> V -> V) env dsz P send recv (count : nat) nx y :
  0 < dsz -> 0 < P -> (forall r, r < P -> ag_bufs_ok dsz send recv (fun _ => count) r) ->
  implements op dsz P (fun r => ccl_coll_build_naive_allgather env dsz P r (send r) (recv r) count) nx
    (ag_pre dsz P send recv (fun _ => count) y) (all_gathered dsz P recv (fun _ => count) y).
Proof.
  intros Hd HP Hok. destruct (naive_allgatherv_correct op env dsz P send recv (fun _ => count) nx y Hd HP Hok) as (scheds & Hb & H).
  exists scheds. split; [|done]. intros r Hr. rewrite naive_allgather_as_allgatherv. by apply Hb.
Qed.

(** Counts 2, 0, 3; rank 0 is in place. *)
Definition cnt_ex (r : nat) : nat := match r with 0 => 2 | 1 => 0 | _ => 3 end.
Definition ag_send_ex (r : nat) : ccl_buffer := if r =? 0 then recv_ex 0 else send_ex r.

Lemma ag_bufs_ex r : ag_bufs_ok 4 ag_send_ex recv_ex cnt_ex r.
Proof.
  unfold ag_bufs_ok, ag_send_ex. destruct (Nat.eqb_spec r 0) as [->|]; cbn; (split; [lia|]); (split; [lia|]); [by left|right; lia].
Qed.

Lemma ring_allgatherv_correct_witness :
  implements Nat.add 4 3 (fun r => ccl_coll_build_ring_allgatherv env_ex 4 3 r (ag_send_ex r) (cnt_ex r) (recv_ex r) cnt_ex) nx_ex
    (ag_pre 4 3 ag_send_ex recv_ex cnt_ex x_ex) (all_gathered 4 3 recv_ex cnt_ex x_ex).
Proof. apply ring_allgatherv_correct; [lia|lia|]. intros r _. apply ag_bufs_ex. Defined.

Lemma naive_allgatherv_correct_witness :
  implements Nat.add 4 3 (fun r => ccl_coll_build_naive_allgatherv env_ex 4 3 r (ag_send_ex r) (cnt_ex r) (recv_ex r) cnt_ex) nx_ex
    (ag_pre 4 3 ag_send_ex recv_ex cnt_ex x_ex) (all_gathered 4 3 recv_ex cnt_ex x_ex).
Proof. apply naive_allgatherv_correct; [lia|lia|]. intros r _. apply ag_bufs_ex. Defined.
