(* ===== verification/RingParts.v ===== *)
(** The ring allgatherv over several schedules, as the parallelizer builds it: [ccl_coll_build_ring_allgatherv] of
    [src/src/coll/algorithms/allgatherv/allgatherv.cpp] with [main_sched].

    Every block is cut into as many pieces as there are schedules, the remainder in the last, and schedule [s_idx] moves piece [s_idx] of
    every block around the ring, behind the copy of the own data that all schedules of the rank wait for. *)

From S2P Require Import Prelude Sched Network Race Bsp Build Reduction Frame Par Parts ReduceScatter Allgatherv.
Open Scope nat_scope.
Open Scope ccl_scope.

#[export] Instance fresh_ring_loop dsz P r K k rb cnt : Fresh (ring_allgatherv_loop dsz P r K k rb cnt).
Proof. unfold ring_allgatherv_loop. fresh_by. Qed.

(** What is in front of the schedules only matters rank by rank. *)
Lemma par_pre_ext {V} (op : V -> V -> V) dsz N K (pre pre' : nat -> list entry) prog ms post : (forall r, r < N -> pre r = pre' r) ->
  par_collective op dsz N K pre prog ms post -> par_collective op dsz N K pre' prog ms post.
Proof.
  intros H. unfold par_collective, init_par. replace (pre' <$> seq 0 N) with (pre <$> seq 0 N); [done|].
  apply list_fmap_ext. intros i r [-> Hi]%lookup_seq. by apply H.
Qed.

Section pieces.
Context (K : nat) (HK : 0 < K).

(** Where piece [k] of a block of [n] elements begins. *)
Abbreviation piece n k := (k * (n / K)).

Lemma sched_offset_piece dsz n k : k < K -> sched_offset dsz K n k = piece n k * dsz.
Proof using HK.
  induction k as [|k IH]; intros Hk; [done|]. cbn [sched_offset]. rewrite IH by lia. unfold thread_count. rewrite (proj2 (Nat.eqb_neq k (K - 1))) by lia. lia.
Qed.
Lemma piece_end n k : k < K -> piece n k + thread_count K n k <= n.
Proof using HK. intros Hk. unfold thread_count. pose proof (Nat.div_mod_eq n K). destruct (Nat.eqb_spec k (K - 1)); nia. Qed.
Lemma piece_order n k j : k < j < K -> piece n k + thread_count K n k <= piece n j.
Proof using HK. intros Hk. unfold thread_count. rewrite (proj2 (Nat.eqb_neq k (K - 1))) by lia. nia. Qed.
(** Every element of a block is in a piece. *)
Lemma piece_cover n i : i < n -> exists k, k < K /\ piece n k <= i < piece n k + thread_count K n k.
Proof using HK.
  intros Hi. pose proof (Nat.div_mod_eq n K) as Hn. pose proof (Nat.mod_upper_bound n K ltac:(lia)). unfold thread_count. destruct (decide (piece n (K - 1) <= i)) as [Hl|Hl].
  - exists (K - 1). rewrite Nat.eqb_refl. nia.
  - assert (n / K <> 0) as Hq by nia. exists (i / (n / K)). pose proof (Nat.div_mod_eq i (n / K)). pose proof (Nat.mod_upper_bound i (n / K) Hq).
    assert (i / (n / K) < K - 1) as Hk by (apply Nat.Div0.div_lt_upper_bound; nia). rewrite (proj2 (Nat.eqb_neq _ (K - 1))) by lia. nia.
Qed.
End pieces.

Section parts.
Context {V : Type} (op : V -> V -> V) (env : ccl_env) (dsz P K : nat) (dsz_pos : 0 < dsz) (HP : 0 < P) (HK : 0 < K).
Context (send recv : nat -> ccl_buffer) (cnt : nat -> nat) (nx : nat -> nat) (y : nat -> nat -> V).
Context (Hok : forall r, r < P -> ag_bufs_ok dsz send recv cnt r /\ buf_src (recv r) < nx r).
Abbreviation memory := (gmap (nat * nat) V).
Implicit Types m : memory.

Abbreviation pslot k r b := (part_slot dsz (recv r) cnt K k b).
Abbreviation plen k b := (part_len cnt K k b).
Abbreviation piece b k := (k * (cnt b / K)).

Lemma pslot_eq k r b : k < K -> pslot k r b = recv r +b (total_count cnt b + piece b k) * dsz.
Proof using HK HP dsz_pos.
  intros Hk. unfold part_slot. rewrite byte_offsets_total, sched_offset_piece by done. destruct (recv r). unfold buffer_add. cbn. f_equal. lia.
Qed.

Lemma pslot_apart k j r b b' : k < K -> j < K -> k <> j \/ b <> b' -> apart dsz (pslot k r b, plen k b) (pslot j r b', plen j b').
Proof using HK HP dsz_pos.
  intros Hk Hj Hne. rewrite !pslot_eq by done. apply apart_sub. unfold part_len. pose proof (piece_end K HK (cnt b) k Hk). pose proof (piece_end K HK (cnt b') j Hj).
  destruct (lt_eq_lt_dec b b') as [[Hb|E]|Hb].
  - pose proof (total_before cnt b b' Hb). lia.
  - subst b'. destruct (lt_eq_lt_dec k j) as [[Hkj| ->]|Hkj]; [pose proof (piece_order K HK (cnt b) k j ltac:(lia)); lia|lia|pose proof (piece_order K HK (cnt b) j k ltac:(lia)); lia].
  - pose proof (total_before cnt b' b Hb). lia.
Qed.

(** What schedule [k] starts from and ends with. *)
Definition piece_value (k b i : nat) : V := y b (piece b k + i).
Definition piece_pre (k r : nat) m : Prop := slots_hold dsz P (fun r => part_slot dsz (recv r) cnt K k) (part_len cnt K k) (piece_value k) (fun b => b = r) r m.
Definition piece_post (k r : nat) m : Prop := forall b, b < P -> arr dsz m (pslot k r b) (plen k b) (piece_value k b).

Lemma piece_implements k nxk : k < K ->
  implements op dsz P (fun r => ring_allgatherv_loop dsz P r K k (recv r) cnt) nxk (piece_pre k) (piece_post k).
Proof using HK HP dsz_pos.
  intros Hk. eapply (implements_intro _ _ _ _ _ _ _ (slot_groups P (fun r => part_slot dsz (recv r) cnt K k) (part_len cnt K k) (fun _ => []))
    (slot_last P (fun _ => [])) nxk (fun _ => [])); [done| | |].
  - intros r Hr. rewrite loop_st by done. cbn [app]. do 3 f_equal. by apply slot_groups_ext.
  - intros r Hr. split; [|by apply slot_last_ok].
    apply Forall_fmap, Forall_forall. intros g (i & ->%list_elem_of_singleton & Hi%elem_of_seq)%list_elem_of_bind.
    apply slot_group_ok; try done; [|lia]. intros r' b b' Hb. apply pslot_apart; auto.
  - intros ms Hms. eapply (slot_runs op dsz P dsz_pos HP (fun r => part_slot dsz (recv r) cnt K k) (part_len cnt K k) (fun _ => []) (piece_value k)); try done.
    + intros r b b' Hb. apply pslot_apart; auto.
    + intros r m Hr Hm. exists m. split; [done|exact Hm].
    + intros r Hr. by apply Hms.
Qed.

(** The pieces of the own data and of somewhere to put the rest. *)
Lemma gathered_pieces k r m : k < K -> slots_hold dsz P (slot dsz recv cnt) cnt y (fun b => b = r) r m -> piece_pre k r m.
Proof using HK HP dsz_pos.
  intros Hk [H1 H2]. assert (Hsub : forall b f, arr dsz m (slot dsz recv cnt r b) (cnt b) f -> arr dsz m (pslot k r b) (plen k b) (fun i => f (piece b k + i))).
  { intros b f Hf. pose proof (piece_end K HK (cnt b) k Hk). rewrite pslot_eq by done. pose proof (arr_sub dsz dsz_pos m (slot dsz recv cnt r b) (cnt b) f (piece b k) (plen k b)) as Hs.
    unfold slot in Hs. replace (recv r +b total_count cnt b * dsz +b piece b k * dsz) with (recv r +b (total_count cnt b + piece b k) * dsz) in Hs
      by (destruct (recv r); unfold buffer_add; cbn; f_equal; lia). by apply Hs. }
  split.
  - intros b Hb. destruct (H1 b Hb) as [f Hf]. eauto.
  - intros b Hb E. apply Hsub, H2; done.
Qed.

Lemma pieces_gathered r m : (forall k, k < K -> exists m0, m0 ⊆ m /\ piece_post k r m0) -> all_gathered dsz P recv cnt y r m.
Proof using HK HP dsz_pos.
  intros H b Hb i Hi. destruct (piece_cover K HK (cnt b) i Hi) as (k & Hk & Hki). destruct (H k Hk) as (m0 & Hm0 & Hp).
  pose proof (arr_larger dsz _ _ _ _ _ Hm0 (Hp b Hb) (i - piece b k) ltac:(unfold part_len; lia)) as Hv. unfold piece_value in Hv.
  rewrite pslot_eq, cell_add in Hv by done. unfold slot. rewrite cell_add.
  replace (total_count cnt b + piece b k + (i - piece b k)) with (total_count cnt b + i) in Hv by lia. by replace (piece b k + (i - piece b k)) with i in Hv by lia.
Qed.

Abbreviation own := (own_copy dsz send recv cnt).

Lemma own_local r m m1 : start_group op dsz (own r) m = Some (m1, []) -> local_run op dsz (own r) m = Some m1.
Proof using.
  unfold own_copy. destruct (_ && _); cbn; [|by intros [= ->]]. destruct (comp_copy _ _ _ _ _) as [m'|]; cbn; [by intros [= ->]|done].
Qed.
Lemma own_grows r m m1 : local_run op dsz (own r) m = Some m1 -> grows m m1.
Proof using.
  unfold own_copy. destruct (_ && _); cbn; [|intros [= ->]; apply grows_refl]. destruct (comp_copy _ _ _ _ _) as [m'|] eqn:E; cbn; [|done]. intros [= <-]. by eapply copy_grows.
Qed.
Lemma parts_st r : r < P ->
  ccl_coll_build_ring_allgatherv_parts env dsz P r K (send r) (cnt r) (recv r) cnt (empty_sched (nx r)) =
  Ok ((fun k => ring_allgatherv_loop dsz P r K k (recv r) cnt) <$> seq 0 K, st [] (own r) (nx r) []).
Proof using Hok dsz_pos HP.
  intros Hr. unfold ccl_coll_build_ring_allgatherv_parts, ring_allgatherv_copy. rewrite empty_sched_st, Nat.eqb_refl, (ag_inplace_test env dsz P dsz_pos HP send recv cnt) by (done || (intros; by apply Hok)).
  cbn [lift]. build_simp. erewrite bind_Ok; [|apply (own_copy_st dsz P send recv cnt r (nx r) [] [] Hr)]. done.
Qed.

Lemma ring_parts_gather : exists (fronts : nat -> ccl_sched) (scheds : nat -> list ccl_sched),
  (forall r, r < P -> exists loops,
     ccl_coll_build_ring_allgatherv_parts env dsz P r K (send r) (cnt r) (recv r) cnt (empty_sched (nx r)) = Ok (loops, fronts r) /\
     build_parts (next_src (fronts r)) loops = Ok (scheds r)) /\
  forall ms : nat -> memory, (forall r, r < P -> ag_pre dsz P send recv cnt y r (ms r) /\ Forall (fun s => Forall (allocated dsz (ms r)) (allocs s)) (scheds r)) ->
    par_collective op dsz P K (fun r => (entries (fronts r)).*1) (fun k r => part_prog (scheds r) k) ms (all_gathered dsz P recv cnt y).
Proof using All.
  assert (Hbuf : forall r, r < P -> ag_bufs_ok dsz send recv cnt r) by (intros; by apply Hok).
  destruct (parts_collective_behind op dsz P K dsz_pos (fun k r => ring_allgatherv_loop dsz P r K k (recv r) cnt) nx
    (fun k r => (fun b => (pslot k r b, plen k b)) <$> seq 0 P) piece_pre piece_post) with (front := own) as (scheds & Hb & H).
  - intros k nxk Hk _. by apply piece_implements.
  - intros. apply _.
  - intros k r x Hk Hr (b & -> & _)%list_elem_of_fmap. cbn. by apply Hok.
  - intros k j r Hk Hj Hne Hr x x' (b & -> & _)%list_elem_of_fmap (b' & -> & _)%list_elem_of_fmap. apply pslot_apart; auto.
  - intros k r rs m Hk Hr Hin [H1 H2]. split.
    + intros b Hb. destruct (H1 b Hb) as [g Hg]. exists g. apply restrict_arr; [done| |done]. apply Hin, list_elem_of_fmap. exists b. split; [done|]. apply elem_of_seq. lia.
    + intros b Hb E. apply restrict_arr; [done| |by apply H2]. apply Hin, list_elem_of_fmap. exists b. split; [done|]. apply elem_of_seq. lia.
  - exists (fun r => st [] (own r) (nx r) []), scheds. split; [intros r Hr; eexists; split; [by apply parts_st|by apply Hb]|].
    intros ms Hms. set (ms1 := fun r => default (ms r) (local_run op dsz (own r) (ms r))).
    assert (Hms1 : forall r, r < P -> local_run op dsz (own r) (ms r) = Some (ms1 r) /\ slots_hold dsz P (slot dsz recv cnt) cnt y (fun b => b = r) r (ms1 r)).
    { intros r Hr. destruct (own_copy_run op dsz P dsz_pos HP send recv cnt y Hbuf r (ms r) Hr (proj1 (Hms r Hr))) as (m1 & Hst & Hg).
      apply own_local in Hst. unfold ms1. by rewrite Hst. }
    eapply par_weaken; [intros r m Hr; apply pieces_gathered|].
    apply (par_pre_ext _ _ _ _ own); [intros r _; unfold own_copy; by case_match|]. apply (H ms ms1).
    + intros r Hr. split; [apply own_copy_local|]. by apply Hms1.
    + intros r Hr. split; [intros k Hk; apply gathered_pieces, Hms1; done|]. eapply Forall_impl; [apply Hms, Hr|]. intros sc Hsc. eapply Forall_impl; [exact Hsc|].
      intros a [h Hh]. eapply (arr_grows dsz); [|exact Hh]. apply (own_grows r). by apply Hms1.
Qed.
End parts.

(** * Claim *)

(** The schedules of a rank: the entries of [main_sched] that all wait for, and the schedules of the workers, built in order. *)
Definition ring_schedules (env : ccl_env) (dsz P r sched_count : nat) (send recv : ccl_buffer) (cnt : nat -> nat) (nx : nat) : result (ccl_sched * list ccl_sched) :=
  f <-! ccl_coll_build_ring_allgatherv_parts env dsz P r sched_count send (cnt r) recv cnt (empty_sched nx) ;;
  scheds <-! build_parts (next_src f.2) f.1 ;; Ok (f.2, scheds).

(** C10: The ring allgatherv over any number of schedules, as the parallelizer builds it for its workers: the builder succeeds on every rank; behind the copy of the own
    data, which all schedules of a rank wait for, every interleaving of the schedules ends without deadlock, and every rank then holds the
    contribution of every rank in that rank's slot of its receive buffer, whatever the counts (zero, or fewer than the schedules) and in place or not. *)
Theorem ring_allgatherv_parts_correct {V} (op : V -> V -> V) (env : ccl_env) (dsz P sched_count : nat) (send recv : nat -> ccl_buffer)
    (cnt : nat -> nat) (nx : nat -> nat) (y : nat -> nat -> V) :
  0 < dsz -> 0 < P -> 0 < sched_count -> (forall r, r < P -> ag_bufs_ok dsz send recv cnt r /\ buf_src (recv r) < nx r) ->
  exists (fronts : nat -> ccl_sched) (scheds : nat -> list ccl_sched),
    (forall r, r < P -> ring_schedules env dsz P r sched_count (send r) (recv r) cnt (nx r) = Ok (fronts r, scheds r)) /\
    forall ms : nat -> gmap (nat * nat) V,
      (forall r, r < P -> ag_pre dsz P send recv cnt y r (ms r) /\ Forall (fun s => Forall (allocated dsz (ms r)) (allocs s)) (scheds r)) ->
      par_collective op dsz P sched_count (fun r => (entries (fronts r)).*1) (fun k r => part_prog (scheds r) k) ms (all_gathered dsz P recv cnt y).
Proof.
  intros Hd HP HK Hok. destruct (ring_parts_gather op env dsz P sched_count Hd HP HK send recv cnt nx y Hok) as (fronts & scheds & Hb & H). exists fronts, scheds. split; [|exact H].
  intros r Hr. destruct (Hb r Hr) as (loops & E1 & E2). unfold ring_schedules. rewrite E1. cbn [result_bind fst snd]. by rewrite E2.
Qed.

(** Three ranks with 2, 0 and 3 elements, over two schedules. *)
Lemma ring_allgatherv_parts_correct_witness :
  exists (fronts : nat -> ccl_sched) (scheds : nat -> list ccl_sched),
    (forall r, r < 3 -> ring_schedules env_ex 4 3 r 2 (ag_send_ex r) (recv_ex r) cnt_ex (nx_ex r) = Ok (fronts r, scheds r)) /\
    forall ms : nat -> gmap (nat * nat) nat,
      (forall r, r < 3 -> ag_pre 4 3 ag_send_ex recv_ex cnt_ex x_ex r (ms r) /\ Forall (fun s => Forall (allocated 4 (ms r)) (allocs s)) (scheds r)) ->
      par_collective Nat.add 4 3 2 (fun r => (entries (fronts r)).*1) (fun k r => part_prog (scheds r) k) ms (all_gathered 4 3 recv_ex cnt_ex x_ex).
Proof.
  apply (ring_allgatherv_parts_correct Nat.add env_ex 4 3 2 ag_send_ex recv_ex cnt_ex nx_ex x_ex); [lia|lia|lia|]. intros r _. split; [apply ag_bufs_ex|].
  cbn. unfold nx_ex. lia.
Defined.

(** Of the three elements of rank 2 the first schedule moves one and the second two. *)
Example ring_pieces : (fun k => (sched_offset 4 2 3 k, thread_count 2 3 k)) <$> [0; 1] = [(0, 1); (4, 2)].
Proof. reflexivity. Qed.
