(* ===== verification/Allreduce.v ===== *)
(** The allreduce algorithms of [src/src/coll/algorithms/allreduce/allreduce.cpp]. *)

From S2P Require Import Prelude Sched Network Race Bsp Build Reduction ReduceScatter Allgatherv.
Open Scope ccl_scope.

(** * The ring: reduce-scatter, then allgatherv *)

Definition ccl_coll_build_ring_allreduce (env : ccl_env) (dsz comm_size rank : nat)
    (send_buf recv_buf : ccl_buffer) (count : nat) : build unit :=
  if count =? 0 then ret tt else
  CCL_THROW_IF_NOT (buffer_bool send_buf && buffer_bool recv_buf) ;;;
  ccl_coll_build_reduce_scatter_block env dsz comm_size rank send_buf recv_buf count ;;;
  add_barrier ;;;
  let main_block_count := count / comm_size in
  let last_block_count := main_block_count + count mod comm_size in
  let recv_counts := fun i =>
    if negb (count mod comm_size =? 0) && (i =? comm_size - 1) then last_block_count else main_block_count in
  ccl_coll_build_ring_allgatherv env dsz comm_size rank
    (recv_buf +b rank * main_block_count * dsz) (recv_counts rank) recv_buf recv_counts ;;;
  add_barrier.

Section ring.
Context {V : Type} (op : V -> V -> V) (env : ccl_env) (dsz P count : nat) (send recv : nat -> ccl_buffer)
        (nx : nat -> nat) (x : nat -> nat -> V) (dsz_pos : 0 < dsz) (HP : 0 < P) (Hcount : 0 < count).
Context (Hok : forall r, r < P -> bufs_ok send recv nx r).
Abbreviation memory := (gmap (nat * nat) V).
Implicit Types m : memory.

Definition counts (i : nat) : nat :=
  if negb (count mod P =? 0) && (i =? P - 1) then count / P + count mod P else count / P.

Lemma counts_bsize b : counts b = bsize P count b.
Proof.
  unfold counts, bsize. destruct (b =? P - 1); rewrite ?andb_false_r, ?andb_true_r; [|done].
  destruct (Nat.eqb_spec (count mod P) 0) as [->|]; cbn; lia.
Qed.

Lemma counts_total b : b < P -> total_count counts b = boff P count b.
Proof.
  induction b as [|b IH]; intros Hb; cbn; [unfold boff; lia|].
  rewrite IH, counts_bsize by lia. unfold boff, bsize. destruct (Nat.eqb_spec b (P - 1)); lia.
Qed.

Lemma counts_all : total_count counts P = count.
Proof.
  replace P with (S (P - 1)) at 1 by lia. cbn. rewrite counts_total, counts_bsize by lia.
  unfold boff, bsize. rewrite Nat.eqb_refl. pose proof (Nat.div_mod_eq count P). nia.
Qed.

(** The slice of the receive buffer the allgatherv starts from. *)
Definition own_slice (r : nat) : ccl_buffer := recv r +b r * (count / P) * dsz.

Lemma own_slice_slot r : r < P -> own_slice r = slot dsz recv counts r r.
Proof. intros Hr. unfold own_slice, slot. rewrite counts_total by done. unfold boff. by rewrite (Nat.mul_comm r). Qed.

Lemma gather_bufs_ok r : r < P -> ag_bufs_ok dsz own_slice recv counts r.
Proof. intros Hr. destruct (Hok r Hr) as (? & ? & _). split; [cbn; lia|]. split; [lia|]. left. by apply own_slice_slot. Qed.

Definition ring_allreduce_groups : list (nat -> list entry) :=
  block_all env dsz P count send recv nx ++ [fun _ => []] ++
  ring_groups dsz P own_slice recv counts ++ [ring_last dsz P own_slice recv counts].

Lemma ring_allreduce_st r : r < P ->
  ccl_coll_build_ring_allreduce env dsz P r (send r) (recv r) count (st [] [] (nx r) []) =
  Ok (tt, st (at_rank r ring_allreduce_groups) [] (block_next P send recv nx r) (block_allocs dsz P count send recv nx r)).
Proof.
  intros Hr. unfold ccl_coll_build_ring_allreduce. destruct (Nat.eqb_spec count 0); [lia|].
  assert (buffer_bool (send r) = true /\ buffer_bool (recv r) = true) as [-> ->].
  { destruct (Hok r Hr) as (? & ? & _). unfold buffer_bool. rewrite !bool_decide_eq_true_2 by lia. done. }
  cbn [andb]. erewrite bind_Ok; [|apply (block_st env dsz P count send recv nx); [auto|nia|auto]].
  build_simp. fold counts. fold (own_slice r).
  erewrite bind_Ok; [|apply (ring_st env dsz P dsz_pos HP own_slice recv counts); [apply gather_bufs_ok|done]].
  build_simp. unfold ring_allreduce_groups. by rewrite !at_rank_app.
Qed.

(** The block an element belongs to, and the value every rank ends with. *)
Definition block_of (i : nat) : nat := if i <? count / P * (P - 1) then i / (count / P) else P - 1.
Definition ring_value (i : nat) : V := acc op P send recv x (P - 1) (block_of i) i.

Lemma block_of_spec i : i < count ->
  block_of i < P /\ boff P count (block_of i) <= i < boff P count (block_of i) + bsize P count (block_of i).
Proof.
  intros Hi. unfold block_of, boff, bsize. set (q := count / P).
  pose proof (Nat.div_mod_eq count P) as E. fold q in E.
  destruct (Nat.ltb_spec i (q * (P - 1))) as [Hlt|Hge].
  - assert (Hq : q <> 0) by lia. pose proof (Nat.div_mod_eq i q). pose proof (Nat.mod_upper_bound i q Hq).
    assert (i / q < P - 1) by nia. destruct (Nat.eqb_spec (i / q) (P - 1)); [lia|]. split; lia.
  - rewrite Nat.eqb_refl. split; [lia|]. split; [lia|]. nia.
Qed.

Lemma arr_from_blocks m r (f : nat -> V) :
  (forall b, b < P -> arr dsz m (slot dsz recv counts r b) (counts b) (fun i => f (boff P count b + i))) ->
  arr dsz m (recv r) count f.
Proof.
  intros H i Hi. destruct (block_of_spec i Hi) as [Hb [H1 H2]].
  specialize (H _ Hb (i - boff P count (block_of i))). rewrite counts_bsize in H.
  unfold slot in H. rewrite cell_add, counts_total in H by done.
  replace (boff P count (block_of i) + (i - boff P count (block_of i))) with i in H by lia. apply H. lia.
Qed.

Lemma block_of_block b i : b < P -> i < bsize P count b -> block_of (boff P count b + i) = b.
Proof.
  intros Hb Hi. assert (Hlt : boff P count b + i < count) by (pose proof (block_bound P count HP b Hb); lia).
  destruct (block_of_spec _ Hlt) as [Hb' [H1 H2]]. set (b' := block_of _) in *.
  destruct (lt_eq_lt_dec b b') as [[Hc|Hc]|Hc]; [|done|].
  - pose proof (block_before P count HP b b' Hc Hb'). lia.
  - pose proof (block_before P count HP b' b Hc Hb). lia.
Qed.

Lemma ring_allreduce_runs ms :
  (forall r, r < P -> arr dsz (ms r) (send r) count (x r) /\ (exists g, arr dsz (ms r) (recv r) count g) /\
     Forall (allocated dsz (ms r)) (block_allocs dsz P count send recv nx r)) ->
  runs op dsz P ring_allreduce_groups ms (fun r m => arr dsz m (recv r) count ring_value).
Proof.
  intros Hms. unfold ring_allreduce_groups. eapply runs_seq; [apply block_bsp with (x := x); try done|].
  { intros r Hr. destruct (Hms r Hr) as (? & ? & Hal). split; [done|]. split; [done|]. by apply block_tmp. }
  intros ms1 H1. eapply runs_seq; [apply runs_one, skip_step, H1|].
  intros ms2 H2. eapply runs_weaken; [|apply (ring_runs op dsz P dsz_pos HP own_slice recv counts)
    with (y := fun b i => acc op P send recv x (P - 1) b (boff P count b + i))].
  - intros r m Hr Hall. apply (arr_from_blocks m r). intros b Hb. eapply (arr_ext dsz); [|by apply Hall].
    intros i Hi. cbn. unfold ring_value. rewrite counts_bsize in Hi. by rewrite block_of_block.
  - apply gather_bufs_ok.
  - intros r Hr. destruct (H2 r Hr) as (g & Hg & Hval). split.
    + rewrite own_slice_slot by done. unfold slot. rewrite counts_total by done.
      assert (Hsub : boff P count r + counts r <= count).
      { rewrite counts_bsize. by apply block_bound. }
      eapply (arr_ext dsz); [|eapply arr_sub; [done|exact Hg|exact Hsub]].
      intros i Hi. cbn. rewrite counts_bsize in Hi. apply Hval. lia.
    + exists g. by rewrite counts_all.
Qed.
Lemma ring_groups_all_ok r : r < P -> Forall (group_ok dsz) (at_rank r ring_allreduce_groups).
Proof.
  intros Hr. unfold ring_allreduce_groups. rewrite !at_rank_app, !Forall_app. split_and!.
  - by apply block_all_ok; auto.
  - by repeat constructor.
  - apply Forall_fmap, Forall_forall. intros g (i & ->%list_elem_of_singleton & Hi%elem_of_seq)%list_elem_of_bind.
    apply ring_group_ok; (done || lia).
  - repeat constructor. apply ring_last_ok.
Qed.

Lemma ring_allreduce_impl (post : nat -> memory -> Prop) :
  (forall r m, r < P -> arr dsz m (recv r) count ring_value -> post r m) ->
  implements op dsz P (fun r => ccl_coll_build_ring_allreduce env dsz P r (send r) (recv r) count) nx
    (fun r m => arr dsz m (send r) count (x r) /\ exists g, arr dsz m (recv r) count g) post.
Proof.
  intros Hpost. eapply (implements_intro _ _ _ _ _ _ _ ring_allreduce_groups (fun _ => [])
    (block_next P send recv nx) (block_allocs dsz P count send recv nx)); [done| | |].
  - intros r Hr. by apply ring_allreduce_st.
  - intros r Hr. split; [by apply ring_groups_all_ok|done].
  - intros ms Hms. eapply runs_seq; [apply ring_allreduce_runs|].
    + intros r Hr. destruct (Hms r Hr) as ((? & ?) & ?). done.
    + intros ms1 H1. apply runs_one, skip_step. intros r Hr. apply Hpost; [done|by apply H1].
Qed.
End ring.

Section ring_theorems.
Context {V : Type} (op : V -> V -> V) (env : ccl_env) (dsz P count : nat) (send recv : nat -> ccl_buffer)
        (nx : nat -> nat) (x : nat -> nat -> V).
Implicit Types m : gmap (nat * nat) V.

(** The ring allreduce with any operation, also one that is neither associative nor
    commutative (floating-point addition): every interleaving ends without deadlock
    and all ranks end with the same elements, bit for bit. *)
Theorem ring_allreduce_same_everywhere :
  0 < dsz -> 0 < P -> 0 < count -> (forall r, r < P -> bufs_ok send recv nx r) ->
  exists z : nat -> V,
  implements op dsz P (fun r => ccl_coll_build_ring_allreduce env dsz P r (send r) (recv r) count) nx
    (fun r m => arr dsz m (send r) count (x r) /\ exists g, arr dsz m (recv r) count g)
    (fun r m => arr dsz m (recv r) count z).
Proof. intros. exists (ring_value op P count send recv x). by apply ring_allreduce_impl with (x := x). Qed.

Lemma ring_allreduce_reduces :
  0 < dsz -> 0 < P -> 0 < count -> Assoc (=) op -> Comm (=) op -> (forall r, r < P -> bufs_ok send recv nx r) ->
  implements op dsz P (fun r => ccl_coll_build_ring_allreduce env dsz P r (send r) (recv r) count) nx
    (fun r m => arr dsz m (send r) count (x r) /\ exists g, arr dsz m (recv r) count g)
    (fun r m => arr dsz m (recv r) count (fun i => reduce_ranks op P (fun q => x q i))).
Proof.
  intros Hd HP Hc Ha Hcm Hok. apply ring_allreduce_impl with (x := x); try done.
  intros r m Hr A. eapply (arr_ext dsz); [|exact A]. intros i Hi. unfold ring_value.
  eapply acc_total; try done. by eapply block_of_spec.
Qed.

(** C1: the ring allreduce with an associative and commutative operation leaves on every
    rank the reduction over all ranks of every element, for any chunking, in place
    or not, and whatever the interleaving. *)
Theorem ring_allreduce_correct :
  0 < dsz -> 0 < P -> 0 < count -> Assoc (=) op -> Comm (=) op -> (forall r, r < P -> bufs_ok send recv nx r) ->
  implements op dsz P (fun r => ccl_coll_build_ring_allreduce env dsz P r (send r) (recv r) count) nx
    (fun r m => arr dsz m (send r) count (x r) /\ exists g, arr dsz m (recv r) count g)
    (fun r m => arr dsz m (recv r) count (fun i => reduce_ranks op P (fun q => x q i))).
Proof. apply ring_allreduce_reduces. Qed.
End ring_theorems.

Lemma ring_allreduce_same_everywhere_witness :
  exists z : nat -> nat,
  implements Nat.sub 4 3 (fun r => ccl_coll_build_ring_allreduce env_ex 4 3 r (send_ex r) (recv_ex r) 7) nx_ex
    (fun r m => arr 4 m (send_ex r) 7 (x_ex r) /\ exists g, arr 4 m (recv_ex r) 7 g)
    (fun r m => arr 4 m (recv_ex r) 7 z).
Proof. apply ring_allreduce_same_everywhere; [lia|lia|lia|]. intros r _. apply bufs_ex. Defined.

Lemma ring_allreduce_correct_witness :
  implements Nat.add 4 3 (fun r => ccl_coll_build_ring_allreduce env_ex 4 3 r (send_ex r) (recv_ex r) 7) nx_ex
    (fun r m => arr 4 m (send_ex r) 7 (x_ex r) /\ exists g, arr 4 m (recv_ex r) 7 g)
    (fun r m => arr 4 m (recv_ex r) 7 (fun i => reduce_ranks Nat.add 3 (fun q => x_ex q i))).
Proof. apply ring_allreduce_correct; [lia|lia|lia|exact _|exact _|]. intros r _. apply bufs_ex. Defined.
