(* ===== verification/Bcast.v ===== *)
(** The broadcast algorithms of [src/src/coll/algorithms/broadcast/bcast.cpp] (one buffer) and
    [broadcast.cpp] (a send and a receive buffer).

    The scatter-and-ring algorithms treat the data as bytes ([ccl_datatype_int8]), so their
    memories are read with elements of one byte.  Their sizes are [int]s: the byte count is
    converted as the code does ([int_nbytes]), and the schedule is given where no [int] of the
    algorithm overflows; there the [int]s hold the natural numbers used here (a difference that
    the code clips at 0, or compares with 0, is the subtraction of [nat]). *)

From S2P Require Import Prelude Sched Network Race Bsp Build Reduction ReduceScatter.
Open Scope ccl_scope.

(** * Builders *)

Definition ccl_coll_build_naive_bcast (comm_size rank : nat) (buf : ccl_buffer) (count root : nat) : build unit :=
  if comm_size =? 1 then ret tt
  else if rank =? root then
    for_range 0 comm_size (fun idx => if negb (idx =? rank) then create_send buf count idx else ret tt)
  else create_recv buf count root.

Definition ccl_coll_build_naive_broadcast (comm_size rank : nat) (send_buf recv_buf : ccl_buffer) (count root : nat)
  : build unit :=
  (if (rank =? root) && negb (buffer_eqb send_buf recv_buf)
   then create_copy send_buf recv_buf count ;;; add_barrier else ret tt) ;;;
  if comm_size =? 1 then ret tt
  else if rank =? root then
    for_range 0 comm_size (fun idx => if negb (idx =? rank) then create_send send_buf count idx else ret tt)
  else create_recv recv_buf count root.

Section scatter.
Context (comm_size rank root nbytes : nat).

Definition relative_rank : nat := if root <=? rank then rank - root else rank + comm_size - root.
Definition scatter_size : nat := (nbytes + comm_size - 1) / comm_size.

(** The first loop of the scatter: up the tree to the parent; ends with [mask] and [curr_size]. *)
Fixpoint scatter_recv (fuel : nat) (tmp_buf : ccl_buffer) (mask curr_size : nat) : build (nat * nat) :=
  match fuel with
  | O => throw
  | S fuel' =>
    if mask <? comm_size then
      if negb (Nat.land relative_rank mask =? 0) then
        let src := if rank <? mask then rank + comm_size - mask else rank - mask in
        let recv_size := nbytes - relative_rank * scatter_size in
        (if 0 <? recv_size then
           create_recv (tmp_buf +b relative_rank * scatter_size) recv_size src ;;; add_barrier
         else ret tt) ;;;
        ret (mask, recv_size)
      else scatter_recv fuel' tmp_buf (mask * 2) curr_size
    else ret (mask, curr_size)
  end.

(** The second loop: down the tree to the children. *)
Fixpoint scatter_send (fuel : nat) (tmp_buf : ccl_buffer) (mask curr_size : nat) : build unit :=
  match fuel with
  | O => throw
  | S fuel' =>
    if 0 <? mask then
      curr <-- (if relative_rank + mask <? comm_size then
                  let send_size := curr_size - scatter_size * mask in
                  if 0 <? send_size then
                    let dst := if comm_size <=? rank + mask then rank + mask - comm_size else rank + mask in
                    create_send (tmp_buf +b scatter_size * (relative_rank + mask)) send_size dst ;;;
                    add_barrier ;;;
                    ret (curr_size - send_size)
                  else ret curr_size
                else ret curr_size) ;;
      scatter_send fuel' tmp_buf (mask / 2) curr
    else ret tt
  end.

Definition ccl_coll_build_scatter_for_bcast (tmp_buf : ccl_buffer) : build unit :=
  mc <-- scatter_recv (S comm_size) tmp_buf 1 (if rank =? root then nbytes else 0) ;;
  scatter_send (S mc.1) tmp_buf (mc.1 / 2) mc.2.

(** The same loop in [broadcast.cpp]: it sends from the send buffer. *)
Fixpoint scatter_send_broadcast (fuel : nat) (is_inplace : bool) (send_buf : ccl_buffer) (mask curr_size : nat)
  : build unit :=
  match fuel with
  | O => throw
  | S fuel' =>
    if 0 <? mask then
      curr <-- (if relative_rank + mask <? comm_size then
                  let send_size := curr_size - scatter_size * mask in
                  if 0 <? send_size then
                    let dst := if comm_size <=? rank + mask then rank + mask - comm_size else rank + mask in
                    (if negb (is_inplace && (dst =? root)) then
                       create_send (send_buf +b scatter_size * (relative_rank + mask)) send_size dst
                     else ret tt) ;;;
                    add_barrier ;;;
                    ret (curr_size - send_size)
                  else ret curr_size
                else ret curr_size) ;;
      scatter_send_broadcast fuel' is_inplace send_buf (mask / 2) curr
    else ret tt
  end.

Definition ccl_coll_build_scatter_for_broadcast (send_buf recv_buf : ccl_buffer) : build unit :=
  let is_inplace := buffer_eqb send_buf recv_buf in
  mc <-- scatter_recv (S comm_size) recv_buf 1 (if rank =? root then nbytes else 0) ;;
  scatter_send_broadcast (S mc.1) is_inplace send_buf (mc.1 / 2) mc.2.

(** The ring allgather both end with; the loop state is [j] and [jnext]. *)
Definition bcast_ring (send_buf recv_buf : ccl_buffer) : build unit :=
  let left := (comm_size + rank - 1) mod comm_size in
  let right := (rank + 1) mod comm_size in
  for_state 1 (comm_size - 1) (fun _ a =>
    let j := a.1 in
    let jnext := a.2 in
    let rel_j := (j + comm_size - root) mod comm_size in
    let rel_jnext := (jnext + comm_size - root) mod comm_size in
    let left_count := scatter_size `min` (nbytes - rel_jnext * scatter_size) in
    let left_disp := rel_jnext * scatter_size in
    let right_count := scatter_size `min` (nbytes - rel_j * scatter_size) in
    let right_disp := rel_j * scatter_size in
    create_send (send_buf +b right_disp) right_count right ;;;
    create_recv (recv_buf +b left_disp) left_count left ;;;
    add_barrier ;;;
    ret (jnext, (comm_size + jnext - 1) mod comm_size)) (rank, left) ;;;
  ret tt.
End scatter.

(** [int nbytes = dtype_size * count].  The sizes below are at most [nbytes + comm_size]: outside
    the guard an [int] overflows, which C++ leaves undefined, and the model has no schedule. *)
Definition int_nbytes (comm_size dtype_size count : nat) : build nat :=
  let n := int32 (Z.of_nat dtype_size * Z.of_nat count) in
  CCL_THROW_IF_NOT ((0 <=? n)%Z && (n + Z.of_nat comm_size <? 2 ^ 31)%Z) ;;; ret (Z.to_nat n).

Definition ccl_coll_build_scatter_ring_allgather_bcast (comm_size rank : nat) (buf : ccl_buffer)
    (count dtype_size root : nat) : build unit :=
  if comm_size =? 1 then ret tt
  else
    nbytes <-- int_nbytes comm_size dtype_size count ;;
    ccl_coll_build_scatter_for_bcast comm_size rank root nbytes buf ;;;
    bcast_ring comm_size rank root nbytes buf buf.

(** The final copy has [count] elements of [dtype_size] bytes. *)
Definition ccl_coll_build_scatter_ring_allgather_broadcast (comm_size rank : nat) (send_buf recv_buf : ccl_buffer)
    (count dtype_size root : nat) : build unit :=
  if comm_size =? 1 then ret tt
  else
    nbytes <-- int_nbytes comm_size dtype_size count ;;
    ccl_coll_build_scatter_for_broadcast comm_size rank root nbytes send_buf recv_buf ;;;
    bcast_ring comm_size rank root nbytes send_buf recv_buf ;;;
    (if (rank =? root) && negb (buffer_eqb send_buf recv_buf)
     then create_copy send_buf recv_buf (dtype_size * count) ;;; add_barrier else ret tt).

(** * The naive algorithms *)

Section naive_bcast.
Context {V : Type} (op : V -> V -> V) (dsz P root count : nat) (dsz_pos : 0 < dsz) (Hroot : root < P).
Context (sb rb : nat -> ccl_buffer) (y : nat -> V).
Abbreviation memory := (gmap (nat * nat) V).
Implicit Types (m : memory) (ms : nat -> memory).

Definition naive_sends (idx : nat) : list entry := if idx =? root then [] else [send_entry (sb root) count idx].
Definition naive_bcast_group (r : nat) : list entry :=
  if r =? root then seq 0 P ≫= naive_sends else [recv_entry (rb r) count root].

Lemma naive_bcast_st r gs nx al : r < P ->
  (if P =? 1 then ret tt
   else if r =? root then
     for_range 0 P (fun idx => if negb (idx =? r) then create_send (sb r) count idx else ret tt)
   else create_recv (rb r) count root) (st gs [] nx al) = Ok (tt, st gs (naive_bcast_group r) nx al).
Proof.
  intros Hr. unfold naive_bcast_group. destruct (Nat.eqb_spec P 1) as [E|HP].
  - assert (r = root) as -> by lia. rewrite Nat.eqb_refl. assert (root = 0) as E0 by lia. rewrite E. cbn.
    unfold naive_sends. by rewrite E0.
  - destruct (Nat.eqb_spec r root) as [->|Hne]; [|apply add_entry_st].
    rewrite (for_range_run 0 P _ (fun i => st gs (seq 0 i ≫= naive_sends) nx al)); [done|done|].
    intros i Hi. cbn [Nat.add]. rewrite bind_seq_snoc. cbn [Nat.add]. unfold naive_sends at 3.
    destruct (i =? root); cbn [negb]; [by rewrite app_nil_r|apply add_entry_st].
Qed.

Lemma naive_bcast_group_ok r : group_ok dsz (naive_bcast_group r).
Proof.
  unfold naive_bcast_group. destruct (r =? root); [|group_races]. apply group_ok_loop.
  - intros i _. unfold naive_sends. destruct (i =? root); group_races.
  - intros i j a b _ _ Ha Hb _. unfold naive_sends in *.
    destruct (i =? root); [by apply not_elem_of_nil in Ha|]. destruct (j =? root); [by apply not_elem_of_nil in Hb|].
    apply list_elem_of_singleton in Ha as ->. apply list_elem_of_singleton in Hb as ->. race_cases.
Qed.

Lemma naive_bcast_step ms :
  arr dsz (ms root) (sb root) count y ->
  (forall r, r < P -> r <> root -> exists g, arr dsz (ms r) (rb r) count g) ->
  steps op dsz P naive_bcast_group ms (fun r m => if r =? root then m = ms r else arr dsz m (rb r) count y).
Proof.
  intros Hy Hrb. set (v := y <$> seq 0 count).
  apply (matched_step op dsz P _ ms _
    (fun r => if r =? root then seq 0 P ≫= (fun idx => if idx =? root then [] else [(idx, v)]) else [])
    (fun r => if r =? root then [] else [(recv_entry (rb r) count root, v)])).
  - intros r Hr. unfold naive_bcast_group. destruct (Nat.eqb_spec r root) as [->|Hne].
    + exists (ms root), (ms root). split; [|split; [|done]].
      * apply start_group_bind. intros i _. unfold naive_sends. destruct (i =? root); [done|]. cbn.
        by rewrite (arr_read dsz _ _ _ _ Hy).
      * rewrite recvs_bind. symmetry. apply bind_seq_none. intros i _. unfold naive_sends. by destruct (i =? root).
    + destruct (Hrb r Hr Hne) as [g Hg]. destruct (recv_arr op dsz dsz_pos (ms r) (rb r) g count root y Hg) as (m' & E & A).
      exists (ms r), m'. split; [done|]. split; [done|]. split; [|done]. cbn [complete_group]. fold v in E. by rewrite E.
  - intros r d Hr Hd. destruct (r =? root); [|by apply not_elem_of_nil in Hd].
    apply list_elem_of_fmap in Hd as ([d' w] & -> & (i & Hi & Hin%elem_of_seq)%list_elem_of_bind).
    destruct (i =? root); [by apply not_elem_of_nil in Hi|]. apply list_elem_of_singleton in Hi as [= -> _]. cbn. lia.
  - intros r e s Hr He Hs. destruct (r =? root); [by apply not_elem_of_nil in He|].
    apply list_elem_of_singleton in He as ->. by injection Hs as <-.
  - intros s d Hs Hd. destruct (Nat.eqb_spec s root) as [->|Hs'].
    + rewrite msgs_to_bind. destruct (Nat.eqb_spec d root) as [->|Hd'].
      * apply bind_seq_none. intros i _. destruct (Nat.eqb_spec i root); [done|]. unfold msgs_to.
        by rewrite filter_cons_False.
      * rewrite (bind_seq_one 0 P _ d); [|lia|].
        -- destruct (Nat.eqb_spec d root); [done|]. unfold msgs_to, msgs_from. by rewrite !filter_cons_True.
        -- intros i _ Hi. destruct (i =? root); [done|]. unfold msgs_to. by rewrite filter_cons_False.
    + destruct (Nat.eqb_spec d root); [done|]. unfold msgs_from. rewrite filter_cons_False; [done|]. cbn. congruence.
Qed.
End naive_bcast.

(** * The scatter tree *)

Lemma land_pow2 q k : (Nat.land q (2 ^ k) =? 0) = negb (Nat.testbit q k).
Proof.
  assert (E : Nat.land q (2 ^ k) = if Nat.testbit q k then 2 ^ k else 0).
  { apply Nat.bits_inj. intros i. rewrite Nat.land_spec, Nat.pow2_bits_eqb. destruct (Nat.eqb_spec k i) as [<-|Hne].
    - rewrite andb_true_r. destruct (Nat.testbit q k); [by rewrite Nat.pow2_bits_true|by rewrite Nat.bits_0].
    - rewrite andb_false_r. destruct (Nat.testbit q k); [by rewrite Nat.pow2_bits_false|by rewrite Nat.bits_0]. }
  rewrite E. destruct (Nat.testbit q k); [|done]. apply Nat.eqb_neq. pose proof (Nat.pow_nonzero 2 k). lia.
Qed.

(** A multiple of [2 ^ k] is one of [2 ^ (k + 1)] or has bit [k] set. *)
Lemma testbit_mod q k : q mod 2 ^ k = 0 -> Nat.testbit q k = negb (q mod 2 ^ S k =? 0).
Proof.
  intros H. pose proof (Nat.pow_nonzero 2 k ltac:(lia)) as Hz. pose proof (Nat.div_mod_eq q (2 ^ k)) as E. rewrite H, Nat.add_0_r in E.
  set (c := q / 2 ^ k) in *. rewrite Nat.testbit_eqb. fold c. rewrite E.
  replace (2 ^ S k) with (2 ^ k * 2) by (cbn; lia). rewrite Nat.Div0.mul_mod_distr_l.
  pose proof (Nat.mod_upper_bound c 2 ltac:(lia)). destruct (c mod 2) as [|[|]]; [|cbn|lia].
  - by rewrite Nat.mul_0_r.
  - rewrite Nat.mul_1_r. symmetry. apply negb_true_iff, Nat.eqb_neq. done.
Qed.

Lemma mod_pow2_S q k : q mod 2 ^ S k = 0 -> q mod 2 ^ k = 0.
Proof.
  intros H%Nat.Lcm0.mod_divide. apply Nat.Lcm0.mod_divide. etrans; [|exact H]. exists 2. cbn. lia.
Qed.

(** The sibling of a receiver. *)
Lemma mod_pow2_sub q k : q mod 2 ^ k = 0 -> q mod 2 ^ S k <> 0 -> 2 ^ k <= q /\ (q - 2 ^ k) mod 2 ^ S k = 0.
Proof.
  intros H Hn. pose proof (Nat.pow_nonzero 2 k ltac:(lia)) as Hz. pose proof (Nat.div_mod_eq q (2 ^ k)) as E. rewrite H, Nat.add_0_r in E.
  set (c := q / 2 ^ k) in *. replace (2 ^ S k) with (2 ^ k * 2) in * by (cbn; lia).
  rewrite E, Nat.Div0.mul_mod_distr_l in Hn. pose proof (Nat.mod_upper_bound c 2 ltac:(lia)).
  assert (Hc : c mod 2 = 1) by (destruct (c mod 2) as [|[|]]; lia). pose proof (Nat.div_mod_eq c 2) as Ec. rewrite Hc in Ec.
  split; [nia|]. replace (q - 2 ^ k) with (2 ^ k * (2 * (c / 2))) by nia.
  rewrite Nat.Div0.mul_mod_distr_l, (Nat.mul_comm 2), Nat.Div0.mod_mul. lia.
Qed.

Lemma mod_pow2_add s k : s mod 2 ^ S k = 0 -> (s + 2 ^ k) mod 2 ^ k = 0 /\ (s + 2 ^ k) mod 2 ^ S k = 2 ^ k.
Proof.
  intros H. pose proof (Nat.pow_nonzero 2 k ltac:(lia)) as Hz. split.
  - apply mod_pow2_S in H. rewrite <- Nat.Div0.add_mod_idemp_l, H. by apply Nat.Div0.mod_same.
  - rewrite <- Nat.Div0.add_mod_idemp_l, H. apply Nat.mod_small. cbn. lia.
Qed.

Fixpoint down (n : nat) : list nat := match n with O => [] | S m => m :: down m end.

Section ring_bcast.
Context {V : Type} (op : V -> V -> V) (P root nbytes : nat) (HP : 0 < P) (Hroot : root < P).
Context (buf : nat -> ccl_buffer) (y : nat -> V).
Abbreviation memory := (gmap (nat * nat) V).
Abbreviation sc := (scatter_size P nbytes).
Implicit Types (m : memory) (ms : nat -> memory).

Definition rel (r : nat) : nat := relative_rank P r root.

Lemma rel_lt r : r < P -> rel r < P.
Proof. intros. unfold rel, relative_rank. destruct (Nat.leb_spec root r); lia. Qed.

Lemma rel_mod r : r < P -> rel r = (r + P - root) mod P.
Proof. intros. unfold rel, relative_rank. destruct (Nat.leb_spec root r); mod_lia. Qed.

Lemma rel_root r : r < P -> rel r = 0 <-> r = root.
Proof. intros. unfold rel, relative_rank. destruct (Nat.leb_spec root r); lia. Qed.

(** Every byte belongs to one of the [P] blocks. *)
Lemma sc_cover : nbytes <= P * sc.
Proof.
  unfold scatter_size. pose proof (Nat.div_mod_eq (nbytes + P - 1) P). pose proof (Nat.mod_upper_bound (nbytes + P - 1) P ltac:(lia)). lia.
Qed.

Lemma sc_pos : 0 < nbytes -> 0 < sc.
Proof. pose proof sc_cover. intros. destruct sc; lia. Qed.

(** ** The groups of the scatter: level [k] of the tree *)

(** What rank [q] of the tree believes to hold when it serves level [k]: everything behind its first
    byte, or what is left after the child one level up. *)
Definition curr_at (q k : nat) : nat :=
  if (q mod 2 ^ S (S k) =? 0) && (q + 2 ^ S k <? P) && ((q + 2 ^ S k) * sc <? nbytes) then sc * 2 ^ S k else nbytes - q * sc.
Definition ssize (q k : nat) : nat := curr_at q k - sc * 2 ^ k.

Definition child (k r : nat) : nat := (r + 2 ^ k) mod P.
Definition parent (k r : nat) : nat := (r + P - 2 ^ k) mod P.

(** Rank [q] serves a child on level [k]. *)
Definition serves (q k : nat) : bool := (q mod 2 ^ S k =? 0) && (q + 2 ^ k <? P) && (0 <? ssize q k).
Definition fetches (q k : nat) : bool :=
  (q mod 2 ^ k =? 0) && negb (q mod 2 ^ S k =? 0) && (0 <? nbytes - q * sc).

Definition scat_group (k r : nat) : list entry :=
  (if serves (rel r) k then [send_entry (buf r +b sc * (rel r + 2 ^ k)) (ssize (rel r) k) (child k r)] else []) ++
  (if fetches (rel r) k then [recv_entry (buf r +b rel r * sc) (nbytes - rel r * sc) (parent k r)] else []).

Lemma child_code r k : r < P -> rel r + 2 ^ k < P ->
  (if P <=? r + 2 ^ k then r + 2 ^ k - P else r + 2 ^ k) = child k r.
Proof.
  intros Hr Hk. unfold child. pose proof (rel_lt r Hr). destruct (Nat.leb_spec P (r + 2 ^ k)); mod_lia.
Qed.

Lemma parent_code r k : r < P -> 2 ^ k <= rel r ->
  (if r <? 2 ^ k then r + P - 2 ^ k else r - 2 ^ k) = parent k r.
Proof.
  intros Hr Hk. unfold parent. pose proof (rel_lt r Hr). destruct (Nat.ltb_spec r (2 ^ k)); mod_lia.
Qed.

(** Once a child has been served, the believed size is that of the child's subtree. *)
Lemma curr_next q j : q mod 2 ^ S (S j) = 0 ->
  (if serves q (S j) then curr_at q (S j) - ssize q (S j) else curr_at q (S j)) = curr_at q j.
Proof.
  intros Hq. unfold serves, ssize. rewrite (proj2 (Nat.eqb_eq _ _) Hq). cbn [andb].
  unfold curr_at at 5. rewrite (proj2 (Nat.eqb_eq _ _) Hq). cbn [andb].
  assert (H2 : 2 ^ S (S j) = 2 * 2 ^ S j) by done. pose proof (Nat.pow_nonzero 2 (S j) ltac:(lia)).
  destruct (Nat.ltb_spec (q + 2 ^ S j) P) as [HP1|HP1]; cbn [andb].
  - unfold curr_at. destruct (Nat.ltb_spec (q + 2 ^ S (S j)) P), (Nat.ltb_spec ((q + 2 ^ S (S j)) * sc) nbytes),
      (q mod 2 ^ S (S (S j)) =? 0); cbn [andb];
      destruct (Nat.ltb_spec ((q + 2 ^ S j) * sc) nbytes), (Nat.ltb_spec 0 (sc * 2 ^ S (S j) - sc * 2 ^ S j)),
        (Nat.ltb_spec 0 (nbytes - q * sc - sc * 2 ^ S j)); nia.
  - unfold curr_at. destruct (Nat.ltb_spec (q + 2 ^ S (S j)) P); [lia|]. rewrite andb_false_r. cbn. done.
Qed.

(** ** The builders give these groups *)

Abbreviation levels r n := ((fun k => scat_group k r) <$> down n).

Lemma not_fetches q k : q mod 2 ^ S k = 0 -> fetches q k = false.
Proof. intros H. unfold fetches. rewrite (proj2 (Nat.eqb_eq _ _) H). cbn. by rewrite andb_false_r. Qed.

Lemma scatter_send_st r t : forall fuel curr gs nx al,
  r < P -> rel r mod 2 ^ t = 0 -> match t with O => True | S j => curr = curr_at (rel r) j end -> 2 ^ t / 2 < fuel ->
  scatter_send P r root nbytes fuel (buf r) (2 ^ t / 2) curr (st gs [] nx al) = Ok (tt, st (gs ++ levels r t) [] nx al).
Proof.
  induction t as [|j IH]; intros [|fuel] curr gs nx al Hr Hq Hc Hf; try lia; cbn [scatter_send].
  { cbn. by rewrite app_nil_r. }
  pose proof (Nat.pow_nonzero 2 j ltac:(lia)) as Hz. assert (E2 : 2 ^ S j / 2 = 2 ^ j).
  { rewrite Nat.pow_succ_r', Nat.mul_comm. by apply Nat.div_mul. }
  rewrite E2 in *. rewrite (proj2 (Nat.ltb_lt 0 (2 ^ j))) by lia. fold (rel r). subst curr. fold (ssize (rel r) j).
  assert (Hstep : (if rel r + 2 ^ j <? P then
      if 0 <? ssize (rel r) j then
        create_send (buf r +b sc * (rel r + 2 ^ j)) (ssize (rel r) j)
          (if P <=? r + 2 ^ j then r + 2 ^ j - P else r + 2 ^ j) ;;; add_barrier ;;; ret (curr_at (rel r) j - ssize (rel r) j)
      else ret (curr_at (rel r) j)
    else ret (curr_at (rel r) j)) (st gs [] nx al) =
    Ok (if serves (rel r) j then curr_at (rel r) j - ssize (rel r) j else curr_at (rel r) j,
        st (gs ++ [scat_group j r]) [] nx al)).
  { unfold scat_group. rewrite not_fetches, app_nil_r by done. unfold serves. rewrite (proj2 (Nat.eqb_eq _ _) Hq). cbn [andb].
    destruct (Nat.ltb_spec (rel r + 2 ^ j) P) as [HP1|HP1]; cbn [andb]; [|by rewrite st_empty_group].
    destruct (0 <? ssize (rel r) j); [|by rewrite st_empty_group]. rewrite child_code by done. build_simp. done. }
  rewrite (bind_Ok _ _ _ _ _ Hstep). rewrite IH; [|done|by apply mod_pow2_S| |].
  - cbn [down fmap list_fmap]. by rewrite <- app_assoc.
  - destruct j as [|j]; [done|]. by apply curr_next.
  - assert (2 ^ j / 2 < 2 ^ j) by (apply Nat.div_lt; lia). lia.
Qed.

Lemma scatter_recv_st r fuel : forall k curr gs nx al,
  r < P -> rel r mod 2 ^ k = 0 -> P < 2 ^ k + fuel -> 0 < fuel ->
  exists t, (t = k \/ 2 ^ (t - 1) < P) /\ rel r mod 2 ^ t = 0 /\
  ((2 ^ t < P /\ rel r mod 2 ^ S t <> 0 /\
    scatter_recv P r root nbytes fuel (buf r) (2 ^ k) curr (st gs [] nx al) =
      Ok ((2 ^ t, nbytes - rel r * sc), st (gs ++ [scat_group t r]) [] nx al)) \/
   (P <= 2 ^ t /\ scatter_recv P r root nbytes fuel (buf r) (2 ^ k) curr (st gs [] nx al) = Ok ((2 ^ t, curr), st gs [] nx al))).
Proof.
  induction fuel as [|fuel IH]; intros k curr gs nx al Hr Hq Hf Hf0; [lia|]; cbn [scatter_recv].
  destruct (Nat.ltb_spec (2 ^ k) P) as [Hk|Hk]; [|exists k; by auto].
  fold (rel r). rewrite land_pow2, negb_involutive, (testbit_mod _ _ Hq).
  destruct (Nat.eqb_spec (rel r mod 2 ^ S k) 0) as [Hz|Hnz]; cbn [negb].
  - destruct (IH (S k) curr gs nx al Hr Hz) as (t & Ht & Hm & H); [cbn; pose proof (Nat.pow_nonzero 2 k); lia|lia|].
    replace (2 ^ k * 2) with (2 ^ S k) by (cbn; lia). exists t. split; [|done].
    destruct Ht as [->|?]; right; [by replace (S k - 1) with k by lia|done].
  - exists k. split; [by left|]. split; [done|]. left. split; [done|]. split; [done|].
    destruct (mod_pow2_sub _ _ Hq Hnz) as [Hle _]. rewrite parent_code by done. unfold scat_group, serves, fetches.
    rewrite (proj2 (Nat.eqb_neq _ _) Hnz), (proj2 (Nat.eqb_eq _ _) Hq). cbn [andb negb app].
    destruct (0 <? nbytes - rel r * sc); build_simp; [done|]. by rewrite st_empty_group.
Qed.

Lemma skip_levels r t n gs nx al : t <= n -> (forall k, t <= k < n -> scat_group k r = []) ->
  st (gs ++ levels r n) [] nx al = st (gs ++ levels r t) [] nx al.
Proof.
  induction 1 as [|n Hle IH]; intros Hk; [done|]. cbn [down fmap list_fmap]. rewrite Hk by lia.
  rewrite <- IH by (intros; apply Hk; lia). unfold st, flat. f_equal. rewrite !fmap_app, !concat_app. done.
Qed.

Lemma mod_pow2_le q j k : j <= k -> q mod 2 ^ k = 0 -> q mod 2 ^ j = 0.
Proof. induction 1 as [|k _ IH]; [done|]. intros H%mod_pow2_S. auto. Qed.

Lemma scatter_st r gs nx al : r < P ->
  ccl_coll_build_scatter_for_bcast P r root nbytes (buf r) (st gs [] nx al) = Ok (tt, st (gs ++ levels r P) [] nx al).
Proof.
  intros Hr. unfold ccl_coll_build_scatter_for_bcast.
  destruct (scatter_recv_st r (S P) 0 (if r =? root then nbytes else 0) gs nx al Hr) as (t & Ht & Hq & H); [apply Nat.mod_1_r|cbn; lia|lia|].
  assert (HtP : t <= P).
  { destruct Ht as [->|Hlt]; [lia|]. pose proof (Nat.pow_gt_lin_r 2 (t - 1) ltac:(lia)). lia. }
  destruct H as [(Hlt & Hnz & E)|(Hge & E)]; rewrite (bind_Ok _ _ _ _ _ E); cbn [fst snd].
  - rewrite scatter_send_st; [|done|done| |].
    + rewrite <- app_assoc. change ([scat_group t r] ++ levels r t) with (levels r (S t)).
      rewrite <- (skip_levels r (S t) P); [done|pose proof (Nat.pow_gt_lin_r 2 t ltac:(lia)); lia|].
      intros k Hk. assert (Hk2 : rel r mod 2 ^ k <> 0) by (intros H0; apply Hnz; by eapply mod_pow2_le; [|exact H0]; lia).
      assert (Hk3 : rel r mod 2 ^ S k <> 0) by (intros H0; by apply Hk2, mod_pow2_S).
      unfold scat_group, serves, fetches. rewrite (proj2 (Nat.eqb_neq _ _) Hk2), (proj2 (Nat.eqb_neq _ _) Hk3). done.
    + destruct t as [|j]; [done|]. unfold curr_at. rewrite (proj2 (Nat.eqb_neq _ _) Hnz). done.
    + pose proof (Nat.Div0.div_le_upper_bound (2 ^ t) 2 (2 ^ t)). lia.
  - assert (Hq0 : rel r = 0) by (rewrite Nat.mod_small in Hq; [done|]; pose proof (rel_lt r Hr); lia).
    assert (Hroot' : r = root) by (by apply rel_root). rewrite scatter_send_st; [|done|done| |].
    + rewrite <- (skip_levels r t P); [done|done|]. intros k Hk. unfold scat_group, serves, fetches. rewrite Hq0, !Nat.Div0.mod_0_l.
      assert (2 ^ t <= 2 ^ k) by (apply Nat.pow_le_mono_r; lia). rewrite (proj2 (Nat.ltb_ge (0 + 2 ^ k) P)) by lia. done.
    + destruct t as [|j]; [done|]. unfold curr_at. rewrite Hq0, Hroot', Nat.eqb_refl.
      rewrite (proj2 (Nat.ltb_ge (0 + 2 ^ S j) P)) by lia. rewrite andb_false_r. cbn. lia.
    + pose proof (Nat.Div0.div_le_upper_bound (2 ^ t) 2 (2 ^ t)). lia.
Qed.

(** ** The groups of the ring *)

Definition blen (b : nat) : nat := sc `min` (nbytes - b * sc).
(** The block a rank receives in iteration [i] and sends in iteration [i + 1]. *)
Definition rbk (i r : nat) : nat := (rel r + P - i) mod P.

Definition bcast_ring_group (i r : nat) : list entry :=
  [send_entry (buf r +b rbk (i - 1) r * sc) (blen (rbk (i - 1) r)) (ring_next P r);
   recv_entry (buf r +b rbk i r * sc) (blen (rbk i r)) (ring_prev P r)].

Lemma rbk_lt i r : rbk i r < P.
Proof. apply Nat.mod_upper_bound. lia. Qed.
Lemma rbk_code i r : r < P -> i < P -> ((r + P - i) mod P + P - root) mod P = rbk i r.
Proof. intros. unfold rbk. rewrite rel_mod by done. mod_lia. Qed.
Lemma rbk_prev i r : r < P -> S i < P -> rbk (S i) r = rbk i (ring_prev P r).
Proof. intros Hr Hi. assert (ring_prev P r < P) by (apply Nat.mod_upper_bound; lia). unfold rbk. rewrite !rel_mod by done. unfold ring_prev. mod_lia. Qed.
Lemma rbk_inj i i' r : r < P -> i < P -> i' < P -> rbk i r = rbk i' r -> i = i'.
Proof. intros Hr. pose proof (rel_lt r Hr). unfold rbk. intros. mod_lia. Qed.
Lemma rbk_surj b r : r < P -> b < P -> exists i, i < P /\ rbk i r = b.
Proof.
  intros Hr Hb. pose proof (rel_lt r Hr). exists ((rel r + P - b) mod P). split; [apply Nat.mod_upper_bound; lia|]. unfold rbk. mod_lia.
Qed.

Lemma bcast_ring_st r gs nx al : r < P ->
  bcast_ring P r root nbytes (buf r) (buf r) (st gs [] nx al) =
  Ok (tt, st (gs ++ ((fun i => bcast_ring_group i r) <$> seq 1 (P - 1))) [] nx al).
Proof.
  intros Hr. unfold bcast_ring. erewrite bind_Ok; [|apply (for_state_run 1 (P - 1) _
    (fun i => ((r + P - (i - 1)) mod P, (r + P - i) mod P))
    (fun i => st (gs ++ ((fun i => bcast_ring_group i r) <$> seq 1 (i - 1))) [] nx al))].
  - cbn. replace (P - 1 - 0) with (P - 1) by lia. done.
  - f_equal; mod_lia.
  - cbn. by rewrite app_nil_r.
  - intros i Hi. cbn [fst snd]. rewrite !rbk_code by lia. fold (blen (rbk (i - 1) r)) (blen (rbk i r)) (ring_prev P r).
    assert ((r + 1) mod P = ring_next P r) as -> by (unfold ring_next; mod_lia). build_simp.
    replace (1 + i - 1) with (S (i - 1)) by lia. rewrite seq_snoc. replace (1 + (i - 1)) with i by lia.
    unfold ret. do 3 f_equal; mod_lia.
Qed.

Lemma block_le b : b * sc + blen b <= nbytes `max` (b * sc).
Proof. unfold blen. lia. Qed.

Lemma at_bytes (b : ccl_buffer) o : b +b o = b +b o * 1.
Proof. by rewrite Nat.mul_1_r. Qed.

Lemma ring_bcast_group_ok i r : r < P -> 0 < i < P -> group_ok 1 (bcast_ring_group i r).
Proof.
  intros Hr Hi. assert (Hne : rbk (i - 1) r <> rbk i r) by (intros E%rbk_inj; lia).
  unfold bcast_ring_group. rewrite (at_bytes _ (rbk (i - 1) r * sc)), (at_bytes _ (rbk i r * sc)).
  group_races; apply apart_sub; unfold blen;
    (destruct (decide (rbk (i - 1) r < rbk i r)); [|assert (rbk i r < rbk (i - 1) r) by lia]; nia).
Qed.

Lemma scat_group_ok k r : group_ok 1 (scat_group k r).
Proof.
  unfold scat_group. destruct (serves (rel r) k) eqn:Es; [|destruct (fetches (rel r) k); group_races].
  rewrite not_fetches; [group_races|]. unfold serves in Es. apply andb_true_iff in Es as [[E _]%andb_true_iff _]. by apply Nat.eqb_eq.
Qed.

(** ** Which bytes are in place *)

Definition known (S : nat -> Prop) (r : nat) m : Prop :=
  exists g, arr 1 m (buf r) nbytes g /\ forall i, i < nbytes -> S i -> g i = y i.

Lemma known_weaken (S S' : nat -> Prop) r m : (forall i, i < nbytes -> S' i -> S i) -> known S r m -> known S' r m.
Proof. intros H (g & Hg & Hy). exists g. auto. Qed.

Lemma read_bytes m b n f o k :
  arr 1 m b n f -> o + k <= n -> read_cells 1 m (b +b o) k = Some ((fun i => f (o + i)) <$> seq 0 k).
Proof. intros H Hk. by rewrite at_bytes, (read_sub 1 ltac:(lia) m b n f o k H Hk). Qed.

Lemma start_send_bytes m b n f o k dst :
  arr 1 m b n f -> o + k <= n ->
  start_entry op 1 (send_entry (b +b o) k dst) m = Some (m, Some (dst, (fun i => f (o + i)) <$> seq 0 k)).
Proof. intros H Hk. cbn. by rewrite (read_bytes m b n f o k H Hk). Qed.

(** A receive of a message that may be shorter than announced. *)
Lemma recv_bytes m b n f o k c s g :
  arr 1 m b n f -> o + k <= n -> k <= c ->
  exists m', complete_entry op 1 (recv_entry (b +b o) c s) (g <$> seq 0 k) m = Some m' /\ arr 1 m' b n (upd f o k g).
Proof.
  intros H Hk Hc. cbn. rewrite decide_True by (by rewrite length_fmap, length_seq). rewrite at_bytes.
  destruct (store_sub 1 ltac:(lia) m b n f o k g H Hk) as (m' & ? & ? & _). by exists m'.
Qed.

Lemma block_in b : b * sc + blen b <= nbytes \/ blen b = 0.
Proof. unfold blen. lia. Qed.

Lemma read_block m b f k :
  arr 1 m b nbytes f -> read_cells 1 m (b +b k * sc) (blen k) = Some ((fun i => f (k * sc + i)) <$> seq 0 (blen k)).
Proof. intros H. destruct (block_in k) as [Hb|E]; [by eapply read_bytes|by rewrite E]. Qed.

Lemma start_send_block m b f k dst :
  arr 1 m b nbytes f -> start_entry op 1 (send_entry (b +b k * sc) (blen k) dst) m =
    Some (m, Some (dst, (fun i => f (k * sc + i)) <$> seq 0 (blen k))).
Proof. intros H. cbn. by rewrite (read_block m b f k H). Qed.

Lemma recv_block m b f k s g :
  arr 1 m b nbytes f ->
  exists m', complete_entry op 1 (recv_entry (b +b k * sc) (blen k) s) (g <$> seq 0 (blen k)) m = Some m' /\
    arr 1 m' b nbytes (upd f (k * sc) (blen k) g).
Proof.
  intros H. destruct (block_in k) as [Hb|E]; [by apply recv_bytes|]. rewrite E. exists m. split; [done|].
  eapply (arr_ext 1); [|exact H]. intros i Hi. unfold upd. case_decide; [lia|done].
Qed.

(** ** A level of the scatter *)

(** The bytes rank [q] of the tree has once the levels above [k] are done: those of its subtree. *)
Definition subtree (k q i : nat) : Prop := q mod 2 ^ k = 0 /\ q * sc <= i < (q + 2 ^ k) * sc.

Lemma ssize_bounds q k : serves q k = true ->
  sc * (q + 2 ^ k) + ssize q k <= nbytes /\
  (forall i, i < nbytes -> i < (q + 2 ^ k + 2 ^ k) * sc -> i < sc * (q + 2 ^ k) + ssize q k).
Proof.
  unfold serves, ssize, curr_at. intros [[_ HP1]%andb_true_iff Hs]%andb_true_iff.
  apply Nat.ltb_lt in HP1, Hs. assert (E : 2 ^ S k = 2 * 2 ^ k) by done. revert Hs.
  destruct (_ && _) eqn:Ec; intros Hs; [apply andb_true_iff in Ec as [_ Ec%Nat.ltb_lt]|]; split; nia.
Qed.

Lemma ssize_pos q k : q mod 2 ^ S k = 0 -> (0 <? ssize q k) = (0 <? nbytes - (q + 2 ^ k) * sc).
Proof.
  intros Hq. unfold ssize, curr_at. assert (E : 2 ^ S k = 2 * 2 ^ k) by done. pose proof (Nat.pow_nonzero 2 k ltac:(lia)).
  destruct (_ && _) eqn:Ec; [apply andb_true_iff in Ec as [_ Ec%Nat.ltb_lt]|f_equal; nia].
  assert (0 < sc) by (apply sc_pos; lia). rewrite !(proj2 (Nat.ltb_lt 0 _)); [done|nia..].
Qed.

Lemma rel_child k r : r < P -> 2 ^ k < P -> rel (child k r) = (rel r + 2 ^ k) mod P.
Proof. intros. rewrite !rel_mod by (done || (apply Nat.mod_upper_bound; lia)). unfold child. mod_lia. Qed.
Lemma rel_parent k r : r < P -> 2 ^ k < P -> rel (parent k r) = (rel r + P - 2 ^ k) mod P.
Proof. intros. rewrite !rel_mod by (done || (apply Nat.mod_upper_bound; lia)). unfold parent. mod_lia. Qed.

Lemma tree_perm k r : r < P -> 2 ^ k < P ->
  child k r < P /\ parent k r < P /\ parent k (child k r) = r /\ child k (parent k r) = r.
Proof.
  intros. unfold child, parent. split_and!; try (apply Nat.mod_upper_bound; lia); mod_lia.
Qed.

(** A rank waits for a message exactly if its parent sends one. *)
Lemma fetches_serves k r : r < P -> 2 ^ k < P -> fetches (rel r) k = serves (rel (parent k r)) k.
Proof.
  intros Hr Hk. rewrite rel_parent by done. pose proof (rel_lt r Hr) as Hq. unfold fetches, serves.
  destruct (Nat.ltb_spec (rel r) (2 ^ k)) as [Hlt|Hge].
  - rewrite (Nat.mod_small (rel r) (2 ^ k)) by done. rewrite (Nat.mod_small (_ + P - _) P) by lia.
    rewrite (proj2 (Nat.ltb_ge (rel r + P - 2 ^ k + 2 ^ k) P)) by lia. rewrite andb_false_r. cbn [andb].
    destruct (Nat.eqb_spec (rel r) 0) as [->|]; [|done]. by rewrite Nat.Div0.mod_0_l.
  - replace ((rel r + P - 2 ^ k) mod P) with (rel r - 2 ^ k) by mod_lia. set (q := rel r) in *.
    replace (q - 2 ^ k + 2 ^ k <? P) with true by (symmetry; apply Nat.ltb_lt; lia). rewrite andb_true_r.
    destruct (Nat.eqb_spec ((q - 2 ^ k) mod 2 ^ S k) 0) as [Hz|Hnz]; cbn [andb].
    + rewrite ssize_pos by done. destruct (mod_pow2_add _ _ Hz) as [H1 H2].
      replace (q - 2 ^ k + 2 ^ k) with q in * by lia. rewrite H1, H2. cbn [Nat.eqb andb].
      pose proof (Nat.pow_nonzero 2 k ltac:(lia)). by destruct (Nat.eqb_spec (2 ^ k) 0).
    + destruct (Nat.eqb_spec (q mod 2 ^ k) 0) as [H1|]; [|done]. destruct (Nat.eqb_spec (q mod 2 ^ S k) 0) as [H2|H2]; [done|].
      by destruct (mod_pow2_sub q k H1 H2).
Qed.

Lemma serves_child k r : r < P -> serves (rel r) k = true -> rel (child k r) = rel r + 2 ^ k /\ 2 ^ k < P.
Proof.
  intros Hr Hs. unfold serves in Hs. apply andb_true_iff in Hs as [[_ HP1%Nat.ltb_lt]%andb_true_iff _].
  rewrite rel_child by lia. split; [apply Nat.mod_small|]; lia.
Qed.

(** The levels above the tree's height do nothing. *)
Lemma scat_group_high k r : r < P -> P <= 2 ^ k -> scat_group k r = [].
Proof.
  intros Hr Hk. pose proof (rel_lt r Hr). unfold scat_group, serves, fetches.
  rewrite (proj2 (Nat.ltb_ge (rel r + 2 ^ k) P)) by lia. rewrite andb_false_r, (Nat.mod_small (rel r) (2 ^ k)) by lia.
  destruct (Nat.eqb_spec (rel r) 0) as [->|]; [|done]. by rewrite Nat.Div0.mod_0_l.
Qed.

Lemma subtree_half k q i : subtree k q i -> q mod 2 ^ S k = 0 -> subtree (S k) q i.
Proof. intros [_ H] Hq. split; [done|]. cbn. nia. Qed.

Lemma scatter_level k ms :
  (forall r, r < P -> known (subtree (S k) (rel r)) r (ms r)) ->
  steps op 1 P (scat_group k) ms (fun r m => known (subtree k (rel r)) r m).
Proof.
  intros Hms. destruct (decide (2 ^ k < P)) as [Hk|Hk].
  2:{ apply local_step. intros r Hr. rewrite scat_group_high by lia. split; [done|]. eexists. split; [done|].
      eapply known_weaken; [|by apply Hms]. intros i Hi Hs. apply subtree_half; [done|].
      destruct Hs as [Hs _]. pose proof (rel_lt r Hr). rewrite Nat.mod_small in Hs by lia. rewrite Hs. apply Nat.Div0.mod_0_l. }
  set (v r := default [] (read_cells 1 (ms r) (buf r +b sc * (rel r + 2 ^ k)) (ssize (rel r) k))).
  apply (exchange_opt_step op 1 P _ ms _ (child k) (parent k) v
    (fun r => recv_entry (buf r +b rel r * sc) (nbytes - rel r * sc) (parent k r)) (fun r => serves (rel r) k)).
  { intros r Hr. by apply tree_perm. }
  { intros r Hr. split; [|done]. rewrite <- fetches_serves by done. unfold scat_group.
    destruct (serves (rel r) k), (fetches (rel r) k); done. }
  intros r Hr. destruct (Hms r Hr) as (g & Hg & Hgy). exists (ms r).
  assert (Hstart : start_group op 1 (scat_group k r) (ms r) = Some (ms r, if serves (rel r) k then [(child k r, v r)] else [])).
  { unfold scat_group. destruct (serves (rel r) k) eqn:Es; [|by destruct (fetches (rel r) k)].
    rewrite not_fetches by (unfold serves in Es; apply andb_true_iff in Es as [[E _]%andb_true_iff _]; by apply Nat.eqb_eq).
    cbn [app]. pose proof (ssize_bounds _ _ Es) as [Hle _]. cbn [start_group].
    rewrite (start_send_bytes _ _ _ _ _ _ _ Hg Hle). unfold v. rewrite (read_bytes _ _ _ _ _ _ Hg Hle). done. }
  rewrite Hstart. destruct (serves (rel (parent k r)) k) eqn:Es.
  - destruct (tree_perm k r Hr Hk) as (_ & Hp & _ & Hcp). destruct (serves_child k _ Hp Es) as [Hrel _]. rewrite Hcp in Hrel.
    destruct (Hms _ Hp) as (f & Hf & Hfy). destruct (ssize_bounds _ _ Es) as [Hle Hcov]. rewrite <- Hrel in Hle, Hcov.
    unfold v. rewrite <- Hrel, (read_bytes _ _ _ _ _ _ Hf Hle). cbn [default from_option].
    rewrite (Nat.mul_comm (rel r) sc). set (q := rel r) in *. set (s := ssize _ k) in *.
    destruct (recv_bytes (ms r) (buf r) nbytes g (sc * q) s (nbytes - sc * q) (parent k r) (fun i => f (sc * q + i)) Hg) as (m' & E & A); [lia|lia|].
    exists m'. split; [done|]. split; [exact E|]. eexists. split; [exact A|]. intros i Hi [_ [H1 H2]].
    unfold upd. rewrite decide_True by (specialize (Hcov i Hi); nia). replace (sc * q + (i - sc * q)) with i by lia.
    apply Hfy; [done|]. unfold serves in Es. apply andb_true_iff in Es as [[E1 _]%andb_true_iff _]. apply Nat.eqb_eq in E1.
    split; [done|]. cbn. nia.
  - exists (ms r). split; [done|]. split; [done|]. exists g. split; [done|]. intros i Hi Hs. apply Hgy; [done|].
    apply subtree_half; [done|]. destruct Hs as [Hq Hs]. destruct (decide (rel r mod 2 ^ S k = 0)) as [|Hne]; [done|]. exfalso.
    rewrite <- fetches_serves in Es by done. unfold fetches in Es.
    rewrite (proj2 (Nat.eqb_eq _ _) Hq), (proj2 (Nat.eqb_neq _ _) Hne) in Es. cbn [andb negb] in Es. apply Nat.ltb_ge in Es. nia.
Qed.

(** Down the whole tree: every rank has its own block. *)
Lemma scatter_runs n ms :
  (forall r, r < P -> known (subtree n (rel r)) r (ms r)) ->
  runs op 1 P (scat_group <$> down n) ms (fun r m => known (subtree 0 (rel r)) r m).
Proof.
  revert ms. induction n as [|n IH]; intros ms Hms; [by apply runs_nil|]. cbn [down fmap list_fmap].
  eapply runs_cons; [by apply scatter_level|]. intros ms1. apply IH.
Qed.

(** ** The ring *)

Definition in_block (b i : nat) : Prop := b * sc <= i < b * sc + sc.
(** After [n] iterations a rank has the blocks [rbk 0 .. rbk n]. *)
Definition gathered (n r i : nat) : Prop := exists k, k <= n /\ in_block (rbk k r) i.

Lemma blen_in b i : i < nbytes -> in_block b i <-> b * sc <= i < b * sc + blen b.
Proof. unfold in_block, blen. lia. Qed.

Lemma bcast_ring_step n ms : n + 1 < P ->
  (forall r, r < P -> known (gathered n r) r (ms r)) ->
  steps op 1 P (bcast_ring_group (n + 1)) ms (fun r m => known (gathered (n + 1) r) r m).
Proof.
  intros Hn Hms.
  set (v r := default [] (read_cells 1 (ms r) (buf r +b rbk n r * sc) (blen (rbk n r)))).
  apply (exchange_step op 1 P _ ms _ (ring_next P) (ring_prev P) v
    (fun r => recv_entry (buf r +b rbk (n + 1) r * sc) (blen (rbk (n + 1) r)) (ring_prev P r))).
  { intros r Hr. by apply ring_perm. }
  { intros r Hr. done. }
  intros r Hr. destruct (Hms r Hr) as (g & Hg & Hgy). destruct (ring_perm P r Hr) as (_ & Hp & _). set (p := ring_prev P r) in *.
  destruct (Hms p Hp) as (f & Hf & Hfy). assert (Eb : rbk (n + 1) r = rbk n p) by (rewrite Nat.add_1_r; apply rbk_prev; lia).
  destruct (recv_block (ms r) (buf r) g (rbk n p) p (fun i => f (rbk n p * sc + i)) Hg) as (m' & E & A).
  exists (ms r), m'. split; [|split].
  - unfold bcast_ring_group. replace (n + 1 - 1) with n by lia. cbn [start_group]. unfold v.
    by rewrite (start_send_block _ _ _ _ _ Hg), (read_block _ _ _ _ Hg).
  - unfold v. rewrite (read_block _ _ _ _ Hf), Eb. exact E.
  - eexists. split; [exact A|]. intros i Hi (k & Hk & Hin). unfold upd. cbn beta. case_decide as Hd.
    + replace (rbk n p * sc + (i - rbk n p * sc)) with i by lia. apply Hfy; [done|]. exists n. split; [done|]. by apply blen_in.
    + apply Hgy; [done|]. exists k. split; [|done]. destruct (decide (k = n + 1)) as [->|]; [|lia]. exfalso.
      apply Hd. rewrite Eb in Hin. by apply blen_in.
Qed.

Lemma bcast_ring_runs ms :
  (forall r, r < P -> known (gathered 0 r) r (ms r)) ->
  runs op 1 P (bcast_ring_group <$> seq 1 (P - 1)) ms (fun r m => known (gathered (P - 1) r) r m).
Proof.
  intros Hms. assert (E : bcast_ring_group <$> seq 1 (P - 1) = seq 0 (P - 1) ≫= (fun n => [bcast_ring_group (n + 1)])).
  { generalize (P - 1) as n. clear. intros n. rewrite <- fmap_S_seq. induction (seq 0 n) as [|a l IH]; [done|].
    cbn. rewrite Nat.add_1_r. by f_equal. }
  rewrite E. apply (runs_loop op 1 P _ (fun n r m => known (gathered n r) r m) 0 (P - 1)); [|done].
  intros n ms1 Hn H1. rewrite <- (Nat.add_1_r n). apply runs_one, bcast_ring_step; [lia|done].
Qed.

(** ** The whole algorithm *)

Definition ring_bcast_groups : list (nat -> list entry) := (scat_group <$> down P) ++ (bcast_ring_group <$> seq 1 (P - 1)).

Lemma own_block r i : r < P -> subtree 0 (rel r) i <-> gathered 0 r i.
Proof.
  intros Hr. pose proof (rel_lt r Hr). assert (E : rbk 0 r = rel r) by (unfold rbk; mod_lia).
  unfold subtree, gathered, in_block. rewrite Nat.pow_0_r, Nat.mod_1_r. split.
  - intros [_ ?]. exists 0. rewrite E. lia.
  - intros (k & Hk & Hin). assert (k = 0) as -> by lia. rewrite E in Hin. lia.
Qed.

Lemma all_blocks r i : r < P -> i < nbytes -> gathered (P - 1) r i.
Proof.
  intros Hr Hi. assert (Hs : 0 < sc) by (apply sc_pos; lia). pose proof sc_cover.
  pose proof (Nat.div_mod_eq i sc). pose proof (Nat.mod_upper_bound i sc ltac:(lia)).
  destruct (rbk_surj (i / sc) r Hr) as (k & Hk & E); [nia|]. exists k. split; [lia|]. rewrite E. unfold in_block. lia.
Qed.

Lemma ring_bcast_runs ms :
  arr 1 (ms root) (buf root) nbytes y -> (forall r, r < P -> exists g, arr 1 (ms r) (buf r) nbytes g) ->
  runs op 1 P ring_bcast_groups ms (fun r m => arr 1 m (buf r) nbytes y).
Proof.
  intros Hy Hms. unfold ring_bcast_groups. eapply runs_seq.
  - apply scatter_runs. intros r Hr. destruct (decide (r = root)) as [->|Hne]; [by exists y|].
    destruct (Hms r Hr) as [g Hg]. exists g. split; [done|]. intros i Hi [Hq _]. exfalso. apply Hne, rel_root; [done|].
    pose proof (rel_lt r Hr). pose proof (Nat.pow_gt_lin_r 2 P ltac:(lia)). rewrite Nat.mod_small in Hq by lia. done.
  - intros ms1 H1. eapply runs_weaken; [|apply bcast_ring_runs].
    + intros r m Hr (g & Hg & Hgy). eapply (arr_ext 1); [|exact Hg]. intros i Hi. apply Hgy; [done|by apply all_blocks].
    + intros r Hr. eapply known_weaken; [|by apply H1]. intros i Hi. by apply own_block.
Qed.

Lemma ring_bcast_groups_ok r : r < P -> Forall (group_ok 1) (at_rank r ring_bcast_groups).
Proof.
  intros Hr. unfold ring_bcast_groups, at_rank. rewrite fmap_app. apply Forall_app. split.
  - rewrite <- list_fmap_compose. apply Forall_fmap, Forall_forall. intros k _. apply scat_group_ok.
  - rewrite <- list_fmap_compose. apply Forall_fmap, Forall_forall. intros i Hi%elem_of_seq. apply ring_bcast_group_ok; lia.
Qed.

Lemma ring_bcast_st r nx :
  r < P -> P <> 1 ->
  (ccl_coll_build_scatter_for_bcast P r root nbytes (buf r) ;;; bcast_ring P r root nbytes (buf r) (buf r)) (st [] [] nx []) =
  Ok (tt, st (at_rank r ring_bcast_groups) [] nx []).
Proof.
  intros Hr _. rewrite (bind_Ok _ _ _ _ _ (scatter_st r [] nx [] Hr)), (bcast_ring_st r _ nx [] Hr).
  unfold ring_bcast_groups, at_rank. by rewrite fmap_app, <- !list_fmap_compose.
Qed.
End ring_bcast.

(** * Theorems *)

Lemma int_nbytes_ok P dt count s :
  (Z.of_nat dt * Z.of_nat count + Z.of_nat P < 2 ^ 31)%Z -> int_nbytes P dt count s = Ok (dt * count, s).
Proof.
  intros H. unfold int_nbytes. rewrite int32_small by lia.
  rewrite (proj2 (Z.leb_le _ _)), (proj2 (Z.ltb_lt _ _)) by lia. cbn [andb]. unfold ret. do 2 f_equal. lia.
Qed.

Section bcast_theorems.
Context {V : Type} (op : V -> V -> V) (P root count : nat) (nx : nat -> nat) (y : nat -> V).
Implicit Types m : gmap (nat * nat) V.

(** The naive broadcast, any datatype: every interleaving ends with the root's elements in
    every rank's buffer. *)
Theorem naive_bcast_correct (dsz : nat) (buf : nat -> ccl_buffer) :
  0 < dsz -> root < P ->
  implements op dsz P (fun r => ccl_coll_build_naive_bcast P r (buf r) count root) nx
    (fun r m => if r =? root then arr dsz m (buf r) count y else exists g, arr dsz m (buf r) count g)
    (fun r m => arr dsz m (buf r) count y).
Proof.
  intros Hd Hroot. eapply (implements_intro _ _ _ _ _ _ _ [] (naive_bcast_group P root count buf buf) nx (fun _ => [])); [done| | |].
  - intros r Hr. unfold ccl_coll_build_naive_bcast. by rewrite naive_bcast_st with (dsz := dsz) (sb := buf) (rb := buf).
  - intros r Hr. split; [done|]. apply naive_bcast_group_ok.
  - intros ms Hms. apply runs_one. destruct (naive_bcast_step op dsz P root count Hd Hroot buf buf y ms) as (ms' & H1 & H2).
    + destruct (Hms root Hroot) as [H _]. by rewrite Nat.eqb_refl in H.
    + intros r Hr Hne. destruct (Hms r Hr) as [H _]. by rewrite (proj2 (Nat.eqb_neq _ _) Hne) in H.
    + exists ms'. split; [done|]. intros r Hr. specialize (H2 r Hr). destruct (Nat.eqb_spec r root) as [E|]; [|done].
      rewrite H2. destruct (Hms r Hr) as [H _]. by rewrite (proj2 (Nat.eqb_eq _ _) E) in H.
Qed.

(** C11: the scatter and ring-allgather broadcast, for any number of ranks, any root and any byte
    count that fits the code's [int]s: every interleaving ends with the root's bytes in every
    rank's buffer (the binomial scatter may send a rank fewer bytes than it posted). *)
Theorem ring_bcast_correct (dtype_size : nat) (buf : nat -> ccl_buffer) :
  root < P -> (Z.of_nat dtype_size * Z.of_nat count + Z.of_nat P < 2 ^ 31)%Z ->
  implements op 1 P (fun r => ccl_coll_build_scatter_ring_allgather_bcast P r (buf r) count dtype_size root) nx
    (fun r m => if r =? root then arr 1 m (buf r) (dtype_size * count) y else exists g, arr 1 m (buf r) (dtype_size * count) g)
    (fun r m => arr 1 m (buf r) (dtype_size * count) y).
Proof.
  intros Hroot Hn. unfold ccl_coll_build_scatter_ring_allgather_bcast. destruct (Nat.eqb_spec P 1) as [->|HP1].
  - eapply (implements_intro _ _ _ _ _ _ _ [] (fun _ => []) nx (fun _ => [])); [lia|done|done|].
    intros ms Hms. apply runs_one, skip_step. intros r Hr. destruct (Hms r Hr) as [H _].
    by rewrite (proj2 (Nat.eqb_eq r root)) in H by lia.
  - eapply (implements_intro _ _ _ _ _ _ _ (ring_bcast_groups P root (dtype_size * count) buf) (fun _ => []) nx (fun _ => [])); [lia| | |].
    + intros r Hr. rewrite (bind_Ok _ _ _ _ _ (int_nbytes_ok P dtype_size count _ Hn)). apply ring_bcast_st; [lia|done..].
    + intros r Hr. split; [|done]. apply ring_bcast_groups_ok; (done || lia).
    + intros ms Hms. eapply runs_seq; [apply (ring_bcast_runs op P root (dtype_size * count)) with (y := y)|]; [lia|done| | |].
      * destruct (Hms root Hroot) as [H _]. by rewrite Nat.eqb_refl in H.
      * intros r Hr. destruct (Hms r Hr) as [H _]. destruct (r =? root); eauto.
      * intros ms1 H1. by apply runs_one, skip_step.
Qed.
End bcast_theorems.

(** Two buffers of one rank: the same one, or in different allocations. *)
Definition same_or_apart (b1 b2 : ccl_buffer) : Prop :=
  buf_src b1 <> 0 /\ buf_src b2 <> 0 /\ (b1 = b2 \/ buf_src b1 <> buf_src b2).

Section broadcast_theorems.
Context {V : Type} (op : V -> V -> V) (P root count : nat) (nx : nat -> nat) (y : nat -> V).
Implicit Types m : gmap (nat * nat) V.

Definition root_copy (send recv : nat -> ccl_buffer) (r : nat) : list entry :=
  if (r =? root) && negb (buffer_eqb (send r) (recv r)) then [copy_entry (send r) (recv r) count] else [].

Lemma root_copy_step (dsz : nat) (send recv : nat -> ccl_buffer) ms :
  0 < dsz -> same_or_apart (send root) (recv root) ->
  (forall r, r < P -> (r = root -> arr dsz (ms r) (send r) count y) /\ exists g, arr dsz (ms r) (recv r) count g) ->
  steps op dsz P (root_copy send recv) ms (fun r m =>
    (r = root -> arr dsz m (send r) count y /\ arr dsz m (recv r) count y) /\ exists g, arr dsz m (recv r) count g).
Proof.
  intros Hd (H0 & _ & Hb) Hms. apply local_step. intros r Hr. unfold root_copy. destruct (Hms r Hr) as [Hs [g Hg]].
  destruct (Nat.eqb_spec r root) as [->|Hne]; cbn [andb].
  2:{ split; [done|]. eexists. split; [done|]. split; [done|by exists g]. }
  specialize (Hs eq_refl). destruct Hb as [E|Hb].
  - rewrite E, buffer_eqb_refl. split; [done|]. eexists. split; [done|]. split; [|by exists g]. intros _. rewrite E in Hs. done.
  - rewrite buffer_eqb_src by done. cbn [negb]. split; [done|].
    destruct (copy_arr dsz Hd _ _ _ _ _ _ Hs Hg) as (m' & Hm & A & K). exists m'. cbn. rewrite Hm. split; [done|].
    split; [|by exists y]. intros _. split; [|done]. by eapply keeps_arr.
Qed.

(** The naive broadcast with separate buffers, in place or not: every interleaving ends with
    the root's send buffer in every rank's receive buffer, the root's included; the send buffers
    of the other ranks need not even be allocated. *)
Theorem naive_broadcast_correct (dsz : nat) (send recv : nat -> ccl_buffer) :
  0 < dsz -> root < P -> same_or_apart (send root) (recv root) ->
  implements op dsz P (fun r => ccl_coll_build_naive_broadcast P r (send r) (recv r) count root) nx
    (fun r m => (r = root -> arr dsz m (send r) count y) /\ exists g, arr dsz m (recv r) count g)
    (fun r m => arr dsz m (recv r) count y).
Proof.
  intros Hd Hroot Hb.
  eapply (implements_intro _ _ _ _ _ _ _ [root_copy send recv] (naive_bcast_group P root count send recv) nx (fun _ => [])); [done| | |].
  - intros r Hr. unfold ccl_coll_build_naive_broadcast.
    assert (E : (if (r =? root) && negb (buffer_eqb (send r) (recv r))
       then create_copy (send r) (recv r) count ;;; add_barrier else ret tt) (st [] [] (nx r) []) = Ok (tt, st [root_copy send recv r] [] (nx r) [])).
    { unfold root_copy. destruct (_ && _); [build_simp; done|]. by rewrite (st_empty_group []). }
    rewrite (bind_Ok _ _ _ _ _ E). by rewrite naive_bcast_st with (dsz := dsz) (sb := send) (rb := recv).
  - intros r Hr. split; [|apply naive_bcast_group_ok]. repeat constructor. unfold root_copy. destruct (_ && _); group_races.
  - intros ms Hms. eapply (runs_seq op dsz P [root_copy send recv]); [apply runs_one, root_copy_step; [done..|]; intros r Hr; by apply Hms|].
    intros ms1 H1. apply runs_one. destruct (naive_bcast_step op dsz P root count Hd Hroot send recv y ms1) as (ms' & H2 & H3).
    + by apply (H1 root Hroot).
    + intros r Hr _. by apply H1.
    + exists ms'. split; [done|]. intros r Hr. specialize (H3 r Hr). destruct (Nat.eqb_spec r root) as [E|]; [|done].
      rewrite H3. by apply (H1 r Hr).
Qed.
End broadcast_theorems.

(** ** In place, the two-buffer algorithm is the one-buffer algorithm *)

(** The guard that skips a send to the root never holds: a child is not the root. *)
Lemma scatter_send_inplace P r root nbytes b : root < P -> r < P -> forall fuel mask curr s,
  scatter_send_broadcast P r root nbytes fuel true b mask curr s = scatter_send P r root nbytes fuel b mask curr s.
Proof.
  intros Hroot Hr. induction fuel as [|fuel IH]; intros mask curr s; cbn [scatter_send_broadcast scatter_send]; [done|].
  destruct (Nat.ltb_spec 0 mask) as [Hm|]; [|done]. destruct (Nat.ltb_spec (relative_rank P r root + mask) P) as [Hlt|]; [|].
  2:{ rewrite !bind_ret. apply IH. }
  destruct (0 <? curr - scatter_size P nbytes * mask); [|rewrite !bind_ret; apply IH].
  assert (Hdst : ((if P <=? r + mask then r + mask - P else r + mask) =? root) = false).
  { apply Nat.eqb_neq. unfold relative_rank in Hlt. destruct (Nat.leb_spec root r), (Nat.leb_spec P (r + mask)); lia. }
  rewrite Hdst. cbn [andb negb]. unfold bind. cbn. apply IH.
Qed.

(** Called in place ([send_buf] is [recv_buf]), the two-buffer scatter and ring-allgather
    broadcast builds exactly the schedule of the one-buffer one, entry by entry, from any schedule
    under construction: its extra guard against sends to the root never fires. *)
Theorem ring_broadcast_inplace_equiv P r root count dtype_size b s :
  root < P -> r < P ->
  ccl_coll_build_scatter_ring_allgather_broadcast P r b b count dtype_size root s =
  ccl_coll_build_scatter_ring_allgather_bcast P r b count dtype_size root s.
Proof.
  intros Hroot Hr. unfold ccl_coll_build_scatter_ring_allgather_broadcast, ccl_coll_build_scatter_ring_allgather_bcast.
  destruct (P =? 1); [done|]. unfold bind. destruct (int_nbytes P dtype_size count s) as [[n s1]|]; [|done].
  unfold ccl_coll_build_scatter_for_broadcast, ccl_coll_build_scatter_for_bcast. rewrite buffer_eqb_refl, andb_false_r.
  unfold bind. destruct (scatter_recv P r root n (S P) b 1 (if r =? root then n else 0) s1) as [[mc s2]|]; [|done].
  rewrite scatter_send_inplace by done. destruct (scatter_send P r root n (S mc.1) b (mc.1 / 2) mc.2 s2) as [[[] s3]|]; [|done].
  by destruct (bcast_ring P r root n b b s3) as [[[] s4]|].
Qed.

(** The byte count is an [int]: a broadcast of [2 ^ 32 + n] bytes builds the schedule of a
    broadcast of its first [n] bytes, without an error. *)
Theorem ring_bcast_truncates P r root count dtype_size n b s :
  (Z.of_nat dtype_size * Z.of_nat count = 2 ^ 32 + Z.of_nat n)%Z ->
  ccl_coll_build_scatter_ring_allgather_bcast P r b count dtype_size root s =
  ccl_coll_build_scatter_ring_allgather_bcast P r b n 1 root s.
Proof.
  intros Hn. unfold ccl_coll_build_scatter_ring_allgather_bcast. destruct (P =? 1); [done|].
  unfold int_nbytes. by rewrite Hn, int32_add, Z.mul_1_l.
Qed.

(** ** Out of place, the two-buffer ring algorithm reads the send buffers of other ranks *)

(** Three ranks, root 0, six bytes: allocation 1 is the send buffer, allocation 2 the receive buffer. *)
Definition oop_mem (data : list nat) : gmap (nat * nat) nat :=
  write_cells 1 (write_cells 1 ∅ (mk_buffer 1 0) data) (mk_buffer 2 0) (replicate 6 0).
Definition oop_mems : list (gmap (nat * nat) nat) :=
  [oop_mem [10; 11; 12; 13; 14; 15]; oop_mem (replicate 6 91); oop_mem (replicate 6 92)].

Definition oop_groups : list (nat -> list entry) :=
  let s o := mk_buffer 1 o in let d o := mk_buffer 2 o in
  [fun r => match r with 0 => [send_entry (s 4) 2 2] | 2 => [recv_entry (d 4) 2 0] | _ => [] end;
   fun r => match r with 0 => [send_entry (s 2) 2 1] | 1 => [recv_entry (d 2) 4 0] | _ => [] end;
   fun r => match r with
            | 0 => [send_entry (s 0) 2 1; recv_entry (d 4) 2 2]
            | 1 => [send_entry (s 2) 2 2; recv_entry (d 0) 2 0]
            | _ => [send_entry (s 4) 2 0; recv_entry (d 2) 2 1] end;
   fun r => match r with
            | 0 => [send_entry (s 4) 2 1; recv_entry (d 2) 2 2]
            | 1 => [send_entry (s 0) 2 2; recv_entry (d 4) 2 0]
            | _ => [send_entry (s 2) 2 0; recv_entry (d 0) 2 1] end;
   fun r => match r with 0 => [copy_entry (s 0) (d 0) 6] | _ => [] end].

Lemma oop_groups_ok r : r < 3 -> Forall (group_ok 1) (at_rank r oop_groups).
Proof.
  intros Hr. destruct r as [|[|[|]]]; [..|lia]; unfold at_rank, oop_groups; cbn [fmap list_fmap];
    repeat (constructor; [group_races; apply apart_src; cbn; lia|]); constructor.
Qed.

Definition oop_result (r : nat) : list nat := if r =? 2 then [91; 91; 91; 91; 14; 15] else [10; 11; 12; 13; 14; 15].

Lemma oop_exec :
  match bsp_exec Nat.add 1 3 (oop_groups ++ [fun _ => []]) oop_mems with
  | Some mems' => forallb (fun r => bool_decide
      (read_cells 1 (default ∅ (mems' !! r)) (mk_buffer 2 0) 6 = Some (oop_result r))) (seq 0 3)
  | None => false
  end = true.
Proof. vm_compute. reflexivity. Qed.

(** The two-buffer scatter and ring-allgather broadcast, out of place: with three ranks, whatever
    the interleaving, rank 2 ends with bytes of rank 1's send buffer in its receive buffer instead of
    the root's. *)
Theorem ring_broadcast_out_of_place :
  implements Nat.add 1 3
    (fun r => ccl_coll_build_scatter_ring_allgather_broadcast 3 r (mk_buffer 1 0) (mk_buffer 2 0) 6 1 0) (fun _ => 3)
    (fun r m => oop_mems !! r = Some m)
    (fun r m => read_cells 1 m (mk_buffer 2 0) 6 = Some (oop_result r)).
Proof.
  eapply (implements_intro _ _ _ _ _ _ _ oop_groups (fun _ => []) (fun _ => 3) (fun _ => [])); [lia| | |].
  - intros r Hr. destruct r as [|[|[|]]]; [vm_compute; reflexivity..|lia].
  - intros r Hr. split; [by apply oop_groups_ok|done].
  - intros ms Hms. pose proof oop_exec as H. destruct (bsp_exec _ _ _ _ _) as [mems'|] eqn:E; [|done].
    exists (fun r => default ∅ (mems' !! r)). split.
    + eapply (bsp_app _ _ _ []); [|by apply bsp_exec_sound]. constructor. intros r Hr. by destruct (Hms r Hr) as [-> _].
    + intros r Hr. apply forallb_seq with (r := r) in H; [|done]. by apply bool_decide_eq_true in H.
Qed.

(** ** Instances *)

Lemma naive_bcast_correct_witness :
  implements Nat.add 4 3 (fun r => ccl_coll_build_naive_bcast 3 r (recv_ex r) 7 1) nx_ex
    (fun r m => if r =? 1 then arr 4 m (recv_ex r) 7 (x_ex 1) else exists g, arr 4 m (recv_ex r) 7 g)
    (fun r m => arr 4 m (recv_ex r) 7 (x_ex 1)).
Proof. apply (naive_bcast_correct Nat.add 3 1 7 nx_ex (x_ex 1) 4 recv_ex); lia. Defined.

Lemma ring_bcast_correct_witness :
  implements Nat.add 1 5 (fun r => ccl_coll_build_scatter_ring_allgather_bcast 5 r (recv_ex r) 3 2 4) nx_ex
    (fun r m => if r =? 4 then arr 1 m (recv_ex r) 6 (x_ex 1) else exists g, arr 1 m (recv_ex r) 6 g)
    (fun r m => arr 1 m (recv_ex r) 6 (x_ex 1)).
Proof. apply (ring_bcast_correct Nat.add 5 4 3 nx_ex (x_ex 1) 2 recv_ex); lia. Defined.

Lemma naive_broadcast_correct_witness :
  implements Nat.add 4 3 (fun r => ccl_coll_build_naive_broadcast 3 r (send_ex r) (recv_ex r) 7 1) nx_ex
    (fun r m => (r = 1 -> arr 4 m (send_ex r) 7 (x_ex 1)) /\ exists g, arr 4 m (recv_ex r) 7 g)
    (fun r m => arr 4 m (recv_ex r) 7 (x_ex 1)).
Proof.
  apply (naive_broadcast_correct Nat.add 3 1 7 nx_ex (x_ex 1) 4 send_ex recv_ex); [lia|lia|].
  unfold same_or_apart. cbn. lia.
Defined.

Lemma ring_broadcast_inplace_equiv_witness :
  ccl_coll_build_scatter_ring_allgather_broadcast 5 3 (recv_ex 3) (recv_ex 3) 3 2 4 (empty_sched 7) =
  ccl_coll_build_scatter_ring_allgather_bcast 5 3 (recv_ex 3) 3 2 4 (empty_sched 7).
Proof. apply ring_broadcast_inplace_equiv; lia. Defined.

Lemma ring_bcast_truncates_witness :
  ccl_coll_build_scatter_ring_allgather_bcast 5 3 (recv_ex 3) (Z.to_nat (2 ^ 29 + 1)) 8 4 (empty_sched 7) =
  ccl_coll_build_scatter_ring_allgather_bcast 5 3 (recv_ex 3) 8 1 4 (empty_sched 7).
Proof. apply ring_bcast_truncates. rewrite Z2Nat.id; lia. Defined.
