(* ===== verification/Chunked.v ===== *)
(** Chunked entries and schedules built side by side.

    Models [src/src/sched/entry/factory/chunked_entry_factory.hpp] (the macro
    [CCL_CHUNKED_ENTRY_FUNCTION]) and [chunked_entry_factory.cpp]: a transfer is cut into chunks,
    each an entry of its own, in one schedule or spread over a vector of schedules. *)

From S2P Require Import Prelude Sched Network Race Bsp Build Reduction.
Open Scope ccl_scope.

(** * Building several schedules *)

(** A function over [std::vector<ccl_sched*>& scheds]. *)
Definition builds (A : Type) : Type := list ccl_sched -> result (A * list ccl_sched).

Definition rets {A} (a : A) : builds A := fun ss => Ok (a, ss).
Definition binds {A B} (m : builds A) (f : A -> builds B) : builds B :=
  fun ss => match m ss with Ok (a, ss') => f a ss' | Throw => Throw end.
Definition throws {A} : builds A := fun _ => Throw.

(** A step on [scheds[i]]; there is no step on a schedule that is not there. *)
Definition on_sched {A} (i : nat) (b : build A) : builds A :=
  fun ss => match ss !! i with
            | Some s => match b s with Ok (a, s') => Ok (a, <[i := s']> ss) | Throw => Throw end
            | None => Throw
            end.

Fixpoint for_each {A} (l : list A) (body : A -> build unit) : build unit :=
  match l with [] => ret tt | a :: l' => body a ;;; for_each l' body end.
Fixpoint for_eachs {A} (l : list A) (body : A -> builds unit) : builds unit :=
  match l with [] => rets tt | a :: l' => binds (body a) (fun _ => for_eachs l' body) end.

(** * The chunks of a transfer *)

Section chunks.
Context (env : ccl_env) (dsz : nat).

(** [while (chunk_count > 1 && bytes / chunk_count < min_chunk_size) chunk_count--] *)
Fixpoint shrink_chunks (bytes c : nat) : nat :=
  match c with
  | S c' => if (1 <? S c') && (bytes / S c' <? min_chunk_size env) then shrink_chunks bytes c' else S c'
  | O => O
  end.

Definition entry_chunk_count (cnt : nat) : nat :=
  let bytes := cnt * dsz in
  let c := shrink_chunks bytes
    (if (min_chunk_size env <=? bytes) && (chunk_count env <=? bytes) then chunk_count env else 1) in
  if c =? 0 then 1 else c.

Definition main_chunk_size (cnt : nat) : nat := cnt / entry_chunk_count cnt.
Definition chunk_size (cnt chunk_idx : nat) : nat :=
  if chunk_idx =? entry_chunk_count cnt - 1 then main_chunk_size cnt + cnt mod entry_chunk_count cnt
  else main_chunk_size cnt.

(** The iterations of the macro's loop: [chunk_idx], [chunk_offset], [chunk_size]. *)
Definition chunk_plan (cnt : nat) : list (nat * nat * nat) :=
  (fun c => (c, c * main_chunk_size cnt * dsz, chunk_size cnt c)) <$> seq 0 (entry_chunk_count cnt).

Definition make_chunked_send_entry (buf : ccl_buffer) (cnt dst : nat) : build unit :=
  for_each (chunk_plan cnt) (fun c => create_send (buf +b c.1.2) c.2 dst).
Definition make_chunked_recv_entry (buf : ccl_buffer) (cnt src : nat) : build unit :=
  for_each (chunk_plan cnt) (fun c => create_recv (buf +b c.1.2) c.2 src).
Definition make_chunked_recv_reduce_entry (inout_buf : ccl_buffer) (cnt src : nat) (comm_buf : ccl_buffer)
    (rt : ccl_recv_reduce_result_buf_type) : build unit :=
  for_each (chunk_plan cnt) (fun c => create_recv_reduce dsz (inout_buf +b c.1.2) c.2 src (comm_buf +b c.1.2) rt).

(** Spread over schedules: chunk [i] goes to the schedule [i] after the first. *)
Definition make_chunked_send_entries (sched_count first_sched_idx : nat) (buf : ccl_buffer) (cnt dst : nat) : builds unit :=
  for_eachs (chunk_plan cnt) (fun c =>
    on_sched ((first_sched_idx + c.1.1) mod sched_count) (create_send (buf +b c.1.2) c.2 dst)).
Definition make_chunked_recv_entries (sched_count first_sched_idx : nat) (buf : ccl_buffer) (cnt src : nat) : builds unit :=
  for_eachs (chunk_plan cnt) (fun c =>
    on_sched ((first_sched_idx + c.1.1) mod sched_count) (create_recv (buf +b c.1.2) c.2 src)).
Definition make_chunked_copy_entries (sched_count first_sched_idx : nat) (in_buf out_buf : ccl_buffer) (cnt : nat)
  : builds unit :=
  for_eachs (chunk_plan cnt) (fun c =>
    on_sched ((first_sched_idx + c.1.1) mod sched_count) (create_copy (in_buf +b c.1.2) (out_buf +b c.1.2) c.2)).

(** * Lemmas *)

Lemma chunks_pos cnt : 0 < entry_chunk_count cnt.
Proof. unfold entry_chunk_count. destruct (Nat.eqb_spec (shrink_chunks (cnt * dsz)
    (if (min_chunk_size env <=? cnt * dsz) && (chunk_count env <=? cnt * dsz) then chunk_count env else 1)) 0); lia. Qed.

(** Each chunk starts where the one before it ends, and the last one ends at [cnt]. *)
Lemma chunk_ends cnt c : c < entry_chunk_count cnt ->
  c * main_chunk_size cnt + chunk_size cnt c = (if S c =? entry_chunk_count cnt then cnt else S c * main_chunk_size cnt).
Proof.
  intros Hc. unfold chunk_size. pose proof (Nat.div_mod_eq cnt (entry_chunk_count cnt)). unfold main_chunk_size in *.
  set (k := entry_chunk_count cnt) in *.
  destruct (Nat.eqb_spec c (k - 1)), (Nat.eqb_spec (S c) k); nia.
Qed.

Lemma chunk_le cnt c : c < entry_chunk_count cnt -> c * main_chunk_size cnt + chunk_size cnt c <= cnt.
Proof.
  intros Hc. rewrite chunk_ends by done. destruct (Nat.eqb_spec (S c) (entry_chunk_count cnt)); [done|].
  pose proof (Nat.div_mod_eq cnt (entry_chunk_count cnt)). unfold main_chunk_size. nia.
Qed.

Lemma pieces_apart cnt c c' : c < c' -> c' < entry_chunk_count cnt -> c * main_chunk_size cnt + chunk_size cnt c <= c' * main_chunk_size cnt.
Proof.
  intros Hc Hc'. rewrite chunk_ends by lia. destruct (Nat.eqb_spec (S c) (entry_chunk_count cnt)); [lia|]. nia.
Qed.

(** The entries of a chunked transfer. *)
Definition send_chunks (b : ccl_buffer) (cnt dst : nat) : list entry :=
  seq 0 (entry_chunk_count cnt) ≫= fun c => [send_entry (b +b c * main_chunk_size cnt * dsz) (chunk_size cnt c) dst].
Definition recv_chunks (b : ccl_buffer) (cnt src : nat) : list entry :=
  seq 0 (entry_chunk_count cnt) ≫= fun c => [recv_entry (b +b c * main_chunk_size cnt * dsz) (chunk_size cnt c) src].

Lemma for_each_st {A} (l : list A) (body : A -> build unit) (f : A -> list entry) gs cur nx al :
  (forall a cur, body a (st gs cur nx al) = Ok (tt, st gs (cur ++ f a) nx al)) ->
  for_each l body (st gs cur nx al) = Ok (tt, st gs (cur ++ (l ≫= f)) nx al).
Proof.
  intros Hb. revert cur. induction l as [|a l IH]; intros cur; cbn [for_each]; [cbn; by rewrite app_nil_r|].
  rewrite (bind_Ok _ _ _ _ _ (Hb a cur)), IH. cbn. by rewrite app_assoc.
Qed.

Lemma bind_fmap_list {A B D} (f : A -> B) (g : B -> list D) l : (f <$> l) ≫= g = l ≫= (fun a => g (f a)).
Proof. induction l as [|a l IH]; [done|]. cbn. by rewrite <- IH. Qed.

Lemma chunked_send_st b cnt dst gs cur nx al :
  make_chunked_send_entry b cnt dst (st gs cur nx al) = Ok (tt, st gs (cur ++ send_chunks b cnt dst) nx al).
Proof.
  unfold make_chunked_send_entry. erewrite for_each_st; [|intros; apply add_entry_st].
  unfold chunk_plan. rewrite bind_fmap_list. done.
Qed.

Lemma chunked_recv_st b cnt src gs cur nx al :
  make_chunked_recv_entry b cnt src (st gs cur nx al) = Ok (tt, st gs (cur ++ recv_chunks b cnt src) nx al).
Proof.
  unfold make_chunked_recv_entry. erewrite for_each_st; [|intros; apply add_entry_st].
  unfold chunk_plan. rewrite bind_fmap_list. done.
Qed.
End chunks.

(** * What a chunked transfer does *)

Section transfer.
Context {V : Type} (op : V -> V -> V) (env : ccl_env) (dsz : nat) (dsz_pos : 0 < dsz).
Abbreviation memory := (gmap (nat * nat) V).
Implicit Types (m : memory).

(** The messages of a block [y] of [cnt] elements. *)
Definition chunk_msgs (cnt : nat) (y : nat -> V) : list (list V) :=
  (fun c => (fun i => y (c * main_chunk_size env dsz cnt + i)) <$> seq 0 (chunk_size env dsz cnt c)) <$> seq 0 (entry_chunk_count env dsz cnt).

Lemma start_send_chunks m b cnt y dst :
  arr dsz m b cnt y ->
  start_group op dsz (send_chunks env dsz b cnt dst) m = Some (m, (fun v => (dst, v)) <$> chunk_msgs cnt y).
Proof.
  intros H. unfold send_chunks, chunk_msgs. rewrite <- list_fmap_compose.
  rewrite (start_group_bind op dsz _ _ (fun c => [(dst, (fun i => y (c * main_chunk_size env dsz cnt + i)) <$> seq 0 (chunk_size env dsz cnt c))])).
  - done.
  - intros c Hc%elem_of_seq. cbn. rewrite (read_sub dsz dsz_pos _ _ _ _ _ _ H); [done|]. apply chunk_le. lia.
Qed.

Lemma start_recv_chunks m b cnt src : start_group op dsz (recv_chunks env dsz b cnt src) m = Some (m, []).
Proof.
  unfold recv_chunks. rewrite (start_group_bind op dsz _ _ (fun _ => [])); [|done].
  by rewrite bind_seq_none.
Qed.

Lemma recvs_recv_chunks b cnt src : recvs (recv_chunks env dsz b cnt src) = recv_chunks env dsz b cnt src.
Proof. unfold recv_chunks. by rewrite recvs_bind. Qed.
Lemma recvs_send_chunks b cnt dst : recvs (send_chunks env dsz b cnt dst) = [].
Proof. unfold send_chunks. rewrite recvs_bind. by apply bind_seq_none. Qed.

Lemma zip_chunks b cnt src y :
  zip (recv_chunks env dsz b cnt src) (chunk_msgs cnt y) = seq 0 (entry_chunk_count env dsz cnt) ≫= fun c =>
    [(recv_entry (b +b c * main_chunk_size env dsz cnt * dsz) (chunk_size env dsz cnt c) src,
      (fun i => y (c * main_chunk_size env dsz cnt + i)) <$> seq 0 (chunk_size env dsz cnt c))].
Proof.
  unfold recv_chunks, chunk_msgs. generalize (seq 0 (entry_chunk_count env dsz cnt)). intros l.
  induction l as [|c l IH]; [done|]. cbn. by f_equal.
Qed.

Lemma zip_chunks_fst b cnt src y : (zip (recv_chunks env dsz b cnt src) (chunk_msgs cnt y)).*1 = recv_chunks env dsz b cnt src.
Proof. rewrite zip_chunks. apply fst_bind. Qed.

Lemma msgs_from_chunks b cnt src y s :
  msgs_from s (zip (recv_chunks env dsz b cnt src) (chunk_msgs cnt y)) = if decide (src = s) then chunk_msgs cnt y else [].
Proof.
  rewrite zip_chunks, msgs_from_bind. unfold chunk_msgs. case_decide as E.
  - generalize (seq 0 (entry_chunk_count env dsz cnt)). intros l. induction l as [|c l IH]; [done|].
    cbn [mbind list_bind]. rewrite IH. unfold msgs_from. rewrite filter_cons_True by (cbn; congruence). done.
  - apply bind_seq_none. intros c _. unfold msgs_from. rewrite filter_cons_False by (cbn; congruence). done.
Qed.

Lemma msgs_to_chunks cnt y dst d :
  msgs_to d ((fun v => (dst, v)) <$> chunk_msgs cnt y) = if decide (dst = d) then chunk_msgs cnt y else [].
Proof.
  generalize (chunk_msgs cnt y). intros l. unfold msgs_to. induction l as [|v l IH]; [by case_decide|].
  rewrite fmap_cons, filter_cons. cbn [fst]. repeat case_decide; try done. rewrite fmap_cons. by rewrite IH.
Qed.

(** Chunks are received into a slice of a buffer. *)
Lemma complete_recv_chunks m b n f o cnt src y :
  arr dsz m b n f -> o + cnt <= n ->
  exists m', complete_group op dsz (zip (recv_chunks env dsz (b +b o * dsz) cnt src) (chunk_msgs cnt y)) m = Some m' /\
             arr dsz m' b n (upd f o cnt y) /\ keeps (buf_src b) m m'.
Proof.
  intros H Ho. rewrite zip_chunks. set (k := entry_chunk_count env dsz cnt). set (mn := main_chunk_size env dsz cnt).
  pose proof (chunks_pos env dsz cnt) as Hk. fold k in Hk.
  match goal with |- exists m', complete_group _ _ (_ ≫= ?F) _ = _ /\ _ => destruct (complete_group_bind op dsz (seq 0 k) F
    (fun l m' => arr dsz m' b n (upd f o (if length l =? k then cnt else length l * mn) y) /\ keeps (buf_src b) m m') [] m)
    with (todo := seq 0 k) as (m' & Hc & Hg & Hkeep) end.
  - intros l c todo m1 Hl [Hg Hkeep].
    assert (c = length l /\ length l < k) as [-> Hlt].
    { assert (Hx : seq 0 k !! length l = Some c) by (rewrite Hl, lookup_app_r, Nat.sub_diag by lia; done).
      apply lookup_seq in Hx. lia. }
    assert (Hle : length l * mn + chunk_size env dsz cnt (length l) <= cnt) by (by apply chunk_le).
    destruct (recv_sub op dsz dsz_pos m1 b n _ (o + length l * mn) (chunk_size env dsz cnt (length l)) src (fun i => y (length l * mn + i)) Hg) as (m2 & Hm2 & A & K); [lia|].
    exists m2. split; [|split].
    + cbn [complete_group]. replace (b +b o * dsz +b length l * mn * dsz) with (b +b (o + length l * mn) * dsz); [by rewrite Hm2|].
      unfold buffer_add. cbn. f_equal. lia.
    + eapply (arr_ext dsz); [|exact A]. intros i Hi. rewrite length_app, Nat.add_1_r. cbn [length].
      pose proof (chunk_ends env dsz cnt (length l) Hlt) as Hend. fold k mn in Hend. unfold upd.
      rewrite (proj2 (Nat.eqb_neq (length l) k)) by lia. destruct (S (length l) =? k); cases_lia; try done; f_equal; lia.
    + intros x Hx. rewrite K, Hkeep by done. done.
  - done.
  - split; [|done]. eapply (arr_ext dsz); [|exact H]. intros i Hi. unfold upd. cbn. destruct k; [lia|]. cbn. case_decide; [lia|done].
  - exists m'. split; [exact Hc|]. by rewrite length_seq, Nat.eqb_refl in Hg.
Qed.
End transfer.

(** * Chunked transfers and races *)

Section chunk_races.
Context (env : ccl_env) (dsz : nat).

(** A part of a region is apart from what the region is apart from. *)
Lemma slice_apart b o k n r : o + k <= n -> apart dsz (b, n) r -> apart dsz (b +b o * dsz, k) r.
Proof. intros Ho H. unfold apart in *. cbn in *. destruct (Nat.eq_dec k 0) as [->|]; [auto|]. intuition (auto || nia). Qed.

Lemma recv_chunks_ok b cnt src : group_ok dsz (recv_chunks env dsz b cnt src).
Proof.
  apply group_ok_loop; [intros; group_races|]. intros i j x y Hij Hj ->%list_elem_of_singleton ->%list_elem_of_singleton _.
  pose proof (pieces_apart env dsz cnt i j ltac:(lia) ltac:(lia)). race_cases; apply apart_sub; lia.
Qed.

Lemma send_chunks_ok b cnt dst : group_ok dsz (send_chunks env dsz b cnt dst).
Proof.
  apply group_ok_loop; [intros; group_races|]. intros i j x y Hij Hj ->%list_elem_of_singleton ->%list_elem_of_singleton _.
  race_cases.
Qed.

Lemma elem_of_recv_chunks e b cnt src : e ∈ recv_chunks env dsz b cnt src ->
  exists o n, e = recv_entry (b +b o * dsz) n src /\ o + n <= cnt.
Proof.
  intros (c & ->%list_elem_of_singleton & Hc%elem_of_seq)%list_elem_of_bind. do 2 eexists. split; [done|]. apply chunk_le. lia.
Qed.
Lemma elem_of_send_chunks e b cnt dst : e ∈ send_chunks env dsz b cnt dst ->
  exists o n, e = send_entry (b +b o * dsz) n dst /\ o + n <= cnt.
Proof.
  intros (c & ->%list_elem_of_singleton & Hc%elem_of_seq)%list_elem_of_bind. do 2 eexists. split; [done|]. apply chunk_le. lia.
Qed.
End chunk_races.
