(* ===== verification/Alltoallv.v ===== *)
(** The naive alltoallv of [src/src/coll/algorithms/alltoallv.cpp].

    The builder fills a vector of schedules, one per worker; the theorems here are of one schedule,
    those of [AlltoallvParts] of any number.  A user buffer is one allocation ([coll_param] holds one send and one receive
    buffer). *)

From S2P Require Import Prelude Sched Network Race Bsp Build Reduction ReduceScatter Allgatherv Chunked.
Open Scope ccl_scope.

(** * The builder *)

Inductive ccl_coll_type := ccl_coll_alltoall | ccl_coll_alltoallv.

(** The fields of [ccl_coll_param] the algorithm reads. *)
Record ccl_coll_param := {
  ctype : ccl_coll_type;
  send_buf : ccl_buffer;
  recv_buf : ccl_buffer;
  send_counts : list nat;
  recv_counts : list nat }.

(** [get_send_count] and [get_recv_count]: the index is checked. *)
Definition get_send_count (p : ccl_coll_param) (idx : nat) : result nat :=
  match send_counts p !! idx with Some c => Ok c | None => Throw end.
Definition get_recv_count (p : ccl_coll_param) (idx : nat) : result nat :=
  match recv_counts p !! idx with Some c => Ok c | None => Throw end.

(** [ccl_coll_param::is_inplace] for these two collectives. *)
Definition is_inplace (p : ccl_coll_param) : bool := buffer_bool (send_buf p) && buffer_eqb (send_buf p) (recv_buf p).

(** What [ccl_coll_calculate_alltoallv_counts] returns by reference. *)
Record alltoallv_counts := {
  a2a_send_counts : list nat;
  a2a_recv_counts : list nat;
  send_offsets : nat -> nat;
  recv_offsets : nat -> nat;
  total_send_count : nat;
  total_recv_count : nat }.

Definition ccl_coll_calculate_alltoallv_counts (dsz comm_size : nat) (p : ccl_coll_param) : result alltoallv_counts :=
  counts <-! (match ctype p with
              | ccl_coll_alltoall =>
                s <-! get_send_count p 0 ;; r <-! get_recv_count p 0 ;; Ok (replicate comm_size s, replicate comm_size r)
              | ccl_coll_alltoallv =>
                throw_if_not (length (send_counts p) =? comm_size) ;;
                throw_if_not (length (recv_counts p) =? comm_size) ;; Ok (send_counts p, recv_counts p)
              end) ;;
  Ok {| a2a_send_counts := counts.1; a2a_recv_counts := counts.2;
        send_offsets := byte_offsets dsz (fun i => counts.1 !!! i);
        recv_offsets := byte_offsets dsz (fun i => counts.2 !!! i);
        total_send_count := sum_list counts.1; total_recv_count := sum_list counts.2 |}.

Section builder.
Context (env : ccl_env) (dsz comm_size comm_rank sched_count : nat) (p : ccl_coll_param).

(** One iteration of the loop over the peers. *)
Definition naive_alltoallv_peer (c : alltoallv_counts) (inplace : bool) (idx : nat) : builds unit :=
  let recv_cnt := a2a_recv_counts c !!! idx in
  let send_cnt := a2a_send_counts c !!! idx in
  if idx =? comm_rank then rets tt
  else if (recv_cnt =? 0) || (send_cnt =? 0) then rets tt
  else
    let sched_idx := (comm_rank + idx) mod sched_count in
    binds (if 0 <? recv_cnt then
             binds (if inplace then on_sched sched_idx (alloc_buffer (recv_cnt * dsz))
                    else rets (recv_buf p +b recv_offsets c idx)) (fun buf =>
             binds (make_chunked_recv_entries env dsz sched_count sched_idx buf recv_cnt idx) (fun _ => rets buf))
           else rets null_buffer) (fun buf =>
    binds (if 0 <? send_cnt then
             make_chunked_send_entries env dsz sched_count sched_idx (send_buf p +b send_offsets c idx) send_cnt idx
           else rets tt) (fun _ =>
    if inplace && (0 <? total_recv_count c * dsz) then
      on_sched sched_idx (add_barrier ;;; create_copy buf (recv_buf p +b recv_offsets c idx) recv_cnt ;;; add_barrier)
    else rets tt)).

Definition ccl_coll_build_naive_alltoallv : builds unit :=
  let inplace := is_inplace p in
  match ccl_coll_calculate_alltoallv_counts dsz comm_size p with
  | Throw => throws
  | Ok c =>
    if total_send_count c + total_recv_count c =? 0 then rets tt
    else
      binds (if negb inplace && (0 <? a2a_send_counts c !!! comm_rank) && (0 <? a2a_recv_counts c !!! comm_rank)
             then on_sched ((2 * comm_rank) mod sched_count)
                    (create_copy (send_buf p +b send_offsets c comm_rank) (recv_buf p +b recv_offsets c comm_rank)
                                 (a2a_send_counts c !!! comm_rank))
             else rets tt) (fun _ =>
      for_eachs (seq 0 comm_size) (naive_alltoallv_peer c inplace))
  end.
End builder.

(** * One schedule *)

Lemma on_one {A} (b : build A) s a s' i : b s = Ok (a, s') -> on_sched (i mod 1) b [s] = Ok (a, [s']).
Proof. intros H. rewrite Nat.mod_1_r. unfold on_sched. cbn. by rewrite H. Qed.

Lemma binds_Ok {A B} (m : builds A) (f : A -> builds B) ss a ss' : m ss = Ok (a, ss') -> binds m f ss = f a ss'.
Proof. intros H. unfold binds. by rewrite H. Qed.

Lemma for_eachs_one {A} (l : list A) (body : A -> build unit) (i : A -> nat) s s' :
  for_each l body s = Ok (tt, s') -> for_eachs l (fun a => on_sched (i a mod 1) (body a)) [s] = Ok (tt, [s']).
Proof.
  revert s. induction l as [|a l IH]; intros s; cbn [for_each for_eachs]; [by intros [= ->]|].
  unfold bind at 1. destruct (body a s) as [[[] s1]|] eqn:E; [|done]. intros H.
  rewrite (binds_Ok _ _ _ _ _ (on_one _ _ _ _ _ E)). by apply IH.
Qed.

Lemma chunked_recvs_st env dsz i b cnt src gs cur nx al :
  make_chunked_recv_entries env dsz 1 i b cnt src [st gs cur nx al] = Ok (tt, [st gs (cur ++ recv_chunks env dsz b cnt src) nx al]).
Proof.
  apply (for_eachs_one (chunk_plan env dsz cnt) (fun c => create_recv (b +b c.1.2) c.2 src) (fun c => i + c.1.1)).
  apply chunked_recv_st.
Qed.
Lemma chunked_sends_st env dsz i b cnt dst gs cur nx al :
  make_chunked_send_entries env dsz 1 i b cnt dst [st gs cur nx al] = Ok (tt, [st gs (cur ++ send_chunks env dsz b cnt dst) nx al]).
Proof.
  apply (for_eachs_one (chunk_plan env dsz cnt) (fun c => create_send (b +b c.1.2) c.2 dst) (fun c => i + c.1.1)).
  apply chunked_send_st.
Qed.

Lemma total_seq (f : nat -> nat) n : sum_list (f <$> seq 0 n) = Allgatherv.total_count f n.
Proof.
  induction n as [|n IH]; [done|]. rewrite seq_S, fmap_app. cbn. rewrite <- IH.
  clear IH. induction (f <$> seq 0 n) as [|x l IH]; cbn; lia.
Qed.

Lemma byte_offsets_ext dsz f g n : (forall i, i < n -> f i = g i) -> byte_offsets dsz f n = byte_offsets dsz g n.
Proof. induction n as [|n IH]; intros H; [done|]. cbn. rewrite IH, H by auto with lia. done. Qed.

Lemma seq_total (f : nat -> nat) n i : i < n -> (f <$> seq 0 n) !!! i = f i.
Proof. intros Hi. apply list_lookup_total_correct. by rewrite list_lookup_fmap, lookup_seq_lt. Qed.

(** * The transfers *)

Section alltoallv.
Context {V : Type} (op : V -> V -> V) (env : ccl_env) (dsz P : nat) (dsz_pos : 0 < dsz).
(** [n s d] elements go from [s] to [d]; they are [y s d]. *)
Context (n : nat -> nat -> nat) (y : nat -> nat -> nat -> V).
Abbreviation memory := (gmap (nat * nat) V).
Implicit Types (m : memory) (ms : nat -> memory).

(** Offsets of the blocks of rank [r], in elements. *)
Definition soff (r b : nat) : nat := Allgatherv.total_count (n r) b.
Definition roff (r b : nat) : nat := Allgatherv.total_count (fun s => n s r) b.

Lemma soff_bound r b : b < P -> soff r b + n r b <= soff r P.
Proof. apply (total_before (n r)). Qed.
Lemma roff_bound r b : b < P -> roff r b + n b r <= roff r P.
Proof. apply (total_before (fun s => n s r)). Qed.
Lemma roff_before r b b' : b < b' -> roff r b + n b r <= roff r b'.
Proof. apply (total_before (fun s => n s r)). Qed.

Definition param (sb rb : ccl_buffer) (r : nat) : ccl_coll_param :=
  {| ctype := ccl_coll_alltoallv; send_buf := sb; recv_buf := rb;
     send_counts := n r <$> seq 0 P; recv_counts := (fun s => n s r) <$> seq 0 P |}.

Definition counts_of (r : nat) : alltoallv_counts :=
  {| a2a_send_counts := n r <$> seq 0 P; a2a_recv_counts := (fun s => n s r) <$> seq 0 P;
     send_offsets := byte_offsets dsz (fun i => (n r <$> seq 0 P) !!! i);
     recv_offsets := byte_offsets dsz (fun i => ((fun s => n s r) <$> seq 0 P) !!! i);
     total_send_count := sum_list (n r <$> seq 0 P); total_recv_count := sum_list ((fun s => n s r) <$> seq 0 P) |}.

Lemma calculate_counts sb rb r : ccl_coll_calculate_alltoallv_counts dsz P (param sb rb r) = Ok (counts_of r).
Proof. unfold ccl_coll_calculate_alltoallv_counts. cbn. by rewrite !length_fmap, length_seq, Nat.eqb_refl. Qed.

Lemma send_offsets_eq r b : b <= P -> send_offsets (counts_of r) b = soff r b * dsz.
Proof.
  intros Hb. cbn. rewrite (byte_offsets_ext dsz _ (n r)), byte_offsets_total; [done|]. intros i Hi. apply seq_total. lia.
Qed.
Lemma recv_offsets_eq r b : b <= P -> recv_offsets (counts_of r) b = roff r b * dsz.
Proof.
  intros Hb. cbn. rewrite (byte_offsets_ext dsz _ (fun s => n s r)), byte_offsets_total; [done|].
  intros i Hi. apply (seq_total (fun s => n s r)). lia.
Qed.

(** The peers a rank exchanges with. *)
Definition act (r b : nat) : bool := negb (b =? r) && negb (n b r =? 0) && negb (n r b =? 0).

Lemma act_sym r b : act r b = act b r.
Proof. unfold act. rewrite Nat.eqb_sym. destruct (r =? b), (n b r =? 0), (n r b =? 0); done. Qed.

Lemma act_pos r b : act r b = true -> b <> r /\ 0 < n b r /\ 0 < n r b.
Proof.
  unfold act. intros [[H1 H2]%andb_true_iff H3]%andb_true_iff. apply negb_true_iff, Nat.eqb_neq in H1, H2, H3. lia.
Qed.

(** ** Out of place: one group *)

Section separate.
Context (send recv : nat -> ccl_buffer) (z : nat -> nat -> V).
Context (Hb : forall r, r < P -> buf_src (send r) <> 0 /\ buf_src (send r) <> buf_src (recv r)).

Definition a2a_own (r : nat) : list entry :=
  if (0 <? n r r) then [copy_entry (send r +b soff r r * dsz) (recv r +b roff r r * dsz) (n r r)] else [].
Definition a2a_peer (r b : nat) : list entry :=
  if act r b then recv_chunks env dsz (recv r +b roff r b * dsz) (n b r) b ++ send_chunks env dsz (send r +b soff r b * dsz) (n r b) b
  else [].
Definition a2a_group (r : nat) : list entry := a2a_own r ++ (seq 0 P ≫= a2a_peer r).

Lemma not_inplace r : r < P -> is_inplace (param (send r) (recv r) r) = false.
Proof. intros Hr. destruct (Hb r Hr). unfold is_inplace. cbn. rewrite buffer_eqb_src by done. apply andb_false_r. Qed.

Lemma a2a_peer_st r b gs cur nx al : r < P -> b < P ->
  naive_alltoallv_peer env dsz r 1 (param (send r) (recv r) r) (counts_of r) false b [st gs cur nx al] =
  Ok (tt, [st gs (cur ++ a2a_peer r b) nx al]).
Proof.
  intros Hr Hb'. unfold naive_alltoallv_peer, a2a_peer, act. cbn [a2a_recv_counts a2a_send_counts counts_of].
  rewrite (seq_total (fun s => n s r) P b Hb'), (seq_total (n r) P b Hb').
  destruct (Nat.eqb_spec b r); cbn [negb andb]; [by rewrite app_nil_r|].
  destruct (Nat.eqb_spec (n b r) 0), (Nat.eqb_spec (n r b) 0); cbn [negb andb orb]; rewrite ?app_nil_r; try done.
  rewrite !(proj2 (Nat.ltb_lt 0 _)) by lia. erewrite binds_Ok; [|erewrite binds_Ok; [|done]; erewrite binds_Ok; [|apply chunked_recvs_st]; done].
  erewrite binds_Ok; [|apply chunked_sends_st]. rewrite recv_offsets_eq, send_offsets_eq by lia. cbn [andb param send_buf recv_buf].
  by rewrite <- app_assoc.
Qed.

Lemma a2a_st r gs nx al : r < P ->
  ccl_coll_build_naive_alltoallv env dsz P r 1 (param (send r) (recv r) r) [st gs [] nx al] = Ok (tt, [st gs (a2a_group r) nx al]).
Proof.
  intros Hr. unfold ccl_coll_build_naive_alltoallv. rewrite calculate_counts, not_inplace by done.
  cbn [total_send_count total_recv_count counts_of]. rewrite total_seq, (total_seq (fun s => n s r)). fold (soff r P) (roff r P).
  assert (Hloop : forall l cur, Forall (fun b => b < P) l ->
    for_eachs l (naive_alltoallv_peer env dsz r 1 (param (send r) (recv r) r) (counts_of r) false) [st gs cur nx al] =
    Ok (tt, [st gs (cur ++ (l ≫= a2a_peer r)) nx al])).
  { induction l as [|b l IH]; intros cur Hl; cbn [for_eachs]; [cbn; by rewrite app_nil_r|]. apply Forall_cons in Hl as [Hb' Hl].
    erewrite binds_Ok; [|by apply a2a_peer_st]. rewrite IH by done. cbn. by rewrite app_assoc. }
  destruct (Nat.eqb_spec (soff r P + roff r P) 0) as [Hz|Hz].
  - unfold a2a_group, a2a_own. pose proof (soff_bound r r Hr). replace (n r r) with 0 by lia. cbn [Nat.ltb Nat.leb app].
    rewrite bind_seq_none; [done|]. intros b Hb'. pose proof (soff_bound r b ltac:(lia)). unfold a2a_peer, act.
    replace (n r b) with 0 by lia. by rewrite andb_false_r.
  - cbn [negb andb a2a_send_counts a2a_recv_counts counts_of]. rewrite (seq_total (n r) P r Hr), (seq_total (fun s => n s r) P r Hr).
    rewrite andb_diag. unfold a2a_group. unfold a2a_own. destruct (0 <? n r r).
    + erewrite binds_Ok; [|apply on_one, add_entry_st]. rewrite Hloop by (apply Forall_seq; lia).
      rewrite send_offsets_eq, recv_offsets_eq by lia. done.
    + erewrite binds_Ok; [|done]. by rewrite Hloop by (apply Forall_seq; lia).
Qed.

Lemma roff_apart r b b' : b <> b' -> apart dsz (recv r +b roff r b * dsz, n b r) (recv r +b roff r b' * dsz, n b' r).
Proof.
  intros Hne. apply apart_sub. destruct (lt_eq_lt_dec b b') as [[H|H]|H]; [left; by apply roff_before|done|right; by apply roff_before].
Qed.

Lemma recv_slices_apart r b b' o k o' k' : b <> b' -> o + k <= n b r -> o' + k' <= n b' r ->
  apart dsz (recv r +b roff r b * dsz +b o * dsz, k) (recv r +b roff r b' * dsz +b o' * dsz, k').
Proof.
  intros Hne H H'. eapply slice_apart; [exact H|]. apply apart_sym. eapply slice_apart; [exact H'|]. apply apart_sym, roff_apart; done.
Qed.

Lemma send_recv_apart r o1 o1' k1 o2 o2' k2 : r < P -> apart dsz (send r +b o1 +b o1', k1) (recv r +b o2 +b o2', k2).
Proof. intros Hr. apply apart_src. cbn. by apply Hb. Qed.

Lemma a2a_group_ok r : r < P -> group_ok dsz (a2a_group r).
Proof.
  intros Hr. apply group_ok_app.
  - unfold a2a_own. case_match; group_races.
  - apply group_ok_loop.
    + intros b Hb'. unfold a2a_peer. destruct (act r b); [|done]. apply group_ok_app; [apply recv_chunks_ok|apply send_chunks_ok|].
      apply Forall_forall. intros e (o & k & -> & H)%elem_of_recv_chunks _. apply Forall_forall.
      intros e' (o' & k' & -> & H')%elem_of_send_chunks. race_cases; apply apart_sym, send_recv_apart, Hr.
    + intros b b' e e' Hbb Hb' He He' _. unfold a2a_peer in *. destruct (act r b), (act r b');
        try (by apply not_elem_of_nil in He); try (by apply not_elem_of_nil in He').
      apply elem_of_app in He as [(o & k & -> & H)%elem_of_recv_chunks|(o & k & -> & H)%elem_of_send_chunks];
        apply elem_of_app in He' as [(o' & k' & -> & H')%elem_of_recv_chunks|(o' & k' & -> & H')%elem_of_send_chunks];
        race_cases; first [apply recv_slices_apart; (done || lia)|by apply send_recv_apart|by apply apart_sym, send_recv_apart].
  - unfold a2a_own. case_match; repeat constructor; done.
Qed.

(** The receive buffer, [z r] at first, when the blocks of [S] have arrived. *)
Definition a2a_have (S : nat -> bool) (r : nat) m : Prop :=
  exists f, arr dsz m (recv r) (roff r P) f /\
    forall b i, b < P -> i < n b r -> f (roff r b + i) = if S b then y b r i else z r (roff r b + i).

Definition a2a_pre (r : nat) m : Prop :=
  (forall b, b < P -> arr dsz m (send r +b soff r b * dsz) (n r b) (y r b)) /\ arr dsz m (recv r) (roff r P) (z r).

(** What arrives: the own block, and the blocks of the peers exchanged with. *)
Definition arrives (r b : nat) : bool := (b =? r) || act r b.
Definition a2a_post (r : nat) m : Prop := forall b, b < P ->
  arr dsz m (recv r +b roff r b * dsz) (n b r) (fun i => if arrives r b then y b r i else z r (roff r b + i)).

Lemma a2a_have_upd (S : nat -> bool) r b m f : b < P ->
  arr dsz m (recv r) (roff r P) (upd f (roff r b) (n b r) (y b r)) ->
  (forall b i, b < P -> i < n b r -> f (roff r b + i) = if S b then y b r i else z r (roff r b + i)) ->
  a2a_have (fun b' => (b' =? b) || S b') r m.
Proof.
  intros Hb' Hm Hf. eexists. split; [exact Hm|]. intros b' i Hlt Hi. unfold upd.
  destruct (Nat.eqb_spec b' b) as [->|Hne]; cbn [orb]; [rewrite decide_True by lia; f_equal; lia|].
  rewrite decide_False; [by apply Hf|].
  destruct (lt_eq_lt_dec b b') as [[H|?]|H]; [pose proof (roff_before r b b' H)|done|pose proof (roff_before r b' b H)]; lia.
Qed.

Lemma a2a_have_ext (S S' : nat -> bool) r m : (forall b, b < P -> 0 < n b r -> S b = S' b) -> a2a_have S r m -> a2a_have S' r m.
Proof. intros H (f & Hf & Hfy). exists f. split; [done|]. intros b i Hlt Hi. rewrite <- H by lia. by apply Hfy. Qed.

Lemma a2a_own_run r m : r < P -> a2a_pre r m ->
  exists m', start_group op dsz (a2a_own r) m = Some (m', []) /\ a2a_have (fun b => b =? r) r m' /\
    forall b, b < P -> arr dsz m' (send r +b soff r b * dsz) (n r b) (y r b).
Proof.
  intros Hr [Hs Hf]. unfold a2a_own. destruct (Nat.ltb_spec 0 (n r r)) as [Hn|Hn].
  - destruct (copy_sub dsz dsz_pos m (send r +b soff r r * dsz) _ _ 0 (recv r) _ _ (roff r r) (n r r) (Hs r Hr) Hf ltac:(lia)) as (m' & Hm & A & K);
      [by apply roff_bound|]. rewrite buffer_add_0 in Hm by done. exists m'. split; [cbn; by rewrite Hm|]. split.
    + eapply a2a_have_ext; [|apply (a2a_have_upd (fun _ => false) r r m' (z r)); [done|exact A|done]]. intros b _ _. apply orb_false_r.
    + intros b Hlt. eapply keeps_arr; [exact K|cbn; by apply Hb|by apply Hs].
  - exists m. split; [done|]. split; [|done]. exists (z r). split; [done|]. intros b i Hlt Hi. destruct (Nat.eqb_spec b r) as [->|]; [lia|done].
Qed.

Definition a2a_outs (r b : nat) : list (nat * list V) :=
  if act r b then (fun v => (b, v)) <$> chunk_msgs env dsz (n r b) (y r b) else [].
Definition a2a_rm (r b : nat) : list (entry * list V) :=
  if act r b then zip (recv_chunks env dsz (recv r +b roff r b * dsz) (n b r) b) (chunk_msgs env dsz (n b r) (y b r)) else [].

Lemma a2a_peer_start r b m : b < P -> arr dsz m (send r +b soff r b * dsz) (n r b) (y r b) ->
  start_group op dsz (a2a_peer r b) m = Some (m, a2a_outs r b).
Proof.
  intros Hb' Hs. unfold a2a_peer, a2a_outs. case_match; [|done].
  eapply (start_group_app _ _ _ _ _ _ _ []); [apply start_recv_chunks|by apply start_send_chunks].
Qed.

Lemma a2a_recvs r : recvs (a2a_group r) = (seq 0 P ≫= a2a_rm r).*1.
Proof.
  unfold a2a_group. rewrite filter_app, recvs_bind, fst_bind.
  replace (recvs (a2a_own r)) with (@nil entry) by (unfold a2a_own; by case_match). cbn [app].
  apply list_bind_ext; [|done]. intros b. unfold a2a_peer, a2a_rm. case_match; [|done].
  by rewrite filter_app, recvs_recv_chunks, recvs_send_chunks, app_nil_r, zip_chunks_fst.
Qed.

Lemma a2a_complete r m : r < P -> a2a_have (fun b => b =? r) r m ->
  exists m', complete_group op dsz (seq 0 P ≫= a2a_rm r) m = Some m' /\ a2a_have (arrives r) r m'.
Proof.
  intros Hr Hm.
  destruct (complete_group_bind op dsz (seq 0 P) (a2a_rm r)
    (fun l m => a2a_have (fun b => (b =? r) || (bool_decide (b ∈ l) && act r b)) r m) [] m) with (todo := seq 0 P) as (m' & Hc & Hall).
  - intros l b todo m1 Hl Hf.
    assert (Hb' : b < P) by (assert (Hin : b ∈ seq 0 P) by (rewrite Hl; set_solver); apply elem_of_seq in Hin; lia).
    assert (Hext : forall b', bool_decide (b' ∈ l ++ [b]) = (b' =? b) || bool_decide (b' ∈ l)).
    { intros b'. destruct (Nat.eqb_spec b' b) as [->|Hne]; cbn [orb]; [apply bool_decide_eq_true_2; set_solver|].
      apply bool_decide_ext. set_solver. }
    unfold a2a_rm. destruct (act r b) eqn:Ea.
    + destruct Hf as (f & Hf & Hfy).
      destruct (complete_recv_chunks op env dsz dsz_pos m1 (recv r) _ f (roff r b) (n b r) b (y b r) Hf) as (m2 & Hm2 & A & _); [by apply roff_bound|].
      exists m2. split; [done|]. eapply a2a_have_ext; [|exact (a2a_have_upd (fun b => (b =? r) || (bool_decide (b ∈ l) && act r b)) r b m2 f Hb' A Hfy)].
      intros b' _ _. cbn beta. rewrite Hext.
      destruct (Nat.eqb_spec b' b) as [->|]; cbn [orb]; [rewrite Ea; by destruct (b =? r)|done].
    + exists m1. split; [done|]. eapply a2a_have_ext; [|exact Hf]. intros b' _ _. cbn beta. rewrite Hext.
      destruct (Nat.eqb_spec b' b) as [->|]; cbn [orb]; [rewrite Ea; by rewrite !andb_false_r|done].
  - done.
  - eapply a2a_have_ext; [|exact Hm]. intros b _ _. cbn beta. rewrite bool_decide_eq_false_2 by set_solver. by rewrite orb_false_r.
  - exists m'. split; [done|]. eapply a2a_have_ext; [|exact Hall]. intros b Hlt _. cbn beta.
    rewrite bool_decide_eq_true_2; [done|]. apply elem_of_seq. lia.
Qed.

Lemma a2a_balance s d : s < P -> d < P -> msgs_to d (seq 0 P ≫= a2a_outs s) = msgs_from s (seq 0 P ≫= a2a_rm d).
Proof.
  intros Hs Hd. rewrite msgs_to_bind, msgs_from_bind.
  rewrite (bind_seq_one 0 P _ d), (bind_seq_one 0 P _ s); [|lia| |lia|].
  - unfold a2a_outs, a2a_rm. rewrite (act_sym s d). case_match; [|done]. rewrite msgs_to_chunks, msgs_from_chunks. by rewrite !decide_True.
  - intros b _ Hne. unfold a2a_rm. case_match; [|done]. rewrite msgs_from_chunks. by rewrite decide_False.
  - intros b _ Hne. unfold a2a_outs. case_match; [|done]. rewrite msgs_to_chunks. by rewrite decide_False.
Qed.

(** Every exchanged block and the own block arrive. *)
Lemma a2a_step ms : (forall r, r < P -> a2a_pre r (ms r)) ->
  steps op dsz P a2a_group ms (fun r m => a2a_have (arrives r) r m).
Proof.
  intros Hms. apply (matched_step op dsz P _ ms _ (fun r => seq 0 P ≫= a2a_outs r) (fun r => seq 0 P ≫= a2a_rm r)).
  - intros r Hr. destruct (a2a_own_run r (ms r) Hr (Hms r Hr)) as (m1 & Hst & Hh & Hs).
    destruct (a2a_complete r m1 Hr Hh) as (m2 & Hc & Hall). exists m1, m2. split; [|split; [by rewrite a2a_recvs|done]].
    eapply (start_group_app _ _ _ _ _ _ _ []); [exact Hst|]. apply start_group_bind. intros b Hb'%elem_of_seq.
    apply a2a_peer_start; [lia|]. apply Hs. lia.
  - intros r d Hr Hd. apply list_elem_of_fmap in Hd as ([d' v] & -> & (b & Hin & Hb'%elem_of_seq)%list_elem_of_bind).
    unfold a2a_outs in Hin. case_match; [|by apply not_elem_of_nil in Hin]. apply list_elem_of_fmap in Hin as (w & [= -> _] & _). cbn. lia.
  - intros r e s Hr He Hs. rewrite fst_bind in He. apply list_elem_of_bind in He as (b & Hin & Hb'%elem_of_seq).
    unfold a2a_rm in Hin. case_match; [|by apply not_elem_of_nil in Hin]. rewrite zip_chunks_fst in Hin.
    apply elem_of_recv_chunks in Hin as (o & k & -> & _). injection Hs as <-. lia.
  - intros s d. apply a2a_balance.
Qed.

Lemma a2a_have_post r m : a2a_have (arrives r) r m -> a2a_post r m.
Proof.
  intros (f & Hf & Hfy) b Hb'. eapply (arr_ext dsz); [|eapply arr_sub; [exact dsz_pos|exact Hf|by apply roff_bound]].
  intros i Hi. by apply Hfy.
Qed.
End separate.

(** ** In place: pairwise exchanges *)

(** The loop of rank [r] meets its peers in ascending order, so rank [r] and peer [b] exchange in
    superstep [r + b]: the schedules cannot deadlock although each waits for one peer at a time. *)
Section inplace.
Context (buf : nat -> ccl_buffer) (nx : nat -> nat).
Context (Hbuf : forall r, r < P -> 0 < buf_src (buf r) < nx r).
Context (Hsym : forall s d, s < P -> d < P -> n s d = n d s).

Lemma off_sym r b : r < P -> b <= P -> roff r b = soff r b.
Proof.
  intros Hr. unfold roff, soff. induction b as [|b IH]; intros Hb; [done|]. cbn. rewrite IH, (Hsym b r) by lia. done.
Qed.

(** The temporary buffers, allocated peer by peer. *)
Definition acts (r b : nat) : nat := Allgatherv.total_count (fun b => if act r b then 1 else 0) b.
Lemma acts_S r b : acts r (S b) = acts r b + (if act r b then 1 else 0).
Proof. done. Qed.
Definition tmp (r b : nat) : ccl_buffer := mk_buffer (nx r + acts r b) 0.

Lemma tmp_ne r b b' : act r b = true -> act r b' = true -> b <> b' -> buf_src (tmp r b) <> buf_src (tmp r b').
Proof.
  intros H H' Hne. cbn. unfold acts. destruct (lt_eq_lt_dec b b') as [[Hlt|?]|Hlt]; [|done|].
  - pose proof (total_before (fun b => if act r b then 1 else 0) b b' Hlt) as Hb. cbn beta in Hb. rewrite H in Hb. lia.
  - pose proof (total_before (fun b => if act r b then 1 else 0) b' b Hlt) as Hb. cbn beta in Hb. rewrite H' in Hb. lia.
Qed.

Definition in_exch (r b : nat) : list entry :=
  if act r b then recv_chunks env dsz (tmp r b) (n b r) b ++ send_chunks env dsz (buf r +b soff r b * dsz) (n r b) b else [].
Definition in_copy (r b : nat) : list entry :=
  if act r b then [copy_entry (tmp r b) (buf r +b roff r b * dsz) (n b r)] else [].
Definition in_alloc (r b : nat) : list (nat * nat) := if act r b then [(nx r + acts r b, n b r * dsz)] else [].

Lemma in_peer_st r b gs al : r < P -> b < P ->
  naive_alltoallv_peer env dsz r 1 (param (buf r) (buf r) r) (counts_of r) true b [st gs [] (nx r + acts r b) al] =
  Ok (tt, [st (gs ++ [in_exch r b; in_copy r b]) [] (nx r + acts r (S b)) (al ++ in_alloc r b)]).
Proof.
  intros Hr Hb. rewrite acts_S. unfold naive_alltoallv_peer, in_exch, in_copy, in_alloc. cbn [a2a_recv_counts a2a_send_counts counts_of].
  rewrite (seq_total (fun s => n s r) P b Hb), (seq_total (n r) P b Hb).
  assert (Eskip : act r b = false -> Ok (tt, [st gs [] (nx r + acts r b) al]) = Ok (tt, [st (gs ++ [[]; []]) [] (nx r + (acts r b + 0)) (al ++ [])])).
  { intros _. rewrite app_nil_r, Nat.add_0_r. change [[]; []] with ([[]] ++ [@nil entry]). by rewrite app_assoc, !st_empty_group. }
  unfold act in *. destruct (Nat.eqb_spec b r); cbn [negb andb] in *; [by apply Eskip|].
  destruct (Nat.eqb_spec (n b r) 0), (Nat.eqb_spec (n r b) 0); cbn [negb andb orb] in *; try (by apply Eskip).
  rewrite !(proj2 (Nat.ltb_lt 0 _)).
  2:{ cbn [total_recv_count counts_of]. rewrite (total_seq (fun s => n s r)). pose proof (roff_bound r b Hb). unfold roff in *. nia. }
  2, 3: lia.
  erewrite binds_Ok; [|erewrite binds_Ok; [|apply on_one, alloc_buffer_st; nia]; erewrite binds_Ok; [|apply chunked_recvs_st]; done].
  erewrite binds_Ok; [|apply chunked_sends_st]. rewrite recv_offsets_eq, send_offsets_eq by lia. cbn [andb param send_buf recv_buf].
  apply on_one. fold (tmp r b). build_simp. do 3 f_equal. lia.
Qed.

Lemma in_loop_st r k gs al : r < P -> forall b, b + k <= P ->
  for_eachs (seq b k) (naive_alltoallv_peer env dsz r 1 (param (buf r) (buf r) r) (counts_of r) true) [st gs [] (nx r + acts r b) al] =
  Ok (tt, [st (gs ++ (seq b k ≫= fun b => [in_exch r b; in_copy r b])) [] (nx r + acts r (b + k)) (al ++ (seq b k ≫= in_alloc r))]).
Proof.
  intros Hr. revert gs al. induction k as [|k IH]; intros gs al b Hb; cbn [seq for_eachs].
  { cbn. by rewrite !app_nil_r, Nat.add_0_r. }
  erewrite binds_Ok; [|apply in_peer_st; lia]. rewrite IH by lia. rewrite <- Nat.add_succ_comm. cbn. by rewrite <- !app_assoc.
Qed.

(** Superstep [t]: the exchange of rank [r] with peer [t - r], if there is one. *)
Definition meets (t r : nat) : bool := (r <=? t) && (t - r <? P) && act r (t - r).
Definition in_group_x (t r : nat) : list entry := if meets t r then in_exch r (t - r) else [].
Definition in_group_c (t r : nat) : list entry := if meets t r then in_copy r (t - r) else [].
Definition in_groups : list (nat -> list entry) := seq 0 (2 * P) ≫= fun t => [in_group_x t; in_group_c t].

Lemma seq_shift_bind {A} (h F : nat -> list A) r k :
  (forall t, h t = if (r <=? t) && (t - r <? P) then F (t - r) else []) -> seq 0 (r + P + k) ≫= h = seq 0 P ≫= F.
Proof.
  intros Hh. rewrite !seq_app, !bind_app, (bind_seq_none 0 r), (bind_seq_none (0 + (r + P)) k).
  - rewrite app_nil_r. cbn [app Nat.add].
    assert (HF : forall j a, a + j = P -> seq (a + r) j ≫= h = seq a j ≫= F).
    { induction j as [|j IH]; intros a Ha; [done|]. cbn. rewrite Hh. rewrite (proj2 (Nat.leb_le _ _)) by lia.
      replace (a + r - r) with a by lia. rewrite (proj2 (Nat.ltb_lt _ _)) by lia. cbn [andb]. f_equal. by apply (IH (S a)); lia. }
    by apply (HF P 0).
  - intros t Ht. rewrite Hh, (proj2 (Nat.ltb_ge (t - r) P)) by lia. by rewrite andb_false_r.
  - intros t Ht. rewrite Hh, (proj2 (Nat.leb_gt r t)) by lia. done.
Qed.

Lemma in_aligned r nx' al : r < P ->
  st (at_rank r in_groups) [] nx' al = st (seq 0 P ≫= fun b => [in_exch r b; in_copy r b]) [] nx' al.
Proof.
  intros Hr. unfold st, flat. f_equal. f_equal. unfold in_groups, at_rank.
  assert (E : forall (l : list nat) (f : nat -> list (list entry)), concat (close_group true <$> (l ≫= f)) = l ≫= fun a => concat (close_group true <$> f a)).
  { intros l f. induction l as [|a l IH]; [done|]. cbn. by rewrite fmap_app, concat_app, IH. }
  assert (Er : ((fun g => g r) <$> (seq 0 (2 * P) ≫= fun t => [in_group_x t; in_group_c t])) = seq 0 (2 * P) ≫= fun t => [in_group_x t r; in_group_c t r]).
  { generalize (seq 0 (2 * P)). intros l. induction l as [|a l IH]; [done|]. cbn. by f_equal; f_equal. }
  rewrite Er, !E. replace (2 * P) with (r + P + (P - r)) by lia. apply seq_shift_bind. intros t.
  unfold in_group_x, in_group_c, meets. destruct ((r <=? t) && (t - r <? P)); [|done]. cbn [andb].
  destruct (act r (t - r)) eqn:Ea; [done|]. unfold in_exch, in_copy. by rewrite Ea.
Qed.

Lemma in_st r : r < P ->
  ccl_coll_build_naive_alltoallv env dsz P r 1 (param (buf r) (buf r) r) [st [] [] (nx r) []] =
  Ok (tt, [st (at_rank r in_groups) [] (nx r + acts r P) (seq 0 P ≫= in_alloc r)]).
Proof.
  intros Hr. unfold ccl_coll_build_naive_alltoallv. rewrite calculate_counts.
  assert (is_inplace (param (buf r) (buf r) r) = true) as ->.
  { unfold is_inplace, buffer_bool. cbn. rewrite buffer_eqb_refl, bool_decide_eq_true_2; [done|]. destruct (Hbuf r Hr). lia. }
  rewrite in_aligned by done. cbn [total_send_count total_recv_count counts_of negb andb]. rewrite total_seq, (total_seq (fun s => n s r)).
  fold (soff r P) (roff r P). destruct (Nat.eqb_spec (soff r P + roff r P) 0) as [Hz|Hz].
  - assert (Hno : forall b, b < P -> act r b = false).
    { intros b Hb. pose proof (soff_bound r b Hb). unfold act. replace (n r b) with 0 by lia. apply andb_false_r. }
    assert (E1 : (seq 0 P ≫= fun b => [in_exch r b; in_copy r b]) = replicate (2 * P) []).
    { assert (H : forall j a, a + j <= P -> (seq a j ≫= fun b => [in_exch r b; in_copy r b]) = replicate (2 * j) []).
      { induction j as [|j IH]; intros a Ha; [done|]. cbn [seq mbind list_bind]. rewrite IH by lia. unfold in_exch, in_copy. rewrite Hno by lia.
        replace (2 * S j) with (S (S (2 * j))) by lia. done. }
      apply H. lia. }
    rewrite E1, bind_seq_none by (intros b Hb; unfold in_alloc; by rewrite Hno by lia).
    assert (E2 : forall j gs, st (gs ++ replicate j []) [] (nx r + acts r P) [] = st gs [] (nx r + acts r P) []).
    { induction j as [|j IH]; intros gs; [by rewrite app_nil_r|]. cbn. change ([] :: ?l) with ([[]] ++ l). rewrite app_assoc, IH. apply st_empty_group. }
    specialize (E2 (2 * P) []). rewrite app_nil_l in E2. rewrite E2. do 3 f_equal. assert (acts r P = 0) as ->; [|by rewrite Nat.add_0_r].
    unfold acts. assert (H : forall j, j <= P -> Allgatherv.total_count (fun b => if act r b then 1 else 0) j = 0); [|by apply H].
    induction j as [|j IH]; intros Hj; [done|]. cbn. rewrite IH, Hno by lia. done.
  - erewrite binds_Ok; [|done]. pose proof (in_loop_st r P [] [] Hr 0) as H. unfold acts at 1 in H. cbn in H. rewrite Nat.add_0_r in H.
    by apply H.
Qed.

Lemma in_exch_ok r b : r < P -> group_ok dsz (in_exch r b).
Proof.
  intros Hr. unfold in_exch. destruct (act r b); [|done]. apply group_ok_app; [apply recv_chunks_ok|apply send_chunks_ok|].
  apply Forall_forall. intros e (o & k & -> & H)%elem_of_recv_chunks _. apply Forall_forall.
  intros e' (o' & k' & -> & H')%elem_of_send_chunks. destruct (Hbuf r Hr). race_cases; apply apart_src; cbn; lia.
Qed.

Lemma in_groups_ok r : r < P -> Forall (group_ok dsz) (at_rank r in_groups).
Proof.
  intros Hr. apply Forall_fmap, Forall_forall. intros g (t & Hg & _)%list_elem_of_bind.
  apply elem_of_cons in Hg as [->|Hg%list_elem_of_singleton]; [|subst g]; unfold in_group_x, in_group_c; cbn.
  - destruct (meets t r); [by apply in_exch_ok|done].
  - destruct (meets t r); [|done]. unfold in_copy. case_match; group_races.
Qed.

(** Before superstep [t] the blocks of the peers met so far have been replaced. *)
Definition in_inv (t r : nat) m : Prop :=
  (exists f, arr dsz m (buf r) (soff r P) f /\
     forall b i, b < P -> i < n r b -> f (soff r b + i) = if r + b <? t then y b r i else y r b i) /\
  forall b, b < P -> act r b = true -> exists g, arr dsz m (tmp r b) (n b r) g.

(** In between, the temporary buffer of the peer met holds its block. *)
Definition in_mid (t r : nat) m : Prop :=
  in_inv t r m /\ (meets t r = true -> arr dsz m (tmp r (t - r)) (n (t - r) r) (y (t - r) r)).

Lemma meets_spec t r : meets t r = true -> r <= t /\ t - r < P /\ act r (t - r) = true.
Proof.
  unfold meets. intros [[H1 H2]%andb_true_iff H3]%andb_true_iff. apply Nat.leb_le in H1. by apply Nat.ltb_lt in H2.
Qed.

Lemma meets_sym t s d : s < P -> d < P -> meets t s = true -> t - s = d -> meets t d = true /\ t - d = s.
Proof.
  intros Hs Hd (H1 & H2 & H3)%meets_spec E. assert (t - d = s) as E' by lia. split; [|done]. unfold meets. rewrite E'.
  rewrite (proj2 (Nat.leb_le _ _)), (proj2 (Nat.ltb_lt _ _)) by lia. rewrite act_sym. rewrite E in H3. by rewrite H3.
Qed.

Lemma buf_tmp_ne r b : r < P -> buf_src (buf r) <> buf_src (tmp r b).
Proof. intros Hr. destruct (Hbuf r Hr). cbn. lia. Qed.

Lemma in_exch_step t ms : (forall r, r < P -> in_inv t r (ms r)) ->
  steps op dsz P (in_group_x t) ms (fun r m => in_mid t r m).
Proof.
  intros Hms. apply (matched_step op dsz P _ ms _
    (fun r => if meets t r then (fun v => (t - r, v)) <$> chunk_msgs env dsz (n r (t - r)) (y r (t - r)) else [])
    (fun r => if meets t r then zip (recv_chunks env dsz (tmp r (t - r)) (n (t - r) r) (t - r)) (chunk_msgs env dsz (n (t - r) r) (y (t - r) r)) else [])).
  - intros r Hr. destruct (Hms r Hr) as [(f & Hf & Hfy) Htmp]. unfold in_group_x. destruct (meets t r) eqn:Em.
    2:{ exists (ms r), (ms r). split; [done|]. split; [done|]. split; [done|]. split; [by split; [exists f|]|congruence]. }
    destruct (meets_spec _ _ Em) as (Hle & Hlt & Ha). set (b := t - r) in *. destruct (Htmp b Hlt Ha) as [g Hg].
    assert (Hown : arr dsz (ms r) (buf r +b soff r b * dsz) (n r b) (y r b)).
    { eapply (arr_ext dsz); [|eapply arr_sub; [exact dsz_pos|exact Hf|by apply soff_bound]]. intros i Hi. cbn beta. rewrite Hfy by done.
      rewrite (proj2 (Nat.ltb_ge _ _)) by lia. done. }
    destruct (complete_recv_chunks op env dsz dsz_pos (ms r) (tmp r b) _ g 0 (n b r) b (y b r) Hg) as (m' & Hm & A & K); [lia|].
    rewrite buffer_add_0 in Hm by done. exists (ms r), m'. split; [|split; [|split; [exact Hm|]]].
    + unfold in_exch. rewrite Ha. eapply (start_group_app _ _ _ _ _ _ _ []); [apply start_recv_chunks|by apply start_send_chunks].
    + unfold in_exch. rewrite Ha, filter_app, recvs_recv_chunks, recvs_send_chunks, app_nil_r. apply zip_chunks_fst.
    + assert (Hy : arr dsz m' (tmp r b) (n b r) (y b r)).
      { eapply (arr_ext dsz); [|exact A]. intros i Hi. unfold upd. rewrite decide_True by lia. f_equal. lia. }
      split; [|done]. split; [exists f; split; [eapply keeps_arr; [exact K|by apply buf_tmp_ne|done]|done]|].
      intros b' Hlt' Ha'. destruct (decide (b' = b)) as [->|Hne]; [eauto|]. destruct (Htmp b' Hlt' Ha') as [g' Hg'].
      exists g'. eapply keeps_arr; [exact K|by apply tmp_ne|done].
  - intros r d Hr Hd. destruct (meets t r) eqn:Em; [|by apply not_elem_of_nil in Hd]. apply meets_spec in Em as (_ & H & _).
    apply list_elem_of_fmap in Hd as ([d' v] & -> & (w & [= -> _] & _)%list_elem_of_fmap). done.
  - intros r e s Hr He Hs. destruct (meets t r) eqn:Em; [|by apply not_elem_of_nil in He]. apply meets_spec in Em as (_ & H & _).
    rewrite zip_chunks_fst in He. apply elem_of_recv_chunks in He as (o & k & -> & _). by injection Hs as <-.
  - intros s d Hs Hd. destruct (meets t s) eqn:Es, (meets t d) eqn:Ed; try done; rewrite ?msgs_to_chunks, ?msgs_from_chunks.
    + destruct (decide (t - s = d)) as [E|E].
      * destruct (meets_sym t s d Hs Hd Es E) as [_ E']. by rewrite E, E', decide_True.
      * rewrite decide_False; [done|]. intros E'. apply E. by apply (meets_sym t d s).
    + rewrite decide_False; [done|]. intros E. destruct (meets_sym t s d Hs Hd Es E). congruence.
    + rewrite decide_False; [done|]. intros E. destruct (meets_sym t d s Hd Hs Ed E). congruence.
Qed.

Lemma in_inv_skip t r m : meets t r = false -> r < P -> in_inv t r m -> in_inv (S t) r m.
Proof.
  intros Em Hr [(f & Hf & Hfy) Ht]. split; [|done]. exists f. split; [done|]. intros b i Hb Hi. rewrite Hfy by done.
  destruct (Nat.ltb_spec (r + b) t), (Nat.ltb_spec (r + b) (S t)); try done; try lia.
  assert (b = t - r) as -> by lia. destruct (decide (t - r = r)) as [->|Hne]; [done|]. exfalso.
  unfold meets, act in Em. rewrite (proj2 (Nat.leb_le _ _)), (proj2 (Nat.ltb_lt _ _)) in Em by lia. cbn [andb] in Em.
  rewrite (Hsym (t - r) r) in Em by done. rewrite !(proj2 (Nat.eqb_neq _ _)) in Em; [done|lia..].
Qed.

Lemma in_copy_step t ms : (forall r, r < P -> in_mid t r (ms r)) ->
  steps op dsz P (in_group_c t) ms (fun r m => in_inv (S t) r m).
Proof.
  intros Hms. apply local_step. intros r Hr. destruct (Hms r Hr) as [Hinv Hy]. unfold in_group_c.
  destruct (meets t r) eqn:Em; [|split; [done|]; eexists; split; [done|by apply in_inv_skip]].
  destruct (meets_spec _ _ Em) as (Hle & Hlt & Ha). destruct Hinv as [(f & Hf & Hfy) Htmp]. specialize (Hy eq_refl).
  set (b := t - r) in *. unfold in_copy. rewrite Ha. split; [done|]. rewrite off_sym by lia.
  assert (En : n b r = n r b) by (by apply Hsym).
  destruct (copy_sub dsz dsz_pos (ms r) (tmp r b) _ _ 0 (buf r) _ f (soff r b) (n b r) Hy Hf) as (m' & Hm & A & K);
    [lia|rewrite En; by apply soff_bound|]. rewrite buffer_add_0 in Hm by done. exists m'. split; [cbn; by rewrite Hm|]. split.
  - eexists. split; [exact A|]. intros b' i Hb' Hi. unfold upd. destruct (lt_eq_lt_dec b b') as [[H|<-]|H].
    + pose proof (total_before (n r) b b' H). fold (soff r b) (soff r b') in *. rewrite decide_False by lia. rewrite Hfy by done.
      rewrite !(proj2 (Nat.ltb_ge _ _)) by lia. done.
    + rewrite decide_True by lia. rewrite (proj2 (Nat.ltb_lt _ _)) by lia. f_equal. lia.
    + pose proof (total_before (n r) b' b H). fold (soff r b) (soff r b') in *. rewrite decide_False by lia. rewrite Hfy by done.
      rewrite !(proj2 (Nat.ltb_lt _ _)) by lia. done.
  - intros b' Hb' Ha'. destruct (Htmp b' Hb' Ha') as [g Hg]. exists g. eapply keeps_arr; [exact K| |done].
    intros E. symmetry in E. by apply buf_tmp_ne in E.
Qed.

Lemma in_runs ms : (forall r, r < P -> in_inv 0 r (ms r)) -> runs op dsz P in_groups ms (fun r m => in_inv (2 * P) r m).
Proof.
  intros Hms. apply (runs_loop op dsz P _ (fun t r m => in_inv t r m) 0 (2 * P)); [|done]. intros t ms1 _ H1.
  eapply runs_cons; [by apply in_exch_step|]. intros ms2 H2. by apply runs_one, in_copy_step.
Qed.
End inplace.
End alltoallv.

(** * Theorems *)

(** The only schedule of a vector of one. *)
Definition one_sched (b : builds unit) : build unit :=
  fun s => match b [s] with Ok (_, [s']) => Ok (tt, s') | _ => Throw end.

Section theorems.
Context {V : Type} (op : V -> V -> V) (env : ccl_env) (dsz P : nat) (n : nat -> nat -> nat) (y : nat -> nat -> nat -> V) (nx : nat -> nat).
Implicit Types m : gmap (nat * nat) V.

Abbreviation build_a2a send recv := (fun r => one_sched (ccl_coll_build_naive_alltoallv env dsz P r 1 (param P n (send r) (recv r) r))).

Lemma naive_alltoallv_impl (send recv : nat -> ccl_buffer) (z : nat -> nat -> V) :
  0 < dsz -> (forall r, r < P -> buf_src (send r) <> 0 /\ buf_src (send r) <> buf_src (recv r)) ->
  implements op dsz P (build_a2a send recv) nx (a2a_pre dsz P n y send recv z) (a2a_post dsz P n y recv z).
Proof.
  intros Hd Hb. eapply (implements_intro _ _ _ _ _ _ _ [] (a2a_group env dsz P n send recv) nx (fun _ => [])); [done| | |].
  - intros r Hr. unfold one_sched. rewrite (a2a_st env dsz P); done.
  - intros r Hr. split; [done|]. by apply a2a_group_ok.
  - intros ms Hms. apply runs_one. destruct (a2a_step op env dsz P Hd n y send recv z Hb ms) as (ms' & H1 & H2); [by apply Hms|].
    exists ms'. split; [done|]. intros r Hr. by apply a2a_have_post, H2.
Qed.

(** The naive alltoallv out of place on one schedule (one worker, the default), with any chunking: when two ranks either both send to each
    other or neither does, every interleaving ends with block [b] of every rank's receive buffer
    holding what rank [b] has for it. *)
Theorem naive_alltoallv_correct (send recv : nat -> ccl_buffer) (z : nat -> nat -> V) :
  0 < dsz -> (forall r, r < P -> buf_src (send r) <> 0 /\ buf_src (send r) <> buf_src (recv r)) ->
  (forall s d, s < P -> d < P -> n s d = 0 -> n d s = 0) ->
  implements op dsz P (build_a2a send recv) nx (a2a_pre dsz P n y send recv z)
    (fun r m => forall b, b < P -> arr dsz m (recv r +b roff n r b * dsz) (n b r) (y b r)).
Proof.
  intros Hd Hb Hsym. destruct (naive_alltoallv_impl send recv z Hd Hb) as (scheds & H1 & H2). exists scheds. split; [done|].
  intros ms Hms. eapply collective_weaken; [|by apply H2]. intros r m Hr Hpost b Hlt. eapply (arr_ext dsz); [|by apply Hpost].
  intros i Hi. cbn beta. assert (arrives n r b = true) as ->; [|done]. unfold arrives, act. destruct (Nat.eqb_spec b r) as [->|Hne]; [done|].
  cbn [negb andb orb]. pose proof (Hsym r b Hr Hlt). rewrite !(proj2 (Nat.eqb_neq _ _)); [done|lia..].
Qed.

(** A block that goes one way only is lost: where rank [d] has nothing for rank [s], the naive
    alltoallv skips the pair on both sides, so that whatever [s] has for [d], every interleaving
    ends without an error and with the old contents of [d]'s receive buffer in that block. *)
Theorem naive_alltoallv_one_way_lost (send recv : nat -> ccl_buffer) (z : nat -> nat -> V) (s d : nat) :
  0 < dsz -> (forall r, r < P -> buf_src (send r) <> 0 /\ buf_src (send r) <> buf_src (recv r)) ->
  s < P -> d < P -> s <> d -> n d s = 0 ->
  implements op dsz P (build_a2a send recv) nx (a2a_pre dsz P n y send recv z)
    (fun r m => r = d -> arr dsz m (recv d +b roff n d s * dsz) (n s d) (fun i => z d (roff n d s + i))).
Proof.
  intros Hd Hb Hs Hdl Hne Hz. destruct (naive_alltoallv_impl send recv z Hd Hb) as (scheds & H1 & H2). exists scheds. split; [done|].
  intros ms Hms. eapply collective_weaken; [|by apply H2]. intros r m Hr Hpost ->. eapply (arr_ext dsz); [|by apply Hpost].
  intros i Hi. cbn beta. assert (arrives n d s = false) as ->; [|done]. unfold arrives, act. rewrite Hz.
  rewrite (proj2 (Nat.eqb_neq s d)) by done. apply andb_false_r.
Qed.

(** The naive alltoallv in place, the counts of both directions equal: although each rank waits
    for one peer at a time, every interleaving ends without deadlock, and block [b] of every rank's
    buffer holds what rank [b] had for it. *)
Theorem naive_alltoallv_inplace_correct (buf : nat -> ccl_buffer) :
  0 < dsz -> (forall r, r < P -> 0 < buf_src (buf r) < nx r) ->
  (forall s d, s < P -> d < P -> n s d = n d s) ->
  implements op dsz P (build_a2a buf buf) nx
    (fun r m => exists f, arr dsz m (buf r) (soff n r P) f /\
       forall b i, b < P -> i < n r b -> f (soff n r b + i) = y r b i)
    (fun r m => forall b, b < P -> arr dsz m (buf r +b roff n r b * dsz) (n b r) (y b r)).
Proof.
  intros Hd Hb Hsym. eapply (implements_intro _ _ _ _ _ _ _ (in_groups env dsz P n buf nx) (fun _ => [])
    (fun r => nx r + acts n r P) (fun r => seq 0 P ≫= in_alloc dsz n nx r)); [done| | |].
  - intros r Hr. unfold one_sched. rewrite (in_st env dsz P) with (nx := nx); done.
  - intros r Hr. split; [|done]. by apply in_groups_ok.
  - intros ms Hms. eapply runs_seq; [apply (in_runs op env dsz P Hd n y buf nx Hb Hsym)|].
    + intros r Hr. destruct (Hms r Hr) as [(f & Hf & Hfy) Hal]. split; [exists f; split; [done|]; intros b i Hlt Hi; by apply Hfy|].
      intros b Hlt Ha. rewrite Forall_forall in Hal. destruct (Hal (nx r + acts n r b, n b r * dsz)) as [g Hg].
      { apply list_elem_of_bind. exists b. split; [unfold in_alloc; rewrite Ha; by left|apply elem_of_seq; lia]. }
      exists g. cbn in Hg. by rewrite Nat.div_mul in Hg by lia.
    + intros ms1 H1. apply runs_one, skip_step. intros r Hr b Hlt. destruct (H1 r Hr) as [(f & Hf & Hfy) _].
      assert (Eoff : roff n r b = soff n r b) by (eapply off_sym; eauto; lia). rewrite Eoff. rewrite (Hsym b r) by done.
      eapply (arr_ext dsz); [|eapply arr_sub; [exact Hd|exact Hf|by apply soff_bound]]. intros i Hi. cbn beta. rewrite Hfy by done.
      rewrite (proj2 (Nat.ltb_lt _ _)) by lia. done.
Qed.
End theorems.

(** With two worker schedules and transfers in two chunks, the naive alltoallv in place puts the
    copy out of a temporary buffer and the receive of its second chunk into different schedules,
    which nothing orders: the copy reads elements the receive writes. *)
Theorem naive_alltoallv_chunk_race :
  exists env p s0 s1 b o cnt dst src,
    ccl_coll_build_naive_alltoallv env 1 2 0 2 p [empty_sched 10; empty_sched 20] = Ok (tt, [s0; s1]) /\
    is_inplace p = true /\
    (exists bar, (copy_entry b dst cnt, bar) ∈ entries s1) /\
    (exists bar, (recv_entry (b +b o) 4 src, bar) ∈ entries s0) /\
    ~ apart 1 (b, cnt) (b +b o, 4).
Proof.
  exists {| chunk_count := 2; min_chunk_size := 2; rs_chunk_count := 1; rs_min_chunk_size := 1; check_inplace_aliasing := true;
            allreduce_nreduce_buffering := true; allreduce_nreduce_segment_size := None |}.
  exists {| ctype := ccl_coll_alltoallv; send_buf := mk_buffer 1 0; recv_buf := mk_buffer 1 0; send_counts := [8; 8]; recv_counts := [8; 8] |}.
  do 2 eexists. exists (mk_buffer 20 0), 4, 8, (mk_buffer 1 8), 1. split; [vm_compute; reflexivity|]. split; [vm_compute; reflexivity|].
  split; [|split].
  - exists true. apply list_elem_of_In. cbn. tauto.
  - exists false. apply list_elem_of_In. cbn. tauto.
  - unfold apart. cbn. lia.
Qed.

(** ** Instances *)

Definition n_ex (s d : nat) : nat := if s =? d then 1 else s + d.
Definition y_ex (s d i : nat) : nat := 100 * s + 10 * d + i.

Lemma naive_alltoallv_correct_witness :
  implements Nat.add 4 3 (fun r => one_sched (ccl_coll_build_naive_alltoallv env_ex 4 3 r 1 (param 3 n_ex (send_ex r) (recv_ex r) r))) nx_ex
    (a2a_pre 4 3 n_ex y_ex send_ex recv_ex (fun _ _ => 0))
    (fun r m => forall b, b < 3 -> arr 4 m (recv_ex r +b roff n_ex r b * 4) (n_ex b r) (y_ex b r)).
Proof.
  apply (naive_alltoallv_correct Nat.add env_ex 4 3 n_ex y_ex nx_ex send_ex recv_ex); [lia|intros r _; cbn; lia|].
  intros s d _ _. unfold n_ex. destruct (Nat.eqb_spec s d), (Nat.eqb_spec d s); lia.
Defined.

Definition n_oneway (s d : nat) : nat := if (s =? 0) && (d =? 1) then 4 else 0.

Lemma naive_alltoallv_one_way_lost_witness :
  implements Nat.add 4 2 (fun r => one_sched (ccl_coll_build_naive_alltoallv env_ex 4 2 r 1 (param 2 n_oneway (send_ex r) (recv_ex r) r))) nx_ex
    (a2a_pre 4 2 n_oneway y_ex send_ex recv_ex (fun _ _ => 0))
    (fun r m => r = 1 -> arr 4 m (recv_ex 1 +b roff n_oneway 1 0 * 4) 4 (fun _ => 0)).
Proof.
  apply (naive_alltoallv_one_way_lost Nat.add env_ex 4 2 n_oneway y_ex nx_ex send_ex recv_ex (fun _ _ => 0) 0 1);
    [lia|intros r _; cbn; lia|lia|lia|lia|reflexivity].
Defined.

Lemma naive_alltoallv_inplace_correct_witness :
  implements Nat.add 4 3 (fun r => one_sched (ccl_coll_build_naive_alltoallv env_ex 4 3 r 1 (param 3 n_ex (send_ex r) (send_ex r) r))) nx_ex
    (fun r m => exists f, arr 4 m (send_ex r) (soff n_ex r 3) f /\
       forall b i, b < 3 -> i < n_ex r b -> f (soff n_ex r b + i) = y_ex r b i)
    (fun r m => forall b, b < 3 -> arr 4 m (send_ex r +b roff n_ex r b * 4) (n_ex b r) (y_ex b r)).
Proof.
  apply (naive_alltoallv_inplace_correct Nat.add env_ex 4 3 n_ex y_ex nx_ex send_ex); [lia|intros r _; unfold nx_ex; cbn; lia|].
  intros s d _ _. unfold n_ex. rewrite (Nat.eqb_sym d s). destruct (s =? d); lia.
Defined.
