(* ===== verification/AlltoallvParts.v ===== *)
(** The naive alltoallv over several schedules: [ccl_coll_build_naive_alltoallv] of [src/src/coll/algorithms/alltoallv.cpp], out of place, as the
    parallelizer calls it for its workers.

    The chunks of a block are spread over the schedules, beginning at the sum of the two ranks, so that sender and receiver put a chunk into the same
    schedule; the copy of the own block is in one of them.  The schedules of a rank run side by side in any way. *)

From S2P Require Import Prelude Sched Network Race Bsp Build Reduction Frame Par Parts ReduceScatter Allgatherv Chunked Alltoallv.
Open Scope nat_scope.
Open Scope ccl_scope.

(** * Vectors of schedules *)

Section vectors.
Context (K : nat) (nx : nat -> nat).

(** Schedules of one group each. *)
Definition vec (cur : nat -> list entry) : list ccl_sched := (fun k => st [] (cur k) (nx k) []) <$> seq 0 K.

Lemma vec_lookup cur k : k < K -> vec cur !! k = Some (st [] (cur k) (nx k) []).
Proof. intros Hk. unfold vec. by rewrite list_lookup_fmap, lookup_seq_lt. Qed.

Lemma vec_ext cur cur' : (forall k, k < K -> cur k = cur' k) -> vec cur = vec cur'.
Proof. intros H. apply list_fmap_ext. intros i k [-> Hi]%lookup_seq. by rewrite H. Qed.

Lemma on_vec i e cur : i < K -> on_sched i (add_entry e) (vec cur) = Ok (tt, vec (fun k => cur k ++ if i =? k then [e] else [])).
Proof.
  intros Hi. unfold on_sched. rewrite vec_lookup, add_entry_st by done. do 2 f_equal. apply list_eq. intros j. destruct (decide (j < K)) as [Hj|Hj].
  - rewrite vec_lookup by done. destruct (Nat.eqb_spec i j) as [->|Hne].
    + apply list_lookup_insert_eq. unfold vec. by rewrite length_fmap, length_seq.
    + rewrite list_lookup_insert_ne, vec_lookup, app_nil_r by done. done.
  - rewrite !lookup_ge_None_2; unfold vec; rewrite ?length_insert, ?length_fmap, ?length_seq; (done || lia).
Qed.

(** A loop that puts each entry into a schedule. *)
Lemma for_vec {A} (l : list A) (g : A -> nat) (f : A -> entry) cur : (forall a, g a < K) ->
  for_eachs l (fun a => on_sched (g a) (add_entry (f a))) (vec cur) = Ok (tt, vec (fun k => cur k ++ (l ≫= fun a => if g a =? k then [f a] else []))).
Proof.
  intros Hg. revert cur. induction l as [|a l IH]; intros cur; cbn [for_eachs].
  - unfold rets. do 2 f_equal. apply vec_ext. intros k _. cbn. by rewrite app_nil_r.
  - erewrite binds_Ok; [|by apply on_vec]. rewrite IH. do 2 f_equal. apply vec_ext. intros k _. cbn. by rewrite <- app_assoc.
Qed.
End vectors.

Lemma bind_nils {A B} (l : list A) : (l ≫= fun _ => ([] : list B)) = [].
Proof. by induction l. Qed.

(** * The entries of a schedule *)

Section parts.
Context {V : Type} (op : V -> V -> V) (env : ccl_env) (dsz P K : nat) (dsz_pos : 0 < dsz) (HK : 0 < K).
Context (n : nat -> nat -> nat) (y : nat -> nat -> nat -> V) (send recv : nat -> ccl_buffer).
Context (Hb : forall r, r < P -> buf_src (send r) <> 0 /\ buf_src (send r) <> buf_src (recv r)).
Abbreviation memory := (gmap (nat * nat) V).
Implicit Types m : memory.

(** Chunk [c] of the block from [s] to [d]. *)
Abbreviation cc s d := (entry_chunk_count env dsz (n s d)).
Abbreviation co s d c := (c * main_chunk_size env dsz (n s d)).
Abbreviation cl s d c := (chunk_size env dsz (n s d) c).
Definition here (k s d c : nat) : bool := (s + d + c) mod K =? k.
Definition sbuf (r b c : nat) : ccl_buffer := send r +b soff n r b * dsz +b co r b c * dsz.
Definition rbuf (r b c : nat) : ccl_buffer := recv r +b roff n r b * dsz +b co b r c * dsz.
Definition msg (s d c : nat) : list V := (fun i => y s d (co s d c + i)) <$> seq 0 (cl s d c).

(** Something for each chunk of a block that schedule [k] has. *)
Definition over {A} (k s d : nat) (f : nat -> A) : list A := seq 0 (cc s d) ≫= fun c => if here k s d c then [f c] else [].

Definition k_own (k r : nat) : list entry := if (2 * r) mod K =? k then a2a_own dsz n send recv r else [].
Definition k_recvs (k r b : nat) : list entry := over k b r (fun c => recv_entry (rbuf r b c) (cl b r c) b).
Definition k_sends (k r b : nat) : list entry := over k r b (fun c => send_entry (sbuf r b c) (cl r b c) b).
Definition k_peer (k r b : nat) : list entry := if act n r b then k_recvs k r b ++ k_sends k r b else [].
Definition k_group (k r : nat) : list entry := k_own k r ++ (seq 0 P ≫= k_peer k r).

Lemma elem_of_over {A} k s d (f : nat -> A) x : x ∈ over k s d f <-> exists c, c < cc s d /\ (s + d + c) mod K = k /\ x = f c.
Proof using.
  clear HK Hb dsz_pos. unfold over. rewrite list_elem_of_bind. split.
  - intros (c & Hx & Hc%elem_of_seq). unfold here in Hx. destruct (Nat.eqb_spec ((s + d + c) mod K) k) as [E|]; [|by apply not_elem_of_nil in Hx].
    apply list_elem_of_singleton in Hx. exists c. split; [lia|done].
  - intros (c & Hc & E & ->). exists c. split; [|apply elem_of_seq; lia]. unfold here. rewrite (proj2 (Nat.eqb_eq _ _) E). left.
Qed.

Lemma over_fmap {A B} k s d (f : nat -> A) (g : A -> B) : g <$> over k s d f = over k s d (fun c => g (f c)).
Proof using. unfold over. generalize (seq 0 (cc s d)). intros l. induction l as [|c l IH]; [done|]. cbn. rewrite fmap_app. destruct (here k s d c); cbn; by rewrite IH. Qed.

(** ** What the builder builds *)

Context (nx : nat -> nat -> nat).
Abbreviation vec r := (vec K (nx r)).

Lemma recvs_vec r b cur : make_chunked_recv_entries env dsz K ((r + b) mod K) (recv r +b roff n r b * dsz) (n b r) b (vec r cur) =
  Ok (tt, vec r (fun k => cur k ++ k_recvs k r b)).
Proof using HK dsz_pos.
  etransitivity; [apply (for_vec K (nx r) (chunk_plan env dsz (n b r)) (fun c => ((r + b) mod K + c.1.1) mod K) (fun c => recv_entry (recv r +b roff n r b * dsz +b c.1.2) c.2 b)); intros c; apply Nat.mod_upper_bound; lia|]. do 2 f_equal. apply vec_ext. intros k _.
  unfold chunk_plan. rewrite bind_fmap_list. cbn [fst snd]. f_equal. unfold k_recvs, over. apply list_bind_ext; [|done]. intros c. unfold here. rewrite Nat.Div0.add_mod_idemp_l, (Nat.add_comm r b).
  done.
Qed.
Lemma sends_vec r b cur : make_chunked_send_entries env dsz K ((r + b) mod K) (send r +b soff n r b * dsz) (n r b) b (vec r cur) =
  Ok (tt, vec r (fun k => cur k ++ k_sends k r b)).
Proof using HK dsz_pos.
  etransitivity; [apply (for_vec K (nx r) (chunk_plan env dsz (n r b)) (fun c => ((r + b) mod K + c.1.1) mod K) (fun c => send_entry (send r +b soff n r b * dsz +b c.1.2) c.2 b)); intros c; apply Nat.mod_upper_bound; lia|]. do 2 f_equal. apply vec_ext. intros k _.
  unfold chunk_plan. rewrite bind_fmap_list. cbn [fst snd]. f_equal. unfold k_sends, over. apply list_bind_ext; [|done]. intros c. unfold here. by rewrite Nat.Div0.add_mod_idemp_l.
Qed.

Lemma peer_vec r b cur : r < P -> b < P ->
  naive_alltoallv_peer env dsz r K (param P n (send r) (recv r) r) (counts_of dsz P n r) false b (vec r cur) = Ok (tt, vec r (fun k => cur k ++ k_peer k r b)).
Proof using HK dsz_pos.
  intros Hr Hlt. unfold naive_alltoallv_peer, k_peer, act. cbn [a2a_recv_counts a2a_send_counts counts_of]. rewrite (seq_total (fun s => n s r) P b Hlt), (seq_total (n r) P b Hlt).
  assert (Hnil : vec r cur = vec r (fun k => cur k ++ [])) by (apply vec_ext; intros; by rewrite app_nil_r).
  destruct (Nat.eqb_spec b r); cbn [negb andb]; [by rewrite <- Hnil|]. destruct (Nat.eqb_spec (n b r) 0), (Nat.eqb_spec (n r b) 0); cbn [negb andb orb]; try (by rewrite <- Hnil).
  rewrite !(proj2 (Nat.ltb_lt 0 _)) by lia. cbn [param send_buf recv_buf]. rewrite recv_offsets_eq, send_offsets_eq by lia.
  erewrite binds_Ok; [|erewrite binds_Ok; [|done]; erewrite binds_Ok; [|apply recvs_vec]; done]. erewrite binds_Ok; [|apply sends_vec]. cbn [andb]. unfold rets. do 2 f_equal.
  apply vec_ext. intros k _. by rewrite <- app_assoc.
Qed.

Lemma build_vec r : r < P ->
  ccl_coll_build_naive_alltoallv env dsz P r K (param P n (send r) (recv r) r) (vec r (fun _ => [])) = Ok (tt, vec r (fun k => k_group k r)).
Proof using HK Hb dsz_pos.
  intros Hr. unfold ccl_coll_build_naive_alltoallv. rewrite calculate_counts, (not_inplace P n send recv Hb) by done.
  cbn [total_send_count total_recv_count counts_of]. rewrite total_seq, (total_seq (fun s => n s r)). fold (soff n r P) (roff n r P).
  assert (Hloop : forall l cur, Forall (fun b => b < P) l ->
    for_eachs l (naive_alltoallv_peer env dsz r K (param P n (send r) (recv r) r) (counts_of dsz P n r) false) (vec r cur) = Ok (tt, vec r (fun k => cur k ++ (l ≫= k_peer k r)))).
  { induction l as [|b l IH]; intros cur Hl; cbn [for_eachs]; [unfold rets; do 2 f_equal; apply vec_ext; intros k _; cbn; by rewrite app_nil_r|]. apply Forall_cons in Hl as [Hlt Hl].
    erewrite binds_Ok; [|by apply peer_vec]. rewrite IH by done. do 2 f_equal. apply vec_ext. intros k _. cbn. by rewrite app_assoc. }
  destruct (Nat.eqb_spec (soff n r P + roff n r P) 0) as [Hz|Hz].
  - unfold rets. do 2 f_equal. apply vec_ext. intros k _. unfold k_group, k_own, a2a_own. pose proof (soff_bound P n r r Hr). replace (n r r) with 0 by lia. cbn [Nat.ltb Nat.leb].
    replace (if _ =? k then [] else []) with (@nil entry) by (by destruct (_ =? k)). cbn [app]. rewrite bind_seq_none; [done|]. intros b Hlt. pose proof (soff_bound P n r b ltac:(lia)).
    unfold k_peer, act. replace (n r b) with 0 by lia. by rewrite andb_false_r.
  - cbn [negb andb a2a_send_counts a2a_recv_counts counts_of]. rewrite (seq_total (n r) P r Hr), (seq_total (fun s => n s r) P r Hr), andb_diag. cbn [param send_buf recv_buf].
    rewrite send_offsets_eq, recv_offsets_eq by lia. unfold k_group, k_own, a2a_own. destruct (0 <? n r r).
    + erewrite binds_Ok; [|apply on_vec; apply Nat.mod_upper_bound; lia]. rewrite Hloop by (apply Forall_seq; lia). done.
    + erewrite binds_Ok; [|done]. rewrite Hloop by (apply Forall_seq; lia). do 2 f_equal. apply vec_ext. intros k _. by destruct (_ =? k).
Qed.

(** ** Regions *)

Lemma buffer_add_add (b : ccl_buffer) o o' : b +b o * dsz +b o' * dsz = b +b (o + o') * dsz.
Proof using. clear. destruct b. unfold buffer_add. cbn. f_equal. lia. Qed.

(** Chunks of a block on one side: [s] is true for what is sent. *)
Definition region_of (r : nat) (s : bool) (b o l : nat) : ccl_buffer * nat :=
  if s then (send r +b soff n r b * dsz +b o * dsz, l) else (recv r +b roff n r b * dsz +b o * dsz, l).
Definition block_of (r : nat) (s : bool) (b : nat) : nat := if s then n r b else n b r.

Lemma side_region_apart r s b o l s' b' o' l' : r < P -> o + l <= block_of r s b -> o' + l' <= block_of r s' b' ->
  s <> s' \/ b <> b' \/ o + l <= o' \/ o' + l' <= o -> apart dsz (region_of r s b o l) (region_of r s' b' o' l').
Proof using Hb dsz_pos.
  clear op y nx HK K. intros Hr Hl Hl' Hc. destruct (Bool.bool_dec s s') as [<-|Hs]; [|destruct (Hb r Hr), s, s'; try done; apply apart_src; cbn; congruence].
  unfold region_of, block_of in *. destruct s; rewrite !buffer_add_add; apply apart_sub.
  - destruct (lt_eq_lt_dec b b') as [[H|H]|H]; [pose proof (total_before (n r) b b' H)|subst b'|pose proof (total_before (n r) b' b H)]; unfold soff; intuition lia.
  - destruct (lt_eq_lt_dec b b') as [[H|H]|H]; [pose proof (total_before (fun x => n x r) b b' H)|subst b'|pose proof (total_before (fun x => n x r) b' b H)]; unfold roff; intuition lia.
Qed.

Definition own_of (r : nat) (s : bool) : ccl_buffer * nat := region_of r s r 0 (n r r).
Lemma own_of_eq r s : own_of r s = if s then (send r +b soff n r r * dsz, n r r) else (recv r +b roff n r r * dsz, n r r).
Proof using dsz_pos. unfold own_of, region_of. by rewrite !buffer_add_0. Qed.
Definition chunk_of (r : nat) (s : bool) (b c : nat) : ccl_buffer * nat :=
  if s then region_of r s b (co r b c) (cl r b c) else region_of r s b (co b r c) (cl b r c).
Definition chunks_of (r : nat) (s : bool) (b : nat) : nat := if s then cc r b else cc b r.

Lemma chunk_own_apart r s b c s' : r < P -> c < chunks_of r s b -> b <> r -> apart dsz (chunk_of r s b c) (own_of r s').
Proof using Hb dsz_pos.
  clear op y nx HK. intros Hr Hc Hne. unfold chunk_of, chunks_of, own_of in *. destruct s; (apply side_region_apart; [done| |by destruct s'|auto]); by apply chunk_le.
Qed.
Lemma chunks_apart r s b c s' b' c' : r < P -> c < chunks_of r s b -> c' < chunks_of r s' b' -> s <> s' \/ b <> b' \/ c <> c' -> apart dsz (chunk_of r s b c) (chunk_of r s' b' c').
Proof using Hb dsz_pos.
  clear op y nx HK. intros Hr Hc Hc' H. unfold chunk_of, chunks_of in *.
  destruct s, s'; (apply side_region_apart; [done|by apply chunk_le|by apply chunk_le|]); try (by left); (destruct (decide (b = b')) as [<-|]; [|auto]);
    (destruct (lt_eq_lt_dec c c') as [[Hlt|Heq]|Hlt]; [| |]); [right; right; left; by apply pieces_apart|tauto|right; right; right; by apply pieces_apart|
    right; right; left; by apply pieces_apart|tauto|right; right; right; by apply pieces_apart].
Qed.

(** What schedule [k] uses on rank [r]. *)
Definition regions (k r : nat) : list (ccl_buffer * nat) :=
  (if (2 * r) mod K =? k then [own_of r true; own_of r false] else []) ++
  (seq 0 P ≫= fun b => if act n r b then over k b r (chunk_of r false b) ++ over k r b (chunk_of r true b) else []).

Lemma elem_of_regions k r x : x ∈ regions k r <->
  ((2 * r) mod K = k /\ exists s, x = own_of r s) \/
  exists s b c, b < P /\ act n r b = true /\ c < chunks_of r s b /\ (r + b + c) mod K = k /\ x = chunk_of r s b c.
Proof using.
  clear op y nx HK Hb dsz_pos. unfold regions. rewrite elem_of_app, list_elem_of_bind. split.
  - intros [Hx|(b & Hx & Hlt%elem_of_seq)].
    + left. destruct (Nat.eqb_spec ((2 * r) mod K) k); [|by apply not_elem_of_nil in Hx]. split; [done|]. apply elem_of_cons in Hx as [->|Hx%list_elem_of_singleton]; eauto.
    + right. destruct (act n r b) eqn:Ea; [|by apply not_elem_of_nil in Hx]. apply elem_of_app in Hx as [(c & Hc & E & ->)%elem_of_over|(c & Hc & E & ->)%elem_of_over];
        [exists false, b, c; rewrite (Nat.add_comm r b)|exists true, b, c]; (split; [lia|done]).
  - intros [(<- & s & ->)|(s & b & c & Hlt & Ha & Hc & E & ->)].
    + left. rewrite Nat.eqb_refl. destruct s; [left|right; left].
    + right. exists b. rewrite Ha. split; [|apply elem_of_seq; lia]. apply elem_of_app. rewrite !elem_of_over. destruct s; [right|left; rewrite (Nat.add_comm r b) in E]; exists c; done.
Qed.

Lemma sched_regions_apart k j r : k <> j -> r < P -> all_apart dsz (regions k r) (regions j r).
Proof using Hb dsz_pos.
  clear op y nx HK. intros Hne Hr x x' [(<- & s & ->)|(s & b & c & Hlt & Ha & Hc & E & ->)]%elem_of_regions [(E' & s' & ->)|(s' & b' & c' & Hlt' & Ha' & Hc' & E' & ->)]%elem_of_regions; [done| | |].
  - apply (act_pos dsz dsz_pos) in Ha' as [Hn _]. by apply apart_sym, chunk_own_apart.
  - apply (act_pos dsz dsz_pos) in Ha as [Hn _]. by apply chunk_own_apart.
  - apply chunks_apart; try done. destruct (decide (b = b')) as [<-|]; [|auto]. destruct (decide (c = c')) as [<-|]; [congruence|auto].
Qed.

Lemma k_group_ok k r : r < P -> group_ok dsz (k_group k r).
Proof using Hb dsz_pos HK.
  clear op y nx. intros Hr. apply group_ok_app.
  - unfold k_own, a2a_own. repeat case_match; group_races.
  - apply group_ok_loop.
    + intros b Hlt. unfold k_peer. destruct (act n r b); [|done]. apply group_ok_app.
      * apply group_ok_loop; [intros c _; case_match; group_races|]. intros c c' e e' Hcc Hc' He He' _. repeat case_match; try (by apply not_elem_of_nil in He); try (by apply not_elem_of_nil in He').
        apply list_elem_of_singleton in He as ->, He' as ->. race_cases; first [apply (chunks_apart r false b c false b c')|apply (chunks_apart r false b c' false b c)]; cbn; auto with lia.
      * apply group_ok_loop; [intros c _; case_match; group_races|]. intros c c' e e' Hcc Hc' He He' _. repeat case_match; try (by apply not_elem_of_nil in He); try (by apply not_elem_of_nil in He').
        apply list_elem_of_singleton in He as ->, He' as ->. race_cases.
      * apply Forall_forall. intros e (c & Hc & _ & ->)%elem_of_over _. apply Forall_forall. intros e' (c' & Hc' & _ & ->)%elem_of_over.
        race_cases; first [apply (chunks_apart r false b c true b c')|apply (chunks_apart r true b c' false b c)]; cbn; auto.
    + intros b b' e e' Hbb Hb' He He' _. unfold k_peer in *. destruct (act n r b), (act n r b'); try (by apply not_elem_of_nil in He); try (by apply not_elem_of_nil in He').
      apply elem_of_app in He as [(c & Hc & _ & ->)%elem_of_over|(c & Hc & _ & ->)%elem_of_over]; apply elem_of_app in He' as [(c' & Hc' & _ & ->)%elem_of_over|(c' & Hc' & _ & ->)%elem_of_over];
        race_cases; first [apply (chunks_apart r false b c false b' c')|apply (chunks_apart r false b' c' false b c)|apply (chunks_apart r false b c true b' c')|
          apply (chunks_apart r false b' c' true b c)|apply (chunks_apart r true b c false b' c')|apply (chunks_apart r true b' c' false b c)]; cbn; auto with lia.
  - unfold k_own, a2a_own. repeat case_match; repeat constructor; done.
Qed.

(** ** What a schedule does *)

Definition holds (m : memory) (x : ccl_buffer * nat) (f : nat -> V) : Prop := arr dsz m x.1 x.2 f.

(** What schedule [k] starts from and ends with on rank [r]. *)
Definition k_pre (k r : nat) m : Prop :=
  ((2 * r) mod K = k -> holds m (own_of r true) (y r r) /\ exists g, holds m (own_of r false) g) /\
  forall b, b < P -> act n r b = true ->
    (forall c, c < cc r b -> (r + b + c) mod K = k -> holds m (chunk_of r true b c) (fun i => y r b (co r b c + i))) /\
    (forall c, c < cc b r -> (b + r + c) mod K = k -> exists g, holds m (chunk_of r false b c) g).
Definition k_post (k r : nat) m : Prop :=
  ((2 * r) mod K = k -> holds m (own_of r false) (y r r)) /\
  forall b c, b < P -> act n r b = true -> c < cc b r -> (b + r + c) mod K = k -> holds m (chunk_of r false b c) (fun i => y b r (co b r c + i)).

Lemma k_own_run k r m : r < P -> k_pre k r m -> exists m1, start_group op dsz (k_own k r) m = Some (m1, []) /\ k_pre k r m1 /\
  ((2 * r) mod K = k -> holds m1 (own_of r false) (y r r)).
Proof using Hb dsz_pos.
  clear HK nx. intros Hr Hpre. pose proof Hpre as [Hown Hpeer]. unfold k_own. destruct (Nat.eqb_spec ((2 * r) mod K) k) as [E|E]; [|by exists m].
  destruct (Hown E) as [Hs [g Hg]]. unfold a2a_own. destruct (Nat.ltb_spec 0 (n r r)) as [Hn|Hn]; [|exists m; split; [done|]; split; [done|]; intros _ i Hi; cbn in Hi; lia].
  destruct (copy_arr dsz dsz_pos m (send r +b soff n r r * dsz) (y r r) (recv r +b roff n r r * dsz) g (n r r)) as (m1 & Hm & A & _).
  { unfold holds in Hs. by rewrite own_of_eq in Hs. }
  { unfold holds in Hg. by rewrite own_of_eq in Hg. }
  assert (Hst : start_entry op dsz (copy_entry (send r +b soff n r r * dsz) (recv r +b roff n r r * dsz) (n r r)) m = Some (m1, None)) by (cbn; by rewrite Hm).
  assert (Hkeep : forall x f, apart dsz (own_of r false) x -> holds m x f -> holds m1 x f).
  { intros [b l] f Ha. eapply start_arr; [done|exact Hst|]. apply all_apart_one. by rewrite own_of_eq in Ha. }
  assert (Hdone : holds m1 (own_of r false) (y r r)) by (unfold holds; by rewrite own_of_eq).
  exists m1. split; [cbn; by rewrite Hm|]. split; [|done]. split.
  - intros _. split; [|eauto]. apply Hkeep; [|done]. apply side_region_apart; [done|done|done|by left].
  - intros b Hlt Ha. destruct (Hpeer b Hlt Ha) as [H1 H2]. apply (act_pos dsz dsz_pos) in Ha as [Hne _]. split.
    + intros c Hc Ek. apply Hkeep; [|by apply H1]. by apply apart_sym, (chunk_own_apart r true b c).
    + intros c Hc Ek. destruct (H2 c Hc Ek) as [h Hh]. exists h. apply Hkeep; [|done]. by apply apart_sym, (chunk_own_apart r false b c).
Qed.

(** Messages into separate regions. *)
Lemma complete_all {A} (l : list A) (x : A -> ccl_buffer * nat) (src : A -> nat) (g : A -> nat -> V) m : NoDup l ->
  (forall a a', a ∈ l -> a' ∈ l -> a <> a' -> apart dsz (x a) (x a')) -> (forall a, a ∈ l -> exists f, holds m (x a) f) ->
  exists m', complete_group op dsz ((fun a => (recv_entry (x a).1 (x a).2 (src a), g a <$> seq 0 (x a).2)) <$> l) m = Some m' /\
    (forall a, a ∈ l -> holds m' (x a) (g a)) /\ forall z f, (forall a, a ∈ l -> apart dsz (x a) z) -> holds m z f -> holds m' z f.
Proof using dsz_pos.
  intros Hnd. revert m. induction Hnd as [|a l Ha Hnd IH]; intros m Hap Hex; [exists m; split; [done|]; split; [|done]; by intros a ?%not_elem_of_nil|].
  destruct (Hex a) as [f Hf]; [left|]. destruct (recv_arr op dsz dsz_pos m (x a).1 f (x a).2 (src a) (g a) Hf) as (m1 & Hm1 & A1).
  assert (Hkeep : forall z h, apart dsz (x a) z -> holds m z h -> holds m1 z h).
  { intros [b n'] h Haz. eapply complete_arr; [done|exact Hm1|]. apply all_apart_one. cbn. by destruct (x a). }
  assert (Hne : forall a', a' ∈ l -> a <> a') by (intros a' Ha' ->; done).
  destruct (IH m1) as (m2 & Hm2 & H1 & H2).
  - intros a1 a2 H1 H2. apply Hap; by right.
  - intros a' Ha'. destruct (Hex a') as [h Hh]; [by right|]. exists h. apply Hkeep; [|done]. apply Hap; [left|by right|by apply Hne].
  - exists m2. split; [rewrite fmap_cons; cbn [complete_group]; by rewrite Hm1|]. split.
    + intros a' [->|Ha']%elem_of_cons; [|by apply H1]. apply H2; [|exact A1]. intros a'' Ha''. apply Hap; [by right|left|]. by apply not_eq_sym, Hne.
    + intros z h Hz Hh. apply H2; [intros a' Ha'; apply Hz; by right|]. apply Hkeep; [|done]. apply Hz. left.
Qed.

Definition k_outs (k r : nat) : list (nat * list V) := seq 0 P ≫= fun b => if act n r b then over k r b (fun c => (b, msg r b c)) else [].
Definition k_list (k r : nat) : list (nat * nat) := seq 0 P ≫= fun b => if act n r b then over k b r (fun c => (b, c)) else [].
Definition k_recv (r : nat) (p : nat * nat) : entry * list V := (recv_entry (rbuf r p.1 p.2) (cl p.1 r p.2) p.1, msg p.1 r p.2).

Lemma elem_of_k_list k r b c : (b, c) ∈ k_list k r <-> b < P /\ act n r b = true /\ c < cc b r /\ (b + r + c) mod K = k.
Proof using.
  clear HK Hb dsz_pos nx. unfold k_list. rewrite list_elem_of_bind. split.
  - intros (b' & Hx & Hlt%elem_of_seq). destruct (act n r b') eqn:E; [|by apply not_elem_of_nil in Hx]. apply elem_of_over in Hx as (c' & Hc & Ek & [= -> ->]). split; [lia|done].
  - intros (Hlt & Ha & Hc & E). exists b. rewrite Ha. split; [|apply elem_of_seq; lia]. apply elem_of_over. by exists c.
Qed.
Lemma over_nodup {A} k s d (f : nat -> A) : (forall c c', f c = f c' -> c = c') -> NoDup (over k s d f).
Proof using.
  intros Hf. apply NoDup_bind; [|intros c _; destruct (here _ _ _ _); [apply NoDup_singleton|apply NoDup_nil_2]|apply NoDup_seq].
  intros c c' x _ _ H H'. destruct (here k s d c), (here k s d c'); try (by apply not_elem_of_nil in H); try (by apply not_elem_of_nil in H').
  apply list_elem_of_singleton in H, H'. apply Hf. congruence.
Qed.
Lemma k_list_nodup k r : NoDup (k_list k r).
Proof using.
  apply NoDup_bind; [|intros b _; destruct (act n r b); [apply over_nodup; by intros ? ? [=]|apply NoDup_nil_2]|apply NoDup_seq].
  intros b b' x _ _ H H'. destruct (act n r b), (act n r b'); try (by apply not_elem_of_nil in H); try (by apply not_elem_of_nil in H').
  apply elem_of_over in H as (c & _ & _ & ->), H' as (c' & _ & _ & [= ? _]). done.
Qed.

Lemma fmap_binds {A B D} (g : B -> D) (l : list A) (f : A -> list B) : g <$> (l ≫= f) = l ≫= fun a => g <$> f a.
Proof using. induction l as [|a l IH]; [done|]. cbn. by rewrite fmap_app, IH. Qed.

Lemma k_recv_bind k r : k_recv r <$> k_list k r = seq 0 P ≫= fun b => if act n r b then over k b r (fun c => k_recv r (b, c)) else [].
Proof using. unfold k_list. rewrite fmap_binds. apply list_bind_ext; [|done]. intros b. destruct (act n r b); [apply over_fmap|done]. Qed.

Lemma recvs_over k s d (f : nat -> entry) : (forall c, is_Some (recv_from (f c))) -> recvs (over k s d f) = over k s d f.
Proof using. intros H. unfold over. rewrite recvs_bind. apply list_bind_ext; [|done]. intros c. destruct (here _ _ _ _); [|done]. by rewrite filter_cons_True. Qed.
Lemma recvs_over_none k s d (f : nat -> entry) : (forall c, recv_from (f c) = None) -> recvs (over k s d f) = [].
Proof using.
  intros H. unfold over. rewrite recvs_bind. etransitivity; [|apply (bind_nils (seq 0 (cc s d)))]. apply list_bind_ext; [|done]. intros c. destruct (here _ _ _ _); [|done].
  rewrite filter_cons_False; [done|]. rewrite H. by intros [? ?].
Qed.

Lemma k_recvs_eq k r : recvs (k_group k r) = (k_recv r <$> k_list k r).*1.
Proof using.
  rewrite k_recv_bind, fst_bind. unfold k_group. rewrite filter_app, recvs_bind. replace (recvs (k_own k r)) with (@nil entry) by (unfold k_own, a2a_own; by repeat case_match). cbn [app].
  apply list_bind_ext; [|done]. intros b. unfold k_peer. destruct (act n r b); [|done]. rewrite filter_app, over_fmap. unfold k_recvs, k_sends.
  rewrite recvs_over, recvs_over_none, app_nil_r by done. done.
Qed.

Lemma msgs_to_over k s b d : msgs_to d (over k s b (fun c => (b, msg s b c))) = if decide (b = d) then over k s b (msg s b) else [].
Proof using.
  unfold over. rewrite msgs_to_bind. case_decide as E.
  - apply list_bind_ext; [|done]. intros c. destruct (here _ _ _ _); [|done]. unfold msgs_to. by rewrite filter_cons_True.
  - etransitivity; [|apply (bind_nils (seq 0 (cc s b)))]. apply list_bind_ext; [|done]. intros c. destruct (here _ _ _ _); [|done]. unfold msgs_to. by rewrite filter_cons_False.
Qed.
Lemma msgs_from_over k b r s : msgs_from s (over k b r (fun c => k_recv r (b, c))) = if decide (b = s) then over k b r (msg b r) else [].
Proof using.
  unfold over. rewrite msgs_from_bind. case_decide as E.
  - apply list_bind_ext; [|done]. intros c. destruct (here _ _ _ _); [|done]. unfold msgs_from. rewrite filter_cons_True; [done|]. cbn. by rewrite E.
  - etransitivity; [|apply (bind_nils (seq 0 (cc b r)))]. apply list_bind_ext; [|done]. intros c. destruct (here _ _ _ _); [|done]. unfold msgs_from. rewrite filter_cons_False; [done|]. cbn. congruence.
Qed.

Lemma k_balance k s d : s < P -> d < P -> msgs_to d (k_outs k s) = msgs_from s (k_recv d <$> k_list k d).
Proof using.
  clear HK Hb dsz_pos nx. intros Hs Hd. rewrite k_recv_bind. unfold k_outs. rewrite msgs_to_bind, msgs_from_bind. rewrite (bind_seq_one 0 P _ d), (bind_seq_one 0 P _ s); [|lia| |lia|].
  - rewrite (act_sym n d s). destruct (act n s d); [|done]. by rewrite msgs_to_over, msgs_from_over, !decide_True.
  - intros b _ Hne. destruct (act n d b); [|done]. by rewrite msgs_from_over, decide_False.
  - intros b _ Hne. destruct (act n s b); [|done]. by rewrite msgs_to_over, decide_False.
Qed.

Lemma k_peers_start k r m : r < P -> k_pre k r m -> start_group op dsz (seq 0 P ≫= k_peer k r) m = Some (m, k_outs k r).
Proof using dsz_pos.
  clear HK nx. intros Hr [_ Hpre]. apply start_group_bind. intros b Hlt%elem_of_seq. unfold k_peer. destruct (act n r b) eqn:Ea; [|done]. destruct (Hpre b ltac:(lia) Ea) as [Hs _].
  eapply (start_group_app _ _ _ _ _ _ _ []).
  - rewrite <- (bind_nils (seq 0 (cc b r))). apply start_group_bind. intros c _. by destruct (here k b r c).
  - apply start_group_bind. intros c Hc%elem_of_seq. destruct (here k r b c) eqn:Eh; [|done]. apply Nat.eqb_eq in Eh. cbn.
    pose proof (arr_read dsz _ _ _ _ (Hs c ltac:(lia) Eh)) as Hread. cbn in Hread. unfold sbuf. rewrite Hread. done.
Qed.

Lemma k_complete k r m : r < P -> k_pre k r m -> ((2 * r) mod K = k -> holds m (own_of r false) (y r r)) ->
  exists m', complete_group op dsz (k_recv r <$> k_list k r) m = Some m' /\ k_post k r m'.
Proof using Hb dsz_pos.
  clear HK nx. intros Hr [_ Hpre] Hown. destruct (complete_all (k_list k r) (fun p => chunk_of r false p.1 p.2) (fun p => p.1) (fun p i => y p.1 r (co p.1 r p.2 + i)) m) as (m' & Hm & H1 & H2).
  - apply k_list_nodup.
  - intros [b c] [b' c'] (_ & _ & Hc & _)%elem_of_k_list (_ & _ & Hc' & _)%elem_of_k_list Hne. apply chunks_apart; [done|exact Hc|exact Hc'|]. cbn.
    destruct (decide (b = b')) as [->|]; [|auto]. destruct (decide (c = c')) as [->|]; [done|auto].
  - intros [b c] (Hlt & Ha & Hc & E)%elem_of_k_list. by apply Hpre.
  - exists m'. split; [exact Hm|]. split.
    + intros E. apply H2; [|by apply Hown]. intros [b c] (_ & Ha & Hc & _)%elem_of_k_list. apply (act_pos dsz dsz_pos) in Ha as [Hne _]. by apply (chunk_own_apart r false b c).
    + intros b c Hlt Ha Hc E. apply (H1 (b, c)), elem_of_k_list. done.
Qed.

Lemma k_step k ms : (forall r, r < P -> k_pre k r (ms r)) -> steps op dsz P (k_group k) ms (k_post k).
Proof using HK Hb dsz_pos.
  intros Hms. apply (matched_step op dsz P _ ms _ (k_outs k) (fun r => k_recv r <$> k_list k r)).
  - intros r Hr. destruct (k_own_run k r (ms r) Hr (Hms r Hr)) as (m1 & Hst & Hp & Ho). destruct (k_complete k r m1 Hr Hp Ho) as (m2 & Hc & Hpost). exists m1, m2.
    split; [|split; [by rewrite k_recvs_eq|done]]. eapply (start_group_app _ _ _ _ _ _ _ []); [exact Hst|by apply k_peers_start].
  - intros r d Hr Hd. apply list_elem_of_fmap in Hd as ([d' v] & -> & (b & Hin & Hlt%elem_of_seq)%list_elem_of_bind). destruct (act n r b); [|by apply not_elem_of_nil in Hin].
    apply elem_of_over in Hin as (c & _ & _ & [= -> _]). cbn. lia.
  - intros r e s Hr He Hs. apply list_elem_of_fmap in He as (p & -> & ([b c] & -> & (Hlt & _)%elem_of_k_list)%list_elem_of_fmap). injection Hs as <-. exact Hlt.
  - intros s d. apply k_balance.
Qed.

Lemma k_collective k ms : (forall r, r < P -> k_pre k r (ms r)) -> collective op dsz P (fun r => entries (st [] (k_group k r) (nx r k) [])) ms (k_post k).
Proof using HK Hb dsz_pos.
  intros Hms. destruct (implements_intro op dsz P (fun r _ => Ok (tt, st [] (k_group k r) (nx r k) [])) (fun _ => 0) (k_pre k) (k_post k) [] (k_group k) (fun r => nx r k) (fun _ => []))
    as (scheds & H1 & H2); [done|done| | |].
  - intros r Hr. split; [constructor|by apply k_group_ok].
  - intros ms' Hms'. apply runs_one, k_step. intros r Hr. by apply Hms'.
  - eapply collective_ext; [|apply (H2 ms)].
    + intros r Hr. specialize (H1 r Hr). injection H1 as E. cbn beta. by rewrite <- E.
    + intros r Hr. split; [by apply Hms|]. specialize (H1 r Hr). injection H1 as E. rewrite <- E. constructor.
Qed.

(** ** All schedules *)

(** Every element of a block is in a chunk. *)
Lemma block_chunk_cover cnt i : i < cnt -> exists c, c < entry_chunk_count env dsz cnt /\
  c * main_chunk_size env dsz cnt <= i < c * main_chunk_size env dsz cnt + chunk_size env dsz cnt c.
Proof using.
  clear. intros Hi. pose proof (chunks_pos env dsz cnt) as Hk. set (k := entry_chunk_count env dsz cnt) in *. set (q := main_chunk_size env dsz cnt).
  destruct (decide ((k - 1) * q <= i)) as [Hl|Hl].
  - exists (k - 1). pose proof (chunk_ends env dsz cnt (k - 1) ltac:(lia)) as He. fold k q in He. rewrite (proj2 (Nat.eqb_eq (S (k - 1)) k)) in He by lia. lia.
  - assert (q <> 0) as Hq by nia. exists (i / q). pose proof (Nat.div_mod_eq i q). pose proof (Nat.mod_upper_bound i q Hq).
    assert (i / q < k - 1) as Hlt by (apply Nat.Div0.div_lt_upper_bound; nia). split; [lia|]. pose proof (chunk_ends env dsz cnt (i / q) ltac:(lia)) as He. fold k q in He.
    rewrite (proj2 (Nat.eqb_neq (S (i / q)) k)) in He by lia. nia.
Qed.

Lemma pre_parts k r (z : nat -> nat -> V) m : r < P -> a2a_pre dsz P n y send recv z r m -> k_pre k r m.
Proof using dsz_pos.
  clear HK nx Hb. intros Hr [Hs Hz].
  assert (Hrecv : forall b o l, b < P -> o + l <= n b r -> exists g, holds m (region_of r false b o l) g).
  { intros b o l Hlt Hol. pose proof (roff_bound P n r b Hlt). unfold holds, region_of. cbn. rewrite buffer_add_add. eexists. eapply arr_sub; [exact dsz_pos|exact Hz|lia]. }
  split.
  - intros _. split; [|by apply Hrecv]. unfold holds. rewrite own_of_eq. by apply Hs.
  - intros b Hlt _. split; intros c Hc _.
    + eapply arr_sub; [exact dsz_pos|by apply Hs|]. by apply chunk_le.
    + apply Hrecv; [done|]. by apply chunk_le.
Qed.

Lemma k_pre_restrict k r m : r < P -> k_pre k r m -> k_pre k r (restrict dsz (regions k r) m).
Proof using dsz_pos.
  clear HK nx Hb. intros Hr [H1 H2]. assert (Hin : forall x f, x ∈ regions k r -> holds m x f -> holds (restrict dsz (regions k r) m) x f).
  { intros [b l] f Hx. by apply restrict_arr. }
  split.
  - intros E. destruct (H1 E) as [Hs [g Hg]]. split; [|exists g]; (apply Hin; [|done]); apply elem_of_regions; left; eauto.
  - intros b Hlt Ha. destruct (H2 b Hlt Ha) as [H3 H4]. split; intros c Hc E.
    + apply Hin; [|by apply H3]. apply elem_of_regions. right. by exists true, b, c.
    + destruct (H4 c Hc E) as [g Hg]. exists g. apply Hin; [|done]. apply elem_of_regions. right. exists false, b, c. rewrite (Nat.add_comm r b). done.
Qed.

(** The blocks that the schedules have filled together. *)
Lemma post_parts r m : r < P -> (forall s d, s < P -> d < P -> n s d = 0 -> n d s = 0) -> (forall k, k < K -> exists m0, m0 ⊆ m /\ k_post k r m0) ->
  forall b, b < P -> arr dsz m (recv r +b roff n r b * dsz) (n b r) (y b r).
Proof using HK dsz_pos.
  clear Hb nx. intros Hr Hsym H b Hlt i Hi. destruct (decide (b = r)) as [->|Hne].
  - destruct (H ((2 * r) mod K)) as (m0 & Hm0 & Hown & _); [apply Nat.mod_upper_bound; lia|]. specialize (Hown eq_refl). unfold holds in Hown. rewrite own_of_eq in Hown.
    exact (arr_larger dsz _ _ _ _ _ Hm0 Hown i Hi).
  - destruct (block_chunk_cover (n b r) i Hi) as (c & Hc & Hci). destruct (H ((b + r + c) mod K)) as (m0 & Hm0 & _ & Hpost); [apply Nat.mod_upper_bound; lia|].
    assert (Ha : act n r b = true). { unfold act. pose proof (Hsym r b Hr Hlt). rewrite !(proj2 (Nat.eqb_neq _ _)); [done|lia..]. }
    pose proof (arr_larger dsz _ _ _ _ _ Hm0 (Hpost b c Hlt Ha Hc eq_refl) (i - co b r c) ltac:(cbn; lia)) as Hv. cbn in Hv. rewrite cell_add in Hv.
    replace (co b r c + (i - co b r c)) with i in Hv by lia. exact Hv.
Qed.

Lemma a2a_parts (z : nat -> nat -> V) ms : (forall s d, s < P -> d < P -> n s d = 0 -> n d s = 0) -> (forall r, r < P -> a2a_pre dsz P n y send recv z r (ms r)) ->
  par_collective op dsz P K (fun _ => []) (fun k r => part_prog (vec r (fun k => k_group k r)) k) ms
    (fun r m => forall b, b < P -> arr dsz m (recv r +b roff n r b * dsz) (n b r) (y b r)).
Proof using HK Hb dsz_pos.
  intros Hsym Hms. eapply par_weaken; [|apply (par_frame op dsz P K (fun _ => []) (fun k r => part_prog (vec r (fun k => k_group k r)) k) ms ms
    (fun k r => restrict dsz (regions k r) (ms r)) k_post)].
  - intros r m Hr [Hp _]. by apply post_parts.
  - intros r Hr. by split.
  - intros k r Hk Hr. apply restrict_sub.
  - intros k j r Hk Hj Hne Hr. apply restrict_disjoint; [done|]. by apply sched_regions_apart.
  - intros k Hk. eapply collective_ext; [|apply (k_collective k)].
    + intros r Hr. unfold part_prog. by rewrite vec_lookup.
    + intros r Hr. apply k_pre_restrict; [done|]. eapply pre_parts; [done|by apply Hms].
Qed.
End parts.

(** * Claim *)

(** The schedules of a rank, one per worker, as the builder fills them; the parallelizer makes them empty. *)
Definition alltoallv_schedules (env : ccl_env) (dsz comm_size comm_rank sched_count : nat) (p : ccl_coll_param) (nx : nat -> nat) : result (list ccl_sched) :=
  r <-! ccl_coll_build_naive_alltoallv env dsz comm_size comm_rank sched_count p ((fun k => empty_sched (nx k)) <$> seq 0 sched_count) ;; Ok r.2.

(** C13: The naive alltoallv out of place over any number of schedules, with any chunking, as the parallelizer builds it for its workers: the builder succeeds on every rank; when
    two ranks either both send to each other or neither does, every interleaving of the schedules of all ranks ends without deadlock, and then block [b] of every rank's
    receive buffer holds what rank [b] has for it. *)
Theorem naive_alltoallv_scheds_correct {V} (op : V -> V -> V) (env : ccl_env) (dsz P sched_count : nat) (n : nat -> nat -> nat) (y : nat -> nat -> nat -> V)
    (send recv : nat -> ccl_buffer) (z : nat -> nat -> V) (nx : nat -> nat -> nat) :
  0 < dsz -> 0 < sched_count -> (forall r, r < P -> buf_src (send r) <> 0 /\ buf_src (send r) <> buf_src (recv r)) ->
  (forall s d, s < P -> d < P -> n s d = 0 -> n d s = 0) ->
  exists scheds : nat -> list ccl_sched,
    (forall r, r < P -> alltoallv_schedules env dsz P r sched_count (param P n (send r) (recv r) r) (nx r) = Ok (scheds r)) /\
    forall ms : nat -> gmap (nat * nat) V, (forall r, r < P -> a2a_pre dsz P n y send recv z r (ms r)) ->
      par_collective op dsz P sched_count (fun _ => []) (fun k r => part_prog (scheds r) k) ms
        (fun r m => forall b, b < P -> arr dsz m (recv r +b roff n r b * dsz) (n b r) (y b r)).
Proof.
  intros Hd HK Hb Hsym. exists (fun r => vec sched_count (nx r) (fun k => k_group env dsz P sched_count n send recv k r)). split.
  - intros r Hr. unfold alltoallv_schedules. pose proof (build_vec env dsz P sched_count Hd HK n send recv Hb nx r Hr) as E. unfold vec in E at 1.
    change (fun k => st [] [] (nx r k) []) with (fun k => empty_sched (nx r k)) in E. by rewrite E.
  - intros ms Hms. by eapply a2a_parts.
Qed.

(** Three ranks and two schedules. *)
Lemma naive_alltoallv_scheds_correct_witness :
  exists scheds : nat -> list ccl_sched,
    (forall r, r < 3 -> alltoallv_schedules env_ex 4 3 r 2 (param 3 n_ex (send_ex r) (recv_ex r) r) (fun k => 10 + k) = Ok (scheds r)) /\
    forall ms : nat -> gmap (nat * nat) nat, (forall r, r < 3 -> a2a_pre 4 3 n_ex y_ex send_ex recv_ex (fun _ _ => 0) r (ms r)) ->
      par_collective Nat.add 4 3 2 (fun _ => []) (fun k r => part_prog (scheds r) k) ms
        (fun r m => forall b, b < 3 -> arr 4 m (recv_ex r +b roff n_ex r b * 4) (n_ex b r) (y_ex b r)).
Proof.
  apply (naive_alltoallv_scheds_correct Nat.add env_ex 4 3 2 n_ex y_ex send_ex recv_ex (fun _ _ => 0) (fun _ k => 10 + k)); [lia|lia|intros r _; cbn; lia|].
  intros s d _ _. unfold n_ex. destruct (Nat.eqb_spec s d), (Nat.eqb_spec d s); lia.
Defined.
