(* ===== verification/Barrier.v ===== *)
(** The dissemination barrier of [src/src/coll/algorithms/barrier/barrier.cpp]. *)

From S2P Require Import Prelude Sched Network Race Bsp Build Reduction.
From stdpp Require Import relations.
Open Scope ccl_scope.

(** [while (mask < size)] *)
Fixpoint barrier_loop (fuel size rank mask : nat) : build unit :=
  match fuel with
  | O => throw
  | S fuel' =>
    if mask <? size then
      let dst := (rank + mask) mod size in
      let src := (rank + size - mask) mod size in
      create_send null_buffer 0 dst ;;;
      create_recv null_buffer 0 src ;;;
      add_barrier ;;;
      barrier_loop fuel' size rank (mask * 2)
    else ret tt
  end.

Definition ccl_coll_build_dissemination_barrier (size rank : nat) : build unit :=
  if size =? 1 then ret tt else barrier_loop (S size) size rank 1.

Section barrier.
Context {V : Type} (op : V -> V -> V) (P : nat) (HP : 0 < P).

(** * The rounds *)

Definition to (r k : nat) : nat := (r + 2 ^ k) mod P.
Definition from (r k : nat) : nat := (r + P - 2 ^ k) mod P.
Definition round (k r : nat) : list entry := [send_entry null_buffer 0 (to r k); recv_entry null_buffer 0 (from r k)].

(** The number of rounds: the masks below [P]. *)
Definition rounds : nat := Nat.log2_up P.

Lemma rounds_spec k : k < rounds <-> 2 ^ k < P.
Proof.
  unfold rounds. split; intros H.
  - destruct (decide (2 ^ k < P)) as [|Hn]; [done|]. exfalso.
    assert (Nat.log2_up P <= k); [|lia]. apply Nat.log2_up_le_pow2; lia.
  - destruct (decide (k < Nat.log2_up P)) as [|Hn]; [done|]. exfalso.
    assert (P <= 2 ^ k); [|lia]. apply Nat.log2_up_le_pow2; lia.
Qed.

Lemma barrier_loop_st r gs nx al : forall fuel k, P < 2 ^ k + fuel -> 0 < fuel -> k <= rounds ->
  barrier_loop fuel P r (2 ^ k) (st gs [] nx al) =
  Ok (tt, st (gs ++ ((fun k => round k r) <$> seq k (rounds - k))) [] nx al).
Proof.
  intros fuel. revert gs. induction fuel as [|fuel IH]; intros gs k Hf Hf0 Hk; [lia|]. cbn [barrier_loop].
  pose proof (Nat.pow_nonzero 2 k ltac:(lia)). pose proof (rounds_spec k) as Hr. destruct (Nat.ltb_spec (2 ^ k) P) as [Hlt|Hge].
  - replace (2 ^ k * 2) with (2 ^ S k) by (cbn; lia). build_simp. rewrite IH; [|cbn; lia|lia|apply Hr in Hlt; lia].
    apply Hr in Hlt. replace (rounds - k) with (S (rounds - S k)) by lia. cbn [seq fmap list_fmap]. by rewrite <- app_assoc.
  - replace (rounds - k) with 0 by lia. cbn. by rewrite app_nil_r.
Qed.

Definition barrier_groups : list (nat -> list entry) := round <$> seq 0 rounds.

Lemma barrier_st r nx : ccl_coll_build_dissemination_barrier P r (st [] [] nx []) = Ok (tt, st (at_rank r barrier_groups) [] nx []).
Proof.
  unfold ccl_coll_build_dissemination_barrier, at_rank, barrier_groups. rewrite <- list_fmap_compose.
  destruct (Nat.eqb_spec P 1) as [E|E].
  - assert (rounds = 0) as ->; [|done]. unfold rounds. by rewrite E.
  - change 1 with (2 ^ 0). rewrite barrier_loop_st by (cbn; lia). by rewrite Nat.sub_0_r.
Qed.

Lemma round_perm r k : r < P -> 2 ^ k < P -> to r k < P /\ from r k < P /\ from (to r k) k = r /\ to (from r k) k = r.
Proof. intros. unfold to, from. split_and!; try (apply Nat.mod_upper_bound; lia); mod_lia. Qed.

Lemma round_step (k : nat) (ms : nat -> gmap (nat * nat) V) : 2 ^ k < P -> steps op 1 P (round k) ms (fun r m => m = ms r).
Proof.
  intros Hk. apply (exchange_step op 1 P _ ms _ (fun r => to r k) (fun r => from r k) (fun _ => [])
    (fun r => recv_entry null_buffer 0 (from r k))).
  - intros r Hr. by apply round_perm.
  - done.
  - intros r Hr. exists (ms r), (ms r). done.
Qed.

Lemma barrier_impl nx :
  implements op 1 P (fun r => ccl_coll_build_dissemination_barrier P r) nx (fun _ _ => True) (fun _ _ => True).
Proof.
  eapply (implements_intro _ _ _ _ _ _ _ barrier_groups (fun _ => []) nx (fun _ => [])); [lia| | |].
  - intros r Hr. apply barrier_st.
  - intros r Hr. split; [|done]. apply Forall_fmap, Forall_forall. intros g (k & -> & _)%list_elem_of_fmap.
    cbn. unfold round. group_races. by left.
  - intros ms _. eapply runs_seq; [|intros; by apply runs_one, skip_step].
    assert (H : forall l ms, Forall (fun k => 2 ^ k < P) l -> runs op 1 P (round <$> l) ms (fun _ _ => True)).
    { induction l as [|k l IH]; intros ms' Hl; [by apply runs_nil|]. apply Forall_cons in Hl as [Hk Hl].
      eapply runs_cons; [by apply round_step|]. intros ms1 _. by apply IH. }
    apply H, Forall_seq. intros k Hk. apply rounds_spec. lia.
Qed.

(** * No rank leaves before all have entered *)

Definition prog (r : nat) : list (entry * bool) :=
  seq 0 rounds ≫= fun k => [(send_entry null_buffer 0 (to r k), false); (recv_entry null_buffer 0 (from r k), true)].

Lemma entries_prog r nx : entries (st (at_rank r barrier_groups) [] nx []) = prog r.
Proof.
  unfold st, flat, prog, at_rank, barrier_groups. cbn [entries open_group fmap list_fmap]. rewrite app_nil_r.
  generalize (seq 0 rounds). intros l. induction l as [|k l IH]; [done|]. cbn. cbn in IH. by rewrite IH.
Qed.

Lemma prog_length r : length (prog r) = 2 * rounds.
Proof.
  unfold prog. replace (2 * rounds) with (2 * length (seq 0 rounds)) by (by rewrite length_seq).
  generalize (seq 0 rounds). intros l. induction l as [|k l IH]; [done|]. cbn. cbn in IH. rewrite IH. lia.
Qed.

Lemma prog_drop r k : k < rounds ->
  drop (2 * k) (prog r) = (send_entry null_buffer 0 (to r k), false) :: (recv_entry null_buffer 0 (from r k), true) :: drop (2 * S k) (prog r).
Proof.
  unfold prog. intros Hk. assert (H : forall j a, k < j -> let f := fun k => [(send_entry null_buffer 0 (to r k), false); (recv_entry null_buffer 0 (from r k), true)] in
    drop (2 * k) (seq a j ≫= f) = f (a + k) ++ drop (2 * S k) (seq a j ≫= f)); [|by apply (H rounds 0)].
  clear Hk. induction k as [|k IH]; intros j a Hj f.
  - destruct j as [|j]; [lia|]. cbn. by rewrite Nat.add_0_r, drop_0.
  - destruct j as [|j]; [lia|]. replace (2 * S k) with (S (S (2 * k))) by lia. replace (2 * S (S k)) with (S (S (2 * S k))) by lia.
    cbn [seq mbind list_bind app]. subst f. cbn [drop app]. rewrite (IH j (S a)) by lia. cbn [app]. by rewrite Nat.add_succ_comm.
Qed.

Abbreviation rst := (@rstate V).
Abbreviation gst := (@gstate V).

(** How many entries a rank has started. *)
Definition started (rs : rst) : nat := 2 * rounds - length (r_todo rs).

(** What holds of rank [q] in any run. *)
Record rank_ok (c : gmap chan_key (list (list V))) (q : nat) (rs : rst) : Prop := {
  ok_todo : r_todo rs = drop (started rs) (prog q);
  ok_idle : started rs = 0 -> r_pend rs = [];
  ok_bar : forall k, started rs = 2 * S k -> r_bar rs = true;
  ok_sent : forall d, chan c (false, q, d) <> [] -> exists k, k < rounds /\ d = to q k /\ 2 * k < started rs }.

(** The distance from [s] to [q], and the round in which [q] would hear of [s]. *)
Definition dist (s q : nat) : nat := (q + P - s) mod P.
Definition hears (s q : nat) : nat := Nat.log2 (dist s q).

(** While [s] has not begun, [q] waits in that round at the latest. *)
Definition waits (s q : nat) (rs : rst) : Prop :=
  started rs <= 2 * S (hears s q) /\
  (started rs = 2 * S (hears s q) -> recv_entry null_buffer 0 (from q (hears s q)) ∈ r_pend rs).

Definition barrier_inv (s : nat) (g : gst) : Prop :=
  length (g_ranks g) = P /\
  (forall q rs, g_ranks g !! q = Some rs -> rank_ok (g_chans g) q rs) /\
  (forall rs, g_ranks g !! s = Some rs -> started rs = 0 ->
     forall q rs, q <> s -> g_ranks g !! q = Some rs -> waits s q rs).

Lemma dist_lt s q : s < P -> q < P -> q <> s -> 0 < dist s q < P.
Proof. intros. unfold dist. mod_lia. Qed.

Lemma hears_spec s q : s < P -> q < P -> q <> s ->
  2 ^ hears s q <= dist s q < 2 ^ S (hears s q) /\ hears s q < rounds.
Proof.
  intros Hs Hq Hne. pose proof (dist_lt s q Hs Hq Hne). pose proof (Nat.log2_spec (dist s q) ltac:(lia)) as H1.
  split; [done|]. apply rounds_spec. unfold hears in *. lia.
Qed.

(** The sender of that round is [s] itself, or hears of [s] in an earlier round. *)
Lemma hears_from s q : s < P -> q < P -> q <> s ->
  from q (hears s q) < P /\ (from q (hears s q) = s \/ (from q (hears s q) <> s /\ hears s (from q (hears s q)) < hears s q)).
Proof.
  intros Hs Hq Hne. destruct (hears_spec s q Hs Hq Hne) as [[H1 H2] H3]. pose proof (dist_lt s q Hs Hq Hne) as Hd.
  set (k := hears s q) in *. assert (Hk : 2 ^ k < P) by lia.
  assert (E : dist s (from q k) = dist s q - 2 ^ k) by (unfold dist, from in *; mod_lia).
  split; [apply Nat.mod_upper_bound; lia|]. destruct (decide (from q k = s)) as [|Hns]; [by left|]. right. split; [done|].
  assert (Hf : from q k < P) by (apply Nat.mod_upper_bound; lia). pose proof (dist_lt s (from q k) Hs Hf Hns).
  unfold hears at 1. rewrite E. apply Nat.log2_lt_pow2; [lia|]. cbn in H2. lia.
Qed.

Lemma to_inj q k k' : q < P -> k < rounds -> k' < rounds -> to q k = to q k' -> k = k'.
Proof.
  intros Hq Hk%rounds_spec Hk'%rounds_spec E. assert (E2 : 2 ^ k = 2 ^ k') by (unfold to in E; mod_lia).
  apply (Nat.pow_inj_r 2); lia.
Qed.

(** No message of that round can be on its way. *)
Lemma no_message s g q rs : barrier_inv s g -> s < P -> q < P -> q <> s ->
  g_ranks g !! s = Some rs -> started rs = 0 -> chan (g_chans g) (false, from q (hears s q), q) = [].
Proof.
  intros (Hl & Hok & Hw) Hs Hq Hne Hrs H0. destruct (hears_from s q Hs Hq Hne) as [Hf Hc]. set (f := from q (hears s q)) in *.
  destruct (hears_spec s q Hs Hq Hne) as [_ Hr].
  assert (exists rf, g_ranks g !! f = Some rf) as [rf Hrf] by (apply lookup_lt_is_Some; lia).
  destruct (chan (g_chans g) (false, f, q)) eqn:E; [done|]. exfalso.
  destruct (ok_sent _ _ _ (Hok f rf Hrf) q) as (k & Hk & Hto & Hst); [by rewrite E|].
  assert (k = hears s q) as ->.
  { apply (to_inj f); try done. rewrite <- Hto. unfold f. symmetry. apply round_perm; [done|by apply rounds_spec]. }
  destruct Hc as [->|[Hns Hh]]; [rewrite Hrs in Hrf; injection Hrf as ->; lia|].
  destruct (Hw rs Hrs H0 f rf Hns Hrf) as [Hle _]. lia.
Qed.

(** ** The invariant is kept *)

Lemma chan_pop_ne {M} (d : M) k c v c1 x : pop_opt d k c = Some (v, c1) -> chan c1 x <> [] -> chan c x <> [].
Proof.
  destruct k as [k|]; cbn; [|by intros [= _ <-]]. unfold pop. destruct (chan c k) as [|w l] eqn:E; [done|]. intros [= _ <-].
  destruct (decide (k = x)) as [<-|Hne]; [by rewrite E|by rewrite chan_set_ne].
Qed.

Lemma chan_push_ne {M} k (v : M) c x : k <> x -> chan (push k v c) x = chan c x.
Proof. intros. unfold push. by rewrite chan_set_ne. Qed.

Lemma elem_of_delete {A} (l : list A) i e x : l !! i = Some e -> x ∈ l -> x <> e -> x ∈ delete i l.
Proof.
  intros Hi Hx Hne. rewrite <- (take_drop_middle _ _ _ Hi) in Hx. rewrite delete_take_drop. set_solver.
Qed.

Lemma todo_next c q rs e b todo : rank_ok c q rs -> r_todo rs = (e, b) :: todo ->
  todo = drop (S (started rs)) (prog q) /\ started rs < 2 * rounds /\
  exists k, k < rounds /\ ((started rs = 2 * k /\ e = send_entry null_buffer 0 (to q k) /\ b = false) \/
                         (started rs = S (2 * k) /\ e = recv_entry null_buffer 0 (from q k) /\ b = true)).
Proof.
  intros [Ht _ _ _] E. rewrite E in Ht. set (n := started rs) in *.
  assert (Hn : n < 2 * rounds).
  { rewrite <- (prog_length q). assert (Hl : 0 < length (drop n (prog q))) by (rewrite <- Ht; cbn; lia). rewrite length_drop in Hl. lia. }
  assert (Hk : n / 2 < rounds) by (apply Nat.Div0.div_lt_upper_bound; lia).
  pose proof (Nat.div_mod_eq n 2) as Ed. pose proof (prog_drop q (n / 2) Hk) as Hp.
  assert (Hs : drop (S n) (prog q) = todo).
  { change (S n) with (1 + n). rewrite (Nat.add_comm 1), <- drop_drop, <- Ht. done. }
  split; [done|]. split; [done|]. exists (n / 2). split; [done|].
  pose proof (Nat.mod_upper_bound n 2 ltac:(lia)). destruct (n mod 2) as [|[|]] eqn:Em; [left|right|lia].
  - assert (E2 : n = 2 * (n / 2)) by lia. rewrite E2 in Ht at 1. rewrite Hp in Ht. injection Ht as -> -> _. done.
  - assert (E2 : n = 2 * (n / 2) + 1) by lia. rewrite E2 in Ht at 1. rewrite <- drop_drop, Hp in Ht. cbn in Ht. injection Ht as -> -> _. split; [lia|done].
Qed.

Lemma started_S c q (rs : rst) m pd b' todo e b : rank_ok c q rs -> r_todo rs = (e, b) :: todo ->
  started (mk_rstate m pd b' todo) = S (started rs).
Proof.
  intros Hok E. pose proof (f_equal length (ok_todo _ _ _ Hok)) as Hl. rewrite length_drop, prog_length, E in Hl.
  unfold started. rewrite E. cbn [r_todo length] in *. lia.
Qed.

Lemma start_keeps_ok c c' (q : nat) (rs : rst) m e b todo :
  rank_ok c q rs -> r_todo rs = (e, b) :: todo ->
  (forall d, chan c' (false, q, d) <> [] -> chan c (false, q, d) <> [] \/ send_to e = Some d) ->
  rank_ok c' q (mk_rstate m (r_pend rs ++ [e]) b todo).
Proof.
  intros Hok E Hc. destruct (todo_next _ _ _ _ _ _ Hok E) as (Ht & Hlt & k & Hk & He).
  pose proof (started_S c q rs m (r_pend rs ++ [e]) b todo e b Hok E) as ES. constructor; rewrite ?ES; [by rewrite <- Ht|done| |].
  - intros j Hj. cbn. destruct He as [(H1 & _ & _)|(_ & _ & ->)]; [lia|done].
  - intros d Hd. apply Hc in Hd as [Hd|Hd].
    + destruct (ok_sent _ _ _ Hok d Hd) as (k' & ? & ? & ?). exists k'. split; [done|]. split; [done|lia].
    + exists k. destruct He as [(H1 & -> & _)|(_ & -> & _)]; [|done]. injection Hd as <-. split; [done|]. split; [done|lia].
Qed.

Lemma start_keeps_waits (s : nat) c (q : nat) (rs : rst) m e b todo :
  rank_ok c q rs -> r_todo rs = (e, b) :: todo -> r_bar rs && bool_decide (r_pend rs <> []) = false ->
  waits s q rs -> waits s q (mk_rstate m (r_pend rs ++ [e]) b todo).
Proof.
  intros Hok E Hbar [Hle Hw]. destruct (todo_next _ _ _ _ _ _ Hok E) as (Ht & Hlt & k & Hk & He).
  unfold waits. rewrite (started_S c q rs m (r_pend rs ++ [e]) b todo e b Hok E). cbn [r_pend]. split.
  - destruct (decide (started rs = 2 * S (hears s q))) as [Heq|]; [|lia]. exfalso. specialize (Hw Heq).
    rewrite (ok_bar _ _ _ Hok _ Heq) in Hbar. cbn in Hbar. apply bool_decide_eq_false in Hbar. apply Hbar. intros Hp. rewrite Hp in Hw. by apply not_elem_of_nil in Hw.
  - intros Heq. destruct He as [(H1 & _)|(H1 & -> & _)]; [lia|]. assert (hears s q = k) as -> by lia. set_solver.
Qed.

Lemma ok_other c c' q rs : (forall d, chan c' (false, q, d) <> [] -> chan c (false, q, d) <> []) -> rank_ok c q rs -> rank_ok c' q rs.
Proof. intros Hc [H1 H2 H3 H4]. constructor; try done. intros d Hd. by apply H4, Hc. Qed.

Lemma barrier_inv_step rdv s g g' : s < P -> barrier_inv s g -> gstep op 1 rdv g g' -> barrier_inv s g'.
Proof.
  intros Hs Hinv (me & l & H). pose proof Hinv as (Hl & Hok & Hw).
  apply try_step_inv in H as (rs & k & f & msg & c1 & rs' & out & Hrs & Hstep & Hpop & Hf & ->). pose proof (Hok me rs Hrs) as Hme.
  assert (HmeP : me < P) by (rewrite <- Hl; by eapply lookup_lt_Some).
  assert (Hc1 : forall x, chan c1 x <> [] -> chan (g_chans g) x <> []) by (intros x; by eapply chan_pop_ne).
  destruct l as [|i]; cbn in Hstep.
  - destruct (r_todo rs) as [|[e b] todo] eqn:E; [done|]. destruct (r_bar rs && _) eqn:Eb; [done|]. injection Hstep as <- <-.
    cbn in Hpop. injection Hpop as <- <-. destruct (todo_next _ _ _ _ _ _ Hme E) as (Ht & Hlt & j & Hj & He).
    assert (exists m, rs' = mk_rstate m (r_pend rs ++ [e]) b todo /\ (forall x w, out = Some (x, w) -> exists d, x = (false, me, d) /\ send_to e = Some d)) as (m & -> & Hout).
    { destruct He as [(_ & -> & ->)|(_ & -> & ->)]; cbn in Hf; injection Hf as <- <-; eexists; (split; [done|]); [|done].
      intros x w [= <- <-]. eauto. }
    set (rs' := mk_rstate m (r_pend rs ++ [e]) b todo) in *. split; [cbn; by rewrite length_insert|]. split; cbn [g_ranks g_chans].
    + intros q rq Hq. apply list_lookup_insert_Some in Hq as [(-> & <- & _)|[Hne Hq]].
      * eapply start_keeps_ok; [exact Hme|done|]. intros d. destruct out as [[x w]|]; cbn; [|by left].
        destruct (Hout x w eq_refl) as (d' & -> & He'). destruct (decide (d = d')) as [->|Hd]; [by right|]. rewrite chan_push_ne by congruence. by left.
      * eapply ok_other; [|by apply Hok]. intros d. destruct out as [[x w]|]; cbn; [|done].
        destruct (Hout x w eq_refl) as (d' & -> & _). by rewrite chan_push_ne by congruence.
    + intros rs0 Hs0 H0 q rq Hqs Hq. apply list_lookup_insert_Some in Hs0 as [(-> & <- & _)|[Hne Hs0]].
      { exfalso. unfold rs' in H0. rewrite (started_S _ _ rs m _ b todo e b Hme E) in H0. done. }
      apply list_lookup_insert_Some in Hq as [(-> & <- & _)|[_ Hq]]; [|by eapply Hw]. eapply start_keeps_waits; try done. by eapply Hw.
  - destruct (r_pend rs !! i) as [e|] eqn:Ei; [|done]. case_match; [|done]. injection Hstep as <- <-.
    apply bind_Some in Hf as (m' & _ & Hf). injection Hf as <- <-. set (rs' := mk_rstate m' (delete i (r_pend rs)) (r_bar rs) (r_todo rs)).
    assert (Hc' : forall x, x.1.1 = false -> chan (push_opt (out_ack rdv me e) c1) x <> [] -> chan (g_chans g) x <> []).
    { intros x Hx. destruct (out_ack rdv me e) as [[y w]|] eqn:Ea; cbn; [|apply Hc1]. rewrite chan_push_ne; [apply Hc1|].
      intros ->. destruct e; cbn in Ea; try done; destruct rdv; try done; injection Ea as <- _; done. }
    split; [cbn; by rewrite length_insert|]. split; cbn [g_ranks g_chans].
    + intros q rq Hq. apply list_lookup_insert_Some in Hq as [(-> & <- & _)|[Hne Hq]].
      * destruct Hme as [H1 H2 H3 H4]. constructor; try done; [|intros d Hd; by apply H4, Hc'].
        intros H0. specialize (H2 H0). rewrite H2 in Ei. done.
      * eapply ok_other; [|by apply Hok]. intros d. by apply Hc'.
    + intros rs0 Hs0 H0 q rq Hqs Hq. apply list_lookup_insert_Some in Hs0 as [(-> & <- & _)|[Hne Hs0]].
      { exfalso. pose proof (ok_idle _ _ _ Hme H0) as Hp. rewrite Hp in Ei. done. }
      apply list_lookup_insert_Some in Hq as [(-> & <- & _)|[_ Hq]]; [|by eapply Hw].
      destruct (Hw rs0 Hs0 H0 q rs Hqs Hrs) as [Hle Hwait]. split; [done|]. intros Heq. specialize (Hwait Heq). cbn [r_pend rs'].
      eapply elem_of_delete; [exact Ei|done|]. intros <-. cbn in Hpop. unfold pop in Hpop. by rewrite (no_message s g q rs0) in Hpop.
Qed.

Lemma barrier_inv_init s ms : barrier_inv s (init_net P prog ms).
Proof.
  assert (H0 : forall q rs, g_ranks (init_net P prog ms) !! q = Some rs -> rs = mk_rstate (ms q) [] false (prog q) /\ started rs = 0).
  { intros q rs Hq. cbn in Hq. apply list_lookup_fmap_Some in Hq as (x & -> & [-> _]%lookup_seq).
    split; [done|]. unfold started. cbn [r_todo]. rewrite prog_length. lia. }
  split; [cbn; by rewrite length_fmap, length_seq|]. split.
  - intros q rs Hq. destruct (H0 q rs Hq) as [-> E]. constructor; rewrite ?E; [done|done|intros; lia|]. intros d Hd. by destruct Hd.
  - intros rs Hs _ q rq _ Hq. destruct (H0 q rq Hq) as [_ E]. unfold waits. rewrite E. split; lia.
Qed.
End barrier.

(** * Theorem *)

(** Rank [r] has completed its schedule / has started an entry of it. *)
Definition left_barrier {V} (g : gstate (V := V)) (r : nat) : Prop :=
  exists rs, g_ranks g !! r = Some rs /\ r_pend rs = [] /\ r_todo rs = [].
Definition entered_barrier {V} (prog : nat -> list (entry * bool)) (g : gstate (V := V)) (r : nat) : Prop :=
  exists rs, g_ranks g !! r = Some rs /\ r_todo rs <> prog r.

Section theorem.
Context {V : Type} (op : V -> V -> V).
Abbreviation memory := (gmap (nat * nat) V).

Lemma barrier_separates (P : nat) (rdv : bool) (ms : nat -> memory) (g : gstate (V := V)) (q s : nat) :
  1 < P -> rtc (gstep op 1 rdv) (init_net P (prog P) ms) g -> left_barrier g q -> s < P -> entered_barrier (prog P) g s.
Proof.
  intros HP Hrun (rq & Hq & Hp & Ht) Hs.
  assert (Hinv : barrier_inv P s g).
  { clear Hq. revert g Hrun. apply rtc_ind_r; [apply barrier_inv_init; lia|].
    intros g1 g2 _ Hst IH. eapply barrier_inv_step; [lia|done|exact IH|exact Hst]. }
  destruct Hinv as (Hl & Hok & Hw). assert (exists rs, g_ranks g !! s = Some rs) as [rs Hrs] by (apply lookup_lt_is_Some; lia).
  exists rs. split; [done|]. intros E. assert (H0 : started P rs = 0) by (unfold started; rewrite E, prog_length; lia).
  assert (HqP : q < P) by (rewrite <- Hl; by eapply lookup_lt_Some).
  assert (Hr : 0 < rounds P) by (apply rounds_spec; cbn; lia).
  destruct (decide (q = s)) as [->|Hne].
  - rewrite Hq in Hrs. injection Hrs as <-. rewrite Ht in E. apply (f_equal length) in E. rewrite prog_length in E by lia. cbn in E. lia.
  - destruct (Hw rs Hrs H0 q rq Hne Hq) as [Hle Hin]. assert (Es : started P rq = 2 * rounds P) by (unfold started; rewrite Ht; cbn; lia).
    destruct (hears_spec P ltac:(lia) s q Hs HqP Hne) as [_ Hh]. rewrite Hp in Hin.
    assert (Heq : started P rq = 2 * S (hears P s q)) by lia. apply Hin in Heq. by apply not_elem_of_nil in Heq.
Qed.

Lemma dissemination_barrier_separates (P : nat) (nx : nat -> nat) :
  1 < P ->
  exists scheds : nat -> ccl_sched,
    (forall r, r < P -> ccl_coll_build_dissemination_barrier P r (empty_sched (nx r)) = Ok (tt, scheds r)) /\
    forall ms : nat -> memory,
      collective op 1 P (fun r => entries (scheds r)) ms (fun _ _ => True) /\
      forall (rdv : bool) (g : gstate (V := V)) (q s : nat),
        rtc (gstep op 1 rdv) (init_net P (fun r => entries (scheds r)) ms) g ->
        left_barrier g q -> s < P -> entered_barrier (fun r => entries (scheds r)) g s.
Proof.
  intros HP. exists (fun r => st (at_rank r (barrier_groups P)) [] (nx r) []). split.
  { intros r Hr. rewrite empty_sched_st. apply barrier_st. lia. }
  assert (E : forall r, entries (st (at_rank r (barrier_groups P)) [] (nx r) []) = prog P r) by (intros r; apply entries_prog).
  intros ms. split.
  - destruct (barrier_impl op P ltac:(lia) nx) as (scheds & H1 & H2). eapply collective_ext; [|apply H2].
    + intros r Hr. specialize (H1 r Hr). rewrite empty_sched_st, barrier_st in H1 by lia. injection H1 as H1. cbn beta. by rewrite <- H1.
    + intros r Hr. specialize (H1 r Hr). rewrite empty_sched_st, barrier_st in H1 by lia. injection H1 as H1. cbn beta. by rewrite <- H1.
  - intros rdv g q s Hrun Hq Hs. assert (Ei : init_net P (fun r => entries (st (at_rank r (barrier_groups P)) [] (nx r) [])) ms = init_net P (prog P) ms).
    { unfold init_net. f_equal. apply list_fmap_ext. intros i r _. by rewrite E. }
    rewrite Ei in Hrun. destruct (barrier_separates P rdv ms g q s HP Hrun Hq Hs) as (rs & Hrs & Hne). exists rs. split; [done|]. by rewrite E.
Qed.

(** C14: the dissemination barrier of any number of ranks: the builders return, every interleaving
    ends without deadlock, and in no reachable state, with either transport, has a rank completed
    the barrier while another rank has not entered it. *)
Theorem dissemination_barrier_correct (P : nat) (nx : nat -> nat) :
  1 < P ->
  exists scheds : nat -> ccl_sched,
    (forall r, r < P -> ccl_coll_build_dissemination_barrier P r (empty_sched (nx r)) = Ok (tt, scheds r)) /\
    forall ms : nat -> memory,
      collective op 1 P (fun r => entries (scheds r)) ms (fun _ _ => True) /\
      forall (rdv : bool) (g : gstate (V := V)) (q s : nat),
        rtc (gstep op 1 rdv) (init_net P (fun r => entries (scheds r)) ms) g ->
        left_barrier g q -> s < P -> entered_barrier (fun r => entries (scheds r)) g s.
Proof. apply dissemination_barrier_separates. Qed.
End theorem.

Lemma dissemination_barrier_correct_witness :
  exists scheds : nat -> ccl_sched,
    (forall r, r < 5 -> ccl_coll_build_dissemination_barrier 5 r (empty_sched (nx_ex r)) = Ok (tt, scheds r)) /\
    forall ms : nat -> gmap (nat * nat) nat,
      collective Nat.add 1 5 (fun r => entries (scheds r)) ms (fun _ _ => True) /\
      forall (rdv : bool) (g : gstate (V := nat)) (q s : nat),
        rtc (gstep Nat.add 1 rdv) (init_net 5 (fun r => entries (scheds r)) ms) g ->
        left_barrier g q -> s < 5 -> entered_barrier (fun r => entries (scheds r)) g s.
Proof. apply dissemination_barrier_correct. lia. Defined.
