(* ===== verification/Reduce.v ===== *)
(** The ring and the binomial reduce of [src/src/coll/algorithms/reduce.cpp]. *)

From S2P Require Import Prelude Sched Network Race Bsp Build Reduction ReduceScatter Allgatherv Allreduce Bcast.
Open Scope ccl_scope.

(** * Builders *)

Definition ccl_coll_build_ring_reduce (env : ccl_env) (dsz comm_size rank : nat)
    (send_buf recv_buf : ccl_buffer) (count root : nat) : build unit :=
  if count =? 0 then ret tt else
  recv_buf <-- (if negb (rank =? root) then alloc_buffer (count * dsz) else ret recv_buf) ;;
  CCL_THROW_IF_NOT (buffer_bool send_buf && buffer_bool recv_buf) ;;;
  ccl_coll_build_reduce_scatter_block env dsz comm_size rank send_buf recv_buf count ;;;
  add_barrier ;;;
  let main_block_count := count / comm_size in
  let last_block_count := main_block_count + count mod comm_size in
  let recv_counts := fun i =>
    if negb (count mod comm_size =? 0) && (i =? comm_size - 1) then last_block_count else main_block_count in
  let offsets := byte_offsets dsz recv_counts in
  (if rank =? root then
     for_range 0 comm_size (fun idx =>
       if negb (idx =? root) then create_recv (recv_buf +b offsets idx) (recv_counts idx) idx else ret tt)
   else create_send (recv_buf +b offsets rank) (recv_counts rank) root) ;;;
  add_barrier.

(** [while (mask < comm_size)]; [break] after the send. *)
Fixpoint binomial_loop (fuel comm_size lroot relrank count : nat) (tmp_buf recv_buf : ccl_buffer) (mask : nat) : build unit :=
  match fuel with
  | O => throw
  | S fuel' =>
    if mask <? comm_size then
      if Nat.land mask relrank =? 0 then
        let source := Nat.lor relrank mask in
        (if source <? comm_size then
           create_recv tmp_buf count ((source + lroot) mod comm_size) ;;; add_barrier ;;;
           create_reduce_local tmp_buf count recv_buf ;;; add_barrier
         else ret tt) ;;;
        binomial_loop fuel' comm_size lroot relrank count tmp_buf recv_buf (mask * 2)
      else
        create_send recv_buf count ((Nat.ldiff relrank mask + lroot) mod comm_size) ;;; add_barrier
    else ret tt
  end.

Definition ccl_coll_build_binomial_reduce (dsz comm_size rank : nat) (send_buf recv_buf : ccl_buffer)
    (count root : nat) : build unit :=
  if count =? 0 then ret tt else
  tmp_buf <-- alloc_buffer (count * dsz) ;;
  recv_buf <-- (if negb (rank =? root) then alloc_buffer (count * dsz) else ret recv_buf) ;;
  (if negb (rank =? root) || negb (buffer_eqb send_buf recv_buf)
   then create_copy send_buf recv_buf count ;;; add_barrier else ret tt) ;;;
  let relrank := (rank + comm_size - root) mod comm_size in
  binomial_loop (S comm_size) comm_size root relrank count tmp_buf recv_buf 1.

(** * The binomial tree *)

Lemma lor_pow2 q k : Nat.testbit q k = false -> Nat.lor q (2 ^ k) = q + 2 ^ k.
Proof.
  intros H. assert (Hl : Nat.land q (2 ^ k) = 0) by (apply Nat.eqb_eq; by rewrite land_pow2, H).
  by rewrite Nat.add_nocarry_lxor, Nat.lxor_lor.
Qed.

Lemma ldiff_pow2 q k : Nat.testbit q k = true -> Nat.ldiff q (2 ^ k) = q - 2 ^ k.
Proof.
  intros H. symmetry. apply Nat.sub_nocarry_ldiff. apply Nat.bits_inj. intros i. rewrite Nat.ldiff_spec, Nat.pow2_bits_eqb, Nat.bits_0.
  destruct (Nat.eqb_spec k i) as [<-|]; [|done]. by rewrite H.
Qed.

Section binomial.
Context {V : Type} (op : V -> V -> V) (dsz P root count : nat) (dsz_pos : 0 < dsz) (HP : 0 < P) (Hroot : root < P) (Hcount : 0 < count).
Context (send recv : nat -> ccl_buffer) (nx : nat -> nat) (x : nat -> nat -> V).
Abbreviation memory := (gmap (nat * nat) V).
Implicit Types (m : memory) (ms : nat -> memory).

Definition bin_bufs_ok (r : nat) : Prop :=
  0 < buf_src (send r) < nx r /\
  (r = root -> 0 < buf_src (recv r) < nx r /\ (send r = recv r \/ buf_src (send r) <> buf_src (recv r))).
Context (Hok : forall r, r < P -> bin_bufs_ok r).

Definition btmp (r : nat) : ccl_buffer := mk_buffer (nx r) 0.
(** The buffer that accumulates: the user's on the root, a temporary one elsewhere. *)
Definition bacc (r : nat) : ccl_buffer := if r =? root then recv r else mk_buffer (S (nx r)) 0.

Abbreviation q r := (rel P root r).

Definition sends_up (j k : nat) : bool := (j mod 2 ^ k =? 0) && negb (j mod 2 ^ S k =? 0).
Definition takes (j k : nat) : bool := (j mod 2 ^ S k =? 0) && (j + 2 ^ k <? P).

Definition bin_exch (k r : nat) : list entry :=
  if sends_up (q r) k then [send_entry (bacc r) count (parent P k r)]
  else if takes (q r) k then [recv_entry (btmp r) count (child P k r)] else [].
Definition bin_red (k r : nat) : list entry :=
  if takes (q r) k then [reduce_local_entry (btmp r) count (bacc r)] else [].
Definition bin_head (r : nat) : list entry :=
  if negb (r =? root) || negb (buffer_eqb (send r) (bacc r)) then [copy_entry (send r) (bacc r) count] else [].
Definition bin_groups : list (nat -> list entry) := bin_head :: (seq 0 P ≫= fun k => [bin_exch k; bin_red k]).

Lemma bin_idle k r : r < P -> q r mod 2 ^ k <> 0 \/ P <= 2 ^ k -> bin_exch k r = [] /\ bin_red k r = [].
Proof.
  intros Hr H. assert (Hq : q r < P) by (by apply rel_lt). unfold bin_exch, bin_red, sends_up, takes. destruct H as [H|H].
  - rewrite (proj2 (Nat.eqb_neq _ _) H). assert (H2 : q r mod 2 ^ S k <> 0) by (intros E; by apply H, mod_pow2_S).
    rewrite (proj2 (Nat.eqb_neq _ _) H2). done.
  - rewrite (proj2 (Nat.ltb_ge (q r + 2 ^ k) P)) by lia. rewrite andb_false_r, (Nat.mod_small (q r) (2 ^ k)) by lia.
    destruct (Nat.eqb_spec (q r) 0) as [->|]; [|done]. by rewrite Nat.Div0.mod_0_l.
Qed.

Lemma bin_rest_idle k j r : r < P -> (forall i, k <= i < k + j -> q r mod 2 ^ i <> 0 \/ P <= 2 ^ i) ->
  Forall (fun g => g = []) (seq k j ≫= fun k => [bin_exch k r; bin_red k r]).
Proof.
  intros Hr H. apply Forall_forall. intros g (i & Hg & Hi%elem_of_seq)%list_elem_of_bind.
  destruct (bin_idle i r Hr (H i Hi)) as [E1 E2]. rewrite E1, E2 in Hg. set_solver.
Qed.

Lemma child_rel k r : r < P -> q r + 2 ^ k < P -> (q r + 2 ^ k + root) mod P = child P k r.
Proof. intros Hr. unfold child, rel, relative_rank. destruct (Nat.leb_spec root r); intros; mod_lia. Qed.
Lemma parent_rel k r : r < P -> 2 ^ k <= q r -> (q r - 2 ^ k + root) mod P = parent P k r.
Proof. intros Hr. unfold parent, rel, relative_rank. destruct (Nat.leb_spec root r); intros; mod_lia. Qed.

Lemma binomial_loop_st r gs nx' al : r < P -> forall fuel k, q r mod 2 ^ k = 0 -> P < 2 ^ k + fuel -> 0 < fuel -> k <= P ->
  binomial_loop fuel P root (q r) count (btmp r) (bacc r) (2 ^ k) (st gs [] nx' al) =
  Ok (tt, st (gs ++ (seq k (P - k) ≫= fun k => [bin_exch k r; bin_red k r])) [] nx' al).
Proof.
  intros Hr fuel. revert gs. induction fuel as [|fuel IH]; intros gs k Hq Hf Hf0 Hk; [lia|]. cbn [binomial_loop].
  pose proof (Nat.pow_nonzero 2 k ltac:(lia)) as Hz. assert (Hlt : q r < P) by (by apply rel_lt).
  destruct (Nat.ltb_spec (2 ^ k) P) as [HkP|HkP].
  2:{ rewrite st_empty_groups; [done|]. apply bin_rest_idle; [done|]. intros i Hi. right. etrans; [exact HkP|]. apply Nat.pow_le_mono_r; lia. }
  assert (k < P) by (pose proof (Nat.pow_gt_lin_r 2 k ltac:(lia)); lia).
  replace (P - k) with (S (P - S k)) by lia. cbn [seq mbind list_bind app]. rewrite Nat.land_comm, land_pow2.
  pose proof (testbit_mod _ _ Hq) as Hb. unfold bin_exch at 1, bin_red at 1, sends_up, takes. rewrite (proj2 (Nat.eqb_eq _ _) Hq).
  destruct (Nat.eqb_spec (q r mod 2 ^ S k) 0) as [Hq'|Hq']; cbn [negb andb] in *; rewrite Hb; cbn [negb].
  - rewrite lor_pow2 by done. replace (2 ^ k * 2) with (2 ^ S k) by (cbn; lia).
    assert (Hgo : forall gs', binomial_loop fuel P root (q r) count (btmp r) (bacc r) (2 ^ S k) (st gs' [] nx' al) =
      Ok (tt, st (gs' ++ (seq (S k) (P - S k) ≫= fun k => [bin_exch k r; bin_red k r])) [] nx' al)).
    { intros gs'. apply IH; [done|cbn; lia|lia|lia]. }
    destruct (Nat.ltb_spec (q r + 2 ^ k) P) as [Hs|Hs].
    + rewrite child_rel by done.
      build_simp. rewrite Hgo. by rewrite <- app_assoc.
    + rewrite bind_ret, Hgo. do 2 f_equal. unfold st, flat. do 2 f_equal. rewrite !fmap_app, !concat_app. done.
  - destruct (mod_pow2_sub _ _ Hq Hq') as [Hle _]. rewrite ldiff_pow2 by done.
    rewrite parent_rel by done.
    build_simp. change ([?a] :: [] :: ?l) with ([[a]] ++ ([] :: l)). rewrite app_assoc, (st_empty_groups (gs ++ [_])); [done|].
    constructor; [done|]. apply bin_rest_idle; [done|]. intros i Hi. left. intros E. apply Hq'. eapply mod_pow2_le; [|exact E]. lia.
Qed.

Definition bin_allocs (r : nat) : list (nat * nat) :=
  (nx r, count * dsz) :: (if r =? root then [] else [(S (nx r), count * dsz)]).
Definition bin_next (r : nat) : nat := if r =? root then S (nx r) else S (S (nx r)).

Lemma binomial_st r : r < P ->
  ccl_coll_build_binomial_reduce dsz P r (send r) (recv r) count root (st [] [] (nx r) []) =
  Ok (tt, st (at_rank r bin_groups) [] (bin_next r) (bin_allocs r)).
Proof.
  intros Hr. unfold ccl_coll_build_binomial_reduce. rewrite (proj2 (Nat.eqb_neq count 0)) by lia. build_simp.
  assert (E1 : (if negb (r =? root) then alloc_buffer (count * dsz) else ret (recv r)) (st [] [] (S (nx r)) [(nx r, count * dsz)]) =
    Ok (bacc r, st [] [] (bin_next r) (bin_allocs r))).
  { unfold bacc, bin_next, bin_allocs. destruct (r =? root); [done|]. cbn [negb]. apply alloc_buffer_st; alloc_pos. }
  rewrite (bind_Ok _ _ _ _ _ E1). fold (btmp r).
  assert (E2 : (if negb (r =? root) || negb (buffer_eqb (send r) (bacc r)) then create_copy (send r) (bacc r) count ;;; add_barrier else ret tt)
    (st [] [] (bin_next r) (bin_allocs r)) = Ok (tt, st [bin_head r] [] (bin_next r) (bin_allocs r))).
  { unfold bin_head. destruct (_ || _); [build_simp; done|]. by rewrite (st_empty_group []). }
  rewrite (bind_Ok _ _ _ _ _ E2). rewrite <- rel_mod by done. change 1 with (2 ^ 0).
  rewrite (binomial_loop_st r [bin_head r]); [|done|apply Nat.mod_1_r|cbn; lia|lia|lia]. rewrite Nat.sub_0_r. do 3 f_equal.
  unfold bin_groups, at_rank. cbn [fmap list_fmap app]. f_equal. generalize (seq 0 P). intros l. induction l as [|k l IH]; [done|]. cbn. by f_equal; f_equal.
Qed.

Lemma acc_tmp_ne r : r < P -> buf_src (bacc r) <> buf_src (btmp r).
Proof. intros Hr. destruct (Hok r Hr) as [_ H]. unfold bacc, btmp. destruct (Nat.eqb_spec r root) as [->|]; [destruct (H eq_refl)|]; cbn; lia. Qed.

Lemma bin_groups_ok r : r < P -> Forall (group_ok dsz) (at_rank r bin_groups).
Proof.
  intros Hr. unfold bin_groups, at_rank. cbn [fmap list_fmap]. constructor; [unfold bin_head; case_match; group_races|].
  apply Forall_fmap, Forall_forall. intros g (k & Hg & _)%list_elem_of_bind.
  apply elem_of_cons in Hg as [->|Hg%list_elem_of_singleton]; [|subst g]; cbn; unfold bin_exch, bin_red; repeat case_match; group_races.
Qed.

(** ** Values *)

(** The rank with relative rank [j]. *)
Definition rank_of (j : nat) : nat := (j + root) mod P.
(** The reduction, in order, of the [len] ranks from relative rank [j]. *)
Definition range (j len i : nat) : V :=
  fold_left op ((fun j => x (rank_of j) i) <$> seq (S j) (len - 1)) (x (rank_of j) i).

Lemma range_app `{!Assoc (=) op} j a b i : 0 < a -> 0 < b -> range j (a + b) i = op (range j a i) (range (j + a) b i).
Proof.
  intros Ha Hb. unfold range. replace (a + b - 1) with ((a - 1) + S (b - 1)) by lia. rewrite seq_app, fmap_app, fold_left_app.
  replace (S j + (a - 1)) with (j + a) by lia. cbn [seq fmap list_fmap fold_left]. symmetry. apply fold_left_assoc. exact _.
Qed.

(** What rank [r] has accumulated before level [k]. *)
Definition bval (k r i : nat) : V := range (q r) (2 ^ k `min` (P - q r)) i.

Lemma bval_S `{!Assoc (=) op} k r i : r < P -> takes (q r) k = true ->
  bval (S k) r i = op (bval k r i) (bval k (child P k r) i).
Proof.
  intros Hr [Hq%Nat.eqb_eq Ht%Nat.ltb_lt]%andb_true_iff. assert (E : q (child P k r) = q r + 2 ^ k).
  { rewrite rel_child by (done || lia). apply Nat.mod_small. lia. }
  unfold bval. rewrite E. pose proof (Nat.pow_nonzero 2 k ltac:(lia)). rewrite (Nat.min_l (2 ^ k) (P - q r)) by lia.
  rewrite <- range_app by lia. f_equal. cbn. lia.
Qed.

Lemma bval_keep k r i : r < P -> q r mod 2 ^ S k = 0 -> takes (q r) k = false -> bval (S k) r i = bval k r i.
Proof.
  intros Hr Hq Ht. unfold takes in Ht. rewrite (proj2 (Nat.eqb_eq _ _) Hq) in Ht. cbn [andb] in Ht. apply Nat.ltb_ge in Ht.
  unfold bval. f_equal. cbn. lia.
Qed.

Lemma takes_sends k r : r < P -> 2 ^ k < P -> takes (q r) k = sends_up (q (child P k r)) k.
Proof.
  intros Hr Hk. assert (Hq : q r < P) by (by apply rel_lt). rewrite rel_child by done. unfold takes, sends_up.
  destruct (Nat.ltb_spec (q r + 2 ^ k) P) as [Hlt|Hge].
  - rewrite (Nat.mod_small (q r + 2 ^ k) P), andb_true_r by done. destruct (Nat.eqb_spec (q r mod 2 ^ S k) 0) as [Hz|Hnz].
    + destruct (mod_pow2_add _ _ Hz) as [-> ->]. pose proof (Nat.pow_nonzero 2 k ltac:(lia)). by destruct (Nat.eqb_spec (2 ^ k) 0).
    + destruct (Nat.eqb_spec ((q r + 2 ^ k) mod 2 ^ k) 0) as [H1|]; [|done]. destruct (Nat.eqb_spec ((q r + 2 ^ k) mod 2 ^ S k) 0) as [|H2]; [done|].
      destruct (mod_pow2_sub _ _ H1 H2) as [_ H3]. by replace (q r + 2 ^ k - 2 ^ k) with (q r) in H3 by lia.
  - rewrite andb_false_r. assert (E : (q r + 2 ^ k) mod P = q r + 2 ^ k - P) by mod_lia. rewrite E.
    rewrite (Nat.mod_small _ (2 ^ k)) by lia. destruct (Nat.eqb_spec (q r + 2 ^ k - P) 0) as [->|]; [|done]. by rewrite Nat.Div0.mod_0_l.
Qed.

(** ** Supersteps *)

Definition bin_inv (k r : nat) m : Prop :=
  (exists g, arr dsz m (bacc r) count g /\ (q r mod 2 ^ k = 0 -> forall i, i < count -> g i = bval k r i)) /\
  exists h, arr dsz m (btmp r) count h.
Definition bin_mid (k r : nat) m : Prop :=
  bin_inv k r m /\ (takes (q r) k = true -> arr dsz m (btmp r) count (bval k (child P k r))).

Lemma bin_exch_step k ms : (forall r, r < P -> bin_inv k r (ms r)) -> steps op dsz P (bin_exch k) ms (fun r m => bin_mid k r m).
Proof.
  intros Hms. destruct (decide (2 ^ k < P)) as [Hk|Hk].
  2:{ apply local_step. intros r Hr. destruct (bin_idle k r Hr) as [-> _]; [right; lia|]. split; [done|]. eexists. split; [done|]. split; [by apply Hms|].
      intros [_ Ht%Nat.ltb_lt]%andb_true_iff. lia. }
  apply (exchange_opt_step op dsz P _ ms _ (parent P k) (child P k) (fun r => bval k r <$> seq 0 count)
    (fun r => recv_entry (btmp r) count (child P k r)) (fun r => sends_up (q r) k)).
  { intros r Hr. assert (H : child P k r < P /\ parent P k r < P /\ parent P k (child P k r) = r /\ child P k (parent P k r) = r) by (by eapply tree_perm).
    by destruct H as (? & ? & ? & ?). }
  { intros r Hr. split; [|done]. rewrite <- takes_sends by done. unfold bin_exch. destruct (sends_up (q r) k) eqn:Es; [|by destruct (takes (q r) k)].
    assert (takes (q r) k = false) as ->; [|done]. unfold sends_up, takes in *. apply andb_true_iff in Es as [_ Es]. apply negb_true_iff in Es. by rewrite Es. }
  intros r Hr. destruct (Hms r Hr) as [(g & Hg & Hgv) [h Hh]]. rewrite <- takes_sends by done. exists (ms r).
  assert (Hstart : start_group op dsz (bin_exch k r) (ms r) = Some (ms r, if sends_up (q r) k then [(parent P k r, bval k r <$> seq 0 count)] else [])).
  { unfold bin_exch. destruct (sends_up (q r) k) eqn:Es; [|by destruct (takes (q r) k)]. cbn.
    apply andb_true_iff in Es as [Hq%Nat.eqb_eq _]. assert (A : arr dsz (ms r) (bacc r) count (bval k r)) by (eapply (arr_ext dsz); [|exact Hg]; auto).
    by rewrite (arr_read dsz _ _ _ _ A). }
  rewrite Hstart. destruct (takes (q r) k) eqn:Et.
  - destruct (recv_sub op dsz dsz_pos (ms r) (btmp r) count h 0 count (child P k r) (bval k (child P k r)) Hh) as (m' & E & A & K); [lia|].
    rewrite buffer_add_0 in E by done. exists m'. split; [done|]. split; [exact E|].
    assert (A' : arr dsz m' (btmp r) count (bval k (child P k r))).
    { eapply (arr_ext dsz); [|exact A]. intros i Hi. unfold upd. rewrite decide_True by lia. f_equal. lia. }
    split; [|done]. split; [|eauto]. exists g. split; [|done]. eapply keeps_arr; [exact K|by apply acc_tmp_ne|done].
  - exists (ms r). split; [done|]. split; [done|]. split; [|congruence]. split; eauto.
Qed.

Lemma bin_red_step `{!Assoc (=) op} k ms : (forall r, r < P -> bin_mid k r (ms r)) -> steps op dsz P (bin_red k) ms (fun r m => bin_inv (S k) r m).
Proof.
  intros Hms. apply local_step. intros r Hr. destruct (Hms r Hr) as [[(g & Hg & Hgv) [h Hh]] Ht]. unfold bin_red.
  destruct (takes (q r) k) eqn:Et.
  - specialize (Ht eq_refl). split; [done|].
    destruct (reduce_sub op dsz dsz_pos (ms r) (btmp r) count _ 0 (bacc r) count g 0 count Ht Hg) as (m' & E & A & K); [lia|lia|].
    rewrite !buffer_add_0 in E by done. exists m'. cbn. rewrite E. split; [done|]. split.
    + eexists. split; [exact A|]. intros Hq i Hi. unfold upd. rewrite decide_True by lia. rewrite !Nat.sub_0_r. cbn [Nat.add].
      rewrite Hgv by (try apply mod_pow2_S; done). symmetry. by apply bval_S.
    + exists (bval k (child P k r)). eapply keeps_arr; [exact K| |exact Ht]. intros E'. symmetry in E'. by apply acc_tmp_ne in E'.
  - split; [done|]. eexists. split; [done|]. split; [|eauto]. exists g. split; [done|]. intros Hq i Hi.
    rewrite Hgv by (try apply mod_pow2_S; done). symmetry. by apply bval_keep.
Qed.

Lemma bin_head_step ms :
  (forall r, r < P -> arr dsz (ms r) (send r) count (x r) /\ (exists g, arr dsz (ms r) (bacc r) count g) /\ exists h, arr dsz (ms r) (btmp r) count h) ->
  steps op dsz P bin_head ms (fun r m => bin_inv 0 r m).
Proof.
  intros Hms. apply local_step. intros r Hr. destruct (Hms r Hr) as (Hs & [g Hg] & [h Hh]). unfold bin_head.
  assert (Hv : forall i, bval 0 r i = x r i).
  { intros i. unfold bval, range, rank_of. assert (q r < P) by (by apply rel_lt). rewrite Nat.min_l by (cbn; lia). cbn.
    f_equal. unfold rel, relative_rank. destruct (Nat.leb_spec root r); mod_lia. }
  destruct (_ || _) eqn:Ec.
  - split; [done|]. destruct (copy_arr dsz dsz_pos _ _ _ _ _ _ Hs Hg) as (m' & E & A & K). exists m'. cbn. rewrite E. split; [done|]. split.
    + exists (x r). split; [done|]. intros _ i Hi. by rewrite Hv.
    + exists h. eapply keeps_arr; [exact K| |done]. intros E'. symmetry in E'. by apply acc_tmp_ne in E'.
  - split; [done|]. eexists. split; [done|]. split; [|eauto]. exists (x r). split; [|intros _ i Hi; by rewrite Hv].
    apply orb_false_iff in Ec as [E1 E2]. apply negb_false_iff in E1, E2. apply Nat.eqb_eq in E1. destruct (Hok r Hr) as [Hs0 Hb].
    destruct (Hb E1) as [Hr0 [Heq|Hne]].
    + unfold bacc. rewrite (proj2 (Nat.eqb_eq _ _) E1), <- Heq. done.
    + unfold bacc in E2. rewrite (proj2 (Nat.eqb_eq _ _) E1), buffer_eqb_src in E2; [done|lia|done].
Qed.

Lemma binomial_runs `{!Assoc (=) op} ms :
  (forall r, r < P -> arr dsz (ms r) (send r) count (x r) /\ (exists g, arr dsz (ms r) (bacc r) count g) /\ exists h, arr dsz (ms r) (btmp r) count h) ->
  runs op dsz P bin_groups ms (fun r m => bin_inv P r m).
Proof.
  intros Hms. eapply runs_cons; [by apply bin_head_step|]. intros ms1 H1.
  apply (runs_loop op dsz P _ (fun k r m => bin_inv k r m) 0 P); [|done]. intros k ms2 _ H2.
  eapply runs_cons; [by apply bin_exch_step|]. intros ms3 H3. by apply runs_one, bin_red_step.
Qed.
End binomial.

(** * The ring: reduce-scatter, then the root gathers *)

Section ring.
Context {V : Type} (op : V -> V -> V) (env : ccl_env) (dsz P root count : nat) (dsz_pos : 0 < dsz) (HP : 0 < P) (Hroot : root < P) (Hcount : 0 < count).
Context (send recv : nat -> ccl_buffer) (nx : nat -> nat) (x : nat -> nat -> V).
Context (Hok : forall r, r < P -> bin_bufs_ok root send recv nx r).
Abbreviation memory := (gmap (nat * nat) V).
Implicit Types (m : memory) (ms : nat -> memory).

Definition rbuf (r : nat) : ccl_buffer := if r =? root then recv r else mk_buffer (nx r) 0.
Definition rnx (r : nat) : nat := if r =? root then nx r else S (nx r).
Definition ralloc (r : nat) : list (nat * nat) := if r =? root then [] else [(nx r, count * dsz)].
Abbreviation cnt := (counts P count).
Abbreviation off := (boff P count).

Lemma ring_bufs_ok r : r < P -> bufs_ok send rbuf rnx r.
Proof.
  intros Hr. destruct (Hok r Hr) as [Hs Hb]. unfold bufs_ok, rbuf, rnx. destruct (Nat.eqb_spec r root) as [->|]; [|cbn; lia].
  destruct (Hb eq_refl). done.
Qed.

Definition take_block (idx : nat) : list entry :=
  if idx =? root then [] else [recv_entry (rbuf root +b off idx * dsz) (cnt idx) idx].
Definition gather_group (r : nat) : list entry :=
  if r =? root then seq 0 P ≫= take_block else [send_entry (rbuf r +b off r * dsz) (cnt r) root].

Definition ring_reduce_groups : list (nat -> list entry) :=
  block_all env dsz P count send rbuf rnx ++ [fun _ => []] ++ [gather_group].

Lemma gather_st r gs nx' al : r < P ->
  (if r =? root then
     for_range 0 P (fun idx => if negb (idx =? root) then create_recv (rbuf r +b byte_offsets dsz cnt idx) (cnt idx) idx else ret tt)
   else create_send (rbuf r +b byte_offsets dsz cnt r) (cnt r) root) (st gs [] nx' al) = Ok (tt, st gs (gather_group r) nx' al).
Proof.
  intros Hr. unfold gather_group. destruct (Nat.eqb_spec r root) as [->|Hne].
  - rewrite (for_range_run 0 P _ (fun i => st gs (seq 0 i ≫= take_block) nx' al)); [done|done|].
    intros i Hi. cbn [Nat.add]. rewrite bind_seq_snoc. cbn [Nat.add]. unfold take_block at 3.
    destruct (i =? root); cbn [negb]; [by rewrite app_nil_r|]. rewrite byte_offsets_total, (counts_total dsz P count dsz_pos HP Hcount) by lia. apply add_entry_st.
  - rewrite byte_offsets_total, (counts_total dsz P count dsz_pos HP Hcount) by done. apply add_entry_st.
Qed.

Lemma ring_reduce_st r : r < P ->
  ccl_coll_build_ring_reduce env dsz P r (send r) (recv r) count root (st [] [] (nx r) []) =
  Ok (tt, st (at_rank r ring_reduce_groups) [] (block_next P send rbuf rnx r) (ralloc r ++ block_allocs dsz P count send rbuf rnx r)).
Proof.
  intros Hr. unfold ccl_coll_build_ring_reduce. rewrite (proj2 (Nat.eqb_neq count 0)) by lia.
  assert (E1 : (if negb (r =? root) then alloc_buffer (count * dsz) else ret (recv r)) (st [] [] (nx r) []) = Ok (rbuf r, st [] [] (rnx r) (ralloc r))).
  { unfold rbuf, rnx, ralloc. destruct (r =? root); [done|]. cbn [negb]. apply alloc_buffer_st; alloc_pos. }
  rewrite (bind_Ok _ _ _ _ _ E1).
  assert (buffer_bool (send r) = true /\ buffer_bool (rbuf r) = true) as [-> ->].
  { destruct (ring_bufs_ok r Hr) as (? & ? & _). unfold buffer_bool. rewrite !bool_decide_eq_true_2 by lia. done. }
  cbn [andb]. rewrite (bind_Ok _ _ _ _ _ (block_st env dsz P count send rbuf rnx r [] (ralloc r) Hr ltac:(nia) (ring_bufs_ok r Hr))).
  build_simp. fold cnt. rewrite (bind_Ok _ _ _ _ _ (gather_st r _ _ _ Hr)). build_simp. unfold ring_reduce_groups. by rewrite !at_rank_app.
Qed.

Lemma block_slices_apart b b' : b <> b' -> b < P -> b' < P ->
  apart dsz (rbuf root +b off b * dsz, cnt b) (rbuf root +b off b' * dsz, cnt b').
Proof.
  intros Hne Hb Hb'. apply apart_sub. rewrite !(counts_bsize dsz P count dsz_pos HP Hcount).
  destruct (lt_eq_lt_dec b b') as [[H|?]|H]; [left; by apply block_before|done|right; by apply block_before].
Qed.

Lemma gather_ok r : group_ok dsz (gather_group r).
Proof.
  unfold gather_group. destruct (r =? root); [|group_races]. apply group_ok_loop.
  - intros i _. unfold take_block. destruct (i =? root); group_races.
  - intros i j a b Hij Hj Ha Hb _. unfold take_block in *.
    destruct (i =? root); [by apply not_elem_of_nil in Ha|]. destruct (j =? root); [by apply not_elem_of_nil in Hb|].
    apply list_elem_of_singleton in Ha as ->. apply list_elem_of_singleton in Hb as ->. race_cases; apply block_slices_apart; lia.
Qed.

Lemma ring_reduce_groups_ok r : r < P -> Forall (group_ok dsz) (at_rank r ring_reduce_groups).
Proof.
  intros Hr. unfold ring_reduce_groups. rewrite !at_rank_app, !Forall_app. split_and!.
  - apply block_all_ok; [done|by apply ring_bufs_ok].
  - by repeat constructor.
  - repeat constructor. apply gather_ok.
Qed.

(** The message of rank [r]: its reduced block. *)
Abbreviation value b i := (acc op P send rbuf x (P - 1) b i).
Definition block_msg (b : nat) : list V := (fun i => value b (off b + i)) <$> seq 0 (cnt b).
Definition take_msg (idx : nat) : list (entry * list V) :=
  if idx =? root then [] else [(recv_entry (rbuf root +b off idx * dsz) (cnt idx) idx, block_msg idx)].

Lemma in_block_inj b b' i : b < P -> b' < P -> off b <= i < off b + cnt b -> off b' <= i < off b' + cnt b' -> b = b'.
Proof.
  intros Hb Hb' H H'. rewrite (counts_bsize dsz P count dsz_pos HP Hcount) in *. destruct (lt_eq_lt_dec b b') as [[Hlt|?]|Hlt]; [|done|].
  - pose proof (block_before P count HP b b' Hlt Hb'). lia.
  - pose proof (block_before P count HP b' b Hlt Hb). lia.
Qed.

(** The root holds the blocks of [S]. *)
Definition holds (S : nat -> Prop) m : Prop :=
  exists g, arr dsz m (rbuf root) count g /\ forall b i, b < P -> S b -> off b <= i < off b + cnt b -> g i = value b i.

Lemma gather_complete m : holds (fun b => b = root) m ->
  exists m', complete_group op dsz (seq 0 P ≫= take_msg) m = Some m' /\ holds (fun _ => True) m'.
Proof.
  intros Hm. destruct (complete_group_bind op dsz (seq 0 P) take_msg (fun l m => holds (fun b => b = root \/ b ∈ l) m) [] m)
    with (todo := seq 0 P) as (m' & Hc & g & Hg & Hgv).
  - intros l b todo m1 Hl (g & Hg & Hgv).
    assert (Hb : b < P) by (assert (Hin : b ∈ seq 0 P) by (rewrite Hl; set_solver); apply elem_of_seq in Hin; lia).
    unfold take_msg. destruct (Nat.eqb_spec b root) as [->|Hne].
    { exists m1. split; [done|]. exists g. split; [done|]. intros b i Hb' [->|[Hin| ->%list_elem_of_singleton]%elem_of_app]; auto. }
    assert (Hle : off b + cnt b <= count) by (rewrite (counts_bsize dsz P count dsz_pos HP Hcount); by apply block_bound).
    destruct (recv_sub op dsz dsz_pos m1 (rbuf root) count g (off b) (cnt b) b (fun i => value b (off b + i)) Hg Hle) as (m2 & E & A & _).
    exists m2. split; [cbn [complete_group]; unfold block_msg; by rewrite E|]. eexists. split; [exact A|]. intros b' i Hb' HS Hi. unfold upd. case_decide as Hd.
    + assert (b' = b) as -> by (by eapply in_block_inj). f_equal. lia.
    + apply Hgv; [done| |done]. destruct HS as [->|[Hin| ->%list_elem_of_singleton]%elem_of_app]; [auto|auto|lia].
  - done.
  - destruct Hm as (g & Hg & Hgv). exists g. split; [done|]. intros b i Hb [->|Hin]; [by apply Hgv|by apply not_elem_of_nil in Hin].
  - exists m'. split; [done|]. exists g. split; [done|]. intros b i Hb _. apply Hgv; [done|]. right. apply elem_of_seq. lia.
Qed.

Lemma gather_step ms : (forall r, r < P -> block_done op dsz P count send rbuf x r (ms r)) ->
  steps op dsz P gather_group ms (fun r m => r = root -> holds (fun _ => True) m).
Proof.
  intros Hms. apply (matched_step op dsz P _ ms _ (fun r => if r =? root then [] else [(root, block_msg r)])
    (fun r => if r =? root then seq 0 P ≫= take_msg else [])).
  - intros r Hr. destruct (Hms r Hr) as (g & Hg & Hgv). unfold gather_group. destruct (Nat.eqb_spec r root) as [->|Hne].
    + destruct (gather_complete (ms root)) as (m' & Hc & Hh).
      { exists g. split; [done|]. intros b i Hb -> Hi. rewrite (counts_bsize dsz P count dsz_pos HP Hcount) in Hi. by apply Hgv. }
      exists (ms root), m'. split; [|split; [|done]].
      * rewrite (start_group_bind op dsz _ _ (fun _ => [])); [by rewrite bind_seq_none|]. intros i _. unfold take_block. by destruct (i =? root).
      * rewrite recvs_bind, fst_bind. apply list_bind_ext; [|done]. intros i. unfold take_msg, take_block. by destruct (i =? root).
    + exists (ms r), (ms r). split; [|done].
      assert (A : arr dsz (ms r) (rbuf r +b off r * dsz) (cnt r) (fun i => value r (off r + i))).
      { eapply (arr_ext dsz); [|eapply arr_sub; [exact dsz_pos|exact Hg|rewrite (counts_bsize dsz P count dsz_pos HP Hcount); by apply block_bound]].
        intros i Hi. rewrite (counts_bsize dsz P count dsz_pos HP Hcount) in Hi. apply Hgv. lia. }
      cbn. by rewrite (arr_read dsz _ _ _ _ A).
  - intros r d Hr Hd. destruct (r =? root); [by apply not_elem_of_nil in Hd|]. apply list_elem_of_singleton in Hd as ->. done.
  - intros r e s Hr He Hs. destruct (r =? root); [|by apply not_elem_of_nil in He]. rewrite fst_bind in He.
    apply list_elem_of_bind in He as (i & Hi & Hin%elem_of_seq). unfold take_msg in Hi. destruct (i =? root); [by apply not_elem_of_nil in Hi|].
    apply list_elem_of_singleton in Hi as ->. injection Hs as <-. lia.
  - intros s d Hs Hd. destruct (Nat.eqb_spec d root) as [->|Hd'].
    + rewrite msgs_from_bind, (bind_seq_one 0 P _ s); [|lia|].
      * unfold take_msg. destruct (s =? root); [done|]. unfold msgs_to, msgs_from. by rewrite !filter_cons_True.
      * intros i _ Hi. unfold take_msg. destruct (i =? root); [done|]. unfold msgs_from. rewrite filter_cons_False; [done|]. cbn. congruence.
    + destruct (s =? root); [done|]. unfold msgs_to. rewrite filter_cons_False; [done|]. cbn. congruence.
Qed.

Lemma holds_all m : Assoc (=) op -> Comm (=) op -> holds (fun _ => True) m ->
  arr dsz m (recv root) count (fun i => reduce_ranks op P (fun r => x r i)).
Proof.
  intros Ha Hc (g & Hg & Hgv). unfold rbuf in Hg. rewrite Nat.eqb_refl in Hg. eapply (arr_ext dsz); [|exact Hg]. intros i Hi.
  destruct (block_of_spec dsz P count dsz_pos HP Hcount i Hi) as [Hb Hin]. rewrite (Hgv (block_of P count i)); [|done|done|by rewrite (counts_bsize dsz P count dsz_pos HP Hcount)].
  by apply (acc_total op dsz).
Qed.
End ring.

(** * Theorems *)

(** Around the communicator from the root is rank order for root 0, and otherwise when the operation is commutative. *)
Lemma reduce_ranks_rotate {V} (op : V -> V -> V) `{!Assoc (=) op} P root (f : nat -> V) : root < P -> root = 0 \/ Comm (=) op ->
  reduce_ranks op P (fun j => f ((j + root) mod P)) = reduce_ranks op P f.
Proof.
  intros Hr [->|Hc].
  - unfold reduce_ranks. rewrite Nat.Div0.mod_0_l. f_equal. apply list_fmap_ext. intros i j [-> Hj]%lookup_seq. rewrite Nat.add_0_r, Nat.mod_small by lia. done.
  - apply (fold1_any_order op P f ((fun j => (j + root) mod P) <$> seq 0 P)).
    + apply NoDup_fmap_2_strong; [|apply NoDup_seq]. intros i j Hi%elem_of_seq Hj%elem_of_seq E. mod_lia.
    + by rewrite length_fmap, length_seq.
    + intros r (j & -> & _)%list_elem_of_fmap. apply Nat.mod_upper_bound. lia.
    + lia.
    + rewrite <- list_fmap_compose. apply (fold1_ranks op P). lia.
Qed.

Section theorems.
Context {V : Type} (op : V -> V -> V) (env : ccl_env) (dsz P root count : nat).
Context (send recv : nat -> ccl_buffer) (nx : nat -> nat) (x : nat -> nat -> V).
Implicit Types m : gmap (nat * nat) V.

Definition reduce_pre (r : nat) m : Prop :=
  arr dsz m (send r) count (x r) /\ (r = root -> exists g, arr dsz m (recv r) count g).

Lemma binomial_reduces :
  0 < dsz -> root < P -> 0 < count -> Assoc (=) op -> (forall r, r < P -> bin_bufs_ok root send recv nx r) ->
  implements op dsz P (fun r => ccl_coll_build_binomial_reduce dsz P r (send r) (recv r) count root) nx reduce_pre
    (fun r m => r = root -> arr dsz m (recv r) count (fun i => reduce_ranks op P (fun j => x ((j + root) mod P) i))).
Proof.
  intros Hd Hroot Hc Ha Hok. eapply (implements_intro _ _ _ _ _ _ _ (bin_groups P root count send recv nx) (fun _ => [])
    (bin_next root nx) (bin_allocs dsz root count nx)); [done| | |].
  - intros r Hr. apply (binomial_st op) with (x := x); (done || lia).
  - intros r Hr. split; [|done]. by apply bin_groups_ok.
  - intros ms Hms. eapply runs_seq; [apply (binomial_runs op dsz P root count) with (x := x); try done; try lia|].
    + intros r Hr. destruct (Hms r Hr) as [[Hs Hg] Hal]. unfold bin_allocs in Hal. apply Forall_cons in Hal as [[h Hh] Hal].
      cbn in Hh. rewrite Nat.div_mul in Hh by lia. split; [done|]. split; [|by exists h]. unfold bacc. destruct (Nat.eqb_spec r root) as [->|]; [auto|].
      apply Forall_cons in Hal as [[g' Hg'] _]. cbn in Hg'. rewrite Nat.div_mul in Hg' by lia. by exists g'.
    + intros ms1 H1. apply runs_one, skip_step. intros r Hr ->. destruct (H1 root Hr) as [(g & Hg & Hgv) _].
      unfold bacc in Hg. rewrite Nat.eqb_refl in Hg. assert (Hq : rel P root root = 0) by (by apply rel_root; (done || lia)).
      eapply (arr_ext dsz); [|exact Hg]. intros i Hi. rewrite Hgv; [|rewrite Hq; apply Nat.Div0.mod_0_l|done].
      unfold bval. rewrite Hq, Nat.sub_0_r, Nat.min_r; [done|]. pose proof (Nat.pow_gt_lin_r 2 P ltac:(lia)). lia.
Qed.

(** C12: the binomial reduce with an associative operation, commutative or not: every interleaving
    ends, and the root's receive buffer then holds the elements of all ranks combined in the order
    root, root + 1, ... around the communicator; for root 0, and for a commutative operation, that is rank order.  (The comment in the code has
    another root for a non-commutative operation: [binomial_ignores_commutativity].) *)
Theorem binomial_reduce_correct :
  0 < dsz -> root < P -> 0 < count -> Assoc (=) op -> (forall r, r < P -> bin_bufs_ok root send recv nx r) ->
  implements op dsz P (fun r => ccl_coll_build_binomial_reduce dsz P r (send r) (recv r) count root) nx reduce_pre
    (fun r m => r = root -> arr dsz m (recv r) count (fun i => reduce_ranks op P (fun j => x ((j + root) mod P) i))) /\
  (root = 0 \/ Comm (=) op -> forall i, reduce_ranks op P (fun j => x ((j + root) mod P) i) = reduce_ranks op P (fun j => x j i)).
Proof. intros Hd Hroot Hc Ha Hok. split; [by apply binomial_reduces|]. intros Ho i. by apply (reduce_ranks_rotate op P root (fun j => x j i)). Qed.

Lemma ring_reduces :
  0 < dsz -> root < P -> 0 < count -> Assoc (=) op -> Comm (=) op -> (forall r, r < P -> bin_bufs_ok root send recv nx r) ->
  implements op dsz P (fun r => ccl_coll_build_ring_reduce env dsz P r (send r) (recv r) count root) nx reduce_pre
    (fun r m => r = root -> arr dsz m (recv r) count (fun i => reduce_ranks op P (fun j => x j i))).
Proof.
  intros Hd Hroot Hc Ha Hcm Hok. set (rb := rbuf root recv nx). set (rn := rnx root nx).
  assert (Hbok : forall r, r < P -> bufs_ok send rb rn r) by (intros r Hr; by apply (ring_bufs_ok dsz P root count); (done || lia)).
  eapply (implements_intro _ _ _ _ _ _ _ (ring_reduce_groups env dsz P root count send recv nx) (fun _ => [])
    (block_next P send rb rn) (fun r => ralloc dsz root count nx r ++ block_allocs dsz P count send rb rn r)); [done| | |].
  - intros r Hr. apply ring_reduce_st; try done; lia.
  - intros r Hr. split; [|done]. apply ring_reduce_groups_ok; try done; lia.
  - intros ms Hms. apply (runs_seq op dsz P _ [fun _ => []] ms
      (fun r m => r = root -> arr dsz m (recv r) count (fun i => reduce_ranks op P (fun j => x j i))));
      [|intros ms1 H1; by apply runs_one, skip_step]. unfold ring_reduce_groups.
    eapply runs_seq; [apply (block_bsp op env dsz P count send rb rn x); [done|done|lia|]|].
    + intros r Hr. destruct (Hms r Hr) as [[Hs Hg] [Hal1 Hal2]%Forall_app]. split; [done|]. split; [|intros; eapply block_tmp; [..|exact Hal2|done|done]; (done || lia)].
      unfold rb, rbuf, ralloc in *. destruct (Nat.eqb_spec r root) as [->|]; [auto|]. apply Forall_cons in Hal1 as [[g' Hg'] _].
      cbn in Hg'. rewrite Nat.div_mul in Hg' by lia. by exists g'.
    + intros ms1 H1. eapply runs_cons; [by apply skip_step|]. intros ms2 H2. eapply runs_weaken; [|apply runs_one, gather_step; [done|lia|done|done|done|exact H2]].
      intros r m Hr H ->. eapply holds_all; try done; try lia. by apply H.
Qed.

(** The ring reduce with an associative and commutative operation: every interleaving ends, and
    the root's receive buffer then holds the reduction over all ranks, for any chunking. *)
Theorem ring_reduce_correct :
  0 < dsz -> root < P -> 0 < count -> Assoc (=) op -> Comm (=) op -> (forall r, r < P -> bin_bufs_ok root send recv nx r) ->
  implements op dsz P (fun r => ccl_coll_build_ring_reduce env dsz P r (send r) (recv r) count root) nx reduce_pre
    (fun r m => r = root -> arr dsz m (recv r) count (fun i => reduce_ranks op P (fun j => x j i))).
Proof. apply ring_reduces. Qed.
End theorems.

(** The comment of the code says that, for an operation that is not commutative and a root other than 0, root 0 is used and the result then sent to the root, so that
    the result is in rank order.  The code does not look at the operation: of two ranks, with root 1 and the associative operation that keeps its first argument,
    the root ends with its own elements; in rank order they are those of rank 0. *)
Theorem binomial_ignores_commutativity (dsz count : nat) (send recv : nat -> ccl_buffer) (nx : nat -> nat) (x : nat -> nat -> nat) (keep := fun a _ : nat => a) :
  0 < dsz -> 0 < count -> (forall r, r < 2 -> bin_bufs_ok 1 send recv nx r) ->
  implements keep dsz 2 (fun r => ccl_coll_build_binomial_reduce dsz 2 r (send r) (recv r) count 1) nx (reduce_pre dsz 1 count send recv x)
    (fun r m => r = 1 -> arr dsz m (recv r) count (x 1)) /\
  forall i, reduce_ranks keep 2 (fun j => x j i) = x 0 i.
Proof.
  intros Hd Hc Hok. split; [|done]. apply (binomial_reduces keep dsz 2 1 count send recv nx x); try done; lia.
Qed.

Lemma binomial_reduce_correct_witness :
  implements Nat.add 4 5 (fun r => ccl_coll_build_binomial_reduce 4 5 r (send_ex r) (recv_ex r) 7 2) nx_ex
    (reduce_pre 4 2 7 send_ex recv_ex x_ex)
    (fun r m => r = 2 -> arr 4 m (recv_ex r) 7 (fun i => reduce_ranks Nat.add 5 (fun j => x_ex ((j + 2) mod 5) i))) /\
  (2 = 0 \/ Comm (=) Nat.add -> forall i, reduce_ranks Nat.add 5 (fun j => x_ex ((j + 2) mod 5) i) = reduce_ranks Nat.add 5 (fun j => x_ex j i)).
Proof.
  apply (binomial_reduce_correct Nat.add 4 5 2 7 send_ex recv_ex nx_ex x_ex); [lia|lia|lia|exact _|].
  intros r _. unfold bin_bufs_ok, send_ex, recv_ex, nx_ex. cbn. lia.
Defined.

Lemma ring_reduce_correct_witness :
  implements Nat.add 4 5 (fun r => ccl_coll_build_ring_reduce env_ex 4 5 r (send_ex r) (recv_ex r) 7 2) nx_ex
    (reduce_pre 4 2 7 send_ex recv_ex x_ex)
    (fun r m => r = 2 -> arr 4 m (recv_ex r) 7 (fun i => reduce_ranks Nat.add 5 (fun j => x_ex j i))).
Proof.
  apply (ring_reduce_correct Nat.add env_ex 4 5 2 7 send_ex recv_ex nx_ex x_ex); [lia|lia|lia|exact _|exact _|].
  intros r _. unfold bin_bufs_ok, send_ex, recv_ex, nx_ex. cbn. lia.
Defined.
