(* ===== verification/Doubling.v ===== *)
(** The recursive-doubling allreduce of [src/src/coll/algorithms/allreduce/allreduce.cpp].

    The ranks above a power of two fold into their neighbours, the others exchange
    and combine with the rank whose number differs in one bit, bit by bit, and the
    result is sent back to the ranks that folded. *)

From S2P Require Import Prelude AtlTag Sched Network Race Bsp Build Reduction ReduceScatter Bcast Reduce.
Open Scope nat_scope.
Open Scope ccl_scope.

(** * Builder *)

(** [while (mask < pof2)] *)
Fixpoint doubling_loop (fuel pof2 rem newrank count : nat) (tmp_buf recv_buf : ccl_buffer) (mask : nat) : build unit :=
  match fuel with
  | O => throw
  | S fuel' =>
    if mask <? pof2 then
      let newdst := Nat.lxor newrank mask in
      let dst := if newdst <? rem then newdst * 2 + 1 else newdst + rem in
      create_recv tmp_buf count dst ;;;
      create_send recv_buf count dst ;;;
      add_barrier ;;;
      create_reduce_local tmp_buf count recv_buf ;;;
      add_barrier ;;;
      doubling_loop fuel' pof2 rem newrank count tmp_buf recv_buf (mask * 2)
    else ret tt
  end.

(** [pof2] is [comm->pof2()]; a [newrank] of -1 is [None]. *)
Definition ccl_coll_build_recursive_doubling_allreduce (dsz comm_size pof2 rank : nat) (send_buf recv_buf : ccl_buffer)
    (count : nat) : build unit :=
  if count =? 0 then ret tt else
  tmp_buf <-- alloc_buffer (count * dsz) ;;
  (if negb (buffer_eqb send_buf recv_buf) then create_copy send_buf recv_buf count ;;; add_barrier else ret tt) ;;;
  if comm_size =? 1 then ret tt else
  let rem := comm_size - pof2 in
  newrank <--
    (if rank <? 2 * rem then
       if rank mod 2 =? 0 then
         create_send recv_buf count (rank + 1) ;;; add_barrier ;;; ret None
       else
         create_recv tmp_buf count (rank - 1) ;;; add_barrier ;;;
         create_reduce_local tmp_buf count recv_buf ;;; add_barrier ;;; ret (Some (rank / 2))
     else ret (Some (rank - rem))) ;;
  match newrank with
  | Some newrank => doubling_loop (S pof2) pof2 rem newrank count tmp_buf recv_buf 1
  | None => ret tt
  end ;;;
  if rank <? 2 * rem then
    (if negb (rank mod 2 =? 0) then create_send recv_buf count (rank - 1)
     else create_recv recv_buf count (rank + 1)) ;;;
    add_barrier
  else ret tt.

(** * Ranks that differ in one bit *)

Definition flip (j k : nat) : nat := Nat.lxor j (2 ^ k).

Lemma shiftr_flip j k n : Nat.shiftr (flip j k) n = Nat.lxor (Nat.shiftr j n) (if n <=? k then 2 ^ (k - n) else 0).
Proof.
  unfold flip. rewrite Nat.shiftr_lxor. f_equal. rewrite Nat.shiftr_div_pow2. destruct (Nat.leb_spec n k).
  - replace (2 ^ k) with (2 ^ (k - n) * 2 ^ n) by (rewrite <- Nat.pow_add_r; f_equal; lia). apply Nat.div_mul, Nat.pow_nonzero. lia.
  - apply Nat.div_small. by apply Nat.pow_lt_mono_r; [lia|].
Qed.

Lemma flip_above j k n : k < n -> flip j k / 2 ^ n = j / 2 ^ n.
Proof.
  intros H. rewrite <- !Nat.shiftr_div_pow2, shiftr_flip. destruct (Nat.leb_spec n k); [lia|]. apply Nat.lxor_0_r.
Qed.

Lemma flip_at j k : flip j k / 2 ^ k <> j / 2 ^ k.
Proof.
  rewrite <- !Nat.shiftr_div_pow2, shiftr_flip, Nat.leb_refl, Nat.sub_diag. intros E.
  apply (f_equal (Nat.lxor (Nat.shiftr j k))) in E. rewrite <- Nat.lxor_assoc, Nat.lxor_nilpotent in E. by rewrite Nat.lxor_0_l in E.
Qed.

(** Of the two halves of a block one is [j]'s. *)
Lemma flip_half j k n : n / 2 ^ S k = j / 2 ^ S k <-> n / 2 ^ k = j / 2 ^ k \/ n / 2 ^ k = flip j k / 2 ^ k.
Proof.
  assert (E : forall a, a / 2 ^ S k = a / 2 ^ k / 2) by (intros; rewrite Nat.Div0.div_div; f_equal; cbn; lia).
  pose proof (flip_above j k (S k) ltac:(lia)) as Hf. pose proof (flip_at j k) as Hn. rewrite !E in *.
  set (a := n / 2 ^ k) in *. set (b := j / 2 ^ k) in *. set (c := flip j k / 2 ^ k) in *.
  pose proof (Nat.div_mod_eq a 2). pose proof (Nat.div_mod_eq b 2). pose proof (Nat.div_mod_eq c 2).
  pose proof (Nat.mod_upper_bound a 2). pose proof (Nat.mod_upper_bound b 2). pose proof (Nat.mod_upper_bound c 2). lia.
Qed.

Lemma flip_flip j k : flip (flip j k) k = j.
Proof. unfold flip. by rewrite Nat.lxor_assoc, Nat.lxor_nilpotent, Nat.lxor_0_r. Qed.

Lemma flip_lt j k K : j < 2 ^ K -> k < K -> flip j k < 2 ^ K.
Proof.
  intros Hj Hk. pose proof (Nat.pow_nonzero 2 K ltac:(lia)). apply Nat.div_small_iff; [done|]. rewrite flip_above by done. by apply Nat.div_small.
Qed.

(** * The members of a block *)

Section doubling.
Context {V : Type} (op : V -> V -> V) (dsz P K count : nat) (dsz_pos : 0 < dsz) (HK : 2 ^ K <= P < 2 ^ S K) (Hcount : 0 < count).
Context (send recv : nat -> ccl_buffer) (nx : nat -> nat) (x : nat -> nat -> V).
Context (Hok : forall r, r < P -> bufs_ok send recv nx r).
Abbreviation memory := (gmap (nat * nat) V).
Implicit Types (m : memory) (ms : nat -> memory).

Abbreviation pof2 := (2 ^ K).
Abbreviation rem := (P - 2 ^ K).

(** Rank [r] folds into its successor; the others take part, as number [num r]. *)
Definition folds (r : nat) : bool := (r <? 2 * rem) && (r mod 2 =? 0).
Definition num (r : nat) : nat := if r <? 2 * rem then r / 2 else r - rem.
Definition real (j : nat) : nat := if j <? rem then j * 2 + 1 else j + rem.
(** The neighbour of a folding rank and of the rank it folds into. *)
Definition mate (r : nat) : nat := if r <? 2 * rem then (if r mod 2 =? 0 then r + 1 else r - 1) else r.
Definition pair (k r : nat) : nat := if folds r then r else real (flip (num r) k).

Lemma rem_lt : rem < pof2 /\ 2 * rem < P + 1 /\ P = pof2 + rem.
Proof. cbn [Nat.pow] in HK. lia. Qed.

Lemma num_lt r : r < P -> num r < pof2.
Proof.
  pose proof rem_lt as (H1 & H2 & H3). intros Hr. unfold num. destruct (Nat.ltb_spec r (2 * rem)); [|lia]. apply Nat.Div0.div_lt_upper_bound. lia.
Qed.
Lemma real_lt j : j < pof2 -> real j < P /\ folds (real j) = false /\ num (real j) = j.
Proof.
  pose proof rem_lt as (H1 & H2 & H3). intros Hj. unfold real, folds, num. destruct (Nat.ltb_spec j rem).
  - destruct (Nat.ltb_spec (j * 2 + 1) (2 * rem)); [|lia]. rewrite Nat.div_add_l by lia.
    replace ((j * 2 + 1) mod 2) with 1 by (rewrite Nat.add_comm, Nat.Div0.mod_add; done). cbn. split_and!; [lia|done|lia].
  - destruct (Nat.ltb_spec (j + rem) (2 * rem)); [lia|]. cbn. split_and!; [lia|done|lia].
Qed.
Lemma real_num r : r < P -> folds r = false -> real (num r) = r.
Proof.
  pose proof rem_lt as (H1 & H2 & H3). intros Hr. unfold real, folds, num. destruct (Nat.ltb_spec r (2 * rem)).
  - cbn [andb]. destruct (Nat.eqb_spec (r mod 2) 0); [done|]. intros _. pose proof (Nat.div_mod_eq r 2). pose proof (Nat.mod_upper_bound r 2).
    destruct (Nat.ltb_spec (r / 2) rem); lia.
  - intros _. destruct (Nat.ltb_spec (r - rem) rem); lia.
Qed.

Lemma pair_perm k r : k < K -> r < P -> pair k r < P /\ pair k (pair k r) = r.
Proof.
  intros Hk Hr. unfold pair at 1 3. destruct (folds r) eqn:E; [split; [done|]; unfold pair; by rewrite E|].
  destruct (real_lt (flip (num r) k)) as (H1 & H2 & H3); [apply flip_lt; [by apply num_lt|done]|].
  split; [done|]. unfold pair. by rewrite H2, H3, flip_flip, real_num.
Qed.
Lemma mate_perm r : r < P -> mate r < P /\ mate (mate r) = r.
Proof.
  pose proof rem_lt as (H1 & H2 & H3). intros Hr. unfold mate. destruct (Nat.ltb_spec r (2 * rem)) as [Hlt|Hge].
  - pose proof (Nat.div_mod_eq r 2). pose proof (Nat.mod_upper_bound r 2). destruct (Nat.eqb_spec (r mod 2) 0) as [E|E].
    + assert (E1 : (r + 1) mod 2 = 1) by (rewrite Nat.Div0.add_mod, E; done). rewrite E1.
      destruct (Nat.ltb_spec (r + 1) (2 * rem)); [cbn; lia|lia].
    + assert (E1 : (r - 1) mod 2 = 0) by (replace (r - 1) with (r / 2 * 2) by lia; apply Nat.Div0.mod_mul). rewrite E1.
      destruct (Nat.ltb_spec (r - 1) (2 * rem)); [cbn; lia|lia].
  - by destruct (Nat.ltb_spec r (2 * rem)); [lia|].
Qed.

(** The ranks whose elements rank number [j] has combined after [k] rounds, in order. *)
Fixpoint members (k j : nat) : list nat :=
  match k with
  | O => if j <? rem then [2 * j + 1; 2 * j] else [j + rem]
  | S k' => members k' j ++ members k' (flip j k')
  end.

Lemma members_spec k j r : j < pof2 -> k <= K -> r ∈ members k j <-> r < P /\ num r / 2 ^ k = j / 2 ^ k.
Proof.
  pose proof rem_lt as (H1 & H2 & H3). revert j. induction k as [|k IH]; intros j Hj Hk; cbn [members].
  - rewrite !Nat.pow_0_r, !Nat.div_1_r. unfold num. pose proof (Nat.div_mod_eq r 2). pose proof (Nat.mod_upper_bound r 2).
    destruct (Nat.ltb_spec j rem), (Nat.ltb_spec r (2 * rem)); rewrite ?elem_of_cons, ?elem_of_nil; lia.
  - rewrite elem_of_app, !IH by (try apply flip_lt; lia). rewrite flip_half. tauto.
Qed.

Lemma members_NoDup k j : j < pof2 -> k <= K -> NoDup (members k j).
Proof.
  revert j. induction k as [|k IH]; intros j Hj Hk; cbn [members].
  - destruct (j <? rem); repeat constructor; rewrite ?elem_of_cons, ?elem_of_nil; lia.
  - apply NoDup_app. split_and!; [apply IH; lia| |apply IH; [apply flip_lt|]; lia]. intros r [_ Hr]%members_spec; [|lia..].
    intros [_ Hr']%members_spec; [|apply flip_lt; lia|lia]. apply (flip_at j k). congruence.
Qed.

Lemma members_all j : j < pof2 -> members K j ≡ₚ seq 0 P.
Proof.
  intros Hj. apply NoDup_Permutation; [by apply members_NoDup|apply NoDup_seq|].
  intros r. rewrite members_spec, elem_of_seq by lia. split; [lia|]. intros Hr. split; [lia|].
  rewrite !Nat.div_small; [done|done|apply num_lt; lia].
Qed.

(** What rank number [j] holds after [k] rounds. *)
Fixpoint dval (k j i : nat) : V :=
  match k with
  | O => if j <? rem then op (x (2 * j + 1) i) (x (2 * j) i) else x (j + rem) i
  | S k' => op (dval k' j i) (dval k' (flip j k') i)
  end.

Lemma fold1_app `{!Assoc (=) op} l1 l2 v1 v2 : fold1 op l1 = Some v1 -> fold1 op l2 = Some v2 -> fold1 op (l1 ++ l2) = Some (op v1 v2).
Proof.
  destruct l1 as [|a l1], l2 as [|b l2]; try done. cbn. intros [= <-] [= <-]. rewrite fold_left_app. cbn. by rewrite fold_left_assoc.
Qed.

Lemma dval_members `{!Assoc (=) op} k j i : fold1 op ((fun r => x r i) <$> members k j) = Some (dval k j i).
Proof.
  revert j. induction k as [|k IH]; intros j; cbn [members dval]; [by destruct (j <? rem)|]. rewrite fmap_app. by apply fold1_app.
Qed.

Lemma dval_total `{!Assoc (=) op, !Comm (=) op} j i : j < pof2 -> dval K j i = reduce_ranks op P (fun r => x r i).
Proof.
  intros Hj. pose proof (dval_members K j i) as E. pose proof (members_all j Hj) as Hp.
  rewrite (fold1_perm op _ ((fun r => x r i) <$> seq 0 P)), fold1_ranks in E by (rewrite ?Hp; (done || lia)). congruence.
Qed.

(** * The schedule *)

Definition dtmp (r : nat) : ccl_buffer := mk_buffer (nx r) 0.
Definition dcopy (r : nat) : list entry :=
  if negb (buffer_eqb (send r) (recv r)) then [copy_entry (send r) (recv r) count] else [].
Definition takes_in (r : nat) : bool := (r <? 2 * rem) && negb (r mod 2 =? 0).
Definition dfold (r : nat) : list entry :=
  if folds r then [send_entry (recv r) count (mate r)]
  else if takes_in r then [recv_entry (dtmp r) count (mate r)] else [].
Definition dfold_red (r : nat) : list entry :=
  if takes_in r then [reduce_local_entry (dtmp r) count (recv r)] else [].
Definition dexch (k r : nat) : list entry :=
  if folds r then [] else [recv_entry (dtmp r) count (pair k r); send_entry (recv r) count (pair k r)].
Definition dred (k r : nat) : list entry :=
  if folds r then [] else [reduce_local_entry (dtmp r) count (recv r)].
Definition dback (r : nat) : list entry :=
  if takes_in r then [send_entry (recv r) count (mate r)]
  else if folds r then [recv_entry (recv r) count (mate r)] else [].
Definition dgroups : list (nat -> list entry) :=
  [dcopy; dfold; dfold_red] ++ (seq 0 K ≫= fun k => [dexch k; dred k]) ++ [dback].

Lemma doubling_loop_st r gs nx' al : r < P -> folds r = false -> forall fuel k, pof2 < 2 ^ k + fuel -> 0 < fuel -> k <= K ->
  doubling_loop fuel pof2 rem (num r) count (dtmp r) (recv r) (2 ^ k) (st gs [] nx' al) =
  Ok (tt, st (gs ++ (seq k (K - k) ≫= fun k => [dexch k r; dred k r])) [] nx' al).
Proof.
  intros Hr Hfo fuel. revert gs. induction fuel as [|fuel IH]; intros gs k Hf Hf0 Hk; [lia|]. cbn [doubling_loop].
  pose proof (Nat.pow_nonzero 2 k ltac:(lia)). destruct (Nat.ltb_spec (2 ^ k) pof2) as [Hlt|Hge].
  - assert (k < K) by (apply (Nat.pow_lt_mono_r_iff 2); [lia|done]). replace (2 ^ k * 2) with (2 ^ S k) by (cbn; lia).
    build_simp. rewrite IH by (cbn; lia). replace (K - k) with (S (K - S k)) by lia. cbn [seq mbind list_bind app].
    unfold dexch at 2, dred at 2. rewrite Hfo. unfold pair. rewrite Hfo. rewrite <- app_assoc. done.
  - assert (K <= k) by (apply (Nat.pow_le_mono_r_iff 2); [lia|done]). replace (K - k) with 0 by lia. cbn. by rewrite app_nil_r.
Qed.

Lemma at_rank_dgroups r : at_rank r dgroups =
  [dcopy r; dfold r; dfold_red r] ++ (seq 0 K ≫= fun k => [dexch k r; dred k r]) ++ [dback r].
Proof.
  unfold dgroups. rewrite !at_rank_app. f_equal. f_equal. generalize (seq 0 K). intros l. induction l as [|k l IH]; [done|]. cbn. by f_equal; f_equal.
Qed.

Lemma dfold_st r n' al : 
  (if r <? 2 * rem then
     if r mod 2 =? 0 then create_send (recv r) count (r + 1) ;;; add_barrier ;;; ret None
     else create_recv (dtmp r) count (r - 1) ;;; add_barrier ;;; create_reduce_local (dtmp r) count (recv r) ;;; add_barrier ;;; ret (Some (r / 2))
   else ret (Some (r - rem))) (st [dcopy r] [] n' al) =
  Ok (if folds r then None else Some (num r), st [dcopy r; dfold r; dfold_red r] [] n' al).
Proof.
  unfold folds, num, dfold, dfold_red, takes_in, folds, mate. destruct (r <? 2 * rem); cbn [andb negb].
  - destruct (r mod 2 =? 0); cbn [negb]; by build_simp.
  - done.
Qed.

Lemma dback_st r gs n' al :
  (if r <? 2 * rem then
     (if negb (r mod 2 =? 0) then create_send (recv r) count (r - 1) else create_recv (recv r) count (r + 1)) ;;; add_barrier
   else ret tt) (st gs [] n' al) = Ok (tt, st (gs ++ [dback r]) [] n' al).
Proof.
  unfold dback, takes_in, folds, mate. destruct (r <? 2 * rem); cbn [andb]; [|by rewrite st_empty_group].
  destruct (r mod 2 =? 0); cbn [negb]; by build_simp.
Qed.

Lemma doubling_st r : r < P ->
  ccl_coll_build_recursive_doubling_allreduce dsz P pof2 r (send r) (recv r) count (st [] [] (nx r) []) =
  Ok (tt, st (at_rank r dgroups) [] (S (nx r)) [(nx r, count * dsz)]).
Proof.
  intros Hr. unfold ccl_coll_build_recursive_doubling_allreduce. rewrite (proj2 (Nat.eqb_neq count 0)) by lia. build_simp. fold (dtmp r).
  set (al := [(nx r, count * dsz)]). set (n' := S (nx r)).
  assert (Ecopy : (if negb (buffer_eqb (send r) (recv r)) then create_copy (send r) (recv r) count ;;; add_barrier else ret tt) (st [] [] n' al) =
    Ok (tt, st [dcopy r] [] n' al)).
  { unfold dcopy. by destruct (negb _); [build_simp|]. }
  rewrite (bind_Ok _ _ _ _ _ Ecopy), at_rank_dgroups. destruct (Nat.eqb_spec P 1) as [E|E].
  - assert (HK0 : K = 0) by (pose proof (Nat.pow_gt_lin_r 2 K ltac:(lia)); lia). pose proof rem_lt as (_ & Hrem & _).
    assert (H2 : r <? 2 * rem = false) by (apply Nat.ltb_ge; pose proof (Nat.pow_nonzero 2 K ltac:(lia)); lia).
    unfold dfold, dfold_red, dback, folds, takes_in. rewrite H2, HK0. done.
  - cbv zeta. rewrite (bind_Ok _ _ _ _ _ (dfold_st r n' al)). destruct (folds r) eqn:Ef.
    + rewrite bind_ret, dback_st. do 2 f_equal. rewrite app_assoc. unfold st, flat. f_equal. f_equal. rewrite !fmap_app, !concat_app. f_equal.
      rewrite <- (app_nil_r (concat _)) at 1. f_equal. symmetry. unfold dexch, dred. rewrite Ef. generalize (seq 0 K). by induction l as [|k l IH].
    + rewrite <- (Nat.pow_0_r 2) at 2.
      rewrite (bind_Ok _ _ _ _ _ (doubling_loop_st r _ n' al Hr Ef (S pof2) 0 ltac:(cbn; lia) ltac:(lia) ltac:(lia))).
      rewrite dback_st, Nat.sub_0_r, <- app_assoc. done.
Qed.

Lemma recv_tmp_ne r : r < P -> buf_src (recv r) <> buf_src (dtmp r).
Proof. intros Hr. destruct (Hok r Hr) as (_ & H & _). cbn. lia. Qed.

Lemma dgroups_ok r : r < P -> Forall (group_ok dsz) (at_rank r dgroups).
Proof.
  intros Hr. pose proof (recv_tmp_ne r Hr) as Hne. rewrite at_rank_dgroups, !Forall_app. split_and!.
  - unfold dcopy, dfold, dfold_red. repeat (apply Forall_cons; split); [repeat case_match; group_races..|done].
  - apply Forall_forall. intros g (k & Hg & _)%list_elem_of_bind.
    apply elem_of_cons in Hg as [->|Hg%list_elem_of_singleton]; [|subst g]; unfold dexch, dred; case_match; group_races; apply apart_src; cbn in *; congruence.
  - unfold dback. repeat constructor. repeat case_match; group_races.
Qed.

Lemma takes_mate r : r < P -> folds (mate r) = takes_in r /\ takes_in (mate r) = folds r.
Proof.
  intros Hr. pose proof rem_lt as (H1 & H2 & H3). unfold folds, takes_in, mate. destruct (Nat.ltb_spec r (2 * rem)) as [Hlt|Hge].
  - pose proof (Nat.div_mod_eq r 2). pose proof (Nat.mod_upper_bound r 2). destruct (Nat.eqb_spec (r mod 2) 0) as [E|E].
    + assert (E1 : (r + 1) mod 2 = 1) by (rewrite Nat.Div0.add_mod, E; done). rewrite E1. by destruct (Nat.ltb_spec (r + 1) (2 * rem)); [|lia].
    + assert (E1 : (r - 1) mod 2 = 0) by (replace (r - 1) with (r / 2 * 2) by lia; apply Nat.Div0.mod_mul). rewrite E1.
      by destruct (Nat.ltb_spec (r - 1) (2 * rem)); [|lia].
  - by destruct (Nat.ltb_spec r (2 * rem)); [lia|].
Qed.

Lemma takes_folds r : takes_in r = true -> folds r = false.
Proof. unfold takes_in, folds. destruct (_ <? _), (_ =? _); done. Qed.

Lemma pair_num k r : k < K -> r < P -> folds r = false -> folds (pair k r) = false /\ num (pair k r) = flip (num r) k.
Proof.
  intros Hk Hr Hf. unfold pair. rewrite Hf. destruct (real_lt (flip (num r) k)) as (_ & ? & ?); [apply flip_lt; [by apply num_lt|done]|done].
Qed.
Lemma folds_pair k r : k < K -> r < P -> folds (pair k r) = folds r.
Proof. intros Hk Hr. destruct (folds r) eqn:E; [unfold pair; by rewrite E|]. by apply pair_num. Qed.

(** ** Supersteps *)

Definition some_tmp (r : nat) m : Prop := exists h, arr dsz m (dtmp r) count h.
(** Rank [r] has received [g]. *)
Definition got (r : nat) (b : bool) (g : nat -> V) m : Prop := if b then arr dsz m (dtmp r) count g else some_tmp r m.
Definition copied (r : nat) m : Prop := arr dsz m (recv r) count (x r) /\ some_tmp r m.
Definition folded (r : nat) m : Prop := arr dsz m (recv r) count (x r) /\ got r (takes_in r) (x (mate r)) m.
Definition dinv (k r : nat) m : Prop :=
  (exists g, arr dsz m (recv r) count g /\ (folds r = false -> forall i, i < count -> g i = dval k (num r) i)) /\ some_tmp r m.
Definition dmid (k r : nat) m : Prop := dinv k r m /\ (folds r = false -> arr dsz m (dtmp r) count (dval k (flip (num r) k))).

Lemma dcopy_step ms :
  (forall r, r < P -> arr dsz (ms r) (send r) count (x r) /\ (exists g, arr dsz (ms r) (recv r) count g) /\ some_tmp r (ms r)) ->
  steps op dsz P dcopy ms copied.
Proof.
  intros Hms. apply local_step. intros r Hr. destruct (Hms r Hr) as (Hs & [g Hg] & [h Hh]). destruct (Hok r Hr) as (Hs0 & Hr0 & Hal). unfold dcopy.
  destruct Hal as [Heq|Hne].
  - rewrite Heq, buffer_eqb_refl. split; [done|]. eexists. split; [done|]. split; [by rewrite <- Heq|by exists h].
  - rewrite buffer_eqb_src by (lia || done). split; [done|]. destruct (copy_arr dsz dsz_pos _ _ _ _ _ _ Hs Hg) as (m' & E & A & Kp).
    exists m'. cbn. rewrite E. split; [done|]. split; [done|]. exists h. eapply keeps_arr; [exact Kp| |done]. intros E'. symmetry in E'. by apply recv_tmp_ne in E'.
Qed.

(** A receive of a whole buffer into [tmp_buf]. *)
Lemma recv_tmp r m g h s : r < P -> some_tmp r m -> arr dsz m (recv r) count g ->
  exists m', complete_entry op dsz (recv_entry (dtmp r) count s) (h <$> seq 0 count) m = Some m' /\
    arr dsz m' (dtmp r) count h /\ arr dsz m' (recv r) count g.
Proof.
  intros Hr [h0 Hh0] Hg. destruct (recv_arr op dsz dsz_pos m (dtmp r) h0 count s h Hh0) as (m' & E & A).
  exists m'. split; [done|]. split; [done|]. eapply complete_arr; [done|exact E| |exact Hg].
  apply all_apart_one, apart_src. intros E'. symmetry in E'. by apply recv_tmp_ne in E'.
Qed.
(** The reduction of [tmp_buf] into [recv_buf]. *)
Lemma reduce_tmp r m g h : r < P -> arr dsz m (dtmp r) count h -> arr dsz m (recv r) count g ->
  exists m', comp_reduce op dsz m (dtmp r) count (recv r) = Some m' /\ arr dsz m' (recv r) count (fun i => op (g i) (h i)) /\ some_tmp r m'.
Proof.
  intros Hr Hh Hg. destruct (reduce_sub op dsz dsz_pos m (dtmp r) count h 0 (recv r) count g 0 count Hh Hg) as (m' & E & A & Kp); [lia|lia|].
  rewrite !buffer_add_0 in E by done. exists m'. split; [done|]. split.
  - eapply (arr_ext dsz); [|exact A]. intros i Hi. unfold upd. rewrite decide_True by lia. rewrite !Nat.sub_0_r. done.
  - exists h. eapply keeps_arr; [exact Kp| |exact Hh]. intros E'. symmetry in E'. by apply recv_tmp_ne in E'.
Qed.

Lemma dfold_step ms : (forall r, r < P -> copied r (ms r)) -> steps op dsz P dfold ms folded.
Proof.
  intros Hms. apply (exchange_opt_step op dsz P _ ms _ mate mate (fun r => x r <$> seq 0 count) (fun r => recv_entry (dtmp r) count (mate r)) folds).
  { intros r Hr. destruct (mate_perm r Hr). done. }
  { intros r Hr. split; [|done]. destruct (takes_mate r Hr) as [-> _]. unfold dfold. destruct (folds r) eqn:Ef; [|by destruct (takes_in r)].
    destruct (takes_in r) eqn:Et; [|done]. apply takes_folds in Et. congruence. }
  intros r Hr. destruct (Hms r Hr) as [Hg Ht]. destruct (takes_mate r Hr) as [-> _]. exists (ms r). unfold folded, got, dfold.
  destruct (takes_in r) eqn:Et.
  - rewrite (takes_folds r Et). destruct (recv_tmp r (ms r) (x r) (x (mate r)) (mate r) Hr Ht Hg) as (m' & E & A & A'). exists m'. done.
  - exists (ms r). split; [|done]. destruct (folds r); [|done]. cbn. by rewrite (arr_read dsz _ _ _ _ Hg).
Qed.

Lemma dval_0 r i : r < P -> folds r = false -> dval 0 (num r) i = if takes_in r then op (x r i) (x (mate r) i) else x r i.
Proof.
  intros Hr. pose proof rem_lt as (H1 & H2 & H3). unfold folds, takes_in, num, mate. cbn [dval]. destruct (Nat.ltb_spec r (2 * rem)) as [Hlt|Hge]; cbn [andb].
  - destruct (Nat.eqb_spec (r mod 2) 0) as [E|E]; [done|]. intros _. cbn [negb]. pose proof (Nat.div_mod_eq r 2). pose proof (Nat.mod_upper_bound r 2).
    destruct (Nat.ltb_spec (r / 2) rem); [|lia]. f_equal; f_equal; lia.
  - intros _. destruct (Nat.ltb_spec (r - rem) rem); [lia|]. f_equal. lia.
Qed.

Lemma dfold_red_step ms : (forall r, r < P -> folded r (ms r)) -> steps op dsz P dfold_red ms (dinv 0).
Proof.
  intros Hms. apply local_step. intros r Hr. destruct (Hms r Hr) as [Hg Ht]. unfold dfold_red, got in *. destruct (takes_in r) eqn:Et.
  - split; [done|]. destruct (reduce_tmp r _ _ _ Hr Ht Hg) as (m' & E & A & Hst). exists m'. cbn. rewrite E. split; [done|]. split; [|done].
    eexists. split; [exact A|]. intros Hf i Hi. by rewrite dval_0, Et.
  - split; [done|]. eexists. split; [done|]. split; [|done]. exists (x r). split; [done|]. intros Hf i Hi. by rewrite dval_0, Et.
Qed.

Lemma dexch_step k ms : k < K -> (forall r, r < P -> dinv k r (ms r)) -> steps op dsz P (dexch k) ms (dmid k).
Proof.
  intros Hk Hms. apply (exchange_opt_step op dsz P _ ms _ (pair k) (pair k) (fun r => dval k (num r) <$> seq 0 count)
    (fun r => recv_entry (dtmp r) count (pair k r)) (fun r => negb (folds r))).
  { intros r Hr. destruct (pair_perm k r Hk Hr). done. }
  { intros r Hr. rewrite folds_pair by done. unfold dexch. by destruct (folds r). }
  intros r Hr. destruct (Hms r Hr) as [(g & Hg & Hv) Ht]. rewrite folds_pair by done. exists (ms r). unfold dexch.
  destruct (folds r) eqn:Ef; cbn [negb].
  - exists (ms r). split; [done|]. split; [done|]. unfold dmid, dinv. rewrite Ef. split; [|done]. split; eauto.
  - assert (A : arr dsz (ms r) (recv r) count (dval k (num r))) by (eapply (arr_ext dsz); [|exact Hg]; auto).
    destruct (recv_tmp r (ms r) _ (dval k (num (pair k r))) (pair k r) Hr Ht A) as (m' & E & A1 & A2). exists m'.
    split; [cbn; by rewrite (arr_read dsz _ _ _ _ A)|]. split; [done|]. destruct (pair_num k r Hk Hr Ef) as [_ En]. rewrite En in A1.
    split; [split; [eauto|by eexists]|done].
Qed.

Lemma dred_step k ms : (forall r, r < P -> dmid k r (ms r)) -> steps op dsz P (dred k) ms (dinv (S k)).
Proof.
  intros Hms. apply local_step. intros r Hr. destruct (Hms r Hr) as [[(g & Hg & Hv) Ht] Htm]. unfold dred, dinv. destruct (folds r) eqn:Ef.
  - split; [done|]. eexists. split; [done|]. split; [|done]. by exists g.
  - split; [done|]. destruct (reduce_tmp r _ _ _ Hr (Htm eq_refl) Hg) as (m' & E & A & Hst). exists m'. cbn. rewrite E. split; [done|]. split; [|done].
    eexists. split; [exact A|]. intros _ i Hi. cbn [dval]. by rewrite Hv.
Qed.

Lemma dback_step ms : (forall r, r < P -> dinv K r (ms r)) ->
  steps op dsz P dback ms (fun r m => arr dsz m (recv r) count (dval K (num (if folds r then mate r else r)))).
Proof.
  intros Hms. apply (exchange_opt_step op dsz P _ ms _ mate mate (fun r => dval K (num r) <$> seq 0 count) (fun r => recv_entry (recv r) count (mate r)) takes_in).
  { intros r Hr. destruct (mate_perm r Hr). done. }
  { intros r Hr. split; [|done]. destruct (takes_mate r Hr) as [_ ->]. unfold dback. destruct (takes_in r) eqn:Et; [by rewrite (takes_folds r Et)|by destruct (folds r)]. }
  intros r Hr. destruct (Hms r Hr) as [(g & Hg & Hv) Ht]. destruct (takes_mate r Hr) as [_ ->]. exists (ms r). unfold dback.
  destruct (folds r) eqn:Ef.
  - assert (takes_in r = false) as -> by (destruct (takes_in r) eqn:Et; [apply takes_folds in Et; congruence|done]).
    destruct (recv_arr op dsz dsz_pos (ms r) (recv r) g count (mate r) (dval K (num (mate r))) Hg) as (m' & E & A). by exists m'.
  - exists (ms r). assert (A : arr dsz (ms r) (recv r) count (dval K (num r))) by (eapply (arr_ext dsz); [|exact Hg]; auto).
    split; [|done]. destruct (takes_in r); [|done]. cbn. by rewrite (arr_read dsz _ _ _ _ A).
Qed.

Lemma doubling_runs ms :
  (forall r, r < P -> arr dsz (ms r) (send r) count (x r) /\ (exists g, arr dsz (ms r) (recv r) count g) /\ some_tmp r (ms r)) ->
  runs op dsz P dgroups ms (fun r m => arr dsz m (recv r) count (dval K (num (if folds r then mate r else r)))).
Proof.
  intros Hms. unfold dgroups. eapply runs_cons; [by apply dcopy_step|]. intros ms1 H1. eapply runs_cons; [by apply dfold_step|]. intros ms2 H2.
  eapply runs_cons; [by apply dfold_red_step|]. intros ms3 H3. eapply runs_seq; [|intros ms4 H4; by apply runs_one, dback_step].
  apply (runs_loop op dsz P _ (fun k r m => dinv k r m) 0 K); [|done]. intros k ms4 Hk H4.
  eapply runs_cons; [by apply dexch_step; [lia|]|]. intros ms5 H5. by apply runs_one, dred_step.
Qed.
End doubling.

(** * Claims *)

(** [comm->pof2()] for a communicator of [P] ranks. *)
Lemma comm_pof2 (P pof2 : nat) : 0 < P -> (Z.of_nat P < 2 ^ 31)%Z -> AtlTag.pof2 (Z.of_nat P) = Some (Z.of_nat pof2) ->
  exists K, pof2 = 2 ^ K /\ 2 ^ K <= P < 2 ^ S K.
Proof.
  intros HP Hlt. rewrite pof2_spec by lia. intros [= E]. exists (Z.to_nat (Z.log2 (Z.of_nat P))).
  pose proof (Z.log2_nonneg (Z.of_nat P)). pose proof (Z.log2_spec (Z.of_nat P) ltac:(lia)) as [H1 H2].
  assert (E2 : forall n, Z.of_nat (2 ^ n) = (2 ^ Z.of_nat n)%Z) by (intros; by rewrite Nat2Z.inj_pow).
  split_and!; apply Nat2Z.inj || apply Nat2Z.inj_le || apply Nat2Z.inj_lt; rewrite E2, ?Nat2Z.inj_succ, Z2Nat.id by lia; lia.
Qed.

Section theorems.
Context {V : Type} (op : V -> V -> V) (dsz P pof2 count : nat) (send recv : nat -> ccl_buffer) (nx : nat -> nat) (x : nat -> nat -> V).
Implicit Types m : gmap (nat * nat) V.

Lemma doubling_reduces :
  0 < dsz -> 0 < P -> (Z.of_nat P < 2 ^ 31)%Z -> AtlTag.pof2 (Z.of_nat P) = Some (Z.of_nat pof2) -> 0 < count ->
  Assoc (=) op -> Comm (=) op -> (forall r, r < P -> bufs_ok send recv nx r) ->
  implements op dsz P (fun r => ccl_coll_build_recursive_doubling_allreduce dsz P pof2 r (send r) (recv r) count) nx
    (fun r m => arr dsz m (send r) count (x r) /\ exists g, arr dsz m (recv r) count g)
    (fun r m => arr dsz m (recv r) count (fun i => reduce_ranks op P (fun q => x q i))).
Proof.
  intros Hd HP Hlt Hp Hc Ha Hcm Hok. destruct (comm_pof2 P pof2 HP Hlt Hp) as (K & -> & HK).
  eapply (implements_intro _ _ _ _ _ _ _ (dgroups P K count send recv nx) (fun _ => []) (fun r => S (nx r)) (fun r => [(nx r, count * dsz)])); [done| | |].
  - intros r Hr. apply doubling_st; try done.
  - intros r Hr. split; [|done]. apply dgroups_ok; try done.
  - intros ms Hms. eapply runs_seq; [apply (doubling_runs op dsz P K count) with (x := x); try done|].
    + intros r Hr. destruct (Hms r Hr) as [[Hs Hg] Hal]. split; [done|]. split; [done|]. apply Forall_cons in Hal as [[h Hh] _].
      cbn in Hh. rewrite Nat.div_mul in Hh by lia. by exists h.
    + intros ms1 H1. apply runs_one, skip_step. intros r Hr. eapply (arr_ext dsz); [|by apply H1]. intros i Hi. cbn.
      eapply dval_total; try done. eapply num_lt; try done. destruct (folds P K r); [|done]. by eapply mate_perm.
Qed.

(** C2: the recursive-doubling allreduce with an associative and commutative operation leaves on every rank
    the reduction over all ranks, for any number of ranks, a power of two or not, in place or not, and
    whatever the interleaving. *)
Theorem recursive_doubling_allreduce_correct :
  0 < dsz -> 0 < P -> (Z.of_nat P < 2 ^ 31)%Z -> AtlTag.pof2 (Z.of_nat P) = Some (Z.of_nat pof2) -> 0 < count ->
  Assoc (=) op -> Comm (=) op -> (forall r, r < P -> bufs_ok send recv nx r) ->
  implements op dsz P (fun r => ccl_coll_build_recursive_doubling_allreduce dsz P pof2 r (send r) (recv r) count) nx
    (fun r m => arr dsz m (send r) count (x r) /\ exists g, arr dsz m (recv r) count g)
    (fun r m => arr dsz m (recv r) count (fun i => reduce_ranks op P (fun q => x q i))).
Proof. apply doubling_reduces. Qed.
End theorems.

Lemma recursive_doubling_allreduce_correct_witness :
  implements Nat.add 4 7 (fun r => ccl_coll_build_recursive_doubling_allreduce 4 7 4 r (send_ex r) (recv_ex r) 5) nx_ex
    (fun r m => arr 4 m (send_ex r) 5 (x_ex r) /\ exists g, arr 4 m (recv_ex r) 5 g)
    (fun r m => arr 4 m (recv_ex r) 5 (fun i => reduce_ranks Nat.add 7 (fun q => x_ex q i))).
Proof.
  apply recursive_doubling_allreduce_correct; [lia|lia|lia|vm_compute; reflexivity|lia|exact _|exact _|]. intros r _. apply bufs_ex.
Defined.
