(* ===== verification/Rabenseifner.v ===== *)
(** Rabenseifner's allreduce of [src/src/coll/algorithms/allreduce/allreduce.cpp].

    As in the recursive doubling, the ranks above a power of two fold into their neighbours.  The others halve the data with
    the rank whose number differs in one bit, bit by bit, until each has one reduced block, and gather the blocks the
    other way.  The counts and displacements of the blocks are [int] ([cnts], [disps], [int_sum]): they are those of the blocks
    when there are less than [2 ^ 31] elements, which the theorems assume.  The partial schedules have less than [2 ^ 31] bytes
    ([Parallelizer]); [long_count_truncated] is what the conversion does to more. *)

From S2P Require Import Prelude AtlTag Sched Network Race Bsp Build Reduction ReduceScatter Bcast Reduce Doubling.
Open Scope nat_scope.
Open Scope ccl_scope.

(** * Builder *)

(** [<=] of two buffers: there is no such operator, the buffers are converted to [bool]. *)
Definition buffer_leb (b1 b2 : ccl_buffer) : bool := implb (buffer_bool b1) (buffer_bool b2).

Section builder.
Context (dsz comm_size pof2 count : nat).

(** [int cnts[i]]: a [size_t] is stored in an [int]. *)
Definition cnts (i : nat) : Z := int32 (Z.of_nat (if i <? pof2 - 1 then count / pof2 else count - (count / pof2) * (pof2 - 1))).
(** A sum of [int]s, and the conversion of an [int] to [size_t] where it is used as a count or multiplied by the size of an element. *)
Definition int_sum (l : list Z) : Z := fold_left (fun a n => int32 (a + n)) l 0%Z.
Definition size_t_of (n : Z) : nat := Z.to_nat (u64 n).
Definition disps (i : nat) : nat := size_t_of (int_sum (cnts <$> seq 0 i)).
(** [for (i = lo; i < hi; i++) cnt += cnts[i]] *)
Definition range_cnt (lo hi : nat) : nat := size_t_of (int_sum (cnts <$> seq lo (hi - lo))).

Abbreviation rem := (comm_size - pof2).
Definition real_rank (newdst : nat) : nat := if newdst <? rem then newdst * 2 + 1 else newdst + rem.

Definition can_use_recv_reduce (buf1 buf2 : ccl_buffer) (send_cnt recv_cnt : nat) : bool :=
  negb (buffer_eqb buf1 buf2) && (buffer_leb (buf1 +b send_cnt * dsz) buf2 || buffer_leb (buf2 +b recv_cnt * dsz) buf1).

(** The entries of one step of the reduce-scatter. *)
Definition halving_step (recv_buf tmp_buf : ccl_buffer) (send_idx recv_idx send_cnt recv_cnt dst : nat) : build unit :=
  let buf1 := recv_buf +b disps send_idx * dsz in
  let buf2 := recv_buf +b disps recv_idx * dsz in
  CCL_THROW_IF_NOT (can_use_recv_reduce buf1 buf2 send_cnt recv_cnt) ;;;
  if can_use_recv_reduce buf1 buf2 send_cnt recv_cnt then
    create_recv_reduce dsz buf2 recv_cnt dst null_buffer ccl_recv_reduce_local_buf ;;;
    create_send buf1 send_cnt dst ;;;
    add_barrier
  else
    create_recv (tmp_buf +b disps recv_idx * dsz) recv_cnt dst ;;;
    create_send buf1 send_cnt dst ;;;
    add_barrier ;;;
    create_reduce_local (tmp_buf +b disps recv_idx * dsz) recv_cnt buf2 ;;;
    add_barrier.

(** [while (mask < pof2)]: the values of [mask], [send_idx] and [last_idx] at the end. *)
Fixpoint halving_loop (fuel newrank : nat) (recv_buf tmp_buf : ccl_buffer) (mask send_idx recv_idx last_idx : nat) : build (nat * nat * nat) :=
  match fuel with
  | O => throw
  | S fuel' =>
    if mask <? pof2 then
      let newdst := Nat.lxor newrank mask in
      let dst := real_rank newdst in
      let half := pof2 / (mask * 2) in
      let send_idx' := if newrank <? newdst then recv_idx + half else send_idx in
      let recv_idx' := if newrank <? newdst then recv_idx else send_idx + half in
      let send_cnt := if newrank <? newdst then range_cnt send_idx' last_idx else range_cnt send_idx' recv_idx' in
      let recv_cnt := if newrank <? newdst then range_cnt recv_idx' send_idx' else range_cnt recv_idx' last_idx in
      halving_step recv_buf tmp_buf send_idx' recv_idx' send_cnt recv_cnt dst ;;;
      let mask' := mask * 2 in
      halving_loop fuel' newrank recv_buf tmp_buf mask' recv_idx' recv_idx' (if mask' <? pof2 then recv_idx' + pof2 / mask' else last_idx)
    else ret (mask, send_idx, last_idx)
  end.

(** [while (mask > 0)] *)
Fixpoint gather_loop (fuel newrank : nat) (recv_buf : ccl_buffer) (mask send_idx last_idx : nat) : build unit :=
  match fuel with
  | O => throw
  | S fuel' =>
    if 0 <? mask then
      let newdst := Nat.lxor newrank mask in
      let dst := real_rank newdst in
      let half := pof2 / (mask * 2) in
      let last_idx' := if (newrank <? newdst) && negb (mask =? pof2 / 2) then last_idx + half else last_idx in
      let recv_idx := if newrank <? newdst then send_idx + half else send_idx - half in
      let send_cnt := if newrank <? newdst then range_cnt send_idx recv_idx else range_cnt send_idx last_idx' in
      let recv_cnt := if newrank <? newdst then range_cnt recv_idx last_idx' else range_cnt recv_idx send_idx in
      create_recv (recv_buf +b disps recv_idx * dsz) recv_cnt dst ;;;
      create_send (recv_buf +b disps send_idx * dsz) send_cnt dst ;;;
      add_barrier ;;;
      gather_loop fuel' newrank recv_buf (mask / 2) (if newdst <? newrank then recv_idx else send_idx) last_idx'
    else ret tt
  end.

(** [pof2] is [comm->pof2()]; a [newrank] of -1 is [None]. *)
Definition ccl_coll_build_rabenseifner_allreduce (rank : nat) (send_buf recv_buf : ccl_buffer) : build unit :=
  if count =? 0 then ret tt else
  tmp_buf <-- alloc_buffer (count * dsz) ;;
  (if negb (buffer_eqb send_buf recv_buf) then create_copy send_buf recv_buf count ;;; add_barrier else ret tt) ;;;
  if comm_size =? 1 then ret tt else
  newrank <--
    (if rank <? 2 * rem then
       if rank mod 2 =? 0 then
         create_send recv_buf count (rank + 1) ;;; add_barrier ;;; ret None
       else
         create_recv tmp_buf count (rank - 1) ;;; add_barrier ;;;
         create_reduce_local tmp_buf count recv_buf ;;; add_barrier ;;; ret (Some (rank / 2))
     else ret (Some (rank - rem))) ;;
  match newrank with
  | Some newrank =>
    CCL_THROW_IF_NOT (pof2 <=? count) ;;;
    r <-- halving_loop (S pof2) newrank recv_buf tmp_buf 1 0 0 pof2 ;;
    gather_loop (S pof2) newrank recv_buf (r.1.1 / 2) r.1.2 r.2
  | None => ret tt
  end ;;;
  if rank <? 2 * rem then
    if negb (rank mod 2 =? 0) then create_send recv_buf count (rank - 1) else create_recv recv_buf count (rank + 1)
  else ret tt.
End builder.

(** * Ranges of blocks *)

Lemma testbit_flip j k i : Nat.testbit (flip j k) i = if i =? k then negb (Nat.testbit j k) else Nat.testbit j i.
Proof.
  unfold flip. rewrite Nat.lxor_spec, Nat.pow2_bits_eqb. destruct (Nat.eqb_spec i k) as [->|Hne].
  - rewrite Nat.eqb_refl. by destruct (Nat.testbit j k).
  - rewrite (proj2 (Nat.eqb_neq k i)) by done. by destruct (Nat.testbit j i).
Qed.

Lemma flip_order j k : (j <? flip j k) = negb (Nat.testbit j k) /\ (flip j k <? j) = Nat.testbit j k.
Proof.
  pose proof (Nat.pow_nonzero 2 k ltac:(lia)) as Hp. destruct (Nat.testbit j k) eqn:E.
  - assert (Hle : 2 ^ k <= j).
    { destruct (Nat.le_gt_cases (2 ^ k) j); [done|]. assert (Hf : Nat.testbit j k = false); [|congruence]. rewrite Nat.testbit_eqb, Nat.div_small by done. done. }
    assert (flip j k = j - 2 ^ k) as -> by (unfold flip; rewrite <- (ldiff_pow2 j k E); apply Nat.bits_inj; intros i; rewrite Nat.lxor_spec, Nat.ldiff_spec, Nat.pow2_bits_eqb;
      destruct (Nat.eqb_spec k i) as [->|]; [by rewrite E|by destruct (Nat.testbit j i)]).
    cbn [negb]. rewrite Nat.ltb_ge, Nat.ltb_lt. lia.
  - assert (flip j k = j + 2 ^ k) as -> by (unfold flip; rewrite <- (lor_pow2 j k E); apply Nat.bits_inj; intros i; rewrite Nat.lxor_spec, Nat.lor_spec, Nat.pow2_bits_eqb;
      destruct (Nat.eqb_spec k i) as [->|]; [by rewrite E|by destruct (Nat.testbit j i)]).
    cbn [negb]. rewrite Nat.ltb_ge, Nat.ltb_lt. lia.
Qed.

Section ranges.
Context (K count : nat).
Abbreviation pof2 := (2 ^ K).

(** The first element of a block; all of the elements for the end. *)
Definition D (i : nat) : nat := if i =? pof2 then count else i * (count / pof2).

(** The number of elements of a block, and the sums of these numbers. *)
Definition block_len (i : nat) : nat := if i <? pof2 - 1 then count / pof2 else count - (count / pof2) * (pof2 - 1).

Lemma block_small i : i < pof2 -> sum_list (block_len <$> seq 0 i) = i * (count / pof2).
Proof.
  induction i as [|i IH]; intros Hi; [done|]. rewrite seq_S, fmap_app, sum_list_with_app, IH by lia. cbn. unfold block_len.
  rewrite (proj2 (Nat.ltb_lt i (pof2 - 1))) by lia. unfold id. lia.
Qed.
Lemma block_D i : i <= pof2 -> sum_list (block_len <$> seq 0 i) = D i.
Proof.
  intros Hi. unfold D. destruct (Nat.eqb_spec i pof2) as [->|Hne]; [|apply block_small; lia]. pose proof (Nat.pow_nonzero 2 K ltac:(lia)).
  pose proof (block_small (pof2 - 1) ltac:(lia)) as Hd. replace (seq 0 pof2) with (seq 0 (pof2 - 1) ++ [pof2 - 1]).
  2: { replace pof2 with (S (pof2 - 1)) at 3 by lia. by rewrite seq_S. }
  rewrite fmap_app, sum_list_with_app, Hd. cbn -[Nat.div Nat.pow]. unfold block_len, id. rewrite Nat.ltb_irrefl.
  pose proof (Nat.div_mod_eq count pof2). nia.
Qed.
Lemma block_range a b : a <= b <= pof2 -> sum_list (block_len <$> seq a (b - a)) = D b - D a.
Proof.
  intros H. rewrite <- !block_D by lia. replace (seq 0 b) with (seq 0 a ++ seq a (b - a)) by (rewrite <- seq_app; f_equal; lia).
  rewrite fmap_app, sum_list_with_app. lia.
Qed.

(** A sum of [int]s whose value is an [int] is exact. *)
Lemma int_sum_exact l : (Z.of_nat (sum_list l) < 2 ^ 31)%Z -> int_sum ((fun n => int32 (Z.of_nat n)) <$> l) = Z.of_nat (sum_list l).
Proof.
  assert (G : forall l a, (Z.of_nat (a + sum_list l) < 2 ^ 31)%Z ->
    fold_left (fun a n => int32 (a + n)) ((fun n => int32 (Z.of_nat n)) <$> l) (Z.of_nat a) = Z.of_nat (a + sum_list l)).
  { clear. induction l as [|n l IH]; intros a Ha; [by rewrite Nat.add_0_r|]. cbn in Ha |- *. unfold id in *. rewrite (int32_small (Z.of_nat n)) by lia.
    rewrite int32_small by lia. rewrite <- Nat2Z.inj_add, IH by lia. f_equal. lia. }
  intros H. apply (G l 0). done.
Qed.
Lemma size_t_of_nat n : (Z.of_nat n < 2 ^ 31)%Z -> size_t_of (Z.of_nat n) = n.
Proof. intros H. unfold size_t_of, wrap. rewrite Z.mod_small by lia. lia. Qed.

Lemma D_0 : D 0 = 0.
Proof. unfold D. pose proof (Nat.pow_nonzero 2 K ltac:(lia)). by rewrite (proj2 (Nat.eqb_neq 0 pof2)) by lia. Qed.
Lemma D_all : D pof2 = count.
Proof. unfold D. by rewrite Nat.eqb_refl. Qed.

(** The blocks that number [j] has after [k] halvings: [w k] of them from [lo k j] on. *)
Fixpoint lo (k j : nat) : nat := match k with O => 0 | S k' => lo k' j + (if Nat.testbit j k' then 2 ^ (K - S k') else 0) end.
Definition w (k : nat) : nat := 2 ^ (K - k).

Lemma w_half k : k < K -> w k = 2 * w (S k).
Proof. intros Hk. unfold w. replace (K - k) with (S (K - S k)) by lia. done. Qed.
Lemma w_pos k : 0 < w k.
Proof. unfold w. pose proof (Nat.pow_nonzero 2 (K - k) ltac:(lia)). lia. Qed.
Lemma half_w k : k < K -> pof2 / (2 ^ k * 2) = w (S k).
Proof.
  intros Hk. unfold w. replace pof2 with (2 ^ (K - S k) * (2 ^ k * 2)); [apply Nat.div_mul; pose proof (Nat.pow_nonzero 2 k ltac:(lia)); lia|].
  replace (2 ^ k * 2) with (2 ^ S k) by (cbn; lia). rewrite <- Nat.pow_add_r. f_equal. lia.
Qed.

Lemma lo_S k j : lo (S k) j = lo k j + (if Nat.testbit j k then w (S k) else 0).
Proof. done. Qed.
Lemma lo_bound k j : k <= K -> lo k j + w k <= pof2.
Proof.
  induction k as [|k IH]; intros Hk; [unfold w; cbn; rewrite Nat.sub_0_r; lia|]. rewrite lo_S. pose proof (w_half k ltac:(lia)). specialize (IH ltac:(lia)).
  destruct (Nat.testbit j k); lia.
Qed.
Lemma lo_flip i k j : i <= k -> lo i (flip j k) = lo i j.
Proof.
  induction i as [|i IH]; intros Hi; [done|]. rewrite !lo_S, IH by lia. rewrite testbit_flip. by rewrite (proj2 (Nat.eqb_neq i k)) by lia.
Qed.
Lemma lo_flip_S k j : lo (S k) (flip j k) = lo k j + (if Nat.testbit j k then 0 else w (S k)).
Proof. rewrite lo_S, lo_flip, testbit_flip, Nat.eqb_refl by done. by destruct (Nat.testbit j k). Qed.

Context (Hcount : 2 ^ K <= count).

Lemma D_lt a b : a < b <= pof2 -> D a < D b.
Proof using Hcount.
  intros H. pose proof (Nat.pow_nonzero 2 K ltac:(lia)) as Hp. pose proof (Nat.div_str_pos count pof2 ltac:(lia)). unfold D. rewrite (proj2 (Nat.eqb_neq a pof2)) by lia.
  destruct (Nat.eqb_spec b pof2); [|nia]. pose proof (Nat.div_mod_eq count pof2). nia.
Qed.
Lemma D_le a b : a <= b <= pof2 -> D a <= D b.
Proof using Hcount. intros H. destruct (decide (a = b)) as [->|]; [done|]. pose proof (D_lt a b ltac:(lia)). lia. Qed.
(** The elements of these blocks, and their number. *)
Definition first (k j : nat) : nat := D (lo k j).
Definition len (k j : nat) : nat := D (lo k j + w k) - D (lo k j).
Definition own (k j i : nat) : Prop := first k j <= i < first k j + len k j.

Lemma first_len k j : k <= K -> first k j + len k j = D (lo k j + w k) /\ first k j + len k j <= count /\ 0 < len k j.
Proof using Hcount.
  intros Hk. unfold first, len. pose proof (lo_bound k j Hk). pose proof (w_pos k). pose proof (D_lt (lo k j) (lo k j + w k) ltac:(lia)).
  pose proof (D_le (lo k j + w k) pof2 ltac:(lia)). rewrite D_all in *. lia.
Qed.

(** The two halves. *)
Lemma own_halves k j i : k < K -> own k j i <-> own (S k) j i \/ own (S k) (flip j k) i.
Proof using Hcount.
  intros Hk. unfold own. destruct (first_len k j ltac:(lia)) as [-> _], (first_len (S k) j ltac:(lia)) as [-> _], (first_len (S k) (flip j k) ltac:(lia)) as [-> _].
  unfold first. rewrite lo_flip_S, lo_S. pose proof (w_half k Hk). pose proof (lo_bound k j ltac:(lia)). pose proof (w_pos (S k)).
  pose proof (D_lt (lo k j) (lo k j + w (S k)) ltac:(lia)). pose proof (D_lt (lo k j + w (S k)) (lo k j + w k) ltac:(lia)).
  destruct (Nat.testbit j k); rewrite ?Nat.add_0_r; replace (lo k j + w (S k) + w (S k)) with (lo k j + w k) by lia; lia.
Qed.
Lemma halves_apart k j : k < K -> first (S k) j + len (S k) j <= first (S k) (flip j k) \/ first (S k) (flip j k) + len (S k) (flip j k) <= first (S k) j.
Proof using Hcount.
  intros Hk. destruct (first_len (S k) j ltac:(lia)) as [-> _], (first_len (S k) (flip j k) ltac:(lia)) as [-> _]. unfold first. rewrite lo_flip_S, lo_S.
  pose proof (lo_bound k j ltac:(lia)). pose proof (w_half k Hk). destruct (Nat.testbit j k); rewrite ?Nat.add_0_r; [right|left]; apply D_le; lia.
Qed.
Lemma own_all j i : own 0 j i <-> i < count.
Proof using Hcount. unfold own. destruct (first_len 0 j ltac:(lia)) as [-> _]. unfold first, w. cbn. rewrite Nat.sub_0_r, D_0, D_all. lia. Qed.
End ranges.

(** The counts of less than [2 ^ 31] elements are exact. *)
Section int_counts.
Context (K count : nat) (Hint : (Z.of_nat count < 2 ^ 31)%Z).

Abbreviation pof2 := (2 ^ K).
Abbreviation D := (D K count).
Abbreviation block_len := (block_len K count).

Lemma D_count i : i <= pof2 -> D i <= count.
Proof using. intros Hi. unfold Rabenseifner.D. destruct (Nat.eqb_spec i pof2); [done|]. pose proof (Nat.div_mod_eq count pof2). nia. Qed.
Lemma size_t_sum l n : sum_list (block_len <$> l) = n -> n <= count -> size_t_of (int_sum (cnts pof2 count <$> l)) = n.
Proof using Hint.
  intros <- Hn. replace (cnts pof2 count <$> l) with ((fun n => int32 (Z.of_nat n)) <$> (block_len <$> l)) by (by rewrite <- list_fmap_compose).
  rewrite int_sum_exact, size_t_of_nat by lia. done.
Qed.
Lemma disps_D i : i <= pof2 -> disps pof2 count i = D i.
Proof using Hint. intros Hi. apply size_t_sum; [by apply block_D|by apply D_count]. Qed.
Lemma range_D a b : a <= b <= pof2 -> range_cnt pof2 count a b = D b - D a.
Proof using Hint. intros H. apply size_t_sum; [by apply block_range|]. pose proof (D_count b ltac:(lia)). lia. Qed.
End int_counts.

(** * The schedule *)

Section rabenseifner.
Context (dsz P K count : nat) (dsz_pos : 0 < dsz) (HK : 2 ^ K <= P < 2 ^ S K) (Hcount : 2 ^ K <= count) (Hint : (Z.of_nat count < 2 ^ 31)%Z).
Context (send recv : nat -> ccl_buffer) (nx : nat -> nat).
Context (Hok : forall r, r < P -> bufs_ok send recv nx r).

Abbreviation pof2 := (2 ^ K).
Abbreviation folds := (folds P K).
Abbreviation num := (num P K).
Abbreviation pair := (pair P K).
Abbreviation first := (first K count).
Abbreviation len := (len K count).
Abbreviation lo := (lo K).
Abbreviation w := (w K).
Abbreviation block r i := (recv r +b i * dsz).

Lemma count_pos : 0 < count.
Proof. clear - Hcount. pose proof (Nat.pow_nonzero 2 K ltac:(lia)). lia. Qed.

(** The communication buffer of the receive-reduce of step [k]. *)
Definition hbuf (k r : nat) : ccl_buffer := mk_buffer (S (nx r) + k) 0.
Definition hexch (k r : nat) : list entry :=
  if folds r then [] else
  [recv_reduce_entry (block r (first (S k) (num r))) (len (S k) (num r)) (pair k r) (hbuf k r) ccl_recv_reduce_local_buf;
   send_entry (block r (first (S k) (flip (num r) k))) (len (S k) (flip (num r) k)) (pair k r)].
Definition gexch (k r : nat) : list entry :=
  if folds r then [] else
  [recv_entry (block r (first (S k) (flip (num r) k))) (len (S k) (flip (num r) k)) (pair k r);
   send_entry (block r (first (S k) (num r))) (len (S k) (num r)) (pair k r)].
Definition hallocs (r k n : nat) : list (nat * nat) := (fun k => (S (nx r) + k, len (S k) (num r) * dsz)) <$> seq k n.

(** What the loops compute at step [k], for the blocks of [j]. *)
Lemma halving_args k j : k < K ->
  (if j <? flip j k then lo k j + w (S k) else lo k j) = lo (S k) (flip j k) /\
  (if j <? flip j k then lo k j else lo k j + w (S k)) = lo (S k) j.
Proof. intros Hk. destruct (flip_order j k) as [-> _]. rewrite lo_flip_S, lo_S. destruct (Nat.testbit j k); cbn [negb]; lia. Qed.

Lemma range_len k j i : k <= K -> i = lo k j + w k -> range_cnt pof2 count (lo k j) i = len k j.
Proof. intros Hk ->. pose proof (lo_bound K k j Hk). by rewrite range_D by lia. Qed.

Lemma halving_cnts k j : k < K ->
  (if j <? flip j k then range_cnt pof2 count (lo (S k) (flip j k)) (lo k j + w k) else range_cnt pof2 count (lo (S k) (flip j k)) (lo (S k) j)) = len (S k) (flip j k) /\
  (if j <? flip j k then range_cnt pof2 count (lo (S k) j) (lo (S k) (flip j k)) else range_cnt pof2 count (lo (S k) j) (lo k j + w k)) = len (S k) j.
Proof.
  intros Hk. destruct (flip_order j k) as [-> _]. pose proof (w_half K k Hk). 
  destruct (Nat.testbit j k) eqn:E; cbn [negb]; split; (apply range_len; [lia|]); rewrite ?lo_flip_S, ?lo_S, E; lia.
Qed.

Lemma disps_first k j : k <= K -> disps pof2 count (lo k j) = first k j.
Proof. intros Hk. pose proof (lo_bound K k j Hk). rewrite disps_D by lia. done. Qed.

Lemma can_reduce k r : k < K -> r < P ->
  can_use_recv_reduce dsz (block r (first (S k) (flip (num r) k))) (block r (first (S k) (num r))) (len (S k) (flip (num r) k)) (len (S k) (num r)) = true.
Proof.
  intros Hk Hr. destruct (Hok r Hr) as (_ & Hr0 & _). unfold can_use_recv_reduce, buffer_leb, buffer_eqb, get_ptr, buffer_bool. cbn.
  rewrite (bool_decide_eq_true_2 (buf_src (recv r) <> 0)) by lia. rewrite bool_decide_eq_false_2; [done|]. intros [= E].
  destruct (first_len K count Hcount (S k) (num r) Hk) as (_ & _ & ?), (first_len K count Hcount (S k) (flip (num r) k) Hk) as (_ & _ & ?).
  destruct (halves_apart K count Hcount k (num r) Hk); nia.
Qed.

Lemma halving_step_st k r gs al : k < K -> r < P -> folds r = false ->
  halving_step dsz pof2 count (recv r) (dtmp nx r) (lo (S k) (flip (num r) k)) (lo (S k) (num r)) (len (S k) (flip (num r) k)) (len (S k) (num r)) (pair k r)
    (st gs [] (S (nx r) + k) al) =
  Ok (tt, st (gs ++ [hexch k r]) [] (S (nx r) + S k) (al ++ [(S (nx r) + k, len (S k) (num r) * dsz)])).
Proof.
  intros Hk Hr Hf. destruct (Hok r Hr) as (_ & Hr0 & _). unfold halving_step. rewrite !disps_first by lia. rewrite can_reduce by done.
  destruct (first_len K count Hcount (S k) (num r) ltac:(lia)) as (_ & _ & Hl).
  unfold create_recv_reduce, buffer_bool. cbn [buffer_add buf_src null_buffer negb orb andb]. rewrite bool_decide_eq_true_2 by lia. rewrite bool_decide_eq_false_2 by tauto.
  cbn [negb orb andb]. rewrite bool_decide_eq_true_2 by lia.
  build_simp. unfold hexch. rewrite Hf. unfold hbuf. do 3 f_equal; lia.
Qed.
Lemma pow2_half k : 2 ^ S k / 2 = 2 ^ k.
Proof. rewrite Nat.pow_succ_r', Nat.mul_comm. by apply Nat.div_mul. Qed.
Lemma halving_loop_st r : r < P -> folds r = false -> forall fuel k gs al last, pof2 < 2 ^ k + fuel -> k <= K ->
  (if k <? K then last = lo k (num r) + w k else True) ->
  halving_loop dsz P pof2 count fuel (num r) (recv r) (dtmp nx r) (2 ^ k) (lo k (num r)) (lo k (num r)) last (st gs [] (S (nx r) + k) al) =
  Ok ((2 ^ K, lo K (num r), if k <? K then lo (K - 1) (num r) + w (K - 1) else last),
      st (gs ++ ((fun k => hexch k r) <$> seq k (K - k))) [] (S (nx r) + K) (al ++ hallocs r k (K - k))).
Proof.
  intros Hr Hf fuel. induction fuel as [|fuel IH]; intros k gs al last Hfu Hk Hlast.
  { pose proof (Nat.pow_le_mono_r 2 k K ltac:(lia) Hk). lia. }
  cbn [halving_loop]. destruct (Nat.ltb_spec k K) as [Hlt|Hge].
  - subst last. rewrite (proj2 (Nat.ltb_lt (2 ^ k) pof2)) by (apply Nat.pow_lt_mono_r; lia). cbv zeta. fold (flip (num r) k).
    rewrite half_w by done. destruct (halving_args k (num r) Hlt) as [-> ->], (halving_cnts k (num r) Hlt) as [-> ->].
    replace (real_rank P pof2 (flip (num r) k)) with (pair k r) by (unfold Doubling.pair; by rewrite Hf).
    rewrite (bind_Ok _ _ _ _ _ (halving_step_st k r gs al Hlt Hr Hf)). replace (2 ^ k * 2) with (2 ^ S k) by (cbn; lia).
    pose proof (Nat.pow_nonzero 2 k ltac:(lia)). rewrite IH; [|cbn; lia|lia|].
    2: { destruct (Nat.ltb_spec (S k) K); [|done]. rewrite (proj2 (Nat.ltb_lt (2 ^ S k) pof2)) by (apply Nat.pow_lt_mono_r; lia). done. }
    replace (K - k) with (S (K - S k)) by lia. cbn [seq fmap list_fmap hallocs]. rewrite <- !app_assoc. do 2 f_equal. 
    f_equal. destruct (Nat.ltb_spec (S k) K); [done|]. assert (K = S k) as E by lia.
    rewrite (proj2 (Nat.ltb_ge (2 ^ S k) pof2)) by (rewrite E; done). rewrite E. by replace (S k - 1) with k by lia.
  - assert (k = K) as -> by lia. rewrite Nat.ltb_irrefl, Nat.sub_diag. cbn. by rewrite !app_nil_r.
Qed.

(** [last_idx] of the gathering before step [k]. *)
Definition glast (k j : nat) : nat := if S k =? K then lo k j + w k else lo (S k) j + w (S k).

Lemma gather_args k j (last := glast k j) (last' := if (j <? flip j k) && negb (2 ^ k =? pof2 / 2) then last + w (S k) else last) : k < K ->
  (if j <? flip j k then lo (S k) j + w (S k) else lo (S k) j - w (S k)) = lo (S k) (flip j k) /\
  (if flip j k <? j then lo (S k) (flip j k) else lo (S k) j) = lo k j /\
  last' = lo k j + w k.
Proof.
  intros Hk. subst last last'. destruct (flip_order j k) as [-> ->]. pose proof (w_half K k Hk). rewrite lo_flip_S, lo_S. unfold glast. rewrite lo_S.
  assert (E : (2 ^ k =? pof2 / 2) = (S k =? K)).
  { destruct K as [|K']; [lia|]. rewrite pow2_half. apply Bool.eq_iff_eq_true. rewrite !Nat.eqb_eq. split; [intros ?%Nat.pow_inj_r; lia|by intros [= ->]]. }
  rewrite E. destruct (Nat.testbit j k), (S k =? K); cbn [negb andb]; lia.
Qed.

Lemma glast_next k j : k < K -> (if k =? 0 then lo 0 j + w 0 else glast (k - 1) j) = lo k j + w k.
Proof. intros Hk. destruct k as [|k]; [done|]. cbn [Nat.eqb]. unfold glast. replace (S (S k - 1)) with (S k) by lia. by rewrite (proj2 (Nat.eqb_neq (S k) K)) by lia. Qed.

Lemma gather_loop_st r al n' : r < P -> folds r = false -> forall k fuel gs, k <= K -> k < fuel ->
  gather_loop dsz P pof2 count fuel (num r) (recv r) (if k =? 0 then 0 else 2 ^ (k - 1)) (lo k (num r))
    (if k =? 0 then lo 0 (num r) + w 0 else glast (k - 1) (num r)) (st gs [] n' al) =
  Ok (tt, st (gs ++ ((fun k => gexch k r) <$> rev (seq 0 k))) [] n' al).
Proof.
  intros Hr Hf k. induction k as [|k IH]; intros [|fuel] gs Hk Hfu; try lia; cbn [gather_loop]; [cbn; by rewrite app_nil_r|].
  cbn [Nat.eqb]. replace (S k - 1) with k by lia. pose proof (Nat.pow_nonzero 2 k ltac:(lia)). rewrite (proj2 (Nat.ltb_lt 0 (2 ^ k))) by lia.
  cbv zeta. fold (flip (num r) k). rewrite half_w by lia.
  pose proof (gather_args k (num r) ltac:(lia)) as (E1 & E2 & E3). rewrite E1, E2.
  replace (real_rank P pof2 (flip (num r) k)) with (pair k r) by (unfold Doubling.pair; by rewrite Hf).
  rewrite E3. destruct (halving_cnts k (num r) ltac:(lia)) as [-> ->]. rewrite !disps_first by lia. build_simp.
  replace (2 ^ k / 2) with (if k =? 0 then 0 else 2 ^ (k - 1)) by (destruct k; [done|]; rewrite pow2_half; cbn [Nat.eqb]; f_equal; lia).
  rewrite <- glast_next, IH by lia. rewrite seq_S, rev_app_distr, <- app_assoc. cbn. unfold gexch at 2. by rewrite Hf.
Qed.

Definition rgroups : list (nat -> list entry) :=
  [dcopy count send recv; dfold P K count recv nx; dfold_red P K count recv nx] ++ (hexch <$> seq 0 K) ++ (gexch <$> rev (seq 0 K)).
Definition rallocs (r : nat) : list (nat * nat) := (nx r, count * dsz) :: if folds r then [] else hallocs r 0 K.

Lemma at_rank_rgroups r : at_rank r rgroups =
  [dcopy count send recv r; dfold P K count recv nx r; dfold_red P K count recv nx r] ++ ((fun k => hexch k r) <$> seq 0 K) ++ ((fun k => gexch k r) <$> rev (seq 0 K)).
Proof. unfold rgroups. rewrite !at_rank_app. unfold at_rank. by rewrite <- !list_fmap_compose. Qed.

Lemma dback_open r gs n' al :
  (if r <? 2 * (P - pof2) then if negb (r mod 2 =? 0) then create_send (recv r) count (r - 1) else create_recv (recv r) count (r + 1) else ret tt) (st gs [] n' al) =
  Ok (tt, st gs (dback P K count recv r) n' al).
Proof.
  unfold dback, takes_in, Doubling.folds, mate. destruct (r <? 2 * (P - pof2)); cbn [andb]; [|done]. destruct (r mod 2 =? 0); cbn [negb]; by build_simp.
Qed.

Lemma loops_st r gs al : r < P -> folds r = false ->
  (h <-- halving_loop dsz P pof2 count (S pof2) (num r) (recv r) (dtmp nx r) 1 0 0 pof2 ;;
   gather_loop dsz P pof2 count (S pof2) (num r) (recv r) (h.1.1 / 2) h.1.2 h.2) (st gs [] (S (nx r)) al) =
  Ok (tt, st (gs ++ ((fun k => hexch k r) <$> seq 0 K) ++ ((fun k => gexch k r) <$> rev (seq 0 K))) [] (S (nx r) + K) (al ++ hallocs r 0 K)).
Proof.
  intros Hr Hf. assert (Ew : lo 0 (num r) + w 0 = pof2) by (unfold Rabenseifner.w; cbn; by rewrite Nat.sub_0_r).
  pose proof (halving_loop_st r Hr Hf (S pof2) 0 gs al pof2 ltac:(cbn; lia) ltac:(lia) ltac:(rewrite Ew; by destruct (0 <? K))) as Hh.
  rewrite Nat.sub_0_r, Nat.add_0_r in Hh. erewrite bind_Ok by exact Hh. cbn [fst snd].
  pose proof (gather_loop_st r (al ++ hallocs r 0 K) (S (nx r) + K) Hr Hf K (S pof2) (gs ++ ((fun k => hexch k r) <$> seq 0 K)) ltac:(lia)
    ltac:(pose proof (Nat.pow_gt_lin_r 2 K ltac:(lia)); lia)) as Hg. rewrite <- app_assoc in Hg. rewrite <- Hg. f_equal.
  - destruct K as [|K']; [done|]. rewrite pow2_half. cbn [Nat.eqb]. f_equal. lia.
  - rewrite Ew. destruct (Nat.eqb_spec K 0) as [E|E]; [by rewrite (proj2 (Nat.ltb_ge 0 K)) by lia|]. rewrite (proj2 (Nat.ltb_lt 0 K)) by lia.
    unfold glast. replace (S (K - 1)) with K by lia. by rewrite Nat.eqb_refl.
Qed.

Lemma rabenseifner_st r : r < P ->
  ccl_coll_build_rabenseifner_allreduce dsz P pof2 count r (send r) (recv r) (st [] [] (nx r) []) =
  Ok (tt, st (at_rank r rgroups) (dback P K count recv r) (S (nx r) + if folds r then 0 else K) (rallocs r)).
Proof.
  intros Hr. pose proof count_pos. unfold ccl_coll_build_rabenseifner_allreduce. rewrite (proj2 (Nat.eqb_neq count 0)) by lia. build_simp. fold (dtmp nx r).
  set (al := [(nx r, count * dsz)]). set (n' := S (nx r)).
  assert (Ecopy : (if negb (buffer_eqb (send r) (recv r)) then create_copy (send r) (recv r) count ;;; add_barrier else ret tt) (st [] [] n' al) =
    Ok (tt, st [dcopy count send recv r] [] n' al)).
  { unfold dcopy. by destruct (negb _); [build_simp|]. }
  rewrite (bind_Ok _ _ _ _ _ Ecopy), at_rank_rgroups. unfold rallocs. destruct (Nat.eqb_spec P 1) as [E|E].
  - assert (HK0 : K = 0) by (pose proof (Nat.pow_gt_lin_r 2 K ltac:(lia)); lia).
    assert (H2 : r <? 2 * (P - pof2) = false) by (apply Nat.ltb_ge; pose proof (Nat.pow_nonzero 2 K ltac:(lia)); lia).
    unfold dfold, dfold_red, dback, Doubling.folds, takes_in. rewrite H2, HK0. cbn. by rewrite Nat.add_0_r.
  - rewrite (bind_Ok _ _ _ _ _ (dfold_st P K count send recv nx r n' al)). destruct (folds r) eqn:Ef.
    + rewrite bind_ret, dback_open, Nat.add_0_r. do 2 f_equal. rewrite st_empty_groups; [done|]. apply Forall_app. split; apply Forall_fmap, Forall_forall; intros k _; cbn;
        unfold hexch, gexch; by rewrite Ef.
    + rewrite (proj2 (Nat.leb_le pof2 count)) by done. rewrite (bind_Ok _ _ _ _ _ (loops_st r _ al Hr Ef)), dback_open. done.
Qed.

(** ** No races *)

Lemma hbuf_src k r : r < P -> buf_src (recv r) <> buf_src (hbuf k r).
Proof. intros Hr. destruct (Hok r Hr) as (_ & H & _). cbn. lia. Qed.

Lemma halves_ok k r : k < K ->
  apart dsz (block r (first (S k) (num r)), len (S k) (num r)) (block r (first (S k) (flip (num r) k)), len (S k) (flip (num r) k)).
Proof. intros Hk. apply apart_sub. destruct (halves_apart K count Hcount k (num r) Hk); lia. Qed.

Lemma hexch_ok k r : k < K -> r < P -> group_ok dsz (hexch k r).
Proof.
  intros Hk Hr. pose proof (halves_ok k r Hk). pose proof (hbuf_src k r Hr). unfold hexch. destruct (folds r); group_races; auto using apart_sym; apply apart_src; cbn in *; congruence.
Qed.
Lemma gexch_ok k r : k < K -> r < P -> group_ok dsz (gexch k r).
Proof.
  intros Hk Hr. pose proof (halves_ok k r Hk). unfold gexch. destruct (folds r); group_races; auto using apart_sym.
Qed.

Lemma rgroups_ok r : r < P -> Forall (group_ok dsz) (at_rank r rgroups) /\ group_ok dsz (dback P K count recv r).
Proof.
  intros Hr. pose proof (recv_tmp_ne dsz P K count dsz_pos HK count_pos send recv nx Hok r Hr) as Hne. rewrite at_rank_rgroups, !Forall_app, !Forall_fmap. split_and!.
  - unfold dcopy, dfold, dfold_red. repeat (apply Forall_cons; split); [repeat case_match; group_races..|done].
  - apply Forall_forall. intros k Hk%elem_of_seq. apply hexch_ok; lia.
  - apply Forall_forall. intros k Hk%list_elem_of_In%in_rev%list_elem_of_In%elem_of_seq. apply gexch_ok; lia.
  - unfold dback. repeat case_match; group_races.
Qed.

(** ** Supersteps *)

Context {V : Type} (op : V -> V -> V) (x : nat -> nat -> V).
Abbreviation memory := (gmap (nat * nat) V).
Implicit Types (m : memory) (ms : nat -> memory).
Abbreviation dval := (dval op P K x).

Definition rspaces (r : nat) m : Prop :=
  some_tmp dsz count nx r m /\ (folds r = false -> forall k, k < K -> exists h, arr dsz m (hbuf k r) (len (S k) (num r)) h).
(** Rank [r] has [v] at its blocks after [k] halvings. *)
Definition has (k : nat) (v : nat -> nat -> V) (r : nat) m : Prop :=
  exists g, arr dsz m (recv r) count g /\ (folds r = false -> forall i, own K count k (num r) i -> g i = v (num r) i).
Definition rinv (k : nat) (v : nat -> nat -> V) (r : nat) m : Prop := has k v r m /\ rspaces r m.

Lemma rspaces_grow r m m' : grows m m' -> rspaces r m -> rspaces r m'.
Proof.
  intros Hg [[h Ht] H]. split; [by eapply arr_grows|]. intros Hf k Hk. destruct (H Hf k Hk) as [h' Hh]. by eapply arr_grows.
Qed.
Lemma runs_rinv gs ms k v : runs op dsz P gs ms (has k v) -> (forall r, r < P -> rspaces r (ms r)) -> runs op dsz P gs ms (rinv k v).
Proof.
  intros H Hs. eapply runs_weaken; [|by apply runs_grows]. intros r m Hr [H1 H2]. split; [done|]. eapply rspaces_grow; [done|by apply Hs].
Qed.

(** What is sent of the block of [j]. *)
Abbreviation part v k j := ((fun i => v (first k j + i)) <$> seq 0 (len k j)).

Lemma read_part m r g v k j : k <= K -> arr dsz m (recv r) count g -> (forall i, own K count k j i -> g i = v i) ->
  read_cells dsz m (block r (first k j)) (len k j) = Some (part v k j).
Proof.
  intros Hk Hg Hv. destruct (first_len K count Hcount k j Hk) as (_ & Hl & _). erewrite read_sub by (exact Hg || done). f_equal.
  apply list_fmap_ext. intros i y [-> Hi]%lookup_seq. apply Hv. unfold own. lia.
Qed.

Lemma hexch_step k ms : k < K -> (forall r, r < P -> rinv k (dval k) r (ms r)) -> steps op dsz P (hexch k) ms (has (S k) (dval (S k))).
Proof.
  intros Hk Hms. pose proof count_pos as Hc.
  apply (exchange_opt_step op dsz P _ ms _ (pair k) (pair k) (fun r => part (dval k (num r)) (S k) (flip (num r) k))
    (fun r => recv_reduce_entry (block r (first (S k) (num r))) (len (S k) (num r)) (pair k r) (hbuf k r) ccl_recv_reduce_local_buf) (fun r => negb (folds r))).
  { intros r Hr. destruct (pair_perm dsz P K count dsz_pos HK Hc k r Hk Hr). done. }
  { intros r Hr. rewrite (folds_pair dsz P K count dsz_pos HK Hc) by done. unfold hexch. by destruct (folds r). }
  intros r Hr. destruct (Hms r Hr) as [(g & Hg & Hv) [_ Hsp]]. rewrite (folds_pair dsz P K count dsz_pos HK Hc) by done. exists (ms r). unfold hexch.
  destruct (folds r) eqn:Ef; cbn [negb].
  - exists (ms r). split; [done|]. split; [done|]. exists g. split; [done|]. by rewrite Ef.
  - destruct (pair_num dsz P K count dsz_pos HK Hc k r Hk Hr Ef) as [_ En]. rewrite En, flip_flip.
    destruct (Hsp eq_refl k Hk) as [h Hh]. destruct (first_len K count Hcount (S k) (num r) Hk) as (_ & Hl & _).
    destruct (recv_reduce_local_sub op dsz dsz_pos (ms r) (recv r) count g (first (S k) (num r)) (hbuf k r) (len (S k) (num r)) h 0 (len (S k) (num r)) (pair k r)
      (fun i => dval k (flip (num r) k) (first (S k) (num r) + i)) (hbuf_src k r Hr) Hg Hh) as (m' & E & A & _ & _); [done|done|].
    rewrite buffer_add_0 in E by done. exists m'. split.
    + cbn. rewrite (read_part (ms r) r g (dval k (num r))); [done|done|done|]. intros i Hi. apply Hv; [done|]. apply own_halves; auto.
    + split; [exact E|]. eexists. split; [exact A|]. intros _ i Hi. unfold upd. unfold own in Hi. rewrite decide_True by lia. cbn [Doubling.dval].
      replace (first (S k) (num r) + (i - first (S k) (num r))) with i by lia. f_equal. apply Hv; [done|]. apply own_halves; auto.
Qed.

Lemma gexch_step k v ms : k < K -> (forall r, r < P -> rinv (S k) (fun _ => v) r (ms r)) -> steps op dsz P (gexch k) ms (has k (fun _ => v)).
Proof.
  intros Hk Hms. pose proof count_pos as Hc.
  apply (exchange_opt_step op dsz P _ ms _ (pair k) (pair k) (fun r => part v (S k) (num r))
    (fun r => recv_entry (block r (first (S k) (flip (num r) k))) (len (S k) (flip (num r) k)) (pair k r)) (fun r => negb (folds r))).
  { intros r Hr. destruct (pair_perm dsz P K count dsz_pos HK Hc k r Hk Hr). done. }
  { intros r Hr. rewrite (folds_pair dsz P K count dsz_pos HK Hc) by done. unfold gexch. by destruct (folds r). }
  intros r Hr. destruct (Hms r Hr) as [(g & Hg & Hv) _]. rewrite (folds_pair dsz P K count dsz_pos HK Hc) by done. exists (ms r). unfold gexch.
  destruct (folds r) eqn:Ef; cbn [negb].
  - exists (ms r). split; [done|]. split; [done|]. exists g. split; [done|]. by rewrite Ef.
  - destruct (pair_num dsz P K count dsz_pos HK Hc k r Hk Hr Ef) as [_ En]. rewrite En.
    destruct (first_len K count Hcount (S k) (flip (num r) k) Hk) as (_ & Hl & _).
    destruct (recv_sub op dsz dsz_pos (ms r) (recv r) count g (first (S k) (flip (num r) k)) (len (S k) (flip (num r) k)) (pair k r)
      (fun i => v (first (S k) (flip (num r) k) + i)) Hg Hl) as (m' & E & A & _). exists m'. split.
    + cbn. by rewrite (read_part (ms r) r g v); [|lia|done|auto].
    + split; [exact E|]. eexists. split; [exact A|]. intros _ i Hi. unfold upd. case_decide; [f_equal; lia|].
      apply own_halves in Hi as [Hi|Hi]; [auto| |done|done]. unfold own in Hi. lia.
Qed.

Lemma halving_runs n k ms : k + n <= K -> (forall r, r < P -> rinv k (dval k) r (ms r)) ->
  runs op dsz P (hexch <$> seq k n) ms (rinv (k + n) (dval (k + n))).
Proof.
  revert k ms. induction n as [|n IH]; intros k ms Hk Hms; [rewrite Nat.add_0_r; by apply runs_nil|]. cbn [seq fmap list_fmap].
  apply (runs_seq _ _ _ [hexch k] _ _ (rinv (S k) (dval (S k)))).
  - apply runs_rinv; [|apply Hms]. by apply runs_one, hexch_step; [lia|].
  - intros ms1 H1. replace (k + S n) with (S k + n) by lia. apply IH; [lia|done].
Qed.
Lemma gather_runs v k ms : k <= K -> (forall r, r < P -> rinv k (fun _ => v) r (ms r)) ->
  runs op dsz P (gexch <$> rev (seq 0 k)) ms (rinv 0 (fun _ => v)).
Proof.
  revert ms. induction k as [|k IH]; intros ms Hk Hms; [by apply runs_nil|]. rewrite seq_S, rev_app_distr. cbn [rev app fmap list_fmap].
  apply (runs_seq _ _ _ [gexch k] _ _ (rinv k (fun _ => v))).
  - apply runs_rinv; [|apply Hms]. by apply runs_one, gexch_step.
  - intros ms1 H1. apply IH; [lia|done].
Qed.

Context `{!Assoc (=) op, !Comm (=) op}.
Abbreviation total i := (reduce_ranks op P (fun q => x q i)).

Lemma rabenseifner_runs ms :
  (forall r, r < P -> arr dsz (ms r) (send r) count (x r) /\ (exists g, arr dsz (ms r) (recv r) count g) /\ rspaces r (ms r)) ->
  runs op dsz P (rgroups ++ [dback P K count recv]) ms (fun r m => arr dsz m (recv r) count (fun i => total i)).
Proof.
  intros Hms. pose proof count_pos as Hc. assert (Ht : forall j i, j < pof2 -> dval K j i = total i) by (intros; by eapply dval_total).
  assert (Hn : forall r, r < P -> num r < pof2) by (intros; by eapply num_lt).
  assert (H0 : runs op dsz P [dcopy count send recv; dfold P K count recv nx; dfold_red P K count recv nx] ms (has 0 (dval 0))).
  { eapply runs_cons; [eapply (dcopy_step op dsz P K count dsz_pos HK Hc send recv nx x Hok ms)|]; [intros r Hr; by destruct (Hms r Hr) as (? & ? & ? & _)|].
    intros ms1 H1. eapply runs_cons; [by eapply (dfold_step op dsz P K count dsz_pos HK Hc)|]. intros ms2 H2.
    eapply runs_weaken; [|by eapply runs_one, (dfold_red_step op dsz P K count dsz_pos HK Hc)]. intros r m Hr [(g & Hg & Hv) _]. exists g. split; [done|].
    intros Hf i Hi. apply Hv; [done|]. by apply own_all in Hi. }
  unfold rgroups. rewrite <- !app_assoc. eapply runs_seq; [apply runs_rinv; [exact H0|apply Hms]|]. intros ms1 H1.
  eapply runs_seq; [by apply (halving_runs K 0)|]. intros ms2 H2. eapply runs_seq; [apply (gather_runs (fun i => total i) K); [done|]|].
  { intros r Hr. destruct (H2 r Hr) as [(g & Hg & Hv) Hs]. split; [|done]. exists g. split; [done|]. intros Hf i Hi. rewrite (Hv Hf i Hi). by apply Ht, Hn. }
  intros ms3 H3. eapply runs_weaken; [|eapply runs_one, (dback_step op dsz P K count dsz_pos HK Hc recv nx x)].
  - intros r m Hr A. eapply (arr_ext dsz); [|exact A]. intros i Hi. apply Ht, Hn. destruct (folds r); [|done]. by eapply mate_perm.
  - intros r Hr. destruct (H3 r Hr) as [(g & Hg & Hv) [Hs _]]. split; [|done]. exists g. split; [done|]. intros Hf i Hi. rewrite Hv, Ht; [done|by apply Hn|done|].
    by apply own_all.
Qed.

Lemma rallocs_spaces r m : Forall (allocated dsz m) (rallocs r) -> rspaces r m.
Proof.
  intros H. apply Forall_cons in H as [[h Hh] Hal]. cbn in Hh. rewrite Nat.div_mul in Hh by lia. split; [by exists h|]. intros Hf k Hk. rewrite Hf in Hal.
  unfold hallocs in Hal. rewrite Forall_fmap, Forall_forall in Hal. destruct (Hal k) as [h' Hh']; [apply elem_of_seq; lia|]. cbn in Hh'.
  rewrite Nat.div_mul in Hh' by lia. by exists h'.
Qed.
End rabenseifner.

(** * Claims *)

Section theorems.
Context {V : Type} (op : V -> V -> V) (dsz P pof2 count : nat) (send recv : nat -> ccl_buffer) (nx : nat -> nat) (x : nat -> nat -> V).
Implicit Types m : gmap (nat * nat) V.

Lemma rabenseifner_reduces :
  0 < dsz -> 0 < P -> (Z.of_nat P < 2 ^ 31)%Z -> AtlTag.pof2 (Z.of_nat P) = Some (Z.of_nat pof2) -> pof2 <= count -> (Z.of_nat count < 2 ^ 31)%Z ->
  Assoc (=) op -> Comm (=) op -> (forall r, r < P -> bufs_ok send recv nx r) ->
  implements op dsz P (fun r => ccl_coll_build_rabenseifner_allreduce dsz P pof2 count r (send r) (recv r)) nx
    (fun r m => arr dsz m (send r) count (x r) /\ exists g, arr dsz m (recv r) count g)
    (fun r m => arr dsz m (recv r) count (fun i => reduce_ranks op P (fun q => x q i))).
Proof.
  intros Hd HP Hlt Hp Hc Hint Ha Hcm Hok. destruct (comm_pof2 P pof2 HP Hlt Hp) as (K & -> & HK).
  eapply (implements_intro _ _ _ _ _ _ _ (rgroups dsz P K count send recv nx) (dback P K count recv)
    (fun r => S (nx r) + if folds P K r then 0 else K) (rallocs dsz P K count nx)); [done| | |].
  - intros r Hr. by apply rabenseifner_st.
  - intros r Hr. by apply rgroups_ok.
  - intros ms Hms. apply rabenseifner_runs; try done. intros r Hr. destruct (Hms r Hr) as [[Hs Hg] Hal]. split; [done|]. split; [done|]. by apply rallocs_spaces.
Qed.

(** C3: Rabenseifner's allreduce with an associative and commutative operation leaves on every rank the reduction over all
    ranks, for any number of ranks, a power of two or not, and any number of elements from [comm->pof2()] to [2 ^ 31 - 1]
    (the counts of the blocks are [int]), divisible or not, in place or not, and whatever the interleaving. *)
Theorem rabenseifner_allreduce_correct :
  0 < dsz -> 0 < P -> (Z.of_nat P < 2 ^ 31)%Z -> AtlTag.pof2 (Z.of_nat P) = Some (Z.of_nat pof2) -> pof2 <= count -> (Z.of_nat count < 2 ^ 31)%Z ->
  Assoc (=) op -> Comm (=) op -> (forall r, r < P -> bufs_ok send recv nx r) ->
  implements op dsz P (fun r => ccl_coll_build_rabenseifner_allreduce dsz P pof2 count r (send r) (recv r)) nx
    (fun r m => arr dsz m (send r) count (x r) /\ exists g, arr dsz m (recv r) count g)
    (fun r m => arr dsz m (recv r) count (fun i => reduce_ranks op P (fun q => x q i))).
Proof. apply rabenseifner_reduces. Qed.
End theorems.

(** The check that what is sent does not overlap what is received and reduced accepts every two different buffers: [<=] compares them as [bool]. *)
Theorem overlap_check_vacuous dsz buf1 buf2 n k : buf_src buf1 <> 0 -> buf_src buf2 <> 0 ->
  can_use_recv_reduce dsz buf1 buf2 n k = negb (buffer_eqb buf1 buf2).
Proof. intros H1 H2. unfold can_use_recv_reduce, buffer_leb, buffer_bool. cbn. rewrite !bool_decide_eq_true_2 by done. by destruct (negb _). Qed.

Lemma rabenseifner_allreduce_correct_witness :
  implements Nat.add 4 7 (fun r => ccl_coll_build_rabenseifner_allreduce 4 7 4 6 r (send_ex r) (recv_ex r)) nx_ex
    (fun r m => arr 4 m (send_ex r) 6 (x_ex r) /\ exists g, arr 4 m (recv_ex r) 6 g)
    (fun r m => arr 4 m (recv_ex r) 6 (fun i => reduce_ranks Nat.add 7 (fun q => x_ex q i))).
Proof.
  apply rabenseifner_allreduce_correct; [lia|lia|lia|vm_compute; reflexivity|lia|lia|exact _|exact _|]. intros r _. apply bufs_ex.
Defined.

(** Four elements from the third on are received over what is sent. *)
Example overlapping_buffers_accepted : can_use_recv_reduce 4 (mk_buffer 1 0) (mk_buffer 1 8) 4 4 = true.
Proof. reflexivity. Qed.

(** Of [2 ^ 33 + 4] elements the two halves have two each: a count that is not an [int] is truncated, and the check [count >= pof2] accepts it. *)
Lemma long_count_truncated count : Z.of_nat count = (2 ^ 33 + 4)%Z -> cnts 2 count 0 = 2%Z /\ cnts 2 count 1 = 2%Z /\ (2 <=? count) = true.
Proof.
  intros H. assert (E : Z.of_nat (count / 2) = (2 ^ 32 + 2)%Z) by (rewrite Nat2Z.inj_div, H; reflexivity).
  unfold cnts. change (0 <? 2 - 1) with true. change (1 <? 2 - 1) with false. change (2 - 1) with 1. cbv iota. rewrite Nat.mul_1_r, Nat2Z.inj_sub by (apply Nat.Div0.div_le_upper_bound; lia). rewrite H, E.
  split; [reflexivity|]. split; [reflexivity|]. apply Nat.leb_le. lia.
Qed.
