(* ===== verification/Nreduce.v ===== *)
(** The nreduce allreduce of [src/src/coll/algorithms/allreduce/allreduce.cpp], with
    [ccl_get_segment_sizes] of [src/src/coll/algorithms/algorithm_utils.cpp].

    Every rank sends each block of its data to the rank that owns it, and reduces the
    blocks it receives into its own as they arrive; then the blocks are gathered.  The
    receives of a rank reduce into one buffer while they are in flight together: the
    entries race, and the result is the same because the operation is associative and
    commutative. *)

From S2P Require Import Prelude Sched Network Race Bsp Build Reduction ReduceScatter Allgatherv Allreduce.
Open Scope ccl_scope.

(** * Builder *)

Definition accumulate (l : list nat) : nat := foldl Nat.add 0 l.

Definition ccl_get_segment_sizes (dtype_size elem_count requested_seg_size : nat) : result (list nat) :=
  if dtype_size * elem_count =? 0 then Ok []
  else if requested_seg_size <=? dtype_size then Ok (replicate elem_count 1)
  else
    let seg_size := (requested_seg_size + dtype_size - 1) / dtype_size in
    let total_seg_count := ((elem_count + seg_size - 1) / seg_size) `max` 1 in
    let regular_seg_size := elem_count / total_seg_count in
    let large_seg_size := regular_seg_size + (if elem_count mod total_seg_count =? 0 then 0 else 1) in
    let regular_seg_count := total_seg_count * large_seg_size - elem_count in
    let seg_sizes := replicate regular_seg_count regular_seg_size ++
                     replicate (total_seg_count - regular_seg_count) large_seg_size in
    throw_if_not (accumulate seg_sizes =? elem_count) ;;
    Ok seg_sizes.

Section builder.
Context (env : ccl_env) (dsz comm_size comm_rank : nat).

(** One segment: reduce-scatter, then allgatherv. *)
Definition nreduce_segment (is_inplace : bool) (send_buf recv_buf tmp_buf : ccl_buffer) (seg_offset seg_size : nat) : build unit :=
  let use_buffering := allreduce_nreduce_buffering env in
  let seg_send_buf := send_buf +b seg_offset in
  let seg_recv_buf := recv_buf +b seg_offset in
  let seg_tmp_buf := tmp_buf in
  let common_buffer_count := seg_size / comm_size in
  let elem_counts := fun idx => if idx =? comm_size - 1 then common_buffer_count + seg_size mod comm_size else common_buffer_count in
  let elem_offsets := fun idx => idx * common_buffer_count * dsz in
  let elem_count := elem_counts comm_rank in
  let reduce_buf :=
    if use_buffering then seg_tmp_buf +b elem_count * comm_rank * dsz else seg_recv_buf +b elem_offsets comm_rank in
  (if negb is_inplace || use_buffering then
     create_copy (seg_send_buf +b elem_offsets comm_rank) reduce_buf (elem_counts comm_rank) ;;; add_barrier
   else ret tt) ;;;
  for_range 1 (comm_size - 1) (fun idx =>
    let dst := (comm_rank + comm_size - idx) mod comm_size in
    let src := (comm_rank + idx) mod comm_size in
    create_send (seg_send_buf +b elem_offsets dst) (elem_counts dst) dst ;;;
    create_recv_reduce dsz reduce_buf elem_count src (seg_tmp_buf +b elem_count * src * dsz) ccl_recv_reduce_local_buf) ;;;
  add_barrier ;;;
  (if use_buffering then
     create_copy reduce_buf (seg_recv_buf +b elem_offsets comm_rank) elem_count ;;; add_barrier ;;;
     for_range 1 (comm_size - 1) (fun idx =>
       let dst := (comm_rank + idx) mod comm_size in
       let src := (comm_rank + comm_size - idx) mod comm_size in
       create_send reduce_buf (elem_counts comm_rank) dst ;;;
       create_recv_copy (seg_tmp_buf +b elem_offsets src) (seg_recv_buf +b elem_offsets src) (elem_counts src) src)
   else
     ccl_coll_build_naive_allgatherv env dsz comm_size comm_rank
       (seg_recv_buf +b elem_offsets comm_rank) (elem_counts comm_rank) seg_recv_buf elem_counts) ;;;
  add_barrier.

Fixpoint nreduce_segments (is_inplace : bool) (send_buf recv_buf tmp_buf : ccl_buffer) (seg_offset : nat) (segment_sizes : list nat) : build unit :=
  match segment_sizes with
  | [] => ret tt
  | seg_size :: rest =>
    nreduce_segment is_inplace send_buf recv_buf tmp_buf seg_offset seg_size ;;;
    nreduce_segments is_inplace send_buf recv_buf tmp_buf (seg_offset + seg_size * dsz) rest
  end.

Definition ccl_coll_build_nreduce_allreduce (send_buf recv_buf : ccl_buffer) (count : nat) : build unit :=
  if count =? 0 then ret tt else
  let is_inplace := buffer_eqb send_buf recv_buf in
  if comm_size =? 1 then (if negb is_inplace then create_copy send_buf recv_buf count else ret tt) else
  let segment_size := default (2 * 1024 * 1024) (allreduce_nreduce_segment_size env) in
  segment_sizes <-- lift (ccl_get_segment_sizes dsz count segment_size) ;;
  tmp_buf <-- alloc_buffer (default 0 (last segment_sizes) * comm_size * dsz) ;;
  nreduce_segments is_inplace send_buf recv_buf tmp_buf 0 segment_sizes.
End builder.

(** * Reductions into one buffer commute *)

Section commute.
Context {V : Type} (op : V -> V -> V) (dsz : nat) (dsz_pos : 0 < dsz) `{!Assoc (=) op, !Comm (=) op}.
Abbreviation memory := (gmap (nat * nat) V).
Implicit Types m : memory.

Lemma write_read m b vs : read_cells dsz (write_cells dsz m b vs) b (length vs) = Some vs.
Proof. apply read_cells_intro. intros i Hi. by apply lookup_write_cells_in. Qed.

Lemma write_write m b vs vs' : length vs = length vs' -> write_cells dsz (write_cells dsz m b vs) b vs' = write_cells dsz m b vs'.
Proof.
  intros Hl. apply map_eq. intros k. destruct (decide (k ∈ region_cells dsz (b, length vs'))) as [Hin|Hout].
  - apply list_elem_of_fmap in Hin as (i & -> & Hi%elem_of_seq). cbn in *. by rewrite !lookup_write_cells_in by lia.
  - assert (H : forall i, i < length vs' -> k <> cell dsz b i).
    { intros i Hi ->. apply Hout, list_elem_of_fmap. exists i. split; [done|]. apply elem_of_seq. cbn. lia. }
    rewrite !lookup_write_cells_out; try done. intros i Hi. apply H. lia.
Qed.

Lemma read_write_apart m b vs b' n : apart dsz (b, length vs) (b', n) -> read_cells dsz (write_cells dsz m b vs) b' n = read_cells dsz m b' n.
Proof.
  intros Ha. apply (read_agree dsz dsz_pos (region_cells dsz (b', n))); [|done]. intros k Hk.
  apply lookup_write_cells_out; [done|]. intros i Hi ->.
  apply (all_apart_cells dsz dsz_pos [(b, length vs)] [(b', n)] (cell dsz b i)).
  - by apply all_apart_one.
  - apply elem_of_cells_of; [done|]. exists (b, length vs), i. split_and!; [left|done|done].
  - unfold cells_of. cbn. by rewrite app_nil_r.
Qed.

Lemma zip_op_comm (y x1 x2 : list V) : length x1 = length y -> length x2 = length y ->
  zip_with op (zip_with op y x1) x2 = zip_with op (zip_with op y x2) x1.
Proof.
  intros H1 H2. apply list_eq. intros i. rewrite !lookup_zip_with. destruct (y !! i), (x1 !! i), (x2 !! i); cbn; try done.
  f_equal. rewrite <- !(assoc op). f_equal. apply (comm op).
Qed.

Lemma reduce_commute m cb1 cb2 io n m1 m2 : apart dsz (io, n) (cb1, n) -> apart dsz (io, n) (cb2, n) ->
  comp_reduce op dsz m cb1 n io = Some m1 -> comp_reduce op dsz m cb2 n io = Some m2 ->
  exists m3, comp_reduce op dsz m1 cb2 n io = Some m3 /\ comp_reduce op dsz m2 cb1 n io = Some m3.
Proof.
  intros A1 A2. unfold comp_reduce, store.
  intros (x1 & Hx1 & (y & Hy & H1)%bind_Some)%bind_Some (x2 & Hx2 & (y' & Hy' & H2)%bind_Some)%bind_Some.
  assert (y' = y) as -> by congruence. pose proof (reduce_length op dsz dsz_pos _ _ _ _ _ _ Hx1 Hy) as L1. pose proof (reduce_length op dsz dsz_pos _ _ _ _ _ _ Hx2 Hy) as L2.
  rewrite L1, Hy in H1. rewrite L2, Hy in H2. injection H1 as <-. injection H2 as <-.
  pose proof (read_cells_length _ _ _ _ _ Hx1). pose proof (read_cells_length _ _ _ _ _ Hx2). pose proof (read_cells_length _ _ _ _ _ Hy).
  rewrite (read_write_apart _ _ _ cb2), (read_write_apart _ _ _ cb1) by (rewrite ?L1, ?L2; done). rewrite Hx1, Hx2. cbn.
  pose proof (write_read m io (zip_with op y x1)) as W1. rewrite L1 in W1. pose proof (write_read m io (zip_with op y x2)) as W2. rewrite L2 in W2.
  rewrite W1, W2. cbn. assert (E1 : length (zip_with op (zip_with op y x1) x2) = n) by (rewrite !length_zip_with; lia).
  assert (E2 : length (zip_with op (zip_with op y x2) x1) = n) by (rewrite !length_zip_with; lia).
  rewrite E1, E2, W1, W2. eexists. split; [done|]. f_equal. rewrite !write_write by lia. f_equal. apply zip_op_comm; lia.
Qed.
(** Two receives that reduce into the same buffer through separate ones. *)
Lemma recv_reduce_compat io n s1 cb1 s2 cb2 : apart dsz (io, n) (cb1, n) -> apart dsz (io, n) (cb2, n) -> apart dsz (cb1, n) (cb2, n) ->
  compat op dsz (recv_reduce_entry io n s1 cb1 ccl_recv_reduce_local_buf) (recv_reduce_entry io n s2 cb2 ccl_recv_reduce_local_buf).
Proof.
  intros A1 A2 A12. split.
  { intros m msg m1 m2 o Hc [= <- <-]. by exists m1. }
  intros m v1 v2 b d. cbn. case_decide as L1; [|done]. case_decide as L2; [|done]. intros (a & S1 & R1)%bind_Some (c & S2 & R2)%bind_Some.
  assert (C12 : compat op dsz (recv_entry cb1 n s1) (recv_entry cb2 n s2)) by (apply no_race_compat; [done|]; race_cases; (done || by apply apart_sym)).
  assert (C2 : compat op dsz (recv_entry cb2 n s2) (reduce_local_entry cb1 n io)) by (apply no_race_compat; [done|]; race_cases; (done || by apply apart_sym)).
  assert (C1 : compat op dsz (recv_entry cb1 n s1) (reduce_local_entry cb2 n io)) by (apply no_race_compat; [done|]; race_cases; (done || by apply apart_sym)).
  destruct (proj2 C12 m v1 v2 a c) as (s & E1 & E2); cbn in *; rewrite ?decide_True in * by done; [done..|].
  destruct (proj1 C2 a v2 s b None) as (t1 & T1 & T1'); cbn in *; rewrite ?decide_True in * by done; [done|by rewrite R1|].
  destruct (proj1 C1 c v1 s d None) as (t2 & T2 & T2'); cbn in *; rewrite ?decide_True in * by done; [done|by rewrite R2|].
  apply bind_Some in T1 as (? & T1 & [= ->]). apply bind_Some in T2 as (? & T2 & [= ->]).
  destruct (reduce_commute s cb1 cb2 io n t1 t2) as (u & U1 & U2); [done..|]. exists u. rewrite T1', T2'. done.
Qed.
End commute.

(** * Exchanges between all pairs of ranks *)

Lemma bind_ext_in {A B} (l : list A) (f g : A -> list B) : (forall a, a ∈ l -> f a = g a) -> l ≫= f = l ≫= g.
Proof.
  induction l as [|a l IH]; intros H; [done|]. rewrite !bind_cons, (H a) by left. f_equal. apply IH. intros b Hb. apply H. by right.
Qed.

Section pairs.
Context {V : Type} (op : V -> V -> V) (dsz P : nat) (dsz_pos : 0 < dsz) (HP : 0 < P).
Implicit Types m : gmap (nat * nat) V.

(** In step [k] rank [r] sends [pay r (dst r k)] to [dst r k] and receives from [src r k]. *)
Lemma pairs_step (g : nat -> list entry) (ms : nat -> gmap (nat * nat) V) (J : nat -> gmap (nat * nat) V -> Prop) (dst src : nat -> nat -> nat)
    (pay : nat -> nat -> list V) (rcv : nat -> nat -> entry) :
  (forall r k, dst r k < P /\ src r k < P) ->
  (forall s d k, s < P -> d < P -> 0 < k < P -> dst s k = d <-> src d k = s) ->
  (forall r k, recv_from (rcv r k) = Some (src r k)) ->
  (forall r, r < P -> recvs (g r) = (seq 1 (P - 1) ≫= fun k => [rcv r k]) /\ exists m1 m2,
     start_group op dsz (g r) (ms r) = Some (m1, seq 1 (P - 1) ≫= fun k => [(dst r k, pay r (dst r k))]) /\
     complete_group op dsz (seq 1 (P - 1) ≫= fun k => [(rcv r k, pay (src r k) r)]) m1 = Some m2 /\ J r m2) ->
  steps op dsz P g ms J.
Proof.
  intros Hlt Hiff Hfrom H.
  apply (matched_step op dsz P g ms J (fun r => seq 1 (P - 1) ≫= fun k => [(dst r k, pay r (dst r k))])
    (fun r => seq 1 (P - 1) ≫= fun k => [(rcv r k, pay (src r k) r)])).
  - intros r Hr. destruct (H r Hr) as (Hrc & m1 & m2 & H1 & H2 & HJ). exists m1, m2. rewrite Hrc, fst_bind. done.
  - intros r d Hr Hd. apply list_elem_of_fmap in Hd as (? & -> & (k & ->%list_elem_of_singleton & _)%list_elem_of_bind). apply Hlt.
  - intros r e s Hr He Hs. rewrite fst_bind in He. apply list_elem_of_bind in He as (k & ->%list_elem_of_singleton & _).
    cbn [fst] in Hs. rewrite Hfrom in Hs. injection Hs as <-. apply Hlt.
  - intros s d Hs Hd. rewrite msgs_to_bind, msgs_from_bind. apply bind_ext_in. intros k Hk%elem_of_seq. unfold msgs_to, msgs_from.
    rewrite !filter_cons, !filter_nil. cbn. rewrite Hfrom. pose proof (Hiff s d k Hs Hd ltac:(lia)) as E.
    destruct (decide (dst s k = d)) as [E1|E1]; [|rewrite decide_False; [done|]; intros [= E2]; tauto].
    apply E in E1 as E2. rewrite E2, E1, decide_True by done. done.
Qed.

(** A receive that reduces into [b] through [cb]. *)
Lemma recv_reduce_arr m b cb k f h s g : arr dsz m b k f -> arr dsz m cb k h -> apart dsz (b, k) (cb, k) ->
  exists m', complete_entry op dsz (recv_reduce_entry b k s cb ccl_recv_reduce_local_buf) (g <$> seq 0 k) m = Some m' /\
    arr dsz m' b k (fun i => op (f i) (g i)).
Proof.
  intros Hb Hc Ha. destruct (recv_arr op dsz dsz_pos m cb h k s g Hc) as (m1 & E1 & A1).
  assert (Hb1 : arr dsz m1 b k f) by (eapply complete_arr; [done|exact E1| |done]; by apply all_apart_one, apart_sym).
  destruct (reduce_arr op dsz dsz_pos m1 cb g b f k A1 Hb1) as (m2 & E2 & A2). exists m2. split; [|done].
  cbn in E1 |- *. case_decide; [|done]. rewrite E1. done.
Qed.

(** A receive into [rb] that is copied to [cb]. *)
Lemma recv_copy_arr m rb cb k f h s g : arr dsz m cb k f -> arr dsz m rb k h -> buf_src rb <> buf_src cb ->
  exists m', complete_entry op dsz (recv_copy_entry rb cb k s) (g <$> seq 0 k) m = Some m' /\ arr dsz m' cb k g.
Proof.
  intros Hc Hr Hne. destruct (recv_arr op dsz dsz_pos m rb h k s g Hr) as (m1 & E1 & A1).
  assert (Hc1 : arr dsz m1 cb k f) by (eapply complete_arr; [done|exact E1| |done]; by apply all_apart_one, apart_src).
  destruct (copy_arr dsz dsz_pos m1 rb g cb f k A1 Hc1) as (m2 & E2 & A2 & _). exists m2. split; [|done].
  cbn in E1 |- *. case_decide; [|done]. rewrite E1. done.
Qed.
End pairs.

(** * One segment *)

(** Entries one after the other in the open group. *)
Lemma for_group lo k body (f : nat -> list entry) gs cur nx al :
  (forall i cur, lo <= i < lo + k -> body i (st gs cur nx al) = Ok (tt, st gs (cur ++ f i) nx al)) ->
  for_range lo k body (st gs cur nx al) = Ok (tt, st gs (cur ++ (seq lo k ≫= f)) nx al).
Proof.
  revert lo cur. induction k as [|k IH]; intros lo cur H; cbn; [by rewrite app_nil_r|].
  rewrite (bind_Ok _ _ _ _ _ (H lo cur ltac:(lia))), IH by (intros; apply H; lia). by rewrite <- app_assoc.
Qed.

Lemma recv_reduce_st dsz io cnt from cb rt gs cur nx al :
  buf_src io <> 0 -> buf_src cb <> 0 -> cnt = 0 \/ buf_src cb <> buf_src io \/ buf_offset cb <> buf_offset io ->
  create_recv_reduce dsz io cnt from cb rt (st gs cur nx al) = Ok (tt, st gs (cur ++ [recv_reduce_entry io cnt from cb rt]) nx al).
Proof.
  intros H1 H2 H3. unfold create_recv_reduce, buffer_bool. rewrite !bool_decide_eq_true_2 by done.
  replace (match rt with ccl_recv_reduce_local_buf => true | ccl_recv_reduce_comm_buf => true end) with true by (by destruct rt).
  assert (E : buffer_eqb cb io && bool_decide (cnt <> 0) = false).
  { apply andb_false_iff. destruct H3 as [->|H3]; [by right|left]. apply bool_decide_eq_false. unfold get_ptr, buffer_bool.
    rewrite !bool_decide_eq_true_2 by done. intros [=]. tauto. }
  cbn [negb orb]. rewrite E. by build_simp.
Qed.

Section segment.
Context {V : Type} (op : V -> V -> V) (env : ccl_env) (dsz P ssz tsz : nat) (dsz_pos : 0 < dsz) (HP : 1 < P).
Context (inp : nat -> bool) (sb rb tb : nat -> ccl_buffer) (x : nat -> nat -> V).
Abbreviation memory := (gmap (nat * nat) V).
Implicit Types m : memory.
Abbreviation n := (bsize P ssz).
Abbreviation off := (boff P ssz).
Abbreviation buffering := (allreduce_nreduce_buffering env).

(** The temporary buffer is apart from the others, which are the same or apart. *)
Definition seg_bufs_ok (r : nat) : Prop :=
  0 < buf_src (sb r) /\ 0 < buf_src (rb r) /\ 0 < buf_src (tb r) /\ buf_src (tb r) <> buf_src (sb r) /\ buf_src (tb r) <> buf_src (rb r) /\
  ((sb r = rb r /\ inp r = true) \/ (buf_src (sb r) <> buf_src (rb r) /\ inp r = false)).
Context (Hok : forall r, r < P -> seg_bufs_ok r).

Definition sblk (r b : nat) : ccl_buffer := sb r +b off b * dsz.
Definition rblk (r b : nat) : ccl_buffer := rb r +b off b * dsz.
Definition cbuf (r s : nat) : ccl_buffer := tb r +b n r * s * dsz.
Definition red (r : nat) : ccl_buffer := if buffering then cbuf r r else rblk r r.

Definition ncopy (r : nat) : list entry :=
  if negb (inp r) || buffering then [copy_entry (sblk r r) (red r) (n r)] else [].
Definition nex (r k : nat) : list entry :=
  [send_entry (sblk r (asrc P r k)) (n (asrc P r k)) (asrc P r k);
   recv_reduce_entry (red r) (n r) (adst P r k) (cbuf r (adst P r k)) ccl_recv_reduce_local_buf].
Definition nexch (r : nat) : list entry := seq 1 (P - 1) ≫= nex r.
Definition bcopy (r : nat) : list entry := [copy_entry (red r) (rblk r r) (n r)].
Definition bex (r k : nat) : list entry :=
  [send_entry (red r) (n r) (adst P r k);
   recv_copy_entry (tb r +b off (asrc P r k) * dsz) (rblk r (asrc P r k)) (n (asrc P r k)) (asrc P r k)].
Definition bexch (r : nat) : list entry := seq 1 (P - 1) ≫= bex r.
Definition seg_groups : list (nat -> list entry) :=
  [ncopy; nexch] ++ if buffering then [bcopy; bexch] else [naive_group dsz P (fun r => rblk r r) rb n].

Lemma total_bsize b : b < P -> total_count n b = off b.
Proof.
  induction b as [|b IH]; intros Hb; cbn; [unfold boff; lia|]. rewrite IH by lia. unfold boff, bsize. destruct (Nat.eqb_spec b (P - 1)); lia.
Qed.

Lemma rblk_slot r b : b < P -> rblk r b = slot dsz rb n r b.
Proof. intros Hb. unfold rblk, slot. by rewrite total_bsize. Qed.

Lemma nred_gather_ok r : r < P -> ag_bufs_ok dsz (fun r => rblk r r) rb n r.
Proof. intros Hr. destruct (Hok r Hr) as (? & ? & _). split; [cbn; lia|]. split; [lia|]. left. by apply rblk_slot. Qed.

Lemma asrc_ne' r k : r < P -> 0 < k < P -> asrc P r k <> r /\ asrc P r k < P.
Proof. apply (asrc_ne dsz P dsz_pos). lia. Qed.
Lemma asrc_inj' r i j : r < P -> 0 < i < P -> 0 < j < P -> asrc P r i = asrc P r j -> i = j.
Proof. apply (asrc_inj dsz P dsz_pos). lia. Qed.
Lemma adst_ne r k : r < P -> 0 < k < P -> adst P r k <> r /\ adst P r k < P.
Proof. intros. unfold adst. split; [mod_lia|apply Nat.mod_upper_bound; lia]. Qed.
Lemma adst_inj r i j : r < P -> 0 < i < P -> 0 < j < P -> adst P r i = adst P r j -> i = j.
Proof. intros. unfold adst in *. mod_lia. Qed.

Lemma red_src r : r < P -> buf_src (red r) <> 0 /\ buf_src (cbuf r 0) <> 0.
Proof. intros Hr. destruct (Hok r Hr) as (? & ? & ? & _). unfold red. destruct buffering; cbn; lia. Qed.

Lemma nex_st r k gs cur nx al : r < P -> 0 < k < P ->
  (create_send (sblk r (asrc P r k)) (n (asrc P r k)) (asrc P r k) ;;;
   create_recv_reduce dsz (red r) (n r) (adst P r k) (cbuf r (adst P r k)) ccl_recv_reduce_local_buf) (st gs cur nx al) =
  Ok (tt, st gs (cur ++ nex r k) nx al).
Proof using dsz_pos HP Hok.
  intros Hr Hk. destruct (Hok r Hr) as (? & ? & ? & ? & Htr & _). destruct (adst_ne r k Hr Hk) as [Hne _]. destruct (red_src r Hr) as [Hs1 Hs2].
  unfold create_send. build_step. rewrite recv_reduce_st; [by rewrite <- app_assoc|done|done|].
  unfold red. destruct buffering; cbn; [|auto]. destruct (decide (n r = 0)) as [->|Hn]; [by left|]. do 2 right.
  intros E%Nat.add_cancel_l%Nat.mul_cancel_r%Nat.mul_cancel_l; (done || lia).
Qed.

Lemma segment_st r send recv eo gs nx al : r < P -> sb r = send +b eo -> rb r = recv +b eo ->
  nreduce_segment env dsz P r (inp r) send recv (tb r) eo ssz (st gs [] nx al) = Ok (tt, st (gs ++ at_rank r seg_groups) [] nx al).
Proof.
  intros Hr Es Er. unfold nreduce_segment. rewrite <- Es, <- Er. cbv zeta. fold (bsize P ssz). fold (bsize P ssz r).
  assert (E : forall b, b * (ssz / P) * dsz = off b * dsz) by (intros b; unfold boff; lia). rewrite !E.
  fold (sblk r r) (rblk r r) (cbuf r r) (red r).
  assert (E1 : (if negb (inp r) || buffering then create_copy (sblk r r) (red r) (n r) ;;; add_barrier else ret tt) (st gs [] nx al) =
    Ok (tt, st (gs ++ [ncopy r]) [] nx al)).
  { unfold ncopy. destruct (negb (inp r) || buffering); [by build_simp|by rewrite st_empty_group]. }
  rewrite (bind_Ok _ _ _ _ _ E1). clear E1. erewrite bind_Ok; [|apply (for_group 1 (P - 1) _ (nex r))].
  2: { intros i cur Hi. rewrite E. fold (asrc P r i) (adst P r i) (sblk r (asrc P r i)) (cbuf r (adst P r i)). apply nex_st; (done || lia). }
  build_step. fold (nexch r). unfold seg_groups. rewrite at_rank_app. destruct buffering.
  - build_simp. erewrite bind_Ok; [|apply (for_group 1 (P - 1) _ (bex r))].
    + build_simp. done.
    + intros i cur Hi. rewrite E. build_simp. done.
  - erewrite bind_Ok; [|apply (naive_ag_st env dsz P dsz_pos ltac:(lia) (fun r => rblk r r) rb n nred_gather_ok r _ nx al Hr)].
    build_simp. done.
Qed.

(** ** No races but those of the reductions *)

Lemma blk_apart b b' c : b <> b' -> b < P -> b' < P -> apart dsz (c +b off b * dsz, n b) (c +b off b' * dsz, n b').
Proof.
  intros Hne Hb Hb'. apply apart_sub.
  destruct (decide (b < b')); [left; apply block_before|right; apply block_before]; lia.
Qed.
Lemma cbuf_apart r s s' : s <> s' -> apart dsz (cbuf r s, n r) (cbuf r s', n r).
Proof. intros Hne. apply apart_sub. destruct (decide (s < s')); [left|right]; nia. Qed.
Lemma red_cbuf r s : r < P -> s <> r -> apart dsz (red r, n r) (cbuf r s, n r).
Proof.
  intros Hr Hne. destruct (Hok r Hr) as (? & ? & ? & ? & ? & _). unfold red. destruct buffering; [by apply cbuf_apart|].
  apply apart_src. cbn. congruence.
Qed.
Lemma sblk_red r b : r < P -> b < P -> b <> r -> apart dsz (red r, n r) (sblk r b, n b).
Proof.
  intros Hr Hb Hne. destruct (Hok r Hr) as (? & ? & ? & ? & ? & Hal). unfold red, sblk. destruct buffering; [by apply apart_src|].
  destruct Hal as [[-> _]|[? _]]; [by apply blk_apart|apply apart_src; cbn; congruence].
Qed.
Lemma sblk_cbuf r b s k k' : r < P -> apart dsz (cbuf r s, k) (sblk r b, k').
Proof. intros Hr. destruct (Hok r Hr) as (? & ? & ? & ? & _). by apply apart_src. Qed.
Lemma tblk_red r b : buffering = true -> r < P -> b < P -> b <> r -> apart dsz (red r, n r) (tb r +b off b * dsz, n b).
Proof.
  intros Hbf Hr Hb Hne. unfold red. rewrite Hbf. apply apart_sub. unfold boff, bsize.
  destruct (Nat.eqb_spec r (P - 1)), (Nat.eqb_spec b (P - 1)); destruct (decide (b < r)); (lia || (right; nia) || (left; nia)).
Qed.
Lemma tblk_rblk r b b' k k' : r < P -> apart dsz (tb r +b off b * dsz, k) (rblk r b', k').
Proof. intros Hr. destruct (Hok r Hr) as (? & ? & ? & ? & ? & _). by apply apart_src. Qed.

Lemma nexch_free `{!Assoc (=) op, !Comm (=) op} r : r < P -> group_free op dsz (nexch r).
Proof.
  intros Hr. apply (free_loop (compat op dsz)).
  - intros i Hi. destruct (asrc_ne' r i Hr ltac:(lia)). apply (group_ok_free dsz op); [done|]. unfold nex. group_races; first [by apply sblk_cbuf|by apply sblk_red].
  - intros i j a b Hij Hj Ha Hb _. destruct (asrc_ne' r i Hr ltac:(lia)). destruct (asrc_ne' r j Hr ltac:(lia)).
    destruct (adst_ne r i Hr ltac:(lia)). destruct (adst_ne r j Hr ltac:(lia)). assert (adst P r i <> adst P r j) by (intros E%adst_inj; lia).
    unfold nex in Ha, Hb. rewrite elem_of_cons, list_elem_of_singleton in Ha, Hb. destruct Ha as [-> | ->], Hb as [-> | ->].
    + apply no_race_compat; [done|]. race_cases.
    + apply no_race_compat; [done|]. race_cases; first [by apply sblk_cbuf|by apply sblk_red].
    + apply no_race_compat; [done|]. race_cases; first [by apply sblk_cbuf|by apply sblk_red].
    + apply recv_reduce_compat; try done; [by apply red_cbuf..|by apply cbuf_apart].
Qed.

Lemma bexch_ok r : buffering = true -> r < P -> group_ok dsz (bexch r).
Proof.
  intros Hbf Hr. assert (Hrr : forall b k k', apart dsz (rblk r b, k) (red r, k')).
  { intros b k k'. destruct (Hok r Hr) as (? & ? & ? & ? & ? & _). unfold red. rewrite Hbf. apply apart_src. cbn. congruence. }
  apply group_ok_loop.
  - intros i Hi. destruct (asrc_ne' r i Hr ltac:(lia)). unfold bex. group_races; first [by apply apart_sym, tblk_red|by apply Hrr].
  - intros i j a b Hij Hj Ha Hb _. destruct (asrc_ne' r i Hr ltac:(lia)). destruct (asrc_ne' r j Hr ltac:(lia)).
    assert (asrc P r i <> asrc P r j) by (intros E%asrc_inj'; lia).
    unfold bex in Ha, Hb. rewrite elem_of_cons, list_elem_of_singleton in Ha, Hb. destruct Ha as [-> | ->], Hb as [-> | ->]; race_cases;
      first [by apply apart_sym, tblk_red|by apply Hrr|by apply tblk_rblk|by apply apart_sym, tblk_rblk|by apply blk_apart].
Qed.

Lemma seg_groups_free `{!Assoc (=) op, !Comm (=) op} r : r < P -> Forall (group_free op dsz) (at_rank r seg_groups).
Proof.
  intros Hr. unfold seg_groups. rewrite at_rank_app. apply Forall_app. split.
  - repeat constructor; [|by apply nexch_free]. apply group_ok_free; [done|]. unfold ncopy. case_match; group_races.
  - destruct buffering eqn:Hbf; repeat constructor; apply group_ok_free; try done.
    + by apply bexch_ok.
    + by apply (naive_group_ok dsz P dsz_pos ltac:(lia)).
Qed.

(** ** What the segment computes *)

Context (Hsz : P * ssz <= tsz).

Definition spaces (r : nat) m : Prop := (exists g, arr dsz m (rb r) ssz g) /\ exists h, arr dsz m (tb r) tsz h.
Definition seg_pre (r : nat) m : Prop := arr dsz m (sb r) ssz (x r) /\ spaces r m.
(** The own block holds [f], the others are still in the send buffer. *)
Definition seg_mid (f : nat -> V) (r : nat) m : Prop :=
  arr dsz m (red r) (n r) f /\ (forall b, b < P -> b <> r -> arr dsz m (sblk r b) (n b) (fun i => x r (off b + i))) /\ spaces r m.
Definition total (b i : nat) : V := reduce_ranks op P (fun q => x q (off b + i)).

Lemma spaces_grow r m m' : grows m m' -> spaces r m -> spaces r m'.
Proof. intros Hg [[g H1] [h H2]]. split; by eapply arr_grows. Qed.

Lemma n_bound b s : b < P -> s < P -> n b * s + n b <= tsz.
Proof. intros Hb Hs. pose proof (block_bound P ssz ltac:(lia) b Hb). assert (n b * S s <= P * ssz) by (rewrite Nat.mul_comm; apply Nat.mul_le_mono; lia). lia. Qed.

Lemma spaces_rblk r b m : b < P -> spaces r m -> exists g, arr dsz m (rblk r b) (n b) g.
Proof. intros Hb [[g H] _]. eexists. eapply arr_sub; [done|exact H|]. apply block_bound; lia. Qed.
Lemma spaces_cbuf r s m : r < P -> s < P -> spaces r m -> exists h, arr dsz m (cbuf r s) (n r) h.
Proof. intros Hr Hs [_ [h H]]. eexists. eapply arr_sub; [done|exact H|]. by apply n_bound. Qed.
Lemma spaces_tblk r b m : b < P -> spaces r m -> exists h, arr dsz m (tb r +b off b * dsz) (n b) h.
Proof.
  intros Hb [_ [h H]]. eexists. eapply arr_sub; [done|exact H|]. etrans; [apply block_bound; lia|].
  etrans; [|exact Hsz]. rewrite <- (Nat.mul_1_l ssz) at 1. apply Nat.mul_le_mono_r. lia.
Qed.
Lemma spaces_red r m : r < P -> spaces r m -> exists g, arr dsz m (red r) (n r) g.
Proof. intros Hr H. unfold red. destruct buffering; [by apply spaces_cbuf|by apply spaces_rblk]. Qed.

Lemma ncopy_step ms : (forall r, r < P -> seg_pre r (ms r)) ->
  steps op dsz P ncopy ms (fun r => seg_mid (fun i => x r (off r + i)) r).
Proof.
  intros Hms. apply local_step. intros r Hr. destruct (Hms r Hr) as [Hx Hsp]. destruct (Hok r Hr) as (_ & _ & _ & _ & _ & Hal).
  assert (Hs : forall b, b < P -> arr dsz (ms r) (sblk r b) (n b) (fun i => x r (off b + i))).
  { intros b Hb. eapply arr_sub; [done|exact Hx|]. apply block_bound; lia. }
  unfold ncopy. destruct (negb (inp r) || buffering) eqn:Ec.
  - split; [done|]. destruct (spaces_red r (ms r) Hr Hsp) as [g Hg].
    destruct (copy_arr dsz dsz_pos _ _ _ _ _ _ (Hs r Hr) Hg) as (m1 & Hm & A & _).
    assert (Hst : start_entry op dsz (copy_entry (sblk r r) (red r) (n r)) (ms r) = Some (m1, None)) by (cbn; by rewrite Hm).
    exists m1. split; [cbn [start_group]; by rewrite Hst|]. split; [done|]. split; [|eapply spaces_grow; [by eapply start_grows|done]].
    intros b Hb Hne. eapply start_arr; [done|exact Hst| |by apply Hs]. by apply all_apart_one, sblk_red.
  - split; [done|]. exists (ms r). split; [done|]. apply orb_false_iff in Ec as [Ei Hbf]. destruct Hal as [[Esr _]|[_ Ei']]; [|by rewrite Ei' in Ei].
    split; [|by split; auto]. unfold red, rblk. rewrite Hbf, <- Esr. by apply Hs.
Qed.

Lemma pair_iff s d k : s < P -> d < P -> 0 < k < P -> asrc P s k = d <-> adst P d k = s.
Proof. intros. unfold asrc, adst. split; mod_lia. Qed.

Definition nrecv (r k : nat) : list (entry * list V) :=
  [(recv_reduce_entry (red r) (n r) (adst P r k) (cbuf r (adst P r k)) ccl_recv_reduce_local_buf,
    (fun i => x (adst P r k) (off r + i)) <$> seq 0 (n r))].

Lemma nrecv_complete `{!Assoc (=) op, !Comm (=) op} r m : r < P -> seg_mid (fun i => x r (off r + i)) r m ->
  exists m', complete_group op dsz (seq 1 (P - 1) ≫= nrecv r) m = Some m' /\ seg_mid (total r) r m'.
Proof.
  intros Hr Hm. destruct (complete_group_bind op dsz (seq 1 (P - 1)) (nrecv r) (fun l m => exists f, seg_mid f r m /\
    forall i, fold1 op ((fun q => x q (off r + i)) <$> (r :: (adst P r <$> l))) = Some (f i)) [] m) with (todo := seq 1 (P - 1)) as (m' & Hc & f & Hf & Hv).
  - intros l k todo m1 Hl (f & (A & Hs & Hsp) & Hv).
    assert (Hk : 0 < k < P) by (assert (Hin : k ∈ seq 1 (P - 1)) by (rewrite Hl; set_solver); apply elem_of_seq in Hin; lia).
    destruct (adst_ne r k Hr Hk) as [Hne Hlt]. destruct (spaces_cbuf r (adst P r k) m1 Hr Hlt Hsp) as [h Hh].
    destruct (recv_reduce_arr op dsz dsz_pos m1 (red r) (cbuf r (adst P r k)) (n r) f h (adst P r k) (fun i => x (adst P r k) (off r + i)) A Hh) as (m2 & E & A2);
      [by apply red_cbuf|].
    exists m2. split; [cbn [nrecv complete_group]; by rewrite E|]. eexists. split; [split; [exact A2|]|].
    + split; [|eapply spaces_grow; [by eapply complete_grows|done]]. intros b Hb Hbr. eapply complete_arr; [done|exact E| |by apply Hs].
      apply all_apart_Forall. repeat match goal with |- Forall _ _ => constructor end; [by apply sblk_cbuf|by apply sblk_red].
    + intros i. cbn beta. rewrite fmap_app, app_comm_cons, fmap_app. by apply fold1_snoc.
  - done.
  - eexists. split; [exact Hm|]. done.
  - exists m'. split; [done|]. destruct Hf as (A & Hs & Hsp). split; [|done]. eapply (arr_ext dsz); [|exact A]. intros i Hi. unfold total.
    eapply (fold1_any_order op P (fun q => x q (off r + i)) (r :: (adst P r <$> seq 1 (P - 1)))); [| | |lia|by apply Hv].
    + apply NoDup_cons. split; [intros (k & E & Hk%elem_of_seq)%list_elem_of_fmap; destruct (adst_ne r k Hr ltac:(lia)); congruence|].
      apply NoDup_fmap_2_strong; [|apply NoDup_seq]. intros k k' Hk%elem_of_seq Hk'%elem_of_seq. apply adst_inj; lia.
    + cbn. rewrite length_fmap, length_seq. lia.
    + intros q [->|(k & -> & Hk%elem_of_seq)%list_elem_of_fmap]%elem_of_cons; [done|]. apply adst_ne; lia.
Qed.

Lemma nexch_step `{!Assoc (=) op, !Comm (=) op} ms : (forall r, r < P -> seg_mid (fun i => x r (off r + i)) r (ms r)) ->
  steps op dsz P nexch ms (fun r => seg_mid (total r) r).
Proof.
  intros Hms. apply (pairs_step op dsz P dsz_pos ltac:(lia)) with (dst := asrc P) (src := adst P) (pay := fun s d => (fun i => x s (off d + i)) <$> seq 0 (n d))
    (rcv := fun r k => recv_reduce_entry (red r) (n r) (adst P r k) (cbuf r (adst P r k)) ccl_recv_reduce_local_buf).
  - intros r k. split; apply Nat.mod_upper_bound; lia.
  - apply pair_iff.
  - done.
  - intros r Hr. split; [unfold nexch; rewrite recvs_bind; by apply bind_ext_in|].
    destruct (nrecv_complete r (ms r) Hr (Hms r Hr)) as (m2 & Hc & Hp). exists (ms r), m2. split; [|done].
    destruct (Hms r Hr) as (_ & Hs & _). apply start_group_bind. intros k Hk%elem_of_seq. destruct (asrc_ne' r k Hr ltac:(lia)) as [Hne Hlt].
    cbn. by rewrite (arr_read dsz _ _ _ _ (Hs _ Hlt Hne)).
Qed.

(** The own block goes to all ranks. *)
Definition seg_done (r : nat) m : Prop := forall b, b < P -> arr dsz m (rblk r b) (n b) (total b).

Lemma nred_gather_step ms : (forall r, r < P -> arr dsz (ms r) (rblk r r) (n r) (total r) /\ spaces r (ms r)) ->
  steps op dsz P (naive_group dsz P (fun r => rblk r r) rb n) ms seg_done.
Proof.
  intros Hms. destruct (naive_ag_step op dsz P dsz_pos ltac:(lia) (fun r => rblk r r) rb n total nred_gather_ok ms) as (ms' & Hs & Hg).
  - intros r Hr. destruct (Hms r Hr) as [H [[g Hg] _]]. split; [done|]. exists g. replace (total_count n P) with ssz; [done|].
    replace P with (S (P - 1)) at 2 by lia. cbn. rewrite total_bsize by lia. unfold boff, bsize. rewrite Nat.eqb_refl. pose proof (Nat.div_mod_eq ssz P). nia.
  - exists ms'. split; [done|]. intros r Hr b Hb. rewrite rblk_slot by done. by apply Hg.
Qed.

Lemma bcopy_step ms : buffering = true -> (forall r, r < P -> seg_mid (total r) r (ms r)) ->
  steps op dsz P bcopy ms (fun r m => arr dsz m (red r) (n r) (total r) /\ arr dsz m (rblk r r) (n r) (total r) /\ spaces r m).
Proof.
  intros Hbf Hms. apply local_step. intros r Hr. split; [done|]. destruct (Hms r Hr) as (A & _ & Hsp). destruct (spaces_rblk r r _ Hr Hsp) as [g Hg].
  destruct (copy_arr dsz dsz_pos _ _ _ _ _ _ A Hg) as (m1 & Hm & A1 & Kp).
  assert (Hst : start_entry op dsz (copy_entry (red r) (rblk r r) (n r)) (ms r) = Some (m1, None)) by (cbn; by rewrite Hm).
  exists m1. split; [cbn [bcopy start_group]; by rewrite Hst|]. split; [|split; [done|eapply spaces_grow; [by eapply start_grows|done]]].
  eapply keeps_arr; [exact Kp| |done]. destruct (Hok r Hr) as (? & ? & ? & ? & ? & _). unfold red. rewrite Hbf. done.
Qed.

Definition brecv (r k : nat) : list (entry * list V) :=
  [(recv_copy_entry (tb r +b off (asrc P r k) * dsz) (rblk r (asrc P r k)) (n (asrc P r k)) (asrc P r k),
    total (asrc P r k) <$> seq 0 (n (asrc P r k)))].

Lemma brecv_complete r m : r < P -> arr dsz m (rblk r r) (n r) (total r) -> spaces r m ->
  exists m', complete_group op dsz (seq 1 (P - 1) ≫= brecv r) m = Some m' /\ seg_done r m'.
Proof.
  intros Hr A Hsp. destruct (complete_group_bind op dsz (seq 1 (P - 1)) (brecv r) (fun l m => spaces r m /\
    forall b, b ∈ r :: (asrc P r <$> l) -> arr dsz m (rblk r b) (n b) (total b)) [] m) with (todo := seq 1 (P - 1)) as (m' & Hc & _ & Hall).
  - intros l k todo m1 Hl (Hsp1 & Hb).
    assert (Hin : forall j, j ∈ l ++ [k] -> 0 < j < P) by (intros j Hj; assert (H : j ∈ seq 1 (P - 1)) by (rewrite Hl; set_solver); apply elem_of_seq in H; lia).
    destruct (asrc_ne' r k Hr ltac:(apply Hin; set_solver)) as [Hne Hlt]. set (s := asrc P r k) in *.
    destruct (spaces_rblk r s m1 Hlt Hsp1) as [f Hf]. destruct (spaces_tblk r s m1 Hlt Hsp1) as [h Hh].
    destruct (recv_copy_arr op dsz dsz_pos m1 _ _ _ _ _ s (total s) Hf Hh) as (m2 & E & A2).
    { destruct (Hok r Hr) as (? & ? & ? & ? & ? & _). done. }
    exists m2. split; [cbn [brecv complete_group]; fold s; by rewrite E|]. split; [eapply spaces_grow; [by eapply complete_grows|done]|].
    intros b Hbin. destruct (decide (b = s)) as [->|Hbs]; [done|].
    assert (Hb' : b ∈ r :: (asrc P r <$> l)) by (rewrite fmap_app, app_comm_cons in Hbin; apply elem_of_app in Hbin as [?|?%list_elem_of_singleton]; done).
    assert (b < P). { apply elem_of_cons in Hb' as [->|(j & -> & Hj)%list_elem_of_fmap]; [done|]. apply asrc_ne'; [done|]. apply Hin. set_solver. }
    eapply complete_arr; [done|exact E| |by apply Hb]. apply all_apart_Forall. repeat match goal with |- Forall _ _ => constructor end; [by apply tblk_rblk|by apply blk_apart].
  - done.
  - split; [done|]. intros b ->%list_elem_of_singleton. done.
  - exists m'. split; [done|]. intros b Hb. apply Hall. destruct (decide (b = r)) as [->|Hbr]; [left|]. right. apply list_elem_of_fmap.
    exists ((r + P - b) mod P). split; [unfold asrc; mod_lia|]. apply elem_of_seq. mod_lia.
Qed.

Lemma bexch_step ms :
  (forall r, r < P -> arr dsz (ms r) (red r) (n r) (total r) /\ arr dsz (ms r) (rblk r r) (n r) (total r) /\ spaces r (ms r)) ->
  steps op dsz P bexch ms seg_done.
Proof.
  intros Hms. apply (pairs_step op dsz P dsz_pos ltac:(lia)) with (dst := adst P) (src := asrc P) (pay := fun s _ => total s <$> seq 0 (n s))
    (rcv := fun r k => recv_copy_entry (tb r +b off (asrc P r k) * dsz) (rblk r (asrc P r k)) (n (asrc P r k)) (asrc P r k)).
  - intros r k. split; apply Nat.mod_upper_bound; lia.
  - intros s d k Hs Hd Hk. symmetry. by apply pair_iff.
  - done.
  - intros r Hr. split; [unfold bexch; rewrite recvs_bind; by apply bind_ext_in|]. destruct (Hms r Hr) as (A & A' & Hsp).
    destruct (brecv_complete r (ms r) Hr A' Hsp) as (m2 & Hc & Hp). exists (ms r), m2. split; [|done].
    apply start_group_bind. intros k _. cbn. by rewrite (arr_read dsz _ _ _ _ A).
Qed.

Lemma arr_blocks m r (f : nat -> V) : (forall b, b < P -> arr dsz m (rblk r b) (n b) (fun i => f (off b + i))) -> arr dsz m (rb r) ssz f.
Proof.
  intros H i Hi. destruct (block_of_spec dsz P ssz dsz_pos ltac:(lia) ltac:(lia) i Hi) as [Hb [H1 H2]]. specialize (H _ Hb (i - off (block_of P ssz i)) ltac:(lia)).
  unfold rblk in H. rewrite cell_add in H. by replace (off (block_of P ssz i) + (i - off (block_of P ssz i))) with i in H by lia.
Qed.

Lemma segment_runs `{!Assoc (=) op, !Comm (=) op} ms : (forall r, r < P -> seg_pre r (ms r)) ->
  runs op dsz P seg_groups ms (fun r m => arr dsz m (rb r) ssz (fun i => reduce_ranks op P (fun q => x q i))).
Proof.
  intros Hms. apply (runs_weaken op dsz P _ _ seg_done); [intros r m _ Hd; by apply arr_blocks|].
  unfold seg_groups. eapply runs_cons; [by apply ncopy_step|]. intros ms1 H1. eapply runs_cons; [by apply nexch_step|]. intros ms2 H2.
  destruct buffering eqn:Hbf.
  - eapply runs_cons; [by apply bcopy_step|]. intros ms3 H3. by apply runs_one, bexch_step.
  - apply runs_one, nred_gather_step. intros r Hr. destruct (H2 r Hr) as (A & _ & Hsp). unfold red in A. rewrite Hbf in A. done.
Qed.

(** ** What the segment leaves unchanged *)

Definition seg_region (r : nat) (w : ccl_buffer * nat) : Prop :=
  buf_src w.1 = buf_src (tb r) \/ exists o, w.1 = rb r +b o * dsz /\ o + w.2 <= ssz.

Lemma rblk_region r b : b < P -> seg_region r (rblk r b, n b).
Proof. intros Hb. right. exists (off b). split; [done|]. apply block_bound; lia. Qed.
Lemma red_region r : r < P -> seg_region r (red r, n r).
Proof. intros Hr. unfold red. destruct buffering; [by left|by apply rblk_region]. Qed.

Lemma writes_loop r (f : nat -> list entry) : (forall k, 0 < k < P -> Forall (seg_region r) (writes (f k))) -> Forall (seg_region r) (writes (seq 1 (P - 1) ≫= f)).
Proof.
  intros H. apply Forall_forall. intros w Hw. unfold writes in Hw. apply elem_of_app in Hw as [Hw|Hw];
    apply list_elem_of_bind in Hw as (e & He & (k & Hk & Hin%elem_of_seq)%list_elem_of_bind);
    specialize (H k ltac:(lia)); rewrite Forall_forall in H; apply H; apply elem_of_app; [left|right]; apply list_elem_of_bind; by exists e.
Qed.

Lemma seg_writes r g : r < P -> g ∈ seg_groups -> Forall (seg_region r) (writes (g r)).
Proof.
  intros Hr. unfold seg_groups. rewrite elem_of_app. intros [[->|[->|[]%not_elem_of_nil]%elem_of_cons]%elem_of_cons|Hg].
  - unfold ncopy. destruct (_ || _); [|done]. constructor; [by apply red_region|done].
  - apply writes_loop. intros k Hk. constructor; [by left|]. constructor; [by apply red_region|done].
  - destruct buffering.
    + apply elem_of_cons in Hg as [->|[->|[]%not_elem_of_nil]%elem_of_cons].
      * constructor; [by apply rblk_region|done].
      * apply writes_loop. intros k Hk. destruct (asrc_ne' r k Hr Hk). constructor; [by left|]. constructor; [by apply rblk_region|done].
    + apply list_elem_of_singleton in Hg as ->. unfold naive_group.
      assert (own_copy dsz (fun r => rblk r r) rb n r = []) as ->.
      { unfold own_copy, aginp. by rewrite <- rblk_slot, buffer_eqb_refl by done. }
      apply writes_loop. intros k Hk. destruct (asrc_ne' r k Hr Hk). unfold all_exch. rewrite <- rblk_slot, <- rblk_slot by done.
      repeat case_match; repeat match goal with |- Forall _ _ => constructor end; by apply rblk_region.
Qed.

Lemma region_apart r w b c : seg_region r w -> apart dsz (rb r, ssz) (b, c) -> buf_src b <> buf_src (tb r) -> apart dsz w (b, c).
Proof.
  destruct w as [wb wc]. unfold seg_region. cbn [fst snd]. intros [Hs|(o & -> & Ho)] Ha Hne; [apply apart_src; cbn in *; congruence|].
  unfold apart in *. cbn in *. destruct Ha as [?|[?|[?|[?|?]]]]; [left; lia|by right; left|by do 2 right; left|do 3 right; left; nia|do 4 right; nia].
Qed.

(** The segment as a step of the loop over segments. *)
Lemma segment_step `{!Assoc (=) op, !Comm (=) op} ms : (forall r, r < P -> seg_pre r (ms r)) ->
  runs op dsz P seg_groups ms (fun r m =>
    (arr dsz m (rb r) ssz (fun i => reduce_ranks op P (fun q => x q i)) /\ grows (ms r) m) /\
    forall b c f, apart dsz (rb r, ssz) (b, c) -> buf_src b <> buf_src (tb r) -> arr dsz (ms r) b c f -> arr dsz m b c f).
Proof.
  intros Hms. destruct (runs_frame op dsz P dsz_pos _ _ _ (segment_runs ms Hms)) as (ms' & Hb & HJ). exists ms'. split; [done|].
  intros r Hr. destruct (HJ r Hr) as [Hv Hf]. split; [split; [done|by eapply bsp_grows]|]. intros b c f Ha Hne. apply (arr_cells dsz dsz_pos _ _ _ _ _ _ Hf).
  intros w w' (g & Hw & Hg)%list_elem_of_bind ->%list_elem_of_singleton. pose proof (seg_writes r g Hr Hg) as Hws. rewrite Forall_forall in Hws.
  eapply region_apart; eauto.
Qed.
End segment.

(** * Segment sizes *)

Lemma accumulate_cons a l : accumulate (a :: l) = a + accumulate l.
Proof.
  assert (H : forall l a, foldl Nat.add a l = a + foldl Nat.add 0 l).
  { clear. induction l as [|b l IH]; intros a; cbn; [lia|]. rewrite IH, (IH b). lia. }
  unfold accumulate. cbn. by rewrite H.
Qed.
Lemma accumulate_replicate k s l : accumulate (replicate k s ++ l) = k * s + accumulate l.
Proof. induction k as [|k IH]; [done|]. cbn [replicate app]. rewrite accumulate_cons, IH. lia. Qed.

Lemma last_replicate_app {A} (a : A) k l : 0 < k -> last (l ++ replicate k a) = Some a.
Proof. intros Hk. destruct k as [|k]; [lia|]. by rewrite replicate_S_end, app_assoc, last_snoc. Qed.

(** A segment fits when it has one element or as many as the requested size needs. *)
Definition seg_fits (dsz req s : nat) : Prop := 0 < s /\ s <= 1 `max` ((req + dsz - 1) / dsz).

Lemma sizes_fit T seg count : 0 < seg -> 0 < count -> T = ((count + seg - 1) / seg) `max` 1 ->
  0 < T /\ 0 < count / T /\ (count mod T = 0 -> count / T <= seg) /\ (count mod T <> 0 -> S (count / T) <= seg).
Proof.
  intros Hs Hc HT. pose proof (Nat.div_mod_eq (count + seg - 1) seg) as E1. pose proof (Nat.mod_upper_bound (count + seg - 1) seg ltac:(lia)).
  set (q := (count + seg - 1) / seg) in *. assert (Hq : count <= seg * q) by lia. assert (seg * q < count + seg) by lia.
  assert (q <> 0) by nia. assert (T = q) by lia. subst T. replace (q `max` 1) with q in * by lia. assert (Hqc : q <= count) by nia.
  pose proof (Nat.div_mod_eq count q) as E2. pose proof (Nat.mod_upper_bound count q ltac:(lia)).
  split; [lia|]. split; [apply Nat.div_str_pos; lia|]. split; intros Hm; nia.
Qed.

(** The sizes add up, so that the check of [ccl_get_segment_sizes] never fails; none is empty, none larger
    than the requested size needs, and none larger than the last, from which the temporary buffer
    gets its size. *)
Lemma segment_sizes_spec dsz count req : 0 < dsz -> 0 < count ->
  exists l, ccl_get_segment_sizes dsz count req = Ok l /\ accumulate l = count /\
    Forall (seg_fits dsz req) l /\ Forall (fun s => s <= default 0 (last l)) l.
Proof.
  intros Hd Hc. unfold ccl_get_segment_sizes. destruct (Nat.eqb_spec (dsz * count) 0) as [E|_]; [nia|].
  destruct (Nat.leb_spec req dsz) as [Hr|Hr].
  { exists (replicate count 1). split; [done|]. split; [|split].
    - rewrite <- (app_nil_r (replicate _ _)), accumulate_replicate. cbn. lia.
    - apply Forall_replicate. unfold seg_fits. lia.
    - apply Forall_replicate. replace (last (replicate count 1)) with (Some 1); [done|]. symmetry. by apply (last_replicate_app 1 count []). }
  set (seg := (req + dsz - 1) / dsz). set (T := ((count + seg - 1) / seg) `max` 1).
  assert (Hseg : 0 < seg) by (apply Nat.div_str_pos; lia). destruct (sizes_fit T seg count Hseg Hc eq_refl) as (HT & Hq & H0 & H1).
  pose proof (Nat.div_mod_eq count T) as E. pose proof (Nat.mod_upper_bound count T ltac:(lia)). set (q := count / T) in *. set (m := count mod T) in *.
  set (big := q + _). set (k := T * big - count).
  assert (Hk : k <= T /\ 0 < T - k /\ k * q + (T - k) * big = count /\ q <= big /\ big <= seg).
  { subst k big. destruct (Nat.eqb_spec m 0) as [Em|Em]; [specialize (H0 Em)|specialize (H1 Em)].
    - replace (T * (q + 0) - count) with 0 by nia. nia.
    - assert (T * (q + 1) - count = T - m) as -> by nia. nia. }
  destruct Hk as (Hk1 & Hk2 & Hk3 & Hk4 & Hk5).
  assert (Hs : accumulate (replicate k q ++ replicate (T - k) big) = count).
  { rewrite accumulate_replicate, <- (app_nil_r (replicate (T - k) big)), accumulate_replicate. cbn. lia. }
  exists (replicate k q ++ replicate (T - k) big). rewrite Hs, Nat.eqb_refl. split; [done|]. split; [done|]. split.
  - apply Forall_app. split; apply Forall_replicate; unfold seg_fits; fold seg; lia.
  - rewrite last_replicate_app by done. cbn. apply Forall_app. split; apply Forall_replicate; lia.
Qed.

(** * All segments *)

Section segments.
Context {V : Type} (op : V -> V -> V) (env : ccl_env) (dsz P count tsz : nat) (send recv : nat -> ccl_buffer) (nx : nat -> nat)
        (x : nat -> nat -> V) (dsz_pos : 0 < dsz) (HP : 1 < P).
Context (Hok : forall r, r < P -> bufs_ok send recv nx r).
Implicit Types m : gmap (nat * nat) V.

Definition ninp (r : nat) : bool := buffer_eqb (send r) (recv r).
Definition ntmp (r : nat) : ccl_buffer := mk_buffer (nx r) 0.
Definition send_at (eo r : nat) : ccl_buffer := send r +b eo * dsz.
Definition recv_at (eo r : nat) : ccl_buffer := recv r +b eo * dsz.

Fixpoint seg_gs (eo : nat) (l : list nat) : list (nat -> list entry) :=
  match l with
  | [] => []
  | s :: l' => seg_groups env dsz P s ninp (send_at eo) (recv_at eo) ntmp ++ seg_gs (eo + s) l'
  end.

Lemma ninp_cases r : r < P -> (send r = recv r /\ ninp r = true) \/ (buf_src (send r) <> buf_src (recv r) /\ ninp r = false).
Proof.
  intros Hr. destruct (Hok r Hr) as (H1 & H2 & [E|Hne]); [left|right]; (split; [done|]); unfold ninp.
  - rewrite E. apply buffer_eqb_refl.
  - apply buffer_eqb_src; [lia|done].
Qed.

Lemma at_bufs_ok eo r : r < P -> seg_bufs_ok ninp (send_at eo) (recv_at eo) ntmp r.
Proof.
  intros Hr. destruct (Hok r Hr) as (H1 & H2 & _). unfold seg_bufs_ok, send_at, recv_at, ntmp. cbn. split_and!; [lia..|].
  destruct (ninp_cases r Hr) as [[-> ->]|[Hne ->]]; [by left|by right].
Qed.

Lemma segments_st r l : r < P -> forall eo gs nx' al,
  nreduce_segments env dsz P r (ninp r) (send r) (recv r) (ntmp r) (eo * dsz) l (st gs [] nx' al) =
  Ok (tt, st (gs ++ at_rank r (seg_gs eo l)) [] nx' al).
Proof.
  intros Hr. induction l as [|s l IH]; intros eo gs nx' al; cbn [nreduce_segments seg_gs]; [by rewrite app_nil_r|].
  erewrite bind_Ok; [|by apply (segment_st env dsz P s dsz_pos HP ninp (send_at eo) (recv_at eo) ntmp (at_bufs_ok eo))].
  rewrite <- Nat.mul_add_distr_r, IH, at_rank_app, app_assoc. done.
Qed.

Lemma segments_free `{!Assoc (=) op, !Comm (=) op} r l eo : r < P -> Forall (group_free op dsz) (at_rank r (seg_gs eo l)).
Proof.
  intros Hr. revert eo. induction l as [|s l IH]; intros eo; [constructor|]. cbn [seg_gs]. rewrite at_rank_app. apply Forall_app. split; [|apply IH].
  apply seg_groups_free; try done. apply at_bufs_ok.
Qed.

Definition nval (i : nat) : V := reduce_ranks op P (fun q => x q i).

(** The elements before [eo] are reduced. *)
Definition segs_inv (eo r : nat) m : Prop :=
  arr dsz m (send_at eo r) (count - eo) (fun i => x r (eo + i)) /\ arr dsz m (recv r) eo nval /\
  (exists g, arr dsz m (recv r) count g) /\ exists h, arr dsz m (ntmp r) tsz h.

Lemma segs_pre eo s r m : eo + s <= count -> segs_inv eo r m -> seg_pre dsz s tsz (send_at eo) (recv_at eo) ntmp (fun r i => x r (eo + i)) r m.
Proof.
  intros Hs (Hx & _ & [g Hg] & Ht). split; [intros i Hi; apply Hx; lia|]. split; [|done]. eexists. eapply arr_sub; [done|exact Hg|done].
Qed.

Lemma segs_next eo s r m m' : r < P -> eo + s <= count -> segs_inv eo r m -> arr dsz m' (recv_at eo r) s (fun i => nval (eo + i)) -> grows m m' ->
  (forall b c f, apart dsz (recv_at eo r, s) (b, c) -> buf_src b <> buf_src (ntmp r) -> arr dsz m b c f -> arr dsz m' b c f) ->
  segs_inv (eo + s) r m'.
Proof.
  intros Hr Hs (Hx & Hv & [g Hg] & [h Ht]) A Hgr Hf. destruct (Hok r Hr) as (H1 & H2 & Hal). split; [|split; [|split; by eapply arr_grows]].
  - apply Hf.
    + destruct Hal as [E|Hne]; [|apply apart_src; cbn; congruence]. unfold send_at, recv_at. rewrite E. apply apart_sub. lia.
    + cbn. lia.
    + intros i Hi. specialize (Hx (s + i) ltac:(lia)). unfold send_at in *. rewrite cell_add in Hx |- *. rewrite Nat.add_assoc in Hx. done.
  - assert (Hv' : arr dsz m' (recv r) eo nval).
    { apply Hf; [|cbn; lia|done]. rewrite <- (buffer_add_0 dsz dsz_pos (recv r)). unfold recv_at. apply apart_sub. lia. }
    intros i Hi. destruct (decide (i < eo)) as [Hlt|Hge]; [by apply Hv'|]. specialize (A (i - eo) ltac:(lia)).
    unfold recv_at in A. rewrite cell_add in A. by replace (eo + (i - eo)) with i in A by lia.
Qed.

Lemma segments_runs `{!Assoc (=) op, !Comm (=) op} l : Forall (fun s => P * s <= tsz) l -> forall eo ms, eo + accumulate l = count ->
  (forall r, r < P -> segs_inv eo r (ms r)) -> runs op dsz P (seg_gs eo l) ms (segs_inv count).
Proof.
  induction 1 as [|s l Hs _ IH]; intros eo ms Hsum Hms.
  - apply runs_nil. intros r Hr. replace count with eo by (rewrite <- Hsum; cbn; lia). by apply Hms.
  - rewrite accumulate_cons in Hsum. cbn [seg_gs].
    destruct (segment_step op env dsz P s tsz dsz_pos HP ninp (send_at eo) (recv_at eo) ntmp (fun r i => x r (eo + i)) (at_bufs_ok eo) Hs ms) as (ms1 & Hb & H1).
    { intros r Hr. apply segs_pre; [lia|by apply Hms]. }
    assert (H2 : forall r, r < P -> segs_inv (eo + s) r (ms1 r)).
    { intros r Hr. destruct (H1 r Hr) as ((A & Hgr) & Hf). eapply segs_next; [done|lia|by apply Hms|done..]. }
    destruct (IH (eo + s) ms1 ltac:(lia) H2) as (ms' & Hb' & H'). exists ms'. split; [by eapply bsp_app|done].
Qed.
End segments.

(** * Claims *)

Section theorems.
Context {V : Type} (op : V -> V -> V) (env : ccl_env) (dsz P count : nat) (send recv : nat -> ccl_buffer) (nx : nat -> nat) (x : nat -> nat -> V).
Implicit Types m : gmap (nat * nat) V.

Lemma one_rank : 0 < dsz -> 0 < count -> (forall r, r < 1 -> bufs_ok send recv nx r) ->
  implements op dsz 1 (fun r => ccl_coll_build_nreduce_allreduce env dsz 1 r (send r) (recv r) count) nx
    (fun r m => arr dsz m (send r) count (x r) /\ exists g, arr dsz m (recv r) count g)
    (fun r m => arr dsz m (recv r) count (fun i => reduce_ranks op 1 (fun q => x q i))).
Proof.
  intros Hd Hc Hok. set (cp := fun r => if negb (ninp send recv r) then [copy_entry (send r) (recv r) count] else []).
  apply (implements_free _ _ _ _ _ _ _ [] cp nx (fun _ => [])); [done| | |].
  - intros r Hr. unfold ccl_coll_build_nreduce_allreduce. destruct (Nat.eqb_spec count 0); [lia|]. cbn [Nat.eqb]. fold (ninp send recv r).
    unfold cp. destruct (ninp send recv r); cbn [negb]; [done|by build_simp].
  - intros r Hr. split; [constructor|]. apply group_ok_free; [done|]. unfold cp. case_match; group_races.
  - intros ms Hms. apply runs_one, local_step. intros r Hr. destruct (Hms r Hr) as [[Hx [g Hg]] _]. replace r with 0 in * by lia. unfold cp.
    unfold ninp. destruct (Hok 0 Hr) as (Hs0 & _ & [E|Hne]).
    + rewrite E, buffer_eqb_refl. split; [done|]. exists (ms 0). split; [done|]. by rewrite <- E.
    + rewrite buffer_eqb_src by (done || lia). split; [done|]. destruct (copy_arr dsz Hd _ _ _ _ _ _ Hx Hg) as (m' & Em & A & _). exists m'. cbn. by rewrite Em.
Qed.

Lemma nreduce_reduces :
  0 < dsz -> 0 < P -> 0 < count -> Assoc (=) op -> Comm (=) op -> (forall r, r < P -> bufs_ok send recv nx r) ->
  implements op dsz P (fun r => ccl_coll_build_nreduce_allreduce env dsz P r (send r) (recv r) count) nx
    (fun r m => arr dsz m (send r) count (x r) /\ exists g, arr dsz m (recv r) count g)
    (fun r m => arr dsz m (recv r) count (fun i => reduce_ranks op P (fun q => x q i))).
Proof.
  intros Hd HP Hc Ha Hcm Hok. destruct (decide (P = 1)) as [->|Hne]; [by apply one_rank|].
  set (req := default (2 * 1024 * 1024) (allreduce_nreduce_segment_size env)).
  destruct (segment_sizes_spec dsz count req Hd Hc) as (l & El & Hsum & Hfit & Hlast). set (tsz := default 0 (last l) * P).
  assert (Hpos : 0 < default 0 (last l)).
  { destruct l as [|s l]; [cbn in Hsum; lia|]. apply Forall_cons in Hfit as [[? _] _]. apply Forall_cons in Hlast as [? _]. lia. }
  assert (Htmp : 0 < tsz * dsz) by (subst tsz; apply Nat.mul_pos_pos; [apply Nat.mul_pos_pos|]; lia).
  apply (implements_free _ _ _ _ _ _ _ (seg_gs env dsz P send recv nx 0 l) (fun _ => []) (fun r => S (nx r)) (fun r => [(nx r, tsz * dsz)])); [done| | |].
  - intros r Hr. unfold ccl_coll_build_nreduce_allreduce. destruct (Nat.eqb_spec count 0); [lia|]. destruct (Nat.eqb_spec P 1); [lia|].
    fold req (ninp send recv r). rewrite El. cbn [lift]. rewrite bind_ret. build_step.
    apply (segments_st env dsz P send recv nx Hd ltac:(lia) Hok r l Hr 0).
  - intros r Hr. split; [|done]. apply segments_free; (done || lia).
  - intros ms Hms. eapply runs_seq; [apply (segments_runs op env dsz P count tsz send recv nx x); try (done || lia)|].
    + eapply Forall_impl; [exact Hlast|]. intros s Hs. rewrite Nat.mul_comm. by apply Nat.mul_le_mono_r.
    + intros r Hr. destruct (Hms r Hr) as [[Hx Hg] Hal]. apply Forall_cons in Hal as [[h Hh] _]. cbn in Hh. rewrite Nat.div_mul in Hh by lia.
      split_and!; [|by intros i Hi; lia|done|by exists h]. unfold send_at. rewrite buffer_add_0, Nat.sub_0_r by done. done.
    + intros ms1 H1. apply runs_one, skip_step. intros r Hr. by destruct (H1 r Hr) as (_ & ? & _).
Qed.

(** C4: the nreduce allreduce with an associative and commutative operation leaves on every rank the
    reduction over all ranks, with or without buffering, for any segment size, in place or not, and
    whatever the order in which the messages reduced into one buffer arrive. *)
Theorem nreduce_allreduce_correct :
  0 < dsz -> 0 < P -> 0 < count -> Assoc (=) op -> Comm (=) op -> (forall r, r < P -> bufs_ok send recv nx r) ->
  implements op dsz P (fun r => ccl_coll_build_nreduce_allreduce env dsz P r (send r) (recv r) count) nx
    (fun r m => arr dsz m (send r) count (x r) /\ exists g, arr dsz m (recv r) count g)
    (fun r m => arr dsz m (recv r) count (fun i => reduce_ranks op P (fun q => x q i))).
Proof. apply nreduce_reduces. Qed.

End theorems.

Lemma nreduce_allreduce_correct_witness :
  implements Nat.add 4 3 (fun r => ccl_coll_build_nreduce_allreduce env_ex 4 3 r (send_ex r) (recv_ex r) 5) nx_ex
    (fun r m => arr 4 m (send_ex r) 5 (x_ex r) /\ exists g, arr 4 m (recv_ex r) 5 g)
    (fun r m => arr 4 m (recv_ex r) 5 (fun i => reduce_ranks Nat.add 3 (fun q => x_ex q i))).
Proof. apply nreduce_allreduce_correct; [lia|lia|lia|exact _|exact _|]. intros r _. apply bufs_ex. Defined.
