(* ===== verification/DoubleTree.v ===== *)
(** The double-tree collectives: [src/src/coll/algorithms/double_tree_ops.cpp].

    The data is cut into two halves and each half into parts; a part travels along one
    of the two trees of [Tree] in a sub-schedule of its own.  The messages of the sub-schedules are told apart by the op id, as
    far as the tag layout of the transport keeps it (eight bits, or four for cxi and MPI). *)

From Stdlib Require Import ZArith.
From S2P Require Import Prelude AtlTag Sched Network Race Bsp Build Reduction Par Tree Nreduce.
Open Scope nat_scope.
Open Scope ccl_scope.

(** * Builders *)

(** [if (node != -1) f(node)] *)
Definition on_rank (node : Z) (f : nat -> build unit) : build unit := match to_rank node with Some r => f r | None => ret tt end.
Definition has_child (tree : ccl_bin_tree) : bool := negb (left tree =? -1)%Z || negb (right tree =? -1)%Z.

Section builders.
Context (dsz : nat).

Definition bcast_tree (tree : ccl_bin_tree) (buffer : ccl_buffer) (count : nat) : build unit :=
  on_rank (parent tree) (fun p => create_recv buffer count p ;;; add_barrier) ;;;
  on_rank (left tree) (fun c => create_send buffer count c) ;;;
  on_rank (right tree) (fun c => create_send buffer count c).

Definition create_recv_reduce_from (buffer : ccl_buffer) (count c : nat) : build unit :=
  create_recv_reduce dsz buffer count c null_buffer ccl_recv_reduce_local_buf.

Definition reduce_tree (tree : ccl_bin_tree) (buffer : ccl_buffer) (count : nat) : build unit :=
  on_rank (left tree) (create_recv_reduce_from buffer count) ;;;
  on_rank (right tree) (create_recv_reduce_from buffer count) ;;;
  on_rank (parent tree) (fun p => (if has_child tree then add_barrier else ret tt) ;;; create_send buffer count p).

Definition reduce_bcast_tree (tree : ccl_bin_tree) (buffer : ccl_buffer) (count : nat) : build unit :=
  on_rank (left tree) (create_recv_reduce_from buffer count) ;;;
  on_rank (right tree) (create_recv_reduce_from buffer count) ;;;
  on_rank (parent tree) (fun p =>
    (if has_child tree then add_barrier else ret tt) ;;; create_send buffer count p ;;; create_recv buffer count p) ;;;
  (if has_child tree then add_barrier else ret tt) ;;;
  on_rank (left tree) (fun c => create_send buffer count c) ;;;
  on_rank (right tree) (fun c => create_send buffer count c).

(** [subsched_entry]: its op id and the function that builds it. *)
Record subsched_entry := mk_subsched { ss_op_id : Z; ss_build_fn : build unit }.

Inductive dtree_coll := dtree_bcast | dtree_broadcast | dtree_reduce | dtree_allreduce.

(** [ccl_op_id_t] is a [uint8_t]. *)
Definition op_id_t (z : Z) : Z := (z mod 256)%Z.

(** One iteration: the sub-schedules of a part of each half, in the order the rank creates them. *)
Definition dtree_part (coll : dtree_coll) (rank : nat) (dtree : ccl_double_tree) (t1_op_id t2_op_id : Z)
    (t1_work_buf t2_work_buf : ccl_buffer) (t1_work_count t2_work_count : nat) : list subsched_entry :=
  match coll with
  | dtree_bcast | dtree_broadcast =>
    [mk_subsched t1_op_id (bcast_tree (T1 dtree) t1_work_buf t1_work_count);
     mk_subsched t2_op_id (bcast_tree (T2 dtree) t2_work_buf t2_work_count)]
  | dtree_reduce =>
    [mk_subsched t2_op_id (reduce_tree (T2 dtree) t2_work_buf t2_work_count);
     mk_subsched t1_op_id (reduce_tree (T1 dtree) t1_work_buf t1_work_count)]
  | dtree_allreduce =>
    let s1 := mk_subsched t1_op_id (reduce_bcast_tree (T1 dtree) t1_work_buf t1_work_count) in
    let s2 := mk_subsched t2_op_id (reduce_bcast_tree (T2 dtree) t2_work_buf t2_work_count) in
    if Nat.even rank then [s2; s1] else [s1; s2]
  end.

Fixpoint dtree_loop (n iter : nat) (coll : dtree_coll) (rank : nat) (dtree : ccl_double_tree)
    (t1_part_count t1_part_remainder t2_part_count t2_part_remainder : nat)
    (t1_op_id t2_op_id : Z) (t1_work_buf t2_work_buf : ccl_buffer) : list subsched_entry :=
  match n with
  | O => []
  | S n' =>
    let t1_work_count := if iter <? t1_part_remainder then t1_part_count + 1 else t1_part_count in
    let t2_work_count := if iter <? t2_part_remainder then t2_part_count + 1 else t2_part_count in
    dtree_part coll rank dtree t1_op_id t2_op_id t1_work_buf t2_work_buf t1_work_count t2_work_count ++
    dtree_loop n' (S iter) coll rank dtree t1_part_count t1_part_remainder t2_part_count t2_part_remainder
      (op_id_t (t1_op_id + 1)) (op_id_t (t2_op_id + 1)) (t1_work_buf +b t1_work_count * dsz) (t2_work_buf +b t2_work_count * dsz)
  end.

(** The local entries in front, behind a barrier, and the sub-schedules; [dtree_partition_count] as [None] is not specified. *)
Definition ccl_coll_build_double_tree_op (dtree_partition_count : option nat) (coll : dtree_coll) (rank : nat) (send_buf recv_buf : ccl_buffer) (count : nat)
    (dtree : ccl_double_tree) : list entry * list subsched_entry :=
  let copy := match coll with
              | dtree_bcast => []
              | _ => if buffer_eqb send_buf recv_buf then [] else [copy_entry send_buf recv_buf count]
              end in
  let t1_count := count / 2 in
  let t2_count := count - t1_count in
  let t1_start := recv_buf in
  let t2_start := t1_start +b t1_count * dsz in
  let parts := default 1 dtree_partition_count in
  let t1_op_id := 0%Z in
  let t2_op_id := op_id_t (t1_op_id + op_id_t (Z.of_nat parts)) in
  (copy, dtree_loop parts 0 coll rank dtree (t1_count / parts) (t1_count mod parts) (t2_count / parts) (t2_count mod parts)
           t1_op_id t2_op_id t1_start t2_start).
End builders.

(** * Collectives on a tree *)

Lemma sched_of_true gs : sched_of true gs = gs ≫= close_group true.
Proof. induction gs as [|g gs IH]; [done|]. rewrite sched_of_cons_eq, IH, bind_cons. by destruct gs. Qed.

Lemma relaxed_app p q p' q' : relaxed p p' -> relaxed q q' -> relaxed (p ++ q) (p' ++ q').
Proof. apply Forall2_app. Qed.

Lemma relaxed_open b g : relaxed (open_group g) (close_group b g).
Proof.
  induction g as [|e g IH]; [constructor|]. change (open_group (e :: g)) with ((e, false) :: open_group g). rewrite close_group_cons. by constructor.
Qed.

(** A list with entries at two places. *)
Lemma bind_seq_two {A} (f : nat -> list A) n i j : i < j < n -> (forall k, k < n -> k <> i -> k <> j -> f k = []) -> seq 0 n ≫= f = f i ++ f j.
Proof.
  intros Hij Hn. replace n with (j + (n - j)) by lia. rewrite seq_app, bind_app. f_equal; apply bind_seq_one; try lia; intros k Hk Hne; apply Hn; lia.
Qed.

Section tree_algo.
Context {V : Type} (op : V -> V -> V) (dsz N root L : nat) (dsz_pos : 0 < dsz)
  (par lc rc : nat -> option nat) (lev : nat -> nat) (tok : tree_ok N root par lc rc lev) (levL : forall r, r < N -> lev r <= L)
  (b : nat -> ccl_buffer) (n : nat) (nx : nat -> nat).
Context (bok : forall r, r < N -> buf_src (b r) <> 0 /\ buf_src (b r) < nx r).
Implicit Types m : gmap (nat * nat) V.

Definition kids (r : nat) : list nat := option_list (lc r) ++ option_list (rc r).

Lemma elem_kids p c : p < N -> c ∈ kids p <-> c < N /\ par c = Some p.
Proof.
  intros Hp. unfold kids. rewrite <- (tk_child _ _ _ _ _ _ tok p c Hp), elem_of_app. destruct (lc p), (rc p); cbn; rewrite ?list_elem_of_singleton, ?elem_of_nil; naive_solver.
Qed.

Lemma kids_NoDup p : p < N -> NoDup (kids p).
Proof.
  intros Hp. unfold kids. pose proof (tk_diff _ _ _ _ _ _ tok p) as Hd. destruct (lc p) as [c|], (rc p) as [d|]; cbn; try apply NoDup_singleton; [|apply NoDup_nil_2].
  apply NoDup_cons. split; [|apply NoDup_singleton]. intros ->%list_elem_of_singleton. by eapply Hd.
Qed.

Lemma kid_level p c : p < N -> c ∈ kids p -> lev c < lev p /\ c < N.
Proof.
  intros Hp [Hc Hpar]%elem_kids; [|done]. destruct (decide (c = root)) as [->|Hne]; [by destruct (tk_root _ _ _ _ _ _ tok) as [_ ?]; congruence|].
  destruct (tk_par _ _ _ _ _ _ tok c Hc Hne) as (p' & Hp' & _ & Hl). assert (p' = p) by congruence. by subst.
Qed.

Lemma par_level r p : r < N -> par r = Some p -> lev r < lev p /\ p < N.
Proof.
  intros Hr Hp. destruct (decide (r = root)) as [->|Hne]; [by destruct (tk_root _ _ _ _ _ _ tok) as [_ ?]; congruence|].
  destruct (tk_par _ _ _ _ _ _ tok r Hr Hne) as (p' & Hp' & ? & Hl). assert (p' = p) by congruence. by subst.
Qed.

(** The communication buffer of the [j]-th receive-reduce. *)
Definition tbuf (r j : nat) : ccl_buffer := if decide (n = 0) then null_buffer else mk_buffer (nx r + j) 0.

Definition gather (r : nat) : list entry := imap (fun j c => recv_reduce_entry (b r) n c (tbuf r j) ccl_recv_reduce_local_buf) (kids r).
Definition spread (r : nat) : list entry := (fun c => send_entry (b r) n c) <$> kids r.
Definition up (r : nat) : list entry := (fun p => send_entry (b r) n p) <$> option_list (par r).
Definition down (r : nat) : list entry := (fun p => recv_entry (b r) n p) <$> option_list (par r).

(** The groups by the level of the parent. *)
Definition up_step (k r : nat) : list entry :=
  if decide (lev r = k) then gather r else match par r with Some p => if decide (lev p = k) then up r else [] | None => [] end.
Definition down_step (j r : nat) : list entry :=
  if decide (lev r + j = L) then spread r else match par r with Some p => if decide (lev p + j = L) then down r else [] | None => [] end.

Definition ups : list (nat -> list entry) := up_step <$> seq 0 (S L).
Definition downs : list (nat -> list entry) := down_step <$> seq 0 (S L).

Lemma ups_groups r : r < N -> at_rank r ups ≫= close_group true = close_group true (gather r) ++ close_group true (up r).
Proof.
  intros Hr. unfold at_rank, ups. rewrite <- list_fmap_compose.
  assert (E : forall f : nat -> list entry, (f <$> seq 0 (S L)) ≫= close_group true = seq 0 (S L) ≫= (fun k => close_group true (f k))).
  { intros f. induction (seq 0 (S L)) as [|k l IH]; [done|]. cbn. by rewrite <- IH. }
  rewrite E. unfold compose, up_step. pose proof (levL r Hr). destruct (par r) as [p|] eqn:Ep.
  - destruct (par_level r p Hr Ep) as [Hl Hp]. pose proof (levL p Hp). rewrite (bind_seq_two _ _ (lev r) (lev p)); [|lia|].
    + rewrite decide_True, decide_False, decide_True by (done || lia). done.
    + intros k Hk H1 H2. rewrite !decide_False by done. done.
  - rewrite (bind_seq_one _ _ _ (lev r)); [|lia|].
    + rewrite decide_True by done. unfold up. rewrite Ep. cbn. by rewrite app_nil_r.
    + intros k Hk H1. rewrite decide_False by done. done.
Qed.

Lemma downs_groups r : r < N -> at_rank r downs ≫= close_group true = close_group true (down r) ++ close_group true (spread r).
Proof.
  intros Hr. unfold at_rank, downs. rewrite <- list_fmap_compose.
  assert (E : forall f : nat -> list entry, (f <$> seq 0 (S L)) ≫= close_group true = seq 0 (S L) ≫= (fun k => close_group true (f k))).
  { intros f. induction (seq 0 (S L)) as [|k l IH]; [done|]. cbn. by rewrite <- IH. }
  rewrite E. unfold compose, down_step. pose proof (levL r Hr). destruct (par r) as [p|] eqn:Ep.
  - destruct (par_level r p Hr Ep) as [Hl Hp]. pose proof (levL p Hp). rewrite (bind_seq_two _ _ (L - lev p) (L - lev r)); [|lia|].
    + rewrite decide_False, decide_True, decide_True by lia. done.
    + intros k Hk H1 H2. rewrite !decide_False by lia. done.
  - rewrite (bind_seq_one _ _ _ (L - lev r)); [|lia|].
    + rewrite decide_True by lia. unfold down. rewrite Ep. done.
    + intros k Hk H1. rewrite decide_False by lia. done.
Qed.

(** ** Reduction: the values *)

Section values.
Context (x : nat -> nat -> V).

(** What rank [r] holds after the parents of level below [k] have reduced. *)
Fixpoint val (k : nat) : nat -> nat -> V :=
  match k with
  | O => x
  | S k' => fun r i => if decide (lev r = k') then fold_left (fun a c => op a (val k' c i)) (kids r) (val k' r i) else val k' r i
  end.

(** The ranks whose values it is the reduction of. *)
Fixpoint sub (k r : nat) : list nat :=
  match k with
  | O => [r]
  | S k' => if decide (lev r = k') then sub k' r ++ (kids r ≫= sub k') else sub k' r
  end.

(** The rank that holds the value of [s]. *)
Fixpoint owner (k s : nat) : nat :=
  match k with
  | O => s
  | S k' => let o := owner k' s in match par o with Some p => if decide (lev p = k') then p else o | None => o end
  end.

Definition active (k r : nat) : Prop := r < N /\ forall p, par r = Some p -> k <= lev p.

Lemma owner_active k s : s < N -> active k (owner k s).
Proof.
  intros Hs. induction k as [|k [IH1 IH2]]; [split; [done|lia]|]. cbn. destruct (par (owner k s)) as [p|] eqn:Ep.
  - specialize (IH2 p eq_refl). destruct (par_level _ _ IH1 Ep) as [_ Hp]. case_decide as E.
    + split; [done|]. intros q Hq. destruct (par_level _ _ Hp Hq). lia.
    + split; [done|]. intros q Hq. assert (q = p) as -> by congruence. lia.
  - split; [done|]. intros q Hq. congruence.
Qed.

Lemma active_pred k r : active (S k) r -> active k r.
Proof. intros [H1 H2]. split; [done|]. intros p Hp. specialize (H2 p Hp). lia. Qed.

Lemma active_kid k r c : r < N -> lev r = k -> c ∈ kids r -> active k c.
Proof. intros Hr <- [Hc Hp]%elem_kids; [|done]. split; [done|]. intros p Hp'. assert (p = r) as -> by congruence. done. Qed.

Lemma sub_owner k r s : active k r -> s ∈ sub k r <-> s < N /\ owner k s = r.
Proof.
  revert r. induction k as [|k IH]; intros r Hr; cbn; [rewrite list_elem_of_singleton; split; [intros ->; by destruct Hr|by intros [_ ->]]|].
  pose proof Hr as [HrN Hrp]. pose proof (active_pred k r Hr) as Hk.
  assert (Hin : s ∈ sub k r <-> s < N /\ owner k s = r) by (by apply IH). case_decide as El.
  - rewrite elem_of_app, list_elem_of_bind, Hin. split.
    + intros [[Hs E]|(c & Hc & Hck)].
      * split; [done|]. rewrite E. destruct (par r) as [p|] eqn:Ep; [|done]. specialize (Hrp p eq_refl). by rewrite decide_False by lia.
      * apply IH in Hc as [Hs E]; [|by apply (active_kid k r)]. split; [done|]. apply elem_kids in Hck as [_ Hp]; [|done]. rewrite E, Hp. by rewrite decide_True.
    + intros [Hs E]. destruct (par (owner k s)) as [p|] eqn:Ep; [|by left]. case_decide; [|by left]. subst p. right. exists (owner k s).
      assert (Hck : owner k s ∈ kids r) by (apply elem_kids; [done|]; split; [by apply owner_active|done]). split; [|done].
      apply IH; [by apply (active_kid k r)|done].
  - rewrite Hin. split; intros [Hs E]; (split; [done|]).
    + rewrite E. destruct (par r) as [p|] eqn:Ep; [|done]. specialize (Hrp p eq_refl). by rewrite decide_False by lia.
    + destruct (par (owner k s)) as [p|] eqn:Ep; [|done]. case_decide; [by subst|done].
Qed.

Lemma sub_NoDup k r : active k r -> NoDup (sub k r).
Proof.
  revert r. induction k as [|k IH]; intros r Hr; cbn; [apply NoDup_singleton|]. pose proof (active_pred k r Hr) as Hk. case_decide as El; [|by apply IH].
  destruct Hr as [Hr _]. assert (Hkid : forall c s, c ∈ kids r -> s ∈ sub k c -> owner k s = c).
  { intros c s Hc Hs. apply sub_owner in Hs as [_ E]; [done|by apply (active_kid k r)]. }
  apply NoDup_app. split_and!; [by apply IH| |].
  - intros s [_ E]%sub_owner Hs; [|done]. apply list_elem_of_bind in Hs as (c & Hs & Hc). pose proof (Hkid _ _ Hc Hs) as Ec.
    destruct (kid_level r c Hr Hc). assert (c = r) as -> by congruence. lia.
  - apply NoDup_bind; [|intros c Hc; apply IH; by apply (active_kid k r)|by apply kids_NoDup].
    intros c1 c2 s H1 H2 E1 E2. pose proof (Hkid _ _ H1 E1). pose proof (Hkid _ _ H2 E2). congruence.
Qed.

Context `{!Assoc (=) op, !Comm (=) op}.

Lemma fold1_kids (f : nat -> V) (w : nat -> V) (g : nat -> list nat) l v ls :
  (forall c, c ∈ l -> fold1 op (f <$> g c) = Some (w c)) -> fold1 op (f <$> ls) = Some v ->
  fold1 op (f <$> ls ++ (l ≫= g)) = Some (fold_left (fun a c => op a (w c)) l v).
Proof using Assoc0.
  revert ls v. induction l as [|c l IH]; intros ls v Hg Hv; cbn; [by rewrite app_nil_r|].
  rewrite app_assoc. apply IH; [intros; apply Hg; by right|]. specialize (Hg c (list_elem_of_here _ _)). rewrite fmap_app.
  destruct (f <$> ls) as [|a la]; [done|]. destruct (f <$> g c) as [|a' la']; [done|]. cbn in *. injection Hv as <-. injection Hg as <-.
  rewrite fold_left_app. cbn. by rewrite fold_left_assoc.
Qed.

Lemma val_sub k r i : r < N -> fold1 op ((fun s => x s i) <$> sub k r) = Some (val k r i).
Proof using All.
  revert r. induction k as [|k IH]; intros r Hr; cbn; [done|]. case_decide as El; [|by apply IH].
  apply (fold1_kids _ (fun c => val k c i)); [|by apply IH]. intros c Hc. apply IH. by apply (kid_level r c Hr Hc).
Qed.

Lemma val_root i : val (S L) root i = reduce_ranks op N (fun s => x s i).
Proof using All.
  destruct (tk_root _ _ _ _ _ _ tok) as [Hroot Hnone].
  assert (Ha : active (S L) root) by (split; [done|]; congruence).
  assert (Hown : forall s, s < N -> owner (S L) s = root).
  { intros s Hs. destruct (owner_active (S L) s Hs) as [Ho Hp]. destruct (decide (owner (S L) s = root)) as [|Hne]; [done|].
    destruct (tk_par _ _ _ _ _ _ tok _ Ho Hne) as (p & Hpp & HpN & _). specialize (Hp p Hpp). pose proof (levL p HpN). lia. }
  assert (Hperm : sub (S L) root ≡ₚ seq 0 N).
  { apply NoDup_Permutation; [by apply sub_NoDup|apply NoDup_seq|]. intros s. rewrite sub_owner, elem_of_seq by done. split; [lia|]. intros [_ Hs]. auto. }
  pose proof (val_sub (S L) root i Hroot) as Hv. rewrite (fold1_perm op _ ((fun s => x s i) <$> seq 0 N)) in Hv by (by rewrite Hperm).
  rewrite fold1_ranks in Hv by lia. congruence.
Qed.
End values.

(** ** Messages between a parent and its children *)

Lemma msgs_from_kids (E : nat -> nat -> entry) (w : nat -> list V) (l : list nat) s :
  (forall j c, recv_from (E j c) = Some c) -> NoDup l ->
  msgs_from s (imap (fun j c => (E j c, w c)) l) = if decide (s ∈ l) then [w s] else [].
Proof.
  intros HE. revert E HE. induction l as [|c l IH]; intros E HE Hnd; [done|]. apply NoDup_cons in Hnd as [Hc Hnd]. rewrite imap_cons. unfold msgs_from.
  rewrite filter_cons. cbn [fst]. rewrite HE. specialize (IH (fun j => E (S j)) (fun j => HE (S j)) Hnd). unfold msgs_from in IH.
  change (imap ((fun j c => (E j c, w c)) ∘ S) l) with (imap (fun j c => (E (S j) c, w c)) l).
  destruct (decide (c = s)) as [->|Hne].
  - rewrite decide_True by done. rewrite fmap_cons, IH. cbn. rewrite decide_False by done. by rewrite decide_True by left.
  - rewrite decide_False by congruence. rewrite IH. destruct (decide (s ∈ l)); [rewrite decide_True by (by right)|rewrite decide_False]; [done..|].
    by intros [->|?]%elem_of_cons.
Qed.

Lemma msgs_to_kids (v : list V) (l : list nat) d : NoDup l -> msgs_to d ((fun c => (c, v)) <$> l) = if decide (d ∈ l) then [v] else [].
Proof.
  induction l as [|c l IH]; intros Hnd; [done|]. apply NoDup_cons in Hnd as [Hc Hnd]. specialize (IH Hnd). rewrite fmap_cons. unfold msgs_to in *. rewrite filter_cons. cbn [fst].
  destruct (decide (c = d)) as [->|Hne].
  - rewrite fmap_cons, IH. rewrite decide_False by done. by rewrite decide_True by left.
  - rewrite IH. destruct (decide (d ∈ l)); [rewrite decide_True by (by right)|rewrite decide_False]; [done..|]. by intros [->|?]%elem_of_cons.
Qed.

(** The receives of a parent. *)
Lemma complete_gather (io : ccl_buffer) (cb : nat -> ccl_buffer) (w : nat -> nat -> V) l f m :
  arr dsz m io n f -> (forall j, j < length l -> apart dsz (io, n) (cb j, n) /\ exists h, arr dsz m (cb j) n h) ->
  exists m', complete_group op dsz (imap (fun j c => (recv_reduce_entry io n c (cb j) ccl_recv_reduce_local_buf, w c <$> seq 0 n)) l) m = Some m' /\
    arr dsz m' io n (fun i => fold_left (fun a c => op a (w c i)) l (f i)).
Proof using dsz_pos.
  revert cb f m. induction l as [|c l IH]; intros cb f m Hio Hcb; [by exists m|]. rewrite imap_cons. cbn [complete_group].
  destruct (Hcb 0 ltac:(cbn; lia)) as (Ha & h & Hh). destruct (recv_reduce_arr op dsz dsz_pos m io (cb 0) n f h c (w c) Hio Hh Ha) as (m1 & E1 & A1).
  rewrite E1. cbn [mbind option_bind]. destruct (IH (fun j => cb (S j)) _ m1 A1) as (m' & E & A); [|by exists m'].
  intros j Hj. destruct (Hcb (S j) ltac:(cbn; lia)) as (Ha' & h' & Hh'). split; [done|]. eapply arr_grows; [|exact Hh']. by eapply complete_grows.
Qed.

Lemma start_gather (io : ccl_buffer) (cb : nat -> ccl_buffer) l m :
  start_group op dsz (imap (fun j c => recv_reduce_entry io n c (cb j) ccl_recv_reduce_local_buf) l) m = Some (m, []).
Proof. revert cb. induction l as [|c l IH]; intros cb; [done|]. rewrite imap_cons. cbn [start_group start_entry mbind option_bind]. unfold compose. by rewrite (IH (fun j => cb (S j))). Qed.

Lemma recvs_gather r : recvs (gather r) = gather r.
Proof.
  unfold gather. generalize (tbuf r). induction (kids r) as [|c l IH]; intros cb; [done|]. rewrite imap_cons, filter_cons, decide_True by (cbn; eauto). f_equal. apply (IH (fun j => cb (S j))).
Qed.

Lemma spread_start r f m : arr dsz m (b r) n f -> start_group op dsz (spread r) m = Some (m, (fun c => (c, f <$> seq 0 n)) <$> kids r).
Proof. intros Hf. unfold spread. induction (kids r) as [|c l IH]; [done|]. cbn. rewrite (arr_read _ _ _ _ _ Hf). cbn. by rewrite IH. Qed.

Lemma recvs_spread r : recvs (spread r) = [].
Proof. unfold spread. induction (kids r) as [|c l IH]; [done|]. rewrite fmap_cons, filter_cons, decide_False by (intros [? ?]; done). done. Qed.

(** ** The supersteps of the reduction *)

Lemma tbuf_apart r j : r < N -> apart dsz (b r, n) (tbuf r j, n).
Proof. intros Hr. destruct (bok r Hr). unfold tbuf. case_decide; [by left|]. right; right; left. cbn. lia. Qed.

Definition bufs_here r m : Prop := forall j, j < length (kids r) -> exists h, arr dsz m (tbuf r j) n h.

Definition up_inv (x : nat -> nat -> V) (k r : nat) m : Prop := arr dsz m (b r) n (val x k r) /\ bufs_here r m.

Lemma bufs_grow r m m' : grows m m' -> bufs_here r m -> bufs_here r m'.
Proof. intros Hg H j Hj. destruct (H j Hj) as [h Hh]. by eapply arr_grows. Qed.

Definition up_outs (x : nat -> nat -> V) (k r : nat) : list (nat * list V) :=
  match par r with Some p => if decide (lev p = k) then [(p, val x k r <$> seq 0 n)] else [] | None => [] end.
Definition up_msgs (x : nat -> nat -> V) (k r : nat) : list (entry * list V) :=
  if decide (lev r = k) then imap (fun j c => (recv_reduce_entry (b r) n c (tbuf r j) ccl_recv_reduce_local_buf, val x k c <$> seq 0 n)) (kids r) else [].

Lemma up_run_step x k ms : (forall r, r < N -> up_inv x k r (ms r)) -> steps op dsz N (up_step k) ms (up_inv x (S k)).
Proof.
  intros Hinv. apply (matched_step op dsz N _ _ _ (up_outs x k) (up_msgs x k)).
  - intros r Hr. destruct (Hinv r Hr) as [Ha Hb]. unfold up_step, up_outs, up_msgs, up_inv. cbn [val].
    destruct (decide (lev r = k)) as [El|El].
    + destruct (complete_gather (b r) (tbuf r) (val x k) (kids r) _ (ms r) Ha) as (m' & E & A).
      { intros j Hj. split; [by apply tbuf_apart|by apply Hb]. }
      exists (ms r), m'. split_and!.
      * replace (match par r with Some _ => _ | None => _ end) with (@nil (nat * list V)); [apply start_gather|].
        destruct (par r) as [p|] eqn:Ep; [|done]. destruct (par_level r p Hr Ep). by rewrite decide_False by lia.
      * rewrite recvs_gather. unfold gather. apply list_eq. intros i. rewrite list_lookup_fmap, !list_lookup_imap. by destruct (kids r !! i).
      * done.
      * done.
      * eapply bufs_grow; [|done]. by eapply complete_group_grows.
    + destruct (par r) as [p|] eqn:Ep; [case_decide as Epl|].
      * exists (ms r), (ms r). unfold up. rewrite Ep. cbn. rewrite (arr_read _ _ _ _ _ Ha). done.
      * by exists (ms r), (ms r).
      * by exists (ms r), (ms r).
  - intros r d Hr. unfold up_outs. destruct (par r) as [p|] eqn:Ep; [|by intros ?%elem_of_nil]. case_decide; [|by intros ?%elem_of_nil].
    intros ->%list_elem_of_singleton. by destruct (par_level r p Hr Ep).
  - intros r e s Hr. unfold up_msgs. case_decide; [|by intros ?%elem_of_nil]. intros (y & -> & Hy)%list_elem_of_fmap.
    apply elem_of_lookup_imap in Hy as (j & c & -> & Hc). cbn. intros [= <-]. apply (kid_level r c Hr). by eapply list_elem_of_lookup_2.
  - intros s d Hs Hd. unfold up_outs, up_msgs. destruct (decide (lev d = k)) as [El|El].
    + rewrite (msgs_from_kids (fun j c => recv_reduce_entry (b d) n c (tbuf d j) ccl_recv_reduce_local_buf) (fun c => val x k c <$> seq 0 n)) by (done || by apply kids_NoDup).
      pose proof (elem_kids d s Hd) as Hk. destruct (decide (s ∈ kids d)) as [Hin|Hin].
      * apply Hk in Hin as [_ ->]. rewrite decide_True by done. unfold msgs_to. rewrite filter_cons, decide_True by done. done.
      * destruct (par s) as [p|] eqn:Ep; [|done]. case_decide; [|done]. unfold msgs_to. rewrite filter_cons, decide_False; [done|]. cbn. intros ->. apply Hin, Hk. done.
    + destruct (par s) as [p|] eqn:Ep; [|done]. case_decide; [|done]. unfold msgs_to. rewrite filter_cons, decide_False; [done|]. cbn. intros ->. done.
Qed.

Lemma ups_run x ms : (forall r, r < N -> arr dsz (ms r) (b r) n (x r) /\ bufs_here r (ms r)) -> runs op dsz N ups ms (up_inv x (S L)).
Proof.
  intros H. replace ups with (seq 0 (S L) ≫= fun k => [up_step k]) by (unfold ups; induction (seq 0 (S L)) as [|k l IH]; [done|]; cbn; by rewrite IH).
  apply (runs_loop op dsz N (fun k => [up_step k]) (up_inv x)); [|done]. intros k ms' _ Hk. by apply runs_one, up_run_step.
Qed.

(** ** The supersteps of the broadcast *)

Definition reached (j r : nat) : Prop := forall p, par r = Some p -> L < lev p + j.
Definition down_inv (t : nat -> V) (j r : nat) m : Prop := (exists g, arr dsz m (b r) n g) /\ (reached j r -> arr dsz m (b r) n t).

Definition down_outs (t : nat -> V) (j r : nat) : list (nat * list V) :=
  if decide (lev r + j = L) then (fun c => (c, t <$> seq 0 n)) <$> kids r else [].
Definition down_msgs (t : nat -> V) (j r : nat) : list (entry * list V) :=
  match par r with Some p => if decide (lev p + j = L) then [(recv_entry (b r) n p, t <$> seq 0 n)] else [] | None => [] end.

Lemma down_run_step t j ms : (forall r, r < N -> down_inv t j r (ms r)) -> steps op dsz N (down_step j) ms (down_inv t (S j)).
Proof.
  intros Hinv. apply (matched_step op dsz N _ _ _ (down_outs t j) (down_msgs t j)).
  - intros r Hr. destruct (Hinv r Hr) as [[g Hg] Hre]. unfold down_step, down_outs, down_msgs, down_inv.
    destruct (decide (lev r + j = L)) as [El|El].
    + assert (Hrj : reached j r) by (intros p Hp; destruct (par_level r p Hr Hp); lia). exists (ms r), (ms r). split_and!.
      * apply spread_start. auto.
      * rewrite recvs_spread. destruct (par r) as [p|] eqn:Ep; [|done]. destruct (par_level r p Hr Ep). by rewrite decide_False by lia.
      * destruct (par r) as [p|] eqn:Ep; [|done]. destruct (par_level r p Hr Ep). by rewrite decide_False by lia.
      * by exists g.
      * auto.
    + destruct (par r) as [p|] eqn:Ep; [case_decide as Epl|].
      * destruct (recv_arr op dsz dsz_pos (ms r) (b r) g n p t Hg) as (m' & E & A). exists (ms r), m'. unfold down. rewrite Ep.
        split_and!; [done|done| |by exists t|done]. cbn [complete_group]. by rewrite E.
      * exists (ms r), (ms r). split_and!; [done..|by exists g|]. intros Hj. apply Hre. intros q Hq. specialize (Hj q Hq). assert (q = p) as -> by congruence. lia.
      * exists (ms r), (ms r). split_and!; [done..|by exists g|]. intros _. apply Hre. intros q Hq. congruence.
  - intros r d Hr. unfold down_outs. case_decide; [|by intros ?%elem_of_nil]. intros (y & -> & (c & -> & Hc)%list_elem_of_fmap)%list_elem_of_fmap. by apply (kid_level r c Hr).
  - intros r e s Hr. unfold down_msgs. destruct (par r) as [p|] eqn:Ep; [|by intros ?%elem_of_nil]. case_decide; [|by intros ?%elem_of_nil].
    intros ->%list_elem_of_singleton. cbn. intros [= <-]. by destruct (par_level r p Hr Ep).
  - intros s d Hs Hd. unfold down_outs, down_msgs. destruct (decide (lev s + j = L)) as [El|El].
    + rewrite msgs_to_kids by (by apply kids_NoDup). pose proof (elem_kids s d Hs) as Hk. destruct (decide (d ∈ kids s)) as [Hin|Hin].
      * apply Hk in Hin as [_ ->]. rewrite decide_True by done. unfold msgs_from. rewrite filter_cons, decide_True by done. done.
      * destruct (par d) as [p|] eqn:Ep; [|done]. case_decide; [|done]. unfold msgs_from. rewrite filter_cons, decide_False; [done|]. cbn. intros [= ->]. apply Hin, Hk. done.
    + destruct (par d) as [p|] eqn:Ep; [|done]. case_decide; [|done]. unfold msgs_from. rewrite filter_cons, decide_False; [done|]. cbn. intros [= ->]. done.
Qed.

Lemma downs_run t ms : (forall r, r < N -> (exists g, arr dsz (ms r) (b r) n g) /\ (r = root -> arr dsz (ms r) (b r) n t)) ->
  runs op dsz N downs ms (fun r m => arr dsz m (b r) n t).
Proof.
  intros H. replace downs with (seq 0 (S L) ≫= fun k => [down_step k]) by (unfold downs; induction (seq 0 (S L)) as [|k l IH]; [done|]; cbn; by rewrite IH).
  eapply runs_weaken; [|apply (runs_loop op dsz N (fun k => [down_step k]) (down_inv t))].
  - intros r m Hr [_ Hre]. apply Hre. intros p Hp. lia.
  - intros k ms' _ Hk. by apply runs_one, down_run_step.
  - intros r Hr. destruct (H r Hr) as [Hg Ht]. split; [done|]. intros Hre. apply Ht. destruct (decide (r = root)) as [|Hne]; [done|].
    destruct (tk_par _ _ _ _ _ _ tok r Hr Hne) as (p & Hp & HpN & _). specialize (Hre p Hp). pose proof (levL p HpN). lia.
Qed.

(** ** What the builders build *)

Context (t : nat -> ccl_bin_tree)
  (tp : forall r, to_rank (parent (t r)) = par r) (tl : forall r, to_rank (left (t r)) = lc r) (tr : forall r, to_rank (right (t r)) = rc r).

Definition ncomm (r : nat) : nat := if decide (n = 0) then 0 else length (kids r).
Definition comm_allocs (r : nat) : list (nat * nat) := (fun j => (nx r + j, n * dsz)) <$> seq 0 (ncomm r).

Lemma has_child_kids r : has_child (t r) = bool_decide (kids r <> []).
Proof.
  unfold has_child, kids. rewrite <- tl, <- tr. unfold to_rank. destruct (left (t r) =? -1)%Z, (right (t r) =? -1)%Z; cbn; by rewrite ?bool_decide_eq_true_2, ?bool_decide_eq_false_2 by (done || tauto).
Qed.

Lemma recv_reduce_new io c gs cur k al : buf_src io <> 0 ->
  create_recv_reduce_from dsz io n c (st gs cur k al) =
  Ok (tt, if decide (n = 0) then st gs (cur ++ [recv_reduce_entry io n c null_buffer ccl_recv_reduce_local_buf]) k al
          else st gs (cur ++ [recv_reduce_entry io n c (mk_buffer k 0) ccl_recv_reduce_local_buf]) (S k) (al ++ [(k, n * dsz)])).
Proof using dsz_pos.
  intros Hio. unfold create_recv_reduce_from, create_recv_reduce, buffer_bool. rewrite bool_decide_eq_true_2 by done. cbn [null_buffer buf_src].
  rewrite bool_decide_eq_false_2 by tauto. cbn [negb orb andb]. destruct (decide (n = 0)) as [E|E].
  - rewrite bool_decide_eq_false_2 by tauto. by build_simp.
  - rewrite bool_decide_eq_true_2 by done. erewrite bind_Ok; [|apply alloc_buffer_st; nia]. by build_simp.
Qed.

Lemma tree_gather_st r (k : build unit) gs : buf_src (b r) <> 0 ->
  (on_rank (left (t r)) (create_recv_reduce_from dsz (b r) n) ;;; on_rank (right (t r)) (create_recv_reduce_from dsz (b r) n) ;;; k) (st gs [] (nx r) []) =
  k (st gs (gather r) (nx r + ncomm r) (comm_allocs r)).
Proof using dsz_pos tl tr.
  intros Hb. unfold on_rank, gather, ncomm, comm_allocs, ncomm, tbuf, kids. rewrite tl, tr.
  destruct (lc r) as [c|], (rc r) as [d|]; rewrite ?bind_ret; repeat (erewrite bind_Ok; [|rewrite recv_reduce_new by done; reflexivity]);
    destruct (decide (n = 0)); rewrite ?bind_ret; repeat (erewrite bind_Ok; [|rewrite recv_reduce_new by done; reflexivity]); cbn; rewrite ?decide_True, ?decide_False by done;
    cbn; rewrite ?Nat.add_0_r, ?Nat.add_1_r, ?(Nat.add_comm _ 2); done.
Qed.

Definition red_sched (r : nat) : ccl_sched :=
  match par r with Some _ => st [gather r] (up r) | None => st [] (gather r) end (nx r + ncomm r) (comm_allocs r).
Definition bcast_sched (r : nat) : ccl_sched := st [down r] (spread r) (nx r) [].
Definition red_bcast_sched (r : nat) : ccl_sched :=
  if decide (kids r = []) then st [] (up r ++ down r) (nx r) [] else st [gather r; up r ++ down r] (spread r) (nx r + ncomm r) (comm_allocs r).

Lemma no_kids r : kids r = [] -> gather r = [] /\ spread r = [] /\ ncomm r = 0 /\ comm_allocs r = [].
Proof. intros E. unfold gather, spread, comm_allocs, ncomm. rewrite E. cbn. by case_decide. Qed.

Lemma reduce_tree_st r : buf_src (b r) <> 0 -> reduce_tree dsz (t r) (b r) n (st [] [] (nx r) []) = Ok (tt, red_sched r).
Proof using dsz_pos tp tl tr.
  intros Hr. unfold reduce_tree. rewrite tree_gather_st by done. unfold on_rank, red_sched, up. rewrite tp. destruct (par r) as [p|]; [|done].
  rewrite has_child_kids. case_bool_decide as E; [by build_simp|]. build_simp. destruct (no_kids r E) as (-> & _).
  by rewrite (st_empty_group []).
Qed.

Lemma spread_st r gs k al : (on_rank (left (t r)) (fun c => create_send (b r) n c) ;;; on_rank (right (t r)) (fun c => create_send (b r) n c)) (st gs [] k al) =
  Ok (tt, st gs (spread r) k al).
Proof using tl tr. unfold on_rank, spread, kids. rewrite tl, tr. destruct (lc r), (rc r); by build_simp. Qed.

Lemma bcast_tree_st r : bcast_tree (t r) (b r) n (st [] [] (nx r) []) = Ok (tt, bcast_sched r).
Proof using tp tl tr.
  unfold bcast_tree, bcast_sched, down. unfold on_rank at 1. rewrite tp. destruct (par r) as [p|]; cbn [option_list].
  - build_simp. apply spread_st.
  - build_simp. rewrite (st_empty_group []). apply spread_st.
Qed.

Lemma reduce_bcast_tree_st r : buf_src (b r) <> 0 -> reduce_bcast_tree dsz (t r) (b r) n (st [] [] (nx r) []) = Ok (tt, red_bcast_sched r).
Proof using dsz_pos tp tl tr.
  intros Hr. unfold reduce_bcast_tree. rewrite tree_gather_st by done. unfold red_bcast_sched, up, down. unfold on_rank at 1. rewrite tp, has_child_kids.
  destruct (decide (kids r = [])) as [E|E].
  - destruct (no_kids r E) as (-> & Es & -> & ->). rewrite bool_decide_eq_false_2 by tauto. rewrite Nat.add_0_r. pose proof (spread_st r) as Hsp. rewrite Es in Hsp.
    unfold on_rank in *. rewrite tl, tr in *. unfold kids in E. destruct (lc r), (rc r); try done. destruct (par r) as [p|]; by build_simp.
  - rewrite bool_decide_eq_true_2 by done. destruct (par r) as [p|]; build_simp; rewrite <- (spread_st r _ (nx r + ncomm r) (comm_allocs r)); [done|].
    cbn. by rewrite (st_empty_group [gather r]).
Qed.

(** ** No races but those of the reductions *)

Lemma send_compat buf cnt dst e : compat op dsz (send_entry buf cnt dst) e.
Proof. split; cbn; [intros m msg m1 m2 o [= <-] H; by exists m2|intros m v1 v2 m1 m2 [= <-] H; by exists m2]. Qed.

Lemma spread_free r : group_free op dsz (spread r).
Proof. unfold spread, kids, group_free. destruct (lc r), (rc r); cbn; repeat split; repeat constructor; apply send_compat. Qed.

Lemma up_down_free r : group_free op dsz (up r ++ down r) /\ group_free op dsz (up r) /\ group_free op dsz (down r).
Proof. unfold up, down, group_free. destruct (par r); cbn; repeat split; repeat constructor; apply send_compat. Qed.

Context `{!Assoc (=) op, !Comm (=) op}.

Lemma gather_free r : r < N -> group_free op dsz (gather r).
Proof using All.
  intros Hr. assert (Ht : apart dsz (tbuf r 0, n) (tbuf r 1, n)).
  { unfold tbuf. case_decide; [by left|]. right; right; left. cbn. lia. }
  unfold gather, kids, group_free. destruct (lc r), (rc r); cbn; repeat split; repeat constructor; apply recv_reduce_compat; (done || by apply tbuf_apart).
Qed.

Lemma red_free r : r < N -> race_free op dsz [] (entries (red_sched r)).
Proof using All.
  intros Hr. unfold red_sched. destruct (par r); apply groups_race_free; repeat constructor; try apply up_down_free; by apply gather_free.
Qed.

Lemma bcast_free r : race_free op dsz [] (entries (bcast_sched r)).
Proof. apply groups_race_free; [|apply spread_free]. constructor; [apply up_down_free|constructor]. Qed.

Lemma red_bcast_free r : r < N -> race_free op dsz [] (entries (red_bcast_sched r)).
Proof using All.
  intros Hr. unfold red_bcast_sched. case_decide; apply groups_race_free; repeat constructor; try apply up_down_free; [by apply gather_free|apply spread_free].
Qed.

(** ** The groups without their barriers *)

Lemma relaxed_split g1 g2 b1 b2 : relaxed (close_group b1 (g1 ++ g2)) (close_group true g1 ++ close_group (b1 || b2) g2).
Proof.
  induction g1 as [|e g1 IH]; cbn [app].
  - induction g2 as [|e g2 IH]; [constructor|]. rewrite !close_group_cons. constructor; [|exact IH]. cbn. destruct (bool_decide _), b1; cbn; naive_solver.
  - rewrite !close_group_cons. cbn [app]. constructor; [|exact IH]. cbn. split; [done|]. rewrite !andb_true_iff, !bool_decide_eq_true. intros [E _].
    apply app_eq_nil in E as [-> _]. done.
Qed.

Lemma red_relaxed r : r < N -> relaxed (entries (red_sched r)) (sched_of true (at_rank r ups)).
Proof.
  intros Hr. rewrite sched_of_true, ups_groups by done. unfold red_sched. destruct (par r) as [p|] eqn:Ep.
  - cbn [entries st]. unfold flat. cbn. rewrite app_nil_r. apply relaxed_app; [apply relaxed_refl|apply relaxed_open].
  - unfold up. rewrite Ep. cbn [fmap list_fmap option_list close_group]. rewrite app_nil_r. apply relaxed_open.
Qed.

Lemma bcast_relaxed r : r < N -> relaxed (entries (bcast_sched r)) (sched_of true (at_rank r downs)).
Proof.
  intros Hr. rewrite sched_of_true, downs_groups by done. unfold bcast_sched. cbn [entries st]. unfold flat. cbn. rewrite app_nil_r.
  apply relaxed_app; [apply relaxed_refl|apply relaxed_open].
Qed.

Lemma red_bcast_relaxed r : r < N -> relaxed (entries (red_bcast_sched r)) (sched_of true (at_rank r (ups ++ downs))).
Proof.
  intros Hr. rewrite sched_of_true, at_rank_app, bind_app, ups_groups, downs_groups by done. unfold red_bcast_sched. case_decide as E.
  - destruct (no_kids r E) as (-> & -> & _). cbn [close_group app]. rewrite app_nil_r. cbn [entries st]. unfold flat. cbn [fmap list_fmap concat app].
    rewrite <- close_group_false. apply (relaxed_split (up r) (down r) false true).
  - cbn [entries st]. unfold flat. cbn [fmap list_fmap concat]. rewrite app_nil_r, <- !app_assoc. apply relaxed_app; [apply relaxed_refl|].
    rewrite app_assoc. apply relaxed_app; [|apply relaxed_open]. apply (relaxed_split (up r) (down r) true true).
Qed.

(** ** One part is a collective *)

Lemma red_collective x ms : (forall r, r < N -> arr dsz (ms r) (b r) n (x r) /\ bufs_here r (ms r)) ->
  collective op dsz N (fun r => entries (red_sched r)) ms (fun r m => r = root -> arr dsz m (b r) n (fun i => reduce_ranks op N (fun s => x s i))).
Proof using All.
  intros H. destruct (ups_run x ms H) as (ms' & Hb & Hpost). eapply (relaxed_collective op dsz N ups true); [done| |exact Hb|].
  - intros r Hr. split; [by apply red_free|by apply red_relaxed].
  - intros r Hr ->. destruct (Hpost root Hr) as [Ha _]. eapply arr_ext; [|exact Ha]. intros i _. apply val_root; done.
Qed.

Lemma bcast_collective v ms : (forall r, r < N -> (exists g, arr dsz (ms r) (b r) n g) /\ (r = root -> arr dsz (ms r) (b r) n v)) ->
  collective op dsz N (fun r => entries (bcast_sched r)) ms (fun r m => arr dsz m (b r) n v).
Proof.
  intros H. destruct (downs_run v ms H) as (ms' & Hb & Hpost). eapply (relaxed_collective op dsz N downs true); [done| |exact Hb|exact Hpost].
  intros r Hr. split; [apply bcast_free|by apply bcast_relaxed].
Qed.

Lemma red_bcast_collective x ms : (forall r, r < N -> arr dsz (ms r) (b r) n (x r) /\ bufs_here r (ms r)) ->
  collective op dsz N (fun r => entries (red_bcast_sched r)) ms (fun r m => arr dsz m (b r) n (fun i => reduce_ranks op N (fun s => x s i))).
Proof using All.
  intros H. assert (Hrun : runs op dsz N (ups ++ downs) ms (fun r m => arr dsz m (b r) n (fun i => reduce_ranks op N (fun s => x s i)))).
  { eapply runs_seq; [by apply (ups_run x)|]. intros ms1 H1. apply downs_run. intros r Hr. destruct (H1 r Hr) as [Ha _]. split; [by eexists|].
    intros ->. eapply arr_ext; [|exact Ha]. intros i _. apply val_root; done. }
  destruct Hrun as (ms' & Hb & Hpost). eapply (relaxed_collective op dsz N (ups ++ downs) true); [done| |exact Hb|exact Hpost].
  intros r Hr. split; [by apply red_bcast_free|by apply red_bcast_relaxed].
Qed.
End tree_algo.

(** What a part of a reduction uses on a rank. *)
Definition part_cells (lc rc : nat -> option nat) (b : nat -> ccl_buffer) (n : nat) (nx : nat -> nat) (r : nat) : list (ccl_buffer * nat) :=
  (b r, n) :: ((fun j => (tbuf n nx r j, n)) <$> seq 0 (length (kids lc rc r))).

(** * The sub-schedules of an operation *)

(** An entry builds its sub-schedule when it starts. *)
Fixpoint build_subscheds (next : nat) (l : list subsched_entry) : result (list (Z * ccl_sched)) :=
  match l with
  | [] => Ok []
  | e :: l' =>
    s <-! ss_build_fn e (empty_sched next) ;;
    rest <-! build_subscheds (next_src s.2) l' ;;
    Ok ((ss_op_id e, s.2) :: rest)
  end.

(** The op id that a tag carries. *)
Definition tag_op_id (L : layout) (id : Z) : Z := tag_field (op_id_shift L) (op_id_mask L) (put_field (op_id_shift L) (op_id_mask L) id 0).

(** The messages of a sub-schedule carry its op id in their tags: the sub-schedules of the ranks with one op id there are a network. *)
Fixpoint with_op_id (L : layout) (id : Z) (l : list (Z * ccl_sched)) : list (entry * bool) :=
  match l with
  | [] => []
  | (id', s) :: l' => if (id =? tag_op_id L id')%Z then entries s else with_op_id L id l'
  end.

Lemma tag_op_id_range L id : known_layout L -> (0 <= tag_op_id L id <= op_id_mask L)%Z.
Proof.
  intros H. assert (E : exists n, (0 <= n)%Z /\ op_id_shift L = 0%Z /\ op_id_mask L = Z.ones n) by (destruct H as [->|[->| ->]]; [exists 8%Z|exists 4%Z|exists 4%Z]; done).
  destruct E as (n & Hn & E0 & E). unfold tag_op_id, tag_field. rewrite E0, E, Z.shiftr_0_r. generalize (put_field 0 (Z.ones n) id 0). intros t. rewrite Z.land_ones, Z.ones_equiv by done.
  pose proof (Z.mod_pos_bound t (2 ^ n) (Z.pow_pos_nonneg 2 n ltac:(lia) Hn)). lia.
Qed.
Lemma tag_op_id_fits L id : known_layout L -> (0 <= id <= op_id_mask L)%Z -> tag_op_id L id = id.
Proof.
  intros H. assert (E : exists n, (0 <= n <= 8)%Z /\ op_id_shift L = 0%Z /\ op_id_mask L = Z.ones n) by (destruct H as [->|[->| ->]]; [exists 8%Z|exists 4%Z|exists 4%Z]; done).
  destruct E as (n & Hn & E0 & E). unfold tag_op_id, tag_field, put_field. rewrite E0, E, Z.shiftr_0_r, Z.shiftl_0_r, Z.lor_0_l, !Z.land_ones, Z.ones_equiv by lia.
  intros Hid. pose proof (Z.pow_le_mono_r 2 n 8 ltac:(lia) ltac:(lia)). unfold wrap. by rewrite !(Z.mod_small id) by lia.
Qed.
Lemma op_ids_byte L : known_layout L -> (0 <= op_id_mask L <= 255)%Z.
Proof. intros [->|[->| ->]]; done. Qed.

Section subscheds.
Context (fn : nat -> build unit) (sc : nat -> nat -> ccl_sched) (c : nat -> nat) (nx0 : nat) (ids : list nat).
Context (Hfn : forall k a, k ∈ ids -> nx0 <= a -> fn k (empty_sched a) = Ok (tt, sc k a) /\ next_src (sc k a) = a + c k).

(** Where the temporary buffers of sub-schedule [k] begin. *)
Fixpoint first_buf (a : nat) (l : list nat) (k : nat) : nat :=
  match l with [] => a | k' :: l' => if decide (k = k') then a else first_buf (a + c k') l' k end.

Fixpoint built (a : nat) (l : list nat) : list (Z * ccl_sched) :=
  match l with [] => [] | k :: l' => (Z.of_nat k, sc k a) :: built (a + c k) l' end.

Lemma build_subscheds_ids a l : nx0 <= a -> l ⊆ ids -> build_subscheds a ((fun k => mk_subsched (Z.of_nat k) (fn k)) <$> l) = Ok (built a l).
Proof using Hfn.
  revert a. induction l as [|k l IH]; intros a Ha Hl; [done|]. destruct (Hfn k a ltac:(apply Hl; left) Ha) as [E En].
  rewrite fmap_cons. cbn [build_subscheds ss_build_fn ss_op_id]. rewrite E. cbn [result_bind snd]. rewrite En, IH; [done|lia|]. set_solver.
Qed.

Lemma first_buf_ge a l k : a <= first_buf a l k.
Proof. revert a. induction l as [|k' l IH]; intros a; cbn; [done|]. case_decide; [done|]. specialize (IH (a + c k')). lia. Qed.

Lemma with_op_id_built L a l k : Forall (fun k => tag_op_id L (Z.of_nat k) = Z.of_nat k) l -> k ∈ l ->
  with_op_id L (Z.of_nat k) (built a l) = entries (sc k (first_buf a l k)).
Proof.
  intros Hl. revert a. induction Hl as [|k' l Ht Hl IH]; intros a Hk; [by apply elem_of_nil in Hk|]. cbn. rewrite Ht.
  destruct (decide (k = k')) as [->|Hne]; [by rewrite Z.eqb_refl|].
  destruct (Z.eqb_spec (Z.of_nat k) (Z.of_nat k')); [lia|]. apply IH. by apply elem_of_cons in Hk as [?|?].
Qed.

Lemma built_elem a l k : k ∈ l -> (Z.of_nat k, sc k (first_buf a l k)) ∈ built a l.
Proof.
  revert a. induction l as [|k' l IH]; intros a Hk; [by apply elem_of_nil in Hk|]. cbn. destruct (decide (k = k')) as [->|Hne]; [by left|].
  right. apply IH. by apply elem_of_cons in Hk as [?|?].
Qed.

(** Sub-schedules have separate temporary buffers. *)
Lemma first_buf_apart a l k j : k ∈ l -> j ∈ l -> k <> j ->
  first_buf a l k + c k <= first_buf a l j \/ first_buf a l j + c j <= first_buf a l k.
Proof.
  revert a. induction l as [|k' l IH]; intros a Hk Hj Hne; [by apply elem_of_nil in Hk|]. cbn. apply elem_of_cons in Hk. apply elem_of_cons in Hj.
  destruct (decide (k = k')) as [->|H1], (decide (j = k')) as [->|H2]; [done| | |].
  - left. apply first_buf_ge.
  - right. apply first_buf_ge.
  - apply IH; tauto.
Qed.
End subscheds.

(** * The parts of the data *)

Section parts.
Context (dsz parts count : nat) (Hparts : 0 < parts).

(** Elements of a half of size [h] in front of part [i]. *)
Definition psum (h i : nat) : nat := i * (h / parts) + Nat.min i (h mod parts).
Definition half (k : nat) : nat := if k <? parts then count / 2 else count - count / 2.
Definition pidx (k : nat) : nat := if k <? parts then k else k - parts.
Definition poff (k : nat) : nat := (if k <? parts then 0 else count / 2) + psum (half k) (pidx k).
Definition pcnt (k : nat) : nat := if pidx k <? half k mod parts then half k / parts + 1 else half k / parts.

Lemma psum_S h i : psum h (S i) = psum h i + (if i <? h mod parts then h / parts + 1 else h / parts).
Proof. unfold psum. destruct (Nat.ltb_spec i (h mod parts)); lia. Qed.

Lemma psum_all h : psum h parts = h.
Proof using Hparts. unfold psum. pose proof (Nat.mod_upper_bound h parts ltac:(lia)). pose proof (Nat.div_mod_eq h parts). lia. Qed.

Lemma psum_mono h i j : i <= j -> psum h i <= psum h j.
Proof. intros H. unfold psum. nia. Qed.

Lemma half_le : count / 2 <= count.
Proof. apply Nat.Div0.div_le_upper_bound. lia. Qed.

Lemma pidx_lt k : k < 2 * parts -> pidx k < parts.
Proof using Hparts. intros Hk. unfold pidx. destruct (Nat.ltb_spec k parts); lia. Qed.

Lemma part_end k : poff k + pcnt k = (if k <? parts then 0 else count / 2) + psum (half k) (S (pidx k)).
Proof. unfold poff, pcnt. rewrite psum_S. destruct (_ <? _ mod _); lia. Qed.

Lemma part_bound k : k < 2 * parts -> (if k <? parts then 0 else count / 2) <= poff k /\ poff k + pcnt k <= (if k <? parts then count / 2 else count).
Proof using Hparts.
  intros Hk. rewrite part_end. pose proof (pidx_lt k Hk). pose proof (psum_mono (half k) (S (pidx k)) parts ltac:(lia)) as Hm. rewrite psum_all in Hm.
  pose proof half_le. unfold poff, half in *. destruct (k <? parts); lia.
Qed.

Lemma part_in k : k < 2 * parts -> poff k + pcnt k <= count.
Proof using Hparts. intros Hk. pose proof (part_bound k Hk). pose proof half_le. destruct (k <? parts); lia. Qed.

(** The parts do not overlap. *)
Lemma parts_apart k j : k < 2 * parts -> j < 2 * parts -> k <> j -> poff k + pcnt k <= poff j \/ poff j + pcnt j <= poff k.
Proof using Hparts.
  intros Hk Hj Hne. pose proof (part_bound k Hk). pose proof (part_bound j Hj). rewrite !part_end in *. unfold poff, half, pidx in *.
  destruct (Nat.ltb_spec k parts), (Nat.ltb_spec j parts); try lia.
  - destruct (decide (k < j)); [left|right]; apply psum_mono; lia.
  - destruct (decide (k < j)); [left|right]; apply Nat.add_le_mono_l, psum_mono; lia.
Qed.

(** They cover the data. *)
Lemma psum_cover h i n : i < psum h n -> exists j, j < n /\ psum h j <= i < psum h (S j).
Proof.
  induction n as [|n IH]; intros Hi; [unfold psum in Hi; lia|]. destruct (decide (i < psum h n)) as [Hlt|Hge]; [|by exists n; lia].
  destruct (IH Hlt) as (j & Hj & Hb). exists j. lia.
Qed.

Lemma parts_cover i : i < count -> exists k, k < 2 * parts /\ poff k <= i < poff k + pcnt k.
Proof using Hparts.
  intros Hi. destruct (decide (i < count / 2)) as [Hlt|Hge].
  - rewrite <- (psum_all (count / 2)) in Hlt. apply psum_cover in Hlt as (j & Hj & Hb). exists j. rewrite part_end. unfold poff, half, pidx.
    destruct (Nat.ltb_spec j parts); lia.
  - assert (Hr : i - count / 2 < count - count / 2) by lia. rewrite <- (psum_all (count - count / 2)) in Hr. apply psum_cover in Hr as (j & Hj & Hb).
    exists (parts + j). rewrite part_end. unfold poff, half, pidx. destruct (Nat.ltb_spec (parts + j) parts); [lia|]. replace (parts + j - parts) with j by lia. lia.
Qed.
End parts.

(** * The operation *)

Section dtree_op.
Context {V : Type} (op : V -> V -> V) (dsz N root count : nat) (dsz_pos : 0 < dsz) (Hroot : root < N) (HN : (Z.of_nat N <= 2 ^ 30)%Z).
Context (dtree_partition_count : option nat) (coll : dtree_coll) (send recv : nat -> ccl_buffer) (nx : nat -> nat).
Abbreviation parts := (default 1 dtree_partition_count).
Context (Hparts : 0 < parts) (Hids : 2 * parts <= 256).
Implicit Types m : gmap (nat * nat) V.

Definition dtree_ops (r : nat) : list entry * list subsched_entry :=
  ccl_coll_build_double_tree_op dsz dtree_partition_count coll r (send r) (recv r) count (dtree_for N root r).

Definition t2_first (r : nat) : bool := match coll with dtree_reduce => true | dtree_allreduce => Nat.even r | _ => false end.
Definition id_pair (r i : nat) : list nat := if t2_first r then [parts + i; i] else [i; parts + i].
Definition ids (r : nat) : list nat := seq 0 parts ≫= id_pair r.

Definition part_tree (k r : nat) : ccl_bin_tree := pick (k <? parts) N root r.
Definition part_buf (k r : nat) : ccl_buffer := recv r +b poff parts count k * dsz.
Abbreviation size k := (pcnt parts count k).

Definition part_fn (r k : nat) : build unit :=
  match coll with
  | dtree_bcast | dtree_broadcast => bcast_tree (part_tree k r) (part_buf k r) (size k)
  | dtree_reduce => reduce_tree dsz (part_tree k r) (part_buf k r) (size k)
  | dtree_allreduce => reduce_bcast_tree dsz (part_tree k r) (part_buf k r) (size k)
  end.

Lemma id_small (z : nat) : z < 256 -> op_id_t (Z.of_nat z) = Z.of_nat z.
Proof. intros H. apply Z.mod_small. lia. Qed.

Lemma part_loop r n i : i + n <= parts ->
  dtree_loop dsz n i coll r (dtree_for N root r) (count / 2 / parts) ((count / 2) mod parts) ((count - count / 2) / parts) ((count - count / 2) mod parts)
    (Z.of_nat i) (Z.of_nat (parts + i)) (recv r +b psum parts (count / 2) i * dsz) (recv r +b (count / 2 + psum parts (count - count / 2) i) * dsz) =
  (fun k => mk_subsched (Z.of_nat k) (part_fn r k)) <$> (seq i n ≫= id_pair r).
Proof.
  revert i. induction n as [|n IH]; intros i Hi; [done|]. cbn [dtree_loop seq]. rewrite bind_cons, fmap_app. f_equal.
  - unfold dtree_part, id_pair, t2_first, part_fn, part_tree, part_buf, poff, pcnt, half, pidx, pick.
    assert (E1 : i <? parts = true) by (apply Nat.ltb_lt; lia). assert (E2 : parts + i <? parts = false) by (apply Nat.ltb_ge; lia).
    destruct coll; try destruct (Nat.even r); cbn [fmap list_fmap]; rewrite ?E1, ?E2, ?Nat.add_0_l; replace (parts + i - parts) with i by lia; done.
  - destruct n as [|n]; [done|]. rewrite <- IH by lia. rewrite !psum_S by done. f_equal.
    + rewrite <- (id_small (S i)) by lia. f_equal. lia.
    + rewrite <- (id_small (parts + S i)) by lia. f_equal. lia.
    + unfold buffer_add. cbn. f_equal. destruct (i <? (count / 2) mod parts); lia.
    + unfold buffer_add. cbn. f_equal. destruct (i <? (count - count / 2) mod parts); lia.
Qed.

Lemma ops_subscheds r : (dtree_ops r).2 = (fun k => mk_subsched (Z.of_nat k) (part_fn r k)) <$> ids r.
Proof.
  unfold dtree_ops, ccl_coll_build_double_tree_op, ids. cbn [snd]. rewrite <- (part_loop r parts 0) by lia. f_equal.
  - rewrite Z.add_0_l, !id_small by lia. f_equal. lia.
  - unfold buffer_add, psum. cbn. rewrite Nat.add_0_r. by destruct (recv r).
  - unfold buffer_add, psum. cbn. f_equal. lia.
Qed.

Lemma elem_ids r k : k ∈ ids r <-> k < 2 * parts.
Proof.
  unfold ids, id_pair. rewrite list_elem_of_bind. split.
  - intros (i & Hk & Hi%elem_of_seq). destruct (t2_first r); set_solver by lia.
  - intros Hk. destruct (decide (k < parts)); [exists k|exists (k - parts)]; (split; [|apply elem_of_seq; lia]); destruct (t2_first r); rewrite !elem_of_cons; lia.
Qed.

(** ** The schedules of the parts *)

Abbreviation tree_of k := (part_tree k).
Abbreviation with_tree f k := (f (par_of (tree_of k)) (left_of (tree_of k)) (right_of (tree_of k))).

Definition part_sched (r k a : nat) : ccl_sched :=
  match coll with
  | dtree_bcast | dtree_broadcast => with_tree bcast_sched k (part_buf k) (size k) (fun _ => a) r
  | dtree_reduce => with_tree (red_sched dsz) k (part_buf k) (size k) (fun _ => a) r
  | dtree_allreduce => with_tree (red_bcast_sched dsz) k (part_buf k) (size k) (fun _ => a) r
  end.
Definition part_comm (r k : nat) : nat :=
  match coll with dtree_bcast | dtree_broadcast => 0 | _ => ncomm (left_of (tree_of k)) (right_of (tree_of k)) (size k) r end.

Definition is_bcast : bool := match coll with dtree_bcast => true | _ => false end.
Definition dtree_bufs_ok (r : nat) : Prop :=
  buf_src (recv r) <> 0 /\ buf_src (recv r) < nx r /\
  (is_bcast = true \/ send r = recv r \/ buf_src (send r) <> 0 /\ buf_src (send r) <> buf_src (recv r)).
Context (Hok : forall r, r < N -> dtree_bufs_ok r).

Lemma part_fn_st r k a : r < N -> part_fn r k (empty_sched a) = Ok (tt, part_sched r k a) /\ next_src (part_sched r k a) = a + part_comm r k.
Proof.
  intros Hr. destruct (Hok r Hr) as (Hs & _). rewrite empty_sched_st. unfold part_fn, part_sched, part_comm.
  destruct coll.
  - split; [|cbn; lia]. by apply (bcast_tree_st _ _ _ (part_buf k) (size k) (fun _ => a)).
  - split; [|cbn; lia]. by apply (bcast_tree_st _ _ _ (part_buf k) (size k) (fun _ => a)).
  - split; [by apply (reduce_tree_st dsz dsz_pos _ _ _ (part_buf k) (size k) (fun _ => a))|unfold red_sched; by destruct (par_of _ _)].
  - split; [by apply (reduce_bcast_tree_st dsz dsz_pos _ _ _ (part_buf k) (size k) (fun _ => a))|].
    unfold red_bcast_sched. case_decide as E; [|done]. unfold ncomm. rewrite E. cbn. case_decide; lia.
Qed.

(** Where the temporary buffers of part [k] of rank [r] begin. *)
Definition part_nx (k r : nat) : nat := first_buf (part_comm r) (nx r) (ids r) k.
Definition part_foot (k r : nat) : list (ccl_buffer * nat) :=
  match coll with
  | dtree_bcast | dtree_broadcast => [(part_buf k r, size k)]
  | _ => part_cells (left_of (tree_of k)) (right_of (tree_of k)) (part_buf k) (size k) (part_nx k) r
  end.

Lemma part_foot_elem k r x : x ∈ part_foot k r -> x = (part_buf k r, size k) \/
  exists j, x = (tbuf (size k) (part_nx k) r j, size k) /\ (size k = 0 \/ j < part_comm r k).
Proof.
  assert (H : x ∈ part_cells (left_of (tree_of k)) (right_of (tree_of k)) (part_buf k) (size k) (part_nx k) r -> x = (part_buf k r, size k) \/
    exists j, x = (tbuf (size k) (part_nx k) r j, size k) /\ (size k = 0 \/ j < ncomm (left_of (tree_of k)) (right_of (tree_of k)) (size k) r)).
  { intros [->|(j & -> & Hj%elem_of_seq)%list_elem_of_fmap]%elem_of_cons; [by left|right]. exists j. split; [done|]. unfold ncomm. case_decide; [by left|right; lia]. }
  unfold part_foot, part_comm. destruct coll; try exact H; intros ->%list_elem_of_singleton; by left.
Qed.

Lemma part_foot_buf k r : (part_buf k r, size k) ∈ part_foot k r.
Proof. unfold part_foot. destruct coll; left. Qed.

Lemma part_foot_alloc k r a : a ∈ allocs (part_sched r k (part_nx k r)) -> (mk_buffer a.1 0, a.2 / dsz) ∈ part_foot k r.
Proof.
  assert (H : a ∈ comm_allocs dsz (left_of (tree_of k)) (right_of (tree_of k)) (size k) (part_nx k) r ->
    (mk_buffer a.1 0, a.2 / dsz) ∈ part_cells (left_of (tree_of k)) (right_of (tree_of k)) (part_buf k) (size k) (part_nx k) r).
  { intros (j & -> & Hj%elem_of_seq)%list_elem_of_fmap. unfold ncomm in Hj. case_decide as E; [lia|]. cbn. rewrite Nat.div_mul by lia. right.
    apply list_elem_of_fmap. exists j. unfold tbuf. rewrite decide_False by done. split; [done|]. apply elem_of_seq. lia. }
  unfold part_sched, part_foot. destruct coll; cbn; try (by intros ?%elem_of_nil); [unfold red_sched; by destruct (par_of _ _)|].
  unfold red_bcast_sched. case_decide; [by intros ?%elem_of_nil|done].
Qed.

Lemma part_nx_ge k r : nx r <= part_nx k r.
Proof. apply first_buf_ge. Qed.

Lemma parts_foot_apart k j r : k < 2 * parts -> j < 2 * parts -> k <> j -> r < N -> all_apart dsz (part_foot k r) (part_foot j r).
Proof.
  intros Hk Hj Hne Hr. destruct (Hok r Hr) as (Hs & Hlt & _). pose proof (part_nx_ge k r). pose proof (part_nx_ge j r). intros x y Hx Hy.
  apply part_foot_elem in Hx as [->|(i & -> & Hi)]; apply part_foot_elem in Hy as [->|(i' & -> & Hi')].
  - apply apart_sub. by apply parts_apart.
  - unfold tbuf. case_decide; [by right; left|]. apply apart_src. cbn. lia.
  - unfold tbuf. case_decide; [by left|]. apply apart_src. cbn. lia.
  - unfold tbuf. case_decide; [by left|]. case_decide; [by right; left|]. apply apart_src. cbn.
    destruct (first_buf_apart (part_comm r) (nx r) (ids r) k j) as [E|E]; [by apply elem_ids..|done| |]; unfold part_nx; lia.
Qed.

(** ** What the parts compute *)

Context `{!Assoc (=) op, !Comm (=) op} (x : nat -> nat -> V).

Definition dtree_in (r : nat) : ccl_buffer := if is_bcast then recv r else send r.
Definition dtree_pre (r : nat) m : Prop := arr dsz m (dtree_in r) count (x r) /\ exists g, arr dsz m (recv r) count g.

Definition holder (r : nat) : Prop := match coll with dtree_reduce => r = root | _ => True end.
Definition dtree_value (i : nat) : V :=
  match coll with dtree_bcast | dtree_broadcast => x root i | _ => reduce_ranks op N (fun s => x s i) end.
Definition dtree_post (r : nat) m : Prop := holder r -> arr dsz m (recv r) count dtree_value.
Definition part_post (k r : nat) m : Prop := holder r -> arr dsz m (part_buf k r) (size k) (fun i => dtree_value (poff parts count k + i)).

Lemma comm_bufs_here lc rc n a r m : Forall (allocated dsz m) (comm_allocs dsz lc rc n a r) -> bufs_here dsz lc rc n a r m.
Proof.
  intros H j Hj. unfold tbuf. case_decide as E; [exists (x 0); subst n; intros i Hi; lia|]. rewrite Forall_forall in H.
  destruct (H (a r + j, n * dsz)) as [h Hh].
  - unfold comm_allocs, ncomm. rewrite decide_False by done. apply list_elem_of_fmap. exists j. split; [done|]. apply elem_of_seq. lia.
  - cbn in Hh. rewrite Nat.div_mul in Hh by lia. by exists h.
Qed.

Lemma part_arr k r m f : k < 2 * parts -> arr dsz m (recv r) count f -> arr dsz m (part_buf k r) (size k) (fun i => f (poff parts count k + i)).
Proof. intros Hk Ha. eapply arr_sub; [done|exact Ha|]. by apply part_in. Qed.

Lemma part_collective k ms : k < 2 * parts ->
  (forall r, r < N -> arr dsz (ms r) (part_buf k r) (size k) (fun i => x r (poff parts count k + i)) /\
     Forall (allocated dsz (ms r)) (allocs (part_sched r k (part_nx k r)))) ->
  collective op dsz N (fun r => entries (part_sched r k (part_nx k r))) ms (part_post k).
Proof using All.
  intros Hk H. destruct (pick_ok (k <? parts) N root Hroot HN) as (lev & Htree & Hlev).
  change (tree_ok N root (par_of (tree_of k)) (left_of (tree_of k)) (right_of (tree_of k)) lev) in Htree.
  assert (Hb : forall r, r < N -> buf_src (part_buf k r) <> 0 /\ buf_src (part_buf k r) < part_nx k r).
  { intros r Hr. destruct (Hok r Hr) as (? & ? & _). pose proof (part_nx_ge k r). cbn. lia. }
  assert (Ha : forall r, r < N -> arr dsz (ms r) (part_buf k r) (size k) (fun i => x r (poff parts count k + i))) by (intros r Hr; by apply H).
  pose proof (bcast_collective op dsz N root 31 dsz_pos _ _ _ lev Htree Hlev (part_buf k) (size k) (part_nx k) Hb
    (fun i => x root (poff parts count k + i)) ms) as Hbc.
  pose proof (red_collective op dsz N root 31 dsz_pos _ _ _ lev Htree Hlev (part_buf k) (size k) (part_nx k) Hb (part_tree k)
    ltac:(done) ltac:(done) ltac:(done) (fun r i => x r (poff parts count k + i)) ms) as Hrc.
  pose proof (red_bcast_collective op dsz N root 31 dsz_pos _ _ _ lev Htree Hlev (part_buf k) (size k) (part_nx k) Hb (part_tree k)
    ltac:(done) ltac:(done) ltac:(done) (fun r i => x r (poff parts count k + i)) ms) as Hrbc.
  unfold part_sched, part_post, holder, dtree_value in *. destruct coll.
  - eapply collective_weaken, collective_ext, Hbc; [by intros r m _ Hm _|done|]. intros r Hr. split; [by eexists; apply Ha|]. intros ->. by apply Ha.
  - eapply collective_weaken, collective_ext, Hbc; [by intros r m _ Hm _|done|]. intros r Hr. split; [by eexists; apply Ha|]. intros ->. by apply Ha.
  - eapply collective_ext, Hrc; [done|]. intros r Hr. split; [by apply Ha|]. apply comm_bufs_here. destruct (H r Hr) as [_ Hal]. unfold red_sched in Hal.
    by destruct (par_of _ _).
  - eapply collective_weaken, collective_ext, Hrbc; [by intros r m _ Hm _|done|]. intros r Hr. split; [by apply Ha|]. apply comm_bufs_here.
    destruct (H r Hr) as [_ Hal]. unfold red_bcast_sched in Hal. case_decide as E; [|exact Hal]. unfold comm_allocs, ncomm. rewrite E. by case_decide.
Qed.

(** ** The copy in front *)

Lemma copy_run r m : r < N -> dtree_pre r m -> exists m1, Forall (fun e => is_async e = false) (dtree_ops r).1 /\
  local_run op dsz (dtree_ops r).1 m = Some m1 /\ arr dsz m1 (recv r) count (x r) /\ grows m m1.
Proof.
  intros Hr [Hin [g Hg]]. destruct (Hok r Hr) as (H1 & _ & H2). unfold dtree_ops, ccl_coll_build_double_tree_op, dtree_in, is_bcast in *. cbn [fst].
  assert (Hnone : dtree_in r = recv r -> exists m1, Forall (fun e => is_async e = false) [] /\ local_run op dsz [] m = Some m1 /\ arr dsz m1 (recv r) count (x r) /\ grows m m1).
  { intros E. exists m. unfold dtree_in, is_bcast in E. split_and!; [constructor|done|by rewrite <- E|apply grows_refl]. }
  unfold dtree_in, is_bcast in Hnone.
  assert (Hcopy : buf_src (send r) <> buf_src (recv r) -> arr dsz m (send r) count (x r) -> exists m1, Forall (fun e => is_async e = false) [copy_entry (send r) (recv r) count] /\
    local_run op dsz [copy_entry (send r) (recv r) count] m = Some m1 /\ arr dsz m1 (recv r) count (x r) /\ grows m m1).
  { intros Hne Hs. destruct (copy_arr dsz dsz_pos m (send r) (x r) (recv r) g count Hs Hg) as (m1 & E & A & _). exists m1.
    split_and!; [by repeat constructor|cbn; by rewrite E|done|by eapply copy_grows]. }
  destruct coll; [by apply Hnone|..]; (destruct H2 as [H2|[H2|[H0 H2]]]; [done| |]);
    (rewrite H2, buffer_eqb_refl || rewrite buffer_eqb_src by done); (by apply Hnone) || (by apply Hcopy).
Qed.

Context (L : layout) (HL : known_layout L) (Hops : (Z.of_nat (2 * parts) <= op_id_mask L + 1)%Z).

Lemma ids_kept r : Forall (fun k => tag_op_id L (Z.of_nat k) = Z.of_nat k) (ids r).
Proof. apply Forall_forall. intros k Hk%elem_ids. apply tag_op_id_fits; [done|lia]. Qed.
Lemma ids_nodup r : NoDup (ids r).
Proof.
  assert (Hl : forall n i, length (seq i n ≫= id_pair r) = 2 * n).
  { induction n as [|n IH]; intros i; [done|]. cbn [seq mbind list_bind]. rewrite length_app, IH. unfold id_pair. destruct (t2_first r); cbn; lia. }
  assert (Hp : seq 0 (2 * parts) ≡ₚ ids r).
  { apply submseteq_length_Permutation; [|unfold ids; by rewrite Hl, length_seq]. apply NoDup_submseteq; [apply NoDup_seq|]. intros k Hk%elem_of_seq. apply elem_ids. lia. }
  rewrite <- Hp. apply NoDup_seq.
Qed.
Lemma tag_ids_nodup r : NoDup (tag_op_id L ∘ ss_op_id <$> (dtree_ops r).2).
Proof.
  rewrite ops_subscheds, <- list_fmap_compose. replace (_ <$> ids r) with (Z.of_nat <$> ids r); [apply NoDup_fmap_2; [exact _|apply ids_nodup]|].
  apply list_fmap_ext. intros i k Hk. cbn. symmetry. exact (proj1 (Forall_forall _ _) (ids_kept r) k (list_elem_of_lookup_2 _ _ _ Hk)).
Qed.

Lemma dtree_collective : exists scheds : nat -> list (Z * ccl_sched),
  (forall r, r < N -> build_subscheds (nx r) (dtree_ops r).2 = Ok (scheds r)) /\
  forall ms : nat -> gmap (nat * nat) V,
    (forall r, r < N -> dtree_pre r (ms r) /\ Forall (fun s => Forall (allocated dsz (ms r)) (allocs s.2)) (scheds r)) ->
    par_collective op dsz N (2 * parts) (fun r => (dtree_ops r).1) (fun k r => with_op_id L (Z.of_nat k) (scheds r)) ms dtree_post.
Proof using All.
  exists (fun r => built (part_sched r) (part_comm r) (nx r) (ids r)). split.
  { intros r Hr. rewrite ops_subscheds. apply (build_subscheds_ids (part_fn r) (part_sched r) (part_comm r) (nx r) (ids r)); [|done..].
    intros k a _ _. by apply part_fn_st. }
  intros ms Hms. set (ms1 := fun r => default (ms r) (local_run op dsz (dtree_ops r).1 (ms r))).
  assert (Hms1 : forall r, r < N -> Forall (fun e => is_async e = false) (dtree_ops r).1 /\ local_run op dsz (dtree_ops r).1 (ms r) = Some (ms1 r) /\
    arr dsz (ms1 r) (recv r) count (x r) /\ grows (ms r) (ms1 r)).
  { intros r Hr. destruct (Hms r Hr) as [Hp _]. destruct (copy_run r (ms r) Hr Hp) as (m1 & ? & E & ?). unfold ms1. by rewrite E. }
  assert (Hprog : forall k r, k < 2 * parts -> with_op_id L (Z.of_nat k) (built (part_sched r) (part_comm r) (nx r) (ids r)) = entries (part_sched r k (part_nx k r))).
  { intros k r Hk. apply with_op_id_built; [apply ids_kept|]. by apply elem_ids. }
  eapply par_weaken; [|apply (par_frame op dsz N (2 * parts) (fun r => (dtree_ops r).1) (fun k r => with_op_id L (Z.of_nat k) (built (part_sched r) (part_comm r) (nx r) (ids r)))
    ms ms1 (fun k r => restrict dsz (part_foot k r) (ms1 r)) part_post)].
  - intros r m Hr [Hp _] Hh i Hi. destruct (parts_cover parts count Hparts i Hi) as (k & Hk & Hb). destruct (Hp k Hk) as (m0 & Hm0 & Hpo).
    pose proof (arr_larger dsz _ _ _ _ _ Hm0 (Hpo Hh) (i - poff parts count k) ltac:(lia)) as Hv. cbv beta in Hv. unfold part_buf in Hv. rewrite cell_add in Hv.
    by replace (poff parts count k + (i - poff parts count k)) with i in Hv by lia.
  - intros r Hr. by destruct (Hms1 r Hr) as (? & ? & _).
  - intros k r Hk Hr. apply restrict_sub.
  - intros k j r Hk Hj Hne Hr. apply restrict_disjoint; [done|]. by apply parts_foot_apart.
  - intros k Hk. eapply collective_ext, (part_collective k _ Hk); [intros r Hr; symmetry; by apply Hprog|].
    intros r Hr. destruct (Hms1 r Hr) as (_ & _ & Ha & Hg). split; [apply restrict_arr; [done|apply part_foot_buf|by apply part_arr]|].
    destruct (Hms r Hr) as [_ Hal]. rewrite Forall_forall in Hal.
    assert (Hin : k ∈ ids r) by (by apply elem_ids). specialize (Hal _ (built_elem (part_sched r) (part_comm r) (nx r) (ids r) k Hin)). cbn in Hal.
    apply Forall_forall. intros a Ha'. rewrite Forall_forall in Hal. destruct (Hal a Ha') as [h Hh]. destruct (arr_grows dsz _ _ _ _ _ Hg Hh) as [h' Hh'].
    exists h'. apply restrict_arr; [done| |done]. by apply part_foot_alloc.
Qed.
End dtree_op.

(** * Theorems *)

(** What the double-tree operation of [N] ranks guarantees with a tag layout: the sub-schedules of every rank are built, no two of a rank have the same
    op id in the tags of their messages, and run side by side behind the copies in front of them, the messages told apart by these op ids. *)
Definition dtree_implements {V} (L : layout) (op : V -> V -> V) (dsz N root count : nat) (dtree_partition_count : option nat) (coll : dtree_coll)
    (send recv : nat -> ccl_buffer) (nx : nat -> nat) (pre post : nat -> gmap (nat * nat) V -> Prop) : Prop :=
  let ops := dtree_ops dsz N root count dtree_partition_count coll send recv in
  exists scheds : nat -> list (Z * ccl_sched),
    (forall r, r < N -> build_subscheds (nx r) (ops r).2 = Ok (scheds r) /\ NoDup (tag_op_id L ∘ ss_op_id <$> (ops r).2)) /\
    forall ms : nat -> gmap (nat * nat) V,
      (forall r, r < N -> pre r (ms r) /\ Forall (fun s => Forall (allocated dsz (ms r)) (allocs s.2)) (scheds r)) ->
      par_collective op dsz N (2 * default 1 dtree_partition_count) (fun r => (ops r).1) (fun k r => with_op_id L (Z.of_nat k) (scheds r)) ms post.

Section theorems.
Context (L : layout) {V : Type} (op : V -> V -> V) `{!Assoc (=) op, !Comm (=) op} (dsz N root count : nat) (dtree_partition_count : option nat)
  (send recv : nat -> ccl_buffer) (nx : nat -> nat) (x : nat -> nat -> V).
Abbreviation parts := (default 1 dtree_partition_count).

(** C5: The double-tree allreduce leaves on every rank the reduction of what the ranks had: for every number of ranks, number of elements (also fewer
    than the parts they are cut into), every tag layout and as many parts as it has op ids for (two of them a part: 128 parts, or 8 with the layouts of cxi
    and MPI), the sub-schedules of a rank have different op ids in their tags, and for every way the sub-schedules of the parts interleave, the
    operation ends, does not get stuck and every receive buffer holds the result. *)
Theorem double_tree_allreduce_correct :
  0 < dsz -> 0 < N -> (Z.of_nat N <= 2 ^ 30)%Z -> 0 < parts -> known_layout L -> (Z.of_nat (2 * parts) <= op_id_mask L + 1)%Z -> (forall r, r < N -> dtree_bufs_ok dtree_allreduce send recv nx r) ->
  dtree_implements L op dsz N 0 count dtree_partition_count dtree_allreduce send recv nx
    (fun r m => arr dsz m (send r) count (x r) /\ exists g, arr dsz m (recv r) count g)
    (fun r m => arr dsz m (recv r) count (fun i => reduce_ranks op N (fun s => x s i))).
Proof using Type*.
  intros Hd HN HN' Hp HL Hi Hok. assert (Hi' : 2 * parts <= 256) by (pose proof (op_ids_byte L HL); lia).
  destruct (dtree_collective op dsz N 0 count Hd HN HN' dtree_partition_count dtree_allreduce send recv nx Hp Hi' Hok x L HL Hi) as (sc & H1 & H2).
  exists sc. split; [split; [by apply H1|by apply tag_ids_nodup]|]. intros ms Hms. eapply par_weaken, H2, Hms. intros r m Hr Hpost. by apply Hpost.
Qed.

(** The double-tree reduce leaves the reduction of what the ranks had in the receive buffer of the root, for every root, number of ranks,
    number of elements and as many parts as the tag layout has op ids for. *)
Theorem double_tree_reduce_correct :
  0 < dsz -> root < N -> (Z.of_nat N <= 2 ^ 30)%Z -> 0 < parts -> known_layout L -> (Z.of_nat (2 * parts) <= op_id_mask L + 1)%Z -> (forall r, r < N -> dtree_bufs_ok dtree_reduce send recv nx r) ->
  dtree_implements L op dsz N root count dtree_partition_count dtree_reduce send recv nx
    (fun r m => arr dsz m (send r) count (x r) /\ exists g, arr dsz m (recv r) count g)
    (fun r m => r = root -> arr dsz m (recv r) count (fun i => reduce_ranks op N (fun s => x s i))).
Proof using Type*.
  intros Hd HN HN' Hp HL Hi Hok. assert (Hi' : 2 * parts <= 256) by (pose proof (op_ids_byte L HL); lia).
  destruct (dtree_collective op dsz N root count Hd HN HN' dtree_partition_count dtree_reduce send recv nx Hp Hi' Hok x L HL Hi) as (sc & H1 & H2).
  exists sc. split; [split; [by apply H1|by apply tag_ids_nodup]|]. intros ms Hms. eapply par_weaken, H2, Hms. intros r m Hr Hpost. by apply Hpost.
Qed.

(** The double-tree bcast leaves the data of the root in the buffer of every rank, for every root, number of ranks, number of elements and
    as many parts as the tag layout has op ids for. *)
Theorem double_tree_bcast_correct :
  0 < dsz -> root < N -> (Z.of_nat N <= 2 ^ 30)%Z -> 0 < parts -> known_layout L -> (Z.of_nat (2 * parts) <= op_id_mask L + 1)%Z -> (forall r, r < N -> dtree_bufs_ok dtree_bcast send recv nx r) ->
  dtree_implements L op dsz N root count dtree_partition_count dtree_bcast send recv nx
    (fun r m => arr dsz m (recv r) count (x r)) (fun r m => arr dsz m (recv r) count (x root)).
Proof using Type*.
  intros Hd HN HN' Hp HL Hi Hok. assert (Hi' : 2 * parts <= 256) by (pose proof (op_ids_byte L HL); lia).
  destruct (dtree_collective op dsz N root count Hd HN HN' dtree_partition_count dtree_bcast send recv nx Hp Hi' Hok x L HL Hi) as (sc & H1 & H2).
  exists sc. split; [split; [by apply H1|by apply tag_ids_nodup]|]. intros ms Hms. eapply par_weaken, H2; [|intros r Hr; destruct (Hms r Hr) as [Ha Hal]; split; [split; [exact Ha|by eexists]|done]].
  intros r m Hr Hpost. by apply Hpost.
Qed.
End theorems.

(** ** Where the code falls short *)

Lemma loop_length dsz n i coll r dt a1 b1 a2 b2 id1 id2 w1 w2 : length (dtree_loop dsz n i coll r dt a1 b1 a2 b2 id1 id2 w1 w2) = 2 * n.
Proof.
  revert i id1 id2 w1 w2. induction n as [|n IH]; intros i id1 id2 w1 w2; cbn [dtree_loop]; [done|]. rewrite length_app, IH.
  unfold dtree_part. destruct coll; try destruct (Nat.even r); cbn; lia.
Qed.

(** With more parts than the tag layout has op ids for - more than 128 with the common layout, more than 8 with those of cxi and MPI - two sub-schedules of
    a rank have the same op id in their tags: their messages have the same tags. *)
Theorem op_ids_collide L dsz parts coll r send recv count dt : known_layout L -> (op_id_mask L + 1 < Z.of_nat (2 * parts))%Z ->
  ~ NoDup (tag_op_id L ∘ ss_op_id <$> (ccl_coll_build_double_tree_op dsz (Some parts) coll r send recv count dt).2).
Proof.
  intros HL Hp Hnd. pose proof (op_ids_byte L HL). set (l := _ ∘ _ <$> _) in Hnd. assert (Hl : length l = 2 * parts) by (unfold l; rewrite length_fmap; apply loop_length).
  assert (Hsub : l ⊆ Z.of_nat <$> seq 0 (S (Z.to_nat (op_id_mask L)))).
  { intros z (e & -> & He)%list_elem_of_fmap. apply list_elem_of_fmap. unfold compose. pose proof (tag_op_id_range L (ss_op_id e) HL).
    exists (Z.to_nat (tag_op_id L (ss_op_id e))). split; [lia|]. apply elem_of_seq. lia. }
  pose proof (submseteq_length _ _ (NoDup_submseteq _ _ Hnd Hsub)) as Hle. rewrite length_fmap, length_seq in Hle. lia.
Qed.

(** A reduce and a broadcast copy, on every rank, the whole send buffer to the receive buffer, although one of them has no use there. *)
Theorem every_rank_needs_both_buffers dsz pc coll r send recv count dt : coll <> dtree_bcast -> buffer_eqb send recv = false ->
  (ccl_coll_build_double_tree_op dsz pc coll r send recv count dt).1 = [copy_entry send recv count].
Proof. intros Hc E. unfold ccl_coll_build_double_tree_op. cbn [fst]. rewrite E. by destruct coll. Qed.

(** ** Witnesses: five ranks, seven elements of four bytes, three parts for each tree *)

Lemma dtree_bufs_ex coll r : dtree_bufs_ok coll send_ex recv_ex nx_ex r.
Proof. split_and!; [done|cbn; unfold nx_ex; lia|]. by do 2 right. Qed.

Lemma double_tree_allreduce_witness : dtree_implements mpi_tag_layout Nat.add 4 5 0 7 (Some 3) dtree_allreduce send_ex recv_ex nx_ex
  (fun r m => arr 4 m (send_ex r) 7 (x_ex r) /\ exists g, arr 4 m (recv_ex r) 7 g)
  (fun r m => arr 4 m (recv_ex r) 7 (fun i => reduce_ranks Nat.add 5 (fun s => x_ex s i))).
Proof. apply (double_tree_allreduce_correct mpi_tag_layout Nat.add 4 5 7 (Some 3) send_ex recv_ex nx_ex x_ex); [cbn; lia..|right; right; reflexivity|cbn; lia|]. intros r _. apply dtree_bufs_ex. Defined.

Lemma double_tree_reduce_witness : dtree_implements mpi_tag_layout Nat.add 4 5 3 7 (Some 3) dtree_reduce send_ex recv_ex nx_ex
  (fun r m => arr 4 m (send_ex r) 7 (x_ex r) /\ exists g, arr 4 m (recv_ex r) 7 g)
  (fun r m => r = 3 -> arr 4 m (recv_ex r) 7 (fun i => reduce_ranks Nat.add 5 (fun s => x_ex s i))).
Proof. apply (double_tree_reduce_correct mpi_tag_layout Nat.add 4 5 3 7 (Some 3) send_ex recv_ex nx_ex x_ex); [cbn; lia..|right; right; reflexivity|cbn; lia|]. intros r _. apply dtree_bufs_ex. Defined.

Lemma double_tree_bcast_witness : dtree_implements mpi_tag_layout Nat.add 4 5 3 7 (Some 3) dtree_bcast send_ex recv_ex nx_ex
  (fun r m => arr 4 m (recv_ex r) 7 (x_ex r)) (fun r m => arr 4 m (recv_ex r) 7 (x_ex 3)).
Proof. apply (double_tree_bcast_correct mpi_tag_layout Nat.add 4 5 3 7 (Some 3) send_ex recv_ex nx_ex x_ex); [cbn; lia..|right; right; reflexivity|cbn; lia|]. intros r _. apply dtree_bufs_ex. Defined.

(** The sub-schedules of rank 2, with their op ids. *)
Example dtree_op_ids : ss_op_id <$> (dtree_ops 4 5 0 7 (Some 3) dtree_allreduce send_ex recv_ex 2).2 = [3; 0; 4; 1; 5; 2]%Z.
Proof. vm_compute. reflexivity. Qed.

(** With nine parts two sub-schedules of rank 1 have op id 0 in the tags of MPI. *)
Example dtree_9_ids : (fun e => tag_op_id mpi_tag_layout (ss_op_id e)) <$> (dtree_ops 4 5 0 7 (Some 9) dtree_allreduce send_ex recv_ex 1).2 =
  [0; 9; 1; 10; 2; 11; 3; 12; 4; 13; 5; 14; 6; 15; 7; 0; 8; 1]%Z.
Proof. vm_compute. reflexivity. Qed.
