(* ===== verification/Progress.v ===== *)
(** Executing a schedule: entries, flow control and [ccl_sched::do_progress].

    Models [sched_entry::do_progress], [reset] ([src/src/sched/entry/entry.cpp]),
    [flow_control] ([src/src/sched/queue/flow_control.cpp]) and
    [ccl_sched::do_progress], [renew], [add_barrier], [is_strict_order_satisfied]
    ([src/src/sched/sched.cpp]).  What an entry's virtual [start] and [update] do
    is the transport's business: an [oracle] gives the status each call leaves.

    The theorems: flow-control credits are conserved and no internal check fails,
    barriers hold, entries start in order, polling finishes the schedule, and one
    call of [do_progress] is a run of the scheduler [Network] assumes. *)

From S2P Require Import Prelude Network.
From stdpp Require Import relations.
Open Scope ccl_scope.

(** * Entries *)

Inductive ccl_sched_entry_status :=
| not_started | again | started | complete | complete_once | failed | invalid.

#[export] Instance status_eq_dec : EqDecision ccl_sched_entry_status.
Proof. solve_decision. Defined.

(** The values of the enum, which the code compares with [<] and [>=]. *)
Definition status_val (s : ccl_sched_entry_status) : nat :=
  match s with
  | not_started => 0 | again => 1 | started => 2 | complete => 3 | complete_once => 4 | failed => 5 | invalid => 6
  end.

Definition status_eqb (s t : ccl_sched_entry_status) : bool := status_val s =? status_val t.

Inductive ccl_sched_entry_exec_mode := exec_regular | exec_once.

Definition is_once (m : ccl_sched_entry_exec_mode) : bool :=
  match m with exec_once => true | exec_regular => false end.

Record sched_entry := {
  e_status : ccl_sched_entry_status;
  e_barrier : bool;
  e_exec_mode : ccl_sched_entry_exec_mode;
  e_start_idx : nat }.

Definition set_status (s : ccl_sched_entry_status) (e : sched_entry) : sched_entry :=
  {| e_status := s; e_barrier := e_barrier e; e_exec_mode := e_exec_mode e; e_start_idx := e_start_idx e |}.

Definition make_barrier (e : sched_entry) : sched_entry :=
  {| e_status := e_status e; e_barrier := true; e_exec_mode := e_exec_mode e; e_start_idx := e_start_idx e |}.

Definition is_completed (e : sched_entry) : bool :=
  status_eqb (e_status e) complete || status_eqb (e_status e) complete_once.

(** [sched_entry::reset] *)
Definition reset (idx : nat) (e : sched_entry) : sched_entry :=
  if status_eqb (e_status e) complete_once then e
  else {| e_status := not_started; e_barrier := e_barrier e; e_exec_mode := e_exec_mode e; e_start_idx := idx |}.

(** * Flow control *)

Record flow_control := { max_credits : nat; min_credits : nat; credits : nat }.

Definition set_max_credits (value : nat) : flow_control :=
  {| max_credits := value; min_credits := value; credits := value |}.

Definition take_credit (fc : flow_control) : result (bool * flow_control) :=
  if credits fc =? 0 then Ok (false, fc)
  else
    let c := credits fc - 1 in
    throw_if_not (c <=? max_credits fc) ;;
    Ok (true, {| max_credits := max_credits fc; min_credits := Nat.min (min_credits fc) c; credits := c |}).

Definition return_credit (fc : flow_control) : result flow_control :=
  let c := credits fc + 1 in
  throw_if_not ((0 <? c) && (c <=? max_credits fc) && (min_credits fc <? c)) ;;
  Ok {| max_credits := max_credits fc; min_credits := min_credits fc; credits := c |}.

(** * Progress of an entry *)

(** The status [start] and [update] of an entry leave. *)
Record outcome := { on_start : ccl_sched_entry_status; on_update : ccl_sched_entry_status }.

Definition entry_do_progress (o : outcome) (e : sched_entry) (fc : flow_control)
  : result (sched_entry * flow_control) :=
  if is_completed e then Ok (e, fc) else
  r <-! (if status_val (e_status e) <? status_val started then
           throw_if_not (status_eqb (e_status e) not_started || status_eqb (e_status e) again) ;;
           took <-! (if status_eqb (e_status e) not_started then take_credit fc else Ok (true, fc)) ;;
           if negb took.1 then Ok (false, e, took.2)
           else
             let e1 := set_status (on_start o) e in
             throw_if_not (status_val again <=? status_val (e_status e1)) ;;
             Ok (true, e1, took.2)
         else if status_eqb (e_status e) started then
           let e1 := set_status (on_update o) e in
           throw_if_not (status_val started <=? status_val (e_status e1)) ;;
           Ok (true, e1, fc)
         else Ok (true, e, fc)) ;;
  let '(went_on, e1, fc1) := r in
  if negb went_on then Ok (e1, fc1) else
  r2 <-! (if status_eqb (e_status e1) complete then
            let e2 := if is_once (e_exec_mode e1) then set_status complete_once e1 else e1 in
            fc2 <-! return_credit fc1 ;;
            Ok (e2, fc2)
          else Ok (e1, fc1)) ;;
  throw_if_not (negb (status_eqb (e_status r2.1) failed) && negb (status_eqb (e_status r2.1) invalid)) ;;
  Ok r2.

(** * Progress of a schedule *)

Record psched := { p_entries : list sched_entry; p_start_idx : nat; p_flow : flow_control }.

Abbreviation oracle := (nat -> outcome).

(** The loop body, from entry [idx] on; [n] bounds the entries left. *)
Fixpoint progress_loop (o : oracle) (n idx : nat) (s : psched) : result psched :=
  match n, p_entries s !! idx with
  | S n', Some e =>
    r <-! entry_do_progress (o idx) e (p_flow s) ;;
    let '(e1, fc1) := r in
    let s1 := {| p_entries := <[idx := e1]> (p_entries s); p_start_idx := p_start_idx s; p_flow := fc1 |} in
    if status_eqb (e_status e1) again then Ok s1
    else if (idx =? p_start_idx s1) && is_completed e1 then
      progress_loop o n' (S idx) {| p_entries := p_entries s1; p_start_idx := S (p_start_idx s1); p_flow := p_flow s1 |}
    else if e_barrier e1 && (negb (is_completed e1) || negb (p_start_idx s1 =? idx + 1)) then Ok s1
    else progress_loop o n' (S idx) s1
  | _, _ => Ok s
  end.

Definition do_progress (o : oracle) (s : psched) : result psched :=
  progress_loop o (length (p_entries s)) (p_start_idx s) s.

(** [ccl_sched::renew], without the id and the request. *)
Definition renew (s : psched) : psched :=
  {| p_entries := imap reset (p_entries s); p_start_idx := 0; p_flow := p_flow s |}.

(** What [sched_entry::is_strict_order_satisfied] and its overrides look at: the status of an entry, and for a [coll_entry] the entries of its sub-schedule, if it
    has been built. *)
Inductive strict_entry :=
| strict_plain (status : ccl_sched_entry_status)
| strict_base_coll (status : ccl_sched_entry_status)
| strict_coll (status : ccl_sched_entry_status) (subsched : option (list strict_entry)).

Fixpoint entry_strict_order_satisfied (e : strict_entry) : bool :=
  match e with
  | strict_plain status => status_val started <=? status_val status
  | strict_base_coll status => status_eqb status started || (status_eqb status complete || status_eqb status complete_once)
  | strict_coll _ (Some subsched) => forallb entry_strict_order_satisfied subsched
  | strict_coll _ None => false
  end.

(** The class of an entry, with the sub-schedule of a [coll_entry] as it is at that moment. *)
Inductive entry_class := sched_entry_class | base_coll_entry_class | coll_entry_class (subsched : option (list strict_entry)).
Definition strict_view (c : entry_class) (status : ccl_sched_entry_status) : strict_entry :=
  match c with
  | sched_entry_class => strict_plain status
  | base_coll_entry_class => strict_base_coll status
  | coll_entry_class subsched => strict_coll status subsched
  end.

(** [ccl_sched::is_strict_order_satisfied], the entries being of classes [cls]. *)
Definition is_strict_order_satisfied (cls : nat -> entry_class) (s : psched) : bool :=
  forallb entry_strict_order_satisfied (imap (fun idx e => strict_view (cls idx) (e_status e)) (p_entries s)).

(** An entry has begun: a transfer or local operation has been started, a collective has a sub-schedule all of whose entries have begun, and so on down. *)
Inductive has_begun : strict_entry -> Prop :=
| begun_plain status : status <> not_started -> status <> again -> has_begun (strict_plain status)
| begun_base_coll status : status <> not_started -> status <> again -> has_begun (strict_base_coll status)
| begun_coll status subsched : (forall e, e ∈ subsched -> has_begun e) -> has_begun (strict_coll status (Some subsched)).

(** What [process_sched_bin] tests after progressing a schedule. *)
Definition sched_finished (s : psched) : bool := p_start_idx s =? length (p_entries s).

(** Repeated polling, as a worker does. *)
Fixpoint poll (os : list oracle) (s : psched) : result psched :=
  match os with
  | [] => Ok s
  | o :: os' => s1 <-! do_progress o s ;; poll os' s1
  end.

Lemma satisfied_begun : forall e, entry_strict_order_satisfied e = true -> has_begun e.
Proof.
  fix IH 1. intros [status|status|status [l|]] H; cbn in H.
  - constructor; by destruct status.
  - constructor; by destruct status.
  - constructor. induction l as [|e l IHl]; [by intros e ?%not_elem_of_nil|]. apply andb_true_iff in H as [He Hl].
    intros e' [->|Hin]%elem_of_cons; [by apply IH|by apply IHl].
  - done.
Qed.

(** The strict order of a schedule is satisfied when all its entries have begun. *)
Lemma strict_order_begun cls s idx e : is_strict_order_satisfied cls s = true -> p_entries s !! idx = Some e ->
  has_begun (strict_view (cls idx) (e_status e)).
Proof.
  intros H He. apply satisfied_begun. unfold is_strict_order_satisfied in H. rewrite forallb_forall in H. apply H, list_elem_of_In.
  apply list_elem_of_lookup. exists idx. by rewrite list_lookup_imap, He.
Qed.

(** * Phases *)

(** What matters of a status. *)
Inductive phase := Idle | Again | Flying | Done | Bad.

#[export] Instance phase_eq_dec : EqDecision phase.
Proof. solve_decision. Defined.

Definition phase_of (e : sched_entry) : phase :=
  match e_status e with
  | not_started => Idle | again => Again | started => Flying | complete | complete_once => Done | _ => Bad
  end.

(** An entry holds a credit from its first start attempt to its completion. *)
Definition weight (e : sched_entry) : nat :=
  match phase_of e with Again | Flying => 1 | _ => 0 end.

Definition used (l : list sched_entry) : nat := sum_list_with weight l.

Definition fc_ok (u : nat) (fc : flow_control) : Prop :=
  credits fc + u = max_credits fc /\ min_credits fc <= credits fc.

(** The transport's answers are ones the code expects. *)
Definition outcome_ok (o : outcome) : Prop :=
  (on_start o = again \/ on_start o = started \/ on_start o = complete) /\
  (on_update o = started \/ on_update o = complete).

(** The phases one call can move an entry to, with [c] credits left. *)
Definition phase_step (c : nat) (p p' : phase) : Prop :=
  match p with
  | Idle => (c = 0 /\ p' = Idle) \/ (0 < c /\ (p' = Again \/ p' = Flying \/ p' = Done))
  | Again => p' = Again \/ p' = Flying \/ p' = Done
  | Flying => p' = Flying \/ p' = Done
  | Done => p' = Done
  | Bad => False
  end.

Lemma is_completed_phase e : is_completed e = bool_decide (phase_of e = Done).
Proof. unfold is_completed, phase_of. destruct (e_status e); done. Qed.

#[local] Arguments return_credit : simpl never.
#[local] Arguments take_credit : simpl never.

Lemma entry_progress_ok o e fc u :
  outcome_ok o -> phase_of e <> Bad -> fc_ok (u + weight e) fc ->
  exists e' fc', entry_do_progress o e fc = Ok (e', fc') /\
    e_barrier e' = e_barrier e /\ phase_step (credits fc) (phase_of e) (phase_of e') /\
    fc_ok (u + weight e') fc' /\ max_credits fc' = max_credits fc /\
    (phase_of e = Done -> e' = e) /\ (phase_of e' = Idle -> e' = e /\ fc' = fc).
Proof.
  intros [Ho1 Ho2] Hbad [Hc1 Hc2]. unfold entry_do_progress, is_completed, phase_of, weight, phase_of in *.
  destruct e as [s b m i]. cbn in *.
  assert (Hret : forall fc, credits fc + (u + 1) = max_credits fc -> min_credits fc <= credits fc ->
    return_credit fc = Ok {| max_credits := max_credits fc; min_credits := min_credits fc; credits := credits fc + 1 |}).
  { intros fc' H1 H2. unfold return_credit.
    rewrite (proj2 (Nat.ltb_lt _ _)), (proj2 (Nat.leb_le _ _)), (proj2 (Nat.ltb_lt (min_credits fc') _)) by lia. done. }
  assert (Htake : take_credit fc = if credits fc =? 0 then Ok (false, fc) else
    Ok (true, {| max_credits := max_credits fc; min_credits := Nat.min (min_credits fc) (credits fc - 1); credits := credits fc - 1 |})).
  { unfold take_credit. destruct (credits fc =? 0); [done|]. rewrite (proj2 (Nat.leb_le _ _)) by lia. done. }
  destruct s; cbn in *; try done.
  - (* not started *)
    rewrite Htake. destruct (Nat.eqb_spec (credits fc) 0) as [H0|H0]; cbn.
    { eexists _, _. split; [done|]. cbn. unfold fc_ok. split_and!; auto; lia. }
    destruct Ho1 as [->|[->| ->]]; cbn.
    + eexists _, _. split; [done|]. cbn. unfold fc_ok. cbn. split_and!; try done; try lia; right; split; auto; lia.
    + eexists _, _. split; [done|]. cbn. unfold fc_ok. cbn. split_and!; try done; try lia; right; split; auto; lia.
    + rewrite Hret by (cbn; lia). destruct m; cbn;
        (eexists _, _; split; [done|]; cbn; unfold fc_ok; cbn; split_and!; try done; try lia; right; split; auto; lia).
  - (* again *)
    destruct Ho1 as [->|[->| ->]]; cbn.
    + eexists _, _. split; [done|]. cbn. unfold fc_ok. cbn. split_and!; try done; try lia; auto.
    + eexists _, _. split; [done|]. cbn. unfold fc_ok. cbn. split_and!; try done; try lia; auto.
    + rewrite Hret by (cbn; lia). destruct m; cbn;
        (eexists _, _; split; [done|]; cbn; unfold fc_ok; cbn; split_and!; try done; try lia; auto).
  - (* started *)
    destruct Ho2 as [->| ->]; cbn.
    + eexists _, _. split; [done|]. cbn. unfold fc_ok. cbn. split_and!; try done; try lia; auto.
    + rewrite Hret by (cbn; lia). destruct m; cbn;
        (eexists _, _; split; [done|]; cbn; unfold fc_ok; cbn; split_and!; try done; try lia; auto).
  - eexists _, _. split; [done|]. cbn. unfold fc_ok. split_and!; try done; try lia; auto.
  - eexists _, _. split; [done|]. cbn. unfold fc_ok. split_and!; try done; try lia; auto.
Qed.

#[local] Arguments weight : simpl never.

Lemma used_insert l i e e' : l !! i = Some e -> used (<[i := e']> l) + weight e = used l + weight e'.
Proof.
  unfold used. revert i. induction l as [|x l IH]; intros i H; [done|].
  destruct i as [|i]; [cbn in *; injection H as ->; lia|]. specialize (IH i H).
  change (<[S i := e']> (x :: l)) with (x :: <[i := e']> l). cbn [sum_list_with]. lia.
Qed.

(** * The state of a running schedule *)

Definition ph (s : psched) (i : nat) : phase :=
  match p_entries s !! i with Some e => phase_of e | None => Done end.
Definition bar (s : psched) (i : nat) : bool :=
  match p_entries s !! i with Some e => e_barrier e | None => false end.
Abbreviation len s := (length (p_entries s)).

(** The first [k] entries have started in this round; entry [k] may have a start
    attempt behind it; later ones wait, or are done from an earlier round. *)
Record running (k : nat) (s : psched) : Prop := {
  run_len : k <= len s;
  run_start : p_start_idx s <= k;
  run_prefix : forall i, i < p_start_idx s -> ph s i = Done;
  run_begun : forall i, i < k -> ph s i = Flying \/ ph s i = Done;
  run_wait : forall i, k <= i < len s ->
    ph s i = Idle \/ (i = k /\ ph s i = Again) \/
    exists e, p_entries s !! i = Some e /\ e_status e = complete_once;
  run_barrier : forall b i, S b < k -> bar s b = true -> i <= b -> ph s i = Done;
  run_credits : fc_ok (used (p_entries s)) (p_flow s) }.

(** The control state [Network] speaks of. *)
Definition ctl_of (k : nat) (s : psched) : ctl nat :=
  mk_ctl (filter (fun i => ph s i = Flying) (seq 0 k))
         (match k with O => false | S j => bar s j end)
         ((fun i => (i, bar s i)) <$> seq k (len s - k)).

(** The loop at entry [idx]. *)
Record looping (idx k : nat) (s : psched) : Prop := {
  loop_run : running k s;
  loop_from : p_start_idx s <= idx;
  loop_reach : idx <= k \/ credits (p_flow s) = 0;
  loop_bar : forall j, idx = S j -> bar s j = true -> p_start_idx s = idx }.

Section entry_update.
Context (s : psched) (idx : nat) (e e1 : sched_entry) (fc1 : flow_control) (st1 : nat).
Context (He : p_entries s !! idx = Some e) (Hb : e_barrier e1 = e_barrier e).
Abbreviation s1 := {| p_entries := <[idx := e1]> (p_entries s); p_start_idx := st1; p_flow := fc1 |}.

Lemma ph_upd i : ph s1 i = if decide (i = idx) then phase_of e1 else ph s i.
Proof using He.
  unfold ph. cbn. case_decide as Hi.
  - subst. by rewrite list_lookup_insert_eq by (by eapply lookup_lt_Some).
  - by rewrite list_lookup_insert_ne.
Qed.

Lemma bar_upd i : bar s1 i = bar s i.
Proof using He Hb.
  unfold bar. cbn. destruct (decide (i = idx)) as [->|Hi].
  - by rewrite list_lookup_insert_eq, He by (by eapply lookup_lt_Some).
  - by rewrite list_lookup_insert_ne.
Qed.

Lemma len_upd : len s1 = len s.
Proof. cbn. by rewrite length_insert. Qed.
End entry_update.

Lemma seq_split_at idx k : idx < k -> seq 0 k = seq 0 idx ++ idx :: seq (S idx) (k - idx - 1).
Proof. intros. replace k with (idx + S (k - idx - 1)) at 1 by lia. by rewrite seq_app. Qed.

Section iteration.
Context (s : psched) (idx k : nat) (e e1 : sched_entry) (fc1 : flow_control).
Context (Hl : looping idx k s) (He : p_entries s !! idx = Some e) (Hb : e_barrier e1 = e_barrier e).
Context (Hstep : phase_step (credits (p_flow s)) (phase_of e) (phase_of e1)).
Context (Hfc : fc_ok (used (<[idx := e1]> (p_entries s))) fc1).
Context (Hsame : phase_of e1 = Idle \/ phase_of e = Done -> e1 = e).
Abbreviation s1 := {| p_entries := <[idx := e1]> (p_entries s); p_start_idx := p_start_idx s; p_flow := fc1 |}.

Lemma ph_idx : ph s idx = phase_of e.
Proof using He. unfold ph. by rewrite He. Qed.

Lemma idx_lt : idx < len s.
Proof using He. by eapply lookup_lt_Some. Qed.

(** Entries other than [idx] keep their phase; barriers are fixed. *)
Lemma ph1 i : i <> idx -> ph s1 i = ph s i.
Proof using He. intros. rewrite (ph_upd s idx e e1 fc1 _ He), decide_False by done. done. Qed.
Lemma ph1_idx : ph s1 idx = phase_of e1.
Proof using He. rewrite (ph_upd s idx e e1 fc1 _ He), decide_True by done. done. Qed.
Lemma bar1 i : bar s1 i = bar s i.
Proof using He Hb. apply (bar_upd s idx e e1 fc1 _ He Hb). Qed.

(** Nothing completed becomes incomplete. *)
Lemma done1 i : ph s i = Done -> ph s1 i = Done.
Proof using He Hstep.
  intros H. destruct (decide (i = idx)) as [->|Hne]; [|by rewrite ph1].
  rewrite ph1_idx. rewrite ph_idx in H. unfold phase_step in Hstep. by rewrite H in Hstep.
Qed.

Lemma ctl_of_ext : (phase_of e1 = Flying <-> phase_of e = Flying) \/ k <= idx -> ctl_of k s1 = ctl_of k s.
Proof using All.
  intros H. unfold ctl_of. f_equal.
  - apply filter_iff_in. intros i Hi%elem_of_seq. destruct (decide (i = idx)) as [->|Hne]; [|by rewrite ph1].
    destruct H as [H|H]; [|lia]. by rewrite ph1_idx, ph_idx.
  - destruct k; [done|]. apply bar1.
  - rewrite (len_upd s idx e1 fc1 _). apply list_fmap_ext. intros _ i _. by rewrite bar1.
Qed.
(** The entry was in flight or done: at most it completes. *)
Lemma iter_begun : idx < k -> running k s1 /\ rtc ctl_step (ctl_of k s) (ctl_of k s1).
Proof using All.
  intros Hlt. destruct (loop_run _ _ _ Hl) as [R1 R2 R3 R4 R5 R6 R7].
  assert (Hph : phase_of e1 = Flying \/ phase_of e1 = Done).
  { destruct (R4 idx Hlt) as [H|H]; rewrite ph_idx in H; unfold phase_step in Hstep; rewrite H in Hstep; auto. }
  split.
  - split; cbn [p_entries p_start_idx p_flow].
    + by rewrite length_insert.
    + done.
    + intros i Hi. by apply done1, R3.
    + intros i Hi. destruct (decide (i = idx)) as [->|Hne]; [by rewrite ph1_idx|rewrite ph1 by done; by apply R4].
    + rewrite length_insert. intros i Hi. rewrite ph1 by lia. rewrite list_lookup_insert_ne by lia. by apply R5.
    + intros b i Hbk Hbar Hib. apply done1. rewrite bar1 in Hbar. by eapply R6.
    + done.
  - destruct (decide (phase_of e1 = Flying <-> phase_of e = Flying)) as [Hiff|Hiff].
    + rewrite ctl_of_ext by auto. done.
    + assert (H0 : phase_of e = Flying) by (destruct (R4 idx Hlt) as [H|H]; rewrite ph_idx in H; [done|];
        unfold phase_step in Hstep; rewrite H in Hstep; exfalso; apply Hiff; rewrite H, Hstep; done).
      assert (H1 : phase_of e1 = Done) by (destruct Hph as [H|H]; [exfalso; apply Hiff; by rewrite H, H0|done]).
      apply rtc_once. unfold ctl_of. rewrite (seq_split_at idx k Hlt), !filter_app, !filter_cons.
      rewrite (decide_True (P := ph s idx = Flying)) by (by rewrite ph_idx).
      rewrite (decide_False (P := ph s1 idx = Flying)) by (rewrite ph1_idx, H1; done).
      rewrite !(filter_iff_in (fun i => ph s1 i = Flying) (fun i => ph s i = Flying))
        by (intros i Hi%elem_of_seq; rewrite ph1 by lia; done).
      replace (match k with O => false | S j => bar s1 j end) with (match k with O => false | S j => bar s j end)
        by (destruct k; [done|symmetry; apply bar1]).
      rewrite (len_upd s idx e1 fc1 _).
      replace ((fun i => (i, bar s1 i)) <$> seq k (len s - k)) with ((fun i => (i, bar s i)) <$> seq k (len s - k))
        by (apply list_fmap_ext; intros _ i _; by rewrite bar1).
      constructor.
Qed.

(** The entry was the next one and has begun: [k] moves past it. *)
Lemma iter_next : idx = k -> phase_of e1 = Flying \/ phase_of e1 = Done ->
  running (S k) s1 /\ rtc ctl_step (ctl_of k s) (ctl_of (S k) s1).
Proof using All.
  intros Hk Hph. pose proof idx_lt as Hlt. destruct Hl as [[R1 R2 R3 R4 R5 R6 R7] L1 L2 L3].
  assert (Hall : forall j, k = S j -> bar s j = true -> forall i, i < k -> ph s i = Done).
  { intros j Hj Hbar i Hi. apply R3. rewrite (L3 j) by (lia || done). lia. }
  split.
  - split; cbn [p_entries p_start_idx p_flow].
    + rewrite length_insert. lia.
    + lia.
    + intros i Hi. by apply done1, R3.
    + intros i Hi. destruct (decide (i = idx)) as [->|Hne]; [by rewrite ph1_idx|rewrite ph1 by done; apply R4; lia].
    + rewrite length_insert. intros i Hi. rewrite ph1 by lia. rewrite list_lookup_insert_ne by lia.
      destruct (R5 i) as [H|[[H _]|H]]; [lia|auto|lia|auto].
    + intros b i Hbk Hbar Hib. rewrite bar1 in Hbar. apply done1.
      destruct (decide (S b < k)) as [Hbk'|]; [by eapply R6|]. apply (Hall b); (done || lia).
    + done.
  - apply rtc_once. unfold ctl_of. rewrite seq_S, filter_app, filter_cons, filter_nil. cbn [Nat.add].
    rewrite (len_upd s idx e1 fc1 _). replace (len s - k) with (S (len s - S k)) by lia. cbn [seq fmap list_fmap].
    rewrite !bar1, (filter_iff_in (fun i => ph s1 i = Flying) (fun i => ph s i = Flying))
      by (intros i Hi%elem_of_seq; rewrite ph1 by lia; done).
    replace ((fun i => (i, bar s1 i)) <$> seq (S k) (len s - S k)) with ((fun i => (i, bar s i)) <$> seq (S k) (len s - S k))
      by (apply list_fmap_ext; intros _ i _; by rewrite bar1).
    assert (Hpend : (match k with O => false | S j => bar s j end) = true ->
      filter (fun i => ph s i = Flying) (seq 0 k) = []).
    { intros Hbar. destruct k as [|j]; [done|]. rewrite filter_none; [done|].
      intros i Hi%elem_of_seq. rewrite (Hall j) by (done || lia). done. }
    assert (Hk1 : ph s1 k = phase_of e1) by (rewrite <- Hk; apply ph1_idx). rewrite Hk1. destruct Hph as [->| ->]; rewrite ?decide_True, ?decide_False, ?app_nil_r by done; by constructor.
Qed.

(** The entry still waits. *)
Lemma iter_wait : k <= idx -> (idx = k /\ phase_of e1 = Again) \/ e1 = e ->
  running k s1 /\ rtc ctl_step (ctl_of k s) (ctl_of k s1).
Proof using All.
  intros Hk Hph. destruct (loop_run _ _ _ Hl) as [R1 R2 R3 R4 R5 R6 R7]. split; [|by rewrite ctl_of_ext by auto].
  split; cbn [p_entries p_start_idx p_flow].
  - by rewrite length_insert.
  - done.
  - intros i Hi. by apply done1, R3.
  - intros i Hi. rewrite ph1 by lia. by apply R4.
  - rewrite length_insert. intros i Hi. destruct (decide (i = idx)) as [->|Hne].
    + rewrite ph1_idx, list_lookup_insert_eq by lia. destruct Hph as [[-> H]| ->]; [auto|].
      destruct (R5 idx Hi) as [H|[[H0 H]|(e' & H1 & H2)]]; [rewrite ph_idx in H; auto|rewrite ph_idx in H; auto|].
      right. right. rewrite He in H1. injection H1 as <-. eauto.
    + rewrite ph1 by done. rewrite list_lookup_insert_ne by done. by apply R5.
  - intros b i Hbk Hbar Hib. apply done1. rewrite bar1 in Hbar. by eapply R6.
  - done.
Qed.
End iteration.

(** One more entry of the prefix is done. *)
Lemma running_bump k s :
  running k s -> p_start_idx s < k -> ph s (p_start_idx s) = Done ->
  running k {| p_entries := p_entries s; p_start_idx := S (p_start_idx s); p_flow := p_flow s |}.
Proof.
  intros [R1 R2 R3 R4 R5 R6 R7] Hlt Hd. split; try done. cbn. intros i Hi.
  destruct (decide (i = p_start_idx s)) as [->|]; [done|]. apply R3. lia.
Qed.

Definition oracle_ok (o : oracle) : Prop := forall i, outcome_ok (o i).

Lemma used_ge l i e : l !! i = Some e -> weight e <= used l.
Proof.
  unfold used. revert i. induction l as [|x l IH]; intros i H; [done|].
  destruct i as [|i]; cbn in *; [injection H as ->; lia|]. specialize (IH _ H). lia.
Qed.

(** How one state of a round comes after another. *)
Record follows (k : nat) (s : psched) (k' : nat) (s' : psched) : Prop := {
  fol_next : k <= k';
  fol_len : len s' = len s;
  fol_bar : forall i, bar s' i = bar s i;
  fol_done : forall i, ph s i = Done -> ph s' i = Done;
  fol_start : p_start_idx s <= p_start_idx s';
  fol_credits : max_credits (p_flow s') = max_credits (p_flow s);
  fol_ctl : rtc ctl_step (ctl_of k s) (ctl_of k' s') }.

Lemma follows_refl k s : follows k s k s.
Proof. split; try done; lia. Qed.

Lemma follows_trans k s k1 s1 k' s' : follows k s k1 s1 -> follows k1 s1 k' s' -> follows k s k' s'.
Proof.
  intros [A1 A2 A3 A4 A5 A6 A7] [B1 B2 B3 B4 B5 B6 B7].
  split; [lia|congruence|intros i; by rewrite B3|auto|lia|congruence|by etrans].
Qed.

Lemma follows_bump k s n : p_start_idx s <= n ->
  follows k s k {| p_entries := p_entries s; p_start_idx := n; p_flow := p_flow s |}.
Proof. intros. by split. Qed.

(** One iteration of the loop. *)
Lemma iteration_ok o idx k s e :
  oracle_ok o -> looping idx k s -> p_entries s !! idx = Some e ->
  exists e1 fc1 k1, entry_do_progress (o idx) e (p_flow s) = Ok (e1, fc1) /\
    let s1 := {| p_entries := <[idx := e1]> (p_entries s); p_start_idx := p_start_idx s; p_flow := fc1 |} in
    running k1 s1 /\ follows k s k1 s1 /\ e_barrier e1 = e_barrier e /\
    (phase_of e1 = Again \/ S idx <= k1 \/ credits fc1 = 0) /\ (phase_of e1 = Done -> idx <= k -> idx < k1).
Proof.
  intros Ho Hl He. pose proof (loop_run _ _ _ Hl) as [R1 R2 R3 R4 R5 R6 R7].
  pose proof (lookup_lt_Some _ _ _ He) as Hlt. pose proof (ph_idx s idx e He) as Hph. pose proof (used_ge _ _ _ He) as Hge.
  assert (Hbad : phase_of e <> Bad).
  { rewrite <- Hph. destruct (decide (idx < k)); [destruct (R4 idx); [done|congruence|congruence]|].
    destruct (R5 idx) as [H|[[_ H]|(e' & H1 & H2)]]; [lia|congruence|congruence|].
    rewrite He in H1. injection H1 as <-. rewrite Hph. unfold phase_of. by rewrite H2. }
  destruct (entry_progress_ok (o idx) e (p_flow s) (used (p_entries s) - weight e)) as (e1 & fc1 & Hrun & Hb & Hst & Hfc & Hmax & Hs1 & Hs2);
    [apply Ho|done|by replace (used (p_entries s) - weight e + weight e) with (used (p_entries s)) by lia|].
  assert (Hfc' : fc_ok (used (<[idx := e1]> (p_entries s))) fc1).
  { pose proof (used_insert _ _ _ e1 He). by replace (used _) with (used (p_entries s) - weight e + weight e1) by lia. }
  assert (Hsame : phase_of e1 = Idle \/ phase_of e = Done -> e1 = e) by (intros [H|H]; [by apply Hs2|by apply Hs1]).
  set (s1 := {| p_entries := <[idx := e1]> (p_entries s); p_start_idx := p_start_idx s; p_flow := fc1 |}).
  assert (Hfol : forall k1, k <= k1 -> rtc ctl_step (ctl_of k s) (ctl_of k1 s1) -> follows k s k1 s1).
  { intros k1 Hk1 HC. split; try done; [by apply length_insert|intros i; by eapply bar1|intros i; by eapply done1]. }
  exists e1, fc1. destruct (lt_eq_lt_dec idx k) as [[Hik|Hik]|Hik].
  - exists k. split; [done|]. destruct (iter_begun s idx k e e1 fc1 Hl He Hb Hst Hfc' Hsame Hik) as [HR HC].
    split; [done|]. split; [apply Hfol; [lia|done]|]. split; [done|]. split; [right; left; lia|done].
  - destruct (decide (phase_of e1 = Flying \/ phase_of e1 = Done)) as [Hp|Hp].
    + exists (S k). split; [done|]. destruct (iter_next s idx k e e1 fc1 Hl He Hb Hst Hfc' Hsame Hik Hp) as [HR HC].
      split; [done|]. split; [apply Hfol; [lia|done]|]. split; [done|]. split; [right; left; lia|lia].
    + exists k. split; [done|].
      assert (Hw : (phase_of e1 = Again \/ credits fc1 = 0) /\ ((idx = k /\ phase_of e1 = Again) \/ e1 = e)).
      { unfold phase_step in Hst. destruct (phase_of e) eqn:Ep; naive_solver. }
      destruct Hw as [Hw1 Hw2].
      destruct (iter_wait s idx k e e1 fc1 Hl He Hb Hst Hfc' Hsame ltac:(lia) Hw2) as [HR HC].
      split; [done|]. split; [apply Hfol; [lia|done]|]. split; [done|]. split; [naive_solver|naive_solver].
  - exists k. split; [done|]. destruct (loop_reach _ _ _ Hl) as [|H0]; [lia|].
    assert (Hw : e1 = e /\ credits fc1 = 0).
    { destruct (R5 idx) as [H|[[H _]|(e' & H1 & H2)]]; [lia| |lia|].
      - rewrite Hph in H. unfold phase_step in Hst. rewrite H in Hst.
        destruct Hst as [[_ Hid]|[? _]]; [|lia]. destruct (Hs2 Hid) as [-> ->]. done.
      - rewrite He in H1. injection H1 as <-. assert (Hd : phase_of e = Done) by (unfold phase_of; by rewrite H2).
        unfold entry_do_progress in Hrun. rewrite is_completed_phase, bool_decide_eq_true_2 in Hrun by done.
        injection Hrun as <- <-. done. }
    destruct Hw as [Hw1 Hw2].
    destruct (iter_wait s idx k e e1 fc1 Hl He Hb Hst Hfc' Hsame ltac:(lia) (or_intror Hw1)) as [HR HC].
    split; [done|]. split; [apply Hfol; [lia|done]|]. split; [done|]. split; [auto|lia].
Qed.

(** The loop returns, keeps the state well formed and follows the control of [Network]. *)
Lemma progress_loop_ok o n idx k s :
  oracle_ok o -> looping idx k s ->
  exists s' k', progress_loop o n idx s = Ok s' /\ running k' s' /\ follows k s k' s'.
Proof.
  intros Ho. revert idx k s. induction n as [|n IH]; intros idx k s Hl.
  { exists s, k. split; [done|]. split; [apply Hl|apply follows_refl]. }
  cbn [progress_loop]. destruct (p_entries s !! idx) as [e|] eqn:He.
  2: { exists s, k. split; [done|]. split; [apply Hl|apply follows_refl]. }
  destruct (iteration_ok o idx k s e Ho Hl He) as (e1 & fc1 & k1 & Hrun & HR & HF & Hb & Hreach & Hdone).
  rewrite Hrun. cbn [result_bind]. set (s1 := {| p_entries := _; p_start_idx := _; p_flow := _ |}) in *.
  assert (Hstop : exists s' k', Ok s1 = Ok s' /\ running k' s' /\ follows k s k' s') by (by exists s1, k1).
  assert (Hgo : forall s2, running k1 s2 -> follows k1 s1 k1 s2 -> looping (S idx) k1 s2 ->
    exists s' k', progress_loop o n (S idx) s2 = Ok s' /\ running k' s' /\ follows k s k' s').
  { intros s2 HR2 HF2 Hl2. destruct (IH (S idx) k1 s2 Hl2) as (s' & k' & E & HR' & HF'). exists s', k'.
    split; [done|]. split; [done|]. eapply follows_trans; [exact HF|]. by eapply follows_trans. }
  assert (Hagain : status_eqb (e_status e1) again = bool_decide (phase_of e1 = Again))
    by (unfold phase_of; by destruct (e_status e1)).
  rewrite Hagain. case_bool_decide as Hag; [done|].
  assert (Hbar : bar s1 idx = e_barrier e1).
  { unfold bar. cbn. by rewrite list_lookup_insert_eq by (by eapply lookup_lt_Some). }
  assert (Hph1 : ph s1 idx = phase_of e1) by (by eapply ph1_idx).
  pose proof (loop_from _ _ _ Hl) as Hfrom. pose proof (run_start _ _ (loop_run _ _ _ Hl)) as Hsk.
  rewrite is_completed_phase. change (p_start_idx s1) with (p_start_idx s).
  assert (Hnext : e_barrier e1 = false -> looping (S idx) k1 s1).
  { intros Eb. split; [done|cbn; lia|naive_solver|]. intros j [= <-]. by rewrite Hbar, Eb. }
  destruct (Nat.eqb_spec idx (p_start_idx s)) as [Hst|Hst].
  - case_bool_decide as Hd; cbn [andb].
    + specialize (Hdone Hd ltac:(lia)).
      assert (HR2 : running k1 {| p_entries := p_entries s1; p_start_idx := S (p_start_idx s); p_flow := p_flow s1 |})
        by (apply (running_bump k1 s1); cbn; [done|lia|rewrite <- Hst; by rewrite Hph1]).
      refine (Hgo _ HR2 _ _); [apply (follows_bump k1 s1); cbn; lia|].
      split; [done|cbn; lia|left; lia|]. intros j [= <-] _. cbn. by rewrite Hst.
    + destruct (e_barrier e1) eqn:Eb; cbn [andb negb orb]; [done|]. apply Hgo; [done|apply follows_refl|by apply Hnext].
  - cbn [andb]. destruct (Nat.eqb_spec (p_start_idx s) (idx + 1)); [lia|]. cbn [negb]. rewrite orb_true_r, andb_true_r.
    destruct (e_barrier e1) eqn:Eb; [done|]. apply Hgo; [done|apply follows_refl|by apply Hnext].
Qed.

Lemma do_progress_ok o k s :
  oracle_ok o -> running k s -> exists s' k', do_progress o s = Ok s' /\ running k' s' /\ follows k s k' s'.
Proof.
  intros Ho HR. apply progress_loop_ok; [done|]. split; [done|done|left; apply HR|done].
Qed.

(** * Reachable states *)

(** A schedule as [add_entry] and [add_barrier] leave it, before its first round. *)
Definition fresh (s : psched) : Prop :=
  p_start_idx s = 0 /\ (forall e, e ∈ p_entries s -> e_status e = not_started) /\
  credits (p_flow s) = max_credits (p_flow s) /\ min_credits (p_flow s) = max_credits (p_flow s).

(** States between calls, over any number of rounds. *)
Inductive reachable : psched -> Prop :=
| reach_fresh s : fresh s -> reachable s
| reach_poll o s s' : reachable s -> oracle_ok o -> do_progress o s = Ok s' -> reachable s'
| reach_renew s : reachable s -> sched_finished s = true -> reachable (renew s).

Lemma ph_lookup s i e : p_entries s !! i = Some e -> ph s i = phase_of e.
Proof. unfold ph. by intros ->. Qed.

Lemma used_zero l : (forall e, e ∈ l -> weight e = 0) -> used l = 0.
Proof.
  unfold used. induction l as [|e l IH]; intros H; cbn; [done|].
  rewrite (H e), IH by (try left; intros; apply H; by right). done.
Qed.

Lemma fresh_running s : fresh s -> running 0 s.
Proof.
  intros (H1 & H2 & H3 & H4). split; try lia.
  - intros i [_ Hi]. left. destruct (lookup_lt_is_Some_2 _ _ Hi) as [e He].
    rewrite (ph_lookup _ _ _ He). unfold phase_of. by rewrite H2 by (by eapply list_elem_of_lookup_2).
  - rewrite used_zero; [unfold fc_ok; lia|]. intros e He. unfold weight, phase_of. by rewrite H2.
Qed.

(** A finished schedule can be renewed for the next round. *)
Lemma renew_running k s : running k s -> sched_finished s = true ->
  running 0 (renew s) /\ credits (p_flow (renew s)) = max_credits (p_flow (renew s)).
Proof.
  intros [R1 R2 R3 R4 R5 R6 [C1 C2]] Hf%Nat.eqb_eq.
  assert (Hlk : forall i e, p_entries (renew s) !! i = Some e ->
    exists e0, p_entries s !! i = Some e0 /\ e = reset i e0).
  { intros i e. cbn. rewrite list_lookup_imap. destruct (p_entries s !! i) as [e0|]; cbn; [|done].
    intros [= <-]. by exists e0. }
  assert (Hphase : forall i e, p_entries (renew s) !! i = Some e -> e_status e = not_started \/ e_status e = complete_once).
  { intros i e He. destruct (Hlk i e He) as (e0 & H0 & ->). unfold reset.
    destruct (status_eqb (e_status e0) complete_once) eqn:E; [right|by left]. by destruct (e_status e0). }
  assert (Hu0 : used (p_entries s) = 0).
  { apply used_zero. intros e (i & Hi)%list_elem_of_lookup. pose proof (lookup_lt_Some _ _ _ Hi).
    specialize (R3 i ltac:(lia)). rewrite (ph_lookup _ _ _ Hi) in R3. unfold weight. by rewrite R3. }
  assert (Hu1 : used (p_entries (renew s)) = 0).
  { apply used_zero. intros e (i & Hi)%list_elem_of_lookup. unfold weight, phase_of. by destruct (Hphase i e Hi) as [-> | ->]. }
  split; [|cbn; lia]. split; cbn [renew p_start_idx]; try lia.
  - intros i [_ Hi]. destruct (lookup_lt_is_Some_2 _ _ Hi) as [e He].
    destruct (Hphase i e He) as [E|E]; [left|right; right; eauto]. rewrite (ph_lookup _ _ _ He). unfold phase_of. by rewrite E.
  - rewrite Hu1. cbn. unfold fc_ok. lia.
Qed.

Lemma reachable_running s : reachable s -> exists k, running k s.
Proof.
  induction 1 as [s Hf|o s s' _ [k HR] Ho E|s _ [k HR] Hf].
  - exists 0. by apply fresh_running.
  - destruct (do_progress_ok o k s Ho HR) as (s1 & k1 & E1 & HR1 & _). rewrite E in E1. injection E1 as ->. eauto.
  - exists 0. by apply (renew_running k s).
Qed.

(** An entry that has begun in this round. *)
Definition begun (s : psched) (i : nat) : Prop :=
  exists e, p_entries s !! i = Some e /\ (e_status e = started \/ e_status e = complete).

Lemma begun_lt k s i : running k s -> begun s i -> i < k.
Proof.
  intros HR (e & He & Hst). destruct (decide (i < k)) as [|Hge]; [done|].
  pose proof (lookup_lt_Some _ _ _ He).
  destruct (run_wait _ _ HR i) as [H0|[[_ H0]|(e' & H1 & H2)]]; [lia| | |].
  - rewrite (ph_lookup _ _ _ He) in H0. unfold phase_of in H0. destruct Hst as [E|E]; by rewrite E in H0.
  - rewrite (ph_lookup _ _ _ He) in H0. unfold phase_of in H0. destruct Hst as [E|E]; by rewrite E in H0.
  - rewrite He in H1. injection H1 as <-. destruct Hst; congruence.
Qed.

(** In every reachable state of a schedule - over any rounds and whatever the transport
    answers - a call of [do_progress] returns (none of the internal checks of entries and flow
    control throws), and the credits left plus the entries in flight are the maximum. *)
Theorem do_progress_never_throws s o :
  reachable s -> oracle_ok o ->
  credits (p_flow s) + used (p_entries s) = max_credits (p_flow s) /\ exists s', do_progress o s = Ok s'.
Proof.
  intros [k HR]%reachable_running Ho. split; [apply HR|].
  destruct (do_progress_ok o k s Ho HR) as (s' & _ & E & _). eauto.
Qed.

(** Barriers hold: when an entry behind a barrier entry has begun, every entry up to the
    barrier has completed. *)
Theorem barrier_not_overtaken s b j :
  reachable s -> b < j -> bar s b = true -> begun s j ->
  forall i e, i <= b -> p_entries s !! i = Some e -> is_completed e = true.
Proof.
  intros [k HR]%reachable_running Hbj Hb Hj i e Hi He. pose proof (begun_lt k s j HR Hj).
  rewrite is_completed_phase. apply bool_decide_eq_true. rewrite <- (ph_lookup _ _ _ He).
  eapply (run_barrier _ _ HR b); (done || lia).
Qed.

(** Entries start in order: when an entry has begun, no earlier one still waits, although an
    entry that gets no flow-control credit is passed over by the loop. *)
Theorem entries_start_in_order s i j e :
  reachable s -> i < j -> begun s j -> p_entries s !! i = Some e ->
  e_status e <> not_started /\ e_status e <> again.
Proof.
  intros [k HR]%reachable_running Hij Hj He. pose proof (begun_lt k s j HR Hj).
  destruct (run_begun _ _ HR i ltac:(lia)) as [H0|H0]; rewrite (ph_lookup _ _ _ He) in H0; unfold phase_of in H0;
    by destruct (e_status e).
Qed.

(** C15: a call of [do_progress] is a run of the scheduler the ranks of the network have: it starts
    entries in order, none while a barrier waits for earlier ones, and completes any in flight. *)
Theorem do_progress_refines_network s s' o :
  reachable s -> oracle_ok o -> do_progress o s = Ok s' ->
  exists k k', running k s /\ running k' s' /\ rtc ctl_step (ctl_of k s) (ctl_of k' s').
Proof.
  intros [k HR]%reachable_running Ho E. destruct (do_progress_ok o k s Ho HR) as (s1 & k1 & E1 & HR1 & HF).
  rewrite E in E1. injection E1 as ->. exists k, k1. split_and!; try done. apply HF.
Qed.

(** * Polling ends *)

(** The transport accepts a start at once and finishes it by the next poll. *)
Definition responsive (o : outcome) : Prop :=
  (on_start o = started \/ on_start o = complete) /\ on_update o = complete.

Lemma responsive_ok o : responsive o -> outcome_ok o.
Proof. intros [[H|H] H']; split; auto. Qed.

(** The loop does not look back. *)
Lemma progress_loop_below o n idx s s' i :
  progress_loop o n idx s = Ok s' -> i < idx -> p_entries s' !! i = p_entries s !! i.
Proof.
  revert idx s. induction n as [|n IH]; intros idx s; cbn [progress_loop]; [by intros [= <-]|].
  destruct (p_entries s !! idx) as [e|]; [|by intros [= <-]].
  destruct (entry_do_progress (o idx) e (p_flow s)) as [[e1 fc1]|]; cbn [result_bind]; [|done].
  assert (Hset : forall j, j < idx -> <[idx := e1]> (p_entries s) !! j = p_entries s !! j)
    by (intros; by rewrite list_lookup_insert_ne by lia).
  repeat case_match; intros E Hi; try (injection E as <-; cbn; by apply Hset).
  all: rewrite (IH _ _ E) by lia; cbn; by apply Hset.
Qed.

(** Work left: two polls per entry, one if the first is in flight. *)
Definition work (s : psched) : nat :=
  2 * (len s - p_start_idx s) - match ph s (p_start_idx s) with Flying => 1 | _ => 0 end.

Lemma first_entry_moves o k s e :
  running k s -> responsive o -> 0 < max_credits (p_flow s) -> p_entries s !! p_start_idx s = Some e ->
  forall e1 fc1, entry_do_progress o e (p_flow s) = Ok (e1, fc1) ->
  phase_of e1 = Done \/ (phase_of e = Idle /\ phase_of e1 = Flying) \/ (phase_of e = Again /\ phase_of e1 = Flying).
Proof.
  intros HR Hr Hmax He e1 fc1 Hrun. pose proof HR as [R1 R2 R3 R4 R5 R6 [C1 C2]].
  pose proof (lookup_lt_Some _ _ _ He) as Hlt. pose proof (ph_lookup _ _ _ He) as Hph.
  destruct Hr as [Hs Hu]. unfold entry_do_progress in Hrun. rewrite is_completed_phase in Hrun.
  case_bool_decide as Hd; [injection Hrun as <- <-; by left|].
  destruct (e_status e) eqn:Est; unfold phase_of in Hph, Hd |- *; rewrite Est in *; cbn in Hrun; try done.
  - (* idle: nothing is in flight, so a credit is there *)
    assert (Hk : k = p_start_idx s).
    { destruct (decide (p_start_idx s < k)) as [Hx|]; [|lia]. destruct (R4 _ Hx); congruence. }
    assert (Hu0 : used (p_entries s) = 0).
    { apply used_zero. intros e' (i & Hi)%list_elem_of_lookup. pose proof (lookup_lt_Some _ _ _ Hi). unfold weight.
      rewrite <- (ph_lookup _ _ _ Hi). destruct (decide (i < k)); [rewrite R3 by lia; done|].
      destruct (R5 i) as [H0|[[H0 H1]|(e2 & H1 & H2)]]; [lia|by rewrite H0|subst; congruence|].
      rewrite (ph_lookup _ _ _ H1). unfold phase_of. by rewrite H2. }
    unfold take_credit in Hrun. destruct (Nat.eqb_spec (credits (p_flow s)) 0); [lia|].
    rewrite (proj2 (Nat.leb_le _ _)) in Hrun by lia. cbn in Hrun. destruct Hs as [Hs|Hs]; rewrite Hs in Hrun; cbn in Hrun.
    + injection Hrun as <- <-. right. left. done.
    + destruct (return_credit _); [|done]. cbn in Hrun. destruct (e_exec_mode e); cbn in Hrun; injection Hrun as <- <-; by left.
  - destruct Hs as [Hs|Hs]; rewrite Hs in Hrun; cbn in Hrun.
    + injection Hrun as <- <-. right. right. done.
    + destruct (return_credit _); [|done]. cbn in Hrun. destruct (e_exec_mode e); cbn in Hrun; injection Hrun as <- <-; by left.
  - rewrite Hu in Hrun. cbn in Hrun. destruct (return_credit _); [|done]. cbn in Hrun.
    destruct (e_exec_mode e); cbn in Hrun; injection Hrun as <- <-; by left.
  - rewrite <- Hph in *. destruct (decide (p_start_idx s < k)) as [Hx|]; [destruct (R4 _ Hx); congruence|].
    destruct (R5 (p_start_idx s)) as [H0|[[_ H0]|(e2 & H1 & H2)]]; [lia|congruence|congruence|].
    rewrite He in H1. injection H1 as <-. congruence.
  - rewrite <- Hph in *. destruct (decide (p_start_idx s < k)) as [Hx|]; [destruct (R4 _ Hx); congruence|].
    destruct (R5 (p_start_idx s)) as [H0|[[_ H0]|(e2 & H1 & H2)]]; [lia|congruence|congruence|].
    rewrite He in H1. injection H1 as <-. congruence.
Qed.

Lemma poll_works o k s s' :
  running k s -> (forall i, responsive (o i)) -> 0 < max_credits (p_flow s) -> p_start_idx s < len s ->
  do_progress o s = Ok s' -> work s' < work s.
Proof.
  intros HR Hr Hmax Hlt E.
  assert (Ho : oracle_ok o) by (intros i; by apply responsive_ok).
  assert (Hl : looping (p_start_idx s) k s) by (split; [done|done|left; apply HR|done]).
  destruct (lookup_lt_is_Some_2 _ _ Hlt) as [e He].
  destruct (iteration_ok o _ k s e Ho Hl He) as (e1 & fc1 & k1 & Hrun & HR1 & HF1 & Hb & Hreach & Hdone).
  pose proof (first_entry_moves (o (p_start_idx s)) k s e HR (Hr _) Hmax He e1 fc1 Hrun) as Hmove.
  assert (Hag : status_eqb (e_status e1) again = false).
  { destruct Hmove as [H|[[_ H]|[_ H]]]; unfold phase_of in H; by destruct (e_status e1). }
  pose proof (do_progress_ok o k s Ho HR) as (s2 & k2 & E2 & HR2 & HF2). rewrite E in E2. injection E2 as <-.
  pose proof (fol_start _ _ _ _ HF2) as Hst. pose proof (fol_len _ _ _ _ HF2) as Hlen.
  unfold work at 2. unfold do_progress in E. destruct (len s) as [|n] eqn:En; [lia|].
  cbn [progress_loop] in E. rewrite He, Hrun in E. cbn [result_bind p_start_idx p_entries p_flow] in E.
  rewrite Hag, Nat.eqb_refl, is_completed_phase in E. cbn [andb] in E.
  rewrite (ph_lookup _ _ _ He).
  destruct Hmove as [Hd|Hfly].
  - (* the prefix grows *)
    rewrite bool_decide_eq_true_2 in E by done.
    assert (Hst' : S (p_start_idx s) <= p_start_idx s').
    { assert (Hl2 : looping (S (p_start_idx s)) k1
        {| p_entries := <[p_start_idx s := e1]> (p_entries s); p_start_idx := S (p_start_idx s); p_flow := fc1 |}).
      { pose proof (run_start _ _ HR). specialize (Hdone Hd ltac:(lia)).
        split; [|done|left; lia|done]. apply (running_bump k1 _ HR1); cbn; [lia|].
        rewrite (ph_lookup _ _ e1); [done|]. cbn. by rewrite list_lookup_insert_eq by lia. }
      destruct (progress_loop_ok o n _ k1 _ Ho Hl2) as (s3 & k3 & E3 & _ & HF3). rewrite E in E3. injection E3 as <-.
      apply (fol_start _ _ _ _ HF3). }
    unfold work. rewrite Hlen. destruct (phase_of e); destruct (ph s' (p_start_idx s')); lia.
  - assert (H1 : phase_of e1 = Flying) by naive_solver. assert (H0 : phase_of e <> Flying) by naive_solver congruence.
    rewrite bool_decide_eq_false_2 in E by congruence. cbn [negb orb] in E.
    assert (Hkeep : p_entries s' !! p_start_idx s = Some e1).
    { assert (Hset : <[p_start_idx s := e1]> (p_entries s) !! p_start_idx s = Some e1) by (by rewrite list_lookup_insert_eq by lia).
      destruct (e_barrier e1); cbn [andb] in E; [injection E as <-; exact Hset|].
      rewrite (progress_loop_below _ _ _ _ _ _ E) by lia. exact Hset. }
    assert (Hs' : p_start_idx s' = p_start_idx s).
    { destruct (decide (p_start_idx s < p_start_idx s')) as [Hx|]; [|lia]. exfalso.
      pose proof (run_prefix _ _ HR2 _ Hx) as Hd. rewrite (ph_lookup _ _ _ Hkeep) in Hd. congruence. }
    unfold work. rewrite Hlen, Hs', (ph_lookup _ _ _ Hkeep), H1. destruct (phase_of e); try done; lia.
Qed.

Lemma work_zero k s : running k s -> work s = 0 -> sched_finished s = true.
Proof.
  intros HR Hw. apply Nat.eqb_eq. pose proof (run_start _ _ HR). pose proof (run_len _ _ HR).
  unfold work in Hw. destruct (decide (p_start_idx s < len s)); [|lia]. destruct (ph s (p_start_idx s)); lia.
Qed.

(** C16: polling ends: with a transport that starts every operation when asked and completes it by the
    next poll, and at least one flow-control credit, two polls per entry finish the schedule from any
    reachable state. *)
Theorem polling_finishes s os :
  reachable s -> (forall o, o ∈ os -> forall i, responsive (o i)) -> 0 < max_credits (p_flow s) ->
  2 * length (p_entries s) <= length os ->
  exists s', poll os s = Ok s' /\ sched_finished s' = true.
Proof.
  intros [k HR]%reachable_running Hos Hmax Hn.
  assert (Hw : work s <= length os) by (unfold work; lia). clear Hn.
  revert k s HR Hmax Hw. induction os as [|o os IH]; intros k s HR Hmax Hw; cbn [poll].
  - exists s. split; [done|]. eapply work_zero; [exact HR|]. cbn [length] in Hw. lia.
  - assert (Hr : forall i, responsive (o i)) by (apply Hos; left).
    assert (Ho : oracle_ok o) by (intros i; by apply responsive_ok).
    destruct (do_progress_ok o k s Ho HR) as (s1 & k1 & E & HR1 & HF). rewrite E. cbn [result_bind].
    apply (IH ltac:(intros; apply Hos; by right) k1 s1 HR1).
    + by rewrite (fol_credits _ _ _ _ HF).
    + destruct (decide (p_start_idx s < len s)) as [Hlt|Hge].
      * pose proof (poll_works o k s s1 HR Hr Hmax Hlt E). cbn [length] in Hw. lia.
      * pose proof (fol_start _ _ _ _ HF). pose proof (fol_len _ _ _ _ HF). unfold work. lia.
Qed.

(** * Witnesses *)

(** Two entries, the first one a barrier, and two credits; [o_ex] completes everything at once. *)
Definition e_ex (b : bool) : sched_entry :=
  {| e_status := not_started; e_barrier := b; e_exec_mode := exec_regular; e_start_idx := 0 |}.
Definition s_ex : psched := {| p_entries := [e_ex true; e_ex false]; p_start_idx := 0; p_flow := set_max_credits 2 |}.
Definition o_ex : oracle := fun _ => {| on_start := complete; on_update := complete |}.
Definition s_done : psched := match do_progress o_ex s_ex with Ok s => s | Throw => s_ex end.

Lemma s_ex_reachable : reachable s_ex.
Proof.
  apply reach_fresh. split_and!; try done. intros e [->|[->|[]%not_elem_of_nil]%elem_of_cons]%elem_of_cons; done.
Qed.

Lemma o_ex_ok : oracle_ok o_ex.
Proof. intros i. split; auto. Qed.

Lemma s_done_reachable : reachable s_done.
Proof. eapply (reach_poll o_ex s_ex); [apply s_ex_reachable|apply o_ex_ok|reflexivity]. Qed.

Lemma do_progress_never_throws_witness :
  credits (p_flow s_ex) + used (p_entries s_ex) = max_credits (p_flow s_ex) /\ exists s', do_progress o_ex s_ex = Ok s'.
Proof. apply (do_progress_never_throws s_ex o_ex); [apply s_ex_reachable|apply o_ex_ok]. Defined.

Lemma barrier_not_overtaken_witness :
  begun s_done 1 /\ forall e, p_entries s_done !! 0 = Some e -> is_completed e = true.
Proof.
  assert (Hb : begun s_done 1) by (eexists; split; [reflexivity|by right]).
  split; [exact Hb|]. intros e. apply (barrier_not_overtaken s_done 0 1); [apply s_done_reachable|lia|reflexivity|exact Hb|lia].
Defined.

Lemma entries_start_in_order_witness :
  begun s_done 1 /\ forall e, p_entries s_done !! 0 = Some e -> e_status e <> not_started /\ e_status e <> again.
Proof.
  split; [eexists; split; [reflexivity|by right]|]. intros e. apply (entries_start_in_order s_done 0 1); [apply s_done_reachable|lia|]. eexists. split; [reflexivity|by right].
Defined.

Lemma do_progress_refines_network_witness :
  exists k k', running k s_ex /\ running k' s_done /\ rtc ctl_step (ctl_of k s_ex) (ctl_of k' s_done).
Proof. apply (do_progress_refines_network s_ex s_done o_ex); [apply s_ex_reachable|apply o_ex_ok|reflexivity]. Defined.

Lemma polling_finishes_witness :
  exists s', poll [o_ex; o_ex; o_ex; o_ex] s_ex = Ok s' /\ sched_finished s' = true.
Proof.
  apply (polling_finishes s_ex); [apply s_ex_reachable| |cbn; lia|cbn; lia].
  intros o Ho i. assert (o = o_ex) as ->; [|split; [by right|done]].
  repeat (apply elem_of_cons in Ho as [->|Ho]; [done|]). by apply not_elem_of_nil in Ho.
Defined.
