(* ===== verification/Request.v ===== *)
(** Requests and the reuse of cached schedules.

    Models [ccl_request] ([src/src/common/request/request.cpp]),
    [sched_restart_manager] ([src/src/sched/sched_restart_manager.cpp]) and the
    part of [ccl_sched] that starts, completes and restarts a cached master
    schedule ([start], [complete], [try_to_restart], [update_active_request],
    [reset_request], [prepare_subscheds] of [src/src/sched/sched.cpp]).

    A cached schedule has one set of parameters but may be called again while it
    runs: the call gets a delayed request and the parameters wait in a list.  The
    steps are the critical sections of the user thread and of the workers that
    complete the partial schedules.  The theorems: the calls run one after the
    other in the order they were made, each with its own parameters; a request
    completes only after its run; when everything has come to rest every call has
    run and its request is complete; and none of the checks fails. *)

From S2P Require Import Prelude.
From stdpp Require Import relations.
Open Scope ccl_scope.

(** * Requests *)

(** The completion counter of a request; the value before is checked to be positive. *)
Definition complete_counter (c : nat) : result nat := throw_if_not (0 <? c) ;; Ok (c - 1).
Definition increase_counter (increment c : nat) : result nat := throw_if_not (0 <? c) ;; Ok (c + increment).
Definition set_counter (counter c : nat) : result nat := throw_if_not (c =? 0) ;; Ok (counter + 1).
Definition request_is_completed (c : nat) : bool := c =? 0.

(** * A cached master schedule *)

Section restart.
Context {A : Type}.

(** Requests are numbered in the order of their creation and [counters] has one for each.
    [sub_counters] are the counters of the partial schedules' own requests.  [calls] and [runs] are
    logs: the request a call returned with the call's parameters, and the request and the parameters
    of each execution. *)
Record msched := mk_msched {
  counters : list nat;
  active : nat;
  delayed_requests : list nat;
  in_progress : bool;
  params : A;
  launch_params : list A;
  sub_counters : list nat;
  calls : list (nat * A);
  runs : list (nat * A) }.

(** [new ccl_request]: the counter starts at 0. *)
Definition new_request (s : msched) : nat * msched :=
  (length (counters s),
   mk_msched (counters s ++ [0]) (active s) (delayed_requests s) (in_progress s) (params s) (launch_params s)
             (sub_counters s) (calls s) (runs s)).

Definition upd_counter (r : nat) (f : nat -> result nat) (s : msched) : result (nat * msched) :=
  match counters s !! r with
  | None => Throw
  | Some c => c' <-! f c ;;
    Ok (c', mk_msched (<[r := c']> (counters s)) (active s) (delayed_requests s) (in_progress s) (params s)
                      (launch_params s) (sub_counters s) (calls s) (runs s))
  end.

Definition calculate_request_count (s : msched) : nat := 1 `max` length (sub_counters s).

(** ** [sched_restart_manager] *)

Definition add_launch_params (p : A) (s : msched) : result msched :=
  if in_progress s then
    Ok (mk_msched (counters s) (active s) (delayed_requests s) (in_progress s) (params s) (launch_params s ++ [p])
                  (sub_counters s) (calls s) (runs s))
  else
    throw_if_not (match delayed_requests s with [] => true | _ => false end) ;;
    Ok (mk_msched (counters s) (active s) (delayed_requests s) (in_progress s) p (launch_params s)
                  (sub_counters s) (calls s) (runs s)).

Definition update_launch_params (s : msched) : msched :=
  match launch_params s with
  | [] => s
  | p :: l => mk_msched (counters s) (active s) (delayed_requests s) (in_progress s) p l
                        (sub_counters s) (calls s) (runs s)
  end.

Definition make_delayed_request (s : msched) : result (nat * msched) :=
  let '(r, s) := new_request s in
  x <-! upd_counter r (set_counter (calculate_request_count s)) s ;;
  let s := x.2 in
  Ok (r, mk_msched (counters s) (active s) (delayed_requests s ++ [r]) (in_progress s) (params s) (launch_params s)
                   (sub_counters s) (calls s) (runs s)).

(** [update_active_request]: the next delayed request or a new one. *)
Definition update_active_request (use_delayed : bool) (s : msched) : result msched :=
  if use_delayed then
    match delayed_requests s with
    | [] => Throw
    | r :: l => Ok (mk_msched (counters s) r l (in_progress s) (params s) (launch_params s) (sub_counters s)
                              (calls s) (runs s))
    end
  else
    let '(r, s) := new_request s in
    Ok (mk_msched (counters s) r (delayed_requests s) (in_progress s) (params s) (launch_params s) (sub_counters s)
                  (calls s) (runs s)).

Definition set_in_progress (b : bool) (s : msched) : msched :=
  mk_msched (counters s) (active s) (delayed_requests s) b (params s) (launch_params s) (sub_counters s)
            (calls s) (runs s).

(** [preprocess]: the delayed request, or [None] when the schedule is to be started now. *)
Definition preprocess (restart : bool) (s : msched) : result (option nat * msched) :=
  if negb restart && in_progress s then
    x <-! make_delayed_request s ;; Ok (Some x.1, x.2)
  else
    s <-! (if restart then update_active_request true s else Ok s) ;;
    Ok (None, update_launch_params (set_in_progress true s)).

(** [check_delayed_requests]: whether there is one; if not, the schedule becomes free. *)
Definition check_delayed_requests (s : msched) : result (bool * msched) :=
  match delayed_requests s with
  | [] => s' <-! update_active_request false s ;; Ok (false, set_in_progress false s')
  | _ => Ok (true, s)
  end.

(** ** [ccl_sched] *)

(** [prepare_subscheds]: [renew] resets the request of every partial schedule (a partial schedule has no
    sub-schedules of its own, so its count is 1). *)
Fixpoint reset_subs (l : list nat) : result (list nat) :=
  match l with
  | [] => Ok []
  | c :: l' => c' <-! set_counter 1 c ;; l'' <-! reset_subs l' ;; Ok (c' :: l'')
  end.

(** [ccl_sched::start] with [reset_sched], which every caller passes: the request of the call.  The
    execution is logged when the partial schedules are handed to the executor. *)
Definition start (restart : bool) (s : msched) : result (nat * msched) :=
  x <-! preprocess restart s ;;
  match x with
  | (Some r, s) => Ok (r, s)
  | (None, s) =>
    subs <-! reset_subs (sub_counters s) ;;
    let s := mk_msched (counters s) (active s) (delayed_requests s) (in_progress s) (params s) (launch_params s)
                       subs (calls s) (runs s) in
    s <-! (if restart then Ok s
           else y <-! upd_counter (active s) (set_counter (calculate_request_count s)) s ;; Ok y.2) ;;
    Ok (active s, mk_msched (counters s) (active s) (delayed_requests s) (in_progress s) (params s) (launch_params s)
                            (sub_counters s) (calls s) (runs s ++ [(active s, params s)]))
  end.

Definition try_to_restart (s : msched) : result msched :=
  x <-! check_delayed_requests s ;;
  if x.1 then (y <-! start true x.2 ;; Ok y.2) else Ok x.2.

(** [ccl_sched::complete] of partial schedule [i], up to the test of the parent's counter: the request it
    read when it was the last one. *)
Definition complete_sub (i : nat) (s : msched) : result (option nat * msched) :=
  match sub_counters s !! i with
  | None => Throw
  | Some c =>
    c1 <-! complete_counter c ;;
    if c1 =? 1 then
      c2 <-! complete_counter c1 ;;
      throw_if_not (c2 =? 0) ;;
      let s := mk_msched (counters s) (active s) (delayed_requests s) (in_progress s) (params s) (launch_params s)
                         (<[i := c2]> (sub_counters s)) (calls s) (runs s) in
      let parent_req := active s in
      x <-! upd_counter parent_req complete_counter s ;;
      Ok (if x.1 =? 1 then Some parent_req else None, x.2)
    else
      Ok (None, mk_msched (counters s) (active s) (delayed_requests s) (in_progress s) (params s) (launch_params s)
                          (<[i := c1]> (sub_counters s)) (calls s) (runs s))
  end.

(** * The user thread and the workers *)

(** [u_call]: the parameters of a call that looked the schedule up and has not started it yet;
    [draining]: the request of the run whose last partial schedule is being completed;
    [finishing]: requests that only miss their last decrement. *)
Record system := mk_sys { ms : msched; u_call : option A; draining : option nat; finishing : list nat }.

Definition log_call (r : nat) (p : A) (s : msched) : msched :=
  mk_msched (counters s) (active s) (delayed_requests s) (in_progress s) (params s) (launch_params s)
            (sub_counters s) (calls s ++ [(r, p)]) (runs s).

Inductive rstep : system -> system -> Prop :=
| user_create p s s' dr fin :
    add_launch_params p s = Ok s' -> rstep (mk_sys s None dr fin) (mk_sys s' (Some p) dr fin)
| user_start p s r s' dr fin :
    start false s = Ok (r, s') -> rstep (mk_sys s (Some p) dr fin) (mk_sys (log_call r p s') None dr fin)
| worker_complete i s o s' u fin :
    sub_counters s !! i = Some 2 -> complete_sub i s = Ok (o, s') -> rstep (mk_sys s u None fin) (mk_sys s' u o fin)
| worker_restart r s s' u fin :
    try_to_restart s = Ok s' -> rstep (mk_sys s u (Some r) fin) (mk_sys s' u None (r :: fin))
| worker_finish r c s s' u dr fin1 fin2 :
    upd_counter r complete_counter s = Ok (c, s') ->
    rstep (mk_sys s u dr (fin1 ++ r :: fin2)) (mk_sys s' u dr (fin1 ++ fin2)).

Definition rs_initial (x : system) : Prop :=
  exists p n, 0 < n /\ x = mk_sys (mk_msched [0] 0 [] false p [] (replicate n 0) [] []) None None [].
Definition rs_reachable (x : system) : Prop := exists x0, rs_initial x0 /\ rtc rstep x0 x.

(** * Invariant *)

(** The parameters of the calls that wait for their run, and where they are kept. *)
Definition params_ok (s : msched) (u : option A) (waiting : list A) : Prop :=
  if in_progress s then
    launch_params s = waiting ++ option_list u /\ exists rs, runs s = rs ++ [(active s, params s)]
  else
    delayed_requests s = [] /\
    match u with None => launch_params s = [] | Some p => (launch_params s = [] /\ params s = p) \/ launch_params s = [p] end.

(** The counter of the running request counts the partial schedules still at work. *)
Definition active_ok (s : msched) (dr : option nat) : Prop :=
  exists k, sum_list (sub_counters s) = 2 * k /\
  if in_progress s then
    counters s !! active s = Some (k + 1) /\ match dr with None => 0 < k | Some r => r = active s /\ k = 0 end
  else k = 0 /\ dr = None /\ counters s !! active s = Some 0 /\ (active s ∉ (calls s).*1).

Record sys_inv (x : system) : Prop := {
  i_subs : 0 < length (sub_counters (ms x)) /\ Forall (fun c => c = 0 \/ c = 2) (sub_counters (ms x));
  i_calls : exists waiting, length waiting = length (delayed_requests (ms x)) /\
    calls (ms x) = runs (ms x) ++ zip (delayed_requests (ms x)) waiting /\ params_ok (ms x) (u_call x) waiting;
  i_nodup : NoDup (calls (ms x)).*1 /\ Forall (fun r => r < length (counters (ms x))) (calls (ms x)).*1;
  i_active : active_ok (ms x) (draining x);
  i_delayed : Forall (fun r => counters (ms x) !! r = Some (length (sub_counters (ms x)) + 1)) (delayed_requests (ms x));
  i_runs : forall r, r ∈ (runs (ms x)).*1 ->
    (in_progress (ms x) = true /\ r = active (ms x)) \/ (r ∈ finishing x /\ counters (ms x) !! r = Some 1) \/
    ((r ∉ finishing x) /\ counters (ms x) !! r = Some 0);
  i_finishing : NoDup (finishing x) /\ forall r, r ∈ finishing x ->
    r ∈ (runs (ms x)).*1 /\ ~ (in_progress (ms x) = true /\ r = active (ms x)) }.

(** * Lemmas *)

Lemma sum_list_insert (l : list nat) i a b : l !! i = Some a -> sum_list (<[i := b]> l) + a = sum_list l + b.
Proof. revert i. induction l as [|c l IH]; intros [|i]; cbn; [done..|intros [= ->]; lia|].
  intros H. rewrite <- !Nat.add_assoc. f_equal. by apply IH.
Qed.

Lemma sum_list_zero l : sum_list l = 0 -> Forall (fun c => c = 0) l.
Proof. induction l as [|c l IH]; cbn; [constructor|]. intros H. constructor; [lia|]. apply IH. lia. Qed.

Lemma reset_subs_ok l : Forall (fun c => c = 0) l -> reset_subs l = Ok (replicate (length l) 2).
Proof. induction 1 as [|c l -> _ IH]; [done|]. cbn [reset_subs]. cbn. by rewrite IH. Qed.

Lemma sum_list_replicate n : sum_list (replicate n 2) = 2 * n.
Proof. induction n; cbn; lia. Qed.

Lemma rs_initial_inv x : rs_initial x -> sys_inv x.
Proof.
  intros (p & n & Hn & ->). split; cbn; try done.
  - rewrite length_replicate. split; [done|]. apply Forall_replicate. by left.
  - by exists [].
  - split; constructor.
  - exists 0. cbn. repeat split; [|apply not_elem_of_nil]. clear. by induction n.
  - intros r Hr. by apply not_elem_of_nil in Hr.
  - split; [constructor|]. intros r Hr. by apply not_elem_of_nil in Hr.
Qed.

Lemma user_create_inv p s dr fin : sys_inv (mk_sys s None dr fin) ->
  exists s', add_launch_params p s = Ok s' /\ sys_inv (mk_sys s' (Some p) dr fin).
Proof.
  intros [Hsub (w & Hw & Hc & Hp) Hnd Hact Hdel Hrun Hfin]. cbn in *. unfold add_launch_params, params_ok in *.
  destruct s as [cs act del ip ps lp subs cl rn]. cbn in *. destruct ip.
  - destruct Hp as [-> Hrs]. eexists. split; [done|]. split; cbn; try done. exists w. unfold params_ok. cbn.
    rewrite app_nil_r. auto.
  - destruct Hp as [-> ->]. eexists. split; [done|]. split; cbn; try done. exists w. unfold params_ok. cbn.
    split; [done|]. split; [done|]. auto.
Qed.
Lemma zip_snoc {X Y} (l : list X) (k : list Y) x y :
  length k = length l -> zip (l ++ [x]) (k ++ [y]) = zip l k ++ [(x, y)].
Proof. intros H. by rewrite zip_with_app by done. Qed.

(** A call of the running schedule is delayed. *)
Lemma start_delayed_inv p s dr fin : in_progress s = true -> sys_inv (mk_sys s (Some p) dr fin) ->
  exists r s', start false s = Ok (r, s') /\ sys_inv (mk_sys (log_call r p s') None dr fin).
Proof.
  intros Hip [[Hn Hsub] (w & Hw & Hc & Hp) [Hnd Hbd] Hact Hdel Hrun Hfin]. cbn in *.
  unfold params_ok, active_ok in *. destruct s as [cs act del ip ps lp subs cl rn]. cbn in *. subst ip.
  unfold start, preprocess, make_delayed_request, new_request, upd_counter, calculate_request_count. cbn.
  rewrite lookup_app_r, Nat.sub_diag by done. cbn. rewrite insert_app_r_alt, Nat.sub_diag by done. cbn.
  replace (1 `max` length subs) with (length subs) by lia.
  assert (Hkeep : forall r v x, cs !! r = Some v -> (cs ++ [x]) !! r = Some v) by (intros; by apply lookup_app_l_Some).
  destruct Hp as [-> Hrs]. destruct Hact as (k & Hk & Hca & Hdr). eexists _, _. split; [done|]. unfold log_call. cbn.
  split; cbn.
  - done.
  - exists (w ++ [p]). rewrite !length_app, zip_snoc, Hc, Hw, app_assoc by done. unfold params_ok. cbn. by rewrite app_nil_r.
  - rewrite fmap_app, length_app. cbn. split.
    + apply NoDup_app. split; [done|]. split; [|apply NoDup_singleton]. intros r Hr ->%list_elem_of_singleton.
      rewrite Forall_forall in Hbd. apply Hbd in Hr. lia.
    + apply Forall_app. split; [|constructor; [lia|constructor]]. eapply Forall_impl; [exact Hbd|]. cbn. lia.
  - exists k. cbn. auto.
  - apply Forall_app. split; [|constructor; [|constructor]].
    + eapply Forall_impl; [exact Hdel|]. cbn. auto.
    + by rewrite lookup_app_r, Nat.sub_diag by done.
  - intros r Hr. destruct (Hrun r Hr) as [?|[[? ?]|[? ?]]]; [by left|right; left|right; right]; auto.
  - done.
Qed.

(** A call of the free schedule runs. *)
Lemma start_now_inv p s dr fin : in_progress s = false -> sys_inv (mk_sys s (Some p) dr fin) ->
  exists r s', start false s = Ok (r, s') /\ sys_inv (mk_sys (log_call r p s') None dr fin).
Proof.
  intros Hip [[Hn Hsub] (w & Hw & Hc & Hp) [Hnd Hbd] Hact Hdel Hrun [Hf1 Hf2]]. cbn in *.
  unfold params_ok, active_ok in *. destruct s as [cs act del ip ps lp subs cl rn]. cbn in *. subst ip.
  destruct Hp as [-> Hlp], Hact as (k & Hk & -> & -> & Hca & Hnew). destruct w; [|done]. cbn in Hc. rewrite app_nil_r in Hc. subst cl.
  unfold start, preprocess. cbn.
  assert (update_launch_params (set_in_progress true (mk_msched cs act [] false ps lp subs rn rn)) =
          mk_msched cs act [] true p [] subs rn rn) as -> by (by destruct Hlp as [[-> ->]| ->]).
  cbn. rewrite (reset_subs_ok subs (sum_list_zero _ Hk)). cbn. unfold upd_counter. cbn. rewrite Hca. cbn.
  unfold calculate_request_count. cbn. rewrite length_replicate. replace (1 `max` length subs) with (length subs) by lia.
  pose proof (lookup_lt_Some _ _ _ Hca) as Hlt.
  eexists _, _. split; [done|]. unfold log_call. cbn. split; cbn; rewrite ?length_replicate, ?length_insert, ?fmap_app.
  - split; [done|]. apply Forall_replicate. by right.
  - exists []. rewrite app_nil_r. cbn. split; [done|]. split; [done|]. unfold params_ok. cbn. split; [done|]. by eexists.
  - cbn. split.
    + apply NoDup_app. split; [done|]. split; [|apply NoDup_singleton]. intros r Hr ->%list_elem_of_singleton. done.
    + apply Forall_app. split; [done|]. by repeat constructor.
  - exists (length subs). cbn. rewrite sum_list_replicate, list_lookup_insert_eq by done. done.
  - constructor.
  - intros r. cbn. rewrite elem_of_app, list_elem_of_singleton. intros [Hr| ->]; [|by left].
    assert (r <> act) by congruence. rewrite list_lookup_insert_ne by done.
    destruct (Hrun r Hr) as [[? _]|[?|?]]; [done|right; by left|right; by right].
  - split; [done|]. intros r Hr. destruct (Hf2 r Hr) as [Hr' _]. rewrite elem_of_app. split; [by left|].
    intros [_ ->]. done.
Qed.
Lemma worker_complete_inv i s u fin : sub_counters s !! i = Some 2 -> sys_inv (mk_sys s u None fin) ->
  exists o s', complete_sub i s = Ok (o, s') /\ sys_inv (mk_sys s' u o fin).
Proof.
  intros Hi [[Hn Hsub] (w & Hw & Hc & Hp) [Hnd Hbd] (k & Hk & Hact) Hdel Hrun Hfin]. cbn in *.
  pose proof (sum_list_insert _ _ _ 0 Hi) as Hsum. destruct (in_progress s) eqn:Hip; [|lia].
  destruct Hact as [Hca Hk0]. unfold params_ok in Hp. destruct s as [cs act del ip ps lp subs cl rn]. cbn in *. subst ip.
  rewrite Nat.add_1_r in Hca. unfold complete_sub, upd_counter. cbn. rewrite Hi. cbn. rewrite Hca. cbn. rewrite Nat.sub_0_r.
  pose proof (lookup_lt_Some _ _ _ Hca) as Hlt.
  assert (Hother : forall r v, r <> act -> cs !! r = Some v -> <[act := k]> cs !! r = Some v)
    by (intros; by rewrite list_lookup_insert_ne).
  destruct Hp as [Hp (rs & Hrs)].
  assert (Hact_run : act ∈ rn.*1) by (rewrite Hrs, fmap_app; set_solver).
  assert (Hdel' : forall r, r ∈ del -> r <> act).
  { intros r Hr ->. rewrite Hc, fmap_app in Hnd. apply NoDup_app in Hnd as (_ & Hnd & _). apply (Hnd act Hact_run).
    by rewrite fst_zip by lia. }
  eexists _, _. split; [done|]. split; cbn; rewrite ?length_insert.
  - split; [done|]. apply Forall_insert; auto.
  - exists w. split; [done|]. split; [done|]. unfold params_ok. cbn. eauto.
  - done.
  - exists (k - 1). cbn. rewrite list_lookup_insert_eq by done. split; [lia|]. split; [f_equal; lia|].
    destruct (Nat.eqb_spec k 1); [split; [done|lia]|lia].
  - apply Forall_forall. intros r Hr. rewrite Forall_forall in Hdel. auto.
  - intros r Hr. destruct (decide (r = act)) as [->|Hne]; [by left|].
    destruct (Hrun r Hr) as [[_ ?]|[[? ?]|[? ?]]]; [done|right; left; auto|right; right; auto].
  - done.
Qed.

(** The last partial schedule is done and no call waits: the schedule becomes free. *)
Lemma worker_free_inv r s u fin : delayed_requests s = [] -> sys_inv (mk_sys s u (Some r) fin) ->
  exists s', try_to_restart s = Ok s' /\ sys_inv (mk_sys s' u None (r :: fin)).
Proof.
  intros Hd [Hsub (w & Hw & Hc & Hp) [Hnd Hbd] (k & Hk & Hact) Hdel Hrun [Hf1 Hf2]]. cbn in *.
  destruct (in_progress s) eqn:Hip; [|naive_solver]. destruct Hact as [Hca [-> ->]].
  unfold params_ok in Hp. destruct s as [cs act del ip ps lp subs cl rn]. cbn in *. subst ip del.
  destruct w; [|done]. cbn in Hc. rewrite app_nil_r in Hc. subst cl. destruct Hp as [-> (rs & Hrs)]. cbn [app].
  assert (Hact_run : act ∈ rn.*1) by (rewrite Hrs, fmap_app; set_solver).
  assert (Hfresh : length cs ∉ rn.*1).
  { intros Hin. rewrite Forall_forall in Hbd. specialize (Hbd _ Hin). lia. }
  assert (Hkeep : forall r v, cs !! r = Some v -> (cs ++ [0]) !! r = Some v) by (intros; by apply lookup_app_l_Some).
  unfold try_to_restart, check_delayed_requests, update_active_request, new_request, set_in_progress. cbn.
  eexists. split; [done|]. split; cbn; rewrite ?length_app.
  - done.
  - exists []. cbn. rewrite app_nil_r. split; [done|]. split; [done|]. unfold params_ok. cbn. split; [done|]. destruct u; auto.
  - split; [done|]. eapply Forall_impl; [exact Hbd|]. cbn. lia.
  - exists 0. cbn. rewrite lookup_app_r, Nat.sub_diag by done. done.
  - constructor.
  - intros r Hr. right. destruct (Hrun r Hr) as [[_ ->]|[[? ?]|[Hnf H0]]].
    + left. split; [left|]. by apply Hkeep.
    + left. split; [by right|auto].
    + right. split; [|auto]. apply not_elem_of_cons. split; [|done]. intros ->. rewrite Hca in H0. done.
  - split.
    + constructor; [|done]. intros Hin. destruct (Hf2 _ Hin) as [_ []]. done.
    + intros r [->|Hr]%elem_of_cons; [naive_solver|]. split; [by apply Hf2|naive_solver].
Qed.

(** ... or the next call runs, with its parameters. *)
Lemma worker_restart_inv r d l s u fin : delayed_requests s = d :: l -> sys_inv (mk_sys s u (Some r) fin) ->
  exists s', try_to_restart s = Ok s' /\ sys_inv (mk_sys s' u None (r :: fin)).
Proof.
  intros Hd [[Hn Hsub] (w & Hw & Hc & Hp) [Hnd Hbd] (k & Hk & Hact) Hdel Hrun [Hf1 Hf2]]. cbn in *.
  destruct (in_progress s) eqn:Hip; [|naive_solver]. destruct Hact as [Hca [-> ->]].
  unfold params_ok in Hp. destruct s as [cs act del ip ps lp subs cl rn]. cbn in *. subst ip del.
  destruct w as [|p w]; [done|]. cbn in Hc. destruct Hp as [-> (rs & Hrs)].
  assert (Hact_run : act ∈ rn.*1) by (rewrite Hrs, fmap_app; set_solver).
  apply Forall_cons in Hdel as [Hcd Hdel].
  assert (Hd_new : d ∉ rn.*1).
  { intros Hin. rewrite Hc, fmap_app in Hnd. apply NoDup_app in Hnd as (_ & Hnd & _). apply (Hnd d Hin). left. }
  unfold try_to_restart, check_delayed_requests. cbn. unfold start, preprocess. cbn.
  rewrite (reset_subs_ok subs (sum_list_zero _ Hk)). cbn.
  eexists. split; [done|]. split; cbn; rewrite ?length_replicate, ?fmap_app.
  - split; [done|]. apply Forall_replicate. by right.
  - exists w. split; [by injection Hw|]. rewrite Hc, <- app_assoc. split; [done|]. unfold params_ok. cbn. split; [done|]. by eexists.
  - done.
  - exists (length subs). cbn. by rewrite sum_list_replicate.
  - done.
  - intros r. cbn. rewrite elem_of_app, list_elem_of_singleton. intros [Hr| ->]; [|by left]. right.
    destruct (Hrun r Hr) as [[_ ->]|[[? ?]|[Hnf H0]]].
    + left. split; [left|done].
    + left. split; [by right|done].
    + right. split; [|done]. apply not_elem_of_cons. split; [|done]. intros ->. congruence.
  - split.
    + constructor; [|done]. intros Hin. destruct (Hf2 _ Hin) as [_ []]. done.
    + intros r Hr. rewrite elem_of_app. apply elem_of_cons in Hr as [->|Hr].
      * split; [by left|]. intros [_ ->]. done.
      * destruct (Hf2 r Hr) as [Hr' _]. split; [by left|]. intros [_ ->]. done.
Qed.

Lemma worker_finish_inv r s u dr fin1 fin2 : sys_inv (mk_sys s u dr (fin1 ++ r :: fin2)) ->
  exists s', upd_counter r complete_counter s = Ok (0, s') /\ sys_inv (mk_sys s' u dr (fin1 ++ fin2)).
Proof.
  intros [[Hn Hsub] (w & Hw & Hc & Hp) [Hnd Hbd] (k & Hk & Hact) Hdel Hrun [Hf1 Hf2]]. cbn in *.
  destruct (Hf2 r ltac:(set_solver)) as [Hr_run Hr_act].
  destruct (Hrun r Hr_run) as [?|[[_ Hr1]|[Hno _]]]; [done| |set_solver].
  rewrite <- Permutation_middle in Hf1. apply NoDup_cons in Hf1 as [Hr_fin Hf1].
  destruct s as [cs act del ip ps lp subs cl rn]. cbn in *. unfold upd_counter. cbn. rewrite Hr1. cbn.
  pose proof (lookup_lt_Some _ _ _ Hr1) as Hlt.
  assert (Hr_ne : r <> act) by (intros ->; destruct ip; [naive_solver|]; destruct Hact as (_ & _ & H0 & _); congruence).
  assert (Hother : forall q v, q <> r -> cs !! q = Some v -> <[r := 0]> cs !! q = Some v)
    by (intros; by rewrite list_lookup_insert_ne).
  eexists. split; [done|]. split; cbn; rewrite ?length_insert.
  - done.
  - by exists w.
  - done.
  - exists k. cbn. split; [done|]. destruct ip; [naive_solver|]. naive_solver.
  - apply Forall_forall. intros q Hq. rewrite Forall_forall in Hdel. pose proof (Hdel q Hq) as Hq'. apply Hother; [|done].
    intros ->. rewrite Hr1 in Hq'. injection Hq' as Hq'. lia.
  - intros q Hq. destruct (decide (q = r)) as [->|Hne].
    + right. right. split; [done|]. by apply list_lookup_insert_eq.
    + destruct (Hrun q Hq) as [?|[[? ?]|[? ?]]]; [by left|right; left|right; right]; (split; [set_solver|auto]).
  - split; [done|]. intros q Hq. apply Hf2. set_solver.
Qed.
Lemma user_start_inv p s dr fin : sys_inv (mk_sys s (Some p) dr fin) ->
  exists r s', start false s = Ok (r, s') /\ sys_inv (mk_sys (log_call r p s') None dr fin).
Proof. destruct (in_progress s) eqn:E; [by apply start_delayed_inv|by apply start_now_inv]. Qed.

Lemma worker_drain_inv r s u fin : sys_inv (mk_sys s u (Some r) fin) ->
  exists s', try_to_restart s = Ok s' /\ sys_inv (mk_sys s' u None (r :: fin)).
Proof. destruct (delayed_requests s) eqn:E; [by apply worker_free_inv|by eapply worker_restart_inv]. Qed.

Lemma rstep_inv x y : sys_inv x -> rstep x y -> sys_inv y.
Proof.
  intros Hx Hs. destruct Hs as [p s s' dr fin E|p s r s' dr fin E|i s o s' u fin Hi E|r s s' u fin E|r c s s' u dr fin1 fin2 E].
  - destruct (user_create_inv p s dr fin Hx) as (? & E' & ?). congruence.
  - destruct (user_start_inv p s dr fin Hx) as (? & ? & E' & ?). congruence.
  - destruct (worker_complete_inv i s u fin Hi Hx) as (? & ? & E' & ?). congruence.
  - destruct (worker_drain_inv r s u fin Hx) as (? & E' & ?). congruence.
  - destruct (worker_finish_inv r s u dr fin1 fin2 Hx) as (? & E' & ?). congruence.
Qed.

Lemma rs_reachable_inv x : rs_reachable x -> sys_inv x.
Proof.
  intros (x0 & H0%rs_initial_inv & Hr). induction Hr as [x|x y z Hs _ IH]; [done|]. apply IH. by eapply rstep_inv.
Qed.

(** C21: the executions of a cached schedule are those of the calls, in the order of the calls, each with the
    request the call returned and the parameters the call gave: in every reachable state the log of
    executions is a prefix of the log of calls. *)
Theorem cached_calls_run_in_order x : rs_reachable x -> runs (ms x) `prefix_of` calls (ms x).
Proof. intros [_ (w & _ & -> & _) _ _ _ _ _]%rs_reachable_inv. by apply prefix_app_r. Qed.

(** A request that a call returned completes only after its execution: when its counter is 0, the call
    has been executed and its execution is not the one in progress. *)
Theorem request_completes_after_run x r p :
  rs_reachable x -> (r, p) ∈ calls (ms x) -> option_map request_is_completed (counters (ms x) !! r) = Some true ->
  (r, p) ∈ runs (ms x) /\ ~ (in_progress (ms x) = true /\ active (ms x) = r).
Proof.
  intros [[Hn _] (w & Hw & Hc & _) _ (k & _ & Hact) Hdel _ _]%rs_reachable_inv Hr H0.
  destruct (counters (ms x) !! r) as [c|] eqn:Ec; [|done]. cbn in H0. injection H0 as ->%Nat.eqb_eq. split.
  - rewrite Hc in Hr. apply elem_of_app in Hr as [?|Hr%elem_of_zip_l]; [done|].
    rewrite Forall_forall in Hdel. specialize (Hdel r Hr). rewrite Ec in Hdel. injection Hdel as ?. lia.
  - intros [Hip <-]. rewrite Hip in Hact. destruct Hact as [Ha _]. rewrite Ec in Ha. injection Ha as ?. lia.
Qed.

(** C22: at rest - no partial schedule running and no worker inside [complete] - every call has been executed,
    every request a call returned is complete and the schedule is free: no delayed call is forgotten. *)
Theorem no_call_forgotten x :
  rs_reachable x -> sum_list (sub_counters (ms x)) = 0 -> draining x = None -> finishing x = [] ->
  runs (ms x) = calls (ms x) /\ in_progress (ms x) = false /\
  forall r, r ∈ (calls (ms x)).*1 -> option_map request_is_completed (counters (ms x) !! r) = Some true.
Proof.
  intros [_ (w & Hw & Hc & Hp) _ (k & Hk & Hact) _ Hrun _]%rs_reachable_inv H0 Hd Hf. rewrite Hd in Hact. rewrite Hf in Hrun.
  destruct (in_progress (ms x)) eqn:Hip; [lia|]. unfold params_ok in Hp. rewrite Hip in Hp. destruct Hp as [Hdel _].
  rewrite Hdel in Hc. cbn in Hc. rewrite app_nil_r in Hc. rewrite Hc. split; [done|]. split; [done|].
  intros r Hr. destruct (Hrun r Hr) as [[? _]|[[Hn _]|[_ ->]]]; [done|by apply not_elem_of_nil in Hn|done].
Qed.

(** No check fails: in every reachable state whichever thread moves next succeeds. *)
Theorem restart_never_throws x :
  rs_reachable x ->
  (forall p, u_call x = None -> exists s', add_launch_params p (ms x) = Ok s') /\
  (u_call x <> None -> exists r s', start false (ms x) = Ok (r, s')) /\
  (forall i, sub_counters (ms x) !! i = Some 2 -> draining x = None -> exists o s', complete_sub i (ms x) = Ok (o, s')) /\
  (draining x <> None -> exists s', try_to_restart (ms x) = Ok s') /\
  (forall r, r ∈ finishing x -> exists s', upd_counter r complete_counter (ms x) = Ok (0, s')).
Proof.
  intros Hx%rs_reachable_inv. destruct x as [s u dr fin]. cbn. split; [|split; [|split; [|split]]].
  - intros p ->. destruct (user_create_inv p s dr fin Hx) as (s' & ? & _). by exists s'.
  - intros Hu. destruct u as [p|]; [|done]. destruct (user_start_inv p s dr fin Hx) as (r & s' & ? & _). by exists r, s'.
  - intros i Hi ->. destruct (worker_complete_inv i s u fin Hi Hx) as (o & s' & ? & _). by exists o, s'.
  - intros Hd. destruct dr as [r|]; [|done]. destruct (worker_drain_inv r s u fin Hx) as (s' & ? & _). by exists s'.
  - intros r Hr. apply list_elem_of_split in Hr as (l1 & l2 & ->).
    destruct (worker_finish_inv r s u dr l1 l2 Hx) as (s' & ? & _). by exists s'.
Qed.
End restart.

Arguments msched : clear implicits.
Arguments system : clear implicits.

(** * A concrete run: two calls of a schedule with two parts, the second one delayed *)

Definition sys0 : system nat := mk_sys (mk_msched [0] 0 [] false 0 [] [0; 0] [] []) None None [].
Definition sys_end : system nat :=
  mk_sys (mk_msched [0; 0; 0] 2 [] false 20 [] [0; 0] [(0, 10); (1, 20)] [(0, 10); (1, 20)]) None None [].

Lemma sys_end_reachable : rs_reachable sys_end.
Proof.
  exists sys0. split; [exists 0, 2; split; [lia|reflexivity]|].
  eapply rtc_l; [apply (user_create 10); vm_compute; reflexivity|cbn].
  eapply rtc_l; [eapply user_start; vm_compute; reflexivity|cbn].
  eapply rtc_l; [eapply (worker_complete 1); vm_compute; reflexivity|cbn].
  eapply rtc_l; [apply (user_create 20); vm_compute; reflexivity|cbn].
  eapply rtc_l; [eapply user_start; vm_compute; reflexivity|cbn].
  eapply rtc_l; [eapply (worker_complete 0); vm_compute; reflexivity|cbn].
  eapply rtc_l; [apply worker_restart; vm_compute; reflexivity|cbn].
  eapply rtc_l; [eapply (worker_finish 0 _ _ _ _ _ [] []); vm_compute; reflexivity|cbn].
  eapply rtc_l; [eapply (worker_complete 0); vm_compute; reflexivity|cbn].
  eapply rtc_l; [eapply (worker_complete 1); vm_compute; reflexivity|cbn].
  eapply rtc_l; [apply worker_restart; vm_compute; reflexivity|cbn].
  eapply rtc_l; [eapply (worker_finish 1 _ _ _ _ _ [] []); vm_compute; reflexivity|cbn].
  apply rtc_refl.
Defined.

Lemma cached_calls_run_in_order_witness : runs (ms sys_end) `prefix_of` calls (ms sys_end).
Proof. apply (cached_calls_run_in_order sys_end), sys_end_reachable. Defined.

Lemma request_completes_after_run_witness :
  (1, 20) ∈ runs (ms sys_end) /\ ~ (in_progress (ms sys_end) = true /\ active (ms sys_end) = 1).
Proof. apply (request_completes_after_run sys_end 1 20); [apply sys_end_reachable|right; left|reflexivity]. Defined.

Lemma no_call_forgotten_witness :
  runs (ms sys_end) = calls (ms sys_end) /\ in_progress (ms sys_end) = false /\
  forall r, r ∈ (calls (ms sys_end)).*1 -> option_map request_is_completed (counters (ms sys_end) !! r) = Some true.
Proof. apply (no_call_forgotten sys_end); [apply sys_end_reachable|reflexivity..]. Defined.

Lemma restart_never_throws_witness : exists s', add_launch_params 30 (ms sys_end) = Ok s'.
Proof. apply (restart_never_throws sys_end); [apply sys_end_reachable|reflexivity]. Defined.
