(* ===== verification/Queue.v ===== *)
(** The schedule queue of a worker: priority bins.

    Models [ccl_sched_bin] and [ccl_sched_queue]
    ([src/src/sched/queue/queue.hpp], [queue.cpp]) and
    [ccl_sched_base::get_priority].  Schedules are objects shared by the queue
    and its users, so they live in a store indexed by pointers; a bin is
    identified by its key in [bins].  [CCL_ASSERT] is a check that throws, as in
    a debug build.

    User threads add schedules while the worker erases finished ones: [qstep] has
    one step per critical section.  The theorems: in every interleaving
    [max_priority] is the largest key of [bins] and [peek] returns its bin, no
    check fails, the search for the next priority ends, and the bins hold exactly
    the schedules whose [bin] field says so. *)

From S2P Require Import Prelude.
From stdpp Require Import fin_maps relations.
Open Scope ccl_scope.

(** * Data *)

Inductive ccl_priority_mode := ccl_priority_none | ccl_priority_direct | ccl_priority_lifo.
Inductive ccl_sched_in_bin_status := in_bin_none | in_bin_added | in_bin_erased.

#[export] Instance priority_mode_eq_dec : EqDecision ccl_priority_mode.
Proof. solve_decision. Defined.
#[export] Instance in_bin_status_eq_dec : EqDecision ccl_sched_in_bin_status.
Proof. solve_decision. Defined.

(** The fields of a [ccl_sched] the queue uses: [coll_attr.priority], whether
    [coll_param.ctype] is a barrier, [bin] and the in-bin status. *)
Record sched_fields := mk_fields {
  attr_priority : nat; is_barrier_coll : bool; s_bin : option nat; in_bin : ccl_sched_in_bin_status }.

Record sched_bin := mk_bin { bin_atl_ep : nat; sched_list : list nat; bin_priority : nat }.

Record qstate := mk_qstate {
  bins : gmap nat sched_bin;
  max_priority : nat;
  cached_max_priority_bin : option nat;
  store : gmap nat sched_fields }.

Definition CCL_PRIORITY_BUCKET_COUNT : nat := 1.
Definition CCL_PRIORITY_BUCKET_SIZE : nat := 8.

Definition set_in_bin_status (st : ccl_sched_in_bin_status) (f : sched_fields) : sched_fields :=
  mk_fields (attr_priority f) (is_barrier_coll f) (s_bin f) st.
Definition set_bin (b : option nat) (f : sched_fields) : sched_fields :=
  mk_fields (attr_priority f) (is_barrier_coll f) b (in_bin f).
Definition set_attr_priority (p : nat) (f : sched_fields) : sched_fields :=
  mk_fields p (is_barrier_coll f) (s_bin f) (in_bin f).

Definition no_bin (f : sched_fields) : bool := match s_bin f with None => true | Some _ => false end.

Section queue.
Context (mode : ccl_priority_mode) (atl_eps : list nat).

Definition mode_none : bool := match mode with ccl_priority_none => true | _ => false end.

(** * Operations *)

Definition get_priority (f : sched_fields) : nat :=
  match mode with ccl_priority_none => 0 | ccl_priority_direct | ccl_priority_lifo => attr_priority f end.

(** [ccl_sched_queue::add] before the lock: the priority (a barrier collective takes the
    current maximum) and the status. *)
Definition add_prepare (p : nat) (s : qstate) : result (nat * qstate) :=
  match store s !! p with
  | None => Throw
  | Some f =>
    throw_if_not (no_bin f) ;;
    let '(priority, f') :=
      if negb mode_none && is_barrier_coll f then (max_priority s, set_attr_priority (max_priority s) f)
      else (get_priority f, f) in
    Ok (priority, mk_qstate (bins s) (max_priority s) (cached_max_priority_bin s)
                            (<[p := set_in_bin_status in_bin_added f']> (store s)))
  end.

(** [ccl_sched_bin::add] *)
Definition bin_add (b : nat) (bn : sched_bin) (p : nat) (s : qstate) : result qstate :=
  match store s !! p with
  | None => Throw
  | Some f =>
    throw_if_not (mode_none || (attr_priority f =? bin_priority bn)) ;;
    throw_if_not (no_bin f) ;;
    Ok (mk_qstate (<[b := mk_bin (bin_atl_ep bn) (sched_list bn ++ [p]) (bin_priority bn)]> (bins s))
                  (max_priority s) (cached_max_priority_bin s) (<[p := set_bin (Some b) f]> (store s)))
  end.

(** The locked part of [ccl_sched_queue::add]. *)
Definition add_insert (p priority : nat) (s : qstate) : result qstate :=
  match bins s !! priority with
  | Some bn =>
    throw_if_not (bin_priority bn =? priority) ;;
    bin_add priority bn p s
  | None =>
    let ep_idx := if mode_none then 0
                  else (priority / CCL_PRIORITY_BUCKET_SIZE) mod CCL_PRIORITY_BUCKET_COUNT in
    match atl_eps !! ep_idx, store s !! p with
    | Some atl_ep, Some f =>
      let upd := max_priority s <=? priority in
      Ok (mk_qstate (<[priority := mk_bin atl_ep [p] priority]> (bins s))
                    (if upd then priority else max_priority s)
                    (if upd then Some priority else cached_max_priority_bin s)
                    (<[p := set_bin (Some priority) f]> (store s)))
    | _, _ => Throw
    end
  end.

Definition queue_add (p : nat) (s : qstate) : result qstate :=
  r <-! add_prepare p s ;; add_insert p r.1 r.2.

(** [std::swap(elems[size], elems[idx]); elems.resize(size)] with [size] one less than before. *)
Definition swap_remove (idx : nat) (l : list nat) : list nat :=
  let size := length l - 1 in
  match l !! size, l !! idx with
  | Some a, Some b => take size (<[idx := a]> (<[size := b]> l))
  | _, _ => l
  end.

(** [ccl_sched_bin::erase]: the remaining size and the next index. *)
Definition bin_erase (b idx : nat) (s : qstate) : result (nat * nat * qstate) :=
  match bins s !! b with
  | None => Throw
  | Some bn =>
    throw_if_not (0 <? length (sched_list bn)) ;;
    match sched_list bn !! idx with
    | None => Throw
    | Some p =>
      match store s !! p with
      | None => Throw
      | Some f =>
        let elems := swap_remove idx (sched_list bn) in
        Ok (length (sched_list bn) - 1, idx,
            mk_qstate (<[b := mk_bin (bin_atl_ep bn) elems (bin_priority bn)]> (bins s))
                      (max_priority s) (cached_max_priority_bin s)
                      (<[p := set_bin None (set_in_bin_status in_bin_erased f)]> (store s)))
      end
    end
  end.

(** [max_priority--; while (bins.find(max_priority) == bins.end()) max_priority--]: below 0 the
    counter wraps around and the loop has no result here. *)
Fixpoint lower_max_priority (bs : gmap nat sched_bin) (max : nat) : result nat :=
  match max with
  | O => Throw
  | S m => match bs !! m with Some _ => Ok m | None => lower_max_priority bs m end
  end.

(** The locked part of [ccl_sched_queue::erase], entered when the bin looked empty. *)
Definition erase_cleanup (b : nat) (s : qstate) : result qstate :=
  match bins s !! b with
  | None => Throw
  | Some bn =>
    match sched_list bn with
    | _ :: _ => Ok s
    | [] =>
      let bs := delete (bin_priority bn) (bins s) in
      if bool_decide (bs = ∅) then Ok (mk_qstate bs 0 None (store s))
      else if bin_priority bn =? max_priority s then
        m <-! lower_max_priority bs (max_priority s) ;; Ok (mk_qstate bs m (Some m) (store s))
      else Ok (mk_qstate bs (max_priority s) (cached_max_priority_bin s) (store s))
    end
  end.

(** [ccl_sched_queue::erase]: returns the next index. *)
Definition queue_erase (b idx : nat) (s : qstate) : result (nat * qstate) :=
  r <-! bin_erase b idx s ;;
  let '(size, next_idx, s') := r in
  if size =? 0 then (s'' <-! erase_cleanup b s' ;; Ok (next_idx, s'')) else Ok (next_idx, s').

Definition peek (s : qstate) : option nat := cached_max_priority_bin s.
Definition peek_all (s : qstate) : list nat := (map_to_list (bins s)).*1.

Definition clear (s : qstate) : qstate := mk_qstate ∅ 0 None (store s).
Definition new_queue (st : gmap nat sched_fields) : qstate := mk_qstate ∅ 0 None st.

(** * Threads *)

(** [c_adders]: schedules whose [add] is before its lock, with the priority it computed;
    [c_eraser]: the bin whose [erase] is between its two critical sections.  A queue has one
    worker, hence one eraser. *)
Record cstate := mk_cstate { c_q : qstate; c_adders : list (nat * nat); c_eraser : option nat }.

Inductive qstep : cstate -> cstate -> Prop :=
| step_prepare p pr s s' ad er :
    p ∉ ad.*1 -> add_prepare p s = Ok (pr, s') ->
    qstep (mk_cstate s ad er) (mk_cstate s' ((p, pr) :: ad) er)
| step_insert p pr s s' ad1 ad2 er :
    add_insert p pr s = Ok s' ->
    qstep (mk_cstate s (ad1 ++ (p, pr) :: ad2) er) (mk_cstate s' (ad1 ++ ad2) er)
| step_bin_erase b idx size next s s' ad :
    bin_erase b idx s = Ok (size, next, s') ->
    qstep (mk_cstate s ad None) (mk_cstate s' ad (if size =? 0 then Some b else None))
| step_cleanup b s s' ad :
    erase_cleanup b s = Ok s' -> qstep (mk_cstate s ad (Some b)) (mk_cstate s' ad None).

(** * Invariant *)

(** [busy] holds of the bins that may be empty. *)
Record queue_inv (busy : nat -> Prop) (s : qstate) : Prop := {
  qi_prio : forall k bn, bins s !! k = Some bn -> bin_priority bn = k;
  qi_nonempty : forall k bn, bins s !! k = Some bn -> sched_list bn = [] -> busy k;
  qi_max : (bins s = ∅ /\ max_priority s = 0 /\ cached_max_priority_bin s = None) \/
           (is_Some (bins s !! max_priority s) /\ cached_max_priority_bin s = Some (max_priority s));
  qi_ub : forall k, is_Some (bins s !! k) -> k <= max_priority s;
  qi_nodup : forall k bn, bins s !! k = Some bn -> NoDup (sched_list bn);
  qi_in : forall k bn p, bins s !! k = Some bn -> p ∈ sched_list bn ->
    exists f, store s !! p = Some f /\ s_bin f = Some k;
  qi_out : forall p f k, store s !! p = Some f -> s_bin f = Some k ->
    get_priority f = k /\ exists bn, bins s !! k = Some bn /\ p ∈ sched_list bn }.

(** A schedule whose [add] is under way. *)
Definition adding (s : qstate) (a : nat * nat) : Prop :=
  exists f, store s !! a.1 = Some f /\ s_bin f = None /\ get_priority f = a.2.

Record cstate_inv (c : cstate) : Prop := {
  ci_queue : queue_inv (fun k => c_eraser c = Some k) (c_q c);
  ci_eraser : forall b, c_eraser c = Some b -> is_Some (bins (c_q c) !! b);
  ci_nodup : NoDup (c_adders c).*1;
  ci_adding : Forall (adding (c_q c)) (c_adders c) }.

Definition initial (c : cstate) : Prop :=
  exists st, (forall p f, st !! p = Some f -> s_bin f = None) /\ c = mk_cstate (new_queue st) [] None.

(** * Lemmas *)

Lemma swap_remove_perm idx l p : l !! idx = Some p -> p :: swap_remove idx l ≡ₚ l.
Proof.
  intros Hp. pose proof (lookup_lt_Some _ _ _ Hp) as Hlt. unfold swap_remove.
  destruct l as [|a l _] using rev_ind; [done|]. rewrite length_app in *. cbn [length] in *.
  replace (length l + 1 - 1) with (length l) by lia. rewrite (lookup_app_r l) by done.
  rewrite Nat.sub_diag. cbn [lookup list_lookup]. rewrite Hp.
  destruct (decide (idx = length l)) as [->|Hne].
  - rewrite lookup_app_r in Hp by done. rewrite Nat.sub_diag in Hp. cbn in Hp. simplify_eq.
    rewrite list_insert_insert_eq, insert_app_r_alt, Nat.sub_diag by done. cbn.
    rewrite take_app_length. apply Permutation_cons_append.
  - rewrite lookup_app_l in Hp by lia. rewrite insert_app_r_alt, Nat.sub_diag by done. cbn.
    rewrite insert_app_l by lia. rewrite take_app_length' by (by rewrite length_insert).
    rewrite insert_take_drop by lia. rewrite <- (take_drop_middle l idx p Hp) at 3. solve_Permutation.
Qed.

Lemma length_swap_remove idx l p : l !! idx = Some p -> length (swap_remove idx l) = length l - 1.
Proof. intros H%swap_remove_perm%Permutation_length. cbn in H. lia. Qed.

(** The search finds the largest remaining key. *)
Lemma lower_max_priority_ok bs max :
  (exists k, is_Some (bs !! k) /\ k < max) -> exists m, lower_max_priority bs max = Ok m /\
  is_Some (bs !! m) /\ m < max /\ forall k, is_Some (bs !! k) -> k < max -> k <= m.
Proof.
  induction max as [|m IH]; intros (k & Hk & Hlt); [lia|]. cbn [lower_max_priority].
  destruct (bs !! m) eqn:Em.
  - exists m. rewrite Em. split; [done|]. split; [by eexists|]. split; [lia|]. intros. lia.
  - destruct (IH ltac:(exists k; split; [done|]; assert (k <> m) by (intros ->; rewrite Em in Hk; by destruct Hk); lia))
      as (m' & -> & ? & ? & H).
    exists m'. do 2 (split; [done|]). split; [lia|]. intros k' Hk' Hlt'. apply H; [done|].
    assert (k' <> m) by (intros ->; rewrite Em in Hk'; by destruct Hk'). lia.
Qed.

Lemma get_priority_set_bin b f : get_priority (set_bin b f) = get_priority f.
Proof. unfold get_priority. by destruct mode. Qed.

Lemma initial_inv c : initial c -> cstate_inv c.
Proof.
  intros (st & Hst & ->). split; cbn; [|done|constructor|constructor].
  split; cbn; try (intros *; rewrite lookup_empty; done).
  - by left.
  - intros p f k H1 H2. rewrite (Hst p f H1) in H2. done.
Qed.

(** ** The critical sections keep the invariant *)

Lemma add_prepare_inv busy s p pr s' :
  queue_inv busy s -> add_prepare p s = Ok (pr, s') ->
  queue_inv busy s' /\ adding s' (p, pr) /\ bins s' = bins s /\
  (forall q, q <> p -> store s' !! q = store s !! q) /\
  in_bin <$> store s' !! p = Some in_bin_added.
Proof.
  intros [] Hp. unfold add_prepare in Hp. destruct (store s !! p) as [f|] eqn:Ef; [|done].
  destruct (no_bin f) eqn:Eb; [|done]. unfold no_bin in Eb. destruct (s_bin f) eqn:Esb; [done|].
  destruct (if negb mode_none && is_barrier_coll f then _ else _) as [pr' f'] eqn:E. injection Hp as -> <-.
  assert (Hf' : s_bin f' = None /\ get_priority f' = pr).
  { unfold mode_none, get_priority in *. destruct mode, (is_barrier_coll f); cbn in *; by simplify_eq. }
  destruct Hf' as [Hb' Hpr]. assert (get_priority (set_in_bin_status in_bin_added f') = pr)
    by (rewrite <- Hpr; unfold get_priority; by destruct mode).
  split; [|split; [|split; [done|split; [intros; cbn; by rewrite lookup_insert_ne|cbn; by rewrite lookup_insert_eq]]]].
  - split; cbn; auto.
    + intros k bn q Hk Hq. destruct (qi_in0 k bn q Hk Hq) as (g & Hg & ?).
      exists g. rewrite lookup_insert_ne; [done|]. congruence.
    + intros q g k. destruct (decide (q = p)) as [->|Hne].
      * rewrite lookup_insert_eq. intros [= <-]. cbn. congruence.
      * rewrite lookup_insert_ne by done. auto.
  - eexists. cbn. by rewrite lookup_insert_eq.
Qed.

(** A schedule joins the bin of its priority, new or not. *)
Lemma join_bin_inv busy s p f pr ep :
  queue_inv busy s -> store s !! p = Some f -> s_bin f = None -> get_priority f = pr ->
  let old := from_option sched_list [] (bins s !! pr) in
  queue_inv busy (mk_qstate (<[pr := mk_bin ep (old ++ [p]) pr]> (bins s))
                            (max_priority s `max` pr) (Some (max_priority s `max` pr))
                            (<[p := set_bin (Some pr) f]> (store s))).
Proof.
  intros [] Hf Hb Hpr old.
  assert (Hold : forall q, q ∈ old -> exists g, store s !! q = Some g /\ s_bin g = Some pr).
  { unfold old. intros q Hq. destruct (bins s !! pr) as [bn|] eqn:E; [by eapply qi_in0|set_solver]. }
  split; cbn [bins store max_priority cached_max_priority_bin].
  - intros k bn [[<- <-]|[? ?]]%lookup_insert_Some; [done|eauto].
  - intros k bn [[<- <-]|[? ?]]%lookup_insert_Some; [|eauto]. cbn. intros Hnil. by destruct old.
  - right. split; [|done]. rewrite lookup_insert_is_Some'. destruct (Nat.max_spec (max_priority s) pr) as [[? ->]|[? ->]]; [by left|].
    destruct qi_max0 as [(_ & E & _)|[? _]]; [left; lia|by right].
  - intros k. rewrite lookup_insert_is_Some'. intros [<-|Hk%qi_ub0]; lia.
  - intros k bn [[<- <-]|[? ?]]%lookup_insert_Some; [|eauto]. cbn. apply NoDup_app. split; [|split; [|apply NoDup_singleton]].
    + unfold old. destruct (bins s !! pr) eqn:E; [by eapply qi_nodup0|constructor].
    + intros x (g & ? & ?)%Hold ->%list_elem_of_singleton. congruence.
  - intros k bn q [[<- <-]|[Hk E]]%lookup_insert_Some.
    + cbn. rewrite elem_of_app, list_elem_of_singleton. intros [(g & ? & ?)%Hold| ->].
      * exists g. rewrite lookup_insert_ne; [done|congruence].
      * eexists. by rewrite lookup_insert_eq.
    + intros Hq. destruct (qi_in0 k bn q E Hq) as (g & ? & ?). exists g. rewrite lookup_insert_ne; [done|congruence].
  - intros q g k [[<- <-]|[Hq Hg]]%lookup_insert_Some Hk.
    + rewrite get_priority_set_bin. cbn in Hk. injection Hk as <-. split; [done|]. eexists. rewrite lookup_insert_eq.
      split; [done|]. cbn. set_solver.
    + destruct (qi_out0 q g k Hg Hk) as [? (bn & Hbn & Hin)]. split; [done|].
      destruct (decide (k = pr)) as [->|]; [|exists bn; by rewrite lookup_insert_ne].
      eexists. rewrite lookup_insert_eq. split; [done|]. cbn. unfold old. rewrite Hbn. cbn. set_solver.
Qed.

Lemma add_insert_inv busy s p pr :
  atl_eps <> [] -> queue_inv busy s -> adding s (p, pr) ->
  exists s', add_insert p pr s = Ok s' /\ queue_inv busy s' /\
    (forall q, q <> p -> store s' !! q = store s !! q) /\
    (forall k, is_Some (bins s !! k) -> is_Some (bins s' !! k)) /\
    store s' !! p = set_bin (Some pr) <$> store s !! p.
Proof.
  intros Heps Hinv (f & Hf & Hb & Hpr). pose proof (fun ep => join_bin_inv busy s p f pr ep Hinv Hf Hb Hpr) as Hjoin.
  destruct Hinv. cbn in *. unfold add_insert. destruct (bins s !! pr) as [bn|] eqn:Ebn; cbn [from_option] in Hjoin.
  - pose proof (qi_prio0 pr bn Ebn) as Eprio. rewrite Eprio, Nat.eqb_refl. unfold bin_add. rewrite Hf, Eprio.
    assert (mode_none || (attr_priority f =? pr) = true) as ->.
    { unfold mode_none, get_priority in *. destruct mode; cbn; try done; subst; apply Nat.eqb_refl. }
    unfold no_bin. rewrite Hb. eexists. split; [done|]. cbn [bins store]. split.
    + assert (Hle : pr <= max_priority s) by (apply qi_ub0; by rewrite Ebn).
      specialize (Hjoin (bin_atl_ep bn)). rewrite Nat.max_l in Hjoin by done.
      destruct qi_max0 as [(E & _ & _)|[_ ->]]; [by rewrite E, lookup_empty in Ebn|done].
    + split; [intros; by rewrite lookup_insert_ne|]. split; [intros k Hk; rewrite lookup_insert_is_Some'; auto|].
      by rewrite lookup_insert_eq, ?Hf.
  - assert (exists ep, atl_eps !! (if mode_none then 0 else (pr / CCL_PRIORITY_BUCKET_SIZE) mod CCL_PRIORITY_BUCKET_COUNT) = Some ep)
      as [ep ->].
    { unfold CCL_PRIORITY_BUCKET_COUNT. rewrite Nat.mod_1_r. destruct atl_eps; [done|]. destruct mode_none; by eexists. }
    rewrite Hf. eexists. split; [done|]. cbn [bins store]. split.
    + specialize (Hjoin ep). destruct (Nat.leb_spec (max_priority s) pr) as [Hle|Hlt].
      * by rewrite Nat.max_r in Hjoin by done.
      * rewrite Nat.max_l in Hjoin by lia. destruct qi_max0 as [(_ & E & _)|[_ ->]]; [lia|done].
    + split; [intros; by rewrite lookup_insert_ne|]. split; [intros k Hk; rewrite lookup_insert_is_Some'; auto|].
      by rewrite lookup_insert_eq, ?Hf.
Qed.
Lemma bin_erase_inv s b idx :
  queue_inv (fun _ => False) s -> is_Some (bins s !! b) -> idx < length (from_option sched_list [] (bins s !! b)) ->
  exists size p f s', bin_erase b idx s = Ok (size, idx, s') /\
    queue_inv (fun k => size = 0 /\ k = b) s' /\ is_Some (bins s' !! b) /\
    store s !! p = Some f /\ s_bin f = Some b /\
    store s' = <[p := set_bin None (set_in_bin_status in_bin_erased f)]> (store s) /\
    from_option sched_list [] (bins s !! b) !! idx = Some p /\
    from_option sched_list [] (bins s' !! b) = swap_remove idx (from_option sched_list [] (bins s !! b)) /\
    size = length (swap_remove idx (from_option sched_list [] (bins s !! b))) /\
    (forall k, k <> b -> bins s' !! k = bins s !! k).
Proof.
  intros [] [bn Ebn] Hidx. rewrite Ebn in *. cbn [from_option] in *. unfold bin_erase. rewrite Ebn.
  destruct (lookup_lt_is_Some_2 _ _ Hidx) as [p Hp]. rewrite (proj2 (Nat.ltb_lt _ _)) by lia. rewrite Hp.
  pose proof (swap_remove_perm idx _ p Hp) as Hperm. pose proof (length_swap_remove idx _ p Hp) as Hlen.
  destruct (qi_in0 b bn p Ebn ltac:(by eapply list_elem_of_lookup_2)) as (f & Hf & Hfb). rewrite Hf.
  pose proof (qi_nodup0 _ _ Ebn) as Hnd. rewrite <- Hperm in Hnd. apply NoDup_cons in Hnd as [Hnp Hnd].
  eexists _, p, f, _. split; [done|]. cbn [bins store]. rewrite !lookup_insert_eq. cbn [from_option sched_list].
  split; cycle 1.
  { split; [by eexists|]. do 6 (split; [done|]). intros. by rewrite lookup_insert_ne. }
  assert (Hdom : forall l k, is_Some (<[b := mk_bin (bin_atl_ep bn) l (bin_priority bn)]> (bins s) !! k)
                   <-> is_Some (bins s !! k)).
  { intros l k. rewrite lookup_insert_is_Some'. split; [intros [<-|?]; [by rewrite Ebn|done]|auto]. }
  split; cbn [bins store max_priority cached_max_priority_bin].
  - intros k bn' [[<- <-]|[? ?]]%lookup_insert_Some; [cbn|]; eauto.
  - intros k bn' [[<- <-]|[? ?]]%lookup_insert_Some; [|by intros; exfalso; eauto].
    cbn. intros E. rewrite E in Hlen. cbn in Hlen. split; [lia|done].
  - right. rewrite Hdom. destruct qi_max0 as [(E & _ & _)|[? ?]]; [by rewrite E, lookup_empty in Ebn|done].
  - intros k. rewrite Hdom. eauto.
  - intros k bn' [[<- <-]|[? ?]]%lookup_insert_Some; [done|eauto].
  - intros k bn' q [[<- <-]|[Hk E]]%lookup_insert_Some.
    + cbn. intros Hq. destruct (qi_in0 b bn q Ebn) as (g & ? & ?); [rewrite <- Hperm; by right|].
      exists g. rewrite lookup_insert_ne; [done|congruence].
    + intros Hq. destruct (qi_in0 k bn' q E Hq) as (g & ? & ?). exists g. rewrite lookup_insert_ne; [done|congruence].
  - intros q g k [[<- <-]|[Hq Hg]]%lookup_insert_Some Hk; [done|].
    destruct (qi_out0 q g k Hg Hk) as [? (bn' & Hbn & Hin)]. split; [done|].
    destruct (decide (k = b)) as [->|]; [|exists bn'; by rewrite lookup_insert_ne].
    eexists. rewrite lookup_insert_eq. split; [done|]. cbn. assert (bn' = bn) as -> by congruence.
    rewrite <- Hperm in Hin. apply elem_of_cons in Hin as [->|?]; [congruence|done].
Qed.

(** Removing an empty bin from the table. *)
Lemma drop_bin_inv s b bn m c :
  queue_inv (fun k => k = b) s -> bins s !! b = Some bn -> sched_list bn = [] ->
  (delete b (bins s) = ∅ /\ m = 0 /\ c = None) \/ (is_Some (delete b (bins s) !! m) /\ c = Some m) ->
  (forall k, is_Some (delete b (bins s) !! k) -> k <= m) ->
  queue_inv (fun _ => False) (mk_qstate (delete b (bins s)) m c (store s)).
Proof.
  intros [] Ebn Enil Hm Hub. split; cbn [bins store max_priority cached_max_priority_bin]; [| |done..| | |].
  - intros k bn' [_ ?]%lookup_delete_Some. eauto.
  - intros k bn' [Hne ?]%lookup_delete_Some E. apply Hne. symmetry. eauto.
  - intros k bn' [_ ?]%lookup_delete_Some. eauto.
  - intros k bn' p [_ ?]%lookup_delete_Some. eauto.
  - intros p f k Hf Hk. destruct (qi_out0 p f k Hf Hk) as [? (bn' & Hbn & Hin)]. split; [done|]. exists bn'.
    split; [|done]. apply lookup_delete_Some. split; [|done]. intros <-. rewrite Ebn in Hbn. simplify_eq.
    rewrite Enil in Hin. by apply not_elem_of_nil in Hin.
Qed.

Lemma erase_cleanup_inv s b :
  queue_inv (fun k => k = b) s -> is_Some (bins s !! b) ->
  exists s', erase_cleanup b s = Ok s' /\ queue_inv (fun _ => False) s' /\ store s' = store s /\
    (forall k, k <> b -> bins s' !! k = bins s !! k) /\
    from_option sched_list [] (bins s' !! b) = from_option sched_list [] (bins s !! b).
Proof.
  intros Hinv [bn Ebn]. pose proof (drop_bin_inv s b bn) as Hdrop. unfold erase_cleanup. rewrite Ebn. cbn [from_option].
  destruct (sched_list bn) as [|x l] eqn:El.
  2: { exists s. split; [done|]. rewrite Ebn. cbn [from_option]. split; [|done]. destruct Hinv. split; auto.
       intros k bn' Hk Hnil. pose proof (qi_nonempty0 k bn' Hk Hnil). subst. congruence. }
  rewrite (qi_prio _ _ Hinv b bn Ebn). pose proof (qi_ub _ _ Hinv) as Hub.
  assert (Hframe : forall m c, (forall k, k <> b -> bins (mk_qstate (delete b (bins s)) m c (store s)) !! k = bins s !! k) /\
            from_option sched_list [] (bins (mk_qstate (delete b (bins s)) m c (store s)) !! b) = []).
  { intros m c. cbn. split; [intros; by rewrite lookup_delete_ne|by rewrite lookup_delete_eq]. }
  case_bool_decide as Hempty.
  - eexists. split; [done|]. split; [|split; [done|apply Hframe]]. apply Hdrop; auto.
    rewrite Hempty. intros k [? H]. by rewrite lookup_empty in H.
  - destruct (map_choose _ Hempty) as (k0 & bn0 & Hk0). pose proof (proj1 (lookup_delete_Some _ _ _ _) Hk0) as [Hk0b Hk0'].
    destruct (Nat.eqb_spec b (max_priority s)) as [Hb|Hb].
    + destruct (lower_max_priority_ok (delete b (bins s)) (max_priority s)) as (m & -> & Hm & Hlt & Hmax).
      { exists k0. split; [by rewrite Hk0|]. specialize (Hub k0 ltac:(by rewrite Hk0')). lia. }
      eexists. split; [done|]. split; [|split; [done|apply Hframe]]. apply Hdrop; auto.
      intros k Hk. apply Hmax; [done|]. destruct Hk as [? [Hne ?]%lookup_delete_Some].
      specialize (Hub k ltac:(by eexists)). lia.
    + eexists. split; [done|]. split; [|split; [done|apply Hframe]]. apply Hdrop; auto.
      * right. destruct (qi_max _ _ Hinv) as [(E & _)|[? ->]]; [by rewrite E, lookup_empty in Ebn|].
        by rewrite lookup_delete_ne.
      * intros k [? [_ ?]%lookup_delete_Some]. apply Hub. by eexists.
Qed.

Lemma queue_inv_weaken (P Q : nat -> Prop) s : (forall k, P k -> Q k) -> queue_inv P s -> queue_inv Q s.
Proof. intros H []. split; eauto. Qed.

(** ** The whole operations, when one thread runs *)

Lemma queue_add_inv s p f :
  atl_eps <> [] -> queue_inv (fun _ => False) s -> store s !! p = Some f -> s_bin f = None ->
  exists s' f', queue_add p s = Ok s' /\ queue_inv (fun _ => False) s' /\ store s' !! p = Some f' /\
    is_Some (s_bin f') /\ in_bin f' = in_bin_added /\ forall q, q <> p -> store s' !! q = store s !! q.
Proof.
  intros Heps Hinv Hf Hb. unfold queue_add.
  assert (exists r, add_prepare p s = Ok r) as [[pr s1] E].
  { unfold add_prepare. rewrite Hf. unfold no_bin. rewrite Hb. by destruct (negb mode_none && is_barrier_coll f); eexists. }
  rewrite E. cbn [result_bind fst snd]. destruct (add_prepare_inv _ _ _ _ _ Hinv E) as (Hinv1 & Hadd & Hbins & Hst & Hin).
  destruct (add_insert_inv _ _ _ _ Heps Hinv1 Hadd) as (s2 & E2 & Hinv2 & Hst2 & _ & Hp).
  destruct (store s1 !! p) as [f1|] eqn:E1; [|done]. injection Hin as Hin.
  exists s2, (set_bin (Some pr) f1). split; [done|]. split; [done|]. split; [done|]. split; [by eexists|]. split; [done|].
  intros q Hq. by rewrite Hst2, Hst.
Qed.

Lemma queue_erase_inv s b idx p :
  queue_inv (fun _ => False) s -> from_option sched_list [] (bins s !! b) !! idx = Some p ->
  exists f s', queue_erase b idx s = Ok (idx, s') /\ queue_inv (fun _ => False) s' /\
    store s !! p = Some f /\ s_bin f = Some b /\
    store s' = <[p := set_bin None (set_in_bin_status in_bin_erased f)]> (store s) /\
    from_option sched_list [] (bins s' !! b) = swap_remove idx (from_option sched_list [] (bins s !! b)) /\
    (forall k, k <> b -> bins s' !! k = bins s !! k).
Proof.
  intros Hinv Hp. assert (Hb : is_Some (bins s !! b)) by (destruct (bins s !! b); [by eexists|done]).
  destruct (bin_erase_inv s b idx Hinv Hb ltac:(by eapply lookup_lt_Some))
    as (size & p' & f & s1 & E & Hinv1 & Hb1 & Hf & Hfb & Hst & Hp' & Hl & Hsz & Hk).
  rewrite Hp in Hp'. injection Hp' as <-. exists f. unfold queue_erase. rewrite E. cbn [result_bind].
  destruct (Nat.eqb_spec size 0) as [H0|H0].
  - destruct (erase_cleanup_inv s1 b) as (s2 & -> & Hinv2 & Hst2 & Hk2 & Hl2); [|done|].
    { eapply queue_inv_weaken; [|exact Hinv1]. by intros k [_ ->]. }
    exists s2. split; [done|]. split; [done|]. split; [done|]. split; [done|]. split; [congruence|]. split; [congruence|].
    intros k Hne. by rewrite Hk2, Hk.
  - exists s1. split; [done|]. split; [|done]. eapply queue_inv_weaken; [|exact Hinv1]. cbn. naive_solver.
Qed.

(** Erasing moves the last schedule into the hole: the part before is kept, the part behind permuted. *)
Lemma swap_remove_take idx l p : l !! idx = Some p -> take idx (swap_remove idx l) = take idx l.
Proof.
  intros Hp. pose proof (lookup_lt_Some _ _ _ Hp). unfold swap_remove. rewrite Hp.
  destruct (l !! (length l - 1)); [|done]. rewrite take_take, Nat.min_l by lia. by rewrite !take_insert_ge by lia.
Qed.

Lemma swap_remove_drop idx l p : l !! idx = Some p -> drop idx (swap_remove idx l) ≡ₚ drop (S idx) l.
Proof.
  intros Hp. pose proof (swap_remove_perm idx l p Hp) as H. rewrite <- (take_drop idx (swap_remove idx l)) in H.
  rewrite (swap_remove_take idx l p Hp), Permutation_middle in H.
  set (r := drop idx (swap_remove idx l)) in *. rewrite <- (take_drop_middle l idx p Hp) in H at 2. apply Permutation_app_inv_l in H. by apply Permutation_cons_inv in H.
Qed.

Lemma adding_frame s s' (p : nat) (ad : list (nat * nat)) :
  (forall q, q <> p -> store s' !! q = store s !! q) -> p ∉ ad.*1 -> Forall (adding s) ad -> Forall (adding s') ad.
Proof.
  intros Hst Hp Had. apply Forall_forall. intros a Ha. rewrite Forall_forall in Had. destruct (Had a Ha) as (f & Hf & ?).
  exists f. rewrite Hst; [done|]. intros E. apply Hp. rewrite <- E. by apply list_elem_of_fmap_2.
Qed.
Lemma bin_erase_pre s b idx r : bin_erase b idx s = Ok r ->
  is_Some (bins s !! b) /\ idx < length (from_option sched_list [] (bins s !! b)).
Proof.
  unfold bin_erase. destruct (bins s !! b) as [bn|]; [|done]. destruct (0 <? _); [|done].
  destruct (sched_list bn !! idx) eqn:E; [|done]. intros _. split; [by eexists|]. by eapply lookup_lt_Some.
Qed.

Lemma qstep_inv c c' : atl_eps <> [] -> cstate_inv c -> qstep c c' -> cstate_inv c'.
Proof.
  intros Heps [Hq Her Hnd Had] Hs. destruct Hs as [p pr s s' ad er Hp E|p pr s s' ad1 ad2 er E|b idx size next s s' ad E|b s s' ad E];
    cbn [c_q c_adders c_eraser] in *.
  - destruct (add_prepare_inv _ _ _ _ _ Hq E) as (Hq' & Hadd & Hbins & Hst & _). split; cbn [c_q c_adders c_eraser].
    + done.
    + by rewrite Hbins.
    + by constructor.
    + constructor; [done|]. by eapply adding_frame.
  - rewrite fmap_app, fmap_cons in Hnd. apply Forall_app in Had as [Had1 [Hadd Had2]%Forall_cons].
    destruct (add_insert_inv _ _ _ _ Heps Hq Hadd) as (s1 & E1 & Hq' & Hst & Hb & _). rewrite E in E1. injection E1 as <-.
    rewrite <- Permutation_middle in Hnd. apply NoDup_cons in Hnd as [Hp Hnd]. rewrite <- fmap_app in Hp, Hnd.
    split; cbn [c_q c_adders c_eraser]; eauto. eapply adding_frame; [exact Hst|done|by apply Forall_app].
  - pose proof (bin_erase_pre _ _ _ _ E) as [Hb Hidx].
    destruct (bin_erase_inv s b idx) as (size' & p & f & s1 & E1 & Hq' & Hb' & Hf & Hfb & Hst & _); [|done..|].
    { eapply queue_inv_weaken; [|exact Hq]. intros k [=]. }
    rewrite E in E1. injection E1 as <- _ <-. split; cbn [c_q c_adders c_eraser].
    + eapply queue_inv_weaken; [|exact Hq']. intros k [-> ->]. done.
    + intros b'. destruct (size =? 0); by intros [= <-].
    + done.
    + eapply (adding_frame _ _ p); [intros; by rewrite Hst, lookup_insert_ne| |done]. intros Hp. apply list_elem_of_fmap in Hp as (a & -> & Ha).
      rewrite Forall_forall in Had. destruct (Had a Ha) as (g & ? & ? & _). congruence.
  - destruct (erase_cleanup_inv s b) as (s1 & E1 & Hq' & Hst & _); [|by apply Her|].
    { eapply queue_inv_weaken; [|exact Hq]. by intros k [= ->]. }
    rewrite E in E1. injection E1 as <-. split; cbn [c_q c_adders c_eraser]; [|done..|].
    + eapply queue_inv_weaken; [|exact Hq']. done.
    + apply Forall_forall. intros a Ha. rewrite Forall_forall in Had. destruct (Had a Ha) as (f & Hf & ?). exists f. by rewrite Hst.
Qed.

Definition reachable (c : cstate) : Prop := exists c0, initial c0 /\ rtc qstep c0 c.

Lemma reachable_inv c : atl_eps <> [] -> reachable c -> cstate_inv c.
Proof.
  intros Heps (c0 & H0 & Hr). apply initial_inv in H0. induction Hr as [c|c c1 c2 Hs _ IH]; [done|].
  apply IH. by eapply qstep_inv.
Qed.

(** C20: in every state of the queue, between any two critical sections of adding threads and the
    worker, [peek] returns the bin of the highest priority (nothing when there are no bins), never
    a dangling pointer, and that bin has schedules unless the worker is about to remove it. *)
Theorem peek_highest_priority c :
  atl_eps <> [] -> reachable c ->
  (bins (c_q c) = ∅ /\ peek (c_q c) = None) \/
  exists b bn, peek (c_q c) = Some b /\ bins (c_q c) !! b = Some bn /\ bin_priority bn = b /\
    (forall k, is_Some (bins (c_q c) !! k) -> k <= b) /\ (sched_list bn <> [] \/ c_eraser c = Some b).
Proof.
  intros Heps [Hq _ _ _]%reachable_inv; [|done]. destruct Hq. unfold peek.
  destruct qi_max0 as [(? & _ & ?)|[[bn Hbn] ?]]; [by left|right]. exists (max_priority (c_q c)), bn.
  do 3 (split; [by eauto|]). split; [done|]. destruct (sched_list bn) eqn:E; [right; eauto|by left].
Qed.

(** In every reachable state each pending operation can finish: an [add] past its first part
    inserts its schedule, an [erase] of an existing index succeeds, and the clean-up of an emptied
    bin finds the next priority: no check fails and the search loop ends. *)
Theorem queue_operations_finish c :
  atl_eps <> [] -> reachable c ->
  (forall p pr, (p, pr) ∈ c_adders c -> exists s', add_insert p pr (c_q c) = Ok s') /\
  (forall b bn idx, c_eraser c = None -> bins (c_q c) !! b = Some bn -> idx < length (sched_list bn) ->
     exists size s', bin_erase b idx (c_q c) = Ok (size, idx, s')) /\
  (forall b, c_eraser c = Some b -> exists s', erase_cleanup b (c_q c) = Ok s').
Proof.
  intros Heps [Hq Her Hnd Had]%reachable_inv; [|done]. split; [|split].
  - intros p pr Hp. rewrite Forall_forall in Had.
    destruct (add_insert_inv _ _ _ _ Heps Hq (Had _ Hp)) as (s' & ? & _). by exists s'.
  - intros b bn idx Hno Hb Hidx. destruct (bin_erase_inv (c_q c) b idx) as (size & p & f & s' & ? & _).
    + eapply queue_inv_weaken; [|exact Hq]. cbn. congruence.
    + by rewrite Hb.
    + by rewrite Hb.
    + by exists size, s'.
  - intros b Hb. destruct (erase_cleanup_inv (c_q c) b) as (s' & ? & _); [|by apply Her|by exists s'].
    eapply queue_inv_weaken; [|exact Hq]. cbn. congruence.
Qed.

(** The bins and the [bin] fields agree in every reachable state: a schedule says it is in a
    bin exactly when that bin lists it, once, and the bin's key is the schedule's priority. *)
Theorem bins_hold_their_scheds c p f k :
  atl_eps <> [] -> reachable c -> store (c_q c) !! p = Some f ->
  (s_bin f = Some k <-> exists bn, bins (c_q c) !! k = Some bn /\ p ∈ sched_list bn) /\
  (s_bin f = Some k -> get_priority f = k) /\
  (forall bn, bins (c_q c) !! k = Some bn -> NoDup (sched_list bn)).
Proof.
  intros Heps [Hq _ _ _]%reachable_inv Hf; [|done]. destruct Hq. split; [split|split; [|eauto]].
  - intros Hk. by apply (qi_out0 p f k).
  - intros (bn & Hbn & Hin). destruct (qi_in0 k bn p Hbn Hin) as (g & ? & ?). congruence.
  - intros Hk. by apply (qi_out0 p f k).
Qed.
End queue.

(** * A concrete run: two schedules of different priority, the second one still being added *)

Definition store_ex : gmap nat sched_fields :=
  <[1 := mk_fields 3 false None in_bin_none]> (<[2 := mk_fields 7 false None in_bin_none]> ∅).
Definition q_ex : qstate :=
  match queue_add ccl_priority_direct [0] 1 (new_queue store_ex) with
  | Ok s => match add_prepare ccl_priority_direct 2 s with Ok (_, s') => s' | Throw => s end
  | Throw => new_queue store_ex
  end.
Definition c_ex : cstate := mk_cstate q_ex [(2, 7)] None.

Lemma c_ex_reachable : reachable ccl_priority_direct [0] c_ex.
Proof.
  exists (mk_cstate (new_queue store_ex) [] None). split.
  - exists store_ex. split; [|reflexivity]. intros p f. unfold store_ex.
    intros [[_ <-]|[_ [[_ <-]|[_ H]]%lookup_insert_Some]]%lookup_insert_Some; [done..|by rewrite lookup_empty in H].
  - eapply rtc_l; [eapply (step_prepare _ _ 1); [apply not_elem_of_nil|vm_compute; reflexivity]|].
    eapply rtc_l; [eapply (step_insert _ _ 1 _ _ _ [] []); vm_compute; reflexivity|]. cbn.
    eapply rtc_l; [eapply (step_prepare _ _ 2); [apply not_elem_of_nil|vm_compute; reflexivity]|].
    apply (eq_rect _ (fun c => rtc _ c c_ex) (rtc_refl _ c_ex)). vm_compute. reflexivity.
Defined.

Lemma peek_highest_priority_witness :
  (bins q_ex = ∅ /\ peek q_ex = None) \/
  exists b bn, peek q_ex = Some b /\ bins q_ex !! b = Some bn /\ bin_priority bn = b /\
    (forall k, is_Some (bins q_ex !! k) -> k <= b) /\ (sched_list bn <> [] \/ None = Some b).
Proof. apply (peek_highest_priority ccl_priority_direct [0] c_ex); [done|apply c_ex_reachable]. Defined.

Lemma queue_operations_finish_witness : exists s', add_insert ccl_priority_direct [0] 2 7 q_ex = Ok s'.
Proof.
  apply (queue_operations_finish ccl_priority_direct [0] c_ex); [done|apply c_ex_reachable|]. left.
Defined.

Lemma bins_hold_their_scheds_witness :
  exists f, store q_ex !! 1 = Some f /\ (s_bin f = Some 3 <-> exists bn, bins q_ex !! 3 = Some bn /\ 1 ∈ sched_list bn).
Proof.
  eexists. split; [vm_compute; reflexivity|].
  apply (bins_hold_their_scheds ccl_priority_direct [0] c_ex 1 _ 3); [done|apply c_ex_reachable|vm_compute; reflexivity].
Defined.
