(* ===== verification/Worker.v ===== *)
(** The worker: one turn of progress over its queues.

    Models [ccl_worker::add], [do_work], [process_strict_sched_queue],
    [process_sched_queue] and [process_sched_bin]
    ([src/src/exec/thread/worker.cpp]) and [ccl_strict_sched_queue]
    ([src/src/sched/queue/strict_queue.cpp]), on top of the queue of [Queue] and
    [do_progress] of [Progress].  [sched->complete()] is modelled up to the
    schedule's own request; what completing a partial schedule does to its master
    is in [Request].

    The theorems: a turn over a bin progresses each of its schedules exactly once,
    removes exactly the finished ones, keeps the queue's invariant and throws
    nothing; the strict queue puts a schedule into execution only after all
    earlier ones have started. *)

From S2P Require Import Prelude Network Progress Request Queue.
Open Scope ccl_scope.

(** * State *)

(** [w_p]: the entries and the progress of every schedule; [w_req]: the counter of its request;
    [w_done]: the schedules whose request completed, a log. *)
Record worker := mk_worker {
  w_q : qstate;
  w_p : gmap nat psched;
  w_req : gmap nat nat;
  w_done : list nat;
  strict_queue : list nat;
  is_queue_empty : bool;
  active_queue : list nat;
  do_work_counter : nat }.

Definition CCL_WORKER_PROCESS_ALL_ITERS : nat := 4096.

Definition set_q (q : qstate) (w : worker) : worker :=
  mk_worker q (w_p w) (w_req w) (w_done w) (strict_queue w) (is_queue_empty w) (active_queue w) (do_work_counter w).
Definition set_p (p : gmap nat psched) (w : worker) : worker :=
  mk_worker (w_q w) p (w_req w) (w_done w) (strict_queue w) (is_queue_empty w) (active_queue w) (do_work_counter w).
Definition set_active (l : list nat) (w : worker) : worker :=
  mk_worker (w_q w) (w_p w) (w_req w) (w_done w) (strict_queue w) (is_queue_empty w) l (do_work_counter w).

(** Whether [strict_order] is set on a schedule ([enable_strict_order]), what the transport answers to the
    entries of each schedule, the classes of these entries with the states of their sub-schedules, and whether polling an endpoint succeeds. *)
Section worker.
Context (mode : ccl_priority_mode) (atl_eps : list nat) (strict_order : nat -> bool)
        (o : nat -> oracle) (cls : nat -> nat -> entry_class) (poll_ok : nat -> bool).

(** * Operations *)

(** [sched->do_progress()] *)
Definition progress_sched (p : nat) (w : worker) : result (psched * worker) :=
  match w_p w !! p with
  | None => Throw
  | Some s => s' <-! do_progress (o p) s ;; Ok (s', set_p (<[p := s']> (w_p w)) w)
  end.

(** [sched->complete()], the part on the schedule's own request. *)
Definition complete_sched (p : nat) (w : worker) : result worker :=
  match w_req w !! p with
  | None => Throw
  | Some c =>
    c1 <-! complete_counter c ;;
    if c1 =? 1 then
      c2 <-! complete_counter c1 ;;
      throw_if_not (c2 =? 0) ;;
      Ok (mk_worker (w_q w) (w_p w) (<[p := c2]> (w_req w)) (w_done w ++ [p]) (strict_queue w) (is_queue_empty w)
                    (active_queue w) (do_work_counter w))
    else
      Ok (mk_worker (w_q w) (w_p w) (<[p := c1]> (w_req w)) (w_done w) (strict_queue w) (is_queue_empty w)
                    (active_queue w) (do_work_counter w))
  end.

(** [ccl_strict_sched_queue::add] *)
Definition strict_add (p : nat) (w : worker) : result worker :=
  match store (w_q w) !! p with
  | None => Throw
  | Some f =>
    throw_if_not (no_bin f) ;;
    throw_if_not (strict_order p) ;;
    Ok (mk_worker (w_q w) (w_p w) (w_req w) (w_done w) (strict_queue w ++ [p]) false (active_queue w) (do_work_counter w))
  end.

(** [ccl_worker::add] *)
Definition worker_add (p : nat) (w : worker) : result worker :=
  match store (w_q w) !! p with
  | None => Throw
  | Some f =>
    throw_if_not (no_bin f) ;;
    throw_if_not (negb (bool_decide (in_bin f = in_bin_added))) ;;
    if strict_order p then
      match w_req w !! p with
      | None => Throw
      | Some c => c' <-! increase_counter 1 c ;;
        strict_add p (mk_worker (w_q w) (w_p w) (<[p := c']> (w_req w)) (w_done w) (strict_queue w) (is_queue_empty w)
                                (active_queue w) (do_work_counter w))
      end
    else q <-! queue_add mode atl_eps p (w_q w) ;; Ok (set_q q w)
  end.

Fixpoint reset_in_bin (l : list nat) (q : qstate) : result qstate :=
  match l with
  | [] => Ok q
  | p :: l' =>
    match store q !! p with
    | None => Throw
    | Some f =>
      throw_if_not (no_bin f) ;;
      throw_if_not (negb (bool_decide (in_bin f = in_bin_added))) ;;
      reset_in_bin l' (mk_qstate (bins q) (max_priority q) (cached_max_priority_bin q)
                                 (<[p := set_in_bin_status in_bin_none f]> (store q)))
    end
  end.

(** [ccl_strict_sched_queue::peek] *)
Definition strict_peek (w : worker) : result worker :=
  match active_queue w with
  | _ :: _ => Ok w
  | [] =>
    if is_queue_empty w then Ok w
    else
      throw_if_not (match strict_queue w with [] => false | _ => true end) ;;
      q <-! reset_in_bin (strict_queue w) (w_q w) ;;
      Ok (mk_worker q (w_p w) (w_req w) (w_done w) [] true (strict_queue w) (do_work_counter w))
  end.

(** The loop of [process_strict_sched_queue]: the schedules that stay in the active queue. *)
Fixpoint strict_loop (erased_scheds : nat) (l : list nat) (w : worker) : result (list nat * worker) :=
  match l with
  | [] => Ok ([], w)
  | p :: l' =>
    match store (w_q w) !! p with
    | None => Throw
    | Some f =>
      if bool_decide (in_bin f = in_bin_erased) then
        throw_if_not (no_bin f) ;;
        throw_if_not (S erased_scheds =? 1) ;;
        w <-! complete_sched p w ;;
        strict_loop (S erased_scheds) l' w
      else
        w <-! (if bool_decide (in_bin f = in_bin_none) then
                 throw_if_not (no_bin f) ;;
                 q <-! queue_add mode atl_eps p (w_q w) ;; Ok (set_q q w)
               else Ok w) ;;
        throw_if_not (bool_decide (in_bin <$> store (w_q w) !! p = Some in_bin_added)) ;;
        x <-! progress_sched p w ;;
        if negb (is_strict_order_satisfied (cls p) x.1) then Ok (p :: l', x.2)
        else w <-! complete_sched p x.2 ;; strict_loop erased_scheds l' w
    end
  end.

Definition process_strict_sched_queue (w : worker) : result worker :=
  w <-! strict_peek w ;;
  match active_queue w with
  | [] => Ok w
  | _ => x <-! strict_loop 0 (active_queue w) w ;; Ok (set_active x.1 x.2)
  end.

(** The loop of [process_sched_bin]: [n] is [bin_size - sched_idx]. *)
Fixpoint bin_loop (n idx b completed_sched_count : nat) (w : worker) : result (nat * worker) :=
  match n with
  | O => Ok (completed_sched_count, w)
  | S n' =>
    match from_option sched_list [] (bins (w_q w) !! b) !! idx with
    | None => Throw
    | Some p =>
      throw_if_not (bool_decide ((store (w_q w) !! p) ≫= s_bin = Some b)) ;;
      x <-! progress_sched p w ;;
      if sched_finished x.1 then
        e <-! queue_erase b idx (w_q x.2) ;;
        throw_if_not (from_option no_bin false (store e.2 !! p)) ;;
        w <-! complete_sched p (set_q e.2 x.2) ;;
        bin_loop n' idx b (S completed_sched_count) w
      else bin_loop n' (S idx) b completed_sched_count x.2
    end
  end.

Definition process_sched_bin (b : nat) (w : worker) : result (nat * worker) :=
  match bins (w_q w) !! b with
  | None => Throw
  | Some bn =>
    let bin_size := length (sched_list bn) in
    if bin_size =? 0 then Ok (0, w)
    else
      throw_if_not (poll_ok (bin_atl_ep bn)) ;;
      bin_loop bin_size 0 b 0 w
  end.

Fixpoint process_bins (l : list nat) (completed_sched_count : nat) (w : worker) : result (nat * worker) :=
  match l with
  | [] => Ok (completed_sched_count, w)
  | b :: l' => x <-! process_sched_bin b w ;; process_bins l' (completed_sched_count + x.1) x.2
  end.

Definition process_sched_queue (process_all : bool) (w : worker) : result (nat * worker) :=
  if process_all then process_bins (peek_all (w_q w)) 0 w
  else match peek (w_q w) with None => Ok (0, w) | Some b => process_sched_bin b w end.

Definition do_work (w : worker) : result (nat * worker) :=
  let w := mk_worker (w_q w) (w_p w) (w_req w) (w_done w) (strict_queue w) (is_queue_empty w) (active_queue w)
                     (S (do_work_counter w)) in
  w <-! process_strict_sched_queue w ;;
  process_sched_queue (do_work_counter w mod CCL_WORKER_PROCESS_ALL_ITERS =? 0) w.

(** * Invariant *)

(** The state of the schedule at the head of the active strict queue, the only one of that queue that can be
    in execution: its request counts the strict queue besides the execution. *)
Definition head_ok (w : worker) (p : nat) : Prop :=
  exists f, store (w_q w) !! p = Some f /\
  match in_bin f with
  | in_bin_none => s_bin f = None /\ w_req w !! p = Some 3
  | in_bin_added => is_Some (s_bin f) /\ w_req w !! p = Some 3
  | in_bin_erased => s_bin f = None /\ w_req w !! p = Some 2
  end.

Definition waiting_ok (w : worker) (p : nat) : Prop :=
  exists f, store (w_q w) !! p = Some f /\ s_bin f = None /\ in_bin f = in_bin_none /\ w_req w !! p = Some 3.

(** [act] is what is left of the active queue. *)
Record worker_inv (act : list nat) (w : worker) : Prop := {
  wi_queue : queue_inv mode (fun _ => False) (w_q w);
  wi_prog : forall p f, store (w_q w) !! p = Some f -> exists s k, w_p w !! p = Some s /\ running k s;
  wi_nodup : NoDup (act ++ strict_queue w);
  wi_empty : is_queue_empty w = bool_decide (strict_queue w = []);
  wi_strict : forall p, p ∈ strict_queue w -> exists f,
    store (w_q w) !! p = Some f /\ s_bin f = None /\ in_bin f <> in_bin_added /\ w_req w !! p = Some 3;
  wi_head : forall p l, act = p :: l -> head_ok w p;
  wi_tail : forall p, p ∈ tail act -> waiting_ok w p;
  wi_bin : forall p f, store (w_q w) !! p = Some f -> is_Some (s_bin f) ->
    in_bin f = in_bin_added /\ w_req w !! p = Some (if decide (p ∈ act) then 3 else 2) }.

Context (o_ok : forall p, oracle_ok (o p)) (eps_ok : atl_eps <> []).

(** * Lemmas *)

Lemma complete_sched_ok p c w : w_req w !! p = Some c -> 2 <= c ->
  exists d, complete_sched p w =
    Ok (mk_worker (w_q w) (w_p w) (<[p := if c =? 2 then 0 else c - 1]> (w_req w)) d (strict_queue w)
                  (is_queue_empty w) (active_queue w) (do_work_counter w)).
Proof.
  intros Hc H2. unfold complete_sched, complete_counter. rewrite Hc. rewrite (proj2 (Nat.ltb_lt _ _)) by lia. cbn [result_bind].
  destruct (Nat.eqb_spec (c - 1) 1) as [E|E]; destruct (Nat.eqb_spec c 2) as [E'|E']; try lia; [|by eexists].
  rewrite E. cbn. by eexists.
Qed.

Lemma progress_sched_ok act p f w : worker_inv act w -> store (w_q w) !! p = Some f ->
  exists s s' k, w_p w !! p = Some s /\ do_progress (o p) s = Ok s' /\ running k s' /\
    progress_sched p w = Ok (s', set_p (<[p := s']> (w_p w)) w).
Proof.
  intros Hinv Hf. destruct (wi_prog _ _ Hinv p f Hf) as (s & k & Hs & HR).
  destruct (do_progress_ok (o p) k s (o_ok p) HR) as (s' & k' & E & HR' & _).
  exists s, s', k'. unfold progress_sched. rewrite Hs, E. done.
Qed.

Lemma set_p_inv act p s k w : worker_inv act w -> running k s -> worker_inv act (set_p (<[p := s]> (w_p w)) w).
Proof.
  intros [] HR. split; try done. cbn. intros q f Hq. destruct (decide (q = p)) as [->|].
  - exists s, k. by rewrite lookup_insert_eq.
  - rewrite lookup_insert_ne by done. by apply (wi_prog0 q f).
Qed.

(** A schedule leaves its bin and its request loses one count. *)
Lemma leave_bin_inv act p f q' d w :
  worker_inv act w -> store (w_q w) !! p = Some f -> is_Some (s_bin f) -> queue_inv mode (fun _ => False) q' ->
  store q' = <[p := set_bin None (set_in_bin_status in_bin_erased f)]> (store (w_q w)) ->
  exists c, w_req w !! p = Some c /\ 2 <= c /\
  worker_inv act (mk_worker q' (w_p w) (<[p := if c =? 2 then 0 else c - 1]> (w_req w)) d (strict_queue w)
                            (is_queue_empty w) (active_queue w) (do_work_counter w)).
Proof.
  intros [] Hf Hb Hq' Hst. destruct (wi_bin0 p f Hf Hb) as [Hin Hreq].
  assert (Hother : forall q, q <> p -> store q' !! q = store (w_q w) !! q) by (intros; by rewrite Hst, lookup_insert_ne).
  assert (Hnot_tail : p ∉ tail act) by (intros Hp; destruct (wi_tail0 p Hp) as (g & ? & ? & _); destruct Hb; congruence).
  assert (Hnot_strict : p ∉ strict_queue w)
    by (intros Hp; destruct (wi_strict0 p Hp) as (g & ? & ? & _); destruct Hb; congruence).
  eexists. split; [exact Hreq|]. split; [by case_decide; lia|]. split; cbn; try done.
  - intros q g Hq. destruct (decide (q = p)) as [->|]; [by apply (wi_prog0 p f)|]. rewrite Hother in Hq by done. eauto.
  - intros q Hq. assert (q <> p) by congruence. rewrite Hother, lookup_insert_ne by done. auto.
  - intros q l ->. destruct (decide (q = p)) as [->|].
    + exists (set_bin None (set_in_bin_status in_bin_erased f)). cbn. rewrite Hst, !lookup_insert_eq.
      rewrite decide_True by left. done.
    + unfold head_ok. cbn. rewrite Hother, lookup_insert_ne by done. by apply (wi_head0 q l).
  - intros q Hq. assert (q <> p) by congruence. unfold waiting_ok. cbn. rewrite Hother, lookup_insert_ne by done. by apply wi_tail0.
  - intros q g Hq Hgb. destruct (decide (q = p)) as [->|Hne].
    + rewrite Hst, lookup_insert_eq in Hq. injection Hq as <-. by destruct Hgb.
    + rewrite lookup_insert_ne by done. rewrite Hother in Hq by done. eauto.
Qed.

(** What a turn does to schedule [p], and to no other. *)
Definition progressed (p : nat) (w w' : worker) : Prop :=
  exists s s', w_p w !! p = Some s /\ do_progress (o p) s = Ok s' /\ w_p w' !! p = Some s'.
Definition turn (L : list nat) (w w' : worker) : Prop :=
  forall p, (p ∈ L -> progressed p w w') /\ (p ∉ L -> w_p w' !! p = w_p w !! p).
Definition unfinished (w : worker) (p : nat) : Prop := sched_finished <$> w_p w !! p = Some false.
#[global] Instance unfinished_dec w p : Decision (unfinished w p).
Proof. unfold unfinished. apply _. Defined.

Definition bin_list (b : nat) (w : worker) : list nat := from_option sched_list [] (bins (w_q w) !! b).

Lemma turn_cons p L L' w1 w w' s s' :
  w_p w !! p = Some s -> do_progress (o p) s = Ok s' -> w_p w1 = <[p := s']> (w_p w) -> p ∉ L -> L ≡ₚ L' ->
  turn L' w1 w' -> turn (p :: L) w w' /\ w_p w' !! p = Some s'.
Proof.
  intros Hs E H1 Hp HL Ht. assert (Hp' : w_p w' !! p = Some s').
  { destruct (Ht p) as [_ ->]; [by rewrite H1, lookup_insert_eq|by rewrite <- HL]. }
  split; [|done]. intros q. split.
  - intros [->|Hq]%elem_of_cons; [by exists s, s'|]. assert (q <> p) by congruence. rewrite HL in Hq.
    destruct (Ht q) as [(t & t' & ? & ? & ?) _]; [done|]. exists t, t'. rewrite H1, lookup_insert_ne in *; done.
  - intros [Hq1 Hq2]%not_elem_of_cons. destruct (Ht q) as [_ ->]; [|by rewrite <- HL]. by rewrite H1, lookup_insert_ne.
Qed.
(** * A turn over a bin *)

(** A finished schedule is erased from its bin and its request completed. *)
Lemma retire_ok act b idx p w : worker_inv act w -> bin_list b w !! idx = Some p ->
  exists q' w', queue_erase b idx (w_q w) = Ok (idx, q') /\ from_option no_bin false (store q' !! p) = true /\
    complete_sched p (set_q q' w) = Ok w' /\ worker_inv act w' /\ w_p w' = w_p w /\
    bin_list b w' = swap_remove idx (bin_list b w) /\ (forall k, k <> b -> bin_list k w' = bin_list k w) /\
    active_queue w' = active_queue w.
Proof.
  intros Hinv Hp.
  destruct (queue_erase_inv mode (w_q w) b idx p (wi_queue _ _ Hinv) Hp) as (f & q' & E & Hq' & Hf & Hfb & Hst & Hl & Hk).
  destruct (leave_bin_inv act p f q' [] w Hinv Hf ltac:(by rewrite Hfb) Hq' Hst) as (c & Hc & H2 & _).
  destruct (complete_sched_ok p c (set_q q' w) Hc H2) as (d & Ec).
  destruct (leave_bin_inv act p f q' d w Hinv Hf ltac:(by rewrite Hfb) Hq' Hst) as (c' & Hc' & _ & Hinv2).
  rewrite Hc in Hc'. injection Hc' as <-. eexists q', _. split; [done|]. split; [by rewrite Hst, lookup_insert_eq|].
  split; [exact Ec|]. split; [done|]. do 2 (split; [done|]). split; [|done]. intros k Hne. unfold bin_list. cbn. by rewrite Hk.
Qed.

(** The schedule at a position of a bin. *)
Lemma bin_list_sched act b idx p w : worker_inv act w -> bin_list b w !! idx = Some p ->
  exists f, store (w_q w) !! p = Some f /\ s_bin f = Some b /\ p ∉ drop (S idx) (bin_list b w).
Proof.
  intros Hinv Hp. assert (exists bn, bins (w_q w) !! b = Some bn /\ sched_list bn = bin_list b w) as (bn & Hbn & Hbl).
  { unfold bin_list in *. destruct (bins (w_q w) !! b) as [bn|]; [by exists bn|done]. }
  destruct (qi_in _ _ _ (wi_queue _ _ Hinv) b bn p Hbn) as (f & Hf & Hfb).
  { rewrite Hbl. by eapply list_elem_of_lookup_2. }
  exists f. split; [done|]. split; [done|].
  pose proof (qi_nodup _ _ _ (wi_queue _ _ Hinv) b bn Hbn) as Hnd. rewrite Hbl in Hnd.
  rewrite <- (take_drop_middle _ _ _ Hp) in Hnd. apply NoDup_app in Hnd as (_ & _ & Hnd). by apply NoDup_cons in Hnd as [? _].
Qed.

Lemma bin_loop_ok act b n : forall idx cnt w,
  worker_inv act w -> n + idx = length (bin_list b w) ->
  exists cnt' w', bin_loop n idx b cnt w = Ok (cnt', w') /\ worker_inv act w' /\
    turn (drop idx (bin_list b w)) w w' /\
    bin_list b w' ≡ₚ take idx (bin_list b w) ++ filter (unfinished w') (drop idx (bin_list b w)) /\
    cnt' + length (bin_list b w') = cnt + length (bin_list b w) /\
    (forall k, k <> b -> bin_list k w' = bin_list k w) /\ active_queue w' = active_queue w.
Proof.
  induction n as [|n IH]; intros idx cnt w Hinv Hn; cbn [bin_loop]; fold (bin_list b w).
  { exists cnt, w. rewrite drop_ge, take_ge, filter_nil, app_nil_r by lia. split_and!; try done.
    intros p. split; [intros Hp; by apply not_elem_of_nil in Hp|done]. }
  destruct (lookup_lt_is_Some_2 (bin_list b w) idx) as [p Hp]; [lia|]. rewrite Hp.
  destruct (bin_list_sched _ _ _ _ _ Hinv Hp) as (f & Hf & Hfb & Hpn).
  rewrite Hf. cbn [mbind option_bind]. rewrite bool_decide_true by done.
  destruct (progress_sched_ok _ p f w Hinv Hf) as (s & s' & k & Hs & E & HR & ->). cbn [result_bind fst snd].
  pose proof (set_p_inv _ p s' k w Hinv HR) as Hinv1. set (w1 := set_p (<[p := s']> (w_p w)) w) in *.
  assert (Hbl1 : bin_list b w1 = bin_list b w) by done. rewrite (drop_S _ _ _ Hp). destruct (sched_finished s') eqn:Efin.
  - destruct (retire_ok act b idx p w1 Hinv1 Hp) as (q' & w2 & -> & Hnb & Ec & Hinv2 & Hwp & Hbl2 & Hk & Hact2).
    cbn [result_bind snd]. rewrite Hnb, Ec. cbn [result_bind]. rewrite Hbl1 in Hbl2.
    destruct (IH idx (S cnt) w2 Hinv2) as (cnt' & w' & Eloop & Hinv' & Hturn & Hperm & Hcnt & Hoth & Hact).
    { rewrite Hbl2, (length_swap_remove _ _ _ Hp). lia. }
    rewrite Hbl2, (swap_remove_take _ _ _ Hp) in *. pose proof (swap_remove_drop _ _ _ Hp) as Hdrop.
    destruct (turn_cons p (drop (S idx) (bin_list b w)) _ w2 w w' s s' Hs E Hwp Hpn ltac:(by symmetry) Hturn) as [Ht Hp'].
    exists cnt', w'. split_and!; try done.
    + rewrite Hperm, Hdrop, filter_cons_False; [done|]. unfold unfinished. rewrite Hp'. cbn. by rewrite Efin.
    + rewrite (length_swap_remove _ _ _ Hp) in Hcnt. lia.
    + intros k' Hne. by rewrite Hoth, Hk.
    + by rewrite Hact, Hact2.
  - destruct (IH (S idx) cnt w1 Hinv1) as (cnt' & w' & Eloop & Hinv' & Hturn & Hperm & Hcnt & Hoth & Hact); [rewrite Hbl1; lia|].
    rewrite Hbl1 in *.
    destruct (turn_cons p _ _ w1 w w' s s' Hs E eq_refl Hpn ltac:(done) Hturn) as [Ht Hp'].
    exists cnt', w'. split_and!; try done.
    rewrite Hperm, (take_S_r _ _ _ Hp), <- app_assoc, filter_cons_True; [done|]. unfold unfinished. rewrite Hp'. cbn. by rewrite Efin.
Qed.

Context (poll_succeeds : forall ep, poll_ok ep = true).

Lemma process_sched_bin_ok act b w : worker_inv act w -> is_Some (bins (w_q w) !! b) ->
  exists cnt w', process_sched_bin b w = Ok (cnt, w') /\ worker_inv act w' /\ turn (bin_list b w) w w' /\
    bin_list b w' ≡ₚ filter (unfinished w') (bin_list b w) /\ cnt + length (bin_list b w') = length (bin_list b w) /\
    (forall k, k <> b -> bin_list k w' = bin_list k w) /\ active_queue w' = active_queue w.
Proof.
  intros Hinv [bn Hbn]. unfold process_sched_bin. rewrite Hbn, poll_succeeds.
  assert (Hbl : bin_list b w = sched_list bn) by (unfold bin_list; by rewrite Hbn).
  destruct (Nat.eqb_spec (length (sched_list bn)) 0) as [H0|H0].
  - destruct (qi_nonempty _ _ _ (wi_queue _ _ Hinv) b bn Hbn). by apply nil_length_inv.
  - rewrite <- Hbl. destruct (bin_loop_ok act b (length (bin_list b w)) 0 0 w Hinv ltac:(lia)) as (cnt & w' & -> & H).
    exists cnt, w'. split; [done|]. by rewrite drop_0, take_0 in H.
Qed.

Lemma bin_present act b w : worker_inv act w -> is_Some (bins (w_q w) !! b) <-> bin_list b w <> [].
Proof.
  intros Hinv. unfold bin_list. destruct (bins (w_q w) !! b) as [bn|] eqn:E; cbn; [|split; [by intros []|done]].
  split; [|by eexists]. intros _ Hnil. by destruct (qi_nonempty _ _ _ (wi_queue _ _ Hinv) b bn E).
Qed.

Lemma process_bins_ok act l : forall cnt w,
  worker_inv act w -> NoDup l -> (forall b, b ∈ l -> is_Some (bins (w_q w) !! b)) ->
  exists cnt' w', process_bins l cnt w = Ok (cnt', w') /\ worker_inv act w' /\ active_queue w' = active_queue w.
Proof.
  induction l as [|b l IH]; intros cnt w Hinv Hnd Hl; cbn [process_bins]; [by exists cnt, w|].
  apply NoDup_cons in Hnd as [Hb Hnd].
  destruct (process_sched_bin_ok act b w Hinv (Hl b ltac:(left))) as (c1 & w1 & -> & Hinv1 & _ & _ & _ & Hk & Ha).
  cbn [result_bind fst snd]. destruct (IH (cnt + c1) w1 Hinv1 Hnd) as (c2 & w2 & -> & ? & ?).
  - intros k Hkl. rewrite (bin_present act k w1 Hinv1), Hk by congruence. rewrite <- (bin_present act k w Hinv). apply Hl. by right.
  - exists c2, w2. split; [done|]. split; [done|]. congruence.
Qed.

Lemma process_sched_queue_ok act all w : worker_inv act w ->
  exists cnt w', process_sched_queue all w = Ok (cnt, w') /\ worker_inv act w' /\ active_queue w' = active_queue w.
Proof.
  intros Hinv. destruct all; cbn [process_sched_queue].
  - apply process_bins_ok; [done|apply NoDup_fst_map_to_list|]. intros b Hb. apply list_elem_of_fmap in Hb as ([k bn] & -> & Hb).
    apply elem_of_map_to_list in Hb. by eexists.
  - unfold peek. destruct (cached_max_priority_bin (w_q w)) as [b|] eqn:E; [|by exists 0, w].
    destruct (process_sched_bin_ok act b w Hinv) as (c & w' & ? & ? & _ & _ & _ & _ & ?); [|by exists c, w'].
    destruct (qi_max _ _ _ (wi_queue _ _ Hinv)) as [(_ & _ & E')|[H E']]; congruence.
Qed.
(** * The strict queue *)

(** A schedule of the strict queue enters execution. *)
Lemma enter_inv act p f w : worker_inv act w -> store (w_q w) !! p = Some f -> s_bin f = None ->
  (p ∉ strict_queue w) -> (p ∉ tail act) -> w_req w !! p = Some (if decide (p ∈ act) then 3 else 2) ->
  exists q' f', queue_add mode atl_eps p (w_q w) = Ok q' /\ store q' !! p = Some f' /\ in_bin f' = in_bin_added /\
    worker_inv act (set_q q' w).
Proof.
  intros [] Hf Hb Hns Hnt Hreq.
  destruct (queue_add_inv mode atl_eps (w_q w) p f eps_ok wi_queue0 Hf Hb) as (q' & f' & E & Hq' & Hf' & Hb' & Hin & Hother).
  exists q', f'. do 3 (split; [done|]). split; cbn; try done.
  - intros q g Hq. destruct (decide (q = p)) as [->|]; [by apply (wi_prog0 p f)|]. rewrite Hother in Hq by done. eauto.
  - intros q Hq. rewrite Hother by congruence. auto.
  - intros q l ->. unfold head_ok. cbn. destruct (decide (q = p)) as [->|].
    + exists f'. split; [done|]. rewrite Hin. split; [done|]. rewrite Hreq, decide_True by left. done.
    + rewrite Hother by done. by apply (wi_head0 q l).
  - intros q Hq. unfold waiting_ok. cbn. rewrite Hother by congruence. by apply wi_tail0.
  - intros q g Hq Hgb. destruct (decide (q = p)) as [->|Hne]; [|rewrite Hother in Hq by done; eauto].
    rewrite Hf' in Hq. injection Hq as <-. done.
Qed.

Lemma waiting_head w p : waiting_ok w p -> head_ok w p.
Proof. intros (f & Hf & Hb & Hin & Hr). exists f. by rewrite Hin. Qed.

(** The head of the strict queue is released: its request loses the strict queue's count. *)
Lemma release_inv p l c d w : worker_inv (p :: l) w -> w_req w !! p = Some c ->
  (forall f, store (w_q w) !! p = Some f -> in_bin f <> in_bin_none) ->
  worker_inv l (mk_worker (w_q w) (w_p w) (<[p := if c =? 2 then 0 else c - 1]> (w_req w)) d (strict_queue w)
                          (is_queue_empty w) (active_queue w) (do_work_counter w)).
Proof.
  intros [] Hc Hst. destruct (wi_head0 p l eq_refl) as (f & Hf & Hhead).
  apply NoDup_cons in wi_nodup0 as [Hp Hnd]. apply not_elem_of_app in Hp as [Hpl Hps].
  split; cbn; try done.
  - intros q Hq. rewrite lookup_insert_ne by congruence. auto.
  - intros q l' ->. apply waiting_head. unfold waiting_ok. cbn. 
    rewrite lookup_insert_ne by (intros ->; apply Hpl; left). apply wi_tail0. left.
  - intros q Hq. assert (Hql : q ∈ l) by (destruct l; [done|by right]). unfold waiting_ok. cbn.
    rewrite lookup_insert_ne by congruence. by apply wi_tail0.
  - intros q g Hq Hgb. destruct (wi_bin0 q g Hq Hgb) as [Hin Hreq]. split; [done|]. destruct (decide (q = p)) as [->|Hne].
    + rewrite Hf in Hq. injection Hq as <-. rewrite Hin in Hhead. destruct Hhead as [_ H3]. rewrite Hc in H3. injection H3 as ->.
      rewrite lookup_insert_eq, decide_False by done. done.
    + rewrite lookup_insert_ne by done. rewrite Hreq. f_equal. apply decide_ext. rewrite elem_of_cons. split; [by intros [?|?]|by right].
Qed.

(** What [process_strict_sched_queue] may release: schedules all of whose entries have begun, those of the sub-schedules of collectives included, or that were
    completed by the worker since the last turn. *)
Definition released (w w' : worker) (p : nat) : Prop :=
  (in_bin <$> store (w_q w) !! p = Some in_bin_erased) \/
  exists s, w_p w' !! p = Some s /\ forall idx e, p_entries s !! idx = Some e -> has_begun (strict_view (cls p idx) (e_status e)).

Lemma strict_head_step p l w : worker_inv (p :: l) w -> in_bin <$> store (w_q w) !! p <> Some in_bin_erased ->
  exists w1 s' k, worker_inv (p :: l) (set_p (<[p := s']> (w_p w1)) w1) /\ running k s' /\ w_req w1 !! p = Some 3 /\
    in_bin <$> store (w_q w1) !! p = Some in_bin_added /\ w_p w1 = w_p w /\
    (forall q, q <> p -> store (w_q w1) !! q = store (w_q w) !! q) /\
    forall e, strict_loop e (p :: l) w =
      if negb (is_strict_order_satisfied (cls p) s') then Ok (p :: l, set_p (<[p := s']> (w_p w1)) w1)
      else (w2 <-! complete_sched p (set_p (<[p := s']> (w_p w1)) w1) ;; strict_loop e l w2).
Proof.
  intros Hinv Hne. destruct (wi_head _ _ Hinv p l eq_refl) as (f & Hf & Hhead). rewrite Hf in Hne. cbn [fmap option_fmap option_map] in Hne.
  assert (exists w1 f1, worker_inv (p :: l) w1 /\ store (w_q w1) !! p = Some f1 /\ in_bin f1 = in_bin_added /\ w_p w1 = w_p w /\
    w_req w1 !! p = Some 3 /\ (forall q, q <> p -> store (w_q w1) !! q = store (w_q w) !! q) /\
    (if bool_decide (in_bin f = in_bin_none) then
       throw_if_not (no_bin f) ;; q <-! queue_add mode atl_eps p (w_q w) ;; Ok (set_q q w)
     else Ok w) = Ok w1) as (w1 & f1 & Hinv1 & Hf1 & Hin1 & Hwp & Hr1 & Hoth & E1).
  { case_bool_decide as Hn.
    - rewrite Hn in Hhead. destruct Hhead as [Hb Hr]. pose proof (wi_nodup _ _ Hinv) as Hnd. apply NoDup_cons in Hnd as [Hp _].
      apply not_elem_of_app in Hp as [Hpl Hps].
      destruct (enter_inv (p :: l) p f w Hinv Hf Hb Hps Hpl) as (q' & f' & E & Hf' & Hin & Hinv'); [rewrite decide_True; [done|left]|].
      exists (set_q q' w), f'. unfold no_bin. rewrite Hb, E. split_and!; try done. cbn.
      destruct (queue_add_inv mode atl_eps (w_q w) p f eps_ok (wi_queue _ _ Hinv) Hf Hb) as (q2 & f2 & E2 & _ & _ & _ & _ & H2).
      rewrite E in E2. injection E2 as <-. done.
    - exists w, f. destruct (in_bin f) eqn:Ei; [done| |congruence]. split_and!; try done. apply Hhead. }
  destruct (progress_sched_ok _ p f1 w1 Hinv1 Hf1) as (s & s' & k & Hs & E & HR & Ep).
  exists w1, s', k. split; [by apply (set_p_inv _ _ _ k)|]. do 2 (split; [done|]). rewrite Hf1. cbn [fmap option_fmap option_map].
  rewrite Hin1. do 3 (split; [done|]). intros e. cbn [strict_loop]. rewrite Hf, (bool_decide_false (in_bin f = in_bin_erased)) by congruence.
  rewrite E1. cbn [result_bind]. rewrite Hf1. cbn [fmap option_fmap option_map]. rewrite bool_decide_true by congruence.
  rewrite Ep. done.
Qed.

Lemma strict_loop_ok l : forall e w, worker_inv l w -> (e = 0 \/ forall p, p ∈ l -> waiting_ok w p) -> e <= 1 ->
  exists d l' w', strict_loop e l w = Ok (l', w') /\ worker_inv l' w' /\ l = d ++ l' /\ Forall (released w w') d /\
    (forall q, q ∉ l -> w_p w' !! q = w_p w !! q).
Proof.
  induction l as [|p l IH]; intros e w Hinv Hwait He; [exists [], [], w; cbn; split_and!; done|].
  pose proof (wi_nodup _ _ Hinv) as Hnd. apply NoDup_cons in Hnd as [Hp _]. apply not_elem_of_app in Hp as [Hpl _].
  assert (Hlw : forall q, q ∈ l -> waiting_ok w q) by (intros q Hq; by apply (wi_tail _ _ Hinv)).
  destruct (decide (in_bin <$> store (w_q w) !! p = Some in_bin_erased)) as [Her|Hne].
  - assert (e = 0) as ->.
    { destruct Hwait as [?|Hw]; [done|]. destruct (Hw p ltac:(left)) as (f & Hf & _ & Hin & _). rewrite Hf in Her. cbn in Her. congruence. }
    destruct (wi_head _ _ Hinv p l eq_refl) as (f & Hf & Hhead). rewrite Hf in Her. injection Her as Her. rewrite Her in Hhead.
    destruct Hhead as [Hb Hr]. cbn [strict_loop]. rewrite Hf, bool_decide_true by done. unfold no_bin. rewrite Hb. cbn [Nat.eqb].
    destruct (complete_sched_ok p 2 w Hr ltac:(lia)) as (d0 & ->). cbn [result_bind].
    assert (Hin_none : forall g, store (w_q w) !! p = Some g -> in_bin g <> in_bin_none) by (intros g Hg; congruence).
    pose proof (release_inv p l 2 d0 w Hinv Hr Hin_none) as Hinv1.
    match type of Hinv1 with worker_inv _ ?x => set (w1 := x) in * end.
    destruct (IH 1 w1 Hinv1) as (d & l' & w' & E & Hinv' & -> & Hrel & Hfr); [|lia|].
    { right. intros q Hq. destruct (Hlw q Hq) as (g & Hg & ? & ? & ?). exists g. cbn. rewrite lookup_insert_ne by congruence. done. }
    exists (p :: d), l', w'. split_and!; try done.
    + constructor; [left; rewrite Hf; cbn; by rewrite Her|done].
    + intros q [_ Hq]%not_elem_of_cons. by rewrite Hfr.
  - destruct (strict_head_step p l w Hinv Hne) as (w1 & s' & k & Hinv1 & HR & Hr & Hadd & Hwp & Hoth & E). rewrite (E e).
    destruct (is_strict_order_satisfied (cls p) s') eqn:Esat; cbn [negb].
    + destruct (complete_sched_ok p 3 (set_p (<[p := s']> (w_p w1)) w1) Hr ltac:(lia)) as (d0 & ->). cbn [result_bind].
      assert (Hin_none : forall g, store (w_q w1) !! p = Some g -> in_bin g <> in_bin_none).
      { intros g Hg. rewrite Hg in Hadd. injection Hadd as ->. done. }
      pose proof (release_inv p l 3 d0 _ Hinv1 Hr Hin_none) as Hinv2.
      match type of Hinv2 with worker_inv _ ?x => set (w2 := x) in * end.
      destruct (IH e w2 Hinv2) as (d & l' & w' & E' & Hinv' & -> & Hrel & Hfr); [|done|].
      { right. intros q Hq. destruct (wi_tail _ _ Hinv1 q Hq) as (g & Hg & ? & ? & ?). exists g. cbn in *.
        rewrite lookup_insert_ne by congruence. done. }
      exists (p :: d), l', w'. split_and!; try done.
      * constructor; [right; exists s'; rewrite Hfr by done; cbn; rewrite lookup_insert_eq; split; [done|]; intros idx x Hx; by apply (strict_order_begun (cls p) s')|].
        apply Forall_forall. intros q Hq. rewrite Forall_forall in Hrel. destruct (Hrel q Hq) as [Hq'|?]; [left|by right].
        rewrite <- Hq'. cbn. rewrite Hoth; [done|]. intros ->. apply Hpl, elem_of_app. by left.
      * intros q [Hqp Hq]%not_elem_of_cons. rewrite Hfr by done. cbn. by rewrite lookup_insert_ne, Hwp.
    + exists [], (p :: l), (set_p (<[p := s']> (w_p w1)) w1). split_and!; try done.
      intros q [Hqp Hq]%not_elem_of_cons. cbn. by rewrite lookup_insert_ne, Hwp.
Qed.
(** Resetting the status of schedules that are in no bin. *)
Lemma reset_in_bin_ok l : forall q,
  queue_inv mode (fun _ => False) q -> NoDup l ->
  (forall p, p ∈ l -> exists f, store q !! p = Some f /\ s_bin f = None /\ in_bin f <> in_bin_added) ->
  exists q', reset_in_bin l q = Ok q' /\ queue_inv mode (fun _ => False) q' /\ 
    (forall p, p ∈ l -> store q' !! p = set_in_bin_status in_bin_none <$> store q !! p) /\
    (forall p, p ∉ l -> store q' !! p = store q !! p).
Proof.
  induction l as [|p l IH]; intros q Hq Hnd Hl; cbn [reset_in_bin].
  { exists q. split_and!; try done. intros p Hp. by apply not_elem_of_nil in Hp. }
  apply NoDup_cons in Hnd as [Hpl Hnd]. destruct (Hl p ltac:(left)) as (f & Hf & Hb & Hin). rewrite Hf. unfold no_bin. rewrite Hb.
  rewrite bool_decide_false by done. cbn [negb].
  set (q1 := mk_qstate (bins q) (max_priority q) (cached_max_priority_bin q) (<[p := set_in_bin_status in_bin_none f]> (store q))).
  assert (Hq1 : queue_inv mode (fun _ => False) q1).
  { destruct Hq. split; cbn; eauto.
    - intros k bn x Hk Hx. destruct (qi_in k bn x Hk Hx) as (g & ? & ?). exists g. rewrite lookup_insert_ne; [done|]. congruence.
    - intros x g k. destruct (decide (x = p)) as [->|]; [rewrite lookup_insert_eq; intros [= <-]; cbn; congruence|].
      rewrite lookup_insert_ne by done. auto. }
  destruct (IH q1 Hq1 Hnd) as (q' & E & Hq' & Hin' & Hout').
  { intros x Hx. cbn. rewrite lookup_insert_ne by congruence. apply Hl. by right. }
  exists q'. split; [done|]. split; [done|]. split.
  - intros x [->|Hx]%elem_of_cons; [rewrite Hout', Hf by done; cbn; by rewrite lookup_insert_eq|].
    rewrite Hin' by done. cbn. by rewrite lookup_insert_ne by congruence.
  - intros x [Hxp Hx]%not_elem_of_cons. rewrite Hout' by done. cbn. by rewrite lookup_insert_ne.
Qed.

Lemma strict_peek_ok w : worker_inv (active_queue w) w ->
  exists w', strict_peek w = Ok w' /\ worker_inv (active_queue w') w' /\ w_p w' = w_p w.
Proof.
  intros Hinv. unfold strict_peek. destruct (active_queue w) as [|x l] eqn:Eact; [|exists w; rewrite Eact; done].
  rewrite (wi_empty _ _ Hinv). case_bool_decide as Hs; [exists w; rewrite Eact; done|].
  assert ((match strict_queue w with [] => false | _ :: _ => true end) = true) as -> by (by destruct (strict_queue w)).
  destruct (reset_in_bin_ok (strict_queue w) (w_q w) (wi_queue _ _ Hinv) (wi_nodup _ _ Hinv)) as (q' & -> & Hq' & Hin & Hout).
  { intros p Hp. destruct (wi_strict _ _ Hinv p Hp) as (f & ? & ? & ? & _). by exists f. }
  cbn [result_bind]. eexists. split; [done|]. cbn. split; [|done].
  assert (Hw : forall p, p ∈ strict_queue w -> waiting_ok (mk_worker q' (w_p w) (w_req w) (w_done w) [] true (strict_queue w) (do_work_counter w)) p).
  { intros p Hp. destruct (wi_strict _ _ Hinv p Hp) as (f & Hf & Hb & _ & Hr). exists (set_in_bin_status in_bin_none f). cbn.
    by rewrite Hin, Hf by done. }
  destruct Hinv. split; cbn; try done.
  - intros p f Hp. destruct (decide (p ∈ strict_queue w)) as [Hs'|Hs'].
    + destruct (wi_strict0 p Hs') as (g & Hg & _). by apply (wi_prog0 p g).
    + rewrite Hout in Hp by done. eauto.
  - by rewrite app_nil_r.
  - intros p Hp. by apply not_elem_of_nil in Hp.
  - intros p l E. apply waiting_head, Hw. rewrite E. left.
  - intros p Hp. apply Hw. destruct (strict_queue w); [done|by right].
  - intros p f Hp Hb. destruct (decide (p ∈ strict_queue w)) as [Hs'|Hs'].
    + destruct (wi_strict0 p Hs') as (g & Hg & Hgb & _). rewrite Hin, Hg in Hp by done. injection Hp as <-.
      cbn in Hb. rewrite Hgb in Hb. by destruct Hb.
    + rewrite Hout in Hp by done. destruct (wi_bin0 p f Hp Hb) as [? ->]. split; [done|]. f_equal.
Qed.

Lemma set_active_inv l w : worker_inv l w -> worker_inv (active_queue (set_active l w)) (set_active l w).
Proof. by intros []. Qed.

Lemma process_strict_ok w : worker_inv (active_queue w) w ->
  exists w0 d w', strict_peek w = Ok w0 /\ process_strict_sched_queue w = Ok w' /\ worker_inv (active_queue w') w' /\
    active_queue w0 = d ++ active_queue w' /\ Forall (released w0 w') d.
Proof.
  intros (w0 & E0 & Hinv0 & _)%strict_peek_ok. unfold process_strict_sched_queue. rewrite E0. cbn [result_bind].
  destruct (strict_loop_ok (active_queue w0) 0 w0 Hinv0 ltac:(by left) ltac:(lia)) as (d & l' & w1 & E1 & Hinv1 & Hd & Hrel & _).
  destruct (active_queue w0) as [|p l] eqn:Eact.
  - exists w0, [], w0. rewrite Eact. split_and!; try done.
  - rewrite E1. cbn [result_bind fst snd]. exists w0, d, (set_active l' w1). rewrite Eact. split_and!; try done. by apply set_active_inv.
Qed.

Lemma do_work_ok w : worker_inv (active_queue w) w ->
  exists cnt w', do_work w = Ok (cnt, w') /\ worker_inv (active_queue w') w'.
Proof.
  intros Hinv. unfold do_work. set (w1 := mk_worker _ _ _ _ _ _ _ _).
  assert (Hinv1 : worker_inv (active_queue w1) w1) by (by destruct Hinv).
  destruct (process_strict_ok w1 Hinv1) as (w0 & d & w2 & _ & -> & Hinv2 & _). cbn [result_bind].
  destruct (process_sched_queue_ok _ (do_work_counter w2 mod CCL_WORKER_PROCESS_ALL_ITERS =? 0) w2 Hinv2) as (c & w' & -> & Hinv' & Ha).
  exists c, w'. rewrite Ha. done.
Qed.

(** A schedule ready to be handed to the worker: in none of its queues, its request counting one execution. *)
Definition submittable (p : nat) (w : worker) : Prop :=
  exists f, store (w_q w) !! p = Some f /\ s_bin f = None /\ in_bin f <> in_bin_added /\ w_req w !! p = Some 2 /\
    (p ∉ active_queue w) /\ (p ∉ strict_queue w).

Lemma worker_add_ok p w : worker_inv (active_queue w) w -> submittable p w ->
  exists w', worker_add p w = Ok w' /\ worker_inv (active_queue w') w'.
Proof.
  intros Hinv (f & Hf & Hb & Hin & Hr & Hna & Hns). unfold worker_add. rewrite Hf. unfold no_bin at 1. rewrite Hb.
  rewrite bool_decide_false by done. cbn [negb]. destruct (strict_order p) eqn:Es.
  - rewrite Hr. cbn [increase_counter Nat.ltb result_bind]. unfold strict_add. cbn. rewrite Hf. unfold no_bin. rewrite Hb, Es.
    eexists. split; [done|]. cbn. destruct Hinv. split; cbn; try done.
    + rewrite app_assoc. apply NoDup_app. split; [done|]. split; [|apply NoDup_singleton].
      intros q Hq ->%list_elem_of_singleton. apply elem_of_app in Hq as [?|?]; done.
    + by rewrite bool_decide_false by (by destruct (strict_queue w)).
    + intros q. rewrite elem_of_app, list_elem_of_singleton. intros [Hq| ->].
      * rewrite lookup_insert_ne by congruence. auto.
      * exists f. by rewrite lookup_insert_eq.
    + intros q l E. assert (q <> p) by (intros ->; apply Hna; rewrite E; left).
      unfold head_ok. cbn. rewrite lookup_insert_ne by done. by apply (wi_head0 q l).
    + intros q Hq. unfold waiting_ok. cbn. rewrite lookup_insert_ne; [by apply wi_tail0|].
      intros <-. apply Hna. destruct (active_queue w); [done|by right].
    + intros q g Hq Hgb. rewrite lookup_insert_ne by (intros <-; destruct Hgb; congruence). eauto.
  - destruct (enter_inv (active_queue w) p f w Hinv Hf Hb Hns) as (q' & f' & -> & _ & _ & Hinv').
    + intros Hp. apply Hna. destruct (active_queue w); [done|by right].
    + by rewrite decide_False.
    + cbn [result_bind]. eexists. split; [done|]. done.
Qed.
End worker.

(** * Reachable states *)

Section reachable.
Context (mode : ccl_priority_mode) (atl_eps : list nat) (strict_order : nat -> bool).

Definition w_initial (w : worker) : Prop :=
  (exists st, w_q w = new_queue st /\
     (forall p f, st !! p = Some f -> s_bin f = None /\ exists s, w_p w !! p = Some s /\ fresh s)) /\
  strict_queue w = [] /\ is_queue_empty w = true /\ active_queue w = [].

(** A schedule that is in no queue and whose request is complete may be prepared for its next execution. *)
Definition idle (p : nat) (w : worker) : Prop :=
  exists f s, store (w_q w) !! p = Some f /\ s_bin f = None /\ w_req w !! p = Some 0 /\ w_p w !! p = Some s /\
    sched_finished s = true /\ (p ∉ active_queue w) /\ (p ∉ strict_queue w).

Definition prepare_again (p : nat) (w : worker) : worker :=
  mk_worker (w_q w) (alter renew p (w_p w)) (<[p := 2]> (w_req w)) (w_done w) (strict_queue w) (is_queue_empty w)
            (active_queue w) (do_work_counter w).

Inductive wstep : worker -> worker -> Prop :=
| ws_add p w w' : submittable p w -> worker_add mode atl_eps strict_order p w = Ok w' -> wstep w w'
| ws_work o cls poll_ok cnt w w' : (forall p, oracle_ok (o p)) -> (forall ep, poll_ok ep = true) ->
    do_work mode atl_eps o cls poll_ok w = Ok (cnt, w') -> wstep w w'
| ws_prepare p w : idle p w -> wstep w (prepare_again p w).

Definition w_reachable (w : worker) : Prop := exists w0, w_initial w0 /\ rtc wstep w0 w.

Context (eps_ok : atl_eps <> []).

Lemma w_initial_inv w : w_initial w -> worker_inv mode (active_queue w) w.
Proof.
  intros ((st & Hq & Hst) & Hs & He & Ha). rewrite Ha. split; rewrite ?Hq, ?Hs, ?He; cbn; try done.
  - eapply queue_inv_weaken; [|apply (ci_queue mode (mk_cstate (new_queue st) [] None)), initial_inv]; [done|]. exists st. split; [|done].
    intros p f Hp. by apply (Hst p f).
  - intros p f Hp. destruct (Hst p f Hp) as [_ (s & ? & ?)]. exists s, 0. split; [done|]. by apply fresh_running.
  - constructor.
  - intros p Hp. by apply not_elem_of_nil in Hp.
  - intros p Hp. by apply not_elem_of_nil in Hp.
  - intros p f Hp [k Hb]. destruct (Hst p f Hp) as [Hb' _]. congruence.
Qed.

Lemma prepare_again_inv p w : worker_inv mode (active_queue w) w -> idle p w ->
  worker_inv mode (active_queue w) (prepare_again p w).
Proof.
  intros [] (f & s & Hf & Hb & Hr & Hs & Hfin & Hna & Hns). split; cbn; try done.
  - intros q g Hq. destruct (wi_prog0 q g Hq) as (t & k & Ht & HR). destruct (decide (q = p)) as [->|].
    + assert (t = s) as -> by congruence. exists (renew s), 0. rewrite lookup_alter_eq, Hs. split; [done|].
      by apply (renew_running k s).
    + exists t, k. by rewrite lookup_alter_ne.
  - intros q Hq. rewrite lookup_insert_ne by congruence. auto.
  - intros q l E. assert (q <> p) by (intros ->; apply Hna; rewrite E; left).
    unfold head_ok. cbn. rewrite lookup_insert_ne by done. by apply (wi_head0 q l).
  - intros q Hq. assert (q <> p) by (intros ->; apply Hna; destruct (active_queue w); [done|by right]).
    unfold waiting_ok. cbn. rewrite lookup_insert_ne by done. by apply wi_tail0.
  - intros q g Hq Hgb. rewrite lookup_insert_ne by (intros <-; destruct Hgb; congruence). eauto.
Qed.

Lemma w_reachable_inv w : w_reachable w -> worker_inv mode (active_queue w) w.
Proof.
  intros (w0 & H0%w_initial_inv & Hr). induction Hr as [w|w w1 w2 Hs _ IH]; [done|]. apply IH.
  destruct Hs as [p w w' Hp E|o cls poll_ok cnt w w' Ho Hpoll E|p w Hp].
  - destruct (worker_add_ok mode atl_eps strict_order eps_ok p w H0 Hp) as (? & E' & ?). congruence.
  - destruct (do_work_ok mode atl_eps o cls poll_ok Ho eps_ok Hpoll w H0) as (? & ? & E' & ?). congruence.
  - exact (prepare_again_inv p w H0 Hp).
Qed.

(** A turn over a bin, in any reachable state and whatever the transport answers, returns; it calls
    [do_progress] exactly once on each schedule of the bin and on no other, removes from the bin exactly those
    that finished (although it removes from the list it walks over), and counts them. *)
Theorem bin_turn_exact w o poll_ok b :
  w_reachable w -> (forall p, oracle_ok (o p)) -> (forall ep, poll_ok ep = true) -> is_Some (bins (w_q w) !! b) ->
  exists cnt w', process_sched_bin o poll_ok b w = Ok (cnt, w') /\ turn o (bin_list b w) w w' /\
    bin_list b w' ≡ₚ filter (unfinished w') (bin_list b w) /\ cnt + length (bin_list b w') = length (bin_list b w) /\
    forall k, k <> b -> bin_list k w' = bin_list k w.
Proof.
  intros Hw%w_reachable_inv Ho Hpoll Hb.
  destruct (process_sched_bin_ok mode o poll_ok Ho Hpoll _ b w Hw Hb) as (c & w' & ? & _ & ? & ? & ? & ? & _).
  by exists c, w'.
Qed.

(** The worker never throws: in every reachable state a schedule can be submitted, and a turn of [do_work]
    returns whatever the transport answers: the checks on bins, statuses, request counters, flow control and
    the strict queue all hold. *)
Theorem worker_never_throws w :
  w_reachable w ->
  (forall p, submittable p w -> exists w', worker_add mode atl_eps strict_order p w = Ok w') /\
  (forall o cls poll_ok, (forall p, oracle_ok (o p)) -> (forall ep, poll_ok ep = true) ->
     exists cnt w', do_work mode atl_eps o cls poll_ok w = Ok (cnt, w')).
Proof.
  intros Hw%w_reachable_inv. split.
  - intros p Hp. destruct (worker_add_ok mode atl_eps strict_order eps_ok p w Hw Hp) as (w' & ? & _). by exists w'.
  - intros o cls poll_ok Ho Hpoll. destruct (do_work_ok mode atl_eps o cls poll_ok Ho eps_ok Hpoll w Hw) as (c & w' & ? & _). by exists c, w'.
Qed.

(** C19: strict start order.  In every reachable state the schedules of the strict queues are in no bin, hence
    not executed, except possibly the first of the active queue; and a turn releases schedules from the front of
    that queue only, each one already completed or with all its entries begun: transfers and direct collectives started, the sub-schedules of the
    collectives built and all their entries begun in turn, whatever the states of these sub-schedules are. *)
Theorem strict_start_order w :
  w_reachable w ->
  (forall p f, p ∈ tail (active_queue w) ++ strict_queue w -> store (w_q w) !! p = Some f -> s_bin f = None) /\
  (forall o cls, (forall p, oracle_ok (o p)) -> exists w0 d w',
     strict_peek w = Ok w0 /\ process_strict_sched_queue mode atl_eps o cls w = Ok w' /\
     active_queue w0 = d ++ active_queue w' /\ Forall (released cls w0 w') d).
Proof.
  intros Hw%w_reachable_inv. split.
  - intros p f Hp Hf. apply elem_of_app in Hp as [Hp|Hp].
    + destruct (wi_tail _ _ _ Hw p Hp) as (g & ? & ? & _). congruence.
    + destruct (wi_strict _ _ _ Hw p Hp) as (g & ? & ? & _). congruence.
  - intros o cls Ho. destruct (process_strict_ok mode atl_eps o cls Ho eps_ok w Hw) as (w0 & d & w' & ? & ? & _ & ? & ?).
    by exists w0, d, w'.
Qed.
End reachable.

(** * A concrete worker with two schedules *)

Definition wst_ex : gmap nat sched_fields := <[1 := mk_fields 0 false None in_bin_none]> ∅.
Definition w0_ex : worker :=
  mk_worker (new_queue wst_ex) (<[1 := s_ex]> ∅) (<[1 := 2]> ∅) [] [] true [] 0.
Definition w_ex : worker :=
  match worker_add ccl_priority_none [0] (fun _ => false) 1 w0_ex with Ok w => w | Throw => w0_ex end.
Definition ws_ex : worker :=
  match worker_add ccl_priority_none [0] (fun _ => true) 1 w0_ex with Ok w => w | Throw => w0_ex end.

Lemma w0_ex_initial : w_initial w0_ex.
Proof.
  split; [|done]. exists wst_ex. split; [done|]. unfold wst_ex. intros p f [[<- <-]|[_ H]]%lookup_insert_Some; [|by rewrite lookup_empty in H].
  split; [done|]. exists s_ex. split; [done|]. split; [done|]. split; [|done].
  intros e [->|[->|He]%elem_of_cons]%elem_of_cons; [done..|]. by apply not_elem_of_nil in He.
Defined.

Lemma w0_ex_submittable : submittable 1 w0_ex.
Proof. exists (mk_fields 0 false None in_bin_none). split_and!; try done; apply not_elem_of_nil. Defined.

Lemma w_ex_reachable : w_reachable ccl_priority_none [0] (fun _ => false) w_ex.
Proof.
  exists w0_ex. split; [apply w0_ex_initial|]. eapply rtc_l; [|apply rtc_refl].
  apply (ws_add _ _ _ 1); [apply w0_ex_submittable|vm_compute; reflexivity].
Defined.

Lemma ws_ex_reachable : w_reachable ccl_priority_none [0] (fun _ => true) ws_ex.
Proof.
  exists w0_ex. split; [apply w0_ex_initial|]. eapply rtc_l; [|apply rtc_refl].
  apply (ws_add _ _ _ 1); [apply w0_ex_submittable|vm_compute; reflexivity].
Defined.

Lemma bin_turn_exact_witness :
  exists cnt w', process_sched_bin (fun _ => o_ex) (fun _ => true) 0 w_ex = Ok (cnt, w') /\
    turn (fun _ => o_ex) (bin_list 0 w_ex) w_ex w' /\
    bin_list 0 w' ≡ₚ filter (unfinished w') (bin_list 0 w_ex) /\ cnt + length (bin_list 0 w') = length (bin_list 0 w_ex) /\
    forall k, k <> 0 -> bin_list k w' = bin_list k w_ex.
Proof.
  apply (bin_turn_exact ccl_priority_none [0] (fun _ => false) ltac:(done) w_ex (fun _ => o_ex) (fun _ => true) 0);
    [apply w_ex_reachable|intros _; apply o_ex_ok|done|vm_compute; by eexists].
Defined.

Lemma worker_never_throws_witness : exists w', worker_add ccl_priority_none [0] (fun _ => false) 1 w0_ex = Ok w'.
Proof.
  apply (worker_never_throws ccl_priority_none [0] (fun _ => false) ltac:(done) w0_ex); [|apply w0_ex_submittable].
  exists w0_ex. split; [apply w0_ex_initial|apply rtc_refl].
Defined.

(** The first entry is a collective whose sub-schedule has a transfer under way and a local operation done, the others are transfers. *)
Definition cls_ex (p idx : nat) : entry_class :=
  match idx with O => coll_entry_class (Some [strict_plain started; strict_coll started (Some [strict_base_coll complete])]) | _ => sched_entry_class end.

Lemma strict_start_order_witness :
  (exists f, store (w_q ws_ex) !! 1 = Some f /\ s_bin f = None) /\
  exists w0 d w', strict_peek ws_ex = Ok w0 /\ process_strict_sched_queue ccl_priority_none [0] (fun _ => o_ex) cls_ex ws_ex = Ok w' /\
    active_queue w0 = d ++ active_queue w' /\ Forall (released cls_ex w0 w') d.
Proof.
  split.
  - eexists. split; [vm_compute; reflexivity|].
    apply (proj1 (strict_start_order ccl_priority_none [0] (fun _ => true) ltac:(done) ws_ex ws_ex_reachable) 1);
      [vm_compute; left|vm_compute; reflexivity].
  - apply (proj2 (strict_start_order ccl_priority_none [0] (fun _ => true) ltac:(done) ws_ex ws_ex_reachable)). intros _. apply o_ex_ok.
Defined.

(** A collective whose sub-schedule is not built, or has an entry that has not been started, is not released. *)
Example strict_not_satisfied :
  entry_strict_order_satisfied (strict_coll started None) = false /\
  entry_strict_order_satisfied (strict_coll started (Some [strict_plain started; strict_plain again])) = false /\
  entry_strict_order_satisfied (strict_coll not_started (Some [strict_plain started; strict_plain complete])) = true.
Proof. done. Qed.
