(* ===== verification/SelectTable.v ===== *)
(** The size tables of algorithm selection:
    [ccl_algorithm_selector_base::insert] and [get_value_from_table] of
    [src/src/coll/selection/selector_impl.hpp].

    A table is a [std::map] from a size to an algorithm and a border: a range of
    sizes is a left and a right border, or one [both] border.  The file models
    the map with its iterators, shows that [insert] overwrites the given sizes
    and keeps the others when no range of the table ends one past the inserted
    range, and that it loses sizes or erases an element twice otherwise. *)

From S2P Require Import Prelude.
From stdpp Require Import list.
Open Scope Z_scope.
Open Scope ccl_scope.

Definition CCL_SELECTION_MAX_COLL_SIZE : Z := 2 ^ 64 - 1.
Abbreviation MAX := CCL_SELECTION_MAX_COLL_SIZE.

Inductive ccl_selection_border_type := border_left | border_right | border_both.

#[export] Instance border_eq_dec : EqDecision ccl_selection_border_type.
Proof. solve_decision. Defined.

Section table.
Context {A : Type} `{EqDecision A}.

(** * [std::map<size_t, std::pair<algo, border>>]

    The elements in the order of their keys.  An iterator is the key of the
    element it points to, or [None] for [end()]. *)

Abbreviation value := (A * ccl_selection_border_type)%type.
Definition ccl_selection_table_t : Type := list (Z * value).
Implicit Types (t : ccl_selection_table_t) (k : Z).

Fixpoint lower_bound t k : option Z :=
  match t with [] => None | (k', _) :: t' => if k <=? k' then Some k' else lower_bound t' k end.
Fixpoint find t k : option value :=
  match t with [] => None | (k', v) :: t' => if k =? k' then Some v else find t' k end.
Fixpoint erase t k : ccl_selection_table_t :=
  match t with [] => [] | (k', v) :: t' => if k =? k' then t' else (k', v) :: erase t' k end.
(** [table[k] = v] *)
Fixpoint assign t k (v : value) : ccl_selection_table_t :=
  match t with
  | [] => [(k, v)]
  | (k', v') :: t' => if k =? k' then (k, v) :: t' else if k <? k' then (k, v) :: t else (k', v') :: assign t' k v
  end.
Definition next t k : option Z := lower_bound t (k + 1).
Fixpoint prev t k : option Z :=
  match t with
  | [] => None
  | (k', _) :: t' => if k' <? k then match prev t' k with Some p => Some p | None => Some k' end else None
  end.
Definition begin t : option Z := match t with [] => None | (k, _) :: _ => Some k end.

(** * Lookup *)

Definition get_value_from_table (size : Z) t : outcome A :=
  match lower_bound t size with
  | None => Throws
  | Some k => match find t k with Some (algo, _) => Returns algo | None => Undefined end
  end.

(** * [insert] *)

(** The first loop.  [elem_size] is the key the loop has read last: the test of the
    loop is on it and not on the element [iter] points to. *)
Fixpoint remove_internal (fuel : nat) t (iter : option Z) (elem_size right : Z) : outcome ccl_selection_table_t :=
  match fuel with
  | O => Throws
  | S fuel' =>
    match iter with
    | None => Returns t
    | Some k =>
      if negb (elem_size <=? right) then Returns t else
      match find t k with
      | None => Undefined
      | Some (_, border_right) => remove_internal fuel' t (next t k) k right
      | Some (_, border_both) => remove_internal fuel' (erase t k) (next t k) k right
      | Some (elem_algo, border_left) =>
        match next t k with
        | None => Throws
        | Some next_elem_size =>
          match find t next_elem_size with
          | None => Undefined
          | Some (next_elem_algo, next_elem_border) =>
            check bool_decide (next_elem_border = border_right) ;;
            check bool_decide (elem_algo = next_elem_algo) ;;
            if next_elem_size <=? right
            then remove_internal fuel' (erase (erase t k) next_elem_size) (next t next_elem_size) k right
            else remove_internal fuel' t (Some next_elem_size) k right
          end
        end
      end
    end
  end.

(** The branch of the second loop for an element inside [left, right]: what is done
    before the element is erased.  When a range ends at [right + 1] the branch for its
    left border erases the element [iter] points to. *)
Definition shorten t (elem_size left right : Z) (elem_algo : A) (elem_border : ccl_selection_border_type) :
    outcome ccl_selection_table_t :=
  match elem_border with
  | border_right =>
    check (0 <? left) ;;
    match find t (left - 1) with
    | Some (prev_elem_algo, prev_elem_border) =>
      check bool_decide (prev_elem_border = border_left) ;;
      Returns (assign t (left - 1) (prev_elem_algo, border_both))
    | None => Returns (assign t (left - 1) (elem_algo, elem_border))
    end
  | border_left =>
    check (right <? MAX) ;;
    match find t (right + 1) with
    | Some (next_elem_algo, next_elem_border) =>
      check bool_decide (next_elem_border = border_right) ;;
      Returns (erase (assign t (right + 1) (next_elem_algo, border_both)) elem_size)
    | None => Returns (assign t (right + 1) (elem_algo, elem_border))
    end
  | border_both => Returns t
  end.

(** The branch for a right border beyond [right]: the range is split around the new one. *)
Definition split t (elem_size left right : Z) (elem_algo : A) : outcome ccl_selection_table_t :=
  match prev t elem_size with
  | None => Undefined
  | Some prev_elem_size =>
    match find t prev_elem_size with
    | None => Undefined
    | Some (prev_elem_algo, prev_elem_border) =>
      check (right <? MAX) ;;
      let t := assign t (right + 1)
        (elem_algo, if elem_size =? right + 1 then border_both else border_left) in
      check bool_decide (prev_elem_border = border_left) ;;
      check bool_decide (elem_algo = prev_elem_algo) ;;
      Returns (assign t (u64 (left - 1))
        (prev_elem_algo, if prev_elem_size =? u64 (left - 1) then border_both else border_right))
    end
  end.

(** The second loop. *)
Fixpoint adjust (fuel : nat) t (iter : option Z) (left right : Z) : outcome ccl_selection_table_t :=
  match fuel with
  | O => Throws
  | S fuel' =>
    match iter with
    | None => Returns t
    | Some elem_size =>
      match find t elem_size with
      | None => Undefined
      | Some (elem_algo, elem_border) =>
        check negb (bool_decide (elem_border = border_both)) ;;
        if (left <=? elem_size) && (elem_size <=? right) then
          t <-? shorten t elem_size left right elem_algo elem_border ;;
          match find t elem_size with
          | None => Undefined
          | Some _ =>
            let t := erase t elem_size in
            adjust fuel' t (lower_bound t left) left right
          end
        else
          t <-? (if bool_decide (elem_border = border_right)
                 then split t elem_size left right elem_algo else Returns t) ;;
          adjust fuel' t None left right
      end
    end
  end.

Definition add_borders t (left right : Z) (algo : A) : outcome ccl_selection_table_t :=
  check bool_decide (find t left = None) ;;
  check bool_decide (find t right = None) ;;
  Returns (if left =? right then assign t left (algo, border_both)
           else assign (assign t left (algo, border_left)) right (algo, border_right)).

(** What the third loop does to two adjacent ranges of the same algorithm; returns the iterator. *)
Definition merge_pair t (k : Z) (algo : A) (border : ccl_selection_border_type)
    (k2 : Z) (algo2 : A) (border2 : ccl_selection_border_type) : ccl_selection_table_t * option Z :=
  match border with
  | border_both =>
    let t := assign t k (algo, border_left) in
    match border2 with
    | border_both => (assign t k2 (algo2, border_right), Some k2)
    | border_left => (erase t k2, next t k2)
    | border_right => (t, Some k)
    end
  | border_right =>
    match border2 with
    | border_both => let t := assign t k2 (algo2, border_right) in (erase t k, next t k)
    | border_left => let t := erase t k2 in (erase t k, next t k)
    | border_right => (t, Some k)
    end
  | border_left => (t, Some k)
  end.

(** The third loop: merge adjacent ranges of the same algorithm. *)
Fixpoint merge (fuel : nat) t (iter : option Z) : outcome ccl_selection_table_t :=
  match fuel with
  | O => Throws
  | S fuel' =>
    match iter with
    | None => Returns t
    | Some elem_size =>
      match find t elem_size with
      | None => Undefined
      | Some (elem_algo, elem_border) =>
        if bool_decide (elem_border = border_right) || bool_decide (elem_border = border_both) then
          match next t elem_size with
          | None => Returns t
          | Some next_elem_size =>
            match find t next_elem_size with
            | None => Undefined
            | Some (next_elem_algo, next_elem_border) =>
              check bool_decide (next_elem_border = border_left) || bool_decide (next_elem_border = border_both) ;;
              if (u64 (elem_size + 1) =? next_elem_size) && bool_decide (elem_algo = next_elem_algo) then
                let '(t, it) := merge_pair t elem_size elem_algo elem_border
                                  next_elem_size next_elem_algo next_elem_border in
                merge fuel' t it
              else merge fuel' t (Some next_elem_size)
            end
          end
        else merge fuel' t (next t elem_size)
      end
    end
  end.

Definition insert t (left right : Z) (algo : A) : outcome ccl_selection_table_t :=
  let iter := lower_bound t left in
  t <-? remove_internal (S (length t)) t iter (default 0 iter) right ;;
  t <-? adjust (S (length t)) t (lower_bound t left) left right ;;
  t <-? add_borders t left right algo ;;
  if (length t =? 1)%nat then Returns t else merge (S (length t)) t (begin t).

(** * Positions in a map *)

Abbreviation below k t := (Forall (fun e => e.1 < k) t).

Lemma lower_bound_skip t t2 k : below k t -> lower_bound (t ++ t2) k = lower_bound t2 k.
Proof.
  induction 1 as [|[k' v] t Hk _ IH]; [done|]. cbn in *. destruct (Z.leb_spec k k'); [lia|]. done.
Qed.
Lemma lower_bound_here t k k' v : k <= k' -> lower_bound ((k', v) :: t) k = Some k'.
Proof. intros. cbn. by destruct (Z.leb_spec k k'); [|lia]. Qed.
Lemma lower_bound_begin t k : Forall (fun e => k <= e.1) t -> lower_bound t k = begin t.
Proof. destruct 1 as [|[k' v] t Hk _]; [done|]. by apply lower_bound_here. Qed.
Lemma find_skip t t2 k : Forall (fun e => e.1 <> k) t -> find (t ++ t2) k = find t2 k.
Proof.
  induction 1 as [|[k' v] t Hk _ IH]; [done|]. cbn in *. by destruct (Z.eqb_spec k k'); [congruence|].
Qed.
Lemma find_here t k v : find ((k, v) :: t) k = Some v.
Proof. cbn. by rewrite Z.eqb_refl. Qed.
Lemma find_second t k0 v0 k v t2 : Forall (fun e => e.1 <> k) t -> k0 <> k -> find (t ++ (k0, v0) :: (k, v) :: t2) k = Some v.
Proof. intros. rewrite find_skip by done. cbn. destruct (Z.eqb_spec k k0); [congruence|]. by rewrite Z.eqb_refl. Qed.
Lemma find_none t k : Forall (fun e => e.1 <> k) t -> find t k = None.
Proof. intros H. rewrite <- (app_nil_r t), find_skip by done. done. Qed.
Lemma erase_skip t t2 k : Forall (fun e => e.1 <> k) t -> erase (t ++ t2) k = t ++ erase t2 k.
Proof.
  induction 1 as [|[k' v] t Hk _ IH]; [done|]. cbn in *. destruct (Z.eqb_spec k k'); [congruence|]. by rewrite IH.
Qed.
Lemma erase_here t k v : erase ((k, v) :: t) k = t.
Proof. cbn. by rewrite Z.eqb_refl. Qed.
Lemma assign_skip t t2 k v : below k t -> assign (t ++ t2) k v = t ++ assign t2 k v.
Proof.
  induction 1 as [|[k' v'] t Hk _ IH]; [done|]. cbn in *.
  destruct (Z.eqb_spec k k'); [lia|]. destruct (Z.ltb_spec k k'); [lia|]. by rewrite IH.
Qed.
Lemma assign_here t k v v' : assign ((k, v') :: t) k v = (k, v) :: t.
Proof. cbn. by rewrite Z.eqb_refl. Qed.
Lemma assign_front t k v : Forall (fun e => k < e.1) t -> assign t k v = (k, v) :: t.
Proof.
  destruct 1 as [|[k' v'] t Hk _]; [done|]. cbn in *.
  destruct (Z.eqb_spec k k'); [lia|]. by destruct (Z.ltb_spec k k'); [|lia].
Qed.
Lemma prev_here t t2 k p v : below k t -> p < k -> Forall (fun e => k <= e.1) t2 -> prev (t ++ (p, v) :: t2) k = Some p.
Proof.
  intros Hw Hp H2. induction Hw as [|[k' v'] t Hk _ IH]; cbn in *.
  - destruct (Z.ltb_spec p k); [|lia]. destruct H2 as [|[k2 v2] t2 Hk2 _]; [done|]. cbn in *.
    by destruct (Z.ltb_spec k2 k); [lia|].
  - destruct (Z.ltb_spec k' k); [|lia]. by rewrite IH.
Qed.

(** * Ranges *)

Record range := mk_range { r_lo : Z; r_hi : Z; r_algo : A }.
Implicit Types (r : range) (rs : list range).

Definition elems r : ccl_selection_table_t :=
  if r_lo r =? r_hi r then [(r_lo r, (r_algo r, border_both))]
  else [(r_lo r, (r_algo r, border_left)); (r_hi r, (r_algo r, border_right))].
Definition flat rs : ccl_selection_table_t := rs ≫= elems.
Local Arguments elems : simpl never.
Local Arguments flat : simpl never.

(** The ranges follow each other without a gap from [s] up to [e], exclusive. *)
Fixpoint chain (s e : Z) rs : Prop :=
  match rs with [] => s = e | r :: rs' => r_lo r = s /\ s <= r_hi r /\ chain (r_hi r + 1) e rs' end.

(** The algorithm of the first range that does not end before [x]. *)
Fixpoint algo_at rs (x : Z) : option A :=
  match rs with [] => None | r :: rs' => if x <=? r_hi r then Some (r_algo r) else algo_at rs' x end.

Lemma flat_app rs rs2 : flat (rs ++ rs2) = flat rs ++ flat rs2.
Proof. apply bind_app. Qed.
Lemma flat_cons r rs : flat (r :: rs) = elems r ++ flat rs.
Proof. done. Qed.
Lemma flat_one r : flat [r] = elems r.
Proof. apply app_nil_r. Qed.
Lemma elems_single k a : elems (mk_range k k a) = [(k, (a, border_both))].
Proof. unfold elems. cbn. by rewrite Z.eqb_refl. Qed.
Lemma elems_pair lo hi a : lo < hi -> elems (mk_range lo hi a) = [(lo, (a, border_left)); (hi, (a, border_right))].
Proof. intros. unfold elems. cbn. by destruct (Z.eqb_spec lo hi); [lia|]. Qed.

Lemma chain_app s e rs rs2 : chain s e (rs ++ rs2) <-> exists m, chain s m rs /\ chain m e rs2.
Proof.
  revert s. induction rs as [|r rs IH]; intros s; cbn; [naive_solver|]. rewrite IH. naive_solver.
Qed.
Lemma chain_le s e rs : chain s e rs -> s <= e.
Proof. revert s. induction rs as [|r rs IH]; intros s; cbn; [lia|]. intros (? & ? & H%IH). lia. Qed.

Lemma chain_keys s e rs : chain s e rs -> Forall (fun el => s <= el.1 < e) (flat rs).
Proof.
  revert s. induction rs as [|[lo hi a] rs IH]; intros s; cbn [chain r_lo r_hi]; [by constructor|]. intros (-> & Hle & H).
  pose proof (chain_le _ _ _ H). rewrite flat_cons. apply Forall_app. split.
  - destruct (Z.eq_dec s hi) as [->|]; [rewrite elems_single|rewrite elems_pair by lia]; repeat constructor; cbn; lia.
  - eapply Forall_impl; [by apply IH|]. cbn. lia.
Qed.

(** A chain is cut at [x] between two ranges or inside one. *)
Lemma chain_cut s e rs x : chain s e rs -> s <= x <= e ->
  (exists rs1 rs2, rs = rs1 ++ rs2 /\ chain s x rs1 /\ chain x e rs2) \/
  (exists rs1 lo hi a rs2, rs = rs1 ++ mk_range lo hi a :: rs2 /\ chain s lo rs1 /\ lo < x <= hi /\ chain (hi + 1) e rs2).
Proof.
  revert s. induction rs as [|[lo hi a] rs IH]; intros s; cbn [chain r_lo r_hi].
  - intros -> ?. left. exists [], []. replace x with e by lia. done.
  - intros (-> & Hle & H) Hx. destruct (Z.eq_dec x s) as [->|].
    { left. exists [], (mk_range s hi a :: rs). done. }
    destruct (Z_le_gt_dec x hi).
    { right. exists [], s, hi, a, rs. split_and!; [done|done|lia|lia|done]. }
    destruct (IH _ H ltac:(lia)) as [(rs1 & rs2 & -> & H1 & H2)|(rs1 & lo' & hi' & a' & rs2 & -> & H1 & Hx' & H2)].
    + left. exists (mk_range s hi a :: rs1), rs2. done.
    + right. exists (mk_range s hi a :: rs1), lo', hi', a', rs2. done.
Qed.

Lemma algo_at_app rs rs2 s e x : chain s e rs -> s <= x ->
  algo_at (rs ++ rs2) x = if x <? e then algo_at rs x else algo_at rs2 x.
Proof.
  revert s. induction rs as [|[lo hi a] rs IH]; intros s; cbn [chain r_lo r_hi algo_at app r_algo].
  - intros -> ?. by destruct (Z.ltb_spec x e); [lia|].
  - intros (-> & Hle & H) Hx. pose proof (chain_le _ _ _ H).
    destruct (Z.leb_spec x hi); [by destruct (Z.ltb_spec x e); [|lia]|]. apply (IH _ H). lia.
Qed.

Lemma algo_at_cons lo hi a rs x : algo_at (mk_range lo hi a :: rs) x = if x <=? hi then Some a else algo_at rs x.
Proof. done. Qed.

(** Side conditions about the keys of a part of a table. *)
Ltac keys :=
  repeat first
    [ eapply Forall_impl; [eassumption|]; cbn; lia
    | apply Forall_nil; exact I
    | apply Forall_cons; split; [cbn; lia|]
    | apply Forall_app; split ].

Lemma get_value_flat s e rs x : chain s e rs -> s <= x < e ->
  exists a, get_value_from_table x (flat rs) = Returns a /\ algo_at rs x = Some a.
Proof.
  intros H Hx. unfold get_value_from_table.
  assert (exists rs1 lo hi a rs2, rs = rs1 ++ mk_range lo hi a :: rs2 /\ chain s lo rs1 /\ lo <= x <= hi /\ chain (hi + 1) e rs2)
    as (rs1 & lo & hi & a & rs2 & -> & H1 & Hr & H2).
  { destruct (chain_cut _ _ _ x H ltac:(lia)) as [(rs1 & [|[lo hi a] rs2] & -> & H1 & H2)|(rs1 & lo & hi & a & rs2 & -> & H1 & ? & H2)].
    - cbn in H2. lia.
    - cbn in H2. exists rs1, lo, hi, a, rs2. destruct H2 as (-> & ? & ?). split_and!; try done; lia.
    - exists rs1, lo, hi, a, rs2. split_and!; try done; lia. }
  exists a. pose proof (chain_keys _ _ _ H1). pose proof (chain_keys _ _ _ H2). pose proof (chain_le _ _ _ H1).
  rewrite (algo_at_app _ _ s lo) by (done || lia). destruct (Z.ltb_spec x lo); [lia|].
  rewrite algo_at_cons. destruct (Z.leb_spec x hi); [|lia]. split; [|done].
  rewrite flat_app, flat_cons, lower_bound_skip by keys.
  destruct (Z.eq_dec lo hi) as [<-|]; [rewrite elems_single|rewrite elems_pair by lia]; cbn [app].
  - rewrite lower_bound_here by lia. rewrite find_skip by keys. by rewrite find_here.
  - cbn [lower_bound]. destruct (Z.leb_spec x lo); [|destruct (Z.leb_spec x hi); [|lia]];
      (rewrite find_skip by keys; cbn [find]; rewrite ?Z.eqb_refl; [done||by destruct (Z.eqb_spec hi lo)]).
Qed.

(** * The first loop *)

Lemma next_skip t k v t2 : below (k + 1) t -> Forall (fun el => k < el.1) t2 -> next (t ++ (k, v) :: t2) k = begin t2.
Proof.
  intros H1 H2. unfold next. rewrite lower_bound_skip by done. cbn. destruct (Z.leb_spec (k + 1) k); [lia|].
  apply lower_bound_begin. eapply Forall_impl; [exact H2|]. cbn. lia.
Qed.
Lemma next_second t k v k2 v2 t2 : below (k + 1) t -> k < k2 -> next (t ++ (k, v) :: (k2, v2) :: t2) k = Some k2.
Proof.
  intros H1 H2. unfold next. rewrite lower_bound_skip by done. cbn. destruct (Z.leb_spec (k + 1) k); [lia|].
  by destruct (Z.leb_spec (k + 1) k2); [|lia].
Qed.
Lemma next_third t k v k0 v0 t2 : below (k + 1) t -> k0 < k + 1 -> Forall (fun el => k < el.1) t2 ->
  next (t ++ (k0, v0) :: (k, v) :: t2) k = begin t2.
Proof.
  intros H1 H0 H2. replace (t ++ (k0, v0) :: (k, v) :: t2) with ((t ++ [(k0, v0)]) ++ (k, v) :: t2) by (by rewrite <- app_assoc).
  apply next_skip; [|done]. apply Forall_app. by repeat constructor.
Qed.

Ltac step_skip :=
  repeat first
    [ rewrite find_skip by keys | rewrite find_here
    | rewrite erase_skip by keys | rewrite erase_here
    | rewrite lower_bound_skip by keys
    | rewrite next_second by (keys; lia) | rewrite next_third by (keys; lia) | rewrite next_skip by keys ].

Lemma remove_stop fuel t it (es right : Z) : (0 < fuel)%nat -> right < es -> remove_internal fuel t it es right = Returns t.
Proof. intros. destruct fuel; [lia|]. cbn. destruct it; [|done]. by destruct (Z.leb_spec es right); [lia|]. Qed.

Lemma remove_left fuel t lo hi a t2 (es right : Z) : below lo t -> lo < hi -> Forall (fun el => hi < el.1) t2 -> es <= right -> right < hi ->
  remove_internal (S fuel) (t ++ elems (mk_range lo hi a) ++ t2) (Some lo) es right =
  remove_internal fuel (t ++ elems (mk_range lo hi a) ++ t2) (Some hi) lo right.
Proof.
  intros H1 Hlt H2 Hes Hr. rewrite elems_pair by done. cbn [app remove_internal].
  destruct (Z.leb_spec es right); [|lia]. cbn [negb]. step_skip. cbn [find].
  destruct (Z.eqb_spec hi lo); [lia|]. rewrite Z.eqb_refl, !bool_decide_true by done. by destruct (Z.leb_spec hi right); [lia|].
Qed.

Lemma remove_right fuel t k a t2 (es right : Z) : below k t -> Forall (fun el => k < el.1) t2 -> es <= right ->
  remove_internal (S fuel) (t ++ (k, (a, border_right)) :: t2) (Some k) es right =
  remove_internal fuel (t ++ (k, (a, border_right)) :: t2) (begin t2) k right.
Proof.
  intros H1 H2 Hes. cbn [remove_internal]. destruct (Z.leb_spec es right); [|lia]. cbn [negb]. by step_skip.
Qed.

(** The ranges inside [left, right] are erased. *)
Lemma remove_inside fuel t s e rs t2 (es right : Z) : chain s e rs -> below s t -> Forall (fun el => e <= el.1) t2 -> e <= right + 1 -> es <= right ->
  exists es', es' <= right /\
  remove_internal (length rs + fuel) (t ++ flat rs ++ t2) (begin (flat rs ++ t2)) es right =
  remove_internal fuel (t ++ t2) (begin t2) es' right.
Proof.
  intros Hc Ht Ht2 He. revert s es Hc Ht. induction rs as [|[lo hi a] rs IH]; intros s es; cbn [chain r_lo r_hi].
  { intros -> ? ?. by exists es. }
  intros (-> & Hle & Hc) Ht Hes. pose proof (chain_keys _ _ _ Hc). pose proof (chain_le _ _ _ Hc).
  destruct (IH (hi + 1) s Hc) as (es' & ? & E); [by keys|lia|]. exists es'. split; [done|]. rewrite <- E. clear E.
  rewrite flat_cons, <- app_assoc. cbn [length Nat.add remove_internal].
  destruct (Z.eq_dec s hi) as [->|]; [rewrite elems_single|rewrite elems_pair by lia]; cbn [app begin];
    (destruct (Z.leb_spec es right); [|lia]); cbn [negb]; step_skip.
  - done.
  - cbn [find]. destruct (Z.eqb_spec hi s); [lia|]. rewrite Z.eqb_refl, !bool_decide_true by done.
    destruct (Z.leb_spec hi right); [|lia]. by step_skip.
Qed.

(** The range that [left] cuts, if any, and the one that [right] cuts. *)
Definition head_part (s m left right : Z) rs : Prop :=
  match rs with
  | [] => s = left /\ m = left
  | [r] => r_lo r = s /\ s < left <= r_hi r /\ r_hi r <= right /\ m = r_hi r + 1
  | _ => False
  end.
Definition tail_part (c n left right : Z) rs : Prop :=
  match rs with
  | [] => c = right + 1 /\ n = right + 1
  | [r] => r_lo r = c /\ left <= c <= right /\ right + 1 < r_hi r /\ n = r_hi r + 1
  | _ => False
  end.

(** No range ends one past [right], unless it starts before [left]. *)
Definition clear_after (left right : Z) rs : Prop := Forall (fun r => r_hi r = right + 1 -> r_lo r < left) rs.

Lemma clear_after_app left right rs rs2 : clear_after left right (rs ++ rs2) <-> clear_after left right rs /\ clear_after left right rs2.
Proof. apply Forall_app. Qed.

Lemma remove_tail fuel t c n e L B (es left right : Z) : below c t -> tail_part c n left right L -> chain n e B ->
  clear_after left right B -> left <= right -> es <= right -> (length (flat L ++ flat B) < fuel)%nat ->
  remove_internal fuel (t ++ flat L ++ flat B) (begin (flat L ++ flat B)) es right = Returns (t ++ flat L ++ flat B).
Proof.
  intros Ht HL HB Hcl Hlr Hes Hf. pose proof (chain_keys _ _ _ HB).
  destruct L as [|[lo hi a] [|]]; [destruct HL as [-> ->]|destruct HL as (Hlo & Hc & Hhi & ->)|done]; cbn in *.
  - change (flat []) with (@nil (Z * value)) in *. cbn [app] in *. destruct B as [|[lo hi a] B]; [destruct fuel; [lia|done]|]. destruct HB as (Hlo & Hle & HB). cbn in *. subst.
    apply Forall_cons in Hcl as [Hcl _]. cbn in Hcl. pose proof (chain_keys _ _ _ HB).
    destruct fuel as [|fuel]; [lia|]. rewrite flat_cons in *.
    replace (begin (elems (mk_range (right + 1) hi a) ++ flat B)) with (Some (right + 1)) by (unfold elems; cbn; by destruct (_ =? _)).
    rewrite remove_left by (keys; lia). apply remove_stop; [|lia]. rewrite elems_pair in Hf by lia. cbn in Hf. lia.
  - subst. rewrite flat_one in *.
    destruct fuel as [|[|fuel]]; [lia|rewrite elems_pair in Hf by lia; cbn in Hf; lia|].
    replace (begin (elems (mk_range c hi a) ++ flat B)) with (Some c) by (unfold elems; cbn; by destruct (_ =? _)).
    rewrite remove_left by (keys; lia). rewrite elems_pair by lia. cbn [app].
    replace (t ++ (c, (a, border_left)) :: (hi, (a, border_right)) :: flat B)
      with ((t ++ [(c, (a, border_left))]) ++ (hi, (a, border_right)) :: flat B) by (by rewrite <- app_assoc).
    rewrite remove_right by (keys; lia). apply remove_stop; [|lia]. rewrite elems_pair in Hf by lia. cbn in Hf. lia.
Qed.

Lemma begin_app_cons t r rs : begin (flat (r :: rs) ++ t) = Some (r_lo r).
Proof. rewrite flat_cons. unfold elems. by destruct (_ =? _). Qed.

Lemma length_flat rs : (length rs <= length (flat rs))%nat.
Proof.
  induction rs as [|r rs IH]; [done|]. rewrite flat_cons, length_app. unfold elems. destruct (_ =? _); cbn; lia.
Qed.

Lemma tail_keys c n e left right L B : tail_part c n left right L -> chain n e B -> left <= right ->
  c <= right + 1 /\ c <= n /\ Forall (fun el => c <= el.1) (flat L ++ flat B).
Proof.
  intros HL HB Hlr. pose proof (chain_keys _ _ _ HB).
  destruct L as [|[lo hi y] [|]]; cbn in HL; [|destruct HL as (-> & ? & ? & ->)|done].
  - split_and!; [lia..|]. keys.
  - split_and!; [lia..|]. rewrite flat_one, elems_pair by lia. keys.
Qed.

Lemma remove_rest fuel t m c n e mid L B (es left right : Z) : below m t -> chain m c mid ->
  tail_part c n left right L -> chain n e B -> clear_after left right B -> left <= right -> es <= right ->
  (length (flat mid ++ flat L ++ flat B) < fuel)%nat ->
  remove_internal fuel (t ++ flat mid ++ flat L ++ flat B) (begin (flat mid ++ flat L ++ flat B)) es right =
  Returns (t ++ flat L ++ flat B).
Proof.
  intros Ht Hmid HL HB Hcl Hlr Hes Hf. destruct (tail_keys c n e left right L B) as (Hc & _ & Hk); [done..|].
  pose proof (length_flat mid). pose proof (chain_le _ _ _ Hmid). rewrite length_app in Hf.
  destruct (remove_inside (fuel - length mid) t m c mid (flat L ++ flat B) es right) as (es' & ? & E); try done.
  replace (length mid + (fuel - length mid))%nat with fuel in E by lia. rewrite E.
  apply (remove_tail _ _ c n e _ _ _ left); try done; [by keys|lia].
Qed.

Lemma snoc_app t k v t2 : t ++ (k, v) :: t2 = (t ++ [(k, v)]) ++ t2.
Proof. by rewrite <- app_assoc. Qed.

(** The first loop erases the ranges between the two that [left] and [right] cut. *)
Lemma remove_ok s a m c n e rs F mid L B (left right : Z) :
  chain s a rs -> head_part a m left right F -> chain m c mid -> tail_part c n left right L -> chain n e B ->
  clear_after left right B -> left <= right ->
  let t := flat rs ++ flat F ++ flat mid ++ flat L ++ flat B in
  remove_internal (S (length t)) t (lower_bound t left) (default 0 (lower_bound t left)) right =
  Returns (flat rs ++ flat F ++ flat L ++ flat B).
Proof.
  intros Hrs HF Hmid HL HB Hcl Hlr t. subst t.
  pose proof (chain_keys _ _ _ Hrs). pose proof (chain_keys _ _ _ Hmid). pose proof (chain_le _ _ _ Hmid).
  destruct (tail_keys c n e left right L B) as (Hc & _ & Hk); [done..|].
  destruct F as [|[lo hi x] [|]]; cbn in HF; [destruct HF as [-> ->]|destruct HF as (-> & ? & ? & ->)|done].
  - change (flat []) with (@nil (Z * value)). cbn [app]. rewrite lower_bound_skip, lower_bound_begin by keys.
    apply (remove_rest _ _ left c n e _ _ _ _ left); try done; [by keys| |rewrite (length_app (flat rs)); lia].
    destruct mid as [|r mid]; [|rewrite begin_app_cons; cbn in *; lia]. cbn in Hmid.
    destruct L as [|[lo hi y] [|]]; cbn in HL; [lia| |done].
    change (flat []) with (@nil (Z * value)). rewrite flat_one, elems_pair by lia. cbn. lia.
  - rewrite flat_one, elems_pair by lia. cbn [app].
    rewrite lower_bound_skip by keys. cbn [lower_bound]. destruct (Z.leb_spec left a); [lia|].
    destruct (Z.leb_spec left hi); [|lia]. change (default 0 (Some hi)) with hi.
    rewrite (snoc_app (flat rs)), remove_right by (keys; lia).
    replace (flat rs ++ _ :: _ :: flat L ++ flat B) with ((flat rs ++ [(a, (x, border_left)); (hi, (x, border_right))]) ++ flat L ++ flat B)
      by (by rewrite <- app_assoc).
    replace ((flat rs ++ [_]) ++ _) with ((flat rs ++ [(a, (x, border_left)); (hi, (x, border_right))]) ++ flat mid ++ flat L ++ flat B)
      by (by rewrite <- !app_assoc).
    apply (remove_rest _ _ (hi + 1) c n e _ _ _ _ left); try done; [by keys|].
    rewrite (length_app (flat rs ++ _)), (length_app (flat rs)). cbn. lia.
Qed.

(** * The second loop *)

(** What is left of the two ranges. *)
Definition cut_head (left : Z) rs : list range := (fun r => mk_range (r_lo r) (left - 1) (r_algo r)) <$> rs.
Definition cut_tail (right : Z) rs : list range := (fun r => mk_range (right + 1) (r_hi r) (r_algo r)) <$> rs.

Lemma adjust_stop fuel t lo hi a t2 (left right : Z) : below left t -> left <= right -> right < lo < hi -> (1 < fuel)%nat ->
  adjust fuel (t ++ elems (mk_range lo hi a) ++ t2) (Some lo) left right = Returns (t ++ elems (mk_range lo hi a) ++ t2).
Proof.
  intros Ht Hlr Hlo Hf. destruct fuel as [|[|fuel]]; [lia..|]. rewrite elems_pair by lia. cbn [app adjust]. step_skip.
  rewrite !bool_decide_false by done. destruct (Z.leb_spec lo right); [lia|]. by rewrite andb_false_r.
Qed.

Lemma adjust_tail fuel t c n e L B (left right : Z) : below left t -> tail_part c n left right L -> chain n e B ->
  clear_after left right B -> left <= right -> e <= MAX + 1 -> (length (flat L ++ flat B) < fuel)%nat ->
  let t' := t ++ flat L ++ flat B in
  adjust fuel t' (lower_bound t' left) left right = Returns (t ++ flat (cut_tail right L) ++ flat B).
Proof.
  intros Ht HL HB Hcl Hlr He Hf t'. subst t'. pose proof (chain_keys _ _ _ HB). pose proof (chain_le _ _ _ HB).
  destruct L as [|[lo hi a] [|]]; cbn in HL; [destruct HL as [-> ->]|destruct HL as (-> & Hc & Hhi & ->)|done]; cbn [cut_tail fmap list_fmap r_hi r_algo].
  - change (flat []) with (@nil (Z * value)) in *. cbn [app] in *. rewrite lower_bound_skip by done.
    destruct B as [|[lo hi a] B]; [destruct fuel; [lia|done]|]. destruct HB as (Hlo & Hle & HB). cbn in Hlo, Hle, HB. subst.
    apply Forall_cons in Hcl as [Hcl _]. cbn in Hcl. pose proof (length_flat B). rewrite flat_cons in *. rewrite elems_pair in * by lia.
    cbn in Hf. cbn [app]. rewrite lower_bound_here by lia.
    pose proof (adjust_stop fuel t (right + 1) hi a (flat B) left right) as E. rewrite elems_pair in E by lia. apply E; try done; lia.
  - rewrite flat_one in *. rewrite elems_pair in * by lia. destruct fuel as [|fuel]; [lia|]. cbn in Hf. cbn [app].
    rewrite lower_bound_skip, lower_bound_here by (done || lia). cbn [adjust]. step_skip.
    rewrite bool_decide_false by done. cbn [negb]. destruct (Z.leb_spec left c), (Z.leb_spec c right); try lia. cbn [andb].
    cbn [shorten]. destruct (Z.ltb_spec right MAX); [|lia]. rewrite find_none by keys.
    rewrite assign_skip by keys. cbn [assign]. destruct (Z.eqb_spec (right + 1) c), (Z.ltb_spec (right + 1) c); try lia.
    destruct (Z.eqb_spec (right + 1) hi), (Z.ltb_spec (right + 1) hi); try lia. cbn [outcome_bind].
    step_skip. rewrite lower_bound_here by lia. rewrite flat_one.
    pose proof (adjust_stop fuel t (right + 1) hi a (flat B) left right) as E. rewrite elems_pair in E |- * by lia. apply E; try done; lia.
Qed.

(** The part of a range before [left] is written at [left - 1]. *)
Lemma assign_cut t lo hi a v t2 (left : Z) : below lo t -> lo < left -> left <= hi ->
  assign (t ++ (lo, (a, border_left)) :: (hi, v) :: t2) (left - 1) (a, if lo =? left - 1 then border_both else border_right) =
  t ++ elems (mk_range lo (left - 1) a) ++ (hi, v) :: t2.
Proof.
  intros Ht Hlo Hhi. rewrite assign_skip by keys. f_equal. cbn [assign].
  destruct (Z.eqb_spec lo (left - 1)) as [->|].
  - by rewrite Z.eqb_refl, elems_single.
  - rewrite elems_pair by lia. destruct (Z.eqb_spec (left - 1) lo), (Z.ltb_spec (left - 1) lo); try lia.
    by destruct (Z.eqb_spec (left - 1) hi), (Z.ltb_spec (left - 1) hi); try lia.
Qed.

Lemma shorten_head t lo hi a t2 (left right : Z) : below lo t -> 0 <= lo < left -> left <= hi -> Forall (fun el => hi < el.1) t2 ->
  shorten (t ++ (lo, (a, border_left)) :: (hi, (a, border_right)) :: t2) hi left right a border_right =
  Returns (t ++ elems (mk_range lo (left - 1) a) ++ (hi, (a, border_right)) :: t2).
Proof.
  intros Ht Hlo Hhi Ht2. rewrite <- assign_cut by (done || lia). unfold shorten. destruct (Z.ltb_spec 0 left); [|lia].
  rewrite find_skip by keys. cbn [find]. destruct (Z.eqb_spec lo (left - 1)) as [->|].
  - rewrite Z.eqb_refl. by rewrite bool_decide_true.
  - destruct (Z.eqb_spec (left - 1) lo), (Z.eqb_spec (left - 1) hi); try lia. by rewrite find_none by keys.
Qed.

Lemma elems_keys lo hi a : lo <= hi -> Forall (fun el => lo <= el.1 <= hi) (elems (mk_range lo hi a)).
Proof.
  intros. destruct (Z.eq_dec lo hi) as [->|]; [rewrite elems_single|rewrite elems_pair by lia]; repeat constructor; cbn; lia.
Qed.

(** The second loop cuts the two ranges off. *)
Lemma adjust_ok s a m c n e rs F L B (left right : Z) :
  chain s a rs -> head_part a m left right F -> m <= c -> tail_part c n left right L -> chain n e B ->
  clear_after left right B -> left <= right -> 0 <= s -> e <= MAX + 1 ->
  let t := flat rs ++ flat F ++ flat L ++ flat B in
  adjust (S (length t)) t (lower_bound t left) left right =
  Returns (flat rs ++ flat (cut_head left F) ++ flat (cut_tail right L) ++ flat B).
Proof.
  intros Hrs HF Hm HL HB Hcl Hlr Hs He t. subst t.
  pose proof (chain_keys _ _ _ Hrs). pose proof (chain_le _ _ _ Hrs).
  destruct (tail_keys c n e left right L B) as (Hc & _ & Hk); [done..|].
  destruct F as [|[lo hi x] [|]]; cbn in HF; [destruct HF as [-> ->]|destruct HF as (-> & ? & ? & ->)|done].
  - apply (adjust_tail _ _ c n e L B left right); try done; [by keys|]. rewrite !length_app. lia.
  - cbn [cut_head fmap list_fmap r_lo r_algo]. rewrite !flat_one. rewrite (elems_pair a hi) by lia. cbn [app].
    rewrite lower_bound_skip by keys. cbn [lower_bound]. destruct (Z.leb_spec left a); [lia|].
    destruct (Z.leb_spec left hi); [|lia]. cbn [adjust]. rewrite find_second by (keys; lia).
    rewrite bool_decide_false by done. cbn [negb]. destruct (Z.leb_spec left hi), (Z.leb_spec hi right); try lia. cbn [andb].
    rewrite shorten_head by (keys; lia). cbn [outcome_bind]. pose proof (elems_keys a (left - 1) x ltac:(lia)).
    rewrite !(app_assoc (flat rs) (elems _)), find_skip, find_here, erase_skip, erase_here by keys.
    apply (adjust_tail _ _ c n e L B left right); try done; [by keys|]. rewrite (length_app (flat rs)). cbn. lia.
Qed.

(** A range around the new one is split. *)
Lemma adjust_inside s e lo hi a rs B (left right : Z) :
  chain s lo rs -> chain (hi + 1) e B -> lo < left -> left <= right -> right < hi -> 0 <= s -> e <= MAX + 1 ->
  let t := flat rs ++ elems (mk_range lo hi a) ++ flat B in
  adjust (S (length t)) t (lower_bound t left) left right =
  Returns (flat rs ++ elems (mk_range lo (left - 1) a) ++ elems (mk_range (right + 1) hi a) ++ flat B).
Proof.
  intros Hrs HB Hlo Hlr Hhi Hs He t. subst t.
  pose proof (chain_keys _ _ _ Hrs). pose proof (chain_le _ _ _ Hrs). pose proof (chain_keys _ _ _ HB). pose proof (chain_le _ _ _ HB).
  rewrite (elems_pair lo hi) by lia. cbn [app]. rewrite lower_bound_skip by keys. cbn [lower_bound].
  destruct (Z.leb_spec left lo); [lia|]. destruct (Z.leb_spec left hi); [|lia].
  rewrite length_app. cbn [length]. rewrite !Nat.add_succ_r. cbn [adjust]. rewrite find_second by (keys; lia).
  rewrite bool_decide_false by done. cbn [negb]. destruct (Z.leb_spec hi right); [lia|]. rewrite andb_false_r.
  rewrite bool_decide_true by done. unfold split. rewrite prev_here by (keys; lia). step_skip.
  destruct (Z.ltb_spec right MAX); [|lia]. rewrite !bool_decide_true by done. cbn [outcome_bind]. f_equal.
  rewrite wrap_small by (unfold CCL_SELECTION_MAX_COLL_SIZE in *; lia).
  assert (E : assign (flat rs ++ (lo, (a, border_left)) :: (hi, (a, border_right)) :: flat B) (right + 1)
      (a, if hi =? right + 1 then border_both else border_left) =
    flat rs ++ (lo, (a, border_left)) :: elems (mk_range (right + 1) hi a) ++ flat B).
  { rewrite assign_skip by keys. f_equal. cbn [assign]. destruct (Z.eqb_spec (right + 1) lo), (Z.ltb_spec (right + 1) lo); try lia. f_equal.
    destruct (Z.eqb_spec hi (right + 1)) as [->|].
    - by rewrite Z.eqb_refl, elems_single.
    - rewrite elems_pair by lia. by destruct (Z.eqb_spec (right + 1) hi), (Z.ltb_spec (right + 1) hi); try lia. }
  rewrite E. destruct (elems (mk_range (right + 1) hi a)) as [|[k v] l] eqn:El; [unfold elems in El; by destruct (_ =? _)|].
  pose proof (elems_keys (right + 1) hi a ltac:(lia)) as Hel. rewrite El in Hel. apply Forall_cons in Hel as [Hk _]. cbn in Hk.
  cbn [app]. apply assign_cut; (done || lia || keys).
Qed.

(** * The new borders and the third loop *)

Lemma add_borders_ok t t2 (left right : Z) a : below left t -> left <= right -> Forall (fun el => right < el.1) t2 ->
  add_borders (t ++ t2) left right a = Returns (t ++ elems (mk_range left right a) ++ t2).
Proof.
  intros Ht Hlr Ht2. unfold add_borders. rewrite !find_none by keys. rewrite !bool_decide_true by done.
  rewrite !assign_skip by keys. destruct (Z.eqb_spec left right) as [->|].
  - by rewrite elems_single, assign_front by keys.
  - rewrite elems_pair, (assign_front t2 left) by (keys; lia). cbn [assign].
    destruct (Z.eqb_spec right left), (Z.ltb_spec right left); try lia. by rewrite assign_front by keys.
Qed.

(** The last element of a range. *)
Lemma elems_last lo hi a t : lo <= hi -> exists pre b, t ++ elems (mk_range lo hi a) = pre ++ [(hi, (a, b))] /\
  (b = border_both /\ lo = hi /\ pre = t \/ b = border_right /\ lo < hi /\ pre = t ++ [(lo, (a, border_left))]).
Proof.
  intros. destruct (Z.eq_dec lo hi) as [->|]; [rewrite elems_single|rewrite elems_pair by lia].
  - exists t, border_both. naive_solver.
  - exists (t ++ [(lo, (a, border_left))]), border_right. rewrite <- app_assoc. split; [done|]. right. split_and!; [done|lia|done].
Qed.

Lemma merge_left fuel t lo hi a t2 : below lo t -> lo < hi ->
  merge (S fuel) (t ++ elems (mk_range lo hi a) ++ t2) (Some lo) = merge fuel (t ++ elems (mk_range lo hi a) ++ t2) (Some hi).
Proof.
  intros Ht Hlt. rewrite elems_pair by done. cbn [app merge]. rewrite find_skip, find_here by keys.
  rewrite !bool_decide_false by done. cbn [orb]. by rewrite next_second by (keys; lia).
Qed.

(** Two neighbours of the same algorithm become one range. *)
Lemma merge_pair_ok t lo hi a hi2 t2 b pre b2 :
  below lo t -> lo <= hi -> hi + 1 <= hi2 -> Forall (fun el => hi2 < el.1) t2 ->
  (b = border_both /\ lo = hi /\ pre = t \/ b = border_right /\ lo < hi /\ pre = t ++ [(lo, (a, border_left))]) ->
  b2 = (if hi + 1 =? hi2 then border_both else border_left) ->
  merge_pair (pre ++ (hi, (a, b)) :: elems (mk_range (hi + 1) hi2 a) ++ t2) hi a b (hi + 1) a b2 =
  (t ++ elems (mk_range lo hi2 a) ++ t2, Some hi2).
Proof.
  intros Ht Hlo Hhi2 Ht2 Hb ->. rewrite (elems_pair lo) by lia.
  destruct Hb as [(-> & -> & ->)|(-> & Hlt & ->)], (Z.eqb_spec (hi + 1) hi2) as [<-|]; rewrite ?elems_single, ?(elems_pair (hi + 1)) by lia;
    cbn [app]; cbn [merge_pair].
  - rewrite assign_skip, assign_here, assign_skip by keys. cbn [assign].
    destruct (Z.eqb_spec (hi + 1) hi), (Z.ltb_spec (hi + 1) hi); try lia. by rewrite Z.eqb_refl.
  - rewrite assign_skip, assign_here, erase_skip by keys. cbn [erase]. destruct (Z.eqb_spec (hi + 1) hi); [lia|].
    rewrite Z.eqb_refl. by rewrite next_third by (keys; lia).
  - rewrite assign_skip by keys. cbn [assign]. destruct (Z.eqb_spec (hi + 1) hi), (Z.ltb_spec (hi + 1) hi); try lia.
    rewrite Z.eqb_refl, erase_skip, erase_here, next_second by (keys; lia). by rewrite <- app_assoc.
  - rewrite erase_skip by keys. cbn [erase]. destruct (Z.eqb_spec (hi + 1) hi); [lia|].
    rewrite Z.eqb_refl, erase_skip, erase_here, next_second by (keys; lia). by rewrite <- app_assoc.
Qed.

Lemma merge_ok rs : forall fuel t lo hi a e, chain (hi + 1) e rs -> e <= MAX + 1 -> 0 <= lo <= hi -> below lo t ->
  (length (flat rs) < fuel)%nat ->
  exists rs', merge fuel (t ++ elems (mk_range lo hi a) ++ flat rs) (Some hi) = Returns (t ++ flat rs') /\
    chain lo e rs' /\ forall x, lo <= x -> algo_at rs' x = algo_at (mk_range lo hi a :: rs) x.
Proof.
  induction rs as [|[lo2 hi2 a2] rs IH]; intros fuel t lo hi a e Hc He Hlo Ht Hf; destruct fuel as [|fuel]; [lia| |lia|].
  all: destruct (elems_last lo hi a t ltac:(lia)) as (pre & b & E & Hb).
  all: assert (Hpre : below hi pre) by (destruct Hb as [(_ & <- & ->)|(_ & ? & ->)]; keys).
  all: rewrite app_assoc, E, <- app_assoc; cbn [app merge]; rewrite find_skip, find_here by keys.
  all: replace (bool_decide (b = border_right) || bool_decide (b = border_both)) with true
         by (destruct Hb as [(-> & _)|(-> & _)]; done).
  - rewrite next_skip by keys. exists [mk_range lo hi a]. rewrite flat_one, E. cbn in *. split_and!; try done; lia.
  - destruct Hc as (Hlo2 & Hle & Hc). cbn in Hlo2, Hle, Hc. subst lo2. pose proof (chain_keys _ _ _ Hc). pose proof (chain_le _ _ _ Hc).
    rewrite flat_cons. set (b2 := if hi + 1 =? hi2 then border_both else border_left).
    assert (E2 : exists l, elems (mk_range (hi + 1) hi2 a2) = (hi + 1, (a2, b2)) :: l)
      by (unfold elems, b2; cbn; destruct (_ =? _); eexists; done).
    destruct E2 as [l E2]. set (T := pre ++ (hi, (a, b)) :: elems (mk_range (hi + 1) hi2 a2) ++ flat rs).
    assert (En : next T hi = Some (hi + 1)) by (unfold T; rewrite E2; cbn [app]; apply next_second; [keys|lia]).
    assert (Ef : find T (hi + 1) = Some (a2, b2)) by (unfold T; rewrite E2; cbn [app]; apply find_second; [keys|lia]).
    rewrite En, Ef. subst T.
    replace (bool_decide (b2 = border_left) || bool_decide (b2 = border_both)) with true by (unfold b2; by destruct (_ =? _)).
    rewrite wrap_small, Z.eqb_refl by (unfold CCL_SELECTION_MAX_COLL_SIZE in *; lia). cbn [andb]. case_bool_decide as Ha.
    + subst a2. rewrite (merge_pair_ok t lo hi a hi2 (flat rs) b pre b2) by (done || lia || keys).
      destruct (IH fuel t lo hi2 a e Hc) as (rs' & Em & Hc' & Hat); try done; [lia| |].
      { rewrite flat_cons, E2, length_app in Hf. cbn in Hf. lia. }
      exists rs'. split_and!; [done..|]. intros x Hx. rewrite Hat by done. cbn.
      destruct (Z.leb_spec x hi), (Z.leb_spec x hi2); try done; lia.
    + assert (Hgo : forall f, (length (flat rs) < f)%nat -> exists rs', merge f (pre ++ (hi, (a, b)) :: elems (mk_range (hi + 1) hi2 a2) ++ flat rs) (Some hi2) = Returns (t ++ flat rs') /\
        chain lo e rs' /\ forall x, lo <= x -> algo_at rs' x = algo_at (mk_range lo hi a :: mk_range (hi + 1) hi2 a2 :: rs) x).
      { intros f Hf'. destruct (IH f (pre ++ [(hi, (a, b))]) (hi + 1) hi2 a2 e Hc) as (rs' & Em & Hc' & Hat); try done; [lia|keys|].
        exists (mk_range lo hi a :: rs'). rewrite <- app_assoc in Em. cbn [app] in Em. rewrite Em. split_and!.
        - f_equal. rewrite flat_cons, (app_assoc t), E. by rewrite <- !app_assoc.
        - cbn. split_and!; (done || lia).
        - intros x Hx. cbn. destruct (Z.leb_spec x hi); [done|]. rewrite Hat by lia. done. }
      rewrite flat_cons, E2, length_app in Hf. cbn in Hf. unfold b2 in E2. destruct (Z.eqb_spec (hi + 1) hi2) as [Eq|].
      * replace (Some (hi + 1)) with (Some hi2) by congruence. apply Hgo. lia.
      * destruct fuel; [lia|]. rewrite (snoc_app pre), merge_left by (keys; lia). rewrite <- app_assoc.
        rewrite elems_pair in E2 by lia. injection E2 as <-. apply Hgo. cbn in Hf. lia.
Qed.

Lemma merge_all rs s e : chain s e rs -> 0 <= s -> e <= MAX + 1 ->
  exists rs', merge (S (length (flat rs))) (flat rs) (begin (flat rs)) = Returns (flat rs') /\ chain s e rs' /\
    forall x, s <= x -> algo_at rs' x = algo_at rs x.
Proof.
  destruct rs as [|[lo hi a] rs]; intros Hc Hs He; [by exists []|]. destruct Hc as (Hlo & Hle & Hc). cbn in Hlo, Hle, Hc. subst lo.
  replace (begin _) with (Some s) by (by rewrite <- (app_nil_r (flat _)), begin_app_cons). rewrite flat_cons.
  destruct (Z.eq_dec s hi) as [->|].
  - apply (merge_ok rs _ [] hi hi a e Hc); [done|lia|by constructor|]. rewrite length_app. lia.
  - pose proof (merge_left (length (elems (mk_range s hi a) ++ flat rs)) [] s hi a (flat rs)) as E. cbn [app] in E.
    rewrite E by (by constructor || lia). apply (merge_ok rs _ [] s hi a e Hc); [done|lia|by constructor|].
    rewrite length_app, elems_pair by lia. cbn. lia.
Qed.

Lemma insert_finish rs rs2 s e (left right : Z) a : chain s left rs -> chain (right + 1) e rs2 -> left <= right -> 0 <= s -> e <= MAX + 1 ->
  exists rs', (t <-? add_borders (flat rs ++ flat rs2) left right a ;;
               if (length t =? 1)%nat then Returns t else merge (S (length t)) t (begin t)) = Returns (flat rs') /\
    chain s e rs' /\ forall x, s <= x -> algo_at rs' x = algo_at (rs ++ mk_range left right a :: rs2) x.
Proof.
  intros H1 H2 Hlr Hs He. pose proof (chain_keys _ _ _ H1). pose proof (chain_keys _ _ _ H2).
  rewrite add_borders_ok by (keys; lia). cbn [outcome_bind]. rewrite <- flat_cons, <- flat_app.
  assert (Hc : chain s e (rs ++ mk_range left right a :: rs2)) by (apply chain_app; exists left; by cbn).
  destruct (Nat.eqb_spec (length (flat (rs ++ mk_range left right a :: rs2))) 1); [by eexists|]. by apply merge_all.
Qed.

Lemma chain_head a m left right F : head_part a m left right F -> chain a m F /\ chain a left (cut_head left F) /\ a <= left <= m /\
  (left <= right -> m <= right + 1) /\ forall x, a <= x < left -> algo_at (cut_head left F) x = algo_at F x.
Proof.
  destruct F as [|[lo hi y] [|]]; cbn; [intros [-> ->]|intros (-> & ? & ? & ->)|done]; split_and!; try done; try lia.
  intros x Hx. by destruct (Z.leb_spec x (left - 1)), (Z.leb_spec x hi); try lia.
Qed.

Lemma chain_tail c n e left right L B : tail_part c n left right L -> chain n e B -> left <= right ->
  chain c e (L ++ B) /\ chain (right + 1) e (cut_tail right L ++ B) /\ c <= right + 1 /\
  forall x, algo_at (cut_tail right L ++ B) x = algo_at (L ++ B) x.
Proof.
  intros HL HB Hlr. destruct L as [|[lo hi y] [|]]; cbn in HL |- *; [destruct HL as [-> ->]|destruct HL as (-> & ? & ? & ->)|done]; split_and!; (done || lia).
Qed.

(** The loops at work: what the table keeps before [left] and after [right]. *)
Definition clears (s e left right : Z) rs : Prop :=
  exists rs1 rs2, chain s left rs1 /\ chain (right + 1) e rs2 /\
    (t <-? remove_internal (S (length (flat rs))) (flat rs) (lower_bound (flat rs) left) (default 0 (lower_bound (flat rs) left)) right ;;
     adjust (S (length t)) t (lower_bound t left) left right) = Returns (flat rs1 ++ flat rs2) /\
    (forall x, s <= x < left -> algo_at rs1 x = algo_at rs x) /\ (forall x, right < x -> algo_at rs2 x = algo_at rs x).

Lemma clears_cut s a m e rs F rest (left right : Z) : chain s a rs -> head_part a m left right F -> chain m e rest ->
  clear_after left right rest -> left <= right < e -> 0 <= s -> e <= MAX + 1 -> clears s e left right (rs ++ F ++ rest).
Proof.
  intros Hrs HF Hrest Hcl Hlr Hs He. destruct (chain_head _ _ _ _ _ HF) as (HcF & HcF' & Ha & Hm & HatF).
  pose proof (chain_le _ _ _ Hrs).
  assert (exists c n mid L B, rest = mid ++ L ++ B /\ chain m c mid /\ tail_part c n left right L /\ chain n e B)
    as (c & n & mid & L & B & -> & Hmid & HL & HB).
  { destruct (chain_cut m e rest (right + 1) Hrest ltac:(lia)) as [(mid & B & -> & H1 & H2)|(mid & lo & hi & y & B & -> & H1 & H2 & H3)].
    - by exists (right + 1), (right + 1), mid, [], B.
    - exists lo, (hi + 1), mid, [mk_range lo hi y], B. split_and!; try done. pose proof (chain_le _ _ _ H1).
      apply Forall_app in Hcl as [_ [Hcl _]%Forall_cons]. cbn in *. split_and!; (done || lia). }
  rewrite !clear_after_app in Hcl. destruct Hcl as (_ & _ & Hcl).
  destruct (chain_tail _ _ _ _ _ _ _ HL HB ltac:(lia)) as (HcL & HcL' & Hc & HatL). pose proof (chain_le _ _ _ Hmid).
  exists (rs ++ cut_head left F), (cut_tail right L ++ B). split_and!.
  - apply chain_app. by exists a.
  - done.
  - rewrite !flat_app. rewrite (remove_ok s a m c n e) by (done || lia). cbn [outcome_bind].
    rewrite (adjust_ok s a m c n e) by (done || lia). by rewrite <- !app_assoc.
  - intros x Hx. rewrite !(algo_at_app rs _ s a) by (done || lia). destruct (Z.ltb_spec x a); [done|].
    rewrite (algo_at_app F _ a m) by (done || lia). rewrite HatF by lia. by destruct (Z.ltb_spec x m); [|lia].
  - intros x Hx. rewrite HatL, !app_assoc, <- app_assoc. rewrite (algo_at_app (((rs ++ F) ++ mid)) _ s c); [|apply chain_app; eexists; split; [apply chain_app; by exists a|done]|].
    + destruct (Z.ltb_spec x c); [|done]. destruct L as [|? [|]]; cbn in HL; (lia || done).
    + lia.
Qed.

Lemma clears_inside s e lo hi a rs rs2 (left right : Z) : chain s lo rs -> chain (hi + 1) e rs2 -> lo < left -> left <= right -> right < hi ->
  0 <= s -> e <= MAX + 1 -> clears s e left right (rs ++ mk_range lo hi a :: rs2).
Proof.
  intros Hrs HB Hlo Hlr Hhi Hs He. pose proof (chain_keys _ _ _ Hrs). pose proof (chain_keys _ _ _ HB). pose proof (chain_le _ _ _ Hrs).
  exists (rs ++ [mk_range lo (left - 1) a]), (mk_range (right + 1) hi a :: rs2). split_and!.
  - apply chain_app. exists lo. cbn. split_and!; (done || lia).
  - cbn. split_and!; (done || lia).
  - rewrite !flat_app, !flat_cons. rewrite remove_stop; [cbn [outcome_bind]| lia|].
    + rewrite (adjust_inside s e) by (done || lia). by rewrite <- !app_assoc.
    + rewrite lower_bound_skip by keys. rewrite elems_pair by lia. cbn. destruct (Z.leb_spec left lo); [lia|].
      by destruct (Z.leb_spec left hi); [|lia].
  - intros x Hx. rewrite !(algo_at_app rs _ s lo) by (done || lia). destruct (Z.ltb_spec x lo); [done|]. cbn.
    by destruct (Z.leb_spec x (left - 1)), (Z.leb_spec x hi); try lia.
  - intros x Hx. rewrite (algo_at_app rs _ s lo) by (done || lia). by destruct (Z.ltb_spec x lo); [lia|].
Qed.

Lemma clears_all s e rs (left right : Z) : chain s e rs -> s <= left -> left <= right < e -> 0 <= s -> e <= MAX + 1 ->
  clear_after left right rs -> clears s e left right rs.
Proof.
  intros Hc Hsl Hlr Hs He Hcl.
  destruct (chain_cut s e rs left Hc ltac:(lia)) as [(A1 & rest & -> & HA & Hrest)|(A1 & lo & hi & a & rest & -> & HA & Hin & Hrest)];
    rewrite clear_after_app in Hcl; destruct Hcl as [_ Hcl].
  - by apply (clears_cut s left left e A1 [] rest).
  - destruct (Z_le_gt_dec hi right); [|apply clears_inside; (done || lia)].
    apply Forall_cons in Hcl as [_ Hcl]. apply (clears_cut s lo (hi + 1) e A1 [mk_range lo hi a] rest); try done.
Qed.

Lemma insert_flat rs (left right : Z) a : chain 0 (MAX + 1) rs -> 0 <= left -> left <= right <= MAX -> clear_after left right rs ->
  exists rs', insert (flat rs) left right a = Returns (flat rs') /\ chain 0 (MAX + 1) rs' /\
    forall x, 0 <= x -> algo_at rs' x = if (left <=? x) && (x <=? right) then Some a else algo_at rs x.
Proof.
  intros Hc Hl Hr Hcl. destruct (clears_all 0 (MAX + 1) rs left right Hc) as (rs1 & rs2 & H1 & H2 & E & Hat1 & Hat2); [done|lia..|done|].
  destruct (insert_finish rs1 rs2 0 (MAX + 1) left right a) as (rs' & E' & Hc' & Hat); [done|done|lia..|].
  exists rs'. split_and!; [|done|].
  - unfold insert. destruct (remove_internal _ _ _ _ _) as [t| |]; [|done..]. cbn [outcome_bind] in *. rewrite E. exact E'.
  - intros x Hx. rewrite Hat by done. rewrite (algo_at_app rs1 _ 0 left) by done. rewrite algo_at_cons.
    destruct (Z.ltb_spec x left), (Z.leb_spec left x), (Z.leb_spec x right); try lia; cbn [andb]; [apply Hat1|done|apply Hat2]; lia.
Qed.

(** * Tables as functions of the size *)

(** The table is a sequence of ranges that covers every size. *)
Definition covering t : Prop := exists rs, chain 0 (MAX + 1) rs /\ t = flat rs.

(** The table is [f]. *)
Definition table_is t (f : Z -> A) : Prop := covering t /\ forall x, 0 <= x <= MAX -> get_value_from_table x t = Returns (f x).

(** No range that starts at or after [left] ends one past [right]. *)
Definition can_insert t (left right : Z) : bool :=
  match find t (right + 1) with
  | Some (_, border_both) => false
  | Some (_, border_right) => match prev t (right + 1) with Some p => p <? left | None => true end
  | _ => true
  end.

Lemma can_insert_clear s e rs (left right : Z) : chain s e rs -> left <= right -> can_insert (flat rs) left right = true -> clear_after left right rs.
Proof.
  intros Hc Hlr Hcan. apply Forall_forall. intros [lo hi a] Hin Hhi. cbn in *. subst hi.
  apply list_elem_of_split in Hin as (rs1 & rs2 & ->). apply chain_app in Hc as (m & H1 & Hlo & Hle & H2). cbn in Hlo, Hle, H2. subst m.
  pose proof (chain_keys _ _ _ H1). pose proof (chain_keys _ _ _ H2). unfold can_insert in Hcan. rewrite flat_app, flat_cons in Hcan.
  destruct (Z.eq_dec lo (right + 1)) as [->|].
  - rewrite elems_single in Hcan. cbn [app] in Hcan. by rewrite find_skip, find_here in Hcan by keys.
  - rewrite elems_pair in Hcan by lia. cbn [app] in Hcan. rewrite find_second, prev_here in Hcan by (keys; lia).
    by apply Z.ltb_lt in Hcan.
Qed.

Lemma insert_is t f (left right : Z) a : table_is t f -> 0 <= left -> left <= right <= MAX -> can_insert t left right = true ->
  exists t', insert t left right a = Returns t' /\ table_is t' (fun x => if (left <=? x) && (x <=? right) then a else f x).
Proof.
  intros [(rs & Hc & ->) Hf] Hl Hr Hcan. destruct (insert_flat rs left right a) as (rs' & E & Hc' & Hat); [done..| |].
  { eapply can_insert_clear; try done; lia. }
  exists (flat rs'). split; [done|]. split; [by eexists|]. intros x Hx.
  destruct (get_value_flat _ _ rs' x Hc' ltac:(lia)) as (a' & -> & Ha'). rewrite Hat in Ha' by lia.
  destruct ((left <=? x) && (x <=? right)); [congruence|].
  destruct (get_value_flat _ _ rs x Hc ltac:(lia)) as (a2 & Ea2 & Ha2). rewrite Hf in Ea2 by done. congruence.
Qed.

(** The ranges of a table from size [s] on, if it is a sequence of ranges up to the last size. *)
Fixpoint read_ranges (s : Z) t : option (list range) :=
  match t with
  | [] => if s =? MAX + 1 then Some [] else None
  | (k, (a, border_both)) :: t' =>
    if k =? s then cons (mk_range k k a) <$> read_ranges (k + 1) t' else None
  | (k, (a, border_left)) :: (k2, (a2, border_right)) :: t' =>
    if (k =? s) && (k <? k2) && bool_decide (a = a2) then cons (mk_range k k2 a) <$> read_ranges (k2 + 1) t' else None
  | _ => None
  end.

Lemma read_ranges_sound n t s rs : (length t <= n)%nat -> read_ranges s t = Some rs -> chain s (MAX + 1) rs /\ t = flat rs.
Proof.
  revert t s rs. induction n as [|n IH]; intros [|[k [a b]] t] s rs Hn; cbn [length read_ranges] in *; try lia.
  1, 2: destruct (Z.eqb_spec s (MAX + 1)) as [->|]; intros [= <-]; done.
  destruct b; [|done|].
  - destruct t as [|[k2 [a2 []]] t]; [done..| |done].
    destruct (Z.eqb_spec k s) as [->|]; [|done]. destruct (Z.ltb_spec s k2); [|done]. case_bool_decide; [|done]. subst a2. cbn.
    destruct (read_ranges (k2 + 1) t) as [rs'|] eqn:E; [|done]. intros [= <-]. cbn in Hn. apply IH in E as [Hc ->]; [|lia].
    split; [cbn; split_and!; (done || lia)|]. by rewrite flat_cons, elems_pair.
  - destruct (Z.eqb_spec k s) as [->|]; [|done]. destruct (read_ranges (s + 1) t) as [rs'|] eqn:E; [|done]. intros [= <-].
    apply IH in E as [Hc ->]; [|lia]. split; [cbn; split_and!; (done || lia)|]. by rewrite flat_cons, elems_single.
Qed.

Lemma covering_read t : is_Some (read_ranges 0 t) -> covering t.
Proof. intros [rs E]. exists rs. by apply (read_ranges_sound (length t)). Qed.

(** The constructors of the selectors start with the whole range. *)
Lemma insert_first_is a : exists t, insert [] 0 MAX a = Returns t /\ table_is t (fun _ => a).
Proof.
  exists (flat [mk_range 0 MAX a]). split; [by vm_compute|]. assert (Hc : chain 0 (MAX + 1) [mk_range 0 MAX a]) by (cbn; unfold CCL_SELECTION_MAX_COLL_SIZE; lia).
  split; [by eexists|]. intros x Hx. destruct (get_value_flat _ _ _ x Hc ltac:(lia)) as (a' & -> & Ha'). cbn in Ha'.
  destruct (Z.leb_spec x MAX); [congruence|lia].
Qed.

(** A table is one function. *)
Lemma table_is_ext t f g : table_is t f -> (forall x, 0 <= x <= MAX -> f x = g x) -> table_is t g.
Proof. intros [Hc Hf] Hfg. split; [done|]. intros x Hx. rewrite Hf by done. by rewrite Hfg. Qed.

(** ** Claims *)

(** C23: [insert] of an algorithm for the sizes from [left] to [right] into a table that covers all sizes
    returns, without a failed check or an invalid iterator, a table that covers all sizes, gives the new
    algorithm for the sizes of the range and the old one for all others, provided that no range of the
    table that starts at or after [left] ends one past [right]. *)
Theorem insert_overwrites t f (left right : Z) a : table_is t f -> 0 <= left -> left <= right <= MAX -> can_insert t left right = true ->
  exists t', insert t left right a = Returns t' /\ table_is t' (fun x => if (left <=? x) && (x <=? right) then a else f x).
Proof. apply insert_is. Qed.

End table.
Arguments ccl_selection_table_t : clear implicits.

(** A table that gives algorithm 1 to the sizes up to 9 and algorithm 2 to the others. *)
Definition two_ranges : ccl_selection_table_t nat :=
  [(0, (1%nat, border_left)); (9, (1%nat, border_right)); (10, (2%nat, border_left)); (MAX, (2%nat, border_right))].

Lemma two_ranges_is : table_is two_ranges (fun x => if x <=? 9 then 1%nat else 2%nat).
Proof.
  assert (Hc : chain 0 (MAX + 1) [mk_range 0 9 1%nat; mk_range 10 MAX 2%nat]) by (cbn; unfold CCL_SELECTION_MAX_COLL_SIZE; lia).
  split; [by eexists|]. intros x Hx. destruct (get_value_flat _ _ _ x Hc ltac:(lia)) as (a & E & Ha). cbn in Ha.
  change two_ranges with (flat [mk_range 0 9 1%nat; mk_range 10 MAX 2%nat]). rewrite E.
  destruct (Z.leb_spec x 9); [congruence|]. destruct (Z.leb_spec x MAX); [congruence|lia].
Defined.

Lemma insert_overwrites_witness : exists t', insert two_ranges 5 20 3%nat = Returns t' /\
  table_is t' (fun x => if (5 <=? x) && (x <=? 20) then 3%nat else if x <=? 9 then 1%nat else 2%nat).
Proof. apply insert_overwrites; [exact two_ranges_is|lia|unfold CCL_SELECTION_MAX_COLL_SIZE; lia|vm_compute; reflexivity]. Defined.

(** Outside that condition [insert] is wrong.  The first loop tests the size of the element it read
    before and not the one it is at, so that inserting below a range of the single size 10 erases that
    range, and the table no longer covers the size; and inserting all but the last size of a range
    erases an element through an iterator twice. *)
Theorem insert_defects :
  (let t := [(0, (1%nat, border_left)); (9, (1%nat, border_right)); (10, (2%nat, border_both));
             (11, (1%nat, border_left)); (MAX, (1%nat, border_right))] in
   get_value_from_table 10 t = Returns 2%nat /\
   exists t', insert t 0 9 3%nat = Returns t' /\ find t' 10 = None /\ get_value_from_table 10 t' = Returns 1%nat) /\
  insert two_ranges 0 8 3%nat = Undefined.
Proof. split; [split; [reflexivity|eexists; split_and!; vm_compute; reflexivity]|vm_compute; reflexivity]. Qed.
