(* ===== verification/Selection.v ===== *)
(** Algorithm selection of a host build (neither [CCL_ENABLE_SYCL] nor [CCL_ENABLE_ZE]):
    the configuration strings, [init] and [get] of
    [src/src/coll/selection/selector_impl.hpp], and the selectors of
    [src/src/coll/selection/selector_*.cpp] for the collectives of this library.

    What a selector knows about the algorithms of its collective is the class
    [ccl_algorithm_selector_helper]; parsing, [init] and [get] are generic in it. *)

From Stdlib Require Import String Ascii.
From stdpp Require Import strings list.
From S2P Require Import Prelude AtlTag SelectTable.
Open Scope Z_scope.
Open Scope ccl_scope.

(** * Environment and parameters *)

Inductive ccl_fp16_impl_type :=
| ccl_fp16_no_compiler_support | ccl_fp16_no_hardware_support
| ccl_fp16_f16c | ccl_fp16_avx512f | ccl_fp16_avx512fp16.

#[export] Instance fp16_eq_dec : EqDecision ccl_fp16_impl_type.
Proof. solve_decision. Defined.
#[export] Instance transport_eq_dec : EqDecision ccl_atl_transport.
Proof. solve_decision. Defined.

(** The variables that selection reads. *)
Record sel_env := mk_sel_env {
  atl_transport : ccl_atl_transport;
  enable_algo_fallback : bool;
  fp16_impl_type : ccl_fp16_impl_type;
  enable_rma : bool;
  enable_unordered_coll : bool;
  worker_count : Z
}.

(** [ccl_selector_param]; [dtype] by its size and whether it is [float16], [comm] by its
    size and the greatest power of two up to it, [recv_counts] by the array it points to.  [hint_algo] is [None] when [has_value()] is
    false. *)
Record ccl_selector_param (algo : Type) := mk_selector_param {
  count : Z;
  dtype_size : Z;
  dtype_is_float16 : bool;
  comm_size : Z;
  comm_pof2 : Z;
  recv_counts : option (list Z);
  is_vector_buf : bool;
  is_scaleout : bool;
  hint_algo : option algo
}.
Arguments mk_selector_param {algo}.
Arguments count {algo}. Arguments dtype_size {algo}. Arguments dtype_is_float16 {algo}.
Arguments comm_size {algo}. Arguments comm_pof2 {algo}. Arguments recv_counts {algo}.
Arguments is_vector_buf {algo}. Arguments is_scaleout {algo}. Arguments hint_algo {algo}.

(** * What a collective tells about its algorithms *)

Class ccl_algorithm_selector_helper (algo : Type) `{EqDecision algo} := {
  algo_names : list (algo * string);
  get_count : ccl_selector_param algo -> outcome Z;
  can_use : sel_env -> algo -> ccl_selector_param algo -> bool
}.

Record ccl_algorithm_selector_base (algo : Type) := mk_selector {
  main_table : ccl_selection_table_t algo;
  fallback_table : ccl_selection_table_t algo;
  scaleout_table : ccl_selection_table_t algo
}.
Arguments mk_selector {algo}.
Arguments main_table {algo}. Arguments fallback_table {algo}. Arguments scaleout_table {algo}.

Section selector.
Context {algo : Type} `{Hhelper : ccl_algorithm_selector_helper algo}.
Abbreviation table := (ccl_selection_table_t algo).
Implicit Types (t : table) (s : string).

Fixpoint name_lookup (names : list (algo * string)) s : outcome algo :=
  match names with
  | [] => Throws
  | (a, n) :: names' => if String.eqb s n then Returns a else name_lookup names' s
  end.
Definition algo_from_str s : outcome algo := name_lookup algo_names s.

(** * Configuration strings *)

Definition CCL_SELECTION_BLOCK_DELIMETER : ascii := ";".
Definition CCL_SELECTION_ALGO_DELIMETER : ascii := ":".
Definition CCL_SELECTION_SIZE_DELIMETER : ascii := "-".
Definition CCL_SELECTION_MAX_COLL_SIZE_STR : string := "max".

(** The text up to a delimiter or the end, and what follows the delimiter. *)
Fixpoint until (d : ascii) s : string * string :=
  match s with
  | EmptyString => (EmptyString, EmptyString)
  | String c s' => if Ascii.eqb c d then (EmptyString, s') else let '(l, r) := until d s' in (String c l, r)
  end.
(** [std::getline]: fails at the end of the text. *)
Definition getline s (d : ascii) : option (string * string) :=
  match s with EmptyString => None | _ => Some (until d s) end.

(** [block.substr(pos)] throws [std::out_of_range] beyond the end. *)
Definition substr (pos : nat) s : outcome string :=
  if (pos <=? String.length s)%nat then Returns (String.substring pos (String.length s - pos) s) else Throws.

Definition is_space (c : ascii) : bool := let n := nat_of_ascii c in ((n =? 32) || ((9 <=? n) && (n <=? 13)))%nat.
Definition digit (c : ascii) : option Z :=
  let n := Z.of_nat (nat_of_ascii c) in if (48 <=? n) && (n <=? 57) then Some (n - 48) else None.
Fixpoint skip_spaces s : string :=
  match s with String c s' => if is_space c then skip_spaces s' else s | EmptyString => s end.
Fixpoint digits (acc : Z) s : Z :=
  match s with
  | EmptyString => acc
  | String c s' => match digit c with Some d => digits (acc * 10 + d) s' | None => acc end
  end.
(** [std::strtoul(s, nullptr, 10)].  The text never holds a minus sign, which delimits sizes. *)
Definition strtoul s : Z :=
  let s := skip_spaces s in
  let s := match s with String c s' => if Ascii.eqb c "+" then s' else s | EmptyString => s end in
  Z.min MAX (digits 0 s).

Definition parse_size s : Z := if String.eqb s CCL_SELECTION_MAX_COLL_SIZE_STR then MAX else strtoul s.

(** One block, [<algo>] or [<algo>:<size1-size2>]. *)
Definition fill_block (block : string) t : outcome table :=
  if String.eqb block "" then Throws else
  match getline block CCL_SELECTION_ALGO_DELIMETER with
  | None => Throws
  | Some (algo_name_str, _) =>
    a <-? algo_from_str algo_name_str ;;
    if (String.length algo_name_str =? String.length block)%nat then insert [] 0 MAX a else
    rest <-? substr (String.length algo_name_str + 1) block ;;
    match getline rest CCL_SELECTION_SIZE_DELIMETER with
    | None => Throws
    | Some (size_str, _) =>
      let left_size := parse_size size_str in
      rest <-? substr (String.length algo_name_str + String.length size_str + 2) block ;;
      match getline rest CCL_SELECTION_SIZE_DELIMETER with
      | None => Throws
      | Some (size_str, _) =>
        let right_size := parse_size size_str in
        check (left_size <=? right_size) ;;
        insert t left_size right_size a
      end
    end
  end.

(** [while (std::getline(full_stream, block, ';'))] *)
Fixpoint fill_blocks (fuel : nat) (full_stream : string) t : outcome table :=
  match fuel with
  | O => Throws
  | S fuel' =>
    match getline full_stream CCL_SELECTION_BLOCK_DELIMETER with
    | None => Returns t
    | Some (block, rest) => t <-? fill_block block t ;; fill_blocks fuel' rest t
    end
  end.
Definition fill_table_from_str (str_to_parse : string) t : outcome table :=
  fill_blocks (S (String.length str_to_parse)) str_to_parse t.

(** * [init] *)

(** The borders alternate; [expect_right] is whether [expected_set] is [expected_right]. *)
Fixpoint check_borders (expect_right : bool) t : bool :=
  match t with
  | [] => true
  | (_, (_, b)) :: t' =>
    match b with
    | border_right => expect_right && check_borders false t'
    | border_left => negb expect_right && check_borders true t'
    | border_both => negb expect_right && check_borders false t'
    end
  end.

Definition check_table t : bool :=
  (2 <=? length t)%nat && bool_decide (is_Some (find t 0)) && bool_decide (is_Some (find t MAX)) && check_borders false t.

Definition init (sel : ccl_algorithm_selector_base algo) (main_str scaleout_str : string) :
    outcome (ccl_algorithm_selector_base algo) :=
  m <-? fill_table_from_str main_str (main_table sel) ;;
  so <-? fill_table_from_str scaleout_str (scaleout_table sel) ;;
  check check_table m && check_table (fallback_table sel) && check_table so ;;
  Returns (mk_selector m (fallback_table sel) so).

(** * [get] *)

(** The element at the lower bound of a size, [None] at the end of the table. *)
Definition table_lookup t (size : Z) : option algo := match lower_bound t size with Some k => fst <$> find t k | None => None end.

(** The fallback table. *)
Definition get_fallback (env : sel_env) (sel : ccl_algorithm_selector_base algo) (param : ccl_selector_param algo) (size : Z) : outcome algo :=
  check (enable_algo_fallback env) ;;
  match table_lookup (fallback_table sel) size with
  | None => Throws
  | Some a => check can_use env a param ;; Returns a
  end.

Definition get_regular (env : sel_env) (sel : ccl_algorithm_selector_base algo) (param : ccl_selector_param algo) (count : Z) : outcome algo :=
  let size := u64 (count * dtype_size param) in
  let from_main :=
    match table_lookup (main_table sel) size with
    | Some a => if can_use env a param then Returns a else get_fallback env sel param size
    | None => get_fallback env sel param size
    end in
  if is_scaleout param then
    match table_lookup (scaleout_table sel) size with
    | Some a => if can_use env a param then Returns a else from_main
    | None => from_main
    end
  else from_main.

Definition get (env : sel_env) (sel : ccl_algorithm_selector_base algo) (param : ccl_selector_param algo) : outcome algo :=
  count <-? get_count param ;;
  match hint_algo param with
  | Some a => if can_use env a param then Returns a else get_regular env sel param count
  | None => get_regular env sel param count
  end.

End selector.

(** * The selectors *)

(** Half precision on the host needs compiler and hardware support. *)
Definition ccl_can_use_datatype {algo} (env : sel_env) (device_side_algo : bool) (param : ccl_selector_param algo) : bool :=
  if negb (dtype_is_float16 param) then true
  else if device_side_algo then true
  else bool_decide (fp16_impl_type env <> ccl_fp16_no_hardware_support) &&
       bool_decide (fp16_impl_type env <> ccl_fp16_no_compiler_support).

(** A host build has no device algorithm. *)
Definition ccl_can_use_topo_algo {algo} (param : ccl_selector_param algo) : bool := false.

Abbreviation is_ofi env := (bool_decide (atl_transport env = ccl_atl_ofi)).
Abbreviation is_mpi env := (bool_decide (atl_transport env = ccl_atl_mpi)).

Definition CCL_ALLGATHERV_SHORT_MSG_SIZE : Z := 32768.
Definition CCL_ALLREDUCE_SHORT_MSG_SIZE : Z := 8192.
Definition CCL_ALLREDUCE_MEDIUM_MSG_SIZE : Z := 1024 * 1024.
Definition CCL_ALLTOALL_MEDIUM_MSG_SIZE : Z := 1024 * 1024.
Definition CCL_BCAST_SHORT_MSG_SIZE : Z := 8192.

(** ** Allreduce *)

Inductive ccl_coll_allreduce_algo :=
| ccl_coll_allreduce_direct | ccl_coll_allreduce_rabenseifner | ccl_coll_allreduce_nreduce
| ccl_coll_allreduce_ring | ccl_coll_allreduce_ring_rma | ccl_coll_allreduce_double_tree
| ccl_coll_allreduce_recursive_doubling | ccl_coll_allreduce_2d | ccl_coll_allreduce_topo.

#[export] Instance allreduce_algo_eq_dec : EqDecision ccl_coll_allreduce_algo.
Proof. solve_decision. Defined.

Definition allreduce_can_use (env : sel_env) (a : ccl_coll_allreduce_algo) (param : ccl_selector_param ccl_coll_allreduce_algo) : bool :=
  let can_use := ccl_can_use_datatype env (bool_decide (a = ccl_coll_allreduce_topo)) param in
  match a with
  | ccl_coll_allreduce_rabenseifner => if int32 (count param) <? comm_pof2 param then false else can_use
  | ccl_coll_allreduce_ring_rma => if negb (enable_rma env) then false else can_use
  | ccl_coll_allreduce_nreduce => if count param / comm_size param =? 0 then false else can_use
  | ccl_coll_allreduce_direct =>
    if is_ofi env then false else if is_scaleout param && (1 <? worker_count env) then false else can_use
  | ccl_coll_allreduce_topo => if negb (ccl_can_use_topo_algo param) then false else can_use
  | ccl_coll_allreduce_2d => if is_scaleout param then false else can_use
  | _ => can_use
  end.

#[export] Instance allreduce_helper : ccl_algorithm_selector_helper ccl_coll_allreduce_algo := {
  algo_names :=
    [(ccl_coll_allreduce_direct, "direct"); (ccl_coll_allreduce_rabenseifner, "rabenseifner");
     (ccl_coll_allreduce_nreduce, "nreduce"); (ccl_coll_allreduce_ring, "ring");
     (ccl_coll_allreduce_ring_rma, "ring_rma"); (ccl_coll_allreduce_double_tree, "double_tree");
     (ccl_coll_allreduce_recursive_doubling, "recursive_doubling"); (ccl_coll_allreduce_2d, "2d")]%string;
  get_count := fun param => Returns (count param);
  can_use := allreduce_can_use
}.

Definition allreduce_selector (env : sel_env) : outcome (ccl_algorithm_selector_base ccl_coll_allreduce_algo) :=
  main <-?
    (if is_ofi env then
       t <-? insert [] 0 MAX ccl_coll_allreduce_ring ;;
       t <-? insert t 0 CCL_ALLREDUCE_SHORT_MSG_SIZE ccl_coll_allreduce_recursive_doubling ;;
       insert t (CCL_ALLREDUCE_SHORT_MSG_SIZE + 1) CCL_ALLREDUCE_MEDIUM_MSG_SIZE ccl_coll_allreduce_nreduce
     else if is_mpi env then insert [] 0 MAX ccl_coll_allreduce_direct
     else Returns []) ;;
  fallback <-? (t <-? insert [] 0 MAX ccl_coll_allreduce_ring ;;
                insert t 0 CCL_ALLREDUCE_SHORT_MSG_SIZE ccl_coll_allreduce_recursive_doubling) ;;
  scaleout <-? insert [] 0 MAX ccl_coll_allreduce_ring ;;
  Returns (mk_selector main fallback scaleout).

(** ** Allgatherv *)

Inductive ccl_coll_allgatherv_algo :=
| ccl_coll_allgatherv_direct | ccl_coll_allgatherv_naive | ccl_coll_allgatherv_ring
| ccl_coll_allgatherv_flat | ccl_coll_allgatherv_multi_bcast | ccl_coll_allgatherv_topo.

#[export] Instance allgatherv_algo_eq_dec : EqDecision ccl_coll_allgatherv_algo.
Proof. solve_decision. Defined.

Definition allgatherv_can_use (env : sel_env) (a : ccl_coll_allgatherv_algo) (param : ccl_selector_param ccl_coll_allgatherv_algo) : bool :=
  if bool_decide (a = ccl_coll_allgatherv_topo) && negb (ccl_can_use_topo_algo param) then false
  else if is_vector_buf param && negb (bool_decide (a = ccl_coll_allgatherv_flat)) &&
          negb (bool_decide (a = ccl_coll_allgatherv_multi_bcast)) && negb (bool_decide (a = ccl_coll_allgatherv_topo)) then false
  else if bool_decide (a = ccl_coll_allgatherv_multi_bcast) && is_mpi env then false
  else if bool_decide (a = ccl_coll_allgatherv_direct) && is_scaleout param && (1 <? worker_count env) then false
  else true.

#[export] Instance allgatherv_helper : ccl_algorithm_selector_helper ccl_coll_allgatherv_algo := {
  algo_names :=
    [(ccl_coll_allgatherv_direct, "direct"); (ccl_coll_allgatherv_naive, "naive"); (ccl_coll_allgatherv_ring, "ring");
     (ccl_coll_allgatherv_flat, "flat"); (ccl_coll_allgatherv_multi_bcast, "multi_bcast")]%string;
  get_count := fun param =>
    match recv_counts param with
    | None => Throws
    | Some cs => Returns (foldl (fun s c => u64 (s + c)) 0 cs / comm_size param)
    end;
  can_use := allgatherv_can_use
}.

Definition allgatherv_selector (env : sel_env) : outcome (ccl_algorithm_selector_base ccl_coll_allgatherv_algo) :=
  main <-?
    (if is_ofi env then
       t <-? insert [] 0 CCL_ALLGATHERV_SHORT_MSG_SIZE ccl_coll_allgatherv_naive ;;
       insert t (CCL_ALLGATHERV_SHORT_MSG_SIZE + 1) MAX ccl_coll_allgatherv_ring
     else if is_mpi env then insert [] 0 MAX ccl_coll_allgatherv_direct
     else Returns []) ;;
  scaleout <-? insert [] 0 MAX ccl_coll_allgatherv_ring ;;
  fallback <-? insert [] 0 MAX ccl_coll_allgatherv_flat ;;
  Returns (mk_selector main fallback scaleout).

(** ** Alltoallv *)

Inductive ccl_coll_alltoallv_algo :=
| ccl_coll_alltoallv_direct | ccl_coll_alltoallv_naive | ccl_coll_alltoallv_scatter | ccl_coll_alltoallv_topo.

#[export] Instance alltoallv_algo_eq_dec : EqDecision ccl_coll_alltoallv_algo.
Proof. solve_decision. Defined.

Definition alltoallv_can_use (env : sel_env) (a : ccl_coll_alltoallv_algo) (param : ccl_selector_param ccl_coll_alltoallv_algo) : bool :=
  if bool_decide (a = ccl_coll_alltoallv_topo) && negb (ccl_can_use_topo_algo param) then false
  else if is_vector_buf param && negb (bool_decide (a = ccl_coll_alltoallv_scatter)) &&
          negb (bool_decide (a = ccl_coll_alltoallv_naive)) && negb (bool_decide (a = ccl_coll_alltoallv_topo)) then false
  else if bool_decide (a = ccl_coll_alltoallv_direct) && is_ofi env then false
  else if bool_decide (a = ccl_coll_alltoallv_direct) && is_scaleout param then false
  else true.

#[export] Instance alltoallv_helper : ccl_algorithm_selector_helper ccl_coll_alltoallv_algo := {
  algo_names :=
    [(ccl_coll_alltoallv_direct, "direct"); (ccl_coll_alltoallv_naive, "naive"); (ccl_coll_alltoallv_scatter, "scatter")]%string;
  get_count := fun param => Returns (count param);
  can_use := alltoallv_can_use
}.

Definition alltoallv_selector (env : sel_env) : outcome (ccl_algorithm_selector_base ccl_coll_alltoallv_algo) :=
  main <-?
    (t <-? insert [] 0 MAX ccl_coll_alltoallv_scatter ;;
     if is_mpi env then insert t 0 CCL_ALLTOALL_MEDIUM_MSG_SIZE ccl_coll_alltoallv_direct else Returns t) ;;
  scaleout <-? insert [] 0 MAX ccl_coll_alltoallv_scatter ;;
  fallback <-? insert [] 0 MAX ccl_coll_alltoallv_scatter ;;
  Returns (mk_selector main fallback scaleout).

(** ** Barrier *)

Inductive ccl_coll_barrier_algo := ccl_coll_barrier_direct | ccl_coll_barrier_ring.

#[export] Instance barrier_algo_eq_dec : EqDecision ccl_coll_barrier_algo.
Proof. solve_decision. Defined.

Definition barrier_can_use (env : sel_env) (a : ccl_coll_barrier_algo) (param : ccl_selector_param ccl_coll_barrier_algo) : bool :=
  if bool_decide (a = ccl_coll_barrier_direct) && is_ofi env then false else true.

#[export] Instance barrier_helper : ccl_algorithm_selector_helper ccl_coll_barrier_algo := {
  algo_names := [(ccl_coll_barrier_direct, "direct"); (ccl_coll_barrier_ring, "ring")]%string;
  get_count := fun _ => Returns 0;
  can_use := barrier_can_use
}.

Definition barrier_selector (env : sel_env) : outcome (ccl_algorithm_selector_base ccl_coll_barrier_algo) :=
  main <-? (if is_ofi env then insert [] 0 MAX ccl_coll_barrier_ring
            else if is_mpi env then insert [] 0 MAX ccl_coll_barrier_direct else Returns []) ;;
  fallback <-? insert [] 0 MAX ccl_coll_barrier_ring ;;
  Returns (mk_selector main fallback main).

(** ** Bcast *)

Inductive ccl_coll_bcast_algo :=
| ccl_coll_bcast_direct | ccl_coll_bcast_ring | ccl_coll_bcast_double_tree | ccl_coll_bcast_naive | ccl_coll_bcast_topo.

#[export] Instance bcast_algo_eq_dec : EqDecision ccl_coll_bcast_algo.
Proof. solve_decision. Defined.

Definition bcast_can_use (env : sel_env) (a : ccl_coll_bcast_algo) (param : ccl_selector_param ccl_coll_bcast_algo) : bool :=
  let can_use := ccl_can_use_datatype env (bool_decide (a = ccl_coll_bcast_topo)) param in
  if enable_unordered_coll env && bool_decide (a = ccl_coll_bcast_double_tree) then false
  else if bool_decide (a = ccl_coll_bcast_direct) && is_ofi env then false
  else if bool_decide (a = ccl_coll_bcast_topo) && negb (ccl_can_use_topo_algo param) then false
  else can_use.

#[export] Instance bcast_helper : ccl_algorithm_selector_helper ccl_coll_bcast_algo := {
  algo_names :=
    [(ccl_coll_bcast_direct, "direct"); (ccl_coll_bcast_ring, "ring"); (ccl_coll_bcast_double_tree, "double_tree");
     (ccl_coll_bcast_naive, "naive")]%string;
  get_count := fun param => Returns (count param);
  can_use := bcast_can_use
}.

Definition bcast_selector (env : sel_env) : outcome (ccl_algorithm_selector_base ccl_coll_bcast_algo) :=
  main <-?
    (if is_ofi env then
       t <-? insert [] 0 MAX ccl_coll_bcast_naive ;;
       insert t 0 CCL_BCAST_SHORT_MSG_SIZE ccl_coll_bcast_double_tree
     else if is_mpi env then insert [] 0 MAX ccl_coll_bcast_direct
     else Returns []) ;;
  fallback <-? insert [] 0 MAX ccl_coll_bcast_naive ;;
  Returns (mk_selector main fallback main).

(** ** Reduce *)

Inductive ccl_coll_reduce_algo :=
| ccl_coll_reduce_direct | ccl_coll_reduce_rabenseifner | ccl_coll_reduce_ring
| ccl_coll_reduce_tree | ccl_coll_reduce_double_tree | ccl_coll_reduce_topo.

#[export] Instance reduce_algo_eq_dec : EqDecision ccl_coll_reduce_algo.
Proof. solve_decision. Defined.

Definition reduce_can_use (env : sel_env) (a : ccl_coll_reduce_algo) (param : ccl_selector_param ccl_coll_reduce_algo) : bool :=
  let can_use := ccl_can_use_datatype env (bool_decide (a = ccl_coll_reduce_topo)) param in
  match a with
  | ccl_coll_reduce_rabenseifner => if int32 (count param) <? comm_pof2 param then false else can_use
  | ccl_coll_reduce_direct =>
    if is_ofi env then false else if is_scaleout param && (1 <? worker_count env) then false else can_use
  | ccl_coll_reduce_topo => if negb (ccl_can_use_topo_algo param) then false else can_use
  | _ => can_use
  end.

#[export] Instance reduce_helper : ccl_algorithm_selector_helper ccl_coll_reduce_algo := {
  algo_names :=
    [(ccl_coll_reduce_direct, "direct"); (ccl_coll_reduce_rabenseifner, "rabenseifner"); (ccl_coll_reduce_ring, "ring");
     (ccl_coll_reduce_tree, "tree"); (ccl_coll_reduce_double_tree, "double_tree")]%string;
  get_count := fun param => Returns (count param);
  can_use := reduce_can_use
}.

Definition reduce_selector (env : sel_env) : outcome (ccl_algorithm_selector_base ccl_coll_reduce_algo) :=
  main <-? (if is_ofi env then insert [] 0 MAX ccl_coll_reduce_tree
            else if is_mpi env then insert [] 0 MAX ccl_coll_reduce_direct else Returns []) ;;
  scaleout <-? insert [] 0 MAX ccl_coll_reduce_double_tree ;;
  fallback <-? insert [] 0 MAX ccl_coll_reduce_tree ;;
  Returns (mk_selector main fallback scaleout).

(** ** Reduce-scatter *)

Inductive ccl_coll_reduce_scatter_algo :=
| ccl_coll_reduce_scatter_direct | ccl_coll_reduce_scatter_naive | ccl_coll_reduce_scatter_ring | ccl_coll_reduce_scatter_topo.

#[export] Instance reduce_scatter_algo_eq_dec : EqDecision ccl_coll_reduce_scatter_algo.
Proof. solve_decision. Defined.

Definition reduce_scatter_can_use (env : sel_env) (a : ccl_coll_reduce_scatter_algo)
    (param : ccl_selector_param ccl_coll_reduce_scatter_algo) : bool :=
  if bool_decide (a = ccl_coll_reduce_scatter_topo) && negb (ccl_can_use_topo_algo param) then false
  else if bool_decide (a = ccl_coll_reduce_scatter_direct) && is_ofi env then false
  else true.

#[export] Instance reduce_scatter_helper : ccl_algorithm_selector_helper ccl_coll_reduce_scatter_algo := {
  algo_names :=
    [(ccl_coll_reduce_scatter_direct, "direct"); (ccl_coll_reduce_scatter_naive, "naive"); (ccl_coll_reduce_scatter_ring, "ring")]%string;
  get_count := fun param => Returns (count param);
  can_use := reduce_scatter_can_use
}.

Definition reduce_scatter_selector (env : sel_env) : outcome (ccl_algorithm_selector_base ccl_coll_reduce_scatter_algo) :=
  main <-? (if is_ofi env then insert [] 0 MAX ccl_coll_reduce_scatter_naive
            else if is_mpi env then insert [] 0 MAX ccl_coll_reduce_scatter_direct else Returns []) ;;
  scaleout <-? insert [] 0 MAX ccl_coll_reduce_scatter_naive ;;
  fallback <-? insert [] 0 MAX ccl_coll_reduce_scatter_naive ;;
  Returns (mk_selector main fallback scaleout).

(** * Tables that cover all sizes *)

Section covers.
Context {algo : Type} `{Hhelper : ccl_algorithm_selector_helper algo}.

Lemma check_borders_flat (rs : list (range (A := algo))) : check_borders false (flat rs) = true.
Proof.
  induction rs as [|r rs IH]; [done|]. rewrite flat_cons. unfold elems. by destruct (_ =? _).
Qed.

Lemma find_last s e (rs : list (range (A := algo))) : chain s e rs -> s < e -> is_Some (find (flat rs) (e - 1)).
Proof.
  revert s. induction rs as [|[lo hi a] rs IH]; intros s; cbn [chain r_lo r_hi]; [lia|]. intros (-> & Hle & Hc) Hlt.
  rewrite flat_cons. destruct (Z.eq_dec (hi + 1) e) as [<-|Hne].
  - replace (hi + 1 - 1) with hi by lia. unfold elems. cbn [r_lo r_hi r_algo].
    destruct (Z.eqb_spec s hi) as [->|]; cbn; rewrite ?Z.eqb_refl; [done|]. by destruct (hi =? s).
  - pose proof (chain_le _ _ _ Hc). rewrite find_skip; [by apply (IH _ Hc); lia|].
    eapply Forall_impl; [by apply elems_keys|]. cbn. lia.
Qed.

Lemma covering_check (t : ccl_selection_table_t algo) : covering t -> check_table t = true.
Proof.
  intros (rs & Hc & ->). unfold check_table. rewrite check_borders_flat, andb_true_r.
  assert (HM : MAX = 2 ^ 64 - 1) by done. rewrite !andb_true_iff, !bool_decide_eq_true, Nat.leb_le. split_and!.
  - destruct rs as [|[lo hi a] rs]; [cbn in Hc; lia|]. destruct Hc as (Hlo & Hle & Hc). cbn in Hlo, Hle, Hc. subst lo. rewrite flat_cons, length_app.
    unfold elems. cbn [r_lo r_hi r_algo]. destruct (Z.eqb_spec 0 hi) as [<-|]; cbn; [|lia].
    destruct rs as [|r rs]; [cbn in Hc; lia|]. pose proof (length_flat (r :: rs)). cbn in *. lia.
  - destruct rs as [|[lo hi a] rs]; [cbn in Hc; lia|]. destruct Hc as (Hlo & _ & _). cbn in Hlo. subst lo. rewrite flat_cons. unfold elems. cbn.
    by destruct hi.
  - replace MAX with (MAX + 1 - 1) by lia. eapply find_last; [done|lia].
Qed.

Lemma covering_lookup (t : ccl_selection_table_t algo) (x : Z) : covering t -> 0 <= x <= MAX ->
  exists a, table_lookup t x = Some a /\ get_value_from_table x t = Returns a /\ Exists (fun e => e.2.1 = a) t.
Proof.
  intros (rs & Hc & ->) Hx. destruct (get_value_flat _ _ _ x Hc ltac:(lia)) as (a & E & _). exists a.
  unfold get_value_from_table in E. unfold table_lookup. destruct (lower_bound (flat rs) x) as [k|] eqn:El; [|done].
  destruct (find (flat rs) k) as [[a' b]|] eqn:Ef; [|done]. injection E as ->. cbn. split_and!; [done| |].
  { unfold get_value_from_table. by rewrite El, Ef. }
  clear -Ef. induction (flat rs) as [|[k' [a' b']] t IH]; [done|]. cbn in Ef. destruct (k =? k').
  - injection Ef as -> ->. by left.
  - right. by apply IH.
Qed.

(** Whatever the configuration, [get] returns an algorithm that can be used when those of the fallback
    table can. *)
Lemma get_usable env (sel0 sel : ccl_algorithm_selector_base algo) ms ss param n :
  covering (fallback_table sel0) -> init sel0 ms ss = Returns sel -> enable_algo_fallback env = true ->
  get_count param = Returns n ->
  Forall (fun e => can_use env e.2.1 param = true) (fallback_table sel0) ->
  exists a, get env sel param = Returns a /\ can_use env a param = true.
Proof.
  intros Hc Hi Hen Hn Hf.
  assert (E : fallback_table sel = fallback_table sel0).
  { unfold init in Hi. destruct (fill_table_from_str ms _) as [m| |]; [|done..]. cbn [outcome_bind] in Hi.
    destruct (fill_table_from_str ss _) as [so| |]; [|done..]. cbn [outcome_bind] in Hi. by destruct (_ && _); [injection Hi as <-|]. }
  assert (Hfb : exists a, get_fallback env sel param (u64 (n * dtype_size param)) = Returns a /\ can_use env a param = true).
  { unfold get_fallback. rewrite Hen, E.
    destruct (covering_lookup _ (u64 (n * dtype_size param)) Hc) as (a & -> & _ & (e & He & <-)%Exists_exists).
    { pose proof (wrap_range 64 (n * dtype_size param)). unfold CCL_SELECTION_MAX_COLL_SIZE. lia. }
    rewrite Forall_forall in Hf. specialize (Hf _ He). cbn in Hf. rewrite Hf. by exists e.2.1. }
  assert (Hr : exists a, get_regular env sel param n = Returns a /\ can_use env a param = true).
  { unfold get_regular. repeat case_match; eauto. }
  unfold get. rewrite Hn. cbn [outcome_bind]. destruct (hint_algo param) as [a|]; [|done]. destruct (can_use env a param) eqn:?; eauto.
Qed.

End covers.

(** * Claims *)

Definition ofi_allreduce : ccl_algorithm_selector_base ccl_coll_allreduce_algo :=
  mk_selector
    [(0, (ccl_coll_allreduce_recursive_doubling, border_left)); (8192, (ccl_coll_allreduce_recursive_doubling, border_right));
     (8193, (ccl_coll_allreduce_nreduce, border_left)); (1048576, (ccl_coll_allreduce_nreduce, border_right));
     (1048577, (ccl_coll_allreduce_ring, border_left)); (MAX, (ccl_coll_allreduce_ring, border_right))]
    [(0, (ccl_coll_allreduce_recursive_doubling, border_left)); (8192, (ccl_coll_allreduce_recursive_doubling, border_right));
     (8193, (ccl_coll_allreduce_ring, border_left)); (MAX, (ccl_coll_allreduce_ring, border_right))]
    [(0, (ccl_coll_allreduce_ring, border_left)); (MAX, (ccl_coll_allreduce_ring, border_right))].

Lemma ofi_allreduce_selector env : atl_transport env = ccl_atl_ofi -> allreduce_selector env = Returns ofi_allreduce.
Proof. destruct env as [tr fb fp rma un wc]. cbn. intros ->. by vm_compute. Qed.

Definition ofi_choice (param : ccl_selector_param ccl_coll_allreduce_algo) : ccl_coll_allreduce_algo :=
  let size := u64 (count param * dtype_size param) in
  if size <=? CCL_ALLREDUCE_SHORT_MSG_SIZE then ccl_coll_allreduce_recursive_doubling
  else if (size <=? CCL_ALLREDUCE_MEDIUM_MSG_SIZE) && negb (count param / comm_size param =? 0) then ccl_coll_allreduce_nreduce
  else ccl_coll_allreduce_ring.

Lemma ofi_get env param :
  enable_algo_fallback env = true -> hint_algo param = None -> is_scaleout param = false -> ccl_can_use_datatype env false param = true ->
  get env ofi_allreduce param = Returns (ofi_choice param).
Proof.
  intros Hfb Hh Hso Hdt. unfold ofi_choice. set (size := u64 _).
  assert (Hs : 0 <= size <= MAX) by (pose proof (wrap_range 64 (count param * dtype_size param)); unfold CCL_SELECTION_MAX_COLL_SIZE; subst size; lia).
  unfold get. cbn [get_count allreduce_helper outcome_bind]. rewrite Hh. unfold get_regular. rewrite Hso. fold size. clearbody size.
  unfold get_fallback, CCL_ALLREDUCE_SHORT_MSG_SIZE, CCL_ALLREDUCE_MEDIUM_MSG_SIZE. rewrite Hfb.
  unfold table_lookup. cbn [ofi_allreduce main_table fallback_table lower_bound].
  change (1024 * 1024) with 1048576. change MAX with 18446744073709551615 in *.
  destruct (Z.leb_spec size 0), (Z.leb_spec size 8192), (Z.leb_spec size 8193), (Z.leb_spec size 1048576), (Z.leb_spec size 1048577),
    (Z.leb_spec size 18446744073709551615); try lia; cbn; rewrite ?bool_decide_false, ?Hdt by done; try done.
  all: by destruct (count param / comm_size param =? 0).
Qed.

(** The allreduce that the OFI transport uses by default, by the size of the message in bytes: recursive
    doubling up to 8 KiB, nreduce up to 1 MiB, the ring above; the ring replaces nreduce when there are
    fewer elements than ranks. *)
Theorem ofi_allreduce_choice env param :
  atl_transport env = ccl_atl_ofi -> enable_algo_fallback env = true -> hint_algo param = None -> is_scaleout param = false ->
  ccl_can_use_datatype env false param = true ->
  let size := u64 (count param * dtype_size param) in
  exists sel, allreduce_selector env = Returns sel /\
    get env sel param = Returns
      (if size <=? CCL_ALLREDUCE_SHORT_MSG_SIZE then ccl_coll_allreduce_recursive_doubling
       else if (size <=? CCL_ALLREDUCE_MEDIUM_MSG_SIZE) && negb (count param / comm_size param =? 0) then ccl_coll_allreduce_nreduce
       else ccl_coll_allreduce_ring).
Proof.
  intros Hofi Hfb Hh Hso Hdt size. exists ofi_allreduce. split; [by apply ofi_allreduce_selector|]. by apply ofi_get.
Qed.

Lemma allreduce_selected env sel0 main_str scaleout_str sel param :
  allreduce_selector env = Returns sel0 -> init sel0 main_str scaleout_str = Returns sel -> enable_algo_fallback env = true ->
  ccl_can_use_datatype env false param = true ->
  exists a, get env sel param = Returns a /\ allreduce_can_use env a param = true.
Proof.
  intros E Hi Hfb Hdt.
  assert (Hf : covering (fallback_table sel0) /\ Forall (fun e => allreduce_can_use env e.2.1 param = true) (fallback_table sel0)).
  { destruct env as [[] fb fp rma un wc]; vm_compute in E; injection E as <-; cbn [fallback_table];
      (split; [apply covering_read; vm_compute; eauto|repeat (apply Forall_cons; split; [exact Hdt|]); done]). }
  destruct Hf as [Hc Hf]. exact (get_usable env sel0 sel main_str scaleout_str param (count param) Hc Hi Hfb eq_refl Hf).
Qed.

(** Whatever algorithms the user configures for allreduce, if [init] accepts the configuration then [get]
    returns an algorithm that can be used, for every message and every hint, as long as the fallback is
    enabled and the host supports the datatype. *)
Theorem allreduce_always_selected env sel0 main_str scaleout_str sel param :
  allreduce_selector env = Returns sel0 -> init sel0 main_str scaleout_str = Returns sel -> enable_algo_fallback env = true ->
  ccl_can_use_datatype env false param = true ->
  exists a, get env sel param = Returns a /\ allreduce_can_use env a param = true.
Proof. apply allreduce_selected. Qed.

(** * Writing a configuration down *)

Local Open Scope string_scope.
Local Open Scope Z_scope.

Definition dec_digit (n : Z) : ascii := ascii_of_nat (Z.to_nat (48 + n)).
(** [std::to_string], in front of [acc]; 20 digits hold every size. *)
Fixpoint dec (fuel : nat) (n : Z) (acc : string) : string :=
  match fuel with
  | O => acc
  | S fuel' =>
    let acc := String (dec_digit (n mod 10)) acc in
    if n / 10 =? 0 then acc else dec fuel' (n / 10) acc
  end.
Definition print_size (n : Z) : string := if n =? MAX then CCL_SELECTION_MAX_COLL_SIZE_STR else dec 20 n "".

Section config.
Context {algo : Type} `{Hhelper : ccl_algorithm_selector_helper algo}.

Definition algo_to_str (a : algo) : string :=
  match list_find (fun p => p.1 = a) algo_names with Some (_, (_, n)) => n | None => "unknown" end.

(** A configured range: algorithm, first and last size. *)
Definition print_block (b : algo * Z * Z) : string :=
  algo_to_str b.1.1 ++ String CCL_SELECTION_ALGO_DELIMETER (print_size b.1.2 ++ String CCL_SELECTION_SIZE_DELIMETER (print_size b.2)).
Fixpoint print_config (cfg : list (algo * Z * Z)) : string :=
  match cfg with
  | [] => ""
  | [b] => print_block b
  | b :: cfg' => print_block b ++ String CCL_SELECTION_BLOCK_DELIMETER (print_config cfg')
  end.

Fixpoint lacks (d : ascii) (s : string) : bool :=
  match s with EmptyString => true | String c s' => negb (Ascii.eqb c d) && lacks d s' end.

(** The name of the algorithm can be read back. *)
Definition readable (a : algo) : bool :=
  bool_decide (algo_from_str (algo_to_str a) = Returns a) && negb (String.eqb (algo_to_str a) "") &&
  lacks CCL_SELECTION_ALGO_DELIMETER (algo_to_str a) && lacks CCL_SELECTION_BLOCK_DELIMETER (algo_to_str a).

(** ** Strings *)

Lemma append_cons c s s2 : String c s ++ s2 = String c (s ++ s2).
Proof. done. Qed.
Lemma lacks_app d s s2 : lacks d (s ++ s2) = lacks d s && lacks d s2.
Proof. induction s as [|c s IH]; [done|]. rewrite append_cons. cbn [lacks]. by rewrite IH, andb_assoc. Qed.
Lemma until_delim d s s2 : lacks d s = true -> until d (s ++ String d s2) = (s, s2).
Proof.
  induction s as [|c s IH]; [intros; change ("" ++ String d s2) with (String d s2); cbn [until]; by rewrite Ascii.eqb_refl|]. rewrite append_cons. cbn [lacks until].
  destruct (Ascii.eqb c d); [done|]. intros H. by rewrite IH.
Qed.
Lemma until_end d s : lacks d s = true -> until d s = (s, "").
Proof. induction s as [|c s IH]; cbn; [done|]. destruct (Ascii.eqb c d); [done|]. intros H. by rewrite IH. Qed.
Lemma length_append s s2 : String.length (s ++ s2) = (String.length s + String.length s2)%nat.
Proof. induction s; [done|]. rewrite append_cons. cbn. congruence. Qed.
Lemma substring_all s : String.substring 0 (String.length s) s = s.
Proof. induction s; cbn; congruence. Qed.
Lemma substring_skip s s2 n : String.substring (String.length s) n (s ++ s2) = String.substring 0 n s2.
Proof. induction s; [done|]. by rewrite append_cons. Qed.
Lemma substr_skip s s2 : substr (String.length s) (s ++ s2) = Returns s2.
Proof.
  unfold substr. rewrite length_append. destruct (Nat.leb_spec (String.length s) (String.length s + String.length s2)); [|lia].
  replace (String.length s + String.length s2 - String.length s)%nat with (String.length s2) by lia.
  by rewrite substring_skip, substring_all.
Qed.
Lemma append_assoc s1 s2 s3 : (s1 ++ s2) ++ s3 = s1 ++ (s2 ++ s3).
Proof. induction s1; [done|]. rewrite !append_cons. congruence. Qed.

(** ** Sizes *)

Lemma digit_dec n : 0 <= n < 10 -> digit (dec_digit n) = Some n.
Proof.
  intros Hn. unfold digit, dec_digit. rewrite nat_ascii_embedding by lia. rewrite Z2Nat.id by lia.
  destruct (Z.leb_spec 48 (48 + n)), (Z.leb_spec (48 + n) 57); try lia. cbn. f_equal. lia.
Qed.
Lemma digits_dec fuel n acc : 0 <= n < 10 ^ Z.of_nat fuel -> (0 < fuel)%nat -> digits 0 (dec fuel n acc) = digits n acc.
Proof.
  revert n acc. induction fuel as [|fuel IH]; intros n acc Hn Hf; [lia|]. cbn [dec].
  pose proof (Z.mod_pos_bound n 10 ltac:(lia)). pose proof (Z.div_mod n 10 ltac:(lia)).
  destruct (Z.eqb_spec (n / 10) 0) as [E|E].
  - cbn [digits]. rewrite digit_dec by done. f_equal. lia.
  - destruct fuel as [|fuel]; [exfalso; cbn in Hn; apply E, Z.div_small; lia|]. rewrite IH.
    + cbn [digits]. rewrite digit_dec by done. f_equal. lia.
    + split; [apply Z.div_pos; lia|]. apply Z.div_lt_upper_bound; [lia|]. rewrite <- Z.pow_succ_r by lia.
      replace (Z.succ (Z.of_nat (S fuel))) with (Z.of_nat (S (S fuel))) by lia. lia.
    + lia.
Qed.

(** A decimal number starts with a digit and holds nothing else. *)
Lemma dec_shape fuel n acc : 0 <= n -> (0 < fuel)%nat -> exists d s, dec fuel n acc = String (dec_digit d) s /\ 0 <= d < 10 /\
  forall c, (forall e, 0 <= e < 10 -> Ascii.eqb (dec_digit e) c = false) -> lacks c (dec fuel n acc) = lacks c acc.
Proof.
  revert n acc. induction fuel as [|fuel IH]; intros n acc Hn Hf; [lia|]. cbn [dec].
  pose proof (Z.mod_pos_bound n 10 ltac:(lia)). destruct (Z.eqb_spec (n / 10) 0) as [E|E].
  - exists (n mod 10), acc. split_and!; try done; try lia. intros c Hc. cbn. by rewrite Hc.
  - destruct fuel as [|fuel].
    + exists (n mod 10), acc. split_and!; try done; try lia. intros c Hc. cbn. by rewrite Hc.
    + destruct (IH (n / 10) (String (dec_digit (n mod 10)) acc)) as (d & s & E' & Hd & Hl); [apply Z.div_pos; lia|lia|].
      exists d, s. split_and!; [done|lia|lia|]. intros c Hc. rewrite Hl by done. cbn. by rewrite Hc.
Qed.

Lemma dec_digit_not c : (forall e, 0 <= e < 10 -> dec_digit e <> c) -> forall e, 0 <= e < 10 -> Ascii.eqb (dec_digit e) c = false.
Proof. intros H e He. by apply Ascii.eqb_neq, H. Qed.
Ltac by_digits := intros e He;
  assert (e = 0 \/ e = 1 \/ e = 2 \/ e = 3 \/ e = 4 \/ e = 5 \/ e = 6 \/ e = 7 \/ e = 8 \/ e = 9) by lia;
  destruct_or!; subst e; reflexivity.

Lemma print_size_lacks c n : 0 <= n -> c ∈ [CCL_SELECTION_BLOCK_DELIMETER; CCL_SELECTION_ALGO_DELIMETER; CCL_SELECTION_SIZE_DELIMETER] ->
  lacks c (print_size n) = true.
Proof.
  intros Hn Hc. assert (Hd : forall e, 0 <= e < 10 -> Ascii.eqb (dec_digit e) c = false).
  { repeat apply elem_of_cons in Hc as [->|Hc]; [by_digits..|]. by apply elem_of_nil in Hc. }
  unfold print_size. destruct (n =? MAX).
  - repeat apply elem_of_cons in Hc as [->|Hc]; [done..|]. by apply elem_of_nil in Hc.
  - destruct (dec_shape 20 n "" Hn ltac:(lia)) as (_ & _ & _ & _ & Hl). by rewrite Hl.
Qed.

Lemma print_size_nonempty n : 0 <= n -> exists c s, print_size n = String c s.
Proof.
  intros Hn. unfold print_size. destruct (n =? MAX); [by do 2 eexists|].
  destruct (dec_shape 20 n "" Hn ltac:(lia)) as (d & s & -> & _). by do 2 eexists.
Qed.

Lemma parse_print_size n : 0 <= n <= MAX -> parse_size (print_size n) = n.
Proof.
  intros Hn. unfold parse_size, print_size. destruct (Z.eqb_spec n MAX) as [->|Hne]; [done|].
  destruct (dec_shape 20 n "" ltac:(lia) ltac:(lia)) as (d & s & E & Hd & _). rewrite E.
  assert (Hm : Ascii.eqb (dec_digit d) "m" = false) by (revert d Hd E; intros d Hd _; revert d Hd; by_digits).
  assert (Hsp : is_space (dec_digit d) = false) by (clear E Hm; revert d Hd; by_digits).
  assert (Hpl : Ascii.eqb (dec_digit d) "+" = false) by (clear E Hm Hsp; revert d Hd; by_digits).
  replace (String.eqb (String (dec_digit d) s) CCL_SELECTION_MAX_COLL_SIZE_STR) with false
    by (unfold CCL_SELECTION_MAX_COLL_SIZE_STR; cbn [String.eqb]; by rewrite Hm).
  unfold strtoul. cbn [skip_spaces]. rewrite Hsp, Hpl, <- E, digits_dec; [cbn; lia| |lia].
  split; [lia|]. unfold CCL_SELECTION_MAX_COLL_SIZE in Hn. assert (2 ^ 64 < 10 ^ Z.of_nat 20) by reflexivity. lia.
Qed.

Definition block_ok (b : algo * Z * Z) : Prop := readable b.1.1 = true /\ 0 <= b.1.2 <= b.2 /\ b.2 <= MAX.

Lemma fill_print_block b t : block_ok b -> fill_block (print_block b) t = insert t b.1.2 b.2 b.1.1 /\
  lacks CCL_SELECTION_BLOCK_DELIMETER (print_block b) = true /\ print_block b <> "".
Proof.
  destruct b as [[a l] r]. intros (Hr & Hlr & HrM). cbn in *. unfold readable in Hr. rewrite !andb_true_iff, negb_true_iff in Hr.
  destruct Hr as [[[Hn He] Ha] Hb]. apply bool_decide_eq_true in Hn. apply String.eqb_neq in He.
  set (n := algo_to_str a) in *. set (ls := print_size l). set (rs := print_size r).
  assert (Hls : lacks CCL_SELECTION_SIZE_DELIMETER ls = true) by (apply print_size_lacks; [lia|set_solver]).
  assert (Hrs : lacks CCL_SELECTION_SIZE_DELIMETER rs = true) by (apply print_size_lacks; [lia|set_solver]).
  unfold print_block. cbn [fst snd]. fold n ls rs.
  assert (Hne : n ++ String CCL_SELECTION_ALGO_DELIMETER (ls ++ String CCL_SELECTION_SIZE_DELIMETER rs) <> "")
    by (by destruct n).
  split_and!; [|rewrite lacks_app, Hb; cbn [lacks andb]; rewrite lacks_app; cbn [lacks];
    unfold ls, rs; rewrite !print_size_lacks by (lia || set_solver); done|done].
  unfold fill_block. rewrite (proj2 (String.eqb_neq _ _) Hne).
  assert (Hg : forall s d s1 s2, s <> "" -> until d s = (s1, s2) -> getline s d = Some (s1, s2)) by (intros [] ? ? ? ? E; [done|]; unfold getline; by rewrite E).
  rewrite (Hg _ _ _ _ Hne (until_delim _ _ _ Ha)). rewrite Hn. cbn [outcome_bind].
  rewrite length_append. cbn [String.length]. destruct (Nat.eqb_spec (String.length n) (String.length n + S (String.length (ls ++ String CCL_SELECTION_SIZE_DELIMETER rs)))); [lia|].
  assert (S1 : substr (String.length n + 1) (n ++ String CCL_SELECTION_ALGO_DELIMETER (ls ++ String CCL_SELECTION_SIZE_DELIMETER rs)) =
    Returns (ls ++ String CCL_SELECTION_SIZE_DELIMETER rs)).
  { rewrite <- (substr_skip (n ++ String CCL_SELECTION_ALGO_DELIMETER "")), length_append, append_assoc. done. }
  assert (S2 : substr (String.length n + String.length ls + 2) (n ++ String CCL_SELECTION_ALGO_DELIMETER (ls ++ String CCL_SELECTION_SIZE_DELIMETER rs)) =
    Returns rs).
  { rewrite <- (substr_skip (n ++ String CCL_SELECTION_ALGO_DELIMETER (ls ++ String CCL_SELECTION_SIZE_DELIMETER "")) rs).
    rewrite !length_append. cbn [String.length]. rewrite length_append. cbn [String.length]. rewrite append_assoc, append_cons, append_assoc.
    f_equal. lia. }
  rewrite S1. cbn [outcome_bind]. destruct (print_size_nonempty l ltac:(lia)) as (c & s & El), (print_size_nonempty r ltac:(lia)) as (c' & s' & Er).
  rewrite (Hg (ls ++ _) _ ls rs); [|unfold ls; by rewrite El|by apply until_delim]. rewrite S2. cbn [outcome_bind].
  rewrite (Hg rs _ rs ""); [|unfold rs; by rewrite Er|by apply until_end].
  unfold ls, rs. rewrite !parse_print_size by lia. by destruct (Z.leb_spec l r); [|lia].
Qed.

(** The inserts that a configuration stands for. *)
Fixpoint insert_all (cfg : list (algo * Z * Z)) (t : ccl_selection_table_t algo) : outcome (ccl_selection_table_t algo) :=
  match cfg with
  | [] => Returns t
  | (a, lo, hi) :: cfg' => t <-? insert t lo hi a ;; insert_all cfg' t
  end.

Lemma fill_print_config cfg fuel t : Forall block_ok cfg -> (String.length (print_config cfg) < fuel)%nat ->
  fill_blocks fuel (print_config cfg) t = insert_all cfg t.
Proof.
  intros Hok. revert fuel t. induction Hok as [|[[a l] r] cfg Hb Hok IH]; intros [|fuel] t Hf; try (cbn in Hf; lia); [done|].
  destruct (fill_print_block _ t Hb) as (E & Hl & Hne). cbn [fst snd] in E. destruct cfg as [|b2 cfg].
  - cbn [print_config fill_blocks insert_all] in *. destruct (print_block (a, l, r)) as [|c s] eqn:Ep; [done|].
    unfold getline. rewrite until_end by done. rewrite E. destruct (insert t l r a) as [t'| |]; [|done..]. cbn [outcome_bind].
    destruct fuel; [cbn in Hf; lia|done].
  - change (print_config ((a, l, r) :: b2 :: cfg)) with
      (print_block (a, l, r) ++ String CCL_SELECTION_BLOCK_DELIMETER (print_config (b2 :: cfg))) in *.
    rewrite length_append in Hf. cbn [String.length] in Hf. cbn [fill_blocks insert_all].
    replace (getline _ _) with (Some (print_block (a, l, r), print_config (b2 :: cfg)))
      by (unfold getline; rewrite until_delim by done; by destruct (print_block (a, l, r))).
    rewrite E. destruct (insert t l r a) as [t'| |]; [|done..]. cbn [outcome_bind]. apply IH. lia.
Qed.

(** C24: a configuration written as text, algorithm names and decimal sizes or [max], is read back as the same
    sequence of inserts, for every collective whose names hold no delimiter. *)
Theorem config_roundtrip cfg t : Forall block_ok cfg -> fill_table_from_str (print_config cfg) t = insert_all cfg t.
Proof. intros H. apply fill_print_config; [done|lia]. Qed.

End config.

Definition sample_config : list (ccl_coll_allreduce_algo * Z * Z) :=
  [(ccl_coll_allreduce_2d, 100, 2000); (ccl_coll_allreduce_double_tree, 500, MAX)].
Definition sample_env : sel_env := mk_sel_env ccl_atl_ofi true ccl_fp16_f16c false false 1.
Definition sample_param : ccl_selector_param ccl_coll_allreduce_algo :=
  mk_selector_param 3000 4 false 8 8 None false false None.

Lemma config_roundtrip_witness :
  print_config sample_config = "2d:100-2000;double_tree:500-max" /\
  fill_table_from_str (print_config sample_config) (main_table ofi_allreduce) = insert_all sample_config (main_table ofi_allreduce).
Proof.
  split; [vm_compute; reflexivity|]. apply config_roundtrip.
  repeat (apply Forall_cons; split; [vm_compute; intuition congruence|]). apply Forall_nil. exact I.
Defined.

Lemma ofi_allreduce_choice_witness :
  exists sel, allreduce_selector sample_env = Returns sel /\ get sample_env sel sample_param = Returns ccl_coll_allreduce_nreduce.
Proof. exact (ofi_allreduce_choice sample_env sample_param eq_refl eq_refl eq_refl eq_refl eq_refl). Defined.

Lemma allreduce_always_selected_witness :
  exists sel, init ofi_allreduce (print_config sample_config) "" = Returns sel /\
  exists a, get sample_env sel sample_param = Returns a /\ allreduce_can_use sample_env a sample_param = true.
Proof.
  eexists. split; [vm_compute; reflexivity|].
  apply (allreduce_always_selected sample_env ofi_allreduce (print_config sample_config) "" _ sample_param); vm_compute; reflexivity.
Defined.
