(* ===== verification/Coll.v ===== *)
(** The dispatch of [src/src/coll/coll.cpp]: [ccl_coll_build_allreduce],
    [ccl_coll_build_reduce] and [ccl_coll_build_reduce_scatter] ask the selector for an
    algorithm and call its builder.

    The builders of the algorithms that this library does not model are an argument
    ([other]); a host build has no device algorithm, so that [topo] is unexpected.  The
    theorems compose the selection with the algorithms: what the default tables of the
    OFI transport choose computes the collective, whatever the size of the message. *)

From stdpp Require Import strings.
From S2P Require Import Prelude AtlTag Sched Network Race Bsp Build Reduction ReduceScatter Allgatherv Allreduce Reduce Doubling Rabenseifner Nreduce SelectTable Selection.
Open Scope nat_scope.
Open Scope ccl_scope.

(** An exception of the selector ends the build. *)
Definition lift_outcome {A} (o : outcome A) : build A := match o with Returns a => ret a | _ => throw end.

(** The fields of [ccl_selector_param] that the builders fill. *)
Definition coll_param {algo} (dsz : nat) (is_float16 : bool) (comm_size pof2 count : nat) (is_scaleout : bool) (hint_algo : option algo) :
    ccl_selector_param algo :=
  mk_selector_param (Z.of_nat count) (Z.of_nat dsz) is_float16 (Z.of_nat comm_size) (Z.of_nat pof2) None false is_scaleout hint_algo.

Section builders.
Context (senv : sel_env) (env : ccl_env) (dsz : nat) (is_float16 : bool) (comm_size pof2 rank : nat).

Definition ccl_coll_build_allreduce (sel : ccl_algorithm_selector_base ccl_coll_allreduce_algo) (hint : option ccl_coll_allreduce_algo)
    (other : ccl_coll_allreduce_algo -> build unit) (send_buf recv_buf : ccl_buffer) (count : nat) (is_scaleout : bool) : build unit :=
  algo <-- lift_outcome (get senv sel (coll_param dsz is_float16 comm_size pof2 count is_scaleout hint)) ;;
  match algo with
  | ccl_coll_allreduce_rabenseifner => ccl_coll_build_rabenseifner_allreduce dsz comm_size pof2 count rank send_buf recv_buf
  | ccl_coll_allreduce_nreduce => ccl_coll_build_nreduce_allreduce env dsz comm_size rank send_buf recv_buf count
  | ccl_coll_allreduce_ring => ccl_coll_build_ring_allreduce env dsz comm_size rank send_buf recv_buf count
  | ccl_coll_allreduce_recursive_doubling =>
    ccl_coll_build_recursive_doubling_allreduce dsz comm_size pof2 rank send_buf recv_buf count
  | ccl_coll_allreduce_topo => throw
  | _ => other algo
  end.

Definition ccl_coll_build_reduce (sel : ccl_algorithm_selector_base ccl_coll_reduce_algo) (hint : option ccl_coll_reduce_algo)
    (other : ccl_coll_reduce_algo -> build unit) (send_buf recv_buf : ccl_buffer) (count root : nat) (is_scaleout : bool) : build unit :=
  CCL_THROW_IF_NOT (root <? comm_size) ;;;
  algo <-- lift_outcome (get senv sel (coll_param dsz is_float16 comm_size pof2 count is_scaleout hint)) ;;
  match algo with
  | ccl_coll_reduce_ring => ccl_coll_build_ring_reduce env dsz comm_size rank send_buf recv_buf count root
  | ccl_coll_reduce_tree => ccl_coll_build_binomial_reduce dsz comm_size rank send_buf recv_buf count root
  | ccl_coll_reduce_topo => throw
  | _ => other algo
  end.

(** With [from_allreduce] the first two cases fall through to the third. *)
Definition ccl_coll_build_reduce_scatter (sel : ccl_algorithm_selector_base ccl_coll_reduce_scatter_algo)
    (hint : option ccl_coll_reduce_scatter_algo) (other : ccl_coll_reduce_scatter_algo -> build unit)
    (send_buf recv_buf : ccl_buffer) (count : nat) (is_scaleout from_allreduce : bool) : build unit :=
  algo <-- lift_outcome (get senv sel (coll_param dsz is_float16 comm_size pof2 count is_scaleout hint)) ;;
  let ring :=
    if from_allreduce then ccl_coll_build_reduce_scatter_block env dsz comm_size rank send_buf recv_buf count
    else ccl_coll_build_ring_reduce_scatter env dsz comm_size rank send_buf recv_buf count in
  match algo with
  | ccl_coll_reduce_scatter_direct => if negb from_allreduce then other algo else ring
  | ccl_coll_reduce_scatter_naive =>
    if negb from_allreduce then ccl_coll_build_naive_reduce_scatter env dsz comm_size rank send_buf recv_buf count else ring
  | ccl_coll_reduce_scatter_ring => ring
  | ccl_coll_reduce_scatter_topo => throw
  end.
End builders.

(** * What is chosen is correct *)

Lemma implements_ext {V} (op : V -> V -> V) dsz N (b b' : nat -> build unit) nx pre post :
  (forall r s, r < N -> b r s = b' r s) -> implements op dsz N b' nx pre post -> implements op dsz N b nx pre post.
Proof. intros E (scheds & Hb & H). exists scheds. split; [|done]. intros r Hr. rewrite E by done. by apply Hb. Qed.

(** A table with one range. *)
Lemma one_range {algo} (a : algo) size : (0 <= size <= MAX)%Z ->
  table_lookup [(0%Z, (a, border_left)); (MAX, (a, border_right))] size = Some a.
Proof.
  intros H. unfold table_lookup. cbn. destruct (Z.leb_spec size 0), (Z.leb_spec size MAX); (done || lia).
Qed.

Lemma size_range {algo} (param : ccl_selector_param algo) n : (0 <= u64 (n * dtype_size param) <= MAX)%Z.
Proof. pose proof (wrap_range 64 (n * dtype_size param)). unfold CCL_SELECTION_MAX_COLL_SIZE. lia. Qed.

(** The main table of a selector has one range and its algorithm can be used. *)
Lemma get_one_range {algo} `{ccl_algorithm_selector_helper algo} senv (sel : ccl_algorithm_selector_base algo) param a :
  main_table sel = [(0%Z, (a, border_left)); (MAX, (a, border_right))] -> get_count param = Returns (count param) ->
  hint_algo param = None -> is_scaleout param = false -> can_use senv a param = true -> get senv sel param = Returns a.
Proof.
  intros Hm Hc Hh Hso Hu. unfold get. rewrite Hc. cbn [outcome_bind]. rewrite Hh. unfold get_regular. rewrite Hso, Hm, one_range, Hu; [done|].
  apply size_range.
Qed.

Lemma ofi_reduce_selector senv : atl_transport senv = ccl_atl_ofi -> exists sel, reduce_selector senv = Returns sel /\
  main_table sel = [(0%Z, (ccl_coll_reduce_tree, border_left)); (MAX, (ccl_coll_reduce_tree, border_right))].
Proof. destruct senv as [tr fb fp rma un wc]. cbn. intros ->. eexists. split; [by vm_compute|done]. Qed.

Lemma ofi_reduce_scatter_selector senv : atl_transport senv = ccl_atl_ofi -> exists sel, reduce_scatter_selector senv = Returns sel /\
  main_table sel = [(0%Z, (ccl_coll_reduce_scatter_naive, border_left)); (MAX, (ccl_coll_reduce_scatter_naive, border_right))].
Proof. destruct senv as [tr fb fp rma un wc]. cbn. intros ->. eexists. split; [by vm_compute|done]. Qed.

(** * Claims *)

Section theorems.
Context {V : Type} (op : V -> V -> V) (senv : sel_env) (env : ccl_env) (dsz : nat) (is_float16 : bool) (P pof2 : nat).
Context (send recv : nat -> ccl_buffer) (nx : nat -> nat) (x : nat -> nat -> V).
Implicit Types m : gmap (nat * nat) V.

(** A default configuration of the OFI transport, on a host that supports the datatype. *)
Definition ofi_default : Prop :=
  atl_transport senv = ccl_atl_ofi /\ enable_algo_fallback senv = true /\
  (is_float16 = true -> fp16_impl_type senv <> ccl_fp16_no_hardware_support /\ fp16_impl_type senv <> ccl_fp16_no_compiler_support).

Lemma default_datatype {algo} count is_scaleout (hint : option algo) : ofi_default ->
  ccl_can_use_datatype senv false (coll_param dsz is_float16 P pof2 count is_scaleout hint) = true.
Proof.
  intros (_ & _ & H). unfold ccl_can_use_datatype. cbn. destruct is_float16; [|done]. destruct (H eq_refl) as [H1 H2].
  by rewrite !bool_decide_eq_true_2.
Qed.

(** The builder of what the default table chooses. *)
Definition ofi_builder (count r : nat) (sb rb : ccl_buffer) : build unit :=
  match ofi_choice (coll_param dsz is_float16 P pof2 count false None) with
  | ccl_coll_allreduce_recursive_doubling => ccl_coll_build_recursive_doubling_allreduce dsz P pof2 r sb rb count
  | ccl_coll_allreduce_nreduce => ccl_coll_build_nreduce_allreduce env dsz P r sb rb count
  | _ => ccl_coll_build_ring_allreduce env dsz P r sb rb count
  end.

Lemma ofi_allreduce_build count r (other : ccl_coll_allreduce_algo -> build unit) sb rb s : ofi_default ->
  ccl_coll_build_allreduce senv env dsz is_float16 P pof2 r ofi_allreduce None other sb rb count false s = ofi_builder count r sb rb s.
Proof.
  intros Hdef. pose proof (ofi_get senv (coll_param dsz is_float16 P pof2 count false None) (proj1 (proj2 Hdef)) eq_refl eq_refl (default_datatype _ _ _ Hdef)) as Hg.
  unfold ccl_coll_build_allreduce. rewrite Hg. cbn [lift_outcome]. rewrite bind_ret. unfold ofi_builder, ofi_choice. repeat case_match; done.
Qed.

Lemma ofi_builder_reduces count : 0 < dsz -> 0 < P -> (Z.of_nat P < 2 ^ 31)%Z -> AtlTag.pof2 (Z.of_nat P) = Some (Z.of_nat pof2) -> 0 < count ->
  Assoc (=) op -> Comm (=) op -> (forall r, r < P -> bufs_ok send recv nx r) ->
  implements op dsz P (fun r => ofi_builder count r (send r) (recv r)) nx
    (fun r m => arr dsz m (send r) count (x r) /\ exists g, arr dsz m (recv r) count g)
    (fun r m => arr dsz m (recv r) count (fun i => reduce_ranks op P (fun q => x q i))).
Proof.
  intros Hd HP Hlt Hp Hc Ha Hcm Hok. unfold ofi_builder, ofi_choice.
  destruct (_ <=? CCL_ALLREDUCE_SHORT_MSG_SIZE)%Z; [by apply doubling_reduces|]. destruct (_ && _); [by apply nreduce_reduces|by apply ring_allreduce_reduces].
Qed.




(** An allreduce over OFI with the default tables, end to end: the selector finds an algorithm and the
    dispatch builds it, and whichever it is - recursive doubling, nreduce or the ring, by the size of the
    message and the number of ranks - every interleaving of the schedules ends, with the reduction over
    all ranks on every rank. *)
Theorem ofi_allreduce_correct count (other : nat -> ccl_coll_allreduce_algo -> build unit) :
  ofi_default -> 0 < dsz -> 0 < P -> (Z.of_nat P < 2 ^ 31)%Z -> AtlTag.pof2 (Z.of_nat P) = Some (Z.of_nat pof2) -> 0 < count ->
  Assoc (=) op -> Comm (=) op -> (forall r, r < P -> bufs_ok send recv nx r) ->
  exists sel, allreduce_selector senv = Returns sel /\
  implements op dsz P (fun r => ccl_coll_build_allreduce senv env dsz is_float16 P pof2 r sel None (other r) (send r) (recv r) count false) nx
    (fun r m => arr dsz m (send r) count (x r) /\ exists g, arr dsz m (recv r) count g)
    (fun r m => arr dsz m (recv r) count (fun i => reduce_ranks op P (fun q => x q i))).
Proof.
  intros Hdef Hd HP Hlt Hp Hc Ha Hcm Hok. exists ofi_allreduce. split; [apply ofi_allreduce_selector, Hdef|].
  eapply implements_ext; [intros r s _; by apply ofi_allreduce_build|by apply ofi_builder_reduces].
Qed.


(** The same for a reduce: the default is the binomial tree, which needs no commutativity; the root gets
    the reduction of all ranks in their order around the communicator from the root. *)
Theorem ofi_reduce_correct count root (other : nat -> ccl_coll_reduce_algo -> build unit) :
  ofi_default -> 0 < dsz -> root < P -> 0 < count -> Assoc (=) op -> (forall r, r < P -> bin_bufs_ok root send recv nx r) ->
  exists sel, reduce_selector senv = Returns sel /\
  implements op dsz P (fun r => ccl_coll_build_reduce senv env dsz is_float16 P pof2 r sel None (other r) (send r) (recv r) count root false) nx
    (reduce_pre dsz root count send recv x)
    (fun r m => r = root -> arr dsz m (recv r) count (fun i => reduce_ranks op P (fun j => x ((j + root) mod P) i))).
Proof.
  intros Hdef Hd Hroot Hc Ha Hok. destruct (ofi_reduce_selector senv (proj1 Hdef)) as (sel & Es & Em). exists sel. split; [done|].
  assert (Hg : get senv sel (coll_param dsz is_float16 P pof2 count false None) = Returns ccl_coll_reduce_tree).
  { apply get_one_range; try done. by apply default_datatype. }
  eapply implements_ext; [|by apply binomial_reduces].
  intros r s _. unfold ccl_coll_build_reduce. rewrite (proj2 (Nat.ltb_lt _ _) Hroot), Hg. done.
Qed.

(** The same for a reduce-scatter: the default is the naive algorithm. *)
Theorem ofi_reduce_scatter_correct count (other : nat -> ccl_coll_reduce_scatter_algo -> build unit) :
  ofi_default -> 0 < dsz -> 0 < P -> 0 < count -> Assoc (=) op -> Comm (=) op -> (forall r, r < P -> naive_bufs_ok dsz count send recv nx r) ->
  exists sel, reduce_scatter_selector senv = Returns sel /\
  implements op dsz P (fun r => ccl_coll_build_reduce_scatter senv env dsz is_float16 P pof2 r sel None (other r) (send r) (recv r) count false false) nx
    (fun r m => arr dsz m (send r) (count * P) (x r) /\ exists g, arr dsz m (recv r) count g)
    (fun r m => arr dsz m (recv r) count (fun i => reduce_ranks op P (fun q => x q (r * count + i)))).
Proof.
  intros Hdef Hd HP Hc Ha Hcm Hok. destruct (ofi_reduce_scatter_selector senv (proj1 Hdef)) as (sel & Es & Em). exists sel. split; [done|].
  assert (Hg : get senv sel (coll_param dsz is_float16 P pof2 count false None) = Returns ccl_coll_reduce_scatter_naive).
  { by apply get_one_range. }
  eapply implements_ext; [|by apply naive_reduce_scatter_reduces].
  intros r s _. unfold ccl_coll_build_reduce_scatter. rewrite Hg. done.
Qed.
End theorems.

Lemma ofi_allreduce_correct_witness :
  exists sel, allreduce_selector sample_env = Returns sel /\
  implements Nat.add 4 7
    (fun r => ccl_coll_build_allreduce sample_env env_ex 4 false 7 4 r sel None (fun _ => throw) (send_ex r) (recv_ex r) 3000 false) nx_ex
    (fun r m => arr 4 m (send_ex r) 3000 (x_ex r) /\ exists g, arr 4 m (recv_ex r) 3000 g)
    (fun r m => arr 4 m (recv_ex r) 3000 (fun i => reduce_ranks Nat.add 7 (fun q => x_ex q i))).
Proof.
  apply (ofi_allreduce_correct Nat.add sample_env env_ex 4 false 7 4 send_ex recv_ex nx_ex x_ex 3000 (fun _ _ => throw));
    [by split_and!|lia|lia|lia|vm_compute; reflexivity|apply Nat.ltb_lt; vm_compute; reflexivity|exact _|exact _|]. intros r _. apply bufs_ex.
Defined.


(** The selector accepts [2 ^ 33 + 4] elements for Rabenseifner's algorithm, of which the builder then has four ([long_count_truncated]). *)
Lemma long_count_selected count : Z.of_nat count = (2 ^ 33 + 4)%Z ->
  allreduce_can_use sample_env ccl_coll_allreduce_rabenseifner (coll_param 4 false 2 2 count false None) = true.
Proof. intros H. unfold allreduce_can_use. cbn. rewrite H. reflexivity. Qed.

(** With this configuration Rabenseifner's algorithm is used from four elements on, and the fallback below. *)
Example configured_choices :
  exists sel, init ofi_allreduce "rabenseifner"%string ""%string = Returns sel /\
  (fun count => get sample_env sel (coll_param 4 false 7 4 count false None)) <$> [3; 4; 3000] =
  [Returns ccl_coll_allreduce_recursive_doubling; Returns ccl_coll_allreduce_rabenseifner; Returns ccl_coll_allreduce_rabenseifner].
Proof. eexists. split; [vm_compute; reflexivity|vm_compute; reflexivity]. Qed.

(** The algorithms that the default tables choose for messages of 20 bytes, 12000 bytes and 4 MB. *)
Example ofi_choices :
  (fun count => ofi_choice (coll_param 4 false 7 4 count false None)) <$> [5; 3000; 1000000] =
  [ccl_coll_allreduce_recursive_doubling; ccl_coll_allreduce_nreduce; ccl_coll_allreduce_ring].
Proof. vm_compute. reflexivity. Qed.
