(* ===== verification/Dispatch.v ===== *)
(** The dispatch of [src/src/coll/coll.cpp] for the collectives that do not reduce: [ccl_coll_build_allgather], [ccl_coll_build_allgatherv],
    [ccl_coll_build_alltoall], [ccl_coll_build_alltoallv], [ccl_coll_build_barrier], [ccl_coll_build_bcast] and [ccl_coll_build_broadcast], with the selectors
    of allgather, alltoall and broadcast, and the choice of the parallelizer between them for one partition ([parallelizer.cpp]).

    As in [Coll], the builders that this library does not model, or that have sub-schedules, are an argument ([other]), and an algorithm without a case
    ends the build.  The theorems show that what the default tables of the OFI transport choose has a case and computes the collective. *)

From stdpp Require Import strings.
From S2P Require Import Prelude AtlTag Sched Network Race Bsp Build Reduction ReduceScatter Allgatherv Bcast Barrier SelectTable Selection Coll.
Open Scope nat_scope.
Open Scope ccl_scope.

(** * The selectors *)

Definition CCL_ALLGATHER_SHORT_MSG_SIZE : Z := 32768.

Inductive ccl_coll_allgather_algo :=
| ccl_coll_allgather_direct | ccl_coll_allgather_naive | ccl_coll_allgather_ring
| ccl_coll_allgather_flat | ccl_coll_allgather_multi_bcast | ccl_coll_allgather_topo.

#[export] Instance allgather_algo_eq_dec : EqDecision ccl_coll_allgather_algo.
Proof. solve_decision. Defined.

Definition allgather_can_use (env : sel_env) (a : ccl_coll_allgather_algo) (param : ccl_selector_param ccl_coll_allgather_algo) : bool :=
  if bool_decide (a = ccl_coll_allgather_topo) && negb (ccl_can_use_topo_algo param) then false
  else if is_vector_buf param && negb (bool_decide (a = ccl_coll_allgather_flat)) &&
          negb (bool_decide (a = ccl_coll_allgather_multi_bcast)) && negb (bool_decide (a = ccl_coll_allgather_topo)) then false
  else if bool_decide (a = ccl_coll_allgather_multi_bcast) && is_mpi env then false
  else if bool_decide (a = ccl_coll_allgather_direct) && is_scaleout param && (1 <? worker_count env)%Z then false
  else true.

#[export] Instance allgather_helper : ccl_algorithm_selector_helper ccl_coll_allgather_algo := {
  algo_names :=
    [(ccl_coll_allgather_direct, "direct"); (ccl_coll_allgather_naive, "naive"); (ccl_coll_allgather_ring, "ring");
     (ccl_coll_allgather_flat, "flat"); (ccl_coll_allgather_multi_bcast, "multi_bcast")]%string;
  get_count := fun param => Returns (count param);
  can_use := allgather_can_use
}.

Definition allgather_selector (env : sel_env) : outcome (ccl_algorithm_selector_base ccl_coll_allgather_algo) :=
  main <-?
    (if is_ofi env then
       t <-? insert [] 0 CCL_ALLGATHER_SHORT_MSG_SIZE ccl_coll_allgather_naive ;;
       insert t (CCL_ALLGATHER_SHORT_MSG_SIZE + 1) MAX ccl_coll_allgather_ring
     else if is_mpi env then insert [] 0 MAX ccl_coll_allgather_direct
     else Returns []) ;;
  scaleout <-? insert [] 0 MAX ccl_coll_allgather_ring ;;
  fallback <-? insert [] 0 MAX ccl_coll_allgather_flat ;;
  Returns (mk_selector main fallback scaleout).

Inductive ccl_coll_alltoall_algo :=
| ccl_coll_alltoall_direct | ccl_coll_alltoall_naive | ccl_coll_alltoall_scatter | ccl_coll_alltoall_topo.

#[export] Instance alltoall_algo_eq_dec : EqDecision ccl_coll_alltoall_algo.
Proof. solve_decision. Defined.

Definition alltoall_can_use (env : sel_env) (a : ccl_coll_alltoall_algo) (param : ccl_selector_param ccl_coll_alltoall_algo) : bool :=
  if bool_decide (a = ccl_coll_alltoall_topo) && negb (ccl_can_use_topo_algo param) then false
  else if is_vector_buf param && negb (bool_decide (a = ccl_coll_alltoall_scatter)) &&
          negb (bool_decide (a = ccl_coll_alltoall_naive)) && negb (bool_decide (a = ccl_coll_alltoall_topo)) then false
  else if bool_decide (a = ccl_coll_alltoall_direct) && is_ofi env then false
  else if bool_decide (a = ccl_coll_alltoall_direct) && is_scaleout param then false
  else true.

#[export] Instance alltoall_helper : ccl_algorithm_selector_helper ccl_coll_alltoall_algo := {
  algo_names :=
    [(ccl_coll_alltoall_direct, "direct"); (ccl_coll_alltoall_naive, "naive"); (ccl_coll_alltoall_scatter, "scatter")]%string;
  get_count := fun param => Returns (count param);
  can_use := alltoall_can_use
}.

Definition alltoall_selector (env : sel_env) : outcome (ccl_algorithm_selector_base ccl_coll_alltoall_algo) :=
  main <-?
    (t <-? insert [] 0 MAX ccl_coll_alltoall_scatter ;;
     if is_mpi env then insert t 0 CCL_ALLTOALL_MEDIUM_MSG_SIZE ccl_coll_alltoall_direct else Returns t) ;;
  scaleout <-? insert [] 0 MAX ccl_coll_alltoall_scatter ;;
  fallback <-? insert [] 0 MAX ccl_coll_alltoall_scatter ;;
  Returns (mk_selector main fallback scaleout).

Inductive ccl_coll_broadcast_algo :=
| ccl_coll_broadcast_direct | ccl_coll_broadcast_ring | ccl_coll_broadcast_double_tree | ccl_coll_broadcast_naive | ccl_coll_broadcast_topo.

#[export] Instance broadcast_algo_eq_dec : EqDecision ccl_coll_broadcast_algo.
Proof. solve_decision. Defined.

Definition broadcast_can_use (env : sel_env) (a : ccl_coll_broadcast_algo) (param : ccl_selector_param ccl_coll_broadcast_algo) : bool :=
  let can_use := ccl_can_use_datatype env (bool_decide (a = ccl_coll_broadcast_topo)) param in
  if enable_unordered_coll env && bool_decide (a = ccl_coll_broadcast_double_tree) then false
  else if bool_decide (a = ccl_coll_broadcast_direct) && is_ofi env then false
  else if bool_decide (a = ccl_coll_broadcast_topo) && negb (ccl_can_use_topo_algo param) then false
  else can_use.

#[export] Instance broadcast_helper : ccl_algorithm_selector_helper ccl_coll_broadcast_algo := {
  algo_names :=
    [(ccl_coll_broadcast_direct, "direct"); (ccl_coll_broadcast_ring, "ring"); (ccl_coll_broadcast_double_tree, "double_tree");
     (ccl_coll_broadcast_naive, "naive")]%string;
  get_count := fun param => Returns (count param);
  can_use := broadcast_can_use
}.

Definition broadcast_selector (env : sel_env) : outcome (ccl_algorithm_selector_base ccl_coll_broadcast_algo) :=
  main <-?
    (if is_ofi env then
       t <-? insert [] 0 MAX ccl_coll_broadcast_naive ;;
       insert t 0 CCL_BCAST_SHORT_MSG_SIZE ccl_coll_broadcast_double_tree
     else if is_mpi env then insert [] 0 MAX ccl_coll_broadcast_direct
     else Returns []) ;;
  fallback <-? insert [] 0 MAX ccl_coll_broadcast_naive ;;
  Returns (mk_selector main fallback main).

(** * The builders *)

Section builders.
Context (senv : sel_env) (env : ccl_env) (dsz : nat) (is_float16 : bool) (comm_size pof2 rank : nat).

(** The selector reads the counts of an allgatherv, not [count], which is not set. *)
Definition allgatherv_param (recv_counts : nat -> nat) (vector scaleout : bool) (hint : option ccl_coll_allgatherv_algo) :
    ccl_selector_param ccl_coll_allgatherv_algo :=
  mk_selector_param 0 (Z.of_nat dsz) is_float16 (Z.of_nat comm_size) (Z.of_nat pof2)
    (Some ((fun r => Z.of_nat (recv_counts r)) <$> seq 0 comm_size)) vector scaleout hint.

Definition ccl_coll_build_allgather (sel : ccl_algorithm_selector_base ccl_coll_allgather_algo) (hint : option ccl_coll_allgather_algo)
    (other : ccl_coll_allgather_algo -> build unit) (send_buf recv_buf : ccl_buffer) (count : nat) (is_scaleout : bool) : build unit :=
  algo <-- lift_outcome (get senv sel (coll_param dsz is_float16 comm_size pof2 count is_scaleout hint)) ;;
  match algo with
  | ccl_coll_allgather_direct => other algo
  | ccl_coll_allgather_naive => ccl_coll_build_naive_allgather env dsz comm_size rank send_buf recv_buf count
  | _ => throw
  end.

Definition ccl_coll_build_allgatherv (sel : ccl_algorithm_selector_base ccl_coll_allgatherv_algo) (hint : option ccl_coll_allgatherv_algo)
    (other : ccl_coll_allgatherv_algo -> build unit) (send_buf : ccl_buffer) (send_count : nat) (recv_buf : ccl_buffer)
    (recv_counts : nat -> nat) (is_scaleout : bool) : build unit :=
  algo <-- lift_outcome (get senv sel (allgatherv_param recv_counts false is_scaleout hint)) ;;
  match algo with
  | ccl_coll_allgatherv_naive => ccl_coll_build_naive_allgatherv env dsz comm_size rank send_buf send_count recv_buf recv_counts
  | ccl_coll_allgatherv_ring => ccl_coll_build_ring_allgatherv env dsz comm_size rank send_buf send_count recv_buf recv_counts
  | ccl_coll_allgatherv_topo => throw
  | _ => other algo
  end.

Definition ccl_coll_build_alltoall (sel : ccl_algorithm_selector_base ccl_coll_alltoall_algo) (hint : option ccl_coll_alltoall_algo)
    (other : ccl_coll_alltoall_algo -> build unit) (count : nat) (is_scaleout : bool) : build unit :=
  algo <-- lift_outcome (get senv sel (coll_param dsz is_float16 comm_size pof2 count is_scaleout hint)) ;;
  match algo with ccl_coll_alltoall_direct => other algo | _ => throw end.

(** The counts are not given to the selector. *)
Definition ccl_coll_build_alltoallv (sel : ccl_algorithm_selector_base ccl_coll_alltoallv_algo) (hint : option ccl_coll_alltoallv_algo)
    (other : ccl_coll_alltoallv_algo -> build unit) (is_scaleout : bool) : build unit :=
  algo <-- lift_outcome (get senv sel (coll_param dsz is_float16 comm_size pof2 0 is_scaleout hint)) ;;
  match algo with ccl_coll_alltoallv_direct => other algo | _ => throw end.

Definition ccl_coll_build_barrier (sel : ccl_algorithm_selector_base ccl_coll_barrier_algo) (hint : option ccl_coll_barrier_algo)
    (other : ccl_coll_barrier_algo -> build unit) : build unit :=
  algo <-- lift_outcome (get senv sel (coll_param 1 false comm_size pof2 0 false hint)) ;;
  match algo with
  | ccl_coll_barrier_direct => other algo
  | ccl_coll_barrier_ring => ccl_coll_build_dissemination_barrier comm_size rank
  end.

Definition ccl_coll_build_bcast (sel : ccl_algorithm_selector_base ccl_coll_bcast_algo) (hint : option ccl_coll_bcast_algo)
    (other : ccl_coll_bcast_algo -> build unit) (buf : ccl_buffer) (count root : nat) : build unit :=
  algo <-- lift_outcome (get senv sel (coll_param dsz is_float16 comm_size pof2 count false hint)) ;;
  match algo with
  | ccl_coll_bcast_ring => ccl_coll_build_scatter_ring_allgather_bcast comm_size rank buf count dsz root
  | ccl_coll_bcast_naive => ccl_coll_build_naive_bcast comm_size rank buf count root
  | ccl_coll_bcast_topo => throw
  | _ => other algo
  end.

Definition ccl_coll_build_broadcast (sel : ccl_algorithm_selector_base ccl_coll_broadcast_algo) (hint : option ccl_coll_broadcast_algo)
    (other : ccl_coll_broadcast_algo -> build unit) (send_buf recv_buf : ccl_buffer) (count root : nat) : build unit :=
  algo <-- lift_outcome (get senv sel (coll_param dsz is_float16 comm_size pof2 count false hint)) ;;
  match algo with
  | ccl_coll_broadcast_ring => ccl_coll_build_scatter_ring_allgather_broadcast comm_size rank send_buf recv_buf count dsz root
  | ccl_coll_broadcast_naive => ccl_coll_build_naive_broadcast comm_size rank send_buf recv_buf count root
  | ccl_coll_broadcast_topo => throw
  | _ => other algo
  end.

(** [ccl_parallelizer::process_base] for an allgather with one partition: direct and naive are coll entries, which select again; the ring is built with
    the counts of all ranks.  [other] has the flat and multi-bcast algorithms. *)
Definition process_allgather (sel : ccl_algorithm_selector_base ccl_coll_allgather_algo)
    (direct : ccl_coll_allgather_algo -> build unit) (other : ccl_coll_allgather_algo -> build unit)
    (send_buf recv_buf : ccl_buffer) (count : nat) (is_scaleout : bool) : build unit :=
  algo <-- lift_outcome (get senv sel (coll_param dsz is_float16 comm_size pof2 count is_scaleout None)) ;;
  match algo with
  | ccl_coll_allgather_direct | ccl_coll_allgather_naive => ccl_coll_build_allgather sel None direct send_buf recv_buf count is_scaleout
  | ccl_coll_allgather_ring => ccl_coll_build_ring_allgatherv env dsz comm_size rank send_buf count recv_buf (fun _ => count)
  | ccl_coll_allgather_topo => throw
  | _ => other algo
  end.
Definition process_allgatherv (sel : ccl_algorithm_selector_base ccl_coll_allgatherv_algo)
    (direct : ccl_coll_allgatherv_algo -> build unit) (other : ccl_coll_allgatherv_algo -> build unit)
    (send_buf : ccl_buffer) (send_count : nat) (recv_buf : ccl_buffer) (recv_counts : nat -> nat) (vector is_scaleout : bool) : build unit :=
  algo <-- lift_outcome (get senv sel (allgatherv_param recv_counts vector is_scaleout None)) ;;
  match algo with
  | ccl_coll_allgatherv_direct | ccl_coll_allgatherv_naive =>
    ccl_coll_build_allgatherv sel None direct send_buf send_count recv_buf recv_counts is_scaleout
  | ccl_coll_allgatherv_ring => ccl_coll_build_ring_allgatherv env dsz comm_size rank send_buf send_count recv_buf recv_counts
  | ccl_coll_allgatherv_topo => throw
  | _ => other algo
  end.
End builders.

(** * What is chosen is correct *)

(** A table with two ranges. *)
Lemma two_ranges {algo} (a b : algo) (k size : Z) : (0 < k)%Z -> (k + 1 < MAX)%Z -> (0 <= size <= MAX)%Z ->
  table_lookup [(0%Z, (a, border_left)); (k, (a, border_right)); ((k + 1)%Z, (b, border_left)); (MAX, (b, border_right))] size =
  Some (if (size <=? k)%Z then a else b).
Proof.
  intros Hk Hm Hs. unfold table_lookup. cbn [lower_bound].
  destruct (Z.leb_spec size 0), (Z.leb_spec size k), (Z.leb_spec size (k + 1)), (Z.leb_spec size MAX); try lia; cbn -[Z.add];
    repeat match goal with |- context [(?x =? ?y)%Z] => destruct (Z.eqb_spec x y); try lia end; done.
Qed.

Lemma get_two_ranges {algo} `{ccl_algorithm_selector_helper algo} senv (sel : ccl_algorithm_selector_base algo) param (a b : algo) k n :
  main_table sel = [(0%Z, (a, border_left)); (k, (a, border_right)); ((k + 1)%Z, (b, border_left)); (MAX, (b, border_right))] ->
  (0 < k)%Z -> (k + 1 < MAX)%Z -> get_count param = Returns n ->
  hint_algo param = None -> is_scaleout param = false -> can_use senv a param = true -> can_use senv b param = true ->
  get senv sel param = Returns (if (u64 (n * dtype_size param) <=? k)%Z then a else b).
Proof.
  intros Hm Hk Hmax Hc Hh Hso Ha Hb. unfold get. rewrite Hc. cbn [outcome_bind]. rewrite Hh. unfold get_regular. rewrite Hso, Hm, two_ranges; [|done|done|apply size_range].
  destruct (_ <=? k)%Z; [rewrite Ha|rewrite Hb]; done.
Qed.

Lemma ofi_allgather_selector senv : atl_transport senv = ccl_atl_ofi -> exists sel, allgather_selector senv = Returns sel /\
  main_table sel = [(0%Z, (ccl_coll_allgather_naive, border_left)); (32768%Z, (ccl_coll_allgather_naive, border_right));
                    (32769%Z, (ccl_coll_allgather_ring, border_left)); (MAX, (ccl_coll_allgather_ring, border_right))].
Proof. destruct senv as [tr fb fp rma un wc]. cbn. intros ->. eexists. split; [by vm_compute|done]. Qed.

Lemma ofi_allgatherv_selector senv : atl_transport senv = ccl_atl_ofi -> exists sel, allgatherv_selector senv = Returns sel /\
  main_table sel = [(0%Z, (ccl_coll_allgatherv_naive, border_left)); (32768%Z, (ccl_coll_allgatherv_naive, border_right));
                    (32769%Z, (ccl_coll_allgatherv_ring, border_left)); (MAX, (ccl_coll_allgatherv_ring, border_right))].
Proof. destruct senv as [tr fb fp rma un wc]. cbn. intros ->. eexists. split; [by vm_compute|done]. Qed.

Lemma ofi_bcast_selector senv : atl_transport senv = ccl_atl_ofi -> exists sel, bcast_selector senv = Returns sel /\
  main_table sel = [(0%Z, (ccl_coll_bcast_double_tree, border_left)); (8192%Z, (ccl_coll_bcast_double_tree, border_right));
                    (8193%Z, (ccl_coll_bcast_naive, border_left)); (MAX, (ccl_coll_bcast_naive, border_right))] /\
  fallback_table sel = [(0%Z, (ccl_coll_bcast_naive, border_left)); (MAX, (ccl_coll_bcast_naive, border_right))].
Proof. destruct senv as [tr fb fp rma un wc]. cbn. intros ->. eexists. split; [by vm_compute|done]. Qed.

Lemma ofi_barrier_selector senv : atl_transport senv = ccl_atl_ofi -> exists sel, barrier_selector senv = Returns sel /\
  main_table sel = [(0%Z, (ccl_coll_barrier_ring, border_left)); (MAX, (ccl_coll_barrier_ring, border_right))].
Proof. destruct senv as [tr fb fp rma un wc]. cbn. intros ->. eexists. split; [by vm_compute|done]. Qed.

Section theorems.
Context {V : Type} (op : V -> V -> V) (senv : sel_env) (env : ccl_env) (dsz : nat) (is_float16 : bool) (P pof2 : nat).
Context (send recv : nat -> ccl_buffer) (nx : nat -> nat) (y : nat -> nat -> V).

(** C39: an allgather over OFI with the default tables and one partition, whatever its size: the algorithm that the parallelizer selects has a case, and if it
    is left to a coll entry, which selects again, that selection has one too; every interleaving of the schedules ends with the contributions of all
    ranks on every rank, in place or not. *)
Theorem ofi_allgather_correct count (direct other : nat -> ccl_coll_allgather_algo -> build unit) :
  atl_transport senv = ccl_atl_ofi -> 0 < dsz -> 0 < P -> (forall r, r < P -> ag_bufs_ok dsz send recv (fun _ => count) r) ->
  exists sel, allgather_selector senv = Returns sel /\
  implements op dsz P (fun r => process_allgather senv env dsz is_float16 P pof2 r sel (direct r) (other r) (send r) (recv r) count false) nx
    (ag_pre dsz P send recv (fun _ => count) y) (all_gathered dsz P recv (fun _ => count) y).
Proof.
  intros Hofi Hd HP Hok. destruct (ofi_allgather_selector senv Hofi) as (sel & Es & Em). exists sel. split; [done|].
  set (param := coll_param (algo := ccl_coll_allgather_algo) dsz is_float16 P pof2 count false None).
  pose proof (get_two_ranges senv sel param _ _ 32768 (Z.of_nat count) Em ltac:(lia) eq_refl eq_refl eq_refl eq_refl eq_refl eq_refl) as Hg.
  destruct (_ <=? 32768)%Z in Hg.
  - eapply implements_ext; [|by apply (naive_allgather_correct op env)]. intros r s _. unfold process_allgather, ccl_coll_build_allgather. fold param. rewrite Hg. done.
  - eapply implements_ext; [|by apply (ring_allgatherv_gathers op env)]. intros r s _. unfold process_allgather. fold param. rewrite Hg. done.
Qed.

(** The same for an allgatherv, whose sizes the selector takes from the counts. *)
Theorem ofi_allgatherv_correct (cnt : nat -> nat) (direct other : nat -> ccl_coll_allgatherv_algo -> build unit) :
  atl_transport senv = ccl_atl_ofi -> 0 < dsz -> 0 < P -> (forall r, r < P -> ag_bufs_ok dsz send recv cnt r) ->
  exists sel, allgatherv_selector senv = Returns sel /\
  implements op dsz P (fun r => process_allgatherv senv env dsz is_float16 P pof2 r sel (direct r) (other r) (send r) (cnt r) (recv r) cnt false false) nx
    (ag_pre dsz P send recv cnt y) (all_gathered dsz P recv cnt y).
Proof.
  intros Hofi Hd HP Hok. destruct (ofi_allgatherv_selector senv Hofi) as (sel & Es & Em). exists sel. split; [done|].
  set (param := allgatherv_param dsz is_float16 P pof2 cnt false false None).
  epose proof (get_two_ranges senv sel param _ _ 32768 _ Em ltac:(lia) eq_refl eq_refl eq_refl eq_refl eq_refl eq_refl) as Hg.
  destruct (_ <=? 32768)%Z in Hg.
  - eapply implements_ext; [|by apply (naive_allgatherv_correct op env)]. intros r s _. unfold process_allgatherv, ccl_coll_build_allgatherv. fold param. rewrite Hg. done.
  - eapply implements_ext; [|by apply (ring_allgatherv_gathers op env)]. intros r s _. unfold process_allgatherv. fold param. rewrite Hg. done.
Qed.

(** A bcast: the naive algorithm, for messages of more than 8 kB, or of any size when collectives may be unordered and the double tree is not used. *)
Theorem ofi_bcast_correct count root (other : nat -> ccl_coll_bcast_algo -> build unit) (z : nat -> V) :
  ofi_default senv is_float16 -> 0 < dsz -> root < P ->
  ((8192 < u64 (Z.of_nat count * Z.of_nat dsz))%Z \/ enable_unordered_coll senv = true) ->
  exists sel, bcast_selector senv = Returns sel /\
  implements op dsz P (fun r => ccl_coll_build_bcast senv dsz is_float16 P pof2 r sel None (other r) (recv r) count root) nx
    (fun r m => if r =? root then arr dsz m (recv r) count z else exists g, arr dsz m (recv r) count g)
    (fun r m => arr dsz m (recv r) count z).
Proof.
  intros Hdef Hd Hroot Hcase. destruct (ofi_bcast_selector senv (proj1 Hdef)) as (sel & Es & Em & Ef). exists sel. split; [done|].
  set (param := coll_param (algo := ccl_coll_bcast_algo) dsz is_float16 P pof2 count false None).
  assert (Hn : can_use senv ccl_coll_bcast_naive param = true).
  { cbn. unfold bcast_can_use. rewrite !bool_decide_false, andb_false_r by done. by apply default_datatype. }
  assert (Hg : get senv sel param = Returns ccl_coll_bcast_naive).
  { pose proof (size_range param (Z.of_nat count)) as Hsize. unfold get. cbn [get_count bcast_helper outcome_bind hint_algo param coll_param]. unfold get_regular.
    cbn [is_scaleout param coll_param]. rewrite Em. change 8193%Z with (8192 + 1)%Z. rewrite two_ranges; [|lia|reflexivity|exact Hsize].
    destruct (Z.leb_spec (u64 (Selection.count param * dtype_size param)) 8192) as [Hle|Hlt]; [|by rewrite Hn].
    destruct Hcase as [Hbig|Hun]; [cbn in Hle; lia|].
    replace (can_use senv ccl_coll_bcast_double_tree param) with false by (cbn; unfold bcast_can_use; rewrite Hun; done).
    unfold get_fallback. rewrite (proj1 (proj2 Hdef)), Ef, one_range by exact Hsize. by rewrite Hn. }
  eapply implements_ext; [|by apply naive_bcast_correct]. intros r s _. unfold ccl_coll_build_bcast. fold param. rewrite Hg. done.
Qed.
End theorems.

(** A barrier: nobody leaves it before all have entered. *)
Theorem ofi_barrier_correct {V} (op : V -> V -> V) senv (P pof2 : nat) nx (other : nat -> ccl_coll_barrier_algo -> build unit) :
  atl_transport senv = ccl_atl_ofi -> 1 < P ->
  exists sel scheds, barrier_selector senv = Returns sel /\
    (forall r, r < P -> ccl_coll_build_barrier senv P pof2 r sel None (other r) (empty_sched (nx r)) = Ok (tt, scheds r)) /\
    forall ms : nat -> gmap (nat * nat) V,
      collective op 1 P (fun r => entries (scheds r)) ms (fun _ _ => True) /\
      forall (rdv : bool) (g : gstate (V := V)) (q s : nat),
        rtc (gstep op 1 rdv) (init_net P (fun r => entries (scheds r)) ms) g ->
        left_barrier g q -> s < P -> entered_barrier (fun r => entries (scheds r)) g s.
Proof.
  intros Hofi HP. destruct (ofi_barrier_selector senv Hofi) as (sel & Es & Em). destruct (dissemination_barrier_separates op P nx HP) as (scheds & Hb & H).
  exists sel, scheds. split; [done|]. split; [|done]. intros r Hr. unfold ccl_coll_build_barrier.
  rewrite (get_one_range senv sel _ ccl_coll_barrier_ring Em) by done. by apply Hb.
Qed.

Lemma ofi_allgather_correct_witness :
  exists sel, allgather_selector sample_env = Returns sel /\
  implements Nat.add 4 3 (fun r => process_allgather sample_env env_ex 4 false 3 2 r sel (fun _ => throw) (fun _ => throw) (send_ex r) (recv_ex r) 10000 false) nx_ex
    (ag_pre 4 3 send_ex recv_ex (fun _ => 10000) x_ex) (all_gathered 4 3 recv_ex (fun _ => 10000) x_ex).
Proof.
  apply (ofi_allgather_correct Nat.add sample_env env_ex 4 false 3 2 send_ex recv_ex nx_ex x_ex 10000 (fun _ _ => throw) (fun _ _ => throw)); [reflexivity|lia|lia|].
  intros r _. unfold ag_bufs_ok, send_ex, recv_ex. cbn [buf_src]. split; [lia|]. split; [lia|]. right. lia.
Defined.

(** [ccl_parallelizer::process_base] for an alltoallv: the size is that of what the rank sends to rank 0. *)
Definition process_alltoallv_algo (senv : sel_env) (dsz : nat) (is_float16 : bool) (comm_size pof2 : nat)
    (sel : ccl_algorithm_selector_base ccl_coll_alltoallv_algo) (send_counts : nat -> nat) (is_scaleout : bool) : outcome ccl_coll_alltoallv_algo :=
  get senv sel (coll_param dsz is_float16 comm_size pof2 (send_counts 0) is_scaleout None).

(** Over MPI two ranks that send different amounts to rank 0 choose different algorithms for one alltoallv: a rank that sends little calls the transport,
    one that sends more than a megabyte builds sends and receives. *)
Example alltoallv_ranks_disagree :
  let senv := mk_sel_env ccl_atl_mpi true ccl_fp16_avx512f false false 1 in
  exists sel, alltoallv_selector senv = Returns sel /\
  process_alltoallv_algo senv 4 false 2 2 sel (fun _ => 100) false = Returns ccl_coll_alltoallv_direct /\
  process_alltoallv_algo senv 4 false 2 2 sel (fun d => if d =? 0 then 300000 else 100) false = Returns ccl_coll_alltoallv_scatter.
Proof. eexists. split_and!; vm_compute; reflexivity. Qed.
