(* ===== verification/Pt2pt.v ===== *)
(** Point-to-point operations: [ccl_coll_build_direct_send] and [ccl_coll_build_direct_recv] of [src/src/coll/algorithms/send/send.cpp] and
    [recv/recv.cpp], their dispatch in [src/src/coll/coll.cpp] and their selectors in a host build.

    [pt2pt_offload] is the answer of [use_pt2pt_offload_algo], which [can_use] asks each time.  The theorem joins the two sides: what one rank sends is
    what the other one receives. *)

From stdpp Require Import strings.
From S2P Require Import Prelude AtlTag Sched Network Race Bsp Build Reduction SelectTable Selection Coll.
Open Scope nat_scope.
Open Scope ccl_scope.

(** * The selectors *)

Inductive ccl_coll_recv_algo := ccl_coll_recv_direct | ccl_coll_recv_offload | ccl_coll_recv_topo.
Inductive ccl_coll_send_algo := ccl_coll_send_direct | ccl_coll_send_offload | ccl_coll_send_topo.

#[export] Instance recv_algo_eq_dec : EqDecision ccl_coll_recv_algo.
Proof. solve_decision. Defined.
#[export] Instance send_algo_eq_dec : EqDecision ccl_coll_send_algo.
Proof. solve_decision. Defined.

Definition use_pt2pt_offload_algo (is_group_active : bool) (PSM3_GPUDIRECT : option string) (env : sel_env) : bool :=
  if is_group_active then false
  else negb (match PSM3_GPUDIRECT with None => true | Some v => bool_decide (v = "0"%string) end && is_ofi env).

Definition send_can_use (pt2pt_offload : bool) (env : sel_env) (a : ccl_coll_send_algo) (param : ccl_selector_param ccl_coll_send_algo) : bool :=
  let can_use := ccl_can_use_datatype env (bool_decide (a = ccl_coll_send_topo)) param in
  if bool_decide (a = ccl_coll_send_topo) && negb (ccl_can_use_topo_algo param) then false
  else if bool_decide (a = ccl_coll_send_offload) && negb pt2pt_offload then false
  else can_use.

Definition recv_can_use (pt2pt_offload : bool) (env : sel_env) (a : ccl_coll_recv_algo) (param : ccl_selector_param ccl_coll_recv_algo) : bool :=
  let can_use := ccl_can_use_datatype env (bool_decide (a = ccl_coll_recv_topo)) param in
  if bool_decide (a = ccl_coll_recv_topo) && negb (ccl_can_use_topo_algo param) then false
  else if bool_decide (a = ccl_coll_recv_offload) && negb pt2pt_offload then false
  else can_use.

Definition send_helper (pt2pt_offload : bool) : ccl_algorithm_selector_helper ccl_coll_send_algo := {|
  algo_names := [(ccl_coll_send_direct, "direct"); (ccl_coll_send_offload, "offload")]%string;
  get_count := fun param => Returns (count param);
  can_use := send_can_use pt2pt_offload
|}.

Definition recv_helper (pt2pt_offload : bool) : ccl_algorithm_selector_helper ccl_coll_recv_algo := {|
  algo_names := [(ccl_coll_recv_direct, "direct"); (ccl_coll_recv_offload, "offload")]%string;
  get_count := fun param => Returns (count param);
  can_use := recv_can_use pt2pt_offload
|}.

Definition send_selector : outcome (ccl_algorithm_selector_base ccl_coll_send_algo) :=
  main <-? insert [] 0 MAX ccl_coll_send_direct ;;
  fallback <-? insert [] 0 MAX ccl_coll_send_direct ;;
  Returns (mk_selector main fallback main).

Definition recv_selector : outcome (ccl_algorithm_selector_base ccl_coll_recv_algo) :=
  main <-? insert [] 0 MAX ccl_coll_recv_direct ;;
  fallback <-? insert [] 0 MAX ccl_coll_recv_direct ;;
  Returns (mk_selector main fallback main).

(** * The builders *)

Section builders.
Context (senv : sel_env) (pt2pt_offload : bool) (dsz : nat) (is_float16 : bool) (comm_size pof2 : nat).

(** The peer is an [int]; [CCL_INVALID_PEER_RANK_IDX] is -1. *)
Definition peer_ok (peer_rank : Z) : bool := ((-1 <? peer_rank) && (peer_rank <? Z.of_nat comm_size))%Z.
Definition ccl_coll_build_direct_send (buf : ccl_buffer) (count : nat) (peer_rank : Z) : build unit :=
  if peer_ok peer_rank then create_send buf count (Z.to_nat peer_rank) else throw.
Definition ccl_coll_build_direct_recv (buf : ccl_buffer) (count : nat) (peer_rank : Z) : build unit :=
  if peer_ok peer_rank then create_recv buf count (Z.to_nat peer_rank) else throw.

Definition ccl_coll_build_send (sel : ccl_algorithm_selector_base ccl_coll_send_algo) (hint : option ccl_coll_send_algo)
    (buf : ccl_buffer) (count : nat) (peer_rank : Z) : build unit :=
  algo <-- lift_outcome (@get _ _ (send_helper pt2pt_offload) senv sel (coll_param dsz is_float16 comm_size pof2 count false hint)) ;;
  match algo with
  | ccl_coll_send_direct | ccl_coll_send_offload => ccl_coll_build_direct_send buf count peer_rank
  | ccl_coll_send_topo => throw
  end.

Definition ccl_coll_build_recv (sel : ccl_algorithm_selector_base ccl_coll_recv_algo) (hint : option ccl_coll_recv_algo)
    (buf : ccl_buffer) (count : nat) (peer_rank : Z) : build unit :=
  algo <-- lift_outcome (@get _ _ (recv_helper pt2pt_offload) senv sel (coll_param dsz is_float16 comm_size pof2 count false hint)) ;;
  match algo with
  | ccl_coll_recv_direct | ccl_coll_recv_offload => ccl_coll_build_direct_recv buf count peer_rank
  | ccl_coll_recv_topo => throw
  end.
End builders.

(** * What is sent is received *)

(** A message of one rank to another. *)
Section transfer.
Context {V : Type} (op : V -> V -> V) (dsz P a b count : nat) (dsz_pos : 0 < dsz) (Ha : a < P) (Hb : b < P) (Hab : a <> b).
Context (sb rb : ccl_buffer) (y : nat -> V).
Implicit Types (ms : nat -> gmap (nat * nat) V).

Definition transfer_group (r : nat) : list entry := if r =? a then [send_entry sb count b] else if r =? b then [recv_entry rb count a] else [].

Lemma transfer_group_ok r : group_ok dsz (transfer_group r).
Proof using. unfold transfer_group. destruct (r =? a), (r =? b); group_races. Qed.

Lemma transfer_step ms : arr dsz (ms a) sb count y -> (exists g, arr dsz (ms b) rb count g) ->
  steps op dsz P transfer_group ms (fun r m => if r =? b then arr dsz m rb count y else m = ms r).
Proof using dsz_pos Ha Hb Hab.
  intros Hy [g Hg]. set (v := y <$> seq 0 count).
  apply (matched_step op dsz P _ ms _ (fun r => if r =? a then [(b, v)] else []) (fun r => if r =? b then [(recv_entry rb count a, v)] else [])).
  - intros r Hr. unfold transfer_group. destruct (Nat.eqb_spec r a) as [->|Hna].
    + rewrite (proj2 (Nat.eqb_neq a b) Hab). exists (ms a), (ms a). split; [|done]. cbn. by rewrite (arr_read dsz _ _ _ _ Hy).
    + destruct (Nat.eqb_spec r b) as [->|Hnb]; [|by exists (ms r), (ms r)].
      destruct (recv_arr op dsz dsz_pos (ms b) rb g count a y Hg) as (m' & E & A).
      exists (ms b), m'. split; [done|]. split; [done|]. split; [|done]. cbn [complete_group]. fold v in E. by rewrite E.
  - intros r d Hr Hd. destruct (r =? a); [|by apply not_elem_of_nil in Hd]. by apply list_elem_of_singleton in Hd as ->.
  - intros r e s Hr He Hs. destruct (r =? b); [|by apply not_elem_of_nil in He]. apply list_elem_of_singleton in He as ->. by injection Hs as <-.
  - intros s d Hs Hd. unfold msgs_to, msgs_from.
    destruct (Nat.eqb_spec s a) as [->|Hs'], (Nat.eqb_spec d b) as [->|Hd']; rewrite ?filter_cons_True, ?filter_cons_False by (cbn; congruence); done.
Qed.
End transfer.

Section theorems.
Context {V : Type} (op : V -> V -> V) (senv : sel_env) (offload : bool) (dsz : nat) (is_float16 : bool) (P pof2 : nat).
Context (Hfp16 : is_float16 = true -> fp16_impl_type senv <> ccl_fp16_no_hardware_support /\ fp16_impl_type senv <> ccl_fp16_no_compiler_support).

Lemma datatype_ok {algo} count (hint : option algo) : ccl_can_use_datatype senv false (coll_param dsz is_float16 P pof2 count false hint) = true.
Proof using Hfp16.
  unfold ccl_can_use_datatype. cbn. destruct is_float16; [|done]. destruct (Hfp16 eq_refl). by rewrite !bool_decide_eq_true_2.
Qed.

Lemma send_is_direct : exists sel, send_selector = Returns sel /\ forall buf count peer_rank s,
  ccl_coll_build_send senv offload dsz is_float16 P pof2 sel None buf count peer_rank s = ccl_coll_build_direct_send P buf count peer_rank s.
Proof using Hfp16.
  eexists. split; [by vm_compute|]. intros. unfold ccl_coll_build_send.
  rewrite (@get_one_range _ _ (send_helper offload) senv _ _ ccl_coll_send_direct); [done|done|done|done|done|].
  cbn [can_use send_helper]. unfold send_can_use. rewrite !bool_decide_false by done. apply datatype_ok.
Qed.

Lemma recv_is_direct : exists sel, recv_selector = Returns sel /\ forall buf count peer_rank s,
  ccl_coll_build_recv senv offload dsz is_float16 P pof2 sel None buf count peer_rank s = ccl_coll_build_direct_recv P buf count peer_rank s.
Proof using Hfp16.
  eexists. split; [by vm_compute|]. intros. unfold ccl_coll_build_recv.
  rewrite (@get_one_range _ _ (recv_helper offload) senv _ _ ccl_coll_recv_direct); [done|done|done|done|done|].
  cbn [can_use recv_helper]. unfold recv_can_use. rewrite !bool_decide_false by done. apply datatype_ok.
Qed.
End theorems.

(** A send on one rank and the receive on another one, with the default tables of a host build: every interleaving ends with the elements of the
    sender in the buffer of the receiver, and the sender has kept its own. *)
Theorem send_recv_delivers {V} (op : V -> V -> V) senv offload dsz is_float16 P pof2 (a b count : nat) (sb rb : ccl_buffer) nx (y : nat -> V) :
  (is_float16 = true -> fp16_impl_type senv <> ccl_fp16_no_hardware_support /\ fp16_impl_type senv <> ccl_fp16_no_compiler_support) ->
  0 < dsz -> a < P -> b < P -> a <> b ->
  exists ssel rsel, send_selector = Returns ssel /\ recv_selector = Returns rsel /\
  implements op dsz P (fun r =>
      if r =? a then ccl_coll_build_send senv offload dsz is_float16 P pof2 ssel None sb count (Z.of_nat b)
      else if r =? b then ccl_coll_build_recv senv offload dsz is_float16 P pof2 rsel None rb count (Z.of_nat a) else ret tt) nx
    (fun r m => if r =? a then arr dsz m sb count y else r = b -> exists g, arr dsz m rb count g)
    (fun r m => if r =? a then arr dsz m sb count y else r = b -> arr dsz m rb count y).
Proof.
  intros Hfp Hd Ha Hb Hab. destruct (send_is_direct senv offload dsz is_float16 P pof2 Hfp) as (ssel & Es & Hsend).
  destruct (recv_is_direct senv offload dsz is_float16 P pof2 Hfp) as (rsel & Er & Hrecv). exists ssel, rsel. split; [done|]. split; [done|].
  eapply (implements_intro _ _ _ _ _ _ _ [] (transfer_group a b count sb rb) nx (fun _ => [])); [done| | |].
  - intros r Hr. unfold transfer_group. destruct (r =? a); [|destruct (r =? b); [|done]].
    + rewrite Hsend. unfold ccl_coll_build_direct_send, peer_ok. rewrite (proj2 (Z.ltb_lt _ _)), (proj2 (Z.ltb_lt _ _)), Nat2Z.id by lia. apply add_entry_st.
    + rewrite Hrecv. unfold ccl_coll_build_direct_recv, peer_ok. rewrite (proj2 (Z.ltb_lt _ _)), (proj2 (Z.ltb_lt _ _)), Nat2Z.id by lia. apply add_entry_st.
  - intros r Hr. split; [done|]. apply transfer_group_ok.
  - intros ms Hms. apply runs_one. destruct (Hms a Ha) as [Hpa _]. destruct (Hms b Hb) as [Hpb _]. rewrite Nat.eqb_refl in Hpa.
    rewrite (proj2 (Nat.eqb_neq b a)) in Hpb by done. destruct (transfer_step op dsz P a b count Hd Ha Hb Hab sb rb y ms Hpa (Hpb eq_refl)) as (ms' & H1 & H2).
    exists ms'. split; [done|]. intros r Hr. specialize (H2 r Hr). destruct (Nat.eqb_spec r b) as [E|Hne].
    + rewrite (proj2 (Nat.eqb_neq r a)) by congruence. done.
    + destruct (Nat.eqb_spec r a) as [E|]; [by rewrite H2, E|done].
Qed.

(** A peer outside of the communicator is refused by both sides. *)
Lemma invalid_peer_throws P buf count peer_rank s : (peer_rank < 0 \/ Z.of_nat P <= peer_rank)%Z ->
  ccl_coll_build_direct_send P buf count peer_rank s = Throw /\ ccl_coll_build_direct_recv P buf count peer_rank s = Throw.
Proof.
  intros H. unfold ccl_coll_build_direct_send, ccl_coll_build_direct_recv. unfold peer_ok.
  destruct (Z.ltb_spec (-1) peer_rank), (Z.ltb_spec peer_rank (Z.of_nat P)); [lia|done|done|done].
Qed.

Lemma send_recv_delivers_witness :
  exists ssel rsel, send_selector = Returns ssel /\ recv_selector = Returns rsel /\
  implements Nat.add 4 3 (fun r =>
      if r =? 2 then ccl_coll_build_send sample_env false 4 false 3 2 ssel None (send_ex r) 5 0
      else if r =? 0 then ccl_coll_build_recv sample_env false 4 false 3 2 rsel None (recv_ex r) 5 2 else ret tt) nx_ex
    (fun r m => if r =? 2 then arr 4 m (send_ex r) 5 (x_ex 2) else r = 0 -> exists g, arr 4 m (recv_ex r) 5 g)
    (fun r m => if r =? 2 then arr 4 m (send_ex r) 5 (x_ex 2) else r = 0 -> arr 4 m (recv_ex r) 5 (x_ex 2)).
Proof.
  apply (send_recv_delivers Nat.add sample_env false 4 false 3 2 2 0 5 (mk_buffer 1 0) (mk_buffer 2 0) nx_ex (x_ex 2)); [discriminate|lia|lia|lia|lia].
Defined.
