(* ===== verification/Comp.v ===== *)
(** The computation kernels of [src/src/comp]: what [reduce_local] and [recv_reduce] entries do with the elements.

    An element is the number its bits stand for: an integer of its type, or the pattern of a floating-point number.  Additions and
    multiplications of floating-point numbers are arguments (they are the processor's); comparisons and the conversions of bfloat16 are
    defined on the patterns.  Vector instructions work on lists of lanes, as their documentation says; what a program would read or
    write outside of an array, or an overflow of a signed type, is undefined behaviour. *)

From S2P Require Import Prelude AtlTag Sched Network Race Bsp Build Reduction ReduceScatter SelectTable Selection Coll.
From stdpp Require Import list.
Open Scope Z_scope.
Open Scope ccl_scope.

Inductive reduction := sum | prod | min | max | avg | custom.

(** [std::min] and [std::max] with the [<] of a type. *)
Definition std_min (lt : Z -> Z -> bool) (a b : Z) : Z := if lt b a then b else a.
Definition std_max (lt : Z -> Z -> bool) (a b : Z) : Z := if lt a b then b else a.

(** [for (i = 0; i < in_count; i++) inout_buf[i] = f(inout_buf[i], in_buf[i])] *)
Fixpoint reduce_loop (f : Z -> Z -> outcome Z) (in_count : nat) (in_buf inout_buf : list Z) : outcome (list Z) :=
  match in_count with
  | O => Returns inout_buf
  | S n =>
    match in_buf, inout_buf with
    | a :: in_buf', b :: inout_buf' => v <-? f b a ;; l <-? reduce_loop f n in_buf' inout_buf' ;; Returns (v :: l)
    | _, _ => Undefined
    end
  end.

(** * Integers *)

Inductive int_type := int8_t | uint8_t | int16_t | uint16_t | int32_t | uint32_t | int64_t | uint64_t.

#[export] Instance int_type_eq_dec : EqDecision int_type.
Proof. solve_decision. Defined.

Definition width (t : int_type) : Z :=
  match t with int8_t | uint8_t => 8 | int16_t | uint16_t => 16 | int32_t | uint32_t => 32 | int64_t | uint64_t => 64 end.
Definition is_signed (t : int_type) : bool := match t with int8_t | int16_t | int32_t | int64_t => true | _ => false end.

Definition in_range (t : int_type) (x : Z) : Prop := if is_signed t then - 2 ^ (width t - 1) <= x < 2 ^ (width t - 1) else 0 <= x < 2 ^ width t.
#[export] Instance in_range_dec t x : Decision (in_range t x).
Proof. unfold in_range. destruct (is_signed t); apply _. Defined.
(** The conversion to a type. *)
Definition cast (t : int_type) (x : Z) : Z := if is_signed t then (x + 2 ^ (width t - 1)) mod 2 ^ width t - 2 ^ (width t - 1) else x mod 2 ^ width t.

(** The type of [a + b] and [a * b] for two elements: the types narrower than [int] are promoted to it. *)
Definition promoted (t : int_type) : int_type := if width t <? 32 then int32_t else t.

(** [inout op= in]: the operation in the promoted type, the result converted back. *)
Definition arith (t : int_type) (x : Z) : outcome Z :=
  if is_signed (promoted t) && negb (bool_decide (in_range (promoted t) x)) then Undefined else Returns (cast t (cast (promoted t) x)).

Definition int_op (t : int_type) (r : reduction) (inout a : Z) : outcome Z :=
  match r with
  | sum => arith t (inout + a)
  | prod => arith t (inout * a)
  | min => Returns (std_min Z.ltb a inout)
  | max => Returns (std_max Z.ltb a inout)
  | _ => Throws
  end.

(** [CCL_REDUCE(type)] for an integer type; an unexpected reduction is refused whatever the count. *)
Definition CCL_REDUCE (op : reduction -> Z -> Z -> outcome Z) (r : reduction) (in_count : nat) (in_buf inout_buf : list Z) : outcome (list Z) :=
  match r with avg | custom => Throws | _ => reduce_loop (op r) in_count in_buf inout_buf end.

(** * Floating-point patterns *)

(** A format with [e] bits of exponent and [m] of mantissa. *)
Definition fp_mag (e m x : Z) : Z := x mod 2 ^ (e + m).
Definition fp_nan (e m x : Z) : bool := (2 ^ e - 1) * 2 ^ m <? fp_mag e m x.
(** The order of numbers that are not NaN; both zeros are 0. *)
Definition fp_key (e m x : Z) : Z := if Z.testbit x (e + m) then - fp_mag e m x else fp_mag e m x.
Definition flt (e m a b : Z) : bool := negb (fp_nan e m a) && negb (fp_nan e m b) && (fp_key e m a <? fp_key e m b).
Abbreviation flt32 := (flt 8 23).
Abbreviation flt64 := (flt 11 52).
Abbreviation flt16 := (flt 5 10).

(** The lanes of [_mm512_min_ps] and [_mm512_max_ps]: the second operand unless the comparison holds. *)
Definition vec_min (lt : Z -> Z -> bool) (a b : Z) : Z := if lt a b then a else b.
Definition vec_max (lt : Z -> Z -> bool) (a b : Z) : Z := if lt b a then a else b.

Definition CCL_BF16_SHIFT : Z := 16.
(** Bytes 2 and 3 of the number, which is little-endian. *)
Definition ccl_convert_fp32_to_bf16_scalar (val : Z) : Z := Z.shiftr val 16 mod 2 ^ 16.
Definition ccl_convert_bf16_to_fp32_scalar (val : Z) : Z := Z.shiftl val CCL_BF16_SHIFT mod 2 ^ 32.

(** * Vectors *)

Section vectors.
Local Open Scope nat_scope.

(** A load of [n] elements at index [i], and a store of the lanes [vs]. *)
Definition loadu (n : nat) (l : list Z) (i : nat) : outcome (list Z) := if i + n <=? length l then Returns (take n (drop i l)) else Undefined.
Definition storeu (l : list Z) (i : nat) (vs : list Z) : outcome (list Z) := if i + length vs <=? length l then Returns (list_inserts i vs l) else Undefined.

(** The lanes from [j] on of a load or a store with a mask: only the lanes of the mask touch memory. *)
Fixpoint maskz_lanes (mask : Z) (n j : nat) (l : list Z) (i : nat) : outcome (list Z) :=
  match n with
  | O => Returns []
  | S n' =>
    v <-? (if Z.testbit mask (Z.of_nat j) then match l !! (i + j) with Some v => Returns v | None => Undefined end else Returns 0%Z) ;;
    vs <-? maskz_lanes mask n' (S j) l i ;;
    Returns (v :: vs)
  end.
Fixpoint mask_lanes (mask : Z) (j : nat) (l : list Z) (i : nat) (vs : list Z) : outcome (list Z) :=
  match vs with
  | [] => Returns l
  | v :: vs' =>
    if Z.testbit mask (Z.of_nat j) then (if i + j <? length l then mask_lanes mask (S j) (<[i + j := v]> l) i vs' else Undefined)
    else mask_lanes mask (S j) l i vs'
  end.
Definition maskz_loadu (mask : Z) (n : nat) (l : list Z) (i : nat) : outcome (list Z) := maskz_lanes mask n 0 l i.
Definition mask_storeu (mask : Z) (l : list Z) (i : nat) (vs : list Z) : outcome (list Z) := mask_lanes mask 0 l i vs.

(** The kernels are the same for the three sizes of vectors; [inputs] is what they compute of [STEP] lanes of each buffer. *)
Context (STEP : nat) (inputs : list Z -> list Z -> list Z).

Definition reduce_main (in_buf inout_buf : list Z) (i : nat) : outcome (list Z) :=
  a <-? loadu STEP in_buf i ;; b <-? loadu STEP inout_buf i ;; storeu inout_buf i (inputs a b).

(** The rest, with a mask of [STEP] bits; shifting it by a negative number is undefined. *)
Definition reduce_tile (in_buf inout_buf : list Z) (i : nat) (len : Z) : outcome (list Z) :=
  if (len =? 0)%Z then Returns inout_buf else
  if (Z.of_nat STEP - len <? 0)%Z then Undefined else
  let mask := Z.shiftr (2 ^ Z.of_nat STEP - 1) (Z.of_nat STEP - len) in
  a <-? maskz_loadu mask STEP in_buf i ;; b <-? maskz_loadu mask STEP inout_buf i ;; mask_storeu mask inout_buf i (inputs a b).

(** The rest through arrays of [STEP] elements, [junk] before they are written. *)
Definition reduce_tile_copy (junk_a junk_b : list Z) (in_buf inout_buf : list Z) (i : nat) (len : Z) : outcome (list Z) :=
  if (len =? 0)%Z then Returns inout_buf else
  if (Z.of_nat STEP <? len)%Z then Undefined else
  a <-? loadu (Z.to_nat len) in_buf i ;; b <-? loadu (Z.to_nat len) inout_buf i ;;
  let n := Z.to_nat len in
  storeu inout_buf i (take n (inputs (a ++ drop n junk_a) (b ++ drop n junk_b))).

(** [for (i = 0; i <= limit; i += STEP)]: the index and the buffer at the end. *)
Fixpoint main_loop (fuel : nat) (limit : Z) (in_buf inout_buf : list Z) (i : nat) : outcome (nat * list Z) :=
  match fuel with
  | O => Undefined
  | S fuel' =>
    if (Z.of_nat i <=? limit)%Z then l <-? reduce_main in_buf inout_buf i ;; main_loop fuel' limit in_buf l (i + STEP)
    else Returns (i, inout_buf)
  end.

(** [i] is an [int], [len] a [uint8_t]. *)
Definition reduce_impl (tile : list Z -> list Z -> nat -> Z -> outcome (list Z)) (in_buf inout_buf : list Z) (in_cnt : Z) : outcome (list Z) :=
  r <-? main_loop (S (Z.to_nat in_cnt)) (int32 in_cnt - Z.of_nat STEP) in_buf inout_buf 0 ;;
  tile in_buf r.2 r.1 (u8 (in_cnt - Z.of_nat r.1)).
End vectors.

(** ** Vector kernels work element by element *)

Section lanes.
Local Open Scope nat_scope.

(** [f] of the first [n] elements of both, and the rest of the second as it was. *)
Definition elementwise (f : Z -> Z -> Z) (n : nat) (in_buf inout_buf : list Z) : list Z := zip_with f (take n in_buf) (take n inout_buf) ++ drop n inout_buf.

Lemma elementwise_length f n in_buf inout_buf : n <= length in_buf -> n <= length inout_buf -> length (elementwise f n in_buf inout_buf) = length inout_buf.
Proof. intros H1 H2. unfold elementwise. rewrite length_app, length_zip_with, !length_take, length_drop. lia. Qed.

Lemma elementwise_lookup f n in_buf inout_buf i : n <= length in_buf -> n <= length inout_buf ->
  elementwise f n in_buf inout_buf !! i = if decide (i < n) then a ← in_buf !! i; b ← inout_buf !! i; Some (f a b) else inout_buf !! i.
Proof.
  intros H1 H2. unfold elementwise. assert (Hl : length (zip_with f (take n in_buf) (take n inout_buf)) = n) by (rewrite length_zip_with, !length_take; lia).
  case_decide.
  - rewrite lookup_app_l by lia. rewrite lookup_zip_with, !lookup_take_lt by done. done.
  - rewrite lookup_app_r, lookup_drop, Hl by lia. f_equal. lia.
Qed.

(** One more block of elements, at the end of the part that is done. *)
Lemma elementwise_more f n k in_buf inout_buf : n + k <= length in_buf -> n + k <= length inout_buf ->
  list_inserts n (zip_with f (take k (drop n in_buf)) (take k (drop n inout_buf))) (elementwise f n in_buf inout_buf) = elementwise f (n + k) in_buf inout_buf.
Proof.
  intros H1 H2. apply list_eq. intros i. set (vs := zip_with _ _ _). assert (Hl : length vs = k) by (unfold vs; rewrite length_zip_with, !length_take, !length_drop; lia).
  pose proof (elementwise_length f n in_buf inout_buf ltac:(lia) ltac:(lia)) as Hle. rewrite (elementwise_lookup f (n + k)) by lia.
  destruct (decide (i < n)) as [Hi|Hi]; [|destruct (decide (i < n + k)) as [Hi'|Hi']].
  - rewrite list_lookup_inserts_lt, elementwise_lookup by lia. by rewrite !decide_True by lia.
  - rewrite list_lookup_inserts by lia. unfold vs. rewrite lookup_zip_with, !lookup_take_lt, !lookup_drop by lia. by replace (n + (i - n)) with i by lia.
  - rewrite list_lookup_inserts_ge, elementwise_lookup by lia. by rewrite decide_False by lia.
Qed.

(** What a block of the second buffer holds before it is done. *)
Lemma elementwise_rest f n in_buf inout_buf : n <= length in_buf -> n <= length inout_buf -> drop n (elementwise f n in_buf inout_buf) = drop n inout_buf.
Proof.
  intros H1 H2. unfold elementwise. rewrite drop_app_length'; [done|]. rewrite length_zip_with, !length_take. lia.
Qed.

(** The mask of the first [len] lanes. *)
Lemma mask_bit (n : nat) (len : Z) j : (0 <= len <= Z.of_nat n)%Z -> j < n ->
  Z.testbit (Z.shiftr (2 ^ Z.of_nat n - 1) (Z.of_nat n - len)) (Z.of_nat j) = (Z.of_nat j <? len)%Z.
Proof.
  intros Hlen Hj. rewrite Z.shiftr_spec by lia. replace (2 ^ Z.of_nat n - 1)%Z with (Z.ones (Z.of_nat n)) by (rewrite Z.ones_equiv; lia).
  destruct (Z.ltb_spec (Z.of_nat j) len); [apply Z.ones_spec_low|apply Z.ones_spec_high]; lia.
Qed.

Lemma maskz_lanes_spec mask n j l i k : (forall q, q < j + n -> Z.testbit mask (Z.of_nat q) = (q <? k)) -> k <= j + n -> i + k <= length l -> j <= k ->
  maskz_lanes mask n j l i = Returns (take (k - j) (drop (i + j) l) ++ replicate (j + n - k) 0%Z).
Proof.
  revert j. induction n as [|n IH]; intros j Hm Hk Hl Hj; cbn [maskz_lanes].
  - replace (k - j) with 0 by lia. replace (j + 0 - k) with 0 by lia. done.
  - rewrite Hm by lia. destruct (Nat.ltb_spec j k).
    + destruct (lookup_lt_is_Some_2 l (i + j)) as [v Hv]; [lia|]. rewrite Hv. cbn [outcome_bind]. rewrite IH by (lia || (intros; apply Hm; lia)). cbn [outcome_bind].
      rewrite (drop_S l v (i + j)) by done. replace (k - j) with (S (k - S j)) by lia. cbn. replace (i + S j) with (S (i + j)) by lia.
      by replace (j + S n - k) with (S (j + n) - k) by lia.
    + assert (j = k) as -> by lia. cbn [outcome_bind]. clear IH. rewrite Nat.sub_diag. cbn.
      assert (E : forall n j, k <= j -> (forall q, q < j + n -> Z.testbit mask (Z.of_nat q) = (q <? k)) -> maskz_lanes mask n j l i = Returns (replicate n 0%Z)).
      { clear. intros n. induction n as [|n IH]; intros j Hj Hm; [done|]. cbn. rewrite Hm by lia. rewrite (proj2 (Nat.ltb_ge j k)) by lia. cbn.
        rewrite IH; [done|lia|intros; apply Hm; lia]. }
      rewrite E by (lia || (intros; apply Hm; lia)). cbn. by replace (k + S n - k) with (S n) by lia.
Qed.

Lemma mask_lanes_spec mask j l i vs k : (forall q, q < j + length vs -> Z.testbit mask (Z.of_nat q) = (q <? k)) -> k <= j + length vs -> i + k <= length l -> j <= k ->
  mask_lanes mask j l i vs = Returns (list_inserts (i + j) (take (k - j) vs) l).
Proof.
  revert j l. induction vs as [|v vs IH]; intros j l Hm Hk Hl Hj; cbn [mask_lanes length] in *.
  - by rewrite take_nil.
  - rewrite Hm by lia. destruct (Nat.ltb_spec j k).
    + rewrite (proj2 (Nat.ltb_lt (i + j) (length l))) by lia. rewrite IH by (rewrite ?length_insert; lia || (intros; apply Hm; lia)).
      replace (k - j) with (S (k - S j)) by lia. cbn. replace (i + S j) with (S (i + j)) by lia. by rewrite list_insert_inserts_lt by lia.
    + assert (j = k) as -> by lia. rewrite Nat.sub_diag. cbn. clear IH Hj Hk.
      assert (E : forall vs j, k <= j -> (forall q, q < j + length vs -> Z.testbit mask (Z.of_nat q) = (q <? k)) -> mask_lanes mask j l i vs = Returns l).
      { clear. intros vs. induction vs as [|v vs IH]; intros j Hj Hm; [done|]. cbn [mask_lanes length] in *. rewrite Hm by lia. rewrite (proj2 (Nat.ltb_ge j k)) by lia.
        apply IH; [lia|intros; apply Hm; lia]. }
      apply E; [lia|intros; apply Hm; lia].
Qed.

(** The kernels, when [inputs] works lane by lane. *)
Context (STEP : nat) (inputs : list Z -> list Z -> list Z) (f : Z -> Z -> Z) (step_pos : 0 < STEP).
Context (Hinputs : forall a b, length a = STEP -> length b = STEP -> inputs a b = zip_with f a b).
Context (in_buf inout_buf : list Z) (cnt : nat) (Hin : cnt <= length in_buf) (Hout : cnt <= length inout_buf).
Abbreviation done_to i := (elementwise f i in_buf inout_buf).

Lemma loadu_spec n l i : i + n <= length l -> loadu n l i = Returns (take n (drop i l)).
Proof. intros H. unfold loadu. by rewrite (proj2 (Nat.leb_le _ _) H). Qed.
Lemma storeu_spec l i vs : i + length vs <= length l -> storeu l i vs = Returns (list_inserts i vs l).
Proof. intros H. unfold storeu. by rewrite (proj2 (Nat.leb_le _ _) H). Qed.

Lemma main_step i : i + STEP <= cnt -> reduce_main STEP inputs in_buf (done_to i) i = Returns (done_to (i + STEP)).
Proof using Hinputs Hin Hout step_pos.
  intros Hi. pose proof (elementwise_length f i in_buf inout_buf ltac:(lia) ltac:(lia)) as Hl. unfold reduce_main. rewrite !loadu_spec by lia. cbn [outcome_bind].
  rewrite elementwise_rest by lia. rewrite Hinputs by (rewrite length_take, length_drop; lia). rewrite storeu_spec by (rewrite length_zip_with, !length_take, !length_drop; lia).
  by rewrite elementwise_more by lia.
Qed.

Lemma main_loop_spec fuel i : i <= cnt -> cnt < i + fuel ->
  exists i', main_loop STEP inputs fuel (Z.of_nat cnt - Z.of_nat STEP) in_buf (done_to i) i = Returns (i', done_to i') /\ i' <= cnt < i' + STEP.
Proof using Hinputs Hin Hout step_pos.
  revert i. induction fuel as [|fuel IH]; intros i Hi Hf; [lia|]. cbn [main_loop]. destruct (Z.leb_spec (Z.of_nat i) (Z.of_nat cnt - Z.of_nat STEP)).
  - rewrite main_step by lia. cbn [outcome_bind]. apply IH; lia.
  - exists i. split; [done|lia].
Qed.

Lemma tile_spec i : i <= cnt < i + STEP -> reduce_tile STEP inputs in_buf (done_to i) i (Z.of_nat (cnt - i)) = Returns (done_to cnt).
Proof using Hinputs Hin Hout step_pos.
  intros Hi. pose proof (elementwise_length f i in_buf inout_buf ltac:(lia) ltac:(lia)) as Hl. unfold reduce_tile.
  destruct (Z.eqb_spec (Z.of_nat (cnt - i)) 0) as [E|E]; [by replace cnt with i by lia|].
  destruct (Z.ltb_spec (Z.of_nat STEP - Z.of_nat (cnt - i)) 0); [lia|]. cbv zeta. set (mask := Z.shiftr _ _).
  assert (Hm : forall q, q < STEP -> Z.testbit mask (Z.of_nat q) = (q <? cnt - i)).
  { intros q Hq. unfold mask. rewrite mask_bit by lia. apply Bool.eq_iff_eq_true. rewrite Z.ltb_lt, Nat.ltb_lt. lia. }
  unfold maskz_loadu, mask_storeu. rewrite !(maskz_lanes_spec _ _ _ _ _ (cnt - i)) by (done || lia). cbn [outcome_bind].
  rewrite !Nat.add_0_r, !Nat.sub_0_r, !Nat.add_0_l, elementwise_rest by lia.
  rewrite Hinputs by (rewrite length_app, length_take, length_drop, length_replicate; lia).
  rewrite zip_with_app by (rewrite !length_take, !length_drop; lia). set (vs := zip_with f (take _ _) _).
  assert (Hv : length vs = cnt - i) by (unfold vs; rewrite length_zip_with, !length_take, !length_drop; lia).
  assert (Hr : length (vs ++ zip_with f (replicate (STEP - (cnt - i)) 0%Z) (replicate (STEP - (cnt - i)) 0%Z)) = STEP)
    by (rewrite length_app, length_zip_with, !length_replicate; lia).
  rewrite (mask_lanes_spec _ _ _ _ _ (cnt - i)) by (rewrite ?Hr; done || lia). rewrite Nat.sub_0_r, Nat.add_0_r, take_app_length' by done.
  unfold vs. rewrite elementwise_more by lia. do 2 f_equal. lia.
Qed.

Lemma tile_copy_spec junk_a junk_b i : length junk_a = STEP -> length junk_b = STEP -> i <= cnt < i + STEP ->
  reduce_tile_copy STEP inputs junk_a junk_b in_buf (done_to i) i (Z.of_nat (cnt - i)) = Returns (done_to cnt).
Proof using Hinputs Hin Hout step_pos.
  intros Ha Hb Hi. pose proof (elementwise_length f i in_buf inout_buf ltac:(lia) ltac:(lia)) as Hl. unfold reduce_tile_copy.
  destruct (Z.eqb_spec (Z.of_nat (cnt - i)) 0) as [E|E]; [by replace cnt with i by lia|]. destruct (Z.ltb_spec (Z.of_nat STEP) (Z.of_nat (cnt - i))); [lia|].
  rewrite Nat2Z.id, !loadu_spec by lia. cbn [outcome_bind]. cbv zeta. rewrite elementwise_rest by lia.
  rewrite Hinputs by (rewrite length_app, length_take, !length_drop; lia). rewrite zip_with_app by (rewrite !length_take, !length_drop; lia).
  set (vs := zip_with f (take _ _) _). assert (Hv : length vs = cnt - i) by (unfold vs; rewrite length_zip_with, !length_take, !length_drop; lia).
  rewrite take_app_length' by done. rewrite storeu_spec by lia. unfold vs. rewrite elementwise_more by lia. do 2 f_equal. lia.
Qed.

(** A whole kernel: an [int] index and a rest of eight bits are enough for less than [2 ^ 31] elements. *)
Lemma reduce_impl_spec tile : STEP <= 255 -> (Z.of_nat cnt < 2 ^ 31)%Z ->
  (forall i, i <= cnt < i + STEP -> tile in_buf (done_to i) i (Z.of_nat (cnt - i)) = Returns (done_to cnt)) ->
  reduce_impl STEP inputs tile in_buf inout_buf (Z.of_nat cnt) = Returns (done_to cnt).
Proof using Hinputs Hin Hout step_pos.
  intros Hs Hc Ht. unfold reduce_impl. rewrite Nat2Z.id, int32_small by lia.
  destruct (main_loop_spec (S cnt) 0 ltac:(lia) ltac:(lia)) as (i & E & Hi). change (done_to 0) with inout_buf in E. rewrite E. cbn [outcome_bind fst snd].
  rewrite wrap_small by lia. replace (Z.of_nat cnt - Z.of_nat i)%Z with (Z.of_nat (cnt - i)) by lia. by apply Ht.
Qed.
End lanes.

(** * The kernels *)

(** 32-bit lanes as 128-bit lanes, and back. *)
Definition pack4 (a b c d : Z) : Z := u32 a + u32 b * 2 ^ 32 + u32 c * 2 ^ 64 + u32 d * 2 ^ 96.
Definition unpack4 (x : Z) : list Z := [u32 x; u32 (x / 2 ^ 32); u32 (x / 2 ^ 64); u32 (x / 2 ^ 96)].
Fixpoint lanes128 (g : Z -> Z) (l : list Z) : list Z :=
  match l with a :: b :: c :: d :: l' => unpack4 (g (pack4 a b c d)) ++ lanes128 g l' | _ => [] end.
(** Shifts of the 128-bit lanes by bytes. *)
Definition bslli_epi128 (y : list Z) (n : Z) : list Z := lanes128 (fun x => Z.shiftl x (8 * n) mod 2 ^ 128) y.
Definition bsrli_epi128 (y : list Z) (n : Z) : list Z := lanes128 (fun x => Z.shiftr x (8 * n)) y.
Definition cvtepu16_epi32 (y : list Z) : list Z := (fun x => u16 x) <$> y.
Definition cvtepi32_epi16 (y : list Z) : list Z := (fun x => u16 x) <$> y.

Definition ccl_bf16_load_as_fp32 (src : list Z) : list Z := bslli_epi128 (cvtepu16_epi32 src) 2.
Definition ccl_fp32_store_as_bf16_avx512f (src : list Z) : list Z := cvtepi32_epi16 (bsrli_epi128 src 2).

Inductive ccl_bf16_impl_type := ccl_bf16_scalar | ccl_bf16_avx512f | ccl_bf16_avx512bf.

#[export] Instance bf16_impl_eq_dec : EqDecision ccl_bf16_impl_type.
Proof. solve_decision. Defined.

(** The arithmetic of the processor: additions and multiplications of half, single and double precision, the conversions between half and single
    precision, and the conversion to bfloat16 that rounds. *)
Record fp_unit := mk_fp_unit {
  add_ph : Z -> Z -> Z; mul_ph : Z -> Z -> Z; add_ps : Z -> Z -> Z; mul_ps : Z -> Z -> Z; add_pd : Z -> Z -> Z; mul_pd : Z -> Z -> Z;
  cvtph_ps : Z -> Z; cvtps_ph : Z -> Z; cvtneps_pbh : Z -> Z }.

Section kernels.
Context (fpu : fp_unit).

(** ** bfloat16 *)

Definition bf16_sum_scalar (a b : Z) : Z := add_ps fpu a b.
Definition bf16_prod_scalar (a b : Z) : Z := mul_ps fpu a b.
Definition bf16_min_scalar (a b : Z) : Z := std_min flt32 a b.
Definition bf16_max_scalar (a b : Z) : Z := std_max flt32 a b.

Definition bf16_scalar_func (op : reduction) : outcome (Z -> Z -> Z) :=
  match op with sum => Returns bf16_sum_scalar | prod => Returns bf16_prod_scalar | min => Returns bf16_min_scalar | max => Returns bf16_max_scalar | _ => Throws end.

Definition ccl_bf16_reduce_scalar_impl (op : reduction) (in_buf inout_buf : list Z) (in_count : nat) : outcome (list Z) :=
  func <-? bf16_scalar_func op ;;
  reduce_loop (fun b a => Returns (ccl_convert_fp32_to_bf16_scalar (func (ccl_convert_bf16_to_fp32_scalar a) (ccl_convert_bf16_to_fp32_scalar b))))
    in_count in_buf inout_buf.

Definition bf16_sum_wrap (a b : list Z) : list Z := zip_with (add_ps fpu) a b.
Definition bf16_prod_wrap (a b : list Z) : list Z := zip_with (mul_ps fpu) a b.
Definition bf16_min_wrap (a b : list Z) : list Z := zip_with (vec_min flt32) a b.
Definition bf16_max_wrap (a b : list Z) : list Z := zip_with (vec_max flt32) a b.

Definition CCL_BF16_IN_M256 : nat := 16.

Definition ccl_fp32_store_as_bf16_avx512bf (src : list Z) : list Z := cvtneps_pbh fpu <$> src.
Definition ccl_bf16_reduce_inputs (store : list Z -> list Z) (op : list Z -> list Z -> list Z) (a b : list Z) : list Z :=
  store (op (ccl_bf16_load_as_fp32 a) (ccl_bf16_load_as_fp32 b)).

(** [ccl_bf16_reduce_impl_##impl_type] *)
Definition bf16_reduce_impl_type (store : list Z -> list Z) (op : list Z -> list Z -> list Z) : list Z -> list Z -> Z -> outcome (list Z) :=
  reduce_impl CCL_BF16_IN_M256 (ccl_bf16_reduce_inputs store op) (reduce_tile CCL_BF16_IN_M256 (ccl_bf16_reduce_inputs store op)).

Definition ccl_bf16_reduce_impl (impl_type : ccl_bf16_impl_type) (op : reduction) (in_buf inout_buf : list Z) (in_cnt : Z) : outcome (list Z) :=
  func <-? match op with sum => Returns bf16_sum_wrap | prod => Returns bf16_prod_wrap | min => Returns bf16_min_wrap | max => Returns bf16_max_wrap | _ => Throws end ;;
  match impl_type with
  | ccl_bf16_avx512f => bf16_reduce_impl_type ccl_fp32_store_as_bf16_avx512f func in_buf inout_buf in_cnt
  | ccl_bf16_avx512bf => bf16_reduce_impl_type ccl_fp32_store_as_bf16_avx512bf func in_buf inout_buf in_cnt
  | ccl_bf16_scalar => Throws
  end.

Definition ccl_bf16_reduce (impl_type : ccl_bf16_impl_type) (op : reduction) (in_buf inout_buf : list Z) (in_count : nat) : outcome (list Z) :=
  match impl_type with
  | ccl_bf16_scalar => ccl_bf16_reduce_scalar_impl op in_buf inout_buf in_count
  | _ => ccl_bf16_reduce_impl impl_type op in_buf inout_buf (Z.of_nat in_count)
  end.

(** ** Half precision *)

Definition CCL_FP16_STEP_512FP16 : nat := 32.
Definition CCL_FP16_STEP_512 : nat := 16.
Definition CCL_FP16_STEP_256 : nat := 8.

(** [fp16_*_wrap_256] and [fp16_*_wrap_512], on single precision. *)
Definition fp16_wrap (op : reduction) : outcome (list Z -> list Z -> list Z) :=
  match op with
  | sum => Returns (zip_with (add_ps fpu)) | prod => Returns (zip_with (mul_ps fpu))
  | min => Returns (zip_with (vec_min flt32)) | max => Returns (zip_with (vec_max flt32)) | _ => Throws
  end.
(** [fp16_*_wrap_512FP16], on half precision. *)
Definition fp16_wrap_512FP16 (op : reduction) : outcome (list Z -> list Z -> list Z) :=
  match op with
  | sum => Returns (zip_with (add_ph fpu)) | prod => Returns (zip_with (mul_ph fpu))
  | min => Returns (zip_with (vec_min flt16)) | max => Returns (zip_with (vec_max flt16)) | _ => Throws
  end.

(** [ccl_fp16_reduce_inputs_256] and [ccl_fp16_reduce_inputs_512] *)
Definition ccl_fp16_reduce_inputs (op : list Z -> list Z -> list Z) (a b : list Z) : list Z := cvtps_ph fpu <$> op (cvtph_ps fpu <$> a) (cvtph_ps fpu <$> b).
Definition ccl_fp16_reduce_inputs_512FP16 (op : list Z -> list Z -> list Z) (a b : list Z) : list Z := op a b.

(** [junk_a] and [junk_b]: the arrays of the rest before they are written.  A host without support is not refused here. *)
Definition ccl_fp16_reduce_impl (impl_type : ccl_fp16_impl_type) (junk_a junk_b : list Z) (op : reduction) (in_buf inout_buf : list Z) (in_cnt : Z) : outcome (list Z) :=
  match impl_type with
  | ccl_fp16_f16c =>
    func <-? fp16_wrap op ;;
    reduce_impl CCL_FP16_STEP_256 (ccl_fp16_reduce_inputs func) (reduce_tile_copy CCL_FP16_STEP_256 (ccl_fp16_reduce_inputs func) junk_a junk_b) in_buf inout_buf in_cnt
  | ccl_fp16_avx512f =>
    func <-? fp16_wrap op ;;
    reduce_impl CCL_FP16_STEP_512 (ccl_fp16_reduce_inputs func) (reduce_tile CCL_FP16_STEP_512 (ccl_fp16_reduce_inputs func)) in_buf inout_buf in_cnt
  | ccl_fp16_avx512fp16 =>
    func <-? fp16_wrap_512FP16 op ;;
    reduce_impl CCL_FP16_STEP_512FP16 (ccl_fp16_reduce_inputs_512FP16 func) (reduce_tile CCL_FP16_STEP_512FP16 (ccl_fp16_reduce_inputs_512FP16 func)) in_buf inout_buf in_cnt
  | _ => Returns inout_buf
  end.

(** Without compiler support the function is another one, which refuses. *)
Definition ccl_fp16_reduce (impl_type : ccl_fp16_impl_type) (junk_a junk_b : list Z) (op : reduction) (in_buf inout_buf : list Z) (in_cnt : nat) : outcome (list Z) :=
  match impl_type with
  | ccl_fp16_no_compiler_support => Throws
  | _ => ccl_fp16_reduce_impl impl_type junk_a junk_b op in_buf inout_buf (Z.of_nat in_cnt)
  end.

(** ** The dispatch *)

Definition float_op (add mul : Z -> Z -> Z) (lt : Z -> Z -> bool) (r : reduction) (inout a : Z) : outcome Z :=
  match r with
  | sum => Returns (add inout a)
  | prod => Returns (mul inout a)
  | min => Returns (std_min lt a inout)
  | max => Returns (std_max lt a inout)
  | _ => Throws
  end.

(** [ccl::datatype] *)
Inductive datatype := dt_int (t : int_type) | float16 | float32 | float64 | bfloat16 | custom_datatype.

Record comp_env := mk_comp_env { comp_bf16 : ccl_bf16_impl_type; comp_fp16 : ccl_fp16_impl_type; junk1 : list Z; junk2 : list Z }.

(** [fn]: the user's reduction, if there is one. *)
Definition ccl_comp_reduce_regular (env : comp_env) (dtype : datatype) (r : reduction) (fn : option (list Z -> nat -> list Z -> outcome (list Z)))
    (in_buf : list Z) (in_count : nat) (inout_buf : list Z) : outcome (list Z) :=
  match r with
  | custom => match fn with Some f => f in_buf in_count inout_buf | None => Throws end
  | _ =>
    match dtype with
    | dt_int t => CCL_REDUCE (int_op t) r in_count in_buf inout_buf
    | float16 => ccl_fp16_reduce (comp_fp16 env) (junk1 env) (junk2 env) r in_buf inout_buf in_count
    | float32 => CCL_REDUCE (float_op (add_ps fpu) (mul_ps fpu) flt32) r in_count in_buf inout_buf
    | float64 => CCL_REDUCE (float_op (add_pd fpu) (mul_pd fpu) flt64) r in_count in_buf inout_buf
    | bfloat16 => ccl_bf16_reduce (comp_bf16 env) r in_buf inout_buf in_count
    | custom_datatype => Throws
    end
  end.

(** A host build has no SYCL queue. *)
Definition ccl_comp_reduce (env : comp_env) (dtype : datatype) (r : reduction) fn (in_buf : list Z) (in_count : nat) (inout_buf : list Z) : outcome (list Z) :=
  if (in_count =? 0)%nat then Returns inout_buf else ccl_comp_reduce_regular env dtype r fn in_buf in_count inout_buf.
End kernels.

(** ** Lanes *)

Lemma unpack4_digits a b c d : 0 <= a < 2 ^ 32 -> 0 <= b < 2 ^ 32 -> 0 <= c < 2 ^ 32 -> 0 <= d < 2 ^ 32 ->
  unpack4 (a + b * 2 ^ 32 + c * 2 ^ 64 + d * 2 ^ 96) = [a; b; c; d].
Proof.
  intros Ha Hb Hc Hd. unfold unpack4, wrap.
  rewrite <- (Z.div_unique_pos (a + b * 2 ^ 32 + c * 2 ^ 64 + d * 2 ^ 96) (2 ^ 32) (b + c * 2 ^ 32 + d * 2 ^ 64) a) by lia.
  rewrite <- (Z.div_unique_pos (a + b * 2 ^ 32 + c * 2 ^ 64 + d * 2 ^ 96) (2 ^ 64) (c + d * 2 ^ 32) (a + b * 2 ^ 32)) by lia.
  rewrite <- (Z.div_unique_pos (a + b * 2 ^ 32 + c * 2 ^ 64 + d * 2 ^ 96) (2 ^ 96) d (a + b * 2 ^ 32 + c * 2 ^ 64)) by lia.
  rewrite <- (Z.mod_unique_pos (a + b * 2 ^ 32 + c * 2 ^ 64 + d * 2 ^ 96) (2 ^ 32) (b + c * 2 ^ 32 + d * 2 ^ 64) a) by lia.
  rewrite <- (Z.mod_unique_pos (b + c * 2 ^ 32 + d * 2 ^ 64) (2 ^ 32) (c + d * 2 ^ 32) b) by lia.
  rewrite <- (Z.mod_unique_pos (c + d * 2 ^ 32) (2 ^ 32) d c) by lia. by rewrite Z.mod_small.
Qed.

Lemma to_fp32_mul x : ccl_convert_bf16_to_fp32_scalar x = u16 x * 2 ^ 16.
Proof.
  unfold ccl_convert_bf16_to_fp32_scalar, CCL_BF16_SHIFT, wrap. rewrite Z.shiftl_mul_pow2 by lia. change (2 ^ 32) with (2 ^ 16 * 2 ^ 16). by rewrite Z.mul_mod_distr_r.
Qed.
Lemma to_bf16_div x : ccl_convert_fp32_to_bf16_scalar x = u32 x / 2 ^ 16.
Proof.
  unfold ccl_convert_fp32_to_bf16_scalar, wrap. rewrite Z.shiftr_div_pow2 by lia. change (2 ^ 32) with (2 ^ 16 * 2 ^ 16).
  rewrite Z.rem_mul_r by lia. rewrite Z.mul_comm, Z.div_add by lia. rewrite (Z.div_small (x mod 2 ^ 16)) by (apply Z.mod_pos_bound; lia). lia.
Qed.

(** A number of 16 bits is a bfloat16 in the upper half of a single. *)
Lemma bf16_roundtrip x : 0 <= x < 2 ^ 16 -> ccl_convert_fp32_to_bf16_scalar (ccl_convert_bf16_to_fp32_scalar x) = x.
Proof.
  intros Hx. rewrite to_bf16_div, to_fp32_mul, (wrap_small 16 x), wrap_small by lia. by rewrite Z.div_mul.
Qed.

Lemma load_lane4 a b c d : unpack4 (Z.shiftl (pack4 (u16 a) (u16 b) (u16 c) (u16 d)) (8 * 2) mod 2 ^ 128) =
  [ccl_convert_bf16_to_fp32_scalar a; ccl_convert_bf16_to_fp32_scalar b; ccl_convert_bf16_to_fp32_scalar c; ccl_convert_bf16_to_fp32_scalar d].
Proof.
  rewrite !to_fp32_mul. pose proof (wrap_range 16 a). pose proof (wrap_range 16 b). pose proof (wrap_range 16 c). pose proof (wrap_range 16 d).
  unfold pack4. rewrite !(wrap_small 32) by lia. rewrite Z.shiftl_mul_pow2 by lia. rewrite Z.mod_small by lia.
  rewrite <- unpack4_digits by lia. f_equal. lia.
Qed.

Lemma store_lane4 a b c d : cvtepi32_epi16 (unpack4 (Z.shiftr (pack4 a b c d) (8 * 2))) =
  [ccl_convert_fp32_to_bf16_scalar a; ccl_convert_fp32_to_bf16_scalar b; ccl_convert_fp32_to_bf16_scalar c; ccl_convert_fp32_to_bf16_scalar d].
Proof.
  rewrite !to_bf16_div. unfold pack4.
  assert (Hx : forall x, exists h l, u32 x = h * 2 ^ 16 + l /\ u32 x / 2 ^ 16 = h /\ 0 <= h < 2 ^ 16 /\ 0 <= l < 2 ^ 16).
  { intros x. pose proof (wrap_range 32 x ltac:(lia)). exists (u32 x / 2 ^ 16), (u32 x mod 2 ^ 16). pose proof (Z.div_mod (u32 x) (2 ^ 16) ltac:(lia)).
    pose proof (Z.mod_pos_bound (u32 x) (2 ^ 16) ltac:(lia)). split_and!; lia. }
  destruct (Hx a) as (ah & al & -> & -> & ? & ?), (Hx b) as (bh & bl & -> & -> & ? & ?), (Hx c) as (ch & cl & -> & -> & ? & ?), (Hx d) as (dh & dl & -> & -> & ? & ?).
  rewrite Z.shiftr_div_pow2 by lia. rewrite <- (Z.div_unique_pos _ (2 ^ (8 * 2)) ((ah + bl * 2 ^ 16) + (bh + cl * 2 ^ 16) * 2 ^ 32 + (ch + dl * 2 ^ 16) * 2 ^ 64 + dh * 2 ^ 96) al) by lia.
  rewrite unpack4_digits by lia. unfold cvtepi32_epi16. cbn [fmap list_fmap]. unfold wrap. rewrite !Z.mod_add, !Z.mod_small by lia. done.
Qed.

Lemma lanes128_map (g h k f : Z -> Z) l n : (forall a b c d, k <$> unpack4 (g (pack4 (h a) (h b) (h c) (h d))) = [f a; f b; f c; f d]) -> length l = (4 * n)%nat ->
  k <$> lanes128 g (h <$> l) = f <$> l.
Proof.
  intros Hg. revert l. induction n as [|n IH]; intros l Hl; [by apply nil_length_inv in Hl as ->|].
  destruct l as [|a [|b [|c [|d l]]]]; cbn in Hl; try lia. cbn [lanes128 fmap list_fmap]. rewrite fmap_app, Hg, IH by lia. done.
Qed.

Lemma load_lanes l : length l = 16%nat -> ccl_bf16_load_as_fp32 l = ccl_convert_bf16_to_fp32_scalar <$> l.
Proof.
  intros Hl. rewrite <- (list_fmap_id (ccl_bf16_load_as_fp32 l)). apply (lanes128_map _ _ _ _ _ 4); [|done].
  intros a b c d. rewrite list_fmap_id. apply load_lane4.
Qed.
Lemma store_lanes l : length l = 16%nat -> ccl_fp32_store_as_bf16_avx512f l = ccl_convert_fp32_to_bf16_scalar <$> l.
Proof.
  intros Hl. unfold ccl_fp32_store_as_bf16_avx512f, bsrli_epi128. rewrite <- (list_fmap_id l) at 1. apply (lanes128_map _ _ _ _ _ 4); [|done].
  intros a b c d. apply store_lane4.
Qed.

(** ** Every kernel works element by element *)

(** A reduction of two elements [a] (received) and [b] (local) by scalar and by vector instructions. *)
Definition scalar_op (add mul : Z -> Z -> Z) (lt : Z -> Z -> bool) (r : reduction) (a b : Z) : Z :=
  match r with sum => add a b | prod => mul a b | min => std_min lt a b | _ => std_max lt a b end.
Definition vector_op (add mul : Z -> Z -> Z) (lt : Z -> Z -> bool) (r : reduction) (a b : Z) : Z :=
  match r with sum => add a b | prod => mul a b | min => vec_min lt a b | _ => vec_max lt a b end.

Definition predefined (r : reduction) : bool := match r with avg | custom => false | _ => true end.
Definition fp16_supported (t : ccl_fp16_impl_type) : bool := match t with ccl_fp16_no_compiler_support | ccl_fp16_no_hardware_support => false | _ => true end.

Section elements.
Context (fpu : fp_unit).

Definition bf16_elem (t : ccl_bf16_impl_type) (r : reduction) (a b : Z) : Z :=
  let x := ccl_convert_bf16_to_fp32_scalar a in let y := ccl_convert_bf16_to_fp32_scalar b in
  match t with
  | ccl_bf16_scalar => ccl_convert_fp32_to_bf16_scalar (scalar_op (add_ps fpu) (mul_ps fpu) flt32 r x y)
  | ccl_bf16_avx512f => ccl_convert_fp32_to_bf16_scalar (vector_op (add_ps fpu) (mul_ps fpu) flt32 r x y)
  | ccl_bf16_avx512bf => cvtneps_pbh fpu (vector_op (add_ps fpu) (mul_ps fpu) flt32 r x y)
  end.
Definition fp16_elem (t : ccl_fp16_impl_type) (r : reduction) (a b : Z) : Z :=
  match t with
  | ccl_fp16_avx512fp16 => vector_op (add_ph fpu) (mul_ph fpu) flt16 r a b
  | _ => cvtps_ph fpu (vector_op (add_ps fpu) (mul_ps fpu) flt32 r (cvtph_ps fpu a) (cvtph_ps fpu b))
  end.

Lemma reduce_loop_total f n in_buf inout_buf : (n <= length in_buf)%nat -> (n <= length inout_buf)%nat ->
  reduce_loop (fun b a => Returns (f a b)) n in_buf inout_buf = Returns (elementwise f n in_buf inout_buf).
Proof.
  revert in_buf inout_buf. induction n as [|n IH]; intros in_buf inout_buf H1 H2; [done|].
  destruct in_buf as [|a in_buf], inout_buf as [|b inout_buf]; cbn in H1, H2; try lia. cbn [reduce_loop outcome_bind]. by rewrite IH by lia.
Qed.

Lemma lanes_op (k g : Z -> Z) (f : Z -> Z -> Z) l1 l2 : k <$> zip_with f (g <$> l1) (g <$> l2) = zip_with (fun a b => k (f (g a) (g b))) l1 l2.
Proof. revert l2. induction l1 as [|a l1 IH]; intros [|b l2]; cbn; [done..|]. by rewrite IH. Qed.

Lemma bf16_inputs store k r op a b :
  (forall l, length l = 16%nat -> store l = k <$> l) -> op = zip_with (vector_op (add_ps fpu) (mul_ps fpu) flt32 r) -> length a = 16%nat -> length b = 16%nat ->
  ccl_bf16_reduce_inputs store op a b =
  zip_with (fun a b => k (vector_op (add_ps fpu) (mul_ps fpu) flt32 r (ccl_convert_bf16_to_fp32_scalar a) (ccl_convert_bf16_to_fp32_scalar b))) a b.
Proof.
  intros Hs -> Ha Hb. unfold ccl_bf16_reduce_inputs. rewrite !load_lanes, Hs by (done || rewrite length_zip_with, !length_fmap; lia). apply lanes_op.
Qed.

Context (in_buf inout_buf : list Z) (cnt : nat) (Hin : (cnt <= length in_buf)%nat) (Hout : (cnt <= length inout_buf)%nat) (Hcnt : Z.of_nat cnt < 2 ^ 31).

(** The loop over whole vectors and the rest, for an [inputs] that works lane by lane. *)
Lemma vector_kernel STEP inputs f : (0 < STEP <= 255)%nat -> (forall a b, length a = STEP -> length b = STEP -> inputs a b = zip_with f a b) ->
  reduce_impl STEP inputs (reduce_tile STEP inputs) in_buf inout_buf (Z.of_nat cnt) = Returns (elementwise f cnt in_buf inout_buf).
Proof using Hin Hout Hcnt. intros Hs Hi. apply reduce_impl_spec; try done; [lia..|]. intros i Hi'. apply tile_spec; try done. lia. Qed.
Lemma vector_kernel_copy STEP inputs f ja jb : (0 < STEP <= 255)%nat -> length ja = STEP -> length jb = STEP ->
  (forall a b, length a = STEP -> length b = STEP -> inputs a b = zip_with f a b) ->
  reduce_impl STEP inputs (reduce_tile_copy STEP inputs ja jb) in_buf inout_buf (Z.of_nat cnt) = Returns (elementwise f cnt in_buf inout_buf).
Proof using Hin Hout Hcnt. intros Hs Ha Hb Hi. apply reduce_impl_spec; try done; [lia..|]. intros i Hi'. apply tile_copy_spec; try done. lia. Qed.

Lemma bf16_reduce_elementwise t r : predefined r = true -> ccl_bf16_reduce fpu t r in_buf inout_buf cnt = Returns (elementwise (bf16_elem t r) cnt in_buf inout_buf).
Proof using Hin Hout Hcnt.
  intros Hr. destruct t.
  - rewrite <- (reduce_loop_total (bf16_elem ccl_bf16_scalar r) cnt in_buf inout_buf Hin Hout). by destruct r; try discriminate Hr.
  - destruct r; try discriminate Hr; (apply vector_kernel; [unfold CCL_BF16_IN_M256; lia|]); intros a b Ha Hb;
      (eapply bf16_inputs; [apply store_lanes|reflexivity|exact Ha|exact Hb]).
  - destruct r; try discriminate Hr; (apply vector_kernel; [unfold CCL_BF16_IN_M256; lia|]); intros a b Ha Hb;
      (eapply bf16_inputs; [by intros|reflexivity|exact Ha|exact Hb]).
Qed.

Lemma fp16_reduce_elementwise t ja jb r : predefined r = true -> fp16_supported t = true -> length ja = CCL_FP16_STEP_256 -> length jb = CCL_FP16_STEP_256 ->
  ccl_fp16_reduce fpu t ja jb r in_buf inout_buf cnt = Returns (elementwise (fp16_elem t r) cnt in_buf inout_buf).
Proof using Hin Hout Hcnt.
  intros Hr Ht Ha Hb. destruct t; try discriminate Ht; destruct r; try discriminate Hr;
    (apply vector_kernel_copy || apply vector_kernel); try (unfold CCL_FP16_STEP_256, CCL_FP16_STEP_512, CCL_FP16_STEP_512FP16; lia); try exact Ha; try exact Hb;
    intros a b _ _; first [apply lanes_op|reflexivity].
Qed.

(** What [ccl_comp_reduce] computes for two elements of a floating-point type. *)
Definition float_elem (env : comp_env) (d : datatype) (r : reduction) (a b : Z) : Z :=
  match d with
  | float16 => fp16_elem (comp_fp16 env) r a b
  | bfloat16 => bf16_elem (comp_bf16 env) r a b
  | float64 => match r with sum => add_pd fpu b a | prod => mul_pd fpu b a | _ => scalar_op (add_pd fpu) (mul_pd fpu) flt64 r a b end
  | _ => match r with sum => add_ps fpu b a | prod => mul_ps fpu b a | _ => scalar_op (add_ps fpu) (mul_ps fpu) flt32 r a b end
  end.
Definition is_float (d : datatype) : bool := match d with float16 | float32 | float64 | bfloat16 => true | _ => false end.
Definition env_ok (env : comp_env) : Prop :=
  fp16_supported (comp_fp16 env) = true /\ length (junk1 env) = CCL_FP16_STEP_256 /\ length (junk2 env) = CCL_FP16_STEP_256.

(** The reduction of floating-point numbers, whatever implementation the processor allows: for any count below [2 ^ 31] and buffers that hold
    as many elements or more, [ccl_comp_reduce] reads and writes inside of the buffers and reduces element by element; the elements after the
    last one are not touched, and the lanes of a last vector that have no element (zeros or uninitialised) change nothing. *)
Theorem float_reduce_elementwise env d r fn : is_float d = true -> predefined r = true -> env_ok env ->
  ccl_comp_reduce fpu env d r fn in_buf cnt inout_buf = Returns (elementwise (float_elem env d r) cnt in_buf inout_buf).
Proof using Hin Hout Hcnt.
  intros Hd Hr (Hf & H1 & H2). unfold ccl_comp_reduce. destruct (Nat.eqb_spec cnt 0) as [->|Hne]; [done|]. destruct d; try discriminate Hd.
  - etrans; [|exact (fp16_reduce_elementwise _ _ _ _ Hr Hf H1 H2)]. by destruct r; try discriminate Hr.
  - rewrite <- (reduce_loop_total (float_elem env float32 r) cnt in_buf inout_buf Hin Hout). by destruct r; try discriminate Hr.
  - rewrite <- (reduce_loop_total (float_elem env float64 r) cnt in_buf inout_buf Hin Hout). by destruct r; try discriminate Hr.
  - etrans; [|exact (bf16_reduce_elementwise _ _ Hr)]. by destruct r; try discriminate Hr.
Qed.

(** Two numbers that are ordered: neither is NaN, and they are not two different zeros. *)
Definition ordered (a b : Z) : Prop := fp_nan 8 23 a = false /\ fp_nan 8 23 b = false /\ (a = b \/ fp_key 8 23 a <> fp_key 8 23 b).

Lemma ordered_min a b : ordered a b -> std_min flt32 a b = vec_min flt32 a b /\ std_max flt32 a b = vec_max flt32 a b.
Proof.
  intros (Ha & Hb & Hab). unfold std_min, vec_min, std_max, vec_max, flt. rewrite Ha, Hb. cbn [negb andb]. destruct Hab as [->|Hne]; [by rewrite Z.ltb_irrefl|].
  destruct (Z.ltb_spec (fp_key 8 23 a) (fp_key 8 23 b)), (Z.ltb_spec (fp_key 8 23 b) (fp_key 8 23 a)); (done || lia).
Qed.

(** C31: the AVX-512 kernel of bfloat16 (whole vectors, then a masked rest) is equivalent to the scalar loop, for any count below [2 ^ 31]; for minimum
    and maximum, when the elements are ordered. *)
Theorem bf16_vector_equals_scalar r : predefined r = true ->
  (r = min \/ r = max -> forall i a b, (i < cnt)%nat -> in_buf !! i = Some a -> inout_buf !! i = Some b ->
     ordered (ccl_convert_bf16_to_fp32_scalar a) (ccl_convert_bf16_to_fp32_scalar b)) ->
  ccl_bf16_reduce fpu ccl_bf16_avx512f r in_buf inout_buf cnt = ccl_bf16_reduce fpu ccl_bf16_scalar r in_buf inout_buf cnt.
Proof using Hin Hout Hcnt.
  intros Hr Hord. rewrite !bf16_reduce_elementwise by done. f_equal. apply list_eq. intros i. rewrite !elementwise_lookup by done.
  case_decide as Hi; [|done]. destruct (in_buf !! i) as [a|] eqn:Ea, (inout_buf !! i) as [b|] eqn:Eb; cbn; try done. f_equal. unfold bf16_elem. f_equal.
  destruct r; try discriminate Hr; cbn; try done; symmetry; apply ordered_min; eauto.
Qed.
End elements.

(** * Integer reductions *)

(** The value of a reduction of two integers, modulo the width of the type. *)
Definition int_value (t : int_type) (r : reduction) (inout a : Z) : Z :=
  match r with sum => cast t (inout + a) | prod => cast t (inout * a) | min => Z.min inout a | _ => Z.max inout a end.

Lemma width_pos t : 8 <= width t <= 64.
Proof. destruct t; cbn; lia. Qed.

Lemma cast_mod t x : cast t x mod 2 ^ width t = x mod 2 ^ width t.
Proof.
  unfold cast. destruct (is_signed t); [|by rewrite Z.mod_mod by (apply Z.pow_nonzero; pose proof (width_pos t); lia)].
  rewrite Zminus_mod_idemp_l. f_equal. lia.
Qed.
Lemma cast_eq t x y : x mod 2 ^ width t = y mod 2 ^ width t -> cast t x = cast t y.
Proof. intros H. unfold cast. destruct (is_signed t); [|done]. f_equal. by rewrite Zplus_mod, H, <- Zplus_mod. Qed.
Lemma cast_add t x y : cast t (cast t x + y) = cast t (x + y).
Proof. apply cast_eq. by rewrite Zplus_mod, cast_mod, <- Zplus_mod. Qed.
Lemma cast_mul t x y : cast t (cast t x * y) = cast t (x * y).
Proof. apply cast_eq. by rewrite Zmult_mod, cast_mod, <- Zmult_mod. Qed.
Lemma cast_range t x : in_range t (cast t x).
Proof.
  unfold in_range, cast. pose proof (width_pos t). pose proof (Z.mod_pos_bound x (2 ^ width t) ltac:(lia)).
  pose proof (Z.mod_pos_bound (x + 2 ^ (width t - 1)) (2 ^ width t) ltac:(lia)). replace (2 ^ width t) with (2 * 2 ^ (width t - 1)) in * by (rewrite <- Z.pow_succ_r by lia; f_equal; lia).
  destruct (is_signed t); lia.
Qed.
Lemma cast_small t x : in_range t x -> cast t x = x.
Proof.
  unfold in_range, cast. pose proof (width_pos t). replace (2 ^ width t) with (2 * 2 ^ (width t - 1)) in * by (rewrite <- Z.pow_succ_r by lia; f_equal; lia).
  destruct (is_signed t); intros Hx; rewrite Z.mod_small; lia.
Qed.

#[export] Instance int_value_comm t r : Comm (=) (int_value t r).
Proof. intros x y. destruct r; cbn; (by rewrite Z.add_comm) || (by rewrite Z.mul_comm) || lia. Qed.
#[export] Instance int_value_assoc t r : Assoc (=) (int_value t r).
Proof.
  intros x y z. destruct r; cbn; try lia.
  - by rewrite (Z.add_comm x (cast _ _)), !cast_add, (Z.add_comm _ x), Z.add_assoc.
  - by rewrite (Z.mul_comm x (cast _ _)), !cast_mul, (Z.mul_comm _ x), Z.mul_assoc.
Qed.

Lemma int_value_range t r x y : in_range t x -> in_range t y -> in_range t (int_value t r x y).
Proof.
  intros Hx Hy. destruct r; cbn; try apply cast_range; unfold in_range in *; destruct (is_signed t); lia.
Qed.

(** The type and the reduction never overflow a signed type, not even the [int] that narrow types are promoted to. *)
Definition never_overflows (t : int_type) (r : reduction) : bool :=
  match t, r with
  | _, (min | max) => true
  | (int8_t | uint8_t | int16_t | uint32_t | uint64_t), (sum | prod) => true
  | uint16_t, sum => true
  | _, _ => false
  end.

Lemma promoted_cast t x : cast t (cast (promoted t) x) = cast t x.
Proof.
  apply cast_eq. set (M := 2 ^ width t). assert (Hd : exists k, 2 ^ width (promoted t) = k * M).
  { exists (2 ^ (width (promoted t) - width t)). unfold M. destruct t; done. }
  destruct Hd as [k Hk]. pose proof (cast_mod (promoted t) x) as E. assert (HM : 0 < M) by (unfold M; pose proof (width_pos t); lia).
  assert (Hm : forall y, (y mod 2 ^ width (promoted t)) mod M = y mod M).
  { intros y. rewrite Hk. apply Z.mod_mod_divide. by exists k. }
  rewrite <- (Hm (cast _ x)), E. apply Hm.
Qed.

Lemma arith_value t x v : arith t x = Returns v -> v = cast t x.
Proof. unfold arith. destruct (_ && _); [done|]. intros [= <-]. apply promoted_cast. Qed.

Lemma int_op_value t r x y v : int_op t r x y = Returns v -> v = int_value t r x y.
Proof.
  unfold int_op, std_min, std_max. destruct r; cbn; try discriminate; try (intros ->%arith_value; done);
    intros [= <-]; [destruct (Z.ltb_spec x y)|destruct (Z.ltb_spec y x)]; lia.
Qed.

Lemma int_op_defined t r x y : never_overflows t r = true -> in_range t x -> in_range t y -> exists v, int_op t r x y = Returns v.
Proof.
  intros Hn Hx Hy. destruct r; try (destruct t; discriminate Hn); unfold int_op; eauto; unfold arith;
    (destruct (is_signed (promoted t) && _) eqn:E; [|eauto]); exfalso; apply andb_true_iff in E as [E1 E2];
    apply negb_true_iff, bool_decide_eq_false in E2; apply E2; destruct t; try discriminate Hn; try discriminate E1; unfold in_range in *; cbn in *; nia.
Qed.

Lemma reduce_loop_values (f : Z -> Z -> outcome Z) g n in_buf inout_buf l : (forall b a v, f b a = Returns v -> v = g a b) ->
  reduce_loop f n in_buf inout_buf = Returns l -> l = elementwise g n in_buf inout_buf /\ (n <= length in_buf)%nat /\ (n <= length inout_buf)%nat.
Proof.
  intros Hf. revert in_buf inout_buf l. induction n as [|n IH]; intros in_buf inout_buf l; cbn [reduce_loop]; [intros [= <-]; cbn; split_and!; (done || lia)|].
  destruct in_buf as [|a in_buf], inout_buf as [|b inout_buf]; try discriminate. destruct (f b a) as [v| |] eqn:Ev; try discriminate. cbn [outcome_bind].
  destruct (reduce_loop f n in_buf inout_buf) as [l'| |] eqn:El; try discriminate. intros [= <-]. apply IH in El as (-> & ? & ?). rewrite (Hf _ _ _ Ev).
  cbn. split_and!; (done || lia).
Qed.

Lemma reduce_loop_defined (f : Z -> Z -> outcome Z) (R : Z -> Prop) n in_buf inout_buf : (forall b a, R b -> R a -> exists v, f b a = Returns v) ->
  Forall R in_buf -> Forall R inout_buf -> (n <= length in_buf)%nat -> (n <= length inout_buf)%nat -> exists l, reduce_loop f n in_buf inout_buf = Returns l.
Proof.
  intros Hf. revert in_buf inout_buf. induction n as [|n IH]; intros in_buf inout_buf H1 H2 Hl1 Hl2; [cbn; eauto|].
  destruct in_buf as [|a in_buf], inout_buf as [|b inout_buf]; cbn in Hl1, Hl2; try lia. apply Forall_cons in H1 as [Ha H1], H2 as [Hb H2].
  cbn [reduce_loop]. destruct (Hf b a Hb Ha) as [v ->]. cbn [outcome_bind]. destruct (IH in_buf inout_buf H1 H2) as [l ->]; [lia..|]. cbn. eauto.
Qed.

Lemma int_reduce_values fpu env t r fn in_buf cnt inout_buf : predefined r = true ->
  (forall l, ccl_comp_reduce fpu env (dt_int t) r fn in_buf cnt inout_buf = Returns l ->
     l = elementwise (fun a b => int_value t r b a) cnt in_buf inout_buf) /\
  (never_overflows t r = true -> Forall (in_range t) in_buf -> Forall (in_range t) inout_buf -> (cnt <= length in_buf)%nat -> (cnt <= length inout_buf)%nat ->
   exists l, ccl_comp_reduce fpu env (dt_int t) r fn in_buf cnt inout_buf = Returns l).
Proof.
  intros Hr. assert (E : cnt <> O -> ccl_comp_reduce fpu env (dt_int t) r fn in_buf cnt inout_buf = reduce_loop (int_op t r) cnt in_buf inout_buf).
  { intros Hne. unfold ccl_comp_reduce. destruct (Nat.eqb_spec cnt 0); [done|]. by destruct r; try discriminate Hr. }
  destruct (decide (cnt = O)) as [->|Hne]; [split; [by intros l [= <-]|by eexists]|]. rewrite E by done. split.
  - intros l Hl. by eapply (reduce_loop_values _ (fun a b => int_value t r b a)) in Hl as (-> & _); [|intros b a v; apply int_op_value].
  - intros Hn H1 H2 Hl1 Hl2. eapply reduce_loop_defined; [|done..]. intros b a. by apply int_op_defined.
Qed.

(** C32: a reduction of integers that returns has reduced element by element modulo the width of the type, and it does return, for buffers of elements
    of the type, whenever the type and the reduction cannot overflow a signed type. *)
Theorem int_reduce_modular fpu env t r fn in_buf cnt inout_buf : predefined r = true ->
  (forall l, ccl_comp_reduce fpu env (dt_int t) r fn in_buf cnt inout_buf = Returns l ->
     l = elementwise (fun a b => int_value t r b a) cnt in_buf inout_buf) /\
  (never_overflows t r = true -> Forall (in_range t) in_buf -> Forall (in_range t) inout_buf -> (cnt <= length in_buf)%nat -> (cnt <= length inout_buf)%nat ->
   exists l, ccl_comp_reduce fpu env (dt_int t) r fn in_buf cnt inout_buf = Returns l).
Proof. apply int_reduce_values. Qed.

(** * The reduction of a collective *)

(** The exact reduction of the ranks' elements, converted to the type once. *)
Definition exact (t : int_type) (r : reduction) (N : nat) (f : nat -> Z) : Z :=
  match r with
  | sum => cast t (reduce_ranks Z.add N f)
  | prod => cast t (reduce_ranks Z.mul N f)
  | min => reduce_ranks Z.min N f
  | _ => reduce_ranks Z.max N f
  end.

Lemma fold_cast t (op : Z -> Z -> Z) l a : (forall x y, cast t (op (cast t x) y) = cast t (op x y)) ->
  fold_left (fun x y => cast t (op x y)) l (cast t a) = cast t (fold_left op l a).
Proof. intros Hop. revert a. induction l as [|y l IH]; intros a; cbn; [done|]. by rewrite Hop, IH. Qed.

Lemma reduce_ranks_exact t r N f : (0 < N)%nat -> (forall q, (q < N)%nat -> in_range t (f q)) -> reduce_ranks (int_value t r) N f = exact t r N f.
Proof.
  intros HN Hf. unfold reduce_ranks, exact. pose proof (cast_small t (f 0%nat) (Hf 0%nat HN)) as E.
  destruct r; try reflexivity; rewrite <- E at 1; [apply (fold_cast t Z.add), cast_add|apply (fold_cast t Z.mul), cast_mul].
Qed.

Lemma elementwise_all (f : Z -> Z -> Z) xs ys : length xs = length ys -> elementwise f (length xs) xs ys = zip_with f xs ys.
Proof. intros Hl. unfold elementwise. rewrite take_ge, drop_ge, app_nil_r by lia. by rewrite take_ge by lia. Qed.

(** The elements of an integer type: what the bytes of a buffer are read as. *)
Definition int_elem (t : int_type) : Type := dsig (in_range t).
Definition val {t} (x : int_elem t) : Z := proj1_sig x.

Lemma val_range {t} (x : int_elem t) : in_range t (val x).
Proof. apply (proj2_dsig x). Qed.

Section kernel.
Context (fpu : fp_unit) (cenv : comp_env) (t : int_type) (r : reduction) (fn : option (list Z -> nat -> list Z -> outcome (list Z))).

(** What the kernel makes of one element of each buffer. *)
Definition kernel_op (inout a : int_elem t) : int_elem t :=
  match ccl_comp_reduce fpu cenv (dt_int t) r fn [val a] 1 [val inout] with
  | Returns [v] => match decide (in_range t v) with left H => dexist v H | right _ => inout end
  | _ => inout
  end.

Context (Hr : predefined r = true) (Hn : never_overflows t r = true).

Lemma elems_range (l : list (int_elem t)) : Forall (in_range t) (val <$> l).
Proof. apply Forall_fmap, Forall_forall. intros x _. apply val_range. Qed.

(** The kernel reduces whole buffers, with the values modulo the width. *)
Lemma kernel_values (xs ys : list (int_elem t)) : length xs = length ys ->
  ccl_comp_reduce fpu cenv (dt_int t) r fn (val <$> xs) (length xs) (val <$> ys) =
  Returns (zip_with (int_value t r) (val <$> ys) (val <$> xs)).
Proof using Hr Hn.
  intros Hl. destruct (int_reduce_values fpu cenv t r fn (val <$> xs) (length xs) (val <$> ys) Hr) as [H1 H2].
  destruct H2 as [l El]; [done|apply elems_range|apply elems_range|by rewrite length_fmap|rewrite length_fmap; lia|].
  rewrite El. f_equal. rewrite (H1 l El), <- (length_fmap val xs), elementwise_all by (rewrite !length_fmap; lia). apply zip_with_flip.
Qed.
Lemma kernel_op_value (x y : int_elem t) : val (kernel_op x y) = int_value t r (val x) (val y).
Proof using Hr Hn.
  unfold kernel_op. pose proof (kernel_values [y] [x] eq_refl) as E. cbn [fmap list_fmap length zip_with] in E. rewrite E. destruct (decide _) as [H|H]; [done|].
  destruct H. apply int_value_range; apply val_range.
Qed.
Lemma kernel_buffers (xs ys : list (int_elem t)) : length xs = length ys ->
  ccl_comp_reduce fpu cenv (dt_int t) r fn (val <$> xs) (length xs) (val <$> ys) = Returns (val <$> zip_with kernel_op ys xs).
Proof using Hr Hn.
  intros Hl. rewrite kernel_values by done. f_equal. clear Hl. revert ys. induction xs as [|x xs IH]; intros [|y ys]; cbn; [done..|].
  rewrite kernel_op_value. f_equal. apply IH.
Qed.

Lemma kernel_op_comm : Comm (=) kernel_op.
Proof using Hr Hn. intros x y. apply dsig_eq. change (val (kernel_op x y) = val (kernel_op y x)). rewrite !kernel_op_value. apply int_value_comm. Qed.
Lemma kernel_op_assoc : Assoc (=) kernel_op.
Proof using Hr Hn. intros x y z. apply dsig_eq. change (val (kernel_op x (kernel_op y z)) = val (kernel_op (kernel_op x y) z)). rewrite !kernel_op_value. apply int_value_assoc. Qed.
Lemma kernel_ranks N (f : nat -> int_elem t) : val (reduce_ranks kernel_op N f) = reduce_ranks (int_value t r) N (fun q => val (f q)).
Proof using Hr Hn.
  unfold reduce_ranks. generalize (f 0%nat) as a. generalize (seq 1 (N - 1)) as l. induction l as [|q l IH]; intros a; [done|]. cbn. by rewrite IH, kernel_op_value.
Qed.
End kernel.

Section collective.
Local Open Scope nat_scope.
Context (fpu : fp_unit) (cenv : comp_env) (t : int_type) (r : reduction) (fn : option (list Z -> nat -> list Z -> outcome (list Z))).
Context (senv : sel_env) (env : ccl_env) (dsz : nat) (is_float16 : bool) (P pof2 : nat).
Context (send recv : nat -> ccl_buffer) (nx : nat -> nat) (x : nat -> nat -> int_elem t).
Abbreviation op := (kernel_op fpu cenv t r fn).

(** C8: an allreduce of integers over OFI with the default tables, from the selection of the algorithm to the kernel, for the sum, product, minimum and
    maximum where these cannot overflow a signed type (every minimum and maximum; sums and products of the unsigned types and of [int8_t] and [int16_t], less
    the product of [uint16_t]): the kernel reduces whole buffers of elements one by one, by the operation it computes of one element, and the
    allreduce with this operation ends on every rank with the exact result of what the ranks have, converted to the type once, in whatever
    order and grouping the algorithm has reduced. *)
Theorem integer_allreduce_exact count (other : nat -> ccl_coll_allreduce_algo -> build unit) :
  predefined r = true -> never_overflows t r = true ->
  ofi_default senv is_float16 -> 0 < dsz -> 0 < P -> (Z.of_nat P < 2 ^ 31)%Z -> AtlTag.pof2 (Z.of_nat P) = Some (Z.of_nat pof2) -> 0 < count ->
  (forall q, q < P -> bufs_ok send recv nx q) ->
  (forall xs ys : list (int_elem t), length xs = length ys ->
     ccl_comp_reduce fpu cenv (dt_int t) r fn (val <$> xs) (length xs) (val <$> ys) = Returns (val <$> zip_with op ys xs)) /\
  exists sel, allreduce_selector senv = Returns sel /\
  implements op dsz P (fun q => ccl_coll_build_allreduce senv env dsz is_float16 P pof2 q sel None (other q) (send q) (recv q) count false) nx
    (fun q m => arr dsz m (send q) count (x q) /\ exists g, arr dsz m (recv q) count g)
    (fun q m => exists g, arr dsz m (recv q) count g /\ forall i, i < count -> val (g i) = exact t r P (fun p => val (x p i))).
Proof.
  intros Hr Hn Hdef Hd HP Hlt Hp Hc Hok. split; [by apply kernel_buffers|].
  destruct (ofi_allreduce_correct op senv env dsz is_float16 P pof2 send recv nx x count other) as (sel & Hs & scheds & Hb & H);
    [done..|by apply kernel_op_assoc|by apply kernel_op_comm|done|].
  exists sel. split; [done|]. exists scheds. split; [done|]. intros ms Hms. eapply collective_weaken; [|by apply H]. intros q m Hq A.
  eexists. split; [exact A|]. intros i Hi. cbv beta. rewrite kernel_ranks by done. apply reduce_ranks_exact; [done|]. intros p _. apply val_range.
Qed.
End collective.

(** * Arrays of bfloat16 *)

Section arrays.
Context (fpu : fp_unit).
Local Open Scope nat_scope.

Definition CCL_FLOATS_IN_M512 : nat := 16.

(** [for (i = 0; i < limit; i += CCL_FLOATS_IN_M512)], of [n] iterations *)
Fixpoint convert_vectors (conv : list Z -> list Z) (n : nat) (src dst : list Z) (i : nat) : outcome (list Z) :=
  match n with
  | O => Returns dst
  | S n' => a <-? loadu CCL_FLOATS_IN_M512 src i ;; d <-? storeu dst i (conv a) ;; convert_vectors conv n' src d (i + CCL_FLOATS_IN_M512)
  end.
(** [for (i = limit; i < limit + n; i++)] *)
Fixpoint convert_rest (conv : Z -> Z) (n : nat) (src dst : list Z) (i : nat) : outcome (list Z) :=
  match n with
  | O => Returns dst
  | S n' => a <-? loadu 1 src i ;; d <-? storeu dst i (conv <$> a) ;; convert_rest conv n' src d (S i)
  end.
Definition convert_arrays (impl_type : ccl_bf16_impl_type) (vconv : list Z -> list Z) (conv : Z -> Z) (src dst : list Z) (count : nat) : outcome (list Z) :=
  let n := match impl_type with ccl_bf16_scalar => 0 | _ => count / CCL_FLOATS_IN_M512 end in
  let limit := n * CCL_FLOATS_IN_M512 in
  d <-? convert_vectors vconv n src dst 0 ;; convert_rest conv (count - limit) src d limit.

Definition ccl_convert_fp32_to_bf16 (impl_type : ccl_bf16_impl_type) (src : list Z) : list Z :=
  match impl_type with ccl_bf16_avx512bf => ccl_fp32_store_as_bf16_avx512bf fpu src | _ => ccl_fp32_store_as_bf16_avx512f src end.
Definition ccl_convert_fp32_to_bf16_arrays (impl_type : ccl_bf16_impl_type) (fp32_buf bf16_buf : list Z) (count : nat) : outcome (list Z) :=
  convert_arrays impl_type (ccl_convert_fp32_to_bf16 impl_type) ccl_convert_fp32_to_bf16_scalar fp32_buf bf16_buf count.
Definition ccl_convert_bf16_to_fp32_arrays (impl_type : ccl_bf16_impl_type) (bf16_buf fp32_buf : list Z) (count : nat) : outcome (list Z) :=
  convert_arrays impl_type ccl_bf16_load_as_fp32 ccl_convert_bf16_to_fp32_scalar bf16_buf fp32_buf count.

(** [offsets] are those from the second on; the elements of an offset start at it. *)
Fixpoint batch_loop (reduce : list Z -> list Z -> outcome (list Z)) (in_buf : list Z) (offsets : list nat) (acc : list Z) : outcome (list Z) :=
  match offsets with
  | [] => Returns acc
  | o :: offsets' => acc' <-? reduce (drop o in_buf) acc ;; batch_loop reduce in_buf offsets' acc'
  end.
Definition ccl_comp_batch_reduce (env : comp_env) (dtype : datatype) (r : reduction) fn (bf16_keep_precision_mode : bool)
    (in_buf : list Z) (offsets : list nat) (in_count : nat) (inout_buf tmp acc : list Z) : outcome (list Z) :=
  if bf16_keep_precision_mode then
    acc <-? ccl_convert_bf16_to_fp32_arrays (comp_bf16 env) inout_buf acc in_count ;;
    acc <-? batch_loop (fun b acc => t <-? ccl_convert_bf16_to_fp32_arrays (comp_bf16 env) b tmp in_count ;;
                                     ccl_comp_reduce_regular fpu env float32 r fn t in_count acc) in_buf (drop 1 offsets) acc ;;
    ccl_convert_fp32_to_bf16_arrays (comp_bf16 env) acc inout_buf in_count
  else batch_loop (fun b acc => ccl_comp_reduce_regular fpu env dtype r fn b in_count acc) in_buf (drop 1 offsets) inout_buf.

(** The first [n] elements converted. *)
Abbreviation converted conv n src dst := (elementwise (fun a _ => conv a) n src dst).

Lemma zip_with_left (conv : Z -> Z) (l1 l2 : list Z) : length l1 = length l2 -> zip_with (fun a _ => conv a) l1 l2 = conv <$> l1.
Proof. revert l2. induction l1 as [|a l1 IH]; intros [|b l2] Hl; cbn in *; try lia; [done|]. by rewrite IH by lia. Qed.

Lemma convert_one (conv : Z -> Z) vconv k src dst i : (forall l, length l = k -> vconv l = conv <$> l) -> i + k <= length src -> i + k <= length dst ->
  (a <-? loadu k src i ;; storeu (converted conv i src dst) i (vconv a)) = Returns (converted conv (i + k) src dst).
Proof.
  intros Hv H1 H2. pose proof (elementwise_length (fun a _ => conv a) i src dst ltac:(lia) ltac:(lia)). rewrite loadu_spec by lia. cbn [outcome_bind].
  rewrite Hv by (rewrite length_take, length_drop; lia). rewrite storeu_spec by (rewrite length_fmap, length_take, length_drop; lia).
  rewrite <- (elementwise_more (fun a _ => conv a) i k) by lia. by rewrite zip_with_left by (rewrite !length_take, !length_drop; lia).
Qed.

Lemma convert_vectors_spec (conv : Z -> Z) vconv n src dst i : (forall l, length l = 16 -> vconv l = conv <$> l) -> i + n * 16 <= length src -> i + n * 16 <= length dst ->
  convert_vectors vconv n src (converted conv i src dst) i = Returns (converted conv (i + n * 16) src dst).
Proof.
  intros Hv. revert i. induction n as [|n IH]; intros i H1 H2; cbn [convert_vectors]; [by rewrite Nat.mul_0_l, Nat.add_0_r|].
  pose proof (convert_one conv vconv 16 src dst i Hv ltac:(lia) ltac:(lia)) as E. unfold CCL_FLOATS_IN_M512.
  destruct (loadu 16 src i) as [a| |]; try discriminate E. cbn [outcome_bind] in *. rewrite E. cbn [outcome_bind]. rewrite IH by lia. do 2 f_equal. lia.
Qed.
Lemma convert_rest_spec (conv : Z -> Z) n src dst i : i + n <= length src -> i + n <= length dst ->
  convert_rest conv n src (converted conv i src dst) i = Returns (converted conv (i + n) src dst).
Proof.
  revert i. induction n as [|n IH]; intros i H1 H2; cbn [convert_rest]; [by rewrite Nat.add_0_r|].
  pose proof (convert_one conv (fmap conv) 1 src dst i (fun _ _ => eq_refl) ltac:(lia) ltac:(lia)) as E.
  destruct (loadu 1 src i) as [a| |]; try discriminate E. cbn [outcome_bind] in *. rewrite E. cbn [outcome_bind].
  replace (i + 1) with (S i) by lia. rewrite IH by lia. do 2 f_equal. lia.
Qed.
Lemma convert_arrays_spec t (conv : Z -> Z) vconv src dst count : (t <> ccl_bf16_scalar -> forall l, length l = 16 -> vconv l = conv <$> l) ->
  count <= length src -> count <= length dst -> convert_arrays t vconv conv src dst count = Returns (converted conv count src dst).
Proof.
  intros Hv H1 H2. unfold convert_arrays. set (n := match t with ccl_bf16_scalar => 0 | _ => _ end). cbv zeta. unfold CCL_FLOATS_IN_M512.
  assert (Hn : n * 16 <= count) by (unfold n, CCL_FLOATS_IN_M512; pose proof (Nat.div_mod_eq count 16); destruct t; lia).
  assert (E : convert_vectors vconv n src dst 0 = Returns (converted conv (n * 16) src dst)).
  { destruct (decide (t = ccl_bf16_scalar)) as [->|Ht]; [done|]. apply (convert_vectors_spec conv vconv n src dst 0); [by apply Hv|lia..]. }
  rewrite E. cbn [outcome_bind]. rewrite convert_rest_spec by lia. do 2 f_equal. lia.
Qed.

(** ** Keeping the precision does not change a minimum or maximum *)

Abbreviation to32 := ccl_convert_bf16_to_fp32_scalar.
Abbreviation to16 := ccl_convert_fp32_to_bf16_scalar.
Definition is_bf16 (x : Z) : Prop := (0 <= x < 2 ^ 16)%Z.
Definition selects (r : reduction) : bool := match r with min | max => true | _ => false end.

Lemma take_elementwise f n (l1 l2 : list Z) : n <= length l1 -> n <= length l2 -> take n (elementwise f n l1 l2) = zip_with f (take n l1) (take n l2).
Proof. intros H1 H2. unfold elementwise. rewrite take_app_length'; [done|]. rewrite length_zip_with, !length_take. lia. Qed.

(** A minimum or maximum of bfloat16s is one of them, also in single precision. *)
Lemma selects_exact r a b : selects r = true -> is_bf16 a -> is_bf16 b ->
  scalar_op (add_ps fpu) (mul_ps fpu) flt32 r (to32 a) (to32 b) = to32 (bf16_elem fpu ccl_bf16_scalar r a b) /\ is_bf16 (bf16_elem fpu ccl_bf16_scalar r a b).
Proof.
  intros Hr Ha Hb. unfold bf16_elem. destruct r; try discriminate Hr; cbn; unfold std_min, std_max; case_match; by rewrite bf16_roundtrip.
Qed.

Lemma zip_selects r l1 l2 : selects r = true -> Forall is_bf16 l1 -> Forall is_bf16 l2 ->
  zip_with (scalar_op (add_ps fpu) (mul_ps fpu) flt32 r) (to32 <$> l1) (to32 <$> l2) = to32 <$> zip_with (bf16_elem fpu ccl_bf16_scalar r) l1 l2 /\
  Forall is_bf16 (zip_with (bf16_elem fpu ccl_bf16_scalar r) l1 l2).
Proof.
  intros Hr H1. revert l2. induction H1 as [|a l1 Ha H1 IH]; intros [|b l2] H2; [split; [done|constructor]..|]. apply Forall_cons in H2 as [Hb H2].
  cbn [fmap list_fmap zip_with]. destruct (selects_exact r a b Hr Ha Hb) as [-> Hab], (IH l2 H2) as [-> Hl]. split; [done|]. by constructor.
Qed.

Context (env : comp_env) (r : reduction) (fn : option (list Z -> nat -> list Z -> outcome (list Z))) (n : nat) (in_buf tmp : list Z).
Context (Henv : comp_bf16 env = ccl_bf16_scalar) (Hr : selects r = true) (Hin : Forall is_bf16 in_buf) (Htmp : n <= length tmp).

Lemma selects_float32 l acc : n <= length l -> n <= length acc ->
  ccl_comp_reduce_regular fpu env float32 r fn l n acc = Returns (elementwise (scalar_op (add_ps fpu) (mul_ps fpu) flt32 r) n l acc).
Proof using Hr. intros H1 H2. rewrite <- (reduce_loop_total _ n l acc) by done. by destruct r; try discriminate Hr. Qed.
Lemma selects_bf16 l acc : n <= length l -> n <= length acc ->
  ccl_comp_reduce_regular fpu env bfloat16 r fn l n acc = Returns (elementwise (bf16_elem fpu ccl_bf16_scalar r) n l acc).
Proof using Hr Henv.
  intros H1 H2. rewrite <- (reduce_loop_total _ n l acc) by done. unfold ccl_comp_reduce_regular. rewrite Henv. by destruct r; try discriminate Hr.
Qed.

Lemma batch_selects offsets (b acc : list Z) : Forall (fun o => o + n <= length in_buf) offsets -> Forall is_bf16 (take n b) -> n <= length b -> n <= length acc ->
  take n acc = to32 <$> take n b ->
  exists b' acc', batch_loop (fun b acc => ccl_comp_reduce_regular fpu env bfloat16 r fn b n acc) in_buf offsets b = Returns b' /\
    batch_loop (fun b acc => t <-? ccl_convert_bf16_to_fp32_arrays (comp_bf16 env) b tmp n ;; ccl_comp_reduce_regular fpu env float32 r fn t n acc) in_buf offsets acc = Returns acc' /\
    Forall is_bf16 (take n b') /\ n <= length b' /\ n <= length acc' /\ take n acc' = to32 <$> take n b' /\ drop n b' = drop n b.
Proof using Hr Henv Hin Htmp.
  intros Ho. revert b acc. induction Ho as [|o offsets Ho _ IH]; intros b acc Hb Hlb Hla E; [by exists b, acc|]. cbn [batch_loop].
  assert (Hd : n <= length (drop o in_buf)) by (rewrite length_drop; lia).
  unfold ccl_convert_bf16_to_fp32_arrays at 1. rewrite convert_arrays_spec by (done || (rewrite Henv; done)). cbn [outcome_bind]. set (t := elementwise _ n (drop o in_buf) tmp).
  assert (Ht : n <= length t) by (unfold t; by rewrite elementwise_length). rewrite selects_bf16, selects_float32 by done. cbn [outcome_bind].
  assert (Et : take n t = to32 <$> take n (drop o in_buf)).
  { unfold t. rewrite take_elementwise by done. apply zip_with_left. rewrite !length_take. lia. }
  destruct (zip_selects r (take n (drop o in_buf)) (take n b) Hr) as [Ez Hz]; [by apply Forall_take, Forall_drop|done|].
  destruct (IH (elementwise (bf16_elem fpu ccl_bf16_scalar r) n (drop o in_buf) b) (elementwise (scalar_op (add_ps fpu) (mul_ps fpu) flt32 r) n t acc)) as (b' & acc' & H).
  - by rewrite take_elementwise.
  - by rewrite elementwise_length.
  - by rewrite elementwise_length.
  - by rewrite !take_elementwise, Et, E.
  - exists b', acc'. rewrite (elementwise_rest _ n) in H by done. exact H.
Qed.

(** Reducing a batch of bfloat16s in single precision and converting once ([bf16_keep_precision_mode]) gives the same minimum and maximum as
    reducing in bfloat16, for any number of buffers; both return. *)
Theorem keep_precision_min_max offsets (inout_buf acc : list Z) :
  Forall (fun o => o + n <= length in_buf) (drop 1 offsets) -> Forall is_bf16 inout_buf -> n <= length inout_buf -> n <= length acc ->
  exists l, ccl_comp_batch_reduce env bfloat16 r fn true in_buf offsets n inout_buf tmp acc = Returns l /\
            ccl_comp_batch_reduce env bfloat16 r fn false in_buf offsets n inout_buf tmp acc = Returns l.
Proof using Hr Henv Hin Htmp.
  intros Ho Hio Hl Hla. unfold ccl_comp_batch_reduce. unfold ccl_convert_bf16_to_fp32_arrays at 1. rewrite convert_arrays_spec by (done || (rewrite Henv; done)). cbn [outcome_bind].
  destruct (batch_selects (drop 1 offsets) inout_buf (elementwise (fun a _ => to32 a) n inout_buf acc) Ho) as (b & acc' & E1 & E2 & Hb & Hlb & Hla' & E & Ed).
  - by apply Forall_take.
  - done.
  - by rewrite elementwise_length.
  - rewrite take_elementwise by done. apply zip_with_left. rewrite !length_take. lia.
  - rewrite E1, E2. cbn [outcome_bind]. unfold ccl_convert_fp32_to_bf16_arrays. rewrite convert_arrays_spec by (done || (rewrite Henv; done)). eexists. split; [|done]. f_equal.
    unfold elementwise. rewrite zip_with_left by (rewrite !length_take; lia). rewrite E, <- Ed, <- list_fmap_compose, (list_fmap_ext _ id), list_fmap_id, take_drop; [done|].
    intros i x Hi. apply bf16_roundtrip. by eapply (Forall_lookup_1 is_bf16 (take n b)).
Qed.
End arrays.

(** * Defects *)

(** The product of two [uint16_t] overflows the [int] they are promoted to. *)
Example uint16_prod_undefined : int_op uint16_t prod 65535 65535 = Undefined /\ in_range uint16_t 65535.
Proof. split; [reflexivity|]. unfold in_range. cbn. lia. Qed.

(** With [2 ^ 31] elements or more the index of a vector kernel and the length of the rest overflow: no vector is reduced. *)
Theorem vector_kernel_overflows STEP inputs tile in_buf inout_buf in_cnt : 2 ^ 31 <= in_cnt < 2 ^ 32 ->
  reduce_impl STEP inputs tile in_buf inout_buf in_cnt = tile in_buf inout_buf O (u8 in_cnt).
Proof.
  intros H. unfold reduce_impl. cbn [main_loop]. assert (E : int32 in_cnt = in_cnt - 2 ^ 32) by (unfold int32; replace (in_cnt + 2 ^ 31) with (in_cnt - 2 ^ 31 + 1 * 2 ^ 32) by lia;
    rewrite Z.mod_add, Z.mod_small by lia; lia).
  rewrite E. destruct (Z.leb_spec (Z.of_nat 0) (in_cnt - 2 ^ 32 - Z.of_nat STEP)); [lia|]. cbn [outcome_bind fst snd]. by rewrite Z.sub_0_r.
Qed.

(** The minimum of a bfloat16 and a NaN depends on the implementation: the scalar code keeps the number received, the vector code the local one. *)
Example bf16_min_of_nan fpu :
  ccl_bf16_reduce fpu ccl_bf16_scalar min [0x3f80] [0x7fc0] 1 = Returns [0x3f80] /\ ccl_bf16_reduce fpu ccl_bf16_avx512f min [0x3f80] [0x7fc0] 1 = Returns [0x7fc0].
Proof. split; vm_compute; reflexivity. Qed.

(** On a host whose processor does not support half precision an allreduce of [float16] is refused, but a reduce-scatter is not, since its selector
    does not check the datatype; the kernel then returns without reducing anything. *)
Theorem fp16_reduce_scatter_not_reduced fpu env senv comm_size pof2 count in_buf inout_buf n fn :
  atl_transport senv = ccl_atl_ofi -> fp16_impl_type senv = ccl_fp16_no_hardware_support -> comp_fp16 env = ccl_fp16_no_hardware_support ->
  (forall a hint, allreduce_can_use senv a (coll_param 2 true comm_size pof2 count false hint) = false) /\
  (exists sel, reduce_scatter_selector senv = Returns sel /\ get senv sel (coll_param 2 true comm_size pof2 count false None) = Returns ccl_coll_reduce_scatter_naive) /\
  ccl_comp_reduce fpu env float16 sum fn in_buf n inout_buf = Returns inout_buf.
Proof.
  intros Ho Hf Hc. split_and!.
  - intros a hint. destruct a; unfold allreduce_can_use, ccl_can_use_datatype; cbn -[Z.div int32]; rewrite ?Hf;
      repeat case_match; try done; naive_solver.
  - destruct (ofi_reduce_scatter_selector senv Ho) as (sel & Es & Em). exists sel. split; [done|]. by apply get_one_range.
  - unfold ccl_comp_reduce. destruct (n =? 0)%nat; [done|]. cbn. by rewrite Hc.
Qed.

(** * Witnesses *)

(** A processor whose numbers are fixed-point ones. *)
Definition fpu_ex : fp_unit := mk_fp_unit Z.add Z.mul Z.add Z.mul Z.add Z.mul (fun x => x) (fun x => x) (fun x => x / 2 ^ 16).
Definition comp_env_ex : comp_env := mk_comp_env ccl_bf16_avx512f ccl_fp16_f16c (replicate 8 77) (replicate 8 99).

Lemma float_reduce_elementwise_witness :
  ccl_comp_reduce fpu_ex comp_env_ex float16 sum None [1; 2; 3; 4; 5; 6; 7; 8; 9; 10] 9 [10; 20; 30; 40; 50; 60; 70; 80; 90; 100] =
  Returns [11; 22; 33; 44; 55; 66; 77; 88; 99; 100].
Proof. rewrite float_reduce_elementwise; [vm_compute; reflexivity|cbn; lia|cbn; lia|lia|reflexivity|reflexivity|by split_and!]. Defined.

Lemma bf16_vector_equals_scalar_witness :
  ccl_bf16_reduce fpu_ex ccl_bf16_avx512f min (replicate 20 0x3f80) (replicate 20 0x4000) 20 =
  ccl_bf16_reduce fpu_ex ccl_bf16_scalar min (replicate 20 0x3f80) (replicate 20 0x4000) 20.
Proof.
  apply bf16_vector_equals_scalar; [rewrite length_replicate; lia|rewrite length_replicate; lia|lia|reflexivity|].
  intros _ i a b _ [-> _]%lookup_replicate [-> _]%lookup_replicate. split_and!; [vm_compute; reflexivity|vm_compute; reflexivity|right; vm_compute; discriminate].
Defined.

Lemma int_reduce_modular_witness :
  ccl_comp_reduce fpu_ex comp_env_ex (dt_int int8_t) sum None [100; -100] 2 [100; 50] = Returns (elementwise (fun a b => int_value int8_t sum b a) 2 [100; -100] [100; 50]) /\
  elementwise (fun a b => int_value int8_t sum b a) 2 [100; -100] [100; 50] = [-56; -50].
Proof.
  split; [|vm_compute; reflexivity]. destruct (int_reduce_modular fpu_ex comp_env_ex int8_t sum None [100; -100] 2 [100; 50] eq_refl) as [H1 H2].
  destruct H2 as [l Hl]; [reflexivity|repeat constructor; vm_compute; done|repeat constructor; vm_compute; done|cbn; lia|cbn; lia|]. rewrite Hl. f_equal. exact (H1 l Hl).
Defined.

Definition elem_200 : int_elem uint8_t := dexist 200 (conj (Zle_bool_imp_le 0 200 eq_refl) (eq_refl : 200 < 2 ^ 8)).

Lemma integer_allreduce_exact_witness :
  exists sel, allreduce_selector sample_env = Returns sel /\
  implements (kernel_op fpu_ex comp_env_ex uint8_t sum None) 1 7
    (fun q => ccl_coll_build_allreduce sample_env env_ex 1 false 7 4 q sel None (fun _ => throw) (send_ex q) (recv_ex q) 3000 false) nx_ex
    (fun q m => arr 1 m (send_ex q) 3000 (fun _ => elem_200) /\ exists g, arr 1 m (recv_ex q) 3000 g)
    (fun q m => exists g, arr 1 m (recv_ex q) 3000 g /\ forall i, (i < 3000)%nat -> val (g i) = 120).
Proof.
  apply (integer_allreduce_exact fpu_ex comp_env_ex uint8_t sum None sample_env env_ex 1 false 7 4 send_ex recv_ex nx_ex (fun _ _ => elem_200) 3000 (fun _ _ => throw));
    [reflexivity|reflexivity|by split_and!|lia|lia|lia|vm_compute; reflexivity|apply Nat.ltb_lt; vm_compute; reflexivity|].
  intros q _. apply bufs_ex.
Defined.

Lemma keep_precision_min_max_witness :
  exists l, ccl_comp_batch_reduce fpu_ex (mk_comp_env ccl_bf16_scalar ccl_fp16_f16c [] []) bfloat16 max None true [0x3f80; 0x4000; 0x4040; 0xc000] [0; 0; 2]%nat 2 [0xbf80; 0x3f00] [0; 0] [0; 0] = Returns l /\
            ccl_comp_batch_reduce fpu_ex (mk_comp_env ccl_bf16_scalar ccl_fp16_f16c [] []) bfloat16 max None false [0x3f80; 0x4000; 0x4040; 0xc000] [0; 0; 2]%nat 2 [0xbf80; 0x3f00] [0; 0] [0; 0] = Returns l.
Proof.
  apply keep_precision_min_max; [reflexivity|reflexivity|repeat constructor; vm_compute; done|cbn; lia|repeat constructor|repeat constructor; vm_compute; done|cbn; lia|cbn; lia].
Defined.
