(* ===== verification/Cache.v ===== *)
(** The cache of schedules: the keys of [src/src/sched/cache/key.cpp] and the table of
    [src/src/sched/cache/cache.cpp] and [cache.hpp].

    A pointer (a communicator, a reduction function) is a number.  The hash of the standard
    library on strings is an argument. *)

From Stdlib Require Import String.
From stdpp Require Import strings list.
From S2P Require Import Prelude.
Open Scope Z_scope.
Open Scope ccl_scope.

(** * Keys *)

Inductive ccl_cache_key_type := ccl_cache_key_full | ccl_cache_key_match_id.

Inductive ccl_coll_type :=
| ccl_coll_allgather | ccl_coll_allgatherv | ccl_coll_allreduce | ccl_coll_alltoall | ccl_coll_alltoallv | ccl_coll_barrier
| ccl_coll_bcast | ccl_coll_broadcast | ccl_coll_recv | ccl_coll_reduce | ccl_coll_reduce_scatter | ccl_coll_send
| ccl_coll_partial | ccl_coll_undefined.

#[export] Instance key_type_eq_dec : EqDecision ccl_cache_key_type.
Proof. solve_decision. Defined.
#[export] Instance coll_type_eq_dec : EqDecision ccl_coll_type.
Proof. solve_decision. Defined.

(** The value of the enumeration. *)
Definition coll_type_value (t : ccl_coll_type) : Z :=
  match t with
  | ccl_coll_allgather => 0 | ccl_coll_allgatherv => 1 | ccl_coll_allreduce => 2 | ccl_coll_alltoall => 3
  | ccl_coll_alltoallv => 4 | ccl_coll_barrier => 5 | ccl_coll_bcast => 6 | ccl_coll_broadcast => 7 | ccl_coll_recv => 8
  | ccl_coll_reduce => 9 | ccl_coll_reduce_scatter => 10 | ccl_coll_send => 11 | ccl_coll_partial => 12 | ccl_coll_undefined => 13
  end.

(** The fields of [ccl_coll_param] and [ccl_coll_attr] that the key and the cache read. *)
Record ccl_coll_param := mk_coll_param {
  ctype : ccl_coll_type; dtype : Z; comm : Z; send_counts : list Z; recv_counts : list Z; reduction : Z; root : Z;
  peer_rank : Z; group_id : Z }.
Record ccl_coll_attr := mk_coll_attr { attr_reduction_fn : Z; attr_match_id : string; to_cache : bool }.

Definition get_send_count (p : ccl_coll_param) : result Z := match send_counts p !! 0%nat with Some c => Ok c | None => Throw end.
Definition get_recv_count (p : ccl_coll_param) : result Z := match recv_counts p !! 0%nat with Some c => Ok c | None => Throw end.

Record ccl_sched_key_inner_fields := mk_fields {
  f_ctype : ccl_coll_type; f_buf1 : Z; f_buf2 : Z; f_dtype : Z; f_reduction : Z; f_count1 : Z; f_count2 : Z; f_root : Z;
  f_peer_rank : Z; f_group_id : Z; f_comm : Z; f_reduction_fn : Z }.

#[export] Instance fields_eq_dec : EqDecision ccl_sched_key_inner_fields.
Proof. solve_decision. Defined.

Record ccl_sched_key := mk_key { f : ccl_sched_key_inner_fields; vec1 : list Z; vec2 : list Z; match_id : string }.

(** [memset] sets the fields to zero; a fresh key has the initializers of the class. *)
Definition zero_fields : ccl_sched_key_inner_fields := mk_fields ccl_coll_allgather 0 0 0 0 0 0 0 0 0 0 0.
Definition default_fields : ccl_sched_key_inner_fields := mk_fields ccl_coll_undefined 0 0 0 0 0 0 0 (-1) (-1) 0 0.

Section key.
Context (cache_key_type : ccl_cache_key_type).

(** [ccl_sched_key::set] on a fresh key. *)
Definition key_set (param : ccl_coll_param) (attr : ccl_coll_attr) : result ccl_sched_key :=
  let f0 := if decide (cache_key_type = ccl_cache_key_full) then zero_fields else default_fields in
  let key count1 reduction root peer_rank group_id v1 v2 :=
    mk_key (mk_fields (ctype param) (f_buf1 f0) (f_buf2 f0) (dtype param) reduction count1 (f_count2 f0) root peer_rank group_id
              (comm param) (attr_reduction_fn attr)) v1 v2 (attr_match_id attr) in
  let red0 := f_reduction f0 in let root0 := f_root f0 in let peer0 := f_peer_rank f0 in let group0 := f_group_id f0 in
  match ctype param with
  | ccl_coll_allgather => c <-! get_send_count param ;; Ok (key c red0 root0 peer0 group0 [] [])
  | ccl_coll_allgatherv => c <-! get_send_count param ;; Ok (key c red0 root0 peer0 group0 (recv_counts param) [])
  | ccl_coll_allreduce => c <-! get_send_count param ;; Ok (key c (reduction param) root0 peer0 group0 [] [])
  | ccl_coll_alltoall => c <-! get_send_count param ;; Ok (key c red0 root0 peer0 group0 [] [])
  | ccl_coll_alltoallv => Ok (key (f_count1 f0) red0 root0 peer0 group0 (send_counts param) (recv_counts param))
  | ccl_coll_barrier => Ok (key (f_count1 f0) red0 root0 peer0 group0 [] [])
  | ccl_coll_bcast | ccl_coll_broadcast => c <-! get_send_count param ;; Ok (key c red0 (root param) peer0 group0 [] [])
  | ccl_coll_reduce => c <-! get_send_count param ;; Ok (key c (reduction param) (root param) peer0 group0 [] [])
  | ccl_coll_reduce_scatter => c <-! get_send_count param ;; Ok (key c (reduction param) root0 peer0 group0 [] [])
  | ccl_coll_recv => c <-! get_recv_count param ;; Ok (key c red0 root0 (peer_rank param) (group_id param) [] [])
  | ccl_coll_send => c <-! get_send_count param ;; Ok (key c red0 root0 (peer_rank param) (group_id param) [] [])
  | ccl_coll_partial | ccl_coll_undefined => Throw
  end.

(** [operator==] *)
Definition key_eqb (k k' : ccl_sched_key) : bool :=
  (if decide (cache_key_type = ccl_cache_key_full)
   then bool_decide (f k = f k') && bool_decide (vec1 k = vec1 k') && bool_decide (vec2 k = vec2 k') else true) &&
  bool_decide (match_id k = match_id k').

(** [ccl_sched_key_hasher], without the memo. *)
Definition key_hash (string_hasher : string -> Z) (k : ccl_sched_key) : Z :=
  let hash_value := string_hasher (match_id k) in
  if decide (cache_key_type = ccl_cache_key_full) then
    u64 (hash_value + coll_type_value (f_ctype (f k)) + f_dtype (f k) + f_reduction (f k) + f_count1 (f k) + f_count2 (f k) + f_root (f k) +
         f_buf1 (f k) + f_buf2 (f k) + f_comm (f k) + f_reduction_fn (f k) + foldl Z.add 0 (vec1 k) + foldl Z.add 0 (vec2 k))
  else hash_value.

(** [ccl_sched_key::check], the test of a schedule found in a debug build. *)
Definition key_check (k : ccl_sched_key) (param : ccl_coll_param) (attr : ccl_coll_attr) : result bool :=
  let result :=
    bool_decide (attr_reduction_fn attr = f_reduction_fn (f k)) || bool_decide (ctype param = f_ctype (f k)) ||
    bool_decide (dtype param = f_dtype (f k)) || bool_decide (comm param = f_comm (f k)) in
  match f_ctype (f k) with
  | ccl_coll_allgather => c <-! get_send_count param ;; Ok (result && (c =? f_count1 (f k)))
  | ccl_coll_allgatherv => c <-! get_send_count param ;; Ok (result && ((c =? f_count1 (f k)) && bool_decide (recv_counts param = vec1 k)))
  | ccl_coll_allreduce => c <-! get_send_count param ;; Ok (result && ((c =? f_count1 (f k)) && (reduction param =? f_reduction (f k))))
  | ccl_coll_alltoall => c <-! get_send_count param ;; Ok (result && (c =? f_count1 (f k)))
  | ccl_coll_alltoallv => Ok (result && (bool_decide (send_counts param = vec1 k) && bool_decide (recv_counts param = vec2 k)))
  | ccl_coll_barrier => Ok result
  | ccl_coll_bcast | ccl_coll_broadcast => c <-! get_send_count param ;; Ok (result && ((c =? f_count1 (f k)) && (root param =? f_root (f k))))
  | ccl_coll_reduce =>
    c <-! get_send_count param ;;
    Ok (result && ((c =? f_count1 (f k)) && (reduction param =? f_reduction (f k)) && (root param =? f_root (f k))))
  | ccl_coll_reduce_scatter => c <-! get_send_count param ;; Ok (result && ((c =? f_count1 (f k)) && (reduction param =? f_reduction (f k))))
  | ccl_coll_recv =>
    c <-! get_recv_count param ;;
    Ok (result && ((c =? f_count1 (f k)) && (peer_rank param =? f_peer_rank (f k)) && (group_id param =? f_group_id (f k))))
  | ccl_coll_send =>
    c <-! get_send_count param ;;
    Ok (result && ((c =? f_count1 (f k)) && (peer_rank param =? f_peer_rank (f k)) && (group_id param =? f_group_id (f k))))
  | ccl_coll_partial | ccl_coll_undefined => Throw
  end.
End key.

(** * The table *)

Record ccl_sched_cache := mk_cache { table : list (ccl_sched_key * nat); reference_counter : Z }.

Section cache.
Context (cache_key_type : ccl_cache_key_type) (enable_cache_flush : bool).
Implicit Types (c : ccl_sched_cache) (key : ccl_sched_key).

Definition same_key key (e : ccl_sched_key * nat) : bool := key_eqb cache_key_type e.1 key.

Definition find_unsafe c key : option nat := (fun x => x.2.2) <$> list_find (fun e => same_key key e = true) (table c).

(** [create_fn] makes the schedule [fresh]; the result says whether it was called. *)
Definition find_or_create c key (fresh : nat) : ccl_sched_cache * (nat * bool) :=
  match find_unsafe c key with
  | Some sched => (mk_cache (table c) (u64 (reference_counter c + 1)), (sched, false))
  | None => (mk_cache (table c ++ [(key, fresh)]) (u64 (reference_counter c + 1)), (fresh, true))
  end.

(** The table is changed before the check of [emplace]: the result is the cache that is left, and whether [recache] returns; it throws otherwise. *)
Definition recache c (old_key new_key : ccl_sched_key) : ccl_sched_cache * bool :=
  match list_find (fun e => same_key old_key e = true) (table c) with
  | None => (c, false)
  | Some (i, (_, sched)) =>
    let t := delete i (table c) in
    match list_find (fun e => same_key new_key e = true) t with
    | None => (mk_cache (t ++ [(new_key, sched)]) (reference_counter c), true)
    | Some _ => (mk_cache t (reference_counter c), false)
    end
  end.

Definition release c : ccl_sched_cache := mk_cache (table c) (u64 (reference_counter c - 1)).

(** The schedules it deletes, and the result. *)
Definition try_flush c : ccl_sched_cache * (list nat * bool) :=
  if negb enable_cache_flush then (c, ([], true))
  else if reference_counter c =? 0 then (mk_cache [] (reference_counter c), ((table c).*2, true))
  else (c, ([], false)).
End cache.

(** ** Calls of users: a schedule is in use from [find_or_create] to [release] *)

(** [w_lost]: the schedules that a [recache] that threw has taken out of the table. *)
Record cache_world := mk_world { w_cache : ccl_sched_cache; w_used : list nat; w_deleted : list nat; w_lost : list nat; w_next : nat }.

Inductive cache_step (kt : ccl_cache_key_type) (fl : bool) : cache_world -> cache_world -> Prop :=
| step_get w key c s b : find_or_create kt (w_cache w) key (w_next w) = (c, (s, b)) -> Z.of_nat (length (w_used w)) + 1 < 2 ^ 64 ->
    cache_step kt fl w (mk_world c (s :: w_used w) (w_deleted w) (w_lost w) (S (w_next w)))
| step_release w l1 s l2 : w_used w = l1 ++ s :: l2 ->
    cache_step kt fl w (mk_world (release (w_cache w)) (l1 ++ l2) (w_deleted w) (w_lost w) (w_next w))
| step_recache w k k' c ok : recache kt (w_cache w) k k' = (c, ok) ->
    cache_step kt fl w (mk_world c (w_used w) (w_deleted w) ((if ok : bool then [] else option_list (find_unsafe kt (w_cache w) k)) ++ w_lost w) (w_next w))
| step_flush w c ds b : try_flush fl (w_cache w) = (c, (ds, b)) ->
    cache_step kt fl w (mk_world c (w_used w) (ds ++ w_deleted w) (w_lost w) (w_next w)).

Definition cache_start : cache_world := mk_world (mk_cache [] 0) [] [] [] 0.

(** * Lemmas *)

Section invariant.
Context (kt : ccl_cache_key_type) (fl : bool).

Lemma key_eqb_refl k : key_eqb kt k k = true.
Proof. unfold key_eqb. case_decide; rewrite !bool_decide_eq_true_2; done. Qed.
Lemma key_eqb_sym k k' : key_eqb kt k k' = key_eqb kt k' k.
Proof. unfold key_eqb. case_decide; repeat case_bool_decide; (done || congruence). Qed.
Lemma key_eqb_trans k1 k2 k3 : key_eqb kt k1 k2 = true -> key_eqb kt k2 k3 = true -> key_eqb kt k1 k3 = true.
Proof. unfold key_eqb. case_decide; repeat case_bool_decide; (done || congruence). Qed.

(** No two entries of the table have the same key. *)
Fixpoint distinct_keys (t : list (ccl_sched_key * nat)) : Prop :=
  match t with [] => True | e :: t' => Forall (fun e' => key_eqb kt e.1 e'.1 = false) t' /\ distinct_keys t' end.

Lemma distinct_app t t' : distinct_keys (t ++ t') <->
  distinct_keys t /\ distinct_keys t' /\ Forall (fun e => Forall (fun e' => key_eqb kt e.1 e'.1 = false) t') t.
Proof.
  induction t as [|e t IH]; cbn; [split; [by intros|by intros (_ & ? & _)]|]. rewrite Forall_app, IH, Forall_cons. tauto.
Qed.

Lemma cache_find_none t k : list_find (fun e => same_key kt k e = true) t = None <-> Forall (fun e => key_eqb kt e.1 k = false) t.
Proof. rewrite list_find_None, !Forall_forall. unfold same_key. split; intros H e He; specialize (H e He); destruct (key_eqb _ _ _); done. Qed.

Lemma distinct_snoc t k s : distinct_keys t -> list_find (fun e => same_key kt k e = true) t = None -> distinct_keys (t ++ [(k, s)]).
Proof.
  intros Hd Hn%cache_find_none. apply distinct_app. split; [done|]. split; [by split; [constructor|]|].
  eapply Forall_impl; [exact Hn|]. intros e He. by constructor.
Qed.

Lemma distinct_delete t i : distinct_keys t -> distinct_keys (delete i t).
Proof.
  intros Hd. rewrite delete_take_drop. destruct (decide (i < length t)%nat) as [Hi|Hi].
  - destruct (lookup_lt_is_Some_2 t i Hi) as [e He]. rewrite <- (take_drop_middle t i e He) in Hd.
    apply distinct_app in Hd as (H1 & [_ H2] & H3). apply distinct_app. split; [done|]. split; [done|].
    eapply Forall_impl; [exact H3|]. by intros e' [_ ?]%Forall_cons.
  - rewrite take_ge, drop_ge, app_nil_r by lia. done.
Qed.

Definition cache_inv (w : cache_world) : Prop :=
  distinct_keys (table (w_cache w)) /\ NoDup (table (w_cache w)).*2 /\
  reference_counter (w_cache w) = Z.of_nat (length (w_used w)) /\ Z.of_nat (length (w_used w)) < 2 ^ 64 /\
  (forall s, s ∈ w_used w -> s ∈ (table (w_cache w)).*2 \/ s ∈ w_lost w) /\
  (forall s, s ∈ (table (w_cache w)).*2 -> (s < w_next w)%nat /\ s ∉ w_deleted w /\ s ∉ w_lost w) /\
  (forall s, s ∈ w_lost w -> (s < w_next w)%nat /\ s ∉ w_deleted w) /\
  (forall s, s ∈ w_deleted w -> (s < w_next w)%nat) /\ NoDup (w_deleted w).

Lemma find_some t k i e : list_find (fun e => same_key kt k e = true) t = Some (i, e) -> e ∈ t.
Proof. intros (H & _)%list_find_Some. by eapply list_elem_of_lookup_2. Qed.

Lemma get_inv w key c s b : cache_inv w -> find_or_create kt (w_cache w) key (w_next w) = (c, (s, b)) -> Z.of_nat (length (w_used w)) + 1 < 2 ^ 64 ->
  cache_inv (mk_world c (s :: w_used w) (w_deleted w) (w_lost w) (S (w_next w))).
Proof.
  intros (Hd & Hnd & Hrc & _ & Hu & Ht & Hlo & Hdel & Hdd) E Hlen. unfold find_or_create, find_unsafe in E.
  assert (Hc : u64 (reference_counter (w_cache w) + 1) = Z.of_nat (length (s :: w_used w))) by (rewrite Hrc, wrap_small; cbn [length]; lia).
  assert (Hlo' : forall x, x ∈ w_lost w -> (x < S (w_next w))%nat /\ x ∉ w_deleted w) by (intros x Hx; destruct (Hlo x Hx); split; [lia|done]).
  assert (Hdel' : forall x, x ∈ w_deleted w -> (x < S (w_next w))%nat) by (intros x Hx; specialize (Hdel x Hx); lia).
  assert (Ht' : forall x, x ∈ (table (w_cache w)).*2 -> (x < S (w_next w))%nat /\ x ∉ w_deleted w /\ x ∉ w_lost w) by (intros x Hx; destruct (Ht x Hx); split; [lia|done]).
  destruct (list_find _ _) as [[i e]|] eqn:El; cbn in E; injection E as <- <- <-; unfold cache_inv; cbn [w_cache w_used w_deleted w_lost w_next table reference_counter];
    (split_and!; [| |exact Hc|cbn [length]; lia| | |exact Hlo'|exact Hdel'|exact Hdd]).
  - done.
  - done.
  - intros x [->|Hx]%elem_of_cons; [|by apply Hu]. left. apply list_elem_of_fmap. exists e. split; [done|]. by eapply find_some.
  - exact Ht'.
  - by apply distinct_snoc.
  - rewrite fmap_app. apply NoDup_app. split; [done|]. split; [|by apply NoDup_singleton].
    intros x Hx ->%list_elem_of_singleton. destruct (Ht _ Hx). cbn in *. lia.
  - intros x [->|Hx]%elem_of_cons; rewrite fmap_app, elem_of_app; [left; right; left|]. destruct (Hu x Hx) as [?|?]; tauto.
  - intros x. rewrite fmap_app, elem_of_app. intros [Hx| ->%list_elem_of_singleton]; [by apply Ht'|].
    cbn. split; [lia|]. split; intros Hin; [specialize (Hdel _ Hin)|destruct (Hlo _ Hin)]; lia.
Qed.

(** What [recache] leaves in the table, and what a throw takes out of it. *)
Lemma recache_table c k k' c' ok : recache kt c k k' = (c', ok) ->
  (table c).*2 ≡ₚ (if ok then [] else option_list (find_unsafe kt c k)) ++ (table c').*2 /\ reference_counter c' = reference_counter c /\
  (distinct_keys (table c) -> distinct_keys (table c')).
Proof.
  unfold recache, find_unsafe. destruct (list_find _ (table c)) as [[i [k0 s]]|] eqn:El; [|by intros [= <- <-]]. apply list_find_Some in El as (Hi & _).
  assert (Hp : (table c).*2 ≡ₚ s :: (delete i (table c)).*2) by (by rewrite (delete_Permutation _ i (k0, s) Hi) at 1).
  destruct (list_find _ (delete i (table c))) as [?|] eqn:Hn; intros [= <- <-]; cbn.
  - split; [exact Hp|]. split; [done|]. apply distinct_delete.
  - split; [rewrite fmap_app, Hp; solve_Permutation|]. split; [done|]. intros Hd. apply distinct_snoc; [by apply distinct_delete|done].
Qed.

Lemma recache_inv w k k' c ok : cache_inv w -> recache kt (w_cache w) k k' = (c, ok) ->
  cache_inv (mk_world c (w_used w) (w_deleted w) ((if ok then [] else option_list (find_unsafe kt (w_cache w) k)) ++ w_lost w) (w_next w)).
Proof.
  intros (Hd & Hnd & Hrc & Hlt & Hu & Ht & Hlo & Hdel & Hdd) E. apply recache_table in E as (Hp & Hr & Hk).
  set (out := if ok then [] else _) in *. assert (Hel : forall s, s ∈ (table (w_cache w)).*2 <-> s ∈ out \/ s ∈ (table c).*2) by (intros s; by rewrite Hp, elem_of_app).
  rewrite Hp, NoDup_app in Hnd. destruct Hnd as (_ & Hdis & Hnd). unfold cache_inv. cbn [w_cache w_used w_deleted w_lost w_next].
  split_and!; try done; [by apply Hk|by rewrite Hr| | |].
  - intros s Hs. rewrite elem_of_app. destruct (Hu s Hs) as [[?|?]%Hel|?]; tauto.
  - intros s Hs. destruct (Ht s) as (H1 & H2 & H3); [rewrite Hel; tauto|]. split; [done|]. split; [done|]. intros [Ho|Ho]%elem_of_app; [by eapply Hdis|done].
  - intros s [Ho|Ho]%elem_of_app; [|by apply Hlo]. destruct (Ht s) as (H1 & H2 & _); [rewrite Hel; tauto|]. done.
Qed.

Lemma flush_inv w c ds b : cache_inv w -> try_flush fl (w_cache w) = (c, (ds, b)) -> cache_inv (mk_world c (w_used w) (ds ++ w_deleted w) (w_lost w) (w_next w)).
Proof.
  intros (Hd & Hnd & Hrc & Hlt & Hu & Ht & Hlo & Hdel & Hdd). unfold try_flush. destruct fl; cbn [negb]; [|by intros [= <- <- <-]].
  destruct (Z.eqb_spec (reference_counter (w_cache w)) 0) as [E0|E0]; intros [= <- <- <-]; [|done].
  assert (Hnil : w_used w = []) by (destruct (w_used w); [done|cbn in *; lia]). unfold cache_inv. cbn [w_cache w_used w_deleted w_lost w_next table reference_counter].
  rewrite Hnil in *. split_and!; try done.
  - apply NoDup_nil_2.
  - intros s Hs. by apply not_elem_of_nil in Hs.
  - intros s Hs. by apply not_elem_of_nil in Hs.
  - intros s Hs. destruct (Hlo s Hs) as [H1 H2]. split; [done|]. intros [Hin|Hin]%elem_of_app; [|done]. by apply Ht in Hin as (_ & _ & []).
  - intros s [Hs|Hs]%elem_of_app; [by apply Ht|by apply Hdel].
  - apply NoDup_app. split; [done|]. split; [|done]. intros s Hs. by apply Ht.
Qed.

Lemma cache_step_inv w w' : cache_step kt fl w w' -> cache_inv w -> cache_inv w'.
Proof.
  intros [w0 key c s b E Hl|w0 l1 s l2 E|w0 k k' c ok E|w0 c ds b E] H; [by eapply get_inv| |by eapply recache_inv|by eapply flush_inv].
  destruct H as (Hd & Hnd & Hrc & Hlt & Hu & Ht & Hlo & Hdel & Hdd). unfold cache_inv, release. cbn [w_cache w_used w_deleted w_lost w_next table reference_counter].
  rewrite E, length_app in *. cbn [length] in *. split_and!; try done.
  - rewrite Hrc, wrap_small by lia. lia.
  - lia.
  - intros x Hx. apply Hu. set_solver.
Qed.
End invariant.

(** * Claims *)

(** What a call has to have in common with the call that built a schedule: the collective, its datatype,
    communicator, reduction function and match id, and the parameters its builder reads, except the
    buffers, which are updated when the schedule is started again. *)
Definition same_call (p : ccl_coll_param) (a : ccl_coll_attr) (p' : ccl_coll_param) (a' : ccl_coll_attr) : Prop :=
  ctype p = ctype p' /\ dtype p = dtype p' /\ comm p = comm p' /\ attr_reduction_fn a = attr_reduction_fn a' /\
  attr_match_id a = attr_match_id a' /\
  match ctype p with
  | ccl_coll_allgatherv => get_send_count p = get_send_count p' /\ recv_counts p = recv_counts p'
  | ccl_coll_alltoallv => send_counts p = send_counts p' /\ recv_counts p = recv_counts p'
  | ccl_coll_barrier => True
  | ccl_coll_recv => get_recv_count p = get_recv_count p' /\ peer_rank p = peer_rank p' /\ group_id p = group_id p'
  | ccl_coll_send => get_send_count p = get_send_count p' /\ peer_rank p = peer_rank p' /\ group_id p = group_id p'
  | t => get_send_count p = get_send_count p' /\
         (t = ccl_coll_allreduce \/ t = ccl_coll_reduce \/ t = ccl_coll_reduce_scatter -> reduction p = reduction p') /\
         (t = ccl_coll_bcast \/ t = ccl_coll_broadcast \/ t = ccl_coll_reduce -> root p = root p')
  end.

Lemma full_key_eqb k k' : key_eqb ccl_cache_key_full k k' = true <-> k = k'.
Proof.
  unfold key_eqb. rewrite decide_True by done. rewrite !andb_true_iff, !bool_decide_eq_true. destruct k, k'; cbn.
  split; [intros [[[-> ->] ->] ->]; done|by intros [= -> -> -> ->]].
Qed.

(** With full keys two calls get the same key exactly when they are the same call, so that a cached
    schedule is found whenever it fits and is never used for another collective, datatype, communicator,
    reduction, root or count. *)
Theorem full_key_iff_same_call p a p' a' k k' :
  key_set ccl_cache_key_full p a = Ok k -> key_set ccl_cache_key_full p' a' = Ok k' ->
  key_eqb ccl_cache_key_full k k' = true <-> same_call p a p' a'.
Proof.
  intros Hk Hk'. rewrite full_key_eqb. unfold key_set in *. rewrite decide_True in Hk, Hk' by done. unfold same_call. split.
  - intros ->. destruct (ctype p) eqn:Et, (ctype p') eqn:Et'; cbn in *;
      repeat match goal with H : (_ <-! _ ;; _)%ccl = Ok _ |- _ => unfold result_bind in H end; repeat case_match; simplify_eq; cbn in *; simplify_eq; intuition congruence.
  - destruct p as [t d c sc rc rd ro pr gi], p' as [t' d' c' sc' rc' rd' ro' pr' gi'], a as [fn mi tc], a' as [fn' mi' tc']; cbn in *. intros (<- & <- & <- & <- & <- & H).
    unfold result_bind in *. destruct t; cbn in *; repeat case_match; simplify_eq; destruct_and?; simplify_eq; try done; f_equal; f_equal; intuition congruence.
Qed.

(** Equal keys have equal hashes, as [std::unordered_map] requires, with full keys and with match ids. *)
Lemma key_hash_respects kt string_hasher k k' : key_eqb kt k k' = true -> key_hash kt string_hasher k = key_hash kt string_hasher k'.
Proof.
  unfold key_eqb, key_hash. destruct (decide _); rewrite ?andb_true_iff, ?bool_decide_eq_true; [intros [[[-> ->] ->] ->]|intros [_ ->]]; done.
Qed.

(** Entries in different places have different keys. *)
Lemma distinct_lookup kt t i j e e' : distinct_keys kt t -> t !! i = Some e -> t !! j = Some e' -> i <> j -> key_eqb kt e.1 e'.1 = false.
Proof.
  assert (Hlt : forall i j e e', distinct_keys kt t -> t !! i = Some e -> t !! j = Some e' -> (i < j)%nat -> key_eqb kt e.1 e'.1 = false).
  { clear. intros i j e e' Hd Hi Hj Hij. rewrite <- (take_drop_middle _ _ _ Hi) in Hd. apply distinct_app in Hd as (_ & [Hd _] & _). rewrite Forall_forall in Hd.
    apply Hd, list_elem_of_lookup. exists (j - S i)%nat. rewrite lookup_drop. by replace (S i + (j - S i))%nat with j by lia. }
  intros Hd Hi Hj Hne. destruct (lt_eq_lt_dec i j) as [[H|H]|H]; [by eapply Hlt|done|]. rewrite key_eqb_sym. by eapply (Hlt j i).
Qed.

Lemma find_entry kt c k e : distinct_keys kt (table c) -> e ∈ table c -> key_eqb kt e.1 k = true -> find_unsafe kt c k = Some e.2.
Proof.
  intros Hd He Hk. unfold find_unsafe. destruct (list_find _ _) as [[i e']|] eqn:El.
  - apply list_find_Some in El as (Hi & Hs & _). cbn. do 2 f_equal. apply list_elem_of_lookup in He as [j Hj].
    assert (Hkk : key_eqb kt e'.1 e.1 = true) by (eapply key_eqb_trans; [exact Hs|by rewrite key_eqb_sym]).
    destruct (decide (i = j)) as [->|Hne]; [by simplify_eq|]. by rewrite (distinct_lookup kt _ _ _ _ _ Hd Hi Hj Hne) in Hkk.
  - apply cache_find_none in El. rewrite Forall_forall in El. rewrite El in Hk; done.
Qed.

(** C30: over any sequence of calls, releases, changes of keys, those that throw included, and flushes: the reference counter is the
    number of schedules in use; none of these has been deleted, and each is in the table unless a change of its key threw; nothing is deleted twice;
    no two entries of the table have equal keys, and a call whose key is in the table gets that schedule. *)
Theorem cache_keeps_used_scheds kt fl w :
  rtc (cache_step kt fl) cache_start w ->
  reference_counter (w_cache w) = Z.of_nat (length (w_used w)) /\
  (forall s, s ∈ w_used w -> s ∉ w_deleted w /\ (s ∉ w_lost w -> s ∈ (table (w_cache w)).*2)) /\ NoDup (w_deleted w) /\
  (forall i j e e', table (w_cache w) !! i = Some e -> table (w_cache w) !! j = Some e' -> i <> j -> key_eqb kt e.1 e'.1 = false) /\
  (forall e k fresh, e ∈ table (w_cache w) -> key_eqb kt e.1 k = true -> (find_or_create kt (w_cache w) k fresh).2 = (e.2, false)).
Proof.
  intros Hs. assert (Hinv : cache_inv kt w).
  { assert (H0 : cache_inv kt cache_start).
    { unfold cache_inv. cbn. split_and!; try done; try (by intros s Hs'%not_elem_of_nil); apply NoDup_nil_2. }
    induction Hs as [|w0 w1 w2 H1 _ IH]; [done|]. apply IH. by eapply cache_step_inv. }
  destruct Hinv as (Hd & _ & Hrc & _ & Hu & Ht & Hlo & _ & Hdd). split_and!; try done.
  - intros s Hin. split; [|intros Hn; by destruct (Hu s Hin)]. destruct (Hu s Hin) as [H|H]; [by apply Ht|by apply Hlo].
  - intros i j e e' Hi Hj Hne. by eapply distinct_lookup.
  - intros e k fresh He Hk. unfold find_or_create. by rewrite (find_entry kt _ k e).
Qed.

Definition ar_param (dt : Z) : ccl_coll_param := mk_coll_param ccl_coll_allreduce dt 7 [100] [100] 0 0 (-1) (-1).
Definition ar_attr : ccl_coll_attr := mk_coll_attr 0 "grad"%string true.

(** The check of a schedule found by its match id accepts a call with another datatype on another communicator: it asks that one
    of the four common fields be the same, where all four would have to be. *)
Example key_check_accepts_other_datatype :
  exists k, key_set ccl_cache_key_match_id (ar_param 7) ar_attr = Ok k /\
    let other := mk_coll_param ccl_coll_allreduce 3 8 [100] [100] 0 0 (-1) (-1) in
    key_check k other ar_attr = Ok true /\ dtype other <> f_dtype (f k) /\ comm other <> f_comm (f k).
Proof. eexists. split; [reflexivity|]. vm_compute. split; [reflexivity|]. split; intros [=]. Qed.

Lemma full_key_iff_same_call_witness :
  exists k k', key_set ccl_cache_key_full (ar_param 7) ar_attr = Ok k /\ key_set ccl_cache_key_full (ar_param 8) ar_attr = Ok k' /\
    (key_eqb ccl_cache_key_full k k' = true <-> same_call (ar_param 7) ar_attr (ar_param 8) ar_attr) /\ key_eqb ccl_cache_key_full k k' = false.
Proof.
  eexists _, _. split; [reflexivity|]. split; [reflexivity|]. split; [|vm_compute; reflexivity].
  apply (full_key_iff_same_call (ar_param 7) ar_attr (ar_param 8) ar_attr); reflexivity.
Defined.

(** The key of [ar_param 7], and the cache after two calls with it. *)
Definition ar_key : ccl_sched_key := mk_key (mk_fields ccl_coll_allreduce 0 0 7 0 100 0 0 0 0 7 0) [] [] "grad"%string.
Definition two_calls : cache_world := mk_world (mk_cache [(ar_key, 0%nat)] 2) [0%nat; 0%nat] [] [] 2.

Lemma cache_keeps_used_scheds_witness :
  key_set ccl_cache_key_full (ar_param 7) ar_attr = Ok ar_key /\
  reference_counter (w_cache two_calls) = Z.of_nat (length (w_used two_calls)).
Proof.
  split; [reflexivity|]. apply (cache_keeps_used_scheds ccl_cache_key_full true two_calls).
  apply (rtc_l _ _ (mk_world (mk_cache [(ar_key, 0%nat)] 1) [0%nat] [] [] 1)).
  { apply (step_get _ _ cache_start ar_key (mk_cache [(ar_key, 0%nat)] 1) 0%nat true); [reflexivity|cbn; lia]. }
  apply (rtc_l _ _ two_calls); [|apply rtc_refl].
  apply (step_get _ _ (mk_world (mk_cache [(ar_key, 0%nat)] 1) [0%nat] [] [] 1) ar_key (mk_cache [(ar_key, 0%nat)] 2) 0%nat false); [vm_compute; reflexivity|cbn; lia].
Defined.

(** A [recache] to a key that is in the table throws after it has erased the old entry: a schedule in use is in the table no longer, and
    neither a call nor a flush finds it. *)
Theorem failed_recache_loses_sched : exists w s c k, rtc (cache_step ccl_cache_key_full true) cache_start w /\ s ∈ w_used w /\
  recache ccl_cache_key_full (w_cache w) ar_key k = (c, false) /\ s ∈ (table (w_cache w)).*2 /\ s ∉ (table c).*2.
Proof.
  pose (k := mk_key (mk_fields ccl_coll_allreduce 0 0 7 0 100 0 0 0 0 8 0) [] [] "grad"%string).
  eexists _, 0%nat, _, k. split.
  { eapply rtc_l; [eapply (step_get _ _ cache_start ar_key); [reflexivity|cbn; lia]|].
    eapply rtc_l; [eapply (step_get _ _ _ k); [vm_compute; reflexivity|cbn; lia]|]. apply rtc_refl. }
  split; [right; left|]. split; [vm_compute; reflexivity|]. split; [left|]. apply not_elem_of_cons. split; [done|]. apply not_elem_of_nil.
Qed.
