(* ===== verification/Unordered.v ===== *)
(** Unordered collectives: [src/src/unordered_coll/unordered_coll.cpp].

    Ranks may call collectives in different orders; the manager of a rank holds a
    schedule back until the coordinator (rank 0) has told the ranks which communicator
    belongs to its match id.  A call ([postpone]) runs on a user thread, the end of a
    coordination ([start_post_coordination_actions]) on a worker; the manager protects
    each of its tables by a lock.  A thread is a [task], and one [exec] is what it does
    under one lock, or one schedule it starts.  [ustep] interleaves the tasks.

    The coordination itself is a broadcast of the coordinator's match id: the delivery of
    a match id with the communicator id reserved for it is a step of [ustep], once for
    each match id, because the coordinator starts one coordination for it.  A
    communicator is its id. *)

From Stdlib Require Import String.
From stdpp Require Import strings list gmap.
From S2P Require Import Prelude Cache.
Open Scope Z_scope.
Open Scope ccl_scope.

(** * State *)

Record part := mk_part { p_comm : Z; p_priority : Z; p_match_id : string }.
(** A schedule with its partial schedules. *)
Record usched := mk_usched { u_param : ccl_coll_param; u_attr : ccl_coll_attr; u_parts : list part }.

Record ccl_unordered_coll_manager := mk_manager {
  unresolved_comms : gmap string Z;
  match_id_to_comm_map : gmap string Z;
  postponed_scheds : list (string * nat);
  service_scheds : gmap string nat }.

(** The manager, the schedules it points to, the schedule cache, what was started and the coordinations begun. *)
Record world := mk_uworld {
  mgr : ccl_unordered_coll_manager;
  scheds : nat -> usched;
  sched_cache : ccl_sched_cache;
  started : list (nat * Z);
  coordinations : list string }.

Definition match_of (h : nat -> usched) (s : nat) : string := attr_match_id (u_attr (h s)).

Definition with_mgr (w : world) (m : ccl_unordered_coll_manager) : world :=
  mk_uworld m (scheds w) (sched_cache w) (started w) (coordinations w).

(** * Operations *)

Section operations.
Context (kt : ccl_cache_key_type) (priority_lifo is_coordinator : bool).

Definition set_comm (p : ccl_coll_param) (c : Z) : ccl_coll_param :=
  mk_coll_param (ctype p) (dtype p) c (send_counts p) (recv_counts p) (reduction p) (root p) (peer_rank p) (group_id p).

(** [emplace] keeps an element that is there. *)
Definition add_comm (match_id : string) (c : Z) (m : ccl_unordered_coll_manager) : ccl_unordered_coll_manager :=
  mk_manager (unresolved_comms m) (match match_id_to_comm_map m !! match_id with
                                   | Some _ => match_id_to_comm_map m | None => <[match_id:=c]> (match_id_to_comm_map m) end)
    (postponed_scheds m) (service_scheds m).

Definition get_postponed_sched_count (match_id : string) (m : ccl_unordered_coll_manager) : nat :=
  length (filter (fun e => e.1 = match_id) (postponed_scheds m)).

Definition postpone_sched (match_id : string) (s : nat) (m : ccl_unordered_coll_manager) : ccl_unordered_coll_manager :=
  mk_manager (unresolved_comms m) (match_id_to_comm_map m) (postponed_scheds m ++ [(match_id, s)]) (service_scheds m).

Definition run_sched (s : nat) (c : Z) (w : world) : result world :=
  let sc := scheds w s in
  old_key <-! key_set kt (u_param sc) (u_attr sc) ;;
  let param := set_comm (u_param sc) c in
  new_key <-! key_set kt param (u_attr sc) ;;
  cache <-! (if to_cache (u_attr sc) then (let r := recache kt (sched_cache w) old_key new_key in throw_if_not r.2 ;; Ok r.1) else Ok (sched_cache w)) ;;
  let parts := (fun p => mk_part c (if priority_lifo then c else p_priority p) (attr_match_id (u_attr sc))) <$> u_parts sc in
  Ok (mk_uworld (mgr w) (fun i => if decide (i = s) then mk_usched param (u_attr sc) parts else scheds w i) cache
        (started w ++ [(s, c)]) (coordinations w)).

Definition remove_service_scheds (completed : nat -> bool) (m : ccl_unordered_coll_manager) : ccl_unordered_coll_manager :=
  mk_manager (unresolved_comms m) (match_id_to_comm_map m) (postponed_scheds m) (filter (fun e => completed e.2 = false) (service_scheds m)).

(** [get_comm], with the service schedules that are complete. *)
Definition get_comm (completed : nat -> bool) (match_id : string) (m : ccl_unordered_coll_manager) : ccl_unordered_coll_manager * option Z :=
  (remove_service_scheds completed m, match_id_to_comm_map m !! match_id).

(** What a thread has still to do. *)
Inductive task :=
| Postpone (s : nat)                                     (* postpone, up to the first unlock *)
| Coordinate (match_id : string) (s : nat)               (* start_coordination *)
| Resolve (match_id : string) (s : nat)                  (* the comm id that arrived early *)
| AddRun (match_id : string) (s : nat) (c : Z)           (* add_comm; run_sched *)
| GetComm (completed : nat -> bool) (match_id : string)
| Post (sv : nat) (c : Z) (match_id : string)            (* start_post_coordination_actions *)
| Unresolved (sv : nat) (c : Z) (match_id : string)
| AddAll (sv : nat) (c : Z) (match_id : string)
| Collect (sv : nat) (c : Z) (match_id : string)         (* run_postponed_scheds *)
| Run (l : list nat) (c : Z) (k : option (nat * string)) (* run_sched of each *)
| Serve (sv : nat) (match_id : string).

(** [postpone], under the guard of [match_id_to_comm_map]; the rest of it is in the tasks it leaves. *)
Definition postpone (s : nat) (w : world) : result (world * list task) :=
  let m := mgr w in
  let match_id := match_of (scheds w) s in
  match match_id_to_comm_map m !! match_id with
  | Some c => Ok (w, [Run [s] c None])
  | None =>
    let m' := postpone_sched match_id s m in
    Ok (with_mgr w m', if (1 <? get_postponed_sched_count match_id m')%nat then [] else [Coordinate match_id s])
  end.

(** The service schedule that broadcasts the match id is a [Deliver] of the interleavings below. *)
Definition start_coordination (match_id : string) (s : nat) (w : world) : result (world * list task) :=
  throw_if_not (negb (bool_decide (match_id = EmptyString))) ;;
  Ok (mk_uworld (mgr w) (scheds w) (sched_cache w) (started w) (coordinations w ++ [match_id]),
      if is_coordinator then [] else [Resolve match_id s]).

(** The third part of [postpone], on the other ranks. *)
Definition resolve_early (match_id : string) (s : nat) (w : world) : result (world * list task) :=
  let m := mgr w in
  match unresolved_comms m !! match_id with
  | Some c => Ok (with_mgr w (mk_manager (delete match_id (unresolved_comms m)) (match_id_to_comm_map m) (postponed_scheds m) (service_scheds m)),
                  [AddRun match_id s c])
  | None => Ok (w, [])
  end.

(** [start_post_coordination_actions]: is a schedule waiting? *)
Definition start_post_coordination_actions (sv : nat) (c : Z) (match_id : string) (w : world) : result (world * list task) :=
  if decide (Exists (fun e => e.1 = match_id) (postponed_scheds (mgr w))) then Ok (w, [AddAll sv c match_id])
  else throw_if_not (negb is_coordinator) ;; Ok (w, [Unresolved sv c match_id]).

(** ... if not, the communicator id is kept. *)
Definition keep_unresolved (sv : nat) (c : Z) (match_id : string) (w : world) : result (world * list task) :=
  let m := mgr w in
  let u := match unresolved_comms m !! match_id with Some _ => unresolved_comms m | None => <[match_id:=c]> (unresolved_comms m) end in
  Ok (with_mgr w (mk_manager u (match_id_to_comm_map m) (postponed_scheds m) (service_scheds m)), [Serve sv match_id]).

(** ... at the end the service schedule is recorded. *)
Definition record_service_sched (sv : nat) (match_id : string) (w : world) : result (world * list task) :=
  let m := mgr w in
  throw_if_not (bool_decide (service_scheds m !! match_id = None)) ;;
  Ok (with_mgr w (mk_manager (unresolved_comms m) (match_id_to_comm_map m) (postponed_scheds m) (<[match_id:=sv]> (service_scheds m))), []).

(** [run_postponed_scheds], under the lock. *)
Definition run_postponed_scheds (sv : nat) (c : Z) (match_id : string) (w : world) : result (world * list task) :=
  let m := mgr w in
  Ok (with_mgr w (mk_manager (unresolved_comms m) (match_id_to_comm_map m) (filter (fun e => e.1 <> match_id) (postponed_scheds m)) (service_scheds m)),
      [Run (filter (fun e => e.1 = match_id) (postponed_scheds m)).*2 c (Some (sv, match_id))]).

Definition exec (t : task) (w : world) : result (world * list task) :=
  match t with
  | Postpone s => postpone s w
  | Coordinate match_id s => start_coordination match_id s w
  | Resolve match_id s => resolve_early match_id s w
  | AddRun match_id s c => Ok (with_mgr w (add_comm match_id c (mgr w)), [Run [s] c None])
  | GetComm completed match_id => Ok (with_mgr w (get_comm completed match_id (mgr w)).1, [])
  | Post sv c match_id => start_post_coordination_actions sv c match_id w
  | Unresolved sv c match_id => keep_unresolved sv c match_id w
  | AddAll sv c match_id => Ok (with_mgr w (add_comm match_id c (mgr w)), [Collect sv c match_id])
  | Collect sv c match_id => run_postponed_scheds sv c match_id w
  | Run [] c k => Ok (w, match k with Some (sv, match_id) => [Serve sv match_id] | None => [] end)
  | Run (s :: l) c k => w' <-! run_sched s c w ;; Ok (w', [Run l c k])
  | Serve sv match_id => record_service_sched sv match_id w
  end.
End operations.

(** * Interleavings *)

Record config := mk_config {
  c_world : world;
  c_tasks : list task;
  c_called : list nat;            (* the schedules passed to [postpone] *)
  c_delivered : gmap string Z;    (* the match ids delivered, with their communicators *)
  c_found : gmap string bool      (* whether the delivery found a schedule waiting *) }.

Inductive event :=
| Ask (completed : nat -> bool) (match_id : string)     (* get_comm, before the schedule is created *)
| Call (s : nat)
| Deliver (sv : nat) (c : Z) (match_id : string)
| Turn (i : nat).

Section steps.
Context (kt : ccl_cache_key_type) (priority_lifo is_coordinator : bool).

(** A schedule is postponed once; the coordinator is delivered what it began to coordinate. *)
Definition enabled (e : event) (g : config) : Prop :=
  match e with
  | Ask _ _ => True
  | Call s => s ∉ c_called g
  | Deliver sv c M => c_delivered g !! M = None /\ (is_coordinator = true -> M ∈ coordinations (c_world g))
  | Turn i => (i < length (c_tasks g))%nat
  end.

Definition found_after (t : task) (ts : list task) (fd : gmap string bool) : gmap string bool :=
  match t, ts with
  | Post _ _ M, AddAll _ _ _ :: _ => <[M:=true]> fd
  | Post _ _ M, _ => <[M:=false]> fd
  | _, _ => fd
  end.

Definition happens (e : event) (g : config) : result config :=
  match e with
  | Ask completed M => Ok (mk_config (c_world g) (c_tasks g ++ [GetComm completed M]) (c_called g) (c_delivered g) (c_found g))
  | Call s => Ok (mk_config (c_world g) (c_tasks g ++ [Postpone s]) (s :: c_called g) (c_delivered g) (c_found g))
  | Deliver sv c M => Ok (mk_config (c_world g) (c_tasks g ++ [Post sv c M]) (c_called g) (<[M:=c]> (c_delivered g)) (c_found g))
  | Turn i =>
    match c_tasks g !! i with
    | None => Ok g
    | Some t =>
      r <-! exec kt priority_lifo is_coordinator t (c_world g) ;;
      Ok (mk_config r.1 (take i (c_tasks g) ++ r.2 ++ drop (S i) (c_tasks g)) (c_called g) (c_delivered g) (found_after t r.2 (c_found g)))
    end
  end.

Definition ustep (g g' : config) : Prop := exists e, enabled e g /\ happens e g = Ok g'.

(** Events one after the other. *)
Fixpoint happen (es : list event) (g : config) : result config :=
  match es with [] => Ok g | e :: es' => g' <-! happens e g ;; happen es' g' end.

Definition ustart (h : nat -> usched) (cache : ccl_sched_cache) : config :=
  mk_config (mk_uworld (mk_manager ∅ ∅ [] ∅) h cache [] []) [] [] ∅ ∅.
End steps.

Ltac unfold_ops := unfold postpone, start_coordination, resolve_early, start_post_coordination_actions, keep_unresolved, record_service_sched, run_postponed_scheds in *; cbv zeta in *.

(** ** A lost schedule *)

Definition ar_sched (m : string) : usched :=
  mk_usched (mk_coll_param ccl_coll_allreduce 7 1 [100] [100] 0 0 (-1) (-1)) (mk_coll_attr 0 m false) [mk_part 1 0 ""%string].

(** The match id of a schedule arrives at a rank other than the coordinator while the schedule is being
    postponed: the worker looks for a waiting schedule before it is there, and the user thread looks for the
    communicator before the worker has put it there.  Both threads end, and the schedule is never started. *)
Example lost_schedule :
  exists g, happen ccl_cache_key_full false false
      [Deliver 100 5 "a"; Turn 0; Call 1; Turn 1; Turn 1; Turn 1; Turn 0; Turn 0]%string
      (ustart (fun _ => ar_sched "a"%string) (mk_cache [] 0)) = Ok g /\
    c_tasks g = [] /\ c_called g = [1%nat] /\ started (c_world g) = [] /\
    postponed_scheds (mgr (c_world g)) = [("a"%string, 1%nat)] /\ unresolved_comms (mgr (c_world g)) !! "a"%string = Some 5.
Proof. eexists. split; [vm_compute; reflexivity|]. vm_compute. repeat split; reflexivity. Qed.

(** * Invariant *)

(** The schedules a task will start, looks for a communicator for, or has not yet begun to postpone. *)
Definition commits (t : task) : list nat := match t with AddRun _ s _ => [s] | Run l _ _ => l | _ => [] end.
Definition seeks (t : task) : list nat := match t with Coordinate _ s | Resolve _ s => [s] | _ => [] end.
Definition posts (t : task) : list string := match t with Post _ _ M => [M] | _ => [] end.
Definition waits (t : task) : list nat := match t with Postpone s => [s] | _ => [] end.

Definition task_ok (mo : nat -> string) (dl : gmap string Z) (fd : gmap string bool) (t : task) : Prop :=
  match t with
  | Postpone _ | GetComm _ _ | Serve _ _ => True
  | Coordinate M s | Resolve M s => M = mo s
  | AddRun M s c => M = mo s /\ dl !! M = Some c /\ fd !! M = Some false
  | Post _ c M => dl !! M = Some c /\ fd !! M = None
  | Unresolved _ c M => dl !! M = Some c /\ fd !! M = Some false
  | AddAll _ c M | Collect _ c M => dl !! M = Some c /\ fd !! M = Some true
  | Run l c _ => forall s, s ∈ l -> dl !! mo s = Some c
  end.

(** [C], [S], [W]: the schedules that the tasks commit to, seek a communicator for, wait to postpone. *)
Record linv (w : world) (C S W : list nat) (called : list nat) (dl : gmap string Z) (fd : gmap string bool) : Prop := mk_linv {
  i_once : NoDup ((started w).*1 ++ C);
  i_started : forall s c, (s, c) ∈ started w -> dl !! match_of (scheds w) s = Some c;
  i_waits : NoDup W;
  i_waiting : forall s, s ∈ W -> s ∈ called /\ s ∉ (started w).*1 ++ C /\ s ∉ (postponed_scheds (mgr w)).*2 /\ s ∉ S;
  i_postponed : NoDup (postponed_scheds (mgr w)).*2;
  i_posted : forall M s, (M, s) ∈ postponed_scheds (mgr w) -> s ∈ called /\ M = match_of (scheds w) s;
  i_seeks : NoDup S;
  i_seeking : forall s, s ∈ S -> s ∈ called;
  i_committed : forall s, s ∈ (started w).*1 ++ C -> s ∈ called /\ is_Some (fd !! match_of (scheds w) s) /\
    (s ∈ (postponed_scheds (mgr w)).*2 -> fd !! match_of (scheds w) s = Some false) /\
    (s ∈ S -> fd !! match_of (scheds w) s = Some true);
  i_map : forall M c, match_id_to_comm_map (mgr w) !! M = Some c -> dl !! M = Some c /\ is_Some (fd !! M);
  i_unresolved : forall M c, unresolved_comms (mgr w) !! M = Some c -> dl !! M = Some c /\ fd !! M = Some false;
  i_found : forall M, is_Some (fd !! M) -> is_Some (dl !! M) }.

Definition uinv (w : world) (T : list task) (called : list nat) (dl : gmap string Z) (fd : gmap string bool) : Prop :=
  linv w (T ≫= commits) (T ≫= seeks) (T ≫= waits) called dl fd /\ Forall (task_ok (match_of (scheds w)) dl fd) T /\ NoDup (T ≫= posts).

Lemma linv_perm w C C' S S' W W' called dl fd : C ≡ₚ C' -> S ≡ₚ S' -> W ≡ₚ W' -> linv w C S W called dl fd -> linv w C' S' W' called dl fd.
Proof.
  intros HC HS HW []. constructor; try done; try (by rewrite <- ?HC, <- ?HS, <- ?HW).
  - intros s. rewrite <- HW, <- HC, <- HS. auto.
  - intros s. rewrite <- HS. auto.
  - intros s. rewrite <- HC, <- HS. auto.
Qed.

Lemma uinv_perm w T T' called dl fd : T ≡ₚ T' -> uinv w T called dl fd -> uinv w T' called dl fd.
Proof. intros HT (H1 & H2 & H3). split_and!; [|by rewrite <- HT|by rewrite <- HT]. by eapply linv_perm; [..|exact H1]; rewrite HT. Qed.

(** ** The tables and lists that a task changes *)

Section preserved.
Implicit Types (w : world) (C S W : list nat).

Lemma linv_tables w m C S S0 W called dl fd cs : linv w C (S0 ++ S) W called dl fd -> postponed_scheds m = postponed_scheds (mgr w) ->
  (forall M c, match_id_to_comm_map m !! M = Some c -> dl !! M = Some c /\ is_Some (fd !! M)) ->
  (forall M c, unresolved_comms m !! M = Some c -> dl !! M = Some c /\ fd !! M = Some false) ->
  linv (mk_uworld m (scheds w) (sched_cache w) (started w) cs) C S W called dl fd.
Proof.
  intros [] Hp Hm Hu. apply NoDup_app in i_seeks0 as (_ & _ & HS). constructor; cbn [started scheds mgr]; rewrite ?Hp; try done.
  - intros s Hs. destruct (i_waiting0 s Hs) as (? & ? & ? & Hn). split_and!; try done. rewrite elem_of_app in Hn. tauto.
  - intros s Hs. apply i_seeking0, elem_of_app. by right.
  - intros s Hs. destruct (i_committed0 s Hs) as (? & ? & ? & Hn). split_and!; try done. intros HsS. apply Hn, elem_of_app. by right.
Qed.

(** [postpone] finds the communicator. *)
Lemma linv_direct w C S W s c called dl fd : linv w C S (s :: W) called dl fd -> match_id_to_comm_map (mgr w) !! match_of (scheds w) s = Some c ->
  linv w (s :: C) S W called dl fd.
Proof.
  intros [] Hc. apply NoDup_cons in i_waits0 as [Hs HW]. destruct (i_waiting0 s (list_elem_of_here _ _)) as (H1 & H2 & H3 & H4).
  constructor; try done.
  - rewrite <- Permutation_middle. by apply NoDup_cons.
  - intros x Hx. destruct (i_waiting0 x (list_elem_of_further _ _ _ Hx)) as (? & Hn & ? & ?). split_and!; try done.
    rewrite <- Permutation_middle, not_elem_of_cons. split; [by intros ->|done].
  - intros x. rewrite <- Permutation_middle. intros [->|Hx]%elem_of_cons; [|by apply i_committed0]. split_and!; [done|by eapply i_map0|done|done].
Qed.

(** [postpone] puts the schedule into the table. *)
Lemma linv_postpone w C S W s called dl fd b : linv w C S (s :: W) called dl fd ->
  linv (with_mgr w (postpone_sched (match_of (scheds w) s) s (mgr w))) C (if b : bool then s :: S else S) W called dl fd.
Proof.
  intros [] . apply NoDup_cons in i_waits0 as [Hs HW]. destruct (i_waiting0 s (list_elem_of_here _ _)) as (H1 & H2 & H3 & H4).
  constructor; cbn [with_mgr started scheds mgr postpone_sched postponed_scheds match_id_to_comm_map unresolved_comms]; rewrite ?fmap_app; cbn [fmap list_fmap snd]; try done.
  - intros x Hx. destruct (i_waiting0 x (list_elem_of_further _ _ _ Hx)) as (? & Hn & ? & ?).
    assert (x <> s) by (by intros ->). split_and!; try done; [rewrite elem_of_app, list_elem_of_singleton; tauto|]. destruct b; [rewrite elem_of_cons; tauto|done].
  - rewrite Permutation_app_comm. by apply NoDup_cons.
  - intros M x [Hx|[= -> ->]%list_elem_of_singleton]%elem_of_app; [by apply i_posted0|done].
  - destruct b; [by apply NoDup_cons|done].
  - intros x Hx. destruct b; [|by apply i_seeking0]. apply elem_of_cons in Hx as [->|Hx]; [done|by apply i_seeking0].
  - intros x Hx. destruct (i_committed0 x Hx) as (? & ? & Hp & Hsk). assert (x <> s) by (by intros ->). split_and!; try done.
    + intros [Hx'|Hx'%list_elem_of_singleton]%elem_of_app; [by apply Hp|done].
    + intros Hx'. apply Hsk. destruct b; [|done]. by apply elem_of_cons in Hx' as [?|?].
Qed.

(** The schedule whose communicator id arrived early. *)
Lemma linv_resolve w C S W s c called dl fd : linv w C (s :: S) W called dl fd -> unresolved_comms (mgr w) !! match_of (scheds w) s = Some c ->
  linv w (s :: C) S W called dl fd /\ fd !! match_of (scheds w) s = Some false /\ dl !! match_of (scheds w) s = Some c.
Proof.
  intros [] Hc. apply NoDup_cons in i_seeks0 as [Hs HS]. destruct (i_unresolved0 _ _ Hc) as [Hdl Hfd].
  assert (Hnc : s ∉ (started w).*1 ++ C).
  { intros Hin. destruct (i_committed0 s Hin) as (_ & _ & _ & Ht). rewrite Ht in Hfd by left. done. }
  split; [|done]. constructor; try done.
  - rewrite <- Permutation_middle. by apply NoDup_cons.
  - intros x Hx. destruct (i_waiting0 x Hx) as (? & Hn & ? & Hns). apply not_elem_of_cons in Hns as [? ?]. split_and!; try done.
    rewrite <- Permutation_middle, not_elem_of_cons. done.
  - intros x Hx. apply i_seeking0. by right.
  - intros x. rewrite <- Permutation_middle. intros [->|Hx]%elem_of_cons.
    + split_and!; [apply i_seeking0; left|by rewrite Hfd|done|done].
    + destruct (i_committed0 x Hx) as (? & ? & ? & Hsk). split_and!; try done. intros HxS. apply Hsk. by right.
Qed.

(** The delivery decides. *)
Lemma linv_decide w C S W M b called dl fd : linv w C S W called dl fd -> fd !! M = None -> is_Some (dl !! M) -> linv w C S W called dl (<[M:=b]> fd).
Proof.
  intros [] Hn Hdl.
  assert (Hk : forall M' v, fd !! M' = Some v -> (<[M:=b]> fd) !! M' = Some v) by (intros M' v Hv; rewrite lookup_insert_ne; [done|congruence]).
  constructor; try done.
  - intros s Hs. destruct (i_committed0 s Hs) as (? & [v Hv] & Hp & Hsk). split_and!; [done|eauto|auto..].
  - intros M' c Hc. destruct (i_map0 _ _ Hc) as (? & [v Hv]). eauto.
  - intros M' c Hc. destruct (i_unresolved0 _ _ Hc) as (? & ?). eauto.
  - intros M' [v Hv]. destruct (decide (M' = M)) as [->|Hne]; [done|]. rewrite lookup_insert_ne in Hv by done. eauto.
Qed.

(** The waiting schedules of a match id that was found. *)
Lemma linv_collect w C S W M called dl fd : linv w C S W called dl fd -> fd !! M = Some true ->
  let m := mgr w in
  linv (with_mgr w (mk_manager (unresolved_comms m) (match_id_to_comm_map m) (filter (fun e => e.1 <> M) (postponed_scheds m)) (service_scheds m)))
    ((filter (fun e => e.1 = M) (postponed_scheds m)).*2 ++ C) S W called dl fd.
Proof.
  intros [] Hf m. set (l := (filter (fun e => e.1 = M) (postponed_scheds m)).*2). set (p' := filter (fun e => e.1 <> M) (postponed_scheds m)).
  assert (Hl : forall s, s ∈ l -> s ∈ (postponed_scheds m).*2 /\ s ∈ called /\ match_of (scheds w) s = M).
  { intros s ([M' s'] & -> & [E Hin]%list_elem_of_filter)%list_elem_of_fmap. cbn in *. destruct (i_posted0 _ _ Hin) as [? <-].
    split_and!; [|done|done]. apply list_elem_of_fmap. by exists (M', s'). }
  assert (Hsub : forall s, s ∈ p'.*2 -> s ∈ (postponed_scheds m).*2).
  { intros s (e & -> & [_ Hin]%list_elem_of_filter)%list_elem_of_fmap. apply list_elem_of_fmap. by exists e. }
  assert (Hsplit : l ++ p'.*2 ≡ₚ (postponed_scheds m).*2).
  { unfold l, p'. rewrite <- fmap_app. apply fmap_Permutation. clear. induction (postponed_scheds m) as [|e q IH]; [done|].
    rewrite !filter_cons. destruct (decide (e.1 = M)); [rewrite decide_False by tauto|rewrite decide_True by done].
    - cbn. by rewrite IH.
    - rewrite <- Permutation_middle. by rewrite IH. }
  assert (Hnd : NoDup (l ++ p'.*2)) by (by rewrite Hsplit). apply NoDup_app in Hnd as (Hnl & Hlp & Hnp).
  assert (Hnc : forall s, s ∈ l -> s ∉ (started w).*1 ++ C).
  { intros s Hs Hin. destruct (Hl s Hs) as (Hp & _ & EM). destruct (i_committed0 s Hin) as (_ & _ & Hfalse & _). rewrite EM in Hfalse.
    rewrite Hfalse in Hf by done. done. }
  constructor; cbn [with_mgr started scheds mgr postponed_scheds match_id_to_comm_map unresolved_comms]; try done.
  - rewrite (Permutation_app_swap_app (started w).*1). apply NoDup_app. split_and!; [done|done|done].
  - intros s Hs. destruct (i_waiting0 s Hs) as (? & Hn & Hp & ?). split_and!; [done| |by intros ?%Hsub|done].
    rewrite (Permutation_app_swap_app (started w).*1), elem_of_app. intros [Hin|Hin]; [by apply Hl in Hin as (? & _)|done].
  - intros M' s [_ Hin]%list_elem_of_filter. by apply i_posted0.
  - intros s. rewrite (Permutation_app_swap_app (started w).*1), elem_of_app. intros [Hin|Hin].
    + destruct (Hl s Hin) as (_ & Hc & EM). rewrite EM, Hf. split_and!; [done|by eexists| |done]. intros Hin'. by apply Hlp in Hin'.
    + destruct (i_committed0 s Hin) as (? & ? & Hp & ?). split_and!; try done. intros Hin'. by apply Hp, Hsub.
Qed.

(** A schedule is started. *)
Lemma linv_start kt lifo w w' C S W s c called dl fd : linv w (s :: C) S W called dl fd -> dl !! match_of (scheds w) s = Some c ->
  run_sched kt lifo s c w = Ok w' -> linv w' C S W called dl fd /\ forall x, match_of (scheds w') x = match_of (scheds w) x.
Proof.
  intros [] Hdl Hrun. unfold run_sched in Hrun. destruct (key_set kt _ _) as [k|]; [|done]. cbn [result_bind] in Hrun.
  destruct (key_set kt (set_comm _ _) _) as [k'|]; [|done]. cbn [result_bind] in Hrun. destruct (if to_cache _ then _ else _) as [cache|]; [|done].
  cbn [result_bind] in Hrun. injection Hrun as <-. cbn [scheds].
  assert (Hmo : forall x, match_of (fun i => if decide (i = s) then mk_usched (set_comm (u_param (scheds w s)) c) (u_attr (scheds w s))
      ((fun p => mk_part c (if lifo then c else p_priority p) (attr_match_id (u_attr (scheds w s)))) <$> u_parts (scheds w s)) else scheds w i) x = match_of (scheds w) x).
  { intros x. unfold match_of. case_decide as E; [by rewrite E|done]. }
  split; [|exact Hmo].
  assert (Hp : ((started w ++ [(s, c)]).*1 ++ C) ≡ₚ (started w).*1 ++ s :: C) by (rewrite fmap_app; cbn; by rewrite <- app_assoc).
  constructor; cbn [started scheds mgr]; try done.
  - by rewrite Hp.
  - intros x d [Hx|[= -> ->]%list_elem_of_singleton]%elem_of_app; rewrite Hmo; [by apply i_started0|done].
  - intros x Hx. rewrite Hp. by apply i_waiting0.
  - intros M x Hx. rewrite Hmo. by apply i_posted0.
  - intros x. rewrite Hp, Hmo. by apply i_committed0.
Qed.
End preserved.

Lemma task_ok_ext mo mo' dl fd t : (forall s, mo s = mo' s) -> task_ok mo dl fd t -> task_ok mo' dl fd t.
Proof. intros E. destruct t; cbn; rewrite ?E; auto. intros H s Hs. rewrite <- E. auto. Qed.

Lemma task_ok_decide mo dl fd M b t : task_ok mo dl fd t -> fd !! M = None -> M ∉ posts t -> task_ok mo dl (<[M:=b]> fd) t.
Proof.
  intros H Hn Hp. destruct t; cbn in *; try done; destruct_and?; split_and?; try done; rewrite lookup_insert_ne; try done; try congruence.
  intros ->. apply Hp. by left.
Qed.

Section exec_preserved.
Context (kt : ccl_cache_key_type) (lifo is_coordinator : bool).
Implicit Types (w : world) (R : list task).

(** Tasks that change only tables, and move no schedule. *)
Lemma tables_uinv w m S0 t ts R called dl fd cs : uinv w (t :: R) called dl fd -> postponed_scheds m = postponed_scheds (mgr w) ->
  ts ≫= commits = commits t -> seeks t = S0 ++ (ts ≫= seeks) -> ts ≫= waits = waits t -> ts ≫= posts = [] ->
  (forall M c, match_id_to_comm_map m !! M = Some c -> dl !! M = Some c /\ is_Some (fd !! M)) ->
  (forall M c, unresolved_comms m !! M = Some c -> dl !! M = Some c /\ fd !! M = Some false) ->
  Forall (task_ok (match_of (scheds w)) dl fd) ts ->
  uinv (mk_uworld m (scheds w) (sched_cache w) (started w) cs) (ts ++ R) called dl fd.
Proof.
  intros (Hl & Ht & Hp) Hpp Hc Hs Hw Hpo Hm Hu Hts. apply Forall_cons in Ht as [_ HR]. rewrite bind_cons in Hp. apply NoDup_app in Hp as (_ & _ & Hp).
  unfold uinv. rewrite !bind_app, Hc, Hw, Hpo. split_and!; [|by apply Forall_app|done].
  eapply linv_tables; [|done|done|done]. rewrite !bind_cons, Hs, <- app_assoc in Hl. exact Hl.
Qed.

Lemma same_uinv w S0 t ts R called dl fd : uinv w (t :: R) called dl fd ->
  ts ≫= commits = commits t -> seeks t = S0 ++ (ts ≫= seeks) -> ts ≫= waits = waits t -> ts ≫= posts = [] ->
  Forall (task_ok (match_of (scheds w)) dl fd) ts -> uinv w (ts ++ R) called dl fd.
Proof.
  intros Hi. intros. pose proof (tables_uinv w (mgr w) S0 t ts R called dl fd (coordinations w) Hi) as H'. destruct w.
  apply H'; try done; apply Hi.
Qed.

Lemma add_comm_map M0 c0 m (dl : gmap string Z) (fd : gmap string bool) :
  (forall M c, match_id_to_comm_map m !! M = Some c -> dl !! M = Some c /\ is_Some (fd !! M)) -> dl !! M0 = Some c0 -> is_Some (fd !! M0) ->
  forall M c, match_id_to_comm_map (add_comm M0 c0 m) !! M = Some c -> dl !! M = Some c /\ is_Some (fd !! M).
Proof.
  intros Hm Hdl Hfd M c. cbn. destruct (match_id_to_comm_map m !! M0); [apply Hm|]. destruct (decide (M = M0)) as [->|Hne].
  - rewrite lookup_insert_eq. by intros [= <-].
  - rewrite lookup_insert_ne by done. apply Hm.
Qed.

Lemma exec_uinv w t ts w' R called dl fd : uinv w (t :: R) called dl fd -> exec kt lifo is_coordinator t w = Ok (w', ts) ->
  uinv w' (ts ++ R) called dl (found_after t ts fd).
Proof.
  intros Hi He. pose proof Hi as ([] & [Ht HR]%Forall_cons & Hp). destruct t as [s|M s|M s|M s c|done M|sv c M|sv c M|sv c M|sv c M|[|s l] c k|sv M]; cbn [exec found_after] in *; unfold_ops.
  - destruct (match_id_to_comm_map (mgr w) !! match_of (scheds w) s) as [c|] eqn:Em; injection He as <- <-.
    + split_and!; [|apply Forall_cons; split; [|done]; intros x ->%list_elem_of_singleton; by eapply i_map0|done]. apply (linv_direct w _ _ _ s c); [apply Hi|done].
    + set (m := postpone_sched _ _ _). destruct (1 <? get_postponed_sched_count _ m)%nat.
      * split_and!; [|done|done]. apply (linv_postpone w _ _ _ s _ _ _ false). apply Hi.
      * split_and!; [|by apply Forall_cons|done]. apply (linv_postpone w _ _ _ s _ _ _ true). apply Hi.
  - destruct (negb _); [|done]. injection He as <- <-. destruct is_coordinator.
    + by apply (tables_uinv w (mgr w) [s] (Coordinate M s)).
    + apply (tables_uinv w (mgr w) [] (Coordinate M s)); try done. by constructor.
  - destruct (unresolved_comms (mgr w) !! M) as [c|] eqn:Eu; injection He as <- <-.
    + cbn in Ht. subst M. destruct (linv_resolve w (R ≫= commits) (R ≫= seeks) (R ≫= waits) s c called dl fd) as (Hl & Hf & Hd); [apply Hi|done|].
      split_and!; [|by apply Forall_cons|done]. eapply (linv_tables w _ _ _ []); [exact Hl|done|done|]. cbn. intros M c' Hc'.
      apply i_unresolved0. by apply lookup_delete_Some in Hc' as [_ ?].
    + by apply (same_uinv w [s] (Resolve M s) []).
  - injection He as <- <-. destruct Ht as (-> & Hdl & Hfd). apply (tables_uinv w _ [] (AddRun (match_of (scheds w) s) s c)); try done.
    + apply add_comm_map; try done.
    + constructor; [|done]. by intros x ->%list_elem_of_singleton.
  - injection He as <- <-. by apply (tables_uinv w _ [] (GetComm done M)).
  - rewrite bind_cons in Hp. apply NoDup_cons in Hp as [HpM Hp]. destruct Ht as [Hdl Hfd].
    assert (HR' : forall b, Forall (task_ok (match_of (scheds w)) dl (<[M:=b]> fd)) R).
    { intros b. apply Forall_forall. intros t Hin. apply task_ok_decide; [rewrite Forall_forall in HR; by apply HR|done|].
      intros HM. apply HpM, list_elem_of_bind. by exists t. }
    assert (Hlin : forall b, linv w (R ≫= commits) (R ≫= seeks) (R ≫= waits) called dl (<[M:=b]> fd)) by (intros b; apply linv_decide; [apply Hi|done|by eexists]).
    case_decide; [|destruct (negb is_coordinator); [|done]]; injection He as <- <-; (split_and!; [apply Hlin| |done]);
      (apply Forall_cons; split; [cbn; by rewrite lookup_insert_eq|done]).
  - injection He as <- <-. destruct Ht as [Hdl Hfd]. apply (tables_uinv w _ [] (Unresolved sv c M)); try done; [|by constructor].
    cbn. intros M' c'. destruct (unresolved_comms (mgr w) !! M); [apply i_unresolved0|]. destruct (decide (M' = M)) as [->|Hne].
    + rewrite lookup_insert_eq. by intros [= <-].
    + rewrite lookup_insert_ne by done. apply i_unresolved0.
  - injection He as <- <-. destruct Ht as [Hdl Hfd]. apply (tables_uinv w _ [] (AddAll sv c M)); try done; [|by constructor].
    apply add_comm_map; try done.
  - injection He as <- <-. destruct Ht as [Hdl Hfd]. split_and!; [|apply Forall_cons; split; [|done]|done].
    + rewrite bind_app. cbn [mbind list_bind commits seeks waits]. rewrite app_nil_r. apply linv_collect; [apply Hi|done].
    + cbn. intros s ([M' s'] & -> & [E Hin]%list_elem_of_filter)%list_elem_of_fmap. cbn in *. by destruct (i_posted0 _ _ Hin) as [_ <-]; subst.
  - injection He as <- <-. apply (same_uinv w [] (Run [] c k)); try done; destruct k as [[sv M]|]; try done. by constructor.
  - destruct (run_sched kt lifo s c w) as [w1|] eqn:Er; [|done]. injection He as <- <-.
    destruct (linv_start kt lifo w w1 (l ++ (R ≫= commits)) (R ≫= seeks) (R ≫= waits) s c called dl fd) as [Hl Hmo]; [apply Hi|apply Ht; left|done|].
    split_and!; [done| |done]. constructor; [intros x Hx; rewrite Hmo; apply Ht; by right|]. eapply Forall_impl; [exact HR|]. intros t. by apply task_ok_ext.
  - case_bool_decide; [|done]. injection He as <- <-. by apply (tables_uinv w _ [] (Serve sv M)).
Qed.
End exec_preserved.

(** ** All interleavings *)

Section reach.
Context (kt : ccl_cache_key_type) (lifo is_coordinator : bool).

Definition cinv (g : config) : Prop := uinv (c_world g) (c_tasks g) (c_called g) (c_delivered g) (c_found g).

Lemma task_ok_deliver mo dl fd M c t : task_ok mo dl fd t -> dl !! M = None -> task_ok mo (<[M:=c]> dl) fd t.
Proof.
  assert (Hk : forall M' v, dl !! M = None -> dl !! M' = Some v -> (<[M:=c]> dl) !! M' = Some v) by (intros M' v Hn Hv; rewrite lookup_insert_ne; [done|congruence]).
  intros H Hn. destruct t; cbn in *; try done; try (intros s Hs); destruct_and?; split_and?; eauto.
Qed.

Lemma call_cinv g s : cinv g -> s ∉ c_called g ->
  uinv (c_world g) (Postpone s :: c_tasks g) (s :: c_called g) (c_delivered g) (c_found g).
Proof.
  intros ([] & Ht & Hp) Hs. split_and!; [|by constructor|done]. cbn [mbind list_bind commits seeks waits app].
  assert (Hcs : forall x, x ∈ c_called g -> x ∈ s :: c_called g) by (intros; by right).
  constructor; try done.
  - apply NoDup_cons. split; [|done]. intros Hin. by apply i_waiting0 in Hin as [? _].
  - intros x [->|Hx]%elem_of_cons.
    + split_and!; [left|intros Hin; by apply i_committed0 in Hin as [? _]| |intros Hin; by apply i_seeking0 in Hin].
      intros ([M x'] & -> & Hin)%list_elem_of_fmap. by apply i_posted0 in Hin as [? _].
    + destruct (i_waiting0 x Hx) as (? & ? & ? & ?). by split_and!; auto.
  - intros M x Hx. destruct (i_posted0 M x Hx). auto.
  - intros x Hx. auto.
  - intros x Hx. destruct (i_committed0 x Hx) as (? & ? & ? & ?). by split_and!; auto.
Qed.

Lemma deliver_cinv g sv c M : cinv g -> c_delivered g !! M = None ->
  uinv (c_world g) (Post sv c M :: c_tasks g) (c_called g) (<[M:=c]> (c_delivered g)) (c_found g).
Proof.
  intros ([] & Ht & Hp) Hn.
  assert (Hk : forall M' v, c_delivered g !! M' = Some v -> (<[M:=c]> (c_delivered g)) !! M' = Some v) by (intros M' v Hv; rewrite lookup_insert_ne; [done|congruence]).
  split_and!.
  - cbn [mbind list_bind commits seeks waits app]. constructor; try done.
    + intros s d Hs. auto.
    + intros M' d Hd. destruct (i_map0 _ _ Hd). auto.
    + intros M' d Hd. destruct (i_unresolved0 _ _ Hd). auto.
    + intros M' [v Hv]%i_found0. eauto.
  - constructor; [|eapply Forall_impl; [exact Ht|]; intros t Hok; by apply task_ok_deliver]. cbn. split; [by rewrite lookup_insert_eq|].
    destruct (c_found g !! M) eqn:E; [|done]. destruct (i_found0 M) as [v Hv]; [by eexists|]. congruence.
  - rewrite bind_cons. apply NoDup_cons. split; [|done]. intros (t & HM & Hin)%list_elem_of_bind. rewrite Forall_forall in Ht. specialize (Ht t Hin).
    destruct t; cbn in HM; try (by apply not_elem_of_nil in HM). apply list_elem_of_singleton in HM as ->. cbn in Ht. destruct Ht. congruence.
Qed.

Lemma turn_tasks {A} (l : list A) i t : l !! i = Some t -> l ≡ₚ t :: take i l ++ drop (S i) l.
Proof. intros H. rewrite <- (take_drop_middle l i t H) at 1. by rewrite Permutation_middle. Qed.

Lemma ustep_cinv g g' : ustep kt lifo is_coordinator g g' -> cinv g -> cinv g'.
Proof.
  intros ([done M|s|sv c M|i] & He & Hh) Hi; cbn in *.
  - injection Hh as <-. eapply uinv_perm; [apply Permutation_cons_append|]. destruct Hi as (? & ? & ?). split_and!; [done|by constructor|done].
  - injection Hh as <-. eapply uinv_perm; [|exact (call_cinv g s Hi He)]. apply Permutation_cons_append.
  - injection Hh as <-. eapply uinv_perm; [|exact (deliver_cinv g sv c M Hi (proj1 He))]. apply Permutation_cons_append.
  - destruct (c_tasks g !! i) as [t|] eqn:Et; [|by injection Hh as <-]. destruct (exec _ _ _ _ _) as [[w' ts]|] eqn:Ex; [|done]. injection Hh as <-.
    eapply uinv_perm; [|eapply exec_uinv; [|exact Ex]; eapply uinv_perm; [by apply turn_tasks|exact Hi]]. cbn. rewrite !app_assoc. f_equiv. apply Permutation_app_comm.
Qed.

Lemma ustart_cinv h cache : cinv (ustart h cache).
Proof. 
  split_and!; [|done|apply NoDup_nil_2]. constructor; cbn; try apply NoDup_nil_2; intros *; rewrite ?lookup_empty, ?elem_of_nil; try done.
 Qed.

Lemma reach_cinv h cache g : rtc (ustep kt lifo is_coordinator) (ustart h cache) g -> cinv g.
Proof. intros Hr. pose proof (ustart_cinv h cache) as H0. induction Hr as [|g0 g1 g2 H1 _ IH]; [done|]. apply IH. by eapply ustep_cinv. Qed.
End reach.

(** ** Nothing throws *)

Definition chain (t : task) : list string :=
  match t with
  | Post _ _ M | Unresolved _ _ M | AddAll _ _ M | Collect _ _ M | Serve _ M | Run _ _ (Some (_, M)) => [M]
  | _ => []
  end.
Definition coords (t : task) : list string := match t with Coordinate M _ => [M] | _ => [] end.

(** A schedule with a match id and a valid key that is not cached. *)
Definition sched_ok (kt : ccl_cache_key_type) (u : usched) : Prop :=
  to_cache (u_attr u) = false /\ attr_match_id (u_attr u) <> EmptyString /\ exists k, key_set kt (u_param u) (u_attr u) = Ok k.

Section nothrow.
Context (kt : ccl_cache_key_type) (lifo is_coordinator : bool).

Record ninv (w : world) (T : list task) (dl : gmap string Z) (fd : gmap string bool) : Prop := mk_ninv {
  n_chain : NoDup (T ≫= chain);
  n_chained : forall M, M ∈ T ≫= chain -> service_scheds (mgr w) !! M = None /\ is_Some (dl !! M);
  n_served : forall M, is_Some (service_scheds (mgr w) !! M) -> is_Some (dl !! M);
  n_waiting : is_coordinator = true -> forall M, M ∈ coordinations w \/ M ∈ T ≫= coords -> fd !! M = None -> M ∈ (postponed_scheds (mgr w)).*1;
  n_posts : is_coordinator = true -> forall M, M ∈ T ≫= posts -> M ∈ coordinations w;
  n_scheds : forall s, sched_ok kt (scheds w s) }.

Lemma ninv_perm w T T' dl fd : T ≡ₚ T' -> ninv w T dl fd -> ninv w T' dl fd.
Proof.
  intros HT []. constructor; try done; [by rewrite <- HT| | |].
  - intros M. rewrite <- HT. auto.
  - intros HC M. rewrite <- HT. auto.
  - intros HC M. rewrite <- HT. auto.
Qed.

Lemma key_set_comm p a c k : key_set kt p a = Ok k -> exists k', key_set kt (set_comm p c) a = Ok k'.
Proof.
  unfold key_set, get_send_count, get_recv_count. cbn [ctype send_counts recv_counts set_comm]. destruct (ctype p); unfold result_bind; repeat case_match; try done; intros _; eauto.
Qed.

Lemma run_sched_ok s c w : sched_ok kt (scheds w s) -> exists w', run_sched kt lifo s c w = Ok w' /\
  mgr w' = mgr w /\ coordinations w' = coordinations w /\ ((forall x, sched_ok kt (scheds w x)) -> forall x, sched_ok kt (scheds w' x)).
Proof.
  intros (Hc & Hm & k & Hk). unfold run_sched. rewrite Hk. cbn [result_bind]. destruct (key_set_comm _ _ c _ Hk) as [k' Hk']. rewrite Hk'. cbn [result_bind].
  rewrite Hc. cbn [result_bind]. eexists. split; [done|]. cbn. split_and!; [done..|]. intros Hall x. case_decide; [|done].
  split_and!; cbn; [done|done|eauto].
Qed.

Lemma exec_total w t R called dl fd : uinv w (t :: R) called dl fd -> ninv w (t :: R) dl fd -> exists r, exec kt lifo is_coordinator t w = Ok r.
Proof.
  intros (Hl & [Ht _]%Forall_cons & _) []. destruct t as [s|M s|M s|M s c|done M|sv c M|sv c M|sv c M|sv c M|[|s l] c k|sv M]; cbn [exec]; unfold_ops; try (by eexists).
  - case_match; by eexists.
  - cbn in Ht. subst M. destruct (n_scheds0 s) as (_ & Hne & _). rewrite bool_decide_eq_false_2 by done. by eexists.
  - case_match; by eexists.
  - case_decide as Hex; [by eexists|]. destruct is_coordinator; [|by eexists]. exfalso. apply Hex. destruct Ht as [_ Hfd].
    assert (HM : M ∈ (postponed_scheds (mgr w)).*1) by (apply n_waiting0; [done|left; apply n_posts0; [done|left]|done]).
    apply list_elem_of_fmap in HM as (e & -> & He). apply Exists_exists. eauto.
  - destruct (run_sched_ok s c w (n_scheds0 s)) as (w' & -> & _). by eexists.
  - rewrite bool_decide_eq_true_2; [by eexists|]. apply n_chained0. left.
Qed.

(** Tasks that keep the tables of postponed and service schedules. *)
Lemma keep_ninv w w' t ts R dl fd : ninv w (t :: R) dl fd -> scheds w' = scheds w -> service_scheds (mgr w') = service_scheds (mgr w) ->
  postponed_scheds (mgr w') = postponed_scheds (mgr w) -> coordinations w' = coordinations w ++ coords t -> ts ≫= chain = chain t ->
  ts ≫= coords = [] -> ts ≫= posts = [] -> ninv w' (ts ++ R) dl fd.
Proof.
  intros [] Hs Hsv Hpp Hc Hch Hco Hpo. rewrite ?bind_cons in *. constructor; rewrite ?Hs, ?Hsv, ?Hpp, ?Hc, ?bind_app, ?Hch, ?Hco, ?Hpo; try done.
  - intros HC M HM. apply n_waiting0; [done|]. rewrite ?bind_cons, !elem_of_app. rewrite elem_of_app in HM. cbn [app] in HM. tauto.
  - intros HC M HM. rewrite elem_of_app. left. apply n_posts0; [done|]. rewrite ?bind_cons, elem_of_app. by right.
Qed.

Lemma exec_ninv w t ts w' R called dl fd : uinv w (t :: R) called dl fd -> ninv w (t :: R) dl fd -> exec kt lifo is_coordinator t w = Ok (w', ts) ->
  ninv w' (ts ++ R) dl (found_after t ts fd).
Proof.
  intros (Hl & [Ht _]%Forall_cons & _) Hn He. pose proof Hn as []. destruct t as [s|M s|M s|M s c|done M|sv c M|sv c M|sv c M|sv c M|[|s l] c k|sv M]; cbn [exec found_after] in *; unfold_ops.
  - destruct (match_id_to_comm_map _ !! _); injection He as <- <-; [apply (keep_ninv w _ (Postpone s)); try done; by rewrite app_nil_r|].
    set (b := (1 <? _)%nat). constructor; cbn [with_mgr mgr postpone_sched service_scheds postponed_scheds coordinations scheds]; try (by destruct b).
    intros HC M HM Hf. rewrite fmap_app, elem_of_app. destruct (decide (M = match_of (scheds w) s)) as [->|Hne]; [right; left|left].
    apply n_waiting0; [done| |done]. destruct b; [done|]. destruct HM as [HM|HM]; [by left|]. cbn in HM. right. by apply elem_of_cons in HM as [?|?].
  - destruct (negb _); [|done]. injection He as <- <-. apply (keep_ninv w _ (Coordinate M s)); try done; by destruct is_coordinator.
  - destruct (unresolved_comms _ !! _); injection He as <- <-; apply (keep_ninv w _ (Resolve M s)); try done; by rewrite app_nil_r.
  - injection He as <- <-. apply (keep_ninv w _ (AddRun M s c)); try done; by rewrite app_nil_r.
  - injection He as <- <-. constructor; cbn [with_mgr mgr get_comm fst remove_service_scheds service_scheds postponed_scheds coordinations scheds]; try done.
    + intros M' HM'. destruct (n_chained0 M' HM') as [Hs ?]. split; [|done]. apply map_lookup_filter_None. by left.
    + intros M' [v Hv]. apply n_served0. apply map_lookup_filter_Some in Hv as [? _]. by eexists.
  - destruct Ht as [Hdl Hfd].
    assert (Hp : forall b t, chain t = [M] -> coords t = [] -> posts t = [] -> ninv w (t :: R) dl (<[M:=b]> fd)).
    { intros b t H1 H2 H3. constructor; rewrite ?bind_cons, ?H1, ?H2, ?H3; try done.
      - intros HC M' HM' Hf. apply lookup_insert_None in Hf as [Hf _]. by apply n_waiting0.
      - intros HC M' HM'. apply n_posts0; [done|]. by right. }
    case_decide; [|destruct (negb is_coordinator); [|done]]; injection He as <- <-; by apply Hp.
  - injection He as <- <-. apply (keep_ninv w _ (Unresolved sv c M)); try done; by rewrite app_nil_r.
  - injection He as <- <-. apply (keep_ninv w _ (AddAll sv c M)); try done; by rewrite app_nil_r.
  - injection He as <- <-. destruct Ht as [_ Hfd]. constructor; cbn [with_mgr mgr service_scheds postponed_scheds coordinations scheds]; try done.
    intros HC M' HM' Hf. assert (Hne : M' <> M) by congruence. specialize (n_waiting0 HC M' HM' Hf). apply list_elem_of_fmap in n_waiting0 as (e & -> & He).
    apply list_elem_of_fmap. exists e. split; [done|]. by apply list_elem_of_filter.
  - injection He as <- <-. destruct k as [[sv M]|];
      [apply (keep_ninv w _ (Run [] c (Some (sv, M))))|apply (keep_ninv w _ (Run [] c None))]; try done; by rewrite app_nil_r.
  - destruct (run_sched_ok s c w (n_scheds0 s)) as (w1 & Er & Em & Ec & Hs). rewrite Er in He. injection He as <- <-.
    constructor; rewrite ?Em, ?Ec; try done. by apply Hs.
  - case_bool_decide as Hsv; [|done]. injection He as <- <-. rewrite bind_cons in n_chain0. apply NoDup_cons in n_chain0 as [HM HR].
    constructor; cbn [with_mgr mgr service_scheds postponed_scheds coordinations scheds app]; try done.
    + intros M' HM'. destruct (n_chained0 M') as [H1 H2]; [by right|]. split; [|done]. rewrite lookup_insert_ne; [done|]. by intros ->.
    + intros M' HM'. destruct (decide (M' = M)) as [->|Hne]; [apply n_chained0; left|]. rewrite lookup_insert_ne in HM' by done. by apply n_served0.
Qed.

Lemma ustep_ninv g g' : cinv g -> ninv (c_world g) (c_tasks g) (c_delivered g) (c_found g) -> ustep kt lifo is_coordinator g g' ->
  ninv (c_world g') (c_tasks g') (c_delivered g') (c_found g').
Proof.
  intros Hi Hn ([done M|s|sv c M|i] & He & Hh); cbn in *.
  - injection Hh as <-. cbn. eapply ninv_perm; [apply Permutation_cons_append|]. destruct Hn. by constructor.
  - injection Hh as <-. cbn. eapply ninv_perm; [apply Permutation_cons_append|]. destruct Hn. by constructor.
  - injection Hh as <-. cbn. eapply ninv_perm; [apply Permutation_cons_append|]. destruct Hn, He as [Hd HC].
    assert (Hk : forall M', is_Some (c_delivered g !! M') -> is_Some ((<[M:=c]> (c_delivered g)) !! M')).
    { intros M' [v Hv]. rewrite lookup_insert_ne; [by eexists|congruence]. }
    assert (Hnew : M ∉ c_tasks g ≫= chain) by (intros HM; destruct (n_chained0 M HM) as [_ [v Hv]]; congruence).
    constructor; rewrite ?bind_cons; cbn [chain coords posts app]; try done.
    + by apply NoDup_cons.
    + intros M' [->|HM']%elem_of_cons; [|destruct (n_chained0 M' HM'); auto]. split; [|by rewrite lookup_insert_eq].
      destruct (service_scheds _ !! M) eqn:Es; [|done]. destruct (n_served0 M) as [v Hv]; [by eexists|congruence].
    + intros M' HM'. auto.
    + intros HC' M' [->|HM']%elem_of_cons; auto.
  - destruct (c_tasks g !! i) as [t|] eqn:Et; [|by injection Hh as <-]. destruct (exec _ _ _ _ _) as [[w' ts]|] eqn:Ex; [|done]. injection Hh as <-. cbn.
    eapply ninv_perm; [|eapply exec_ninv; [eapply uinv_perm; [by apply turn_tasks|exact Hi]|eapply ninv_perm; [by apply turn_tasks|exact Hn]|exact Ex]].
    rewrite !app_assoc. f_equiv. apply Permutation_app_comm.
Qed.

Lemma reach_ninv h cache g : (forall s, sched_ok kt (h s)) -> rtc (ustep kt lifo is_coordinator) (ustart h cache) g ->
  cinv g /\ ninv (c_world g) (c_tasks g) (c_delivered g) (c_found g).
Proof.
  intros Hh. revert g. apply rtc_ind_r; [|intros g0 g1 Hr Hs [Hi Hn]].
  - split; [apply ustart_cinv|]. constructor; cbn; try apply NoDup_nil_2; try done; intros *; rewrite ?lookup_empty, ?elem_of_nil; try done.
    intros _ M [HM|HM]; by apply not_elem_of_nil in HM.
  - split; [by eapply ustep_cinv|by eapply ustep_ninv].
Qed.
End nothrow.

(** ** What was found is started *)

Definition adds (t : task) : list string := match t with AddAll _ _ M => [M] | _ => [] end.
Definition collects (t : task) : list string := match t with AddAll _ _ M | Collect _ _ M => [M] | _ => [] end.

Section complete.
Context (kt : ccl_cache_key_type) (lifo is_coordinator : bool).

Record kinv (w : world) (T : list task) (called : list nat) (dl : gmap string Z) (fd : gmap string bool) : Prop := mk_kinv {
  k_delivered : forall M, is_Some (dl !! M) -> is_Some (fd !! M) \/ M ∈ T ≫= posts;
  k_found : forall M, fd !! M = Some true -> is_Some (match_id_to_comm_map (mgr w) !! M) \/ M ∈ T ≫= adds;
  k_called : forall s, s ∈ called -> fd !! match_of (scheds w) s = Some false \/ s ∈ T ≫= waits \/ s ∈ (started w).*1 ++ (T ≫= commits) \/
    (s ∈ (postponed_scheds (mgr w)).*2 /\ (fd !! match_of (scheds w) s = None \/ match_of (scheds w) s ∈ T ≫= collects));
  k_coordinator : is_coordinator = true -> forall M, fd !! M <> Some false }.

Lemma kinv_perm w T T' called dl fd : T ≡ₚ T' -> kinv w T called dl fd -> kinv w T' called dl fd.
Proof.
  intros HT []. constructor; [..|done].
  - intros M. rewrite <- HT. auto.
  - intros M. rewrite <- HT. auto.
  - intros s. rewrite <- HT. auto.
Qed.

(** Tasks that leave the postponed schedules alone. *)
Lemma keep_kinv w w' t ts R called dl fd : kinv w (t :: R) called dl fd ->
  (forall x, match_of (scheds w') x = match_of (scheds w) x) -> postponed_scheds (mgr w') = postponed_scheds (mgr w) ->
  (forall M, is_Some (match_id_to_comm_map (mgr w) !! M) -> is_Some (match_id_to_comm_map (mgr w') !! M)) ->
  (forall s, s ∈ (started w).*1 ++ commits t -> s ∈ (started w').*1 ++ (ts ≫= commits)) ->
  (forall s, s ∈ waits t -> s ∈ ts ≫= commits) -> posts t = [] -> collects t = ts ≫= collects ->
  (forall M, M ∈ adds t -> is_Some (match_id_to_comm_map (mgr w') !! M)) -> kinv w' (ts ++ R) called dl fd.
Proof.
  intros [] Hmo Hpp Hmap Hst Hw Hpo Hco Had. constructor; [..|done]; rewrite ?bind_app.
  - intros M HM. rewrite elem_of_app. destruct (k_delivered0 M HM) as [?|Hin]; [by left|]. rewrite bind_cons, Hpo in Hin. auto.
  - intros M HM. rewrite elem_of_app. destruct (k_found0 M HM) as [?|Hin]; [by left; apply Hmap|]. rewrite bind_cons, elem_of_app in Hin.
    destruct Hin as [Hin|?]; [left; by apply Had|auto].
  - intros s Hs. rewrite Hmo, Hpp, <- Hco, !elem_of_app.
    specialize (Hst s). specialize (Hw s). specialize (k_called0 s Hs). rewrite !bind_cons, !elem_of_app in k_called0. rewrite !elem_of_app in Hst. tauto.
Qed.

Lemma add_comm_grows M0 c0 m M : is_Some (match_id_to_comm_map m !! M) -> is_Some (match_id_to_comm_map (add_comm M0 c0 m) !! M).
Proof. intros HM. cbn. destruct (match_id_to_comm_map m !! M0); [done|]. rewrite lookup_insert_is_Some'. auto. Qed.

Lemma add_comm_there M c m : is_Some (match_id_to_comm_map (add_comm M c m) !! M).
Proof. cbn. destruct (match_id_to_comm_map m !! M) eqn:E; [by rewrite E|by rewrite lookup_insert_eq]. Qed.

Lemma run_sched_fields s c w w' : run_sched kt lifo s c w = Ok w' ->
  (forall x, match_of (scheds w') x = match_of (scheds w) x) /\ mgr w' = mgr w /\ started w' = started w ++ [(s, c)].
Proof.
  unfold run_sched. destruct (key_set kt _ _) as [k|]; [|done]. cbn [result_bind]. destruct (key_set kt (set_comm _ _) _) as [k'|]; [|done]. cbn [result_bind].
  destruct (if to_cache _ then _ else _) as [cache|]; [|done]. cbn [result_bind]. intros [= <-]. split_and!; [|done..].
  intros x. unfold match_of. cbn. case_decide as E; [by rewrite E|done].
Qed.

Lemma adds_collects R M : M ∈ R ≫= adds -> M ∈ R ≫= collects.
Proof. intros (t & HM & Ht)%list_elem_of_bind. apply list_elem_of_bind. exists t. split; [|done]. destruct t; try (by apply not_elem_of_nil in HM); done. Qed.

(** [postpone] found no communicator. *)
Lemma postpone_kinv w ts s R called dl fd : kinv w (Postpone s :: R) called dl fd -> match_id_to_comm_map (mgr w) !! match_of (scheds w) s = None ->
  s ∈ called -> ts = [] \/ ts = [Coordinate (match_of (scheds w) s) s] ->
  kinv (with_mgr w (postpone_sched (match_of (scheds w) s) s (mgr w))) (ts ++ R) called dl fd.
Proof.
  intros [] Hm Hc Hts.
  assert (E : ts ≫= posts = [] /\ ts ≫= adds = [] /\ ts ≫= waits = [] /\ ts ≫= commits = [] /\ ts ≫= collects = []) by (by destruct Hts; subst).
  destruct E as (E1 & E2 & E3 & E4 & E5). constructor; rewrite ?bind_app, ?E1, ?E2; try done.
  intros x Hx. rewrite ?bind_app, E3, E4, E5. cbn [with_mgr started scheds mgr postpone_sched postponed_scheds app]. rewrite fmap_app, !elem_of_app.
  specialize (k_called0 x Hx). rewrite !bind_cons, !elem_of_app in k_called0. cbn in k_called0. rewrite list_elem_of_singleton, !elem_of_nil in k_called0.
  destruct (decide (x = s)) as [->|Hne]; [|tauto]. destruct (fd !! match_of (scheds w) s) as [[]|] eqn:Ef; [|by left|].
  - do 3 right. split; [right; left|right]. destruct (k_found0 _ Ef) as [[v Hv]|HM]; [congruence|]. cbn in HM. by apply adds_collects.
  - do 3 right. split; [right; left|by left].
Qed.

(** The worker looked for a schedule that waits. *)
Lemma post_kinv w t t' R M b called dl fd : kinv w (t :: R) called dl fd -> fd !! M = None ->
  posts t = [M] -> waits t = [] -> commits t = [] -> collects t = [] -> adds t = [] ->
  waits t' = [] -> commits t' = [] -> posts t' = [] -> (if b : bool then adds t' = [M] /\ collects t' = [M] else is_coordinator = false /\ adds t' = [] /\ collects t' = []) ->
  kinv w ([t'] ++ R) called dl (<[M:=b]> fd).
Proof.
  intros [] Hn E1 E2 E3 E4 E5 F2 F3 F1 Hb. rewrite !bind_cons, ?E1, ?E5 in *. constructor; cbn [app]; rewrite ?bind_cons, ?F1.
  - intros M' HM'. destruct (decide (M' = M)) as [->|Hne]; [left; by rewrite lookup_insert_eq|]. rewrite lookup_insert_ne by done.
    destruct (k_delivered0 M' HM') as [?|Hin]; [by left|]. rewrite elem_of_app, list_elem_of_singleton in Hin. tauto.
  - intros M'. rewrite elem_of_app. destruct (decide (M' = M)) as [->|Hne].
    + rewrite lookup_insert_eq. intros [= ->]. destruct Hb as [-> _]. right. left. left.
    + rewrite lookup_insert_ne by done. intros HM'. destruct (k_found0 M' HM') as [?|Hin]; tauto.
  - intros s Hs. specialize (k_called0 s Hs). rewrite ?bind_cons, E2, E3, E4 in k_called0. rewrite ?bind_cons, F2, F3. cbn [app] in *.
    destruct (decide (match_of (scheds w) s = M)) as [EM|Hne].
    + rewrite EM, lookup_insert_eq, !elem_of_app. rewrite EM, Hn, !elem_of_app in k_called0. destruct b; [|by left]. destruct Hb as [_ ->].
      rewrite list_elem_of_singleton. destruct k_called0 as [?|?]; [done|]. tauto.
    + rewrite lookup_insert_ne by done. rewrite !elem_of_app in *. destruct b; destruct_and?; tauto.
  - intros HC M'. destruct (decide (M' = M)) as [->|Hne]; [|rewrite lookup_insert_ne by done; by apply k_coordinator0].
    rewrite lookup_insert_eq. destruct b; [done|]. destruct Hb as [? _]. congruence.
Qed.

(** The waiting schedules are taken out of the table. *)
Lemma collect_kinv w sv c M R called dl fd : kinv w (Collect sv c M :: R) called dl fd ->
  (forall M' s, (M', s) ∈ postponed_scheds (mgr w) -> M' = match_of (scheds w) s) ->
  let m := mgr w in
  kinv (with_mgr w (mk_manager (unresolved_comms m) (match_id_to_comm_map m) (filter (fun e => e.1 <> M) (postponed_scheds m)) (service_scheds m)))
    ([Run (filter (fun e => e.1 = M) (postponed_scheds m)).*2 c (Some (sv, M))] ++ R) called dl fd.
Proof.
  intros [] Hp m. constructor; cbn [app with_mgr mgr match_id_to_comm_map]; try done.
  intros s Hs. specialize (k_called0 s Hs). rewrite !bind_cons in *. cbn [with_mgr mgr scheds started postponed_scheds waits commits collects app] in *.
  destruct k_called0 as [?|[?|[Hin|[Hin Hf]]]]; [by left|auto| |].
  - do 2 right. left. rewrite !elem_of_app in *. tauto.
  - apply list_elem_of_fmap in Hin as ([M' s'] & -> & Hin). cbn. pose proof (Hp _ _ Hin) as ->. destruct (decide (match_of (scheds w) s' = M)) as [E|Hne].
    + do 2 right. left. rewrite !elem_of_app. right. left. apply list_elem_of_fmap. exists (match_of (scheds w) s', s'). split; [done|]. by apply list_elem_of_filter.
    + do 3 right. split; [apply list_elem_of_fmap; exists (match_of (scheds w) s', s'); split; [done|by apply list_elem_of_filter]|].
      cbn in Hf. rewrite elem_of_cons in Hf. tauto.
Qed.

(** Membership in the short lists of a task. *)
Ltac members := try done; try (intros ?; cbn; rewrite ?app_nil_r, ?elem_of_app, ?elem_of_cons, ?elem_of_nil; tauto).

Lemma exec_kinv w t ts w' R called dl fd : uinv w (t :: R) called dl fd -> kinv w (t :: R) called dl fd -> exec kt lifo is_coordinator t w = Ok (w', ts) ->
  kinv w' (ts ++ R) called dl (found_after t ts fd).
Proof.
  intros ([] & [Ht _]%Forall_cons & _) Hk He.
  destruct t as [s|M s|M s|M s c|done M|sv c M|sv c M|sv c M|sv c M|[|s l] c k|sv M]; cbn [exec found_after] in *; unfold_ops.
  - destruct (match_id_to_comm_map _ !! _) eqn:Em; injection He as <- <-.
    + apply (keep_kinv w _ (Postpone s)); members.
    + apply (postpone_kinv w _ s); try done; [apply i_waiting0; left|]. case_match; [by left|by right].
  - destruct (negb _); [|done]. injection He as <- <-. apply (keep_kinv w _ (Coordinate M s)); destruct is_coordinator; members.
  - destruct (unresolved_comms _ !! _); injection He as <- <-; apply (keep_kinv w _ (Resolve M s)); members.
  - injection He as <- <-. apply (keep_kinv w _ (AddRun M s c)); members. apply add_comm_grows.
  - injection He as <- <-. apply (keep_kinv w _ (GetComm done M)); members.
  - destruct Ht as [Hdl Hfd]. case_decide; [|destruct (negb is_coordinator) eqn:Ec; [|done]]; injection He as <- <-.
    + by apply (post_kinv w (Post sv c M)).
    + apply (post_kinv w (Post sv c M) (Unresolved sv c M) R M false); try done. by destruct is_coordinator.
  - injection He as <- <-. apply (keep_kinv w _ (Unresolved sv c M)); members.
  - injection He as <- <-. apply (keep_kinv w _ (AddAll sv c M)); members; [apply add_comm_grows|].
    intros M' ->%list_elem_of_singleton. apply add_comm_there.
  - injection He as <- <-. apply (collect_kinv w sv c M); [done|]. intros M' s Hs. by apply i_posted0.
  - injection He as <- <-. apply (keep_kinv w _ (Run [] c k)); destruct k as [[sv M]|]; members.
  - destruct (run_sched kt lifo s c w) as [w1|] eqn:Er; [|done]. injection He as <- <-. destruct (run_sched_fields _ _ _ _ Er) as (Hmo & Hm & Hs).
    apply (keep_kinv w _ (Run (s :: l) c k)); rewrite ?Hm, ?Hs, ?fmap_app; members.
  - case_bool_decide; [|done]. injection He as <- <-. apply (keep_kinv w _ (Serve sv M)); members.
Qed.

Lemma ustep_kinv g g' : cinv g -> kinv (c_world g) (c_tasks g) (c_called g) (c_delivered g) (c_found g) -> ustep kt lifo is_coordinator g g' ->
  kinv (c_world g') (c_tasks g') (c_called g') (c_delivered g') (c_found g').
Proof.
  intros Hi Hk ([done M|s|sv c M|i] & He & Hh); cbn in *.
  - injection Hh as <-. cbn. eapply kinv_perm; [apply Permutation_cons_append|]. destruct Hk. by constructor.
  - injection Hh as <-. cbn. eapply kinv_perm; [apply Permutation_cons_append|]. destruct Hk. constructor; try done.
    intros x [->|Hx]%elem_of_cons; [right; left; left|]. specialize (k_called0 x Hx). rewrite !bind_cons, !elem_of_app in *. tauto.
  - injection Hh as <-. cbn. eapply kinv_perm; [apply Permutation_cons_append|]. destruct Hk. constructor; try done.
    intros M' HM'. rewrite bind_cons. destruct (decide (M' = M)) as [->|Hne]; [right; left|]. rewrite lookup_insert_ne in HM' by done.
    destruct (k_delivered0 M' HM') as [?|?]; [by left|right; by right].
  - destruct (c_tasks g !! i) as [t|] eqn:Et; [|by injection Hh as <-]. destruct (exec _ _ _ _ _) as [[w' ts]|] eqn:Ex; [|done]. injection Hh as <-. cbn.
    eapply kinv_perm; [|eapply exec_kinv; [eapply uinv_perm; [by apply turn_tasks|exact Hi]|eapply kinv_perm; [by apply turn_tasks|exact Hk]|exact Ex]].
    rewrite !app_assoc. f_equiv. apply Permutation_app_comm.
Qed.

Lemma reach_kinv h cache g : rtc (ustep kt lifo is_coordinator) (ustart h cache) g ->
  cinv g /\ kinv (c_world g) (c_tasks g) (c_called g) (c_delivered g) (c_found g).
Proof.
  revert g. apply rtc_ind_r; [|intros g0 g1 Hr Hs [Hi Hn]].
  - split; [apply ustart_cinv|]. constructor; cbn; try done; intros *; rewrite ?lookup_empty, ?elem_of_nil; try done.
  - split; [by eapply ustep_cinv|by eapply ustep_kinv].
Qed.
End complete.

(** * Theorems *)

Section theorems.
Context (kt : ccl_cache_key_type) (lifo is_coordinator : bool) (h : nat -> usched) (cache : ccl_sched_cache).

(** C28: In every interleaving of the user's calls and the workers' deliveries, each schedule is started at most once, only
    after it was passed to [postpone], and on the communicator that the coordinator gave to its match id. *)
Theorem unordered_started_once g : rtc (ustep kt lifo is_coordinator) (ustart h cache) g ->
  NoDup (started (c_world g)).*1 /\
  forall s c, (s, c) ∈ started (c_world g) -> s ∈ c_called g /\ c_delivered g !! match_of (scheds (c_world g)) s = Some c.
Proof.
  intros (Hl & _ & _)%reach_cinv. destruct Hl. split; [by apply NoDup_app in i_once0 as (? & _)|].
  intros s c Hs. split; [|by apply i_started0]. apply i_committed0, elem_of_app. left. apply list_elem_of_fmap. by exists (s, c).
Qed.

(** With schedules that have a match id, a key and are not cached, no task of any interleaving throws: a waiting
    schedule is found on the coordinator, and a service schedule is recorded once. *)
Theorem unordered_never_throws g e : (forall s, sched_ok kt (h s)) -> rtc (ustep kt lifo is_coordinator) (ustart h cache) g ->
  exists g', happens kt lifo is_coordinator e g = Ok g'.
Proof.
  intros Hh [Hi Hn]%reach_ninv; [|done]. destruct e as [| | |i]; cbn; try by eexists. destruct (c_tasks g !! i) as [t|] eqn:Et; [|by eexists].
  destruct (exec_total kt lifo is_coordinator (c_world g) t (take i (c_tasks g) ++ drop (S i) (c_tasks g)) (c_called g) (c_delivered g) (c_found g)) as [r ->].
  - eapply uinv_perm; [by apply turn_tasks|exact Hi].
  - eapply ninv_perm; [by apply turn_tasks|exact Hn].
  - by eexists.
Qed.

(** C29: When all threads are done, every schedule passed to [postpone] on the coordinator whose match id was delivered has been
    started, in every interleaving; so has, on any rank, every schedule of a match id whose delivery found a schedule waiting. *)
Theorem unordered_starts_found g s c : rtc (ustep kt lifo is_coordinator) (ustart h cache) g -> c_tasks g = [] -> s ∈ c_called g ->
  c_delivered g !! match_of (scheds (c_world g)) s = Some c -> is_coordinator = true \/ c_found g !! match_of (scheds (c_world g)) s = Some true ->
  (s, c) ∈ started (c_world g).
Proof.
  intros [(Hl & _ & _) Hk]%reach_kinv Ht Hs Hd Hf. destruct Hl, Hk. rewrite Ht in *. cbn in *.
  assert (Hst : s ∈ (started (c_world g)).*1).
  { destruct (k_delivered0 _ (mk_is_Some _ _ Hd)) as [[b Hb]|Hin]; [|by apply not_elem_of_nil in Hin].
    assert (Hb' : c_found g !! match_of (scheds (c_world g)) s <> Some false) by (destruct Hf as [?|?]; [by apply k_coordinator0|congruence]).
    specialize (k_called0 s Hs). rewrite app_nil_r, !elem_of_nil in k_called0. destruct k_called0 as [?|[[]|[?|[_ [?|[]]]]]]; congruence. }
  apply list_elem_of_fmap in Hst as ([s' c'] & -> & Hin). pose proof (i_started0 _ _ Hin). cbn in *. congruence.
Qed.
End theorems.

(** * Witnesses *)

#[export] Instance enabled_dec is_coordinator e g : Decision (enabled is_coordinator e g).
Proof. destruct e; cbn; apply _. Defined.

(** Events that are all enabled lead to a reachable state. *)
Fixpoint all_enabled (kt : ccl_cache_key_type) (lifo is_coordinator : bool) (es : list event) (g : config) : bool :=
  match es with
  | [] => true
  | e :: es' => bool_decide (enabled is_coordinator e g) && match happens kt lifo is_coordinator e g with Ok g' => all_enabled kt lifo is_coordinator es' g' | Throw => false end
  end.

Lemma happen_reach kt lifo is_coordinator es g g' : all_enabled kt lifo is_coordinator es g = true -> happen kt lifo is_coordinator es g = Ok g' ->
  rtc (ustep kt lifo is_coordinator) g g'.
Proof.
  revert g. induction es as [|e es IH]; intros g Ha Hh; cbn in *; [by injection Hh as <-|].
  apply andb_true_iff in Ha as [He%bool_decide_eq_true Ha]. destruct (happens _ _ _ e g) as [g1|] eqn:E1; [|done]. cbn in Hh.
  eapply rtc_l; [by exists e|]. by apply IH.
Qed.

Definition coordinator_events : list event :=
  [Call 1; Call 2; Turn 0; Turn 1; Turn 0; Deliver 100 5 "a"; Turn 0; Turn 0; Turn 0; Turn 0; Turn 0; Turn 0; Turn 0]%string.
Definition a_config : result config :=
  happen ccl_cache_key_full true true coordinator_events (ustart (fun _ => ar_sched "a"%string) (mk_cache [] 0)).

Lemma a_config_reach : exists g, a_config = Ok g /\ rtc (ustep ccl_cache_key_full true true) (ustart (fun _ => ar_sched "a"%string) (mk_cache [] 0)) g /\
  c_tasks g = [] /\ c_called g = [2; 1]%nat /\ c_delivered g !! match_of (scheds (c_world g)) 2 = Some 5 /\ started (c_world g) = [(1%nat, 5); (2%nat, 5)].
Proof. eexists. split; [vm_compute; reflexivity|]. split; [eapply (happen_reach _ _ _ coordinator_events); vm_compute; reflexivity|]. vm_compute. auto. Qed.

Lemma unordered_started_once_witness : exists g, a_config = Ok g /\ started (c_world g) = [(1%nat, 5); (2%nat, 5)] /\ NoDup (started (c_world g)).*1.
Proof.
  destruct a_config_reach as (g & Hg & Hr & _ & _ & _ & Hs). exists g. split_and!; [exact Hg|exact Hs|].
  exact (proj1 (unordered_started_once ccl_cache_key_full true true _ _ g Hr)).
Defined.

Lemma unordered_never_throws_witness : exists g g', a_config = Ok g /\ happens ccl_cache_key_full true true (Call 7) g = Ok g'.
Proof.
  destruct a_config_reach as (g & Hg & Hr & _). destruct (unordered_never_throws ccl_cache_key_full true true (fun _ => ar_sched "a"%string) (mk_cache [] 0) g (Call 7)) as [g' Hg']; [|exact Hr|].
  - intros s. split_and!; [done|done|]. eexists. reflexivity.
  - exact (ex_intro _ g (ex_intro _ g' (conj Hg Hg'))).
Defined.

Lemma unordered_starts_found_witness : exists g, a_config = Ok g /\ (2%nat, 5) ∈ started (c_world g).
Proof.
  destruct a_config_reach as (g & Hg & Hr & Ht & Hc & Hd & _). exists g. split; [exact Hg|].
  apply (unordered_starts_found ccl_cache_key_full true true _ _ g 2 5 Hr Ht); [rewrite Hc; left|exact Hd|by left].
Defined.
