(* ===== verification/Parallelizer.v ===== *)
(** The parallelizer of [src/src/parallelizer/parallelizer.cpp]: a collective is split
    into partial schedules, one for each worker or more, that run side by side.

    [process_base] is the host build of the function with that name: how many parts, what
    each part is given.  The parts of an allreduce are built by [Coll]; with [Par] they are
    one collective.  The entries that make the partial schedules wait for each other and
    for the dependencies of the call ([sync_entry], [deps_entry]) are not modelled: a run
    with them is one of the interleavings. *)

From S2P Require Import Cache.
From S2P Require Import Prelude AtlTag Sched Network Race Bsp Build Reduction Frame Par Parts ReduceScatter Allgatherv Allreduce Doubling Nreduce SelectTable Selection Coll.
Open Scope nat_scope.
Open Scope ccl_scope.

(** * Number of parts *)

Definition CCL_ATL_LARGE_MSG_SIZE : Z := 1024 * 1024 * 1024.

(** [ccl::global_data::env()] and the member of the parallelizer; an unspecified count is [None]. *)
Record par_env := mk_par_env { bcast_part_count : option nat; max_short_size : Z; max_data_partition_count : nat }.

(** What [process_base] reads of the call; [ag_algo], [a2a_algo] and [internal_bcast] are what the selector returns for it (the unions
    for allgather and alltoall hold the values of allgatherv and alltoallv). *)
Record base_call := mk_base_call {
  bc_type : ccl_coll_type; bc_send_buf : ccl_buffer; bc_recv_buf : ccl_buffer; bc_send_count : nat; bc_recv_count : nat;
  bc_recv_counts : list nat; bc_root : nat; bc_peer_rank : nat;
  ag_algo : ccl_coll_allgatherv_algo; a2a_algo : ccl_coll_alltoallv_algo; internal_bcast : ccl_coll_bcast_algo }.

Section process.
Context (env : par_env) (dtype_size comm_size : nat).
Abbreviation max_parts := (max_data_partition_count env).
Implicit Types c : base_call.

Definition msg_bytes (count : nat) : Z := Z.of_nat count * Z.of_nat dtype_size.
Definition is_short (count : nat) : bool := (msg_bytes count <=? max_short_size env)%Z || (count <? max_parts).
Definition large_parts (count : nat) : nat := Nat.max (Z.to_nat (msg_bytes count / CCL_ATL_LARGE_MSG_SIZE)) max_parts.

Definition multi_bcast_direct c : bool :=
  bool_decide (ag_algo c = ccl_coll_allgatherv_multi_bcast) && bool_decide (internal_bcast c = ccl_coll_bcast_direct).

Definition part_count c : result nat :=
  let split := if is_short (bc_send_count c) then 1 else large_parts (bc_send_count c) in
  match bc_type c with
  | ccl_coll_barrier => Ok max_parts
  | ccl_coll_bcast | ccl_coll_broadcast => Ok (match bcast_part_count env with Some p => p | None => split end)
  | ccl_coll_reduce | ccl_coll_allreduce => Ok split
  | ccl_coll_alltoall | ccl_coll_alltoallv =>
    Ok (match a2a_algo c with ccl_coll_alltoallv_direct => 1 | _ => Nat.min comm_size max_parts end)
  | ccl_coll_allgather | ccl_coll_allgatherv =>
    match ag_algo c with
    | ccl_coll_allgatherv_direct | ccl_coll_allgatherv_naive => Ok 1
    | ccl_coll_allgatherv_ring => Ok (if is_short (bc_send_count c) then 1 else max_parts)
    | ccl_coll_allgatherv_multi_bcast | ccl_coll_allgatherv_flat => Ok (if multi_bcast_direct c then max_parts else comm_size)
    | ccl_coll_allgatherv_topo => Throw
    end
  | ccl_coll_reduce_scatter => Ok 1
  | ccl_coll_recv | ccl_coll_send => Ok (large_parts (bc_send_count c))
  | ccl_coll_partial | ccl_coll_undefined => Throw
  end.

(** * Counts and offsets of the parts *)

(** [counts] and [offsets] for data split evenly, the remainder in the last part; no parts is a division by zero. *)
Definition even_parts (total parts : nat) : result (list (nat * nat)) :=
  if parts =? 0 then Throw else
  let base_count := total / parts in
  Ok ((fun idx => (if idx =? parts - 1 then base_count + total mod parts else base_count, idx * base_count * dtype_size)) <$> seq 0 parts).

(** [counts[idx] = count; offsets[idx] = offset;], undefined outside of the vectors. *)
Definition set_part (v : list (nat * nat)) (idx count offset : nat) : result (list (nat * nat)) :=
  if idx <? length v then Ok (<[idx := (count, offset)]> v) else Throw.

(** [std::vector::resize] *)
Definition resize {A} (l : list A) (n : nat) (x : A) : list A := take n l ++ replicate (n - length l) x.

(** [for (idx = 1; idx < comm_size; idx++)] of allgather and allgatherv. *)
Fixpoint rank_parts (n idx : nat) (recv_counts : list nat) (v : list (nat * nat)) : result (list (nat * nat)) :=
  match n with
  | O => Ok v
  | S n' =>
    match recv_counts !! idx, v !! (idx - 1) with
    | Some count, Some (prev_count, prev_offset) =>
      v' <-! set_part v idx count (prev_offset + prev_count * dtype_size) ;; rank_parts n' (S idx) recv_counts v'
    | _, _ => Throw
    end
  end.

Definition counts_offsets c (parts : nat) : result (list (nat * nat)) :=
  let size := if bool_decide (bc_type c = ccl_coll_allgatherv) && multi_bcast_direct c then comm_size else parts in
  let v := replicate size (0, 0) in
  match bc_type c with
  | ccl_coll_barrier => Ok v
  | ccl_coll_bcast | ccl_coll_broadcast | ccl_coll_reduce | ccl_coll_allreduce | ccl_coll_reduce_scatter | ccl_coll_recv =>
    even_parts (bc_recv_count c) parts
  | ccl_coll_send => even_parts (bc_send_count c) parts
  | ccl_coll_alltoall | ccl_coll_alltoallv => Ok v
  | ccl_coll_allgather | ccl_coll_allgatherv =>
    match bc_recv_counts c !! 0 with
    | None => Throw
    | Some count =>
      v' <-! set_part v 0 count 0 ;;
      let recv_counts := if bool_decide (bc_type c = ccl_coll_allgather)
                         then resize (bc_recv_counts c) comm_size (bc_send_count c) else bc_recv_counts c in
      match ag_algo c with
      | ccl_coll_allgatherv_direct | ccl_coll_allgatherv_naive | ccl_coll_allgatherv_ring => Ok v'
      | _ => rank_parts (comm_size - 1) 1 recv_counts v'
      end
    end
  | ccl_coll_partial | ccl_coll_undefined => Throw
  end.

(** * What the parts are given *)

(** The [ccl_coll_param] of [ccl::add_coll_entry]. *)
Record part_param := mk_part { pt_type : ccl_coll_type; pt_send : ccl_buffer; pt_recv : ccl_buffer; pt_count : nat; pt_root : nat; pt_peer : nat }.

Inductive part_builder :=
| build_ring_allgatherv | build_flat_allgatherv | build_multi_bcast_allgatherv | build_naive_alltoallv | build_scatter_alltoallv.

(** One entry for each part, one entry in the first part, or a builder that fills the parts itself. *)
Inductive base_work := each_part (l : list part_param) | first_part (p : part_param) | all_parts (b : part_builder).

Definition part_of c (p : nat * nat) : part_param :=
  let send := bc_send_buf c +b p.2 in let recv := bc_recv_buf c +b p.2 in
  match bc_type c with
  | ccl_coll_bcast => mk_part ccl_coll_bcast null_buffer recv p.1 (bc_root c) 0
  | ccl_coll_broadcast => mk_part ccl_coll_broadcast send recv p.1 (bc_root c) 0
  | ccl_coll_reduce => mk_part ccl_coll_reduce send recv p.1 (bc_root c) 0
  | ccl_coll_recv => mk_part ccl_coll_recv null_buffer recv p.1 0 (bc_peer_rank c)
  | ccl_coll_send => mk_part ccl_coll_send send null_buffer p.1 0 (bc_peer_rank c)
  | t => mk_part t send recv p.1 0 0
  end.

Definition process_base c : result (nat * base_work) :=
  parts <-! part_count c ;;
  v <-! counts_offsets c parts ;;
  match bc_type c with
  | ccl_coll_barrier => Ok (parts, each_part (replicate parts (mk_part ccl_coll_barrier null_buffer null_buffer 0 0 0)))
  | ccl_coll_bcast | ccl_coll_broadcast | ccl_coll_reduce | ccl_coll_reduce_scatter | ccl_coll_allreduce | ccl_coll_recv | ccl_coll_send =>
    Ok (parts, each_part (part_of c <$> v))
  | ccl_coll_allgather | ccl_coll_allgatherv =>
    match ag_algo c with
    | ccl_coll_allgatherv_direct | ccl_coll_allgatherv_naive =>
      Ok (parts, first_part (mk_part (bc_type c) (bc_send_buf c) (bc_recv_buf c) (bc_send_count c) 0 0))
    | ccl_coll_allgatherv_ring => Ok (parts, all_parts build_ring_allgatherv)
    | ccl_coll_allgatherv_flat => Ok (parts, all_parts build_flat_allgatherv)
    | ccl_coll_allgatherv_multi_bcast => Ok (parts, all_parts build_multi_bcast_allgatherv)
    | ccl_coll_allgatherv_topo => Throw
    end
  | ccl_coll_alltoall | ccl_coll_alltoallv =>
    match a2a_algo c with
    | ccl_coll_alltoallv_naive => Ok (parts, all_parts build_naive_alltoallv)
    | ccl_coll_alltoallv_scatter => Ok (parts, all_parts build_scatter_alltoallv)
    | _ => Ok (parts, first_part (mk_part (bc_type c) (bc_send_buf c) (bc_recv_buf c) (bc_send_count c) 0 0))
    end
  | ccl_coll_partial | ccl_coll_undefined => Throw
  end.
End process.

(** * New buffers of the builders *)

#[export] Instance fresh_reduce_scatter_block env dsz P r send recv count : Fresh (ccl_coll_build_reduce_scatter_block env dsz P r send recv count).
Proof. unfold ccl_coll_build_reduce_scatter_block, rs_block_iter, rs_block_chunk. fresh_by. Qed.

#[export] Instance fresh_ring_allgatherv env dsz P r send n recv counts : Fresh (ccl_coll_build_ring_allgatherv env dsz P r send n recv counts).
Proof. unfold ccl_coll_build_ring_allgatherv. fresh_by. Qed.

#[export] Instance fresh_naive_allgatherv env dsz P r send n recv counts : Fresh (ccl_coll_build_naive_allgatherv env dsz P r send n recv counts).
Proof. unfold ccl_coll_build_naive_allgatherv. fresh_by. Qed.

#[export] Instance fresh_ring_allreduce env dsz P r send recv count : Fresh (ccl_coll_build_ring_allreduce env dsz P r send recv count).
Proof. unfold ccl_coll_build_ring_allreduce. fresh_by. Qed.

#[export] Instance fresh_doubling_loop fuel pof2 rem newrank count tmp recv mask : Fresh (doubling_loop fuel pof2 rem newrank count tmp recv mask).
Proof. revert mask. induction fuel as [|fuel IH]; intros mask; cbn; fresh_by. Qed.

#[export] Instance fresh_doubling dsz P pof2 r send recv count : Fresh (ccl_coll_build_recursive_doubling_allreduce dsz P pof2 r send recv count).
Proof. unfold ccl_coll_build_recursive_doubling_allreduce. fresh_by. Qed.

#[export] Instance fresh_nreduce_segments env dsz P r inp send recv tmp off l : Fresh (nreduce_segments env dsz P r inp send recv tmp off l).
Proof. revert off. induction l as [|n l IH]; intros off; cbn; [apply _|]. unfold nreduce_segment. fresh_by. Qed.

#[export] Instance fresh_nreduce env dsz P r send recv count : Fresh (ccl_coll_build_nreduce_allreduce env dsz P r send recv count).
Proof. unfold ccl_coll_build_nreduce_allreduce. fresh_by. Qed.

(** * Even parts *)

Section even.
Context (total parts : nat) (Hparts : 0 < parts).

Definition even_part_size (k : nat) : nat := if k =? parts - 1 then total / parts + total mod parts else total / parts.
Definition even_part_first (k : nat) : nat := k * (total / parts).

Lemma even_parts_eq dtype_size : even_parts dtype_size total parts = Ok ((fun k => (even_part_size k, even_part_first k * dtype_size)) <$> seq 0 parts).
Proof using Hparts. unfold even_parts. destruct (Nat.eqb_spec parts 0); [lia|]. done. Qed.

Lemma even_part_end k : k < parts -> even_part_first k + even_part_size k = if k =? parts - 1 then total else even_part_first (S k).
Proof using Hparts.
  intros Hk. unfold even_part_first, even_part_size. pose proof (Nat.div_mod_eq total parts). destruct (Nat.eqb_spec k (parts - 1)); [|lia].
  subst k. assert (parts = S (parts - 1)) as E by lia. nia.
Qed.

Lemma first_mono k j : k <= j -> even_part_first k <= even_part_first j.
Proof. unfold even_part_first. nia. Qed.

Lemma even_part_inside k : k < parts -> even_part_first k + even_part_size k <= total.
Proof using Hparts.
  intros Hk. rewrite even_part_end by done. destruct (Nat.eqb_spec k (parts - 1)); [done|]. unfold even_part_first. pose proof (Nat.div_mod_eq total parts). nia.
Qed.

Lemma even_part_before k j : k < j < parts -> even_part_first k + even_part_size k <= even_part_first j.
Proof using Hparts. intros Hk. rewrite even_part_end by lia. destruct (Nat.eqb_spec k (parts - 1)); [lia|]. apply first_mono. lia. Qed.

Lemma even_part_covers i : i < total -> exists k, k < parts /\ even_part_first k <= i < even_part_first k + even_part_size k.
Proof using Hparts.
  intros Hi. destruct (decide (i < even_part_first (parts - 1))) as [Hlt|Hge].
  - unfold even_part_first in Hlt. assert (Hb : total / parts <> 0) by nia. exists (i / (total / parts)).
    assert (Hk : i / (total / parts) < parts - 1) by (apply Nat.Div0.div_lt_upper_bound; nia).
    split; [lia|]. rewrite even_part_end by lia. destruct (Nat.eqb_spec (i / (total / parts)) (parts - 1)); [lia|]. unfold even_part_first.
    pose proof (Nat.div_mod_eq i (total / parts)). pose proof (Nat.mod_upper_bound i (total / parts) Hb). nia.
  - exists (parts - 1). split; [lia|]. rewrite even_part_end by lia. rewrite Nat.eqb_refl. lia.
Qed.

Lemma even_part_pos k : parts <= total -> 0 < even_part_size k.
Proof using Hparts. intros H. unfold even_part_size. pose proof (Nat.div_str_pos total parts ltac:(lia)). destruct (k =? parts - 1); lia. Qed.
End even.

(** * An allreduce in parts *)

(** [ccl_coll_param::create_allreduce_param]; the selected algorithms are not read. *)
Definition allreduce_call (send recv : ccl_buffer) (count : nat) : base_call :=
  mk_base_call ccl_coll_allreduce send recv count count [count] 0 0 ccl_coll_allgatherv_naive ccl_coll_alltoallv_naive ccl_coll_bcast_naive.

Definition split_count (penv : par_env) (dsz count : nat) : nat := if is_short penv dsz count then 1 else large_parts penv dsz count.

Lemma split_count_pos penv dsz count : 0 < max_data_partition_count penv -> 0 < split_count penv dsz count.
Proof. unfold split_count, large_parts. destruct (is_short _ _ _); lia. Qed.

Lemma large_quotient dsz count : (Z.of_nat dsz <= CCL_ATL_LARGE_MSG_SIZE)%Z -> Z.to_nat (msg_bytes dsz count / CCL_ATL_LARGE_MSG_SIZE) <= count.
Proof.
  intros Hd. unfold msg_bytes, CCL_ATL_LARGE_MSG_SIZE in *. apply Nat2Z.inj_le. rewrite Z2Nat.id by (apply Z.div_pos; lia). apply Z.div_le_upper_bound; nia.
Qed.

Lemma split_count_le penv dsz count : 0 < count -> (Z.of_nat dsz <= CCL_ATL_LARGE_MSG_SIZE)%Z -> split_count penv dsz count <= count.
Proof.
  intros Hc Hd. unfold split_count, is_short. destruct (_ <=? _)%Z; [done|]. destruct (Nat.ltb_spec count (max_data_partition_count penv)); [done|]. cbn [orb].
  unfold large_parts. pose proof (large_quotient dsz count Hd). lia.
Qed.

Lemma process_allreduce penv dsz P send recv count : 0 < max_data_partition_count penv ->
  process_base penv dsz P (allreduce_call send recv count) =
  Ok (split_count penv dsz count, each_part (part_of (allreduce_call send recv count) <$>
    ((fun k => (even_part_size count (split_count penv dsz count) k, even_part_first count (split_count penv dsz count) k * dsz)) <$> seq 0 (split_count penv dsz count)))).
Proof.
  intros Hm. unfold process_base, part_count, counts_offsets. cbn [bc_type allreduce_call bc_send_count bc_recv_count]. fold (split_count penv dsz count).
  cbn [result_bind]. rewrite even_parts_eq by (by apply split_count_pos). done.
Qed.

(** [coll_entry::build_sched] *)
Section build_sched.
Context (senv : sel_env) (env : ccl_env) (dsz : nat) (is_float16 : bool) (comm_size pof2 rank : nat)
  (allreduce_sel : ccl_algorithm_selector_base ccl_coll_allreduce_algo) (reduce_sel : ccl_algorithm_selector_base ccl_coll_reduce_algo)
  (reduce_scatter_sel : ccl_algorithm_selector_base ccl_coll_reduce_scatter_algo)
  (other_allreduce : ccl_coll_allreduce_algo -> build unit) (other_reduce : ccl_coll_reduce_algo -> build unit)
  (other_reduce_scatter : ccl_coll_reduce_scatter_algo -> build unit) (other_coll : part_param -> build unit).

Definition build_sched (p : part_param) : build unit :=
  match pt_type p with
  | ccl_coll_allreduce =>
    ccl_coll_build_allreduce senv env dsz is_float16 comm_size pof2 rank allreduce_sel None other_allreduce (pt_send p) (pt_recv p) (pt_count p) false
  | ccl_coll_reduce =>
    ccl_coll_build_reduce senv env dsz is_float16 comm_size pof2 rank reduce_sel None other_reduce (pt_send p) (pt_recv p) (pt_count p) (pt_root p) false
  | ccl_coll_reduce_scatter =>
    ccl_coll_build_reduce_scatter senv env dsz is_float16 comm_size pof2 rank reduce_scatter_sel None other_reduce_scatter
      (pt_send p) (pt_recv p) (pt_count p) false false
  | _ => other_coll p
  end.
End build_sched.

#[export] Instance fresh_ofi_builder env dsz f16 P pof2 count r sb rb : Fresh (ofi_builder env dsz f16 P pof2 count r sb rb).
Proof. unfold ofi_builder. case_match; apply _. Qed.

(** * Theorems *)

Section theorems.
Context {V : Type} (op : V -> V -> V) (senv : sel_env) (env : ccl_env) (penv : par_env) (dsz : nat) (is_float16 : bool) (P pof2 : nat).
Context (reduce_sel : ccl_algorithm_selector_base ccl_coll_reduce_algo) (reduce_scatter_sel : ccl_algorithm_selector_base ccl_coll_reduce_scatter_algo)
  (other_ar : nat -> ccl_coll_allreduce_algo -> build unit) (other_r : nat -> ccl_coll_reduce_algo -> build unit)
  (other_rs : nat -> ccl_coll_reduce_scatter_algo -> build unit) (other_coll : nat -> part_param -> build unit).
Context (send recv : nat -> ccl_buffer) (nx : nat -> nat) (x : nat -> nat -> V) (count : nat).
Implicit Types m : gmap (nat * nat) V.

(** What the coll entry of a part builds on rank [r]. *)
Definition build_part (sel : ccl_algorithm_selector_base ccl_coll_allreduce_algo) (r : nat) (p : part_param) : build unit :=
  build_sched senv env dsz is_float16 P pof2 r sel reduce_sel reduce_scatter_sel (other_ar r) (other_r r) (other_rs r) (other_coll r) p.

Abbreviation parts := (split_count penv dsz count).
Abbreviation psize k := (even_part_size count parts k).
Abbreviation pfirst k := (even_part_first count parts k).
Definition psend (k r : nat) : ccl_buffer := send r +b pfirst k * dsz.
Definition precv (k r : nat) : ccl_buffer := recv r +b pfirst k * dsz.

Lemma part_bufs_ok k nxk r : bufs_ok send recv nx r -> nx r <= nxk r -> bufs_ok (psend k) (precv k) nxk r.
Proof. unfold bufs_ok, psend, precv. cbn. intros ([? ?] & [? ?] & [E|E]) ?; (split; [lia|]; split; [lia|]); [left; by rewrite E|by right]. Qed.

Lemma parts_regions_apart k j r : 0 < dsz -> 0 < parts -> bufs_ok send recv nx r -> k < parts -> j < parts -> k <> j ->
  all_apart dsz [(psend k r, psize k); (precv k r, psize k)] [(psend j r, psize j); (precv j r, psize j)].
Proof.
  intros Hd Hp (_ & _ & Hsr) Hk Hj Hne.
  assert (Hb : forall b, apart dsz (b +b pfirst k * dsz, psize k) (b +b pfirst j * dsz, psize j)).
  { intros b. apply apart_sub. destruct (decide (k < j)); [left|right]; apply even_part_before; lia. }
  apply all_apart_Forall. unfold psend, precv.
  destruct Hsr as [->|Hsr]; repeat match goal with |- Forall _ [] => apply Forall_nil_2 | |- Forall _ _ => apply Forall_cons; split end;
    first [apply Hb|apply apart_src; cbn; congruence].
Qed.

(** C6: An allreduce over OFI with the default tables, from the parallelizer on: the data is cut into parts, an algorithm is selected for each part
    (not the same for all when the sizes differ), the parts are built, and whatever way the partial schedules of the workers interleave, all of them
    end and every rank has the reduction over all ranks of all the data. *)
Theorem partitioned_allreduce_correct :
  ofi_default senv is_float16 -> 0 < dsz -> (Z.of_nat dsz <= CCL_ATL_LARGE_MSG_SIZE)%Z -> 0 < P -> (Z.of_nat P < 2 ^ 31)%Z ->
  AtlTag.pof2 (Z.of_nat P) = Some (Z.of_nat pof2) -> 0 < count -> 0 < max_data_partition_count penv ->
  Assoc (=) op -> Comm (=) op -> (forall r, r < P -> bufs_ok send recv nx r) ->
  exists sel work scheds, allreduce_selector senv = Returns sel /\
    (forall r, r < P -> process_base penv dsz P (allreduce_call (send r) (recv r) count) = Ok (parts, each_part (work r)) /\
       build_parts (nx r) (build_part sel r <$> work r) = Ok (scheds r)) /\
    forall ms : nat -> gmap (nat * nat) V,
      (forall r, r < P -> arr dsz (ms r) (send r) count (x r) /\ (exists g, arr dsz (ms r) (recv r) count g) /\
         Forall (fun s => Forall (allocated dsz (ms r)) (allocs s)) (scheds r)) ->
      par_collective op dsz P parts (fun _ => []) (fun k r => part_prog (scheds r) k) ms
        (fun r m => arr dsz m (recv r) count (fun i => reduce_ranks op P (fun q => x q i))).
Proof using Type.
  intros Hdef Hd HdL HP Hlt Hp Hc Hm Ha Hcm Hok. pose proof (split_count_pos penv dsz count Hm) as Hpos. pose proof (split_count_le penv dsz count Hc HdL) as Hle.
  pose (bld := fun k r => build_part ofi_allreduce r (part_of (allreduce_call (send r) (recv r) count) (psize k, pfirst k * dsz))).
  destruct (parts_collective op dsz P parts Hd bld nx (fun k r => [(psend k r, psize k); (precv k r, psize k)])
    (fun k r m => arr dsz m (psend k r) (psize k) (fun i => x r (pfirst k + i)) /\ exists g, arr dsz m (precv k r) (psize k) g)
    (fun k r m => arr dsz m (precv k r) (psize k) (fun i => reduce_ranks op P (fun q => x q (pfirst k + i))))) as (scheds & Hb & Hcol).
  - intros k nxk Hk Hnx. eapply (implements_ext _ _ _ _ (fun r => ofi_builder env dsz is_float16 P pof2 (psize k) r (psend k r) (precv k r)));
      [intros r s _; by apply ofi_allreduce_build|].
    apply (ofi_builder_reduces op env dsz is_float16 P pof2 (psend k) (precv k) nxk (fun r i => x r (pfirst k + i))); try done.
    + by apply even_part_pos.
    + intros r Hr. apply part_bufs_ok; [by apply Hok|by apply Hnx].
  - intros k r Hk Hr s a s' E. unfold bld, build_part, build_sched in E. cbn [pt_type part_of bc_type allreduce_call] in E. rewrite ofi_allreduce_build in E by done.
    by eapply fresh.
  - intros k r y Hk Hr Hy. destruct (Hok r Hr) as ([? ?] & [? ?] & _). rewrite !elem_of_cons, elem_of_nil in Hy. destruct Hy as [->|[->|[]]]; cbn; lia.
  - intros k j r Hk Hj Hne Hr. by apply parts_regions_apart; [| |apply Hok|..].
  - intros k r rs m Hk Hr Hsub [H1 [g H2]]. split; [|exists g]; apply restrict_arr; try done; apply Hsub; set_solver.
  - exists ofi_allreduce, (fun r => part_of (allreduce_call (send r) (recv r) count) <$> ((fun k => (psize k, pfirst k * dsz)) <$> seq 0 parts)), scheds.
    split; [apply ofi_allreduce_selector, Hdef|]. split.
    + intros r Hr. split; [by apply process_allreduce|]. rewrite <- Hb by done. f_equal. rewrite <- !list_fmap_compose. done.
    + intros ms Hms. eapply par_weaken; [|apply Hcol].
      * intros r m Hr Hpost i Hi. destruct (even_part_covers count parts Hpos i Hi) as (k & Hk & Hki). destruct (Hpost k Hk) as (m0 & Hm0 & Harr).
        pose proof (arr_larger dsz _ _ _ _ _ Hm0 Harr (i - pfirst k) ltac:(lia)) as Hv. cbv beta in Hv. unfold precv in Hv. rewrite cell_add in Hv.
        by replace (pfirst k + (i - pfirst k)) with i in Hv by lia.
      * intros r Hr. destruct (Hms r Hr) as (H1 & [g H2] & H3). split; [|done]. intros k Hk. pose proof (even_part_inside count parts Hpos k Hk).
        split; [|exists (fun i => g (pfirst k + i))]; eapply arr_sub; done.
Qed.
End theorems.

(** * Sizes of the parts *)

Section sizes.
Context (penv : par_env) (dsz P : nat).

(** The collectives whose number of parts follows the size of the message. *)
Definition split_by_size (c : base_call) : bool :=
  match bc_type c with
  | ccl_coll_reduce | ccl_coll_allreduce | ccl_coll_recv | ccl_coll_send => true
  | ccl_coll_bcast | ccl_coll_broadcast => match bcast_part_count penv with Some _ => false | None => true end
  | _ => false
  end.

(** Few parts of a message are at most three halves of the limit, one part less than twice the limit. *)
Definition enough_parts (count parts : nat) : Prop :=
  0 < parts /\ (Z.of_nat parts * Z.of_nat dsz <= 2 ^ 29)%Z /\ (msg_bytes dsz count < (Z.of_nat parts + 1) * CCL_ATL_LARGE_MSG_SIZE)%Z.

Lemma large_parts_enough count : 0 < max_data_partition_count penv ->
  (Z.of_nat (max_data_partition_count penv) * Z.of_nat dsz <= 2 ^ 29)%Z -> (msg_bytes dsz count * Z.of_nat dsz <= 2 ^ 59)%Z ->
  enough_parts count (large_parts penv dsz count).
Proof.
  intros Hm Hmd Hb. unfold enough_parts, large_parts. set (b := msg_bytes dsz count) in *. assert (0 <= b)%Z by (unfold b, msg_bytes; lia).
  pose proof (Z.div_mod b CCL_ATL_LARGE_MSG_SIZE ltac:(done)) as Hdm. pose proof (Z.mod_pos_bound b CCL_ATL_LARGE_MSG_SIZE ltac:(done)).
  pose proof (Z.div_pos b CCL_ATL_LARGE_MSG_SIZE ltac:(done) ltac:(done)). set (q := (b / CCL_ATL_LARGE_MSG_SIZE)%Z) in *.
  unfold CCL_ATL_LARGE_MSG_SIZE in *. rewrite Nat2Z.inj_max, Z2Nat.id by done. split; [lia|]. split; [|nia].
  apply Z.max_case_strong; intros; nia.
Qed.

Lemma enough_parts_fit count parts k : enough_parts count parts -> k < parts -> (msg_bytes dsz (even_part_size count parts k) < 2 ^ 31)%Z.
Proof.
  intros (Hp & Hpd & Hb) Hk. assert (Hle : even_part_size count parts k <= count / parts + count mod parts) by (unfold even_part_size; case_match; lia).
  pose proof (Nat.div_mod_eq count parts) as Hdm. pose proof (Nat.mod_upper_bound count parts ltac:(lia)).
  unfold msg_bytes, CCL_ATL_LARGE_MSG_SIZE in *. destruct (decide (parts = 1)) as [->|Hne]; [nia|].
  assert (Hq : (Z.of_nat (count / parts) * Z.of_nat dsz < 3 * 2 ^ 29)%Z) by nia. nia.
Qed.

(** The number of parts of a call that is split by its size. *)
Lemma split_enough c : split_by_size c = true -> 0 < max_data_partition_count penv -> (max_short_size penv < 2 ^ 31)%Z ->
  (Z.of_nat (max_data_partition_count penv) * Z.of_nat dsz <= 2 ^ 29)%Z -> (msg_bytes dsz (bc_send_count c) * Z.of_nat dsz <= 2 ^ 59)%Z ->
  exists parts, part_count penv dsz P c = Ok parts /\ enough_parts (bc_send_count c) parts.
Proof.
  intros Hc Hm Hs Hmd Hb. pose proof (large_parts_enough _ Hm Hmd Hb) as Hl.
  assert (Hsplit : enough_parts (bc_send_count c) (if is_short penv dsz (bc_send_count c) then 1 else large_parts penv dsz (bc_send_count c))).
  { destruct (is_short _ _ _) eqn:E; [|done]. unfold is_short in E. apply orb_true_iff in E. rewrite Z.leb_le, Nat.ltb_lt in E.
    unfold enough_parts, msg_bytes, CCL_ATL_LARGE_MSG_SIZE in *. nia. }
  unfold split_by_size in Hc. unfold part_count. destruct (bc_type c), (bcast_part_count penv); by try (eexists; split; [reflexivity|]).
Qed.

Lemma even_parts_sum count parts : 0 < parts -> sum_list (even_part_size count parts <$> seq 0 parts) = count.
Proof.
  intros Hp. destruct parts as [|n]; [lia|]. rewrite seq_S, fmap_app, sum_list_with_app. cbn [fmap list_fmap sum_list_with].
  replace (even_part_size count (S n) <$> seq 0 n) with (replicate n (count / S n)).
  - rewrite sum_list_replicate. unfold id, even_part_size. rewrite (proj2 (Nat.eqb_eq (0 + n) (S n - 1)) ltac:(lia)). pose proof (Nat.div_mod_eq count (S n)). lia.
  - apply list_eq. intros i. rewrite list_lookup_fmap. destruct (decide (i < n)).
    + rewrite lookup_replicate_2, lookup_seq_lt by done. cbn. f_equal. unfold even_part_size. by rewrite (proj2 (Nat.eqb_neq i (S n - 1)) ltac:(lia)).
    + rewrite lookup_seq_ge, (proj1 (lookup_replicate_None _ _ _)) by lia. done.
Qed.

(** A call that is split by its size is split into parts whose counts are together the count of the call, and no part has 2 GB or more, the
    largest message a transport takes with an [int] for the size; also with the remainder of the division, which is all in the last part. *)
Theorem parts_fit_transport c : split_by_size c = true -> bc_recv_count c = bc_send_count c ->
  0 < max_data_partition_count penv -> (max_short_size penv < 2 ^ 31)%Z ->
  (Z.of_nat (max_data_partition_count penv) * Z.of_nat dsz <= 2 ^ 29)%Z -> (msg_bytes dsz (bc_send_count c) * Z.of_nat dsz <= 2 ^ 59)%Z ->
  exists parts l, process_base penv dsz P c = Ok (parts, each_part l) /\ length l = parts /\ 0 < parts /\
    sum_list (pt_count <$> l) = bc_send_count c /\ Forall (fun p => msg_bytes dsz (pt_count p) < 2 ^ 31)%Z l.
Proof.
  intros Hc Heq Hm Hs Hmd Hb. destruct (split_enough c Hc Hm Hs Hmd Hb) as (parts & Hpc & He). pose proof He as (Hp & _).
  set (v := (fun k => (even_part_size (bc_send_count c) parts k, even_part_first (bc_send_count c) parts k * dsz)) <$> seq 0 parts).
  assert (Hco : counts_offsets dsz P c parts = Ok v).
  { unfold counts_offsets, split_by_size in *. destruct (bc_type c), (bcast_part_count penv); try done; rewrite ?Heq; by apply even_parts_eq. }
  assert (Hcount : pt_count <$> (part_of c <$> v) = even_part_size (bc_send_count c) parts <$> seq 0 parts).
  { unfold v. rewrite <- !list_fmap_compose. apply list_fmap_ext. intros _ k _. unfold compose, part_of. by destruct (bc_type c). }
  exists parts, (part_of c <$> v). split.
  { unfold process_base. rewrite Hpc. cbn [result_bind]. rewrite Hco. unfold split_by_size in Hc. by destruct (bc_type c), (bcast_part_count penv). }
  split; [unfold v; by rewrite !length_fmap, length_seq|]. split; [done|]. split; [rewrite Hcount; by apply even_parts_sum|].
  apply (proj1 (Forall_fmap pt_count (fun n => msg_bytes dsz n < 2 ^ 31)%Z _)). rewrite Hcount. apply Forall_fmap, Forall_seq. intros k Hk. apply enough_parts_fit; [done|lia].
Qed.
End sizes.

(** A process with four workers. *)
Definition penv_ex : par_env := mk_par_env None 0 4.

Lemma partitioned_allreduce_correct_witness :
  exists sel work scheds, allreduce_selector sample_env = Returns sel /\
    (forall r, r < 7 -> process_base penv_ex 4 7 (allreduce_call (send_ex r) (recv_ex r) 3000) = Ok (split_count penv_ex 4 3000, each_part (work r)) /\
       build_parts (nx_ex r) (build_part sample_env env_ex 4 false 7 4 (mk_selector [] [] []) (mk_selector [] [] []) (fun _ _ => throw) (fun _ _ => throw) (fun _ _ => throw)
         (fun _ _ => throw) sel r <$> work r) = Ok (scheds r)) /\
    forall ms : nat -> gmap (nat * nat) nat,
      (forall r, r < 7 -> arr 4 (ms r) (send_ex r) 3000 (x_ex r) /\ (exists g, arr 4 (ms r) (recv_ex r) 3000 g) /\
         Forall (fun s => Forall (allocated 4 (ms r)) (allocs s)) (scheds r)) ->
      par_collective Nat.add 4 7 (split_count penv_ex 4 3000) (fun _ => []) (fun k r => part_prog (scheds r) k) ms
        (fun r m => arr 4 m (recv_ex r) 3000 (fun i => reduce_ranks Nat.add 7 (fun q => x_ex q i))).
Proof.
  apply (partitioned_allreduce_correct Nat.add sample_env env_ex penv_ex 4 false 7 4); [by split_and!|lia|done|lia|lia|vm_compute; reflexivity|
    apply Nat.ltb_lt; vm_compute; reflexivity|cbn; lia|exact _|exact _|]. intros r _. apply bufs_ex.
Defined.

Definition send_call_ex : base_call :=
  mk_base_call ccl_coll_send null_buffer null_buffer 403 403 [] 0 1 ccl_coll_allgatherv_naive ccl_coll_alltoallv_naive ccl_coll_bcast_naive.

Lemma parts_fit_transport_witness :
  exists parts l, process_base penv_ex 8 2 send_call_ex = Ok (parts, each_part l) /\ length l = parts /\ 0 < parts /\
    sum_list (pt_count <$> l) = 403 /\ Forall (fun p => msg_bytes 8 (pt_count p) < 2 ^ 31)%Z l.
Proof. apply (parts_fit_transport penv_ex 8 2 send_call_ex); [done|done|cbn; lia|done|done|done]. Defined.

(** The remainder is in the last part. *)
Example send_parts : part_count penv_ex 8 2 send_call_ex = Ok 4 /\
  counts_offsets 8 2 send_call_ex 4 = Ok [(100, 0); (100, 800); (100, 1600); (103, 2400)].
Proof. vm_compute. done. Qed.

(** A bcast with [CCL_BCAST_PART_COUNT=0], a value that the environment does not refuse: the size of a part is a division by zero. *)
Theorem no_parts_divides dsz P c : bc_type c = ccl_coll_bcast -> forall short workers, process_base (mk_par_env (Some 0) short workers) dsz P c = Throw.
Proof. intros E short workers. unfold process_base, part_count, counts_offsets. by rewrite E. Qed.

(** An allgather whose selected algorithm is multi_bcast over direct bcasts: [counts] has an element for each part, of which there are as many as
    workers, but the loop of the ranks sets an element for each rank; allgatherv has the larger vector. *)
Example allgather_multi_bcast_overruns :
  let call t := mk_base_call t null_buffer null_buffer 10 10 [10; 10; 10; 10] 0 0 ccl_coll_allgatherv_multi_bcast ccl_coll_alltoallv_naive ccl_coll_bcast_direct in
  let env := mk_par_env None 0 2 in
  process_base env 4 4 (call ccl_coll_allgather) = Throw /\ process_base env 4 4 (call ccl_coll_allgatherv) = Ok (2, all_parts build_multi_bcast_allgatherv).
Proof. vm_compute. done. Qed.
