(* ===== verification/BufferCache.v ===== *)
(** The buffers of schedules: [src/src/sched/buffer/buffer_cache.cpp] and [buffer_manager.cpp], in a host build.

    A pointer is a number, null is 0; what [CCL_MALLOC] returns is an argument of the operations, and the steps take it to be a block
    that is not allocated.  [get] and [push] are the critical sections of the cache's lock. *)

From S2P Require Import Prelude.
Open Scope nat_scope.
Open Scope ccl_scope.

(** * The cache *)

(** A buffer: its size and its pointer. *)
Definition block : Type := nat * nat.

Section cache.
Context (enable_buffer_cache : bool).

(** [regular_buffer_cache::get]: the cache, the pointer, and whether it is a new allocation. *)
Definition reg_get (cache : list block) (bytes malloc : nat) : list block * nat * bool :=
  if enable_buffer_cache then
    match list_find (fun b : nat * nat => b.1 = bytes) cache with
    | Some (i, b) => (delete i cache, b.2, false)
    | None => (cache, malloc, true)
    end
  else (cache, malloc, true).

(** [regular_buffer_cache::push]: the cache, and whether the buffer is freed. *)
Definition reg_push (cache : list block) (bytes ptr : nat) : list block * bool :=
  if enable_buffer_cache then (cache ++ [(bytes, ptr)], false) else (cache, true).

(** [regular_buffer_cache::clear]: the pointers that are freed. *)
Definition reg_clear (cache : list block) : list block * list nat := ([], cache.*2).

(** [buffer_cache::get] and [push]: an instance for the index; a cache without instances divides by zero. *)
Definition instance (n idx : nat) : result nat := if n =? 0 then Throw else Ok (idx mod n).

Definition buf_get (caches : list (list block)) (idx bytes malloc : nat) : result (list (list block) * nat * bool) :=
  i <-! instance (length caches) idx ;;
  match caches !! i with
  | None => Throw
  | Some cache => let '(cache', ptr, new) := reg_get cache bytes malloc in Ok (<[i := cache']> caches, ptr, new)
  end.

Definition buf_push (caches : list (list block)) (idx bytes ptr : nat) : result (list (list block) * bool) :=
  i <-! instance (length caches) idx ;;
  match caches !! i with
  | None => Throw
  | Some cache => let '(cache', freed) := reg_push cache bytes ptr in Ok (<[i := cache']> caches, freed)
  end.

(** * The manager of a schedule *)

Inductive buffer_type := buffer_regular | buffer_sycl | buffer_ze | buffer_unknown.
Inductive buffer_place := place_host | place_device | place_shared | place_unknown.

Record alloc_param := mk_alloc_param { ap_bytes : nat; ap_type : buffer_type; ap_place : buffer_place; ap_managed : bool }.
Record dealloc_param := mk_dealloc_param { dp_ptr : nat; dp_bytes : nat; dp_type : buffer_type }.

Record buffer_manager := mk_manager { instance_idx : nat; regular_buffers : list block }.

(** [buffer_manager::alloc]: the caches, the manager, the pointer, and whether it is a new allocation.  Other types of buffers leave a null pointer, which throws. *)
Definition alloc (caches : list (list block)) (m : buffer_manager) (p : alloc_param) (malloc : nat) : result (list (list block) * buffer_manager * nat * bool) :=
  throw_if_not (0 <? ap_bytes p) ;;
  throw_if_not (match ap_type p with buffer_unknown => false | _ => true end) ;;
  throw_if_not (match ap_place p with place_unknown => false | _ => true end) ;;
  match ap_type p with
  | buffer_regular =>
    throw_if_not (match ap_place p with place_host => true | _ => false end) ;;
    r <-! buf_get caches (instance_idx m) (ap_bytes p) malloc ;;
    let '(caches', ptr, new) := r in
    let m' := if ap_managed p then mk_manager (instance_idx m) (regular_buffers m ++ [(ap_bytes p, ptr)]) else m in
    throw_if_not (negb (ptr =? 0)) ;; Ok (caches', m', ptr, new)
  | _ => Throw
  end.

(** [buffer_manager::dealloc] *)
Definition dealloc (caches : list (list block)) (m : buffer_manager) (p : dealloc_param) : result (list (list block) * bool) :=
  throw_if_not (negb (dp_ptr p =? 0)) ;;
  throw_if_not (0 <? dp_bytes p) ;;
  throw_if_not (match dp_type p with buffer_unknown => false | _ => true end) ;;
  match dp_type p with
  | buffer_regular => buf_push caches (instance_idx m) (dp_bytes p) (dp_ptr p)
  | _ => Ok (caches, false)
  end.

(** [buffer_manager::clear]: the loop over [regular_buffers]; the pointers that are freed. *)
Fixpoint push_all (caches : list (list block)) (idx : nat) (l : list block) : result (list (list block) * list nat) :=
  match l with
  | [] => Ok (caches, [])
  | b :: l' =>
    r <-! buf_push caches idx b.1 b.2 ;;
    rest <-! push_all r.1 idx l' ;; Ok (rest.1, (if r.2 : bool then [b.2] else []) ++ rest.2)
  end.

Definition clear (caches : list (list block)) (m : buffer_manager) : result (list (list block) * buffer_manager * list nat) :=
  r <-! push_all caches (instance_idx m) (regular_buffers m) ;; Ok (r.1, mk_manager (instance_idx m) [], r.2).

(** * Schedules that share the cache *)

(** [bw_loose]: buffers that schedules hold without a manager; [bw_heap]: the allocated blocks with their sizes. *)
Record bworld := mk_bworld { bw_caches : list (list block); bw_managers : list buffer_manager; bw_loose : list block; bw_heap : gmap nat nat }.

(** The operations of schedules [k] on the caches. *)
Inductive bop := op_init (idx : nat) | op_alloc (k : nat) (p : alloc_param) | op_dealloc (k : nat) (p : dealloc_param) | op_clear (k : nat) | op_flush (i : nat).

(** [dealloc] takes any pointer, size and type its checks let through. *)
Inductive bstep : bop -> bworld -> bworld -> Prop :=
| b_init cs ms loose heap idx : bstep (op_init idx) (mk_bworld cs ms loose heap) (mk_bworld cs (ms ++ [mk_manager idx []]) loose heap)
| b_alloc cs ms loose heap k m p malloc cs' m' ptr new : ms !! k = Some m -> heap !! malloc = None ->
    alloc cs m p malloc = Ok (cs', m', ptr, new) ->
    bstep (op_alloc k p) (mk_bworld cs ms loose heap)
      (mk_bworld cs' (<[k := m']> ms) (if ap_managed p then loose else (ap_bytes p, ptr) :: loose) (if new : bool then <[ptr := ap_bytes p]> heap else heap))
| b_dealloc cs ms loose heap k m p cs' freed : ms !! k = Some m -> dealloc cs m p = Ok (cs', freed) ->
    bstep (op_dealloc k p) (mk_bworld cs ms loose heap)
      (mk_bworld cs' ms (filter (fun b => b.2 <> dp_ptr p) loose) (if freed : bool then delete (dp_ptr p) heap else heap))
| b_clear cs ms loose heap k m cs' m' freed : ms !! k = Some m -> clear cs m = Ok (cs', m', freed) ->
    bstep (op_clear k) (mk_bworld cs ms loose heap) (mk_bworld cs' (<[k := m']> ms) loose (foldr delete heap freed))
| b_flush cs ms loose heap i cache : cs !! i = Some cache ->
    bstep (op_flush i) (mk_bworld cs ms loose heap) (mk_bworld (<[i := (reg_clear cache).1]> cs) ms loose (foldr delete heap (reg_clear cache).2)).

(** The discipline of the callers of [dealloc], which it does not check: the buffer was allocated without a manager, has not been
    returned since, and is returned with its size and its type. *)
Definition disciplined (w : bworld) (o : bop) : Prop :=
  match o with op_dealloc _ p => dp_type p = buffer_regular /\ (dp_bytes p, dp_ptr p) ∈ bw_loose w | _ => True end.

Definition any_step (w w' : bworld) : Prop := exists o, bstep o w w'.
Definition disciplined_step (w w' : bworld) : Prop := exists o, disciplined w o /\ bstep o w w'.

Definition bstart (instance_count : nat) : bworld := mk_bworld (replicate instance_count []) [] [] ∅.

(** The buffers of the schedules, and all buffers. *)
Definition held (w : bworld) : list block := (bw_managers w ≫= regular_buffers) ++ bw_loose w.
Definition all_blocks (w : bworld) : list block := concat (bw_caches w) ++ held w.

(** * Lemmas *)

(** Every buffer is an allocated block of its size and is in one place only. *)
Definition blocks_ok (l : list block) (heap : gmap nat nat) : Prop := NoDup l.*2 /\ Forall (fun b => heap !! b.2 = Some b.1) l.

Lemma blocks_perm l l' heap : Permutation l l' -> blocks_ok l heap -> blocks_ok l' heap.
Proof. intros Hp [H1 H2]. split; by rewrite <- Hp. Qed.

Lemma blocks_new l heap bytes ptr : heap !! ptr = None -> blocks_ok l heap -> blocks_ok ((bytes, ptr) :: l) (<[ptr := bytes]> heap).
Proof.
  intros Hn [H1 H2]. rewrite Forall_forall in H2. split; cbn.
  - constructor; [|done]. intros (b & -> & Hb)%list_elem_of_fmap. rewrite (H2 _ Hb) in Hn. done.
  - constructor; [by simplify_map_eq|]. apply Forall_forall. intros b Hb. rewrite lookup_insert_ne; [by apply H2|]. intros ->. rewrite (H2 _ Hb) in Hn. done.
Qed.

Lemma foldr_delete_other (l : list nat) (heap : gmap nat nat) p : p ∉ l -> foldr delete heap l !! p = heap !! p.
Proof. induction l as [|q l IH]; [done|]. intros H%not_elem_of_cons. cbn. rewrite lookup_delete_ne by (intros ->; tauto). apply IH. tauto. Qed.

Lemma blocks_free l l' heap : blocks_ok (l ++ l') heap -> blocks_ok l' (foldr delete heap l.*2).
Proof.
  intros [H1 H2]. rewrite fmap_app, NoDup_app in H1. destruct H1 as (_ & Hd & H1). apply Forall_app in H2 as [_ H2]. split; [done|].
  rewrite Forall_forall in *. intros b Hb. rewrite foldr_delete_other; [by apply H2|]. intros Hin. eapply Hd; [done|]. by apply list_elem_of_fmap_2.
Qed.

(** An element of a list of lists in another place. *)
Lemma concat_at {A} (cs : list (list A)) i c : cs !! i = Some c -> exists rest, forall c', Permutation (concat (<[i := c']> cs)) (c' ++ rest).
Proof.
  intros E. exists (concat (take i cs) ++ concat (drop (S i) cs)). intros c'. rewrite insert_take_drop by (by eapply lookup_lt_Some). rewrite concat_app. cbn.
  rewrite !app_assoc. apply Permutation_app_tail, Permutation_app_comm.
Qed.

Lemma bind_at (ms : list buffer_manager) k m : ms !! k = Some m -> exists rest, forall m', Permutation (<[k := m']> ms ≫= regular_buffers) (regular_buffers m' ++ rest).
Proof.
  intros E. exists ((take k ms ≫= regular_buffers) ++ (drop (S k) ms ≫= regular_buffers)). intros m'. rewrite insert_take_drop by (by eapply lookup_lt_Some).
  rewrite bind_app, bind_cons. rewrite !app_assoc. apply Permutation_app_tail, Permutation_app_comm.
Qed.

Lemma buf_get_blocks cs idx bytes malloc cs' ptr new : buf_get cs idx bytes malloc = Ok (cs', ptr, new) ->
  if new then cs' = cs /\ ptr = malloc else Permutation (concat cs) ((bytes, ptr) :: concat cs').
Proof.
  unfold buf_get, instance. destruct (_ =? 0); [done|]. cbn [result_bind]. set (i := idx mod length cs). destruct (cs !! i) as [cache|] eqn:E; [|done].
  destruct (reg_get cache bytes malloc) as [[cache' p] n] eqn:Eg. intros [= <- <- <-]. unfold reg_get in Eg.
  assert (Hnew : (cache, malloc, true) = (cache', p, n) -> if n then <[i := cache']> cs = cs /\ p = malloc else Permutation (concat cs) ((bytes, p) :: concat (<[i := cache']> cs))).
  { intros [= <- <- <-]. by rewrite list_insert_id. }
  destruct enable_buffer_cache; [|by apply Hnew]. destruct (list_find (fun b : nat * nat => b.1 = bytes) cache) as [[j b]|] eqn:Ef; [|by apply Hnew]. injection Eg as <- <- <-.
  apply list_find_Some in Ef as (Hj & <- & _). destruct (concat_at cs i cache E) as [rest Hr]. rewrite Hr. rewrite <- (list_insert_id cs i cache E) at 1. rewrite Hr.
  replace (b.1, b.2) with b by (by destruct b). exact (Permutation_app_tail rest (delete_Permutation cache j b Hj)).
Qed.

Lemma buf_push_blocks cs idx bytes ptr cs' freed : buf_push cs idx bytes ptr = Ok (cs', freed) ->
  freed = negb enable_buffer_cache /\ if freed then cs' = cs else Permutation (concat cs') ((bytes, ptr) :: concat cs).
Proof.
  unfold buf_push, instance. destruct (_ =? 0); [done|]. cbn [result_bind]. set (i := idx mod length cs). destruct (cs !! i) as [cache|] eqn:E; [|done].
  unfold reg_push. destruct enable_buffer_cache; intros [= <- <-]; (split; [done|]); [|by rewrite list_insert_id].
  destruct (concat_at cs i cache E) as [rest Hr]. rewrite Hr. rewrite <- (list_insert_id cs i cache E) at 1. rewrite Hr. by rewrite (Permutation_app_comm cache), <- app_assoc.
Qed.

Lemma push_all_blocks cs idx l cs' freed : push_all cs idx l = Ok (cs', freed) ->
  if enable_buffer_cache then freed = [] /\ Permutation (concat cs') (l ++ concat cs) else freed = l.*2 /\ cs' = cs.
Proof.
  revert cs cs' freed. induction l as [|b l IH]; intros cs cs' freed; cbn [push_all]; [intros [= <- <-]; by case_match|].
  destruct (buf_push cs idx b.1 b.2) as [[cs1 f1]|] eqn:E; [|done]. cbn [result_bind fst snd]. destruct (push_all cs1 idx l) as [[cs2 f2]|] eqn:E2; [|done].
  intros [= <- <-]. apply buf_push_blocks in E as [-> H]. apply IH in E2. destruct enable_buffer_cache; cbn in *.
  - destruct E2 as [-> E2]. split; [done|]. rewrite E2, H. replace (b.1, b.2) with b by (by destruct b). by rewrite Permutation_middle.
  - destruct E2 as [-> ->]. by rewrite H.
Qed.

Lemma alloc_blocks cs m p malloc cs' m' ptr new : alloc cs m p malloc = Ok (cs', m', ptr, new) ->
  m' = (if ap_managed p then mk_manager (instance_idx m) (regular_buffers m ++ [(ap_bytes p, ptr)]) else m) /\
  if new then cs' = cs /\ ptr = malloc else Permutation (concat cs) ((ap_bytes p, ptr) :: concat cs').
Proof.
  unfold alloc. destruct (0 <? ap_bytes p); [|done]. destruct (ap_type p), (ap_place p); try done. cbn [result_bind].
  destruct (buf_get cs (instance_idx m) (ap_bytes p) malloc) as [[[cs1 p1] n1]|] eqn:E; [|done]. cbn [result_bind]. destruct (negb _); [|done].
  intros [= <- <- <- <-]. split; [done|]. by eapply buf_get_blocks.
Qed.

(** The buffers after an allocation. *)
Lemma alloc_all ms loose heap k m p malloc cs cs' m' ptr new : ms !! k = Some m -> alloc cs m p malloc = Ok (cs', m', ptr, new) ->
  let w' := mk_bworld cs' (<[k := m']> ms) (if ap_managed p then loose else (ap_bytes p, ptr) :: loose) heap in
  Permutation (all_blocks w') (if new then (ap_bytes p, ptr) :: all_blocks (mk_bworld cs ms loose heap) else all_blocks (mk_bworld cs ms loose heap)).
Proof.
  intros Hk Ha. apply alloc_blocks in Ha as [-> Hn]. destruct (bind_at ms k m Hk) as [rest Hr]. unfold all_blocks, held. cbn.
  assert (Hh : Permutation ((<[k := if ap_managed p then mk_manager (instance_idx m) (regular_buffers m ++ [(ap_bytes p, ptr)]) else m]> ms ≫= regular_buffers) ++
    (if ap_managed p then loose else (ap_bytes p, ptr) :: loose)) ((ap_bytes p, ptr) :: (ms ≫= regular_buffers) ++ loose)).
  { rewrite <- (list_insert_id ms k m Hk) at 2. rewrite !Hr. destruct (ap_managed p); cbn.
    - rewrite (Permutation_app_comm (regular_buffers m)), <- !app_assoc. done.
    - by rewrite <- Permutation_middle. }
  rewrite Hh. destruct new; [destruct Hn as [-> _]|rewrite Hn]; by rewrite <- Permutation_middle.
Qed.

Lemma filter_absent (l : list block) ptr : ptr ∉ l.*2 -> filter (fun b : block => b.2 <> ptr) l = l.
Proof.
  induction l as [|b l IH]; [done|]. cbn [fmap list_fmap]. intros [H1 H2]%not_elem_of_cons. rewrite filter_cons_True by (by apply not_eq_sym). by rewrite IH.
Qed.

(** Dropping a block that is in a list once. *)
Lemma filter_out (l : list block) bytes ptr : NoDup l.*2 -> (bytes, ptr) ∈ l -> Permutation l ((bytes, ptr) :: filter (fun b : block => b.2 <> ptr) l).
Proof.
  induction l as [|[y q] l IH]; [by intros _ ?%not_elem_of_nil|]. cbn [fmap list_fmap snd]. intros [Hn Hd]%NoDup_cons [[= <- <-]|Hin]%elem_of_cons.
  - rewrite filter_cons_False by (cbn; tauto). by rewrite filter_absent.
  - rewrite filter_cons_True; [|cbn; intros ->; apply Hn; by apply (list_elem_of_fmap_2 snd) in Hin]. rewrite perm_swap. by constructor; apply IH.
Qed.

Lemma bstep_ok w w' : disciplined_step w w' -> blocks_ok (all_blocks w) (bw_heap w) -> blocks_ok (all_blocks w') (bw_heap w').
Proof.
  intros (o & Hdis & Hs) H. destruct Hs as [cs ms loose heap idx|cs ms loose heap k m p malloc cs' m' ptr new Hk Hm Ha|cs ms loose heap k m [ptr bytes ty] cs' freed Hk Hd|
    cs ms loose heap k m cs' m' freed Hk Hc|cs ms loose heap i cache Hi]; cbn [bw_heap] in *.
  - unfold all_blocks, held in *. cbn in *. by rewrite bind_app, app_nil_r.
  - pose proof (alloc_all ms loose heap k m p malloc cs cs' m' ptr new Hk Ha) as Hp. apply alloc_blocks in Ha as [_ Hn].
    change (blocks_ok (all_blocks (mk_bworld cs' (<[k := m']> ms) (if ap_managed p then loose else (ap_bytes p, ptr) :: loose) heap))
      (if new then <[ptr := ap_bytes p]> heap else heap)).
    eapply blocks_perm; [by symmetry|]. destruct new; [|done]. destruct Hn as [-> ->]. by apply blocks_new.
  - destruct Hdis as [Hty Hin]. cbn in Hty, Hin. subst ty. unfold dealloc in Hd. cbn [dp_ptr dp_bytes dp_type] in *. destruct (negb _), (0 <? bytes); try done.
    apply buf_push_blocks in Hd as [_ Hd]. unfold all_blocks, held in *. cbn in *. assert (Hp : Permutation loose ((bytes, ptr) :: filter (fun b : block => b.2 <> ptr) loose)).
    { apply filter_out; [|done]. destruct H as [H _]. rewrite !fmap_app, !NoDup_app in H. tauto. }
    set (loose' := filter _ loose) in *. assert (H' : blocks_ok (concat cs ++ (ms ≫= regular_buffers) ++ (bytes, ptr) :: loose') heap)
      by (eapply blocks_perm; [|exact H]; by rewrite <- Hp). clearbody loose'. clear H Hp Hin. destruct freed.
    + subst cs'. apply (blocks_free [(bytes, ptr)]). eapply blocks_perm; [|exact H']. cbn. by rewrite !app_assoc, <- Permutation_middle.
    + eapply blocks_perm; [|exact H']. rewrite Hd. cbn. by rewrite !app_assoc, <- Permutation_middle.
  - unfold clear in Hc. destruct (push_all cs (instance_idx m) (regular_buffers m)) as [[cs1 f1]|] eqn:E; [|done]. cbn in Hc. injection Hc as <- <- <-.
    apply push_all_blocks in E. destruct (bind_at ms k m Hk) as [rest Hr]. unfold all_blocks, held in *. cbn in *.
    rewrite <- (list_insert_id ms k m Hk) in H. destruct enable_buffer_cache; destruct E as [-> E].
    + eapply blocks_perm; [|exact H]. rewrite E, !Hr. cbn. rewrite (Permutation_app_comm (regular_buffers m) (concat cs)), <- !app_assoc. done.
    + subst cs1. apply blocks_free. eapply blocks_perm; [|exact H]. rewrite !Hr. cbn. rewrite !app_assoc. by rewrite (Permutation_app_comm (concat cs)).
  - destruct (concat_at cs i cache Hi) as [rest Hr]. unfold all_blocks, held in *. cbn in *. apply blocks_free. eapply blocks_perm; [|exact H].
    rewrite Hr. rewrite <- (list_insert_id cs i cache Hi) at 1. rewrite Hr. cbn. by rewrite <- !app_assoc.
Qed.

(** C27: However schedules allocate buffers, return those that they allocated without their manager, once and with their size, and are destroyed, and
    instances of the cache are cleared, with and without the cache: no two buffers that schedules hold are the same block, no block is held and
    at the same time in a cache, and every buffer held is an allocated block of the size that was asked for. *)
Theorem buffers_exclusive n w : rtc disciplined_step (bstart n) w ->
  NoDup (held w).*2 /\ (forall b, b ∈ held w -> bw_heap w !! b.2 = Some b.1 /\ b.2 ∉ (concat (bw_caches w)).*2).
Proof.
  intros Hr. assert (H : blocks_ok (all_blocks w) (bw_heap w)).
  { assert (H0 : blocks_ok (all_blocks (bstart n)) (bw_heap (bstart n))).
    { assert (E : concat (replicate n ([] : list block)) = []) by (clear; induction n as [|n IH]; [done|exact IH]).
      unfold all_blocks, held. cbn. rewrite E. by split; constructor. }
    induction Hr as [|w1 w2 w3 Hs Hr IH]; [done|]. apply IH. by eapply bstep_ok. }
  destruct H as [H1 H2]. unfold all_blocks in *. rewrite fmap_app, NoDup_app in H1. destruct H1 as (_ & Hd & H1). apply Forall_app in H2 as [_ H2]. split; [done|].
  rewrite Forall_forall in H2. intros b Hb. split; [by apply H2|]. intros Hin. eapply Hd; [done|]. by apply list_elem_of_fmap_2.
Qed.
End cache.

(** Two schedules: the first allocates a buffer with its manager and one without, returns the second, and is destroyed; the second schedule gets both buffers. *)
Lemma buffers_exclusive_witness : exists w, bw_loose w = [(64, 7); (64, 5)] /\ NoDup (held w).*2 /\
  (forall b, b ∈ held w -> bw_heap w !! b.2 = Some b.1 /\ b.2 ∉ (concat (bw_caches w)).*2).
Proof.
  eexists. split; [|apply (buffers_exclusive true 2)].
  2: { eapply rtc_l; [exists (op_init 0); split; [exact I|apply b_init]|]. eapply rtc_l; [exists (op_init 2); split; [exact I|apply b_init]|].
       eapply rtc_l; [exists (op_alloc 0 (mk_alloc_param 64 buffer_regular place_host true)); split; [exact I|]; eapply b_alloc with (malloc := 7); [reflexivity|reflexivity|vm_compute; reflexivity]|].
       eapply rtc_l; [exists (op_alloc 0 (mk_alloc_param 64 buffer_regular place_host false)); split; [exact I|]; eapply b_alloc with (malloc := 5); [reflexivity|reflexivity|vm_compute; reflexivity]|].
       eapply rtc_l; [exists (op_dealloc 0 (mk_dealloc_param 5 64 buffer_regular)); split; [split; [reflexivity|apply list_elem_of_here]|]; eapply b_dealloc; [reflexivity|vm_compute; reflexivity]|].
       eapply rtc_l; [exists (op_clear 0); split; [exact I|]; eapply b_clear; [reflexivity|vm_compute; reflexivity]|].
       eapply rtc_l; [exists (op_alloc 1 (mk_alloc_param 64 buffer_regular place_host false)); split; [exact I|]; eapply b_alloc with (malloc := 9); [reflexivity|reflexivity|vm_compute; reflexivity]|].
       eapply rtc_l; [exists (op_alloc 1 (mk_alloc_param 64 buffer_regular place_host false)); split; [exact I|]; eapply b_alloc with (malloc := 9); [reflexivity|reflexivity|vm_compute; reflexivity]|].
       apply rtc_refl. }
  reflexivity.
Defined.

(** The discipline is needed: a schedule that returns a buffer of its manager with [dealloc] returns it again when it is destroyed, and its next two buffers are the same block. *)
Theorem undisciplined_shared : exists w, rtc (any_step true) (bstart 1) w /\ held w = [(64, 5); (64, 5)].
Proof.
  eexists. split.
  - eapply rtc_l; [exists (op_init 0); apply b_init|].
    eapply rtc_l; [exists (op_alloc 0 (mk_alloc_param 64 buffer_regular place_host true)); eapply b_alloc with (malloc := 5); [reflexivity|reflexivity|vm_compute; reflexivity]|].
    eapply rtc_l; [exists (op_dealloc 0 (mk_dealloc_param 5 64 buffer_regular)); eapply b_dealloc; [reflexivity|vm_compute; reflexivity]|].
    eapply rtc_l; [exists (op_clear 0); eapply b_clear; [reflexivity|vm_compute; reflexivity]|].
    do 2 (eapply rtc_l; [exists (op_alloc 0 (mk_alloc_param 64 buffer_regular place_host true)); eapply b_alloc with (malloc := 9); [reflexivity|reflexivity|vm_compute; reflexivity]|]).
    apply rtc_refl.
  - reflexivity.
Qed.
