(* ===== verification/Fusion.v ===== *)
(** The fusion manager of [src/src/fusion/fusion.cpp]: small allreduces of a user are collected and started as one.

    The user thread adds schedules to [postponed_queue]; the service worker moves them to [exec_queue] and, when that is to be
    flushed, builds a fused schedule.  Every rank does so by itself and at its own times, so the ranks have to come to the same
    groups.  The executor's [wait] and [test] ([src/src/exec/exec.cpp]) mark requests as urgent. *)

From Stdlib Require Import String.
From stdpp Require Import strings list sorting.
From S2P Require Import Prelude Cache.
Open Scope nat_scope.
Open Scope ccl_scope.

(** * The manager *)

(** What the manager reads of a schedule of the user; pointers, streams and datatypes are numbers. *)
Record user_sched := mk_user_sched {
  us_id : nat; us_ctype : ccl_coll_type; us_count : nat; us_dtype : nat; us_comm : nat; us_reduction : nat; us_stream : nat;
  us_deps : nat; us_reduction_fn : bool; us_synchronous : bool; us_to_cache : bool; us_match_id : string; us_priority : nat }.

#[export] Instance user_sched_eq_dec : EqDecision user_sched.
Proof. solve_decision. Defined.

Record ccl_fusion_manager := mk_fusion { postponed_queue : list user_sched; exec_queue : list user_sched; exec_queue_sum_bytes : nat }.

Definition empty_fusion : ccl_fusion_manager := mk_fusion [] [] 0.

(** What [build_sched] finds in the schedule cache: nothing, a fused schedule that is completed, or one that still runs. *)
Inductive cache_answer := not_cached | cached_completed | cached_running.

#[export] Instance cache_answer_eq_dec : EqDecision cache_answer.
Proof. solve_decision. Defined.

(** The cache is used when all schedules of the group want it. *)
Definition use_cache (g : list user_sched) : bool := forallb us_to_cache g.

Section fusion.
Context (dtype_size : nat -> nat) (bytes_threshold count_threshold : nat) (enable_hmem fusion_check_urgent : bool) (worker_count : nat).
Implicit Types (m : ccl_fusion_manager) (s : user_sched) (l : list user_sched).

Definition buffer_size : nat := bytes_threshold * count_threshold.

Definition us_bytes s : nat := us_count s * dtype_size (us_dtype s).

Definition can_fuse s : bool :=
  if enable_hmem then false
  else if negb (bool_decide (us_ctype s = ccl_coll_allreduce)) then false
  else if bytes_threshold <=? us_bytes s then false
  else if negb (us_deps s =? 0) then false
  else negb (us_reduction_fn s || us_synchronous s).

(** [add], with the result of [is_completed]; the counter of the request is then 1. *)
Definition add m s (is_completed : bool) : result (bool * ccl_fusion_manager) :=
  if can_fuse s
  then throw_if_not is_completed ;; Ok (true, mk_fusion (postponed_queue m ++ [s]) (exec_queue m) (exec_queue_sum_bytes m))
  else Ok (false, m).

Definition same_kind (first : user_sched) s : bool :=
  (us_dtype s =? us_dtype first) && (us_comm s =? us_comm first) && bool_decide (us_ctype s = us_ctype first) &&
  (us_reduction s =? us_reduction first) && (us_stream s =? us_stream first).

(** The loop over [postponed_queue]: [exec_queue], its bytes, the flag and what stays postponed. *)
Fixpoint collect (urgent : nat -> bool) (first : user_sched) (exec : list user_sched) (sum : nat) (flush : bool) (l : list user_sched)
  : list user_sched * nat * bool * list user_sched :=
  match l with
  | [] => (exec, sum, flush, [])
  | s :: l' =>
    if same_kind first s then
      if buffer_size <? sum + us_bytes s then (exec, sum, true, l)
      else
        let flush' := if fusion_check_urgent && negb flush && urgent (us_id s) then true else flush in
        let exec' := exec ++ [s] in
        if length exec' =? count_threshold then (exec', sum + us_bytes s, true, l')
        else collect urgent first exec' (sum + us_bytes s) flush' l'
    else
      let '(exec', sum', flush', kept) := collect urgent first exec sum flush l' in (exec', sum', flush', s :: kept)
  end.

(** The recheck of [exec_queue] for requests that have become urgent. *)
Definition recheck m (urgent : nat -> bool) : bool := fusion_check_urgent && existsb (fun s => urgent (us_id s)) (exec_queue m).

(** The block with the lock. *)
Definition fill_exec_queue m (flush : bool) (urgent : nat -> bool) : ccl_fusion_manager * bool :=
  match postponed_queue m, exec_queue m with
  | [], _ => (m, flush)
  | s :: l, [] =>
    let '(exec, sum, flush', kept) := collect urgent s [s] (us_bytes s) flush l in (mk_fusion kept exec sum, flush')
  | l, first :: _ =>
    let '(exec, sum, flush', kept) := collect urgent first (exec_queue m) (exec_queue_sum_bytes m) flush l in (mk_fusion kept exec sum, flush')
  end.

Definition clear_exec_queue m : ccl_fusion_manager := mk_fusion (postponed_queue m) [] 0.

(** The checks of [build_sched] on the group and on what it finds in the cache: it throws on an empty queue, and on a fused schedule in the cache that still runs
    when there is one worker; with more workers it waits for that schedule to complete and goes on. *)
Definition build_sched (g : list user_sched) (found : cache_answer) : result unit :=
  throw_if_not (negb (bool_decide (g = []))) ;;
  if use_cache g && bool_decide (found = cached_running)
  then if 1 <? worker_count then Ok tt else Throw
  else Ok tt.

(** [execute] after the recheck: the schedules that are started as one, if there are any. *)
Definition fill_and_flush m (flush : bool) (urgent : nat -> bool) (found : cache_answer) : result (ccl_fusion_manager * option (list user_sched)) :=
  let '(m', flush') := fill_exec_queue m flush urgent in
  if flush' then _ <-! build_sched (exec_queue m') found ;; Ok (clear_exec_queue m', Some (exec_queue m'))
  else Ok (m', None).


(** * A user thread and the service worker *)

Inductive ucmd := Call s | Wait (i : nat) | Test (i : nat).

(** [fw_busy]: the requests with a counter of 1; [fw_running]: those whose fused schedule has been started; [fw_waiting]: the user is in the
    loop of [wait]; [fw_flag]: the worker is between the recheck and the lock. *)
Record fworld := mk_fworld {
  fw_m : ccl_fusion_manager; fw_urgent : gset nat; fw_busy : gset nat; fw_running : gset nat; fw_prog : list ucmd; fw_waiting : bool;
  fw_flag : option bool; fw_started : list (list user_sched) }.

Definition urgent_in (u : gset nat) (i : nat) : bool := bool_decide (i ∈ u).
Definition ids l : gset nat := list_to_set (us_id <$> l).

Inductive fstep : fworld -> fworld -> Prop :=
| f_call m u b rn s prog fl gs m' : add m s (bool_decide (us_id s ∉ b)) = Ok (true, m') ->
    fstep (mk_fworld m u b rn (Call s :: prog) false fl gs) (mk_fworld m' u ({[us_id s]} ∪ b) rn prog false fl gs)
| f_direct m u b rn s prog fl gs m' : add m s (bool_decide (us_id s ∉ b)) = Ok (false, m') ->
    fstep (mk_fworld m u b rn (Call s :: prog) false fl gs) (mk_fworld m' u b rn prog false fl gs)
| f_wait m u b rn i prog fl gs :
    fstep (mk_fworld m u b rn (Wait i :: prog) false fl gs) (mk_fworld m ({[i]} ∪ u) b rn (Wait i :: prog) true fl gs)
| f_waited m u b rn i prog fl gs : i ∉ b ->
    fstep (mk_fworld m u b rn (Wait i :: prog) true fl gs) (mk_fworld m (u ∖ {[i]}) b rn prog false fl gs)
| f_test m u b rn i prog fl gs : i ∈ b ->
    fstep (mk_fworld m u b rn (Test i :: prog) false fl gs) (mk_fworld m ({[i]} ∪ u) b rn prog false fl gs)
| f_tested m u b rn i prog fl gs : i ∉ b ->
    fstep (mk_fworld m u b rn (Test i :: prog) false fl gs) (mk_fworld m (u ∖ {[i]}) b rn prog false fl gs)
| f_recheck m u b rn prog w gs :
    fstep (mk_fworld m u b rn prog w None gs) (mk_fworld m u b rn prog w (Some (recheck m (urgent_in u))) gs)
| f_fill m u b rn prog w flush gs m' g found : fill_and_flush m flush (urgent_in u) found = Ok (m', g) ->
    fstep (mk_fworld m u b rn prog w (Some flush) gs)
          (mk_fworld m' u b (rn ∪ match g with Some l => ids l | None => ∅ end) prog w None (gs ++ option_list g))
| f_complete m u b rn prog w fl gs i : i ∈ rn ->
    fstep (mk_fworld m u b rn prog w fl gs) (mk_fworld m u (b ∖ {[i]}) (rn ∖ {[i]}) prog w fl gs).

Definition fstart (prog : list ucmd) : fworld := mk_fworld empty_fusion ∅ ∅ ∅ prog false None [].

(** * The groups of a program *)

(** The next group of the calls [p]: the kind of the first, in order; whether it is complete, and the other calls. *)
Definition next_group (p : list user_sched) : list user_sched * bool * list user_sched :=
  match p with
  | [] => ([], false, [])
  | s :: l => let '(g, _, closed, kept) := collect (fun _ => false) s [s] (us_bytes s) false l in (g, closed, kept)
  end.

(** The complete groups of [p] and the calls that are left. *)
Fixpoint full_groups (fuel : nat) (p : list user_sched) : list (list user_sched) * list user_sched :=
  match fuel with
  | O => ([], p)
  | S fuel' =>
    let '(g, closed, kept) := next_group p in
    if closed then let '(gs, p') := full_groups fuel' kept in (g :: gs, p') else ([], p)
  end.

(** The groups of a program that calls and waits: complete groups as soon as there are any, and an incomplete one when the program waits for a
    call in it.  A program that waits for another call waits forever. *)
Fixpoint program_groups (p : list user_sched) (prog : list ucmd) : list (list user_sched) :=
  match prog with
  | [] => []
  | Call s :: prog' =>
    if can_fuse s then let '(gs, p') := full_groups (S (length p)) (p ++ [s]) in gs ++ program_groups p' prog' else program_groups p prog'
  | Wait i :: prog' =>
    if bool_decide (i ∈ ids p) then
      let '(g, _, kept) := next_group p in
      if fusion_check_urgent && bool_decide (i ∈ ids g) then let '(gs, p') := full_groups (length kept) kept in g :: gs ++ program_groups p' prog' else []
    else program_groups p prog'
  | Test i :: prog' => program_groups p prog'
  end.

(** * Lemmas *)

Abbreviation never := (fun _ : nat => false).

Lemma build_sched_inv g found r : build_sched g found = Ok r -> g <> [].
Proof. unfold build_sched. by case_bool_decide. Qed.
(** [build_sched] does not throw: with several workers, or with one that finds no running schedule in the cache. *)
Lemma build_sched_ok g found : g <> [] -> 1 < worker_count \/ found <> cached_running -> build_sched g found = Ok tt.
Proof.
  intros Hg Hf. unfold build_sched. rewrite bool_decide_eq_false_2 by done. cbn [negb]. destruct (use_cache g); [|done]. cbn [andb]. case_bool_decide as E; [|done].
  destruct Hf as [Hw|?]; [|done]. by rewrite (proj2 (Nat.ltb_lt _ _) Hw).
Qed.

(** The collected calls: in order behind the first ones, and the rest. *)
Lemma collect_split u first exec sum flush l : exists taken kept, collect u first exec sum flush l =
  (exec ++ taken, sum + sum_list (us_bytes <$> taken), (collect u first exec sum flush l).1.2, kept) /\
  Permutation l (taken ++ kept) /\ Forall (fun s => same_kind first s = true) taken /\ (sum <= buffer_size -> sum + sum_list (us_bytes <$> taken) <= buffer_size).
Proof.
  revert exec sum flush. induction l as [|s l IH]; intros exec sum flush; cbn [collect].
  { exists [], []. rewrite app_nil_r. cbn. rewrite Nat.add_0_r. done. }
  destruct (same_kind first s) eqn:Es.
  - destruct (Nat.ltb_spec buffer_size (sum + us_bytes s)).
    { exists [], (s :: l). rewrite app_nil_r. cbn. rewrite Nat.add_0_r. done. }
    destruct (_ =? count_threshold).
    { exists [s], l. cbn. rewrite Nat.add_0_r. split; [done|]. split; [done|]. split; [by apply Forall_singleton|lia]. }
    destruct (IH (exec ++ [s]) (sum + us_bytes s) (if fusion_check_urgent && negb flush && u (us_id s) then true else flush)) as (t & k & E & Hp & Hk & Hs).
    exists (s :: t), k. rewrite E. csimpl. rewrite <- app_assoc, Nat.add_assoc. split; [done|]. split; [by apply perm_skip|]. split; [by apply Forall_cons|lia].
  - destruct (IH exec sum flush) as (t & k & E & Hp & Hk & Hs). exists t, (s :: k). rewrite E. cbn [fst snd].
    split; [done|]. split; [|done]. rewrite Hp. by rewrite Permutation_middle.
Qed.

(** The flags decide nothing but whether the queue is flushed. *)
Lemma collect_urgent u first exec sum flush l : exists fl, collect u first exec sum flush l =
    ((collect never first exec sum false l).1.1, fl, (collect never first exec sum false l).2) /\
  (fl = true -> (collect never first exec sum false l).1.2 = true \/ flush = true \/
     fusion_check_urgent = true /\ exists s, s ∈ (collect never first exec sum false l).1.1.1 /\ u (us_id s) = true) /\
  ((collect never first exec sum false l).1.2 = true \/ flush = true -> fl = true).
Proof.
  revert exec sum flush. induction l as [|s l IH]; intros exec sum flush; cbn [collect].
  { exists flush. cbn. split; [done|]. split; [auto|]. by intros [?|?]. }
  destruct (same_kind first s) eqn:Es.
  - destruct (_ <? _); [exists true; cbn; auto|]. destruct (_ =? count_threshold); [exists true; cbn; auto|].
    rewrite andb_false_r.
    destruct (IH (exec ++ [s]) (sum + us_bytes s) (if fusion_check_urgent && negb flush && u (us_id s) then true else flush)) as (fl & E & H1 & H2).
    exists fl. rewrite E. split; [done|]. split.
    + intros Hf. destruct (H1 Hf) as [?|[Hu|?]]; [by left| |by right; right].
      destruct (fusion_check_urgent && negb flush && u (us_id s)) eqn:Eu; [|by right; left].
      apply andb_prop in Eu as [[Eu _]%andb_prop Eu2]. right; right. split; [done|]. exists s. split; [|done].
      destruct (collect_split never first (exec ++ [s]) (sum + us_bytes s) false l) as (t & k & Ec & _). rewrite Ec. cbn. set_solver.
    + intros [?|Hf]; apply H2; [by left|right]. rewrite Hf. by destruct (fusion_check_urgent && negb true && u (us_id s)).
  - destruct (IH exec sum flush) as (fl & E & H1 & H2). exists fl. rewrite E. destruct (collect never first exec sum false l) as [[[e' su'] f'] k']. cbn in *. auto.
Qed.

(** More calls behind: a complete group stays, an incomplete one goes on. *)
Lemma collect_app first exec sum p q : collect never first exec sum false (p ++ q) =
  let '(e, su, closed, k) := collect never first exec sum false p in
  if closed then (e, su, true, k ++ q)
  else let '(e', su', closed', k') := collect never first e su false q in (e', su', closed', k ++ k').
Proof.
  revert exec sum. induction p as [|s p IH]; intros exec sum; cbn [app collect].
  { by destruct (collect never first exec sum false q) as [[[e su] c] k]. }
  rewrite andb_false_r. destruct (same_kind first s); [destruct (_ <? _); [done|]; destruct (_ =? count_threshold); [done|]; apply IH|].
  rewrite IH. destruct (collect never first exec sum false p) as [[[e su] c] k]. destruct c; [done|].
  by destruct (collect never first e su false q) as [[[e' su'] c'] k'].
Qed.

(** Calls of other kinds are passed over. *)
Lemma collect_other first exec sum k q : Forall (fun s => same_kind first s = false) k ->
  collect never first exec sum false (k ++ q) =
  let '(e, su, closed, k') := collect never first exec sum false q in (e, su, closed, k ++ k').
Proof.
  induction 1 as [|s k Hs Hk IH]; cbn [app collect]; [by destruct (collect never first exec sum false q) as [[[e su] c] k]|].
  rewrite Hs, IH. by destruct (collect never first exec sum false q) as [[[e su] c] k'].
Qed.

Lemma collect_open_kept first exec sum p e su k : collect never first exec sum false p = (e, su, false, k) -> Forall (fun s => same_kind first s = false) k.
Proof.
  revert exec sum k. induction p as [|s p IH]; intros exec sum k; cbn [collect]; [intros [= <- <- <-]; constructor|].
  rewrite andb_false_r. destruct (same_kind first s) eqn:Es; [destruct (_ <? _); [done|]; destruct (_ =? count_threshold); [done|]; apply IH|].
  destruct (collect never first exec sum false p) as [[[e1 su1] c1] k1] eqn:E. intros [= -> -> -> <-]. constructor; [done|by eapply IH].
Qed.

(** ** Groups *)

Lemma next_group_perm p g c k : next_group p = (g, c, k) -> Permutation p (g ++ k).
Proof.
  destruct p as [|s p]; cbn [next_group]; [by intros [= <- <- <-]|].
  destruct (collect_split never s [s] (us_bytes s) false p) as (t & k' & E & Hp & _). rewrite E. intros [= <- _ <-]. by apply perm_skip.
Qed.

Lemma next_group_first s p g c k : next_group (s :: p) = (g, c, k) -> exists t, g = s :: t.
Proof.
  cbn [next_group]. destruct (collect_split never s [s] (us_bytes s) false p) as (t & k' & E & _). rewrite E. intros [= <- _ <-]. by exists t.
Qed.

Lemma next_group_length p g k : next_group p = (g, true, k) -> length k < length p.
Proof.
  intros E. rewrite (next_group_perm _ _ _ _ E), length_app. destruct p as [|s p]; [done|]. destruct (next_group_first _ _ _ _ _ E) as [t ->]. cbn. lia.
Qed.

Lemma next_group_closed p q g k : next_group p = (g, true, k) -> next_group (p ++ q) = (g, true, k ++ q).
Proof.
  destruct p as [|s p]; [done|]. cbn [next_group app]. rewrite collect_app. destruct (collect _ _ _ _ _ p) as [[[e su] c] k1]. by intros [= <- -> <-].
Qed.

Lemma full_groups_fuel fuel fuel' p : length p <= fuel -> length p <= fuel' -> full_groups fuel p = full_groups fuel' p.
Proof.
  revert fuel' p. induction fuel as [|fuel IH]; intros fuel' p H1 H2.
  { destruct p; [by destruct fuel'|cbn in H1; lia]. }
  destruct fuel' as [|fuel']; [destruct p; [done|cbn in H2; lia]|]. cbn [full_groups]. destruct (next_group p) as [[g c] k] eqn:E. destruct c; [|done].
  pose proof (next_group_length _ _ _ E). rewrite (IH fuel' k) by lia. done.
Qed.

Definition groups (p : list user_sched) : list (list user_sched) * list user_sched := full_groups (length p) p.

Lemma groups_closed p g k : next_group p = (g, true, k) -> groups p = (g :: (groups k).1, (groups k).2).
Proof.
  intros E. unfold groups. pose proof (next_group_length _ _ _ E). rewrite (full_groups_fuel (length p) (S (length p))) by lia. cbn [full_groups]. rewrite E.
  rewrite (full_groups_fuel (length p) (length k)) by lia. by destruct (full_groups (length k) k).
Qed.

Lemma groups_open p g k : next_group p = (g, false, k) -> groups p = ([], p).
Proof. intros E. unfold groups. rewrite (full_groups_fuel (length p) (S (length p))) by lia. cbn [full_groups]. by rewrite E. Qed.

Lemma groups_app p q : groups (p ++ q) = ((groups p).1 ++ (groups ((groups p).2 ++ q)).1, (groups ((groups p).2 ++ q)).2).
Proof.
  induction p as [p IH] using (induction_ltof1 _ length). destruct (next_group p) as [[g c] k] eqn:E. destruct c.
  - rewrite (groups_closed _ _ _ E), (groups_closed _ _ _ (next_group_closed _ q _ _ E)). cbn [fst snd app].
    rewrite (IH k (next_group_length _ _ _ E)). done.
  - rewrite (groups_open _ _ _ E). cbn [fst snd app]. by destruct (groups (p ++ q)).
Qed.

Lemma groups_perm p : Permutation p (concat (groups p).1 ++ (groups p).2).
Proof.
  induction p as [p IH] using (induction_ltof1 _ length). destruct (next_group p) as [[g c] k] eqn:E. destruct c.
  - rewrite (groups_closed _ _ _ E). cbn [fst snd concat]. rewrite <- app_assoc, <- (IH k (next_group_length _ _ _ E)). by eapply next_group_perm.
  - by rewrite (groups_open _ _ _ E).
Qed.

(** ** The queues and the calls that they hold, in the order of the program *)

Definition queue_inv m (P : list user_sched) : Prop :=
  exec_queue m = [] /\ exec_queue_sum_bytes m = 0 /\ postponed_queue m = P \/
  exists s P1 P2 kept, P = s :: P1 ++ P2 /\ collect never s [s] (us_bytes s) false P1 = (exec_queue m, exec_queue_sum_bytes m, false, kept) /\
    postponed_queue m = kept ++ P2.

Lemma queue_call m P s : queue_inv m P -> queue_inv (mk_fusion (postponed_queue m ++ [s]) (exec_queue m) (exec_queue_sum_bytes m)) (P ++ [s]).
Proof.
  intros [(E1 & E2 & E3)|(s0 & P1 & P2 & k & -> & E & Ep)]; [left; cbn; by rewrite E3|right].
  exists s0, P1, (P2 ++ [s]), k. cbn. rewrite Ep, <- !app_assoc. done.
Qed.

Lemma queue_perm m P : queue_inv m P -> Permutation P (exec_queue m ++ postponed_queue m).
Proof.
  intros [(E1 & _ & E3)|(s0 & P1 & P2 & k & -> & E & Ep)]; [by rewrite E1, E3|]. rewrite Ep.
  destruct (collect_split never s0 [s0] (us_bytes s0) false P1) as (t & k' & E' & Hp & _). rewrite E in E'. injection E' as -> _ <-.
  cbn. apply perm_skip. rewrite Hp. by rewrite app_assoc.
Qed.

(** What the block with the lock leaves: the next group of all the calls in the queues. *)
Lemma fill_next_group m P flush u : queue_inv m P -> P <> [] -> exists m' fl g c k, fill_exec_queue m flush u = (m', fl) /\ next_group P = (g, c, k) /\
  exec_queue m' = g /\ postponed_queue m' = k /\ (forall s, s ∈ exec_queue m -> s ∈ g) /\ (c = false -> queue_inv m' P) /\
  (fl = true -> c = true \/ flush = true \/ fusion_check_urgent = true /\ exists s, s ∈ g /\ u (us_id s) = true) /\
  (c = true \/ flush = true -> fl = true).
Proof.
  intros [(E1 & E2 & E3)|(s0 & P1 & P2 & k & -> & E & Ep)] Hne; unfold fill_exec_queue.
  - rewrite E3, E1. destruct P as [|s P]; [done|]. cbn [next_group]. destruct (collect_urgent u s [s] (us_bytes s) flush P) as (fl & Eu & H1 & H2). rewrite Eu.
    destruct (collect never s [s] (us_bytes s) false P) as [[[e su] c] k] eqn:Ec. cbn in *. eexists _, _, e, c, k. split_and!; try done; [by intros s' ?%not_elem_of_nil|].
    intros ->. right. exists s, P, [], k. by rewrite !app_nil_r.
  - destruct (collect_split never s0 [s0] (us_bytes s0) false P1) as (t & k' & E' & _). rewrite E in E'. injection E' as Ee _ <-.
    assert (Hall : collect never s0 (exec_queue m) (exec_queue_sum_bytes m) false (k ++ P2) = collect never s0 [s0] (us_bytes s0) false (P1 ++ P2)).
    { rewrite (collect_app _ _ _ P1), E, collect_other; [done|by eapply collect_open_kept]. }
    assert (Hfill : exists fl, fill_exec_queue m flush u = (let '(e, su, _, k') := collect never s0 [s0] (us_bytes s0) false (P1 ++ P2) in mk_fusion k' e su, fl) /\
      (fl = true -> (collect never s0 [s0] (us_bytes s0) false (P1 ++ P2)).1.2 = true \/ flush = true \/
         fusion_check_urgent = true /\ exists s, s ∈ (collect never s0 [s0] (us_bytes s0) false (P1 ++ P2)).1.1.1 /\ u (us_id s) = true) /\
      ((collect never s0 [s0] (us_bytes s0) false (P1 ++ P2)).1.2 = true \/ flush = true -> fl = true)).
    { rewrite <- Hall. unfold fill_exec_queue. rewrite Ep. destruct (k ++ P2) as [|s1 l] eqn:Ek.
      - exists flush. cbn. split; [destruct m; cbn in *; congruence|]. split; [auto|]. by intros [?|?].
      - destruct (collect_urgent u s0 (exec_queue m) (exec_queue_sum_bytes m) flush (s1 :: l)) as (fl & Eu & H1 & H2).
        exists fl. split; [|done]. replace (match exec_queue m with [] => _ | _ => _ end) with
          (let '(e, su, f', k1) := collect u s0 (exec_queue m) (exec_queue_sum_bytes m) flush (s1 :: l) in (mk_fusion k1 e su, f')) by by rewrite Ee.
        rewrite Eu. by destruct (collect never s0 (exec_queue m) (exec_queue_sum_bytes m) false (s1 :: l)) as [[[e su] c] k1]. }
    fold (fill_exec_queue m flush u). destruct Hfill as (fl & -> & H1 & H2). cbn [next_group].
    destruct (collect never s0 [s0] (us_bytes s0) false (P1 ++ P2)) as [[[e su] c] k1] eqn:Ec. cbn in *. eexists _, _, e, c, k1. split_and!; try done.
    { destruct (collect_split never s0 (exec_queue m) (exec_queue_sum_bytes m) false (k ++ P2)) as (t' & k2 & E2 & _). rewrite Hall in E2. injection E2 as -> _ _.
      intros s' ?. apply elem_of_app. by left. }
    intros ->. right. exists s0, (P1 ++ P2), [], k1. by rewrite !app_nil_r.
Qed.

(** ** Every reachable state *)

Definition calls_and_waits (prog : list ucmd) : Prop := Forall (fun c => match c with Test _ => False | _ => True end) prog.

(** The rest [Q] of the program as its groups see it: past a wait as soon as the group has been started. *)
Definition user_at (w : fworld) (P : list user_sched) (Q : list ucmd) : Prop :=
  if fw_waiting w then exists i rest, fw_prog w = Wait i :: rest /\ fw_urgent w = {[i]} /\ (Q = fw_prog w \/ Q = rest /\ i ∉ ids P)
  else fw_urgent w = ∅ /\ Q = fw_prog w.

Record finv (prog : list ucmd) (w : fworld) (P : list user_sched) (Q : list ucmd) : Prop := mk_finv {
  fi_queue : queue_inv (fw_m w) P;
  fi_nodup : NoDup (us_id <$> P);
  fi_fuse : Forall (fun s => can_fuse s = true) P;
  fi_busy : ids P ⊆ fw_busy w;
  fi_running : fw_running w ⊆ fw_busy w;
  fi_apart : fw_running w ## ids P;
  fi_tests : calls_and_waits (fw_prog w);
  fi_user : user_at w P Q;
  fi_flag : fw_flag w = Some true -> fusion_check_urgent = true /\ exists s, s ∈ exec_queue (fw_m w) /\ us_id s ∈ fw_urgent w;
  fi_groups : program_groups [] prog = fw_started w ++ (groups P).1 ++ program_groups (groups P).2 Q }.

Lemma elem_of_ids i l : i ∈ ids l <-> exists s, s ∈ l /\ us_id s = i.
Proof. unfold ids. rewrite elem_of_list_to_set, list_elem_of_fmap. naive_solver. Qed.

Lemma ids_perm l l' : Permutation l l' -> ids l = ids l'.
Proof. intros H. apply leibniz_equiv. intros i. rewrite !elem_of_ids. by setoid_rewrite H. Qed.

Lemma ids_app l l' : ids (l ++ l') = ids l ∪ ids l'.
Proof. unfold ids. by rewrite fmap_app, list_to_set_app_L. Qed.

Lemma add_true m s b m' : add m s b = Ok (true, m') ->
  can_fuse s = true /\ b = true /\ m' = mk_fusion (postponed_queue m ++ [s]) (exec_queue m) (exec_queue_sum_bytes m).
Proof. unfold add. destruct (can_fuse s); [|done]. destruct b; [|done]. by intros [= <-]. Qed.

Lemma add_false m s b m' : add m s b = Ok (false, m') -> can_fuse s = false /\ m' = m.
Proof. unfold add. destruct (can_fuse s); [by destruct b|]. by intros [= <-]. Qed.

Lemma program_call p s prog : can_fuse s = true ->
  program_groups p (Call s :: prog) = (groups (p ++ [s])).1 ++ program_groups (groups (p ++ [s])).2 prog.
Proof.
  intros E. cbn [program_groups]. rewrite E. unfold groups. rewrite length_app, Nat.add_comm. cbn [Nat.add length].
  by destruct (full_groups (S (length p)) (p ++ [s])).
Qed.

Lemma finv_call prog m u b rn s rest fl gs m' P Q : add m s (bool_decide (us_id s ∉ b)) = Ok (true, m') ->
  finv prog (mk_fworld m u b rn (Call s :: rest) false fl gs) P Q ->
  finv prog (mk_fworld m' u ({[us_id s]} ∪ b) rn rest false fl gs) (P ++ [s]) rest.
Proof.
  intros Ha [H1 H2 H3 H4 H5 H6 H7 H8 H9 H10]. cbn in *. apply add_true in Ha as (Hf & Hb%bool_decide_eq_true & ->). destruct H8 as [-> ->].
  assert (Hs : us_id s ∉ ids P) by (clear - Hb H4; set_solver).
  split; cbn.
  - by apply queue_call.
  - rewrite fmap_app, NoDup_app. cbn. split; [done|]. split; [|apply NoDup_singleton]. intros i Hi ->%list_elem_of_singleton. apply Hs. unfold ids. set_solver.
  - apply Forall_app. split; [done|]. by apply Forall_singleton.
  - rewrite ids_app. unfold ids at 2. cbn. clear - H4. set_solver.
  - clear - H5. set_solver.
  - rewrite ids_app. unfold ids at 2. cbn. clear - Hb H5 H6. set_solver.
  - by apply Forall_inv_tail in H7.
  - done.
  - done.
  - rewrite H10, program_call by done. rewrite (groups_app P [s]). cbn [fst snd]. by rewrite <- !app_assoc.
Qed.

(** A flush that is not for a complete group is for the call that the user waits for. *)
Lemma finv_flush prog m u b rn rest w gs P Q flush m' g found : fill_and_flush m flush (urgent_in u) found = Ok (m', Some g) ->
  finv prog (mk_fworld m u b rn rest w (Some flush) gs) P Q ->
  exists P' Q', finv prog (mk_fworld m' u b (rn ∪ ids g) rest w None (gs ++ [g])) P' Q'.
Proof.
  intros Hf [H1 H2 H3 H4 H5 H6 H7 H8 H9 H10]. cbn in *. unfold fill_and_flush in Hf. destruct (decide (P = [])) as [->|Hne].
  { assert (m = empty_fusion) as ->. { destruct H1 as [(E1 & E2 & E3)|(? & ? & ? & ? & E & _)]; [|done]. destruct m; cbn in *. by rewrite E1, E2, E3. }
    cbn in Hf. destruct flush; cbn in Hf; done. }
  destruct (fill_next_group m P flush (urgent_in u) H1 Hne) as (m1 & fl & g1 & c & k & Ef & Eg & Ee & Ep & Hin & Hq & Hfl & _). rewrite Ef in Hf.
  destruct fl; [|done]. destruct (build_sched (exec_queue m1) found); [|done]. cbn in Hf. injection Hf as <- <-. rewrite Ee. specialize (Hfl eq_refl).
  pose proof (next_group_perm _ _ _ _ Eg) as Hperm.
  assert (Hids : ids P = ids g1 ∪ ids k) by (rewrite (ids_perm _ _ Hperm); apply ids_app).
  assert (Hnd : NoDup (us_id <$> g1 ++ k)) by (by rewrite <- Hperm). rewrite fmap_app, NoDup_app in Hnd. destruct Hnd as (_ & Hd & Hnd).
  assert (Hdis : ids g1 ## ids k). { intros i Hi Hi'. unfold ids in Hi, Hi'. apply elem_of_list_to_set in Hi, Hi'. by apply (Hd i). }
  assert (Hfu : Forall (fun s => can_fuse s = true) k). { rewrite Hperm in H3. by apply Forall_app in H3 as [_ ?]. }
  assert (Hu : forall Q', user_at (mk_fworld m u b rn rest w (Some flush) gs) k Q' ->
    program_groups [] prog = (gs ++ [g1]) ++ (groups k).1 ++ program_groups (groups k).2 Q' ->
    finv prog (mk_fworld (clear_exec_queue m1) u b (rn ∪ ids g1) rest w None (gs ++ [g1])) k Q').
  { intros Q' Hu Hgr. split; cbn; try done; [left; cbn; by rewrite Ep|clear - H4 H5 H6 Hids Hdis; set_solver..]. }
  destruct c.
  - exists k, Q. apply Hu.
    + unfold user_at in *. cbn in *. destruct w; [|done]. destruct H8 as (i & tl & ? & ? & HQ). exists i, tl. split; [done|]. split; [done|]. clear - HQ Hids. set_solver.
    + rewrite H10, (groups_closed _ _ _ Eg). cbn. by rewrite <- !app_assoc.
  - assert (Hurg : fusion_check_urgent = true /\ exists s, s ∈ g1 /\ us_id s ∈ u).
    { destruct Hfl as [?|[->|(? & s & Hs & Hsu)]]; [done| |].
      - destruct (H9 eq_refl) as (? & s & Hs & Hsu). split; [done|]. exists s. split; [by apply Hin|done].
      - split; [done|]. exists s. split; [done|]. by apply bool_decide_eq_true in Hsu. }
    destruct Hurg as (Hcu & s & Hs & Hsu). unfold user_at in H8. cbn in H8. destruct w; [|destruct H8 as [-> _]; by apply not_elem_of_empty in Hsu].
    destruct H8 as (i & tl & -> & -> & HQ). apply elem_of_singleton in Hsu. assert (Hi : i ∈ ids g1) by (apply elem_of_ids; eauto).
    assert (HiP : i ∈ ids P) by (clear - Hi Hids; set_solver). destruct HQ as [->|[_ HQ]]; [|done]. exists k, tl. apply Hu.
    + cbn. exists i, tl. split; [done|]. split; [done|]. right. split; [done|]. clear - Hi Hdis. set_solver.
    + rewrite H10, (groups_open _ _ _ Eg). cbn [fst snd app program_groups]. rewrite bool_decide_eq_true_2 by done. rewrite Eg, Hcu.
      rewrite bool_decide_eq_true_2 by done. cbn [andb]. unfold groups. destruct (full_groups (length k) k). cbn. by rewrite <- !app_assoc.
Qed.

Lemma finv_keep prog m u b rn rest w gs P Q flush m' found : fill_and_flush m flush (urgent_in u) found = Ok (m', None) ->
  finv prog (mk_fworld m u b rn rest w (Some flush) gs) P Q -> finv prog (mk_fworld m' u b rn rest w None gs) P Q.
Proof.
  intros Hf [H1 H2 H3 H4 H5 H6 H7 H8 H9 H10]. cbn in *. unfold fill_and_flush in Hf. destruct (decide (P = [])) as [->|Hne].
  - assert (m' = m) as ->. 
    { destruct H1 as [(E1 & E2 & E3)|(? & ? & ? & ? & E & _)]; [|done]. unfold fill_exec_queue in Hf. rewrite E3 in Hf. destruct flush; [|by injection Hf].
      rewrite E1 in Hf. done. }
    by split.
  - destruct (fill_next_group m P flush (urgent_in u) H1 Hne) as (m1 & fl & g1 & c & k & Ef & Eg & Ee & Ep & Hin & Hq & Hfl & Hfl'). rewrite Ef in Hf.
    destruct fl; [by destruct (build_sched _ _)|]. injection Hf as <-. unfold user_at in H8. cbn in H8. split; unfold user_at; cbn; try done. apply Hq. destruct c; [|done]. by discriminate Hfl'; left.
Qed.

Lemma finv_step prog w w' P Q : fstep w w' -> finv prog w P Q -> exists P' Q', finv prog w' P' Q'.
Proof.
  intros Hs H. destruct Hs as [m u b rn s rest fl gs m' Ha|m u b rn s rest fl gs m' Ha|m u b rn i rest fl gs|m u b rn i rest fl gs Hi| | |m u b rn rest w gs|
    m u b rn rest w flush gs m' [g|] found Hf|m u b rn rest w fl gs i Hi].
  - exists (P ++ [s]), rest. by eapply finv_call.
  - apply add_false in Ha as [Ha ->]. destruct H as [H1 H2 H3 H4 H5 H6 H7 H8 H9 H10]. cbn in *. destruct H8 as [-> ->].
    exists P, rest. split; cbn; try done; [by apply Forall_inv_tail in H7|]. rewrite H10. cbn. by rewrite Ha.
  - destruct H as [H1 H2 H3 H4 H5 H6 H7 H8 H9 H10]. cbn in *. destruct H8 as [-> ->]. exists P, (Wait i :: rest). split; cbn; try done.
    + exists i, rest. split; [done|]. split; [by rewrite union_empty_r_L|by left].
    + intros Hfl. destruct (H9 Hfl) as (? & s & ? & []%not_elem_of_empty).
  - destruct H as [H1 H2 H3 H4 H5 H6 H7 H8 H9 H10]. cbn in *. destruct H8 as (i' & tl & [= -> ->] & -> & HQ). exists P, tl.
    assert (HiP : i' ∉ ids P) by (clear - Hi H4; set_solver). split; cbn; try done.
    + by apply Forall_inv_tail in H7.
    + split; [clear; set_solver|done].
    + intros Hfl. destruct (H9 Hfl) as (? & s & Hs & Hsu%elem_of_singleton). destruct HiP. apply elem_of_ids. exists s. split; [|done].
      rewrite (queue_perm _ _ H1). apply elem_of_app. by left.
    + rewrite H10. destruct HQ as [->|[-> _]]; [|done]. cbn [program_groups]. rewrite (bool_decide_eq_false_2 (i' ∈ ids (groups P).2)); [done|].
      intros Hg. apply HiP. rewrite (ids_perm _ _ (groups_perm P)), ids_app. apply elem_of_union. by right.
  - destruct H as [_ _ _ _ _ _ H7 _ _ _]. by apply Forall_inv in H7.
  - destruct H as [_ _ _ _ _ _ H7 _ _ _]. by apply Forall_inv in H7.
  - destruct H as [H1 H2 H3 H4 H5 H6 H7 H8 H9 H10]. unfold user_at in H8. cbn in *. exists P, Q. split; unfold user_at; cbn; try done. intros [= Hr]. unfold recheck in Hr.
    apply andb_prop in Hr as [? (s & Hs & Hu)%existsb_exists]. split; [done|]. exists s. split; [by apply list_elem_of_In|by apply bool_decide_eq_true in Hu].
  - by eapply finv_flush.
  - exists P, Q. cbn [option_list]. rewrite union_empty_r_L, app_nil_r. by eapply finv_keep.
  - destruct H as [H1 H2 H3 H4 H5 H6 H7 H8 H9 H10]. unfold user_at in H8. cbn in *. exists P, Q. split; unfold user_at; cbn; try done; clear - Hi H4 H5 H6; set_solver.
Qed.

Lemma finv_start prog : calls_and_waits prog -> finv prog (fstart prog) [] prog.
Proof. intros H. split; cbn; try done; first [by left|by constructor|set_solver]. Qed.

Lemma finv_reach prog w : calls_and_waits prog -> rtc fstep (fstart prog) w -> exists P Q, finv prog w P Q.
Proof.
  intros Hp Hr. assert (H : exists P Q, finv prog (fstart prog) P Q) by (exists [], prog; by apply finv_start).
  induction Hr as [|w1 w2 w3 Hs Hr IH]; [done|]. destruct H as (P & Q & H). apply IH. by eapply finv_step.
Qed.

Lemma started_prefix prog w : calls_and_waits prog -> rtc fstep (fstart prog) w -> fw_started w `prefix_of` program_groups [] prog.
Proof. intros Hp Hr. destruct (finv_reach prog w Hp Hr) as (P & Q & H). rewrite (fi_groups _ _ _ _ H). by eexists. Qed.

(** ** Sizes *)

Definition group_ok (g : list user_sched) : Prop :=
  exists first g', g = first :: g' /\ Forall (fun s => same_kind first s = true) g' /\ sum_list (us_bytes <$> g) <= buffer_size.

Record size_inv (w : fworld) : Prop := mk_size_inv {
  si_exec : exec_queue (fw_m w) = [] /\ exec_queue_sum_bytes (fw_m w) = 0 \/
            group_ok (exec_queue (fw_m w)) /\ exec_queue_sum_bytes (fw_m w) = sum_list (us_bytes <$> exec_queue (fw_m w));
  si_fuse : Forall (fun s => us_bytes s < bytes_threshold) (postponed_queue (fw_m w));
  si_flag : fw_flag w = Some true -> exec_queue (fw_m w) <> [];
  si_started : Forall group_ok (fw_started w) }.

Lemma collect_ok u first g sum flush l : group_ok (first :: g) -> sum = sum_list (us_bytes <$> first :: g) -> Forall (fun s => us_bytes s < bytes_threshold) l ->
  exists e su fl k, collect u first (first :: g) sum flush l = (e, su, fl, k) /\ group_ok e /\ su = sum_list (us_bytes <$> e) /\
    Forall (fun s => us_bytes s < bytes_threshold) k.
Proof.
  intros (f0 & g0 & [= <- <-] & Hk & Hb) -> Hl. destruct (collect_split u first (first :: g) (sum_list (us_bytes <$> first :: g)) flush l) as (t & k & E & Hp & Ht & Hs).
  eexists _, _, _, k. split; [exact E|]. rewrite Hp in Hl. apply Forall_app in Hl as [_ Hl]. specialize (Hs Hb).
  assert (Hsum : sum_list (us_bytes <$> (first :: g) ++ t) = sum_list (us_bytes <$> first :: g) + sum_list (us_bytes <$> t)) by (by rewrite fmap_app, sum_list_with_app).
  split; [|by rewrite Hsum]. exists first, (g ++ t). rewrite <- Hsum in Hs. split; [done|]. split; [by apply Forall_app|done].
Qed.

Lemma fill_ok m flush u : 0 < count_threshold ->
  (exec_queue m = [] /\ exec_queue_sum_bytes m = 0 \/ group_ok (exec_queue m) /\ exec_queue_sum_bytes m = sum_list (us_bytes <$> exec_queue m)) ->
  Forall (fun s => us_bytes s < bytes_threshold) (postponed_queue m) -> (flush = true -> exec_queue m <> []) ->
  exists m' fl, fill_exec_queue m flush u = (m', fl) /\ Forall (fun s => us_bytes s < bytes_threshold) (postponed_queue m') /\ (fl = true -> exec_queue m' <> []) /\
    (exec_queue m' = [] /\ exec_queue_sum_bytes m' = 0 \/ group_ok (exec_queue m') /\ exec_queue_sum_bytes m' = sum_list (us_bytes <$> exec_queue m')).
Proof.
  intros Hc He Hp Hf. unfold fill_exec_queue. destruct (postponed_queue m) as [|s l] eqn:Ep; [exists m, flush; by rewrite Ep|].
  assert (Hmk : forall e su fl k, group_ok e -> su = sum_list (us_bytes <$> e) -> Forall (fun s => us_bytes s < bytes_threshold) k ->
    exists m' fl', (mk_fusion k e su, fl) = (m', fl') /\ Forall (fun s => us_bytes s < bytes_threshold) (postponed_queue m') /\ (fl' = true -> exec_queue m' <> []) /\
      (exec_queue m' = [] /\ exec_queue_sum_bytes m' = 0 \/ group_ok (exec_queue m') /\ exec_queue_sum_bytes m' = sum_list (us_bytes <$> exec_queue m'))).
  { intros e su fl k He' Hsu Hk. eexists _, fl. split; [done|]. cbn. destruct He' as (f0 & g0 & -> & ?). split; [done|]. split; [done|]. right. split; [|done]. by exists f0, g0. }
  destruct (exec_queue m) as [|first g] eqn:Ee.
  - inversion Hp as [|? ? Hs Hl]; subst. destruct (collect_ok u s [] (us_bytes s) flush l) as (e & su & fl & k & -> & ? & ? & ?); [|cbn; lia|done|by apply Hmk].
    exists s, []. split; [done|]. split; [constructor|]. cbn. unfold buffer_size. nia.
  - destruct He as [[? _]|[Hg Hs]]; [done|]. destruct (collect_ok u first g (exec_queue_sum_bytes m) flush (s :: l) Hg Hs Hp) as (e & su & fl & k & -> & ? & ? & ?). by apply Hmk.
Qed.

Lemma size_step w w' : 0 < count_threshold -> fstep w w' -> size_inv w -> size_inv w'.
Proof.
  intros Hc Hs [H1 H2 H3 H4]. destruct Hs as [m u b rn s rest fl gs m' Ha|m u b rn s rest fl gs m' Ha| | | | |m u b rn rest w gs|m u b rn rest w flush gs m' g found Hf|]; cbn in *; try (by split).
  - apply add_true in Ha as (Hf & _ & ->). split; cbn; try done. apply Forall_app. split; [done|]. apply Forall_singleton. unfold can_fuse in Hf.
    destruct enable_hmem, (bool_decide (us_ctype s = ccl_coll_allreduce)), (Nat.leb_spec bytes_threshold (us_bytes s)); done.
  - apply add_false in Ha as [_ ->]. by split.
  - split; cbn; try done. intros [= Hr] E. unfold recheck in Hr. rewrite E, andb_false_r in Hr. done.
  - unfold fill_and_flush in Hf. destruct (fill_ok m flush (urgent_in u) Hc H1 H2) as (m1 & fl & E & Hp & Hne & He); [intros ->; by apply H3|]. rewrite E in Hf. destruct fl.
    + destruct (build_sched (exec_queue m1) found); [|done]. injection Hf as <- <-. split; cbn; try done; [by left|]. apply Forall_app. split; [done|].
      apply Forall_singleton. destruct He as [[? _]|[? _]]; [by destruct Hne|done].
    + injection Hf as <- <-. split; cbn; try done. by rewrite app_nil_r.
Qed.

(** ** Waiting *)





(** * Claims *)

(** C25: The groups that are started as one do not depend on the times at which the service worker runs: in every interleaving of a user thread, which calls
    and waits, and the worker, the groups started so far are the first groups of a list that the program alone determines.  Ranks with the
    same program therefore start the same fused allreduces in the same order. *)
Theorem fusion_groups_determined prog w : calls_and_waits prog -> rtc fstep (fstart prog) w -> fw_started w `prefix_of` program_groups [] prog.
Proof. apply started_prefix. Qed.

(** In every reachable state, for any program, the data of a group fits into the fusion buffer and its calls agree in datatype, communicator, reduction
    and stream; the worker never finds an empty queue to flush, and builds the fused schedule unless, alone, it finds a running one in the cache. *)
Theorem fused_data_fits prog w : 0 < count_threshold -> rtc fstep (fstart prog) w ->
  Forall group_ok (fw_started w) /\ exec_queue_sum_bytes (fw_m w) = sum_list (us_bytes <$> exec_queue (fw_m w)) /\ exec_queue_sum_bytes (fw_m w) <= buffer_size /\
  (forall flush found, fw_flag w = Some flush -> 1 < worker_count \/ found <> cached_running -> exists r, fill_and_flush (fw_m w) flush (urgent_in (fw_urgent w)) found = Ok r).
Proof.
  intros Hc Hr. assert (H : size_inv w).
  { assert (H0 : size_inv (fstart prog)) by (split; cbn; auto). induction Hr as [|w1 w2 w3 Hs Hr IH]; [done|]. apply IH. by eapply size_step. }
  destruct H as [H1 H2 H3 H4]. split; [done|]. split; [by destruct H1 as [[-> ->]|[_ ?]]|]. split.
  { destruct H1 as [[_ ->]|[(? & ? & _ & _ & ?) ->]]; [lia|done]. }
  intros flush found Hf Hfo. unfold fill_and_flush. destruct (fill_ok (fw_m w) flush (urgent_in (fw_urgent w)) Hc H1 H2) as (m' & fl & -> & _ & Hne & _); [intros ->; by apply H3|].
  destruct fl; [|by eexists]. rewrite build_sched_ok by auto. by eexists.
Qed.


(** With one worker a fused schedule of the cache that still runs makes [execute] throw, whatever the state, once a group that uses the cache is to be started. *)
Theorem overlap_throws m flush u m' : worker_count <= 1 -> fill_exec_queue m flush u = (m', true) -> use_cache (exec_queue m') = true ->
  fill_and_flush m flush u cached_running = Throw.
Proof.
  intros Hw Hf Hc. unfold fill_and_flush, build_sched. rewrite Hf, Hc, (proj2 (Nat.ltb_ge _ _) Hw). by case_bool_decide.
Qed.
End fusion.

Arguments Call _ : clear implicits.
Arguments Wait _ : clear implicits.
Arguments Test _ : clear implicits.

(** * The fused schedule *)

Section build.
Context (dtype_size : nat -> nat).
Implicit Types (s : user_sched) (g : list user_sched).
Abbreviation bytes := (us_bytes dtype_size).

Definition sum_count g : nat := sum_list (us_count <$> g).
Definition max_priority g : nat := foldr Nat.max 0 (us_priority <$> g).

(** The key of the fused schedule, of the first and the last schedule of the queue; throws on an empty queue. *)
Definition fused_key g : result ccl_sched_key :=
  match head g, last g with
  | Some first, Some last =>
    Ok (mk_key (mk_fields (us_ctype first) 0 0 (Z.of_nat (us_dtype first)) (Z.of_nat (us_reduction first)) (Z.of_nat (sum_count g)) (Z.of_nat (length g)) 0 (-1) (-1)
          (Z.of_nat (us_comm first)) 0) [] [] (us_match_id first ++ us_match_id last))
  | _, _ => Throw
  end.

(** The copies of the user's data to the fusion buffer, and back: the loop of one part over its copies and the loop over the parts.  An index outside of the queue is undefined. *)
Fixpoint part_copies g (first n offset : nat) : result (list (user_sched * nat) * nat) :=
  match n with
  | O => Ok ([], offset)
  | S n' =>
    match g !! first with
    | None => Throw
    | Some s => r <-! part_copies g (S first) n' (offset + bytes s) ;; Ok ((s, offset) :: r.1, r.2)
    end
  end.

Fixpoint parts_copies g (part_count idx n offset : nat) : result (list (list (user_sched * nat))) :=
  match n with
  | O => Ok []
  | S n' =>
    let copies_per_part := length g / part_count in
    let copies_count := if idx <? part_count - 1 then copies_per_part else copies_per_part + length g mod part_count in
    r <-! part_copies g (idx * copies_per_part) copies_count offset ;;
    rest <-! parts_copies g part_count (S idx) n' r.2 ;; Ok (r.1 :: rest)
  end.

Definition fused_copies g (part_count : nat) : result (list (list (user_sched * nat))) :=
  throw_if_not (0 <? part_count) ;; parts_copies g part_count 0 part_count 0.

(** The place of each call in the buffer. *)
Fixpoint places g (offset : nat) : list (user_sched * nat) :=
  match g with [] => [] | s :: g' => (s, offset) :: places g' (offset + bytes s) end.

Lemma places_app g g' off : places (g ++ g') off = places g off ++ places g' (off + sum_list (bytes <$> g)).
Proof. revert off. induction g as [|s g IH]; intros off; csimpl; [by rewrite Nat.add_0_r|]. by rewrite IH, Nat.add_assoc. Qed.

Lemma part_copies_places g1 g2 g3 off : part_copies (g1 ++ g2 ++ g3) (length g1) (length g2) off = Ok (places g2 off, off + sum_list (bytes <$> g2)).
Proof.
  revert g1 off. induction g2 as [|s g2 IH]; intros g1 off; csimpl; [by rewrite Nat.add_0_r|]. rewrite list_lookup_middle by done.
  replace (g1 ++ s :: g2 ++ g3) with ((g1 ++ [s]) ++ g2 ++ g3) by (by rewrite <- app_assoc). replace (S (length g1)) with (length (g1 ++ [s])) by (rewrite length_app; cbn; lia).
  rewrite IH. cbn. by rewrite Nat.add_assoc.
Qed.

Lemma parts_copies_places g parts n idx off : idx + n = parts -> 0 < n -> off = sum_list (bytes <$> take (idx * (length g / parts)) g) ->
  exists cs, parts_copies g parts idx n off = Ok cs /\ concat cs = places (drop (idx * (length g / parts)) g) off.
Proof.
  revert idx off. induction n as [|n IH]; intros idx off Hn Hpos Hoff; [lia|]. cbn [parts_copies]. set (q := length g / parts) in *.
  pose proof (Nat.div_mod_eq (length g) parts) as Hdm. fold q in Hdm. set (c := if idx <? parts - 1 then q else q + length g mod parts).
  assert (Hc : idx * q + c <= length g) by (unfold c; destruct (Nat.ltb_spec idx (parts - 1)); nia).
  assert (Hlast : n = 0 -> idx * q + c = length g). { intros ->. unfold c. destruct (Nat.ltb_spec idx (parts - 1)); [lia|]. assert (parts = S idx) by lia. nia. }
  pose proof (part_copies_places (take (idx * q) g) (take c (drop (idx * q) g)) (drop c (drop (idx * q) g)) off) as Hp.
  rewrite take_drop, take_drop, length_take_le, length_take_le in Hp by (rewrite ?length_drop; lia). rewrite Hp. cbn [result_bind fst snd].
  destruct (decide (n = 0)) as [->|Hn0].
  - eexists. split; [done|]. cbn. rewrite app_nil_r, take_ge by (rewrite length_drop; lia). done.
  - assert (Hcq : c = q) by (unfold c; destruct (Nat.ltb_spec idx (parts - 1)); [done|lia]).
    destruct (IH (S idx) (off + sum_list (bytes <$> take c (drop (idx * q) g)))) as (cs & -> & Hcs); [lia|lia| |].
    + rewrite Hoff, Hcq. replace (S idx * q) with (idx * q + q) by lia. rewrite <- take_take_drop, fmap_app, sum_list_with_app. done.
    + eexists. split; [done|]. cbn [concat]. rewrite Hcs. pose proof (places_app (take c (drop (idx * q) g)) (drop c (drop (idx * q) g)) off) as Ha.
      rewrite take_drop in Ha. rewrite Ha, drop_drop, Hcq. by replace (S idx * q) with (idx * q + q) by lia.
Qed.

Lemma places_bound g off lim s o : (s, o) ∈ places g off -> off + sum_list (bytes <$> g) <= lim -> off <= o /\ o + bytes s <= lim.
Proof.
  revert off. induction g as [|s0 g IH]; intros off; csimpl; [by intros ?%not_elem_of_nil|]. intros [[= -> ->]|Hin]%elem_of_cons Hl; [lia|].
  destruct (IH _ Hin); lia.
Qed.

Lemma places_disjoint g off : forall i j s o s' o', i < j -> places g off !! i = Some (s, o) -> places g off !! j = Some (s', o') -> o + bytes s <= o'.
Proof.
  revert off. induction g as [|s0 g IH]; intros off i j s o s' o' Hij Hi Hj; [done|]. destruct j as [|j]; [lia|]. cbn in Hj. destruct i as [|i].
  - cbn in Hi. injection Hi as -> ->. apply list_elem_of_lookup_2 in Hj. by eapply places_bound in Hj as [? _].
  - cbn in Hi. eapply (IH _ i j); [lia|done..].
Qed.

Lemma parts_copies_length g parts n idx off cs : parts_copies g parts idx n off = Ok cs -> length cs = n.
Proof.
  revert idx off cs. induction n as [|n IH]; intros idx off cs; cbn [parts_copies]; [by intros [= <-]|].
  destruct (part_copies _ _ _ _) as [r|]; [|done]. cbn [result_bind]. destruct (parts_copies _ _ _ _ _) as [rest|] eqn:E; [|done]. intros [= <-]. cbn. f_equal. by eapply IH.
Qed.

Lemma places_fst g off : (places g off).*1 = g.
Proof. revert off. induction g as [|s g IH]; intros off; [done|]. cbn. f_equal. apply IH. Qed.

(** Every call of a fused group is copied to the fusion buffer, and back, in exactly one part of the fused schedule, in the order of the
    group; the places of the calls are inside the buffer and do not overlap. *)
Theorem fused_copies_complete bytes_threshold count_threshold g part_count : 0 < part_count -> group_ok dtype_size bytes_threshold count_threshold g ->
  exists cs, fused_copies g part_count = Ok cs /\ length cs = part_count /\ (concat cs).*1 = g /\
    (forall s o, (s, o) ∈ concat cs -> o + bytes s <= buffer_size bytes_threshold count_threshold) /\
    (forall i j s o s' o', i < j -> concat cs !! i = Some (s, o) -> concat cs !! j = Some (s', o') -> o + bytes s <= o').
Proof.
  intros Hp (first & g' & _ & _ & Hb). destruct (parts_copies_places g part_count part_count 0 0) as (cs & Hcs & Hc); [done|done|done|].
  exists cs. unfold fused_copies. rewrite (proj2 (Nat.ltb_lt _ _) Hp). split; [done|]. split; [by eapply parts_copies_length|].
  rewrite Hc. cbn [drop Nat.mul]. split; [apply places_fst|split].
  - intros s o Hin. eapply places_bound in Hin as [_ ?]; done.
  - apply places_disjoint.
Qed.
End build.

(** * Examples and defects *)

(** An allreduce of ten elements. *)
Definition call_ex (i dtype : nat) : user_sched := mk_user_sched i ccl_coll_allreduce 10 dtype 0 0 0 0 false false true "m" 0.

(** Elements of four bytes, buffers of [100 * 3] bytes, groups of three. *)
Abbreviation fstep_ex := (fstep (fun _ => 4) 100 3 false true 1).

Ltac fusion_fill := eapply rtc_l; [apply (f_fill _ _ _ _ _ _) with (found := not_cached); by vm_compute|].
Ltac fusion_step c := eapply rtc_l; [apply c; first [by vm_compute|set_solver]|].

Definition prog_ex : list ucmd := [Call (call_ex 1 0); Call (call_ex 2 0); Wait 2].

Lemma fusion_run_ex : exists w, rtc fstep_ex (fstart prog_ex) w /\ fw_prog w = [Wait 2] /\ fw_waiting w = true /\
  exec_queue (fw_m w) = [call_ex 1 0] /\ postponed_queue (fw_m w) = [call_ex 2 0] /\ fw_flag w = Some false.
Proof.
  eexists. split.
  - fusion_step f_call. fusion_step f_recheck. fusion_fill. fusion_step f_call. fusion_step f_wait. fusion_step f_recheck. apply rtc_refl.
  - by vm_compute.
Qed.

(** A user that waits for a call behind one of another kind waits forever: the queue holds a call of the other kind, which nobody waits for, and is not flushed. *)
Theorem wait_behind_other_kind w : rtc fstep_ex (fstart [Call (call_ex 1 0); Call (call_ex 2 1); Wait 2]) w -> fw_started w = [].
Proof.
  intros H. apply started_prefix in H; [|by repeat constructor]. vm_compute in H. by apply prefix_nil_inv in H.
Qed.

(** A program that tests for completion can be fused in different ways on two ranks: their fused allreduces do not match. *)
Theorem test_splits_groups : let prog := [Call (call_ex 1 0); Test 1; Call (call_ex 2 0); Wait 2] in
  exists w w', rtc fstep_ex (fstart prog) w /\ rtc fstep_ex (fstart prog) w' /\
    fw_started w = [[call_ex 1 0]; [call_ex 2 0]] /\ fw_started w' = [[call_ex 1 0; call_ex 2 0]].
Proof.
  eexists _, _. split; [|split].
  - fusion_step f_call. fusion_step f_recheck. fusion_fill. fusion_step f_test. fusion_step f_recheck. fusion_fill.
    fusion_step f_call. fusion_step f_recheck. fusion_fill. fusion_step f_wait. fusion_step f_recheck. fusion_fill. apply rtc_refl.
  - fusion_step f_call. fusion_step f_test. fusion_step f_call. fusion_step f_recheck. fusion_fill. fusion_step f_recheck. fusion_fill. apply rtc_refl.
  - by vm_compute.
Qed.

(** The key of a fused schedule knows the first and the last call of the group, their number and the number of elements, but not the calls between them: a cached schedule
    is found for a group with other calls, and copies and completes the calls it was built for.  With keys that are match ids, it is also found for a user's call. *)
Theorem fused_key_collides first last l l' : length l = length l' -> sum_count l = sum_count l' ->
  fused_key (first :: l ++ [last]) = fused_key (first :: l' ++ [last]) /\
  forall key fields, fused_key (first :: l ++ [last]) = Ok key ->
    key_eqb ccl_cache_key_match_id key (mk_key fields [] [] (us_match_id first ++ us_match_id last)) = true.
Proof.
  intros Hl Hs. assert (Hk : forall k, fused_key (first :: k ++ [last]) =
    Ok (mk_key (mk_fields (us_ctype first) 0 0 (Z.of_nat (us_dtype first)) (Z.of_nat (us_reduction first)) (Z.of_nat (us_count first + (sum_count k + us_count last)))
      (Z.of_nat (S (length k + 1))) 0 (-1) (-1) (Z.of_nat (us_comm first)) 0) [] [] (us_match_id first ++ us_match_id last))).
  { intros k. unfold fused_key. change (first :: k ++ [last]) with ((first :: k) ++ [last]). rewrite last_snoc. unfold sum_count. cbn [app head]. csimpl.
    rewrite fmap_app, sum_list_with_app, length_app. cbn. unfold id. by rewrite Nat.add_0_r. }
  rewrite !Hk, Hl, Hs. split; [done|]. intros key fields [= <-]. unfold key_eqb. rewrite decide_False by done. by apply bool_decide_eq_true.
Qed.

(** ** Witnesses *)

Lemma fusion_groups_determined_witness : exists w, fw_started w `prefix_of` program_groups (fun _ => 4) 100 3 false true [] prog_ex /\
  fw_prog w = [Wait 2].
Proof.
  destruct fusion_run_ex as (w & Hr & Hp & _). exists w. split; [|exact Hp].
  apply (fusion_groups_determined (fun _ => 4) 100 3 false true 1 prog_ex w); [by repeat constructor|exact Hr].
Defined.

Lemma fused_data_fits_witness : exists w, fw_prog w = [Wait 2] /\
  Forall (group_ok (fun _ => 4) 100 3) (fw_started w) /\ exec_queue_sum_bytes (fw_m w) = sum_list (us_bytes (fun _ => 4) <$> exec_queue (fw_m w)) /\
  exec_queue_sum_bytes (fw_m w) <= buffer_size 100 3 /\
  (forall flush found, fw_flag w = Some flush -> 1 < 1 \/ found <> cached_running -> exists r, fill_and_flush (fun _ => 4) 100 3 true 1 (fw_m w) flush (urgent_in (fw_urgent w)) found = Ok r).
Proof.
  destruct fusion_run_ex as (w & Hr & Hp & _). exists w. split; [exact Hp|]. apply (fused_data_fits (fun _ => 4) 100 3 false true 1 prog_ex w); [lia|exact Hr].
Defined.


Lemma fused_copies_complete_witness : let g := [call_ex 1 0; call_ex 2 0; call_ex 3 0] in
  exists cs, fused_copies (fun _ => 4) g 2 = Ok cs /\ length cs = 2 /\ (concat cs).*1 = g /\
    (forall s o, (s, o) ∈ concat cs -> o + us_bytes (fun _ => 4) s <= buffer_size 100 3) /\
    (forall i j s o s' o', i < j -> concat cs !! i = Some (s, o) -> concat cs !! j = Some (s', o') -> o + us_bytes (fun _ => 4) s <= o').
Proof.
  apply (fused_copies_complete (fun _ => 4) 100 3); [lia|]. exists (call_ex 1 0), [call_ex 2 0; call_ex 3 0]. split; [reflexivity|]. split; [repeat constructor|vm_compute; lia].
Defined.

(** Three calls in two parts: one copy in the first part and two in the last. *)
Example fused_copies_ex : fused_copies (fun _ => 4) [call_ex 1 0; call_ex 2 0; call_ex 3 0] 2 = Ok [[(call_ex 1 0, 0)]; [(call_ex 2 0, 40); (call_ex 3 0, 80)]].
Proof. reflexivity. Qed.
