(* ===== verification/Group.v ===== *)
(** Group calls: [src/src/coll/group/group.cpp] and the fallback tables that they change ([src/src/coll/coll_util.cpp]), in a
    host build.

    An operation of a group is a number; [ccl::group_end] calls them.  The state is that of one thread. *)

From S2P Require Import Prelude Cache SelectTable.
Open Scope nat_scope.
Open Scope ccl_scope.

Section group.
Context {recv_algo send_algo : Type} `{EqDecision recv_algo, EqDecision send_algo} (recv_direct : recv_algo) (send_direct : send_algo).
Abbreviation rtable := (list (Z * (recv_algo * ccl_selection_border_type))).
Abbreviation stable := (list (Z * (send_algo * ccl_selection_border_type))).

(** * Fallback tables *)

(** [fallback_recv], [fallback_send] and their stored copies in [ccl::env_data]; a null pointer is [None]. *)
Record fallbacks := mk_fallbacks { fallback_recv : option rtable; fallback_send : option stable; store_recv : option rtable; store_send : option stable }.

Definition enable_direct_fallback_for_pt2pt (e : fallbacks) : outcome fallbacks :=
  r <-? insert (default [] (fallback_recv e)) 0 CCL_SELECTION_MAX_COLL_SIZE recv_direct ;;
  s <-? insert (default [] (fallback_send e)) 0 CCL_SELECTION_MAX_COLL_SIZE send_direct ;;
  Returns (mk_fallbacks (Some r) (Some s) (Some r) (Some s)).

Definition restore_pt2pt_fallback_table (e : fallbacks) : outcome fallbacks :=
  match fallback_recv e, fallback_send e, store_recv e, store_send e with
  | Some _, Some _, Some r, Some s => Returns (mk_fallbacks (Some r) (Some s) (Some r) (Some s))
  | _, _, _, _ => Throws
  end.

(** * Groups *)

Record group_state := mk_group {
  is_group_active : bool; first_group_op : bool; operation_storage : list (ccl_coll_type * nat); post_processing_steps : list nat; g_env : fallbacks }.
Implicit Types g : group_state.

Definition start (is_multi_thread_instance : bool) g : outcome group_state :=
  e <-? (if is_multi_thread_instance then Returns (g_env g) else enable_direct_fallback_for_pt2pt (g_env g)) ;;
  Returns (mk_group true (first_group_op g) [] (post_processing_steps g) e).

Definition add_operation (t : ccl_coll_type) (op : nat) g : outcome group_state :=
  check is_group_active g ;;
  Returns (mk_group true (first_group_op g) (operation_storage g ++ [(t, op)]) (post_processing_steps g) (g_env g)).

Definition add_post_processing_step (step : nat) g : outcome group_state :=
  check is_group_active g ;;
  Returns (mk_group true (first_group_op g) (operation_storage g) (post_processing_steps g ++ [step]) (g_env g)).

(** The calls of the operations, each with the value of [first_group_op] that it sees. *)
Definition call_all (first : bool) (ops : list nat) : list (nat * bool) :=
  match ops with [] => [] | op :: ops' => (op, first) :: ((fun o => (o, false)) <$> ops') end.

(** [end]: the calls that it makes, and the steps that it polls. *)
Definition end_group (is_multi_thread_instance : bool) g : outcome (group_state * list (nat * bool) * list nat) :=
  let recvs := (filter (fun o => o.1 = ccl_coll_recv) (operation_storage g)).*2 in
  let discovery := if is_multi_thread_instance then call_all true recvs else [] in
  let execution := call_all (bool_decide (discovery = [])) (operation_storage g).*2 in
  e <-? (if is_multi_thread_instance then Returns (g_env g) else restore_pt2pt_fallback_table (g_env g)) ;;
  Returns (mk_group false false [] [] e, discovery ++ execution, post_processing_steps g).

(** The polling of the post-processing steps: [done i n] is the result of the [n]-th call of a step; the number of rounds. *)
Fixpoint poll (fuel : nat) (done : nat -> nat -> bool) (round : nat) (steps : list nat) : option nat :=
  match fuel with
  | O => None
  | S fuel' => if forallb (fun i => done i round) steps then Some (S round) else poll fuel' done (S round) steps
  end.

(** A whole group in a program. *)
Fixpoint add_all (ops : list (ccl_coll_type * nat)) g : outcome group_state :=
  match ops with [] => Returns g | (t, op) :: ops' => g' <-? add_operation t op g ;; add_all ops' g' end.

Definition run_group (ops : list (ccl_coll_type * nat)) g : outcome (group_state * list (nat * bool) * list nat) :=
  g <-? start false g ;; g <-? add_all ops g ;; end_group false g.

(** * Theorems *)

Lemma add_all_ops ops g : is_group_active g = true ->
  add_all ops g = Returns (mk_group true (first_group_op g) (operation_storage g ++ ops) (post_processing_steps g) (g_env g)).
Proof.
  revert g. induction ops as [|[t op] ops IH]; intros g Ha; cbn [add_all]; [rewrite app_nil_r; destruct g; cbn in *; by subst|].
  unfold add_operation. rewrite Ha. cbn [outcome_bind]. rewrite IH by done. cbn. by rewrite <- app_assoc.
Qed.

(** The calls of a group are made once each and in their order, whatever was left by a group before; outside of a group an operation is refused. *)
Theorem group_calls_all ops g e : enable_direct_fallback_for_pt2pt (g_env g) = Returns e ->
  exists g' calls, run_group ops g = Returns (g', calls, post_processing_steps g) /\ calls.*1 = ops.*2 /\
    is_group_active g' = false /\ operation_storage g' = [] /\ forall t op, add_operation t op g' = Throws.
Proof.
  intros He. unfold run_group, start. rewrite He. cbn [outcome_bind]. rewrite add_all_ops by done. cbn [outcome_bind]. unfold end_group. cbn.
  assert (Hr : exists e', restore_pt2pt_fallback_table e = Returns e').
  { unfold enable_direct_fallback_for_pt2pt in He. destruct (insert _ _ _ recv_direct) as [r| |]; [|done..]. cbn in He. destruct (insert _ _ _ send_direct) as [s| |]; [|done..].
    cbn in He. injection He as <-. by eexists. }
  destruct Hr as [e' ->]. cbn. eexists _, _. split; [done|]. split; [|done]. destruct (ops.*2) as [|o l]; [done|]. cbn. f_equal. by rewrite <- list_fmap_compose, list_fmap_id.
Qed.

(** The stored copies are made after the direct algorithms have been inserted: what the end of a group restores are the changed tables, whatever
    they were before, and sends and receives outside of groups have them from then on. *)
Theorem fallback_not_preserved e e' : enable_direct_fallback_for_pt2pt e = Returns e' -> restore_pt2pt_fallback_table e' = Returns e'.
Proof.
  unfold enable_direct_fallback_for_pt2pt. destruct (insert _ _ _ recv_direct) as [r| |]; [|done..]. cbn. destruct (insert _ _ _ send_direct) as [s| |]; [|done..].
  cbn. by intros [= <-].
Qed.

(** An inner start drops the operations of the outer group. *)
Theorem nested_start_drops ops inner g e : enable_direct_fallback_for_pt2pt (g_env g) = Returns e ->
  forall g1 g2, start false g = Returns g1 -> add_all ops g1 = Returns g2 ->
  forall r, run_group inner g2 = Returns r -> r.1.2.*1 = inner.*2.
Proof.
  intros He g1 g2 H1 H2 r. unfold run_group, start. destruct (enable_direct_fallback_for_pt2pt (g_env g2)) as [e2| |]; [|done..]. cbn [outcome_bind]. rewrite add_all_ops by done.
  cbn [outcome_bind]. unfold end_group. cbn. destruct (restore_pt2pt_fallback_table e2) as [e3| |]; [|done..]. cbn. intros [= <-]. cbn.
  destruct (inner.*2) as [|o l]; [done|]. cbn. f_equal. by rewrite <- list_fmap_compose, list_fmap_id.
Qed.

Lemma poll_ends done steps n round fuel : (forall i, i ∈ steps -> forall k, round + n <= k -> done i k = true) -> n < fuel ->
  exists k, poll fuel done round steps = Some k /\ k <= S (round + n).
Proof.
  revert round fuel. induction n as [|n IH]; intros round fuel Hd Hf; (destruct fuel as [|fuel]; [lia|]); cbn [poll];
    destruct (forallb _ steps) eqn:E; try (exists (S round); split; [done|lia]).
  - assert (Hall : forallb (fun i => done i round) steps = true). { apply forallb_forall. intros i Hi. apply Hd; [by apply list_elem_of_In|lia]. } congruence.
  - destruct (IH (S round) fuel) as (k & Hk & Hb); [intros i Hi k Hk; apply Hd; [done|lia]|lia|]. exists k. split; [done|lia].
Qed.
End group.
