(* ===== verification/Executor.v ===== *)
(** The executor of [src/src/exec/exec.cpp]: how partial schedules go to workers and endpoints to queues. *)

From S2P Require Import Prelude Queue.
Open Scope nat_scope.
Open Scope ccl_scope.

(** What the executor reads of a schedule. *)
Record exec_sched := mk_exec_sched { es_id : nat; es_op_id : nat; es_scaleout : bool }.
Implicit Types s : exec_sched.

Section executor.
Context (worker_count : nat).

(** [get_worker_idx_by_sched_id]; no workers is a division by zero. *)
Definition get_worker_idx_by_sched_id s : result nat :=
  if worker_count =? 0 then Throw else Ok (if es_scaleout s then es_op_id s mod worker_count else es_id s mod worker_count).

(** The loop of [start]: the schedules with the workers that they are added to. *)
Fixpoint assign_from (worker_idx : nat) (l : list exec_sched) : list (exec_sched * nat) :=
  match l with [] => [] | s :: l' => (s, worker_idx) :: assign_from ((worker_idx + 1) mod worker_count) l' end.

(** [start]: an extra schedule goes to the first worker, the partial schedules go round. *)
Definition start_sched (extra : option exec_sched) (partial_scheds : list exec_sched) : result (list (exec_sched * nat)) :=
  match extra with
  | Some s => if worker_count =? 0 then Throw else Ok [(s, 0)]
  | None =>
    match partial_scheds with
    | [] => Throw
    | s :: _ => worker_idx <-! get_worker_idx_by_sched_id s ;; Ok (assign_from worker_idx partial_scheds)
    end
  end.

Definition calculate_atl_ep_count (priority_mode : bool) (workers : nat) : nat := if priority_mode then workers * CCL_PRIORITY_BUCKET_COUNT else workers.

(** [create_sched_queue]: the endpoints of a worker. *)
Definition queue_eps (idx ep_per_worker : nat) : list nat := (fun i => idx * ep_per_worker + i) <$> seq 0 ep_per_worker.

(** The loop of [start_workers] and [update_workers]. *)
Definition worker_eps (priority_mode : bool) : result (list (list nat)) :=
  if worker_count =? 0 then Ok [] else
  let ep_per_worker := calculate_atl_ep_count priority_mode worker_count / worker_count in
  Ok ((fun idx => queue_eps idx ep_per_worker) <$> seq 0 worker_count).

(** * Theorems *)

Lemma assign_lookup w l k s : w < worker_count -> l !! k = Some s -> assign_from w l !! k = Some (s, (w + k) mod worker_count).
Proof.
  revert w k. induction l as [|s0 l IH]; intros w k Hw Hk; [done|]. cbn [assign_from]. destruct k as [|k].
  - injection Hk as ->. by rewrite Nat.add_0_r, (Nat.mod_small w).
  - etrans; [apply (IH ((w + 1) mod worker_count) k); [apply Nat.mod_upper_bound; lia|done]|].
    rewrite Nat.Div0.add_mod_idemp_l. by replace (w + 1 + k) with (w + S k) by lia.
Qed.

Lemma assign_length w l : length (assign_from w l) = length l.
Proof. revert w. induction l as [|s l IH]; intros w; [done|]. cbn. by rewrite IH. Qed.

Lemma mod_window w a b : 0 < worker_count -> (w + a) mod worker_count = (w + b) mod worker_count -> a < b -> worker_count <= b - a.
Proof.
  intros Hn E Hab. pose proof (Nat.div_mod_eq (w + a) worker_count). pose proof (Nat.div_mod_eq (w + b) worker_count). rewrite E in *.
  assert ((w + a) / worker_count < (w + b) / worker_count) by nia. nia.
Qed.

(** The partial schedules of a collective are assigned round-robin, whatever their ids are: every one is added to a worker, and of any [worker_count]
    successive ones no two are on the same worker. *)
Theorem partial_scheds_spread l : 0 < worker_count -> l <> [] -> exists a, start_sched None l = Ok a /\ a.*1 = l /\ Forall (fun p => p.2 < worker_count) a /\
  forall i j p q, a !! i = Some p -> a !! j = Some q -> i < j < i + worker_count -> p.2 <> q.2.
Proof.
  intros Hn Hl. destruct l as [|s0 l0] eqn:El; [done|]. rewrite <- El. assert (Hw : exists w, get_worker_idx_by_sched_id s0 = Ok w /\ w < worker_count).
  { unfold get_worker_idx_by_sched_id. destruct (Nat.eqb_spec worker_count 0); [lia|]. eexists. split; [done|]. destruct (es_scaleout s0); apply Nat.mod_upper_bound; lia. }
  destruct Hw as (w & Ew & Hw). exists (assign_from w l). split; [subst l; cbn [start_sched]; by rewrite Ew|].
  assert (Hlook : forall k p, assign_from w l !! k = Some p -> exists s, l !! k = Some s /\ p = (s, (w + k) mod worker_count)).
  { intros k p Hp. assert (Hk : k < length l) by (rewrite <- (assign_length w); by eapply lookup_lt_Some). destruct (lookup_lt_is_Some_2 l k Hk) as [s Hs].
    exists s. rewrite (assign_lookup w l k s Hw Hs) in Hp. by injection Hp as <-. }
  split; [|split].
  - apply list_eq. intros k. rewrite list_lookup_fmap. destruct (l !! k) as [s|] eqn:Es; [by rewrite (assign_lookup w l k s Hw Es)|].
    destruct (assign_from w l !! k) as [p|] eqn:Ep; [|done]. destruct (Hlook k p Ep) as (s & Hs & _). congruence.
  - apply Forall_lookup. intros k p Hp. destruct (Hlook k p Hp) as (s & _ & ->). apply Nat.mod_upper_bound. lia.
  - intros i j p q Hp Hq Hij E. destruct (Hlook i p Hp) as (s & _ & ->), (Hlook j q Hq) as (s' & _ & ->). cbn in E. apply mod_window in E; lia.
Qed.

(** The queues of the workers share no endpoint and have all endpoints. *)
Theorem worker_eps_partition priority_mode l : worker_eps priority_mode = Ok l -> concat l = seq 0 (calculate_atl_ep_count priority_mode worker_count).
Proof.
  unfold worker_eps. destruct (Nat.eqb_spec worker_count 0) as [E|Hn].
  - intros [= <-]. rewrite E. by destruct priority_mode.
  - intros [= <-]. set (e := calculate_atl_ep_count priority_mode worker_count / worker_count).
    assert (He : calculate_atl_ep_count priority_mode worker_count = worker_count * e).
    { unfold e, calculate_atl_ep_count. destruct priority_mode; [rewrite (Nat.mul_comm worker_count), Nat.div_mul by done; lia|rewrite Nat.div_same by done; lia]. }
    rewrite He. clear. assert (H : forall n lo, concat ((fun idx => queue_eps idx e) <$> seq lo n) = seq (lo * e) (n * e)).
    { induction n as [|n IH]; intros lo; [done|]. cbn. rewrite IH, seq_app. f_equal; [|f_equal; lia]. unfold queue_eps. by rewrite fmap_add_seq, Nat.add_0_r. }
    by rewrite H.
Qed.
End executor.

Lemma partial_scheds_spread_witness : let l := (fun i => mk_exec_sched (65533 + i) 0 false) <$> [0; 1; 2; 3; 4] in
  exists a, start_sched 4 None l = Ok a /\ a.*1 = l /\ Forall (fun p => p.2 < 4) a /\
  forall i j p q, a !! i = Some p -> a !! j = Some q -> i < j < i + 4 -> p.2 <> q.2.
Proof. apply partial_scheds_spread; [lia|discriminate]. Defined.
