(* ===== verification/Datatype.v ===== *)
(** The datatypes of a process: [src/src/common/datatype/datatype.cpp].

    An index is a 32-bit signed integer.  Names are left out but for the number in them. *)

From S2P Require Import Prelude.
Open Scope Z_scope.
Open Scope ccl_scope.

Definition int8 : Z := 0.
Definition last_predefined_dt : Z := 11.

(** [sizeof] of the predefined datatypes, from [int8] to [bfloat16]. *)
Definition predefined_sizes : list Z := [1; 1; 2; 2; 4; 4; 8; 8; 2; 4; 8; 2].

Definition is_predefined_datatype (idx : Z) : bool := (int8 <=? idx) && (idx <=? last_predefined_dt).

Record ccl_datatype := mk_datatype { m_idx : Z; m_size : Z }.
Definition default_datatype : ccl_datatype := mk_datatype int8 1.

(** The constructor of a datatype. *)
Definition make_datatype (idx size : Z) : result ccl_datatype := throw_if_not (0 <? size) ;; Ok (mk_datatype idx size).

Definition size (d : ccl_datatype) : result Z := throw_if_not (0 <? m_size d) ;; Ok (m_size d).

Record ccl_datatype_storage := mk_storage { predefined_table : gmap Z ccl_datatype; custom_table : gmap Z ccl_datatype; custom_idx : Z }.
Implicit Types (st : ccl_datatype_storage) (t : gmap Z ccl_datatype).

Definition create_internal t (idx size : Z) : result (gmap Z ccl_datatype) :=
  throw_if_not (negb (bool_decide (is_Some (t !! idx)))) ;; d <-! make_datatype idx size ;; Ok (<[idx := d]> t).

Definition get st (idx : Z) : ccl_datatype :=
  if is_predefined_datatype idx then default default_datatype (predefined_table st !! idx) else default default_datatype (custom_table st !! idx).

(** The constructor: the loop over the predefined datatypes, with its checks of what it has inserted. *)
Fixpoint fill_predefined (idx : Z) (sizes : list Z) t : result (gmap Z ccl_datatype) :=
  match sizes with
  | [] => Ok t
  | sz :: sizes' =>
    throw_if_not (0 <? sz) ;;
    t' <-! create_internal t idx sz ;;
    let d := get (mk_storage t' ∅ (last_predefined_dt + 1)) idx in
    throw_if_not (m_idx d =? idx) ;; sz' <-! size d ;; throw_if_not (sz' =? sz) ;;
    fill_predefined (idx + 1) sizes' t'
  end.

Definition new_storage : result ccl_datatype_storage :=
  t <-! fill_predefined int8 predefined_sizes ∅ ;; Ok (mk_storage t ∅ (last_predefined_dt + 1)).

(** [custom_idx++], and to [int8] when it has become negative. *)
Definition next_idx (idx : Z) : Z := let idx' := int32 (idx + 1) in if idx' <? int8 then int8 else idx'.

Definition busy st (idx : Z) : bool := bool_decide (is_Some (custom_table st !! idx)) || is_predefined_datatype idx.

(** The search of [create_by_datatype_size] for a free index. *)
Fixpoint free_idx (fuel : nat) st (idx : Z) : option Z :=
  match fuel with O => None | S fuel' => if busy st idx then free_idx fuel' st (next_idx idx) else Some idx end.

Definition create_by_datatype_size st (datatype_size : Z) : result (ccl_datatype_storage * Z) :=
  match free_idx (S (Datatypes.length predefined_sizes + base.size (custom_table st))) st (custom_idx st) with
  | None => Throw
  | Some idx =>
    throw_if_not (0 <? datatype_size) ;;
    t <-! create_internal (custom_table st) idx datatype_size ;; Ok (mk_storage (predefined_table st) t idx, idx)
  end.

Definition free st (idx : Z) : result ccl_datatype_storage :=
  throw_if_not (negb (is_predefined_datatype idx)) ;;
  throw_if_not (bool_decide (is_Some (custom_table st !! idx))) ;;
  Ok (mk_storage (predefined_table st) (delete idx (custom_table st)) (custom_idx st)).

(** * Every storage that a process can have *)

Inductive storage : ccl_datatype_storage -> Prop :=
| storage_new st : new_storage = Ok st -> storage st
| storage_create st n st' idx : storage st -> create_by_datatype_size st n = Ok (st', idx) -> storage st'
| storage_free st idx st' : storage st -> free st idx = Ok st' -> storage st'.

Record storage_inv st : Prop := mk_storage_inv {
  sv_predefined : forall i, 0 <= i < 12 -> exists d, predefined_table st !! i = Some d /\ m_idx d = i /\ predefined_sizes !! Z.to_nat i = Some (m_size d);
  sv_custom : map_Forall (fun i d => 12 <= i < 2 ^ 31 /\ m_idx d = i /\ 0 < m_size d) (custom_table st);
  sv_idx : 0 <= custom_idx st < 2 ^ 31 }.

Lemma next_idx_range idx : 0 <= idx < 2 ^ 31 -> next_idx idx = (idx + 1) mod 2 ^ 31.
Proof.
  intros H. unfold next_idx, int8. destruct (decide (idx = 2 ^ 31 - 1)) as [->|Hne]; [by vm_compute|]. rewrite int32_small by lia.
  destruct (Z.ltb_spec (idx + 1) 0); [lia|]. by rewrite Z.mod_small by lia.
Qed.

(** The indices that the search visits. *)
Lemma free_idx_none fuel st idx : 0 <= idx < 2 ^ 31 -> free_idx fuel st idx = None -> forall k, (k < fuel)%nat -> busy st ((idx + Z.of_nat k) mod 2 ^ 31) = true.
Proof.
  revert idx. induction fuel as [|fuel IH]; intros idx Hi; cbn [free_idx]; [lia|]. destruct (busy st idx) eqn:Eb; [|done]. intros Hn k Hk. destruct k as [|k].
  - by rewrite Z.add_0_r, Z.mod_small.
  - rewrite next_idx_range in Hn by done. specialize (IH ((idx + 1) mod 2 ^ 31) ltac:(apply Z.mod_pos_bound; lia) Hn k ltac:(lia)).
    rewrite Z.add_mod_idemp_l in IH by lia. by replace (idx + Z.of_nat (S k)) with (idx + 1 + Z.of_nat k) by lia.
Qed.

Definition visited (idx : Z) (n : nat) : list Z := (fun k => (idx + Z.of_nat k) mod 2 ^ 31) <$> seq 0 n.

Lemma visited_nodup idx n : Z.of_nat n <= 2 ^ 31 -> NoDup (visited idx n).
Proof.
  intros Hn. apply NoDup_fmap_2_strong; [|apply NoDup_seq]. intros i j Hi%elem_of_seq Hj%elem_of_seq E.
  pose proof (Z.div_mod (idx + Z.of_nat i) (2 ^ 31) ltac:(lia)). pose proof (Z.div_mod (idx + Z.of_nat j) (2 ^ 31) ltac:(lia)). rewrite E in *. nia.
Qed.

(** The busy indices. *)
Definition busy_set st : gset Z := dom (custom_table st) ∪ list_to_set (Z.of_nat <$> seq 0 12).

Lemma busy_in st idx : busy st idx = true -> idx ∈ busy_set st.
Proof.
  unfold busy, busy_set. intros [H%bool_decide_eq_true|H]%orb_prop; [apply elem_of_union_l; by apply elem_of_dom|apply elem_of_union_r].
  unfold is_predefined_datatype, int8, last_predefined_dt in H. apply andb_prop in H as [?%Z.leb_le ?%Z.leb_le].
  apply elem_of_list_to_set, list_elem_of_fmap. exists (Z.to_nat idx). split; [lia|]. apply elem_of_seq. lia.
Qed.

Lemma busy_size st : (base.size (busy_set st) <= 12 + base.size (custom_table st))%nat.
Proof.
  unfold busy_set. rewrite size_union_alt. rewrite size_dom.
  pose proof (subseteq_size (list_to_set (Z.of_nat <$> seq 0 12) ∖ dom (custom_table st)) (list_to_set (Z.of_nat <$> seq 0 12) : gset Z) ltac:(set_solver)) as H.
  rewrite size_list_to_set in H by (apply NoDup_fmap_2; [intros ? ?; lia|apply NoDup_seq]). rewrite length_fmap, length_seq in H. lia.
Qed.

Lemma free_idx_found st : storage_inv st -> Z.of_nat (base.size (custom_table st)) < 2 ^ 31 - 12 ->
  exists idx, free_idx (S (Datatypes.length predefined_sizes + base.size (custom_table st))) st (custom_idx st) = Some idx.
Proof.
  intros [_ _ Hi] Hs. destruct (free_idx _ st (custom_idx st)) as [idx|] eqn:E; [by exists idx|]. exfalso. set (n := S _) in E.
  assert (Hsub : list_to_set (visited (custom_idx st) n) ⊆ busy_set st).
  { intros x (k & -> & Hk%elem_of_seq)%elem_of_list_to_set%list_elem_of_fmap. apply busy_in. eapply free_idx_none; [done|done|lia]. }
  apply subseteq_size in Hsub. rewrite size_list_to_set in Hsub by (apply visited_nodup; unfold n; cbn; lia). unfold visited in Hsub. rewrite length_fmap, length_seq in Hsub.
  pose proof (busy_size st). unfold n in Hsub. cbn in Hsub. lia.
Qed.

Lemma free_idx_free fuel st idx i : 0 <= idx < 2 ^ 31 -> free_idx fuel st idx = Some i -> busy st i = false /\ 0 <= i < 2 ^ 31.
Proof.
  revert idx. induction fuel as [|fuel IH]; intros idx Hi; cbn [free_idx]; [done|]. destruct (busy st idx) eqn:Eb; [|by intros [= <-]].
  apply IH. rewrite next_idx_range by done. apply Z.mod_pos_bound. lia.
Qed.

Lemma not_busy st i : busy st i = false -> custom_table st !! i = None /\ is_predefined_datatype i = false.
Proof. unfold busy. intros [H%bool_decide_eq_false ?]%orb_false_elim. by rewrite eq_None_not_Some. Qed.

Lemma create_spec st n : storage_inv st -> 0 < n -> Z.of_nat (base.size (custom_table st)) < 2 ^ 31 - 12 ->
  exists idx, create_by_datatype_size st n = Ok (mk_storage (predefined_table st) (<[idx := mk_datatype idx n]> (custom_table st)) idx, idx) /\
    custom_table st !! idx = None /\ is_predefined_datatype idx = false /\ 0 <= idx < 2 ^ 31.
Proof.
  intros Hi Hn Hs. destruct (free_idx_found st Hi Hs) as [idx E]. exists idx. destruct (free_idx_free _ _ _ _ (sv_idx _ Hi) E) as [Hb Hr].
  apply not_busy in Hb as [Hb Hp]. split; [|done]. unfold create_by_datatype_size. rewrite E. rewrite (proj2 (Z.ltb_lt _ _) Hn). unfold create_internal.
  rewrite bool_decide_eq_false_2 by (by rewrite Hb; intros [? ?]). cbn. unfold make_datatype. by rewrite (proj2 (Z.ltb_lt _ _) Hn).
Qed.

Lemma new_storage_inv st : new_storage = Ok st -> storage_inv st.
Proof.
  unfold new_storage. destruct (fill_predefined int8 predefined_sizes ∅) as [t|] eqn:Et; [|done]. intros [= <-]. split; cbn; [|apply map_Forall_empty|done].
  vm_compute in Et. injection Et as <-. intros i Hi.
  assert (Hc : i = 0 \/ i = 1 \/ i = 2 \/ i = 3 \/ i = 4 \/ i = 5 \/ i = 6 \/ i = 7 \/ i = 8 \/ i = 9 \/ i = 10 \/ i = 11) by lia.
  destruct_or! Hc; subst i; eexists; (split; [vm_compute; reflexivity|by split]).
Qed.

Lemma storage_ok st : storage st -> storage_inv st.
Proof.
  induction 1 as [st E|st n st' idx _ Hi E|st idx st' _ Hi E].
  - by apply new_storage_inv.
  - unfold create_by_datatype_size in E. destruct (free_idx _ st (custom_idx st)) as [i|] eqn:Ef; [|done]. destruct (Z.ltb_spec 0 n); [|done].
    destruct (free_idx_free _ _ _ _ (sv_idx _ Hi) Ef) as [[Hb Hp]%not_busy Hr]. unfold create_internal, make_datatype in E. destruct (negb _); [|done].
    rewrite (proj2 (Z.ltb_lt 0 n)) in E by done. cbn in E. injection E as <- <-. destruct Hi as [H1 H2 H3]. split; cbn; [done| |done].
    apply map_Forall_insert; [done|]. split; [|done]. cbn. unfold is_predefined_datatype, int8, last_predefined_dt in Hp. split_and!; try done; lia.
  - unfold free in E. destruct (negb _); [|done]. destruct (bool_decide _); [|done]. injection E as <-. destruct Hi as [H1 H2 H3]. split; cbn; [done| |done].
    by apply map_Forall_delete.
Qed.

(** In every storage that a process can have, a new datatype gets an index that no other datatype has, although the counter of indices wraps around; its size is
    read back, and all other datatypes stay; the search ends as long as an index is free. *)
Theorem create_then_get st n : storage st -> 0 < n -> Z.of_nat (base.size (custom_table st)) < 2 ^ 31 - 12 ->
  exists st' idx, create_by_datatype_size st n = Ok (st', idx) /\ is_predefined_datatype idx = false /\ custom_table st !! idx = None /\
    size (get st' idx) = Ok n /\ (forall i, i <> idx -> get st' i = get st i) /\
    exists st'', free st' idx = Ok st'' /\ forall i, get st'' i = get st i.
Proof.
  intros Hs Hn Hc. destruct (create_spec st n (storage_ok st Hs) Hn Hc) as (idx & E & Hnone & Hp & _). eexists _, idx. split; [exact E|]. split; [done|]. split; [done|].
  unfold get, free. cbn. rewrite Hp. split; [|split].
  - simplify_map_eq. unfold size. cbn. by rewrite (proj2 (Z.ltb_lt 0 n)).
  - intros i Hi. by rewrite lookup_insert_ne.
  - rewrite bool_decide_eq_true_2 by (simplify_map_eq; by eexists). eexists. split; [done|]. intros i. cbn. by rewrite delete_insert_id.
Qed.

(** A storage with a custom datatype. *)
Definition storage_ex : result ccl_datatype_storage :=
  st <-! new_storage ;; r <-! create_by_datatype_size st 16 ;; Ok r.1.

Lemma create_then_get_witness : exists st, storage_ex = Ok st /\ exists st' idx, create_by_datatype_size st 24 = Ok (st', idx) /\ is_predefined_datatype idx = false /\
  custom_table st !! idx = None /\ size (get st' idx) = Ok 24 /\ (forall i, i <> idx -> get st' i = get st i) /\
  exists st'', free st' idx = Ok st'' /\ forall i, get st'' i = get st i.
Proof.
  destruct storage_ex as [st|] eqn:E; [|vm_compute in E; discriminate E]. exists st. split; [reflexivity|]. apply create_then_get; [|lia|].
  - unfold storage_ex in E. destruct new_storage as [st0|] eqn:E0; [|discriminate E]. cbn in E. destruct (create_by_datatype_size st0 16) as [[st1 i]|] eqn:E1; [|discriminate E].
    injection E as <-. eapply storage_create; [apply storage_new; exact E0|exact E1].
  - vm_compute in E. injection E as <-. vm_compute. reflexivity.
Defined.

(** The counter wraps around: an index behind the predefined ones is found again. *)
Example idx_wraps : create_by_datatype_size (mk_storage ∅ {[2 ^ 31 - 1 := mk_datatype (2 ^ 31 - 1) 3]} (2 ^ 31 - 1)) 5 =
  Ok (mk_storage ∅ (<[12 := mk_datatype 12 5]> {[2 ^ 31 - 1 := mk_datatype (2 ^ 31 - 1) 3]}) 12, 12).
Proof. vm_compute. reflexivity. Qed.
