(* ===== verification/Param.v ===== *)
(** The parameters of a call and their checks: [ccl_coll_param::create_..._param] and [validate] of [src/src/coll/coll_param.cpp] and
    [ccl_coll_validate_user_input] of [src/src/coll/coll_check.cpp], for a host build.

    A pointer is its address, the array that a pointer argument points to a function of the index; counts are [size_t].  [Throws] is an exception that the
    caller gets, [Undefined] an access outside of a vector.  The datatype of a call is an index, which is looked up in the storage of datatypes; an index that is
    not there becomes the default datatype.  The theorem says exactly which calls are accepted. *)

From stdpp Require Import list.
From S2P Require Import Prelude Selection Datatype Cache.
Open Scope Z_scope.
Open Scope ccl_scope.

Record ccl_comm := mk_comm { comm_rank : Z; comm_size : Z }.
(** The fields of [ccl_coll_attr] that are checked; [reduction_fn] is whether there is a function. *)
Record coll_attr := mk_attr { reduction_fn : bool; is_vector_buf : bool }.
Record coll_param := mk_param {
  p_ctype : ccl_coll_type; send_bufs : list Z; recv_bufs : list Z; p_send_counts : list Z; p_recv_counts : list Z;
  p_dtype : ccl_datatype; p_reduction : Z; p_root : Z; p_peer_rank : Z; p_comm : ccl_comm }.

(** [vec[idx]] *)
Definition at_index (l : list Z) (i : Z) : outcome Z := if 0 <=? i then match l !! Z.to_nat i with Some x => Returns x | None => Undefined end else Undefined.
Definition vec_size (l : list Z) : Z := Z.of_nat (length l).

(** [ccl_reduction_type_storage::is_custom] *)
Definition avg : Z := 4.
Definition predefined_ops : Z := 6.
Definition max_ops : Z := 2 ^ 31 - 1 - 6.
Definition is_custom (idx : Z) : outcome bool := check (idx <? max_ops) ;; Returns (negb (idx <? predefined_ops)).

Definition ccl_coll_last_regular : Z := coll_type_value ccl_coll_send.
Definition is_reduction_type (t : ccl_coll_type) : bool :=
  match t with ccl_coll_allreduce | ccl_coll_reduce_scatter | ccl_coll_reduce => true | _ => false end.

Definition validate (p : coll_param) : outcome unit :=
  if (ccl_coll_last_regular <? coll_type_value (p_ctype p)) || bool_decide (p_ctype p = ccl_coll_barrier) then Returns tt else
  check negb (vec_size (p_send_counts p) =? 0) ;; check negb (vec_size (p_recv_counts p) =? 0) ;;
  check negb (vec_size (send_bufs p) =? 0) ;; check negb (vec_size (recv_bufs p) =? 0) ;;
  let size := comm_size (p_comm p) in let rank := comm_rank (p_comm p) in
  match p_ctype p with
  | ccl_coll_alltoallv =>
    check (vec_size (send_bufs p) =? 1) || (vec_size (send_bufs p) =? size) ;; check (vec_size (recv_bufs p) =? 1) || (vec_size (recv_bufs p) =? size) ;;
    s <-? at_index (p_send_counts p) rank ;; r <-? at_index (p_recv_counts p) rank ;; check (s =? r) ;;
    check (vec_size (p_send_counts p) <=? 1) || (vec_size (p_send_counts p) =? size) ;;
    check (vec_size (p_recv_counts p) <=? 1) || (vec_size (p_recv_counts p) =? size) ;; Returns tt
  | ccl_coll_allgatherv =>
    check (vec_size (recv_bufs p) =? 1) || (vec_size (recv_bufs p) =? size) ;; check (vec_size (p_send_counts p) =? 1) ;;
    s <-? at_index (p_send_counts p) 0 ;; r <-? at_index (p_recv_counts p) rank ;; check (s =? r) ;;
    check (vec_size (p_recv_counts p) <=? 1) || (vec_size (p_recv_counts p) =? size) ;; Returns tt
  | ccl_coll_allreduce | ccl_coll_alltoall | ccl_coll_allgather | ccl_coll_bcast | ccl_coll_broadcast | ccl_coll_reduce | ccl_coll_reduce_scatter =>
    check (vec_size (send_bufs p) =? vec_size (p_send_counts p)) ;; check (vec_size (recv_bufs p) =? vec_size (p_recv_counts p)) ;;
    sb <-? at_index (send_bufs p) 0 ;; rb <-? at_index (recv_bufs p) 0 ;;
    check negb (bool_decide (p_ctype p = ccl_coll_bcast)) || (sb =? rb) ;;
    custom <-? (if is_reduction_type (p_ctype p) then check negb (p_reduction p =? avg) ;; is_custom (p_reduction p) else Returns false) ;;
    check negb custom ;;
    check (vec_size (p_send_counts p) =? 1) ;;
    s <-? at_index (p_send_counts p) 0 ;; r <-? at_index (p_recv_counts p) 0 ;;
    check (if bool_decide (p_ctype p = ccl_coll_reduce_scatter) then s =? u64 (r * size) else s =? r) ;; Returns tt
  | _ => Returns tt
  end.

(** [set_common_fields]: the events that a call depends on are for devices only; inside of a group they are not looked at. *)
Definition copy_deps (deps : nat) (is_group_active : bool) : outcome unit := check is_group_active || (deps =? 0)%nat ;; Returns tt.

(** A call of the interface. *)
Inductive call :=
| Allgather (sb rb count : Z) | Allgatherv (sb send_count : Z) (rb : Z) (rbs : nat -> Z) (recv_counts : nat -> Z) | Allreduce (sb rb count reduction : Z)
| Alltoall (sb rb count : Z) | Alltoallv (sb : Z) (sbs : nat -> Z) (send_counts : nat -> Z) (rb : Z) (rbs : nat -> Z) (recv_counts : nat -> Z) | Barrier
| Bcast (buf count root : Z) | Broadcast (sb rb count root : Z) | Reduce (sb rb count reduction root : Z) | ReduceScatter (sb rb recv_count reduction : Z)
| Recv (rb count peer : Z) | Send (sb count peer : Z).

Section create.
Context (dtypes : ccl_datatype_storage) (dtype : Z) (attr : coll_attr) (comm : ccl_comm).

(** The first elements of an array. *)
Definition per_rank (f : nat -> Z) : list Z := f <$> seq 0 (Z.to_nat (comm_size comm)).
Definition bufs_of (b : Z) (f : nat -> Z) : list Z := if is_vector_buf attr then per_rank f else [b].
Definition int8_idx : Z := int8.
Definition no_reduction : Z := 0.
Definition CCL_INVALID_ROOT_RANK_IDX : Z := -1.
Definition CCL_INVALID_PEER_RANK_IDX : Z := -1.
(** [set_common_fields] looks the datatype up. *)
Definition mk (t : ccl_coll_type) (sb rb sc rc : list Z) (dt red root peer : Z) : coll_param := mk_param t sb rb sc rc (Datatype.get dtypes dt) red root peer comm.

(** The fields that [create_..._param] set. *)
Notation nored := no_reduction.
Notation noroot := CCL_INVALID_ROOT_RANK_IDX.
Notation nopeer := CCL_INVALID_PEER_RANK_IDX.
Definition allgather_fields sb rb n := mk ccl_coll_allgather [sb] [rb] [n] [n] dtype nored noroot nopeer.
Definition allgatherv_fields sb n rb rbs ns := mk ccl_coll_allgatherv [sb] (bufs_of rb rbs) [n] (per_rank ns) dtype nored noroot nopeer.
Definition allreduce_fields sb rb n red := mk ccl_coll_allreduce [sb] [rb] [n] [n] dtype red noroot nopeer.
Definition alltoall_fields sb rb n := mk ccl_coll_alltoall [sb] [rb] [n] [n] dtype nored noroot nopeer.
Definition alltoallv_fields sb sbs ns rb rbs ns' := mk ccl_coll_alltoallv (bufs_of sb sbs) (bufs_of rb rbs) (per_rank ns) (per_rank ns') dtype nored noroot nopeer.
Definition barrier_fields := mk ccl_coll_barrier [] [] [0] [0] int8_idx nored noroot nopeer.
Definition bcast_fields b n root := mk ccl_coll_bcast [b] [b] [n] [n] dtype nored root nopeer.
Definition broadcast_fields sb rb n root := mk ccl_coll_broadcast [sb] [rb] [n] [n] dtype nored root nopeer.
Definition reduce_fields sb rb n red root := mk ccl_coll_reduce [sb] [rb] [n] [n] dtype red root nopeer.
Definition reduce_scatter_fields sb rb n red := mk ccl_coll_reduce_scatter [sb] [rb] [u64 (comm_size comm * n)] [n] dtype red noroot nopeer.
Definition recv_fields rb n peer := mk ccl_coll_recv [rb] [rb] [n] [n] dtype nored noroot peer.
Definition send_fields sb n peer := mk ccl_coll_send [sb] [sb] [n] [n] dtype nored noroot peer.

Definition fields_of (c : call) : coll_param :=
  match c with
  | Allgather sb rb n => allgather_fields sb rb n
  | Allgatherv sb n rb rbs ns => allgatherv_fields sb n rb rbs ns
  | Allreduce sb rb n red => allreduce_fields sb rb n red
  | Alltoall sb rb n => alltoall_fields sb rb n
  | Alltoallv sb sbs ns rb rbs ns' => alltoallv_fields sb sbs ns rb rbs ns'
  | Barrier => barrier_fields
  | Bcast b n root => bcast_fields b n root
  | Broadcast sb rb n root => broadcast_fields sb rb n root
  | Reduce sb rb n red root => reduce_fields sb rb n red root
  | ReduceScatter sb rb n red => reduce_scatter_fields sb rb n red
  | Recv rb n peer => recv_fields rb n peer
  | Send sb n peer => send_fields sb n peer
  end.
Definition create_param (c : call) (deps : nat) (is_group_active : bool) : outcome coll_param :=
  _ <-? copy_deps deps is_group_active ;; let p := fields_of c in _ <-? validate p ;; Returns p.
End create.

Ltac open_fields :=
  cbn [fields_of];
  unfold allgather_fields, allgatherv_fields, allreduce_fields, alltoall_fields, alltoallv_fields, barrier_fields, bcast_fields, broadcast_fields,
    reduce_fields, reduce_scatter_fields, recv_fields, send_fields, mk.

Definition ccl_coll_validate_user_input (senv : sel_env) (p : coll_param) (attr : coll_attr) : outcome unit :=
  let ofi := bool_decide (atl_transport senv = AtlTag.ccl_atl_ofi) in let predefined := is_predefined_datatype (m_idx (p_dtype p)) in
  check ofi || negb (reduction_fn attr) ;;
  check predefined || ofi ;;
  check negb (bool_decide (p_ctype p = ccl_coll_allreduce) || bool_decide (p_ctype p = ccl_coll_reduce)) || predefined || reduction_fn attr ;;
  check bool_decide (p_ctype p = ccl_coll_allreduce) || negb (reduction_fn attr) ;;
  check bool_decide (p_ctype p = ccl_coll_allgatherv) || negb (is_vector_buf attr) ;;
  check negb (bool_decide (p_ctype p = ccl_coll_bcast) || bool_decide (p_ctype p = ccl_coll_broadcast) || bool_decide (p_ctype p = ccl_coll_reduce)) ||
        (p_root p <? comm_size (p_comm p)) ;;
  Returns tt.

(** The checks of a call, from its arguments to the schedule. *)
Definition accept (senv : sel_env) (dtypes : ccl_datatype_storage) (dtype : Z) (attr : coll_attr) (comm : ccl_comm) (deps : nat) (is_group_active : bool) (c : call) : outcome coll_param :=
  p <-? create_param dtypes dtype attr comm c deps is_group_active ;; _ <-? ccl_coll_validate_user_input senv p attr ;; Returns p.

(** * Which calls are accepted *)

Definition reduction_ok (red : Z) : bool := negb (red =? avg) && (red <? predefined_ops).
(** An index that is in use stands for its datatype, any other for [int8]. *)
Definition resolved (dtypes : ccl_datatype_storage) (idx : Z) : Z :=
  if is_predefined_datatype idx || bool_decide (is_Some (custom_table dtypes !! idx)) then idx else int8.
Definition legal (senv : sel_env) (dtypes : ccl_datatype_storage) (idx : Z) (attr : coll_attr) (comm : ccl_comm) (deps : nat) (is_group_active : bool) (c : call) : bool :=
  let ofi := bool_decide (atl_transport senv = AtlTag.ccl_atl_ofi) in let plain := negb (reduction_fn attr) && negb (is_vector_buf attr) in
  let dtype := resolved dtypes idx in
  (is_group_active || (deps =? 0)%nat) &&
  (ofi || is_predefined_datatype (match c with Barrier => int8 | _ => dtype end)) &&
  match c with
  | Allreduce _ _ _ red =>
    reduction_ok red && negb (is_vector_buf attr) && (if reduction_fn attr then ofi else is_predefined_datatype dtype)
  | Reduce _ _ _ red root => reduction_ok red && plain && is_predefined_datatype dtype && (root <? comm_size comm)
  | ReduceScatter _ _ _ red => reduction_ok red && plain
  | Allgatherv _ n _ _ ns => (n =? ns (Z.to_nat (comm_rank comm))) && negb (reduction_fn attr)
  | Alltoallv _ _ ns _ _ ns' => (ns (Z.to_nat (comm_rank comm)) =? ns' (Z.to_nat (comm_rank comm))) && plain
  | Bcast _ _ root | Broadcast _ _ _ root => plain && (root <? comm_size comm)
  | _ => plain
  end.

Section accepted.
Context (senv : sel_env) (dtypes : ccl_datatype_storage) (dtype : Z) (attr : coll_attr) (comm : ccl_comm) (deps : nat) (is_group_active : bool).
Context (Hrank : 0 <= comm_rank comm < comm_size comm).

Lemma vec_size_per_rank f : vec_size (per_rank comm f) = comm_size comm.
Proof using Hrank. unfold vec_size, per_rank. rewrite length_fmap, length_seq. lia. Qed.

Lemma at_index_per_rank f : at_index (per_rank comm f) (comm_rank comm) = Returns (f (Z.to_nat (comm_rank comm))).
Proof using Hrank.
  unfold at_index, per_rank. rewrite (proj2 (Z.leb_le _ _)) by lia. rewrite list_lookup_fmap, lookup_seq_lt by lia. done.
Qed.

Lemma vec_size_bufs_of b f : ((vec_size (bufs_of attr comm b f) =? 1) || (vec_size (bufs_of attr comm b f) =? comm_size comm)) = true /\
  vec_size (bufs_of attr comm b f) <> 0.
Proof using Hrank.
  unfold bufs_of. destruct (is_vector_buf attr); [rewrite vec_size_per_rank, Z.eqb_refl, orb_true_r; lia|done].
Qed.

Definition param_ok (c : call) : bool :=
  match c with
  | Allreduce _ _ _ red | Reduce _ _ _ red _ | ReduceScatter _ _ _ red => reduction_ok red
  | Allgatherv _ n _ _ ns => n =? ns (Z.to_nat (comm_rank comm))
  | Alltoallv _ _ ns _ _ ns' => ns (Z.to_nat (comm_rank comm)) =? ns' (Z.to_nat (comm_rank comm))
  | _ => true
  end.

Lemma reduction_checked red : (custom <-? (check negb (red =? avg) ;; is_custom red) ;; check negb custom ;; Returns tt) = if reduction_ok red then Returns tt else Throws.
Proof using.
  unfold reduction_ok, is_custom, predefined_ops, max_ops. destruct (red =? avg); [done|]. cbn [negb andb].
  destruct (Z.ltb_spec red 6), (Z.ltb_spec red (2 ^ 31 - 1 - 6)); try lia; done.
Qed.

Ltac sizes :=
  change (vec_size [?x]) with 1; rewrite ?vec_size_per_rank; change (1 =? 0) with false; change (1 =? 1) with true; change (1 <=? 1) with true;
  cbn [negb orb is_reduction_type]; change (at_index [?x] 0) with (Returns x); cbn [outcome_bind].

Lemma validate_fields c : validate (fields_of dtypes dtype attr comm c) = if param_ok c then Returns tt else Throws.
Proof using Hrank.
  assert (comm_size comm =? 0 = false) as Hs0 by lia.
  destruct c; cbn [param_ok]; open_fields; unfold validate; cbn [p_ctype p_send_counts p_recv_counts send_bufs recv_bufs p_reduction p_comm]; try reflexivity;
    change (ccl_coll_last_regular <? coll_type_value _) with false; rewrite ?bool_decide_false by discriminate; cbn [orb]; sizes; try (rewrite Z.eqb_refl; done).
  - destruct (vec_size_bufs_of rb rbs) as [Hb1 Hb2%Z.eqb_neq]. rewrite Hs0, Hb2, Hb1, at_index_per_rank, Z.eqb_refl, orb_true_r. done.
  - rewrite Z.eqb_refl. apply reduction_checked.
  - destruct (vec_size_bufs_of sb sbs) as [Ha1 Ha2%Z.eqb_neq], (vec_size_bufs_of rb rbs) as [Hb1 Hb2%Z.eqb_neq].
    rewrite Hs0, Ha2, Hb2, Ha1, Hb1, !at_index_per_rank, Z.eqb_refl, orb_true_r. done.
  - rewrite Z.eqb_refl, orb_true_r, bool_decide_false, Z.eqb_refl by done. done.
  - rewrite Z.eqb_refl. apply reduction_checked.
  - rewrite bool_decide_true, (Z.mul_comm recv_count), Z.eqb_refl by done. apply reduction_checked.
Qed.
End accepted.

(** What the storage of a process returns for an index. *)
Lemma get_resolved dtypes idx : storage dtypes -> m_idx (Datatype.get dtypes idx) = resolved dtypes idx.
Proof.
  intros Hs%storage_ok. destruct Hs as [Hp Hc _]. unfold Datatype.get, resolved. destruct (is_predefined_datatype idx) eqn:E; cbn [orb].
  - unfold is_predefined_datatype, int8, last_predefined_dt in E. destruct (Hp idx) as (d & -> & Hd & _); [lia|]. done.
  - destruct (custom_table dtypes !! idx) as [d|] eqn:El; [|done]. rewrite bool_decide_true by done. by apply (Hc idx d).
Qed.

(** C40: the checks of a call ([create_..._param], [validate], [ccl_coll_validate_user_input]) accept exactly the legal calls, and pass on the arguments, with the
    datatype that the storage of the process has for the index; for all others they throw, and they never read outside of a vector.  An index that is neither
    predefined nor registered counts, and is passed on, as [int8].  Legal is: the reduction is one of the predefined ones without average, a function for it is
    given for an allreduce over OFI only, and is given if the datatype of an allreduce is not predefined; a reduce needs a predefined datatype; other
    datatypes need OFI; several receive buffers are for allgatherv only; the own counts of allgatherv and alltoallv agree; the root is below the
    size of the communicator; there are no events to wait for, outside of groups. *)
Theorem accepted_iff_legal senv dtypes dtype attr comm deps is_group_active c : storage dtypes -> 0 <= comm_rank comm < comm_size comm ->
  accept senv dtypes dtype attr comm deps is_group_active c =
    (if legal senv dtypes dtype attr comm deps is_group_active c then Returns (fields_of dtypes dtype attr comm c) else Throws) /\
  m_idx (p_dtype (fields_of dtypes dtype attr comm c)) = resolved dtypes (match c with Barrier => int8 | _ => dtype end).
Proof.
  intros Hst Hrank. split; [|destruct c; apply get_resolved; done]. unfold accept, create_param, copy_deps. rewrite validate_fields by done. unfold legal, ccl_coll_validate_user_input.
  destruct (is_group_active || (deps =? 0)%nat); [|done]. cbn [outcome_bind andb].
  destruct (param_ok comm c) eqn:Hp; cbn [outcome_bind]; destruct c; cbn [param_ok] in Hp; try discriminate Hp; rewrite ?Hp; cbn [andb];
    try (rewrite andb_false_r; done); open_fields; cbn [p_ctype p_dtype p_root p_comm]; rewrite get_resolved by done;
    repeat match goal with |- context [bool_decide (@eq ccl_coll_type ?a ?b)] =>
      first [rewrite (bool_decide_true (a = b)) by done | rewrite (bool_decide_false (a = b)) by discriminate] end;
    change (is_predefined_datatype int8) with true; change (is_predefined_datatype (resolved dtypes int8_idx)) with true;
    destruct (bool_decide (atl_transport senv = AtlTag.ccl_atl_ofi)), (reduction_fn attr), (is_vector_buf attr); try destruct (is_predefined_datatype _);
    cbn [negb orb andb outcome_bind]; try destruct (_ <? _); reflexivity.
Qed.

(** The storage of a process with one custom datatype, whose index is 12. *)
Definition sample_dtypes : ccl_datatype_storage :=
  match new_storage with Ok st => match create_by_datatype_size st 16 with Ok (st', _) => st' | Throw => st end | Throw => mk_storage ∅ ∅ 0 end.
Lemma sample_dtypes_storage : storage sample_dtypes.
Proof.
  unfold sample_dtypes. destruct new_storage as [st|] eqn:E; [|vm_compute in E; discriminate].
  destruct (create_by_datatype_size st 16) as [[st' idx]|] eqn:E'; [|by apply storage_new]. eapply storage_create; [by apply storage_new|exact E'].
Qed.

Lemma accepted_iff_legal_witness :
  0 <= 1 < 4 /\ accept sample_env sample_dtypes 6 (mk_attr false false) (mk_comm 1 4) 0 false (Reduce 4096 8192 100 0 3) =
    Returns (fields_of sample_dtypes 6 (mk_attr false false) (mk_comm 1 4) (Reduce 4096 8192 100 0 3)).
Proof.
  split; [lia|]. destruct (accepted_iff_legal sample_env sample_dtypes 6 (mk_attr false false) (mk_comm 1 4) 0 false (Reduce 4096 8192 100 0 3)) as [-> _];
    [apply sample_dtypes_storage|cbn; lia|reflexivity].
Defined.

(** A root below zero is accepted. *)
Example negative_root_accepted : accept sample_env sample_dtypes 6 (mk_attr false false) (mk_comm 1 4) 0 false (Bcast 4096 100 (-1)) =
  Returns (fields_of sample_dtypes 6 (mk_attr false false) (mk_comm 1 4) (Bcast 4096 100 (-1))).
Proof. reflexivity. Qed.

(** A reduce-scatter of a custom datatype is accepted, though it can have no function that reduces it. *)
Example custom_reduce_scatter_accepted : resolved sample_dtypes 12 = 12 /\ is_predefined_datatype 12 = false /\
  legal sample_env sample_dtypes 12 (mk_attr false false) (mk_comm 1 4) 0 false (ReduceScatter 4096 8192 100 0) = true /\
  legal sample_env sample_dtypes 12 (mk_attr true false) (mk_comm 1 4) 0 false (ReduceScatter 4096 8192 100 0) = false.
Proof. split_and!; reflexivity. Qed.

(** A custom reduction without a function is accepted. *)
Example custom_reduction_without_function : legal sample_env sample_dtypes 6 (mk_attr false false) (mk_comm 1 4) 0 false (Allreduce 4096 8192 100 5) = true.
Proof. reflexivity. Qed.

(** An index that was never registered is accepted as [int8]. *)
Example unknown_datatype_is_int8 : exists p, accept sample_env sample_dtypes 100 (mk_attr false false) (mk_comm 1 4) 0 false (Reduce 4096 8192 100 0 3) = Returns p /\
  p_dtype p = default_datatype.
Proof. eexists. split; [vm_compute; reflexivity|reflexivity]. Qed.
