(* ===== verification/Kvs.v ===== *)
(** The key-value store that the processes of a job meet in: the codec [src/src/atl/util/pm/codec/pm_rt_codec.h], the requests of
    [internal_kvs_server.hpp] as bytes on a socket and the server of [internal_kvs_server.cpp].

    A byte or character is a number, a C string the bytes before its terminating zero.  The server handles one event at a time: a connection, or the
    [put_buf_size] bytes of a request of a polled socket; what it writes back is a list of replies, each to a socket.  [Throws] is a failure status
    (which ends the server), [Undefined] a string that does not end inside its array or a null pointer that is written through.  The sockets of open
    connections are different numbers that are not 0 (a descriptor 0 would not be written to).  A write to a socket that the server has closed fails, which
    barriers and registrations can meet, as they keep sockets; that a read or write fails on an open connection is not modelled.

    [serves] is the history of a server.  The theorems: a value that was put is what a get returns; nobody leaves a barrier before all its registered
    clients have entered it and all leave when the last one enters; what a client puts before it enters a barrier is what everybody gets who has left
    it; a connection always finds a free slot. *)

From S2P Require Import Prelude.
From stdpp Require Import gmap list sorting.
Open Scope Z_scope.
Open Scope ccl_scope.

Abbreviation bytes := (list Z).
Implicit Types (l : bytes).

Definition MAX_KVS_KEY_LENGTH : nat := 130.
Definition MAX_KVS_VAL_LENGTH : nat := 130.
Definition MAX_KVS_NAME_LENGTH : nat := 130.

(** * Strings *)

(** The string at the start of some memory, if it ends there. *)
Fixpoint c_str l : outcome bytes :=
  match l with
  | [] => Undefined
  | c :: l' => if c =? 0 then Returns [] else s <-? c_str l' ;; Returns (c :: s)
  end.

(** [strstr(s, "_")]: what is before the first underscore and after it. *)
Definition underscore : Z := 95.
Fixpoint strstr_underscore l : option (bytes * bytes) :=
  match l with
  | [] => None
  | c :: l' => if c =? underscore then Some ([], l') else r ← strstr_underscore l'; Some (c :: r.1, r.2)
  end.

Definition is_digit (c : Z) : bool := (48 <=? c) && (c <=? 57).
Definition is_space (c : Z) : bool := (c =? 32) || ((9 <=? c) && (c <=? 13)).
Fixpoint digits (acc : Z) l : Z := match l with c :: l' => if is_digit c then digits (acc * 10 + (c - 48)) l' else acc | [] => acc end.
Fixpoint skip_space l : bytes := match l with c :: l' => if is_space c then skip_space l' else l | [] => [] end.
(** [safe_strtol] into a [size_t]; only a number that is out of range fails. *)
Definition safe_strtol l : outcome Z :=
  let v := match skip_space l with
           | c :: l' => if c =? 45 then - digits 0 l' else if c =? 43 then digits 0 l' else digits 0 (c :: l')
           | [] => 0
           end in
  if (v <? - 2 ^ 63) || (2 ^ 63 <=? v) then Throws else Returns (u64 v).

(** [std::to_string] *)
Fixpoint dec_loop (fuel n : nat) (acc : bytes) : bytes :=
  match fuel with
  | O => acc
  | S fuel' => let acc' := (48 + Z.of_nat (n mod 10)) :: acc in if (n / 10 =? 0)%nat then acc' else dec_loop fuel' (n / 10)%nat acc'
  end.
Definition to_string (n : nat) : bytes := dec_loop (S n) n [].

(** * The codec *)

Definition encodings : bytes := [48; 49; 50; 51; 52; 53; 54; 55; 56; 57; 97; 98; 99; 100; 101; 102].
Definition encoding (x : Z) : Z := nth (Z.to_nat x) encodings 0.

Definition encode (inval : bytes) (outvallen : nat) : option bytes :=
  if (outvallen <? length inval * 2 + 1)%nat then None else Some (inval ≫= fun b => [encoding (Z.land b 15); encoding (Z.shiftr b 4)]).

Definition hex_digit (c : Z) : Z := if (48 <=? c) && (c <=? 57) then c - 48 else c - 97 + 10.
Fixpoint decode_loop (inval : bytes) : bytes :=
  match inval with
  | a :: b :: inval' => u8 (Z.lor (hex_digit a) (Z.shiftl (hex_digit b) 4)) :: decode_loop inval'
  | _ => []
  end.
Definition decode (inval : bytes) (outvallen : nat) : option bytes :=
  if (outvallen <? length inval / 2)%nat then None else Some (decode_loop inval).

(** * Requests *)

Definition AM_CLOSE : Z := 1.
Definition AM_PUT : Z := 2.
Definition AM_REMOVE : Z := 3.
Definition AM_GET_COUNT : Z := 4.
Definition AM_GET_VAL : Z := 5.
Definition AM_GET_KEYS_VALUES : Z := 6.
Definition AM_GET_REPLICA : Z := 7.
Definition AM_FINALIZE : Z := 8.
Definition AM_BARRIER : Z := 9.
Definition AM_BARRIER_REGISTER : Z := 10.
Definition AM_INTERNAL_REGISTER : Z := 11.
Definition AM_SET_SIZE : Z := 12.

Record kvs_request_t := mk_request { mode : Z; name : bytes; key : bytes; val : bytes }.

Definition put_buf_size : nat := 4 + MAX_KVS_NAME_LENGTH + MAX_KVS_KEY_LENGTH + MAX_KVS_VAL_LENGTH.

Definition mode_buff (put_mode : Z) : bytes :=
  [Z.land (Z.shiftr put_mode 0) 255; Z.land (Z.shiftr put_mode 8) 255; Z.land (Z.shiftr put_mode 16) 255; Z.land (Z.shiftr put_mode 24) 255].

(** [std::copy] into a buffer. *)
Definition copy_at (off : nat) l (buf : bytes) : bytes := take off buf ++ l ++ drop (off + length l) buf.
(** A string that is not empty is [size] bytes after the previous one; [None] for a string that is too long. *)
Definition put_field (buf : bytes) (step : nat) (size : nat) (s : bytes) (max : nat) : option (bytes * nat) :=
  match s with
  | [] => Some (buf, step)
  | _ => if (length s <=? max)%nat then Some (copy_at (step + size) s buf, step + size)%nat else None
  end.

(** [kvs_request_t::put]: the bytes that are written. *)
Definition put (put_mode : Z) (kvs_name kvs_key kvs_val : bytes) : option bytes :=
  let put_buf := copy_at 0 (mode_buff put_mode) (replicate put_buf_size 0) in
  r ← put_field put_buf 0 4 kvs_name MAX_KVS_NAME_LENGTH;
  r ← put_field r.1 r.2 MAX_KVS_NAME_LENGTH kvs_key MAX_KVS_KEY_LENGTH;
  r ← put_field r.1 r.2 MAX_KVS_KEY_LENGTH kvs_val MAX_KVS_VAL_LENGTH;
  Some r.1.

(** [kvs_request_t::get] of a whole request; the end of the connection closes it. *)
Definition get (request : kvs_request_t) (get_buf : bytes) : kvs_request_t :=
  if (length get_buf <? put_buf_size)%nat then mk_request AM_CLOSE (name request) (key request) (val request) else
  let byte i := nth i get_buf 0 in
  mk_request (Z.lor (Z.lor (Z.lor (Z.shiftl (byte 0) 0) (Z.shiftl (byte 1) 8)) (Z.shiftl (byte 2) 16)) (Z.shiftl (byte 3) 24))%nat
    (take MAX_KVS_NAME_LENGTH (drop 4 get_buf)) (take MAX_KVS_KEY_LENGTH (drop (4 + MAX_KVS_NAME_LENGTH) get_buf))
    (take MAX_KVS_VAL_LENGTH (drop (4 + MAX_KVS_NAME_LENGTH + MAX_KVS_KEY_LENGTH) get_buf)).

(** The strings of a request. *)
Definition str_name (rq : kvs_request_t) : outcome bytes := c_str (name rq).
Definition str_key (rq : kvs_request_t) : outcome bytes := c_str (key rq).
Definition str_val (rq : kvs_request_t) : outcome bytes := c_str (val rq).

(** * The server *)

Record clients_info := mk_client { c_socket : Z; in_barrier : bool }.
Record barrier_info := mk_barrier { b_global : Z; b_local : Z; clients : list clients_info }.
Record proc_info := mk_proc { p_rank : bytes; rank_count : Z; thread_id : bytes }.
Record socket_info := mk_socket { s_socket : Z; proc_id : bytes; process_info : proc_info }.
Record comm_info := mk_comm_info { g_size : Z; l_size : Z; sockets : list socket_info; processes : gmap bytes (list proc_info) }.

Record server := mk_server {
  request : kvs_request_t; client_count : Z; poll_fds : list Z; barriers : gmap bytes barrier_info; communicators : gmap bytes comm_info;
  requests : gmap bytes (gmap bytes bytes) }.

Definition new_barrier : barrier_info := mk_barrier 0 0 [].
Definition new_comm : comm_info := mk_comm_info 0 0 [] ∅.

(** What is written to a socket: a [size_t], a value, keys and values. *)
Inductive reply := r_size (n : Z) | r_val (l : bytes) | r_keys_values (l : bytes).

Definition pad (n : nat) l : bytes := l ++ replicate (n - length l) 0.
(** [put] of a string *)
Definition put_string l : outcome reply := if (length l <=? MAX_KVS_VAL_LENGTH)%nat then Returns (r_val (pad MAX_KVS_VAL_LENGTH l)) else Throws.

(** The order of a [std::map] of strings. *)
Fixpoint lex_leb (l1 l2 : bytes) : bool :=
  match l1, l2 with
  | [], _ => true
  | _, [] => false
  | a :: l1', b :: l2' => (a <? b) || ((a =? b) && lex_leb l1' l2')
  end.
Definition key_le (p q : bytes * bytes) : Prop := lex_leb p.1 q.1 = true.
#[export] Instance key_le_dec p q : Decision (key_le p q).
Proof. unfold key_le. apply _. Defined.
(** [put] of a map: all keys, then all values. *)
Definition put_map (m : gmap bytes bytes) : outcome reply :=
  let es := merge_sort key_le (map_to_list m) in
  if forallb (fun e => (length e.1 <=? MAX_KVS_KEY_LENGTH)%nat && (length e.2 <=? MAX_KVS_VAL_LENGTH)%nat) es
  then Returns (r_keys_values ((es ≫= fun e => pad MAX_KVS_KEY_LENGTH e.1) ++ (es ≫= fun e => pad MAX_KVS_VAL_LENGTH e.2)))
  else Throws.

Definition set_requests (s : server) r : server := mk_server (request s) (client_count s) (poll_fds s) (barriers s) (communicators s) r.
Definition set_barrier (s : server) (n : bytes) b : server := mk_server (request s) (client_count s) (poll_fds s) (<[n := b]> (barriers s)) (communicators s) (requests s).
Definition set_comm (s : server) (n : bytes) c : server := mk_server (request s) (client_count s) (poll_fds s) (barriers s) (<[n := c]> (communicators s)) (requests s).

(** [AM_BARRIER]: the first client with the socket enters. *)
Fixpoint mark_client (socket : Z) (cs : list clients_info) : option (list clients_info) :=
  match cs with
  | [] => None
  | c :: cs' => if c_socket c =? socket then Some (mk_client (c_socket c) true :: cs') else l ← mark_client socket cs'; Some (c :: l)
  end.
(** Answers to sockets in turn, up to the first that is not open: what is written, and whether all is. *)
Fixpoint put_each (open : Z -> bool) (rs : list (Z * reply)) : list (Z * reply) * bool :=
  match rs with
  | [] => ([], true)
  | x :: rs' => if open x.1 then let r := put_each open rs' in (x :: r.1, r.2) else ([], false)
  end.
Definition barrier_request (open : Z -> bool) (b : barrier_info) (socket : Z) : outcome (barrier_info * list (Z * reply)) :=
  match mark_client socket (clients b) with
  | None => Throws
  | Some cs =>
    if (b_global b =? b_local b) && forallb in_barrier cs
    then
      let r := put_each open ((fun c => (c_socket c, r_size 1)) <$> cs) in
      if r.2 then Returns (mk_barrier (b_global b) (b_local b) ((fun c => mk_client (c_socket c) false) <$> cs), r.1) else Throws
    else Returns (mk_barrier (b_global b) (b_local b) cs, [])
  end.

(** [AM_BARRIER_REGISTER] *)
Definition register_barrier (b : barrier_info) (socket : Z) (v : bytes) : outcome barrier_info :=
  match strstr_underscore v with
  | None => g <-? safe_strtol v ;; Returns (mk_barrier g (u64 (b_local b + 1)) (clients b ++ [mk_client socket false]))
  | Some (glob, loc) =>
    n <-? safe_strtol loc ;; g <-? safe_strtol glob ;; Returns (mk_barrier g (u64 (b_local b + n)) (clients b ++ [mk_client socket false]))
  end.

(** [AM_INTERNAL_REGISTER]: the answer to one of the registered, when all are. *)
Definition rank_le (p q : proc_info) : Prop := lex_leb (p_rank p) (p_rank q) = true.
#[export] Instance rank_le_dec p q : Decision (rank_le p q).
Proof. unfold rank_le. apply _. Defined.
(** [list::sort] by rank, which keeps the order of equal ranks. *)
Fixpoint insert_proc (p : proc_info) (ps : list proc_info) : list proc_info :=
  match ps with [] => [p] | q :: ps' => if decide (rank_le p q) then p :: ps else q :: insert_proc p ps' end.
Definition sort_procs (ps : list proc_info) : list proc_info := foldr insert_proc [] ps.
Definition sorted_procs (c : comm_info) : gmap bytes (list proc_info) := sort_procs <$> processes c.
Fixpoint thread_index (r : bytes) (ps : list proc_info) (i : nat) : option nat :=
  match ps with [] => None | p :: ps' => if decide (p_rank p = r) then Some i else thread_index r ps' (S i) end.
Definition join_underscore (ls : list bytes) : bytes := match ls with [] => [] | l :: ls' => l ++ (ls' ≫= fun l => underscore :: l) end.
Definition registration_answer (procs : gmap bytes (list proc_info)) (si : socket_info) : bytes :=
  let ps := default [] (procs !! proc_id si) in
  join_underscore [to_string (size procs); p_rank (process_info si); to_string (Z.to_nat (u64 (foldl (fun a p => a + rank_count p) 0 ps)));
                   to_string (length ps); from_option to_string [] (thread_index (p_rank (process_info si)) ps 0)].
Fixpoint answers (open : Z -> bool) (procs : gmap bytes (list proc_info)) (ss : list socket_info) : outcome (list (Z * reply)) :=
  match ss with
  | [] => Returns []
  | si :: ss' =>
    r <-? put_string (registration_answer procs si) ;;
    if open (s_socket si) then rs <-? answers open procs ss' ;; Returns ((s_socket si, r) :: rs) else Throws
  end.
Definition internal_register (open : Z -> bool) (c : comm_info) (socket : Z) (v : bytes) : outcome (comm_info * list (Z * reply)) :=
  match strstr_underscore v with
  | None => Undefined
  | Some (rank_count_str, v) =>
    match strstr_underscore v with
    | None => Undefined
    | Some (rank, v) =>
      match strstr_underscore v with
      | None => Undefined
      | Some (proc, thread) =>
        n <-? safe_strtol rank_count_str ;;
        let info := mk_proc rank n thread in
        let ps := default [] (processes c !! proc) ++ [info] in
        let c := mk_comm_info (g_size c) (u64 (l_size c + n)) (sockets c ++ [mk_socket socket proc info]) (<[proc := ps]> (processes c)) in
        if l_size c =? g_size c then
          let c := mk_comm_info (g_size c) (l_size c) (sockets c) (sorted_procs c) in
          rs <-? answers open (processes c) (sockets c) ;; Returns (c, rs)
        else Returns (c, [])
      end
    end
  end.

(** The slots of [poll_fds] from [FDI_LAST] on. *)
Definition free_socket : Z := -1.
Definition FDI_LAST : nat := 2.
Definition client_count_increase : nat := 300.
Fixpoint replace_slot (old new : Z) (fds : list Z) : option (list Z) :=
  match fds with
  | [] => None
  | fd :: fds' => if fd =? old then Some (new :: fds') else r ← replace_slot old new fds'; Some (fd :: r)
  end.
Definition free_slot (socket : Z) (fds : list Z) : list Z := default fds (replace_slot socket free_socket fds).

(** [try_to_connect_new] with the socket that [accept] returned. *)
Definition try_to_connect_new (s : server) (new_socket : Z) : outcome server :=
  match replace_slot free_socket new_socket (poll_fds s) with
  | None => Throws
  | Some fds =>
    let n := u64 (client_count s + 1) in
    let fds := if Z.of_nat (length fds) =? n then fds ++ replicate client_count_increase free_socket else fds in
    Returns (mk_server (request s) n fds (barriers s) (communicators s) (requests s))
  end.

(** The socket of the request is open, and those that are polled are. *)
Definition socket_open (s : server) (socket c : Z) : bool := (c =? socket) || bool_decide (c ∈ poll_fds s).

(** [make_client_request] for a request that has been read; [world_size] is [CCL_WORLD_SIZE]. *)
Definition handle (world_size : option bytes) (s : server) (socket : Z) : outcome (server * list (Z * reply)) :=
  let rq := request s in
  if mode rq =? AM_CLOSE then
    Returns (mk_server rq (u64 (client_count s - 1)) (free_slot socket (poll_fds s)) (barriers s) (communicators s) (requests s), [])
  else if mode rq =? AM_PUT then
    n <-? str_name rq ;; k <-? str_key rq ;; v <-? str_val rq ;;
    Returns (set_requests s (<[n := <[k := v]> (default ∅ (requests s !! n))]> (requests s)), [])
  else if mode rq =? AM_REMOVE then
    n <-? str_name rq ;; k <-? str_key rq ;;
    Returns (set_requests s (<[n := delete k (default ∅ (requests s !! n))]> (requests s)), [])
  else if mode rq =? AM_GET_VAL then
    n <-? str_name rq ;;
    match requests s !! n with
    | None => Returns (s, [(socket, r_size 0)])
    | Some m =>
      k <-? str_key rq ;;
      match m !! k with
      | Some v => r <-? put_string v ;; Returns (s, [(socket, r_size 1); (socket, r)])
      | None => Returns (s, [(socket, r_size 0)])
      end
    end
  else if mode rq =? AM_GET_COUNT then
    n <-? str_name rq ;;
    Returns (s, [(socket, r_size (match requests s !! n with Some m => Z.of_nat (size m) | None => 0 end))])
  else if mode rq =? AM_GET_REPLICA then
    n <-? match world_size with Some w => safe_strtol w | None => Returns (client_count s) end ;; Returns (s, [(socket, r_size n)])
  else if mode rq =? AM_GET_KEYS_VALUES then
    n <-? str_name rq ;;
    let m := default ∅ (requests s !! n) in
    if (size m =? 0)%nat then Returns (s, [(socket, r_size 0)])
    else r <-? put_map m ;; Returns (s, [(socket, r_size (Z.of_nat (size m))); (socket, r)])
  else if mode rq =? AM_BARRIER then
    n <-? str_name rq ;;
    r <-? barrier_request (socket_open s socket) (default new_barrier (barriers s !! n)) socket ;; Returns (set_barrier s n r.1, r.2)
  else if mode rq =? AM_BARRIER_REGISTER then
    n <-? str_name rq ;; v <-? str_val rq ;;
    b <-? register_barrier (default new_barrier (barriers s !! n)) socket v ;; Returns (set_barrier s n b, [])
  else if mode rq =? AM_SET_SIZE then
    k <-? str_key rq ;; v <-? str_val rq ;; g <-? safe_strtol v ;;
    let c := default new_comm (communicators s !! k) in
    Returns (set_comm s k (mk_comm_info g (l_size c) (sockets c) (processes c)), [])
  else if mode rq =? AM_INTERNAL_REGISTER then
    k <-? str_key rq ;; v <-? str_val rq ;;
    r <-? internal_register (socket_open s socket) (default new_comm (communicators s !! k)) socket v ;; Returns (set_comm s k r.1, r.2)
  else if hd 0 (name rq) =? 0 then Returns (s, []) else Throws.

Definition make_client_request (world_size : option bytes) (s : server) (socket : Z) (buf : bytes) : outcome (server * list (Z * reply)) :=
  handle world_size (mk_server (get (request s) buf) (client_count s) (poll_fds s) (barriers s) (communicators s) (requests s)) socket.


(** A server that has been started, and what it then serves. *)
Definition new_server : server :=
  mk_server (mk_request AM_PUT (replicate MAX_KVS_NAME_LENGTH 0) (replicate MAX_KVS_KEY_LENGTH 0) (replicate MAX_KVS_VAL_LENGTH 0)) 0
    (replicate (client_count_increase - FDI_LAST) free_socket) ∅ ∅ ∅.

Inductive event := Connect (new_socket : Z) | Request (socket : Z) (buf : bytes).
Definition polled (s : server) (e : event) : Prop :=
  match e with Connect fd => 0 < fd < 2 ^ 31 /\ fd ∉ poll_fds s | Request socket _ => 0 < socket /\ socket ∈ poll_fds s end.
Definition serve (world_size : option bytes) (s : server) (e : event) : outcome (server * list (Z * reply)) :=
  match e with
  | Connect fd => s' <-? try_to_connect_new s fd ;; Returns (s', [])
  | Request socket buf => make_client_request world_size s socket buf
  end.
Abbreviation history := (list (event * list (Z * reply))).
Inductive serves (world_size : option bytes) (s : server) : history -> server -> Prop :=
| serves_nil : serves world_size s [] s
| serves_snoc h s1 e s2 out : serves world_size s h s1 -> polled s1 e -> serve world_size s1 e = Returns (s2, out) ->
    serves world_size s (h ++ [(e, out)]) s2.

(** * Strings and the codec *)

Definition chars (l : bytes) : Prop := Forall (fun c => c <> 0) l.

Lemma length_pad (n : nat) l : (length l <= n)%nat -> length (pad n l) = n.
Proof. intros H. unfold pad. rewrite length_app, length_replicate. lia. Qed.

Lemma c_str_pad (n : nat) l : chars l -> (length l < n)%nat -> c_str (pad n l) = Returns l.
Proof.
  intros Hl. revert n. induction Hl as [|c l Hc Hl IH]; intros n Hn; cbn in Hn.
  - unfold pad. cbn. destruct n; [lia | done].
  - unfold pad in *. destruct n as [|n]; [lia |]. cbn. destruct (Z.eqb_spec c 0); [done |]. rewrite IH by lia. done.
Qed.

Definition byte (b : Z) : Prop := 0 <= b < 256.

(** A fact about the first numbers, by checking all of them. *)
Lemma below (n : nat) (P : Z -> bool) (x : Z) : forallb P (Z.of_nat <$> seq 0 n) = true -> 0 <= x < Z.of_nat n -> P x = true.
Proof.
  intros H Hx. rewrite forallb_forall in H. apply H, list_elem_of_In, list_elem_of_fmap.
  exists (Z.to_nat x). split; [lia | apply elem_of_seq; lia].
Qed.

Lemma encoding_char (x : Z) : 0 <= x < 16 -> encoding x <> 0 /\ hex_digit (encoding x) = x.
Proof.
  intros Hx. pose proof (below 16 (fun x => negb (encoding x =? 0) && (hex_digit (encoding x) =? x)) x eq_refl Hx) as H.
  apply andb_true_iff in H. lia.
Qed.

Lemma nibbles (b : Z) : byte b ->
  0 <= Z.land b 15 < 16 /\ 0 <= Z.shiftr b 4 < 16 /\ u8 (Z.lor (Z.land b 15) (Z.shiftl (Z.shiftr b 4) 4)) = b.
Proof.
  intros Hb. pose proof (below 256 (fun b => (0 <=? Z.land b 15) && (Z.land b 15 <? 16) && (0 <=? Z.shiftr b 4) && (Z.shiftr b 4 <? 16) &&
    (u8 (Z.lor (Z.land b 15) (Z.shiftl (Z.shiftr b 4) 4)) =? b)) b eq_refl Hb) as H.
  rewrite !andb_true_iff in H. lia.
Qed.

(** What [encode] writes is a string, and [decode] reads the bytes back. *)
Lemma encode_spec (v : bytes) (n : nat) : Forall byte v -> (length v * 2 + 1 <= n)%nat ->
  exists s, encode v n = Some s /\ chars s /\ length s = (length v * 2)%nat /\ decode_loop s = v.
Proof.
  intros Hv Hn. unfold encode. rewrite (proj2 (Nat.ltb_ge _ _)) by lia. eexists. split; [done |]. clear n Hn.
  induction Hv as [|b v Hb Hv (IH1 & IH2 & IH3)]; [split; [constructor | done] |].
  destruct (nibbles b Hb) as (H1 & H2 & H3). apply encoding_char in H1 as [N1 D1], H2 as [N2 D2].
  cbn -[encoding hex_digit]. split; [repeat constructor; done |]. split; [rewrite IH2; lia |].
  rewrite IH3, D1, D2, H3. done.
Qed.

Lemma decode_encode (v s : bytes) (n k : nat) : Forall byte v -> encode v n = Some s -> (length v <= k)%nat -> decode s k = Some v.
Proof.
  intros Hv He Hk. assert (length v * 2 + 1 <= n)%nat as Hn by (unfold encode in He; destruct (Nat.ltb_spec n (length v * 2 + 1)); [done | lia]).
  destruct (encode_spec v n Hv Hn) as (s' & He' & _ & Hl & Hd). assert (s' = s) as -> by congruence.
  unfold decode. rewrite Hl, Nat.div_mul by lia. rewrite (proj2 (Nat.ltb_ge _ _)) by lia. congruence.
Qed.

(** * Requests on the wire *)

Definition frame (m : Z) (n k v : bytes) : bytes :=
  mode_buff m ++ pad MAX_KVS_NAME_LENGTH n ++ pad MAX_KVS_KEY_LENGTH k ++ pad MAX_KVS_VAL_LENGTH v.

Lemma copy_at_pad (a : bytes) (n : nat) l (r : bytes) : (length l <= n)%nat ->
  copy_at (length a) l (a ++ pad n [] ++ r) = a ++ pad n l ++ r.
Proof.
  intros Hl. unfold copy_at. rewrite take_app_length. rewrite drop_app_ge by lia.
  replace (length a + length l - length a)%nat with (length l) by lia.
  unfold pad. cbn [app length]. rewrite Nat.sub_0_r, drop_app_le, drop_replicate by (rewrite length_replicate; lia).
  rewrite <- !app_assoc. done.
Qed.

Lemma put_field_pad (a : bytes) (step size n : nat) l (r : bytes) : (length l <= n)%nat -> (step + size = length a)%nat ->
  put_field (a ++ pad n [] ++ r) step size l n = Some (a ++ pad n l ++ r, if decide (l = []) then step else (step + size)%nat).
Proof.
  intros Hl Hs. unfold put_field. destruct l as [|c l]; [done |].
  rewrite (proj2 (Nat.leb_le _ _)) by done. rewrite Hs, copy_at_pad by done. done.
Qed.

(** A request whose missing strings are its last ones is written as its frame. *)
Lemma put_frame (m : Z) (n k v : bytes) :
  (length n <= MAX_KVS_NAME_LENGTH)%nat -> (length k <= MAX_KVS_KEY_LENGTH)%nat -> (length v <= MAX_KVS_VAL_LENGTH)%nat ->
  (n = [] -> k = []) -> (k = [] -> v = []) -> put m n k v = Some (frame m n k v).
Proof.
  intros Hn Hk Hv Enk Ekv. unfold put, frame.
  assert (copy_at 0 (mode_buff m) (replicate put_buf_size 0) =
          mode_buff m ++ pad MAX_KVS_NAME_LENGTH [] ++ pad MAX_KVS_KEY_LENGTH [] ++ pad MAX_KVS_VAL_LENGTH []) as -> by reflexivity.
  rewrite put_field_pad by done. cbn [mbind option_bind fst snd].
  destruct (decide (n = [])) as [-> | Nn].
  { rewrite Enk, Ekv by auto. reflexivity. }
  rewrite app_assoc. rewrite put_field_pad; [| done | rewrite length_app, length_pad by lia; reflexivity].
  cbn [mbind option_bind fst snd]. destruct (decide (k = [])) as [-> | Nk].
  { rewrite Ekv by auto. cbn [put_field mbind option_bind fst snd]. rewrite <- !app_assoc. reflexivity. }
  rewrite app_assoc, <- (app_nil_r (pad MAX_KVS_VAL_LENGTH [])).
  rewrite put_field_pad; [| done | rewrite !length_app, !length_pad by lia; reflexivity].
  cbn [mbind option_bind fst snd]. rewrite app_nil_r, <- !app_assoc. done.
Qed.

Lemma mode_bytes (m : Z) : byte m ->
  Z.lor (Z.lor (Z.lor (Z.shiftl (Z.land (Z.shiftr m 0) 255) 0) (Z.shiftl (Z.land (Z.shiftr m 8) 255) 8))
    (Z.shiftl (Z.land (Z.shiftr m 16) 255) 16)) (Z.shiftl (Z.land (Z.shiftr m 24) 255) 24) = m.
Proof.
  intros Hm. pose proof (below 256 (fun m => Z.lor (Z.lor (Z.lor (Z.shiftl (Z.land (Z.shiftr m 0) 255) 0) (Z.shiftl (Z.land (Z.shiftr m 8) 255) 8))
    (Z.shiftl (Z.land (Z.shiftr m 16) 255) 16)) (Z.shiftl (Z.land (Z.shiftr m 24) 255) 24) =? m) m eq_refl Hm) as H. apply Z.eqb_eq in H. exact H.
Qed.

(** [get] reads back what [put] wrote. *)
Lemma get_frame (rq : kvs_request_t) (m : Z) (n k v : bytes) : byte m ->
  (length n <= MAX_KVS_NAME_LENGTH)%nat -> (length k <= MAX_KVS_KEY_LENGTH)%nat -> (length v <= MAX_KVS_VAL_LENGTH)%nat ->
  get rq (frame m n k v) = mk_request m (pad MAX_KVS_NAME_LENGTH n) (pad MAX_KVS_KEY_LENGTH k) (pad MAX_KVS_VAL_LENGTH v).
Proof.
  intros Hm Hn Hk Hv. unfold get.
  assert (length (frame m n k v) = put_buf_size) as -> by (unfold frame; rewrite !length_app, !length_pad by done; reflexivity).
  rewrite Nat.ltb_irrefl. cbn zeta. f_equal.
  - unfold frame, mode_buff. cbn [app nth]. apply mode_bytes. done.
  - unfold frame. change (drop 4 (mode_buff m ++ ?r)) with r. apply take_app_length'. rewrite length_pad; done.
  - unfold frame. rewrite <- drop_drop. change (drop 4 (mode_buff m ++ ?r)) with r.
    rewrite drop_app_length' by (rewrite length_pad; done). apply take_app_length'. rewrite length_pad; done.
  - unfold frame. rewrite <- !drop_drop. change (drop 4 (mode_buff m ++ ?r)) with r.
    rewrite !drop_app_length' by (rewrite length_pad; done). apply take_ge. rewrite length_pad; done.
Qed.

(** * What an event does to a key and to a barrier *)

Definition value_of (s : server) (n k : bytes) : option bytes := requests s !! n ≫= fun m => m !! k.

Definition decoded (buf : bytes) : kvs_request_t := get (mk_request AM_CLOSE [] [] []) buf.
(** The new value of a key, if the event changes it. *)
Definition writes (n k : bytes) (e : event) : option (option bytes) :=
  match e with
  | Connect _ => None
  | Request _ buf =>
    let rq := decoded buf in
    if bool_decide (str_name rq = Returns n) && bool_decide (str_key rq = Returns k) then
      if mode rq =? AM_PUT then match str_val rq with Returns v => Some (Some v) | _ => None end
      else if mode rq =? AM_REMOVE then Some None else None
    else None
  end.
Definition asks (m : Z) (bn : bytes) (e : event) : option Z :=
  match e with
  | Connect _ => None
  | Request socket buf => if (mode (decoded buf) =? m) && bool_decide (str_name (decoded buf) = Returns bn) then Some socket else None
  end.
(** The client that enters a barrier, that registers for it. *)
Definition enters : bytes -> event -> option Z := asks AM_BARRIER.
Definition registers : bytes -> event -> option Z := asks AM_BARRIER_REGISTER.

Lemma bind_returns {A B} (m : outcome A) (f : A -> outcome B) r : (x <-? m ;; f x) = Returns r -> exists x, m = Returns x /\ f x = Returns r.
Proof. destruct m; cbn; intros; try discriminate. eauto. Qed.

Ltac returns :=
  repeat match goal with
  | H : (outcome_bind _ _) = Returns _ |- _ => apply bind_returns in H as (? & ? & H)
  | H : Returns _ = Returns _ |- _ => injection H as H; subst
  | H : (_, _) = (_, _) |- _ => injection H as ? ?; subst
  | H : Throws = Returns _ |- _ => discriminate H
  | H : Undefined = Returns _ |- _ => discriminate H
  end.

(** A request is handled as it was decoded; a connection that has ended is closed. *)
Lemma make_request ws s socket buf : (put_buf_size <= length buf)%nat ->
  make_client_request ws s socket buf =
  handle ws (mk_server (decoded buf) (client_count s) (poll_fds s) (barriers s) (communicators s) (requests s)) socket.
Proof. intros H. unfold make_client_request, decoded, get. rewrite (proj2 (Nat.ltb_ge _ _)) by done. done. Qed.

Lemma make_close ws s socket buf s' out : (length buf < put_buf_size)%nat -> make_client_request ws s socket buf = Returns (s', out) ->
  requests s' = requests s /\ barriers s' = barriers s /\ mode (decoded buf) = AM_CLOSE.
Proof. intros H. unfold make_client_request, decoded, get. rewrite (proj2 (Nat.ltb_lt _ _)) by done. cbn. intros; returns. done. Qed.

(** The branches of [handle] that a request may have taken. *)
Ltac mode_cases H :=
  unfold handle in H; cbn [request client_count poll_fds barriers communicators requests] in H;
  repeat match type of H with (if mode ?r =? ?m then _ else _) = _ => destruct (Z.eqb_spec (mode r) m) as [?Em|?Nm] end.

Ltac inner_cases H :=
  repeat (returns; match type of H with
  | (if ?c then _ else _) = Returns _ => destruct c eqn:?
  | (match ?x with Some _ => _ | None => _ end) = Returns _ => destruct x eqn:?
  end).

Lemma value_insert (m : gmap bytes (gmap bytes bytes)) (n k n' k' v : bytes) :
  (<[n' := <[k' := v]> (default ∅ (m !! n'))]> m !! n ≫= fun m => m !! k) =
  from_option id (m !! n ≫= fun m => m !! k)
    (if bool_decide (Returns n' = Returns n) && bool_decide (Returns k' = Returns k) then Some (Some v) else None).
Proof.
  destruct (decide (n' = n)) as [-> | Nn].
  - rewrite bool_decide_true, lookup_insert_eq by done. cbn. destruct (decide (k' = k)) as [-> | Nk].
    + rewrite bool_decide_true, lookup_insert_eq by done. done.
    + rewrite bool_decide_false, lookup_insert_ne by congruence. destruct (m !! n); done.
  - rewrite bool_decide_false, lookup_insert_ne by congruence. done.
Qed.

Lemma value_delete (m : gmap bytes (gmap bytes bytes)) (n k n' k' : bytes) :
  (<[n' := delete k' (default ∅ (m !! n'))]> m !! n ≫= fun m => m !! k) =
  from_option id (m !! n ≫= fun m => m !! k)
    (if bool_decide (Returns n' = Returns n) && bool_decide (Returns k' = Returns k) then Some None else None).
Proof.
  destruct (decide (n' = n)) as [-> | Nn].
  - rewrite bool_decide_true, lookup_insert_eq by done. cbn. destruct (decide (k' = k)) as [-> | Nk].
    + rewrite bool_decide_true, lookup_delete_eq by done. done.
    + rewrite bool_decide_false, lookup_delete_ne by congruence. destruct (m !! n); done.
  - rewrite bool_decide_false, lookup_insert_ne by congruence. done.
Qed.

(** The value of a key after an event. *)
Lemma serve_value ws s e s' out n k : serve ws s e = Returns (s', out) -> value_of s' n k = from_option id (value_of s n k) (writes n k e).
Proof.
  intros H. destruct e as [fd | socket buf]; cbn [serve writes] in *.
  { returns. unfold try_to_connect_new in *. destruct (replace_slot _ _ _); [| discriminate]. cbn zeta in *. returns. done. }
  destruct (Nat.lt_ge_cases (length buf) put_buf_size) as [L|L].
  { apply make_close in H as (H1 & _ & H2); [| done]. unfold value_of. rewrite H1, H2. cbn. destruct (_ && _); done. }
  rewrite make_request in H by done. generalize dependent (decoded buf). intros rq H.
  mode_cases H; repeat match goal with E : mode rq = _ |- _ => rewrite E in *; clear E | E : mode rq <> _ |- _ => apply Z.eqb_neq in E end;
    cbn [Z.eqb Pos.eqb AM_PUT AM_REMOVE]; try (returns; unfold value_of; cbn; destruct (_ && _); done).
  - returns. unfold value_of. cbn. repeat match goal with E : _ = Returns _ |- _ => rewrite E; clear E end. apply value_insert.
  - returns. unfold value_of. cbn. repeat match goal with E : _ = Returns _ |- _ => rewrite E; clear E end. apply value_delete.
  - inner_cases H; returns; destruct (_ && _); done.
  - inner_cases H; returns; destruct (_ && _); done.
  - inner_cases H; returns. repeat match goal with E : (mode rq =? _) = false |- _ => rewrite E; clear E end. destruct (_ && _); done.
Qed.

(** A barrier after an event. *)
Lemma serve_barrier ws s e s' out bn : serve ws s e = Returns (s', out) -> registers bn e = None ->
  match enters bn e with
  | Some socket => exists r, barrier_request (socket_open s socket) (default new_barrier (barriers s !! bn)) socket = Returns r /\ barriers s' !! bn = Some r.1 /\ out = r.2
  | None => barriers s' !! bn = barriers s !! bn
  end.
Proof.
  intros H Hreg. destruct e as [fd | socket buf]; cbn [serve enters asks] in *.
  { returns. unfold try_to_connect_new in *. destruct (replace_slot _ _ _); [| discriminate]. cbn zeta in *. returns. done. }
  unfold registers in Hreg. cbn [asks] in Hreg. unfold enters. cbn [asks].
  destruct (Nat.lt_ge_cases (length buf) put_buf_size) as [L|L].
  { apply make_close in H as (_ & H1 & H2); [| done]. rewrite H1, H2. done. }
  rewrite make_request in H by done. generalize dependent (decoded buf). intros rq H Hreg.
  mode_cases H; repeat match goal with E : mode rq = _ |- _ => rewrite E in *; clear E | E : mode rq <> _ |- _ => apply Z.eqb_neq in E end;
    cbn [Z.eqb Pos.eqb AM_PUT AM_REMOVE AM_BARRIER AM_BARRIER_REGISTER andb] in *; try (inner_cases H; returns; done).
  - returns. destruct (decide (x = bn)) as [-> | Hn].
    + rewrite bool_decide_true by done. exists x0. cbn. rewrite lookup_insert_eq. done.
    + rewrite bool_decide_false by congruence. cbn. apply lookup_insert_ne. done.
  - returns. destruct (decide (x = bn)) as [-> | Hn]; [rewrite bool_decide_true in Hreg by done; done |].
    cbn. apply lookup_insert_ne. done.
Qed.

(** * Barriers *)

(** Whether a client has asked to enter a barrier. *)
Definition entered (bn : bytes) (h : history) (c : Z) : bool := existsb (fun p => bool_decide (enters bn p.1 = Some c)) h.
Definition no_registration (bn : bytes) (h : history) : Prop := Forall (fun p => registers bn p.1 = None) h.
(** A barrier that its clients have registered for, where those of [P] wait. *)
Definition waiting (g : Z) (socks : list Z) (P : Z -> bool) : barrier_info := mk_barrier g g ((fun c => mk_client c (P c)) <$> socks).

Lemma entered_snoc bn h e out c : entered bn (h ++ [(e, out)]) c = entered bn h c || bool_decide (enters bn e = Some c).
Proof. unfold entered. rewrite existsb_app. cbn. rewrite orb_false_r. done. Qed.

Lemma entered_in bn h c : entered bn h c = true -> exists h1 e out h2, h = h1 ++ (e, out) :: h2 /\ enters bn e = Some c.
Proof.
  unfold entered. rewrite existsb_exists. intros ([e out] & Hin & He). apply list_elem_of_In, list_elem_of_split in Hin as (h1 & h2 & ->).
  apply bool_decide_eq_true in He. eauto 6.
Qed.

Lemma mark_waiting (socks : list Z) (P Q : Z -> bool) (x : Z) : NoDup socks -> x ∈ socks ->
  (forall c, c ∈ socks -> Q c = P c || (c =? x)) ->
  mark_client x ((fun c => mk_client c (P c)) <$> socks) = Some ((fun c => mk_client c (Q c)) <$> socks).
Proof.
  induction 1 as [|c socks Hc Hnd IH]; intros Hx HQ; [inversion Hx |]. cbn. destruct (Z.eqb_spec c x) as [-> | Nx].
  - rewrite HQ, Z.eqb_refl, orb_true_r by left. do 2 f_equal. apply list_fmap_ext. intros ? c Hl.
    apply list_elem_of_lookup_2 in Hl. rewrite (HQ c) by (right; done). destruct (Z.eqb_spec c x); [subst; done | rewrite orb_false_r; done].
  - rewrite IH; [cbn | set_solver | intros; apply HQ; right; done].
    rewrite (HQ c) by left. rewrite (proj2 (Z.eqb_neq c x)), orb_false_r by done. done.
Qed.

Lemma mark_absent (cs : list clients_info) (x : Z) : x ∉ (c_socket <$> cs) -> mark_client x cs = None.
Proof.
  induction cs as [|c cs IH]; intros Hx; [done |]. cbn in *. rewrite not_elem_of_cons in Hx. destruct Hx.
  destruct (Z.eqb_spec (c_socket c) x); [congruence |]. rewrite IH by done. done.
Qed.

Lemma socks_of_waiting (socks : list Z) (P : Z -> bool) : c_socket <$> ((fun c => mk_client c (P c)) <$> socks) = socks.
Proof. rewrite <- list_fmap_compose. apply list_fmap_id. Qed.

Lemma forallb_waiting (socks : list Z) (P : Z -> bool) : forallb in_barrier ((fun c => mk_client c (P c)) <$> socks) = forallb P socks.
Proof. induction socks as [|c socks IH]; [done |]. cbn. rewrite IH. done. Qed.

Lemma waiting_ext g socks P Q : (forall c, c ∈ socks -> P c = Q c) -> waiting g socks P = waiting g socks Q.
Proof. intros H. unfold waiting. f_equal. apply list_fmap_ext. intros ? c Hl. rewrite H; [done | eapply list_elem_of_lookup_2; done]. Qed.

Lemma put_each_open open (rs : list (Z * reply)) : forallb open rs.*1 = true -> put_each open rs = (rs, true).
Proof. induction rs as [|x rs IH]; [done |]. cbn. rewrite andb_true_iff. intros [-> H]. rewrite IH by done. done. Qed.

Lemma put_each_closed open (l r : list (Z * reply)) x : forallb open l.*1 = true -> open x.1 = false -> put_each open (l ++ x :: r) = (l, false).
Proof. intros Hl Hx. induction l as [|y l IH]; cbn in *; [rewrite Hx; done |]. rewrite andb_true_iff in Hl. destruct Hl as [-> Hl]. rewrite IH by done. done. Qed.

Lemma put_each_all open (rs : list (Z * reply)) : (put_each open rs).2 = forallb open rs.*1 /\ ((put_each open rs).2 = true -> (put_each open rs).1 = rs).
Proof.
  induction rs as [|x rs [IH1 IH2]]; [done |]. cbn. destruct (open x.1); [| done]. cbn. rewrite IH1 in *. split; [done |]. intros H. rewrite IH2 by done. done.
Qed.

(** A client that enters: all leave when it was the last, otherwise it waits. *)
Lemma barrier_request_waiting open g socks P x r : NoDup socks -> barrier_request open (waiting g socks P) x = Returns r ->
  let Q := fun c => P c || (c =? x) in
  x ∈ socks /\ r = if forallb Q socks then (waiting g socks (fun _ => false), (fun c => (c, r_size 1)) <$> socks) else (waiting g socks Q, []).
Proof.
  intros Hnd H Q. unfold barrier_request, waiting in *. cbn [clients b_global b_local] in *.
  destruct (decide (x ∈ socks)) as [Hx | Hx]; [| rewrite mark_absent in H by (rewrite socks_of_waiting; done); discriminate].
  split; [done |]. rewrite (mark_waiting _ P Q) in H by done. rewrite Z.eqb_refl, forallb_waiting in H. cbn [andb] in H.
  destruct (forallb Q socks); [| returns; done]. rewrite <- !list_fmap_compose in H. cbn zeta in H. set (rs := _ <$> socks) in H. destruct (put_each_all open rs) as [_ Hrs].
  destruct (put_each open rs).2 eqn:E; [| discriminate]. rewrite Hrs in H by done. returns. done.
Qed.

(** Whether the last client that enters lets all leave: the sockets of the clients have to be open. *)
Lemma barrier_request_last open g socks P x : NoDup socks -> x ∈ socks -> (forall c, c ∈ socks -> c <> x -> P c = true) ->
  barrier_request open (waiting g socks P) x =
  if forallb open socks then Returns (waiting g socks (fun _ => false), (fun c => (c, r_size 1)) <$> socks) else Throws.
Proof.
  intros Hnd Hx HP. unfold barrier_request, waiting. cbn [clients b_global b_local]. rewrite (mark_waiting _ P (fun _ => true)); [| done | done |].
  2: { intros c Hc. destruct (Z.eqb_spec c x); [rewrite orb_true_r | rewrite (HP c)]; done. }
  rewrite Z.eqb_refl, forallb_waiting, (proj2 (forallb_forall _ _)) by done. cbn [andb]. rewrite <- !list_fmap_compose. cbn zeta. set (rs := _ <$> socks).
  destruct (put_each_all open rs) as [E Hrs]. assert (rs.*1 = socks) as Hf by (unfold rs; rewrite <- list_fmap_compose; apply list_fmap_id).
  rewrite Hf in E. rewrite E in *. destruct (forallb open socks); [rewrite Hrs by done |]; done.
Qed.

(** As long as one client has not entered, those that have wait, and nobody is answered. *)
Lemma waiting_invariant ws s h s' bn g socks c0 : serves ws s h s' -> NoDup socks -> no_registration bn h ->
  barriers s !! bn = Some (waiting g socks (fun _ => false)) -> c0 ∈ socks -> entered bn h c0 = false ->
  barriers s' !! bn = Some (waiting g socks (entered bn h)) /\ Forall (fun p => is_Some (enters bn p.1) -> p.2 = []) h.
Proof.
  intros Hs Hnd. induction Hs as [|h s1 e s2 out Hs IH Hp Hserve]; intros Hreg Hb Hc0 He; [split; [done | constructor] |].
  apply Forall_app in Hreg as [Hreg Hreg1]. rewrite Forall_singleton in Hreg1. cbn in Hreg1.
  rewrite entered_snoc in He. apply orb_false_iff in He as [He Hne].
  destruct (IH Hreg Hb Hc0 He) as [IH1 IH2]. pose proof (serve_barrier _ _ _ _ _ _ Hserve Hreg1) as Hsb.
  destruct (enters bn e) as [x|] eqn:Hx.
  - destruct Hsb as (r & Hr & Hb2 & ->). rewrite IH1 in Hr. cbn [default from_option id] in Hr.
    apply barrier_request_waiting in Hr as [Hxin Hr]; [| done].
    destruct (forallb _ socks) eqn:Hall0 in Hr.
    { exfalso. revert Hall0. rewrite forallb_forall. intros Hall. specialize (Hall c0 (proj1 (list_elem_of_In _ _) Hc0)). rewrite He in Hall. cbn in Hall.
         apply bool_decide_eq_false in Hne. apply Z.eqb_eq in Hall. congruence. }
    subst r. cbn in *. split.
    + rewrite Hb2. f_equal. apply waiting_ext. intros c _. rewrite entered_snoc, Hx. f_equal.
      destruct (Z.eqb_spec c x); [rewrite bool_decide_true | rewrite bool_decide_false]; congruence.
    + apply Forall_app. split; [done |]. constructor; [done | constructor].
  - split.
    + rewrite Hsb, IH1. f_equal. apply waiting_ext. intros c _. rewrite entered_snoc, Hx, bool_decide_false, orb_false_r by done. done.
    + apply Forall_app. split; [done |]. constructor; [| constructor]. cbn. rewrite Hx. intros [? [=]].
Qed.

(** A string that fits into a field with its end. *)
Definition fits (l : bytes) : Prop := chars l /\ (length l < 130)%nat.

Lemma decoded_frame m n k v : byte m -> fits n -> fits k -> fits v ->
  decoded (frame m n k v) = mk_request m (pad MAX_KVS_NAME_LENGTH n) (pad MAX_KVS_KEY_LENGTH k) (pad MAX_KVS_VAL_LENGTH v) /\
  str_name (decoded (frame m n k v)) = Returns n /\ str_key (decoded (frame m n k v)) = Returns k /\ str_val (decoded (frame m n k v)) = Returns v.
Proof.
  intros Hm [Cn Ln] [Ck Lk] [Cv Lv]. unfold decoded. rewrite get_frame by (first [done | unfold MAX_KVS_NAME_LENGTH, MAX_KVS_KEY_LENGTH, MAX_KVS_VAL_LENGTH; lia]).
  repeat split; apply c_str_pad; done.
Qed.

Lemma length_frame m n k v : fits n -> fits k -> fits v -> length (frame m n k v) = put_buf_size.
Proof.
  intros [_ Ln] [_ Lk] [_ Lv]. unfold frame. rewrite !length_app, !length_pad by (unfold MAX_KVS_NAME_LENGTH, MAX_KVS_KEY_LENGTH, MAX_KVS_VAL_LENGTH; lia).
  reflexivity.
Qed.

(** What a client writes to enter a barrier, to set and to get a value. *)
Definition barrier_buf (bn : bytes) : bytes := frame AM_BARRIER bn bn [].
Definition put_val_buf (n k v : bytes) : bytes := frame AM_PUT n k v.
Definition get_val_buf (n k : bytes) : bytes := frame AM_GET_VAL n k [].

Lemma fits_nil : fits [].
Proof. split; [constructor | cbn; lia]. Qed.

Ltac frames := first [done | apply fits_nil | unfold byte, AM_BARRIER, AM_PUT, AM_GET_VAL; lia].

Lemma enters_barrier_buf bn c : fits bn -> enters bn (Request c (barrier_buf bn)) = Some c.
Proof.
  intros H. unfold enters, asks, barrier_buf. destruct (decoded_frame AM_BARRIER bn bn []) as (-> & Hn & _); [frames .. |].
  cbn. unfold str_name in *. cbn in Hn. rewrite Hn, bool_decide_true by done. done.
Qed.

Lemma barrier_buf_request ws s c bn : fits bn ->
  exists s1, make_client_request ws s c (barrier_buf bn) =
    (r <-? barrier_request (socket_open s c) (default new_barrier (barriers s !! bn)) c ;; Returns (set_barrier s1 bn r.1, r.2)) /\ barriers s1 = barriers s.
Proof.
  intros H. eexists. rewrite make_request by (unfold barrier_buf; rewrite length_frame by frames; done). unfold barrier_buf.
  destruct (decoded_frame AM_BARRIER bn bn []) as (E & Hn & _); [frames .. |]. unfold handle. cbn [request].
  rewrite Hn. rewrite E. cbn. split; done.
Qed.

(** C34: [server::make_client_request], [AM_BARRIER]: from a barrier that all clients have registered for, whatever else is requested (other keys,
    other barriers, connections, closed connections): as long as one client has not entered, nobody who enters is answered; and when it enters after
    all others, then if none of the clients' sockets has been closed, all clients are answered, in the order of their registration, and the barrier is
    as it was before; if one has been, the server ends with a failure. *)
Theorem barrier_releases_together ws s h s' bn g socks c0 : serves ws s h s' -> NoDup socks -> fits bn -> no_registration bn h ->
  barriers s !! bn = Some (waiting g socks (fun _ => false)) -> c0 ∈ socks -> entered bn h c0 = false ->
  (forall e out, (e, out) ∈ h -> is_Some (enters bn e) -> out = []) /\
  ((forall c, c ∈ socks -> c <> c0 -> entered bn h c = true) ->
   ((forall c, c ∈ socks -> c <> c0 -> c ∈ poll_fds s') ->
    exists s'', make_client_request ws s' c0 (barrier_buf bn) = Returns (s'', (fun c => (c, r_size 1)) <$> socks) /\
      barriers s'' !! bn = Some (waiting g socks (fun _ => false))) /\
   ((exists c, c ∈ socks /\ c <> c0 /\ c ∉ poll_fds s') -> make_client_request ws s' c0 (barrier_buf bn) = Throws)).
Proof.
  intros Hs Hnd Hbn Hreg Hb Hc0 He. destruct (waiting_invariant ws s h s' bn g socks c0) as [Hw Hout]; [done .. |]. split.
  { intros e out Hin Hen. rewrite Forall_forall in Hout. exact (Hout (e, out) Hin Hen). }
  intros Hall. destruct (barrier_buf_request ws s' c0 bn Hbn) as (s1 & Hmake & Hs1). rewrite Hmake, Hw. cbn [default from_option id].
  rewrite (barrier_request_last _ g socks (entered bn h) c0) by done. split.
  - intros Hopen. rewrite (proj2 (forallb_forall _ _)).
    + eexists. split; [reflexivity |]. cbn. apply lookup_insert_eq.
    + intros c Hc. apply list_elem_of_In in Hc. unfold socket_open. destruct (Z.eqb_spec c c0); [done |]. apply bool_decide_eq_true. auto.
  - intros (c & Hc & Hne & Hcl). destruct (forallb _ socks) eqn:E; [| done]. rewrite forallb_forall in E. specialize (E c (proj1 (list_elem_of_In _ _) Hc)).
    unfold socket_open in E. rewrite (proj2 (Z.eqb_neq c c0)) in E by done. apply bool_decide_eq_true in E. done.
Qed.

(** A barrier with clients 5 and 6, of which 5 has entered. *)
Definition demo_name : bytes := [67; 67; 76].
Definition demo_server (waits5 : bool) (rq : kvs_request_t) : server :=
  mk_server rq 2 [5; 6; free_socket] {[ demo_name := waiting 2 [5; 6] (fun c => waits5 && (c =? 5)) ]} ∅ ∅.

Lemma barrier_releases_together_witness : exists s s' s'',
  serves None s [(Request 5 (barrier_buf demo_name), [])] s' /\
  make_client_request None s' 6 (barrier_buf demo_name) = Returns (s'', [(5, r_size 1); (6, r_size 1)]).
Proof.
  set (s := demo_server false (request new_server)). set (s' := demo_server true (decoded (barrier_buf demo_name))).
  assert (serves None s [(Request 5 (barrier_buf demo_name), [])] s') as Hs.
  { apply (serves_snoc None s [] s); [constructor | split; [lia | left] | vm_compute; reflexivity]. }
  destruct (barrier_releases_together None s [(Request 5 (barrier_buf demo_name), [])] s' demo_name 2 [5; 6] 6) as [_ H].
  - exact Hs.
  - apply NoDup_ListNoDup. repeat constructor; cbn; intuition discriminate.
  - split; [repeat constructor; discriminate | vm_compute; lia].
  - repeat constructor.
  - vm_compute. reflexivity.
  - right. left.
  - vm_compute. reflexivity.
  - destruct H as [H _].
    + intros c Hc Hne. rewrite list_elem_of_In in Hc. destruct Hc as [<- | [<- | []]]; [vm_compute; reflexivity | done].
    + destruct H as (s'' & H & _); [| exists s, s', s''; split; [exact Hs | exact H]].
      intros c Hc Hne. rewrite list_elem_of_In in Hc. destruct Hc as [<- | [<- | []]]; [left | done].
Defined.

(** A client whose connection ends while it waits in a barrier stays in it: when the last client enters, those that registered before the closed one
    are answered and the others are not, and the server ends. *)
Theorem closed_client_ends_server : exists s h s', serves None s h s' /\ c_socket <$> clients (default new_barrier (barriers s' !! demo_name)) = [5; 6; 7] /\
  make_client_request None s' 7 (barrier_buf demo_name) = Throws /\
  put_each (socket_open s' 7) ((fun c => (c, r_size 1)) <$> [5; 6; 7]) = ([(5, r_size 1)], false).
Proof.
  set (bs := fun w : Z -> bool => {[ demo_name := waiting 3 [5; 6; 7] w ]} : gmap bytes barrier_info).
  set (s0 := mk_server (request new_server) 3 [5; 6; 7; free_socket] (bs (fun _ => false)) ∅ ∅).
  assert (exists s1, serve None s0 (Request 5 (barrier_buf demo_name)) = Returns (s1, []) /\ poll_fds s1 = [5; 6; 7; free_socket] /\
    exists s2, serve None s1 (Request 6 (barrier_buf demo_name)) = Returns (s2, []) /\ poll_fds s2 = [5; 6; 7; free_socket] /\
    exists s3, serve None s2 (Request 6 []) = Returns (s3, []) /\ poll_fds s3 = [5; free_socket; 7; free_socket] /\
      c_socket <$> clients (default new_barrier (barriers s3 !! demo_name)) = [5; 6; 7] /\ make_client_request None s3 7 (barrier_buf demo_name) = Throws)
    as (s1 & H1 & P1 & s2 & H2 & P2 & s3 & H3 & P3 & C3 & H4) by (do 3 (eexists; split; [vm_compute; reflexivity |]; split; [reflexivity |]); split; vm_compute; reflexivity).
  set (e1 := Request 5 (barrier_buf demo_name)) in *. set (e2 := Request 6 (barrier_buf demo_name)) in *.
  exists s0, [(e1, []); (e2, []); (Request 6 [], [])], s3. split; [| split; [exact C3 | split; [exact H4 |]]].
  - apply (serves_snoc None s0 [(e1, []); (e2, [])] s2); [apply (serves_snoc None s0 [(e1, [])] s1); [apply (serves_snoc None s0 [] s0) | |] | |];
      [constructor | split; [lia | left] | exact H1 | split; [lia | rewrite P1; right; left] | exact H2 | split; [lia | rewrite P2; right; left] | exact H3].
  - unfold socket_open. rewrite P3. vm_compute. reflexivity.
Qed.

(** * Values *)

(** A value that was put, and that only the same value was put over, is there. *)
Lemma value_stays ws s h s' n k v : serves ws s h s' -> (forall e out r, (e, out) ∈ h -> writes n k e = Some r -> r = Some v) ->
  (exists e out, (e, out) ∈ h /\ writes n k e = Some (Some v)) -> value_of s' n k = Some v.
Proof.
  intros Hs. induction Hs as [|h s1 e s2 out Hs IH Hp Hserve]; intros Honly (e0 & out0 & Hin & Hw); [inversion Hin |].
  rewrite (serve_value _ _ _ _ _ n k Hserve). destruct (writes n k e) as [r|] eqn:Hr.
  - rewrite (Honly e out r); [done | set_solver | done].
  - cbn. apply IH; [intros e1 out1 r Hin1; apply (Honly e1 out1); set_solver |]. exists e0, out0. split; [| done].
    apply elem_of_app in Hin as [? | Hin]; [done |]. apply list_elem_of_singleton in Hin. congruence.
Qed.

(** A value is what the last event that changed it made of it. *)
Lemma value_after ws s h1 e out h2 s' n k r : serves ws s (h1 ++ (e, out) :: h2) s' -> writes n k e = Some r ->
  (forall e' out', (e', out') ∈ h2 -> writes n k e' = None) -> value_of s' n k = r.
Proof.
  revert s'. induction h2 as [|[e2 out2] h2 IH] using rev_ind; intros s' Hs Hw Hrest; inversion Hs as [Hnil | h s1 e0 s2 out0 Hs1 Hp Hserve Heq]; subst.
  - destruct h1; discriminate.
  - apply app_inj_tail in Heq as [-> [= -> ->]]. rewrite (serve_value _ _ _ _ _ n k Hserve), Hw. done.
  - destruct h1; discriminate.
  - rewrite app_comm_cons, app_assoc in Heq. apply app_inj_tail in Heq as [-> [= -> ->]].
    rewrite (serve_value _ _ _ _ _ n k Hserve), (Hrest e2 out2) by set_solver. apply IH; [done | done |]. intros e' out' Hin. apply (Hrest e' out'). set_solver.
Qed.

Lemma writes_put_val_buf c n k v : fits n -> fits k -> fits v -> writes n k (Request c (put_val_buf n k v)) = Some (Some v).
Proof.
  intros Hn Hk Hv. cbn [writes]. unfold put_val_buf. destruct (decoded_frame AM_PUT n k v) as (E & E1 & E2 & E3); [frames .. |].
  cbn zeta. rewrite E1, E2, E3, E, !bool_decide_true by done. done.
Qed.

(** The answers to [AM_GET_VAL]. *)
Lemma get_val_request ws s c n k : fits n -> fits k -> (forall v, value_of s n k = Some v -> (length v <= MAX_KVS_VAL_LENGTH)%nat) ->
  exists s', make_client_request ws s c (get_val_buf n k) =
    Returns (s', match value_of s n k with Some v => [(c, r_size 1); (c, r_val (pad MAX_KVS_VAL_LENGTH v))] | None => [(c, r_size 0)] end) /\
    requests s' = requests s.
Proof.
  intros Hn Hk Hlen. unfold get_val_buf in *. rewrite make_request by (rewrite length_frame by frames; done).
  destruct (decoded_frame AM_GET_VAL n k []) as (E & E1 & E2 & _); [frames .. |]. unfold handle, value_of in *. cbn [request requests].
  rewrite E1, E2. rewrite E. cbn -[put_string pad].
  destruct (requests s !! n) as [m|]; cbn -[put_string pad] in *; [| eexists; split; done].
  destruct (m !! k) as [v|]; cbn -[put_string pad] in *; [| eexists; split; done].
  unfold put_string. rewrite (proj2 (Nat.leb_le _ _)) by auto. cbn -[pad]. eexists. split; done.
Qed.

(** Who is answered in a barrier, has been preceded in it by all clients. *)
Lemma release_needs_all ws s h s' bn g socks : serves ws s h s' -> no_registration bn h ->
  barriers s !! bn = Some (waiting g socks (fun _ => false)) -> NoDup socks ->
  (exists P, barriers s' !! bn = Some (waiting g socks P) /\ forall c, P c = true -> entered bn h c = true) /\
  (forall h1 e out h2, h = h1 ++ (e, out) :: h2 -> is_Some (enters bn e) -> out <> [] ->
     forall c, c ∈ socks -> entered bn (h1 ++ [(e, out)]) c = true).
Proof.
  intros Hs Hreg Hb Hnd. induction Hs as [|h s1 e s2 out Hs IH Hp Hserve].
  { split; [eexists; split; [done | discriminate] |]. intros [|??]; discriminate. }
  apply Forall_app in Hreg as [Hreg Hreg1]. rewrite Forall_singleton in Hreg1. cbn in Hreg1.
  destruct IH as [(P & IH1 & IH2) IH3]; [done |]. pose proof (serve_barrier _ _ _ _ _ _ Hserve Hreg1) as Hsb.
  assert (forall h1 e' out' h2, h ++ [(e, out)] = h1 ++ (e', out') :: h2 -> (h2 = [] /\ h1 = h /\ e' = e /\ out' = out) \/ exists h2', h = h1 ++ (e', out') :: h2') as Hsplit.
  { intros h1 e' out' h2 Heq. destruct h2 as [|x h2 _] using rev_ind; [left | right].
    - apply app_inj_tail in Heq as [-> [= -> ->]]. done.
    - exists h2. rewrite app_comm_cons, app_assoc in Heq. apply app_inj_tail in Heq as [-> _]. done. }
  destruct (enters bn e) as [x|] eqn:Hx.
  - destruct Hsb as (r & Hr & Hb2 & ->). rewrite IH1 in Hr. cbn [default from_option id] in Hr.
    apply barrier_request_waiting in Hr as [Hxin Hr]; [| done].
    assert (forall c, P c || (c =? x) = true -> entered bn (h ++ [(e, r.2)]) c = true) as HQ.
    { intros c Hc. rewrite entered_snoc, Hx. apply orb_true_iff in Hc as [Hc | Hc]; [rewrite IH2 by done; done |].
      apply Z.eqb_eq in Hc as ->. rewrite bool_decide_true, orb_true_r by done. done. }
    split.
    + destruct (forallb _ socks); subst r; eexists; (split; [exact Hb2 |]); [discriminate | exact HQ].
    + intros h1 e' out' h2 Heq Hen Hout c Hc. apply Hsplit in Heq as [(-> & -> & -> & ->) | [h2' ->]]; [| eapply IH3; eauto].
      apply HQ. destruct (forallb _ socks) eqn:Hall in Hr; [| subst r; done].
      rewrite forallb_forall in Hall. apply (Hall c), list_elem_of_In. done.
  - split.
    + exists P. split; [rewrite Hsb; done |]. intros c Hc. rewrite entered_snoc, IH2 by done. done.
    + intros h1 e' out' h2 Heq Hen Hout. apply Hsplit in Heq as [(-> & -> & -> & ->) | [h2' ->]]; [rewrite Hx in Hen; destruct Hen; done | eapply IH3; eauto].
Qed.

(** C33: [server::make_client_request]: the exchange of a start-up is ordered.  Let A put a value before it enters a barrier that all its clients have
    registered for (no registration for it comes in between), and let nothing else be put under the name and key, and the key not be removed, as
    [pmrt_finalize] of A would.  Then once anybody has been answered in the barrier (any client, in any round), a get of the name and key that comes after
    returns the value, whoever asks, and whatever other keys, barriers and connections the server has served. *)
Theorem put_visible_after_barrier ws s h s' bn g socks A B n k v : serves ws s h s' -> fits bn -> fits n -> fits k -> fits v ->
  NoDup socks -> A ∈ socks -> no_registration bn h -> barriers s !! bn = Some (waiting g socks (fun _ => false)) ->
  (forall h1 e out h2, h = h1 ++ (e, out) :: h2 -> enters bn e = Some A -> exists out', (Request A (put_val_buf n k v), out') ∈ h1) ->
  (forall e out r, (e, out) ∈ h -> writes n k e = Some r -> r = Some v) ->
  (exists e out, (e, out) ∈ h /\ is_Some (enters bn e) /\ out <> []) ->
  exists s'', make_client_request ws s' B (get_val_buf n k) = Returns (s'', [(B, r_size 1); (B, r_val (pad MAX_KVS_VAL_LENGTH v))]).
Proof.
  intros Hs Hbn Hn Hk Hv Hnd HA Hreg Hb Hfifo Honly (e & out & Hin & Hen & Hout).
  apply list_elem_of_split in Hin as (h1 & h2 & Hh).
  destruct (release_needs_all ws s h s' bn g socks) as [_ Hall]; [done .. |].
  specialize (Hall h1 e out h2 Hh Hen Hout A HA). apply entered_in in Hall as (h3 & eA & outA & h4 & Hsplit & HeA).
  assert (h = h3 ++ (eA, outA) :: (h4 ++ h2)) as Hh3.
  { rewrite Hh. replace (h1 ++ (e, out) :: h2) with ((h1 ++ [(e, out)]) ++ h2) by (rewrite <- app_assoc; done). rewrite Hsplit, <- app_assoc. done. }
  destruct (Hfifo _ _ _ _ Hh3 HeA) as [out' Hput].
  assert (value_of s' n k = Some v) as Hval.
  { eapply value_stays; [done | done |]. exists (Request A (put_val_buf n k v)), out'. split; [rewrite Hh3; set_solver | apply writes_put_val_buf; done]. }
  destruct (get_val_request ws s' B n k) as (s'' & Hget & _); [done | done | | rewrite Hval in Hget; eauto].
  rewrite Hval. intros ? [= <-]. unfold MAX_KVS_VAL_LENGTH. destruct Hv. lia.
Qed.

Lemma put_visible_after_barrier_witness : exists s s' s'' out,
  serves None s [(Request 5 (put_val_buf demo_name [75] [86]), []); (Request 6 (barrier_buf demo_name), []); (Request 5 (barrier_buf demo_name), out)] s' /\
  make_client_request None s' 6 (get_val_buf demo_name [75]) = Returns (s'', [(6, r_size 1); (6, r_val (pad MAX_KVS_VAL_LENGTH [86]))]).
Proof.
  set (s := demo_server false (request new_server)).
  set (e1 := Request 5 (put_val_buf demo_name [75] [86])). set (e2 := Request 6 (barrier_buf demo_name)). set (e3 := Request 5 (barrier_buf demo_name)).
  assert (exists s1, serve None s e1 = Returns (s1, []) /\ poll_fds s1 = [5; 6; free_socket] /\ exists s2, serve None s1 e2 = Returns (s2, []) /\
    poll_fds s2 = [5; 6; free_socket] /\ exists s3, serve None s2 e3 = Returns (s3, [(5, r_size 1); (6, r_size 1)])) as (s1 & H1 & P1 & s2 & H2 & P2 & s3 & H3).
  { eexists. split; [vm_compute; reflexivity |]. split; [reflexivity |]. eexists. split; [vm_compute; reflexivity |]. split; [reflexivity |].
    eexists. vm_compute. reflexivity. }
  assert (serves None s [(e1, []); (e2, []); (e3, [(5, r_size 1); (6, r_size 1)])] s3) as Hs.
  { apply (serves_snoc None s [(e1, []); (e2, [])] s2); [apply (serves_snoc None s [(e1, [])] s1); [apply (serves_snoc None s [] s) | |] | |];
      [constructor | split; [lia | left] | exact H1 | split; [lia | rewrite P1; right; left] | exact H2 | split; [lia | rewrite P2; left] | exact H3]. }
  assert (fits demo_name /\ fits [75] /\ fits [86]) as (F1 & F2 & F3) by (repeat split; first [repeat constructor; discriminate | vm_compute; lia]).
  destruct (put_visible_after_barrier None s _ s3 demo_name 2 [5; 6] 5 6 demo_name [75] [86] Hs F1 F1 F2 F3) as [s'' H].
  - apply NoDup_ListNoDup. repeat constructor; cbn; intuition discriminate.
  - left.
  - repeat constructor.
  - vm_compute. reflexivity.
  - intros h1 e out h2 Hh He. destruct h1 as [|p h1]; [injection Hh as <- <- _; vm_compute in He; discriminate |].
    injection Hh as <- _. exists []. left.
  - intros e out r Hin Hw. rewrite list_elem_of_In in Hin. destruct Hin as [[= <- <-] | [[= <- <-] | [[= <- <-] | []]]]; vm_compute in Hw; congruence.
  - exists e3, [(5, r_size 1); (6, r_size 1)]. split; [right; right; left |]. split; [eexists; vm_compute; reflexivity | discriminate].
  - exists s, s3, s'', [(5, r_size 1); (6, r_size 1)]. split; [exact Hs | exact H].
Defined.

(** * Connections *)

(** The clients that are connected are the slots that are not free, each a socket of its own, and one slot at least is free. *)
Definition taken (fds : list Z) : list Z := filter (fun fd => fd <> free_socket) fds.
Definition slots_ok (s : server) : Prop :=
  Z.of_nat (length (taken (poll_fds s))) = client_count s /\ client_count s < Z.of_nat (length (poll_fds s)) /\
  NoDup (taken (poll_fds s)) /\ Forall (fun fd => 0 <= fd < 2 ^ 31) (taken (poll_fds s)).

Lemma replace_slot_spec (old new : Z) (fds : list Z) : old ∈ fds ->
  exists l r, fds = l ++ old :: r /\ replace_slot old new fds = Some (l ++ new :: r).
Proof.
  induction fds as [|fd fds IH]; intros Hin; [inversion Hin |]. cbn. destruct (Z.eqb_spec fd old) as [-> | Hne]; [exists [], fds; done |].
  destruct IH as (l & r & -> & ->); [set_solver |]. exists (fd :: l), r. done.
Qed.

Lemma taken_app (l r : list Z) : taken (l ++ r) = taken l ++ taken r.
Proof. apply filter_app. Qed.
Lemma taken_cons (fd : Z) (l : list Z) : taken (fd :: l) = if decide (fd = free_socket) then taken l else fd :: taken l.
Proof. unfold taken. rewrite filter_cons. destruct (decide (fd = free_socket)), (decide (fd <> free_socket)); done. Qed.
Lemma taken_free (n : nat) : taken (replicate n free_socket) = [].
Proof. induction n as [|n IH]; [done |]. cbn [replicate]. rewrite taken_cons, decide_True by done. done. Qed.

Lemma elem_of_taken (fd : Z) (l : list Z) : fd ∈ taken l <-> fd <> free_socket /\ fd ∈ l.
Proof. unfold taken. rewrite list_elem_of_filter. done. Qed.
Lemma free_slot_exists (fds : list Z) : (length (taken fds) < length fds)%nat -> free_socket ∈ fds.
Proof.
  induction fds as [|fd fds IH]; [cbn; lia |]. rewrite taken_cons. case_decide as Hfd; cbn [length]; intros; [rewrite Hfd; left | right; apply IH; lia].
Qed.

Lemma few_sockets (fds : list Z) : NoDup fds -> Forall (fun fd => 0 <= fd < 2 ^ 31) fds -> Z.of_nat (length fds) <= 2 ^ 31.
Proof.
  intros Hnd Hf. assert (fds ⊆+ seqZ 0 (2 ^ 31)) as Hsub.
  { apply NoDup_submseteq; [done |]. intros fd Hin. rewrite Forall_forall in Hf. apply elem_of_seqZ. specialize (Hf fd Hin). lia. }
  apply submseteq_length in Hsub. rewrite length_seqZ in Hsub. lia.
Qed.

Lemma new_server_slots : slots_ok new_server.
Proof.
  unfold slots_ok, new_server. cbn [poll_fds client_count]. rewrite taken_free. split_and!; [done | done | constructor | constructor].
Qed.

Lemma connect_slots (s : server) (fd : Z) : slots_ok s -> polled s (Connect fd) ->
  exists s', try_to_connect_new s fd = Returns s' /\ slots_ok s' /\ forall fd', fd' ∈ taken (poll_fds s') <-> fd' = fd \/ fd' ∈ taken (poll_fds s).
Proof.
  intros (H1 & H2 & H3 & H4) [Hfd Hnew]. destruct (replace_slot_spec free_socket fd (poll_fds s)) as (l & r & Hs & Hr); [apply free_slot_exists; lia |].
  pose proof (few_sockets _ H3 H4) as Hfew. unfold try_to_connect_new. rewrite Hr. cbn zeta. rewrite (wrap_small 64) by lia. eexists. split; [done |].
  assert (fd <> free_socket) as Hne by (unfold free_socket; lia).
  assert (taken (l ++ fd :: r) = taken l ++ fd :: taken r) as Ht by (rewrite taken_app, taken_cons, decide_False by done; done).
  rewrite Hs, taken_app, taken_cons, decide_True in H1, H3, H4 by done.
  assert (fd ∉ taken l ++ taken r) as Hnot by (rewrite elem_of_app, !elem_of_taken; rewrite Hs in Hnew; set_solver).
  set (fds' := if _ =? _ then _ else _). assert (taken fds' = taken l ++ fd :: taken r) as Ht'.
  { subst fds'. destruct (_ =? _); [rewrite taken_app, taken_free, app_nil_r |]; exact Ht. }
  unfold slots_ok. cbn [poll_fds client_count]. rewrite Ht', Hs, taken_app, (taken_cons free_socket), decide_True by done. split; [split_and! |].
  - rewrite length_app in *. cbn. lia.
  - subst fds'. rewrite Hs, length_app in H2. rewrite !length_app in *. cbn [length] in *. destruct (Z.eqb_spec (Z.of_nat (length l + S (length r))) (client_count s + 1)).
    + rewrite !length_app, length_replicate. cbn [length]. unfold client_count_increase. lia.
    + rewrite length_app. cbn [length]. lia.
  - apply NoDup_app in H3 as (N1 & N2 & N3). apply NoDup_app. split; [done |]. split; [set_solver |]. constructor; set_solver.
  - rewrite Forall_app, Forall_cons in *. intuition lia.
  - intros fd'. set_solver.
Qed.

Lemma close_slots (s s' : server) (fd : Z) : slots_ok s -> 0 < fd -> fd ∈ poll_fds s ->
  poll_fds s' = free_slot fd (poll_fds s) -> client_count s' = u64 (client_count s - 1) -> slots_ok s'.
Proof.
  intros (H1 & H2 & H3 & H4) Hfd Hin Hs' Hc. pose proof (few_sockets _ H3 H4) as Hfew.
  destruct (replace_slot_spec fd free_socket (poll_fds s)) as (l & r & Hs & Hr); [done |].
  unfold free_slot in Hs'. rewrite Hr in Hs'. cbn in Hs'. unfold slots_ok. rewrite Hs', Hc, taken_app, taken_cons, decide_True by done.
  rewrite Hs, taken_app, taken_cons, decide_False in H1, H3, H4, Hfew by (unfold free_socket; lia). rewrite Hs in H2. clear Hr.
  rewrite !length_app in *. cbn [length] in *. rewrite (wrap_small 64) by lia. split_and!; [lia | lia | |].
  - apply NoDup_app in H3 as (N1 & N2 & N3). apply NoDup_cons in N3 as [N3 N4]. apply NoDup_app. split; [done |]. split; [set_solver | done].
  - rewrite Forall_app, Forall_cons in *. intuition.
Qed.

Lemma request_slots ws s s' socket buf out : slots_ok s -> polled s (Request socket buf) -> make_client_request ws s socket buf = Returns (s', out) -> slots_ok s'.
Proof.
  intros Hok [Hpos Hin] H. unfold make_client_request in H. generalize dependent (get (request s) buf). intros rq H.
  mode_cases H; inner_cases H; returns; try exact Hok. eapply (close_slots s); done.
Qed.

Lemma serves_slots ws s h s' : serves ws s h s' -> slots_ok s -> slots_ok s'.
Proof.
  intros Hs H0. induction Hs as [|h s1 e s2 out Hs IH Hp Hserve]; [done |]. destruct e as [fd | socket buf]; cbn [serve] in Hserve.
  - destruct (connect_slots s1 fd IH Hp) as (s3 & E & Hok & _). rewrite E in Hserve. cbn in Hserve. returns. done.
  - eapply request_slots; done.
Qed.

(** C35: [server::try_to_connect_new]: whatever a server has served, the count of the clients is that of the slots of [poll_fds] in use, each of them a
    socket of its own; a new connection finds a free slot (the failure "free socket not found" is unreachable), and then the new socket is polled with all
    that were, the count is again that of the slots in use, and a slot is free for the next one. *)
Theorem connection_finds_slot ws h s fd : serves ws new_server h s -> polled s (Connect fd) ->
  client_count s = Z.of_nat (length (taken (poll_fds s))) /\ NoDup (taken (poll_fds s)) /\
  exists s', try_to_connect_new s fd = Returns s' /\ client_count s' = client_count s + 1 /\ client_count s' = Z.of_nat (length (taken (poll_fds s'))) /\
    free_socket ∈ poll_fds s' /\ forall fd', fd' <> free_socket -> fd' ∈ poll_fds s' <-> fd' = fd \/ fd' ∈ poll_fds s.
Proof.
  intros Hs Hp. pose proof (serves_slots ws _ _ _ Hs new_server_slots) as Hok.
  destruct (connect_slots s fd Hok Hp) as (s' & E & Hok' & Hin).
  destruct Hok as (K1 & K2 & K3 & K4), Hok' as (K1' & K2' & _). split; [done |]. split; [done |]. exists s'. split_and!; [done | | done | apply free_slot_exists; lia |].
  - unfold try_to_connect_new in E. destruct (replace_slot _ _ _); [| discriminate]. cbn zeta in E. returns. cbn.
    pose proof (few_sockets _ K3 K4). apply wrap_small. lia.
  - intros fd' Hne. specialize (Hin fd'). rewrite !elem_of_taken in Hin. destruct Hp as [Hfd _]. intuition.
Qed.

Lemma connection_finds_slot_witness : exists s s', try_to_connect_new s 6 = Returns s' /\ client_count s' = client_count s + 1.
Proof.
  destruct (try_to_connect_new new_server 5) as [s | |] eqn:E; [| vm_compute in E; discriminate | vm_compute in E; discriminate].
  destruct (connection_finds_slot None [(Connect 5, [])] s 6) as (_ & _ & s' & H1 & H2 & _).
  - apply (serves_snoc None new_server [] new_server); [constructor | split; [lia |] | cbn [serve]; rewrite E; reflexivity].
    unfold new_server. cbn [poll_fds]. rewrite elem_of_replicate. intros [? _]. discriminate.
  - vm_compute in E. injection E as <-. split; [lia |]. cbn [poll_fds]. rewrite list_elem_of_In. cbn. intuition discriminate.
  - exists s, s'. split; [exact H1 | exact H2].
Defined.
