(* ===== verification/Pmi.v ===== *)
(** The client side of the process management: [kvs_keeper.cpp], the requests of [internal_kvs.cpp], and [pmi_resizable_simple_internal.cpp], which
    puts and gets values, registers the processes of a communicator and removes what it put.

    A client function that writes a request returns the bytes; one that also reads takes the replies that the server sends.  [Throws] is a failure
    status or an exception.  The theorems: what one process puts another one gets; the keeper is a map and [pmrt_finalize] removes from the server
    exactly what was put; when the last process of a communicator has registered, and not before, all are told the number of processes, their own rank,
    the ranks and threads of their process and a thread number that no other thread of the process has. *)

From stdpp Require Import gmap list sorting.
From S2P Require Import Prelude Kvs.
Open Scope Z_scope.
Open Scope ccl_scope.

Implicit Types (l : bytes).

(** * Which store is used *)

Inductive kvs_mode := pmi | mpi | pmix_ofi | pmix_ofi_shm.
Inductive ccl_atl_transport := ccl_atl_ofi | ccl_atl_mpi.
Inductive process_launcher_mode := hydra | torchrun | pmix | none.
#[export] Instance kvs_mode_eq_dec : EqDecision kvs_mode.
Proof. solve_decision. Defined.
#[export] Instance transport_eq_dec : EqDecision ccl_atl_transport.
Proof. solve_decision. Defined.
#[export] Instance launcher_eq_dec : EqDecision process_launcher_mode.
Proof. solve_decision. Defined.
Record env := mk_env { kvs_init_mode : kvs_mode; atl_transport : ccl_atl_transport; process_launcher : process_launcher_mode }.

Definition can_use_internal_kvs (e : env) : bool :=
  bool_decide (kvs_init_mode e = pmi) ||
  (bool_decide (atl_transport e = ccl_atl_ofi) &&
   (bool_decide (kvs_init_mode e <> pmix_ofi) || bool_decide (kvs_init_mode e <> pmix_ofi_shm)) &&
   bool_decide (process_launcher e <> pmix)).

(** * The requests of [internal_kvs.cpp] *)

Definition of_option {A} (o : option A) : outcome A := match o with Some x => Returns x | None => Throws end.
Definition write_request (e : env) (m : Z) (n k v : bytes) : outcome bytes := check can_use_internal_kvs e ;; of_option (put m n k v).
Definition kvs_set_value (e : env) (n k v : bytes) : outcome bytes := write_request e AM_PUT n k v.
Definition kvs_set_size (e : env) (n k v : bytes) : outcome bytes := write_request e AM_SET_SIZE n k v.
Definition kvs_barrier_register (e : env) (n k v : bytes) : outcome bytes := write_request e AM_BARRIER_REGISTER n k v.
Definition kvs_barrier (e : env) (n k v : bytes) : outcome bytes := write_request e AM_BARRIER n k v.
Definition kvs_remove_name_key (e : env) (n k : bytes) : outcome bytes := write_request e AM_REMOVE n k [].
Definition kvs_register (e : env) (n k v : bytes) : outcome bytes := write_request e AM_INTERNAL_REGISTER n k v.
Definition kvs_get_value_by_name_key (e : env) (n k : bytes) : outcome bytes := write_request e AM_GET_VAL n k [].
Definition kvs_get_count_names (e : env) (n : bytes) : outcome bytes := write_request e AM_GET_COUNT n [] [].
Definition kvs_get_keys_values_by_name (e : env) (n : bytes) : outcome bytes := write_request e AM_GET_KEYS_VALUES n [] [].
Definition kvs_get_replica_size (e : env) : outcome bytes := write_request e AM_GET_REPLICA [] [] [].

(** What [kvs_get_value_by_name_key] makes of the replies; [kvs_val] stays when there is no value. *)
Definition read_value (kvs_val : bytes) (answer : list reply) : outcome bytes :=
  match answer with
  | r_size is_exist :: answer' => if is_exist =? 0 then Returns kvs_val else match answer' with r_val v :: _ => Returns v | _ => Throws end
  | _ => Throws
  end.

(** * The keeper *)

(** [strstr(s1, s2)] is not null. *)
Fixpoint is_prefix (p l : bytes) : bool :=
  match p, l with [], _ => true | a :: p', b :: l' => (a =? b) && is_prefix p' l' | _ :: _, [] => false end.
Fixpoint strstr (str1 str2 : bytes) : bool := is_prefix str2 str1 || match str1 with [] => false | _ :: str1' => strstr str1' str2 end.
Definition COMPARE_STR (str1 str2 : bytes) (str2_len : nat) : bool := strstr str1 str2 && (length str1 =? str2_len)%nat.

(** The string that a field of [n] characters has after [kvs_str_copy]. *)
Definition kvs_str_copy l (n : nat) : bytes := take (n - 1) l.

Record kvs_store_t := mk_store { st_name : bytes; st_key : bytes; st_val : bytes }.
(** One of the two storages; a loop over [kvs_list_size] elements that meets the end of the list follows a null pointer. *)
Record keeper := mk_keeper { head : list kvs_store_t; kvs_list_size : nat }.
Definition empty_keeper : keeper := mk_keeper [] 0.

Definition is_entry (n k : bytes) (e : kvs_store_t) : bool := COMPARE_STR (st_name e) n (length n) && COMPARE_STR (st_key e) k (length k).

Fixpoint count_loop (n : bytes) (i : nat) (p : list kvs_store_t) : outcome nat :=
  match i, p with
  | O, _ => Returns O
  | S _, [] => Undefined
  | S i', e :: p' => c <-? count_loop n i' p' ;; Returns ((if COMPARE_STR (st_name e) n (length n) then 1 else 0) + c)%nat
  end.
Definition get_count (s : keeper) (n : bytes) : outcome nat := count_loop n (kvs_list_size s) (head s).

Fixpoint val_loop (n k : bytes) (i : nat) (p : list kvs_store_t) : outcome (option bytes) :=
  match i, p with
  | O, _ => Returns None
  | S _, [] => Undefined
  | S i', e :: p' => if is_entry n k e then Returns (Some (kvs_str_copy (st_val e) MAX_KVS_VAL_LENGTH)) else val_loop n k i' p'
  end.
Definition get_val (s : keeper) (n k : bytes) : outcome (option bytes) := val_loop n k (kvs_list_size s) (head s).

Definition get_keys_values (s : keeper) (n : bytes) : outcome (list (bytes * bytes)) :=
  count <-? count_loop n (kvs_list_size s) (head s) ;;
  Returns (take count ((fun e => (kvs_str_copy (st_key e) MAX_KVS_KEY_LENGTH, kvs_str_copy (st_val e) MAX_KVS_VAL_LENGTH)) <$>
    filter (fun e => COMPARE_STR (st_name e) n (length n) = true) (head s))).

Fixpoint remove_loop (n k : bytes) (i : nat) (p : list kvs_store_t) : outcome (option (list kvs_store_t)) :=
  match i, p with
  | O, _ => Returns None
  | S _, [] => Undefined
  | S i', e :: p' => if is_entry n k e then Returns (Some p') else r <-? remove_loop n k i' p' ;; Returns (cons e <$> r)
  end.
Definition remove_val (s : keeper) (n k : bytes) : outcome (keeper * Z) :=
  r <-? remove_loop n k (kvs_list_size s) (head s) ;;
  Returns match r with Some p => (mk_keeper p (kvs_list_size s - 1), 0) | None => (s, 1) end.

(** The list, and whether an element was added. *)
Fixpoint put_loop (n k v : bytes) (p : list kvs_store_t) : list kvs_store_t * bool :=
  let new := mk_store (kvs_str_copy n MAX_KVS_NAME_LENGTH) (kvs_str_copy k MAX_KVS_KEY_LENGTH) (kvs_str_copy v MAX_KVS_VAL_LENGTH) in
  match p with
  | [] => ([new], true)
  | e :: p' => if is_entry n k e then (new :: p', false) else let r := put_loop n k v p' in (e :: r.1, r.2)
  end.
Definition put_key (s : keeper) (n k v : bytes) : keeper :=
  let r := put_loop n k v (head s) in mk_keeper r.1 (kvs_list_size s + if r.2 then 1 else 0).

Fixpoint clear_loop (p : list kvs_store_t) (size : nat) : keeper :=
  match p with [] => mk_keeper [] size | _ :: p' => clear_loop p' (size - 1) end.
Definition kvs_keeper_clear (s : keeper) : keeper := clear_loop (head s) (kvs_list_size s).

Definition cut_head (s : keeper) : option (kvs_store_t * keeper) :=
  match head s with
  | [] => None
  | e :: p => Some (mk_store (kvs_str_copy (st_name e) MAX_KVS_NAME_LENGTH) (kvs_str_copy (st_key e) MAX_KVS_KEY_LENGTH)
                      (kvs_str_copy (st_val e) MAX_KVS_VAL_LENGTH), mk_keeper p (kvs_list_size s - 1))
  end.

(** * Values: [pmrt_kvs_put], [pmrt_kvs_get], [pmrt_finalize] *)

Definition KVS_NAME : bytes := [67; 67; 76; 95; 80; 79; 68; 95; 65; 68; 68; 82].
Definition ATL_MPI_ROOT_RANK_KEY : bytes := [82; 79; 79; 84; 95; 82; 65; 78; 75].
Definition max_keylen : nat := MAX_KVS_KEY_LENGTH.
Definition max_vallen : nat := MAX_KVS_VAL_LENGTH.

(** [%d] of an [int] *)
Definition print_int (z : Z) : bytes := if z <? 0 then 45 :: to_string (Z.to_nat (- z)) else to_string (Z.to_nat z).
(** [snprintf(dst, n, ...)] of a string: at most [n - 1] characters of it. *)
Definition snprintf (n : nat) l : bytes := take (n - 1) l.
Definition key_storage (kvs_key : bytes) (proc_idx : Z) : bytes := snprintf (max_keylen - 1) (kvs_key ++ [45] ++ print_int proc_idx).

Definition result_kvs_name (kvs_name : bytes) (local_id : nat) : bytes := kvs_name ++ to_string local_id.

Definition pmrt_kvs_put (e : env) (s : keeper) (local_id : nat) (kvs_key : bytes) (proc_idx : Z) (kvs_val : bytes) : outcome (keeper * bytes) :=
  if (max_vallen <? length kvs_val)%nat then Throws else
  val_storage <-? of_option (encode kvs_val max_vallen) ;;
  let n := result_kvs_name KVS_NAME local_id in
  let s := put_key s n (key_storage kvs_key proc_idx) val_storage in
  buf <-? kvs_set_value e n (key_storage kvs_key proc_idx) val_storage ;;
  Returns (s, buf).

(** The request of [pmrt_kvs_get]; [None] for the key that is not in the store. *)
Definition pmrt_kvs_get_request (e : env) (local_id : nat) (kvs_key : bytes) (proc_idx : Z) : outcome bytes :=
  kvs_get_value_by_name_key e (result_kvs_name KVS_NAME local_id) (key_storage kvs_key proc_idx).

(** [kvs_get_value]: the answers to the requests and the time after each; [None] when the next answer is waited for. *)
Fixpoint kvs_get_value (kvs_get_timeout : Z) (value : bytes) (answers : list (list reply * Z)) : outcome (option bytes) :=
  match answers with
  | [] => Returns None
  | (answer, kvs_get_time) :: answers' =>
    value <-? read_value value answer ;;
    if (length value =? 0)%nat && (kvs_get_time <? kvs_get_timeout) then kvs_get_value kvs_get_timeout value answers'
    else if kvs_get_timeout <=? kvs_get_time then Throws else Returns (Some value)
  end.

Definition pmrt_kvs_get (root_rank : nat) (kvs_get_timeout : Z) (kvs_key : bytes) (kvs_val_len : nat) (answers : list (list reply * Z)) :
  outcome (option bytes) :=
  if decide (kvs_key = ATL_MPI_ROOT_RANK_KEY) then Returns (Some (pad (kvs_val_len - 1) (take (kvs_val_len - 1) (to_string root_rank))))
  else if (max_vallen <? kvs_val_len)%nat then Throws
  else
    r <-? kvs_get_value kvs_get_timeout [] answers ;;
    match r with
    | None => Returns None
    | Some val_storage_str => s <-? c_str (val_storage_str ++ [0]) ;; v <-? of_option (decode s kvs_val_len) ;; Returns (Some v)
    end.

(** The requests of [pmrt_finalize], unless [CCL_PMI_FORCE_FINALIZE] is set. *)
Fixpoint finalize_loop (e : env) (fuel : nat) (s : keeper) : outcome (keeper * list bytes) :=
  match fuel with
  | O => Returns (s, [])
  | S fuel' =>
    match cut_head s with
    | None => Returns (s, [])
    | Some (c, s) => buf <-? kvs_remove_name_key e (st_name c) (st_key c) ;; r <-? finalize_loop e fuel' s ;; Returns (r.1, buf :: r.2)
    end
  end.
Definition pmrt_finalize (e : env) (force_finalize : bool) (s : keeper) : outcome (keeper * list bytes) :=
  if force_finalize then Returns (s, []) else finalize_loop e (S (length (head s))) s.

(** * Barriers and registration *)

Definition KVS_BARRIER : bytes := [67; 67; 76; 95; 66; 65; 82; 82; 73; 69; 82].
Definition KVS_BARRIER_FULL : bytes := KVS_BARRIER ++ [95; 70; 85; 76; 76].
Definition INTERNAL_REGISTRATION : bytes := [73; 78; 84; 69; 82; 78; 65; 76; 95; 82; 69; 71; 73; 83; 84; 82; 65; 84; 73; 79; 78].

Definition pmrt_barrier (e : env) (local_id : nat) : outcome bytes :=
  let n := result_kvs_name KVS_BARRIER local_id in kvs_barrier e n n [].
Definition pmrt_barrier_full (e : env) (local_id : nat) : outcome bytes :=
  let n := result_kvs_name KVS_BARRIER_FULL local_id in kvs_barrier e n n [].
Definition barrier_full_reg (e : env) (local_id comm_size n_ranks : nat) : outcome (list bytes) :=
  let n := result_kvs_name KVS_BARRIER_FULL local_id in
  b1 <-? kvs_barrier_register e n n (join_underscore [to_string comm_size; to_string n_ranks]) ;;
  b2 <-? pmrt_barrier_full e local_id ;; Returns [b1; b2].
Definition barrier_reg (e : env) (local_id proc_count : nat) : outcome (list bytes) :=
  let n := result_kvs_name KVS_BARRIER local_id in
  b1 <-? kvs_barrier_register e n n (to_string proc_count) ;; b2 <-? pmrt_barrier_full e local_id ;; Returns [b1; b2].

(** What a process tells about itself. *)
Record registrant := mk_registrant { rank_count_of : nat; rank0 : nat; pid : nat; hostname : bytes; tid : nat }.
Definition proc_string (r : registrant) : bytes := to_string (pid r) ++ [45] ++ hostname r.
Definition registration_text (r : registrant) : bytes :=
  snprintf max_vallen (join_underscore [to_string (rank_count_of r); to_string (rank0 r); proc_string r; to_string (tid r)]).
Definition registration_requests (e : env) (local_id comm_size : nat) (r : registrant) : outcome (list bytes) :=
  let n := result_kvs_name INTERNAL_REGISTRATION local_id in
  b1 <-? kvs_set_size e n n (to_string comm_size) ;;
  b2 <-? kvs_register e n n (pad max_vallen (registration_text r)) ;; Returns [b1; b2].

(** [std::stoi] *)
Definition stoi l : outcome Z :=
  let l := skip_space l in
  let '(sign, l) := match l with c :: l' => if c =? 45 then (-1, l') else if c =? 43 then (1, l') else (1, l) | [] => (1, l) end in
  match l with
  | c :: _ => let v := sign * digits 0 l in if is_digit c && (- 2 ^ 31 <=? v) && (v <? 2 ^ 31) then Returns v else Throws
  | [] => Throws
  end.

Record registered := mk_registered { proc_count : Z; rank : Z; proc_rank_count : Z; threads_count : Z; thread_num : Z }.
Definition split_underscore l : outcome (bytes * bytes) := of_option (strstr_underscore l).
(** [registration] after the answer. *)
Definition registration_read (answer : bytes) : outcome registered :=
  s <-? c_str (answer ++ [0]) ;;
  a <-? split_underscore s ;; b <-? split_underscore a.2 ;; c <-? split_underscore b.2 ;; d <-? split_underscore c.2 ;;
  x1 <-? stoi a.1 ;; x2 <-? stoi b.1 ;; x3 <-? stoi c.1 ;; x4 <-? stoi d.1 ;; x5 <-? stoi d.2 ;;
  Returns (mk_registered x1 x2 x3 x4 x5).

(** * Numbers as strings *)

Lemma dec_loop_spec (fuel n : nat) (acc : bytes) : (n < fuel)%nat ->
  exists ds, dec_loop fuel n acc = ds ++ acc /\ ds <> [] /\ Forall (fun c => is_digit c = true) ds /\
    (forall a l, digits a (ds ++ l) = digits (a * 10 ^ Z.of_nat (length ds) + Z.of_nat n) l) /\
    (forall k, (1 <= k)%nat -> Z.of_nat n < 10 ^ Z.of_nat k -> (length ds <= k)%nat).
Proof.
  revert n acc. induction fuel as [|fuel IH]; intros n acc Hn; [lia |]. cbn [dec_loop].
  assert (n mod 10 < 10)%nat as Hm by (apply Nat.mod_upper_bound; lia). pose proof (Nat.div_mod n 10 ltac:(lia)) as Hdm.
  set (d := 48 + Z.of_nat (n mod 10)). assert (is_digit d = true) as Hd by (unfold is_digit, d; lia).
  destruct (Nat.eqb_spec (n / 10) 0) as [H0 | H0].
  - exists [d]. split_and!; [done | done | repeat constructor; done | | intros; cbn; lia].
    intros a l. cbn -[is_digit]. rewrite Hd. f_equal. unfold d. lia.
  - destruct (IH (n / 10)%nat (d :: acc)) as (ds & E & E1 & E2 & E3 & E4); [lia |]. exists (ds ++ [d]). split_and!.
    + rewrite E, <- app_assoc. done.
    + intros [? _]%app_eq_nil. done.
    + apply Forall_app. repeat constructor; done.
    + intros a l. rewrite <- app_assoc, E3. cbn [app digits]. rewrite Hd. f_equal. rewrite length_app, Nat2Z.inj_add, Z.pow_add_r by lia.
      change (10 ^ Z.of_nat (length [d])) with 10. unfold d. set (y := 10 ^ _). lia.
    + intros k Hk Hlt. rewrite length_app. cbn. destruct (decide (k = 1)%nat) as [-> | Hne]; [cbn in Hlt; lia |].
      assert (length ds <= k - 1)%nat; [| lia]. apply E4; [lia |]. replace (Z.of_nat k) with (Z.of_nat (k - 1) + 1) in Hlt by lia.
      rewrite Z.pow_add_r in Hlt by lia. lia.
Qed.

Lemma to_string_spec (n : nat) : to_string n <> [] /\ Forall (fun c => is_digit c = true) (to_string n) /\ digits 0 (to_string n) = Z.of_nat n /\
  (forall k, (1 <= k)%nat -> Z.of_nat n < 10 ^ Z.of_nat k -> (length (to_string n) <= k)%nat).
Proof.
  unfold to_string. destruct (dec_loop_spec (S n) n []) as (ds & -> & E1 & E2 & E3 & E4); [lia |]. rewrite app_nil_r. split_and!; try done.
  specialize (E3 0 []). rewrite app_nil_r in E3. rewrite E3. cbn. lia.
Qed.

Lemma digit_char (c : Z) : is_digit c = true -> c <> 0 /\ c <> underscore /\ is_space c = false /\ c <> 45 /\ c <> 43.
Proof. unfold is_digit, is_space, underscore. rewrite !andb_true_iff. intros. split_and!; lia. Qed.

Lemma chars_to_string (n : nat) : chars (to_string n).
Proof. destruct (to_string_spec n) as (_ & H & _). eapply Forall_impl; [exact H |]. intros c Hc. apply digit_char. done. Qed.

Lemma no_underscore_to_string (n : nat) : underscore ∉ to_string n.
Proof. destruct (to_string_spec n) as (_ & H & _). intros Hin. rewrite Forall_forall in H. apply H, digit_char in Hin. intuition. Qed.

Lemma stoi_to_string (n : nat) : Z.of_nat n < 2 ^ 31 -> stoi (to_string n) = Returns (Z.of_nat n).
Proof.
  intros Hn. destruct (to_string_spec n) as (H1 & H2 & H3 & _). destruct (to_string n) as [|c l]; [done |].
  apply Forall_cons in H2 as [Hc _]. pose proof (digit_char c Hc) as (_ & _ & Hs & H45 & H43).
  unfold stoi. cbn [skip_space]. rewrite Hs. rewrite (proj2 (Z.eqb_neq c 45)), (proj2 (Z.eqb_neq c 43)) by done.
  rewrite Hc, H3, Z.mul_1_l. rewrite (proj2 (Z.leb_le _ _)), (proj2 (Z.ltb_lt _ _)) by lia. done.
Qed.

Lemma strtol_to_string (n : nat) : Z.of_nat n < 2 ^ 63 -> safe_strtol (to_string n) = Returns (Z.of_nat n).
Proof.
  intros Hn. destruct (to_string_spec n) as (H1 & H2 & H3 & _). destruct (to_string n) as [|c l]; [done |].
  apply Forall_cons in H2 as [Hc _]. pose proof (digit_char c Hc) as (_ & _ & Hs & H45 & H43).
  unfold safe_strtol. cbn [skip_space]. rewrite Hs. rewrite (proj2 (Z.eqb_neq c 45)), (proj2 (Z.eqb_neq c 43)) by done. cbn zeta.
  rewrite H3, (proj2 (Z.ltb_ge _ _)), (proj2 (Z.leb_gt _ _)), wrap_small by lia. done.
Qed.

Lemma split_first l r : underscore ∉ l -> strstr_underscore (l ++ underscore :: r) = Some (l, r).
Proof.
  induction l as [|c l IH]; intros Hl; cbn -[underscore].
  - rewrite Z.eqb_refl. done.
  - apply not_elem_of_cons in Hl as [Hc Hl]. rewrite (proj2 (Z.eqb_neq _ _)), IH by congruence. done.
Qed.

(** * The keeper is a map *)

Lemma is_prefix_spec (p l : bytes) : is_prefix p l = true -> exists r, l = p ++ r.
Proof.
  revert l. induction p as [|a p IH]; intros l H; [exists l; done |]. destruct l as [|b l]; [done |]. cbn in H.
  apply andb_true_iff in H as [->%Z.eqb_eq H]. destruct (IH l H) as [r ->]. exists r. done.
Qed.

Lemma is_prefix_refl (p : bytes) : is_prefix p p = true.
Proof. induction p as [|a p IH]; [done |]. cbn. rewrite Z.eqb_refl, IH. done. Qed.

(** The comparison by [strstr] and lengths is equality. *)
Lemma COMPARE_STR_spec (s1 s2 : bytes) : COMPARE_STR s1 s2 (length s2) = bool_decide (s1 = s2).
Proof.
  unfold COMPARE_STR. destruct (decide (s1 = s2)) as [-> | Hne].
  - rewrite bool_decide_true, Nat.eqb_refl, andb_true_r by done. destruct s2; cbn; [done |]. rewrite Z.eqb_refl, is_prefix_refl. done.
  - rewrite bool_decide_false by done. apply not_true_iff_false. rewrite andb_true_iff, Nat.eqb_eq. intros [H Hl].
    assert (forall s1, strstr s1 s2 = true -> exists a b, s1 = a ++ s2 ++ b) as Hsub.
    { clear. induction s1 as [|c s1 IH]; cbn -[is_prefix]; intros H.
      - rewrite orb_false_r in H. apply is_prefix_spec in H as [r H]. exists [], r. done.
      - apply orb_true_iff in H as [H | H]; [apply is_prefix_spec in H as [r H]; exists [], r; done |].
        destruct (IH H) as (a & b & ->). exists (c :: a), b. done. }
    destruct (Hsub s1 H) as (a & b & ->). rewrite !length_app in Hl. destruct a, b; cbn in Hl; try lia. rewrite app_nil_r in Hne. done.
Qed.

Lemma is_entry_spec n k e : is_entry n k e = bool_decide ((st_name e, st_key e) = (n, k)).
Proof.
  unfold is_entry. rewrite !COMPARE_STR_spec. destruct (decide (st_name e = n)), (decide (st_key e = k));
    repeat first [rewrite bool_decide_true by congruence | rewrite bool_decide_false by congruence]; done.
Qed.

Definition entry_key (e : kvs_store_t) : bytes * bytes := (st_name e, st_key e).
Definition entry (e : kvs_store_t) : (bytes * bytes) * bytes := (entry_key e, st_val e).
Definition entry_fits (e : kvs_store_t) : Prop := fits (st_name e) /\ fits (st_key e) /\ fits (st_val e).
Definition as_map (p : list kvs_store_t) : gmap (bytes * bytes) bytes := list_to_map (entry <$> p).
Definition list_ok (p : list kvs_store_t) : Prop := NoDup (entry_key <$> p) /\ Forall entry_fits p.
(** A storage that stands for a map. *)
Definition keeps (s : keeper) (m : gmap (bytes * bytes) bytes) : Prop := kvs_list_size s = length (head s) /\ list_ok (head s) /\ m = as_map (head s).

Lemma copy_fits l (n : nat) : fits l -> n = 130%nat -> kvs_str_copy l n = l.
Proof. intros [_ H] ->. apply take_ge. lia. Qed.

Lemma copy_entry e : entry_fits e ->
  mk_store (kvs_str_copy (st_name e) MAX_KVS_NAME_LENGTH) (kvs_str_copy (st_key e) MAX_KVS_KEY_LENGTH) (kvs_str_copy (st_val e) MAX_KVS_VAL_LENGTH) = e.
Proof. intros (H1 & H2 & H3). rewrite !copy_fits by done. destruct e; done. Qed.

Lemma as_map_cons e p : as_map (e :: p) = <[entry_key e := st_val e]> (as_map p).
Proof. done. Qed.
Lemma as_map_none p nk : nk ∉ (entry_key <$> p) -> as_map p !! nk = None.
Proof. intros H. apply not_elem_of_list_to_map_1. rewrite <- list_fmap_compose. exact H. Qed.

Lemma list_ok_cons e p : list_ok (e :: p) <-> entry_key e ∉ (entry_key <$> p) /\ entry_fits e /\ list_ok p.
Proof. unfold list_ok. rewrite fmap_cons, NoDup_cons, Forall_cons. tauto. Qed.

(** The cases of a loop: the entry it looks for, or another one. *)
Ltac entry_cases e n k :=
  rewrite is_entry_spec; destruct (decide ((st_name e, st_key e) = (n, k))) as [Heq | Hne];
  [rewrite bool_decide_true by done; change (entry_key e = (n, k)) in Heq | rewrite bool_decide_false by done; change (entry_key e <> (n, k)) in Hne].

Lemma put_loop_spec n k v p : list_ok p -> fits n -> fits k -> fits v ->
  let r := put_loop n k v p in list_ok r.1 /\ as_map r.1 = <[(n, k) := v]> (as_map p) /\
  length r.1 = (length p + if r.2 then 1 else 0)%nat /\ (forall nk, nk ∈ (entry_key <$> r.1) <-> nk = (n, k) \/ nk ∈ (entry_key <$> p)).
Proof.
  intros Hp Hn Hk Hv. assert (mk_store (kvs_str_copy n MAX_KVS_NAME_LENGTH) (kvs_str_copy k MAX_KVS_KEY_LENGTH) (kvs_str_copy v MAX_KVS_VAL_LENGTH)
    = mk_store n k v) as Hnew by (apply (copy_entry (mk_store n k v)); done).
  induction p as [|e p IH]; cbn [put_loop]; rewrite Hnew.
  { cbn. split_and!; [apply list_ok_cons; split_and!; [apply not_elem_of_nil | done | done] | done | done | set_solver]. }
  apply list_ok_cons in Hp as (He & Hf & Hp). entry_cases e n k; cbn [fst snd].
  - rewrite Heq in He. split_and!; [apply list_ok_cons; split_and!; done | | cbn; lia | intros nk; rewrite !fmap_cons, !elem_of_cons, Heq; tauto].
    rewrite !as_map_cons, Heq, insert_insert_eq. done.
  - destruct (IH Hp) as (I1 & I2 & I3 & I4). split_and!.
    + apply list_ok_cons. split_and!; [| done | done]. rewrite I4. intuition.
    + rewrite !as_map_cons, I2. apply insert_insert_ne. done.
    + cbn. rewrite I3. lia.
    + intros nk. rewrite fmap_cons, !elem_of_cons, I4, fmap_cons, elem_of_cons. tauto.
Qed.

Lemma val_loop_spec n k p : list_ok p -> val_loop n k (length p) p = Returns (as_map p !! (n, k)).
Proof.
  induction p as [|e p IH]; intros Hp; [done |]. apply list_ok_cons in Hp as (He & Hf & Hp). cbn [val_loop length]. rewrite as_map_cons. entry_cases e n k.
  - rewrite Heq, lookup_insert_eq, copy_fits by (first [apply Hf | done]). done.
  - rewrite lookup_insert_ne by done. apply IH. done.
Qed.

Lemma remove_loop_spec n k p : list_ok p ->
  exists r, remove_loop n k (length p) p = Returns r /\
  match r with
  | Some p' => list_ok p' /\ length p = S (length p') /\ as_map p' = delete (n, k) (as_map p) /\ is_Some (as_map p !! (n, k)) /\
      (forall nk, nk ∈ (entry_key <$> p') -> nk ∈ (entry_key <$> p))
  | None => as_map p !! (n, k) = None
  end.
Proof.
  induction p as [|e p IH]; intros Hp; [exists None; done |]. apply list_ok_cons in Hp as (He & Hf & Hp). cbn [remove_loop length]. rewrite as_map_cons. entry_cases e n k.
  - exists (Some p). split; [done |]. rewrite Heq in *. split_and!; [done | done | | rewrite lookup_insert_eq; eauto | set_solver].
    rewrite delete_insert_id; [done | apply as_map_none; done].
  - destruct (IH Hp) as (r & -> & Hr). exists (cons e <$> r). split; [done |]. destruct r as [p'|]; cbn.
    + destruct Hr as (R1 & R2 & R3 & R4 & R5). split_and!.
      * apply list_ok_cons. split_and!; [| done | done]. intros Hin. apply He, R5, Hin.
      * lia.
      * change (as_map (e :: p') = delete (n, k) (<[entry_key e := st_val e]> (as_map p))). rewrite as_map_cons, R3, delete_insert_ne by done. done.
      * rewrite lookup_insert_ne by done. done.
      * set_solver.
    + rewrite lookup_insert_ne by done. done.
Qed.

Lemma count_loop_spec n p : list_ok p -> count_loop n (length p) p = Returns (size (filter (fun x => x.1.1 = n) (as_map p))).
Proof.
  induction p as [|e p IH]; intros Hp; [done |]. apply list_ok_cons in Hp as (He & Hf & Hp). cbn [count_loop length].
  rewrite (IH Hp), as_map_cons, COMPARE_STR_spec. cbn [outcome_bind]. f_equal. destruct (decide (st_name e = n)) as [Heq | Hne].
  - rewrite bool_decide_true, map_filter_insert_True, map_size_insert_None; [done | | done | done].
    apply map_lookup_filter_None. left. apply as_map_none. done.
  - rewrite bool_decide_false, map_filter_insert_False, delete_id; [done | apply as_map_none; done | done | done].
Qed.

(** C38: [kvs_keeper.cpp], whose strings are compared by [strstr] and length and whose loops count elements of a linked list, implements a map from
    a name and a key to a value: [put_key] inserts, [get_val] looks up, [remove_val] deletes and tells whether there was something, [get_count] counts
    the keys of a name, [cut_head] takes an element out and [kvs_keeper_clear] all; no loop runs past the end of the list. *)
Theorem keeper_is_map s m n k v : keeps s m -> fits n -> fits k -> fits v ->
  keeps (put_key s n k v) (<[(n, k) := v]> m) /\
  get_val s n k = Returns (m !! (n, k)) /\
  (exists s', remove_val s n k = Returns (s', if m !! (n, k) then 0 else 1) /\ keeps s' (delete (n, k) m)) /\
  get_count s n = Returns (size (filter (fun x => x.1.1 = n) m)) /\
  match cut_head s with
  | None => m = ∅
  | Some (e, s') => m !! (st_name e, st_key e) = Some (st_val e) /\ keeps s' (delete (st_name e, st_key e) m)
  end /\
  keeps (kvs_keeper_clear s) ∅.
Proof.
  intros (Hs & Hp & ->) Hn Hk Hv. destruct s as [p i]. cbn in Hs, Hp. subst i. cbn [head]. split_and!.
  - destruct (put_loop_spec n k v p) as (H1 & H2 & H3 & _); [done .. |]. split_and!; cbn; [lia | exact H1 | symmetry; exact H2].
  - apply val_loop_spec. done.
  - unfold remove_val. cbn [head kvs_list_size]. destruct (remove_loop_spec n k p Hp) as (r & -> & Hr). cbn. destruct r as [p'|].
    + destruct Hr as (R1 & R2 & R3 & [x Hx] & _). rewrite Hx. eexists. split; [done |]. split_and!; cbn; [lia | exact R1 | symmetry; exact R3].
    + rewrite Hr. eexists. split; [done |]. rewrite delete_id by done. done.
  - apply count_loop_spec. done.
  - destruct p as [|e p]; cbn [cut_head head]; [done |]. apply list_ok_cons in Hp as (He & Hf & Hp). rewrite copy_entry by done. rewrite as_map_cons.
    change (st_name e, st_key e) with (entry_key e). rewrite lookup_insert_eq, delete_insert_id by (apply as_map_none; done).
    split; [done |]. split_and!; cbn; [lia | exact Hp | done].
  - unfold kvs_keeper_clear. cbn [head kvs_list_size]. clear. induction p as [|e p IH]; cbn [clear_loop length].
    + split_and!; [done | split; constructor | done].
    + rewrite Nat.sub_succ, Nat.sub_0_r. exact IH.
Qed.

Lemma keeper_is_map_witness : keeps (put_key empty_keeper [65] [66] [67]) {[([65], [66]) := [67]]}.
Proof.
  assert (keeps empty_keeper ∅) as H0 by (split_and!; [done | split; constructor | done]).
  assert (forall c, c <> 0 -> fits [c]) as Hf by (intros c Hc; split; [repeat constructor; done | cbn; lia]).
  exact (proj1 (keeper_is_map empty_keeper ∅ [65] [66] [67] H0 (Hf 65 ltac:(lia)) (Hf 66 ltac:(lia)) (Hf 67 ltac:(lia)))).
Defined.

(** * Values *)

Lemma fits_name (kn : bytes) (id : nat) : chars kn -> (length kn < 110)%nat -> Z.of_nat id < 10 ^ 20 -> fits (result_kvs_name kn id) .
Proof.
  intros Hc Hl Hid. split; [apply Forall_app; split; [done | apply chars_to_string] |].
  destruct (to_string_spec id) as (_ & _ & _ & H). specialize (H 20%nat). unfold result_kvs_name. rewrite length_app. lia.
Qed.

Lemma chars_KVS_NAME : chars KVS_NAME.
Proof. repeat constructor; discriminate. Qed.

Lemma chars_print_int z : chars (print_int z).
Proof. unfold print_int. destruct (z <? 0); [constructor; [discriminate |] |]; apply chars_to_string. Qed.

Lemma fits_key kvs_key idx : chars kvs_key -> fits (key_storage kvs_key idx) /\ key_storage kvs_key idx <> [].
Proof.
  intros Hc. split; [split |].
  - apply Forall_take. rewrite !Forall_app. split_and!; [done | repeat constructor; discriminate | apply chars_print_int].
  - unfold key_storage, snprintf. rewrite length_take. unfold max_keylen, MAX_KVS_KEY_LENGTH. lia.
  - unfold key_storage, snprintf, max_keylen, MAX_KVS_KEY_LENGTH. destruct kvs_key; cbn; discriminate.
Qed.

Lemma name_not_nil kn id : result_kvs_name kn id <> [].
Proof. intros [_ H]%app_eq_nil. apply (to_string_spec id). done. Qed.

Lemma write_request_frame e m n k v : can_use_internal_kvs e = true -> fits n -> fits k -> fits v -> n <> [] -> (k = [] -> v = []) ->
  write_request e m n k v = Returns (frame m n k v).
Proof.
  intros He [_ Hn] [_ Hk] [_ Hv] Hne Hkv. unfold write_request. rewrite He, put_frame; try done;
    unfold MAX_KVS_NAME_LENGTH, MAX_KVS_KEY_LENGTH, MAX_KVS_VAL_LENGTH; lia.
Qed.

(** What a put that succeeds writes. *)
Lemma pmrt_kvs_put_spec e s id kvs_key idx v : can_use_internal_kvs e = true -> chars kvs_key -> Z.of_nat id < 10 ^ 20 -> Forall byte v ->
  (2 * length v + 1 <= 130)%nat ->
  exists val, encode v max_vallen = Some val /\ fits val /\
    pmrt_kvs_put e s id kvs_key idx v =
    Returns (put_key s (result_kvs_name KVS_NAME id) (key_storage kvs_key idx) val, put_val_buf (result_kvs_name KVS_NAME id) (key_storage kvs_key idx) val).
Proof.
  intros He Hc Hid Hv Hlen. destruct (encode_spec v max_vallen) as (val & E & Hval & Hl & _); [done | unfold max_vallen, MAX_KVS_VAL_LENGTH; lia |].
  assert (fits val) as Hf by (split; [done | lia]). destruct (fits_key kvs_key idx Hc) as [Hk Hk0].
  pose proof (fits_name KVS_NAME id chars_KVS_NAME ltac:(cbn; lia) Hid) as Hn.
  exists val. split; [done |]. split; [done |]. unfold pmrt_kvs_put. rewrite (proj2 (Nat.ltb_ge _ _)) by (unfold max_vallen, MAX_KVS_VAL_LENGTH; lia).
  rewrite E. cbn [of_option outcome_bind]. unfold kvs_set_value. rewrite write_request_frame; [done | done .. | apply name_not_nil | done].
Qed.

(** C36: [pmrt_kvs_put] and [pmrt_kvs_get] through the server: the bytes that one process puts (up to 64 of them, whatever they are) are what any
    process gets with the same key and index, after any number of other requests of any clients that do not change that key, and if the answer comes
    in time. *)
Theorem pmrt_put_get e ws s h s' A B id kvs_key idx v st st' buf t timeout root len : pmrt_kvs_put e st id kvs_key idx v = Returns (st', buf) ->
  can_use_internal_kvs e = true -> chars kvs_key -> kvs_key <> ATL_MPI_ROOT_RANK_KEY -> Z.of_nat id < 10 ^ 20 -> Forall byte v ->
  (length v <= len <= 130)%nat -> serves ws s h s' ->
  (exists h1 out h2, h = h1 ++ (Request A buf, out) :: h2 /\
     forall ev out', (ev, out') ∈ h2 -> writes (result_kvs_name KVS_NAME id) (key_storage kvs_key idx) ev = None) -> t < timeout ->
  exists get_buf s'' out, pmrt_kvs_get_request e id kvs_key idx = Returns get_buf /\
    make_client_request ws s' B get_buf = Returns (s'', out) /\ pmrt_kvs_get root timeout kvs_key len [(out.*2, t)] = Returns (Some v).
Proof.
  intros Hput He Hc Hroot Hid Hv Hlen Hs (h1 & out & h2 & -> & Hother) Ht.
  assert (2 * length v + 1 <= 130)%nat as Hsmall.
  { unfold pmrt_kvs_put in Hput. destruct (max_vallen <? length v)%nat; [discriminate |]. apply bind_returns in Hput as (x & Hx & _). unfold encode in Hx.
    destruct (Nat.ltb_spec max_vallen (length v * 2 + 1)); [discriminate | unfold max_vallen, MAX_KVS_VAL_LENGTH in *; lia]. }
  destruct (pmrt_kvs_put_spec e st id kvs_key idx v) as (val & Eval & Hval & Eput); [done .. |]. rewrite Eput in Hput. injection Hput as <- <-.
  destruct (fits_key kvs_key idx Hc) as [Hk Hk0]. pose proof (fits_name KVS_NAME id chars_KVS_NAME ltac:(cbn; lia) Hid) as Hn.
  set (n := result_kvs_name KVS_NAME id) in *. set (k := key_storage kvs_key idx) in *.
  assert (value_of s' n k = Some val) as Hvalue by (eapply value_after; [done | apply writes_put_val_buf; done | done]).
  destruct (get_val_request ws s' B n k) as (s'' & Hget & _); [done | done | rewrite Hvalue; intros ? [= <-]; destruct Hval; unfold MAX_KVS_VAL_LENGTH; lia |].
  rewrite Hvalue in Hget. exists (get_val_buf n k), s'', [(B, r_size 1); (B, r_val (pad MAX_KVS_VAL_LENGTH val))]. split_and!; [| done |].
  - unfold pmrt_kvs_get_request, kvs_get_value_by_name_key. fold n k. rewrite write_request_frame; [done .. | apply fits_nil | apply name_not_nil | done].
  - unfold pmrt_kvs_get. rewrite decide_False by done. rewrite (proj2 (Nat.ltb_ge _ _)) by (unfold max_vallen, MAX_KVS_VAL_LENGTH; lia).
    cbn [kvs_get_value fmap list_fmap snd read_value Z.eqb outcome_bind].
    assert (length (pad MAX_KVS_VAL_LENGTH val) = 130)%nat as -> by (apply length_pad; destruct Hval; unfold MAX_KVS_VAL_LENGTH; lia).
    cbn [Nat.eqb andb]. rewrite (proj2 (Z.leb_gt _ _)) by done. cbn [outcome_bind].
    replace (pad MAX_KVS_VAL_LENGTH val ++ [0]) with (pad 131 val).
    2: { destruct Hval as [_ Hl]. unfold pad. rewrite <- app_assoc. f_equal. replace (131 - length val)%nat with (MAX_KVS_VAL_LENGTH - length val + 1)%nat
           by (unfold MAX_KVS_VAL_LENGTH; lia). rewrite replicate_add. done. }
    rewrite c_str_pad by (destruct Hval; first [done | lia]). cbn [outcome_bind]. erewrite decode_encode; [done | done | done | lia].
Qed.

Definition demo_env : env := mk_env mpi ccl_atl_ofi hydra.

Lemma pmrt_put_get_witness : exists s' get_buf s'' out buf st, pmrt_kvs_put demo_env empty_keeper 0 [65] 3 [0; 255; 16] = Returns (st, buf) /\
  serves None (demo_server false (request new_server)) [(Request 5 buf, [])] s' /\
  make_client_request None s' 6 get_buf = Returns (s'', out) /\ pmrt_kvs_get 0 60 [65] 3 [(out.*2, 1)] = Returns (Some [0; 255; 16]).
Proof.
  destruct (pmrt_kvs_put demo_env empty_keeper 0 [65] 3 [0; 255; 16]) as [[st buf] | |] eqn:E; [| vm_compute in E; discriminate ..].
  destruct (serve None (demo_server false (request new_server)) (Request 5 buf)) as [[s' o] | |] eqn:E';
    [| vm_compute in E; injection E as <- <-; vm_compute in E'; discriminate ..].
  assert (o = []) as -> by (vm_compute in E; injection E as <- <-; vm_compute in E'; congruence).
  assert (serves None (demo_server false (request new_server)) [(Request 5 buf, [])] s') as Hs.
  { apply (serves_snoc None _ [] (demo_server false (request new_server))); [constructor | split; [lia | left] | exact E']. }
  destruct (pmrt_put_get demo_env None (demo_server false (request new_server)) [(Request 5 buf, [])] s' 5 6 0 [65] 3 [0; 255; 16]
    empty_keeper st buf 1 60 0 3) as (get_buf & s'' & out & _ & H1 & H2).
  - exact E.
  - reflexivity.
  - repeat constructor. discriminate.
  - discriminate.
  - lia.
  - repeat (apply Forall_cons; split; [unfold byte; lia |]). constructor.
  - cbn. lia.
  - exact Hs.
  - exists [], [], []. split; [reflexivity |]. intros ? ? Hin. inversion Hin.
  - lia.
  - exists s', get_buf, s'', out, buf, st. split; [reflexivity |]. split; [exact Hs |]. split; [exact H1 | exact H2].
Defined.

Lemma finalize_loop_spec e p fuel i : can_use_internal_kvs e = true -> list_ok p -> Forall (fun x => st_name x <> []) p -> (length p < fuel)%nat -> i = length p ->
  finalize_loop e fuel (mk_keeper p i) = Returns (empty_keeper, (fun x => frame AM_REMOVE (st_name x) (st_key x) []) <$> p).
Proof.
  intros He. revert fuel i. induction p as [|x p IH]; intros fuel i Hp Hne Hf ->; (destruct fuel as [|fuel]; [cbn in Hf; lia |]); [done |].
  apply list_ok_cons in Hp as (Hx & Hfit & Hp). apply Forall_cons in Hne as [Hx0 Hne]. cbn [finalize_loop cut_head head kvs_list_size].
  rewrite copy_entry by done. unfold kvs_remove_name_key. destruct Hfit as (F1 & F2 & F3).
  rewrite write_request_frame; [| done .. | apply fits_nil | done | done]. cbn [outcome_bind]. rewrite IH; [done | done | done | cbn in Hf; lia | cbn; lia].
Qed.

Lemma writes_remove c n k n' k' : fits n' -> fits k' ->
  writes n k (Request c (frame AM_REMOVE n' k' [])) = if decide ((n', k') = (n, k)) then Some None else None.
Proof.
  intros Hn Hk. cbn [writes]. destruct (decoded_frame AM_REMOVE n' k' []) as (E & E1 & E2 & _); [unfold byte, AM_REMOVE; lia | done | done | apply fits_nil |].
  cbn zeta. rewrite E1, E2, E. destruct (decide ((n', k') = (n, k))) as [[= -> ->] | Hne]; [rewrite !bool_decide_true by done; done |].
  destruct (decide (n' = n)), (decide (k' = k)); subst; try done;
    repeat first [rewrite bool_decide_true by congruence | rewrite bool_decide_false by congruence]; done.
Qed.

(** Serving the removals of some entries removes these. *)
Lemma serve_removals ws s h s' c p : serves ws s h s' -> Forall entry_fits p ->
  h.*1 = Request c <$> ((fun x => frame AM_REMOVE (st_name x) (st_key x) []) <$> p) ->
  forall n k, value_of s' n k = if decide ((n, k) ∈ (entry_key <$> p)) then None else value_of s n k.
Proof.
  intros Hs. revert p. induction Hs as [|h s1 ev s2 out Hs IH Hp Hserve]; intros p Hf Hh n k.
  { destruct p; [| discriminate]. rewrite decide_False by apply not_elem_of_nil. done. }
  rewrite fmap_app in Hh. destruct p as [|x p _] using rev_ind; [destruct (h.*1); discriminate |].
  rewrite !fmap_app in Hh. apply app_inj_tail in Hh as [Hh Hev]. apply Forall_app in Hf as [Hf Hx]. rewrite Forall_singleton in Hx. destruct Hx as (F1 & F2 & _).
  rewrite (serve_value _ _ _ _ _ n k Hserve). change (ev = Request c (frame AM_REMOVE (st_name x) (st_key x) [])) in Hev.
  rewrite Hev, writes_remove, (IH p Hf Hh) by done.
  change (st_name x, st_key x) with (entry_key x). destruct (decide (entry_key x = (n, k))) as [Hx | Hx]; cbn.
  - rewrite decide_True; [done |]. rewrite fmap_app, elem_of_app, <- Hx. right. left.
  - destruct (decide ((n, k) ∈ entry_key <$> p)) as [Hin | Hin]; [rewrite decide_True | rewrite decide_False]; try done; rewrite fmap_app; set_solver.
Qed.

(** [pmrt_finalize]: whatever a process has put (what its keeper holds), it removes from the server, and nothing else: when the server has handled
    the requests, the names and keys of the keeper have no value and all others have the value that they had. *)
Theorem finalize_removes e ws s h s' c st m : can_use_internal_kvs e = true -> keeps st m -> (forall n k, is_Some (m !! (n, k)) -> n <> []) ->
  exists bufs, pmrt_finalize e false st = Returns (empty_keeper, bufs) /\
    (serves ws s h s' -> h.*1 = Request c <$> bufs -> forall n k, value_of s' n k = if m !! (n, k) then None else value_of s n k).
Proof.
  intros He (Hsize & Hp & ->) Hne. destruct st as [p i]. cbn [head kvs_list_size] in *. eexists. split.
  { unfold pmrt_finalize. apply finalize_loop_spec; [done | done | | cbn; lia | done]. rewrite Forall_forall. intros x Hx.
    apply (Hne _ (st_key x)). eexists. apply elem_of_list_to_map_1; [rewrite <- list_fmap_compose; apply Hp |].
    apply (list_elem_of_fmap_2 entry) in Hx. exact Hx. }
  intros Hs Hh n k. rewrite (serve_removals _ _ _ _ _ _ Hs (proj2 Hp) Hh). cbn [head]. destruct (as_map p !! (n, k)) as [v|] eqn:Hv.
  - rewrite decide_True; [done |]. apply elem_of_list_to_map_2, list_elem_of_fmap in Hv as (x & [= Hn Hk Hx] & Hin).
    apply list_elem_of_fmap. exists x. unfold entry_key. rewrite <- Hn, <- Hk. done.
  - rewrite decide_False; [done |]. intros Hin. apply not_elem_of_list_to_map_2 in Hv. apply Hv. rewrite <- list_fmap_compose. exact Hin.
Qed.

Lemma finalize_removes_witness : exists bufs, pmrt_finalize demo_env false (put_key empty_keeper [65] [66] [67]) = Returns (empty_keeper, bufs) /\
  (forall s h s', serves None s h s' -> h.*1 = Request 5 <$> bufs -> value_of s' [65] [66] = None).
Proof.
  assert (forall c, c <> 0 -> fits [c]) as Hf by (intros c Hc; split; [repeat constructor; done | cbn; lia]).
  assert (keeps (put_key empty_keeper [65] [66] [67]) {[([65], [66]) := [67]]}) as Hk.
  { split_and!; [reflexivity | split | reflexivity]; [apply NoDup_singleton | apply Forall_singleton; split_and!; apply Hf; lia]. }
  exists [frame AM_REMOVE [65] [66] []]. split; [vm_compute; reflexivity |]. intros s h s' Hs Hh.
  destruct (finalize_removes demo_env None s h s' 5 (put_key empty_keeper [65] [66] [67]) {[([65], [66]) := [67]]}) as (bufs & H1 & H2).
  - reflexivity.
  - exact Hk.
  - intros n k [v Hv]. apply lookup_singleton_Some in Hv as [[= <- <-] _]. discriminate.
  - assert (bufs = [frame AM_REMOVE [65] [66] []]) as -> by (vm_compute in H1; vm_compute; congruence).
    exact (H2 Hs Hh [65] [66]).
Defined.

(** * Registration *)

Lemma length_to_string (n : nat) : Z.of_nat n < 2 ^ 31 -> (length (to_string n) <= 10)%nat.
Proof. intros Hn. destruct (to_string_spec n) as (_ & _ & _ & H). apply H; lia. Qed.

Lemma pad_end (n : nat) l : (length l <= n)%nat -> pad n l ++ [0] = pad (S n) l.
Proof.
  intros H. unfold pad. rewrite <- app_assoc. f_equal. replace (S n - length l)%nat with (n - length l + 1)%nat by lia. rewrite replicate_add. done.
Qed.

(** What [registration] reads from five numbers. *)
Lemma registration_read_answer (a b c d f : nat) : Z.of_nat a < 2 ^ 31 -> Z.of_nat b < 2 ^ 31 -> Z.of_nat c < 2 ^ 31 -> Z.of_nat d < 2 ^ 31 -> Z.of_nat f < 2 ^ 31 ->
  exists text, put_string (join_underscore [to_string a; to_string b; to_string c; to_string d; to_string f]) = Returns (r_val text) /\
    registration_read text = Returns (mk_registered (Z.of_nat a) (Z.of_nat b) (Z.of_nat c) (Z.of_nat d) (Z.of_nat f)).
Proof.
  intros Ha Hb Hc Hd Hf. set (l := join_underscore _).
  assert (l = to_string a ++ underscore :: to_string b ++ underscore :: to_string c ++ underscore :: to_string d ++ underscore :: to_string f) as El.
  { subst l. unfold join_underscore. cbn -[to_string underscore]. rewrite app_nil_r. done. }
  assert (length l < 130)%nat as Hl.
  { pose proof (length_to_string a Ha). pose proof (length_to_string b Hb). pose proof (length_to_string c Hc).
    pose proof (length_to_string d Hd). pose proof (length_to_string f Hf). rewrite El. repeat (rewrite length_app; cbn [length]). lia. }
  assert (chars l) as Hch.
  { rewrite El. unfold chars. repeat (rewrite ?Forall_app, ?Forall_cons). split_and!; first [apply chars_to_string | discriminate]. }
  exists (pad MAX_KVS_VAL_LENGTH l). split; [unfold put_string; rewrite (proj2 (Nat.leb_le _ _)) by (unfold MAX_KVS_VAL_LENGTH; lia); done |].
  unfold registration_read. rewrite pad_end by (unfold MAX_KVS_VAL_LENGTH; lia). rewrite c_str_pad; [| done | unfold MAX_KVS_VAL_LENGTH; lia].
  cbn [outcome_bind]. rewrite El. unfold split_underscore.
  do 4 (rewrite split_first by apply no_underscore_to_string; cbn [of_option outcome_bind fst snd]).
  rewrite !stoi_to_string by done. done.
Qed.

(** What the server knows about a process. *)
Definition reg_ok (r : registrant) : Prop :=
  (0 < rank_count_of r)%nat /\ Z.of_nat (rank_count_of r) < 2 ^ 31 /\ Z.of_nat (rank0 r) < 2 ^ 31 /\ Z.of_nat (pid r) < 2 ^ 31 /\ Z.of_nat (tid r) < 2 ^ 63 /\
  chars (hostname r) /\ underscore ∉ hostname r /\ (length (hostname r) < 64)%nat.
Definition info_of (r : registrant) : proc_info := mk_proc (to_string (rank0 r)) (Z.of_nat (rank_count_of r)) (to_string (tid r)).
Definition socket_of (x : Z * registrant) : socket_info := mk_socket x.1 (proc_string x.2) (info_of x.2).

Lemma registration_text_split r : reg_ok r -> fits (registration_text r) /\
  strstr_underscore (registration_text r) = Some (to_string (rank_count_of r), to_string (rank0 r) ++ underscore :: proc_string r ++ underscore :: to_string (tid r)) /\
  strstr_underscore (to_string (rank0 r) ++ underscore :: proc_string r ++ underscore :: to_string (tid r)) =
    Some (to_string (rank0 r), proc_string r ++ underscore :: to_string (tid r)) /\
  strstr_underscore (proc_string r ++ underscore :: to_string (tid r)) = Some (proc_string r, to_string (tid r)).
Proof.
  intros (H0 & H1 & H2 & H3 & H4 & H5 & H6 & H7).
  set (l := to_string (rank_count_of r) ++ underscore :: to_string (rank0 r) ++ underscore :: proc_string r ++ underscore :: to_string (tid r)).
  assert (length l < 130)%nat as Hl.
  { pose proof (length_to_string _ H1). pose proof (length_to_string _ H2). pose proof (length_to_string _ H3).
    destruct (to_string_spec (tid r)) as (_ & _ & _ & Ht). specialize (Ht 19%nat). subst l. unfold proc_string.
    repeat (rewrite length_app; cbn [length]). lia. }
  assert (registration_text r = l) as ->.
  { unfold registration_text, snprintf. subst l. cbn -[to_string underscore proc_string take max_vallen]. rewrite app_nil_r. apply take_ge. unfold max_vallen, MAX_KVS_VAL_LENGTH. lia. }
  assert (underscore ∉ proc_string r) as Hproc.
  { unfold proc_string. rewrite !not_elem_of_app, not_elem_of_cons. split_and!; [apply no_underscore_to_string | discriminate | apply not_elem_of_nil | done]. }
  split_and!; try (apply split_first; first [done | apply no_underscore_to_string]). split; [| done]. subst l. unfold chars, proc_string.
  repeat (rewrite ?Forall_app, ?Forall_cons). split_and!; first [apply chars_to_string | discriminate | done | constructor].
Qed.

(** The processes of some registrants. *)
Definition processes_of (rs : list (Z * registrant)) : gmap bytes (list proc_info) :=
  foldl (fun m x => <[proc_string x.2 := default [] (m !! proc_string x.2) ++ [info_of x.2]]> m) ∅ rs.
Definition same_proc (p : bytes) (rs : list (Z * registrant)) : list (Z * registrant) := filter (fun x => proc_string x.2 = p) rs.
Definition count_ranks (rs : list (Z * registrant)) : nat := sum_list_with (fun x => rank_count_of x.2) rs.

Lemma processes_of_snoc rs x : processes_of (rs ++ [x]) = <[proc_string x.2 := default [] (processes_of rs !! proc_string x.2) ++ [info_of x.2]]> (processes_of rs).
Proof. unfold processes_of. rewrite foldl_app. done. Qed.

Lemma processes_of_lookup rs p : default [] (processes_of rs !! p) = (fun x => info_of x.2) <$> same_proc p rs.
Proof.
  induction rs as [|x rs IH] using rev_ind; [done |]. rewrite processes_of_snoc. unfold same_proc in *. rewrite filter_app, fmap_app, filter_cons, filter_nil.
  destruct (decide (proc_string x.2 = p)) as [<- | Hne].
  - rewrite lookup_insert_eq. change (default [] (Some ?y)) with y. rewrite IH. done.
  - rewrite lookup_insert_ne, IH by done. cbn. rewrite app_nil_r. done.
Qed.

Lemma processes_of_dom rs : dom (processes_of rs) = list_to_set ((fun x => proc_string x.2) <$> rs).
Proof.
  induction rs as [|x rs IH] using rev_ind; [done |]. rewrite processes_of_snoc, dom_insert_L, IH, fmap_app, list_to_set_app_L. set_solver.
Qed.

Lemma insert_proc_perm p ps : insert_proc p ps ≡ₚ p :: ps.
Proof. induction ps as [|q ps IH]; [done |]. cbn. case_decide; [done |]. rewrite IH. apply Permutation_swap. Qed.
Lemma sort_procs_perm ps : sort_procs ps ≡ₚ ps.
Proof. induction ps as [|p ps IH]; [done |]. unfold sort_procs in *. cbn. rewrite insert_proc_perm, IH. done. Qed.

Lemma thread_index_spec r ps i j : thread_index r ps i = Some j -> (i <= j < i + length ps)%nat /\ exists p, ps !! (j - i)%nat = Some p /\ p_rank p = r.
Proof.
  revert i. induction ps as [|p ps IH]; intros i H; [done |]. cbn [thread_index] in H. case_decide as Hr.
  - injection H as <-. rewrite Nat.sub_diag. cbn. split; [lia | eauto].
  - apply IH in H as (H1 & q & H2 & H3). cbn. split; [lia |]. exists q. replace (j - i)%nat with (S (j - S i))%nat by lia. done.
Qed.
Lemma thread_index_some r ps i : r ∈ (p_rank <$> ps) -> is_Some (thread_index r ps i).
Proof.
  revert i. induction ps as [|p ps IH]; intros i H; [inversion H |]. cbn [thread_index]. case_decide; [eauto |]. apply IH. cbn in H. set_solver.
Qed.

Lemma foldl_total a ps : foldl (fun a p => a + rank_count p) a ps = a + foldr (fun p a => rank_count p + a) 0 ps.
Proof. revert a. induction ps as [|p ps IH]; intros a; cbn; [lia |]. rewrite IH. lia. Qed.
Lemma total_perm ps ps' : ps ≡ₚ ps' -> foldr (fun p a => rank_count p + a) 0 ps = foldr (fun p a => rank_count p + a) 0 ps'.
Proof. induction 1; cbn; lia. Qed.
Lemma total_info rs : foldr (fun p a => rank_count p + a) 0 ((fun x => info_of x.2) <$> rs) = Z.of_nat (count_ranks rs).
Proof. unfold count_ranks. induction rs as [|x rs IH]; [done |]. cbn [fmap list_fmap foldr rank_count info_of sum_list_with]. rewrite IH. lia. Qed.

Lemma count_ranks_cons x rs : count_ranks (x :: rs) = (rank_count_of x.2 + count_ranks rs)%nat.
Proof. done. Qed.
Lemma count_ranks_app rs rs' : count_ranks (rs ++ rs') = (count_ranks rs + count_ranks rs')%nat.
Proof. induction rs as [|x rs IH]; [done |]. rewrite <- app_comm_cons, !count_ranks_cons, IH. lia. Qed.
Lemma count_ranks_ge rs : Forall (fun x => reg_ok x.2) rs -> (length rs <= count_ranks rs)%nat.
Proof. induction 1 as [|x rs Hx H IH]; [done |]. rewrite count_ranks_cons. destruct Hx. cbn [length]. lia. Qed.
Lemma count_ranks_filter p rs : (count_ranks (same_proc p rs) <= count_ranks rs)%nat.
Proof. unfold same_proc. induction rs as [|x rs IH]; [done |]. rewrite filter_cons. case_decide; rewrite ?count_ranks_cons; lia. Qed.

Lemma to_string_inj a b : to_string a = to_string b -> a = b.
Proof. intros H. destruct (to_string_spec a) as (_ & _ & Ha & _), (to_string_spec b) as (_ & _ & Hb & _). rewrite H in Ha. lia. Qed.

(** The two requests of [registration]. *)
Definition size_buf (n : bytes) (g : nat) : bytes := frame AM_SET_SIZE n n (to_string g).
Definition register_buf (n : bytes) (r : registrant) : bytes := frame AM_INTERNAL_REGISTER n n (registration_text r).

Lemma fits_to_string (n : nat) : Z.of_nat n < 10 ^ 20 -> fits (to_string n).
Proof. intros H. split; [apply chars_to_string |]. destruct (to_string_spec n) as (_ & _ & _ & Hl). specialize (Hl 20%nat). lia. Qed.

Lemma fits_registration_name (id : nat) : Z.of_nat id < 2 ^ 31 -> fits (result_kvs_name INTERNAL_REGISTRATION id).
Proof. intros H. apply fits_name; [repeat constructor; discriminate | cbn; lia | lia]. Qed.

Lemma pad_pad (n : nat) l : (length l <= n)%nat -> pad n (pad n l) = pad n l.
Proof. intros H. unfold pad at 1. rewrite length_pad, Nat.sub_diag by done. apply app_nil_r. Qed.

Lemma registration_requests_bufs e id g r : can_use_internal_kvs e = true -> Z.of_nat id < 2 ^ 31 -> Z.of_nat g < 2 ^ 31 -> reg_ok r ->
  let n := result_kvs_name INTERNAL_REGISTRATION id in registration_requests e id g r = Returns [size_buf n g; register_buf n r].
Proof.
  intros He Hid Hg Hok n. destruct (fits_registration_name id Hid) as [_ Ln]. fold n in Ln. destruct (registration_text_split r Hok) as ([_ Lt] & _).
  destruct (fits_to_string g) as [_ Lg]; [lia |]. assert (n <> []) as Nn by discriminate.
  unfold registration_requests, kvs_set_size, kvs_register, write_request. fold n. rewrite He. cbn [outcome_bind].
  rewrite put_frame; [| unfold MAX_KVS_NAME_LENGTH, MAX_KVS_KEY_LENGTH, MAX_KVS_VAL_LENGTH; lia .. | done | done].
  rewrite put_frame; [| unfold MAX_KVS_NAME_LENGTH, MAX_KVS_KEY_LENGTH; lia .. | rewrite length_pad; unfold max_vallen, MAX_KVS_VAL_LENGTH; lia | done | done].
  cbn [of_option outcome_bind]. unfold frame. unfold max_vallen. rewrite pad_pad by (unfold MAX_KVS_VAL_LENGTH; lia). done.
Qed.

(** The mode of a request about a communicator. *)
Definition about_comm (n : bytes) (ev : event) : option Z :=
  match ev with
  | Connect _ => None
  | Request _ buf =>
    let rq := decoded buf in
    if bool_decide (str_key rq = Returns n) && ((mode rq =? AM_SET_SIZE) || (mode rq =? AM_INTERNAL_REGISTER)) then Some (mode rq) else None
  end.

(** A communicator after an event. *)
Lemma serve_comm ws s ev s' out n : serve ws s ev = Returns (s', out) ->
  match ev, about_comm n ev with
  | Request c buf, Some m => exists v, str_val (decoded buf) = Returns v /\
      if m =? AM_SET_SIZE
      then exists g, safe_strtol v = Returns g /\ let c := default new_comm (communicators s !! n) in
        communicators s' !! n = Some (mk_comm_info g (l_size c) (sockets c) (processes c)) /\ out = []
      else exists r, internal_register (socket_open s c) (default new_comm (communicators s !! n)) c v = Returns r /\ communicators s' !! n = Some r.1 /\ out = r.2
  | _, _ => communicators s' !! n = communicators s !! n
  end.
Proof.
  intros H. destruct ev as [fd | socket buf]; cbn [serve about_comm] in *.
  { returns. unfold try_to_connect_new in *. destruct (replace_slot _ _ _); [| discriminate]. cbn zeta in *. returns. done. }
  destruct (Nat.lt_ge_cases (length buf) put_buf_size) as [L|L].
  { unfold make_client_request, decoded, get in *. rewrite (proj2 (Nat.ltb_lt _ _)) in * by done. cbn in *. rewrite andb_false_r. returns. done. }
  rewrite make_request in H by done. generalize dependent (decoded buf). intros rq H.
  mode_cases H; repeat match goal with E : mode rq = _ |- _ => rewrite E in *; clear E | E : mode rq <> _ |- _ => apply Z.eqb_neq in E; try rewrite E end;
    cbn [Z.eqb Pos.eqb AM_CLOSE AM_PUT AM_REMOVE AM_GET_VAL AM_GET_COUNT AM_GET_REPLICA AM_GET_KEYS_VALUES AM_BARRIER AM_BARRIER_REGISTER AM_SET_SIZE AM_INTERNAL_REGISTER orb andb] in *;
    rewrite ?andb_false_r, ?andb_true_r; try (inner_cases H; returns; done).
  - returns. destruct (decide (x = n)) as [-> | Hn].
    + rewrite bool_decide_true by done. eexists. split; [done |]. eexists. split; [done |]. cbn. rewrite lookup_insert_eq. done.
    + rewrite bool_decide_false by congruence. cbn. apply lookup_insert_ne. done.
  - returns. destruct (decide (x = n)) as [-> | Hn].
    + rewrite bool_decide_true by done. eexists. split; [done |]. exists x1. cbn. rewrite lookup_insert_eq. done.
    + rewrite bool_decide_false by congruence. cbn. apply lookup_insert_ne. done.
Qed.

Lemma about_size_buf n c g : fits n -> Z.of_nat g < 2 ^ 31 -> about_comm n (Request c (size_buf n g)) = Some AM_SET_SIZE /\ str_val (decoded (size_buf n g)) = Returns (to_string g).
Proof.
  intros Hn Hg. unfold size_buf. cbn [about_comm]. destruct (decoded_frame AM_SET_SIZE n n (to_string g)) as (E & _ & E2 & E3); [unfold byte, AM_SET_SIZE; lia | done | done | apply fits_to_string; lia |].
  rewrite E2, E3, E. rewrite bool_decide_true by done. done.
Qed.
Lemma about_register_buf n c r : fits n -> reg_ok r ->
  about_comm n (Request c (register_buf n r)) = Some AM_INTERNAL_REGISTER /\ str_val (decoded (register_buf n r)) = Returns (registration_text r).
Proof.
  intros Hn Hr. destruct (registration_text_split r Hr) as (Hfit & _). unfold register_buf. cbn [about_comm].
  destruct (decoded_frame AM_INTERNAL_REGISTER n n (registration_text r)) as (E & _ & E2 & E3); [unfold byte, AM_INTERNAL_REGISTER; lia | done .. |].
  rewrite E2, E3, E. rewrite bool_decide_true by done. done.
Qed.

(** One registration, in the state that the earlier ones have made. *)
Definition registered_so_far (g : nat) (rs : list (Z * registrant)) : comm_info :=
  mk_comm_info (Z.of_nat g) (Z.of_nat (count_ranks rs)) (socket_of <$> rs) (processes_of rs).

Lemma register_step open g rs x : reg_ok x.2 -> Z.of_nat (count_ranks (rs ++ [x])) < 2 ^ 63 ->
  internal_register open (registered_so_far g rs) x.1 (registration_text x.2) =
    (if (count_ranks (rs ++ [x]) =? g)%nat then
       out <-? answers open (sort_procs <$> processes_of (rs ++ [x])) (socket_of <$> (rs ++ [x])) ;;
       Returns (mk_comm_info (Z.of_nat g) (Z.of_nat (count_ranks (rs ++ [x]))) (socket_of <$> (rs ++ [x])) (sort_procs <$> processes_of (rs ++ [x])), out)
     else Returns (registered_so_far g (rs ++ [x]), [])).
Proof.
  intros Hok Hsum. destruct (registration_text_split x.2 Hok) as (_ & S1 & S2 & S3).
  unfold internal_register. rewrite S1. cbn [fst snd]. rewrite S2. rewrite S3.
  destruct Hok as (_ & H1 & _). rewrite strtol_to_string by lia. cbn [outcome_bind registered_so_far g_size l_size sockets processes].
  rewrite count_ranks_app, (count_ranks_cons x []) in Hsum. change (count_ranks []) with O in Hsum. rewrite Nat.add_0_r in Hsum.
  rewrite count_ranks_app, (count_ranks_cons x []). change (count_ranks []) with O. rewrite Nat.add_0_r.
  rewrite wrap_small by lia. rewrite <- Nat2Z.inj_add. fold (info_of x.2). change (mk_socket x.1 (proc_string x.2) (info_of x.2)) with (socket_of x).
  rewrite <- processes_of_snoc. replace ((socket_of <$> rs) ++ [socket_of x]) with (socket_of <$> rs ++ [x]) by (rewrite fmap_app; done).
  unfold sorted_procs. cbn [processes].
  destruct (Nat.eqb_spec (count_ranks rs + rank_count_of x.2) g) as [Hg | Hg].
  - rewrite (proj2 (Z.eqb_eq _ _)) by lia. done.
  - rewrite (proj2 (Z.eqb_neq _ _)) by lia. unfold registered_so_far.
    rewrite count_ranks_app, (count_ranks_cons x []). change (count_ranks []) with O. rewrite Nat.add_0_r. reflexivity.
Qed.

(** The registrations for a communicator among some events. *)
Definition registrations (n : bytes) (evs : list event) : list event := filter (fun ev => about_comm n ev = Some AM_INTERNAL_REGISTER) evs.
Definition size_set (n : bytes) (evs : list event) : bool := existsb (fun ev => bool_decide (about_comm n ev = Some AM_SET_SIZE)) evs.

Lemma size_set_in n evs ev : ev ∈ evs -> about_comm n ev = Some AM_SET_SIZE -> size_set n evs = true.
Proof. intros Hin He. apply existsb_exists. exists ev. split; [by apply list_elem_of_In | by apply bool_decide_eq_true]. Qed.

(** Nobody is answered before the last registration. *)
Lemma register_prefix ws s h s' n g rs : fits n -> serves ws s h s' -> communicators s !! n = None ->
  registrations n h.*1 = (fun y => Request y.1 (register_buf n y.2)) <$> rs ->
  (forall ev, ev ∈ h.*1 -> about_comm n ev = Some AM_SET_SIZE -> exists c, ev = Request c (size_buf n g)) ->
  (forall h1 ev h2, h.*1 = h1 ++ ev :: h2 -> about_comm n ev = Some AM_INTERNAL_REGISTER -> size_set n h1 = true) ->
  Forall (fun x => reg_ok x.2) rs -> (count_ranks rs < g)%nat -> Z.of_nat g < 2 ^ 31 ->
  communicators s' !! n = (if size_set n h.*1 then Some (registered_so_far g rs) else None) /\
  Forall (fun p => about_comm n p.1 = Some AM_INTERNAL_REGISTER -> p.2 = []) h.
Proof.
  intros Hn Hs Hc. revert rs. induction Hs as [|h s1 ev s2 out Hs IH _ Hserve]; intros rs Hreg Hsize Hord Hok Hlt Hg; [split; [done | constructor] |].
  rewrite fmap_app in *. cbn [fmap list_fmap fst] in *. pose proof (serve_comm _ _ _ _ _ n Hserve) as Hsc. unfold registrations in Hreg. rewrite filter_app, filter_cons, filter_nil in Hreg.
  assert (size_set n (h.*1 ++ [ev]) = size_set n h.*1 || bool_decide (about_comm n ev = Some AM_SET_SIZE)) as -> by (unfold size_set; rewrite existsb_app; cbn; rewrite orb_false_r; done).
  assert (forall rs0, registrations n h.*1 = (fun y => Request y.1 (register_buf n y.2)) <$> rs0 -> Forall (fun x => reg_ok x.2) rs0 -> (count_ranks rs0 < g)%nat ->
    communicators s1 !! n = (if size_set n h.*1 then Some (registered_so_far g rs0) else None) /\
    Forall (fun p => about_comm n p.1 = Some AM_INTERNAL_REGISTER -> p.2 = []) h) as IH'.
  { intros rs0 H1 H2 H3. apply IH; try done; [intros ev' Hin; apply Hsize; set_solver |]. intros h1 ev' h2 E. apply (Hord h1 ev' (h2 ++ [ev])). rewrite E, <- app_assoc. done. }
  clear IH. case_decide as Hr.
  - destruct rs as [|y rs _] using rev_ind; [apply app_eq_nil in Hreg as [_ ?]; done |]. rewrite fmap_app in Hreg. apply app_inj_tail in Hreg as [Hreg ->].
    apply Forall_app in Hok as [Hok Hy]. rewrite Forall_singleton in Hy. pose proof Hlt as Hlt'. rewrite count_ranks_app in Hlt'.
    destruct (IH' rs) as [C1 F1]; [done | done | lia |]. rewrite (Hord h.*1 (Request y.1 (register_buf n y.2)) []) in * by done. rewrite Hr in Hsc. cbn [orb].
    destruct Hsc as (v & Hv & r & Hir & Hc2 & ->). rewrite (proj2 (about_register_buf n y.1 y.2 Hn Hy)) in Hv. injection Hv as <-. rewrite C1 in Hir. cbn [default from_option id] in Hir.
    rewrite register_step, (proj2 (Nat.eqb_neq _ _)) in Hir by (done || lia). returns. split; [done |]. apply Forall_app. split; [done |]. constructor; [done | constructor].
  - rewrite app_nil_r in Hreg. destruct (IH' rs Hreg Hok Hlt) as [C1 F1]. split; [| apply Forall_app; split; [done |]; constructor; [done | constructor]].
    destruct (about_comm n ev) as [m|] eqn:Em; cycle 1.
    { assert (communicators s2 !! n = communicators s1 !! n) as -> by (destruct ev; [exact Hsc | rewrite Em in Hsc; exact Hsc]). rewrite C1, bool_decide_false, orb_false_r by done. done. }
    destruct ev as [fd|c buf]; [done |]. assert (m = AM_SET_SIZE) as ->.
    { cbn [about_comm] in Em. destruct (bool_decide _); [| done]. destruct (Z.eqb_spec (mode (decoded buf)) AM_SET_SIZE) as [->|]; [by injection Em as <- |].
      cbn in Em. destruct (Z.eqb_spec (mode (decoded buf)) AM_INTERNAL_REGISTER) as [E|]; [destruct Hr; congruence | done]. }
    destruct (Hsize (Request c buf)) as [c' [= <- ->]]; [set_solver | done |]. rewrite Em in Hsc. destruct Hsc as (v & Hv & g' & Hg' & Hc2 & ->).
    rewrite (proj2 (about_size_buf n c g Hn Hg)) in Hv. injection Hv as <-. rewrite strtol_to_string in Hg' by lia. injection Hg' as <-.
    rewrite Hc2, C1, bool_decide_true, orb_true_r by done. destruct (size_set n h.*1) eqn:Es; [done |].
    destruct rs as [|y rs _] using rev_ind; [done |]. exfalso. rewrite fmap_app in Hreg.
    assert (Request y.1 (register_buf n y.2) ∈ registrations n h.*1) as Hin by (unfold registrations; rewrite Hreg; set_solver). apply list_elem_of_filter in Hin as [Ha Hin].
    apply list_elem_of_split in Hin as (h1 & h2 & E). assert (size_set n h1 = true) as Et by (eapply (Hord h1 _ (h2 ++ [_])); [rewrite E, <- app_assoc; done | done]).
    rewrite E in Es. unfold size_set in *. rewrite existsb_app, Et in Es. done.
Qed.

Lemma answers_spec open procs (Q : Z * registrant -> bytes -> Prop) xs :
  (forall x, x ∈ xs -> open x.1 = true /\ exists text, put_string (registration_answer procs (socket_of x)) = Returns (r_val text) /\ Q x text) ->
  exists outs, answers open procs (socket_of <$> xs) = Returns outs /\ Forall2 (fun x o => exists text, o = (x.1, r_val text) /\ Q x text) xs outs.
Proof.
  induction xs as [|x xs IH]; intros H; [exists []; split; [done | constructor] |]. rewrite fmap_cons. cbn [answers].
  destruct (H x) as (Hop & text & E & HQ); [left |]. destruct IH as (outs & Eo & HF); [intros; apply H; right; done |].
  rewrite E. cbn [outcome_bind socket_of s_socket]. rewrite Hop, Eo. cbn [outcome_bind]. eexists. split; [done |]. constructor; eauto.
Qed.

(** The number of a thread among those of its process. *)
Definition thread_of (rs : list (Z * registrant)) (r : registrant) : nat :=
  default O (thread_index (to_string (rank0 r)) (sort_procs ((fun x => info_of x.2) <$> same_proc (proc_string r) rs)) 0).

Lemma thread_of_spec rs x : x ∈ rs ->
  thread_index (to_string (rank0 x.2)) (sort_procs ((fun x => info_of x.2) <$> same_proc (proc_string x.2) rs)) 0 = Some (thread_of rs x.2) /\
  (thread_of rs x.2 < length (same_proc (proc_string x.2) rs))%nat.
Proof.
  intros Hx. unfold thread_of. set (ps := sort_procs _).
  assert (ps ≡ₚ (fun x => info_of x.2) <$> same_proc (proc_string x.2) rs) as Hperm by apply sort_procs_perm.
  destruct (thread_index_some (to_string (rank0 x.2)) ps 0) as [t Ht].
  { rewrite Hperm, <- list_fmap_compose. apply list_elem_of_fmap. exists x. split; [done |]. apply list_elem_of_filter. done. }
  rewrite Ht. split; [done |]. apply thread_index_spec in Ht as [Ht _]. apply Permutation_length in Hperm. rewrite length_fmap in Hperm. change (default O (Some t)) with t. lia.
Qed.

Lemma thread_of_inj rs x y : x ∈ rs -> y ∈ rs -> proc_string x.2 = proc_string y.2 -> thread_of rs x.2 = thread_of rs y.2 -> rank0 x.2 = rank0 y.2.
Proof.
  intros Hx Hy Hp Ht. destruct (thread_of_spec rs x Hx) as [Ex _], (thread_of_spec rs y Hy) as [Ey _]. rewrite Hp, Ht in Ex.
  apply thread_index_spec in Ex as (_ & p & Hlp & Hrp), Ey as (_ & q & Hlq & Hrq). apply to_string_inj. congruence.
Qed.

(** The request of a registration. *)
Lemma register_request ws s n x : fits n -> reg_ok x.2 ->
  exists s1, make_client_request ws s x.1 (register_buf n x.2) =
    (r <-? internal_register (socket_open s x.1) (default new_comm (communicators s !! n)) x.1 (registration_text x.2) ;; Returns (set_comm s1 n r.1, r.2)).
Proof.
  intros Hn Hok. destruct (registration_text_split x.2 Hok) as (Hfit & _). eexists. unfold register_buf. rewrite make_request by (rewrite length_frame by done; done).
  destruct (decoded_frame AM_INTERNAL_REGISTER n n (registration_text x.2)) as (E & _ & E2 & E3); [unfold byte, AM_INTERNAL_REGISTER; lia | done .. |].
  unfold handle. cbn [request communicators]. rewrite E2, E3. rewrite E. cbn [mode Z.eqb Pos.eqb AM_CLOSE AM_PUT AM_REMOVE AM_GET_VAL AM_GET_COUNT AM_GET_REPLICA
    AM_GET_KEYS_VALUES AM_BARRIER AM_BARRIER_REGISTER AM_SET_SIZE AM_INTERNAL_REGISTER outcome_bind]. reflexivity.
Qed.

(** The answer to a registrant, as it reads it. *)
Definition told (rs : list (Z * registrant)) (r : registrant) : registered :=
  mk_registered (Z.of_nat (size (list_to_set ((fun x => proc_string x.2) <$> rs) : gset bytes))) (Z.of_nat (rank0 r))
    (Z.of_nat (count_ranks (same_proc (proc_string r) rs))) (Z.of_nat (length (same_proc (proc_string r) rs))) (Z.of_nat (thread_of rs r)).

Lemma size_list_to_set_le (l : list bytes) : (size (list_to_set l : gset bytes) <= length l)%nat.
Proof.
  induction l as [|x l IH]; [done |]. cbn [list_to_set length]. destruct (decide (x ∈ (list_to_set l : gset bytes))) as [Hx | Hx].
  - replace ({[x]} ∪ list_to_set l) with (list_to_set l : gset bytes) by set_solver. lia.
  - rewrite size_union, size_singleton by set_solver. lia.
Qed.

Lemma answer_read rs x : x ∈ rs -> Forall (fun x => reg_ok x.2) rs -> Z.of_nat (count_ranks rs) < 2 ^ 31 ->
  exists text, put_string (registration_answer (sort_procs <$> processes_of rs) (socket_of x)) = Returns (r_val text) /\ registration_read text = Returns (told rs x.2).
Proof.
  intros Hx Hok Hsum. pose proof (count_ranks_ge rs Hok) as Hlen. pose proof (count_ranks_filter (proc_string x.2) rs) as Hfil.
  destruct (thread_of_spec rs x Hx) as [Ht Htl]. unfold registration_answer. cbn [proc_id process_info socket_of p_rank info_of].
  assert (default [] ((sort_procs <$> processes_of rs) !! proc_string x.2) = sort_procs ((fun x => info_of x.2) <$> same_proc (proc_string x.2) rs)) as ->.
  { rewrite <- processes_of_lookup, lookup_fmap. destruct (processes_of rs !! proc_string x.2); done. }
  rewrite Ht, map_size_fmap, <- size_dom, processes_of_dom. cbn [from_option].
  rewrite foldl_total, (total_perm _ _ (sort_procs_perm _)), total_info, (Permutation_length (sort_procs_perm _)), length_fmap, Z.add_0_l.
  rewrite wrap_small, Nat2Z.id by lia. rewrite Forall_forall in Hok. destruct (Hok x Hx) as (_ & _ & Hrank & _).
  assert (size (list_to_set ((fun x => proc_string x.2) <$> rs) : gset bytes) <= length rs)%nat as Hsize.
  { rewrite <- (length_fmap (fun x => proc_string x.2) rs). apply size_list_to_set_le. }
  assert (length (same_proc (proc_string x.2) rs) <= length rs)%nat as Hl by apply length_filter.
  apply registration_read_answer; lia.
Qed.

(** C37: [registration] with [AM_SET_SIZE] and [AM_INTERNAL_REGISTER] of the server: the processes (or threads of them) of a communicator, with different first
    ranks, rank counts that sum up to its size and host names without an underscore, each send the size of the communicator and then register, in any order and
    interleaved with one another and with whatever else the server is asked.  Nobody is answered before the last one registers; then, if the sockets are still open,
    all are, each on its socket, and read the number of processes, their own rank, the number of ranks and of threads of their process, and a thread number
    below that number which no other thread of their process has. *)
Theorem registration_complete e ws local_id s h s' rs x :
  let n := result_kvs_name INTERNAL_REGISTRATION local_id in let all := rs ++ [x] in let size_request c := Request c (size_buf n (count_ranks all)) in
  can_use_internal_kvs e = true -> Z.of_nat local_id < 2 ^ 31 -> Forall (fun y => reg_ok y.2) all -> NoDup ((fun y => rank0 y.2) <$> all) -> Z.of_nat (count_ranks all) < 2 ^ 31 ->
  serves ws s h s' -> communicators s !! n = None ->
  registrations n h.*1 = (fun y => Request y.1 (register_buf n y.2)) <$> rs ->
  (forall ev, ev ∈ h.*1 -> about_comm n ev = Some AM_SET_SIZE -> exists c, ev = size_request c) ->
  (forall h1 y h2, h.*1 = h1 ++ Request y.1 (register_buf n y.2) :: h2 -> size_request y.1 ∈ h1) -> size_request x.1 ∈ h.*1 ->
  (forall y, y ∈ rs -> y.1 ∈ poll_fds s') ->
  (forall y, y ∈ all -> registration_requests e local_id (count_ranks all) y.2 = Returns [size_buf n (count_ranks all); register_buf n y.2]) /\
  (forall ev out, (ev, out) ∈ h -> about_comm n ev = Some AM_INTERNAL_REGISTER -> out = []) /\
  exists s'' out threads, make_client_request ws s' x.1 (register_buf n x.2) = Returns (s'', out) /\
    Forall2 (fun y o => exists text, o = (y.1, r_val text) /\
      registration_read text = Returns (mk_registered (Z.of_nat (size (list_to_set ((fun y => proc_string y.2) <$> all) : gset bytes))) (Z.of_nat (rank0 y.2))
        (Z.of_nat (count_ranks (same_proc (proc_string y.2) all))) (Z.of_nat (length (same_proc (proc_string y.2) all))) (Z.of_nat (threads y.2)))) all out /\
    (forall y, y ∈ all -> (threads y.2 < length (same_proc (proc_string y.2) all))%nat) /\
    (forall i j y z, all !! i = Some y -> all !! j = Some z -> i <> j -> proc_string y.2 = proc_string z.2 -> threads y.2 <> threads z.2).
Proof.
  intros n all size_request He Hid Hok Hnd Hsum Hs Hc Hreg Hsize Hord Hxs Hopen. pose proof (fits_registration_name local_id Hid) as Hn. fold n in Hn.
  pose proof Hok as Hok'. apply Forall_app in Hok' as [Hrs Hx]. rewrite Forall_singleton in Hx.
  assert (count_ranks rs < count_ranks all)%nat as Hlt.
  { unfold all. rewrite count_ranks_app, (count_ranks_cons x []). destruct Hx as [Hpos _]. lia. }
  assert (forall c, about_comm n (size_request c) = Some AM_SET_SIZE) as Habout by (intros c; apply about_size_buf; done).
  destruct (register_prefix ws s h s' n (count_ranks all) rs) as [C1 F1]; try done.
  { intros h1 ev h2 E Hev. assert (ev ∈ registrations n h.*1) as Hin by (apply list_elem_of_filter; rewrite E; set_solver). rewrite Hreg in Hin.
    apply list_elem_of_fmap in Hin as (y & -> & _). eapply size_set_in; [by eapply Hord | apply Habout]. }
  rewrite (size_set_in n _ _ Hxs) in C1 by apply Habout. split_and!.
  - rewrite Forall_forall in Hok. intros y Hy. apply registration_requests_bufs; auto.
  - intros ev out Hin. rewrite Forall_forall in F1. exact (F1 (ev, out) Hin).
  - destruct (answers_spec (socket_open s' x.1) (sort_procs <$> processes_of all) (fun y text => registration_read text = Returns (told all y.2)) all) as (outs & Eo & HF).
    { intros y Hy. split; [| apply answer_read; done]. unfold socket_open. apply elem_of_app in Hy as [Hy | ->%list_elem_of_singleton]; [| rewrite Z.eqb_refl; done].
      rewrite bool_decide_true by auto. apply orb_true_r. }
    destruct (register_request ws s' n x) as [s1 E1]; [done | done |]. rewrite C1 in E1. cbn [default from_option id] in E1. rewrite register_step in E1 by (fold all; done || lia).
    fold all in E1. rewrite Nat.eqb_refl, Eo in E1. eexists _, outs, (thread_of all). split; [exact E1 |]. split; [exact HF |]. split; [intros y Hy; apply thread_of_spec; done |].
    intros i j y z Hi Hj Hij Hp Ht. apply Hij. eapply (NoDup_lookup _ _ _ _ Hnd); rewrite list_lookup_fmap; [rewrite Hi; done |].
    rewrite Hj. cbn. f_equal. symmetry. eapply thread_of_inj; [eapply list_elem_of_lookup_2; done .. | done | done].
Qed.

(** Events one after another, each of a socket that is polled. *)
#[export] Instance polled_dec s ev : Decision (polled s ev).
Proof. destruct ev; cbn; apply _. Defined.
Fixpoint serve_all (ws : option bytes) (s : server) (evs : list event) : outcome (server * history) :=
  match evs with
  | [] => Returns (s, [])
  | ev :: evs' => check bool_decide (polled s ev) ;; r <-? serve ws s ev ;; rr <-? serve_all ws r.1 evs' ;; Returns (rr.1, (ev, r.2) :: rr.2)
  end.
Lemma serve_all_serves ws s0 h s evs s' h' : serves ws s0 h s -> serve_all ws s evs = Returns (s', h') -> serves ws s0 (h ++ h') s'.
Proof.
  revert s h h'. induction evs as [|ev evs IH]; intros s h h' Hs H; cbn [serve_all] in H; [returns; rewrite app_nil_r; done |].
  case_bool_decide as Hp; [| done]. cbn [outcome_bind] in H. returns. destruct x as [s1 out]. replace (h ++ (ev, (s1, out).2) :: _) with ((h ++ [(ev, out)]) ++ x0.2) by (rewrite <- app_assoc; done).
  eapply IH; [econstructor; done |]. destruct x0. done.
Qed.

(** Two threads of a process on one host and a process of another. *)
Definition demo_server3 : server := mk_server (request new_server) 3 [5; 6; 7] ∅ ∅ ∅.
Definition demo_comm : bytes := result_kvs_name INTERNAL_REGISTRATION 0.
Definition demo_events : list event :=
  [Request 5 (size_buf demo_comm 4); Request 6 (size_buf demo_comm 4); Request 5 (register_buf demo_comm (mk_registrant 1 1 100 [97] 8)); Request 7 (size_buf demo_comm 4);
   Request 6 (register_buf demo_comm (mk_registrant 2 2 100 [98] 9))].

Lemma registration_complete_witness : exists s' h s'' out, serve_all None demo_server3 demo_events = Returns (s', h) /\
  make_client_request None s' 7 (register_buf demo_comm (mk_registrant 1 0 100 [97] 7)) = Returns (s'', out) /\ length out = 3%nat.
Proof.
  destruct (serve_all None demo_server3 demo_events) as [[s' h]| |] eqn:E; [| vm_compute in E; discriminate ..].
  assert (h.*1 = demo_events) as Eh by (vm_compute in E; injection E as _ <-; reflexivity). assert (poll_fds s' = [5; 6; 7]) as Ep by (vm_compute in E; injection E as <- _; reflexivity).
  destruct (registration_complete demo_env None 0 demo_server3 h s' [(5, mk_registrant 1 1 100 [97] 8); (6, mk_registrant 2 2 100 [98] 9)] (7, mk_registrant 1 0 100 [97] 7))
    as (_ & _ & s'' & out & threads & H1 & H2 & _).
  - reflexivity.
  - reflexivity.
  - assert (forall c a p h t, (0 < c < 10)%nat -> (a < 10)%nat -> (p < 1000)%nat -> (t < 10)%nat -> h <> 0 -> h <> underscore -> reg_ok (mk_registrant c a p [h] t)) as Hok.
    { intros c a p h' t Hc Ha Hp Ht H0 Hu. unfold reg_ok. cbn [rank_count_of rank0 pid hostname tid length]. split_and!; try lia;
        [repeat constructor; done | rewrite list_elem_of_singleton; congruence]. }
    repeat (apply Forall_cons; split; [apply Hok; first [lia | discriminate] |]). constructor.
  - apply NoDup_ListNoDup. repeat constructor; cbn; intuition discriminate.
  - vm_compute. reflexivity.
  - apply (serve_all_serves None demo_server3 [] demo_server3 demo_events); [constructor | exact E].
  - reflexivity.
  - rewrite Eh. vm_compute. reflexivity.
  - rewrite Eh. intros ev Hin Hev. rewrite list_elem_of_In in Hin. destruct Hin as [<- | [<- | [<- | [<- | [<- | []]]]]]; first [eexists; reflexivity | vm_compute in Hev; discriminate].
  - rewrite Eh. intros h1 [c r] h2. cbn [fst snd]. change (count_ranks _) with 4%nat. fold demo_comm. unfold demo_events.
    assert (forall r, size_buf demo_comm 4 <> register_buf demo_comm r) as Hne by (intros r' Hr'; apply (f_equal (fun l => nth 0 l 0)) in Hr'; discriminate).
    generalize dependent (size_buf demo_comm 4). generalize dependent (register_buf demo_comm). clear. intros rb sb Hne Hh.
    destruct h1 as [|e1 [|e2 [|e3 [|e4 [|e5 h1]]]]]; injection Hh; intros; subst; first [set_solver | exfalso; eapply Hne; eassumption | destruct h1; discriminate].
  - rewrite Eh. right. right. right. left.
  - rewrite Ep. intros y Hy. rewrite list_elem_of_In in Hy. destruct Hy as [<- | [<- | []]]; [left | right; left].
  - exists s', h, s'', out. split; [reflexivity |]. split; [exact H1 |]. apply Forall2_length in H2. symmetry. exact H2.
Defined.

(** * What the code does besides *)

(** The condition on the initialization mode always holds: one mode cannot be both. *)
Lemma pmix_modes_not_excluded e : bool_decide (kvs_init_mode e <> pmix_ofi) || bool_decide (kvs_init_mode e <> pmix_ofi_shm) = true.
Proof. destruct (kvs_init_mode e); reflexivity. Qed.

(** Two processes with the same id on hosts "n_1" and "n_2" are taken for one: the host name is cut at its underscore. *)
Example hostname_with_underscore :
  let r1 := mk_registrant 1 0 100 [110; 95; 49] 8 in let r2 := mk_registrant 1 1 100 [110; 95; 50] 9 in
  match serve_all None (mk_server (request new_server) 2 [5; 6] ∅ ∅ ∅)
          [Request 5 (size_buf demo_comm 2); Request 6 (size_buf demo_comm 2); Request 5 (register_buf demo_comm r1); Request 6 (register_buf demo_comm r2)] with
  | Returns (_, [_; _; _; (_, [(5, r_val t1); (6, r_val t2)])]) =>
      registration_read t1 = Returns (mk_registered 1 0 2 2 0) /\ registration_read t2 = Returns (mk_registered 1 1 2 2 1)
  | _ => False
  end.
Proof. vm_compute. split; reflexivity. Qed.

(** A name of exactly [MAX_KVS_NAME_LENGTH] characters is accepted by [put], and the server reads past the array. *)
Example longest_name_not_terminated :
  (put AM_PUT (replicate 130 65) [66] [67] ≫= fun buf => Some (make_client_request None new_server 5 buf)) = Some Undefined.
Proof. vm_compute. reflexivity. Qed.

(** A value that arrives after the timeout is thrown away. *)
Example late_value_lost : kvs_get_value 60 [] [([r_size 0], 59); ([r_size 1; r_val (pad 130 [49; 50])], 61)] = Throws.
Proof. reflexivity. Qed.
